(* ===== verification/_CoqProject ===== *)
-Q . S2P
Prelude.v
Hparams.v
KvCells.v
KvCellsMachine.v
Memory.v
Batch.v
BatchEqual.v
BatchInit.v
KvCache.v
KvCacheSeq.v
KvCacheSlot.v
KvCacheMachine.v
KvCacheBatch.v
KvInputs.v
KvState.v
KvStateOk.v
KvCacheIswa.v
Recurrent.v
RecurrentOk.v
RecurrentSlot.v
RecurrentDecode.v
RecurrentGraph.v
RecurrentBatch.v
RecurrentFaults.v
RecurrentState.v
Hybrid.v
HybridBatch.v
HybridOk.v
StateExn.v
GrammarParser.v
GrammarParserOk.v
Utf8.v
Unicode.v
UnicodeOk.v
UnicodeSplit.v
UnicodeSplitOk.v
UnicodeRegex.v
UnicodeRegexOk.v
Vocab.v
VocabOk.v
VocabMerge.v
VocabMergeOk.v
VocabSpmOk.v
VocabBpeOk.v
VocabUgm.v
VocabUgmOk.v
VocabWords.v
VocabPlamo.v
VocabText.v
VocabTextOk.v
VocabDetokOk.v
VocabPartOk.v
VocabTripOk.v
VocabWordsOk.v
Grammar.v
GrammarOk.v
GrammarPartial.v
GrammarLang.v
GrammarTerm.v
GrammarLeftRec.v
GrammarReject.v
GrammarState.v
GrammarSpec.v
GrammarApply.v
RingBuffer.v
Sampling.v
SamplingOk.v
SamplingState.v
SamplingStateOk.v
SamplingDry.v
SamplingDryOk.v
SamplingChain.v
