(* ===== verification/Prelude.v ===== *)
(** * The inference state of llama.cpp as vendored by this repository

    The repository is a Go server and desktop application around the C++ inference library
    src/llama/llama.cpp.  This development models the C++ code that keeps the state of an
    inference, everything between "a batch of tokens arrives" and "the graph runs", the
    tokenizers in front of it, and the samplers and the grammar that choose the next token
    afterwards.

    ** Parts of the program and files of the development

    - Prelude: results of C++ code.  A computation returns [Ok], throws ([Throw], a
      [std::runtime_error] with its message) or faults ([Fault]: a failed assertion, an access
      outside a container, a signed overflow, an abort, or no fuel left in the model).  Signed
      32-bit arithmetic goes through [i32]; unsigned wrap-around through [u32] and [u64].
      [runs m P] is total correctness: [m] ends with [Ok] and the value satisfies [P].
    - Hparams (llama-hparams.cpp/.h): layer-wise parameters, sliding-window masks.
    - KvCells, KvCellsMachine (llama-kv-cells.h): the cells of one stream of the KV cache with
      the derived structures [used] and [seq_pos]; the abstract state is the list [cells_abs]
      of cells, and the class implements a machine on that list.
    - Memory (llama-memory.cpp/.h): statuses, and the type class [LlamaMemory] of what the
      batch allocator asks of a memory, with its laws.
    - Batch, BatchEqual, BatchInit (llama-batch.cpp/.h): [llama_batch_allocr], its checks and
      generated fields, and the three splitters into micro-batches.
    - KvCache (llama-kv-cache.cpp/.h), with KvCacheSeq (sequence operations), KvCacheSlot
      ([find_slot], [apply_ubatch], [prepare]), KvCacheMachine (constructor, refinement of the
      machine over all streams, instance of [LlamaMemory]), KvCacheBatch ([init_batch] and the
      context that the decoder walks through) and KvInputs (attention mask and the other
      inputs of the graph).
    - KvState, KvStateOk (llama-kv-cache.cpp, buffers of llama-context.cpp): [state_write] and
      [state_read] byte by byte.
    - KvCacheIswa (llama-kv-cache-iswa.cpp): the pair of a full and a sliding-window cache.
    - Recurrent (llama-memory-recurrent.cpp/.h, build_rs of llama-graph.cpp): the memory of
      recurrent layers, one state per set of sequences that share it.  RecurrentOk: the
      sequence operations against a partial map from sequences to a position and a state.
      RecurrentSlot, RecurrentDecode: [find_slot] places the sets of a micro-batch.
      RecurrentGraph, RecurrentBatch: the copies of states in the graph and the loop of the
      decoder over an accepted batch.  RecurrentState: [state_write] and [state_read].
      RecurrentFaults: a removal of all sequences that leaves the memory broken.
    - Hybrid (llama-memory-hybrid.cpp/.h): the pair of a KV cache and a recurrent memory, with
      HybridOk (both parts stay in step) and HybridBatch (a batch through both parts).
    - Unicode, UnicodeOk (unicode.cpp): the UTF-8 codecs, the printable characters of the
      byte-level encoding, categories.  UnicodeSplit, UnicodeSplitOk: the hand-written
      pre-tokenizers of GPT-2, Llama 3, Kimi K2 and AFMoE.  UnicodeRegex, UnicodeRegexOk:
      [unicode_regex_split], with the regular expressions of the library as a parameter.
    - Vocab, VocabOk (llama-vocab.cpp/.h): the tables of tokens, how they are filled, the
      accessors.  VocabMerge, VocabMergeOk: the bigram queue and the list of symbols that the
      merging tokenizers share, against greedy merging on plain lists; VocabSpmOk and
      VocabBpeOk: the two tokenizers.  VocabUgm, VocabUgmOk: the unigram tokenizer, its
      normalizer and its search.  VocabWords, VocabWordsOk: the word-piece tokenizer and the
      tokenizer of RWKV.  VocabPlamo: the tables and the search of the PLaMo-2 tokenizer.
      VocabText: [tokenize], the split at special tokens, [token_to_piece] with its cache and
      [detokenize], with VocabTextOk (pieces and the cache), VocabDetokOk (detokenization),
      VocabPartOk (special tokens) and VocabTripOk (text to tokens and back).
    - StateExn: the state monad whose state survives an exception, for the grammar code.
    - GrammarParser, GrammarParserOk (llama-grammar.cpp): from GBNF text to rules; Utf8: the
      streaming decoder against the UTF-8 encoding.
    - Grammar (llama-grammar.cpp): stacks, acceptance, rejection of candidates, left
      recursion, construction, cloning, lazy triggers.  GrammarOk (classes of characters),
      GrammarPartial (incomplete characters), GrammarLang (the language of a grammar and of
      its stacks), GrammarTerm (termination without left recursion), GrammarLeftRec (what the
      left-recursion check decides), GrammarReject (rejected candidates), GrammarState (the
      operations on a whole grammar), GrammarSpec (generation as acceptance of tokens),
      GrammarApply (sampling).
    - RingBuffer (llama-sampling.cpp): the queue of the last tokens.  Sampling: the candidates,
      the bucket sort and the samplers without state; SamplingState: dist, temp-ext, XTC,
      mirostat, penalties, top-n-sigma, logit bias, infill; SamplingDry: the DRY sampler;
      SamplingChain: samplers as objects, the grammar sampler, the chain, [llama_sampler_sample].
      SamplingOk (sorting and top-k), SamplingStateOk (the window of the penalties) and
      SamplingDryOk (repetitions).

    Functions keep their C++ names; the members of a class carry a short prefix ([cells_],
    [kv_], [iswa_], [ctx_], [balloc_]).  An object is a record, a method takes it and returns
    the new one; where the C++ code mutates a shared object in a loop the loop is a fold over
    the state.  Floats of the samplers are an abstract type with the operations that the code
    uses ([FloatArith], with [FloatConv] between float and double), so a theorem about them
    holds for whatever the hardware computes.  Elsewhere floats appear only where the code stores or compares them without arithmetic
    (logits: a type parameter with its minus infinity; mask entries: minus infinity or an
    integer) and in the scores of tokens, an abstract ordered type with addition ([FloatOps],
    [FloatLaws]) that stands for float and double alike; the one product, [round(score * 1e4)]
    of the PLaMo-2 tokenizer, is a parameter ([FloatScaled]).

    ** What the theorems show

    - Refinement: the cells implement their machine ([cells_implement_machine]), the cache
      implements the machine of its streams ([cache_implements_machine]), the recurrent memory
      a map from sequences to states ([recurrent_implements_machine]), and a grammar follows
      the language of its root rule ([generation_language]).
    - Batches: what [init] establishes, that accepted batches continue their sequences, and
      that the splitters cut a batch into the same tokens in order.
    - Decoding: [init_batch] and the walk through its context store exactly the batch;
      [prepare] is a dry run; [find_slot] is complete; the attention mask lets a token see
      exactly the visible cells; new keys and values get distinct places.  In a recurrent
      memory every set of sequences starts from its own state or a zeroed one and leaves the
      others alone; a hybrid memory does both, and its parts agree on the last position of
      every sequence.
    - State: a saved cache of one stream comes back, unless it was empty, which changes
      nothing; with several streams it does not.  A saved recurrent memory comes back, whole
      or one sequence at a time.
    - Text: pre-tokenization loses no byte and violates no bound ([regex_split_lossless]); the
      SPM and BPE tokenizers implement greedy merging whatever order the priority queue gives
      to equal elements ([spm_merges_greedily], [bpe_merges_greedily]); the unigram tokenizer
      finds a segmentation of the highest score ([ugm_best_segmentation]), the word-piece and
      RWKV tokenizers take longest tokens ([wpm_longest_match], [rwkv_longest_match]).  The
      split at special tokens cuts a text into exactly its parts ([special_tokens_split]),
      detokenization spells the pieces one after the other ([detokenize_spells]), and with the
      SPM and BPE tokenizers a text comes back from its tokens ([spm_round_trip],
      [bpe_round_trip]).
    - Grammar: parsing is total and well formed, UTF-8 round trips across token boundaries,
      the left-recursion check and termination, sampling masks and their agreement with
      acceptance, the derivative by a string.
    - Sampling: the DRY sampler penalizes exactly the candidates that continue a repetition, by
      the longest one ([dry_finds_repetitions]).  Lemmas of SamplingOk and SamplingStateOk say
      that top-k keeps the best candidates however it sorts, and that the penalties count
      exactly the tokens of their window.
    - Bounds and errors: which operations run the assertions of the code, and when.

    ** Fuel

    Loops over containers are structural.  Fuel occurs in the scanners of the grammar text
    (the length of the text is enough: [parse_total] excludes [OutOfFuel]), in the loops over
    the elements of a rule (its length is enough), in [loop] (each use has a proved measure,
    but for the RWKV tokenizer, whose rounds are an argument: [rwkv_longest_match] says how
    many are enough and for which vocabularies, [rwkv_diverges] that it may not end) and in
    [advance_stack], whose recursion the code does not bound: [generation_terminates]
    and [apply_masks] say when some fuel is enough and that more changes nothing.

    ** Not modelled

    The ggml tensors and graphs (only the bytes of the K and V tensors, where states are
    saved), backends, model files and the keys that a vocabulary reads from them (with the
    choice of the expressions of the BPE pre-tokenizer and the attributes that some models set
    on tokens), chat templates, multimodal projectors, and the Go code.  Of most samplers only
    the definitions are given.  The grammar takes the pieces of tokens as a parameter; of the PLaMo-2
    tokenizer only the definitions are given, without theorems.  [ggml_row_size],
    [ggml_type_size], [std::regex], [std::priority_queue], [std::sort] ([StdSort]), random numbers
    ([StdRandom]), the generated
    tables of unicode-data.cpp and the outcome of allocations are
    parameters.  Logging and debug printing are left out. *)
From Stdlib Require Export ZArith Lia.
From stdpp Require Export base tactics list list_numbers gmap sets strings numbers option.

(** ** Results of C++ code *)

(** What stops a C++ computation other than an exception: a failed [assert] or
    [GGML_ASSERT], an access outside a container, a signed overflow, a call of
    [GGML_ABORT], or (for loops bounded by fuel in the model) no fuel left. *)
Inductive fault := AssertFailed | OutOfRange | Overflow | AbortCalled | OutOfFuel.

#[export] Instance fault_eq_dec : EqDecision fault.
Proof. solve_decision. Defined.

(** A value, a thrown [std::runtime_error] with its message, or a fault. *)
Inductive res (A : Type) :=
  | Ok (a : A)
  | Throw (msg : string)
  | Fault (f : fault).
Arguments Ok {A} a.
Arguments Throw {A} msg.
Arguments Fault {A} f.

#[export] Instance res_ret : MRet res := fun _ a => Ok a.
#[export] Instance res_bind : MBind res := fun _ _ k m =>
  match m with
  | Ok a => k a
  | Throw msg => Throw msg
  | Fault f => Fault f
  end.
#[export] Instance res_fmap : FMap res := fun _ _ g m =>
  match m with
  | Ok a => Ok (g a)
  | Throw msg => Throw msg
  | Fault f => Fault f
  end.

Lemma bind_ok {A B} (a : A) (k : A -> res B) : Ok a ≫= k = k a.
Proof. done. Qed.

(** [assert(b)] and [GGML_ASSERT(b)]. *)
Definition assert_ (b : bool) : res unit := if b then Ok tt else Fault AssertFailed.

(** [v[i]] read and written, with the bounds the C++ program must respect. *)
Definition rd {A} (l : list A) (i : nat) : res A :=
  match l !! i with Some x => Ok x | None => Fault OutOfRange end.
Definition wr {A} (l : list A) (i : nat) (x : A) : res (list A) :=
  if decide (i < length l)%nat then Ok (<[i := x]> l) else Fault OutOfRange.

(** A pointer that may be null, dereferenced. *)
Definition deref {A} (o : option A) : res A :=
  match o with Some x => Ok x | None => Fault OutOfRange end.

(** [v.resize(n, d)]. *)
Definition vresize {A} (d : A) (n : nat) (l : list A) : list A :=
  take n l ++ replicate (n - length l) d.

(** [for (x : l) s = f(s, x);] with a body that may fail. *)
Fixpoint foldM {S A} (f : S -> A -> res S) (s : S) (l : list A) : res S :=
  match l with
  | [] => Ok s
  | x :: l => s' ← f s x; foldM f s' l
  end.

(** The same loop with a body that may [break] (or [return]): [inr] leaves it. *)
Fixpoint foldB {S R A} (f : S -> A -> res (S + R)) (s : S) (l : list A) : res (S + R) :=
  match l with
  | [] => Ok (inl s)
  | x :: l =>
      r ← f s x;
      match r with
      | inl s' => foldB f s' l
      | inr b => Ok (inr b)
      end
  end.

(** [while (true) { ... }]: the body continues with [inl] and leaves with [inr]. *)
Fixpoint loop {S} (fuel : nat) (body : S -> res (S + S)) (s : S) : res S :=
  match fuel with
  | O => Fault OutOfFuel
  | Datatypes.S fuel =>
      r ← body s;
      match r with
      | inl s' => loop fuel body s'
      | inr s' => Ok s'
      end
  end.

(** ** Machine integers *)

Definition INT32_MAX : Z := 2147483647.
Definition INT32_MIN : Z := -2147483648.
Definition in_i32 (z : Z) : bool := (INT32_MIN <=? z)%Z && (z <=? INT32_MAX)%Z.

(** Result of a signed 32-bit operation: overflow is undefined behaviour. *)
Definition i32 (z : Z) : res Z := if in_i32 z then Ok z else Fault Overflow.

(** Unsigned wrap-around. *)
Definition u32 (z : Z) : Z := z `mod` 4294967296.
Definition u64 (z : Z) : Z := z `mod` 18446744073709551616.

Lemma rd_ok {A} (l : list A) i x : l !! i = Some x -> rd l i = Ok x.
Proof. intros H. unfold rd. by rewrite H. Qed.

Lemma wr_ok {A} (l : list A) i x : (i < length l)%nat -> wr l i x = Ok (<[i := x]> l).
Proof. intros H. unfold wr. by rewrite decide_True. Qed.

Lemma bind_deref {A B} (x : A) (k : A -> res B) : deref (Some x) ≫= k = k x.
Proof. done. Qed.

(** ** Total correctness of a computation *)

(** [runs m P]: the computation ends with a value, without exception or fault,
    and the value satisfies [P]. *)
Definition runs {A} (m : res A) (P : A -> Prop) : Prop :=
  match m with Ok a => P a | _ => False end.

Create HintDb runs discriminated.

Section runs_lemmas.
Context {A B S : Type}.
Implicit Types (m : res A).

Lemma runs_ok (a : A) (P : A -> Prop) : P a -> runs (Ok a) P.
Proof. done. Qed.

Lemma runs_bind m (k : A -> res B) (P : B -> Prop) :
  runs m (fun a => runs (k a) P) -> runs (m ≫= k) P.
Proof. by destruct m. Qed.

Lemma runs_mono m (P Q : A -> Prop) : runs m P -> (forall a, P a -> Q a) -> runs m Q.
Proof. destruct m; simpl; auto. Qed.

Lemma runs_and m (P Q : A -> Prop) : runs m P -> runs m Q -> runs m (fun a => P a /\ Q a).
Proof. destruct m; simpl; auto. Qed.

Lemma runs_inv m (P : A -> Prop) : runs m P -> exists a, m = Ok a /\ P a.
Proof. destruct m; simpl; [eauto|done|done]. Qed.

Lemma runs_inv_eq m a : runs m (fun x => x = a) -> m = Ok a.
Proof. destruct m; simpl; [by intros ->|done|done]. Qed.

Lemma runs_intro m (P : A -> Prop) a : m = Ok a -> P a -> runs m P.
Proof. by intros ->. Qed.

Lemma runs_assert b (k : res B) (P : B -> Prop) :
  b = true -> runs k P -> runs (assert_ b ;; k) P.
Proof. by intros ->. Qed.

Lemma runs_rd (l : list A) i x (k : A -> res B) (P : B -> Prop) :
  l !! i = Some x -> runs (k x) P -> runs (rd l i ≫= k) P.
Proof. intros H. unfold rd. by rewrite H. Qed.

Lemma runs_wr (l : list A) i x (k : list A -> res B) (P : B -> Prop) :
  (i < length l)%nat -> runs (k (<[i := x]> l)) P -> runs (wr l i x ≫= k) P.
Proof. intros H. unfold wr. by rewrite decide_True. Qed.

End runs_lemmas.

Section loops.
Context {B S : Type}.

(** A loop with an invariant over the part of the list already visited. *)
Lemma runs_foldM_app (I : list B -> S -> Prop) (f : S -> B -> res S) done_ l s :
  I done_ s ->
  (forall l1 x l2 s, l = l1 ++ x :: l2 -> I (done_ ++ l1) s ->
    runs (f s x) (I (done_ ++ l1 ++ [x]))) ->
  runs (foldM f s l) (I (done_ ++ l)).
Proof.
  revert done_ s. induction l as [|x l IH]; intros done_ s H0 Hstep; simpl.
  { by rewrite app_nil_r. }
  apply runs_bind. eapply runs_mono.
  { apply (Hstep [] x l s); [done|by rewrite app_nil_r]. }
  intros s' Hs'. simpl in Hs'.
  replace (done_ ++ x :: l) with ((done_ ++ [x]) ++ l) by by rewrite <- app_assoc.
  apply IH; [done|]. intros l1 y l2 s2 -> HI.
  rewrite <- !app_assoc in *. simpl in *.
  specialize (Hstep (x :: l1) y l2 s2). simpl in Hstep. by apply Hstep.
Qed.

Lemma runs_foldM (I : list B -> S -> Prop) (f : S -> B -> res S) l s :
  I [] s ->
  (forall l1 x l2 s, l = l1 ++ x :: l2 -> I l1 s -> runs (f s x) (I (l1 ++ [x]))) ->
  runs (foldM f s l) (I l).
Proof. intros H0 H. by apply (runs_foldM_app I f [] l s). Qed.

(** A loop whose invariant does not mention the position. *)
Lemma runs_foldM_inv (I : S -> Prop) (f : S -> B -> res S) l s :
  I s -> (forall x s, x ∈ l -> I s -> runs (f s x) I) -> runs (foldM f s l) I.
Proof.
  intros H0 H. apply (runs_foldM (fun _ => I)); [done|].
  intros l1 x l2 s' -> HI. apply H; [set_solver|done].
Qed.
End loops.

(** [for (i = a; i < a + n; ++i)]. *)
Lemma runs_for_from {S} (I : nat -> S -> Prop) (f : S -> nat -> res S) a n s :
  I a s -> (forall i s, (a <= i < a + n)%nat -> I i s -> runs (f s i) (I (i + 1)%nat)) ->
  runs (foldM f s (seq a n)) (I (a + n)%nat).
Proof.
  revert a s. induction n as [|n IH]; intros a s H0 Hstep; simpl.
  { by rewrite Nat.add_0_r. }
  apply runs_bind. eapply runs_mono; [apply Hstep; [lia|done]|].
  intros s' Hs'. replace (a + Datatypes.S n)%nat with ((Datatypes.S a) + n)%nat by lia. apply IH.
  { by replace (Datatypes.S a) with (a + 1)%nat by lia. }
  intros i s2 Hi. apply Hstep. lia.
Qed.

Lemma runs_for {S} (I : nat -> S -> Prop) (f : S -> nat -> res S) n s :
  I 0%nat s -> (forall i s, (i < n)%nat -> I i s -> runs (f s i) (I (i + 1)%nat)) ->
  runs (foldM f s (seq 0 n)) (I n).
Proof. intros H0 H. apply (runs_for_from I f 0 n s H0). intros i s' Hi. apply H. lia. Qed.

Lemma bind_ok_inv {A B} (m : res A) (k : A -> res B) b : m ≫= k = Ok b -> exists a, m = Ok a /\ k a = Ok b.
Proof. destruct m; [by eexists|done..]. Qed.

(** The invariant of a loop over indices that returned. *)
Lemma foldM_seq_inv {T} (I : nat -> T -> Prop) (f : T -> nat -> res T) n s r :
  I 0%nat s -> (forall i s s', (i < n)%nat -> I i s -> f s i = Ok s' -> I (i + 1)%nat s') -> foldM f s (seq 0 n) = Ok r -> I n r.
Proof.
  intros H0 Hf. enough (G : forall k a s, I a s -> (a + k <= n)%nat -> foldM f s (seq a k) = Ok r -> I (a + k)%nat r).
  { intros E. by apply (G n 0%nat s) in E. }
  clear s H0. induction k as [|k IH]; intros a s Ha Hk; cbn [seq foldM]; [intros [= <-]; by rewrite Nat.add_0_r|].
  intros (s' & E1 & E2)%bind_ok_inv. replace (a + S k)%nat with (S a + k)%nat by lia. apply (IH _ s'); [|lia|done].
  rewrite <- Nat.add_1_r. apply (Hf a s); [lia|done..].
Qed.

(** A loop ends with enough fuel for its variant [m], and its invariant gives [Q] at the exit. *)
Lemma runs_loop {S} (I : S -> Prop) (m : S -> nat) (Q : S -> Prop) (body : S -> res (S + S)) :
  (forall s, I s -> runs (body s) (fun r =>
     match r with inl s' => I s' /\ (m s' < m s)%nat | inr s' => Q s' end)) ->
  forall fuel s, (m s < fuel)%nat -> I s -> runs (loop fuel body s) Q.
Proof.
  intros Hbody fuel. induction fuel as [|fuel IH]; intros s Hm HI; [lia|]. simpl.
  apply runs_bind. eapply runs_mono; [by apply Hbody|].
  intros [s'|s']; [|done]. intros [HI' Hlt]. apply IH; [lia|done].
Qed.

(** A search loop either visits the whole list or stops at an element. *)
Lemma runs_foldB {S R A} (I : list A -> S -> Prop) (Q : R -> Prop) (f : S -> A -> res (S + R)) l s :
  I [] s ->
  (forall l1 x l2 s, l = l1 ++ x :: l2 -> I l1 s ->
     runs (f s x) (fun r => match r with inl s' => I (l1 ++ [x]) s' | inr q => Q q end)) ->
  runs (foldB f s l) (fun r => match r with inl s' => I l s' | inr q => Q q end).
Proof.
  assert (H : forall done_ l s, I done_ s ->
    (forall l1 x l2 s, l = l1 ++ x :: l2 -> I (done_ ++ l1) s ->
       runs (f s x) (fun r => match r with inl s' => I (done_ ++ l1 ++ [x]) s' | inr q => Q q end)) ->
    runs (foldB f s l) (fun r => match r with inl s' => I (done_ ++ l) s' | inr q => Q q end)).
  { clear l s. intros done_ l. revert done_. induction l as [|x l IH]; intros done_ s H0 Hstep; simpl.
    { by rewrite app_nil_r. }
    apply runs_bind. eapply runs_mono.
    { apply (Hstep [] x l s); [done|by rewrite app_nil_r]. }
    intros [s'|q] Hs'; simpl in Hs'; [|done].
    replace (done_ ++ x :: l) with ((done_ ++ [x]) ++ l) by by rewrite <- app_assoc.
    apply IH; [done|]. intros l1 y l2 s2 -> HI. rewrite <- !app_assoc in *.
    specialize (Hstep (x :: l1) y l2 s2). simpl in *. by apply Hstep. }
  intros H0 Hstep. by apply (H [] l s).
Qed.

Lemma i32_ok z : (INT32_MIN <= z <= INT32_MAX)%Z -> i32 z = Ok z.
Proof. intros H. unfold i32, in_i32. by rewrite !(proj2 (Z.leb_le _ _)) by lia. Qed.

(** Steps through the next read, write or assertion of a computation. *)
Ltac rstep :=
  lazymatch goal with
  | |- runs (assert_ _ ;; _) _ => apply runs_assert
  | |- runs (rd _ _ ≫= _) _ => eapply runs_rd; [eassumption|]
  | |- runs (wr _ _ _ ≫= _) _ => apply runs_wr
  | |- runs (Ok _ ≫= _) _ => apply runs_bind, runs_ok
  | |- runs (Ok _) _ => apply runs_ok
  | |- runs (_ ≫= _) _ => apply runs_bind
  end.

(** ** Counting and indexing in lists *)

Section lists.
Context {A : Type}.
Implicit Types (P : A -> bool) (l : list A).

(** Number of elements that satisfy a test. *)
Definition countb P l : nat := sum_list_with (fun x => Nat.b2n (P x)) l.

Lemma countb_insert P l i x y :
  l !! i = Some x ->
  (countb P (<[i := y]> l) + Nat.b2n (P x) = countb P l + Nat.b2n (P y))%nat.
Proof.
  unfold countb. revert i. induction l as [|z l IH]; intros [|i]; simpl; try done.
  - intros [= ->]. lia.
  - intros H. specialize (IH i H). lia.
Qed.

Lemma countb_lookup P l i x : l !! i = Some x -> P x = true -> (0 < countb P l)%nat.
Proof.
  unfold countb. revert i. induction l as [|z l IH]; intros [|i]; simpl; try done.
  - intros [= ->] ->. simpl. lia.
  - intros H HP. specialize (IH i H HP). lia.
Qed.

Lemma countb_pos P l : (0 < countb P l)%nat <-> exists i x, l !! i = Some x /\ P x = true.
Proof.
  split; [|intros (i & x & H & HP); by eapply countb_lookup].
  unfold countb. induction l as [|z l IH]; simpl; [lia|].
  destruct (P z) eqn:E; simpl.
  - intros _. by exists 0%nat, z.
  - intros H. destruct (IH H) as (i & x & Hi & Hx). by exists (S i), x.
Qed.

Lemma countb_zero P l : countb P l = 0%nat <-> forall i x, l !! i = Some x -> P x = false.
Proof.
  split.
  - intros H i x Hi. destruct (P x) eqn:E; [|done].
    pose proof (countb_lookup P l i x Hi E). lia.
  - intros H. destruct (countb P l) eqn:E; [done|].
    destruct (proj1 (countb_pos P l)) as (i & x & Hi & Hx); [lia|].
    by rewrite (H i x Hi) in Hx.
Qed.

Lemma lookup_is_lt l i x : l !! i = Some x -> (i < length l)%nat.
Proof. apply lookup_lt_Some. Qed.
End lists.

(** Row-major indices are unique. *)
Lemma row_major_inj n a a' b b' :
  (a * n + b = a' * n + b' -> b < n -> b' < n -> a = a' /\ b = b')%nat.
Proof. intros E H H'. destruct (Nat.lt_trichotomy a a') as [?|[->|?]]; nia. Qed.

(** The position of an index in the loop [0 .. n). *)
Lemma seq_split_at n l1 x l2 : seq 0 n = l1 ++ x :: l2 -> x = length l1 /\ (length l1 < n)%nat.
Proof.
  intros E. assert (H : seq 0 n !! length l1 = Some x) by (rewrite E; by apply list_lookup_middle).
  apply lookup_seq in H. lia.
Qed.

(** Distinct numbers below [n] are at most [n]. *)
Lemma NoDup_below (l : list nat) n : NoDup l -> (forall x, x ∈ l -> (x < n)%nat) -> (length l <= n)%nat.
Proof.
  intros Hnd Hl. rewrite <- (length_seq n 0). apply submseteq_length, NoDup_submseteq; [done|].
  intros x Hx. apply elem_of_seq. specialize (Hl x Hx). lia.
Qed.

(** ** Loops that copy between vectors *)

Section copies.
Context {A : Type}.

(** [for (k = 0; k < n; ++k) dst[g(k)] = src[f(k)];] for an injective [g]. *)
Lemma runs_copy (src dst : list A) (f g : nat -> nat) n :
  (forall k, (k < n)%nat -> (f k < length src)%nat /\ (g k < length dst)%nat) ->
  (forall k k', (k < n)%nat -> (k' < n)%nat -> g k = g k' -> k = k') ->
  runs (foldM (fun acc k => x ← rd src (f k); wr acc (g k) x) dst (seq 0 n)) (fun l =>
    length l = length dst /\
    (forall k, (k < n)%nat -> l !! g k = src !! f k) /\
    (forall m, (forall k, (k < n)%nat -> g k <> m) -> l !! m = dst !! m)).
Proof.
  intros Hb Hinj.
  apply (runs_for (fun i l => length l = length dst /\
    (forall k, (k < i)%nat -> l !! g k = src !! f k) /\
    (forall m, (forall k, (k < i)%nat -> g k <> m) -> l !! m = dst !! m))).
  { split; [done|]. split; [lia|done]. }
  intros i l Hi (H1 & H2 & H3). destruct (Hb i Hi) as [Hf Hg].
  destruct (lookup_lt_is_Some_2 src (f i) Hf) as [x Hx].
  eapply runs_rd; [exact Hx|]. unfold wr. rewrite decide_True by lia. apply runs_ok.
  rewrite length_insert. split; [done|]. split.
  - intros k Hk. destruct (decide (k = i)) as [->|Hne].
    + by rewrite list_lookup_insert_eq by lia.
    + rewrite list_lookup_insert_ne; [apply H2; lia|].
      intros E. apply Hne, Hinj; [lia..|done].
  - intros m Hm. rewrite list_lookup_insert_ne by (apply Hm; lia).
    apply H3. intros k Hk. apply Hm. lia.
Qed.

(** [for (k = 0; k < n; ++k) out.push_back(src[off + k]);] *)
Lemma collect_ok (src : list A) off n :
  (off + n <= length src)%nat ->
  foldM (fun acc k => x ← rd src (off + k)%nat; Ok (acc ++ [x])) [] (seq 0 n) =
  Ok (take n (drop off src)).
Proof.
  intros Hn.
  destruct (runs_inv _ _ (runs_for (fun i acc => acc = take i (drop off src))
    (fun acc k => x ← rd src (off + k)%nat; Ok (acc ++ [x])) n [] eq_refl
    ltac:(intros i acc Hi ->;
      destruct (lookup_lt_is_Some_2 src (off + i) ltac:(lia)) as [x Hx];
      eapply runs_rd; [exact Hx|]; apply runs_ok;
      rewrite Nat.add_1_r; symmetry; apply take_S_r; by rewrite lookup_drop))) as (l & E & ->).
  exact E.
Qed.
End copies.
