(* ===== verification/Hparams.v ===== *)
(** Model hyper-parameters, [llama_hparams] of src/llama/llama.cpp/src/llama-hparams.h and
    llama-hparams.cpp: the per-layer dimensions, the sliding-window pattern and the
    attention mask of a sliding window.  The record keeps the fields these functions (and
    the KV cache) read; a [uint32_t] is a [Z] with its wrap-around written [u32], and a
    layer index is a [nat]. *)

From S2P Require Import Prelude.
Local Open Scope Z_scope.

(** ** Data *)

Inductive llama_swa_type :=
  | LLAMA_SWA_TYPE_NONE | LLAMA_SWA_TYPE_STANDARD | LLAMA_SWA_TYPE_CHUNKED | LLAMA_SWA_TYPE_SYMMETRIC.

#[export] Instance llama_swa_type_eq_dec : EqDecision llama_swa_type.
Proof. solve_decision. Defined.

(** [enum llama_rope_type] of llama.h. *)
Inductive llama_rope_type :=
  | LLAMA_ROPE_TYPE_NONE | LLAMA_ROPE_TYPE_NORM | LLAMA_ROPE_TYPE_NEOX | LLAMA_ROPE_TYPE_MROPE
  | LLAMA_ROPE_TYPE_IMROPE | LLAMA_ROPE_TYPE_VISION.

#[export] Instance llama_rope_type_eq_dec : EqDecision llama_rope_type.
Proof. solve_decision. Defined.

Record llama_hparams := mk_hparams {
  n_embd                : Z;
  n_layer               : nat;
  n_layer_kv_from_start : Z;
  n_embd_head_k         : Z;
  n_embd_head_v         : Z;
  n_rel_attn_bkts       : Z;
  n_shortconv_l_cache   : Z;
  n_head_arr            : list Z;
  n_head_kv_arr         : list Z;
  n_ff_arr              : list Z;
  n_bskcn_arr           : list (list Z);
  wkv_head_size         : Z;
  token_shift_count     : Z;
  rope_sections         : list Z;
  swa_layers            : list bool;
  ssm_d_conv            : Z;
  ssm_d_inner           : Z;
  ssm_d_state           : Z;
  ssm_n_group           : Z;
  recurrent_layer_arr   : list bool;
  use_alibi             : bool;
  n_deepstack_layers    : Z;
  rope_type             : llama_rope_type
}.

Definition with_swa_layers (l : list bool) (h : llama_hparams) : llama_hparams :=
  mk_hparams (n_embd h) (n_layer h) (n_layer_kv_from_start h) (n_embd_head_k h) (n_embd_head_v h)
    (n_rel_attn_bkts h) (n_shortconv_l_cache h) (n_head_arr h) (n_head_kv_arr h) (n_ff_arr h)
    (n_bskcn_arr h) (wkv_head_size h) (token_shift_count h) (rope_sections h) l (ssm_d_conv h)
    (ssm_d_inner h) (ssm_d_state h) (ssm_n_group h) (recurrent_layer_arr h) (use_alibi h)
    (n_deepstack_layers h) (rope_type h).

(** ** Functions *)

Definition set_swa_pattern (h : llama_hparams) (n_pattern : Z) (dense_first : bool) : res llama_hparams :=
  l ← foldM (fun l il =>
        wr l il (if dense_first
                 then (n_pattern =? 0) || negb (Z.of_nat il `mod` n_pattern =? 0)
                 else (n_pattern =? 0) || (Z.of_nat il `mod` n_pattern <? u32 (n_pattern - 1))))
      (swa_layers h) (seq 0 (n_layer h));
  Ok (with_swa_layers l h).

Definition is_swa_any (h : llama_hparams) : res bool :=
  r ← foldB (fun (_ : unit) il =>
        b ← rd (swa_layers h) il; Ok (if (b : bool) then inr true else inl tt))
      tt (seq 0 (n_layer h));
  match r with inr b => Ok b | inl _ => Ok false end.

Definition n_head (h : llama_hparams) (il : nat) : res Z :=
  if (il <? n_layer h)%nat then rd (n_head_arr h) il else Fault AbortCalled.

Definition n_head_kv (h : llama_hparams) (il : nat) : res Z :=
  if (il <? n_layer h)%nat then rd (n_head_kv_arr h) il else Fault AbortCalled.

Definition n_ff (h : llama_hparams) (il : nat) : res Z :=
  if (il <? n_layer h)%nat then rd (n_ff_arr h) il else Fault AbortCalled.

Definition n_gqa (h : llama_hparams) (il : nat) : res Z :=
  a ← n_head h il;
  b ← n_head_kv h il;
  if b =? 0 then Ok 0 else Ok (a `div` b).

Definition n_embd_inp (h : llama_hparams) : Z :=
  if n_deepstack_layers h >? 0 then u32 (n_embd h + u32 (n_embd h * n_deepstack_layers h))
  else n_embd h.

Definition n_embd_k_gqa (h : llama_hparams) (il : nat) : res Z :=
  a ← n_head_kv h il; Ok (u32 (n_embd_head_k h * a)).

Definition n_embd_v_gqa (h : llama_hparams) (il : nat) : res Z :=
  a ← n_head_kv h il; Ok (u32 (n_embd_head_v h * a)).

(** The loop of both [is_n_embd_*_gqa_variable]. *)
Definition gqa_variable (f : nat -> res Z) (n : nat) : res bool :=
  val ← f 0%nat;
  r ← foldB (fun (_ : unit) il => v ← f il; Ok (if negb (val =? v) then inr true else inl tt))
      tt (seq 0 n);
  match r with inr b => Ok b | inl _ => Ok false end.

Definition is_n_embd_k_gqa_variable (h : llama_hparams) : res bool := gqa_variable (n_embd_k_gqa h) (n_layer h).
Definition is_n_embd_v_gqa_variable (h : llama_hparams) : res bool := gqa_variable (n_embd_v_gqa h) (n_layer h).

(** The loop of both [n_embd_*_gqa_max]. *)
Definition gqa_max (f : nat -> res Z) (n : nat) : res Z :=
  val ← f 0%nat;
  foldM (fun val il => v ← f il; Ok (Z.max val v)) val (seq 0 n).

Definition n_embd_k_gqa_max (h : llama_hparams) : res Z := gqa_max (n_embd_k_gqa h) (n_layer h).
Definition n_embd_v_gqa_max (h : llama_hparams) : res Z := gqa_max (n_embd_v_gqa h) (n_layer h).

Definition n_embd_r (h : llama_hparams) : Z :=
  if negb (wkv_head_size h =? 0) then u32 (token_shift_count h * n_embd h)
  else if negb (n_shortconv_l_cache h =? 0) then u32 (n_embd h * u32 (n_shortconv_l_cache h - 1))
  else u32 ((if ssm_d_conv h >? 0 then ssm_d_conv h - 1 else 0) *
            u32 (ssm_d_inner h + u32 (2 * ssm_n_group h * ssm_d_state h))).

Definition n_embd_s (h : llama_hparams) : Z :=
  if negb (wkv_head_size h =? 0) then u32 (n_embd h * wkv_head_size h)
  else u32 (ssm_d_state h * ssm_d_inner h).

Definition is_recurrent (h : llama_hparams) (il : nat) : res bool :=
  if (il <? n_layer h)%nat then rd (recurrent_layer_arr h) il else Fault AbortCalled.

Definition n_pos_per_embd (h : llama_hparams) : Z :=
  if bool_decide (rope_type h = LLAMA_ROPE_TYPE_MROPE) || bool_decide (rope_type h = LLAMA_ROPE_TYPE_IMROPE)
  then 4 else 1.

Definition n_bskcn (h : llama_hparams) (n il : nat) : res bool :=
  if (il <? n_layer h)%nat then
    l ← rd (n_bskcn_arr h) n; v ← rd l il; Ok (v >? 0)
  else Fault AbortCalled.

Definition is_swa (h : llama_hparams) (il : nat) : res bool :=
  if (il <? n_layer h)%nat then rd (swa_layers h) il else Fault AbortCalled.

Definition has_kv (h : llama_hparams) (il : nat) : bool :=
  if n_layer_kv_from_start h >=? 0 then
    if Z.of_nat il <? n_layer_kv_from_start h then true else false
  else true.

Definition n_layer_kv (h : llama_hparams) : nat :=
  foldl (fun n il => if has_kv h il then (n + 1)%nat else n) 0%nat (seq 0 (n_layer h)).

(** A [uint32_t] converted to [int32_t]. *)
Definition to_i32 (z : Z) : Z := (z + 2147483648) `mod` 4294967296 - 2147483648.

Definition is_masked_swa (n_swa : Z) (swa_type : llama_swa_type) (p0 p1 : Z) : res bool :=
  assert_ ((p0 >=? 0) && (p1 >=? 0)) ;;
  match swa_type with
  | LLAMA_SWA_TYPE_NONE => Ok false
  | LLAMA_SWA_TYPE_STANDARD => Ok (p1 - p0 >=? to_i32 n_swa)
  | LLAMA_SWA_TYPE_CHUNKED =>
      if n_swa =? 0 then Fault Overflow
      else
        let pos_chunk_start := to_i32 (u32 (u32 p1 `div` n_swa * n_swa)) in
        Ok (p0 <? pos_chunk_start)
  | LLAMA_SWA_TYPE_SYMMETRIC =>
      let half_n_swa := Z.quot (to_i32 n_swa) 2 in
      let pos_diff := p1 - p0 in
      Ok ((pos_diff <? - half_n_swa) || (pos_diff >? half_n_swa))
  end.

Definition use_mrope (h : llama_hparams) : res bool :=
  a ← rd (rope_sections h) 0;
  if a >? 0 then b ← rd (rope_sections h) 1; Ok (b >? 0) else Ok false.

(** ** Well-formed parameters *)

Definition LLAMA_MAX_LAYERS : nat := 512.

(** The arrays have their C++ length and every layer index is inside them. *)
Record hparams_wf (h : llama_hparams) : Prop := {
  hw_layers : (n_layer h <= LLAMA_MAX_LAYERS)%nat;
  hw_head   : length (n_head_arr h) = LLAMA_MAX_LAYERS;
  hw_headkv : length (n_head_kv_arr h) = LLAMA_MAX_LAYERS;
  hw_swa    : length (swa_layers h) = LLAMA_MAX_LAYERS
}.

(** ** Theorems *)

(** The bound of the sliding-window functions: the window fits an [int32_t]. *)
Lemma to_i32_small z : 0 <= z <= INT32_MAX -> to_i32 z = z.
Proof. unfold to_i32, INT32_MAX. intros H. rewrite Z.mod_small by lia. lia. Qed.

Lemma u32_small z : 0 <= z < 4294967296 -> u32 z = z.
Proof. intros H. apply Z.mod_small. lia. Qed.

(** The chunk of a position, as a mathematical quotient. *)
Lemma chunk_start_spec n p : 0 < n -> 0 <= p -> p `div` n * n <= p < p `div` n * n + n.
Proof. intros Hn Hp. pose proof (Z.div_mod p n ltac:(lia)). pose proof (Z.mod_pos_bound p n Hn). nia. Qed.

(** What a query at [p1] can see of a cell at [p0], as the window is documented. *)
Definition swa_visible (n_swa : Z) (t : llama_swa_type) (p0 p1 : Z) : Prop :=
  match t with
  | LLAMA_SWA_TYPE_NONE => True
  | LLAMA_SWA_TYPE_STANDARD => p1 - n_swa < p0
  | LLAMA_SWA_TYPE_CHUNKED => p1 `div` n_swa <= p0 `div` n_swa
  | LLAMA_SWA_TYPE_SYMMETRIC => Z.abs (p1 - p0) <= n_swa `div` 2
  end.

Lemma is_masked_swa_visible n t p0 p1 :
  0 < n <= INT32_MAX -> 0 <= p0 <= INT32_MAX -> 0 <= p1 <= INT32_MAX ->
  exists b, is_masked_swa n t p0 p1 = Ok b /\ (b = false <-> swa_visible n t p0 p1).
Proof.
  intros Hn H0 H1. unfold is_masked_swa. replace ((p0 >=? 0) && (p1 >=? 0)) with true by lia.
  unfold assert_. rewrite bind_ok. destruct t; simpl.
  - by exists false.
  - eexists. split; [done|]. rewrite to_i32_small by lia. simpl. lia.
  - destruct (Z.eqb_spec n 0); [lia|]. eexists. split; [done|].
    pose proof (chunk_start_spec n p1 ltac:(lia) ltac:(lia)) as Hc.
    pose proof (chunk_start_spec n p0 ltac:(lia) ltac:(lia)) as Hc0.
    pose proof (Z.div_pos p1 n ltac:(lia) ltac:(lia)) as Hq.
    unfold swa_visible, INT32_MAX in *. rewrite (u32_small p1) by lia.
    generalize dependent (p1 `div` n). generalize dependent (p0 `div` n). intros q0 Hc0 q1 Hc Hq.
    rewrite u32_small by nia. rewrite to_i32_small by (unfold INT32_MAX; nia).
    rewrite Z.ltb_ge. nia.
  - eexists. split; [done|]. rewrite to_i32_small by lia.
    rewrite Z.quot_div_nonneg by lia. simpl. pose proof (Z.div_pos n 2 ltac:(lia) ltac:(lia)). lia.
Qed.

(** The visible positions of a causal query form a suffix: whatever hides a cell hides
    every older one. *)
Lemma is_masked_swa_suffix n t p0 p0' p1 :
  t <> LLAMA_SWA_TYPE_SYMMETRIC ->
  0 < n <= INT32_MAX -> 0 <= p0' <= p0 -> p0 <= INT32_MAX -> 0 <= p1 <= INT32_MAX ->
  is_masked_swa n t p0 p1 = Ok true -> is_masked_swa n t p0' p1 = Ok true.
Proof.
  intros Ht Hn H0 H1 H2 Hm.
  destruct (is_masked_swa_visible n t p0 p1) as (b & E & Hb); [lia..|].
  destruct (is_masked_swa_visible n t p0' p1) as (b' & E' & Hb'); [lia..|].
  rewrite Hm in E. injection E as <-. rewrite E'. f_equal.
  destruct b'; [done|]. exfalso. destruct Hb' as [Hb' _]. specialize (Hb' eq_refl).
  destruct Hb as [_ Hb]. discriminate Hb. destruct t; simpl in *; try done; [lia|].
  etransitivity; [exact Hb'|]. apply Z.div_le_mono; lia.
Qed.

(** The window loop of [set_swa_pattern]. *)
Definition swa_bit (n_pattern : Z) (dense_first : bool) (il : nat) : bool :=
  if dense_first
  then (n_pattern =? 0) || negb (Z.of_nat il `mod` n_pattern =? 0)
  else (n_pattern =? 0) || (Z.of_nat il `mod` n_pattern <? u32 (n_pattern - 1)).

Lemma set_swa_pattern_ok h n_pattern dense_first :
  hparams_wf h ->
  runs (set_swa_pattern h n_pattern dense_first) (fun h' =>
    hparams_wf h' /\ n_layer h' = n_layer h /\
    forall il, (il < n_layer h)%nat -> swa_layers h' !! il = Some (swa_bit n_pattern dense_first il)).
Proof.
  intros [W1 W2 W3 W4]. unfold set_swa_pattern. apply runs_bind. eapply runs_mono.
  { apply (runs_for (fun n l => length l = LLAMA_MAX_LAYERS /\
      forall il, (il < n)%nat -> l !! il = Some (swa_bit n_pattern dense_first il))).
    - split; [done|lia].
    - intros i l Hi [Hl H]. unfold wr. rewrite decide_True by lia. simpl.
      split; [by rewrite length_insert|]. intros il Hil.
      destruct (decide (il = i)) as [->|Hne].
      + by rewrite list_lookup_insert_eq by lia.
      + rewrite list_lookup_insert_ne by done. apply H. lia. }
  intros l [Hl H]. simpl. split; [by split|]. split; [done|exact H].
Qed.

Lemma is_swa_lookup h il b :
  (il < n_layer h)%nat -> swa_layers h !! il = Some b -> is_swa h il = Ok b.
Proof. intros Hil H. unfold is_swa, rd. rewrite (proj2 (Nat.ltb_lt _ _)) by done. by rewrite H. Qed.

Lemma n_head_kv_ok h il :
  hparams_wf h -> (il < n_layer h)%nat ->
  exists v, n_head_kv_arr h !! il = Some v /\ n_head_kv h il = Ok v.
Proof.
  intros [W1 W2 W3 W4] Hil. destruct (lookup_lt_is_Some_2 (n_head_kv_arr h) il) as [v Hv]; [lia|].
  exists v. split; [done|]. unfold n_head_kv, rd. rewrite (proj2 (Nat.ltb_lt _ _)) by done. by rewrite Hv.
Qed.

(** [gqa_max] is the maximum over the layers. *)
Lemma gqa_max_ok f n :
  (0 < n)%nat -> (forall il, (il < n)%nat -> exists v, f il = Ok v) ->
  runs (gqa_max f n) (fun m =>
    (exists il, (il < n)%nat /\ f il = Ok m) /\ forall il v, (il < n)%nat -> f il = Ok v -> v <= m).
Proof.
  intros Hn Hf. unfold gqa_max. destruct (Hf 0%nat Hn) as [v0 H0]. rewrite H0, bind_ok.
  apply (runs_for (fun k m => (exists il, (il < n)%nat /\ f il = Ok m) /\
           forall il v, (il < k)%nat -> f il = Ok v -> v <= m)).
  - split; [by exists 0%nat|lia].
  - intros k m Hk [(il & Hil & Hm) Hle]. destruct (Hf k Hk) as [v Hv]. rewrite Hv, bind_ok. simpl.
    split.
    + destruct (Z.max_spec m v) as [[_ ->]|[_ ->]]; eauto.
    + intros il' v' Hil' Hv'. destruct (decide (il' = k)) as [->|Hne].
      * assert (v' = v) as -> by congruence. lia.
      * specialize (Hle il' v' ltac:(lia) Hv'). lia.
Qed.

(** [gqa_variable] answers whether two layers differ. *)
Lemma gqa_variable_ok f n v0 :
  f 0%nat = Ok v0 -> (forall il, (il < n)%nat -> exists v, f il = Ok v) ->
  exists b, gqa_variable f n = Ok b /\
    (b = true <-> exists il v, (il < n)%nat /\ f il = Ok v /\ v <> v0).
Proof.
  intros H0 Hf. unfold gqa_variable. rewrite H0, bind_ok.
  assert (H : forall a k, (a + k = n)%nat -> exists r,
    foldB (fun (_ : unit) il => v ← f il; Ok (if negb (v0 =? v) then inr true else inl tt)) tt (seq a k) = Ok r /\
    ((exists b : bool, r = inr b /\ b = true /\ exists il v, (a <= il < n)%nat /\ f il = Ok v /\ v <> v0) \/
     (r = inl tt /\ forall il v, (a <= il < n)%nat -> f il = Ok v -> v = v0))).
  { intros a k. revert a. induction k as [|k IH]; intros a Hk; simpl.
    - exists (inl tt). split; [done|]. right. split; [done|]. intros; lia.
    - destruct (Hf a) as [v Hv]; [lia|]. rewrite Hv. simpl.
      destruct (Z.eqb_spec v0 v) as [->|Hne]; simpl.
      + destruct (IH (S a)) as (r & Hr & [(b & Hb & Ht & il & w & Hil & Hw)|(Hb & Hall)]); [lia|..];
          exists r; split; try done.
        * left. exists b. split; [done|]. split; [done|]. exists il, w. split; [lia|done].
        * right. split; [done|]. intros il w Hil Hw. destruct (decide (il = a)) as [->|];
            [congruence|]. apply (Hall il); [lia|done].
      + exists (inr true). split; [done|]. left. exists true. split; [done|]. split; [done|].
        exists a, v. split; [lia|]. split; [done|congruence]. }
  destruct (H 0%nat n) as (r & -> & [(b & -> & -> & il & v & Hil & Hv)|(-> & Hall)]); [done|..].
  - exists true. split; [done|]. split; [intros _|done]. exists il, v. split; [lia|done].
  - exists false. split; [done|]. split; [done|]. intros (il & v & Hil & Hv & Hne).
    exfalso. apply Hne, (Hall il); [lia|done].
Qed.

(** The number of layers with a KV cache, in closed form. *)
Lemma n_layer_kv_closed h :
  n_layer_kv h = (if n_layer_kv_from_start h >=? 0
                  then Nat.min (n_layer h) (Z.to_nat (n_layer_kv_from_start h)) else n_layer h).
Proof.
  unfold n_layer_kv. generalize (n_layer h) as n. intros n.
  assert (H : forall a n acc, foldl (fun n il => if has_kv h il then (n + 1)%nat else n) acc (seq a n) =
    (acc + (if n_layer_kv_from_start h >=? 0
            then Nat.min n (Z.to_nat (n_layer_kv_from_start h) - a) else n))%nat).
  { intros a m. revert a. induction m as [|m IH]; intros a acc; cbn [seq foldl].
    - destruct (n_layer_kv_from_start h >=? 0); lia.
    - rewrite IH. unfold has_kv. destruct (Z.geb_spec (n_layer_kv_from_start h) 0); [|lia].
      destruct (Z.ltb_spec (Z.of_nat a) (n_layer_kv_from_start h)); cbv iota; lia. }
  rewrite H. destruct (n_layer_kv_from_start h >=? 0); lia.
Qed.


(** ** Properties *)

(** Within 32-bit positions [is_masked_swa] decides the documented window of each type
    ([p1 - p0 < n_swa]; the same chunk or a later one; a distance of at most half a
    window), and for a causal window whatever masks a position masks every older one. *)
Theorem swa_mask_spec n t p0 p1 :
  0 < n <= INT32_MAX -> 0 <= p0 <= INT32_MAX -> 0 <= p1 <= INT32_MAX ->
  (exists b, is_masked_swa n t p0 p1 = Ok b /\ (b = false <-> swa_visible n t p0 p1)) /\
  (t <> LLAMA_SWA_TYPE_SYMMETRIC -> is_masked_swa n t p0 p1 = Ok true ->
   forall p, 0 <= p <= p0 -> is_masked_swa n t p p1 = Ok true).
Proof.
  intros Hn H0 H1. split; [by apply is_masked_swa_visible|].
  intros Ht Hm p Hp. apply (is_masked_swa_suffix n t p0); done || lia.
Qed.

Lemma swa_mask_spec_witness :
  is_masked_swa 4 LLAMA_SWA_TYPE_STANDARD 5 9 = Ok true /\ is_masked_swa 4 LLAMA_SWA_TYPE_STANDARD 2 9 = Ok true /\
  exists b, is_masked_swa 4 LLAMA_SWA_TYPE_CHUNKED 7 9 = Ok b /\ (b = false <-> swa_visible 4 LLAMA_SWA_TYPE_CHUNKED 7 9).
Proof.
  assert (H : is_masked_swa 4 LLAMA_SWA_TYPE_STANDARD 5 9 = Ok true) by reflexivity.
  split; [exact H|]. split.
  - refine (proj2 (swa_mask_spec 4 LLAMA_SWA_TYPE_STANDARD 5 9 _ _ _) _ H 2 _); unfold INT32_MAX; done || lia.
  - refine (proj1 (swa_mask_spec 4 LLAMA_SWA_TYPE_CHUNKED 7 9 _ _ _)); unfold INT32_MAX; lia.
Defined.

(** After [set_swa_pattern] the window layers are exactly the documented ones: with a
    pattern of [n] layers the last layer of every group is dense (the first one with
    [dense_first]), and a pattern of 0 makes every layer a window layer. *)
Theorem swa_pattern_layers h n dense_first :
  hparams_wf h -> 0 <= n < 4294967296 ->
  runs (set_swa_pattern h n dense_first) (fun h' =>
    hparams_wf h' /\ n_layer h' = n_layer h /\
    forall il, (il < n_layer h)%nat -> exists b, is_swa h' il = Ok b /\
      (b = false <-> 0 < n /\ (n | Z.of_nat (if dense_first then il else S il)))).
Proof.
  intros W Hn. eapply runs_mono; [by apply set_swa_pattern_ok|].
  intros h' (W' & L & H). split; [done|]. split; [done|]. intros il Hil.
  exists (swa_bit n dense_first il). split; [apply is_swa_lookup; [lia|auto]|].
  unfold swa_bit. destruct (Z.eqb_spec n 0) as [->|Hne].
  { destruct dense_first; simpl; (split; [done|lia]). }
  destruct dense_first; simpl.
  - rewrite negb_false_iff, Z.eqb_eq, Z.mod_divide by done. split; [split; [lia|done]|tauto].
  - rewrite u32_small, Z.ltb_ge by lia. rewrite <- (Z.mod_divide (Z.of_nat (S il))) by done.
    pose proof (Z.mod_pos_bound (Z.of_nat il) n ltac:(lia)).
    pose proof (Z.div_mod (Z.of_nat il) n Hne) as D. split.
    + intros Hm. split; [lia|]. apply Z.mod_divide; [done|]. exists (Z.of_nat il / n + 1). nia.
    + intros [_ Hm]. apply Z.mod_divide in Hm as [q Hq]; [|done].
      set (k := Z.of_nat il / n) in *. set (r := Z.of_nat il mod n) in *.
      assert (n * (q - k) = r + 1) by lia. assert (1 <= q - k) by nia. nia.
Qed.

Lemma swa_pattern_layers_witness :
  let h := mk_hparams 64 6 (-1) 8 8 0 0 (replicate 512 8) (replicate 512 2) [] [] 0 0 [0; 0; 0; 0]
    (replicate 512 false) 0 0 0 0 [] false 0 LLAMA_ROPE_TYPE_NORM in
  hparams_wf h /\ runs (set_swa_pattern h 3 false) (fun h' => is_swa h' 2 = Ok false).
Proof.
  intros h. assert (W : hparams_wf h) by (split; vm_compute; lia || reflexivity).
  split; [exact W|]. eapply runs_mono; [apply (swa_pattern_layers h 3 false W); lia|].
  intros h' (_ & _ & H). destruct (H 2%nat) as (b & E & Hb); [simpl; lia|]. rewrite E. f_equal.
  apply Hb. split; [lia|]. exists 1. reflexivity.
Defined.
