(* ===== verification/KvCells.v ===== *)
(** The metadata of the KV cache cells, [llama_kv_cells] of
    src/llama/llama.cpp/src/llama-kv-cells.h: which positions and sequences every cell
    holds, the set of used cells and the per-sequence multiset of positions that the
    class keeps next to them.  The invariant [kv_wf] says that the two derived
    structures ([used], [seq_pos]) always describe the cells; every operation is shown
    to run without a failed assertion under its documented precondition, to preserve
    the invariant and to change the array of cells as its abstract specification says. *)

From S2P Require Import Prelude.
Local Open Scope Z_scope.

Definition LLAMA_MAX_SEQ : nat := 256.

(** ** Data *)

Record llama_kv_cell_ext := mk_ext { ext_x : Z; ext_y : Z }.

#[export] Instance llama_kv_cell_ext_eq_dec : EqDecision llama_kv_cell_ext.
Proof. solve_decision. Defined.

Definition is_2d_gt (e : llama_kv_cell_ext) (ox oy : Z) : bool :=
  (ext_y e >? oy) || ((ext_y e =? oy) && (ext_x e >? ox)).

Definition ext_reset : llama_kv_cell_ext := mk_ext 0 0.

Record llama_kv_cells := mk_cells {
  c_has_shift : bool;
  c_used      : gset nat;
  c_pos       : list Z;
  c_ext       : list llama_kv_cell_ext;
  c_shift     : list Z;
  c_seq      : list (gset Z);
  c_seq_pos   : list (gmap Z Z)
}.

(** The default-constructed object. *)
Definition llama_kv_cells_new : llama_kv_cells :=
  mk_cells false ∅ [] [] [] [] (replicate LLAMA_MAX_SEQ ∅).

Definition with_has_shift b c := mk_cells b (c_used c) (c_pos c) (c_ext c) (c_shift c) (c_seq c) (c_seq_pos c).
Definition with_used u c := mk_cells (c_has_shift c) u (c_pos c) (c_ext c) (c_shift c) (c_seq c) (c_seq_pos c).
Definition with_pos p c := mk_cells (c_has_shift c) (c_used c) p (c_ext c) (c_shift c) (c_seq c) (c_seq_pos c).
Definition with_ext e c := mk_cells (c_has_shift c) (c_used c) (c_pos c) e (c_shift c) (c_seq c) (c_seq_pos c).
Definition with_shift s c := mk_cells (c_has_shift c) (c_used c) (c_pos c) (c_ext c) s (c_seq c) (c_seq_pos c).
Definition with_seq s c := mk_cells (c_has_shift c) (c_used c) (c_pos c) (c_ext c) (c_shift c) s (c_seq_pos c).
Definition with_seq_pos m c := mk_cells (c_has_shift c) (c_used c) (c_pos c) (c_ext c) (c_shift c) (c_seq c) m.

(** ** Operations *)

Definition cells_reset (c : llama_kv_cells) : llama_kv_cells :=
  mk_cells false ∅
    ((fun _ => -1) <$> c_pos c)
    ((fun _ => ext_reset) <$> c_ext c)
    ((fun _ => 0) <$> c_shift c)
    ((fun _ => ∅) <$> c_seq c)
    ((fun _ => ∅) <$> c_seq_pos c).

Definition cells_reset_shift (c : llama_kv_cells) : llama_kv_cells :=
  with_shift ((fun _ => 0) <$> c_shift c) (with_has_shift false c).

Definition cells_size (c : llama_kv_cells) : nat := length (c_pos c).

Definition cells_resize (n : nat) (c : llama_kv_cells) : llama_kv_cells :=
  cells_reset (mk_cells (c_has_shift c) (c_used c)
    (vresize 0 n (c_pos c)) (vresize (mk_ext 0 0) n (c_ext c)) (vresize 0 n (c_shift c))
    (vresize ∅ n (c_seq c)) (c_seq_pos c)).

Definition cells_is_empty (c : llama_kv_cells) (i : nat) : res bool :=
  assert_ (i <? cells_size c)%nat ;;
  p ← rd (c_pos c) i;
  assert_ (((p <? 0) && (p =? -1)) || (p >=? 0)) ;;
  Ok (p =? -1).

Definition cells_get_used (c : llama_kv_cells) : nat := size (c_used c).

(** [*used.begin()] and [*used.rbegin()] of a [std::set<uint32_t>]. *)
Definition set_min (u : gset nat) : option nat :=
  match elements u with [] => None | x :: l => Some (foldr Nat.min x l) end.
Definition set_max (u : gset nat) : option nat :=
  match elements u with [] => None | x :: l => Some (foldr Nat.max x l) end.

Definition cells_used_min (c : llama_kv_cells) : nat := default 0%nat (set_min (c_used c)).

Definition cells_used_max_p1 (c : llama_kv_cells) : nat :=
  match set_max (c_used c) with Some m => (m + 1)%nat | None => 0%nat end.

Definition cells_get_has_shift (c : llama_kv_cells) : bool := c_has_shift c.

(** A sequence id used as an index of [seq_pos] or of a [bitset<LLAMA_MAX_SEQ>]. *)
Definition sidx (s : Z) : res nat :=
  if (0 <=? s) && (s <? Z.of_nat LLAMA_MAX_SEQ) then Ok (Z.to_nat s) else Fault OutOfRange.

Definition seq_pos_dec (m : list (gmap Z Z)) (s p : Z) : res (list (gmap Z Z)) :=
  k ← sidx s;
  sp ← rd m k;
  match sp !! p with
  | None => Fault AssertFailed
  | Some n => wr m k (if n - 1 =? 0 then delete p sp else <[p := n - 1]> sp)
  end.

Definition seq_pos_inc (m : list (gmap Z Z)) (s p : Z) : res (list (gmap Z Z)) :=
  k ← sidx s;
  sp ← rd m k;
  wr m k (<[p := default 0 (sp !! p) + 1]> sp).

(** The loop [for (int s = 0; s < LLAMA_MAX_SEQ; ++s) if (seq[i].test(s)) ...]. *)
Definition over_seqs (f : list (gmap Z Z) -> Z -> Z -> res (list (gmap Z Z)))
    (m : list (gmap Z Z)) (S : gset Z) (p : Z) : res (list (gmap Z Z)) :=
  foldM (fun m s => if bool_decide (s ∈ S) then f m s p else Ok m)
    m (seqZ 0 (Z.of_nat LLAMA_MAX_SEQ)).

Definition cells_seq_pos_rm (c : llama_kv_cells) (i : nat) : res llama_kv_cells :=
  S ← rd (c_seq c) i;
  p ← rd (c_pos c) i;
  m ← over_seqs seq_pos_dec (c_seq_pos c) S p;
  Ok (with_seq_pos m c).

Definition cells_seq_pos_add (c : llama_kv_cells) (i : nat) : res llama_kv_cells :=
  S ← rd (c_seq c) i;
  p ← rd (c_pos c) i;
  m ← over_seqs seq_pos_inc (c_seq_pos c) S p;
  Ok (with_seq_pos m c).

(** [pos[i] = p], [ext[i] = e], [shift[i] = d] and [seq[i] = S]. *)
Definition put_pos (c : llama_kv_cells) (i : nat) (p : Z) : res llama_kv_cells :=
  l ← wr (c_pos c) i p; Ok (with_pos l c).
Definition put_ext (c : llama_kv_cells) (i : nat) (e : llama_kv_cell_ext) : res llama_kv_cells :=
  l ← wr (c_ext c) i e; Ok (with_ext l c).
Definition put_shift (c : llama_kv_cells) (i : nat) (d : Z) : res llama_kv_cells :=
  l ← wr (c_shift c) i d; Ok (with_shift l c).
Definition put_seq (c : llama_kv_cells) (i : nat) (S : gset Z) : res llama_kv_cells :=
  l ← wr (c_seq c) i S; Ok (with_seq l c).
Definition used_insert (i : nat) (c : llama_kv_cells) : llama_kv_cells :=
  with_used ({[i]} ∪ c_used c) c.
Definition used_erase (i : nat) (c : llama_kv_cells) : llama_kv_cells :=
  with_used (c_used c ∖ {[i]}) c.

(** One iteration of the copy loop of both overloads of [cp]. *)
Definition cells_cp_cell (c : llama_kv_cells) (res_ : llama_kv_cells) (j idx : nat) : res llama_kv_cells :=
  p ← rd (c_pos c) idx;
  r1 ← put_pos res_ j p;
  e ← rd (c_ext c) idx;
  r2 ← put_ext r1 j e;
  S ← rd (c_seq c) idx;
  r3 ← put_seq r2 j S;
  d ← rd (c_shift c) idx;
  assert_ (d =? 0) ;;
  Ok r3.

Definition cells_cp (c : llama_kv_cells) (i n : nat) : res llama_kv_cells :=
  assert_ (i + n <=? cells_size c)%nat ;;
  foldM (fun r j => cells_cp_cell c r j (i + j)%nat) (cells_resize n llama_kv_cells_new) (seq 0 n).

Definition cells_cp_idxs (c : llama_kv_cells) (idxs : list nat) : res llama_kv_cells :=
  foldM (fun r j => idx ← rd idxs j; cells_cp_cell c r j idx)
    (cells_resize (length idxs) llama_kv_cells_new) (seq 0 (length idxs)).

(** One iteration of the loop of both overloads of [set]. *)
Definition cells_set_cell (other : llama_kv_cells) (c : llama_kv_cells) (j idx : nat) : res llama_kv_cells :=
  p ← rd (c_pos c) idx;
  q ← rd (c_pos other) j;
  let c1 := if (p =? -1) && negb (q =? -1) then used_insert idx c else c in
  let c2 := if negb (p =? -1) && (q =? -1) then used_erase idx c1 else c1 in
  c3 ← (if negb (p =? -1) then cells_seq_pos_rm c2 idx else Ok c2);
  c4 ← put_pos c3 idx q;
  e ← rd (c_ext other) j;
  c5 ← put_ext c4 idx e;
  S ← rd (c_seq other) j;
  c6 ← put_seq c5 idx S;
  c7 ← (if negb (q =? -1) then cells_seq_pos_add c6 idx else Ok c6);
  d ← rd (c_shift c7) idx;
  assert_ (d =? 0) ;;
  Ok c7.

Definition cells_set (c : llama_kv_cells) (i : nat) (other : llama_kv_cells) : res llama_kv_cells :=
  assert_ (i + cells_size other <=? cells_size c)%nat ;;
  foldM (fun c j => cells_set_cell other c j (i + j)%nat) c (seq 0 (cells_size other)).

Definition cells_set_idxs (c : llama_kv_cells) (idxs : list nat) (other : llama_kv_cells) : res llama_kv_cells :=
  assert_ (length idxs =? cells_size other)%nat ;;
  foldM (fun c j => idx ← rd idxs j; cells_set_cell other c j idx) c (seq 0 (cells_size other)).

Definition cells_rm (c : llama_kv_cells) (i : nat) : res llama_kv_cells :=
  assert_ (i <? cells_size c)%nat ;;
  p ← rd (c_pos c) i;
  assert_ (negb (p =? -1)) ;;
  c1 ← cells_seq_pos_rm c i;
  c2 ← put_seq c1 i ∅;
  c3 ← put_pos c2 i (-1);
  c4 ← put_ext c3 i ext_reset;
  c5 ← put_shift c4 i 0;
  Ok (used_erase i c5).

(** [seq[i].test(s)]: a [std::bitset] throws [std::out_of_range] outside its width. *)
Definition seq_test (S : gset Z) (s : Z) : res bool :=
  if (0 <=? s) && (s <? Z.of_nat LLAMA_MAX_SEQ) then Ok (bool_decide (s ∈ S))
  else Throw "bitset::seq_test".

Definition cells_seq_rm (c : llama_kv_cells) (i : nat) (seq_id : Z) : res (llama_kv_cells * bool) :=
  assert_ (i <? cells_size c)%nat ;;
  S ← rd (c_seq c) i;
  b ← seq_test S seq_id;
  assert_ b ;;
  p ← rd (c_pos c) i;
  assert_ (negb (p =? -1)) ;;
  assert_ (seq_id >=? 0) ;;
  let S' := S ∖ {[seq_id]} in
  c1 ← put_seq c i S';
  m ← seq_pos_dec (c_seq_pos c1) seq_id p;
  let c2 := with_seq_pos m c1 in
  if bool_decide (S' = ∅) then
    c3 ← put_pos c2 i (-1);
    c4 ← put_ext c3 i ext_reset;
    c5 ← put_shift c4 i 0;
    Ok (used_erase i c5, true)
  else Ok (c2, false).

Definition cells_seq_keep (c : llama_kv_cells) (i : nat) (seq_id : Z) : res (llama_kv_cells * bool) :=
  assert_ (i <? cells_size c)%nat ;;
  S ← rd (c_seq c) i;
  b ← seq_test S seq_id;
  if (b : bool) then
    c1 ← cells_seq_pos_rm c i;
    c2 ← put_seq c1 i ∅;
    c3 ← put_seq c2 i {[seq_id]};
    p ← rd (c_pos c3) i;
    m ← seq_pos_inc (c_seq_pos c3) seq_id p;
    Ok (with_seq_pos m c3, false)
  else if negb (bool_decide (S = ∅)) then
    c1 ← cells_seq_pos_rm c i;
    c2 ← put_seq c1 i ∅;
    c3 ← put_pos c2 i (-1);
    c4 ← put_ext c3 i ext_reset;
    c5 ← put_shift c4 i 0;
    Ok (used_erase i c5, true)
  else
    p ← rd (c_pos c) i;
    assert_ (p =? -1) ;;
    Ok (c, false).

Definition cells_seq_count (c : llama_kv_cells) (i : nat) : res nat :=
  assert_ (i <? cells_size c)%nat ;;
  p ← rd (c_pos c) i;
  assert_ (negb (p =? -1)) ;;
  S ← rd (c_seq c) i;
  Ok (size S).

Definition cells_seq_has (c : llama_kv_cells) (i : nat) (seq_id : Z) : res bool :=
  assert_ (i <? cells_size c)%nat ;;
  assert_ (seq_id >=? 0) ;;
  S ← rd (c_seq c) i;
  seq_test S seq_id.

Definition cells_seq_add (c : llama_kv_cells) (i : nat) (seq_id : Z) : res llama_kv_cells :=
  assert_ (i <? cells_size c)%nat ;;
  p ← rd (c_pos c) i;
  assert_ (negb (p =? -1)) ;;
  S ← rd (c_seq c) i;
  b ← seq_test S seq_id;
  assert_ (negb b) ;;
  c1 ← put_seq c i ({[seq_id]} ∪ S);
  m ← seq_pos_inc (c_seq_pos c1) seq_id p;
  Ok (with_seq_pos m c1).

Definition cells_seq_get (c : llama_kv_cells) (i : nat) : res Z :=
  S ← rd (c_seq c) i;
  assert_ (size S =? 1)%nat ;;
  r ← foldB (fun (_ : unit) s => Ok (if bool_decide (s ∈ S) then inr s else inl tt))
    tt (seqZ 0 (Z.of_nat LLAMA_MAX_SEQ));
  match r with inr s => Ok s | inl _ => Ok (-1) end.

(** [seq_pos[s].begin()] and [seq_pos[s].rbegin()]: the smallest and largest keys. *)
Definition map_min (m : gmap Z Z) : option Z :=
  match (map_to_list m).*1 with [] => None | x :: l => Some (foldr Z.min x l) end.
Definition map_max (m : gmap Z Z) : option Z :=
  match (map_to_list m).*1 with [] => None | x :: l => Some (foldr Z.max x l) end.

Definition cells_seq_pos_min (c : llama_kv_cells) (seq_id : Z) : res Z :=
  k ← sidx seq_id;
  m ← rd (c_seq_pos c) k;
  match map_min m with
  | None => Ok (-1)
  | Some p => assert_ (default 0 (m !! p) >? 0) ;; Ok p
  end.

Definition cells_seq_pos_max (c : llama_kv_cells) (seq_id : Z) : res Z :=
  k ← sidx seq_id;
  m ← rd (c_seq_pos c) k;
  match map_max m with
  | None => Ok (-1)
  | Some p => assert_ (default 0 (m !! p) >? 0) ;; Ok p
  end.

Definition cells_pos_get (c : llama_kv_cells) (i : nat) : res Z :=
  assert_ (i <? cells_size c)%nat ;;
  p ← rd (c_pos c) i;
  assert_ (negb (p =? -1)) ;;
  Ok p.

Definition cells_ext_get (c : llama_kv_cells) (i : nat) : res llama_kv_cell_ext :=
  assert_ (i <? cells_size c)%nat ;;
  p ← rd (c_pos c) i;
  assert_ (negb (p =? -1)) ;;
  rd (c_ext c) i.

Definition cells_get_shift (c : llama_kv_cells) (i : nat) : res Z :=
  assert_ (i <? cells_size c)%nat ;;
  p ← rd (c_pos c) i;
  assert_ (negb (p =? -1)) ;;
  rd (c_shift c) i.

Definition cells_pos_in (c : llama_kv_cells) (i : nat) (p0 p1 : Z) : res bool :=
  assert_ (i <? cells_size c)%nat ;;
  p ← rd (c_pos c) i;
  Ok ((p >=? p0) && (p <? p1)).

Definition cells_pos_set (c : llama_kv_cells) (i : nat) (p : Z) : res llama_kv_cells :=
  assert_ (i <? cells_size c)%nat ;;
  q ← rd (c_pos c) i;
  assert_ (q =? -1) ;;
  S ← rd (c_seq c) i;
  assert_ (bool_decide (S = ∅)) ;;
  c1 ← put_pos c i p;
  Ok (used_insert i c1).

Definition cells_ext_set (c : llama_kv_cells) (i : nat) (e : llama_kv_cell_ext) : res llama_kv_cells :=
  assert_ (i <? length (c_ext c))%nat ;;
  put_ext c i e.

Definition cells_pos_add (c : llama_kv_cells) (i : nat) (d : Z) : res (llama_kv_cells * bool) :=
  assert_ (i <? cells_size c)%nat ;;
  p ← rd (c_pos c) i;
  assert_ (negb (p =? -1)) ;;
  c1 ← cells_seq_pos_rm c i;
  p' ← i32 (p + d);
  c2 ← put_pos c1 i p';
  h ← rd (c_shift c2) i;
  h' ← i32 (h + d);
  c3 ← put_shift c2 i h';
  let c4 := with_has_shift true c3 in
  if p' <? 0 then
    c5 ← put_seq c4 i ∅;
    c6 ← put_pos c5 i (-1);
    c7 ← put_shift c6 i 0;
    Ok (used_erase i c7, true)
  else
    c5 ← cells_seq_pos_add c4 i;
    Ok (c5, false).

(** [pos[i] /= d]: C++ division truncates; it is undefined for [d = 0] and for
    [INT32_MIN / -1]. *)
Definition cells_pos_div (c : llama_kv_cells) (i : nat) (d : Z) : res llama_kv_cells :=
  assert_ (i <? cells_size c)%nat ;;
  p_old ← rd (c_pos c) i;
  assert_ (negb (p_old =? -1)) ;;
  c1 ← cells_seq_pos_rm c i;
  p' ← (if d =? 0 then Fault Overflow else i32 (Z.quot p_old d));
  c2 ← put_pos c1 i p';
  h ← rd (c_shift c2) i;
  df ← i32 (p_old - p');
  h' ← i32 (h + df);
  c3 ← put_shift c2 i h';
  c4 ← cells_seq_pos_add c3 i;
  Ok (with_has_shift true c4).

(** ** Abstract view: an array of cells *)

Record cell := mk_cell { a_pos : Z; a_ext : llama_kv_cell_ext; a_shift : Z; a_seq : gset Z }.

(** The empty cell, as [cells_resize] leaves it. *)
Definition cell_empty : cell := mk_cell (-1) ext_reset 0 ∅.

Definition cells_abs (c : llama_kv_cells) : list cell :=
  zip_with (fun pe hs => mk_cell pe.1 pe.2 hs.1 hs.2)
    (zip (c_pos c) (c_ext c)) (zip (c_shift c) (c_seq c)).

(** A cell that holds sequence [s] at position [p]. *)
Definition hit (s p : Z) (a : cell) : bool := bool_decide (a_pos a = p /\ s ∈ a_seq a).

(** A cell is occupied, or it is empty and then carries no sequence and no shift. *)
Definition cell_ok (a : cell) : Prop :=
  -1 <= a_pos a <= INT32_MAX /\
  (a_pos a = -1 -> a_seq a = ∅ /\ a_shift a = 0) /\
  (forall s, s ∈ a_seq a -> 0 <= s < Z.of_nat LLAMA_MAX_SEQ).

(** [seq_pos] is the table of the counts [f s p]: a position is a key exactly when its
    count is not zero. *)
Definition sp_ok (m : list (gmap Z Z)) (f : Z -> Z -> nat) : Prop :=
  length m = LLAMA_MAX_SEQ /\
  forall s p sp, 0 <= s -> m !! Z.to_nat s = Some sp ->
    sp !! p = (if (f s p =? 0)%nat then None else Some (Z.of_nat (f s p))).

Record kv_wf (c : llama_kv_cells) : Prop := {
  wf_ext   : length (c_ext c) = cells_size c;
  wf_shift : length (c_shift c) = cells_size c;
  wf_seq   : length (c_seq c) = cells_size c;
  wf_cell  : forall i a, cells_abs c !! i = Some a -> cell_ok a;
  wf_used  : forall i, i ∈ c_used c <-> exists a, cells_abs c !! i = Some a /\ a_pos a <> -1;
  wf_sp    : sp_ok (c_seq_pos c) (fun s p => countb (hit s p) (cells_abs c))
}.

(** ** The table of positions *)

Lemma sidx_ok s : 0 <= s < Z.of_nat LLAMA_MAX_SEQ -> sidx s = Ok (Z.to_nat s).
Proof.
  intros H. unfold sidx.
  rewrite (proj2 (Z.leb_le 0 s)), (proj2 (Z.ltb_lt s _)) by lia. done.
Qed.

Lemma sp_ok_ext m f g : sp_ok m f -> (forall s p, 0 <= s < Z.of_nat LLAMA_MAX_SEQ -> f s p = g s p) -> sp_ok m g.
Proof.
  intros [Hl H] E. split; [done|]. intros s p sp Hs Hsp.
  rewrite <- E; [by apply H|]. apply lookup_lt_Some in Hsp. lia.
Qed.

Lemma sp_ok_lookup m f s : sp_ok m f -> 0 <= s < Z.of_nat LLAMA_MAX_SEQ -> exists sp, m !! Z.to_nat s = Some sp.
Proof. intros [Hl _] Hs. apply lookup_lt_is_Some. lia. Qed.

(** Adds [d] occurrences of position [p] to sequence [s]. *)
Definition bump (f : Z -> Z -> nat) (s p : Z) (g : nat -> nat) : Z -> Z -> nat :=
  fun s' p' => if decide (s' = s /\ p' = p) then g (f s' p') else f s' p'.

Lemma seq_pos_dec_ok m f s p :
  sp_ok m f -> 0 <= s < Z.of_nat LLAMA_MAX_SEQ -> (0 < f s p)%nat ->
  runs (seq_pos_dec m s p) (fun m' => sp_ok m' (bump f s p pred)).
Proof.
  intros Hm Hs Hpos. destruct (sp_ok_lookup m f s Hm Hs) as [sp Hsp].
  destruct Hm as [Hl H]. unfold seq_pos_dec. rewrite sidx_ok by lia. simpl.
  rstep. pose proof (H s p sp (proj1 Hs) Hsp) as Hp.
  destruct (Nat.eqb_spec (f s p) 0); [lia|]. rewrite Hp.
  unfold wr. rewrite decide_True by by eapply lookup_lt_Some. simpl.
  split; [by rewrite length_insert|].
  intros s' p' sp' Hs' Hlk. unfold bump.
  destruct (decide (s' = s)) as [->|Hne].
  - rewrite list_lookup_insert_eq in Hlk by by eapply lookup_lt_Some.
    injection Hlk as <-. destruct (decide (p' = p)) as [->|Hnp].
    + rewrite decide_True by done.
      destruct (Z.eqb_spec (Z.of_nat (f s p) - 1) 0); rewrite ?lookup_delete_eq, ?lookup_insert_eq;
        destruct (Nat.eqb_spec (pred (f s p)) 0); try lia; try done. f_equal; lia.
    + rewrite decide_False by (intros [? ?]; congruence).
      destruct (Z.eqb_spec (Z.of_nat (f s p) - 1) 0);
        rewrite ?lookup_delete_ne, ?lookup_insert_ne by done; by apply H.
  - rewrite decide_False by (intros [? ?]; congruence).
    rewrite list_lookup_insert_ne in Hlk by lia. by apply H.
Qed.

Lemma seq_pos_inc_ok m f s p :
  sp_ok m f -> 0 <= s < Z.of_nat LLAMA_MAX_SEQ ->
  runs (seq_pos_inc m s p) (fun m' => sp_ok m' (bump f s p S)).
Proof.
  intros Hm Hs. destruct (sp_ok_lookup m f s Hm Hs) as [sp Hsp].
  destruct Hm as [Hl H]. unfold seq_pos_inc. rewrite sidx_ok by lia. simpl.
  rstep. pose proof (H s p sp (proj1 Hs) Hsp) as Hp.
  unfold wr. rewrite decide_True by by eapply lookup_lt_Some. simpl.
  split; [by rewrite length_insert|].
  intros s' p' sp' Hs' Hlk. unfold bump.
  destruct (decide (s' = s)) as [->|Hne].
  - rewrite list_lookup_insert_eq in Hlk by by eapply lookup_lt_Some.
    injection Hlk as <-. destruct (decide (p' = p)) as [->|Hnp].
    + rewrite decide_True by done. rewrite lookup_insert_eq. simpl. f_equal.
      rewrite Hp. destruct (Nat.eqb_spec (f s p) 0); simpl; lia.
    + rewrite decide_False by (intros [? ?]; congruence). rewrite lookup_insert_ne by done. by apply H.
  - rewrite decide_False by (intros [? ?]; congruence).
    rewrite list_lookup_insert_ne in Hlk by lia. by apply H.
Qed.

(** The loops over all sequences of a cell: the counts of the cell's own position change
    for the cell's own sequences, nothing else. *)
Definition bump_all (f : Z -> Z -> nat) (S : gset Z) (p : Z) (g : nat -> nat) : Z -> Z -> nat :=
  fun s' p' => if decide (s' ∈ S /\ p' = p) then g (f s' p') else f s' p'.

Lemma over_seqs_ok op g (Q : nat -> Prop) m f S p :
  (forall m f s, sp_ok m f -> 0 <= s < Z.of_nat LLAMA_MAX_SEQ -> Q (f s p) ->
     runs (op m s p) (fun m' => sp_ok m' (bump f s p g))) ->
  sp_ok m f -> (forall s, s ∈ S -> 0 <= s < Z.of_nat LLAMA_MAX_SEQ -> Q (f s p)) ->
  runs (over_seqs op m S p) (fun m' => sp_ok m' (bump_all f S p g)).
Proof.
  intros Hop Hm HQ. unfold over_seqs.
  eapply runs_mono.
  { apply (runs_foldM (fun l m => sp_ok m (fun s' p' =>
      if decide (s' ∈ l /\ s' ∈ S /\ p' = p) then g (f s' p') else f s' p'))).
    - eapply sp_ok_ext; [exact Hm|]. intros s p' _. cbv beta.
      rewrite decide_False; [done|set_solver].
    - intros l1 s l2 m1 Hl Hm1.
      assert (Hs : s ∈ seqZ 0 (Z.of_nat LLAMA_MAX_SEQ)) by (rewrite Hl; set_solver).
      apply elem_of_seqZ in Hs.
      assert (Hnew : s ∉ l1).
      { pose proof (NoDup_seqZ 0 (Z.of_nat LLAMA_MAX_SEQ)) as Hnd. rewrite Hl in Hnd.
        apply list_relations.list.NoDup_app in Hnd as (_ & Hd & _). intros Hin. apply (Hd s Hin). set_solver. }
      case_bool_decide as HS.
      + eapply runs_mono.
        { apply (Hop m1 _ s Hm1); [lia|]. cbv beta.
          rewrite decide_False by (intros [? ?]; done). apply HQ; [done|lia]. }
        intros m2 Hm2. eapply sp_ok_ext; [exact Hm2|].
        intros s' p' _. unfold bump.
        repeat case_decide; set_solver.
      + apply runs_ok. eapply sp_ok_ext; [exact Hm1|].
        intros s' p' _. cbv beta. repeat case_decide; set_solver. }
  intros m' Hm'. eapply sp_ok_ext; [exact Hm'|].
  intros s' p' Hs'. unfold bump_all.
  assert (Hin : s' ∈ seqZ 0 (Z.of_nat LLAMA_MAX_SEQ)) by (apply elem_of_seqZ; lia).
  repeat case_decide; naive_solver.
Qed.

(** ** Operations on the array of cells *)

Section abs.
Implicit Types (c : llama_kv_cells) (a : cell).

Lemma length_abs c : kv_wf c -> length (cells_abs c) = cells_size c.
Proof.
  intros []. unfold cells_abs. rewrite length_zip_with, !length_zip. unfold cells_size in *. lia.
Qed.

(** Reading the four vectors at [i] is reading the cell. *)
Lemma abs_lookup c i a :
  cells_abs c !! i = Some a <->
  c_pos c !! i = Some (a_pos a) /\ c_ext c !! i = Some (a_ext a) /\
  c_shift c !! i = Some (a_shift a) /\ c_seq c !! i = Some (a_seq a).
Proof.
  unfold cells_abs. rewrite lookup_zip_with_Some. split.
  - intros ([p e] & [h s] & -> & H1 & H2).
    apply lookup_zip_Some in H1 as [? ?]. apply lookup_zip_Some in H2 as [? ?]. done.
  - intros (? & ? & ? & ?). exists (a_pos a, a_ext a), (a_shift a, a_seq a).
    rewrite !lookup_zip_Some. by destruct a.
Qed.

Lemma abs_lookup_lt c i : kv_wf c -> (i < cells_size c)%nat -> exists a, cells_abs c !! i = Some a.
Proof. intros Hwf Hi. apply lookup_lt_is_Some. by rewrite length_abs. Qed.

Lemma abs_pos c i a : cells_abs c !! i = Some a -> c_pos c !! i = Some (a_pos a).
Proof. by intros (?&?&?&?)%abs_lookup. Qed.
Lemma abs_ext c i a : cells_abs c !! i = Some a -> c_ext c !! i = Some (a_ext a).
Proof. by intros (?&?&?&?)%abs_lookup. Qed.
Lemma abs_shift c i a : cells_abs c !! i = Some a -> c_shift c !! i = Some (a_shift a).
Proof. by intros (?&?&?&?)%abs_lookup. Qed.
Lemma abs_seq c i a : cells_abs c !! i = Some a -> c_seq c !! i = Some (a_seq a).
Proof. by intros (?&?&?&?)%abs_lookup. Qed.
Lemma abs_lt c i a : cells_abs c !! i = Some a -> (i < cells_size c)%nat.
Proof. intros H%abs_pos. by apply lookup_lt_Some in H. Qed.

Lemma abs_insert c i a :
  cells_abs (mk_cells (c_has_shift c) (c_used c) (<[i := a_pos a]> (c_pos c))
    (<[i := a_ext a]> (c_ext c)) (<[i := a_shift a]> (c_shift c))
    (<[i := a_seq a]> (c_seq c)) (c_seq_pos c)) = <[i := a]> (cells_abs c).
Proof. unfold cells_abs. simpl. rewrite <- !insert_zip_with. by destruct a. Qed.

(** The counts after cell [i] changed from [a] to [b]. *)
Lemma hit_count (l : list cell) i a b s p :
  l !! i = Some a ->
  countb (hit s p) (<[i := b]> l) =
    (countb (hit s p) l - Nat.b2n (hit s p a) + Nat.b2n (hit s p b))%nat.
Proof.
  intros H. pose proof (countb_insert (hit s p) l i a b H).
  assert (Nat.b2n (hit s p a) <= countb (hit s p) l)%nat; [|lia].
  destruct (hit s p a) eqn:E; simpl; [|lia].
  pose proof (countb_lookup _ _ _ _ H E). lia.
Qed.

(** One cell replaced: the invariant follows from the new cell, the set of used cells
    and the new table of counts. *)
Lemma wf_update c c' i a b :
  kv_wf c -> cells_abs c !! i = Some a -> cell_ok b ->
  c_pos c' = <[i := a_pos b]> (c_pos c) -> c_ext c' = <[i := a_ext b]> (c_ext c) ->
  c_shift c' = <[i := a_shift b]> (c_shift c) -> c_seq c' = <[i := a_seq b]> (c_seq c) ->
  (forall j, j ∈ c_used c' <-> if decide (j = i) then a_pos b <> -1 else j ∈ c_used c) ->
  sp_ok (c_seq_pos c') (fun s p =>
    (countb (hit s p) (cells_abs c) - Nat.b2n (hit s p a) + Nat.b2n (hit s p b))%nat) ->
  kv_wf c' /\ cells_abs c' = <[i := b]> (cells_abs c).
Proof.
  intros Hwf Ha Hb Hp He Hh Hs Hu Hsp.
  assert (Habs : cells_abs c' = <[i := b]> (cells_abs c)).
  { rewrite <- abs_insert. unfold cells_abs. by rewrite Hp, He, Hh, Hs. }
  split; [|done]. pose proof (abs_lt _ _ _ Ha) as Hi.
  destruct Hwf as [W1 W2 W3 W4 W5 W6].
  assert (Hlen : (i < length (cells_abs c))%nat) by by apply lookup_lt_Some in Ha.
  split; unfold cells_size in *; rewrite ?Hp, ?He, ?Hh, ?Hs, ?length_insert; try done.
  - intros j x. rewrite Habs. intros [(-> & -> & _)|[? Hj]]%list_lookup_insert_Some; eauto.
  - intros j. rewrite Hu, Habs. destruct (decide (j = i)) as [->|Hne].
    + rewrite list_lookup_insert_eq by done. naive_solver.
    + rewrite list_lookup_insert_ne by done. apply W5.
  - eapply sp_ok_ext; [exact Hsp|]. intros s p _. cbv beta. by rewrite Habs, (hit_count _ _ a).
Qed.
End abs.

(** ** Steps of the operations *)

Section steps.
Context {B : Type} (P : B -> Prop).
Implicit Types (c : llama_kv_cells) (k : llama_kv_cells -> res B).

Lemma runs_put_pos c i p k :
  (i < length (c_pos c))%nat -> runs (k (with_pos (<[i := p]> (c_pos c)) c)) P ->
  runs (put_pos c i p ≫= k) P.
Proof. intros H1 H2. unfold put_pos. apply runs_bind, runs_wr; done. Qed.
Lemma runs_put_ext c i e k :
  (i < length (c_ext c))%nat -> runs (k (with_ext (<[i := e]> (c_ext c)) c)) P ->
  runs (put_ext c i e ≫= k) P.
Proof. intros H1 H2. unfold put_ext. apply runs_bind, runs_wr; done. Qed.
Lemma runs_put_shift c i d k :
  (i < length (c_shift c))%nat -> runs (k (with_shift (<[i := d]> (c_shift c)) c)) P ->
  runs (put_shift c i d ≫= k) P.
Proof. intros H1 H2. unfold put_shift. apply runs_bind, runs_wr; done. Qed.
Lemma runs_put_seq c i S k :
  (i < length (c_seq c))%nat -> runs (k (with_seq (<[i := S]> (c_seq c)) c)) P ->
  runs (put_seq c i S ≫= k) P.
Proof. intros H1 H2. unfold put_seq. apply runs_bind, runs_wr; done. Qed.

Lemma runs_seq_pos_rm c i f S p k :
  c_seq c !! i = Some S -> c_pos c !! i = Some p -> sp_ok (c_seq_pos c) f ->
  (forall s, s ∈ S -> 0 <= s < Z.of_nat LLAMA_MAX_SEQ /\ (0 < f s p)%nat) ->
  (forall m, sp_ok m (bump_all f S p pred) -> runs (k (with_seq_pos m c)) P) ->
  runs (cells_seq_pos_rm c i ≫= k) P.
Proof.
  intros HS Hp Hsp Hr Hk. apply runs_bind. unfold cells_seq_pos_rm. do 2 rstep.
  apply runs_bind. eapply runs_mono.
  { apply (over_seqs_ok seq_pos_dec pred (fun n => 0 < n)%nat _ f); [|done|].
    - intros. by apply seq_pos_dec_ok.
    - intros s Hs _. by apply Hr. }
  intros m Hm. apply runs_ok. by apply Hk.
Qed.

Lemma runs_seq_pos_add c i f S p k :
  c_seq c !! i = Some S -> c_pos c !! i = Some p -> sp_ok (c_seq_pos c) f ->
  (forall m, sp_ok m (bump_all f S p Datatypes.S) -> runs (k (with_seq_pos m c)) P) ->
  runs (cells_seq_pos_add c i ≫= k) P.
Proof.
  intros HS Hp Hsp Hk. apply runs_bind. unfold cells_seq_pos_add. do 2 rstep.
  apply runs_bind. eapply runs_mono.
  { apply (over_seqs_ok seq_pos_inc Datatypes.S (fun n => True) _ f); [|done|done].
    intros. by apply seq_pos_inc_ok. }
  intros m Hm. apply runs_ok. by apply Hk.
Qed.
End steps.

Lemma bump_all_pred f a s p : bump_all f (a_seq a) (a_pos a) pred s p = (f s p - Nat.b2n (hit s p a))%nat.
Proof.
  unfold bump_all, hit. case_decide as H; case_bool_decide as H'; simpl; try lia; exfalso; naive_solver.
Qed.

Lemma bump_all_succ f a s p : bump_all f (a_seq a) (a_pos a) S s p = (f s p + Nat.b2n (hit s p a))%nat.
Proof.
  unfold bump_all, hit. case_decide as H; case_bool_decide as H'; simpl; try lia; exfalso; naive_solver.
Qed.

Lemma hit_empty s p : 0 <= p -> hit s p cell_empty = false.
Proof. intros H. unfold hit, cell_empty. simpl. apply bool_decide_eq_false. set_solver. Qed.

(** A cell without sequences is never counted. *)
Lemma hit_no_seq s p a : a_seq a = ∅ -> hit s p a = false.
Proof. intros H. unfold hit. apply bool_decide_eq_false. rewrite H. set_solver. Qed.

Lemma count_hit_pos (l : list cell) i a s :
  l !! i = Some a -> s ∈ a_seq a -> (0 < countb (hit s (a_pos a)) l)%nat.
Proof. intros H Hs. eapply countb_lookup; [done|]. unfold hit. by apply bool_decide_eq_true. Qed.

(** The cells after one operation on cell [i]: it became [b], all others are as before. *)
Definition updated (c : llama_kv_cells) (i : nat) (b : cell) (c' : llama_kv_cells) : Prop :=
  kv_wf c' /\ cells_abs c' = <[i := b]> (cells_abs c).

(** Opens the invariant at an occupied or empty cell [i] holding [a]. *)
Ltac open_cell Hwf Ha :=
  pose proof (abs_pos _ _ _ Ha); pose proof (abs_ext _ _ _ Ha);
  pose proof (abs_shift _ _ _ Ha); pose proof (abs_seq _ _ _ Ha);
  pose proof (abs_lt _ _ _ Ha); pose proof (wf_cell _ Hwf _ _ Ha);
  pose proof (wf_ext _ Hwf); pose proof (wf_shift _ Hwf); pose proof (wf_seq _ Hwf).

(** Steps that the facts of [open_cell] discharge. *)
Ltac cstep :=
  lazymatch goal with
  | |- runs (put_pos _ _ _ ≫= _) _ => apply runs_put_pos; [simpl; rewrite ?length_insert; unfold cells_size in *; lia|]
  | |- runs (put_ext _ _ _ ≫= _) _ => apply runs_put_ext; [simpl; rewrite ?length_insert; unfold cells_size in *; lia|]
  | |- runs (put_shift _ _ _ ≫= _) _ => apply runs_put_shift; [simpl; rewrite ?length_insert; unfold cells_size in *; lia|]
  | |- runs (put_seq _ _ _ ≫= _) _ => apply runs_put_seq; [simpl; rewrite ?length_insert; unfold cells_size in *; lia|]
  | |- runs (assert_ (_ <? cells_size _)%nat ;; _) _ => apply runs_assert; [apply Nat.ltb_lt; done|]
  | |- runs (assert_ _ ;; _) _ => apply runs_assert; [lia|]
  | |- runs (rd _ _ ≫= _) _ => eapply runs_rd; [eassumption|]
  | |- runs (Ok _ ≫= _) _ => apply runs_bind, runs_ok; cbv beta
  end.
Ltac csteps := repeat (cstep; cbv beta zeta).

(** ** Specification of the operations on one cell *)

Definition spec_seq_rm (a : cell) (s : Z) : cell * bool :=
  let S' := a_seq a ∖ {[s]} in
  if decide (S' = ∅) then (cell_empty, true)
  else (mk_cell (a_pos a) (a_ext a) (a_shift a) S', false).

Definition spec_seq_keep (a : cell) (s : Z) : cell * bool :=
  if decide (s ∈ a_seq a) then (mk_cell (a_pos a) (a_ext a) (a_shift a) {[s]}, false)
  else if decide (a_seq a = ∅) then (a, false)
  else (cell_empty, true).

Definition spec_pos_add (a : cell) (d : Z) : cell * bool :=
  if decide (a_pos a + d < 0) then (mk_cell (-1) (a_ext a) 0 ∅, true)
  else (mk_cell (a_pos a + d) (a_ext a) (a_shift a + d) (a_seq a), false).

Definition spec_pos_div (a : cell) (d : Z) : cell :=
  let q := Z.quot (a_pos a) d in
  mk_cell q (a_ext a) (a_shift a + (a_pos a - q)) (a_seq a).

(** ** The operations implement their specification *)

Section ops.
Implicit Types (c : llama_kv_cells) (a : cell).

Lemma cell_empty_ok : cell_ok cell_empty.
Proof. unfold cell_ok. simpl. unfold INT32_MAX. set_solver by lia. Qed.

(** The set of used cells after an erase and after an insert. *)
Lemma used_after_erase c i j (b : cell) :
  a_pos b = -1 -> (j ∈ c_used c ∖ {[i]} <-> if decide (j = i) then a_pos b <> -1 else j ∈ c_used c).
Proof. intros Hb. case_decide; set_solver. Qed.

Lemma used_unchanged c i j a q :
  kv_wf c -> cells_abs c !! i = Some a -> (a_pos a = -1 <-> q = -1) ->
  (j ∈ c_used c <-> if decide (j = i) then q <> -1 else j ∈ c_used c).
Proof. intros Hwf Ha Hb. case_decide; [subst|done]. rewrite (wf_used _ Hwf). naive_solver. Qed.

(** Replacing the cell by the empty one once its counts are gone. *)
Lemma wf_clear c c' i a e hs m :
  kv_wf c -> cells_abs c !! i = Some a ->
  c' = mk_cells hs (c_used c ∖ {[i]}) (<[i := -1]> (c_pos c)) (<[i := e]> (c_ext c))
         (<[i := 0]> (c_shift c)) (<[i := ∅]> (c_seq c)) m ->
  sp_ok m (fun s p => (countb (hit s p) (cells_abs c) - Nat.b2n (hit s p a))%nat) ->
  updated c i (mk_cell (-1) e 0 ∅) c'.
Proof.
  intros Hwf Ha -> Hm. eapply wf_update; try done; simpl.
  - intros j. apply (used_after_erase c i j (mk_cell (-1) e 0 ∅)). done.
  - eapply sp_ok_ext; [exact Hm|]. intros s p _. cbv beta.
    rewrite (hit_no_seq s p (mk_cell (-1) e 0 ∅)) by done. simpl. lia.
Qed.

Lemma rm_counts c i a s :
  kv_wf c -> cells_abs c !! i = Some a -> s ∈ a_seq a ->
  0 <= s < Z.of_nat LLAMA_MAX_SEQ /\ (0 < countb (hit s (a_pos a)) (cells_abs c))%nat.
Proof.
  intros Hwf Ha Hs. split; [by apply (wf_cell _ Hwf _ _ Ha)|by eapply count_hit_pos].
Qed.

Theorem cells_rm_ok c i a :
  kv_wf c -> cells_abs c !! i = Some a -> a_pos a <> -1 ->
  runs (cells_rm c i) (fun c' => updated c i cell_empty c' /\ c_has_shift c' = c_has_shift c).
Proof.
  intros Hwf Ha Hp. open_cell Hwf Ha. unfold cells_rm. csteps.
  eapply runs_seq_pos_rm; [eassumption..|apply (wf_sp _ Hwf)|intros s Hs; by eapply rm_counts|].
  intros m Hm. csteps. simpl. split; [|done].
  eapply wf_clear; [done|exact Ha|reflexivity|].
  eapply sp_ok_ext; [exact Hm|]. intros s p _. apply bump_all_pred.
Qed.

Lemma seq_test_ok S s : 0 <= s < Z.of_nat LLAMA_MAX_SEQ -> seq_test S s = Ok (bool_decide (s ∈ S)).
Proof.
  intros H. unfold seq_test. rewrite (proj2 (Z.leb_le 0 s)), (proj2 (Z.ltb_lt s _)) by lia. done.
Qed.

Lemma cell_seq_pos a s : cell_ok a -> s ∈ a_seq a -> 0 <= a_pos a /\ 0 <= s < Z.of_nat LLAMA_MAX_SEQ.
Proof.
  intros (H1 & H2 & H3) Hs. split; [|by apply H3].
  destruct (decide (a_pos a = -1)) as [E|]; [|lia]. destruct (H2 E). set_solver.
Qed.

(** One table entry of sequence [s] less, or one more. *)
Lemma bump_pred_hit f a s s' p' :
  s ∈ a_seq a ->
  bump f s (a_pos a) pred s' p' =
    (f s' p' - Nat.b2n (hit s' p' (mk_cell (a_pos a) (a_ext a) (a_shift a) {[s]})))%nat.
Proof.
  intros Hs. unfold bump, hit. simpl.
  case_decide as H; case_bool_decide as H'; simpl; try lia; exfalso; set_solver.
Qed.

Lemma bump_succ_hit f a s s' p' :
  bump f s (a_pos a) S s' p' =
    (f s' p' + Nat.b2n (hit s' p' (mk_cell (a_pos a) (a_ext a) (a_shift a) {[s]})))%nat.
Proof.
  unfold bump, hit. simpl.
  case_decide as H; case_bool_decide as H'; simpl; try lia; exfalso; set_solver.
Qed.

(** Splitting one sequence off a cell splits the counts. *)
Lemma hit_split a s s' p' :
  s ∈ a_seq a ->
  Nat.b2n (hit s' p' a) =
    (Nat.b2n (hit s' p' (mk_cell (a_pos a) (a_ext a) (a_shift a) {[s]})) +
     Nat.b2n (hit s' p' (mk_cell (a_pos a) (a_ext a) (a_shift a) (a_seq a ∖ {[s]}))))%nat.
Proof.
  intros Hs. unfold hit. simpl. repeat case_bool_decide; simpl; try lia; exfalso; set_solver.
Qed.

Lemma hit_le c i a s p : cells_abs c !! i = Some a -> (Nat.b2n (hit s p a) <= countb (hit s p) (cells_abs c))%nat.
Proof.
  intros Ha. destruct (hit s p a) eqn:E; simpl; [|lia].
  pose proof (countb_lookup _ _ _ _ Ha E). lia.
Qed.

Theorem cells_seq_rm_ok c i a s :
  kv_wf c -> cells_abs c !! i = Some a -> s ∈ a_seq a ->
  runs (cells_seq_rm c i s) (fun r =>
    r.2 = (spec_seq_rm a s).2 /\ updated c i (spec_seq_rm a s).1 r.1 /\ c_has_shift r.1 = c_has_shift c).
Proof.
  intros Hwf Ha Hs. open_cell Hwf Ha.
  destruct (cell_seq_pos a s) as [Hp Hr]; [done..|].
  unfold cells_seq_rm. csteps. rewrite seq_test_ok by done. rewrite (bool_decide_true (s ∈ a_seq a)) by done.
  csteps. apply runs_bind. simpl. eapply runs_mono.
  { apply (seq_pos_dec_ok _ _ s (a_pos a) (wf_sp _ Hwf)); [done|]. by eapply count_hit_pos. }
  intros m Hm. cbv beta zeta.
  assert (Hm' : sp_ok m (fun s' p' => countb (hit s' p') (cells_abs c) -
      Nat.b2n (hit s' p' (mk_cell (a_pos a) (a_ext a) (a_shift a) {[s]})))%nat).
  { eapply sp_ok_ext; [exact Hm|]. intros s' p' _. by apply bump_pred_hit. }
  unfold spec_seq_rm. case_bool_decide as HS.
  - rewrite decide_True by done. csteps. simpl. split; [done|]. split; [|done].
    eapply wf_clear; [done|exact Ha|unfold with_seq, with_ext; simpl; by rewrite HS|].
    eapply sp_ok_ext; [exact Hm'|]. intros s' p' _. cbv beta.
    rewrite (hit_split a s) by done.
    rewrite (hit_no_seq s' p' (mk_cell _ _ _ (a_seq a ∖ {[s]}))) by done. simpl. lia.
  - rewrite decide_False by done. simpl. split; [done|]. split; [|done].
    eapply (wf_update _ _ i a); [done|exact Ha| |simpl;
      rewrite ?(list_insert_id (c_pos c)), ?(list_insert_id (c_ext c)),
        ?(list_insert_id (c_shift c)) by done; reflexivity..| |].
    + match goal with H : cell_ok a |- _ => destruct H as (C1 & C2 & C3) end.
      split; [exact C1|]. simpl. split; [intros E; lia|set_solver].
    + intros j. simpl. by apply (used_unchanged c i j a (a_pos a)).
    + simpl. eapply sp_ok_ext; [exact Hm'|]. intros s' p' _. cbv beta.
      pose proof (hit_split a s s' p' Hs). pose proof (hit_le c i a s' p' Ha). lia.
Qed.

Theorem cells_seq_add_ok c i a s :
  kv_wf c -> cells_abs c !! i = Some a -> a_pos a <> -1 ->
  0 <= s < Z.of_nat LLAMA_MAX_SEQ -> s ∉ a_seq a ->
  runs (cells_seq_add c i s) (fun c' =>
    updated c i (mk_cell (a_pos a) (a_ext a) (a_shift a) ({[s]} ∪ a_seq a)) c' /\ c_has_shift c' = c_has_shift c).
Proof.
  intros Hwf Ha Hp Hr Hs. open_cell Hwf Ha.
  unfold cells_seq_add. csteps. rewrite seq_test_ok by done. rewrite (bool_decide_false (s ∈ a_seq a)) by done.
  csteps. apply runs_bind. simpl. eapply runs_mono.
  { by apply (seq_pos_inc_ok _ _ s (a_pos a) (wf_sp _ Hwf)). }
  intros m Hm. simpl. split; [|done].
  eapply (wf_update _ _ i a); [done|exact Ha| |simpl;
    rewrite ?(list_insert_id (c_pos c)), ?(list_insert_id (c_ext c)),
      ?(list_insert_id (c_shift c)) by done; reflexivity..| |].
  - match goal with H : cell_ok a |- _ => destruct H as (C1 & C2 & C3) end.
    split; [exact C1|]. simpl. split; [done|set_solver].
  - intros j. simpl. by apply (used_unchanged c i j a (a_pos a)).
  - simpl. eapply sp_ok_ext; [exact Hm|]. intros s' p' _. cbv beta.
    rewrite bump_succ_hit.
    pose proof (hit_split (mk_cell (a_pos a) (a_ext a) (a_shift a) ({[s]} ∪ a_seq a)) s s' p') as E.
    simpl in E. replace (({[s]} ∪ a_seq a) ∖ {[s]}) with (a_seq a) in E by set_solver.
    pose proof (hit_le c i a s' p' Ha). destruct a; simpl in *. rewrite E by set_solver. lia.
Qed.

Theorem cells_seq_keep_ok c i a s :
  kv_wf c -> cells_abs c !! i = Some a -> 0 <= s < Z.of_nat LLAMA_MAX_SEQ ->
  (a_seq a = ∅ -> a_pos a = -1) ->
  runs (cells_seq_keep c i s) (fun r =>
    r.2 = (spec_seq_keep a s).2 /\ updated c i (spec_seq_keep a s).1 r.1 /\
    c_has_shift r.1 = c_has_shift c).
Proof.
  intros Hwf Ha Hr Hne. open_cell Hwf Ha.
  unfold cells_seq_keep, spec_seq_keep. csteps. rewrite seq_test_ok by done. csteps.
  case_bool_decide as Hs.
  - rewrite decide_True by done. destruct (cell_seq_pos a s) as [Hp _]; [done..|].
    eapply runs_seq_pos_rm; [eassumption..|apply (wf_sp _ Hwf)|intros s' Hs'; by eapply rm_counts|].
    intros m Hm. csteps. apply runs_bind. eapply runs_mono; [by apply (seq_pos_inc_ok _ _ s (a_pos a) Hm)|].
    intros m2 Hm2. simpl. split; [done|]. split; [|done].
    eapply (wf_update _ _ i a); [done|exact Ha| |simpl;
      rewrite ?(list_insert_id (c_pos c)), ?(list_insert_id (c_ext c)),
        ?(list_insert_id (c_shift c)) by done; try done..| |].
    + match goal with H : cell_ok a |- _ => destruct H as (C1 & C2 & C3) end.
      split; [exact C1|]. simpl. split; [intros; lia|set_solver].
    + by rewrite list_insert_insert_eq.
    + intros j. simpl. by apply (used_unchanged c i j a (a_pos a)).
    + simpl. eapply sp_ok_ext; [exact Hm2|]. intros s' p' _. cbv beta.
      rewrite bump_succ_hit. f_equal. apply bump_all_pred.
  - rewrite decide_False by done. case_bool_decide as HS; simpl.
    + rewrite decide_True by done. pose proof (Hne HS). csteps.
      apply runs_ok. simpl. split; [done|]. split; [|done]. split; [done|].
      by rewrite list_insert_id.
    + rewrite decide_False by done.
      eapply runs_seq_pos_rm; [eassumption..|apply (wf_sp _ Hwf)|intros s' Hs'; by eapply rm_counts|].
      intros m Hm. csteps. apply runs_ok. simpl. split; [done|]. split; [|done].
      eapply wf_clear; [done|exact Ha|reflexivity|].
      eapply sp_ok_ext; [exact Hm|]. intros s' p _. apply bump_all_pred.
Qed.

Theorem cells_pos_set_ok c i a p :
  kv_wf c -> cells_abs c !! i = Some a -> a_pos a = -1 -> 0 <= p <= INT32_MAX ->
  runs (cells_pos_set c i p) (fun c' =>
    updated c i (mk_cell p (a_ext a) (a_shift a) ∅) c' /\ c_has_shift c' = c_has_shift c).
Proof.
  intros Hwf Ha He Hp. open_cell Hwf Ha.
  assert (Hc : a_seq a = ∅ /\ a_shift a = 0) by (match goal with H : cell_ok a |- _ => by apply H end).
  destruct Hc as [HS Hsh]. unfold cells_pos_set. csteps.
  apply runs_assert; [by apply bool_decide_eq_true|]. csteps. apply runs_ok. split; [|done].
  eapply (wf_update _ _ i a); [done|exact Ha| |simpl;
    rewrite ?(list_insert_id (c_ext c)), ?(list_insert_id (c_shift c)) by done; try done..| |].
  - split; [simpl; lia|]. simpl. split; [intros; lia|set_solver].
  - simpl. rewrite list_insert_id; [done|by rewrite <- HS].
  - intros j. simpl. case_decide; set_solver by lia.
  - simpl. eapply sp_ok_ext; [apply (wf_sp _ Hwf)|]. intros s' p' _. cbv beta.
    rewrite !hit_no_seq by done. simpl. lia.
Qed.

Theorem cells_ext_set_ok c i a e :
  kv_wf c -> cells_abs c !! i = Some a ->
  runs (cells_ext_set c i e) (fun c' =>
    updated c i (mk_cell (a_pos a) e (a_shift a) (a_seq a)) c' /\ c_has_shift c' = c_has_shift c).
Proof.
  intros Hwf Ha. open_cell Hwf Ha. unfold cells_ext_set.
  apply runs_assert; [apply Nat.ltb_lt; lia|]. unfold put_ext. apply runs_wr; [lia|].
  apply runs_ok. split; [|done].
  eapply (wf_update _ _ i a); [done|exact Ha|done|simpl;
    rewrite ?(list_insert_id (c_pos c)), ?(list_insert_id (c_seq c)), ?(list_insert_id (c_shift c)) by done;
    try done..| |].
  - intros j. simpl. by apply (used_unchanged c i j a (a_pos a)).
  - simpl. eapply sp_ok_ext; [apply (wf_sp _ Hwf)|]. intros s' p' _. cbv beta.
    pose proof (hit_le c i a s' p' Ha). unfold hit in *. simpl. lia.
Qed.

Theorem cells_pos_add_ok c i a d :
  kv_wf c -> cells_abs c !! i = Some a -> a_pos a <> -1 ->
  INT32_MIN <= a_pos a + d <= INT32_MAX -> INT32_MIN <= a_shift a + d <= INT32_MAX ->
  runs (cells_pos_add c i d) (fun r =>
    r.2 = (spec_pos_add a d).2 /\ updated c i (spec_pos_add a d).1 r.1 /\
    c_has_shift r.1 = true).
Proof.
  intros Hwf Ha Hp Ho1 Ho2. open_cell Hwf Ha. unfold cells_pos_add, spec_pos_add. csteps.
  eapply runs_seq_pos_rm; [eassumption..|apply (wf_sp _ Hwf)|intros s Hs; by eapply rm_counts|].
  intros m Hm. rewrite (i32_ok (a_pos a + d)) by done. csteps. rewrite i32_ok by done. csteps. simpl.
  assert (Hm' : sp_ok m (fun s p => (countb (hit s p) (cells_abs c) - Nat.b2n (hit s p a))%nat)).
  { eapply sp_ok_ext; [exact Hm|]. intros s p _. apply bump_all_pred. }
  destruct (Z.ltb_spec (a_pos a + d) 0) as [Hlt|Hge].
  - rewrite decide_True by lia. csteps. apply runs_ok. simpl. split; [done|]. split; [|done].
    eapply wf_clear; [done|exact Ha| |exact Hm'].
    unfold used_erase, with_used, with_shift, with_pos, with_seq. simpl.
    rewrite !list_insert_insert_eq. by rewrite (list_insert_id (c_ext c)) by done.
  - rewrite decide_False by lia.
    eapply (runs_seq_pos_add _ _ i _ (a_seq a) (a_pos a + d)); [done|simpl;
      rewrite list_lookup_insert_eq; [done|unfold cells_size in *; lia]|exact Hm'|].
    intros m2 Hm2. apply runs_ok. simpl. split; [done|]. split; [|done].
    eapply (wf_update _ _ i a); [done|exact Ha| |simpl;
      rewrite ?(list_insert_id (c_seq c)), ?(list_insert_id (c_ext c)) by done; try done..| |].
    + match goal with H : cell_ok a |- _ => destruct H as (C1 & C2 & C3) end.
      split; [simpl; lia|]. simpl. split; [intros; lia|done].
    + intros j. simpl. apply (used_unchanged c i j a (a_pos a + d)); [done..|lia].
    + simpl. eapply sp_ok_ext; [exact Hm2|]. intros s' p' _. cbv beta.
      exact (bump_all_succ _ (mk_cell (a_pos a + d) (a_ext a) (a_shift a + d) (a_seq a)) s' p').
Qed.

Theorem cells_pos_div_ok c i a d :
  kv_wf c -> cells_abs c !! i = Some a -> a_pos a <> -1 -> 0 < d ->
  a_shift a + (a_pos a - Z.quot (a_pos a) d) <= INT32_MAX -> INT32_MIN <= a_shift a ->
  runs (cells_pos_div c i d) (fun c' =>
    updated c i (spec_pos_div a d) c' /\ c_has_shift c' = true).
Proof.
  intros Hwf Ha Hp Hd Ho1 Ho2. open_cell Hwf Ha. unfold cells_pos_div, spec_pos_div. csteps.
  match goal with H : cell_ok a |- _ => destruct H as (C1 & C2 & C3) end.
  eapply runs_seq_pos_rm; [eassumption..|apply (wf_sp _ Hwf)|intros s Hs; by eapply rm_counts|].
  intros m Hm. destruct (Z.eqb_spec d 0); [lia|].
  assert (Hq : 0 <= Z.quot (a_pos a) d <= a_pos a).
  { rewrite Z.quot_div_nonneg by lia. split; [apply Z.div_pos; lia|].
    apply Z.div_le_upper_bound; [lia|]. nia. }
  unfold INT32_MAX, INT32_MIN in *.
  rewrite (i32_ok (Z.quot _ _)) by (unfold INT32_MAX, INT32_MIN; lia). csteps.
  rewrite !i32_ok by (unfold INT32_MAX, INT32_MIN; lia). csteps.
  rewrite !i32_ok by (unfold INT32_MAX, INT32_MIN; lia). csteps.
  assert (Hm' : sp_ok m (fun s p => (countb (hit s p) (cells_abs c) - Nat.b2n (hit s p a))%nat)).
  { eapply sp_ok_ext; [exact Hm|]. intros s p _. apply bump_all_pred. }
  eapply (runs_seq_pos_add _ _ i _ (a_seq a) (Z.quot (a_pos a) d)); [done|simpl;
    rewrite list_lookup_insert_eq; [done|unfold cells_size in *; lia]|exact Hm'|].
  intros m2 Hm2. apply runs_ok. split; [|done].
  eapply (wf_update _ _ i a); [done|exact Ha| |simpl;
    rewrite ?(list_insert_id (c_seq c)), ?(list_insert_id (c_ext c)) by done; try done..| |].
  + split; [simpl; unfold INT32_MAX; lia|]. simpl. split; [intros; lia|done].
  + intros j. simpl. apply (used_unchanged c i j a (Z.quot (a_pos a) d)); [done..|lia].
  + simpl. eapply sp_ok_ext; [exact Hm2|]. intros s' p' _. cbv beta.
    exact (bump_all_succ _ (mk_cell (Z.quot (a_pos a) d) (a_ext a) (a_shift a) (a_seq a)) s' p').
Qed.
End ops.

(** ** Queries *)

Lemma foldr_min_spec x (l : list Z) :
  foldr Z.min x l ∈ x :: l /\ forall y, y ∈ x :: l -> foldr Z.min x l <= y.
Proof.
  induction l as [|z l [IH1 IH2]]; simpl.
  - split; [set_solver|]. intros y Hy. set_solver by lia.
  - split.
    + destruct (Z.min_spec z (foldr Z.min x l)) as [[_ ->]|[_ ->]]; set_solver.
    + intros y Hy. rewrite !elem_of_cons in Hy.
      assert (y = z \/ y ∈ x :: l) as [->|Hy'] by (rewrite elem_of_cons; naive_solver); [lia|].
      specialize (IH2 y Hy'). lia.
Qed.

Lemma foldr_max_spec x (l : list Z) :
  foldr Z.max x l ∈ x :: l /\ forall y, y ∈ x :: l -> y <= foldr Z.max x l.
Proof.
  induction l as [|z l [IH1 IH2]]; simpl.
  - split; [set_solver|]. intros y Hy. set_solver by lia.
  - split.
    + destruct (Z.max_spec z (foldr Z.max x l)) as [[_ ->]|[_ ->]]; set_solver.
    + intros y Hy. rewrite !elem_of_cons in Hy.
      assert (y = z \/ y ∈ x :: l) as [->|Hy'] by (rewrite elem_of_cons; naive_solver); [lia|].
      specialize (IH2 y Hy'). lia.
Qed.

Lemma elem_of_keys (m : gmap Z Z) k : k ∈ (map_to_list m).*1 <-> is_Some (m !! k).
Proof.
  rewrite list_elem_of_fmap. split.
  - intros ([k' v] & -> & H%elem_of_map_to_list). by exists v.
  - intros [v H]. exists (k, v). by rewrite elem_of_map_to_list.
Qed.

Lemma map_min_spec (m : gmap Z Z) :
  match map_min m with
  | None => m = ∅
  | Some k => is_Some (m !! k) /\ forall k', is_Some (m !! k') -> k <= k'
  end.
Proof.
  unfold map_min. pose proof (elem_of_keys m) as Hk.
  destruct ((map_to_list m).*1) as [|x l].
  - apply map_eq. intros k. rewrite lookup_empty. apply eq_None_not_Some.
    intros H%Hk. set_solver.
  - destruct (foldr_min_spec x l) as [H1 H2]. split; [by apply Hk|].
    intros k' H%Hk. by apply H2.
Qed.

Lemma map_max_spec (m : gmap Z Z) :
  match map_max m with
  | None => m = ∅
  | Some k => is_Some (m !! k) /\ forall k', is_Some (m !! k') -> k' <= k
  end.
Proof.
  unfold map_max. pose proof (elem_of_keys m) as Hk.
  destruct ((map_to_list m).*1) as [|x l].
  - apply map_eq. intros k. rewrite lookup_empty. apply eq_None_not_Some.
    intros H%Hk. set_solver.
  - destruct (foldr_max_spec x l) as [H1 H2]. split; [by apply Hk|].
    intros k' H%Hk. by apply H2.
Qed.

(** [m] is the smallest (largest) position of sequence [s], or -1 without a cell of [s]. *)
Definition spec_pos_min (l : list cell) (s m : Z) : Prop :=
  (m = -1 /\ forall i a, l !! i = Some a -> s ∉ a_seq a) \/
  (exists i a, l !! i = Some a /\ s ∈ a_seq a /\ a_pos a = m) /\
  (forall i a, l !! i = Some a -> s ∈ a_seq a -> m <= a_pos a).

Definition spec_pos_max (l : list cell) (s m : Z) : Prop :=
  (m = -1 /\ forall i a, l !! i = Some a -> s ∉ a_seq a) \/
  (exists i a, l !! i = Some a /\ s ∈ a_seq a /\ a_pos a = m) /\
  (forall i a, l !! i = Some a -> s ∈ a_seq a -> a_pos a <= m).

Section queries.
Implicit Types (c : llama_kv_cells) (a : cell).

Lemma cells_is_empty_ok c i a :
  kv_wf c -> cells_abs c !! i = Some a -> cells_is_empty c i = Ok (a_pos a =? -1).
Proof.
  intros Hwf Ha. open_cell Hwf Ha. unfold cells_is_empty, rd, assert_.
  match goal with H : cell_ok a |- _ => destruct H as (C1 & C2 & C3) end.
  rewrite (proj2 (Nat.ltb_lt i _)) by done. simpl. rewrite H. simpl.
  by replace ((a_pos a <? 0) && (a_pos a =? -1) || (a_pos a >=? 0)) with true by lia.
Qed.

Lemma cells_pos_in_ok c i a p0 p1 :
  kv_wf c -> cells_abs c !! i = Some a ->
  cells_pos_in c i p0 p1 = Ok ((a_pos a >=? p0) && (a_pos a <? p1)).
Proof.
  intros Hwf Ha. open_cell Hwf Ha. unfold cells_pos_in, rd, assert_.
  rewrite (proj2 (Nat.ltb_lt i _)) by done. simpl. by rewrite H.
Qed.

Lemma cells_seq_has_ok c i a s :
  kv_wf c -> cells_abs c !! i = Some a -> 0 <= s < Z.of_nat LLAMA_MAX_SEQ ->
  cells_seq_has c i s = Ok (bool_decide (s ∈ a_seq a)).
Proof.
  intros Hwf Ha Hs. open_cell Hwf Ha. unfold cells_seq_has, rd, assert_.
  rewrite (proj2 (Nat.ltb_lt i _)) by done. simpl.
  replace (s >=? 0) with true by lia. simpl. rewrite H2. simpl. by rewrite seq_test_ok.
Qed.

Lemma cells_seq_count_ok c i a :
  kv_wf c -> cells_abs c !! i = Some a -> a_pos a <> -1 ->
  cells_seq_count c i = Ok (size (a_seq a)).
Proof.
  intros Hwf Ha Hp. open_cell Hwf Ha. unfold cells_seq_count, rd, assert_.
  rewrite (proj2 (Nat.ltb_lt i _)) by done. simpl. rewrite H. simpl.
  replace (negb (a_pos a =? -1)) with true by lia. simpl. by rewrite H2.
Qed.

Lemma cells_pos_get_ok c i a :
  kv_wf c -> cells_abs c !! i = Some a -> a_pos a <> -1 -> cells_pos_get c i = Ok (a_pos a).
Proof.
  intros Hwf Ha Hp. open_cell Hwf Ha. unfold cells_pos_get, rd, assert_.
  rewrite (proj2 (Nat.ltb_lt i _)) by done. simpl. rewrite H. simpl.
  by replace (negb (a_pos a =? -1)) with true by lia.
Qed.

Lemma cells_ext_get_ok c i a :
  kv_wf c -> cells_abs c !! i = Some a -> a_pos a <> -1 -> cells_ext_get c i = Ok (a_ext a).
Proof.
  intros Hwf Ha Hp. open_cell Hwf Ha. unfold cells_ext_get, rd, assert_.
  rewrite (proj2 (Nat.ltb_lt i _)) by done. simpl. rewrite H. simpl.
  replace (negb (a_pos a =? -1)) with true by lia. simpl. by rewrite H0.
Qed.

Lemma cells_get_shift_ok c i a :
  kv_wf c -> cells_abs c !! i = Some a -> a_pos a <> -1 -> cells_get_shift c i = Ok (a_shift a).
Proof.
  intros Hwf Ha Hp. open_cell Hwf Ha. unfold cells_get_shift, rd, assert_.
  rewrite (proj2 (Nat.ltb_lt i _)) by done. simpl. rewrite H. simpl.
  replace (negb (a_pos a =? -1)) with true by lia. simpl. by rewrite H1.
Qed.

(** The search loop of [seq_get] returns the only sequence of the cell. *)
Lemma seq_get_search (S : gset Z) (s : Z) l :
  S = {[s]} -> s ∈ l ->
  foldB (fun (_ : unit) s' => Ok (if bool_decide (s' ∈ S) then inr s' else inl tt)) tt l = Ok (inr s).
Proof.
  intros ->. induction l as [|x l IH]; [set_solver|]. intros Hs. simpl.
  case_bool_decide as Hx; [by apply elem_of_singleton in Hx as ->|].
  apply IH. set_solver.
Qed.

Lemma cells_seq_get_ok c i a s :
  kv_wf c -> cells_abs c !! i = Some a -> a_seq a = {[s]} -> cells_seq_get c i = Ok s.
Proof.
  intros Hwf Ha HS. open_cell Hwf Ha. unfold cells_seq_get, rd, assert_. rewrite H2, bind_ok.
  assert (Hs : 0 <= s < Z.of_nat LLAMA_MAX_SEQ).
  { match goal with H : cell_ok a |- _ => apply H end. rewrite HS. set_solver. }
  rewrite HS, size_singleton, Nat.eqb_refl, bind_ok.
  rewrite (seq_get_search {[s]} s); [done|done|]. apply elem_of_seqZ. lia.
Qed.

Lemma sp_ok_is_Some c s m p :
  kv_wf c -> 0 <= s -> c_seq_pos c !! Z.to_nat s = Some m ->
  is_Some (m !! p) <-> exists i a, cells_abs c !! i = Some a /\ s ∈ a_seq a /\ a_pos a = p.
Proof.
  intros Hwf Hs Hm. destruct (wf_sp _ Hwf) as [_ H]. rewrite (H s p m Hs Hm).
  destruct (Nat.eqb_spec (countb (hit s p) (cells_abs c)) 0) as [E|E].
  - rewrite countb_zero in E. split; [by intros [? ?]|].
    intros (i & a & Ha & Hin & Hp). specialize (E i a Ha). unfold hit in E.
    apply bool_decide_eq_false in E. naive_solver.
  - split; [intros _|by eauto].
    assert (0 < countb (hit s p) (cells_abs c))%nat as (i & a & Ha & Hh)%countb_pos by lia.
    unfold hit in Hh. apply bool_decide_eq_true in Hh. naive_solver.
Qed.

Lemma sp_ok_value c s m p :
  kv_wf c -> 0 <= s -> c_seq_pos c !! Z.to_nat s = Some m -> is_Some (m !! p) ->
  (default 0 (m !! p) >? 0) = true.
Proof.
  intros Hwf Hs Hm [n Hn]. destruct (wf_sp _ Hwf) as [_ H].
  pose proof (H s p m Hs Hm) as E. rewrite Hn in *. simpl.
  destruct (Nat.eqb_spec (countb (hit s p) (cells_abs c)) 0); [done|].
  injection E as ->. lia.
Qed.

(** The answers of [seq_pos_min] and [seq_pos_max] come from the table [seq_pos]; they
    are the minimum and maximum over the cells themselves. *)
Theorem cells_seq_pos_min_ok c s :
  kv_wf c -> 0 <= s < Z.of_nat LLAMA_MAX_SEQ ->
  runs (cells_seq_pos_min c s) (spec_pos_min (cells_abs c) s).
Proof.
  intros Hwf Hs. unfold cells_seq_pos_min. rewrite sidx_ok by done.
  destruct (sp_ok_lookup _ _ s (wf_sp _ Hwf) Hs) as [m Hm]. simpl. rstep.
  pose proof (map_min_spec m) as Hmin.
  assert (Hk := fun p => sp_ok_is_Some c s m p Hwf (proj1 Hs) Hm).
  destruct (map_min m) as [p|].
  - destruct Hmin as [H1 H2]. apply runs_assert; [eapply sp_ok_value; [exact Hwf|apply Hs|exact Hm|exact H1]|].
    apply runs_ok. right. split; [by apply Hk|].
    intros i a Ha Hin. apply H2, Hk. eauto.
  - apply runs_ok. left. split; [done|]. intros i a Ha Hin.
    destruct (proj2 (Hk (a_pos a))) as [? H]; [eauto|]. by rewrite Hmin in H.
Qed.

Theorem cells_seq_pos_max_ok c s :
  kv_wf c -> 0 <= s < Z.of_nat LLAMA_MAX_SEQ ->
  runs (cells_seq_pos_max c s) (spec_pos_max (cells_abs c) s).
Proof.
  intros Hwf Hs. unfold cells_seq_pos_max. rewrite sidx_ok by done.
  destruct (sp_ok_lookup _ _ s (wf_sp _ Hwf) Hs) as [m Hm]. simpl. rstep.
  pose proof (map_max_spec m) as Hmax.
  assert (Hk := fun p => sp_ok_is_Some c s m p Hwf (proj1 Hs) Hm).
  destruct (map_max m) as [p|].
  - destruct Hmax as [H1 H2]. apply runs_assert; [eapply sp_ok_value; [exact Hwf|apply Hs|exact Hm|exact H1]|].
    apply runs_ok. right. split; [by apply Hk|].
    intros i a Ha Hin. apply H2, Hk. eauto.
  - apply runs_ok. left. split; [done|]. intros i a Ha Hin.
    destruct (proj2 (Hk (a_pos a))) as [? H]; [eauto|]. by rewrite Hmax in H.
Qed.
End queries.

(** ** Whole-array operations *)

Section arrays.
Implicit Types (c : llama_kv_cells) (a b : cell).

Lemma abs_replicate n hs u m :
  cells_abs (mk_cells hs u (replicate n (-1)) (replicate n ext_reset) (replicate n 0) (replicate n ∅) m) =
  replicate n cell_empty.
Proof. unfold cells_abs. simpl. induction n as [|n IH]; [done|]. simpl. by f_equal. Qed.

Lemma countb_replicate {A} (P : A -> bool) n x : P x = false -> countb P (replicate n x) = 0%nat.
Proof. intros H. apply countb_zero. intros i y [-> _]%lookup_replicate. done. Qed.

Lemma fmap_const {A B} (x : B) (l : list A) : (fun _ => x) <$> l = replicate (length l) x.
Proof. induction l as [|y l IH]; [done|]. simpl. by f_equal. Qed.

Theorem cells_reset_ok c :
  length (c_ext c) = cells_size c -> length (c_shift c) = cells_size c ->
  length (c_seq c) = cells_size c -> length (c_seq_pos c) = LLAMA_MAX_SEQ ->
  kv_wf (cells_reset c) /\ cells_abs (cells_reset c) = replicate (cells_size c) cell_empty /\
  c_has_shift (cells_reset c) = false.
Proof.
  intros H1 H2 H3 H4. unfold cells_reset. rewrite !fmap_const, H1, H2, H3.
  fold (cells_size c). rewrite abs_replicate. split; [|done].
  split; unfold cells_size; simpl; rewrite ?abs_replicate, ?length_replicate; try done.
  - intros i a [-> _]%lookup_replicate. apply cell_empty_ok.
  - intros i. split; [set_solver|]. intros (a & [-> _]%lookup_replicate & H). done.
  - split; [by rewrite length_replicate|]. intros s p sp Hs [-> _]%lookup_replicate.
    rewrite countb_replicate; [|by apply hit_no_seq]. done.
Qed.

Lemma length_vresize {A} (d : A) n l : length (vresize d n l) = n.
Proof. unfold vresize. rewrite length_app, length_take, length_replicate. lia. Qed.

Theorem cells_resize_ok n c :
  length (c_seq_pos c) = LLAMA_MAX_SEQ ->
  kv_wf (cells_resize n c) /\ cells_abs (cells_resize n c) = replicate n cell_empty /\
  c_has_shift (cells_resize n c) = false.
Proof.
  intros H. unfold cells_resize. eapply eq_rect; [apply cells_reset_ok|];
    unfold cells_size; simpl; rewrite ?length_vresize; done.
Qed.

(** [reset_shift] clears the shifts and nothing else. *)
Definition unshift (a : cell) : cell := mk_cell (a_pos a) (a_ext a) 0 (a_seq a).

Lemma abs_reset_shift c : cells_abs (cells_reset_shift c) = unshift <$> cells_abs c.
Proof.
  apply list_eq. intros i. rewrite list_lookup_fmap.
  destruct (cells_abs c !! i) as [a|] eqn:E; simpl.
  - apply abs_lookup in E as (?&?&E&?). apply abs_lookup. simpl.
    rewrite list_lookup_fmap, E. done.
  - destruct (cells_abs (cells_reset_shift c) !! i) as [b|] eqn:E'; [|done].
    apply abs_lookup in E' as (H1&H2&H3&H4). simpl in *.
    rewrite list_lookup_fmap in H3. apply fmap_Some in H3 as (h & H3 & _).
    rewrite (proj2 (abs_lookup c i (mk_cell (a_pos b) (a_ext b) h (a_seq b)))) in E; done.
Qed.

Lemma countb_fmap {A B} (P : B -> bool) (f : A -> B) l : countb P (f <$> l) = countb (P ∘ f) l.
Proof. unfold countb. induction l as [|x l IH]; [done|]. simpl. f_equal. exact IH. Qed.

Theorem cells_reset_shift_ok c :
  kv_wf c ->
  kv_wf (cells_reset_shift c) /\ cells_abs (cells_reset_shift c) = unshift <$> cells_abs c /\
  c_has_shift (cells_reset_shift c) = false.
Proof.
  intros [W1 W2 W3 W4 W5 W6]. rewrite abs_reset_shift. split; [|done].
  split; unfold cells_size in *; simpl; rewrite ?length_fmap; try done.
  - intros i a. rewrite abs_reset_shift, list_lookup_fmap.
    intros (b & Hb & ->)%fmap_Some. destruct (W4 _ _ Hb) as (C1 & C2 & C3).
    split; [done|]. simpl. split; [|done]. intros E. by destruct (C2 E).
  - intros i. rewrite W5, abs_reset_shift. split.
    + intros (a & Ha & Hp). exists (unshift a). by rewrite list_lookup_fmap, Ha.
    + intros (a & Ha & Hp). rewrite list_lookup_fmap in Ha.
      apply fmap_Some in Ha as (b & Hb & ->). by exists b.
  - eapply sp_ok_ext; [exact W6|]. intros s p _. cbv beta.
    by rewrite abs_reset_shift, countb_fmap.
Qed.
End arrays.

(** ** Saving and restoring cells *)

Section save.
Implicit Types (c r other : llama_kv_cells) (a b : cell).

Lemma with_seq_pos_id c : with_seq_pos (c_seq_pos c) c = c.
Proof. by destruct c. Qed.

(** [if (pos[idx] != -1) seq_pos_rm(idx)] on a cell of the invariant. *)
Lemma runs_maybe_rm {B} (P : B -> Prop) c c2 i a (k : llama_kv_cells -> res B) :
  kv_wf c -> cells_abs c !! i = Some a ->
  c_seq c2 = c_seq c -> c_pos c2 = c_pos c -> c_seq_pos c2 = c_seq_pos c ->
  (forall m, sp_ok m (fun s p => (countb (hit s p) (cells_abs c) - Nat.b2n (hit s p a))%nat) ->
     runs (k (with_seq_pos m c2)) P) ->
  runs ((if negb (a_pos a =? -1) then cells_seq_pos_rm c2 i else Ok c2) ≫= k) P.
Proof.
  intros Hwf Ha E1 E2 E3 Hk. open_cell Hwf Ha.
  destruct (Z.eqb_spec (a_pos a) (-1)) as [E|E]; simpl.
  - rewrite <- (with_seq_pos_id c2). apply Hk. rewrite E3.
    eapply sp_ok_ext; [apply (wf_sp _ Hwf)|]. intros s p _. cbv beta.
    rewrite hit_no_seq; [simpl; lia|].
    match goal with H : cell_ok a |- _ => by apply H end.
  - eapply runs_seq_pos_rm; [by rewrite E1|by rewrite E2|rewrite E3; apply (wf_sp _ Hwf)|
      intros s Hs; by eapply rm_counts|].
    intros m Hm. apply Hk. eapply sp_ok_ext; [exact Hm|]. intros s p _. apply bump_all_pred.
Qed.

Lemma runs_maybe_add {B} (P : B -> Prop) c2 i b f (k : llama_kv_cells -> res B) :
  cell_ok b -> c_seq c2 !! i = Some (a_seq b) -> c_pos c2 !! i = Some (a_pos b) ->
  sp_ok (c_seq_pos c2) f ->
  (forall m, sp_ok m (fun s p => (f s p + Nat.b2n (hit s p b))%nat) ->
     runs (k (with_seq_pos m c2)) P) ->
  runs ((if negb (a_pos b =? -1) then cells_seq_pos_add c2 i else Ok c2) ≫= k) P.
Proof.
  intros Hb E1 E2 E3 Hk. destruct (Z.eqb_spec (a_pos b) (-1)) as [E|E]; simpl.
  - rewrite <- (with_seq_pos_id c2). apply Hk.
    eapply sp_ok_ext; [exact E3|]. intros s p _. cbv beta.
    rewrite hit_no_seq; [simpl; lia|]. by apply Hb.
  - eapply runs_seq_pos_add; [exact E1|exact E2|exact E3|].
    intros m Hm. apply Hk. eapply sp_ok_ext; [exact Hm|]. intros s p _. apply bump_all_succ.
Qed.

Theorem cells_set_cell_ok c other i j a b :
  kv_wf c -> cells_abs c !! i = Some a -> a_shift a = 0 ->
  cells_abs other !! j = Some b -> cell_ok (unshift b) ->
  runs (cells_set_cell other c j i) (fun c' =>
    updated c i (unshift b) c' /\ c_has_shift c' = c_has_shift c).
Proof.
  intros Hwf Ha Hsh Hb Hok. open_cell Hwf Ha.
  pose proof (abs_pos _ _ _ Hb). pose proof (abs_ext _ _ _ Hb). pose proof (abs_seq _ _ _ Hb).
  unfold cells_set_cell. csteps.
  set (c1 := if (a_pos a =? -1) && negb (a_pos b =? -1) then used_insert i c else c).
  set (c2 := if negb (a_pos a =? -1) && (a_pos b =? -1) then used_erase i c1 else c1).
  assert (E : c_seq c2 = c_seq c /\ c_pos c2 = c_pos c /\ c_ext c2 = c_ext c /\
              c_shift c2 = c_shift c /\ c_seq_pos c2 = c_seq_pos c /\ c_has_shift c2 = c_has_shift c).
  { subst c2 c1. by repeat case_match. }
  destruct E as (E1 & E2 & E3 & E4 & E5 & E6).
  assert (Hu : forall j, j ∈ c_used c2 <-> if decide (j = i) then a_pos b <> -1 else j ∈ c_used c).
  { intros j'. pose proof (used_unchanged c i j' a (a_pos a) Hwf Ha ltac:(done)) as Hu.
    subst c2 c1. destruct (Z.eqb_spec (a_pos a) (-1)), (Z.eqb_spec (a_pos b) (-1)); simpl;
      case_decide; set_solver. }
  eapply (runs_maybe_rm _ c); [exact Hwf|exact Ha|done..|]. intros m Hm.
  apply runs_put_pos; [simpl; rewrite E2; done|]. csteps.
  apply runs_put_ext; [simpl; rewrite E3; lia|]. csteps.
  apply runs_put_seq; [simpl; rewrite E1; lia|].
  eapply (runs_maybe_add _ _ i (unshift b)); [exact Hok|simpl; rewrite list_lookup_insert_eq; [done|rewrite E1; lia]|
    simpl; rewrite list_lookup_insert_eq; [done|by rewrite E2]|exact Hm|].
  intros m2 Hm2. eapply runs_rd; [simpl; rewrite E4; eassumption|].
  apply runs_assert; [lia|]. apply runs_ok. split; [|done].
  eapply (wf_update c _ i a (unshift b)); simpl; rewrite ?E1, ?E2, ?E3, ?E4; try done.
  by rewrite <- Hsh, list_insert_id.
Qed.

(** The copy made by [cp(idxs)] holds, at [j], the cell [idxs[j]] without its shift (the
    function asserts that there is none). *)
Definition copy_of c (idxs : list nat) r : Prop :=
  length (cells_abs r) = length idxs /\ cells_size r = length idxs /\
  forall j idx, idxs !! j = Some idx ->
    exists a, cells_abs c !! idx = Some a /\ cells_abs r !! j = Some (unshift a).

Theorem cells_cp_idxs_ok c idxs :
  (forall idx, idx ∈ idxs -> exists a, cells_abs c !! idx = Some a /\ a_shift a = 0) ->
  runs (cells_cp_idxs c idxs) (copy_of c idxs).
Proof.
  intros Hi. unfold cells_cp_idxs.
  destruct (cells_resize_ok (length idxs) llama_kv_cells_new) as (W & Habs & _); [done|].
  set (r0 := cells_resize (length idxs) llama_kv_cells_new) in *.
  eapply runs_mono.
  { apply (runs_for (fun n r => length (cells_abs r) = length idxs /\
      (forall j, (j < length idxs)%nat -> c_shift r !! j = Some 0) /\
      cells_size r = length idxs /\
      forall j idx, (j < n)%nat -> idxs !! j = Some idx ->
        exists a, cells_abs c !! idx = Some a /\ cells_abs r !! j = Some (unshift a))).
    - rewrite Habs, length_replicate. split; [done|]. split; [|split; [|lia]].
      + intros j Hj. apply (abs_shift _ _ cell_empty). rewrite Habs. by apply lookup_replicate.
      + rewrite <- (length_abs r0 W), Habs. apply length_replicate.
    - intros j r Hj (Hlen & Hsh & Hsz & Hr).
      destruct (lookup_lt_is_Some_2 idxs j Hj) as [idx Hidx].
      destruct (Hi idx) as (a & Ha & Hz); [by eapply list_elem_of_lookup_2|].
      destruct (lookup_lt_is_Some_2 (cells_abs r) j) as [b Hb]; [lia|].
      eapply runs_rd; [exact Hidx|]. unfold cells_cp_cell.
      apply abs_lookup in Ha as Ha'. destruct Ha' as (P1 & P2 & P3 & P4).
      pose proof (proj1 (abs_lookup r j b) Hb) as (L1 & L2 & L3 & L4).
      apply lookup_lt_Some in L1, L2, L4.
      eapply runs_rd; [exact P1|]. apply runs_put_pos; [done|].
      eapply runs_rd; [exact P2|]. apply runs_put_ext; [done|].
      eapply runs_rd; [exact P4|]. apply runs_put_seq; [done|].
      eapply runs_rd; [exact P3|]. apply runs_assert; [lia|]. apply runs_ok.
      set (r' := with_seq _ _).
      assert (E : cells_abs r' = <[j := unshift a]> (cells_abs r)).
      { rewrite <- abs_insert. unfold cells_abs. simpl. by rewrite (list_insert_id (c_shift r)) by auto. }
      rewrite E, length_insert. split; [done|]. split; [done|]. split.
      { unfold cells_size in *. simpl. by rewrite length_insert. }
      intros j' idx' Hj' Hidx'. destruct (decide (j' = j)) as [->|Hne].
      + exists a. rewrite list_lookup_insert_eq by lia. split; [|done]. congruence.
      + rewrite list_lookup_insert_ne by done. apply Hr; [lia|done]. }
  intros r (H1 & _ & H2 & H3). split; [done|]. split; [done|].
  intros j idx Hidx. apply H3; [by eapply lookup_lt_Some|done].
Qed.

(** [set(idxs, other)] writes the cells of [other] back at [idxs]. *)
Theorem cells_set_idxs_ok c idxs r :
  kv_wf c -> NoDup idxs -> cells_size r = length idxs ->
  (forall idx, idx ∈ idxs -> exists a, cells_abs c !! idx = Some a /\ a_shift a = 0) ->
  (forall j, (j < length idxs)%nat -> exists b, cells_abs r !! j = Some b /\ cell_ok (unshift b)) ->
  runs (cells_set_idxs c idxs r) (fun c' =>
    kv_wf c' /\ c_has_shift c' = c_has_shift c /\ cells_size c' = cells_size c /\
    (forall j idx b, idxs !! j = Some idx -> cells_abs r !! j = Some b ->
       cells_abs c' !! idx = Some (unshift b)) /\
    (forall i, i ∉ idxs -> cells_abs c' !! i = cells_abs c !! i)).
Proof.
  intros Hwf Hnd Hsz Hi Hr. unfold cells_set_idxs.
  apply runs_assert; [apply Nat.eqb_eq; lia|]. rewrite Hsz. eapply runs_mono.
  { apply (runs_for (fun n c' => kv_wf c' /\ c_has_shift c' = c_has_shift c /\
      cells_size c' = cells_size c /\
      (forall j idx b, (j < n)%nat -> idxs !! j = Some idx -> cells_abs r !! j = Some b ->
         cells_abs c' !! idx = Some (unshift b)) /\
      (forall i, i ∉ take n idxs -> cells_abs c' !! i = cells_abs c !! i))).
    - do 3 (split; [done|]). split; [intros; lia|done].
    - intros j c1 Hj (W & Hs & Hz & H1 & H2).
      destruct (lookup_lt_is_Some_2 idxs j Hj) as [idx Hidx].
      destruct (Hi idx) as (a & Ha & Hsh); [by eapply list_elem_of_lookup_2|].
      destruct (Hr j Hj) as (b & Hb & Hok).
      assert (Hout : idx ∉ take j idxs).
      { intros (j' & Hj')%list_elem_of_lookup. apply lookup_take_Some in Hj' as [Hj' ?].
        pose proof (NoDup_lookup _ _ _ _ Hnd Hj' Hidx). lia. }
      eapply runs_rd; [exact Hidx|].
      eapply runs_mono; [apply (cells_set_cell_ok c1 r idx j a b); try done; by rewrite H2|].
      intros c2 ([W2 E2] & Hs2).
      split; [done|]. split; [congruence|]. split.
      { rewrite <- Hz, <- (length_abs c1 W), <- (length_abs c2 W2), E2. apply length_insert. }
      split.
      + intros j' idx' b' Hj' Hidx' Hb'. rewrite E2.
        destruct (decide (j' = j)) as [->|Hne].
        * simplify_eq. rewrite list_lookup_insert_eq; [done|].
          rewrite length_abs, Hz, <- (length_abs c Hwf) by done. by eapply lookup_lt_Some.
        * rewrite list_lookup_insert_ne; [apply (H1 j' idx' b'); [lia|done..]|].
          intros <-. by pose proof (NoDup_lookup _ _ _ _ Hnd Hidx Hidx').
      + intros i Hni. rewrite E2. replace (j + 1)%nat with (S j) in Hni by lia.
        rewrite (take_S_r _ _ _ Hidx) in Hni.
        rewrite list_lookup_insert_ne by set_solver. apply H2. set_solver. }
  intros c' (W & Hs & Hz & H1 & H2). do 3 (split; [done|]). split.
  - intros j idx b Hidx Hb. apply (H1 j); [by eapply lookup_lt_Some|done..].
  - intros i Hni. apply H2. by rewrite take_ge.
Qed.
End save.

(** ** Cells are determined by their abstract view *)

Lemma kv_cells_canonical c c' :
  kv_wf c -> kv_wf c' -> cells_abs c = cells_abs c' -> c_has_shift c = c_has_shift c' -> c = c'.
Proof.
  intros W W' E H. pose proof (length_abs c W) as L. pose proof (length_abs c' W') as L'.
  assert (Hp : forall i, cells_abs c !! i = cells_abs c' !! i) by by rewrite E.
  assert (Hget : forall A (f : cell -> A) (l l' : list A), length l = cells_size c -> length l' = cells_size c' ->
    (forall i a, cells_abs c !! i = Some a -> l !! i = Some (f a)) ->
    (forall i a, cells_abs c' !! i = Some a -> l' !! i = Some (f a)) -> l = l').
  { intros A f l l' Hl Hl' H1 H2. apply list_eq. intros i. destruct (cells_abs c !! i) as [a|] eqn:Ea.
    - rewrite (H1 i a Ea). symmetry. apply H2. by rewrite <- Hp.
    - apply lookup_ge_None_1 in Ea as Hge. rewrite L in Hge.
      rewrite (lookup_ge_None_2 l i) by lia. symmetry. apply lookup_ge_None_2.
      rewrite Hl', <- L', <- E, L. lia. }
  assert (E1 : c_pos c = c_pos c') by (apply (Hget _ a_pos); [done|done|apply abs_pos..]).
  assert (E2 : c_ext c = c_ext c') by (apply (Hget _ a_ext); [apply W|apply W'|apply abs_ext..]).
  assert (E3 : c_shift c = c_shift c') by (apply (Hget _ a_shift); [apply W|apply W'|apply abs_shift..]).
  assert (E4 : c_seq c = c_seq c') by (apply (Hget _ a_seq); [apply W|apply W'|apply abs_seq..]).
  assert (E5 : c_used c = c_used c') by (apply set_eq; intros i; by rewrite (wf_used _ W), (wf_used _ W'), E).
  assert (E6 : c_seq_pos c = c_seq_pos c').
  { destruct (wf_sp _ W) as [S1 S2], (wf_sp _ W') as [S1' S2']. apply list_eq. intros k.
    destruct (c_seq_pos c !! k) as [m|] eqn:Em.
    - destruct (lookup_lt_is_Some_2 (c_seq_pos c') k) as [m' Em'].
      { rewrite S1', <- S1. by eapply lookup_lt_Some. }
      rewrite Em'. f_equal. apply map_eq. intros p.
      rewrite (S2 (Z.of_nat k) p m), (S2' (Z.of_nat k) p m'), E by (rewrite ?Nat2Z.id; done || lia). done.
    - symmetry. apply lookup_ge_None_2. apply lookup_ge_None_1 in Em. lia. }
  destruct c, c'. simpl in *. congruence.
Qed.
