(* ===== verification/KvCellsMachine.v ===== *)
(** The cells as an abstract data type: a machine whose state is an array of cells and a
    flag, with one executable step per public operation of [llama_kv_cells], and the
    theorem that the class of llama-kv-cells.h implements it.  Further theorems: the
    assertions that fire outside the preconditions, the save and restore of cells, and the
    sign of the shift that [pos_div] accumulates. *)
From S2P Require Import Prelude KvCells.
Local Open Scope Z_scope.

(** ** The machine *)
Inductive cell_op :=
  | OpReset | OpResetShift
  | OpRm (i : nat) | OpSeqRm (i : nat) (s : Z) | OpSeqKeep (i : nat) (s : Z) | OpSeqAdd (i : nat) (s : Z)
  | OpPosSet (i : nat) (p : Z) | OpExtSet (i : nat) (e : llama_kv_cell_ext)
  | OpPosAdd (i : nat) (d : Z) | OpPosDiv (i : nat) (d : Z)
  | AskEmpty (i : nat) | AskUsed | AskUsedMaxP1 | AskHasShift
  | AskSeqCount (i : nat) | AskSeqHas (i : nat) (s : Z) | AskPos (i : nat) | AskShift (i : nat)
  | AskPosIn (i : nat) (p0 p1 : Z) | AskPosMin (s : Z) | AskPosMax (s : Z).

(** The answer of an operation: a number, a flag, or nothing. *)
Inductive cell_answer := NoAnswer | Flag (b : bool) | Num (z : Z).

#[export] Instance cell_answer_eq_dec : EqDecision cell_answer.
Proof. solve_decision. Defined.

(** The operation on the object. *)
Definition run_cell_op (c : llama_kv_cells) (op : cell_op) : res (llama_kv_cells * cell_answer) :=
  let quiet m := c' ← m; Ok (c', NoAnswer) in
  let flagged (m : res (llama_kv_cells * bool)) := r ← m; Ok (r.1, Flag r.2) in
  match op with
  | OpReset => Ok (cells_reset c, NoAnswer)
  | OpResetShift => Ok (cells_reset_shift c, NoAnswer)
  | OpRm i => quiet (cells_rm c i)
  | OpSeqRm i s => flagged (cells_seq_rm c i s)
  | OpSeqKeep i s => flagged (cells_seq_keep c i s)
  | OpSeqAdd i s => quiet (cells_seq_add c i s)
  | OpPosSet i p => quiet (cells_pos_set c i p)
  | OpExtSet i e => quiet (cells_ext_set c i e)
  | OpPosAdd i d => flagged (cells_pos_add c i d)
  | OpPosDiv i d => quiet (cells_pos_div c i d)
  | AskEmpty i => b ← cells_is_empty c i; Ok (c, Flag b)
  | AskUsed => Ok (c, Num (Z.of_nat (cells_get_used c)))
  | AskUsedMaxP1 => Ok (c, Num (Z.of_nat (cells_used_max_p1 c)))
  | AskHasShift => Ok (c, Flag (cells_get_has_shift c))
  | AskSeqCount i => n ← cells_seq_count c i; Ok (c, Num (Z.of_nat n))
  | AskSeqHas i s => b ← cells_seq_has c i s; Ok (c, Flag b)
  | AskPos i => p ← cells_pos_get c i; Ok (c, Num p)
  | AskShift i => p ← cells_get_shift c i; Ok (c, Num p)
  | AskPosIn i p0 p1 => b ← cells_pos_in c i p0 p1; Ok (c, Flag b)
  | AskPosMin s => p ← cells_seq_pos_min c s; Ok (c, Num p)
  | AskPosMax s => p ← cells_seq_pos_max c s; Ok (c, Num p)
  end.

Definition run_cell_ops (c : llama_kv_cells) (ops : list cell_op) : res (llama_kv_cells * list cell_answer) :=
  foldM (fun st op => r ← run_cell_op st.1 op; Ok (r.1, st.2 ++ [r.2])) (c, []) ops.

(** The state of the machine: the cells and the shift flag. *)
Definition cells_state : Type := list cell * bool.

Definition occupied (a : cell) : bool := negb (a_pos a =? -1).
Definition valid_seq (s : Z) : Prop := 0 <= s < Z.of_nat LLAMA_MAX_SEQ.
#[export] Instance valid_seq_dec s : Decision (valid_seq s).
Proof. unfold valid_seq. apply _. Defined.

(** The number of occupied cells, one more than the last of them, and the range of the
    positions of a sequence. *)
Definition n_occupied (l : list cell) : nat := countb occupied l.
Fixpoint last_occupied (l : list cell) : nat :=
  match l with
  | [] => 0
  | a :: l => match last_occupied l with O => if occupied a then 1 else 0 | n => S n end
  end%nat.
Definition positions (l : list cell) (s : Z) : list Z := a_pos <$> filter (fun a => s ∈ a_seq a) l.
Definition least (l : list Z) : Z := match l with [] => -1 | x :: l => foldr Z.min x l end.
Definition greatest (l : list Z) : Z := match l with [] => -1 | x :: l => foldr Z.max x l end.

(** One step; [None] where the documented precondition of the operation does not hold. *)
Definition spec_cell_op (st : cells_state) (op : cell_op) : option (cells_state * cell_answer) :=
  let '(l, b) := st in
  let at_ (i : nat) (P : cell -> Prop) `{!forall a, Decision (P a)} (k : cell -> cells_state * cell_answer) :=
    a ← l !! i; if decide (P a) then Some (k a) else None in
  let put i a := (<[i := a]> l, b) in
  match op with
  | OpReset => Some ((replicate (length l) cell_empty, false), NoAnswer)
  | OpResetShift => Some ((unshift <$> l, false), NoAnswer)
  | OpRm i => at_ i (fun a => a_pos a <> -1) (fun _ => (put i cell_empty, NoAnswer))
  | OpSeqRm i s => at_ i (fun a => s ∈ a_seq a) (fun a => (put i (spec_seq_rm a s).1, Flag (spec_seq_rm a s).2))
  | OpSeqKeep i s => at_ i (fun a => valid_seq s /\ (a_seq a = ∅ -> a_pos a = -1))
      (fun a => (put i (spec_seq_keep a s).1, Flag (spec_seq_keep a s).2))
  | OpSeqAdd i s => at_ i (fun a => a_pos a <> -1 /\ valid_seq s /\ s ∉ a_seq a)
      (fun a => (put i (mk_cell (a_pos a) (a_ext a) (a_shift a) ({[s]} ∪ a_seq a)), NoAnswer))
  | OpPosSet i p => at_ i (fun a => a_pos a = -1 /\ 0 <= p <= INT32_MAX)
      (fun a => (put i (mk_cell p (a_ext a) (a_shift a) ∅), NoAnswer))
  | OpExtSet i e => at_ i (fun a => True) (fun a => (put i (mk_cell (a_pos a) e (a_shift a) (a_seq a)), NoAnswer))
  | OpPosAdd i d => at_ i (fun a => a_pos a <> -1 /\ INT32_MIN <= a_pos a + d <= INT32_MAX /\
                                    INT32_MIN <= a_shift a + d <= INT32_MAX)
      (fun a => ((<[i := (spec_pos_add a d).1]> l, true), Flag (spec_pos_add a d).2))
  | OpPosDiv i d => at_ i (fun a => a_pos a <> -1 /\ 0 < d /\ INT32_MIN <= a_shift a /\
                                    a_shift a + (a_pos a - Z.quot (a_pos a) d) <= INT32_MAX)
      (fun a => ((<[i := spec_pos_div a d]> l, true), NoAnswer))
  | AskEmpty i => at_ i (fun _ => True) (fun a => (st, Flag (negb (occupied a))))
  | AskUsed => Some (st, Num (Z.of_nat (n_occupied l)))
  | AskUsedMaxP1 => Some (st, Num (Z.of_nat (last_occupied l)))
  | AskHasShift => Some (st, Flag b)
  | AskSeqCount i => at_ i (fun a => a_pos a <> -1) (fun a => (st, Num (Z.of_nat (size (a_seq a)))))
  | AskSeqHas i s => at_ i (fun _ => valid_seq s) (fun a => (st, Flag (bool_decide (s ∈ a_seq a))))
  | AskPos i => at_ i (fun a => a_pos a <> -1) (fun a => (st, Num (a_pos a)))
  | AskShift i => at_ i (fun a => a_pos a <> -1) (fun a => (st, Num (a_shift a)))
  | AskPosIn i p0 p1 => at_ i (fun _ => True) (fun a => (st, Flag (bool_decide (p0 <= a_pos a < p1))))
  | AskPosMin s => if decide (valid_seq s) then Some (st, Num (least (positions l s))) else None
  | AskPosMax s => if decide (valid_seq s) then Some (st, Num (greatest (positions l s))) else None
  end.

Fixpoint spec_cell_ops (st : cells_state) (ops : list cell_op) : option (cells_state * list cell_answer) :=
  match ops with
  | [] => Some (st, [])
  | op :: ops =>
      r ← spec_cell_op st op;
      rs ← spec_cell_ops r.1 ops;
      Some (rs.1, r.2 :: rs.2)
  end.

(** The object [c] implements the state [st]. *)
Definition implements (c : llama_kv_cells) (st : cells_state) : Prop :=
  kv_wf c /\ cells_abs c = st.1 /\ c_has_shift c = st.2.

(** ** The used cells *)
Fixpoint occupied_from (k : nat) (l : list cell) : list nat :=
  match l with
  | [] => []
  | a :: l => (if occupied a then [k] else []) ++ occupied_from (S k) l
  end.

Lemma elem_of_occupied_from k l i :
  i ∈ occupied_from k l <-> exists j a, i = (k + j)%nat /\ l !! j = Some a /\ occupied a = true.
Proof.
  revert k. induction l as [|x l IH]; intros k; simpl.
  { split; [set_solver|]. by intros (j & a & _ & H & _). }
  rewrite elem_of_app, IH. split.
  - intros [H|(j & a & -> & Ha & Ho)].
    + destruct (occupied x) eqn:E; [|set_solver]. apply list_elem_of_singleton in H as ->.
      exists 0%nat, x. split; [lia|done].
    + exists (S j), a. split; [lia|done].
  - intros ([|j] & a & -> & Ha & Ho); simpl in Ha; simplify_eq.
    + left. rewrite Ho. rewrite Nat.add_0_r. set_solver.
    + right. exists j, a. split; [lia|done].
Qed.

Lemma NoDup_occupied_from k l : NoDup (occupied_from k l).
Proof.
  revert k. induction l as [|x l IH]; intros k; simpl; [constructor|].
  destruct (occupied x); simpl; [|apply IH]. constructor; [|apply IH].
  rewrite elem_of_occupied_from. intros (j & a & E & _). lia.
Qed.

Lemma length_occupied_from k l : length (occupied_from k l) = n_occupied l.
Proof.
  unfold n_occupied, countb. revert k. induction l as [|x l IH]; intros k; [done|].
  cbn [occupied_from sum_list_with]. rewrite length_app, IH. by destruct (occupied x).
Qed.

Lemma used_elements c i : kv_wf c -> i ∈ c_used c <-> i ∈ occupied_from 0 (cells_abs c).
Proof.
  intros W. rewrite (wf_used _ W), elem_of_occupied_from. split.
  - intros (a & Ha & Hp). exists i, a. split; [lia|]. split; [done|].
    unfold occupied. by apply negb_true_iff, Z.eqb_neq.
  - intros (j & a & -> & Ha & Ho). exists a. split; [done|].
    unfold occupied in Ho. by apply negb_true_iff, Z.eqb_neq in Ho.
Qed.

Lemma used_occupied c : kv_wf c -> cells_get_used c = n_occupied (cells_abs c).
Proof.
  intros W. rewrite <- (length_occupied_from 0). unfold cells_get_used.
  rewrite <- (size_list_to_set (C := gset nat)) by apply NoDup_occupied_from.
  f_equal. apply set_eq. intros i. by rewrite elem_of_list_to_set, used_elements.
Qed.

Lemma foldr_max_least x l b :
  foldr Nat.max x l = b <-> b ∈ x :: l /\ forall y, y ∈ x :: l -> (y <= b)%nat.
Proof.
  assert (H : foldr Nat.max x l ∈ x :: l /\ forall y, y ∈ x :: l -> (y <= foldr Nat.max x l)%nat).
  { induction l as [|z l [H1 H2]]; simpl; [set_solver|]. split.
    - destruct (Nat.max_spec z (foldr Nat.max x l)) as [[_ ->]|[_ ->]]; set_solver.
    - intros y Hy. assert (y = z \/ y ∈ x :: l) as [->|Hy'] by set_solver; [lia|].
      specialize (H2 y Hy'). lia. }
  destruct H as [H1 H2]. split; [by intros <-|]. intros [H3 H4].
  specialize (H2 b H3). specialize (H4 _ H1). lia.
Qed.

Lemma last_occupied_spec l :
  match last_occupied l with
  | O => forall i a, l !! i = Some a -> occupied a = false
  | S n => (exists a, l !! n = Some a /\ occupied a = true) /\
           forall i a, l !! i = Some a -> occupied a = true -> (i <= n)%nat
  end.
Proof.
  induction l as [|x l IH]; simpl; [by intros []|].
  destruct (last_occupied l) as [|n].
  - destruct (occupied x) eqn:E.
    + split; [by exists x|]. intros [|i] a Ha Ho; [lia|]. simpl in Ha. by rewrite (IH i a) in Ho.
    + intros [|i] a Ha; simpl in Ha; [congruence|by apply (IH i)].
  - destruct IH as [H1 H2]. split; [done|]. intros [|i] a Ha Ho; [lia|].
    simpl in Ha. specialize (H2 i a Ha Ho). lia.
Qed.

Lemma used_max_occupied c : kv_wf c -> cells_used_max_p1 c = last_occupied (cells_abs c).
Proof.
  intros W. unfold cells_used_max_p1, set_max. pose proof (last_occupied_spec (cells_abs c)) as H.
  assert (Hel : forall i, i ∈ elements (c_used c) <->
    exists a, cells_abs c !! i = Some a /\ occupied a = true).
  { intros i. rewrite elem_of_elements, used_elements, elem_of_occupied_from by done.
    split; [intros (j & a & -> & ?); by exists a|intros (a & ?); by exists i, a]. }
  destruct (elements (c_used c)) as [|x l].
  - destruct (last_occupied (cells_abs c)) as [|n]; [done|].
    destruct H as [Ha _]. apply Hel in Ha. set_solver.
  - destruct (last_occupied (cells_abs c)) as [|n].
    + destruct (proj1 (Hel x)) as (a & Ha & Ho); [set_solver|]. by rewrite (H x a) in Ho.
    + destruct H as [Ha Hmax]. rewrite (proj2 (foldr_max_least x l n)); [lia|].
      split; [by apply Hel|]. intros y (a & Hy & Ho)%Hel. by eapply Hmax.
Qed.

(** ** The range of positions *)
Lemma elem_of_positions l s p :
  p ∈ positions l s <-> exists i a, l !! i = Some a /\ s ∈ a_seq a /\ a_pos a = p.
Proof.
  unfold positions. rewrite list_elem_of_fmap. split.
  - intros (a & -> & (Hs & Ha)%list_elem_of_filter).
    apply list_elem_of_lookup in Ha as (i & Ha). by exists i, a.
  - intros (i & a & Ha & Hs & <-). exists a. split; [done|].
    apply list_elem_of_filter. split; [done|]. by eapply list_elem_of_lookup_2.
Qed.

Lemma least_spec l s m : spec_pos_min l s m -> (forall p, p ∈ positions l s -> p <> -1) -> m = least (positions l s).
Proof.
  intros [[-> H]|[Hex Hmin]] Hp; unfold least.
  - destruct (positions l s) as [|x q] eqn:E; [done|].
    destruct (proj1 (elem_of_positions l s x)) as (i & a & Ha & Hs & _); [rewrite E; set_solver|].
    by apply (H i a) in Hs.
  - apply elem_of_positions in Hex. destruct (positions l s) as [|x q] eqn:E; [set_solver|].
    destruct (foldr_min_spec x q) as [H1 H2]. apply Z.le_antisymm; [|by apply H2].
    destruct (proj1 (elem_of_positions l s (foldr Z.min x q))) as (i & a & Ha & Hs & <-); [by rewrite E|].
    by eapply Hmin.
Qed.

Lemma greatest_spec l s m : spec_pos_max l s m -> m = greatest (positions l s).
Proof.
  intros [[-> H]|[Hex Hmin]]; unfold greatest.
  - destruct (positions l s) as [|x q] eqn:E; [done|].
    destruct (proj1 (elem_of_positions l s x)) as (i & a & Ha & Hs & _); [rewrite E; set_solver|].
    by apply (H i a) in Hs.
  - apply elem_of_positions in Hex. destruct (positions l s) as [|x q] eqn:E; [set_solver|].
    destruct (foldr_max_spec x q) as [H1 H2]. apply Z.le_antisymm; [by apply H2|].
    destruct (proj1 (elem_of_positions l s (foldr Z.max x q))) as (i & a & Ha & Hs & <-); [by rewrite E|].
    by eapply Hmin.
Qed.

(** ** The object implements the machine *)
Section implements.
Context (c : llama_kv_cells) (st : cells_state) (W : implements c st).

Lemma implements_updated i b hs c' :
  updated c i b c' -> c_has_shift c' = hs -> implements c' (<[i := b]> st.1, hs).
Proof. destruct W as (_ & E & _). intros [W' E'] <-. split; [done|]. split; [by rewrite E', E|done]. Qed.

(** An operation that changes one cell, without and with an answer. *)
Lemma quiet_ok (m : res llama_kv_cells) i b hs :
  runs m (fun c' => updated c i b c' /\ c_has_shift c' = hs) ->
  runs (c' ← m; Ok (c', NoAnswer)) (fun r => implements r.1 (<[i := b]> st.1, hs) /\ r.2 = NoAnswer).
Proof.
  intros H. apply runs_bind. eapply runs_mono; [exact H|]. intros c' [U S].
  split; [by apply implements_updated|done].
Qed.

Lemma flagged_ok (m : res (llama_kv_cells * bool)) i b hs f :
  runs m (fun r => r.2 = f /\ updated c i b r.1 /\ c_has_shift r.1 = hs) ->
  runs (r ← m; Ok (r.1, Flag r.2)) (fun r => implements r.1 (<[i := b]> st.1, hs) /\ r.2 = Flag f).
Proof.
  intros H. apply runs_bind. eapply runs_mono; [exact H|]. intros c' (<- & U & S).
  split; [by apply implements_updated|done].
Qed.

(** A question leaves the object as it is. *)
Lemma ask_ok {A} (m : res A) (f : A -> cell_answer) (x : cell_answer) :
  runs m (fun a => f a = x) ->
  runs (a ← m; Ok (c, f a)) (fun r => implements r.1 st /\ r.2 = x).
Proof. intros H. apply runs_bind. eapply runs_mono; [exact H|]. intros a <-. done. Qed.
End implements.

Lemma runs_eq {A} (m : res A) a : m = Ok a -> runs m (fun x => x = a).
Proof. by intros ->. Qed.

(** Opens a step of the machine at a cell and its precondition. *)
Ltac open_step H :=
  simpl in H;
  repeat match type of H with
  | ((?l !! ?i) ≫= _) = Some _ =>
      let Ha := fresh "Ha" in destruct (l !! i) as [a|] eqn:Ha; simpl in H; [|discriminate H]
  | (if decide ?P then _ else _) = Some _ =>
      let Hp := fresh "Hp" in destruct (decide P) as [Hp|]; [|discriminate H]
  end;
  injection H as H1 H2; subst.

Lemma run_cell_op_ok c st op st' x :
  implements c st -> spec_cell_op st op = Some (st', x) ->
  runs (run_cell_op c op) (fun r => implements r.1 st' /\ r.2 = x).
Proof.
  intros W. pose proof W as (Wf & Ec & Es). destruct st as [l b]. simpl in Ec, Es. subst l b.
  destruct op; intros H; cbn [run_cell_op]; cbn [spec_cell_op] in H; open_step H.
  - destruct (cells_reset_ok c (wf_ext _ Wf) (wf_shift _ Wf) (wf_seq _ Wf) (proj1 (wf_sp _ Wf))) as (H1 & H2 & H3).
    split; [|done]. split; [done|]. simpl. split; [|done]. by rewrite H2, length_abs.
  - destruct (cells_reset_shift_ok c Wf) as (H1 & H2 & H3). done.
  - apply (quiet_ok _ _ W). by apply cells_rm_ok with a.
  - apply (flagged_ok _ _ W). by apply cells_seq_rm_ok.
  - destruct Hp. apply (flagged_ok _ _ W). by apply cells_seq_keep_ok.
  - destruct Hp as (? & ? & ?). apply (quiet_ok _ _ W). by apply cells_seq_add_ok.
  - destruct Hp. apply (quiet_ok _ _ W). by apply cells_pos_set_ok.
  - apply (quiet_ok _ _ W). by apply cells_ext_set_ok.
  - destruct Hp as (? & ? & ?). apply (flagged_ok _ _ W). by apply cells_pos_add_ok.
  - destruct Hp as (? & ? & ? & ?). apply (quiet_ok _ _ W). by apply cells_pos_div_ok.
  - apply (ask_ok _ _ W). rewrite (cells_is_empty_ok c i a) by done. simpl. unfold occupied. by rewrite negb_involutive.
  - by rewrite (used_occupied c Wf).
  - by rewrite (used_max_occupied c Wf).
  - done.
  - apply (ask_ok _ _ W). by rewrite (cells_seq_count_ok c i a).
  - apply (ask_ok _ _ W). by rewrite (cells_seq_has_ok c i a).
  - apply (ask_ok _ _ W). by rewrite (cells_pos_get_ok c i a).
  - apply (ask_ok _ _ W). by rewrite (cells_get_shift_ok c i a).
  - apply (ask_ok _ _ W). rewrite (cells_pos_in_ok c i a) by done. simpl. f_equal.
    apply eq_true_iff_eq. rewrite bool_decide_eq_true. lia.
  - apply (ask_ok _ _ W). eapply runs_mono; [by apply cells_seq_pos_min_ok|]. simpl. intros m Hm.
    f_equal. apply least_spec; [done|]. intros p (i & a & Ha & Hs & <-)%elem_of_positions.
    destruct (cell_seq_pos a s (wf_cell _ Wf _ _ Ha) Hs). lia.
  - apply (ask_ok _ _ W). eapply runs_mono; [by apply cells_seq_pos_max_ok|]. simpl. intros m Hm.
    f_equal. by apply greatest_spec.
Qed.

Lemma run_cell_ops_ok ops : forall c st st' xs out,
  implements c st -> spec_cell_ops st ops = Some (st', xs) ->
  runs (foldM (fun s op => r ← run_cell_op s.1 op; Ok (r.1, s.2 ++ [r.2])) (c, out) ops)
    (fun r => implements r.1 st' /\ r.2 = out ++ xs).
Proof.
  induction ops as [|op ops IH]; intros c st st' xs out W H; simpl in H.
  { simplify_eq. simpl. by rewrite app_nil_r. }
  destruct (spec_cell_op st op) as [[st1 x]|] eqn:E; simpl in H; [|done].
  destruct (spec_cell_ops st1 ops) as [[st2 xs2]|] eqn:E2; simpl in H; [|done]. simplify_eq.
  cbn [foldM]. do 2 apply runs_bind. eapply runs_mono; [by eapply run_cell_op_ok|].
  intros [c1 x1] [W1 Hx]. simpl in *. subst x1.
  eapply runs_mono; [by eapply IH|]. intros r [W2 ->]. split; [done|]. by rewrite <- app_assoc.
Qed.

(** An object in a state that the machine reaches. *)
Lemma machine_state n ops st xs :
  spec_cell_ops (replicate n cell_empty, false) ops = Some (st, xs) ->
  exists c, run_cell_ops (cells_resize n llama_kv_cells_new) ops = Ok (c, xs) /\ implements c st.
Proof.
  intros H. destruct (cells_resize_ok n llama_kv_cells_new) as (W & E & S); [done|].
  destruct (runs_inv _ _ (run_cell_ops_ok ops _ (replicate n cell_empty, false) st xs [] (conj W (conj E S)) H))
    as ([c ys] & R & I & Y). simpl in I, Y. subst ys. by exists c.
Qed.

(** ** Preconditions *)
Lemma assert_false {A} (b : bool) (k : res A) : b = false -> (assert_ b ;; k) = Fault AssertFailed.
Proof. by intros ->. Qed.

Lemma rd_bind {A B} (l : list A) i x (k : A -> res B) : l !! i = Some x -> rd l i ≫= k = k x.
Proof. intros H. by rewrite (rd_ok _ _ _ H). Qed.

(** The operations that need an occupied cell, the one that needs a free one, and the
    index check that all of them start with. *)
Definition needs_occupied (i : nat) (op : cell_op) : Prop :=
  op = OpRm i \/ (exists s, op = OpSeqAdd i s) \/ (exists d, op = OpPosAdd i d) \/
  (exists d, op = OpPosDiv i d) \/ op = AskSeqCount i \/ op = AskPos i \/ op = AskShift i.
Definition touches (i : nat) (op : cell_op) : Prop :=
  needs_occupied i op \/ (exists s, op = OpSeqRm i s) \/ (exists s, op = OpSeqKeep i s) \/
  (exists p, op = OpPosSet i p) \/ (exists e, op = OpExtSet i e) \/ op = AskEmpty i \/
  (exists s, op = AskSeqHas i s) \/ (exists p0 p1, op = AskPosIn i p0 p1).

(** Evaluates an operation up to its first failing assertion. *)
Ltac fires := repeat first
  [ reflexivity
  | rewrite assert_false by (first [done | apply Nat.ltb_ge; lia])
  | erewrite rd_bind by eassumption
  | progress simpl ].

Lemma needs_occupied_ok c i a op :
  kv_wf c -> cells_abs c !! i = Some a -> a_pos a = -1 -> needs_occupied i op ->
  run_cell_op c op = Fault AssertFailed.
Proof.
  intros W Ha Hp H. pose proof (abs_pos _ _ _ Ha) as Pa. rewrite Hp in Pa.
  pose proof (abs_lt _ _ _ Ha) as Hi. apply Nat.ltb_lt in Hi.
  destruct H as [->|[[s ->]|[[d ->]|[[d ->]|[->|[->| ->]]]]]]; cbn [run_cell_op];
    unfold cells_rm, cells_seq_add, cells_pos_add, cells_pos_div, cells_seq_count, cells_pos_get, cells_get_shift;
    rewrite Hi; fires.
Qed.

Lemma touches_bound c i op :
  kv_wf c -> (cells_size c <= i)%nat -> touches i op -> run_cell_op c op = Fault AssertFailed.
Proof.
  intros W Hi H. pose proof (wf_ext _ W).
  destruct H as [[->|[[s ->]|[[d ->]|[[d ->]|[->|[->| ->]]]]]]|[[s ->]|[[s ->]|[[p ->]|[[e ->]|[->|[[s ->]|(p0 & p1 & ->)]]]]]]];
    cbn [run_cell_op];
    unfold cells_rm, cells_seq_add, cells_pos_add, cells_pos_div, cells_seq_count, cells_pos_get, cells_get_shift,
      cells_seq_rm, cells_seq_keep, cells_pos_set, cells_ext_set, cells_is_empty, cells_seq_has, cells_pos_in;
    fires.
Qed.

(** ** Properties *)

(** C1: every sequence of operations on a resized [llama_kv_cells] that respects the
    documented preconditions runs without a failed assertion, an exception or an access
    out of bounds, gives the answers that the array-of-cells machine gives, and ends in a
    state whose derived tables ([used], [seq_pos]) agree with the cells. *)
Theorem cells_implement_machine n ops st xs :
  spec_cell_ops (replicate n cell_empty, false) ops = Some (st, xs) ->
  runs (run_cell_ops (cells_resize n llama_kv_cells_new) ops) (fun r => implements r.1 st /\ r.2 = xs).
Proof.
  intros H. destruct (cells_resize_ok n llama_kv_cells_new) as (W & E & S); [done|].
  eapply runs_mono; [apply (run_cell_ops_ok ops _ (replicate n cell_empty, false) st xs [])|]; [by split|done|].
  by intros r [? ->].
Qed.

Lemma cells_implement_machine_witness :
  let ops := [OpPosSet 1 7; OpSeqAdd 1 3; OpSeqAdd 1 4; OpPosSet 0 9; OpSeqAdd 0 3; AskPosMin 3; AskPosMax 3;
              AskUsed; OpPosAdd 1 (-2); AskPos 1; AskShift 1; OpSeqRm 1 3; AskPosMin 3; OpPosAdd 1 (-9); AskUsedMaxP1] in
  exists st, spec_cell_ops (replicate 2 cell_empty, false) ops =
    Some (st, [NoAnswer; NoAnswer; NoAnswer; NoAnswer; NoAnswer; Num 7; Num 9; Num 2; Flag false; Num 5;
               Num (-2); Flag false; Num 9; Flag true; Num 1]) /\
  runs (run_cell_ops (cells_resize 2 llama_kv_cells_new) ops) (fun r => implements r.1 st).
Proof.
  intros ops. eexists. assert (H : spec_cell_ops (replicate 2 cell_empty, false) ops = Some (_, _)) by
    (vm_compute; reflexivity).
  split; [exact H|]. eapply runs_mono; [exact (cells_implement_machine 2 ops _ _ H)|]. by intros r [? _].
Defined.

(** C37: the assertions of [llama_kv_cells] fire outside the preconditions: at an index
    beyond the size for every operation on a cell, on an empty cell for [rm], [seq_add],
    [pos_add], [pos_div] and the getters, and on an occupied cell for [pos_set]. *)
Theorem cells_assertions c :
  kv_wf c ->
  (forall i op, (cells_size c <= i)%nat -> touches i op -> run_cell_op c op = Fault AssertFailed) /\
  (forall i a op, cells_abs c !! i = Some a -> a_pos a = -1 -> needs_occupied i op ->
     run_cell_op c op = Fault AssertFailed) /\
  (forall i a p, cells_abs c !! i = Some a -> a_pos a <> -1 -> run_cell_op c (OpPosSet i p) = Fault AssertFailed) /\
  (forall i a s, cells_abs c !! i = Some a -> valid_seq s -> s ∉ a_seq a ->
     run_cell_op c (OpSeqRm i s) = Fault AssertFailed).
Proof.
  intros W. split; [intros; by eapply touches_bound|]. split; [intros; by eapply needs_occupied_ok|].
  assert (Hl : forall i a, cells_abs c !! i = Some a -> (i <? cells_size c)%nat = true).
  { intros i a Ha. by apply Nat.ltb_lt, (abs_lt _ _ a). }
  split; intros i a x Ha H; pose proof (abs_pos _ _ _ Ha) as Pa; pose proof (abs_seq _ _ _ Ha) as Sa;
    cbn [run_cell_op]; [unfold cells_pos_set|intros Hn; unfold cells_seq_rm]; rewrite (Hl i a Ha).
  - fires. rewrite assert_false; [done|]. by apply Z.eqb_neq.
  - fires. rewrite (seq_test_ok _ _ H), (bool_decide_false (x ∈ a_seq a)) by done. reflexivity.
Qed.

Lemma cells_assertions_witness :
  kv_wf (cells_resize 2 llama_kv_cells_new) /\
  run_cell_op (cells_resize 2 llama_kv_cells_new) (OpPosAdd 0 1) = Fault AssertFailed.
Proof.
  destruct (cells_resize_ok 2 llama_kv_cells_new) as (W & E & _); [reflexivity|]. split; [exact W|].
  destruct (cells_assertions _ W) as (_ & H & _).
  apply (H 0%nat cell_empty); [rewrite E; reflexivity|reflexivity|right; right; left; eexists; reflexivity].
Defined.

(** Saving cells and writing them back restores the object exactly, whatever happened
    to those cells in between, as long as no shift was pending: this is how [prepare] of
    the cache undoes its placements. *)
Theorem cells_save_restore c c' idxs :
  kv_wf c -> kv_wf c' -> c_has_shift c' = c_has_shift c -> NoDup idxs ->
  (forall i, i ∈ idxs -> exists a a', cells_abs c !! i = Some a /\ cells_abs c' !! i = Some a' /\
     a_shift a = 0 /\ a_shift a' = 0) ->
  (forall i, i ∉ idxs -> cells_abs c' !! i = cells_abs c !! i) ->
  runs (r ← cells_cp_idxs c idxs; cells_set_idxs c' idxs r) (fun c2 => c2 = c).
Proof.
  intros W W' Hs Hnd Hin Hout. apply runs_bind. eapply runs_mono.
  { apply cells_cp_idxs_ok. intros i Hi. destruct (Hin i Hi) as (a & a' & Ha & _ & Z & _). by exists a. }
  intros r (L1 & L2 & Hr). eapply runs_mono; [apply cells_set_idxs_ok; try done|].
  - intros i Hi. destruct (Hin i Hi) as (a & a' & _ & Ha' & _ & Z). by exists a'.
  - intros j Hj. destruct (lookup_lt_is_Some_2 idxs j Hj) as [i Hi].
    destruct (Hr j i Hi) as (a & Ha & Hb). exists (unshift a). split; [done|].
    destruct (wf_cell _ W i a Ha) as (C1 & C2 & C3). split; [done|]. split; [|done].
    simpl. intros E. by destruct (C2 E).
  - intros c2 (W2 & S2 & _ & H1 & H2). apply kv_cells_canonical; [done|done| |congruence].
    apply list_eq. intros i. destruct (decide (i ∈ idxs)) as [Hi|Hi]; [|by rewrite H2, Hout].
    destruct (Hin i Hi) as (a & a' & Ha & _ & Z & _). apply list_elem_of_lookup in Hi as [j Hj].
    destruct (Hr j i Hj) as (b & Hb & Hrb). rewrite (H1 j i _ Hj Hrb), Ha. simplify_eq.
    destruct a. simpl in *. by subst.
Qed.

Lemma cells_save_restore_witness :
  exists c c', run_cell_ops (cells_resize 2 llama_kv_cells_new) [OpPosSet 1 7; OpSeqAdd 1 3] = Ok (c, [NoAnswer; NoAnswer]) /\
    run_cell_ops c [OpRm 1; OpPosSet 1 8; OpSeqAdd 1 4] = Ok (c', [NoAnswer; NoAnswer; NoAnswer]) /\
    runs (r ← cells_cp_idxs c [1%nat]; cells_set_idxs c' [1%nat] r) (fun c2 => c2 = c).
Proof.
  destruct (cells_resize_ok 2 llama_kv_cells_new) as (W0 & E0 & S0); [reflexivity|].
  pose (st0 := (replicate 2 cell_empty, false) : cells_state).
  assert (I0 : implements (cells_resize 2 llama_kv_cells_new) st0) by (split; [exact W0|split; [exact E0|exact S0]]).
  destruct (runs_inv _ _ (run_cell_ops_ok [OpPosSet 1 7; OpSeqAdd 1 3] _ st0 _ _ [] I0
    ltac:(vm_compute; reflexivity))) as ([c x] & R1 & I1 & X1).
  destruct (runs_inv _ _ (run_cell_ops_ok [OpRm 1; OpPosSet 1 8; OpSeqAdd 1 4] _ _ _ _ [] I1
    ltac:(vm_compute; reflexivity))) as ([c' x'] & R2 & I2 & X2).
  simpl in *. subst x x'. exists c, c'. split; [exact R1|]. split; [exact R2|].
  destruct I1 as (W1 & E1 & S1), I2 as (W2 & E2 & S2). simpl in *.
  apply (cells_save_restore c c' [1%nat]); [done|done|congruence|apply NoDup_singleton| |].
  - intros i ->%list_elem_of_singleton. rewrite E1, E2. do 2 eexists. split; [reflexivity|]. split; [reflexivity|]. done.
  - intros i Hi. rewrite E1, E2. destruct i as [|[|i]]; [done| |done]. set_solver.
Defined.

(** [pos_add] and [pos_div] account for the shift of a cell with opposite signs: the
    position minus the accumulated shift, the position that the cached keys were rotated
    for, is kept by [pos_add] but is off by twice the change of position after [pos_div]. *)
Theorem pos_div_shift_sign c i a d :
  kv_wf c -> cells_abs c !! i = Some a -> a_pos a <> -1 -> 1 < d ->
  0 <= a_pos a - a_shift a <= INT32_MAX -> INT32_MIN <= a_shift a ->
  a_shift a + (a_pos a - Z.quot (a_pos a) d) <= INT32_MAX ->
  (forall e, 0 <= a_pos a + e <= INT32_MAX -> INT32_MIN <= a_shift a + e <= INT32_MAX ->
   runs (cells_pos_add c i e) (fun r => exists b, cells_abs r.1 !! i = Some b /\
     a_pos b = a_pos a + e /\ a_pos b - a_shift b = a_pos a - a_shift a)) /\
  runs (cells_pos_div c i d) (fun c' => exists b, cells_abs c' !! i = Some b /\
    a_pos b = Z.quot (a_pos a) d /\
    a_pos b - a_shift b = a_pos a - a_shift a - 2 * (a_pos a - a_pos b)).
Proof.
  intros W Ha Hp Hd Hr Hs Hx. pose proof (abs_lt _ _ _ Ha) as Hi. rewrite <- (length_abs c W) in Hi.
  split.
  - intros e He Hse. eapply runs_mono; [apply (cells_pos_add_ok c i a e); try done; unfold INT32_MIN; lia|].
    intros r (_ & [_ U] & _). rewrite U. eexists. rewrite list_lookup_insert_eq by done. split; [done|].
    unfold spec_pos_add. rewrite decide_False by lia. simpl. lia.
  - eapply runs_mono; [apply (cells_pos_div_ok c i a d); try done; lia|].
    intros c' ([_ U] & _). rewrite U. eexists. rewrite list_lookup_insert_eq by done. split; [done|].
    unfold spec_pos_div. simpl. lia.
Qed.

Lemma pos_div_shift_sign_witness :
  exists c, run_cell_ops (cells_resize 1 llama_kv_cells_new) [OpPosSet 0 8; OpSeqAdd 0 0] = Ok (c, [NoAnswer; NoAnswer]) /\
    runs (cells_pos_div c 0 2) (fun c' => exists b, cells_abs c' !! 0%nat = Some b /\ a_pos b = 4 /\ a_pos b - a_shift b = 0).
Proof.
  destruct (cells_resize_ok 1 llama_kv_cells_new) as (W0 & E0 & S0); [reflexivity|].
  destruct (runs_inv _ _ (run_cell_ops_ok [OpPosSet 0 8; OpSeqAdd 0 0] _ (replicate 1 cell_empty, false) _ _ []
    (conj W0 (conj E0 S0)) ltac:(vm_compute; reflexivity))) as ([c x] & R1 & (W1 & E1 & S1) & X1).
  simpl in *. subst x. exists c. split; [exact R1|].
  destruct (pos_div_shift_sign c 0 (mk_cell 8 ext_reset 0 {[0]}) 2 W1) as [_ H];
    [rewrite E1; reflexivity|done|done|unfold INT32_MAX; simpl; lia|unfold INT32_MIN; simpl; lia|
     unfold INT32_MAX; vm_compute; discriminate|].
  eapply runs_mono; [exact H|]. intros c' (b & Hb & P1 & P2). exists b. split; [exact Hb|].
  simpl in P1, P2. change (8 ÷ 2) with 4 in P1. lia.
Defined.
