(* ===== verification/Memory.v ===== *)
(** The memory interface, src/llama/llama.cpp/src/llama-memory.h and llama-memory.cpp:
    the status of a memory context, how two statuses combine (the hybrid memories keep two
    contexts), and the part of [llama_memory_i] that the batch allocator relies on, as a
    class with its laws. *)

From S2P Require Import Prelude.
Local Open Scope Z_scope.

(** ** Status *)

Inductive llama_memory_status :=
  | LLAMA_MEMORY_STATUS_SUCCESS
  | LLAMA_MEMORY_STATUS_NO_UPDATE
  | LLAMA_MEMORY_STATUS_FAILED_PREPARE
  | LLAMA_MEMORY_STATUS_FAILED_COMPUTE.

#[export] Instance llama_memory_status_eq_dec : EqDecision llama_memory_status.
Proof. solve_decision. Defined.

Definition llama_memory_status_combine (s0 s1 : llama_memory_status) : llama_memory_status :=
  (* the first switch either returns or leaves has_update *)
  let second (has_update : bool) :=
    match s1 with
    | LLAMA_MEMORY_STATUS_SUCCESS => LLAMA_MEMORY_STATUS_SUCCESS
    | LLAMA_MEMORY_STATUS_NO_UPDATE =>
        if has_update then LLAMA_MEMORY_STATUS_SUCCESS else LLAMA_MEMORY_STATUS_NO_UPDATE
    | LLAMA_MEMORY_STATUS_FAILED_PREPARE | LLAMA_MEMORY_STATUS_FAILED_COMPUTE => s1
    end in
  match s0 with
  | LLAMA_MEMORY_STATUS_SUCCESS => second true
  | LLAMA_MEMORY_STATUS_NO_UPDATE => second false
  | LLAMA_MEMORY_STATUS_FAILED_PREPARE | LLAMA_MEMORY_STATUS_FAILED_COMPUTE => s0
  end.

Definition llama_memory_status_is_fail (status : llama_memory_status) : bool :=
  match status with
  | LLAMA_MEMORY_STATUS_SUCCESS | LLAMA_MEMORY_STATUS_NO_UPDATE => false
  | LLAMA_MEMORY_STATUS_FAILED_PREPARE | LLAMA_MEMORY_STATUS_FAILED_COMPUTE => true
  end.

(** ** The interface of a memory *)

(** The getters of [llama_memory_i] that [llama_batch_allocr::init] calls. *)
Class LlamaMemory (M : Type) := {
  mem_seq_pos_min : M -> Z -> res Z;
  mem_seq_pos_max : M -> Z -> res Z
}.

(** What an implementation promises for a state that satisfies its invariant: for the
    sequence ids it supports, both getters answer, -1 means that the sequence is absent,
    and otherwise the answers are positions in order. *)
Class LlamaMemoryLaws (M : Type) `{LlamaMemory M} (inv : M -> Prop) (n_ids : M -> Z) := {
  mem_range : forall m s, inv m -> 0 <= s < n_ids m ->
    exists lo hi, mem_seq_pos_min m s = Ok lo /\ mem_seq_pos_max m s = Ok hi /\
      (lo = -1 <-> hi = -1) /\ -1 <= lo <= hi /\ hi <= INT32_MAX
}.

(** ** Theorems on the status *)

(** The statuses form a monoid under [combine], with [NO_UPDATE] as its unit: contexts can
    be nested in any way. *)
Lemma status_combine_unit_l s : llama_memory_status_combine LLAMA_MEMORY_STATUS_NO_UPDATE s = s.
Proof. by destruct s. Qed.
Lemma status_combine_unit_r s : llama_memory_status_combine s LLAMA_MEMORY_STATUS_NO_UPDATE = s.
Proof. by destruct s. Qed.
Lemma status_combine_assoc s0 s1 s2 :
  llama_memory_status_combine s0 (llama_memory_status_combine s1 s2) =
  llama_memory_status_combine (llama_memory_status_combine s0 s1) s2.
Proof. by destruct s0, s1, s2. Qed.

(** A combination fails exactly when one of its parts fails. *)
Lemma status_combine_fail s0 s1 :
  llama_memory_status_is_fail (llama_memory_status_combine s0 s1) =
  llama_memory_status_is_fail s0 || llama_memory_status_is_fail s1.
Proof. by destruct s0, s1. Qed.

(** Memory statuses form a monoid under [llama_memory_status_combine] with
    [NO_UPDATE] as unit, and a combination fails exactly when one of its parts fails: the
    contexts of a hybrid memory can be nested in any way without losing a failure. *)
Theorem status_monoid s0 s1 s2 :
  llama_memory_status_combine LLAMA_MEMORY_STATUS_NO_UPDATE s0 = s0 /\
  llama_memory_status_combine s0 LLAMA_MEMORY_STATUS_NO_UPDATE = s0 /\
  llama_memory_status_combine s0 (llama_memory_status_combine s1 s2) =
    llama_memory_status_combine (llama_memory_status_combine s0 s1) s2 /\
  llama_memory_status_is_fail (llama_memory_status_combine s0 s1) =
    llama_memory_status_is_fail s0 || llama_memory_status_is_fail s1.
Proof.
  repeat split; auto using status_combine_unit_l, status_combine_unit_r, status_combine_assoc, status_combine_fail.
Qed.
