(* ===== verification/Batch.v ===== *)
(** The batch allocator, [llama_batch_allocr] of src/llama/llama.cpp/src/llama-batch.cpp:
    it checks and completes an input batch ([init]) and cuts it into micro-batches
    ([split_simple], [split_equal], [split_seq]).  A pointer of [llama_batch] that may be
    null is an [option]; the float inputs are only moved, so a float is its bit pattern, a
    [Z].  The vectors that back the generated fields of a batch are the fields themselves. *)

From S2P Require Import Prelude Memory KvCells.
Local Open Scope Z_scope.

(** ** Data *)

Record llama_batch := mk_batch {
  b_n_tokens : Z;
  b_token    : option (list Z);
  b_embd     : option (list Z);
  b_pos      : option (list Z);
  b_n_seq_id : option (list Z);
  b_seq_id   : option (list (list Z));
  b_logits   : option (list Z)
}.

Record llama_ubatch := mk_ubatch {
  b_equal_seqs  : bool;
  ub_n_tokens     : nat;
  ub_n_seq_tokens : nat;
  ub_n_seqs       : nat;
  ub_n_seqs_unq   : nat;
  ub_n_pos        : nat;
  ub_token        : option (list Z);
  ub_embd         : option (list Z);
  ub_pos          : list Z;
  ub_n_seq_id     : list Z;
  ub_seq_id       : list (list Z);
  ub_seq_id_unq   : list Z;
  ub_seq_idx      : list Z;
  ub_output       : list Z
}.

(** The value-initialised [llama_ubatch {}]: no tokens. *)
Definition ubatch_empty : llama_ubatch :=
  mk_ubatch false 0 0 0 0 0 None None [] [] [] [] [] [].

Definition is_pos_2d (u : llama_ubatch) : bool := (3 <=? ub_n_pos u)%nat.
Definition equal_seqs (u : llama_ubatch) : bool := b_equal_seqs u.

Record llama_batch_allocr := mk_balloc {
  batch             : llama_batch;
  n_pos_per_embd_   : nat;
  ba_n_embd         : nat;
  n_seq_max         : nat;
  n_outputs         : nat;
  seq_id_unq        : list Z;
  seq_idx           : list Z;
  has_cpl           : bool;
  ba_seq_pos        : list (gset Z);
  seq_cpl           : list (list bool);
  seq_set           : list (gset Z);
  seq_set_map       : gmap (gset Z) (list nat);
  out_ids           : list nat;
  n_used            : nat;
  ba_used           : list bool
}.

Definition batch_empty : llama_batch := mk_batch 0 None None None None None None.

(** The constructor. *)
Definition llama_batch_allocr_new (n_pos_per_embd : nat) : llama_batch_allocr :=
  mk_balloc batch_empty n_pos_per_embd 0 0 0 [] (replicate LLAMA_MAX_SEQ (-1)) false
    (replicate LLAMA_MAX_SEQ ∅) (replicate LLAMA_MAX_SEQ (replicate LLAMA_MAX_SEQ false))
    [] ∅ [] 0 [].

(** Setters. *)
Definition with_batch b a := mk_balloc b (n_pos_per_embd_ a) (ba_n_embd a) (n_seq_max a) (n_outputs a)
  (seq_id_unq a) (seq_idx a) (has_cpl a) (ba_seq_pos a) (seq_cpl a) (seq_set a) (seq_set_map a)
  (out_ids a) (n_used a) (ba_used a).
Definition with_dims n_embd n_max n_out a := mk_balloc (batch a) (n_pos_per_embd_ a) n_embd n_max n_out
  (seq_id_unq a) (seq_idx a) (has_cpl a) (ba_seq_pos a) (seq_cpl a) (seq_set a) (seq_set_map a)
  (out_ids a) (n_used a) (ba_used a).
Definition with_unq unq idx a := mk_balloc (batch a) (n_pos_per_embd_ a) (ba_n_embd a) (n_seq_max a)
  (n_outputs a) unq idx (has_cpl a) (ba_seq_pos a) (seq_cpl a) (seq_set a) (seq_set_map a)
  (out_ids a) (n_used a) (ba_used a).
Definition with_cpl cpl_ sp sc a := mk_balloc (batch a) (n_pos_per_embd_ a) (ba_n_embd a) (n_seq_max a)
  (n_outputs a) (seq_id_unq a) (seq_idx a) cpl_ sp sc (seq_set a) (seq_set_map a)
  (out_ids a) (n_used a) (ba_used a).
Definition with_sets ss sm a := mk_balloc (batch a) (n_pos_per_embd_ a) (ba_n_embd a) (n_seq_max a)
  (n_outputs a) (seq_id_unq a) (seq_idx a) (has_cpl a) (ba_seq_pos a) (seq_cpl a) ss sm
  (out_ids a) (n_used a) (ba_used a).
Definition with_out_ids o a := mk_balloc (batch a) (n_pos_per_embd_ a) (ba_n_embd a) (n_seq_max a)
  (n_outputs a) (seq_id_unq a) (seq_idx a) (has_cpl a) (ba_seq_pos a) (seq_cpl a) (seq_set a)
  (seq_set_map a) o (n_used a) (ba_used a).
Definition with_split o n u a := mk_balloc (batch a) (n_pos_per_embd_ a) (ba_n_embd a) (n_seq_max a)
  (n_outputs a) (seq_id_unq a) (seq_idx a) (has_cpl a) (ba_seq_pos a) (seq_cpl a) (seq_set a)
  (seq_set_map a) o n u.

(** ** Small operations *)

Definition balloc_clear (a : llama_batch_allocr) : llama_batch_allocr :=
  mk_balloc batch_empty (n_pos_per_embd_ a) (ba_n_embd a) (n_seq_max a) 0 []
    (map (fun _ => -1) (seq_idx a)) (has_cpl a) (map (fun _ => ∅) (ba_seq_pos a))
    (map (map (fun _ => false)) (seq_cpl a)) [] ∅ (out_ids a) (n_used a) (ba_used a).

Definition get_n_tokens (a : llama_batch_allocr) : nat := Z.to_nat (b_n_tokens (batch a)).
Definition get_n_outputs (a : llama_batch_allocr) : nat := n_outputs a.
Definition get_n_used (a : llama_batch_allocr) : nat := n_used a.
Definition get_out_ids (a : llama_batch_allocr) : list nat := out_ids a.

Definition split_reset (a : llama_batch_allocr) : llama_batch_allocr :=
  with_split [] 0%nat (replicate (get_n_tokens a) false) a.

(** [*seq_pos[s].begin()] and [*seq_pos[s].rbegin()] of a [std::set<llama_pos>]. *)
Definition zset_min (u : gset Z) : option Z :=
  match elements u with [] => None | x :: l => Some (foldr Z.min x l) end.
Definition zset_max (u : gset Z) : option Z :=
  match elements u with [] => None | x :: l => Some (foldr Z.max x l) end.

Definition balloc_seq_pos_min (a : llama_batch_allocr) (seq_id : nat) : res Z :=
  u ← rd (ba_seq_pos a) seq_id; Ok (default (-1) (zset_min u)).
Definition balloc_seq_pos_max (a : llama_batch_allocr) (seq_id : nat) : res Z :=
  u ← rd (ba_seq_pos a) seq_id; Ok (default (-1) (zset_max u)).

(** [bitset::set(s)], which throws outside the width of the set. *)
Definition bit_set (u : gset Z) (s : Z) : res (gset Z) :=
  if (0 <=? s) && (s <? Z.of_nat LLAMA_MAX_SEQ) then Ok ({[s]} ∪ u) else Throw "bitset::set".

(** A sequence id as an index of an array of length [n]. *)
Definition zidx (s : Z) : res nat := if 0 <=? s then Ok (Z.to_nat s) else Fault OutOfRange.

(** Entries [seq_id[i][0 .. n_seq_id[i])] of a batch. *)
Definition token_seqs (b : llama_batch) (i : nat) : res (list Z) :=
  ns ← deref (b_n_seq_id b);
  n ← rd ns i;
  ss ← deref (b_seq_id b);
  l ← rd ss i;
  foldM (fun acc s => x ← rd l s; Ok (acc ++ [x])) [] (seq 0 (Z.to_nat n)).

(** [seq_id[i][0]], read whether or not [n_seq_id[i]] is positive. *)
Definition token_seq0 (b : llama_batch) (i : nat) : res Z :=
  ss ← deref (b_seq_id b);
  l ← rd ss i;
  rd l 0.

(** ** init: validation of the input *)

(** The loops that [return false] on a bad element; [n] is the bound of the loop. *)
Definition all_ok (f : nat -> res bool) (n : nat) : res bool :=
  r ← foldB (fun (_ : unit) i => ok ← f i; Ok (if (ok : bool) then inl tt else inr false)) tt (seq 0 n);
  match r with inl _ => Ok true | inr b => Ok b end.

Definition check_tokens (b : llama_batch) (n_vocab : Z) : res bool :=
  match b_token b with
  | None => Ok true
  | Some toks =>
      all_ok (fun i => t ← rd toks i; Ok (negb ((t <? 0) || (t >=? n_vocab)))) (Z.to_nat (b_n_tokens b))
  end.

Definition check_seq_ids (b : llama_batch) (n_max : nat) : res bool :=
  match b_seq_id b with
  | None => Ok true
  | Some _ =>
      all_ok (fun i =>
        l ← token_seqs b i;
        Ok (forallb (fun s => negb ((s <? 0) || (s >=? Z.of_nat n_max))) l)) (Z.to_nat (b_n_tokens b))
  end.

(** ** init: generation of the missing fields *)

Definition fill_n_seq_id (b : llama_batch) : llama_batch :=
  match b_n_seq_id b with
  | Some _ => b
  | None => mk_batch (b_n_tokens b) (b_token b) (b_embd b) (b_pos b)
              (Some (replicate (Z.to_nat (b_n_tokens b)) 1)) (b_seq_id b) (b_logits b)
  end.

Definition fill_seq_id (b : llama_batch) : llama_batch :=
  match b_seq_id b with
  | Some _ => b
  | None => mk_batch (b_n_tokens b) (b_token b) (b_embd b) (b_pos b) (b_n_seq_id b)
              (Some (replicate (Z.to_nat (b_n_tokens b)) [0])) (b_logits b)
  end.

Section with_memory.
Context {M : Type} `{LlamaMemory M}.

(** The next position of every sequence below [n_seq_max]. *)
Definition start_pos (memory : option M) (n_max : nat) : res (list Z) :=
  foldM (fun p0 s =>
    match memory with
    | None => Ok (p0 ++ [0])
    | Some mem => p ← mem_seq_pos_max mem (Z.of_nat s); p' ← i32 (p + 1); Ok (p0 ++ [p'])
    end) [] (seq 0 n_max).

(** One token: it takes the next position of its first sequence, and all its sequences
    continue after it. *)
Definition assign_pos (b : llama_batch) (st : list Z * list Z) (i : nat) : res (list Z * list Z) :=
  let '(p0, pos) := st in
  s0 ← token_seq0 b i;
  k ← zidx s0;
  p ← rd p0 k;
  l ← token_seqs b i;
  p0' ← foldM (fun p0 s => p' ← i32 (p + 1); k ← zidx s; wr p0 k p') p0 l;
  Ok (p0', pos ++ [p]).

Definition fill_pos (b : llama_batch) (memory : option M) (n_max : nat) : res llama_batch :=
  match b_pos b with
  | Some _ => Ok b
  | None =>
      p0 ← start_pos memory n_max;
      st ← foldM (assign_pos b) (p0, []) (seq 0 (Z.to_nat (b_n_tokens b)));
      Ok (mk_batch (b_n_tokens b) (b_token b) (b_embd b) (Some st.2) (b_n_seq_id b)
            (b_seq_id b) (b_logits b))
  end.

Definition fill_logits (b : llama_batch) (output_all : bool) : res llama_batch :=
  let n := Z.to_nat (b_n_tokens b) in
  let put l := mk_batch (b_n_tokens b) (b_token b) (b_embd b) (b_pos b) (b_n_seq_id b)
                 (b_seq_id b) (Some l) in
  match b_logits b with
  | None =>
      if output_all then Ok (put (replicate n 1))
      else l ← wr (replicate n 0) (n - 1) 1; Ok (put l)
  | Some ls =>
      if output_all then
        warn ← foldM (fun w i => x ← rd ls i; Ok (w || (x =? 0))) false (seq 0 n);
        if (warn : bool) then Ok (put (replicate n 1)) else Ok b
      else Ok b
  end.

(** ** init: statistics *)

Definition count_outputs (b : llama_batch) : res nat :=
  ls ← deref (b_logits b);
  foldM (fun n i => x ← rd ls i; Ok (if negb (x =? 0) then (n + 1)%nat else n)) 0%nat
    (seq 0 (Z.to_nat (b_n_tokens b))).

(** The loop that fills [seq_pos], [seq_cpl] and [has_cpl]. *)
Definition couple_token (b : llama_batch) (st : bool * list (gset Z) * list (list bool)) (i : nat)
    : res (bool * list (gset Z) * list (list bool)) :=
  s0 ← token_seq0 b i;
  l ← token_seqs b i;
  ps ← deref (b_pos b);
  foldM (fun '(hc, sp, sc) s =>
    s1 ← rd l s;
    k1 ← zidx s1;
    u ← rd sp k1;
    p ← rd ps i;
    sp' ← wr sp k1 ({[p]} ∪ u);
    if (0 <? s)%nat then
      row ← rd sc k1;
      k0 ← zidx s0;
      row' ← wr row k0 true;
      sc' ← wr sc k1 row';
      Ok (true, sp', sc')
    else Ok (hc, sp', sc)) st (seq 0 (length l)).

Definition sets_token (b : llama_batch)
    (st : list (gset Z) * gmap (gset Z) (list nat) * gset Z) (i : nat)
    : res (list (gset Z) * gmap (gset Z) (list nat) * gset Z) :=
  let '(ss, sm, unq) := st in
  l ← token_seqs b i;
  cu ← foldM (fun '(cur, unq) s => cur' ← bit_set cur s; unq' ← bit_set unq s; Ok (cur', unq')) (∅, unq) l;
  let '(cur, unq') := cu in
  Ok (ss ++ [cur], <[cur := default [] (sm !! cur) ++ [i]]> sm, unq').

(** The unique ids in increasing order, and their index: shared by [init] and [ubatch_add]. *)
Definition unique_ids (unq : gset Z) (n_max : nat) (st : list Z * list Z) : res (list Z * list Z) :=
  foldM (fun '(ids, idx) s =>
    if bool_decide (Z.of_nat s ∈ unq) then
      idx' ← wr idx s (Z.of_nat (length ids)); Ok (ids ++ [Z.of_nat s], idx')
    else Ok (ids, idx)) st (seq 0 n_max).

(** ** init: consistency checks *)

Definition mem_pos_max (memory : option M) (s : nat) : res Z :=
  match memory with None => Ok (-1) | Some mem => mem_seq_pos_max mem (Z.of_nat s) end.

(** M-RoPE: positions may jump forward only. *)
Definition check_pos_mrope (a : llama_batch_allocr) (memory : option M) (s : nat) : res bool :=
  u ← rd (ba_seq_pos a) s;
  if bool_decide (u = ∅) then Ok true
  else
    p0 ← mem_pos_max memory s;
    mn ← balloc_seq_pos_min a s;
    match b_token (batch a) with
    | Some _ => Ok (negb ((p0 >=? 0) && (p0 >=? mn)))
    | None => Ok (negb ((p0 >=? 0) && (p0 >? mn)))
    end.

(** One position per token: the batch continues the memory and has no gaps. *)
Definition check_pos_seq (a : llama_batch_allocr) (memory : option M) (s : nat) : res bool :=
  u ← rd (ba_seq_pos a) s;
  if bool_decide (u = ∅) then Ok true
  else
    p0 ← mem_pos_max memory s;
    mn ← balloc_seq_pos_min a s;
    ok ← (if p0 >=? 0 then q ← i32 (p0 + 1); Ok (mn =? q) else Ok true);
    if negb ok then Ok false
    else
      mx ← balloc_seq_pos_max a s;
      d ← i32 (mx - mn);
      d1 ← i32 (d + 1);
      Ok (negb (d1 >? Z.of_nat (size u))).

Definition check_positions (a : llama_batch_allocr) (memory : option M) (n_max : nat) : res bool :=
  if (1 <? n_pos_per_embd_ a)%nat then all_ok (check_pos_mrope a memory) n_max
  else all_ok (check_pos_seq a memory) n_max.

(** Coupled sequences must have the same range in the memory. *)
Definition check_coupled (a : llama_batch_allocr) (memory : option M) (n_max : nat) : res bool :=
  match memory with
  | None => Ok true
  | Some mem =>
      all_ok (fun s0 => all_ok (fun s1 =>
        row ← rd (seq_cpl a) s0;
        c ← rd row s1;
        if (c : bool) then
          a0 ← mem_seq_pos_min mem (Z.of_nat s0);
          a1 ← mem_seq_pos_min mem (Z.of_nat s1);
          if negb (a0 =? a1) then Ok false
          else
            b0 ← mem_seq_pos_max mem (Z.of_nat s0);
            b1 ← mem_seq_pos_max mem (Z.of_nat s1);
            Ok (b0 =? b1)
        else Ok true) n_max) n_max
  end.

(** The last loop of [init]: [cur_seq_set] is narrowed, [cur_seq_pos] is only read. *)
Definition check_subsets (a : llama_batch_allocr) (n_max : nat) : res bool :=
  let full : gset Z := list_to_set (seqZ 0 (Z.of_nat LLAMA_MAX_SEQ)) in
  let cur_seq_set := replicate n_max full ++ replicate (LLAMA_MAX_SEQ - n_max) ∅ in
  let cur_seq_pos : list Z := replicate n_max (-1) in
  ps ← deref (b_pos (batch a));
  r ← foldB (fun css i =>
        p ← rd ps i;
        l ← token_seqs (batch a) i;
        foldB (fun css s =>
          k ← zidx s;
          c ← rd css k;
          si ← rd (seq_set a) i;
          let c' := c ∩ si in
          css' ← wr css k c';
          if bool_decide (c' = ∅) then Ok (inr false)
          else
            q ← rd cur_seq_pos k;
            if p <? q then Ok (inr false) else Ok (inl css')) css l)
      cur_seq_set (seq 0 (get_n_tokens a));
  match r with inl _ => Ok true | inr b => Ok b end.

(** ** init *)

Definition balloc_init (a : llama_batch_allocr) (batch_inp : llama_batch) (n_vocab : Z)
    (memory : option M) (n_embd n_max : nat) (output_all : bool) : res (llama_batch_allocr * bool) :=
  let a1 := with_batch batch_inp (balloc_clear a) in
  assert_ (b_n_tokens batch_inp >? 0) ;;
  if (LLAMA_MAX_SEQ <? n_max)%nat then Ok (a1, false) else
  ok1 ← check_tokens batch_inp n_vocab;
  if negb ok1 then Ok (a1, false) else
  ok2 ← check_seq_ids batch_inp n_max;
  if negb ok2 then Ok (a1, false) else
  let b1 := fill_seq_id (fill_n_seq_id batch_inp) in
  b2 ← fill_pos b1 memory n_max;
  b3 ← fill_logits b2 output_all;
  n_out ← count_outputs b3;
  let a2 := with_dims n_embd n_max n_out (with_batch b3 a1) in
  cpl ← foldM (couple_token b3) (false, ba_seq_pos a2, seq_cpl a2) (seq 0 (Z.to_nat (b_n_tokens b3)));
  let '(hc, sp, sc) := cpl in
  let a3 := with_cpl hc sp sc a2 in
  sets ← foldM (sets_token b3) (seq_set a3, seq_set_map a3, ∅) (seq 0 (Z.to_nat (b_n_tokens b3)));
  let '(ss, sm, unq) := sets in
  let a4 := with_sets ss sm a3 in
  ids ← unique_ids unq n_max (seq_id_unq a4, seq_idx a4);
  let a5 := with_unq ids.1 ids.2 a4 in
  ok3 ← check_positions a5 memory n_max;
  if negb ok3 then Ok (a5, false) else
  ok4 ← check_coupled a5 memory n_max;
  if negb ok4 then Ok (a5, false) else
  ok5 ← check_subsets a5 n_max;
  if negb ok5 then Ok (a5, false) else
  Ok (split_reset a5, true).
End with_memory.

(** ** ubatch_add *)

(** [memcpy] of [n] floats from [src] at [off]. *)
Definition slice (src : list Z) (off n : nat) : res (list Z) :=
  foldM (fun acc k => x ← rd src (off + k)%nat; Ok (acc ++ [x])) [] (seq 0 n).

(** The position inputs of one token: [n_pos_per_embd] values, section [j] of which is
    broadcast from section 0 when the batch holds tokens. *)
Definition src_off (b : llama_batch) (j : nat) : nat :=
  match b_token b with Some _ => 0%nat | None => (j * Z.to_nat (b_n_tokens b))%nat end.

Record ubatch_data := mk_udata {
  d_token : list Z; d_embd : list Z; d_pos : list Z; d_n_seq_id : list Z;
  d_seq_id : list (list Z); d_output : list Z; d_unq : gset Z; d_out_ids : list nat
}.

(** One iteration of the gathering loop: token [i] of the ubatch is token [idx] of the
    batch.  [d_pos] is the array [udata->pos] of [n_tokens * n_pos_per_embd] entries. *)
Definition ubatch_add_token (a : llama_batch_allocr) (n_tokens : nat) (d : ubatch_data) (i idx : nat)
    : res ubatch_data :=
  let b := batch a in
  tok ← match b_token b with None => Ok (d_token d) | Some ts => t ← rd ts idx; wr (d_token d) i t end;
  emb ← match b_embd b with
        | None => Ok (d_embd d)
        | Some es => row ← slice es (idx * ba_n_embd a) (ba_n_embd a);
                     foldM (fun acc k => x ← rd row k; wr acc (i * ba_n_embd a + k)%nat x) (d_embd d)
                       (seq 0 (ba_n_embd a))
        end;
  ps ← deref (b_pos b);
  pos ← foldM (fun acc j => p ← rd ps (src_off b j + idx)%nat; wr acc (j * n_tokens + i)%nat p)
          (d_pos d) (seq 0 (n_pos_per_embd_ a));
  ns ← deref (b_n_seq_id b);
  n ← rd ns idx;
  nsi ← wr (d_n_seq_id d) i n;
  ls ← deref (b_logits b);
  o ← rd ls idx;
  out ← wr (d_output d) i o;
  l ← token_seqs b idx;
  unq ← foldM bit_set (d_unq d) l;
  Ok (mk_udata tok emb pos nsi (d_seq_id d ++ [l]) out unq
        (if negb (o =? 0) then d_out_ids d ++ [idx] else d_out_ids d)).

Definition ubatch_add (a : llama_batch_allocr) (idxs : list nat) (n_seqs : nat) (equal : bool)
    : res (llama_batch_allocr * llama_ubatch) :=
  let n_tokens := length idxs in
  let b := batch a in
  (if (n_seqs =? 0)%nat then Fault Overflow else assert_ (n_tokens mod n_seqs =? 0)%nat) ;;
  let d0 := mk_udata (replicate n_tokens 0)
              (replicate (match b_embd b with Some _ => n_tokens * ba_n_embd a | None => 0 end)%nat 0)
              (replicate (n_tokens * n_pos_per_embd_ a)%nat 0)
              (replicate n_tokens 0) [] (replicate n_tokens 0) ∅ (out_ids a) in
  d ← foldM (fun d i => idx ← rd idxs i; ubatch_add_token a n_tokens d i idx) d0 (seq 0 n_tokens);
  ids ← unique_ids (d_unq d) (n_seq_max a) ([], replicate LLAMA_MAX_SEQ (-1));
  Ok (with_out_ids (d_out_ids d) a,
      mk_ubatch equal n_tokens (n_tokens / n_seqs) n_seqs (length ids.1) (n_pos_per_embd_ a)
        (match b_token b with Some _ => Some (d_token d) | None => None end)
        (match b_embd b with Some _ => Some (d_embd d) | None => None end)
        (d_pos d) (d_n_seq_id d) (d_seq_id d) ids.1 ids.2 (d_output d)).

(** [used[i] = true; ++n_used;] *)
Definition use_token (a : llama_batch_allocr) (i : nat) : res llama_batch_allocr :=
  u ← wr (ba_used a) i true;
  Ok (with_split (out_ids a) (n_used a + 1)%nat u a).

(** [while (cur_idx < used.size() && used[cur_idx]) ++cur_idx;] *)
Fixpoint first_unused (u : list bool) : nat :=
  match u with
  | true :: u => S (first_unused u)
  | _ => 0%nat
  end.

(** ** split_simple *)

(** One iteration of its loop over [(state, idxs, cur_idx)]. *)
Definition simple_step (n_ubatch : nat) (st : llama_batch_allocr * list nat * nat)
    : res ((llama_batch_allocr * list nat * nat) + (llama_batch_allocr * list nat * nat)) :=
  let '(a, idxs, cur) := st in
  let idxs' := idxs ++ [cur] in
  a' ← use_token a cur;
  let cur' := S cur in
  if (length (ba_used a') <=? cur')%nat then Ok (inr (a', idxs', cur'))
  else if (n_ubatch <=? length idxs')%nat then Ok (inr (a', idxs', cur'))
  else Ok (inl (a', idxs', cur')).

Definition split_simple (a : llama_batch_allocr) (n_ubatch : nat) : res (llama_batch_allocr * llama_ubatch) :=
  let cur_idx := first_unused (ba_used a) in
  if (length (ba_used a) <=? cur_idx)%nat then Ok (a, ubatch_empty)
  else
    st ← loop (S (length (ba_used a))) (simple_step n_ubatch) (a, [], cur_idx);
    let '(a', idxs, _) := st in
    ubatch_add a' idxs (length idxs) false.

(** ** split_equal *)

(** The loop that picks the non-overlapping sequence sets. *)
Definition pick_set (a : llama_batch_allocr) (n_ubatch : nat) (sequential : bool)
    (st : list (gset Z) * Z) (i : nat) : res ((list (gset Z) * Z) + list (gset Z)) :=
  let '(cur, last) := st in
  u ← rd (ba_used a) i;
  if (u : bool) then Ok (inl (cur, last))
  else
    si ← rd (seq_set a) i;
    let add := forallb (fun c => bool_decide (c ∩ si = ∅)) cur in
    s0 ← (if sequential && add && negb (bool_decide (cur = [])) then token_seq0 (batch a) i else Ok 0);
    let add := if sequential then add && (bool_decide (cur = []) || (s0 =? last + 1)) else add in
    if add then
      last' ← token_seq0 (batch a) i;
      let cur' := cur ++ [si] in
      if (n_ubatch <? length cur')%nat then Ok (inr cur') else Ok (inl (cur', last'))
    else Ok (inl (cur, last)).

(** [while (used[seq_set_map[set][cur_idx]]) ++cur_idx;] from index [k]. *)
Fixpoint skip_used (u : list bool) (l : list nat) (k : nat) : res nat :=
  match l with
  | [] => Fault OutOfRange
  | i :: l => b ← rd u i; if (b : bool) then skip_used u l (S k) else Ok k
  end.

(** The state of the expansion loop: allocator, cursor and collected indices per set. *)
Definition equal_state : Type := llama_batch_allocr * list nat * list (list nat).

Definition set_idxs (a : llama_batch_allocr) (c : gset Z) : list nat := default [] (seq_set_map a !! c).

Definition equal_take (cur_seq_set : list (gset Z)) (st : equal_state) (s : nat) : res equal_state :=
  let '(a, cur_idx, per) := st in
  c ← rd cur_seq_set s;
  k ← rd cur_idx s;
  idx ← rd (set_idxs a c) k;
  l ← rd per s;
  per' ← wr per s (l ++ [idx]);
  a' ← use_token a idx;
  cur' ← wr cur_idx s (S k);
  Ok (a', cur', per').

Definition equal_step (n_ubatch : nat) (cur_seq_set : list (gset Z)) (st : equal_state)
    : res (equal_state + equal_state) :=
  let '(a, cur_idx, per) := st in
  let n_seqs := length cur_seq_set in
  can_expand ← all_ok (fun s =>
      c ← rd cur_seq_set s; k ← rd cur_idx s; Ok (negb (length (set_idxs a c) <=? k)%nat)) n_seqs;
  if negb can_expand then Ok (inr st)
  else
    st' ← foldM (equal_take cur_seq_set) st (seq 0 n_seqs);
    l ← rd st'.2 0;
    if (n_ubatch <? (length l + 1) * n_seqs)%nat then Ok (inr st') else Ok (inl st').

Definition split_equal (a : llama_batch_allocr) (n_ubatch : nat) (sequential : bool)
    : res (llama_batch_allocr * llama_ubatch) :=
  if sequential && has_cpl a then Ok (a, ubatch_empty)
  else
    r ← foldB (pick_set a n_ubatch sequential) ([], -1) (seq 0 (get_n_tokens a));
    let cur_seq_set := match r with inl st => st.1 | inr cur => cur end in
    let n_seqs := length cur_seq_set in
    if (n_seqs =? 0)%nat then Ok (a, ubatch_empty)
    else
      cur_idx ← foldM (fun acc s =>
          c ← rd cur_seq_set s; k ← skip_used (ba_used a) (set_idxs a c) 0; Ok (acc ++ [k]))
        [] (seq 0 n_seqs);
      st ← loop (S (get_n_tokens a)) (equal_step n_ubatch cur_seq_set)
             (a, cur_idx, replicate n_seqs []);
      let '(a', _, per) := st in
      ubatch_add a' (concat per) n_seqs true.

(** ** split_seq *)

(** The inner [do { ++cur_idx; } while (...)]: the next index after [cur] that is unused
    and whose sequence set is a subset of [cur_seq_set], or [n_tokens]. *)
Definition seq_next (a : llama_batch_allocr) (cur_seq_set : gset Z) (cur : nat) : res nat :=
  r ← foldB (fun (_ : unit) i =>
      u ← rd (ba_used a) i;
      if (u : bool) then Ok (inl tt)
      else si ← rd (seq_set a) i;
           if bool_decide (cur_seq_set ∩ si = si) then Ok (inr i) else Ok (inl tt))
    tt (seq (S cur) (get_n_tokens a - S cur));
  match r with inr i => Ok i | inl _ => Ok (Nat.max (S cur) (get_n_tokens a)) end.

Definition seq_step (n_ubatch : nat) (st : llama_batch_allocr * list nat * nat * gset Z)
    : res ((llama_batch_allocr * list nat * nat * gset Z) + (llama_batch_allocr * list nat * nat * gset Z)) :=
  let '(a, idxs, cur, css) := st in
  let idxs' := idxs ++ [cur] in
  a' ← use_token a cur;
  if (n_ubatch <=? length idxs')%nat then Ok (inr (a', idxs', cur, css))
  else
    cur' ← seq_next a' css cur;
    if (cur' =? get_n_tokens a')%nat then Ok (inr (a', idxs', cur', css))
    else si ← rd (seq_set a') cur'; Ok (inl (a', idxs', cur', si)).

Definition split_seq (a : llama_batch_allocr) (n_ubatch : nat) : res (llama_batch_allocr * llama_ubatch) :=
  let cur_idx := first_unused (ba_used a) in
  if (length (ba_used a) <=? cur_idx)%nat then Ok (a, ubatch_empty)
  else
    css ← rd (seq_set a) cur_idx;
    st ← loop (S (get_n_tokens a)) (seq_step n_ubatch) (a, [], cur_idx, css);
    let '(a', idxs, _, _) := st in
    ubatch_add a' idxs 1 true.

(** ** ubatch_reserve *)

Definition ubatch_reserve (a : llama_batch_allocr) (n_seq_tokens n_seqs : nat)
    : res (llama_batch_allocr * llama_ubatch) :=
  let n_tokens := (n_seq_tokens * n_seqs)%nat in
  let a1 := split_reset (balloc_clear a) in
  ids ← foldM (fun '(unq, idx) s =>
          idx' ← wr idx s (Z.of_nat s); Ok (unq ++ [Z.of_nat s], idx'))
        ([], replicate LLAMA_MAX_SEQ (-1)) (seq 0 n_seqs);
  Ok (a1, mk_ubatch true n_tokens n_seq_tokens n_seqs n_seqs (n_pos_per_embd_ a1)
            (Some (replicate n_tokens 0)) None (replicate n_tokens 0) (replicate n_tokens 0)
            (replicate n_tokens []) ids.1 ids.2 (replicate n_tokens 0)).

(** ** The C entry points *)

Definition llama_batch_get_one (tokens : list Z) (n_tokens : Z) : llama_batch :=
  mk_batch n_tokens (Some tokens) None None None None None.

(** [malloc] leaves the contents undefined; the model fills them with 0. *)
Definition llama_batch_init (n_tokens_alloc embd n_max : nat) : llama_batch :=
  mk_batch 0
    (if (embd =? 0)%nat then Some (replicate n_tokens_alloc 0) else None)
    (if (embd =? 0)%nat then None else Some (replicate (n_tokens_alloc * embd) 0))
    (Some (replicate n_tokens_alloc 0)) (Some (replicate n_tokens_alloc 0))
    (Some (replicate n_tokens_alloc (replicate n_max 0))) (Some (replicate n_tokens_alloc 0)).

(** ** Well-formed allocators

    The state after a successful [init]: every field of the batch is present and long
    enough, and the sequence ids are below [n_seq_max]. *)

Definition pos_len (a : llama_batch_allocr) : nat :=
  match b_token (batch a) with
  | Some _ => get_n_tokens a
  | None => (n_pos_per_embd_ a * get_n_tokens a)%nat
  end.

Record balloc_wf (a : llama_batch_allocr) (ps ns : list Z) (ss : list (list Z)) (ls : list Z) : Prop := {
  bw_n : 0 <= b_n_tokens (batch a);
  bw_tok : forall ts, b_token (batch a) = Some ts -> (get_n_tokens a <= length ts)%nat;
  bw_embd : forall es, b_embd (batch a) = Some es -> (get_n_tokens a * ba_n_embd a <= length es)%nat;
  bw_pos : b_pos (batch a) = Some ps /\ (pos_len a <= length ps)%nat;
  bw_nseq : b_n_seq_id (batch a) = Some ns /\ (get_n_tokens a <= length ns)%nat;
  bw_seq : b_seq_id (batch a) = Some ss /\ (get_n_tokens a <= length ss)%nat;
  bw_log : b_logits (batch a) = Some ls /\ (get_n_tokens a <= length ls)%nat;
  bw_max : (n_seq_max a <= LLAMA_MAX_SEQ)%nat;
  bw_ids : forall i n l, (i < get_n_tokens a)%nat -> ns !! i = Some n -> ss !! i = Some l ->
    (Z.to_nat n <= length l)%nat /\
    forall s, s ∈ take (Z.to_nat n) l -> 0 <= s < Z.of_nat (n_seq_max a);
  bw_used : length (ba_used a) = get_n_tokens a
}.

(** The sequences of token [i]. *)
Definition seqs_of (ns : list Z) (ss : list (list Z)) (i : nat) : list Z :=
  match ns !! i, ss !! i with Some n, Some l => take (Z.to_nat n) l | _, _ => [] end.

Lemma token_seqs_ok a ps ns ss ls i :
  balloc_wf a ps ns ss ls -> (i < get_n_tokens a)%nat ->
  token_seqs (batch a) i = Ok (seqs_of ns ss i).
Proof.
  intros W Hi. destruct (bw_nseq _ _ _ _ _ W) as [E1 L1], (bw_seq _ _ _ _ _ W) as [E2 L2].
  destruct (lookup_lt_is_Some_2 ns i) as [n Hn]; [lia|].
  destruct (lookup_lt_is_Some_2 ss i) as [l Hl]; [lia|].
  destruct (bw_ids _ _ _ _ _ W i n l) as [H _]; [done..|].
  unfold token_seqs, seqs_of. rewrite E1, E2, bind_deref, (rd_ok _ _ _ Hn), bind_ok,
    bind_deref, (rd_ok _ _ _ Hl), bind_ok, Hn, Hl.
  etransitivity; [apply (collect_ok l 0 (Z.to_nat n)); lia|by rewrite drop_0].
Qed.

Lemma seqs_of_range a ps ns ss ls i s :
  balloc_wf a ps ns ss ls -> (i < get_n_tokens a)%nat -> s ∈ seqs_of ns ss i ->
  0 <= s < Z.of_nat (n_seq_max a).
Proof.
  intros W Hi. unfold seqs_of.
  destruct (ns !! i) as [n|] eqn:E1, (ss !! i) as [l|] eqn:E2; try set_solver.
  by apply (bw_ids _ _ _ _ _ W i n l).
Qed.

(** ** The unique ids *)

(** The increasing list of the members of [unq] below [n]. *)
Definition ids_below (unq : gset Z) (n : nat) : list Z :=
  filter (fun s => s ∈ unq) (Z.of_nat <$> seq 0 n).

Lemma ids_below_S unq n :
  ids_below unq (S n) = ids_below unq n ++ (if bool_decide (Z.of_nat n ∈ unq) then [Z.of_nat n] else []).
Proof.
  unfold ids_below. rewrite seq_S, fmap_app, list.filter_app. f_equal.
  change (Z.of_nat <$> [(0 + n)%nat]) with [Z.of_nat n]. rewrite list.filter_cons, list.filter_nil.
  by case_decide; [rewrite bool_decide_true|rewrite bool_decide_false].
Qed.

Lemma elem_of_ids_below unq n s : s ∈ ids_below unq n <-> s ∈ unq /\ 0 <= s < Z.of_nat n.
Proof.
  unfold ids_below. rewrite list_elem_of_filter, list_elem_of_fmap. split.
  - intros [H (k & -> & Hk%elem_of_seq)]. split; [done|lia].
  - intros [H Hs]. split; [done|]. exists (Z.to_nat s). rewrite elem_of_seq. lia.
Qed.

Lemma NoDup_ids_below unq n : NoDup (ids_below unq n).
Proof. apply list.NoDup_filter, NoDup_fmap; [intros ???; lia|apply NoDup_seq]. Qed.

(** [idx] is the inverse of the list [ids]: [idx[ids[k]] = k], and -1 elsewhere. *)
Definition idx_of (ids idx : list Z) : Prop :=
  length idx = LLAMA_MAX_SEQ /\
  forall k s, idx !! s = Some k ->
    (k = -1 /\ Z.of_nat s ∉ ids) \/ (0 <= k /\ ids !! Z.to_nat k = Some (Z.of_nat s)).

Lemma unique_ids_ok unq n idx0 :
  (n <= LLAMA_MAX_SEQ)%nat -> length idx0 = LLAMA_MAX_SEQ -> (forall s k, idx0 !! s = Some k -> k = -1) ->
  runs (unique_ids unq n ([], idx0)) (fun r => r.1 = ids_below unq n /\ idx_of r.1 r.2).
Proof.
  intros Hn Hl H0. unfold unique_ids.
  apply (runs_for (fun i r => r.1 = ids_below unq i /\ idx_of r.1 r.2 )).
  { split; [done|]. split; [done|]. intros k s Hs. left. split; [by eapply H0|set_solver]. }
  intros i [ids idx] Hi [E [Hlen Hinv]]. simpl in E, Hlen, Hinv. rewrite Nat.add_1_r, ids_below_S.
  case_bool_decide as Hin.
  - unfold wr. rewrite decide_True by (rewrite Hlen; lia). rewrite bind_ok. apply runs_ok.
    cbn [fst snd]. subst ids. split; [done|]. split; [by rewrite length_insert|].
    intros k s Hs. destruct (decide (s = i)) as [->|Hne].
    + rewrite list_lookup_insert_eq in Hs by lia. injection Hs as <-. right. split; [lia|].
      rewrite Nat2Z.id. apply list_lookup_middle. done.
    + rewrite list_lookup_insert_ne in Hs by done. destruct (Hinv k s Hs) as [[-> Hni]|[Hk Hlk]].
      * left. split; [done|]. rewrite elem_of_app, list_elem_of_singleton. intros [?|?]; [done|lia].
      * right. split; [done|]. apply lookup_app_l_Some. done.
  - apply runs_ok. cbn [fst snd]. subst ids. rewrite app_nil_r. done.
Qed.

(** ** Gathering a micro-batch *)

Definition is_output (ls : list Z) (idx : nat) : bool :=
  match ls !! idx with Some o => negb (o =? 0) | None => false end.

(** The arrays [d] hold the tokens [idxs[0 .. i)] of the batch. *)
Record gathered (a : llama_batch_allocr) (ps ns : list Z) (ss : list (list Z)) (ls : list Z)
    (idxs : list nat) (n i : nat) (d : ubatch_data) : Prop := {
  ga_tok : length (d_token d) = n /\ forall ts j idx, b_token (batch a) = Some ts ->
    (j < i)%nat -> idxs !! j = Some idx -> d_token d !! j = ts !! idx;
  ga_embd : length (d_embd d) = (match b_embd (batch a) with Some _ => n * ba_n_embd a | None => 0 end)%nat /\
    forall es j idx k, b_embd (batch a) = Some es -> (j < i)%nat -> idxs !! j = Some idx ->
      (k < ba_n_embd a)%nat -> d_embd d !! (j * ba_n_embd a + k)%nat = es !! (idx * ba_n_embd a + k)%nat;
  ga_pos : length (d_pos d) = (n * n_pos_per_embd_ a)%nat /\
    forall j idx k, (j < i)%nat -> idxs !! j = Some idx -> (k < n_pos_per_embd_ a)%nat ->
      d_pos d !! (k * n + j)%nat = ps !! (src_off (batch a) k + idx)%nat;
  ga_nseq : length (d_n_seq_id d) = n /\ forall j idx, (j < i)%nat -> idxs !! j = Some idx ->
    d_n_seq_id d !! j = ns !! idx;
  ga_seq : d_seq_id d = seqs_of ns ss <$> take i idxs;
  ga_out : length (d_output d) = n /\ forall j idx, (j < i)%nat -> idxs !! j = Some idx ->
    d_output d !! j = ls !! idx;
  ga_unq : forall s, s ∈ d_unq d <-> exists idx, idx ∈ take i idxs /\ s ∈ seqs_of ns ss idx;
  ga_ids : d_out_ids d = out_ids a ++ filter (fun idx => is_output ls idx = true) (take i idxs)
}.

Lemma bit_set_ok u s : 0 <= s < Z.of_nat LLAMA_MAX_SEQ -> bit_set u s = Ok ({[s]} ∪ u).
Proof.
  intros [H1 H2]. unfold bit_set. by rewrite (proj2 (Z.leb_le _ _) H1), (proj2 (Z.ltb_lt _ _) H2).
Qed.

Lemma bit_set_all l u :
  (forall s, s ∈ l -> 0 <= s < Z.of_nat LLAMA_MAX_SEQ) ->
  exists u', foldM bit_set u l = Ok u' /\ forall s, s ∈ u' <-> s ∈ u \/ s ∈ l.
Proof.
  revert u. induction l as [|x l IH]; intros u Hl; cbn [foldM].
  { exists u. split; [done|]. set_solver. }
  rewrite bit_set_ok, bind_ok by (apply Hl; set_solver). destruct (IH ({[x]} ∪ u)) as (u' & E & Hu').
  { intros s Hs. apply Hl. set_solver. }
  exists u'. split; [done|]. intros s. rewrite Hu'. set_solver.
Qed.

Section gather.
Context (a : llama_batch_allocr) (ps ns : list Z) (ss : list (list Z)) (ls : list Z).
Context (W : balloc_wf a ps ns ss ls).
Context (idxs : list nat) (Hidxs : forall idx, idx ∈ idxs -> (idx < get_n_tokens a)%nat).
Abbreviation n := (length idxs).

Lemma pos_bound k idx :
  (k < n_pos_per_embd_ a)%nat -> (idx < get_n_tokens a)%nat ->
  (src_off (batch a) k + idx < length ps)%nat.
Proof.
  intros Hk Hi. destruct (bw_pos _ _ _ _ _ W) as [_ Hp].
  unfold src_off, pos_len in *. destruct (b_token (batch a)); [lia|].
  fold (get_n_tokens a) in *. nia.
Qed.

Lemma put_token d i idx :
  gathered a ps ns ss ls idxs n i d -> idxs !! i = Some idx ->
  runs (match b_token (batch a) with
        | None => Ok (d_token d)
        | Some ts => t ← rd ts idx; wr (d_token d) i t
        end) (fun tok => length tok = n /\ forall ts j idx', b_token (batch a) = Some ts ->
          (j < i + 1)%nat -> idxs !! j = Some idx' -> tok !! j = ts !! idx').
Proof.
  intros [[Hl Hg] _ _ _ _ _ _ _] Hi. pose proof (Hidxs idx ltac:(by eapply list_elem_of_lookup_2)) as Hlt.
  destruct (b_token (batch a)) as [ts|] eqn:E; [|by apply runs_ok].
  pose proof (bw_tok _ _ _ _ _ W ts E) as Hts.
  destruct (lookup_lt_is_Some_2 ts idx) as [t Ht]; [lia|].
  apply lookup_lt_Some in Hi as Hlt2.
  rewrite (rd_ok _ _ _ Ht), bind_ok, wr_ok by lia. apply runs_ok.
  rewrite length_insert. split; [done|]. intros ts' j idx' [= <-] Hj Hj'.
  destruct (decide (j = i)) as [->|Hne].
  - rewrite list_lookup_insert_eq by lia. congruence.
  - rewrite list_lookup_insert_ne by done. apply Hg; [done|lia|done].
Qed.

Lemma put_embd d i idx :
  gathered a ps ns ss ls idxs n i d -> idxs !! i = Some idx ->
  runs (match b_embd (batch a) with
        | None => Ok (d_embd d)
        | Some es => row ← slice es (idx * ba_n_embd a) (ba_n_embd a);
                   foldM (fun acc k => x ← rd row k; wr acc (i * ba_n_embd a + k)%nat x) (d_embd d)
                     (seq 0 (ba_n_embd a))
        end) (fun emb =>
    length emb = (match b_embd (batch a) with Some _ => n * ba_n_embd a | None => 0 end)%nat /\
    forall es j idx' k, b_embd (batch a) = Some es -> (j < i + 1)%nat -> idxs !! j = Some idx' ->
      (k < ba_n_embd a)%nat -> emb !! (j * ba_n_embd a + k)%nat = es !! (idx' * ba_n_embd a + k)%nat).
Proof.
  intros [_ [Hl Hg] _ _ _ _ _ _] Hi. pose proof (Hidxs idx ltac:(by eapply list_elem_of_lookup_2)) as Hlt.
  destruct (b_embd (batch a)) as [es|] eqn:E; [|by apply runs_ok].
  pose proof (bw_embd _ _ _ _ _ W es E) as Hes. apply lookup_lt_Some in Hi as Hlt2.
  unfold slice. rewrite collect_ok by nia. rewrite bind_ok.
  set (w := ba_n_embd a) in *.
  eapply runs_mono; [apply (runs_copy _ (d_embd d) (fun k => k) (fun k => (i * w + k)%nat))|].
  - intros k Hk. rewrite length_take, length_drop. nia.
  - lia.
  - intros emb (L & G1 & G2). split; [lia|]. intros es' j idx' k [= <-] Hj Hj' Hk.
    destruct (decide (j = i)) as [->|Hne].
    + rewrite G1, lookup_take_lt, lookup_drop by lia. congruence.
    + rewrite G2; [apply Hg; [done|lia|done|done]|]. intros k' Hk' Heq. apply Hne.
      by destruct (row_major_inj w i j k' k).
Qed.

Lemma put_pos_rows d i idx :
  gathered a ps ns ss ls idxs n i d -> idxs !! i = Some idx ->
  runs (foldM (fun acc j => p ← rd ps (src_off (batch a) j + idx)%nat; wr acc (j * n + i)%nat p)
          (d_pos d) (seq 0 (n_pos_per_embd_ a))) (fun pos =>
    length pos = (n * n_pos_per_embd_ a)%nat /\
    forall j idx' k, (j < i + 1)%nat -> idxs !! j = Some idx' -> (k < n_pos_per_embd_ a)%nat ->
      pos !! (k * n + j)%nat = ps !! (src_off (batch a) k + idx')%nat).
Proof.
  intros [_ _ [Hl Hg] _ _ _ _ _] Hi. pose proof (Hidxs idx ltac:(by eapply list_elem_of_lookup_2)) as Hlt.
  apply lookup_lt_Some in Hi as Hlt2.
  eapply runs_mono; [apply (runs_copy ps (d_pos d) (fun j => (src_off (batch a) j + idx)%nat)
    (fun j => (j * n + i)%nat))|].
  - intros k Hk. split; [by apply pos_bound|]. rewrite Hl. nia.
  - intros k k' _ _. nia.
  - intros pos (L & G1 & G2). split; [lia|]. intros j idx' k Hj Hj' Hk.
    destruct (decide (j = i)) as [->|Hne].
    + rewrite G1 by done. congruence.
    + rewrite G2; [apply Hg; [lia|done|done]|]. intros k' Hk' Heq.
      apply lookup_lt_Some in Hj'. apply Hne.
      by destruct (row_major_inj n k' k i j).
Qed.

Lemma ubatch_add_token_ok d i idx :
  gathered a ps ns ss ls idxs n i d -> idxs !! i = Some idx ->
  runs (ubatch_add_token a n d i idx) (gathered a ps ns ss ls idxs n (i + 1)).
Proof.
  intros G Hi. pose proof (Hidxs idx ltac:(by eapply list_elem_of_lookup_2)) as Hlt.
  apply lookup_lt_Some in Hi as Hlt2.
  destruct (bw_pos _ _ _ _ _ W) as [Ep _], (bw_nseq _ _ _ _ _ W) as [En Ln],
    (bw_log _ _ _ _ _ W) as [El Ll].
  destruct (lookup_lt_is_Some_2 ns idx) as [nsi Hns]; [lia|].
  destruct (lookup_lt_is_Some_2 ls idx) as [o Ho]; [lia|].
  destruct (bit_set_all (seqs_of ns ss idx) (d_unq d)) as (unq & Eu & Hu).
  { intros s Hs. pose proof (seqs_of_range _ _ _ _ _ idx s W Hlt Hs). pose proof (bw_max _ _ _ _ _ W). lia. }
  unfold ubatch_add_token.
  apply runs_bind. eapply runs_mono; [by apply put_token|]. intros tok Htok. cbv beta.
  apply runs_bind. eapply runs_mono; [by apply put_embd|]. intros emb Hemb. cbv beta.
  rewrite Ep, bind_deref.
  apply runs_bind. eapply runs_mono; [by apply put_pos_rows|]. intros pos Hpos. cbv beta.
  destruct (ga_nseq _ _ _ _ _ _ _ _ _ G) as [L1 N1], (ga_out _ _ _ _ _ _ _ _ _ G) as [L2 N2].
  rewrite En, bind_deref, (rd_ok _ _ _ Hns), bind_ok, wr_ok, bind_ok by lia.
  rewrite El, bind_deref, (rd_ok _ _ _ Ho), bind_ok, wr_ok, bind_ok by lia.
  rewrite (token_seqs_ok _ _ _ _ _ _ W Hlt), bind_ok, Eu, bind_ok. apply runs_ok.
  split; simpl; rewrite ?length_insert; try done.
  - split; [done|]. intros j idx' Hj Hj'. destruct (decide (j = i)) as [->|Hne].
    + rewrite list_lookup_insert_eq by lia. congruence.
    + rewrite list_lookup_insert_ne by done. apply N1; [lia|done].
  - rewrite Nat.add_1_r, (take_S_r _ _ _ Hi), fmap_app. f_equal. apply (ga_seq _ _ _ _ _ _ _ _ _ G).
  - split; [done|]. intros j idx' Hj Hj'. destruct (decide (j = i)) as [->|Hne].
    + rewrite list_lookup_insert_eq by lia. congruence.
    + rewrite list_lookup_insert_ne by done. apply N2; [lia|done].
  - intros s. rewrite Hu, (ga_unq _ _ _ _ _ _ _ _ _ G s), Nat.add_1_r, (take_S_r _ _ _ Hi). set_solver.
  - rewrite Nat.add_1_r, (take_S_r _ _ _ Hi), list.filter_app, app_assoc,
      <- (ga_ids _ _ _ _ _ _ _ _ _ G), list.filter_cons, list.filter_nil.
    assert (E : is_output ls idx = negb (o =? 0)) by (unfold is_output; by rewrite Ho).
    rewrite E. destruct (negb (o =? 0)); simpl; [done|by rewrite app_nil_r].
Qed.

Lemma gathered_0 emb :
  length emb = (match b_embd (batch a) with Some _ => n * ba_n_embd a | None => 0 end)%nat ->
  gathered a ps ns ss ls idxs n 0
    (mk_udata (replicate n 0) emb (replicate (n * n_pos_per_embd_ a) 0) (replicate n 0) []
       (replicate n 0) ∅ (out_ids a)).
Proof.
  intros He. split; simpl; rewrite ?length_replicate; try done; try (split; [done|]; intros; lia).
  - intros s. split; [set_solver|]. intros (idx & H & _). set_solver.
  - by rewrite app_nil_r.
Qed.

(** What [ubatch_add] returns for the token indices [idxs]: the fields of the micro-batch
    are the gathered fields of the batch, the outputs are appended to [out_ids], and
    [seq_idx] is the inverse of the increasing list of the sequences that occur. *)
Definition ubatch_of (n_seqs : nat) (equal : bool) (r : llama_batch_allocr * llama_ubatch) : Prop :=
  let '(a', u) := r in
  exists d, gathered a ps ns ss ls idxs n n d /\
    a' = with_out_ids (out_ids a ++ filter (fun idx => is_output ls idx = true) idxs) a /\
    b_equal_seqs u = equal /\
    ub_n_tokens u = n /\ (ub_n_seq_tokens u * n_seqs = n)%nat /\ ub_n_seqs u = n_seqs /\
    ub_n_seqs_unq u = length (ub_seq_id_unq u) /\ ub_n_pos u = n_pos_per_embd_ a /\
    ub_token u = ((fun _ => d_token d) <$> b_token (batch a)) /\ ub_embd u = ((fun _ => d_embd d) <$> b_embd (batch a)) /\
    ub_pos u = d_pos d /\ ub_n_seq_id u = d_n_seq_id d /\ ub_seq_id u = seqs_of ns ss <$> idxs /\
    ub_output u = d_output d /\
    ub_seq_id_unq u = ids_below (list_to_set (mjoin (ub_seq_id u))) (n_seq_max a) /\
    idx_of (ub_seq_id_unq u) (ub_seq_idx u).

Lemma ubatch_add_ok n_seqs equal :
  (0 < n_seqs)%nat -> (n_seqs | n)%nat ->
  runs (ubatch_add a idxs n_seqs equal) (ubatch_of n_seqs equal).
Proof.
  intros Hpos Hdiv. unfold ubatch_add.
  destruct (Nat.eqb_spec n_seqs 0) as [?|_]; [lia|]. rewrite (proj2 (Nat.Lcm0.mod_divide n n_seqs) Hdiv).
  change (assert_ (0 =? 0)%nat) with (Ok tt). rewrite bind_ok.
  apply runs_bind. eapply runs_mono.
  { apply (runs_for (gathered a ps ns ss ls idxs n)).
    - apply gathered_0. by rewrite length_replicate.
    - intros i d Hi G. destruct (lookup_lt_is_Some_2 idxs i Hi) as [idx Hx].
      eapply runs_rd; [exact Hx|]. by apply ubatch_add_token_ok. }
  intros d G. apply runs_bind. eapply runs_mono.
  { apply unique_ids_ok; [apply (bw_max _ _ _ _ _ W)|apply length_replicate|].
    by intros s k [-> _]%lookup_replicate. }
  intros [unq idx] [E1 E2]. simpl in E1, E2. apply runs_ok. exists d. split; [done|].
  pose proof (ga_ids _ _ _ _ _ _ _ _ _ G) as Hids. pose proof (ga_seq _ _ _ _ _ _ _ _ _ G) as Hseq.
  rewrite firstn_all in Hids, Hseq. rewrite <- Hids. simpl. split; [done|].
  do 2 (split; [done|]). split.
  { destruct Hdiv as [q Hq]. by rewrite Hq, Nat.div_mul by lia. }
  do 3 (split; [done|]). split; [by destruct (b_token (batch a))|].
  split; [by destruct (b_embd (batch a))|]. do 2 (split; [done|]).
  rewrite Hseq. do 2 (split; [done|]). split; [|done]. subst unq.
  unfold ids_below. apply list_filter_iff. intros s. rewrite (ga_unq _ _ _ _ _ _ _ _ _ G), firstn_all.
  rewrite elem_of_list_to_set, list_elem_of_join. setoid_rewrite list_elem_of_fmap. naive_solver.
Qed.
End gather.

(** ** Using tokens *)

(** [split] fields of the allocator do not matter to the well-formedness of the batch. *)
Lemma balloc_wf_split a ps ns ss ls o k u :
  balloc_wf a ps ns ss ls -> length u = length (ba_used a) ->
  balloc_wf (with_split o k u a) ps ns ss ls.
Proof. intros [] E. by split; simpl; rewrite ?E. Qed.

Lemma balloc_wf_out a ps ns ss ls o : balloc_wf a ps ns ss ls -> balloc_wf (with_out_ids o a) ps ns ss ls.
Proof. intros []. by split. Qed.

Lemma gathered_split a ps ns ss ls idxs n i d k u :
  gathered (with_split (out_ids a) k u a) ps ns ss ls idxs n i d -> gathered a ps ns ss ls idxs n i d.
Proof. intros []. by split. Qed.

(** The first [k] of [n] tokens are used. *)
Definition prefix_used (n k : nat) : list bool := replicate k true ++ replicate (n - k) false.

Lemma length_prefix_used n k : (k <= n)%nat -> length (prefix_used n k) = n.
Proof. intros H. unfold prefix_used. rewrite length_app, !length_replicate. lia. Qed.

Lemma prefix_used_S n k : (k < n)%nat -> <[k := true]> (prefix_used n k) = prefix_used n (S k).
Proof.
  intros H. unfold prefix_used. rewrite insert_app_r_alt, length_replicate, Nat.sub_diag by by rewrite length_replicate.
  replace (n - k)%nat with (S (n - S k)) by lia. simpl.
  by rewrite cons_middle, app_assoc, <- replicate_cons_app.
Qed.

Lemma first_unused_prefix n k : (k <= n)%nat -> first_unused (prefix_used n k) = k.
Proof.
  unfold prefix_used. intros H. generalize (n - k)%nat as m. clear H.
  induction k as [|k IH]; intros m; simpl; [by destruct m|]. by rewrite IH.
Qed.

(** ** split_simple *)

(** The indices taken by one call: [m] consecutive tokens from [k]. *)
Definition simple_len (n_ubatch n k : nat) : nat := Nat.min (Nat.max 1 n_ubatch) (n - k).

(** [a'] is [a] after its first [k] tokens have been taken, with output ids [o]. *)
Definition taken (a : llama_batch_allocr) (o : list nat) (k : nat) : llama_batch_allocr :=
  with_split o k (prefix_used (get_n_tokens a) k) a.

Section simple.
Context (a : llama_batch_allocr) (ps ns : list Z) (ss : list (list Z)) (ls : list Z).
Context (W : balloc_wf a ps ns ss ls).
Abbreviation n := (get_n_tokens a).

Lemma taken_wf o k : (k <= n)%nat -> balloc_wf (taken a o k) ps ns ss ls.
Proof.
  intros Hk. apply balloc_wf_split; [done|].
  rewrite length_prefix_used by done. symmetry. apply (bw_used _ _ _ _ _ W).
Qed.

Lemma use_token_taken o k : (k < n)%nat -> use_token (taken a o k) k = Ok (taken a o (S k)).
Proof.
  intros Hk. unfold use_token. simpl. rewrite wr_ok by (by rewrite length_prefix_used by lia).
  rewrite bind_ok, prefix_used_S by done. unfold taken. by rewrite Nat.add_1_r.
Qed.

Lemma simple_step_ok o k n_ubatch j :
  (j < simple_len n_ubatch n k)%nat ->
  simple_step n_ubatch (taken a o (k + j), seq k j, (k + j)%nat) =
  let st := (taken a o (k + S j), seq k (S j), (k + S j)%nat) in
  Ok (if (S j <? simple_len n_ubatch n k)%nat then inl st else inr st).
Proof.
  intros Hj. unfold simple_len in Hj. unfold simple_step. rewrite use_token_taken, bind_ok by lia.
  replace (S (k + j)) with (k + S j)%nat by lia. rewrite <- seq_S, length_seq.
  change (ba_used (taken a o (k + S j))) with (prefix_used n (k + S j)).
  rewrite length_prefix_used by lia. cbv zeta. unfold simple_len.
  destruct (Nat.leb_spec n (k + S j)), (Nat.leb_spec n_ubatch (S j)),
    (Nat.ltb_spec (S j) (Nat.min (Nat.max 1 n_ubatch) (n - k))); done || lia.
Qed.

Lemma simple_loop_ok o k n_ubatch fuel :
  (k < n)%nat -> (n <= fuel)%nat ->
  loop fuel (simple_step n_ubatch) (taken a o k, [], k) =
  let m := simple_len n_ubatch n k in Ok (taken a o (k + m), seq k m, (k + m)%nat).
Proof.
  intros Hk Hfuel.
  assert (H : forall f j, (j < simple_len n_ubatch n k)%nat -> (n - k - j <= f)%nat ->
    loop f (simple_step n_ubatch) (taken a o (k + j), seq k j, (k + j)%nat) =
    let m := simple_len n_ubatch n k in Ok (taken a o (k + m), seq k m, (k + m)%nat)).
  { induction f as [|f IH]; intros j Hj Hf; [unfold simple_len in Hj; lia|].
    cbn [loop]. rewrite simple_step_ok by done. cbv zeta. rewrite bind_ok.
    destruct (Nat.ltb_spec (S j) (simple_len n_ubatch n k)); [apply IH; lia|].
    by replace (simple_len n_ubatch n k) with (S j) by lia. }
  pose proof (H fuel 0%nat) as H0. rewrite Nat.add_0_r in H0.
  apply H0; [unfold simple_len; lia|lia].
Qed.

(** One call of [split_simple] when [k] tokens have been used: it takes the next
    [min (max 1 n_ubatch) (n - k)] tokens in order, and returns the empty micro-batch
    when there is none left. *)
Lemma split_simple_ok o k n_ubatch :
  (k <= n)%nat ->
  runs (split_simple (taken a o k) n_ubatch) (fun r =>
    let m := simple_len n_ubatch n k in
    r.1 = taken a (o ++ filter (fun i => is_output ls i = true) (seq k m)) (k + m) /\
    ((k = n /\ r.2 = ubatch_empty) \/
     (k < n)%nat /\ ubatch_of (taken a o (k + m)) ps ns ss ls (seq k m) m false r)).
Proof.
  intros Hk. unfold split_simple. change (ba_used (taken a o k)) with (prefix_used n k).
  rewrite first_unused_prefix, length_prefix_used by done.
  destruct (Nat.leb_spec n k) as [H|H].
  { apply runs_ok. assert (k = n) as -> by lia. unfold simple_len. rewrite Nat.sub_diag, Nat.min_0_r.
    simpl. rewrite app_nil_r, Nat.add_0_r. split; [done|]. by left. }
  rewrite simple_loop_ok by lia. cbv zeta. set (m := simple_len n_ubatch n k).
  assert (Hm : (0 < m <= n - k)%nat) by (unfold m, simple_len; lia).
  rewrite bind_ok, length_seq. eapply runs_mono.
  { pose proof (ubatch_add_ok (taken a o (k + m)) ps ns ss ls (taken_wf o (k + m) ltac:(lia)) (seq k m)) as U.
    apply (U ltac:(intros i Hi%elem_of_seq; simpl; change (get_n_tokens (taken a o (k + m))) with n; lia) m false);
      [lia|]. by rewrite length_seq. }
  intros [a' u] U. split; [|by right]. destruct U as (d & _ & -> & _). done.
Qed.
End simple.

(** ** The loop over micro-batches

    [llama_kv_cache::init_batch] and the other memories call a splitter until it returns an
    empty micro-batch. *)

Definition split_body (split : llama_batch_allocr -> res (llama_batch_allocr * llama_ubatch))
    (st : llama_batch_allocr * list llama_ubatch)
    : res ((llama_batch_allocr * list llama_ubatch) + (llama_batch_allocr * list llama_ubatch)) :=
  let '(a, ubatches) := st in
  r ← split a;
  let '(a', u) := r in
  if (ub_n_tokens u =? 0)%nat then Ok (inr (a', ubatches)) else Ok (inl (a', ubatches ++ [u])).

(** The fuel is one more than the number of tokens: every micro-batch uses one at least. *)
Definition split_loop (split : llama_batch_allocr -> res (llama_batch_allocr * llama_ubatch))
    (a : llama_batch_allocr) : res (llama_batch_allocr * list llama_ubatch) :=
  loop (get_n_tokens a + 2) (split_body split) (a, []).

Lemma gather_seq {A} (l src : list A) k m :
  length l = m -> (k + m <= length src)%nat ->
  (forall j idx, (j < m)%nat -> seq k m !! j = Some idx -> l !! j = src !! idx) ->
  l = take m (drop k src).
Proof.
  intros Hl Hs H. apply list_eq. intros j. destruct (decide (j < m)%nat) as [Hj|Hj].
  - rewrite lookup_take_lt, lookup_drop by done. apply H; [done|]. apply lookup_seq. lia.
  - rewrite lookup_ge_None_2 by lia. symmetry. apply lookup_ge_None_2. rewrite length_take. lia.
Qed.

Lemma mjoin_snoc {A} (l : list (list A)) x : mjoin (l ++ [x]) = mjoin l ++ x.
Proof. induction l as [|y l IH]; simpl; [by rewrite app_nil_r|]. by rewrite IH, app_assoc. Qed.

Lemma take_take_drop {A} (l : list A) k m : take k l ++ take m (drop k l) = take (k + m) l.
Proof. apply take_take_drop. Qed.

(** The micro-batches [ubs] hold the first [k] tokens of the batch, in order. *)
Record split_prefix (a : llama_batch_allocr) (ps ns : list Z) (ss : list (list Z)) (ls : list Z)
    (bound k : nat) (ubs : list llama_ubatch) : Prop := {
  sp_sizes : Forall (fun u => (1 <= ub_n_tokens u <= bound)%nat) ubs;
  sp_sum   : sum_list (ub_n_tokens <$> ubs) = k;
  sp_toks  : forall ts, b_token (batch a) = Some ts -> mjoin (default [] ∘ ub_token <$> ubs) = take k ts;
  sp_poss  : n_pos_per_embd_ a = 1%nat -> mjoin (ub_pos <$> ubs) = take k ps;
  sp_nseqs : mjoin (ub_n_seq_id <$> ubs) = take k ns;
  sp_seqs  : mjoin (ub_seq_id <$> ubs) = seqs_of ns ss <$> seq 0 k;
  sp_outs  : mjoin (ub_output <$> ubs) = take k ls;
  sp_each  : Forall (fun u => exists o i m a', (1 <= m /\ i + m <= get_n_tokens a)%nat /\
               ubatch_of (taken a o (i + m)) ps ns ss ls (seq i m) m false (a', u)) ubs
}.

Section simple_all.
Context (a : llama_batch_allocr) (ps ns : list Z) (ss : list (list Z)) (ls : list Z).
Context (W : balloc_wf a ps ns ss ls) (n_ubatch : nat).
Abbreviation n := (get_n_tokens a).

Lemma split_prefix_snoc bound k m ubs o a' u :
  split_prefix a ps ns ss ls bound k ubs -> (k + m <= n)%nat -> (1 <= m <= bound)%nat ->
  ubatch_of (taken a o (k + m)) ps ns ss ls (seq k m) m false (a', u) ->
  split_prefix a ps ns ss ls bound (k + m) (ubs ++ [u]).
Proof.
  intros [P1 P2 P3 P4 P5 P6 P7 P8] Hk Hm U. pose proof U as (d & G & _ & _ & Hn & _ & _ & _ & _ & Ht & _ & Hp & Hns & Hs & Ho & _).
  rewrite length_seq in Hn, G.
  destruct G as [[T1 T2] _ [Q1 Q2] [N1 N2] _ [O1 O2] _ _].
  destruct (bw_pos _ _ _ _ _ W) as [_ Lp], (bw_nseq _ _ _ _ _ W) as [_ Ln], (bw_log _ _ _ _ _ W) as [_ Ll].
  split; rewrite ?fmap_app, ?mjoin_snoc.
  - apply Forall_app. split; [done|]. apply Forall_singleton. lia.
  - rewrite sum_list_with_app. simpl in *. lia.
  - intros ts Hts. change (default [] ∘ ub_token <$> [u]) with [default [] (ub_token u)].
    rewrite mjoin_snoc, (P3 ts Hts), Ht. simpl in *. rewrite Hts. simpl.
    rewrite <- take_take_drop. f_equal. pose proof (bw_tok _ _ _ _ _ W ts Hts).
    apply gather_seq; [done|lia|]. intros. by apply T2.
  - intros Hp1. change (ub_pos <$> [u]) with [ub_pos u]. rewrite mjoin_snoc, (P4 Hp1), Hp.
    rewrite <- take_take_drop. f_equal. simpl in *. rewrite Hp1 in *.
    apply gather_seq; [lia| unfold pos_len in Lp; destruct (b_token (batch a)); lia|].
    intros j idx Hj Hidx. specialize (Q2 j idx 0%nat Hj Hidx). simpl in Q2. rewrite Q2 by lia.
    unfold src_off. by destruct (b_token (batch a)).
  - change (ub_n_seq_id <$> [u]) with [ub_n_seq_id u]. rewrite mjoin_snoc, P5, Hns, <- take_take_drop.
    f_equal. apply gather_seq; [done|lia|done].
  - change (ub_seq_id <$> [u]) with [ub_seq_id u]. rewrite mjoin_snoc, P6, Hs, seq_app, fmap_app. done.
  - change (ub_output <$> [u]) with [ub_output u]. rewrite mjoin_snoc, P7, Ho, <- take_take_drop.
    f_equal. apply gather_seq; [done|lia|done].
  - apply Forall_app. split; [done|]. apply Forall_singleton. exists o, k, m, a'. split; [lia|exact U].
Qed.

Lemma split_simple_all o :
  runs (loop (n + 2) (split_body (fun a => split_simple a n_ubatch)) (taken a o 0, []))
    (fun r => r.1 = taken a (o ++ filter (fun i => is_output ls i = true) (seq 0 n)) n /\
              split_prefix a ps ns ss ls (Nat.max 1 n_ubatch) n r.2).
Proof.
  set (out k := o ++ filter (fun i => is_output ls i = true) (seq 0 k)).
  apply (runs_loop (fun st => exists k, (k <= n)%nat /\ st.1 = taken a (out k) k /\
           split_prefix a ps ns ss ls (Nat.max 1 n_ubatch) k st.2)
         (fun st => (n - n_used st.1)%nat)).
  - intros [a1 ubs] (k & Hk & E & P). simpl in E, P. subst a1. unfold split_body.
    apply runs_bind. eapply runs_mono; [by apply (split_simple_ok a ps ns ss ls W (out k) k n_ubatch)|].
    intros [a2 u] H. cbv zeta in H. set (m := simple_len n_ubatch n k) in *.
    assert (Hout : out (k + m)%nat = out k ++ filter (fun i => is_output ls i = true) (seq k m)).
    { unfold out. rewrite seq_app, list.filter_app, app_assoc. done. }
    rewrite <- Hout in H. destruct H as [E [[-> E2]|[Hlt U]]]; simpl in E.
    + simpl in E2. subst u. simpl. apply runs_ok. simpl.
      assert (Hm : m = 0%nat) by (unfold m, simple_len; lia). rewrite Hm, Nat.add_0_r in E.
      by rewrite E.
    + assert (Hm : (1 <= m <= Nat.max 1 n_ubatch)%nat /\ (k + m <= n)%nat) by (unfold m, simple_len; lia).
      pose proof U as (d & _ & _ & _ & Hn & _). rewrite length_seq in Hn. rewrite Hn.
      destruct (Nat.eqb_spec m 0) as [?|_]; [lia|]. apply runs_ok. split.
      * exists (k + m)%nat. split; [lia|]. split; [done|]. simpl.
        eapply split_prefix_snoc; [done|lia..|exact U].
      * rewrite E. simpl. lia.
  - simpl. lia.
  - exists 0%nat. split; [lia|]. simpl. split; [unfold out; simpl; by rewrite app_nil_r|].
    split; simpl; done.
Qed.
End simple_all.
