(* ===== verification/BatchEqual.v ===== *)
(** Correctness of [split_equal] of src/llama/llama.cpp/src/llama-batch.cpp: every call
    takes the same number of unused tokens from pairwise disjoint sequence sets, and the
    loop of the memories over it uses every token of the batch exactly once. *)

From S2P Require Import Prelude Memory KvCells Batch.
Local Open Scope Z_scope.

(** ** The tables of [init] *)

(** [seq_set] holds the set of every token, [seq_set_map] the increasing list of the tokens
    of every set. *)
Record sets_wf (a : llama_batch_allocr) (ns : list Z) (ss : list (list Z)) : Prop := {
  sw_len : length (seq_set a) = get_n_tokens a;
  sw_set : forall i c, seq_set a !! i = Some c -> c <> ∅ /\ c = list_to_set (seqs_of ns ss i);
  sw_map : forall c i, i ∈ set_idxs a c -> seq_set a !! i = Some c;
  sw_in  : forall i c, seq_set a !! i = Some c -> i ∈ set_idxs a c;
  sw_nd  : forall c, NoDup (set_idxs a c)
}.

(** The used tokens of set [c] are the first [cnt c] of its list. *)
Record used_cnt (a : llama_batch_allocr) (u : list bool) (k : nat) (cnt : gset Z -> nat) : Prop := {
  uc_len : length u = get_n_tokens a;
  uc_at  : forall c j i, set_idxs a c !! j = Some i -> u !! i = Some (bool_decide (j < cnt c)%nat);
  uc_num : k = countb id u
}.

Lemma countb_le {A} (P : A -> bool) l : (countb P l <= length l)%nat.
Proof. unfold countb. induction l as [|x l IH]; simpl; [done|]. destruct (P x); simpl; lia. Qed.

Lemma countb_all {A} (P : A -> bool) l : (forall i x, l !! i = Some x -> P x = true) -> countb P l = length l.
Proof.
  unfold countb. induction l as [|x l IH]; simpl; [done|]. intros H. rewrite (H 0%nat x) by done.
  rewrite IH; [done|]. intros i y Hy. by apply (H (S i)).
Qed.

Lemma countb_lt {A} (P : A -> bool) l i x : l !! i = Some x -> P x = false -> (countb P l < length l)%nat.
Proof.
  unfold countb. revert i. induction l as [|y l IH]; intros [|i]; simpl; try done.
  - intros [= ->] ->. simpl. pose proof (countb_le P l). unfold countb in *. lia.
  - intros H HP. specialize (IH i H HP). destruct (P y); simpl; lia.
Qed.

Section equal.
Context (a : llama_batch_allocr) (ps ns : list Z) (ss : list (list Z)) (ls : list Z).
Context (W : balloc_wf a ps ns ss ls) (SW : sets_wf a ns ss).
Abbreviation n := (get_n_tokens a).

(** The allocator after some tokens have been used. *)
Definition at_split (o : list nat) (k : nat) (u : list bool) : llama_batch_allocr := with_split o k u a.

Lemma set_idxs_lt c j i : set_idxs a c !! j = Some i -> (i < n)%nat /\ seq_set a !! i = Some c.
Proof.
  intros H%list_elem_of_lookup_2%(sw_map _ _ _ SW). split; [|done].
  rewrite <- (sw_len _ _ _ SW). by eapply lookup_lt_Some.
Qed.

Lemma set_idxs_inj c c' j j' i :
  set_idxs a c !! j = Some i -> set_idxs a c' !! j' = Some i -> c = c' /\ j = j'.
Proof.
  intros H H'. assert (c = c') as <-.
  { destruct (set_idxs_lt _ _ _ H), (set_idxs_lt _ _ _ H'). congruence. }
  split; [done|]. by eapply NoDup_lookup; [apply (sw_nd _ _ _ SW)|..].
Qed.

(** Taking the next token of set [c]. *)
Lemma used_cnt_take u k cnt cnt' c i :
  used_cnt a u k cnt -> set_idxs a c !! cnt c = Some i ->
  (forall c', cnt' c' = if decide (c' = c) then S (cnt c) else cnt c') ->
  used_cnt a (<[i := true]> u) (k + 1) cnt'.
Proof.
  intros [U1 U2 U3] Hi Hc. split.
  - by rewrite length_insert.
  - intros c' j' i' H. rewrite Hc. destruct (decide (i' = i)) as [->|Hne].
    + destruct (set_idxs_inj _ _ _ _ _ H Hi) as [-> ->]. rewrite decide_True by done.
      rewrite list_lookup_insert_eq by (rewrite U1; by eapply set_idxs_lt).
      symmetry. f_equal. apply bool_decide_eq_true. lia.
    + rewrite list_lookup_insert_ne by done. rewrite (U2 _ _ _ H). f_equal.
      apply bool_decide_ext. case_decide as Hcc; [|done]. subst c'.
      destruct (decide (j' = cnt c)) as [->|?]; [congruence|lia].
  - assert (E : u !! i = Some false).
    { rewrite (U2 _ _ _ Hi). f_equal. apply bool_decide_eq_false. lia. }
    pose proof (countb_insert id u i false true E) as H. simpl in H. lia.
Qed.

Lemma token_seq0_ok i c :
  seq_set a !! i = Some c -> exists s, token_seq0 (batch a) i = Ok s /\ s ∈ c.
Proof.
  intros H. destruct (sw_set _ _ _ SW i c H) as [Hne Hc].
  unfold seqs_of in Hc. destruct (ns !! i) as [k|] eqn:E1; [|set_solver].
  destruct (ss !! i) as [l|] eqn:E2; [|set_solver].
  destruct l as [|s l]; [rewrite take_nil in Hc; set_solver|].
  destruct (Z.to_nat k) as [|m] eqn:Ek; [set_solver|]. exists s.
  destruct (bw_seq _ _ _ _ _ W) as [Es _]. unfold token_seq0.
  rewrite Es, bind_deref, (rd_ok _ _ _ E2), bind_ok. split; [done|]. set_solver.
Qed.

(** *** The choice of the sequence sets *)

Definition disjoint_sets (cur : list (gset Z)) : Prop :=
  forall s s' c c', cur !! s = Some c -> cur !! s' = Some c' -> s <> s' -> c ∩ c' = ∅.

(** The sets chosen: pairwise disjoint, each with an unused token. *)
Record picked (u : list bool) (cur : list (gset Z)) : Prop := {
  pk_disj : disjoint_sets cur;
  pk_free : forall c, c ∈ cur -> exists i, seq_set a !! i = Some c /\ u !! i = Some false
}.

Lemma picked_nil u : picked u [].
Proof. split; [intros [] ????; done|]. intros c H. by apply elem_of_nil in H. Qed.

Lemma picked_snoc u cur c i :
  picked u cur -> seq_set a !! i = Some c -> u !! i = Some false ->
  forallb (fun c' => bool_decide (c' ∩ c = ∅)) cur = true -> picked u (cur ++ [c]).
Proof.
  intros [P1 P2] Hc Hu Hd. rewrite forallb_forall in Hd. split.
  - assert (Hx : forall s c', cur !! s = Some c' -> c' ∩ c = ∅).
    { intros s c' Hs. specialize (Hd c'). rewrite bool_decide_eq_true in Hd.
      apply Hd, list_elem_of_In. by eapply list_elem_of_lookup_2. }
    intros s s' c1 c2 [H1|[H1 E1]]%lookup_app_Some [H2|[H2 E2]]%lookup_app_Some Hne.
    + by eapply P1.
    + apply list_lookup_singleton_Some in E2 as [_ <-]. by eapply Hx.
    + apply list_lookup_singleton_Some in E1 as [_ <-]. rewrite (intersection_comm_L c c2). by eapply Hx.
    + apply list_lookup_singleton_Some in E1 as [? _], E2 as [? _]. lia.
  - intros c' [H|H%list_elem_of_singleton]%elem_of_app; [by apply P2|]. subst. eauto.
Qed.

(** With [sequential], the ids of neighbouring sets are consecutive. *)
Definition chained (cur : list (gset Z)) : Prop :=
  forall s c c', cur !! s = Some c -> cur !! S s = Some c' -> exists x, x ∈ c /\ x + 1 ∈ c'.

Lemma chained_snoc cur c x :
  chained cur -> (forall c', list.last cur = Some c' -> x ∈ c') -> x + 1 ∈ c -> chained (cur ++ [c]).
Proof.
  intros H Hl Hx s c1 c2 H1 [H2|[H2 E]]%lookup_app_Some.
  - rewrite lookup_app_l in H1 by (apply lookup_lt_Some in H2; lia). by eapply H.
  - apply list_lookup_singleton_Some in E as [E <-].
    rewrite lookup_app_l in H1 by lia. exists x. split; [|done]. apply Hl.
    rewrite list.last_lookup. by replace (pred (length cur)) with s by lia.
Qed.

Definition pick_inv (u : list bool) (n_ubatch : nat) (sequential : bool) (done_ : list nat)
    (st : list (gset Z) * Z) : Prop :=
  picked u st.1 /\ (length st.1 <= n_ubatch)%nat /\
  (sequential = true -> chained st.1 /\ forall c, list.last st.1 = Some c -> st.2 ∈ c) /\
  (forall i, i ∈ done_ -> u !! i = Some false -> st.1 <> []).

Definition pick_res (u : list bool) (n_ubatch : nat) (sequential : bool) (cur : list (gset Z)) : Prop :=
  picked u cur /\ (length cur <= S n_ubatch)%nat /\ (sequential = true -> chained cur) /\
  ((exists i, u !! i = Some false) -> cur <> []).

Lemma pick_set_ok o k u n_ubatch sequential done_ st i :
  length u = n -> (i < n)%nat -> pick_inv u n_ubatch sequential done_ st ->
  runs (pick_set (at_split o k u) n_ubatch sequential st i) (fun r =>
    match r with
    | inl st' => pick_inv u n_ubatch sequential (done_ ++ [i]) st'
    | inr cur => pick_res u n_ubatch sequential cur
    end).
Proof.
  intros Hu Hi (P & L & C & N). destruct st as [cur last_]. simpl in P, L, C, N. unfold pick_set.
  change (ba_used (at_split o k u)) with u. change (seq_set (at_split o k u)) with (seq_set a).
  change (batch (at_split o k u)) with (batch a).
  destruct (lookup_lt_is_Some_2 u i) as [ui Hui]; [lia|].
  rewrite (rd_ok _ _ _ Hui), bind_ok.
  assert (Hskip : (ui = false -> cur <> []) ->
    pick_inv u n_ubatch sequential (done_ ++ [i]) (cur, last_)).
  { intros Hne. split; [done|]. split; [done|]. split; [done|]. simpl.
    intros j [Hj|Hj%list_elem_of_singleton]%elem_of_app Huj; [by eapply N|]. apply Hne. congruence. }
  destruct ui; [by apply runs_ok, Hskip|].
  destruct (lookup_lt_is_Some_2 (seq_set a) i) as [c Hc]; [by rewrite (sw_len _ _ _ SW)|].
  destruct (token_seq0_ok i c Hc) as (s & Es & Hs).
  rewrite (rd_ok _ _ _ Hc), bind_ok. cbv zeta.
  set (disj := forallb (fun c' => bool_decide (c' ∩ c = ∅)) cur).
  apply runs_bind. eapply runs_mono with (P := fun s0 =>
    sequential && disj && negb (bool_decide (cur = [])) = true -> s0 = s).
  { rewrite Es. by destruct (sequential && disj && negb (bool_decide (cur = []))). }
  intros s0 Hs0. set (add := if sequential then _ else _).
  destruct add eqn:Hadd; cycle 1.
  { apply runs_ok, Hskip. intros _ ->. subst add disj. simpl in Hadd. by destruct sequential. }
  rewrite Es, bind_ok.
  assert (Hd : disj = true) by (subst add; destruct sequential; [by apply andb_true_iff in Hadd as [? _]|done]).
  assert (P' : picked u (cur ++ [c])) by by eapply picked_snoc.
  assert (C' : sequential = true -> chained (cur ++ [c])).
  { intros ->. subst add. rewrite Hd in *. cbn [andb] in *. destruct (C eq_refl) as [C1 C2].
    destruct (decide (cur = [])) as [->|Hne].
    { intros s1 c1 c2 H1 H2. by destruct s1. }
    rewrite bool_decide_false in Hs0, Hadd by done. cbn [negb orb] in Hs0, Hadd.
    rewrite Hs0 in Hadd by done. apply Z.eqb_eq in Hadd.
    eapply chained_snoc; [done|apply C2|]. by rewrite <- Hadd. }
  rewrite length_app. simpl.
  destruct (Nat.ltb_spec n_ubatch (length cur + 1)).
  - apply runs_ok. split; [done|]. rewrite length_app. simpl. split; [lia|]. split; [done|].
    intros _. by destruct cur.
  - apply runs_ok. split; [done|]. simpl. rewrite length_app. simpl. split; [lia|]. split.
    + intros Hseq. split; [by apply C'|]. rewrite list.last_snoc. intros ? [= <-]. done.
    + intros _ _ _. by destruct cur.
Qed.

Lemma pick_sets_ok o k u n_ubatch sequential :
  length u = n ->
  runs (foldB (pick_set (at_split o k u) n_ubatch sequential) ([], -1) (seq 0 n)) (fun r =>
    pick_res u n_ubatch sequential (match r with inl st => st.1 | inr cur => cur end)).
Proof.
  intros Hu. eapply runs_mono.
  { apply (runs_foldB (pick_inv u n_ubatch sequential) (pick_res u n_ubatch sequential)).
    - split; [apply picked_nil|]. cbn. split; [lia|]. split; [|set_solver].
      intros _. split; [intros [] ??; done|done].
    - intros l1 i l2 st E H. apply pick_set_ok; [done| |done].
      assert (Hin : i ∈ seq 0 n) by (rewrite E; set_solver). apply elem_of_seq in Hin. lia. }
  intros [[cur last_]|cur]; [|done]. intros (P & L & C & N). simpl in *.
  split; [done|]. split; [lia|]. split; [by intros [? _]%C|]. intros [i Hi].
  eapply N; [|exact Hi]. apply elem_of_seq. apply lookup_lt_Some in Hi. lia.
Qed.

(** *** The expansion loop *)

Lemma skip_used_ok u l k m :
  (m < length l)%nat -> (forall j i, l !! j = Some i -> u !! i = Some (bool_decide (j < m)%nat)) ->
  skip_used u l k = Ok (k + m)%nat.
Proof.
  revert k m. induction l as [|i l IH]; intros k m Hm H; simpl in Hm; [lia|].
  cbn [skip_used]. rewrite (rd_ok _ _ _ (H 0%nat i eq_refl)), bind_ok. destruct m as [|m].
  - rewrite bool_decide_false by lia. by rewrite Nat.add_0_r.
  - rewrite bool_decide_true by lia. rewrite (IH (S k) m); [f_equal; lia|lia|].
    intros j i' Hj. rewrite (H (S j) i' Hj). f_equal. apply bool_decide_ext. lia.
Qed.

Section expand.
Context (o : list nat) (cur : list (gset Z)) (cnt : gset Z -> nat) (k0 : nat).
Context (Hnd : NoDup cur).

(** After [m] rounds, and the first [s] sets of the next one. *)
Record eq_inv (m s : nat) (st : equal_state) : Prop := {
  ei_ex : exists u k cnt', st.1.1 = at_split o k u /\ used_cnt a u k cnt' /\
    k = (k0 + m * length cur + s)%nat /\
    (forall s' c, cur !! s' = Some c -> cnt' c = (cnt c + if (s' <? s)%nat then S m else m)%nat) /\
    (forall c, c ∉ cur -> cnt' c = cnt c);
  ei_idx : length st.1.2 = length cur /\ forall s' c, cur !! s' = Some c ->
    st.1.2 !! s' = Some (cnt c + if (s' <? s)%nat then S m else m)%nat;
  ei_per : length st.2 = length cur /\ forall s' c, cur !! s' = Some c ->
    st.2 !! s' = Some (take (if (s' <? s)%nat then S m else m) (drop (cnt c) (set_idxs a c)))
}.

Lemma eq_inv_round m st : eq_inv m (length cur) st -> eq_inv (S m) 0 st.
Proof.
  intros [(u & k & cnt' & E & U & K & C1 & C2) [L1 I] [L2 P]].
  assert (Hlt : forall s' c, cur !! s' = Some c -> (s' <? length cur)%nat = true).
  { intros s' c Hs. apply Nat.ltb_lt. by eapply lookup_lt_Some. }
  split.
  - exists u, k, cnt'. do 2 (split; [done|]). split; [lia|]. split; [|done]. intros s' c Hs.
    by rewrite (C1 _ _ Hs), (Hlt _ _ Hs).
  - split; [done|]. intros s' c Hs. by rewrite (I _ _ Hs), (Hlt _ _ Hs).
  - split; [done|]. intros s' c Hs. by rewrite (P _ _ Hs), (Hlt _ _ Hs).
Qed.

Lemma equal_take_ok m s st c :
  eq_inv m s st -> cur !! s = Some c -> (cnt c + m < length (set_idxs a c))%nat ->
  runs (equal_take cur st s) (eq_inv m (S s)).
Proof.
  intros [(u & k & cnt' & E & U & K & C1 & C2) [L1 I] [L2 P]] Hc Hlt.
  destruct st as [[a1 cidx] per]. simpl in E, L1, I, L2, P. subst a1. unfold equal_take.
  apply lookup_lt_Some in Hc as Hs.
  assert (Hcnt : cnt' c = (cnt c + m)%nat) by by rewrite (C1 s c Hc), Nat.ltb_irrefl.
  pose proof (I s c Hc) as Hi. rewrite Nat.ltb_irrefl in Hi. cbv iota in Hi.
  pose proof (P s c Hc) as Hp. rewrite Nat.ltb_irrefl in Hp. cbv iota in Hp.
  destruct (lookup_lt_is_Some_2 _ _ Hlt) as [idx Hidx].
  assert (Hix : (idx < length u)%nat).
  { rewrite (uc_len _ _ _ _ U). by eapply set_idxs_lt. }
  rewrite (rd_ok _ _ _ Hc), bind_ok, (rd_ok _ _ _ Hi), bind_ok.
  change (set_idxs (at_split o k u) c) with (set_idxs a c). rewrite (rd_ok _ _ _ Hidx), bind_ok,
    (rd_ok _ _ _ Hp), bind_ok, (wr_ok per), bind_ok by lia.
  unfold use_token. change (ba_used (at_split o k u)) with u.
  rewrite (wr_ok u), bind_ok, bind_ok, (wr_ok cidx), bind_ok by lia. apply runs_ok.
  assert (Hne : forall s' c', cur !! s' = Some c' -> s' <> s -> c' <> c /\ (s' <? S s)%nat = (s' <? s)%nat).
  { intros s' c' Hs' Hn. split; [intros ->; by pose proof (NoDup_lookup _ _ _ _ Hnd Hs' Hc)|].
    destruct (Nat.ltb_spec s' (S s)), (Nat.ltb_spec s' s); done || lia. }
  assert (Hss : (s <? S s)%nat = true) by (apply Nat.ltb_lt; lia).
  split; simpl; rewrite ?length_insert.
  - exists (<[idx := true]> u), (k + 1)%nat, (fun c' => if decide (c' = c) then S (cnt' c) else cnt' c').
    split; [done|]. split.
    { eapply used_cnt_take; [exact U|by rewrite Hcnt|done]. }
    split; [lia|]. split.
    + intros s' c' Hs'. destruct (decide (s' = s)) as [->|Hn].
      * simplify_eq. rewrite decide_True, Hss by done. lia.
      * destruct (Hne _ _ Hs' Hn) as [? ->]. rewrite decide_False by done. by apply C1.
    + intros c' Hc'. rewrite decide_False; [by apply C2|]. intros ->. by apply Hc', (list_elem_of_lookup_2 _ _ _ Hc).
  - split; [done|]. intros s' c' Hs'. destruct (decide (s' = s)) as [->|Hn].
    + simplify_eq. rewrite list_lookup_insert_eq, Hss by lia. f_equal. lia.
    + rewrite list_lookup_insert_ne by done. destruct (Hne _ _ Hs' Hn) as [_ ->]. by apply I.
  - split; [done|]. intros s' c' Hs'. destruct (decide (s' = s)) as [->|Hn].
    + simplify_eq. rewrite list_lookup_insert_eq, Hss by lia. f_equal. symmetry.
      apply take_S_r. by rewrite lookup_drop.
    + rewrite list_lookup_insert_ne by done. destruct (Hne _ _ Hs' Hn) as [_ ->]. by apply P.
Qed.

Lemma equal_round_ok m st :
  eq_inv m 0 st -> (forall c, c ∈ cur -> (cnt c + m < length (set_idxs a c))%nat) ->
  runs (foldM (equal_take cur) st (seq 0 (length cur))) (eq_inv (S m) 0).
Proof.
  intros H Hlt. eapply runs_mono; [apply (runs_for (eq_inv m))|intros st'; apply eq_inv_round]; [done|].
  intros s st' Hs H'. destruct (lookup_lt_is_Some_2 cur s Hs) as [c Hc]. rewrite Nat.add_1_r.
  eapply equal_take_ok; [done|exact Hc|]. apply Hlt. by eapply list_elem_of_lookup_2.
Qed.

(** The rows collected after [m] rounds: [m] unused tokens of every set. *)
Definition eq_done (n_ubatch : nat) (st : equal_state) : Prop :=
  exists m, (1 <= m)%nat /\ (m = 1%nat \/ (m * length cur <= n_ubatch)%nat) /\ eq_inv m 0 st /\
    (forall c, c ∈ cur -> (cnt c + m <= length (set_idxs a c))%nat).

Definition eq_cont (n_ubatch : nat) (st : equal_state) : Prop :=
  exists m, (m = 0%nat \/ ((m + 1) * length cur <= n_ubatch)%nat) /\ eq_inv m 0 st /\
    (forall c, c ∈ cur -> (cnt c + m <= length (set_idxs a c))%nat).

Lemma can_expand_ok m st :
  eq_inv m 0 st ->
  all_ok (fun s => c ← rd cur s; k ← rd st.1.2 s;
    Ok (negb (length (set_idxs st.1.1 c) <=? k)%nat)) (length cur) =
  Ok (forallb (fun c => negb (length (set_idxs a c) <=? cnt c + m)%nat) cur).
Proof.
  intros [(u & k & cnt' & E & _) [L1 I] _]. rewrite E. unfold all_ok.
  assert (H : forall done_ rest, cur = done_ ++ rest ->
    foldB (fun (_ : unit) i => ok ← (c ← rd cur i; q ← rd st.1.2 i;
      Ok (negb (length (set_idxs (at_split o k u) c) <=? q)%nat));
      Ok (if (ok : bool) then inl tt else inr false)) tt (seq (length done_) (length rest)) =
    Ok (if forallb (fun c => negb (length (set_idxs a c) <=? cnt c + m)%nat) rest
        then inl tt else inr false)).
  { intros done_ rest. revert done_. induction rest as [|c rest IH]; intros done_ Ec; [done|].
    assert (Hc : cur !! length done_ = Some c) by (rewrite Ec; by apply list_lookup_middle).
    pose proof (I _ _ Hc) as Hi. cbn [Nat.ltb Nat.leb] in Hi. cbn [length seq foldB forallb].
    rewrite (rd_ok _ _ _ Hc), bind_ok, (rd_ok _ _ _ Hi), bind_ok, bind_ok.
    change (set_idxs (at_split o k u) c) with (set_idxs a c).
    destruct (length (set_idxs a c) <=? cnt c + m)%nat; [done|]. cbn [negb andb]. rewrite bind_ok.
    rewrite <- (IH (done_ ++ [c])); [|by rewrite <- app_assoc].
    by replace (length (done_ ++ [c])) with (S (length done_)) by (rewrite length_app; simpl; lia). }
  specialize (H [] cur eq_refl). change (length []) with 0%nat in H. rewrite H, bind_ok. by destruct (forallb _ cur).
Qed.

Lemma equal_step_ok n_ubatch st :
  cur <> [] -> (forall c, c ∈ cur -> (cnt c < length (set_idxs a c))%nat) -> eq_cont n_ubatch st ->
  runs (equal_step n_ubatch cur st) (fun r =>
    match r with
    | inl st' => eq_cont n_ubatch st' /\ (n - n_used st'.1.1 < n - n_used st.1.1)%nat
    | inr st' => eq_done n_ubatch st'
    end).
Proof.
  intros Hne H0 (m & Hm & Hinv & Hle). destruct st as [[a1 cidx] per]. unfold equal_step.
  pose proof (can_expand_ok m _ Hinv) as Hcan. cbn [fst snd] in Hcan. rewrite Hcan, bind_ok.
  set (can := forallb _ cur). destruct can eqn:Ecan; cbn [negb].
  - assert (Hlt : forall c, c ∈ cur -> (cnt c + m < length (set_idxs a c))%nat).
    { intros c Hc. subst can. rewrite forallb_forall in Ecan.
      specialize (Ecan c (proj1 (list_elem_of_In _ _) Hc)). apply negb_true_iff, Nat.leb_gt in Ecan. lia. }
    apply runs_bind. eapply runs_mono; [by apply (equal_round_ok m)|]. intros st' H'.
    destruct cur as [|c0 cur'] eqn:Ecur; [done|]. rewrite <- Ecur in *.
    destruct (ei_per _ _ _ H') as [L P]. pose proof (P 0%nat c0 ltac:(by rewrite Ecur)) as P0.
    rewrite (rd_ok _ _ _ P0), bind_ok, length_take, length_drop.
    assert (Hlt0 : (cnt c0 + m < length (set_idxs a c0))%nat) by (apply Hlt; rewrite Ecur; set_solver).
    change (0 <? 0)%nat with false. cbv iota. replace (S m `min` (length (set_idxs a c0) - cnt c0))%nat with (S m) by lia.
    assert (Hle' : forall c, c ∈ cur -> (cnt c + S m <= length (set_idxs a c))%nat).
    { intros c Hc. specialize (Hlt c Hc). lia. }
    destruct (Nat.ltb_spec n_ubatch ((S m + 1) * length cur)); apply runs_ok.
    + exists (S m). split; [lia|]. split; [|done].
      destruct Hm as [->|Hm]; [by left|right; lia].
    + split.
      * exists (S m). split; [by right|done].
      * destruct (ei_ex _ _ _ Hinv) as (u & k & cnt' & E & U & K & _).
        destruct (ei_ex _ _ _ H') as (u' & k' & cnt'' & E' & U' & K' & _).
        rewrite E, E'. simpl. pose proof (countb_le id u') as Hu'.
        rewrite <- (uc_num _ _ _ _ U'), (uc_len _ _ _ _ U') in Hu'.
        assert (0 < length cur)%nat by (rewrite Ecur; simpl; lia). lia.
  - apply runs_ok. exists m. destruct m as [|m].
    + exfalso. apply not_true_iff_false in Ecan. apply Ecan. subst can. apply forallb_forall.
      intros c Hc%list_elem_of_In. specialize (H0 c Hc). apply negb_true_iff, Nat.leb_gt. lia.
    + split; [lia|]. split; [right; lia|done].
Qed.
End expand.

(** *** One call of [split_equal] *)

(** The rows of token indices: the next [m] unused tokens of every set. *)
Definition rows (cnt : gset Z -> nat) (m : nat) (cur : list (gset Z)) : list (list nat) :=
  (fun c => take m (drop (cnt c) (set_idxs a c))) <$> cur.

Record equal_res (o : list nat) (k : nat) (cnt : gset Z -> nat) (n_ubatch : nat) (sequential : bool)
    (r : llama_batch_allocr * llama_ubatch) : Prop := {
  eq_ex : exists u' cnt' cur m,
    cur <> [] /\ NoDup cur /\ disjoint_sets cur /\ (length cur <= S n_ubatch)%nat /\
    (sequential = true -> chained cur) /\
    (1 <= m)%nat /\ (m = 1 \/ m * length cur <= n_ubatch)%nat /\
    (forall c, c ∈ cur -> (cnt c + m <= length (set_idxs a c))%nat) /\
    (forall c, cnt' c = if decide (c ∈ cur) then (cnt c + m)%nat else cnt c) /\
    used_cnt a u' (k + m * length cur) cnt' /\
    ubatch_of (at_split o (k + m * length cur) u') ps ns ss ls (concat (rows cnt m cur)) (length cur) true r
}.

Lemma elem_of_concat {A} (x : A) (l : list (list A)) : x ∈ concat l <-> exists r, r ∈ l /\ x ∈ r.
Proof.
  induction l as [|r l IH]; simpl; [set_solver|]. rewrite elem_of_app, IH. set_solver.
Qed.

Lemma length_rows cnt m cur :
  (forall c, c ∈ cur -> (cnt c + m <= length (set_idxs a c))%nat) ->
  length (concat (rows cnt m cur)) = (m * length cur)%nat.
Proof.
  induction cur as [|c cur IH]; intros H; simpl; [lia|]. rewrite length_app, IH by set_solver.
  rewrite length_take, length_drop. specialize (H c ltac:(set_solver)). lia.
Qed.

Lemma rows_lt cnt m cur i : i ∈ concat (rows cnt m cur) -> (i < n)%nat.
Proof.
  intros (r & Hr & Hi)%elem_of_concat. apply list_elem_of_fmap in Hr as (c & -> & Hc).
  apply elem_of_take in Hi as (j & Hj & _). rewrite lookup_drop in Hj. by eapply set_idxs_lt.
Qed.

Lemma picked_free u k cnt cur c :
  used_cnt a u k cnt -> picked u cur -> c ∈ cur -> (cnt c < length (set_idxs a c))%nat /\ c <> ∅.
Proof.
  intros U [_ P] Hc. destruct (P c Hc) as (i & Hi & Hu). split; [|by apply (sw_set _ _ _ SW i c)].
  destruct (proj1 (list_elem_of_lookup _ _) (sw_in _ _ _ SW i c Hi)) as [j Hj].
  rewrite (uc_at _ _ _ _ U c j i Hj) in Hu. injection Hu as Hu%bool_decide_eq_false.
  apply lookup_lt_Some in Hj. lia.
Qed.

Lemma picked_NoDup u k cnt cur : used_cnt a u k cnt -> picked u cur -> NoDup cur.
Proof.
  intros U P. apply NoDup_alt. intros s s' c H H'. destruct (decide (s = s')) as [|Hne]; [done|].
  pose proof (pk_disj _ _ P s s' c c H H' Hne) as E. rewrite intersection_idemp_L in E.
  destruct (picked_free u k cnt cur c U P); [by eapply list_elem_of_lookup_2|done].
Qed.

Lemma start_cursors_ok o u k cnt cur :
  used_cnt a u k cnt -> (forall c, c ∈ cur -> (cnt c < length (set_idxs a c))%nat) ->
  foldM (fun acc s =>
    c ← rd cur s; q ← skip_used (ba_used (at_split o k u)) (set_idxs (at_split o k u) c) 0; Ok (acc ++ [q]))
    [] (seq 0 (length cur)) = Ok (cnt <$> cur).
Proof.
  intros U H. apply runs_inv_eq. eapply runs_mono.
  { apply (runs_for (fun i acc => acc = cnt <$> take i cur)); [done|]. intros i acc Hi ->.
    destruct (lookup_lt_is_Some_2 cur i Hi) as [c Hc].
    rewrite (rd_ok _ _ _ Hc), bind_ok. change (ba_used (at_split o k u)) with u.
    change (set_idxs (at_split o k u)) with (set_idxs a).
    rewrite (skip_used_ok u _ 0 (cnt c)), bind_ok;
      [|by apply H; eapply list_elem_of_lookup_2|intros j i'; apply (uc_at _ _ _ _ U)].
    apply runs_ok. by rewrite Nat.add_1_r, (take_S_r _ _ _ Hc), fmap_app. }
  intros acc ->. by rewrite firstn_all.
Qed.

Lemma eq_inv_0 o u k cnt cur :
  used_cnt a u k cnt ->
  eq_inv o cur cnt k 0 0 (at_split o k u, cnt <$> cur, replicate (length cur) []).
Proof.
  intros U. split; simpl.
  - exists u, k, cnt. do 2 (split; [done|]). split; [lia|]. split; [|done]. intros; lia.
  - rewrite length_fmap. split; [done|]. intros s c Hc. rewrite list_lookup_fmap, Hc. simpl. f_equal. lia.
  - rewrite length_replicate. split; [done|]. intros s c Hc. apply lookup_lt_Some in Hc.
    by apply lookup_replicate.
Qed.

Lemma eq_inv_rows o k cnt cur m st : eq_inv o cur cnt k m 0 st -> st.2 = rows cnt m cur.
Proof.
  intros [_ _ [L P]]. apply list_eq. intros s. unfold rows. rewrite list_lookup_fmap.
  destruct (cur !! s) as [c|] eqn:E; [by apply P|]. apply lookup_ge_None_2. rewrite L.
  by apply lookup_ge_None_1.
Qed.

Lemma split_equal_ok o u k cnt n_ubatch sequential :
  used_cnt a u k cnt ->
  runs (split_equal (at_split o k u) n_ubatch sequential) (fun r =>
    (r = (at_split o k u, ubatch_empty) /\
     (sequential = true /\ has_cpl a = true \/ forall i, i < n -> u !! i = Some true)%nat) \/
    equal_res o k cnt n_ubatch sequential r).
Proof.
  intros U. unfold split_equal. change (has_cpl (at_split o k u)) with (has_cpl a).
  destruct (sequential && has_cpl a) eqn:Eseq.
  { apply runs_ok. left. split; [done|]. left. by apply andb_true_iff. }
  change (get_n_tokens (at_split o k u)) with n.
  apply runs_bind. eapply runs_mono; [apply pick_sets_ok, (uc_len _ _ _ _ U)|].
  intros r (P & Lc & Ch & Ne). cbv zeta. set (cur := match r with inl st => st.1 | inr cur => cur end) in *.
  clearbody cur. destruct (Nat.eqb_spec (length cur) 0) as [E0|E0].
  { apply runs_ok. left. split; [done|]. right. intros i Hi.
    destruct (lookup_lt_is_Some_2 u i) as [[] Hu]; [by rewrite (uc_len _ _ _ _ U)|done|].
    destruct Ne; [by exists i|]. by apply length_zero_iff_nil. }
  assert (Hne : cur <> []) by by intros ->.
  pose proof (picked_NoDup _ _ _ _ U P) as Hnd.
  assert (Hfree : forall c, c ∈ cur -> (cnt c < length (set_idxs a c))%nat).
  { intros c Hc. by eapply picked_free. }
  rewrite (start_cursors_ok o u k cnt cur U Hfree), bind_ok.
  apply runs_bind. eapply runs_mono.
  { apply (runs_loop (eq_cont o cur cnt k n_ubatch) (fun st => (n - n_used st.1.1)%nat)
      (eq_done o cur cnt k n_ubatch)).
    - intros st Hst. by apply equal_step_ok.
    - simpl. lia.
    - exists 0%nat. split; [by left|]. split; [by apply eq_inv_0|]. intros c Hc. specialize (Hfree c Hc). lia. }
  intros [[a' cidx] per] (m & Hm & Hm2 & Hinv & Hle).
  rewrite (eq_inv_rows _ _ _ _ _ _ Hinv : per = _). destruct (ei_ex _ _ _ _ _ _ _ Hinv) as (u' & k' & cnt' & E & U' & K & C1 & C2).
  simpl in E. subst a'. rewrite Nat.add_0_r in K. subst k'.
  eapply runs_mono.
  { apply (ubatch_add_ok (at_split o (k + m * length cur) u') ps ns ss ls).
    - apply balloc_wf_split; [done|]. rewrite (uc_len _ _ _ _ U'). symmetry. apply (bw_used _ _ _ _ _ W).
    - intros idx Hidx. by eapply rows_lt.
    - lia.
    - rewrite length_rows by done. by exists m. }
  intros r' Hr. right. split. exists u', cnt', cur, m.
  do 2 (split; [done|]). split; [apply (pk_disj _ _ P)|]. do 5 (split; [done|]).
  split; [|done]. intros c. case_decide as Hc; [|by apply C2].
  apply list_elem_of_lookup in Hc as [s Hs]. rewrite (C1 s c Hs). done.
Qed.

(** *** All calls *)

Lemma elem_of_rows u k cnt cur m i :
  used_cnt a u k cnt -> (i < n)%nat ->
  i ∈ concat (rows cnt m cur) <-> exists c j, c ∈ cur /\ set_idxs a c !! j = Some i /\ (cnt c <= j < cnt c + m)%nat.
Proof.
  intros U Hi. rewrite elem_of_concat. unfold rows. setoid_rewrite list_elem_of_fmap. split.
  - intros (r & (c & -> & Hc) & (j & Hj & Hlt)%elem_of_take). rewrite lookup_drop in Hj.
    exists c, (cnt c + j)%nat. split; [done|]. split; [done|lia].
  - intros (c & j & Hc & Hj & Hlt). eexists. split; [by eauto|].
    apply elem_of_take. exists (j - cnt c)%nat. rewrite lookup_drop. split; [|lia].
    by replace (cnt c + (j - cnt c))%nat with j by lia.
Qed.

Lemma NoDup_rows cnt m cur : NoDup cur -> NoDup (concat (rows cnt m cur)).
Proof.
  induction cur as [|c cur IH]; intros Hnd; simpl; [constructor|].
  apply list_relations.list.NoDup_cons in Hnd as [Hc Hnd]. apply list_relations.list.NoDup_app. split; [|split; [|by apply IH]].
  - eapply sublist_NoDup; [apply (sw_nd _ _ _ SW c)|]. etransitivity; [apply sublist_take|apply sublist_drop].
  - intros i (j & Hj & _)%elem_of_take (r & Hr & Hi)%elem_of_concat. rewrite lookup_drop in Hj.
    apply list_elem_of_fmap in Hr as (c' & -> & Hc').
    apply elem_of_take in Hi as (j' & Hj' & _). rewrite lookup_drop in Hj'.
    destruct (set_idxs_inj _ _ _ _ _ Hj Hj') as [-> _]. done.
Qed.

(** The tokens of a call are exactly those whose flag changes. *)
Lemma rows_used u k u' k' cnt cnt' cur m i :
  used_cnt a u k cnt -> used_cnt a u' k' cnt' ->
  (forall c, cnt' c = if decide (c ∈ cur) then (cnt c + m)%nat else cnt c) -> (i < n)%nat ->
  (u' !! i = Some true <-> u !! i = Some true \/ i ∈ concat (rows cnt m cur)) /\
  (u !! i = Some true -> i ∉ concat (rows cnt m cur)).
Proof.
  intros U U' Hc Hi. rewrite (elem_of_rows u k cnt cur m i U Hi).
  destruct (lookup_lt_is_Some_2 (seq_set a) i) as [c Hs]; [by rewrite (sw_len _ _ _ SW)|].
  destruct (proj1 (list_elem_of_lookup _ _) (sw_in _ _ _ SW i c Hs)) as [j Hj].
  rewrite (uc_at _ _ _ _ U c j i Hj), (uc_at _ _ _ _ U' c j i Hj), (Hc c).
  assert (Hex : (exists c0 j0, c0 ∈ cur /\ set_idxs a c0 !! j0 = Some i /\ (cnt c0 <= j0 < cnt c0 + m)%nat) <->
    c ∈ cur /\ (cnt c <= j < cnt c + m)%nat).
  { split; [|by intros [? ?]; exists c, j]. intros (c0 & j0 & H1 & H2 & H3).
    destruct (set_idxs_inj _ _ _ _ _ H2 Hj) as [-> ->]. done. }
  rewrite Hex. assert (Hb : forall b : bool, Some b = Some true <-> b = true) by (intros []; split; congruence).
  rewrite !Hb, !bool_decide_eq_true. case_decide as Hcc; (split; [|intros ? [_ ?]; lia]); split.
  - intros ?. destruct (decide (j < cnt c)%nat); [by left|right; split; [done|lia]].
  - intros [?|[_ ?]]; lia.
  - by left.
  - intros [?|[? _]]; done.
Qed.

(** The micro-batch [u] holds the tokens [idxs] of the batch. *)
Record holds (idxs : list nat) (u : llama_ubatch) : Prop := {
  ho_n    : ub_n_tokens u = length idxs;
  ho_rect : (ub_n_seq_tokens u * ub_n_seqs u)%nat = length idxs;
  ho_seq  : ub_seq_id u = seqs_of ns ss <$> idxs;
  ho_nseq : forall j i, idxs !! j = Some i -> ub_n_seq_id u !! j = ns !! i;
  ho_out  : forall j i, idxs !! j = Some i -> ub_output u !! j = ls !! i;
  ho_pos  : forall j i p, idxs !! j = Some i -> (p < n_pos_per_embd_ a)%nat ->
              ub_pos u !! (p * length idxs + j)%nat = ps !! (src_off (batch a) p + i)%nat;
  ho_tok  : forall ts j i, b_token (batch a) = Some ts -> idxs !! j = Some i ->
              exists l, ub_token u = Some l /\ l !! j = ts !! i;
  ho_npos : ub_n_pos u = n_pos_per_embd_ a /\ length (ub_pos u) = (length idxs * n_pos_per_embd_ a)%nat;
  ho_unq  : ub_seq_id_unq u = ids_below (list_to_set (mjoin (ub_seq_id u))) (n_seq_max a)
}.

Lemma ubatch_of_holds o k v idxs n_seqs equal r :
  ubatch_of (at_split o k v) ps ns ss ls idxs n_seqs equal r -> holds idxs r.2.
Proof.
  destruct r as [a' u]. intros (d & G & _ & _ & Hn & Hr & Hs & _ & Hnp & Ht & _ & Hp & Hns & Hq & Ho & Hu & _).
  destruct G as [[_ T] _ [Lp Q] [_ N] _ [_ O] _ _]. simpl in *. split.
  - done.
  - by rewrite Hs.
  - done.
  - intros j i Hj. rewrite Hns. apply N; [by eapply lookup_lt_Some|done].
  - intros j i Hj. rewrite Ho. apply O; [by eapply lookup_lt_Some|done].
  - intros j i p Hj Hpp. rewrite Hp. apply Q; [by eapply lookup_lt_Some|done|done].
  - intros ts j i Hts Hj. rewrite Hts in Ht. simpl in Ht. exists (d_token d). split; [done|].
    apply T; [done|by eapply lookup_lt_Some|done].
  - rewrite Hp. by split.
  - done.
Qed.

(** The micro-batch is made of rows of the same length, one for each of some pairwise
    disjoint sets of sequences: the tokens of a row have that set. *)
Record shaped (idxs : list nat) (u : llama_ubatch) : Prop := {
  sh_sets : exists cur, length cur = ub_n_seqs u /\ disjoint_sets cur /\
    forall s c j, cur !! s = Some c -> (j < ub_n_seq_tokens u)%nat ->
      exists i, idxs !! (s * ub_n_seq_tokens u + j)%nat = Some i /\ seq_set a !! i = Some c;
  sh_equal : b_equal_seqs u = true;
  sh_pos : (0 < ub_n_seqs u)%nat /\ (0 < ub_n_seq_tokens u)%nat
}.

Lemma concat_lookup {A} (rs : list (list A)) m s l j x :
  Forall (fun l => length l = m) rs -> rs !! s = Some l -> l !! j = Some x -> concat rs !! (s * m + j)%nat = Some x.
Proof.
  intros F. revert s. induction F as [|l0 rs Hl F IH]; intros [|s] Hs Hj; simplify_eq/=.
  - apply lookup_app_l_Some. done.
  - rewrite lookup_app_r by lia. rewrite <- (IH _ Hs Hj). f_equal. lia.
Qed.

Lemma rows_shaped cnt m cur u : cur <> [] -> disjoint_sets cur -> (1 <= m)%nat ->
  (forall c, c ∈ cur -> (cnt c + m <= length (set_idxs a c))%nat) ->
  ub_n_seqs u = length cur -> ub_n_seq_tokens u = m -> b_equal_seqs u = true -> shaped (concat (rows cnt m cur)) u.
Proof.
  intros Hne Hd Hm Hle En Em Eq. split; [|done|destruct cur; [done|rewrite En, Em; simpl; lia]].
  exists cur. split; [done|]. split; [done|]. rewrite Em. intros s c j Hs Hj.
  assert (Hc : c ∈ cur) by by eapply list_elem_of_lookup_2.
  destruct (lookup_lt_is_Some_2 (set_idxs a c) (cnt c + j)) as [i Hi]; [specialize (Hle c Hc); lia|].
  exists i. split; [|by eapply set_idxs_lt].
  apply (concat_lookup _ m s (take m (drop (cnt c) (set_idxs a c)))).
  - unfold rows. apply Forall_fmap, list.Forall_forall. intros c' Hc'. simpl. specialize (Hle c' Hc').
    rewrite length_take, length_drop. lia.
  - unfold rows. by rewrite list_lookup_fmap, Hs.
  - rewrite lookup_take_lt, lookup_drop by done. done.
Qed.

(** State of the loop: the tokens used so far, once each. *)
Definition equal_loop_inv (bound : nat) (st : llama_batch_allocr * list llama_ubatch) : Prop :=
  exists o u k cnt idxss, st.1 = at_split o k u /\ used_cnt a u k cnt /\
    Forall2 (fun l v => holds l v /\ shaped l v) idxss st.2 /\ NoDup (concat idxss) /\ (forall i, i ∈ concat idxss <-> u !! i = Some true) /\
    Forall (fun v => 1 <= ub_n_tokens v <= bound)%nat st.2.

Lemma concat_snoc {A} (l : list (list A)) x : concat (l ++ [x]) = concat l ++ x.
Proof. rewrite concat_app. simpl. by rewrite app_nil_r. Qed.

Lemma equal_body_ok n_ubatch sequential st :
  sequential && has_cpl a = false -> equal_loop_inv (S n_ubatch) st ->
  runs (split_body (fun b => split_equal b n_ubatch sequential) st) (fun r =>
    match r with
    | inl st' => equal_loop_inv (S n_ubatch) st' /\ (n - n_used st'.1 < n - n_used st.1)%nat
    | inr st' => equal_loop_inv (S n_ubatch) st' /\ n_used st'.1 = n
    end).
Proof.
  intros Hseq (o & u & k & cnt & idxss & E & U & F & Hnd & Hin & Hb). destruct st as [a1 ubs].
  simpl in E, F, Hb. subst a1. unfold split_body.
  apply runs_bind. eapply runs_mono; [by apply (split_equal_ok o u k cnt n_ubatch sequential)|].
  intros [a2 v] [[[= -> ->] H]|[(u' & cnt' & cur & m & Hne & Hcn & Hd & Hl & _ & Hm & Hm2 & Hle & Hc & U' & R)]].
  - simpl. split; [by exists o, u, k, cnt, idxss|]. simpl. destruct H as [[-> H]|H].
    { by rewrite H in Hseq. }
    rewrite (uc_num _ _ _ _ U), countb_all, (uc_len _ _ _ _ U); [done|]. intros i x Hx.
    apply lookup_lt_Some in Hx as Hlt. rewrite (uc_len _ _ _ _ U) in Hlt. specialize (H i Hlt).
    rewrite H in Hx. injection Hx as <-. done.
  - pose proof (ubatch_of_holds _ _ _ _ _ _ _ R) as Hh. simpl in Hh.
    pose proof (ho_n _ _ Hh) as Hn. rewrite length_rows in Hn by done.
    assert (0 < length cur)%nat by (destruct cur; [done|simpl; lia]).
    rewrite Hn. destruct (Nat.eqb_spec (m * length cur) 0) as [?|_]; [nia|]. apply runs_ok.
    assert (Hsh : shaped (concat (rows cnt m cur)) v).
    { destruct R as (d & _ & _ & Eq & _ & Er & En & _). rewrite length_rows in Er by done. apply rows_shaped; try done. nia. }
    destruct R as (d & _ & Ea & _). pose proof (countb_le id u') as Hcl.
    rewrite <- (uc_num _ _ _ _ U'), (uc_len _ _ _ _ U') in Hcl. split; [|rewrite Ea; simpl; nia].
    eexists _, u', (k + m * length cur)%nat, cnt', (idxss ++ [concat (rows cnt m cur)]).
    split; [exact Ea|]. split; [done|]. split; [apply Forall2_app; [done|by constructor; [|constructor]]|].
    assert (Hrow := fun i => rows_used u k u' _ cnt cnt' cur m i U U' Hc).
    rewrite concat_snoc. split.
    { apply list_relations.list.NoDup_app. split; [done|]. split; [|by apply NoDup_rows].
      intros i Hi. apply Hrow; [|by apply Hin].
      apply Hin in Hi. rewrite <- (uc_len _ _ _ _ U). by eapply lookup_lt_Some. }
    split.
    { intros i. rewrite elem_of_app, Hin. destruct (decide (i < n)%nat) as [Hi|Hi].
      - symmetry. by apply Hrow.
      - split; [intros [H2|H2]; exfalso|intros H2; exfalso]; apply Hi.
        + rewrite <- (uc_len _ _ _ _ U). by eapply lookup_lt_Some.
        + by eapply rows_lt.
        + rewrite <- (uc_len _ _ _ _ U'). by eapply lookup_lt_Some. }
    apply Forall_app. split; [done|]. apply Forall_singleton. rewrite Hn. nia.
Qed.

Lemma split_equal_all o n_ubatch sequential :
  sequential && has_cpl a = false ->
  runs (loop (n + 2) (split_body (fun b => split_equal b n_ubatch sequential))
          (at_split o 0 (replicate n false), []))
    (fun r => (exists o u, r.1 = at_split o n u) /\ exists idxss, Forall2 (fun l v => holds l v /\ shaped l v) idxss r.2 /\
       concat idxss ≡ₚ seq 0 n /\ Forall (fun v => 1 <= ub_n_tokens v <= S n_ubatch)%nat r.2).
Proof.
  intros Hseq. eapply runs_mono.
  { apply (runs_loop (equal_loop_inv (S n_ubatch)) (fun st => (n - n_used st.1)%nat)
      (fun st => equal_loop_inv (S n_ubatch) st /\ n_used st.1 = n)).
    - intros st Hst. by apply equal_body_ok.
    - simpl. lia.
    - exists o, (replicate n false), 0%nat, (fun _ => 0%nat), []. simpl. split; [done|]. split.
      + split; [apply length_replicate| |by rewrite countb_replicate].
        intros c j i H. rewrite lookup_replicate_2 by by eapply set_idxs_lt. done.
      + split; [constructor|]. split; [constructor|]. split; [|constructor].
        intros i. split; [set_solver|]. by intros [? _]%lookup_replicate. }
  intros [a' ubs] ((o' & u & k & cnt & idxss & E & U & F & Hnd & Hin & Hb) & Hn).
  simpl in *. subst a'. simpl in Hn. split; [exists o', u; by rewrite Hn|]. exists idxss. split; [done|]. split; [|done].
  apply NoDup_Permutation; [done|apply NoDup_seq|]. intros i. rewrite Hin, elem_of_seq. split.
  - intros H. apply lookup_lt_Some in H. rewrite (uc_len _ _ _ _ U) in H. lia.
  - intros [_ Hi]. destruct (lookup_lt_is_Some_2 u i) as [b Hbi]; [rewrite (uc_len _ _ _ _ U); lia|].
    destruct b; [done|]. pose proof (countb_lt id u i false Hbi eq_refl) as Hlt.
    rewrite <- (uc_num _ _ _ _ U), (uc_len _ _ _ _ U) in Hlt. lia.
Qed.
End equal.
