(* ===== verification/BatchInit.v ===== *)
(** What a successful [llama_batch_allocr::init] of src/llama/llama.cpp/src/llama-batch.cpp
    guarantees: the batch is complete and in range, the tables of sequence sets describe
    its tokens, and the positions of every sequence continue the memory without a gap.
    With that, the splitters distribute every token of an accepted batch exactly once. *)
From S2P Require Import Prelude Memory KvCells Batch BatchEqual.
Local Open Scope Z_scope.

(** ** Inversion of computations that succeed *)
Lemma runs_ok_inv {A} (m : res A) (P : A -> Prop) a : runs m P -> m = Ok a -> P a.
Proof. by intros H ->. Qed.

Ltac bind_inv H x Hx :=
  let E := fresh "E" in
  apply bind_ok_inv in H as (x & Hx & E); rename E into H.

(** A loop of checks that did not return early. *)
Lemma all_ok_inv f n i : all_ok f n = Ok true -> (i < n)%nat -> f i = Ok true.
Proof.
  unfold all_ok. intros H Hi. bind_inv H r Hr. destruct r as [?|b]; [clear H|].
  - assert (Hall : forall l, foldB (fun (_ : unit) i => ok ← f i; Ok (if (ok : bool) then inl tt else inr false)) tt l = Ok (inl u) ->
      forall x, x ∈ l -> f x = Ok true).
    { clear Hr. intros l. induction l as [|x l IH]; intros Hl y Hy; [by apply elem_of_nil in Hy|].
      simpl in Hl. apply bind_ok_inv in Hl as (r & Hf & Hl). apply bind_ok_inv in Hf as (b & Hf & [= <-]).
      destruct b; [|done]. apply elem_of_cons in Hy as [->|Hy]; [done|by apply IH]. }
    apply (Hall _ Hr). apply elem_of_seq. lia.
  - injection H as ->. exfalso. revert Hr. generalize (seq 0 n). intros l. induction l as [|x l IH]; simpl; [done|].
    intros Hl. apply bind_ok_inv in Hl as (r & Hf & Hl). apply bind_ok_inv in Hf as (b & Hf & [= <-]).
    destruct b; [by apply IH|done].
Qed.

(** ** The input *)
(** What a caller of [llama_decode] must provide: the arrays that are not null have an
    entry for every token, every token has a sequence, and positions may be left out for
    embeddings only with one position per embedding. *)
Record batch_input (n_pos n_embd : nat) (b : llama_batch) : Prop := {
  bi_tok  : forall ts, b_token b = Some ts -> (Z.to_nat (b_n_tokens b) <= length ts)%nat;
  bi_embd : forall es, b_embd b = Some es -> (Z.to_nat (b_n_tokens b) * n_embd <= length es)%nat;
  bi_pos  : (forall ps, b_pos b = Some ps ->
              (match b_token b with Some _ => 1 | None => n_pos end * Z.to_nat (b_n_tokens b) <= length ps)%nat) /\
            (b_pos b = None -> b_token b = None -> (n_pos <= 1)%nat);
  bi_nseq : forall ns, b_n_seq_id b = Some ns -> (Z.to_nat (b_n_tokens b) <= length ns)%nat /\
              forall i n, ns !! i = Some n -> 1 <= n;
  bi_seq  : forall ss, b_seq_id b = Some ss -> (Z.to_nat (b_n_tokens b) <= length ss)%nat;
  bi_log  : forall ls, b_logits b = Some ls -> (Z.to_nat (b_n_tokens b) <= length ls)%nat
}.

(** [seq_id[i][0 .. n)] read without a fault. *)
Lemma token_seqs_inv b i l : token_seqs b i = Ok l ->
  exists ns ss n row, b_n_seq_id b = Some ns /\ b_seq_id b = Some ss /\ ns !! i = Some n /\ ss !! i = Some row /\
    l = take (Z.to_nat n) row /\ (Z.to_nat n <= length row)%nat.
Proof.
  unfold token_seqs. intros H. bind_inv H ns H1. bind_inv H n H2. bind_inv H ss H3. bind_inv H row H4.
  unfold deref in *. destruct (b_n_seq_id b) as [ns'|]; [|done]. destruct (b_seq_id b) as [ss'|]; [|done].
  injection H1 as ->. injection H3 as ->. unfold rd in H2, H4.
  destruct (ns !! i) as [n'|] eqn:En; [|done]. destruct (ss !! i) as [row'|] eqn:Er; [|done].
  injection H2 as ->. injection H4 as ->. exists ns, ss, n, row. do 4 (split; [done|]).
  destruct (decide (Z.to_nat n <= length row)%nat) as [Hl|Hl].
  - pose proof (collect_ok row 0 (Z.to_nat n) ltac:(lia)) as C. cbn [Nat.add] in C.
    rewrite C, drop_0 in H. by injection H as <-.
  - exfalso. revert H. assert (Hf : forall acc k m, (k <= length row)%nat -> (length row < k + m)%nat ->
      foldM (fun acc s => x ← rd row s; Ok (acc ++ [x])) acc (seq k m) <> Ok l).
    { intros acc k m. revert acc k. induction m as [|m IH]; intros acc k Hk Hm; simpl; [lia|].
      assert (Er' : forall B (f : Z -> res B), rd row k ≫= f = match row !! k with Some x => f x | None => Fault OutOfRange end)
        by (intros; unfold rd; by destruct (row !! k)).
      rewrite Er'. destruct (row !! k) as [x|] eqn:Ex; [|done]. simpl. apply lookup_lt_Some in Ex. apply IH; lia. }
    apply (Hf [] 0%nat); lia.
Qed.

(** The batch after the generation of the sequence ids. *)
Lemma fill_seqs_ok n_pos n_embd b n_max :
  batch_input n_pos n_embd b -> (0 < n_max)%nat -> check_seq_ids b n_max = Ok true ->
  exists ns ss, b_n_seq_id (fill_seq_id (fill_n_seq_id b)) = Some ns /\
    b_seq_id (fill_seq_id (fill_n_seq_id b)) = Some ss /\
    (Z.to_nat (b_n_tokens b) <= length ns)%nat /\ (Z.to_nat (b_n_tokens b) <= length ss)%nat /\
    (forall i n, ns !! i = Some n -> 1 <= n) /\
    (b_seq_id b <> None -> forall i n row s, (i < Z.to_nat (b_n_tokens b))%nat -> ns !! i = Some n -> ss !! i = Some row ->
       (Z.to_nat n <= length row)%nat /\ (s ∈ take (Z.to_nat n) row -> 0 <= s < Z.of_nat n_max)) /\
    (b_seq_id b = None -> ss = replicate (Z.to_nat (b_n_tokens b)) [0]).
Proof.
  intros B Hmax Hc. unfold check_seq_ids in Hc.
  destruct (b_seq_id b) as [ss|] eqn:Es.
  - assert (Hrow : forall i, (i < Z.to_nat (b_n_tokens b))%nat -> exists ns n row, b_n_seq_id b = Some ns /\
      ns !! i = Some n /\ ss !! i = Some row /\ (Z.to_nat n <= length row)%nat /\
      forall s, s ∈ take (Z.to_nat n) row -> 0 <= s < Z.of_nat n_max).
    { intros i Hi. pose proof (all_ok_inv _ _ i Hc Hi) as Ht. bind_inv Ht l Hl.
      apply token_seqs_inv in Hl as (ns & ss' & n & row & E1 & E2 & E3 & E4 & -> & Hle). simplify_eq.
      exists ns, n, row. do 4 (split; [done|]). intros s Hs.
      pose proof (proj1 (forallb_forall _ _) Ht s (proj1 (list_elem_of_In _ _) Hs)) as Hb. simpl in Hb. lia. }
    unfold fill_n_seq_id, fill_seq_id. destruct (b_n_seq_id b) as [ns|] eqn:En.
    + rewrite Es. exists ns, ss. destruct (bi_nseq _ _ _ B ns En) as [B1 B2].
      split; [done|]. split; [done|]. split; [done|]. split; [by apply (bi_seq _ _ _ B)|]. split; [done|].
      split; [|done]. intros _ i n row s Hi Hn Hr. destruct (Hrow i Hi) as (ns' & n' & row' & E1 & E2 & E3 & E4 & E5).
      simplify_eq. split; [done|apply E5].
    + cbn. rewrite Es. exists (replicate (Z.to_nat (b_n_tokens b)) 1), ss.
      split; [done|]. split; [done|]. rewrite length_replicate. split; [done|]. split; [by apply (bi_seq _ _ _ B)|].
      split; [by intros i n [-> _]%lookup_replicate|]. split; [|done].
      intros _ i n row s Hi. destruct (Hrow i Hi) as (ns' & n' & row' & E1 & _). simplify_eq.
  - exists (match b_n_seq_id b with Some ns => ns | None => replicate (Z.to_nat (b_n_tokens b)) 1 end),
      (replicate (Z.to_nat (b_n_tokens b)) [0]).
    unfold fill_n_seq_id, fill_seq_id. destruct (b_n_seq_id b) as [ns|] eqn:En; cbn; rewrite ?Es; cbn;
      rewrite ?length_replicate; (split; [done|]); (split; [done|]).
    + destruct (bi_nseq _ _ _ B ns En) as [B1 B2]. repeat split; try done.
    + repeat split; try done. by intros i n [-> _]%lookup_replicate.
Qed.

(** The fields that the generation of positions and of output flags leaves alone. *)
Definition same_input (b b' : llama_batch) : Prop :=
  b_n_tokens b' = b_n_tokens b /\ b_token b' = b_token b /\ b_embd b' = b_embd b /\
  b_n_seq_id b' = b_n_seq_id b /\ b_seq_id b' = b_seq_id b.

Section init.
Context {M : Type} `{LlamaMemory M}.

Lemma fill_pos_inv b (memory : option M) n_max b' :
  fill_pos b memory n_max = Ok b' ->
  same_input b b' /\ b_logits b' = b_logits b /\
  exists ps, b_pos b' = Some ps /\
    (b_pos b = Some ps \/ b_pos b = None /\ length ps = Z.to_nat (b_n_tokens b)).
Proof.
  unfold fill_pos. destruct (b_pos b) as [ps|] eqn:Ep.
  - intros [= <-]. split; [done|]. split; [done|]. exists ps. by split; [|left].
  - intros E. bind_inv E p0 H0. bind_inv E st Hst. injection E as <-. split; [done|]. split; [done|].
    exists st.2. split; [done|]. right. split; [done|].
    apply (foldM_seq_inv (fun i st => length st.2 = i) (assign_pos b) (Z.to_nat (b_n_tokens b)) (p0, []) st); [done| |done].
    intros i [q pos] s' Hi IH Hs. unfold assign_pos in Hs. bind_inv Hs s0 E0. bind_inv Hs k E1. bind_inv Hs p E2.
    bind_inv Hs l E3. bind_inv Hs q' E4. injection Hs as <-. simpl in *. rewrite length_app. simpl. lia.
Qed.

Lemma fill_logits_inv b output_all b' :
  fill_logits b output_all = Ok b' ->
  same_input b b' /\ b_pos b' = b_pos b /\
  exists ls, b_logits b' = Some ls /\ (b_logits b = Some ls \/ length ls = Z.to_nat (b_n_tokens b)).
Proof.
  unfold fill_logits. destruct (b_logits b) as [ls|] eqn:El.
  - destruct output_all.
    + intros E. bind_inv E w Hw. destruct w; injection E as <-; (split; [done|]); (split; [done|]).
      * eexists. split; [done|]. right. apply length_replicate.
      * exists ls. by split; [|left].
    + intros [= <-]. split; [done|]. split; [done|]. exists ls. by split; [|left].
  - destruct output_all.
    + intros [= <-]. split; [done|]. split; [done|]. eexists. split; [done|]. right. apply length_replicate.
    + intros E. bind_inv E l Hl. injection E as <-. split; [done|]. split; [done|]. exists l. split; [done|]. right.
      unfold wr in Hl. destruct (decide _); [|done]. injection Hl as <-. by rewrite length_insert, length_replicate.
Qed.

(** ** The sequence sets *)
Section sets.
Context (b : llama_batch) (ns : list Z) (ss : list (list Z)).
Abbreviation n := (Z.to_nat (b_n_tokens b)).
Context (Hseqs : forall i, (i < n)%nat -> token_seqs b i = Ok (seqs_of ns ss i) /\
  forall s, s ∈ seqs_of ns ss i -> 0 <= s < Z.of_nat LLAMA_MAX_SEQ).

Definition set_of (i : nat) : gset Z := list_to_set (seqs_of ns ss i).

(** The tables after [i] tokens. *)
Definition sets_upto (i : nat) (st : list (gset Z) * gmap (gset Z) (list nat) * gset Z) : Prop :=
  st.1.1 = set_of <$> seq 0 i /\
  forall c, default [] (st.1.2 !! c) = filter (fun j => set_of j = c) (seq 0 i).

Lemma bits_ok l cur unq :
  (forall s, s ∈ l -> 0 <= s < Z.of_nat LLAMA_MAX_SEQ) ->
  exists unq', foldM (fun '(cur, unq) s => cur' ← bit_set cur s; unq' ← bit_set unq s; Ok (cur', unq')) (cur, unq) l =
    Ok (cur ∪ list_to_set l, unq').
Proof.
  revert cur unq. induction l as [|s l IH]; intros cur unq Hl; simpl.
  { exists unq. by rewrite union_empty_r_L. }
  rewrite !bit_set_ok by (apply Hl; set_solver). simpl.
  destruct (IH ({[s]} ∪ cur) ({[s]} ∪ unq)) as (u & E); [set_solver|]. exists u. rewrite E. do 2 f_equal. set_solver.
Qed.

Lemma sets_ok :
  runs (foldM (sets_token b) ([], ∅, ∅) (seq 0 n)) (sets_upto n).
Proof.
  apply (runs_for sets_upto).
  - split; [done|]. intros c. simpl. by rewrite lookup_empty.
  - intros i [[ss' sm] unq] Hi [H1 H2]. unfold sets_token. destruct (Hseqs i Hi) as [-> Hr]. rewrite bind_ok.
    destruct (bits_ok (seqs_of ns ss i) ∅ unq Hr) as (u & E). rewrite E, bind_ok. apply runs_ok.
    assert (E0 : ∅ ∪ list_to_set (seqs_of ns ss i) = set_of i) by (unfold set_of; set_solver).
    rewrite E0. simpl in *. unfold sets_upto. rewrite Nat.add_1_r, seq_S. split; simpl.
    + by rewrite H1, fmap_app.
    + intros c. rewrite list.filter_app, <- H2. destruct (decide (c = set_of i)) as [->|Hne].
      * rewrite lookup_insert_eq. simpl. f_equal. by rewrite (list.filter_cons_True (fun j => set_of j = set_of i)).
      * rewrite lookup_insert_ne by done. rewrite (list.filter_cons_False (fun j => set_of j = c)) by done. by rewrite app_nil_r.
Qed.
End sets.

(** ** The positions of the sequences *)
Section positions.
Context (b : llama_batch) (ps ns : list Z) (ss : list (list Z)).
Abbreviation n := (Z.to_nat (b_n_tokens b)).
Context (Hps : b_pos b = Some ps) (Hseqs : forall i, (i < n)%nat -> token_seqs b i = Ok (seqs_of ns ss i)).

(** [sp] holds, for every sequence, the positions of its tokens among the first [i]. *)
Definition pos_upto (i : nat) (sp : list (gset Z)) : Prop :=
  length sp = LLAMA_MAX_SEQ /\
  forall s u, sp !! s = Some u -> forall p, p ∈ u <->
    exists j, (j < i)%nat /\ Z.of_nat s ∈ seqs_of ns ss j /\ ps !! j = Some p.

Lemma couple_token_inv i st st' :
  (i < n)%nat -> couple_token b st i = Ok st' -> pos_upto i st.1.2 -> pos_upto (S i) st'.1.2.
Proof.
  intros Hi E [L0 H0]. unfold couple_token in E. bind_inv E s0 E0. rewrite (Hseqs i Hi), bind_ok in E.
  rewrite Hps in E. simpl in E.
  set (I k (st : bool * list (gset Z) * list (list bool)) := length st.1.2 = LLAMA_MAX_SEQ /\
    forall s u, st.1.2 !! s = Some u -> forall p, p ∈ u <->
      (exists j, (j < i)%nat /\ Z.of_nat s ∈ seqs_of ns ss j /\ ps !! j = Some p) \/
      (Z.of_nat s ∈ take k (seqs_of ns ss i) /\ ps !! i = Some p)).
  assert (HI : I (length (seqs_of ns ss i)) st').
  { refine (foldM_seq_inv I _ _ st st' _ _ E).
    - split; [done|]. intros s u Hu p. rewrite (H0 s u Hu p), take_0. set_solver.
    - intros k [[hc sp] sc] s' Hk [L1 H1] Hf. rewrite Nat.add_1_r. bind_inv Hf s1 F1. bind_inv Hf k1 F2. bind_inv Hf u1 F3.
      bind_inv Hf p1 F4. bind_inv Hf sp' F5. unfold rd in F1, F3, F4.
      destruct (seqs_of ns ss i !! k) as [x|] eqn:Ex; [|done]. injection F1 as ->.
      destruct (sp !! k1) as [u'|] eqn:Eu; [|done]. injection F3 as ->.
      destruct (ps !! i) as [q|] eqn:Eq; [|done]. injection F4 as ->.
      unfold zidx in F2. destruct (Z.leb_spec 0 s1); [|done]. injection F2 as <-.
      unfold wr in F5. destruct (decide _) as [Hlt|]; [|done]. injection F5 as <-.
      assert (Es' : s'.1.2 = <[Z.to_nat s1 := {[p1]} ∪ u1]> sp).
      { destruct (0 <? k)%nat; [|by injection Hf as <-].
        bind_inv Hf row G1. bind_inv Hf k0 G2. bind_inv Hf row' G3. bind_inv Hf sc' G4. by injection Hf as <-. }
      unfold I. rewrite Es', length_insert. split; [done|]. intros s u Hu p. simpl in H1, L1.
      rewrite (take_S_r _ _ _ Ex), elem_of_app, list_elem_of_singleton.
      destruct (decide (s = Z.to_nat s1)) as [->|Hne].
      + rewrite list_lookup_insert_eq in Hu by done. injection Hu as <-.
        rewrite elem_of_union, elem_of_singleton, (H1 _ u1 Eu), Z2Nat.id by done.
        split; [intros [->|[?|[? ?]]]; tauto|intros [?|[[?| ?] [= ->]]]; tauto].
      + rewrite list_lookup_insert_ne in Hu by done. rewrite (H1 s u Hu p).
        assert (Z.of_nat s <> s1) by (intros <-; by rewrite Nat2Z.id in Hne). tauto. }
  destruct HI as [L1 H1]. split; [done|]. intros s u Hu p. rewrite (H1 s u Hu p), firstn_all. split.
  - intros [(j & Hj & ?)|?]; [exists j; split; [lia|done]|exists i; split; [lia|done]].
  - intros (j & Hj & ?). destruct (decide (j = i)) as [->|]; [by right|left]. exists j. split; [lia|done].
Qed.

Lemma couple_all_inv hc sp sc st' :
  length sp = LLAMA_MAX_SEQ -> (forall s u, sp !! s = Some u -> u = ∅) ->
  foldM (couple_token b) (hc, sp, sc) (seq 0 n) = Ok st' -> pos_upto n st'.1.2.
Proof.
  intros L H0 E. refine (foldM_seq_inv (fun i st => pos_upto i st.1.2) _ _ _ _ _ _ E).
  - split; [done|]. intros s u Hu p. rewrite (H0 s u Hu). split; [set_solver|]. intros (j & Hj & _). lia.
  - intros i s s' Hi Hs Hf. rewrite Nat.add_1_r. by eapply couple_token_inv.
Qed.
End positions.

(** ** A successful init *)
(** The allocator [a] after the batch [b] was accepted. *)
Record accepted (b : llama_batch) (n_embd n_max : nat) (ps ns : list Z) (ss : list (list Z)) (ls : list Z)
    (a : llama_batch_allocr) : Prop := {
  ac_in   : b_n_tokens (batch a) = b_n_tokens b /\ b_token (batch a) = b_token b /\ b_embd (batch a) = b_embd b;
  ac_wf   : balloc_wf a ps ns ss ls;
  ac_sets : sets_wf a ns ss;
  ac_new  : a = at_split a [] 0 (replicate (get_n_tokens a) false);
  ac_max  : n_seq_max a = n_max /\ ba_n_embd a = n_embd;
  ac_pos  : pos_upto ps ns ss (get_n_tokens a) (ba_seq_pos a)
}.

Lemma seqs_range b ns ss n_max i :
  b_n_seq_id b = Some ns -> b_seq_id b = Some ss ->
  (forall n row, ns !! i = Some n -> ss !! i = Some row -> (Z.to_nat n <= length row)%nat /\
     forall s, s ∈ take (Z.to_nat n) row -> 0 <= s < Z.of_nat n_max) ->
  (i < length ns)%nat -> (i < length ss)%nat -> (n_max <= LLAMA_MAX_SEQ)%nat ->
  token_seqs b i = Ok (seqs_of ns ss i) /\ forall s, s ∈ seqs_of ns ss i -> 0 <= s < Z.of_nat LLAMA_MAX_SEQ.
Proof.
  intros En Es Hrow Hn Hs Hmax.
  destruct (lookup_lt_is_Some_2 ns i Hn) as [n Hni], (lookup_lt_is_Some_2 ss i Hs) as [row Hri].
  destruct (Hrow n row Hni Hri) as [Hl Hr]. unfold token_seqs, seqs_of. rewrite En, Es, Hni, Hri.
  rewrite bind_deref, (rd_ok _ _ _ Hni), bind_ok, bind_deref, (rd_ok _ _ _ Hri), bind_ok. split.
  - pose proof (collect_ok row 0 (Z.to_nat n) ltac:(lia)) as C. cbn [Nat.add] in C. by rewrite C, drop_0.
  - intros s H1. specialize (Hr s H1). lia.
Qed.

Lemma sets_upto_wf a ns ss unq :
  (forall i, (i < get_n_tokens a)%nat -> seqs_of ns ss i <> []) ->
  sets_upto ns ss (get_n_tokens a) (seq_set a, seq_set_map a, unq) -> sets_wf a ns ss.
Proof.
  intros Hne [H1 H2]. simpl in *.
  assert (Hmap : forall c, set_idxs a c = filter (fun j => set_of ns ss j = c) (seq 0 (get_n_tokens a))).
  { intros c. unfold set_idxs. apply H2. }
  assert (Hset : forall i c, seq_set a !! i = Some c <-> (i < get_n_tokens a)%nat /\ c = set_of ns ss i).
  { intros i c. rewrite H1, list_lookup_fmap. split.
    - intros (j & Hj & ->)%fmap_Some. apply lookup_seq in Hj as [-> ?]. done.
    - intros [Hi ->]. rewrite lookup_seq_lt by done. done. }
  split.
  - by rewrite H1, length_fmap, length_seq.
  - intros i c [Hi ->]%Hset. split; [|done]. intros E. specialize (Hne i Hi). unfold set_of in E.
    destruct (seqs_of ns ss i) as [|x l]; [done|]. assert (x ∈ (∅ : gset Z)) by (rewrite <- E; set_solver). set_solver.
  - intros c i. rewrite Hmap, list_elem_of_filter, elem_of_seq. intros [<- Hi]. apply Hset. split; [lia|done].
  - intros i c [Hi ->]%Hset. rewrite Hmap, list_elem_of_filter, elem_of_seq. split; [done|lia].
  - intros c. rewrite Hmap. apply list.NoDup_filter, NoDup_seq.
Qed.

(** The sequences of the completed batch are readable and in range, one at least per token. *)
Lemma filled_seqs n_pos n_embd b n_max ns ss :
  batch_input n_pos n_embd b -> (0 < n_max <= LLAMA_MAX_SEQ)%nat -> check_seq_ids b n_max = Ok true ->
  b_n_seq_id (fill_seq_id (fill_n_seq_id b)) = Some ns -> b_seq_id (fill_seq_id (fill_n_seq_id b)) = Some ss ->
  (forall i, (i < Z.to_nat (b_n_tokens b))%nat -> exists l, token_seqs (fill_seq_id (fill_n_seq_id b)) i = Ok l) ->
  (Z.to_nat (b_n_tokens b) <= length ns)%nat /\ (Z.to_nat (b_n_tokens b) <= length ss)%nat /\
  forall i n row, (i < Z.to_nat (b_n_tokens b))%nat -> ns !! i = Some n -> ss !! i = Some row ->
    1 <= n /\ (Z.to_nat n <= length row)%nat /\ forall s, s ∈ take (Z.to_nat n) row -> 0 <= s < Z.of_nat n_max.
Proof.
  intros B [Hm _] Hc En Es Hread.
  destruct (fill_seqs_ok n_pos n_embd b n_max B Hm Hc) as (ns' & ss' & En' & Es' & L1 & L2 & H1 & Hsome & Hnone).
  rewrite En in En'. rewrite Es in Es'. injection En' as <-. injection Es' as <-.
  split; [done|]. split; [done|]. intros i n row Hi Hn Hr. split; [by eapply H1|].
  destruct (b_seq_id b) as [s0|] eqn:E0.
  - split; [by apply (Hsome ltac:(done) i n row 0)|]. intros s Hs. by apply (Hsome ltac:(done) i n row s).
  - rewrite (Hnone eq_refl) in Hr. apply lookup_replicate in Hr as [-> _].
    destruct (Hread i Hi) as [l Hl]. apply token_seqs_inv in Hl as (ns2 & ss2 & n2 & row2 & F1 & F2 & F3 & F4 & -> & Hle).
    rewrite En in F1. rewrite Es in F2. simplify_eq. rewrite (Hnone eq_refl) in F4. apply lookup_replicate in F4 as [-> _].
    split; [done|]. simpl in Hle. intros s Hs%elem_of_take. destruct Hs as (k & Hk & _).
    destruct k; [|done]. injection Hk as <-. lia.
Qed.

Lemma token_seqs_same b b' i : b_n_seq_id b' = b_n_seq_id b -> b_seq_id b' = b_seq_id b -> token_seqs b' i = token_seqs b i.
Proof. intros E1 E2. unfold token_seqs. by rewrite E1, E2. Qed.

(** Every iteration of a loop that succeeded succeeds on its own. *)
Lemma foldM_each {S A} (f : S -> A -> res S) (Q : A -> Prop) l s s' :
  (forall s x s', f s x = Ok s' -> Q x) -> foldM f s l = Ok s' -> forall x, x ∈ l -> Q x.
Proof.
  intros Hf. revert s. induction l as [|y l IH]; intros s E x Hx; [by apply elem_of_nil in Hx|].
  simpl in E. bind_inv E s1 E1. apply elem_of_cons in Hx as [->|Hx]; [by eapply Hf|by eapply IH].
Qed.

(** The stages of a successful [init]. *)
Lemma balloc_init_stages a b n_vocab (memory : option M) n_embd n_max output_all a' :
  balloc_init a b n_vocab memory n_embd n_max output_all = Ok (a', true) ->
  exists b2 b3 n_out hc sp sc ss_ sm unq ids a5,
    0 < b_n_tokens b /\ (n_max <= LLAMA_MAX_SEQ)%nat /\ check_seq_ids b n_max = Ok true /\
    fill_pos (fill_seq_id (fill_n_seq_id b)) memory n_max = Ok b2 /\ fill_logits b2 output_all = Ok b3 /\
    foldM (couple_token b3) (false, map (fun _ => ∅) (ba_seq_pos a), map (map (fun _ => false)) (seq_cpl a))
      (seq 0 (Z.to_nat (b_n_tokens b3))) = Ok (hc, sp, sc) /\
    foldM (sets_token b3) ([], ∅, ∅) (seq 0 (Z.to_nat (b_n_tokens b3))) = Ok (ss_, sm, unq) /\
    a5 = with_unq ids.1 ids.2 (with_sets ss_ sm (with_cpl hc sp sc (with_dims n_embd n_max n_out
           (with_batch b3 (with_batch b (balloc_clear a)))))) /\
    check_positions a5 memory n_max = Ok true /\ a' = split_reset a5.
Proof.
  unfold balloc_init. intros E. unfold assert_ in E.
  destruct (b_n_tokens b >? 0) eqn:En; [|discriminate E]. rewrite bind_ok in E.
  destruct (LLAMA_MAX_SEQ <? n_max)%nat eqn:Emax; [discriminate E|].
  bind_inv E ok1 E1. destruct ok1; [|discriminate E]. cbn [negb] in E.
  bind_inv E ok2 E2. destruct ok2; [|discriminate E]. cbn [negb] in E.
  bind_inv E b2 E3. bind_inv E b3 E4. bind_inv E n_out E5.
  bind_inv E cpl E6. destruct cpl as [[hc sp] sc]. bind_inv E sets E7. destruct sets as [[ss_ sm] unq].
  bind_inv E ids E8. bind_inv E ok3 E9. destruct ok3; [|discriminate E]. cbn [negb] in E.
  bind_inv E ok4 E10. destruct ok4; [|discriminate E]. cbn [negb] in E.
  bind_inv E ok5 E11. destruct ok5; [|discriminate E]. cbn [negb] in E. injection E as <-.
  exists b2, b3, n_out, hc, sp, sc, ss_, sm, unq, ids. eexists.
  split; [lia|]. split; [by apply Nat.ltb_ge|]. repeat (split; [done|]). done.
Qed.

(** The checks of the positions do not look at the state of the splitter. *)
Lemma check_positions_reset a (memory : option M) n_max :
  check_positions (split_reset a) memory n_max = check_positions a memory n_max.
Proof. by destruct a. Qed.

Lemma balloc_init_ok a b n_vocab (memory : option M) n_embd n_max output_all a' :
  batch_input (n_pos_per_embd_ a) n_embd b -> (0 < n_max)%nat -> length (ba_seq_pos a) = LLAMA_MAX_SEQ ->
  balloc_init a b n_vocab memory n_embd n_max output_all = Ok (a', true) ->
  (exists ps ns ss ls, accepted b n_embd n_max ps ns ss ls a') /\
  n_pos_per_embd_ a' = n_pos_per_embd_ a /\ check_positions a' memory n_max = Ok true.
Proof.
  intros B Hm Hsp E.
  destruct (balloc_init_stages _ _ _ _ _ _ _ _ E) as (b2 & b3 & n_out & hc & sp & sc & ss_ & sm & unq & ids & a5 &
    Hn & Hmax & Hc & Hpos & Hlog & Hcpl & Hsets & Ea5 & Hchk & ->). clear E.
  destruct (fill_seqs_ok _ _ b n_max B Hm Hc) as (ns & ss & En & Es & _).
  destruct (fill_pos_inv _ _ _ _ Hpos) as ((P1 & P2 & P3 & P4 & P5) & PL & ps & Eps & Hps).
  destruct (fill_logits_inv _ _ _ Hlog) as ((Q1 & Q2 & Q3 & Q4 & Q5) & QP & ls & Els & Hls).
  assert (F : b_n_tokens (fill_seq_id (fill_n_seq_id b)) = b_n_tokens b /\ b_token (fill_seq_id (fill_n_seq_id b)) = b_token b /\
    b_embd (fill_seq_id (fill_n_seq_id b)) = b_embd b /\ b_pos (fill_seq_id (fill_n_seq_id b)) = b_pos b /\
    b_logits (fill_seq_id (fill_n_seq_id b)) = b_logits b).
  { unfold fill_seq_id, fill_n_seq_id. destruct (b_n_seq_id b), (b_seq_id b) eqn:Eb; cbn; rewrite ?Eb; done. }
  destruct F as (F1 & F2 & F3 & F4 & F5).
  assert (N3 : b_n_tokens b3 = b_n_tokens b) by congruence. rewrite N3 in Hcpl, Hsets.
  assert (Hns3 : b_n_seq_id b3 = Some ns) by congruence. assert (Hss3 : b_seq_id b3 = Some ss) by congruence.
  destruct (filled_seqs _ _ b n_max ns ss B (conj Hm Hmax) Hc En Es) as (L1 & L2 & Hrow).
  { intros i Hi. rewrite <- (token_seqs_same _ b3 i) by congruence.
    eapply (foldM_each (sets_token b3) (fun i => exists l, token_seqs b3 i = Ok l)); [|exact Hsets|apply elem_of_seq; lia].
    intros [[? ?] ?] x s' Hf. unfold sets_token in Hf. bind_inv Hf sq Hsq. by exists sq. }
  assert (Hseqs : forall i, (i < Z.to_nat (b_n_tokens b3))%nat -> token_seqs b3 i = Ok (seqs_of ns ss i) /\
      forall s, s ∈ seqs_of ns ss i -> 0 <= s < Z.of_nat LLAMA_MAX_SEQ).
  { intros i Hi. rewrite N3 in Hi. apply (seqs_range b3 ns ss n_max i); try done; [|lia|lia].
    intros n row H1 H2. split; by apply (Hrow i n row). }
  assert (Gn : get_n_tokens (split_reset a5) = Z.to_nat (b_n_tokens b)) by (subst a5; unfold get_n_tokens; simpl; by rewrite N3).
  split; [|split; [by subst a5|]].
  2:{ by rewrite check_positions_reset. }
  exists ps, ns, ss, ls. split.
  - subst a5. simpl. repeat split; congruence.
  - assert (G2 : get_n_tokens a5 = Z.to_nat (b_n_tokens b)) by (subst a5; unfold get_n_tokens; simpl; by rewrite N3).
    split; rewrite ?Gn.
    + subst a5. simpl. lia.
    + subst a5. simpl. intros ts Hts. apply (bi_tok _ _ _ B). congruence.
    + subst a5. simpl. intros es Hes. apply (bi_embd _ _ _ B). congruence.
    + subst a5. simpl. split; [congruence|]. destruct (bi_pos _ _ _ B) as [B1 B2].
      unfold pos_len, get_n_tokens. simpl. rewrite N3, Q2, P2, F2. destruct Hps as [Hp|[Hp Hlen]].
      * rewrite F4 in Hp. specialize (B1 ps Hp). destruct (b_token b); lia.
      * rewrite F4 in Hp. rewrite F1 in Hlen. destruct (b_token b); [lia|]. specialize (B2 Hp eq_refl). nia.
    + subst a5. simpl. split; [done|lia].
    + subst a5. simpl. split; [done|lia].
    + subst a5. simpl. split; [done|]. destruct Hls as [Hl|Hl]; [|rewrite P1, F1 in Hl; lia].
      apply (bi_log _ _ _ B). congruence.
    + subst a5. simpl. done.
    + intros i n row Hi H1 H2. destruct (Hrow i n row Hi H1 H2) as (_ & R2 & R3). subst a5. simpl. done.
    + simpl. rewrite length_replicate. by rewrite G2.
  - apply (sets_upto_wf _ ns ss unq).
    + rewrite Gn. intros i Hi. destruct (lookup_lt_is_Some_2 ns i) as [n Hni]; [lia|].
      destruct (lookup_lt_is_Some_2 ss i) as [row Hri]; [lia|]. destruct (Hrow i n row Hi Hni Hri) as (R1 & R2 & _).
      unfold seqs_of. rewrite Hni, Hri. intros R3. apply (f_equal length) in R3. rewrite length_take in R3. simpl in R3. lia.
    + rewrite Gn, <- N3. rewrite <- N3 in Hsets.
      pose proof (runs_ok_inv _ _ _ (sets_ok b3 ns ss Hseqs) Hsets) as S. by subst a5.
  - subst a5. unfold at_split, split_reset, get_n_tokens. by destruct a.
  - by subst a5.
  - rewrite Gn, <- N3. subst a5. simpl. rewrite <- N3 in Hcpl.
    refine (couple_all_inv b3 ps ns ss _ _ _ _ _ (hc, sp, sc) _ _ Hcpl).
    + congruence.
    + intros i Hi. by apply Hseqs.
    + by rewrite length_map.
    + intros s u Hu. apply list_lookup_fmap_Some in Hu as (? & ? & ?). done.
Qed.

(** ** Positions continue the memory *)
Lemma zset_min_spec (u : gset Z) : u <> ∅ ->
  exists m, zset_min u = Some m /\ m ∈ u /\ forall p, p ∈ u -> m <= p.
Proof.
  intros Hne. unfold zset_min. destruct (elements u) as [|x l] eqn:E.
  { destruct Hne. by apply elements_empty_inv, leibniz_equiv in E. }
  exists (foldr Z.min x l). destruct (foldr_min_spec x l) as [H1 H2]. rewrite <- E in H1, H2.
  split; [done|]. split; [by apply elem_of_elements|]. intros p Hp. by apply H2, elem_of_elements.
Qed.

Lemma zset_max_spec (u : gset Z) : u <> ∅ ->
  exists m, zset_max u = Some m /\ m ∈ u /\ forall p, p ∈ u -> p <= m.
Proof.
  intros Hne. unfold zset_max. destruct (elements u) as [|x l] eqn:E.
  { destruct Hne. by apply elements_empty_inv, leibniz_equiv in E. }
  exists (foldr Z.max x l). destruct (foldr_max_spec x l) as [H1 H2]. rewrite <- E in H1, H2.
  split; [done|]. split; [by apply elem_of_elements|]. intros p Hp. by apply H2, elem_of_elements.
Qed.

(** A set of at least [hi - lo + 1] numbers between [lo] and [hi] holds all of them. *)
Lemma full_interval (u : gset Z) lo hi :
  (forall p, p ∈ u -> lo <= p <= hi) -> hi - lo + 1 <= Z.of_nat (size u) -> forall p, lo <= p <= hi -> p ∈ u.
Proof.
  intros Hin Hsz p Hp. set (v := list_to_set (seqZ lo (hi - lo + 1)) : gset Z).
  assert (Hv : forall q, q ∈ v <-> lo <= q <= hi).
  { intros q. unfold v. rewrite elem_of_list_to_set, elem_of_seqZ. lia. }
  assert (Hsv : size v = Z.to_nat (hi - lo + 1)).
  { unfold v. rewrite size_list_to_set by apply NoDup_seqZ. apply length_seqZ. }
  assert (E : u = v).
  { apply set_subseteq_size_eq; [|lia]. intros q Hq. by apply Hv, Hin. }
  rewrite E. by apply Hv.
Qed.

(** The positions of sequence [s] in the batch. *)
Definition batch_positions (ps ns : list Z) (ss : list (list Z)) (n : nat) (s : nat) (p : Z) : Prop :=
  exists j, (j < n)%nat /\ Z.of_nat s ∈ seqs_of ns ss j /\ ps !! j = Some p.

Lemma check_pos_seq_inv a mem s ps ns ss :
  pos_upto ps ns ss (get_n_tokens a) (ba_seq_pos a) -> check_pos_seq a (Some mem) s = Ok true ->
  (exists p, batch_positions ps ns ss (get_n_tokens a) s p) ->
  exists hi lo up, mem_seq_pos_max mem (Z.of_nat s) = Ok hi /\ (0 <= hi -> lo = hi + 1) /\
    forall p, batch_positions ps ns ss (get_n_tokens a) s p <-> lo <= p <= up.
Proof.
  intros [_ H0] E Hex. unfold check_pos_seq in E. bind_inv E u Eu. unfold rd in Eu.
  destruct (ba_seq_pos a !! s) as [u'|] eqn:Es; [|done]. injection Eu as ->.
  assert (Hu : forall p, p ∈ u <-> batch_positions ps ns ss (get_n_tokens a) s p) by exact (H0 s u Es).
  assert (Hne : u <> ∅) by (destruct Hex as [p Hp%Hu]; set_solver).
  rewrite bool_decide_false in E by done. bind_inv E hi Ehi.
  destruct (zset_min_spec u Hne) as (lo & Elo & L1 & L2), (zset_max_spec u Hne) as (up & Eup & U1 & U2).
  unfold balloc_seq_pos_min, balloc_seq_pos_max in E. rewrite !(rd_ok _ _ _ Es), !bind_ok, Elo, Eup in E. cbn [default] in E.
  bind_inv E ok Eok. destruct ok; [|discriminate E]. cbn [negb] in E.
  bind_inv E d Ed. bind_inv E d1 Ed1.
  assert (Hi32 : forall z r, i32 z = Ok r -> r = z) by (intros z r; unfold i32; destruct (in_i32 z); congruence).
  apply Hi32 in Ed, Ed1. subst d d1. injection E as E. apply negb_true_iff in E.
  exists hi, lo, up. split; [exact Ehi|]. split.
  - intros Hh. rewrite (proj2 (Z.geb_le hi 0)) in Eok by lia. bind_inv Eok q E0. apply Hi32 in E0 as ->.
    injection Eok as Eok. by apply Z.eqb_eq in Eok.
  - intros p. rewrite <- Hu. split; [intros Hp; split; auto|]. apply full_interval; [auto|].
    rewrite Z.gtb_ltb, Z.ltb_ge in E. lia.
Qed.
End init.

(** ** Properties *)

(** C25: a batch that [llama_batch_allocr::init] accepts is complete and in range (every
    token has its positions, its sequence ids below [n_seq_max] and its output flag), and
    the allocator's tables [seq_set], [seq_set_map] and [seq_pos] describe exactly its
    tokens.  The caller may leave out sequence ids, output flags and the positions of a batch
    that has one position for each token; the positions of embeddings with several positions
    each must be given (see [init_few_positions]).  Every array that is given must have an
    entry for each token. *)
Theorem init_establishes_invariant {M} `{LlamaMemory M} a b n_vocab (memory : option M) n_embd n_max output_all a' :
  batch_input (n_pos_per_embd_ a) n_embd b -> (0 < n_max)%nat -> length (ba_seq_pos a) = LLAMA_MAX_SEQ ->
  balloc_init a b n_vocab memory n_embd n_max output_all = Ok (a', true) ->
  exists ps ns ss ls, accepted b n_embd n_max ps ns ss ls a'.
Proof. intros B Hm Hsp E. by destruct (balloc_init_ok _ _ _ _ _ _ _ _ B Hm Hsp E) as [? _]. Qed.

(** Embeddings with four positions each and none given: [init] makes up one position for
    each of the two tokens, where the model reads eight, and accepts the batch. *)
Definition no_positions : llama_batch := mk_batch 2 None (Some [1; 2]) None None None None.
Example init_few_positions :
  match balloc_init (H := {| mem_seq_pos_min := fun (_ : unit) _ => Ok (-1); mem_seq_pos_max := fun _ _ => Ok (-1) |})
    (llama_batch_allocr_new 4) no_positions 32 (Some tt) 1 2 false with
  | Ok (a, true) => b_pos (batch a) = Some [0; 1]
  | _ => False
  end.
Proof. vm_compute. reflexivity. Qed.

(** A memory whose sequences all end at one position, and a batch of three tokens without
    positions, for the examples. *)
Definition fixed_memory : LlamaMemory Z := {| mem_seq_pos_min := fun _ _ => Ok 0; mem_seq_pos_max := fun m _ => Ok m |}.
Definition toy_batch : llama_batch := mk_batch 3 (Some [11; 12; 13]) None None None None None.
Definition toy_alloc : llama_batch_allocr :=
  match balloc_init (H := fixed_memory) (llama_batch_allocr_new 1) toy_batch 32 (Some 6) 4 2 false with Ok (a, _) => a | _ => llama_batch_allocr_new 1 end.

Lemma toy_init_ok :
  balloc_init (H := fixed_memory) (llama_batch_allocr_new 1) toy_batch 32 (Some 6) 4 2 false = Ok (toy_alloc, true).
Proof. vm_compute. reflexivity. Qed.

Lemma toy_input : batch_input (n_pos_per_embd_ (llama_batch_allocr_new 1)) 4 toy_batch.
Proof.
  split; simpl; try discriminate.
  - intros ts [= <-]. simpl. lia.
  - split; [discriminate|lia].
Qed.

Lemma init_establishes_invariant_witness :
  balloc_init (H := fixed_memory) (llama_batch_allocr_new 1) toy_batch 32 (Some 6) 4 2 false = Ok (toy_alloc, true) /\ exists ps ns ss ls, accepted toy_batch 4 2 ps ns ss ls toy_alloc.
Proof.
  split; [exact toy_init_ok|].
  apply (init_establishes_invariant (H := fixed_memory) (llama_batch_allocr_new 1) toy_batch 32 (Some 6) 4 2 false);
    [exact toy_input|lia|reflexivity|exact toy_init_ok].
Defined.

(** C29: with one position per token, [init] accepts a batch only if, for every sequence
    that occurs in it, the positions of the sequence form an interval without gaps that
    starts right after the last position the memory holds for the sequence. *)
Theorem accepted_batch_continues {M} `{LlamaMemory M} a b n_vocab (mem : M) n_embd n_max output_all a' :
  batch_input (n_pos_per_embd_ a) n_embd b -> (0 < n_max)%nat -> length (ba_seq_pos a) = LLAMA_MAX_SEQ ->
  (n_pos_per_embd_ a <= 1)%nat ->
  balloc_init a b n_vocab (Some mem) n_embd n_max output_all = Ok (a', true) ->
  exists ps ns ss ls, accepted b n_embd n_max ps ns ss ls a' /\
    forall s, (s < n_max)%nat -> (exists p, batch_positions ps ns ss (get_n_tokens a') s p) ->
      exists hi lo up, mem_seq_pos_max mem (Z.of_nat s) = Ok hi /\ (0 <= hi -> lo = hi + 1) /\
        forall p, batch_positions ps ns ss (get_n_tokens a') s p <-> lo <= p <= up.
Proof.
  intros B Hm Hsp Hp E. destruct (balloc_init_ok _ _ _ _ _ _ _ _ B Hm Hsp E) as ((ps & ns & ss & ls & A) & Epp & Hchk).
  exists ps, ns, ss, ls. split; [done|]. intros s Hs Hex. unfold check_positions in Hchk. rewrite Epp in Hchk.
  rewrite (proj2 (Nat.ltb_ge _ _)) in Hchk by lia.
  eapply check_pos_seq_inv; [apply A|by eapply all_ok_inv|done].
Qed.

Lemma accepted_batch_continues_witness :
  balloc_init (H := fixed_memory) (llama_batch_allocr_new 1) toy_batch 32 (Some 6) 4 2 false = Ok (toy_alloc, true) /\
  exists ps ns ss ls, accepted toy_batch 4 2 ps ns ss ls toy_alloc /\
    forall s, (s < 2)%nat -> (exists p, batch_positions ps ns ss (get_n_tokens toy_alloc) s p) ->
      exists hi lo up, hi = 6 /\ (0 <= hi -> lo = hi + 1) /\
        forall p, batch_positions ps ns ss (get_n_tokens toy_alloc) s p <-> lo <= p <= up.
Proof.
  split; [exact toy_init_ok|].
  destruct (accepted_batch_continues (H := fixed_memory) (llama_batch_allocr_new 1) toy_batch 32 6 4 2 false toy_alloc)
    as (ps & ns & ss & ls & A & Hc); [exact toy_input|lia|reflexivity|simpl; lia|exact toy_init_ok|].
  exists ps, ns, ss, ls. split; [exact A|]. intros s Hs Hex. destruct (Hc s Hs Hex) as (hi & lo & up & E & H1 & H2).
  exists hi, lo, up. split; [injection E as <-; reflexivity|split; [exact H1|exact H2]].
Defined.

(** C30: the loop of the memories over [split_simple] ends on every accepted batch and cuts
    it into micro-batches of at most [n_ubatch] tokens whose concatenation is the batch:
    tokens, positions, sequence ids and output flags, in order, with every token used. *)
Theorem split_simple_partition {M} `{LlamaMemory M} a b n_vocab (memory : option M) n_embd n_max output_all a' n_ubatch :
  batch_input (n_pos_per_embd_ a) n_embd b -> (0 < n_max)%nat -> length (ba_seq_pos a) = LLAMA_MAX_SEQ ->
  balloc_init a b n_vocab memory n_embd n_max output_all = Ok (a', true) ->
  exists ps ns ss ls, accepted b n_embd n_max ps ns ss ls a' /\
    runs (split_loop (fun a => split_simple a n_ubatch) (split_reset a')) (fun r =>
      get_n_used r.1 = get_n_tokens r.1 /\
      split_prefix a' ps ns ss ls (Nat.max 1 n_ubatch) (get_n_tokens a') r.2 /\
      get_out_ids r.1 = filter (fun i => is_output ls i = true) (seq 0 (get_n_tokens a'))).
Proof.
  intros B Hm Hsp E. destruct (balloc_init_ok _ _ _ _ _ _ _ _ B Hm Hsp E) as ((ps & ns & ss & ls & A) & _).
  exists ps, ns, ss, ls. split; [done|].
  pose proof (split_simple_all a' ps ns ss ls (ac_wf _ _ _ _ _ _ _ _ A) n_ubatch []) as R.
  unfold taken, prefix_used in R. cbn [replicate app] in R. rewrite Nat.sub_0_r in R.
  eapply runs_mono; [exact R|]. intros r (-> & Hp). split; [done|]. split; done.
Qed.

Lemma split_simple_partition_witness :
  exists ps ns ss ls, accepted toy_batch 4 2 ps ns ss ls toy_alloc /\
    runs (split_loop (fun a => split_simple a 2) (split_reset toy_alloc)) (fun r =>
      sum_list (ub_n_tokens <$> r.2) = 3%nat /\ mjoin (default [] ∘ ub_token <$> r.2) = [11; 12; 13]).
Proof.
  destruct (split_simple_partition (H := fixed_memory) (llama_batch_allocr_new 1) toy_batch 32 (Some 6) 4 2 false toy_alloc 2)
    as (ps & ns & ss & ls & A & R); [exact toy_input|lia|reflexivity|exact toy_init_ok|].
  exists ps, ns, ss, ls. split; [exact A|]. eapply runs_mono; [exact R|]. intros r (_ & P & _).
  split; [exact (sp_sum _ _ _ _ _ _ _ _ P)|]. exact (sp_toks _ _ _ _ _ _ _ _ P [11; 12; 13] eq_refl).
Defined.

(** C31: the loop over [split_equal] ends on every accepted batch (without coupled sequences
    in sequential mode) and distributes its tokens: every token of the batch is in exactly
    one micro-batch, with its positions, sequence ids and output flag, and every micro-batch
    is rectangular. *)
Theorem split_equal_partition {M} `{LlamaMemory M} a b n_vocab (memory : option M) n_embd n_max output_all a'
    n_ubatch sequential :
  batch_input (n_pos_per_embd_ a) n_embd b -> (0 < n_max)%nat -> length (ba_seq_pos a) = LLAMA_MAX_SEQ ->
  balloc_init a b n_vocab memory n_embd n_max output_all = Ok (a', true) ->
  sequential && has_cpl a' = false ->
  exists ps ns ss ls, accepted b n_embd n_max ps ns ss ls a' /\
    runs (split_loop (fun a => split_equal a n_ubatch sequential) (split_reset a')) (fun r =>
      get_n_used r.1 = get_n_tokens a' /\
      exists idxss, Forall2 (holds a' ps ns ss ls) idxss r.2 /\ concat idxss ≡ₚ seq 0 (get_n_tokens a') /\
        Forall (fun v => 1 <= ub_n_tokens v <= S n_ubatch)%nat r.2).
Proof.
  intros B Hm Hsp E Hseq. destruct (balloc_init_ok _ _ _ _ _ _ _ _ B Hm Hsp E) as ((ps & ns & ss & ls & A) & _).
  exists ps, ns, ss, ls. split; [done|].
  eapply runs_mono; [exact (split_equal_all a' ps ns ss ls (ac_wf _ _ _ _ _ _ _ _ A) (ac_sets _ _ _ _ _ _ _ _ A) [] n_ubatch sequential Hseq)|].
  intros r ((o & u & Er) & idxss & F & Hr). split; [by rewrite Er|]. exists idxss. split; [|exact Hr].
  eapply Forall2_impl; [|exact F]. by intros l v [Hh _].
Qed.

Lemma split_equal_partition_witness :
  has_cpl toy_alloc = false /\
  exists ps ns ss ls, accepted toy_batch 4 2 ps ns ss ls toy_alloc /\
    runs (split_loop (fun a => split_equal a 2 true) (split_reset toy_alloc)) (fun r => get_n_used r.1 = 3%nat).
Proof.
  assert (Hc : has_cpl toy_alloc = false) by (vm_compute; reflexivity). split; [exact Hc|].
  destruct (split_equal_partition (H := fixed_memory) (llama_batch_allocr_new 1) toy_batch 32 (Some 6) 4 2 false toy_alloc 2 true)
    as (ps & ns & ss & ls & A & R); [exact toy_input|lia|reflexivity|exact toy_init_ok|rewrite Hc; reflexivity|].
  exists ps, ns, ss, ls. split; [exact A|]. eapply runs_mono; [exact R|]. intros r (U & _). exact U.
Defined.
