(* ===== verification/KvCache.v ===== *)
(** The KV cache, [llama_kv_cache] of src/llama/llama.cpp/src/llama-kv-cache.cpp (and .h):
    the streams of cells, the operations on sequences, the search for slots, the placement
    of micro-batches with its recovery stack, the inputs of the compute graph, and the
    memory context that walks through the micro-batches of a batch.

    Sizes and cell indices ([uint32_t]) are natural numbers: a cache has far fewer than
    2^32 cells.  Positions, sequence ids and model sizes are integers.  The logging that
    [LLAMA_KV_CACHE_DEBUG] switches on is left out.  Tensor data is kept as one byte
    sequence per stream; graphs and backends are not modelled. *)

From S2P Require Import Prelude Hparams KvCells Memory Batch.
Local Open Scope Z_scope.

(** ** Data *)

Record kv_layer := mk_layer {
  l_il       : nat;
  l_k_ne0    : Z;
  l_v_ne0    : Z;
  l_k_type   : Z;
  l_v_type   : Z;
  l_k_stream : list (list Z);
  l_v_stream : list (list Z)
}.

(** [stream_copy_info]: the pending copies between streams. *)
Record stream_copy_info := mk_sc { ssrc : list nat; sdst : list nat }.

Definition sc_empty (sc : stream_copy_info) : res bool :=
  assert_ (length (ssrc sc) =? length (sdst sc))%nat ;;
  Ok (length (ssrc sc) =? 0)%nat.

Record slot_info := mk_slot {
  si_s0   : nat;
  si_s1   : nat;
  si_strm : list nat;
  si_idxs : list (list nat)
}.

(** The value-initialised [slot_info { }]: empty. *)
Definition slot_none : slot_info := mk_slot 0 0 [] [].

Definition si_head (si : slot_info) : res nat :=
  assert_ (length (si_idxs si) =? 1)%nat ;;
  l ← rd (si_idxs si) 0;
  assert_ (negb (bool_decide (l = []))) ;;
  rd l 0.

Definition si_size (si : slot_info) : res nat :=
  assert_ (length (si_idxs si) =? length (si_strm si))%nat ;;
  assert_ (negb (length (si_idxs si) =? 0)%nat) ;;
  l ← rd (si_idxs si) 0;
  Ok (length l).

Definition si_n_stream (si : slot_info) : nat := length (si_strm si).
Definition si_empty (si : slot_info) : bool := (length (si_idxs si) =? 0)%nat.

Definition si_is_contiguous (si : slot_info) : bool :=
  match si_idxs si with
  | [] | [] :: _ => true
  | (h :: t) :: rest =>
      (length rest =? 0)%nat && bool_decide (h :: t = seq h (length (h :: t)))
  end.

Record llama_kv_cache := mk_kv {
  k_hparams       : llama_hparams;
  k_v_trans       : bool;
  k_n_seq_max     : nat;
  k_n_stream      : nat;
  k_n_pad         : nat;
  k_n_swa         : Z;
  k_swa_type      : llama_swa_type;
  v_heads         : list nat;
  v_cells         : list llama_kv_cells;
  seq_to_stream   : list nat;
  sc_info         : stream_copy_info;
  layers          : list kv_layer;
  map_layer_ids   : gmap nat nat
}.

Definition with_cells (hs : list nat) (cs : list llama_kv_cells) (kv : llama_kv_cache) : llama_kv_cache :=
  mk_kv (k_hparams kv) (k_v_trans kv) (k_n_seq_max kv) (k_n_stream kv) (k_n_pad kv) (k_n_swa kv)
    (k_swa_type kv) hs cs (seq_to_stream kv) (sc_info kv) (layers kv) (map_layer_ids kv).
Definition with_sc_info (sc : stream_copy_info) (kv : llama_kv_cache) : llama_kv_cache :=
  mk_kv (k_hparams kv) (k_v_trans kv) (k_n_seq_max kv) (k_n_stream kv) (k_n_pad kv) (k_n_swa kv)
    (k_swa_type kv) (v_heads kv) (v_cells kv) (seq_to_stream kv) sc (layers kv) (map_layer_ids kv).
Definition with_layers (ls : list kv_layer) (kv : llama_kv_cache) : llama_kv_cache :=
  mk_kv (k_hparams kv) (k_v_trans kv) (k_n_seq_max kv) (k_n_stream kv) (k_n_pad kv) (k_n_swa kv)
    (k_swa_type kv) (v_heads kv) (v_cells kv) (seq_to_stream kv) (sc_info kv) ls (map_layer_ids kv).

(** ** Constructor *)

Section constructor.
(** [ggml_row_size]: the bytes of a row of a tensor type. *)
Context (ggml_row_size : Z -> Z -> Z).

(** The layers of the cache: the ones that have KV and pass the filter. *)
Definition new_layer (hp : llama_hparams) (type_k type_v : Z) (v_trans : bool) (kv_size n_stream il : nat)
    : res kv_layer :=
  ek ← n_embd_k_gqa hp il;
  ev ← (if negb v_trans then n_embd_v_gqa hp il else n_embd_v_gqa_max hp);
  let zeros ty ne := replicate (kv_size * Z.to_nat (ggml_row_size ty ne))%nat 0 in
  Ok (mk_layer il ek ev type_k type_v (replicate n_stream (zeros type_k ek)) (replicate n_stream (zeros type_v ev))).

Definition new_layers (hp : llama_hparams) (type_k type_v : Z) (v_trans : bool) (kv_size n_stream : nat)
    (filter : option (nat -> bool)) : res (list kv_layer * gmap nat nat) :=
  foldM (fun '(ls, m) il =>
    if negb (has_kv hp il) then Ok (ls, m)
    else if match filter with Some f => negb (f il) | None => false end then Ok (ls, m)
    else l ← new_layer hp type_k type_v v_trans kv_size n_stream il; Ok (ls ++ [l], <[il := length ls]> m))
    ([], ∅) (seq 0 (n_layer hp)).

(** The layers that share the cache of another layer. *)
Definition reuse_layers (hp : llama_hparams) (filter : option (nat -> bool)) (reuse : option (nat -> Z))
    (m : gmap nat nat) : res (gmap nat nat) :=
  match reuse with
  | None => Ok m
  | Some r =>
      foldM (fun (m : gmap nat nat) il =>
        if r il <? 0 then Ok m
        else if match filter with Some f => negb (f il) | None => false end then Ok m
        else match m !! Z.to_nat (r il) with
             | None => Fault AssertFailed
             | Some k => Ok (<[il := k]> m)
             end) m (seq 0 (n_layer hp))
  end.

(** [alloc_ok]: the contexts and buffers could be allocated. *)
Definition llama_kv_cache_new (hp : llama_hparams) (type_k type_v : Z) (v_trans unified : bool)
    (kv_size n_seq_max n_pad : nat) (n_swa : Z) (swa_type : llama_swa_type)
    (filter : option (nat -> bool)) (reuse : option (nat -> Z)) (alloc_ok : bool) : res llama_kv_cache :=
  let n_stream := if unified then 1%nat else n_seq_max in
  (if (n_pad =? 0)%nat then Fault Overflow else assert_ (kv_size mod n_pad =? 0)%nat) ;;
  assert_ ((n_stream =? 1) || (n_stream =? n_seq_max))%nat ;;
  let seq_to_stream := if (1 <? n_stream)%nat then seq 0 n_stream else replicate LLAMA_MAX_SEQ 0%nat in
  lm ← new_layers hp type_k type_v v_trans kv_size n_stream filter;
  m ← reuse_layers hp filter reuse lm.2;
  if alloc_ok then
    Ok (mk_kv hp v_trans n_seq_max n_stream n_pad n_swa swa_type (replicate n_stream 0%nat)
          (replicate n_stream (cells_resize kv_size llama_kv_cells_new)) seq_to_stream (mk_sc [] []) lm.1 m)
  else Throw "failed to allocate buffer for kv cache".
End constructor.

(** ** Streams *)

(** [seq_to_stream[seq_id]] under the assertion that opens every sequence operation. *)
Definition seq_stream (kv : llama_kv_cache) (seq_id : Z) : res nat :=
  assert_ ((seq_id >=? 0) && (seq_id <? Z.of_nat (length (seq_to_stream kv)))) ;;
  rd (seq_to_stream kv) (Z.to_nat seq_id).

Definition put_stream (kv : llama_kv_cache) (s : nat) (head : nat) (cells : llama_kv_cells) : res llama_kv_cache :=
  hs ← wr (v_heads kv) s head;
  cs ← wr (v_cells kv) s cells;
  Ok (with_cells hs cs kv).

(** [if (new_head == cells.size()) new_head = i;] *)
Definition note_free (size new_head i : nat) : nat := if (new_head =? size)%nat then i else new_head.

(** [if (new_head != cells.size() && new_head < head) head = new_head;] *)
Definition lower_head (size new_head head : nat) : nat :=
  if negb (new_head =? size)%nat && (new_head <? head)%nat then new_head else head.

Definition fix_p0 (p0 : Z) : Z := if p0 <? 0 then 0 else p0.
Definition fix_p1 (p1 : Z) : Z := if p1 <? 0 then INT32_MAX else p1.

(** ** Operations of [llama_memory_i] *)

Definition kv_clear (data : bool) (kv : llama_kv_cache) : res llama_kv_cache :=
  kv' ← foldM (fun kv s =>
      c ← rd (v_cells kv) s; put_stream kv s 0 (cells_reset c)) kv (seq 0 (k_n_stream kv));
  if data then
    let zero := map (map (fun _ : Z => 0)) in
    Ok (with_layers (map (fun l => mk_layer (l_il l) (l_k_ne0 l) (l_v_ne0 l) (l_k_type l) (l_v_type l)
                                     (zero (l_k_stream l)) (zero (l_v_stream l))) (layers kv')) kv')
  else Ok kv'.

(** One iteration of the loop of [seq_rm] over the cells of the stream of [seq_id]. *)
Definition seq_rm_step (seq_id p0 p1 : Z) (st : llama_kv_cells * nat) (i : nat) : res (llama_kv_cells * nat) :=
  let '(c, new_head) := st in
  b ← cells_pos_in c i p0 p1;
  if negb b then Ok st
  else
    h ← cells_seq_has c i seq_id;
    if (h : bool) then
      r ← cells_seq_rm c i seq_id;
      Ok (r.1, if (r.2 : bool) then note_free (cells_size c) new_head i else new_head)
    else Ok st.

(** The same for [seq_id == -1]: any sequence. *)
Definition rm_any_step (p0 p1 : Z) (st : llama_kv_cells * nat) (i : nat) : res (llama_kv_cells * nat) :=
  let '(c, new_head) := st in
  b ← cells_pos_in c i p0 p1;
  if negb b then Ok st
  else c' ← cells_rm c i; Ok (c', note_free (cells_size c) new_head i).

(** A loop over the cells of stream [s] that may lower its head. *)
Definition over_cells (step : llama_kv_cells * nat -> nat -> res (llama_kv_cells * nat))
    (kv : llama_kv_cache) (s : nat) : res llama_kv_cache :=
  c ← rd (v_cells kv) s;
  head ← rd (v_heads kv) s;
  r ← foldM step (c, cells_size c) (seq 0 (cells_size c));
  put_stream kv s (lower_head (cells_size c) r.2 head) r.1.

Definition kv_seq_rm (kv : llama_kv_cache) (seq_id p0 p1 : Z) : res (llama_kv_cache * bool) :=
  assert_ ((seq_id =? -1) || ((seq_id >=? 0) && (seq_id <? Z.of_nat (length (seq_to_stream kv))))) ;;
  let p0 := fix_p0 p0 in
  let p1 := fix_p1 p1 in
  kv' ← (if seq_id >=? 0 then
           s ← rd (seq_to_stream kv) (Z.to_nat seq_id);
           over_cells (seq_rm_step seq_id p0 p1) kv s
         else foldM (over_cells (rm_any_step p0 p1)) kv (seq 0 (k_n_stream kv)));
  Ok (kv', true).

Definition kv_get_size (kv : llama_kv_cache) : res nat :=
  s ← rd (seq_to_stream kv) 0; c ← rd (v_cells kv) s; Ok (cells_size c).

(** Within one stream [seq_cp] only adds the sequence to the cells. *)
Definition seq_cp_same (kv : llama_kv_cache) (s : nat) (src dst p0 p1 : Z) : res llama_kv_cache :=
  if src =? dst then Ok kv
  else
    c ← rd (v_cells kv) s;
    head ← rd (v_heads kv) s;
    c' ← foldM (fun c i =>
        b ← cells_pos_in c i (fix_p0 p0) (fix_p1 p1);
        if negb b then Ok c
        else h ← cells_seq_has c i src; if (h : bool) then cells_seq_add c i dst else Ok c)
      c (seq 0 (cells_size c));
    put_stream kv s head c'.

(** The body of the loop that rebuilds the cells of the destination stream. *)
Definition seq_cp_cell (c0 : llama_kv_cells) (src dst : Z) (c1 : llama_kv_cells) (i : nat) : res llama_kv_cells :=
  h ← cells_seq_has c0 i src;
  if negb h then Ok c1
  else
    pos ← cells_pos_get c0 i;
    shift ← cells_get_shift c0 i;
    e ← cells_ext_get c0 i;
    pos' ← (if negb (shift =? 0) then p ← i32 (pos - shift); assert_ (p >=? 0) ;; Ok p else Ok pos);
    c2 ← cells_pos_set c1 i pos';
    c3 ← cells_seq_add c2 i dst;
    c4 ← (if negb (shift =? 0) then r ← cells_pos_add c3 i shift; Ok r.1 else Ok c3);
    cells_ext_set c4 i e.

Definition kv_seq_cp (kv : llama_kv_cache) (src dst p0 p1 : Z) : res llama_kv_cache :=
  s0 ← seq_stream kv src;
  s1 ← seq_stream kv dst;
  if (s0 =? s1)%nat then seq_cp_same kv s0 src dst p0 p1
  else
    size ← kv_get_size kv;
    let not_full p := (p >? 0) && (p + 1 <? Z.of_nat size) in
    assert_ (negb (not_full p0) && negb (not_full p1)) ;;
    let kv1 := with_sc_info (mk_sc (ssrc (sc_info kv) ++ [s0]) (sdst (sc_info kv) ++ [s1])) kv in
    c0 ← rd (v_cells kv1) s0;
    c1 ← rd (v_cells kv1) s1;
    c1' ← foldM (seq_cp_cell c0 src dst) (cells_reset c1) (seq 0 (cells_size c0));
    h0 ← rd (v_heads kv1) s0;
    put_stream kv1 s1 h0 c1'.

Definition seq_keep_step (seq_id : Z) (st : llama_kv_cells * nat) (i : nat) : res (llama_kv_cells * nat) :=
  let '(c, new_head) := st in
  r ← cells_seq_keep c i seq_id;
  Ok (r.1, if (r.2 : bool) then note_free (cells_size c) new_head i else new_head).

Definition kv_seq_keep (kv : llama_kv_cache) (seq_id : Z) : res llama_kv_cache :=
  s ← seq_stream kv seq_id;
  over_cells (seq_keep_step seq_id) kv s.

Definition seq_add_step (seq_id p0 p1 shift : Z) (st : llama_kv_cells * nat) (i : nat) : res (llama_kv_cells * nat) :=
  let '(c, new_head) := st in
  b ← cells_pos_in c i p0 p1;
  if negb b then Ok st
  else
    h ← cells_seq_has c i seq_id;
    if (h : bool) then
      r ← cells_pos_add c i shift;
      Ok (r.1, if (r.2 : bool) then note_free (cells_size c) new_head i else new_head)
    else Ok st.

Definition kv_seq_add (kv : llama_kv_cache) (seq_id p0 p1 shift : Z) : res llama_kv_cache :=
  s ← seq_stream kv seq_id;
  assert_ (n_pos_per_embd (k_hparams kv) =? 1) ;;
  c ← rd (v_cells kv) s;
  if shift =? 0 then Ok kv
  else
    let p0 := fix_p0 p0 in
    let p1 := fix_p1 p1 in
    if p0 =? p1 then Ok kv
    else
      r ← foldM (seq_add_step seq_id p0 p1 shift) (c, cells_size c) (seq 0 (cells_size c));
      put_stream kv s (if negb (r.2 =? cells_size c)%nat then r.2 else 0%nat) r.1.

Definition seq_div_step (seq_id p0 p1 d : Z) (c : llama_kv_cells) (i : nat) : res llama_kv_cells :=
  b ← cells_pos_in c i p0 p1;
  if negb b then Ok c
  else h ← cells_seq_has c i seq_id; if (h : bool) then cells_pos_div c i d else Ok c.

Definition kv_seq_div (kv : llama_kv_cache) (seq_id p0 p1 d : Z) : res llama_kv_cache :=
  s ← seq_stream kv seq_id;
  assert_ (n_pos_per_embd (k_hparams kv) =? 1) ;;
  c ← rd (v_cells kv) s;
  if d =? 1 then Ok kv
  else
    let p0 := fix_p0 p0 in
    let p1 := fix_p1 p1 in
    if p0 =? p1 then Ok kv
    else
      head ← rd (v_heads kv) s;
      c' ← foldM (seq_div_step seq_id p0 p1 d) c (seq 0 (cells_size c));
      put_stream kv s head c'.

Definition kv_seq_pos_min (kv : llama_kv_cache) (seq_id : Z) : res Z :=
  s ← seq_stream kv seq_id; c ← rd (v_cells kv) s; cells_seq_pos_min c seq_id.
Definition kv_seq_pos_max (kv : llama_kv_cache) (seq_id : Z) : res Z :=
  s ← seq_stream kv seq_id; c ← rd (v_cells kv) s; cells_seq_pos_max c seq_id.

#[export] Instance llama_kv_cache_memory : LlamaMemory llama_kv_cache := {|
  mem_seq_pos_min := kv_seq_pos_min; mem_seq_pos_max := kv_seq_pos_max
|}.

Definition kv_get_can_shift (kv : llama_kv_cache) : bool := true.
Definition kv_get_n_stream (kv : llama_kv_cache) : nat := k_n_stream kv.

Definition kv_get_has_shift (kv : llama_kv_cache) : res bool :=
  foldM (fun r s => c ← rd (v_cells kv) s; Ok (r || cells_get_has_shift c)) false (seq 0 (k_n_stream kv)).

Definition kv_is_masked_swa (kv : llama_kv_cache) (p0 p1 : Z) : res bool :=
  is_masked_swa (k_n_swa kv) (k_swa_type kv) p0 p1.

(** ** find_slot *)

(** Can a token be placed in cell [idx]: it is empty, or its only sequence has moved out of
    the attention window. *)
Definition can_use_cell (kv : llama_kv_cache) (c : llama_kv_cells) (idx : nat) : res bool :=
  e ← cells_is_empty c idx;
  if (e : bool) then Ok true
  else
    n ← cells_seq_count c idx;
    if (n =? 1)%nat then
      pos_cell ← cells_pos_get c idx;
      seq_id_cell ← cells_seq_get c idx;
      m ← cells_seq_pos_max c seq_id_cell;
      q ← i32 (m + 1);
      kv_is_masked_swa kv pos_cell q
    else Ok false.

(** The state of the search in one stream: head, cells tested, indices found. *)
Definition search_state : Type := nat * nat * list nat.

(** [for (i = 0; i < n_test; i++)]: the [break] of a contiguous search leaves the loop. *)
Definition test_cells (kv : llama_kv_cache) (c : llama_kv_cells) (cont : bool) (n_test : nat) (st : search_state)
    : res search_state :=
  r ← foldB (fun '(head_cur, n_tested, idxs) (_ : nat) =>
        u ← can_use_cell kv c head_cur;
        if (u : bool) then Ok (inl (S head_cur, S n_tested, idxs ++ [head_cur]))
        else if cont then Ok (inr (S head_cur, S n_tested, idxs))
        else Ok (inl (S head_cur, S n_tested, idxs))) st (seq 0 n_test);
  match r with inl st' => Ok st' | inr st' => Ok st' end.

(** One iteration of [while (true)]; it leaves with [Some idxs] or with failure. *)
Definition search_step (kv : llama_kv_cache) (c : llama_kv_cells) (cont : bool) (n_tokens : nat)
    (st : search_state * option bool) : res ((search_state * option bool) + (search_state * option bool)) :=
  let '(head_cur, n_tested, idxs) := st.1 in
  let n_test := if cont then n_tokens else 1%nat in
  if (cells_size c <? head_cur + n_test)%nat then
    Ok (inl ((0%nat, (n_tested + (cells_size c - head_cur))%nat, idxs), None))
  else
    st' ← test_cells kv c cont n_test st.1;
    let '(head_cur, n_tested, idxs) := st' in
    if (length idxs =? n_tokens)%nat then Ok (inr (st', Some true))
    else
      let idxs := if cont then [] else idxs in
      if (cells_size c <=? n_tested)%nat then Ok (inr ((head_cur, n_tested, idxs), Some false))
      else Ok (inl ((head_cur, n_tested, idxs), None)).

(** The search in one stream: [None] when there is no slot.  The head advances at every
    iteration but one (the wrap-around), so [2 * size + 2] iterations are enough. *)
Definition find_in_stream (kv : llama_kv_cache) (c : llama_kv_cells) (head : nat) (cont : bool) (n_tokens : nat)
    : res (option (list nat)) :=
  let head_cur := if (cells_get_used c + 2 * n_tokens <? head)%nat then 0%nat else head in
  if (cells_size c <? n_tokens)%nat then Ok None
  else
    r ← loop (2 * cells_size c + 2) (search_step kv c cont n_tokens) ((head_cur, 0%nat, []), None);
    match r with
    | ((_, _, idxs), Some true) => Ok (if (length idxs <? n_tokens)%nat then None else Some idxs)
    | _ => Ok None
    end.

(** The iteration for sequence [s] of the micro-batch. *)
Definition find_seq_slot (kv : llama_kv_cache) (u : llama_ubatch) (cont : bool) (n_tokens : nat)
    (si : slot_info) (s : nat) : res (slot_info + slot_info) :=
  seq_id ← rd (ub_seq_id_unq u) s;
  (if (1 <? k_n_stream kv)%nat then
     n ← rd (ub_n_seq_id u) (s * n_tokens)%nat;
     assert_ (n =? 1) ;;
     l ← rd (ub_seq_id u) (s * n_tokens)%nat;
     x ← rd l 0;
     assert_ (x =? seq_id)
   else Ok tt) ;;
  k ← zidx seq_id;
  strm ← rd (seq_to_stream kv) k;
  c ← rd (v_cells kv) strm;
  head ← rd (v_heads kv) strm;
  r ← find_in_stream kv c head cont n_tokens;
  match r with
  | None => Ok (inr slot_none)
  | Some idxs => Ok (inl (mk_slot (Nat.min (si_s0 si) strm) (Nat.max (si_s1 si) strm)
                             (si_strm si ++ [strm]) (si_idxs si ++ [idxs])))
  end.

Definition find_slot (kv : llama_kv_cache) (u : llama_ubatch) (cont : bool) : res slot_info :=
  nt ← (if (1 <? k_n_stream kv)%nat then
          if (ub_n_seqs_unq u =? 0)%nat then Fault Overflow
          else assert_ (ub_n_tokens u mod ub_n_seqs_unq u =? 0)%nat ;;
               Ok (ub_n_seqs_unq u, ub_n_tokens u / ub_n_seqs_unq u)%nat
        else Ok (1%nat, ub_n_tokens u));
  let '(n_seqs, n_tokens) := nt in
  r ← foldB (find_seq_slot kv u cont n_tokens) (mk_slot LLAMA_MAX_SEQ 0 [] []) (seq 0 n_seqs);
  match r with
  | inr none => Ok none
  | inl si => assert_ (si_s0 si <=? si_s1 si)%nat ;; Ok si
  end.

(** ** apply_ubatch *)

(** Placing token [i] in cell [idx] of stream [strm]; [rm_max] is [seq_pos_max_rm]. *)
Definition apply_token (u : llama_ubatch) (strm idx i : nat) (st : llama_kv_cache * list Z)
    : res (llama_kv_cache * list Z) :=
  let '(kv, rm_max) := st in
  c ← rd (v_cells kv) strm;
  head ← rd (v_heads kv) strm;
  e ← cells_is_empty c idx;
  cm ← (if negb e then
          n ← cells_seq_count c idx;
          assert_ (n =? 1)%nat ;;
          seq_id ← cells_seq_get c idx;
          pos ← cells_pos_get c idx;
          k ← zidx seq_id;
          m ← rd rm_max k;
          rm' ← wr rm_max k (Z.max m pos);
          c' ← cells_rm c idx;
          Ok (c', rm')
        else Ok (c, rm_max));
  p ← rd (ub_pos u) i;
  c1 ← cells_pos_set cm.1 idx p;
  c2 ← (if is_pos_2d u then
          x ← rd (ub_pos u) (i + ub_n_tokens u * 2)%nat;
          y ← rd (ub_pos u) (i + ub_n_tokens u)%nat;
          cells_ext_set c1 idx (mk_ext x y)
        else Ok c1);
  n ← rd (ub_n_seq_id u) i;
  l ← rd (ub_seq_id u) i;
  c3 ← foldM (fun c s => x ← rd l s; cells_seq_add c idx x) c2 (seq 0 (Z.to_nat n));
  kv' ← put_stream kv strm head c3;
  Ok (kv', cm.2).

(** The purge of the positions below the ones that were overwritten. *)
Definition purge_seq (rm_max : list Z) (kv : llama_kv_cache) (s : nat) : res llama_kv_cache :=
  m ← rd rm_max s;
  if m =? -1 then Ok kv
  else
    assert_ (s <? length (seq_to_stream kv))%nat ;;
    strm ← rd (seq_to_stream kv) s;
    c ← rd (v_cells kv) strm;
    pmin ← cells_seq_pos_min c (Z.of_nat s);
    if pmin <=? m then q ← i32 (m + 1); r ← kv_seq_rm kv (Z.of_nat s) pmin q; Ok r.1
    else Ok kv.

(** [sinfo.idxs[s].back() + 1] *)
Definition move_head (si : slot_info) (kv : llama_kv_cache) (s : nat) : res llama_kv_cache :=
  strm ← rd (si_strm si) s;
  l ← rd (si_idxs si) s;
  b ← rd l (length l - 1)%nat;
  c ← rd (v_cells kv) strm;
  put_stream kv strm (b + 1)%nat c.

Definition apply_ubatch (kv : llama_kv_cache) (si : slot_info) (u : llama_ubatch) : res llama_kv_cache :=
  size ← si_size si;
  assert_ (ub_n_tokens u =? si_n_stream si * size)%nat ;;
  st ← foldM (fun st s =>
      foldM (fun st ii =>
        strm ← rd (si_strm si) s;
        l ← rd (si_idxs si) s;
        idx ← rd l ii;
        apply_token u strm idx (s * size + ii)%nat st) st (seq 0 size))
    (kv, replicate LLAMA_MAX_SEQ (-1)) (seq 0 (si_n_stream si));
  kv' ← foldM (purge_seq st.2) st.1 (seq 0 LLAMA_MAX_SEQ);
  foldM (move_head si) kv' (seq 0 (si_n_stream si)).

(** ** prepare *)

(** [state_t]: a slot with the heads and the cells it replaces. *)
Record state_t := mk_state { st_sinfo : slot_info; st_heads : list nat; st_cells : list llama_kv_cells }.

Definition save_state (kv : llama_kv_cache) (si : slot_info) : res state_t :=
  cs ← foldM (fun acc s =>
      strm ← rd (si_strm si) s;
      c ← rd (v_cells kv) strm;
      l ← rd (si_idxs si) s;
      c' ← cells_cp_idxs c l;
      Ok (acc ++ [c'])) [] (seq 0 (si_n_stream si));
  Ok (mk_state si (v_heads kv) cs).

(** [head = it->v_heads_old[s]] reads the old heads at [s], not at [strm[s]]. *)
Definition restore_state (kv : llama_kv_cache) (st : state_t) : res llama_kv_cache :=
  foldM (fun kv s =>
      strm ← rd (si_strm (st_sinfo st)) s;
      c ← rd (v_cells kv) strm;
      l ← rd (si_idxs (st_sinfo st)) s;
      old ← rd (st_cells st) s;
      c' ← cells_set_idxs c l old;
      h ← rd (st_heads st) s;
      put_stream kv strm h c') kv (seq 0 (si_n_stream (st_sinfo st))).

Definition prepare_step (st : llama_kv_cache * list slot_info * list state_t) (u : llama_ubatch)
    : res ((llama_kv_cache * list slot_info * list state_t) + (llama_kv_cache * list slot_info * list state_t)) :=
  let '(kv, out, states) := st in
  si ← find_slot kv u false;
  if si_empty si then Ok (inr st)
  else
    s ← save_state kv si;
    kv' ← apply_ubatch kv si u;
    Ok (inl (kv', out ++ [si], states ++ [s])).

(** The slots of the micro-batches, empty on failure, and the cache after the recovery. *)
Definition prepare (kv : llama_kv_cache) (ubatches : list llama_ubatch) : res (llama_kv_cache * list slot_info) :=
  r ← foldB prepare_step (kv, [], []) ubatches;
  let '((kv1, out, states), success) := match r with inl st => (st, true) | inr st => (st, false) end in
  assert_ (negb (length states =? 0)%nat || negb success) ;;
  kv2 ← foldM restore_state kv1 (rev states);
  Ok (kv2, if (success : bool) then out else []).

(** ** update *)

(** [ggml_backend_tensor_copy(stream[ssrc], stream[sdst])] for one layer. *)
Definition copy_stream (src dst : nat) (l : kv_layer) : res kv_layer :=
  k ← rd (l_k_stream l) src;
  ks ← wr (l_k_stream l) dst k;
  v ← rd (l_v_stream l) src;
  vs ← wr (l_v_stream l) dst v;
  Ok (mk_layer (l_il l) (l_k_ne0 l) (l_v_ne0 l) (l_k_type l) (l_v_type l) ks vs).

Definition copy_layers (kv : llama_kv_cache) (src dst : nat) : res llama_kv_cache :=
  assert_ (src <? k_n_stream kv)%nat ;;
  assert_ (dst <? k_n_stream kv)%nat ;;
  assert_ (negb (src =? dst)%nat) ;;
  ls ← foldM (fun acc l => l' ← copy_stream src dst l; Ok (acc ++ [l'])) [] (layers kv);
  Ok (with_layers ls kv).

(** [graph k] is the computation of the K-shift graph on the layers: [None] when the graph
    cannot be allocated or computed. *)
Definition kv_update (graph : llama_kv_cache -> option (list kv_layer)) (kv : llama_kv_cache)
    (do_shift : bool) (sc : stream_copy_info) : res (llama_kv_cache * bool) :=
  e ← sc_empty sc;
  kv1 ← (if negb e then
           assert_ (1 <? k_n_stream kv)%nat ;;
           foldM (fun kv i => s ← rd (ssrc sc) i; d ← rd (sdst sc) i; copy_layers kv s d) kv
             (seq 0 (length (ssrc sc)))
         else Ok kv);
  if do_shift then
    if negb (kv_get_can_shift kv1) then Fault AbortCalled
    else
      let shifted := bool_decide (rope_type (k_hparams kv1) <> LLAMA_ROPE_TYPE_NONE) in
      match (if shifted then graph kv1 else Some (layers kv1)) with
      | None => Ok (kv1, false)
      | Some ls =>
          kv2 ← foldM (fun kv s =>
              c ← rd (v_cells kv) s; h ← rd (v_heads kv) s; put_stream kv s h (cells_reset_shift c))
            (with_layers ls kv1) (seq 0 (k_n_stream kv1));
          Ok (kv2, shifted)
      end
  else Ok (kv1, false).

(** ** Inputs of the compute graph *)

(** [GGML_PAD(x, n)] rounds up to a multiple of [n], a power of two in ggml; the macro is
    [((x) + (n) - 1) & ~((n) - 1)]. *)
Definition ggml_pad (x n : nat) : nat :=
  Z.to_nat (Z.ldiff (Z.of_nat x + Z.of_nat n - 1) (Z.of_nat n - 1)).

Definition kv_get_n_kv (kv : llama_kv_cache) (si : slot_info) : res nat :=
  let n_pad_cur := Nat.max (k_n_pad kv) 256 in
  foldM (fun result s =>
      strm ← rd (si_strm si) s;
      c ← rd (v_cells kv) strm;
      Ok (Nat.max (Nat.min (cells_size c) (Nat.max n_pad_cur (ggml_pad (cells_used_max_p1 c) n_pad_cur))) result))
    0%nat (seq 0 (si_n_stream si)).

(** The destination arrays are given with their contents, [data]. *)
Definition set_input_k_idxs (kv : llama_kv_cache) (data : list Z) (u : llama_ubatch) (si : slot_info) : res (list Z) :=
  size ← si_size si;
  assert_ (ub_n_tokens u =? size * si_n_stream si)%nat ;;
  foldM (fun data s =>
      strm ← rd (si_strm si) s;
      kv_size ← kv_get_size kv;
      let offs := Z.of_nat (strm * kv_size) in
      foldM (fun data i =>
          l ← rd (si_idxs si) s;
          idx ← rd l i;
          wr data (s * size + i)%nat (offs + Z.of_nat idx)) data (seq 0 size))
    data (seq 0 (si_n_stream si)).

Definition set_input_v_idxs (kv : llama_kv_cache) (data : list Z) (u : llama_ubatch) (si : slot_info) : res (list Z) :=
  size ← si_size si;
  assert_ (ub_n_tokens u =? size * si_n_stream si)%nat ;;
  if negb (k_v_trans kv) then set_input_k_idxs kv data u si
  else
    kv_size ← kv_get_size kv;
    ev ← n_embd_v_gqa_max (k_hparams kv);
    let n_embd_v := Z.to_nat ev in
    foldM (fun data s =>
        strm ← rd (si_strm si) s;
        let offs := Z.of_nat (strm * kv_size * n_embd_v) in
        foldM (fun data i =>
            foldM (fun data j =>
                l ← rd (si_idxs si) s;
                idx ← rd l i;
                wr data (s * size * n_embd_v + i * n_embd_v + j)%nat (offs + Z.of_nat (j * kv_size + idx)))
              data (seq 0 n_embd_v)) data (seq 0 size))
      data (seq 0 (si_n_stream si)).

Definition set_input_k_shift (kv : llama_kv_cache) (data : list Z) : res (list Z) :=
  foldM (fun data s =>
      c ← rd (v_cells kv) s;
      foldM (fun data i =>
          e ← cells_is_empty c i;
          x ← (if (e : bool) then Ok 0 else cells_get_shift c i);
          wr data (s * cells_size c + i)%nat x) data (seq 0 (cells_size c)))
    data (seq 0 (k_n_stream kv)).

(** An entry of the mask: a float that is minus infinity, or an integer. *)
Inductive mask_val := MaskInf | MaskVal (z : Z).

#[export] Instance mask_val_eq_dec : EqDecision mask_val.
Proof. solve_decision. Defined.

(** Whether the token of sequence [seq_id] at position [p1] sees cell [j], and how. *)
Definition kq_entry (kv : llama_kv_cache) (c : llama_kv_cells) (causal is_2d : bool) (seq_id p1 p1_x p1_y : Z)
    (j : nat) : res mask_val :=
  e ← cells_is_empty c j;
  if (e : bool) then Ok MaskInf
  else
    h ← cells_seq_has c j seq_id;
    if negb h then Ok MaskInf
    else
      p0 ← cells_pos_get c j;
      if causal && (p0 >? p1) then Ok MaskInf
      else
        g ← (if causal && is_2d && (p0 =? p1) then e0 ← cells_ext_get c j; Ok (is_2d_gt e0 p1_x p1_y)
             else Ok false);
        if (g : bool) then Ok MaskInf
        else
          m ← kv_is_masked_swa kv p0 p1;
          if (m : bool) then Ok MaskInf
          else
            if use_alibi (k_hparams kv) then d ← i32 (p0 - p1); Ok (MaskVal (- Z.abs d))
            else Ok (MaskVal 0).

(** The mask of [n_kv] columns: one row per token. *)
Definition set_input_kq_mask (kv : llama_kv_cache) (n_kv n_stream n_elements : nat) (u : llama_ubatch)
    (causal : bool) : res (list mask_val) :=
  (if (n_stream =? 0)%nat then Fault Overflow else assert_ (ub_n_tokens u mod n_stream =? 0)%nat) ;;
  let n_tps := (ub_n_tokens u / n_stream)%nat in
  foldM (fun data s =>
      foldM (fun data ii =>
          let i := (s * n_tps + ii)%nat in
          l ← rd (ub_seq_id u) i;
          seq_id ← rd l 0;
          k ← zidx seq_id;
          strm ← rd (seq_to_stream kv) k;
          c ← rd (v_cells kv) strm;
          p1 ← rd (ub_pos u) i;
          let is_2d := is_pos_2d u in
          p1_x ← (if is_2d then rd (ub_pos u) (i + ub_n_tokens u * 2)%nat else Ok 0);
          p1_y ← (if is_2d then rd (ub_pos u) (i + ub_n_tokens u)%nat else Ok 0);
          foldM (fun data j =>
              x ← kq_entry kv c causal is_2d seq_id p1 p1_x p1_y j;
              match x with
              | MaskInf => Ok data
              | _ => wr data (n_kv * i + j)%nat x
              end) data (seq 0 n_kv)) data (seq 0 n_tps))
    (replicate n_elements MaskInf) (seq 0 n_stream).

(** [bucket] is [llama_relative_position_bucket] of llama-graph.cpp. *)
Definition set_input_pos_bucket (bucket : Z -> Z -> Z -> bool -> Z) (kv : llama_kv_cache) (data : list Z)
    (n_kv : nat) (u : llama_ubatch) : res (list Z) :=
  assert_ (k_n_stream kv =? 1)%nat ;;
  c ← rd (v_cells kv) 0;
  assert_ (negb (equal_seqs u)) ;;
  foldM (fun data i =>
      foldM (fun data j =>
          e ← cells_is_empty c j;
          p0 ← (if (e : bool) then Ok (-1) else cells_pos_get c j);
          p1 ← rd (ub_pos u) i;
          wr data (i * n_kv + j)%nat (bucket p0 p1 (n_rel_attn_bkts (k_hparams kv)) false))
        data (seq 0 n_kv))
    data (seq 0 (ub_n_tokens u)).

(** ** The memory context *)

(** [llama_kv_cache_context]; its cache is the state of the functions below. *)
Record llama_kv_cache_context := mk_ctx {
  x_status   : llama_memory_status;
  x_i_cur    : nat;
  x_sinfos   : list slot_info;
  x_ubatches : list llama_ubatch;
  x_n_kv     : nat;
  x_do_shift : bool;
  x_sc_info  : stream_copy_info
}.

Definition sc_none : stream_copy_info := mk_sc [] [].

Definition ctx_of_status (s : llama_memory_status) : llama_kv_cache_context := mk_ctx s 0 [] [] 0 false sc_none.

Definition ctx_full (kv : llama_kv_cache) : res llama_kv_cache_context :=
  n_kv ← kv_get_size kv;
  let n_stream := kv_get_n_stream kv in
  Ok (mk_ctx LLAMA_MEMORY_STATUS_SUCCESS 0
        [mk_slot 0 (n_stream - 1) (seq 0 n_stream) (replicate n_stream [0%nat])] [] n_kv false sc_none).

Definition ctx_update (do_shift : bool) (sc : stream_copy_info) : res llama_kv_cache_context :=
  e ← sc_empty sc;
  Ok (mk_ctx (if negb do_shift && e then LLAMA_MEMORY_STATUS_NO_UPDATE else LLAMA_MEMORY_STATUS_SUCCESS)
        0 [] [] 0 do_shift sc).

Definition ctx_batch (sinfos : list slot_info) (ubatches : list llama_ubatch) : llama_kv_cache_context :=
  mk_ctx LLAMA_MEMORY_STATUS_SUCCESS 0 sinfos ubatches 0 false sc_none.

Definition ctx_next (x : llama_kv_cache_context) : res (llama_kv_cache_context * bool) :=
  assert_ (bool_decide (x_status x = LLAMA_MEMORY_STATUS_SUCCESS)) ;;
  let i := S (x_i_cur x) in
  Ok (mk_ctx (x_status x) i (x_sinfos x) (x_ubatches x) (x_n_kv x) (x_do_shift x) (x_sc_info x),
      (i <? length (x_ubatches x))%nat).

Definition ctx_apply (graph : llama_kv_cache -> option (list kv_layer)) (kv : llama_kv_cache)
    (x : llama_kv_cache_context) : res (llama_kv_cache * llama_kv_cache_context) :=
  assert_ (negb (llama_memory_status_is_fail (x_status x))) ;;
  if (length (x_ubatches x) =? 0)%nat then
    r ← kv_update graph kv (x_do_shift x) (x_sc_info x); Ok (r.1, x)
  else
    si ← rd (x_sinfos x) (x_i_cur x);
    u ← rd (x_ubatches x) (x_i_cur x);
    kv' ← apply_ubatch kv si u;
    n ← kv_get_n_kv kv' si;
    Ok (kv', mk_ctx (x_status x) (x_i_cur x) (x_sinfos x) (x_ubatches x) n (x_do_shift x) (x_sc_info x)).

Definition ctx_get_ubatch (x : llama_kv_cache_context) : res llama_ubatch :=
  assert_ (bool_decide (x_status x = LLAMA_MEMORY_STATUS_SUCCESS)) ;;
  rd (x_ubatches x) (x_i_cur x).

(** ** init_batch and its siblings *)

(** The loop over the micro-batches: [split_simple] with one stream, else [split_equal]. *)
Definition kv_split (kv : llama_kv_cache) (n_ubatch : nat) (a : llama_batch_allocr)
    : res (llama_batch_allocr * llama_ubatch) :=
  if (k_n_stream kv =? 1)%nat then split_simple a n_ubatch else split_equal a n_ubatch true.

Definition kv_init_batch (kv : llama_kv_cache) (a : llama_batch_allocr) (n_ubatch : nat)
    : res (llama_kv_cache * llama_batch_allocr * llama_kv_cache_context) :=
  r ← split_loop (kv_split kv n_ubatch) (split_reset a);
  let '(a', ubatches) := r in
  if (get_n_used a' <? get_n_tokens a')%nat then
    Ok (kv, a', ctx_of_status LLAMA_MEMORY_STATUS_FAILED_PREPARE)
  else
    p ← prepare kv ubatches;
    let '(kv', sinfos) := p in
    if (length sinfos =? 0)%nat then Ok (kv', a', ctx_of_status LLAMA_MEMORY_STATUS_FAILED_PREPARE)
    else Ok (kv', a', ctx_batch sinfos ubatches).

Definition kv_init_full (kv : llama_kv_cache) : res llama_kv_cache_context := ctx_full kv.

(** The pending copies move to the context. *)
Definition kv_init_update (kv : llama_kv_cache) : res (llama_kv_cache * llama_kv_cache_context) :=
  do_shift ← kv_get_has_shift kv;
  x ← ctx_update do_shift (sc_info kv);
  Ok (with_sc_info sc_none kv, x).
