(* ===== verification/KvCacheSeq.v ===== *)
(** The sequence operations of [llama_kv_cache] (src/llama/llama.cpp/src/llama-kv-cache.cpp):
    the invariant of the cache and, for every operation, the change it makes to the cells of
    one stream as a function on cells, with the invariant preserved and no assertion
    failing. *)

From S2P Require Import Prelude Hparams KvCells Memory Batch KvCache.
Local Open Scope Z_scope.

(** ** The invariant *)

(** The cells of stream [s]: an occupied cell has a sequence, and the sequences of stream
    [s] are mapped to [s]. *)
Definition cells_fit (m : list nat) (s : nat) (l : list cell) : Prop :=
  forall i a, l !! i = Some a ->
    (a_pos a <> -1 -> a_seq a <> ∅) /\ forall x, x ∈ a_seq a -> m !! Z.to_nat x = Some s.

Record kv_inv (kv : llama_kv_cache) (size : nat) : Prop := {
  ki_n     : (0 < k_n_stream kv)%nat;
  ki_cells : length (v_cells kv) = k_n_stream kv;
  ki_heads : length (v_heads kv) = k_n_stream kv;
  ki_map   : (0 < length (seq_to_stream kv) <= LLAMA_MAX_SEQ)%nat /\
             forall k s, seq_to_stream kv !! k = Some s -> (s < k_n_stream kv)%nat;
  ki_wf    : forall s c, v_cells kv !! s = Some c ->
               kv_wf c /\ cells_size c = size /\ cells_fit (seq_to_stream kv) s (cells_abs c);
  ki_head  : forall s h, v_heads kv !! s = Some h -> (h <= size)%nat
}.

(** [kv'] differs from [kv] in stream [s] only, whose cells went through [g]. *)
Record stream_upd (size : nat) (kv : llama_kv_cache) (s : nat) (g : cell -> cell) (kv' : llama_kv_cache) : Prop := {
  su_inv   : kv_inv kv' size;
  su_same  : exists hs cs, kv' = with_cells hs cs kv;
  su_at    : forall c, v_cells kv !! s = Some c ->
               exists c', v_cells kv' !! s = Some c' /\ cells_abs c' = g <$> cells_abs c;
  su_other : forall s', s' <> s -> v_cells kv' !! s' = v_cells kv !! s' /\ v_heads kv' !! s' = v_heads kv !! s'
}.

(** ** Loops over the cells of a stream *)

Section loops.
Context {S : Type} (pr : S -> llama_kv_cells) (J : S -> Prop) (g : cell -> cell).

Lemma cells_loop (step : S -> nat -> res S) c s0 :
  kv_wf c -> pr s0 = c -> J s0 ->
  (forall s i a, kv_wf (pr s) -> cells_size (pr s) = cells_size c -> J s ->
     cells_abs c !! i = Some a -> cells_abs (pr s) !! i = Some a ->
     runs (step s i) (fun s' => updated (pr s) i (g a) (pr s') /\ J s')) ->
  runs (foldM step s0 (seq 0 (cells_size c))) (fun s' =>
    kv_wf (pr s') /\ cells_abs (pr s') = g <$> cells_abs c /\ cells_size (pr s') = cells_size c /\ J s').
Proof.
  intros Hwf E0 HJ Hstep. pose proof (length_abs c Hwf) as Hlen.
  eapply runs_mono.
  { apply (runs_for (fun i s => kv_wf (pr s) /\ J s /\
      cells_abs (pr s) = (g <$> take i (cells_abs c)) ++ drop i (cells_abs c))).
    - rewrite E0, drop_0. done.
    - intros i s Hi (W & HJs & E).
      destruct (lookup_lt_is_Some_2 (cells_abs c) i) as [a Ha]; [lia|].
      assert (Hl : length (g <$> take i (cells_abs c)) = i) by (rewrite length_fmap, length_take; lia).
      assert (Hsz : cells_size (pr s) = cells_size c).
      { rewrite <- (length_abs (pr s) W), E, length_app, Hl, length_drop. lia. }
      eapply runs_mono; [apply (Hstep s i a); try done|].
      + rewrite E, lookup_app_r, Hl, Nat.sub_diag, lookup_drop, Nat.add_0_r by lia. done.
      + intros s' [[W' E'] HJ']. split; [done|]. split; [done|].
        rewrite E', E, insert_app_r_alt, Hl, Nat.sub_diag by lia.
        rewrite (drop_S _ _ _ Ha), Nat.add_1_r, (take_S_r _ _ _ Ha), fmap_app, <- app_assoc. done. }
  intros s (W & HJs & E). rewrite take_ge, drop_ge, app_nil_r in E by lia.
  do 2 (split; [done|]). split; [|done].
  by rewrite <- (length_abs (pr s) W), E, length_fmap.
Qed.
End loops.

(** ** Writing a stream back *)

Section streams.
Context (kv : llama_kv_cache) (size : nat) (I : kv_inv kv size).

Lemma stream_lookup s : (s < k_n_stream kv)%nat ->
  exists c h, v_cells kv !! s = Some c /\ v_heads kv !! s = Some h.
Proof.
  intros Hs. destruct (lookup_lt_is_Some_2 (v_cells kv) s) as [c Hc]; [by rewrite (ki_cells _ _ I)|].
  destruct (lookup_lt_is_Some_2 (v_heads kv) s) as [h Hh]; [by rewrite (ki_heads _ _ I)|]. eauto.
Qed.

(** A valid sequence id has a stream. *)
Lemma seq_stream_ok x :
  0 <= x < Z.of_nat (length (seq_to_stream kv)) ->
  exists s, seq_stream kv x = Ok s /\ seq_to_stream kv !! Z.to_nat x = Some s /\ (s < k_n_stream kv)%nat.
Proof.
  intros Hx. destruct (lookup_lt_is_Some_2 (seq_to_stream kv) (Z.to_nat x)) as [s Hs]; [lia|].
  exists s. split; [|split; [done|by eapply (ki_map _ _ I)]].
  unfold seq_stream. replace ((x >=? 0) && (x <? Z.of_nat (length (seq_to_stream kv)))) with true by lia.
  unfold assert_. by rewrite bind_ok, (rd_ok _ _ _ Hs).
Qed.

Lemma put_stream_ok s h c' c :
  v_cells kv !! s = Some c -> (h <= size)%nat -> kv_wf c' -> cells_size c' = size ->
  cells_fit (seq_to_stream kv) s (cells_abs c') ->
  runs (put_stream kv s h c') (fun kv' => kv_inv kv' size /\ v_cells kv' !! s = Some c' /\
    v_heads kv' !! s = Some h /\
    (exists hs cs, kv' = with_cells hs cs kv) /\
    forall s', s' <> s -> v_cells kv' !! s' = v_cells kv !! s' /\ v_heads kv' !! s' = v_heads kv !! s').
Proof.
  intros Hc Hh W Hsz Hfit. apply lookup_lt_Some in Hc as Hlt.
  pose proof (ki_cells _ _ I) as L1. pose proof (ki_heads _ _ I) as L2.
  unfold put_stream. rewrite (wr_ok (v_heads kv)), bind_ok, (wr_ok (v_cells kv)), bind_ok by lia.
  apply runs_ok. simpl. rewrite !list_lookup_insert_eq by lia. split.
  { split; simpl; rewrite ?length_insert; try done; try apply I.
    - intros s' c1. destruct (decide (s' = s)) as [->|Hne].
      + rewrite list_lookup_insert_eq by lia. by intros [= <-].
      + rewrite list_lookup_insert_ne by done. apply (ki_wf _ _ I).
    - intros s' h1. destruct (decide (s' = s)) as [->|Hne].
      + rewrite list_lookup_insert_eq by lia. by intros [= <-].
      + rewrite list_lookup_insert_ne by done. apply (ki_head _ _ I). }
  do 2 (split; [done|]). split; [by eauto|]. intros s' Hne. by rewrite !list_lookup_insert_ne by done.
Qed.

(** A function on cells keeps the invariant when it does so cell by cell. *)
Definition fits (s : nat) (l : list cell) (g : cell -> cell) : Prop :=
  forall i a, l !! i = Some a ->
    (a_pos (g a) <> -1 -> a_seq (g a) <> ∅) /\
    forall x, x ∈ a_seq (g a) -> seq_to_stream kv !! Z.to_nat x = Some s.

Lemma fits_fmap s l g : fits s l g -> cells_fit (seq_to_stream kv) s (g <$> l).
Proof. intros H i a. rewrite list_lookup_fmap. intros (b & Hb & ->)%fmap_Some. by apply (H i). Qed.

Lemma put_stream_upd s h c c' g :
  v_cells kv !! s = Some c -> (h <= size)%nat -> kv_wf c' -> cells_size c' = size ->
  cells_abs c' = g <$> cells_abs c -> fits s (cells_abs c) g ->
  runs (put_stream kv s h c') (stream_upd size kv s g).
Proof.
  intros Hc Hh W Hsz E Hfit. eapply runs_mono; [apply (put_stream_ok s h c' c); try done|].
  { rewrite E. by apply fits_fmap. }
  intros kv' (I' & Hc' & Hh' & Hsame & Hother). split; [done|done| |done].
  intros c1. rewrite Hc. intros [= <-]. eauto.
Qed.

(** The loops of [seq_rm], [seq_keep] and the like over one stream. *)
Lemma over_cells_ok step s g c :
  v_cells kv !! s = Some c -> fits s (cells_abs c) g ->
  (forall c1 nh i a, kv_wf c1 -> cells_size c1 = size -> (nh <= size)%nat -> (i < size)%nat ->
     cells_abs c !! i = Some a -> cells_abs c1 !! i = Some a ->
     runs (step (c1, nh) i) (fun r => updated c1 i (g a) r.1 /\ (r.2 <= size)%nat)) ->
  runs (over_cells step kv s) (stream_upd size kv s g).
Proof.
  intros Hc Hfit Hstep. apply lookup_lt_Some in Hc as Hlt. rewrite (ki_cells _ _ I) in Hlt.
  destruct (stream_lookup s Hlt) as (c0 & h & Hc0 & Hh). rewrite Hc in Hc0. injection Hc0 as <-.
  destruct (ki_wf _ _ I s c Hc) as (W & Hsz & _).
  unfold over_cells. rewrite (rd_ok _ _ _ Hc), bind_ok, (rd_ok _ _ _ Hh), bind_ok.
  apply runs_bind. eapply runs_mono.
  { apply (cells_loop fst (fun st => (st.2 <= size)%nat) g); try done; simpl; [lia|].
    intros [c1 nh] i a W1 Hs1 Hnh Ha Ha1. simpl in *. apply (Hstep c1 nh i a); try done; try lia.
    apply abs_lt in Ha. lia. }
  intros [c' nh] (W' & E & Hsz' & Hnh). simpl in *.
  apply (put_stream_upd s _ c c' g); try done; try lia.
  unfold lower_head. pose proof (ki_head _ _ I s h Hh). case_match; lia.
Qed.
End streams.

(** ** The operations as functions on cells *)

Definition in_range (p0 p1 : Z) (a : cell) : Prop := fix_p0 p0 <= a_pos a < fix_p1 p1.
#[export] Instance in_range_dec p0 p1 a : Decision (in_range p0 p1 a).
Proof. apply _. Defined.

Definition spec_rm (s p0 p1 : Z) (a : cell) : cell :=
  if decide (in_range p0 p1 a /\ s ∈ a_seq a) then (spec_seq_rm a s).1 else a.
Definition spec_rm_any (p0 p1 : Z) (a : cell) : cell :=
  if decide (in_range p0 p1 a) then cell_empty else a.
Definition spec_cp (src dst p0 p1 : Z) (a : cell) : cell :=
  if decide (in_range p0 p1 a /\ src ∈ a_seq a)
  then mk_cell (a_pos a) (a_ext a) (a_shift a) ({[dst]} ∪ a_seq a) else a.
Definition spec_keep (s : Z) (a : cell) : cell := (spec_seq_keep a s).1.
Definition spec_add (s p0 p1 d : Z) (a : cell) : cell :=
  if decide (in_range p0 p1 a /\ s ∈ a_seq a) then (spec_pos_add a d).1 else a.
Definition spec_div (s p0 p1 d : Z) (a : cell) : cell :=
  if decide (in_range p0 p1 a /\ s ∈ a_seq a) then spec_pos_div a d else a.

Lemma updated_same c i a : kv_wf c -> cells_abs c !! i = Some a -> updated c i a c.
Proof. intros W Ha. split; [done|]. by rewrite list_insert_id. Qed.

Lemma fix_p0_nonneg p0 : 0 <= fix_p0 p0.
Proof. unfold fix_p0. destruct (Z.ltb_spec p0 0); lia. Qed.

Lemma in_range_pos p0 p1 a : in_range p0 p1 a -> a_pos a <> -1.
Proof. unfold in_range. pose proof (fix_p0_nonneg p0). lia. Qed.

Lemma pos_in_decide p0 p1 a :
  (a_pos a >=? fix_p0 p0) && (a_pos a <? fix_p1 p1) = bool_decide (in_range p0 p1 a).
Proof. unfold in_range. apply eq_bool_prop_intro. rewrite bool_decide_spec. rewrite Is_true_true. lia. Qed.

Lemma note_free_le size nh i : (nh <= size)%nat -> (i < size)%nat -> (note_free size nh i <= size)%nat.
Proof. unfold note_free. case_match; lia. Qed.

(** The copy of a cell to another stream: only the destination sequence is kept. *)
Definition cp_cell (src dst : Z) (a : cell) : cell :=
  if decide (src ∈ a_seq a) then mk_cell (a_pos a) (a_ext a) (a_shift a) {[dst]} else cell_empty.

Lemma seq_cp_cell_ok c0 c1 src dst i a :
  kv_wf c0 -> kv_wf c1 -> cells_abs c0 !! i = Some a -> cells_abs c1 !! i = Some cell_empty ->
  0 <= src < Z.of_nat LLAMA_MAX_SEQ -> 0 <= dst < Z.of_nat LLAMA_MAX_SEQ ->
  (src ∈ a_seq a -> 0 <= a_pos a - a_shift a <= INT32_MAX /\ INT32_MIN <= a_shift a <= INT32_MAX) ->
  runs (seq_cp_cell c0 src dst c1 i) (updated c1 i (cp_cell src dst a)).
Proof.
  intros W0 W1 Ha Ha1 Hsrc Hdst Hsh. unfold seq_cp_cell, cp_cell.
  rewrite (cells_seq_has_ok c0 i a) by done. rewrite bind_ok.
  case_bool_decide as Hin; cbn [negb]; [rewrite decide_True by done|rewrite decide_False by done;
    by apply runs_ok, updated_same].
  destruct (Hsh Hin) as [R1 R2]. destruct (cell_seq_pos a src (wf_cell _ W0 _ _ Ha) Hin) as [Hp _].
  assert (Hpm : a_pos a <= INT32_MAX) by apply (wf_cell _ W0 _ _ Ha).
  rewrite (cells_pos_get_ok c0 i a), bind_ok by (done || lia).
  rewrite (cells_get_shift_ok c0 i a), bind_ok by (done || lia).
  rewrite (cells_ext_get_ok c0 i a), bind_ok by (done || lia).
  apply runs_bind. eapply runs_mono with (P := fun p => p = a_pos a - a_shift a).
  { destruct (Z.eqb_spec (a_shift a) 0) as [E|E]; cbn [negb]; [apply runs_ok; lia|].
    rewrite i32_ok, bind_ok by (unfold INT32_MIN, INT32_MAX in *; lia). apply runs_assert; [lia|]. by apply runs_ok. }
  intros p ->. apply runs_bind. eapply runs_mono; [by apply (cells_pos_set_ok c1 i cell_empty)|].
  intros c2 [[W2 E2] _]. apply runs_bind.
  assert (A2 : cells_abs c2 !! i = Some (mk_cell (a_pos a - a_shift a) ext_reset 0 ∅)).
  { rewrite E2, list_lookup_insert_eq; [done|by eapply lookup_lt_Some]. }
  eapply runs_mono; [apply (cells_seq_add_ok c2 i _ dst W2 A2); simpl; [lia|done|set_solver]|].
  intros c3 [[W3 E3] _]. simpl in E3. rewrite E2, list_insert_insert_eq, union_empty_r_L in E3.
  assert (A3 : cells_abs c3 !! i = Some (mk_cell (a_pos a - a_shift a) ext_reset 0 {[dst]})).
  { rewrite E3, list_lookup_insert_eq; [done|by eapply lookup_lt_Some]. }
  apply runs_bind. eapply runs_mono with (P := updated c1 i (mk_cell (a_pos a) ext_reset (a_shift a) {[dst]})).
  { destruct (Z.eqb_spec (a_shift a) 0) as [E|E]; cbn [negb].
    - apply runs_ok. split; [done|]. rewrite E3. repeat f_equal; lia.
    - apply runs_bind. eapply runs_mono; [apply (cells_pos_add_ok c3 i _ (a_shift a) W3 A3); simpl; unfold INT32_MIN, INT32_MAX in *; lia|].
      intros r (_ & [W4 E4] & _). apply runs_ok. split; [done|]. rewrite E4, E3, list_insert_insert_eq.
      f_equal. unfold spec_pos_add. simpl. rewrite decide_False by lia. simpl. f_equal; lia. }
  intros c4 [W4 E4].
  assert (A4 : cells_abs c4 !! i = Some (mk_cell (a_pos a) ext_reset (a_shift a) {[dst]})).
  { rewrite E4, list_lookup_insert_eq; [done|by eapply lookup_lt_Some]. }
  eapply runs_mono; [apply (cells_ext_set_ok c4 i _ (a_ext a) W4 A4)|].
  intros c5 [[W5 E5] _]. split; [done|]. simpl in E5. by rewrite E5, E4, list_insert_insert_eq.
Qed.

Section ops.
Context (kv : llama_kv_cache) (size : nat) (I : kv_inv kv size).

(** The facts about a cell of stream [s]. *)
Lemma stream_cell s c i a :
  v_cells kv !! s = Some c -> cells_abs c !! i = Some a ->
  cell_ok a /\ (a_pos a <> -1 -> a_seq a <> ∅) /\
  (forall x, x ∈ a_seq a -> seq_to_stream kv !! Z.to_nat x = Some s).
Proof.
  intros Hc Ha. destruct (ki_wf _ _ I s c Hc) as (W & _ & F).
  split; [by apply (wf_cell _ W i)|]. by apply (F i).
Qed.

Lemma valid_id x : 0 <= x < Z.of_nat (length (seq_to_stream kv)) -> 0 <= x < Z.of_nat LLAMA_MAX_SEQ.
Proof. destruct (ki_map _ _ I) as [[_ H] _]. lia. Qed.

(** A function that only shrinks the set of sequences fits. *)
Lemma fits_shrink s c g :
  v_cells kv !! s = Some c ->
  (forall i a, cells_abs c !! i = Some a ->
     (a_pos (g a) <> -1 -> a_seq (g a) <> ∅) /\ a_seq (g a) ⊆ a_seq a) -> fits kv s (cells_abs c) g.
Proof.
  intros Hc H i a Ha. destruct (H i a Ha) as [H1 H2]. split; [done|].
  intros x Hx. apply (stream_cell s c i a Hc Ha). by apply H2.
Qed.

(** The test [!cells.pos_in(i, p0, p1)] and the test of the sequence, together. *)
Lemma pos_seq_test {B} c1 i a seq_id p0 p1 (k : res B) (d : res B) (P : B -> Prop) :
  kv_wf c1 -> cells_abs c1 !! i = Some a -> 0 <= seq_id < Z.of_nat LLAMA_MAX_SEQ ->
  (in_range p0 p1 a /\ seq_id ∈ a_seq a -> runs k P) ->
  (~ (in_range p0 p1 a /\ seq_id ∈ a_seq a) -> runs d P) ->
  runs (b ← cells_pos_in c1 i (fix_p0 p0) (fix_p1 p1);
        if negb b then d else h ← cells_seq_has c1 i seq_id; if (h : bool) then k else d) P.
Proof.
  intros W Ha Hs Hk Hd. rewrite (cells_pos_in_ok c1 i a) by done. rewrite bind_ok, pos_in_decide.
  case_bool_decide as H1; cbn [negb]; [|apply Hd; naive_solver].
  rewrite (cells_seq_has_ok c1 i a) by done. rewrite bind_ok.
  case_bool_decide as H2; [by apply Hk|apply Hd; naive_solver].
Qed.

(** The configuration of a cache is what [with_cells] keeps. *)
Lemma kv_self (k : llama_kv_cache) : exists hs cs, k = with_cells hs cs k.
Proof. exists (v_heads k), (v_cells k). by destruct k. Qed.

Lemma with_cells_trans (k k1 k2 : llama_kv_cache) :
  (exists hs cs, k1 = with_cells hs cs k) -> (exists hs cs, k2 = with_cells hs cs k1) ->
  exists hs cs, k2 = with_cells hs cs k.
Proof. intros (? & ? & ->) (hs & cs & ->). by exists hs, cs. Qed.

Lemma n_stream_same (k k' : llama_kv_cache) :
  (exists hs cs, k' = with_cells hs cs k) -> k_n_stream k' = k_n_stream k.
Proof. by intros (? & ? & ->). Qed.

Lemma kv_clear_false :
  runs (kv_clear false kv) (fun kv' => kv_inv kv' size /\
    (exists hs cs, kv' = with_cells hs cs kv) /\
    forall s c', v_cells kv' !! s = Some c' -> cells_abs c' = replicate size cell_empty).
Proof.
  unfold kv_clear. apply runs_bind. eapply runs_mono.
  { apply (runs_for (fun i kv' => kv_inv kv' size /\ (exists hs cs, kv' = with_cells hs cs kv) /\
      forall s c', (s < i)%nat -> v_cells kv' !! s = Some c' -> cells_abs c' = replicate size cell_empty)).
    - split; [done|]. split; [by apply kv_self|]. lia.
    - intros i kv' Hi (I' & En & Hdone). pose proof (n_stream_same _ _ En) as Hn.
      destruct (stream_lookup kv' size I' i) as (c & h & Hc & Hh); [lia|].
      destruct (ki_wf _ _ I' i c Hc) as (W & Hsz & _).
      destruct (cells_reset_ok c) as (Wr & Er & _); try apply W.
      rewrite (rd_ok _ _ _ Hc), bind_ok. eapply runs_mono.
      { apply (put_stream_ok kv' size I' i 0 (cells_reset c) c); try done; [lia| |].
        - rewrite <- (length_abs _ Wr), Er, length_replicate. done.
        - rewrite Er. intros j a [-> _]%lookup_replicate. split; [done|set_solver]. }
      intros kv2 (I2 & H2 & _ & E2 & Hother). split; [done|]. split; [by eapply with_cells_trans|].
      intros s c' Hs Hc'. destruct (decide (s = i)) as [->|Hne].
      + rewrite H2 in Hc'. injection Hc' as <-. by rewrite Er, Hsz.
      + destruct (Hother s Hne) as [E _]. rewrite E in Hc'. apply (Hdone s); [lia|done]. }
  intros kv' (I' & En & H). apply runs_ok. split; [done|]. split; [done|]. intros s c' Hc'. apply (H s); [|done].
  rewrite <- (n_stream_same _ _ En), <- (ki_cells _ _ I'). by eapply lookup_lt_Some.
Qed.

Lemma kv_seq_rm_ok x p0 p1 :
  0 <= x < Z.of_nat (length (seq_to_stream kv)) ->
  exists s, seq_to_stream kv !! Z.to_nat x = Some s /\
  runs (kv_seq_rm kv x p0 p1) (fun r => r.2 = true /\ stream_upd size kv s (spec_rm x p0 p1) r.1).
Proof.
  intros Hx. destruct (seq_stream_ok kv size I x Hx) as (s & _ & Hs & Hlt). exists s. split; [done|].
  unfold kv_seq_rm. replace ((x =? -1) || _) with true by lia. unfold assert_. rewrite bind_ok.
  replace (x >=? 0) with true by lia. rewrite (rd_ok _ _ _ Hs), bind_ok.
  destruct (stream_lookup kv size I s Hlt) as (c & h & Hc & _).
  apply runs_bind. eapply runs_mono; [apply (over_cells_ok kv size I _ s (spec_rm x p0 p1) c Hc)|].
  - apply (fits_shrink s c); [done|]. intros i a Ha. destruct (stream_cell s c i a Hc Ha) as (_ & Hne & _).
    unfold spec_rm, spec_seq_rm. repeat case_decide; simpl; try done; set_solver.
  - intros c1 nh i a W1 Hs1 Hnh Hi Ha Ha1. unfold seq_rm_step.
    apply (pos_seq_test c1 i a); try done; [by apply valid_id| |].
    + intros [H1 H2]. apply runs_bind. eapply runs_mono; [by apply (cells_seq_rm_ok c1 i a x)|].
      intros r (E1 & U & _). apply runs_ok. simpl. split.
      * unfold spec_rm. by rewrite decide_True.
      * case_match; [rewrite Hs1; by apply note_free_le|done].
    + intros H. apply runs_ok. simpl. split; [|done]. unfold spec_rm. rewrite decide_False by done.
      by apply updated_same.
  - intros kv' U. by apply runs_ok.
Qed.

Lemma kv_seq_keep_ok x :
  0 <= x < Z.of_nat (length (seq_to_stream kv)) ->
  exists s, seq_to_stream kv !! Z.to_nat x = Some s /\
  runs (kv_seq_keep kv x) (stream_upd size kv s (spec_keep x)).
Proof.
  intros Hx. destruct (seq_stream_ok kv size I x Hx) as (s & E & Hs & Hlt). exists s. split; [done|].
  unfold kv_seq_keep. rewrite E, bind_ok.
  destruct (stream_lookup kv size I s Hlt) as (c & h & Hc & _).
  apply (over_cells_ok kv size I _ s (spec_keep x) c Hc).
  - apply (fits_shrink s c); [done|]. intros i a Ha. destruct (stream_cell s c i a Hc Ha) as (_ & Hne & _).
    unfold spec_keep, spec_seq_keep. repeat case_decide; simpl; try done; set_solver.
  - intros c1 nh i a W1 Hs1 Hnh Hi Ha Ha1. unfold seq_keep_step. apply runs_bind.
    destruct (stream_cell s c i a Hc Ha) as (_ & Hne & _).
    eapply runs_mono; [apply (cells_seq_keep_ok c1 i a x); try done; [by apply valid_id|]|].
    + intros H. destruct (decide (a_pos a = -1)); [done|]. by destruct Hne.
    + intros r (E1 & U & _). apply runs_ok. simpl. split; [done|].
      case_match; [rewrite Hs1; by apply note_free_le|done].
Qed.

(** [seq_rm] with a negative sequence id empties the cells of the range in every stream. *)
Lemma kv_seq_rm_any_ok p0 p1 :
  runs (kv_seq_rm kv (-1) p0 p1) (fun r => r.2 = true /\ kv_inv r.1 size /\
    (exists hs cs, r.1 = with_cells hs cs kv) /\
    forall s c, v_cells kv !! s = Some c ->
      exists c', v_cells r.1 !! s = Some c' /\ cells_abs c' = spec_rm_any p0 p1 <$> cells_abs c).
Proof.
  unfold kv_seq_rm. change ((-1 =? -1) || _) with true. unfold assert_. rewrite bind_ok.
  change (-1 >=? 0) with false. cbv iota. apply runs_bind. eapply runs_mono.
  { apply (runs_for (fun i kv' => kv_inv kv' size /\ (exists hs cs, kv' = with_cells hs cs kv) /\
      (forall s, (i <= s)%nat -> v_cells kv' !! s = v_cells kv !! s) /\
      forall s c, (s < i)%nat -> v_cells kv !! s = Some c ->
        exists c', v_cells kv' !! s = Some c' /\ cells_abs c' = spec_rm_any p0 p1 <$> cells_abs c)).
    - split; [done|]. split; [by apply kv_self|]. split; [done|]. lia.
    - intros i kv' Hi (I' & En & Hsame & Hdone). pose proof (n_stream_same _ _ En) as Hn.
      destruct (stream_lookup kv' size I' i) as (c & h & Hc & Hh); [lia|].
      eapply runs_mono; [apply (over_cells_ok kv' size I' _ i (spec_rm_any p0 p1) c Hc)|].
      + intros j a Ha. destruct (ki_wf _ _ I' i c Hc) as (_ & _ & F).
        destruct (F j a Ha) as [F1 F2]. unfold spec_rm_any. case_decide; [|done].
        split; [done|]. simpl. set_solver.
      + intros c1 nh j a W1 Hs1 Hnh Hj Ha Ha1. unfold rm_any_step.
        rewrite (cells_pos_in_ok c1 j a) by done. rewrite bind_ok, pos_in_decide.
        unfold spec_rm_any. case_bool_decide as Hr; cbn [negb].
        * apply runs_bind. rewrite decide_True by done.
          eapply runs_mono; [apply (cells_rm_ok c1 j a W1 Ha1); by eapply in_range_pos|].
          intros c2 [U _]. apply runs_ok. simpl. split; [done|]. rewrite Hs1. by apply note_free_le.
        * apply runs_ok. rewrite decide_False by done. simpl. split; [by apply updated_same|done].
      + intros kv2 [I2 E2 Hat Hother]. split; [done|]. split; [by eapply with_cells_trans|]. split.
        * intros s Hs. destruct (Hother s ltac:(lia)) as [-> _]. apply Hsame. lia.
        * intros s c1 Hs Hc1. destruct (decide (s = i)) as [->|Hne].
          { apply Hat. by rewrite Hsame. }
          destruct (Hother s Hne) as [-> _]. apply Hdone; [lia|done]. }
  intros kv' (I' & En & _ & H). apply runs_ok. split; [done|]. split; [done|]. split; [done|].
  intros s c Hc. apply H; [|done]. rewrite <- (ki_cells _ _ I). by eapply lookup_lt_Some.
Qed.

(** No arithmetic of [seq_add] leaves the 32-bit range on these cells. *)
Definition add_safe (s : nat) (x p0 p1 d : Z) : Prop :=
  forall c i a, v_cells kv !! s = Some c -> cells_abs c !! i = Some a ->
    in_range p0 p1 a -> x ∈ a_seq a ->
    INT32_MIN <= a_pos a + d <= INT32_MAX /\ INT32_MIN <= a_shift a + d <= INT32_MAX.

Lemma spec_add_fit s c x p0 p1 d :
  v_cells kv !! s = Some c -> fits kv s (cells_abs c) (spec_add x p0 p1 d).
Proof.
  intros Hc. apply (fits_shrink s c); [done|]. intros i a Ha.
  destruct (stream_cell s c i a Hc Ha) as (_ & Hne & _).
  unfold spec_add, spec_pos_add. repeat case_decide; simpl; try done; set_solver.
Qed.

Lemma in_range_empty p0 p1 a : fix_p0 p0 = fix_p1 p1 -> ~ in_range p0 p1 a.
Proof. unfold in_range. lia. Qed.

(** An operation that changes no cell. *)
Lemma stream_upd_id s g :
  (s < k_n_stream kv)%nat -> (forall c i a, v_cells kv !! s = Some c -> cells_abs c !! i = Some a -> g a = a) ->
  stream_upd size kv s g kv.
Proof.
  intros Hs H. split; [done| | |done].
  - exists (v_heads kv), (v_cells kv). by destruct kv.
  - intros c Hc. exists c. split; [done|]. apply list_eq. intros i. rewrite list_lookup_fmap.
    destruct (cells_abs c !! i) as [a|] eqn:E; [|done]. simpl. by rewrite (H c i a).
Qed.

Lemma kv_seq_add_ok x p0 p1 d :
  0 <= x < Z.of_nat (length (seq_to_stream kv)) -> n_pos_per_embd (k_hparams kv) = 1 ->
  exists s, seq_to_stream kv !! Z.to_nat x = Some s /\
  (add_safe s x p0 p1 d ->
   runs (kv_seq_add kv x p0 p1 d) (stream_upd size kv s (if d =? 0 then id else spec_add x p0 p1 d))).
Proof.
  intros Hx Hn. destruct (seq_stream_ok kv size I x Hx) as (s & E & Hs & Hlt). exists s. split; [done|].
  intros Hsafe. unfold kv_seq_add. rewrite E, bind_ok, Hn. change (assert_ (1 =? 1)) with (Ok tt). rewrite bind_ok.
  destruct (stream_lookup kv size I s Hlt) as (c & h & Hc & _).
  rewrite (rd_ok _ _ _ Hc), bind_ok. destruct (Z.eqb_spec d 0) as [->|Hd].
  { apply runs_ok. by apply stream_upd_id. }
  destruct (Z.eqb_spec (fix_p0 p0) (fix_p1 p1)) as [Hr|Hr].
  { apply runs_ok, stream_upd_id; [done|]. intros c1 i a _ _. unfold spec_add.
    rewrite decide_False; [done|]. intros [H _]. by eapply in_range_empty. }
  destruct (ki_wf _ _ I s c Hc) as (W & Hsz & _).
  apply runs_bind. eapply runs_mono.
  { apply (cells_loop fst (fun st => (st.2 <= size)%nat) (spec_add x p0 p1 d)); try done; simpl; [lia|].
    intros [c1 nh] i a W1 Hs1 Hnh Ha Ha1. simpl in *. unfold seq_add_step.
    apply (pos_seq_test c1 i a); try done; [by apply valid_id| |].
    - intros [H1 H2]. destruct (Hsafe c i a Hc Ha H1 H2) as [O1 O2]. apply runs_bind.
      eapply runs_mono; [apply (cells_pos_add_ok c1 i a d W1 Ha1); [by eapply in_range_pos|done..]|].
      intros r (E1 & U & _). apply runs_ok. simpl. unfold spec_add. rewrite decide_True by done. split; [done|].
      apply abs_lt in Ha. case_match; [rewrite Hs1, Hsz; apply note_free_le; lia|done].
    - intros H. apply runs_ok. simpl. unfold spec_add. rewrite decide_False by done.
      split; [by apply updated_same|done]. }
  intros [c' nh] (W' & Eabs & Hsz' & Hnh). simpl in *.
  apply (put_stream_upd kv size I s _ c c'); try done; [|lia|by apply spec_add_fit].
  case_match; lia.
Qed.

Definition div_safe (s : nat) (x p0 p1 d : Z) : Prop :=
  forall c i a, v_cells kv !! s = Some c -> cells_abs c !! i = Some a ->
    in_range p0 p1 a -> x ∈ a_seq a ->
    a_shift a + (a_pos a - Z.quot (a_pos a) d) <= INT32_MAX /\ INT32_MIN <= a_shift a.

Lemma kv_seq_div_ok x p0 p1 d :
  0 <= x < Z.of_nat (length (seq_to_stream kv)) -> n_pos_per_embd (k_hparams kv) = 1 -> 1 < d ->
  exists s, seq_to_stream kv !! Z.to_nat x = Some s /\
  (div_safe s x p0 p1 d ->
   runs (kv_seq_div kv x p0 p1 d) (stream_upd size kv s (spec_div x p0 p1 d))).
Proof.
  intros Hx Hn Hd. destruct (seq_stream_ok kv size I x Hx) as (s & E & Hs & Hlt). exists s. split; [done|].
  intros Hsafe. unfold kv_seq_div. rewrite E, bind_ok, Hn. change (assert_ (1 =? 1)) with (Ok tt). rewrite bind_ok.
  destruct (stream_lookup kv size I s Hlt) as (c & h & Hc & Hh).
  rewrite (rd_ok _ _ _ Hc), bind_ok. destruct (Z.eqb_spec d 1) as [->|_]; [lia|].
  destruct (Z.eqb_spec (fix_p0 p0) (fix_p1 p1)) as [Hr|Hr].
  { apply runs_ok, stream_upd_id; [done|]. intros c1 i a _ _. unfold spec_div.
    rewrite decide_False; [done|]. intros [H _]. by eapply in_range_empty. }
  rewrite (rd_ok _ _ _ Hh), bind_ok. destruct (ki_wf _ _ I s c Hc) as (W & Hsz & _).
  apply runs_bind. eapply runs_mono.
  { apply (cells_loop id (fun _ => True) (spec_div x p0 p1 d)); try done.
    intros c1 i a W1 Hs1 _ Ha Ha1. unfold id in *. unfold seq_div_step.
    apply (pos_seq_test c1 i a); try done; [by apply valid_id| |].
    - intros [H1 H2]. destruct (Hsafe c i a Hc Ha H1 H2) as [O1 O2].
      eapply runs_mono; [apply (cells_pos_div_ok c1 i a d W1 Ha1); [by eapply in_range_pos|lia|done..]|].
      intros c2 [U _]. unfold spec_div. by rewrite decide_True.
    - intros H. apply runs_ok. unfold spec_div. rewrite decide_False by done. split; [by apply updated_same|done]. }
  intros c' (W' & Eabs & Hsz' & _). unfold id in *.
  apply (put_stream_upd kv size I s _ c c'); try done; [by apply (ki_head _ _ I s)|lia|].
  apply (fits_shrink s c); [done|]. intros i a Ha. destruct (stream_cell s c i a Hc Ha) as (_ & Hne & _).
  unfold spec_div, spec_pos_div. case_decide as Hdc; simpl; [|by split].
  split; [set_solver|done].
Qed.

(** Within a stream, [seq_cp] adds [dst] to the cells of [src] in the range. *)
Lemma kv_seq_cp_same_ok src dst p0 p1 s :
  0 <= src < Z.of_nat (length (seq_to_stream kv)) -> 0 <= dst < Z.of_nat (length (seq_to_stream kv)) ->
  seq_to_stream kv !! Z.to_nat src = Some s -> seq_to_stream kv !! Z.to_nat dst = Some s -> src <> dst ->
  (forall c i a, v_cells kv !! s = Some c -> cells_abs c !! i = Some a ->
     in_range p0 p1 a -> src ∈ a_seq a -> dst ∉ a_seq a) ->
  runs (kv_seq_cp kv src dst p0 p1) (stream_upd size kv s (spec_cp src dst p0 p1)).
Proof.
  intros Hsrc Hdst Es Ed Hne Hfree. unfold kv_seq_cp.
  destruct (seq_stream_ok kv size I src Hsrc) as (s0 & -> & E0 & Hlt). simplify_eq.
  destruct (seq_stream_ok kv size I dst Hdst) as (s1 & -> & E1 & _). simplify_eq.
  rewrite !bind_ok, Nat.eqb_refl. unfold seq_cp_same.
  destruct (Z.eqb_spec src dst) as [?|_]; [done|].
  destruct (stream_lookup kv size I s Hlt) as (c & h & Hc & Hh).
  destruct (ki_wf _ _ I s c Hc) as (W & Hsz & F).
  rewrite (rd_ok _ _ _ Hc), bind_ok, (rd_ok _ _ _ Hh), bind_ok.
  apply runs_bind. eapply runs_mono.
  { apply (cells_loop id (fun _ => True) (spec_cp src dst p0 p1)); try done.
    intros c1 i a W1 Hs1 _ Ha Ha1. unfold id in *.
    apply (pos_seq_test c1 i a); try done; [by apply valid_id| |].
    - intros [H1 H2]. eapply runs_mono; [apply (cells_seq_add_ok c1 i a dst W1 Ha1);
        [by eapply in_range_pos|by apply valid_id|by eapply Hfree]|].
      intros c2 [U _]. unfold spec_cp. by rewrite decide_True.
    - intros H. apply runs_ok. unfold spec_cp. rewrite decide_False by done. split; [by apply updated_same|done]. }
  intros c' (W' & Eabs & Hsz' & _). unfold id in *.
  apply (put_stream_upd kv size I s _ c c'); try done; [by apply (ki_head _ _ I s)|lia|].
  intros i a Ha. destruct (F i a Ha) as [F1 F2]. unfold spec_cp. case_decide; simpl; [|done].
  split; [set_solver|]. intros x [->%elem_of_singleton|Hx]%elem_of_union; [done|by apply F2].
Qed.

(** Across streams, [seq_cp] rebuilds the cells of the destination stream and queues the
    copy of its data. *)
Lemma kv_seq_cp_cross_ok src dst p0 p1 s0 s1 c0 c1 :
  0 <= src < Z.of_nat (length (seq_to_stream kv)) -> 0 <= dst < Z.of_nat (length (seq_to_stream kv)) ->
  seq_to_stream kv !! Z.to_nat src = Some s0 -> seq_to_stream kv !! Z.to_nat dst = Some s1 -> s0 <> s1 ->
  (p0 <= 0 \/ Z.of_nat size <= p0 + 1) -> (p1 <= 0 \/ Z.of_nat size <= p1 + 1) ->
  v_cells kv !! s0 = Some c0 -> v_cells kv !! s1 = Some c1 ->
  (forall i a, cells_abs c0 !! i = Some a -> src ∈ a_seq a ->
     0 <= a_pos a - a_shift a <= INT32_MAX /\ INT32_MIN <= a_shift a <= INT32_MAX) ->
  runs (kv_seq_cp kv src dst p0 p1) (fun kv' => kv_inv kv' size /\
    (exists hs cs sc, kv' = with_cells hs cs (with_sc_info sc kv)) /\
    ssrc (sc_info kv') = ssrc (sc_info kv) ++ [s0] /\ sdst (sc_info kv') = sdst (sc_info kv) ++ [s1] /\
    (exists c1', v_cells kv' !! s1 = Some c1' /\ cells_abs c1' = cp_cell src dst <$> cells_abs c0) /\
    forall s, s <> s1 -> v_cells kv' !! s = v_cells kv !! s).
Proof.
  intros Hsrc Hdst Es Ed Hne Hp0 Hp1 Hc0 Hc1 Hsh. unfold kv_seq_cp.
  pose proof (valid_id src Hsrc) as Vs. pose proof (valid_id dst Hdst) as Vd.
  destruct (seq_stream_ok kv size I src Hsrc) as (s0' & -> & E0 & Hlt0). simplify_eq.
  destruct (seq_stream_ok kv size I dst Hdst) as (s1' & -> & E1 & Hlt1). simplify_eq.
  rewrite !bind_ok. destruct (Nat.eqb_spec s0 s1) as [?|_]; [done|].
  destruct (ki_wf _ _ I s0 c0 Hc0) as (W0 & Hs0 & F0), (ki_wf _ _ I s1 c1 Hc1) as (W1 & Hs1 & F1).
  assert (Esz : kv_get_size kv = Ok size).
  { unfold kv_get_size. destruct (ki_map _ _ I) as [[Hm _] Hmap].
    destruct (lookup_lt_is_Some_2 (seq_to_stream kv) 0 Hm) as [s Hs].
    destruct (stream_lookup kv size I s (Hmap _ _ Hs)) as (c & h & Hc & _).
    rewrite (rd_ok _ _ _ Hs), bind_ok, (rd_ok _ _ _ Hc), bind_ok.
    destruct (ki_wf _ _ I s c Hc) as (_ & -> & _). done. }
  rewrite Esz, bind_ok. apply runs_assert; [lia|].
  destruct (stream_lookup kv size I s0 Hlt0) as (c0' & h0 & Hc0' & Hh0). simplify_eq.
  set (kv1 := with_sc_info _ kv).
  assert (I1 : kv_inv kv1 (cells_size c0)) by (split; apply I).
  change (v_cells kv1) with (v_cells kv). change (v_heads kv1) with (v_heads kv).
  rewrite (rd_ok _ _ _ Hc0), bind_ok, (rd_ok _ _ _ Hc1), bind_ok.
  destruct (cells_reset_ok c1) as (Wr & Er & _); try apply W1.
  assert (Hl : length (cells_abs c0) = cells_size c0) by by apply length_abs.
  apply runs_bind. eapply runs_mono.
  { apply (runs_for (fun i c => kv_wf c /\
      cells_abs c = (cp_cell src dst <$> take i (cells_abs c0)) ++ drop i (cells_abs (cells_reset c1)))).
    - by rewrite drop_0.
    - intros i c Hi [Wc Ec]. destruct (lookup_lt_is_Some_2 (cells_abs c0) i) as [a Ha]; [lia|].
      assert (Hla : length (cp_cell src dst <$> take i (cells_abs c0)) = i) by (rewrite length_fmap, length_take; lia).
      assert (He : cells_abs (cells_reset c1) !! i = Some cell_empty) by (rewrite Er; apply lookup_replicate; split; [done|lia]).
      eapply runs_mono; [apply (seq_cp_cell_ok c0 c src dst i a); try done|].
      + by rewrite Ec, lookup_app_r, Hla, Nat.sub_diag, lookup_drop, Nat.add_0_r by lia.
      + by apply (Hsh i).
      + intros c' [W' E']. split; [done|]. rewrite E', Ec, insert_app_r_alt, Hla, Nat.sub_diag by lia.
        rewrite (drop_S _ _ _ He), Nat.add_1_r, (take_S_r _ _ _ Ha), fmap_app, <- app_assoc. done. }
  intros c1' [W1' E1']. rewrite take_ge, drop_ge, app_nil_r in E1' by (rewrite ?Er, ?length_replicate; lia).
  rewrite (rd_ok _ _ _ Hh0), bind_ok. eapply runs_mono.
  { apply (put_stream_ok kv1 (cells_size c0) I1 s1 h0 c1' c1); try done.
    - by apply (ki_head _ _ I s0).
    - by rewrite <- (length_abs c1' W1'), E1', length_fmap.
    - rewrite E1'. intros i b. rewrite list_lookup_fmap. intros (a & Ha & ->)%fmap_Some.
      unfold cp_cell. case_decide; simpl; [|split; [done|set_solver]].
      split; [set_solver|]. by intros x ->%elem_of_singleton. }
  intros kv' (I' & Hc' & _ & (hs & cs & ->) & Hother). split; [done|]. split; [by eauto|]. simpl. do 2 (split; [done|]).
  split; [by eauto|]. intros s Hs. by destruct (Hother s Hs).
Qed.

(** ** The getters *)

Lemma kv_seq_pos_min_ok x :
  0 <= x < Z.of_nat (length (seq_to_stream kv)) ->
  exists s c, seq_to_stream kv !! Z.to_nat x = Some s /\ v_cells kv !! s = Some c /\ kv_wf c /\
    runs (kv_seq_pos_min kv x) (spec_pos_min (cells_abs c) x) /\
    runs (kv_seq_pos_max kv x) (spec_pos_max (cells_abs c) x).
Proof.
  intros Hx. destruct (seq_stream_ok kv size I x Hx) as (s & E & Hs & Hlt).
  destruct (stream_lookup kv size I s Hlt) as (c & h & Hc & _).
  destruct (ki_wf _ _ I s c Hc) as (W & _ & _). exists s, c. do 3 (split; [done|]).
  unfold kv_seq_pos_min, kv_seq_pos_max. rewrite E, !bind_ok, (rd_ok _ _ _ Hc), !bind_ok.
  split; [apply cells_seq_pos_min_ok|apply cells_seq_pos_max_ok]; try done; by apply valid_id.
Qed.
End ops.

(** The cache keeps the promises of the memory interface. *)
#[export] Instance llama_kv_cache_laws :
  LlamaMemoryLaws llama_kv_cache (fun kv => exists size, kv_inv kv size)
    (fun kv => Z.of_nat (length (seq_to_stream kv))).
Proof.
  split. intros kv x [size I] Hx.
  destruct (kv_seq_pos_min_ok kv size I x Hx) as (s & c & _ & Hc & W & Hmin & Hmax).
  apply runs_inv in Hmin as (lo & Elo & Slo). apply runs_inv in Hmax as (hi & Ehi & Shi).
  exists lo, hi. do 2 (split; [done|]).
  destruct Slo as [[-> N]|[(i & a & Ha & Hin & <-) M]], Shi as [[-> N']|[(j & b & Hb & Hinb & <-) M']].
  - unfold INT32_MAX. lia.
  - by destruct (N j b Hb).
  - by destruct (N' i a Ha).
  - destruct (cell_seq_pos a x (wf_cell _ W _ _ Ha) Hin) as [P1 _].
    destruct (cell_seq_pos b x (wf_cell _ W _ _ Hb) Hinb) as [P2 _].
    assert (a_pos b <= INT32_MAX) by apply (wf_cell _ W _ _ Hb).
    specialize (M' i a Ha Hin). lia.
Qed.
