(* ===== verification/KvCacheSlot.v ===== *)
(** Slots of the KV cache (src/llama/llama.cpp/src/llama-kv-cache.cpp): [find_slot] finds
    the free cells in ring order and fails only when there are too few, [apply_ubatch]
    places a micro-batch in them, and [prepare] leaves the cells of a cache without sliding
    window as they were. *)

From S2P Require Import Prelude Hparams KvCells Memory Batch KvCache KvCacheSeq.
Local Open Scope Z_scope.

(** ** The cells that can be used *)

(** The specification of [can_use_cell] on a cache without sliding window. *)
Lemma can_use_none kv c i a :
  k_swa_type kv = LLAMA_SWA_TYPE_NONE -> kv_wf c -> cells_abs c !! i = Some a ->
  (a_pos a <> -1 -> a_seq a <> ∅) ->
  (forall j b, cells_abs c !! j = Some b -> a_pos b < INT32_MAX) ->
  can_use_cell kv c i = Ok (a_pos a =? -1).
Proof.
  intros Ht W Ha Hne Hmax. unfold can_use_cell. rewrite (cells_is_empty_ok c i a), bind_ok by done.
  destruct (Z.eqb_spec (a_pos a) (-1)) as [|Hp]; [done|].
  rewrite (cells_seq_count_ok c i a), bind_ok by done.
  destruct (Nat.eqb_spec (size (a_seq a)) 1) as [Hs|]; [|done].
  apply size_1_elem_of in Hs as [x Hx]. apply leibniz_equiv in Hx.
  rewrite (cells_pos_get_ok c i a), bind_ok by done.
  rewrite (cells_seq_get_ok c i a x), bind_ok by done.
  assert (Hxin : x ∈ a_seq a) by (rewrite Hx; set_solver).
  destruct (cell_seq_pos a x (wf_cell _ W _ _ Ha) Hxin) as [Hp0 Hr].
  destruct (runs_inv _ _ (cells_seq_pos_max_ok c x W Hr)) as (m & -> & Hm). rewrite bind_ok.
  destruct Hm as [[-> N]|[(j & b & Hb & Hin & <-) M]]; [by destruct (N i a)|].
  specialize (M i a Ha Hxin). specialize (Hmax j b Hb).
  rewrite i32_ok, bind_ok by (unfold INT32_MIN, INT32_MAX in *; lia).
  unfold kv_is_masked_swa, is_masked_swa. rewrite Ht.
  replace ((a_pos a >=? 0) && (a_pos b + 1 >=? 0)) with true by lia. done.
Qed.

(** ** The search in one stream *)

(** The cells of a ring of [size] cells in the order of the search from [h]. *)
Definition ring (h size : nat) : list nat := seq h (size - h) ++ seq 0 h.

Lemma length_ring h size : (h <= size)%nat -> length (ring h size) = size.
Proof. intros H. unfold ring. rewrite length_app, !length_seq. lia. Qed.

Lemma ring_lookup h size i : (h <= size)%nat -> (i < size)%nat ->
  ring h size !! i = Some (if (i <? size - h)%nat then (h + i)%nat else (i - (size - h))%nat).
Proof.
  intros Hh Hi. unfold ring. destruct (Nat.ltb_spec i (size - h)).
  - rewrite lookup_app_l by (rewrite length_seq; lia). apply lookup_seq. lia.
  - rewrite lookup_app_r, length_seq by (rewrite length_seq; lia). apply lookup_seq. lia.
Qed.

Lemma ring_Permutation h size : (h <= size)%nat -> ring h size ≡ₚ seq 0 size.
Proof.
  intros H. unfold ring. rewrite (Permutation_app_comm (seq h _)).
  replace (seq 0 size) with (seq 0 (h + (size - h))) by (f_equal; lia). by rewrite seq_app.
Qed.

Section search.
Context (kv : llama_kv_cache) (c : llama_kv_cells) (use : nat -> bool).
Context (Huse : forall i, (i < cells_size c)%nat -> can_use_cell kv c i = Ok (use i)).
Abbreviation size := (cells_size c).

(** [k] cells of the ring have been tested. *)
Definition searching (h n_tokens k : nat) (st : search_state) : Prop :=
  st = ((if (k <=? size - h)%nat then h + k else k - (size - h))%nat, k,
        filter (fun i => use i = true) (take k (ring h size))) \/
  (k = (size - h)%nat /\ st = (0%nat, k, filter (fun i => use i = true) (take k (ring h size)))).

Definition search_inv (h n_tokens : nat) (st : search_state * option bool) : Prop :=
  exists k, (k <= size)%nat /\ searching h n_tokens k st.1 /\ st.2 = None /\
    (length (filter (fun i => use i = true) (take k (ring h size))) < n_tokens)%nat /\ (k < size)%nat.

(** What the search returns: the first [n_tokens] usable cells in ring order. *)
Definition search_post (h n_tokens : nat) (st : search_state * option bool) : Prop :=
  let us := filter (fun i => use i = true) (ring h size) in
  (st.2 = Some true /\ st.1.2 = take n_tokens us /\ (n_tokens <= length us)%nat) \/
  (st.2 = Some false /\ (length us < n_tokens)%nat).

(** The cursor of the search: twice the tests left, and one before a wrap-around. *)
Definition search_left (st : search_state * option bool) : nat :=
  (2 * (size - st.1.1.2) + (if (size <=? st.1.1.1)%nat then 1 else 0))%nat.

Lemma filter_take_S h k i :
  ring h size !! k = Some i ->
  filter (fun i => use i = true) (take (S k) (ring h size)) =
  filter (fun i => use i = true) (take k (ring h size)) ++ (if use i then [i] else []).
Proof.
  intros H. rewrite (take_S_r _ _ _ H), list.filter_app. f_equal.
  rewrite list.filter_cons, list.filter_nil. by destruct (use i).
Qed.

Lemma search_test_ok h n_tokens k i idxs :
  (h <= size)%nat -> ring h size !! k = Some i -> (length idxs < n_tokens)%nat ->
  idxs = filter (fun i => use i = true) (take k (ring h size)) ->
  runs (search_step kv c false n_tokens ((i, k, idxs), None)) (fun r =>
    match r with
    | inl st' => st' = ((S i, S k, filter (fun i => use i = true) (take (S k) (ring h size))), None) /\
        (length (filter (fun i => use i = true) (take (S k) (ring h size))) < n_tokens)%nat /\ (S k < size)%nat
    | inr st' => search_post h n_tokens st'
    end).
Proof.
  intros Hh Hi Hlt Hidxs. pose proof (ring_lookup h size k Hh) as Hr.
  apply lookup_lt_Some in Hi as Hk. rewrite length_ring in Hk by done.
  assert (Hi2 : (i < size)%nat).
  { rewrite Hr in Hi by done. injection Hi as <-. case_match eqn:E; [apply Nat.ltb_lt in E|apply Nat.ltb_ge in E]; lia. }
  unfold search_step. cbn [fst]. destruct (Nat.ltb_spec size (i + 1)) as [?|_]; [lia|].
  pose proof (filter_take_S h k i Hi) as EF. rewrite <- Hidxs in EF.
  set (idxs' := idxs ++ (if use i then [i] else [])) in *.
  assert (E : test_cells kv c false 1 (i, k, idxs) = Ok (S i, S k, idxs')).
  { unfold test_cells. cbn. rewrite (Huse i Hi2). subst idxs'. cbn.
    destruct (use i); [done|by rewrite app_nil_r]. }
  rewrite E, !bind_ok.
  assert (Hle : (length idxs' <= n_tokens)%nat) by (subst idxs'; rewrite length_app; destruct (use i); simpl; lia).
  assert (Hus : filter (fun i => use i = true) (ring h size) =
    idxs' ++ filter (fun i => use i = true) (drop (S k) (ring h size))).
  { rewrite <- EF, <- list.filter_app, take_drop. done. }
  destruct (Nat.eqb_spec (length idxs') n_tokens) as [En|En].
  - apply runs_ok. left. split; [done|]. cbn. rewrite Hus, length_app. split; [|lia].
    by rewrite <- En, take_app_length.
  - destruct (Nat.leb_spec size (S k)) as [Hs|Hs]; apply runs_ok.
    + right. split; [done|]. rewrite Hus, drop_ge by (rewrite length_ring by done; lia).
      rewrite app_nil_r. lia.
    + rewrite EF. split; [done|]. split; lia.
Qed.

Lemma search_step_ok h n_tokens st :
  (h <= size)%nat -> search_inv h n_tokens st ->
  runs (search_step kv c false n_tokens st) (fun r =>
    match r with
    | inl st' => search_inv h n_tokens st' /\ (search_left st' < search_left st)%nat
    | inr st' => search_post h n_tokens st'
    end).
Proof.
  intros Hh (k & Hk & Hst & E2 & Hlt & Hks). destruct st as [st o]. simpl in Hst, E2. subst o.
  pose proof (ring_lookup h size k Hh Hks) as Hr.
  assert (Hcase : (exists i, ring h size !! k = Some i /\
      st = (i, k, filter (fun i => use i = true) (take k (ring h size)))) \/
    (k = (size - h)%nat /\ st = (size, k, filter (fun i => use i = true) (take k (ring h size))))).
  { destruct Hst as [->|[Hkh ->]].
    - destruct (Nat.leb_spec k (size - h)), (Nat.ltb_spec k (size - h)); try lia.
      + left. eexists. split; [exact Hr|]. repeat f_equal.
      + right. assert (k = size - h)%nat as -> by lia. split; [done|]. repeat f_equal. lia.
      + left. eexists. split; [exact Hr|]. done.
    - left. exists 0%nat. split; [|done]. rewrite Hr. f_equal.
      destruct (Nat.ltb_spec k (size - h)); lia. }
  destruct Hcase as [(i & Hi & ->)|[Hkh ->]].
  - eapply runs_mono; [by apply (search_test_ok h n_tokens k i)|]. intros [st'|st']; [|done].
    intros (-> & Hlt' & Hs'). split.
    + exists (S k). split; [lia|]. split; [|done]. left. cbn [fst]. repeat f_equal.
      rewrite Hr in Hi. injection Hi as <-.
      destruct (Nat.leb_spec (S k) (size - h)), (Nat.ltb_spec k (size - h)); lia.
    + unfold search_left. cbn [fst snd]. repeat case_match; lia.
  - unfold search_step. cbn [fst]. destruct (Nat.ltb_spec size (size + 1)) as [_|?]; [|lia].
    apply runs_ok. rewrite Nat.sub_diag, Nat.add_0_r. split.
    + exists k. split; [lia|]. split; [|done]. right. done.
    + unfold search_left. cbn [fst snd]. rewrite (proj2 (Nat.leb_le size size)) by lia.
      destruct (Nat.leb_spec size 0); lia.
Qed.

(** The search returns the first [n_tokens] usable cells after the head, in ring order,
    and fails exactly when there are fewer. *)
Lemma find_in_stream_ok head n_tokens :
  (0 < n_tokens)%nat -> (head <= size)%nat ->
  let h := if (cells_get_used c + 2 * n_tokens <? head)%nat then 0%nat else head in
  let us := filter (fun i => use i = true) (ring h size) in
  find_in_stream kv c head false n_tokens =
  Ok (if (n_tokens <=? length us)%nat then Some (take n_tokens us) else None).
Proof.
  intros Hn Hhead h us. apply runs_inv_eq. unfold find_in_stream. fold h.
  assert (Hh : (h <= size)%nat) by (unfold h; case_match; lia).
  assert (Hus : (length us <= size)%nat).
  { unfold us. etransitivity; [apply length_filter|]. by rewrite length_ring. }
  destruct (Nat.ltb_spec size n_tokens) as [Hs|Hs].
  { apply runs_ok. destruct (Nat.leb_spec n_tokens (length us)); [lia|done]. }
  apply runs_bind. eapply runs_mono.
  { apply (runs_loop (search_inv h n_tokens) search_left (search_post h n_tokens)).
    - intros st Hst. by apply search_step_ok.
    - unfold search_left. cbn [fst snd]. case_match; lia.
    - exists 0%nat. split; [lia|]. split; [|split; [done|]].
      + left. cbn [fst]. rewrite (proj2 (Nat.leb_le 0 _)), Nat.add_0_r by lia. done.
      + rewrite take_0. simpl. lia. }
  intros [[[hc nt] idxs] o] [(E1 & E2 & E3)|(E1 & E2)]; simpl in *; subst o.
  - subst idxs. apply runs_ok. fold us in E3. fold us.
    rewrite length_take, (proj2 (Nat.leb_le _ _) E3).
    destruct (Nat.ltb_spec (n_tokens `min` length us) n_tokens); [lia|done].
  - apply runs_ok. fold us in E2. destruct (Nat.leb_spec n_tokens (length us)); [lia|done].
Qed.
End search.

(** ** Micro-batches that fit a cache *)

(** Token [i] can be placed in stream [t]: its positions and sequences are present, its
    sequences are distinct and belong to the stream. *)
Record tok_ok (kv : llama_kv_cache) (u : llama_ubatch) (t i : nat) (p m : Z) (l : list Z) : Prop := {
  to_pos : ub_pos u !! i = Some p /\ 0 <= p < INT32_MAX;
  to_2d  : is_pos_2d u = true -> exists x y,
             ub_pos u !! (i + ub_n_tokens u * 2)%nat = Some x /\ ub_pos u !! (i + ub_n_tokens u)%nat = Some y;
  to_n   : ub_n_seq_id u !! i = Some m /\ 1 <= m <= Z.of_nat (length l);
  to_seq : ub_seq_id u !! i = Some l;
  to_nd  : NoDup (take (Z.to_nat m) l);
  to_map : forall x, x ∈ take (Z.to_nat m) l -> 0 <= x /\ seq_to_stream kv !! Z.to_nat x = Some t
}.

(** The cell that token [i] makes of the free cell [a]. *)
Definition new_cell (u : llama_ubatch) (i : nat) (a : cell) : cell :=
  mk_cell (default 0 (ub_pos u !! i))
    (if is_pos_2d u
     then mk_ext (default 0 (ub_pos u !! (i + ub_n_tokens u * 2)%nat)) (default 0 (ub_pos u !! (i + ub_n_tokens u)%nat))
     else a_ext a) 0
    (list_to_set (take (Z.to_nat (default 0 (ub_n_seq_id u !! i))) (default [] (ub_seq_id u !! i)))).

(** The cells of a stream after the tokens [base, base+1, ...] went to the cells [l]. *)
Record placed (u : llama_ubatch) (base : nat) (l : list nat) (c c' : llama_kv_cells) : Prop := {
  pl_wf    : kv_wf c';
  pl_shift : c_has_shift c' = c_has_shift c;
  pl_new   : forall j idx a, l !! j = Some idx -> cells_abs c !! idx = Some a ->
               cells_abs c' !! idx = Some (new_cell u (base + j) a);
  pl_old   : forall idx, idx ∉ l -> cells_abs c' !! idx = cells_abs c !! idx
}.

Lemma placed_size u base l c c' :
  kv_wf c -> placed u base l c c' -> (forall idx, idx ∈ l -> (idx < cells_size c)%nat) -> cells_size c' = cells_size c.
Proof.
  intros W [W' _ Hn Ho] Hl. rewrite <- (length_abs c W), <- (length_abs c' W').
  assert (H : forall i, is_Some (cells_abs c' !! i) <-> is_Some (cells_abs c !! i)).
  { intros i. destruct (decide (i ∈ l)) as [Hin|Hni]; [|by rewrite Ho].
    destruct (abs_lookup_lt c i W (Hl i Hin)) as [a Ha]. apply list_elem_of_lookup in Hin as [j Hj].
    rewrite (Hn j i a Hj Ha), Ha. done. }
  destruct (Nat.lt_trichotomy (length (cells_abs c')) (length (cells_abs c))) as [Hlt|[|Hlt]]; [|done|].
  - apply lookup_lt_is_Some_2, H, lookup_lt_is_Some_1 in Hlt. lia.
  - apply lookup_lt_is_Some_2, H, lookup_lt_is_Some_1 in Hlt. lia.
Qed.

Lemma seq_add_all_ok c i a l n :
  kv_wf c -> cells_abs c !! i = Some a -> a_pos a <> -1 -> (n <= length l)%nat -> NoDup (take n l) ->
  (forall x, x ∈ take n l -> 0 <= x < Z.of_nat LLAMA_MAX_SEQ /\ x ∉ a_seq a) ->
  runs (foldM (fun c s => x ← rd l s; cells_seq_add c i x) c (seq 0 n)) (fun c' =>
    updated c i (mk_cell (a_pos a) (a_ext a) (a_shift a) (a_seq a ∪ list_to_set (take n l))) c' /\
    c_has_shift c' = c_has_shift c).
Proof.
  intros W Ha Hp Hn Hnd Hx.
  apply (runs_for (fun k c' =>
    updated c i (mk_cell (a_pos a) (a_ext a) (a_shift a) (a_seq a ∪ list_to_set (take k l))) c' /\
    c_has_shift c' = c_has_shift c)).
  - split; [|done]. apply updated_same; [done|]. rewrite Ha, take_0. simpl. rewrite union_empty_r_L. by destruct a.
  - intros k c' Hk [[W' E'] Hs]. destruct (lookup_lt_is_Some_2 l k) as [x Hl]; [lia|].
    assert (Hxn : take n l !! k = Some x) by by rewrite lookup_take_lt.
    destruct (Hx x) as [Hr Hni]; [by eapply list_elem_of_lookup_2|].
    rewrite (rd_ok _ _ _ Hl), bind_ok.
    eapply runs_mono; [eapply (cells_seq_add_ok c' i)|].
    + done.
    + rewrite E', list_lookup_insert_eq; [done|by eapply lookup_lt_Some].
    + done.
    + done.
    + simpl. rewrite elem_of_union, elem_of_list_to_set. intros [|(j & Hj)%list_elem_of_lookup]; [done|].
      apply lookup_take_Some in Hj as [Hj Hjk].
      assert (j = k); [|lia]. eapply NoDup_lookup; [exact Hnd| |exact Hxn]. by rewrite lookup_take_lt by lia.
    + intros c2 [[W2 E2] Hs2]. simpl in E2. split; [split; [done|]|congruence].
      rewrite E2, E', list_insert_insert_eq, Nat.add_1_r, (take_S_r _ _ _ Hl), list_to_set_app_L.
      do 2 f_equal. set_solver.
Qed.

Lemma tok_ids kv size u t i p m l : kv_inv kv size -> tok_ok kv u t i p m l ->
  forall x, x ∈ take (Z.to_nat m) l -> 0 <= x < Z.of_nat LLAMA_MAX_SEQ.
Proof.
  intros I T x Hx. destruct (to_map _ _ _ _ _ _ _ T x Hx) as [H1 H2%lookup_lt_Some].
  destruct (ki_map _ _ I) as [[_ ?] _]. lia.
Qed.

(** Placing one token in a free cell. *)
Lemma apply_token_ok kv size u t idx i rm c a p m l :
  kv_inv kv size -> v_cells kv !! t = Some c -> cells_abs c !! idx = Some a -> a_pos a = -1 ->
  tok_ok kv u t i p m l ->
  runs (apply_token u t idx i (kv, rm)) (fun r =>
    kv_inv r.1 size /\ r.2 = rm /\ (exists hs cs, r.1 = with_cells hs cs kv) /\
    (forall s, s <> t -> v_cells r.1 !! s = v_cells kv !! s) /\ v_heads r.1 = v_heads kv /\
    exists c', v_cells r.1 !! t = Some c' /\ updated c idx (new_cell u i a) c' /\ c_has_shift c' = c_has_shift c).
Proof.
  intros I Hc Ha Hpos T. destruct (ki_wf _ _ I t c Hc) as (W & Hsz & F).
  destruct (wf_cell _ W _ _ Ha) as (_ & He & _). destruct (He Hpos) as [HS Hsh].
  destruct (to_pos _ _ _ _ _ _ _ T) as [Ep Hp], (to_n _ _ _ _ _ _ _ T) as [Em Hm].
  pose proof (to_seq _ _ _ _ _ _ _ T) as El.
  apply lookup_lt_Some in Hc as Hlt. rewrite (ki_cells _ _ I) in Hlt.
  destruct (stream_lookup kv size I t Hlt) as (c0 & h & Hc0 & Hh). simplify_eq.
  unfold apply_token. rewrite (rd_ok _ _ _ Hc), bind_ok, (rd_ok _ _ _ Hh), bind_ok.
  rewrite (cells_is_empty_ok c idx a), bind_ok by done. rewrite Hpos. cbn [Z.eqb Pos.eqb negb].
  rewrite bind_ok, (rd_ok _ _ _ Ep), bind_ok. cbn [fst snd].
  apply runs_bind. eapply runs_mono; [apply (cells_pos_set_ok c idx a p W Ha Hpos); lia|].
  intros c1 [[W1 E1] S1].
  assert (A1 : cells_abs c1 !! idx = Some (mk_cell p (a_ext a) 0 ∅)).
  { rewrite E1, Hsh, list_lookup_insert_eq; [done|by eapply lookup_lt_Some]. }
  set (e := a_ext (new_cell u i a)).
  apply runs_bind. eapply runs_mono with (P := fun c2 => updated c idx (mk_cell p e 0 ∅) c2 /\ c_has_shift c2 = c_has_shift c).
  { unfold e, new_cell. simpl. destruct (is_pos_2d u) eqn:E2d.
    - destruct (to_2d _ _ _ _ _ _ _ T E2d) as (x & y & Hx & Hy).
      rewrite (rd_ok _ _ _ Hx), bind_ok, (rd_ok _ _ _ Hy), bind_ok, Hx, Hy. simpl.
      eapply runs_mono; [apply (cells_ext_set_ok c1 idx _ (mk_ext x y) W1 A1)|].
      intros c2 [[W2 E2] S2]. split; [split; [done|]|congruence]. rewrite E2, E1, list_insert_insert_eq. done.
    - apply runs_ok. split; [split; [done|]|done]. by rewrite E1, Hsh. }
  intros c2 [[W2 E2] S2].
  assert (A2 : cells_abs c2 !! idx = Some (mk_cell p e 0 ∅)).
  { rewrite E2, list_lookup_insert_eq; [done|by eapply lookup_lt_Some]. }
  rewrite (rd_ok _ _ _ Em), bind_ok, (rd_ok _ _ _ El), bind_ok.
  apply runs_bind. eapply runs_mono.
  { apply (seq_add_all_ok c2 idx _ l (Z.to_nat m) W2 A2); simpl; [lia|lia|apply T|].
    intros x Hx. split; [by eapply tok_ids|set_solver]. }
  intros c3 [[W3 E3] S3]. simpl in E3.
  assert (Enew : new_cell u i a = mk_cell p e 0 (list_to_set (take (Z.to_nat m) l))).
  { unfold e, new_cell. rewrite Ep, Em, El. done. }
  rewrite E2, list_insert_insert_eq, union_empty_l_L, <- Enew in E3.
  apply runs_bind. eapply runs_mono.
  { apply (put_stream_ok kv (cells_size c) I t h c3 c Hc); try done.
    - by apply (ki_head _ _ I t).
    - by rewrite <- (length_abs c3 W3), E3, length_insert, (length_abs c W).
    - rewrite E3. intros j b Hb. destruct (decide (j = idx)) as [->|Hne].
      + rewrite list_lookup_insert_eq in Hb by by eapply lookup_lt_Some. injection Hb as <-. rewrite Enew. simpl.
        split; [|intros x Hx%elem_of_list_to_set; by apply T].
        intros _ Habs. destruct l as [|x l]; [simpl in Hm; lia|].
        destruct (Z.to_nat m) as [|k] eqn:Ek; [lia|]. simpl in Habs. set_solver.
      + rewrite list_lookup_insert_ne in Hb by done. by apply (F j). }
  intros kv' (I' & Hc' & Hh' & Hsame & Hother). apply runs_ok. cbn [fst snd].
  split; [done|]. split; [done|]. split; [done|]. split; [by intros s Hs; destruct (Hother s Hs)|]. split.
  { apply list_eq. intros s. destruct (decide (s = t)) as [->|Hne]; [congruence|by destruct (Hother s Hne)]. }
  exists c3. split; [done|]. split; [done|congruence].
Qed.

Lemma tok_ok_same kv kv' u t i p m l :
  seq_to_stream kv' = seq_to_stream kv -> tok_ok kv u t i p m l -> tok_ok kv' u t i p m l.
Proof. intros E []. split; try done. by rewrite E. Qed.

(** ** Slots *)

(** A slot of [nt] free cells in each of some distinct streams. *)
Record slot_ok (kv : llama_kv_cache) (nt : nat) (si : slot_info) : Prop := {
  so_len  : length (si_idxs si) = length (si_strm si);
  so_ne   : (0 < length (si_strm si))%nat;
  so_nt   : (0 < nt)%nat /\ forall s l, si_idxs si !! s = Some l -> length l = nt;
  so_strm : NoDup (si_strm si) /\ forall s t, si_strm si !! s = Some t -> (t < k_n_stream kv)%nat;
  so_free : forall s l t c, si_idxs si !! s = Some l -> si_strm si !! s = Some t -> v_cells kv !! t = Some c ->
              NoDup l /\ forall idx, idx ∈ l -> exists a, cells_abs c !! idx = Some a /\ a_pos a = -1
}.

Lemma slot_ok_size kv nt si : slot_ok kv nt si -> si_size si = Ok nt.
Proof.
  intros [L N [_ T] _ _]. unfold si_size. rewrite L, Nat.eqb_refl. unfold assert_. rewrite bind_ok.
  destruct (Nat.eqb_spec (length (si_strm si)) 0) as [?|_]; [lia|]. cbn [negb]. rewrite bind_ok.
  destruct (lookup_lt_is_Some_2 (si_idxs si) 0) as [l Hl]; [lia|].
  by rewrite (rd_ok _ _ _ Hl), bind_ok, (T 0%nat l).
Qed.

Lemma slot_ok_stream kv nt si s :
  slot_ok kv nt si -> (s < length (si_strm si))%nat ->
  exists t l, si_strm si !! s = Some t /\ si_idxs si !! s = Some l /\ length l = nt /\ (t < k_n_stream kv)%nat.
Proof.
  intros [L N [_ T] [_ S] _] Hs. destruct (lookup_lt_is_Some_2 (si_strm si) s Hs) as [t Ht].
  destruct (lookup_lt_is_Some_2 (si_idxs si) s) as [l Hl]; [lia|].
  exists t, l. do 2 (split; [done|]). split; [by apply (T s)|by apply (S s)].
Qed.

(** The tokens of a micro-batch can be placed in the streams of the slot. *)
Definition toks_ok (kv : llama_kv_cache) (u : llama_ubatch) (nt : nat) (strm : list nat) : Prop :=
  forall s t j, strm !! s = Some t -> (j < nt)%nat -> exists p m l, tok_ok kv u t (s * nt + j) p m l.

Lemma apply_stream_gen kv size u si s t l nt rm c :
  kv_inv kv size -> length l = nt ->
  si_strm si !! s = Some t -> si_idxs si !! s = Some l -> v_cells kv !! t = Some c ->
  (NoDup l /\ forall idx, idx ∈ l -> exists a, cells_abs c !! idx = Some a /\ a_pos a = -1) ->
  (forall j, (j < nt)%nat -> exists p m sq, tok_ok kv u t (s * nt + j) p m sq) ->
  runs (foldM (fun st ii =>
      strm ← rd (si_strm si) s; l ← rd (si_idxs si) s; idx ← rd l ii;
      apply_token u strm idx (s * nt + ii)%nat st) (kv, rm) (seq 0 nt)) (fun r =>
    kv_inv r.1 size /\ r.2 = rm /\ (exists hs cs, r.1 = with_cells hs cs kv) /\
    (forall t', t' <> t -> v_cells r.1 !! t' = v_cells kv !! t') /\ v_heads r.1 = v_heads kv /\
    exists c', v_cells r.1 !! t = Some c' /\ placed u (s * nt) l c c').
Proof.
  intros I Hnt Hs Hl Hc [Hnd Hfree] TO.
  destruct (ki_wf _ _ I t c Hc) as (W & Hsz & F).
  eapply runs_mono.
  { apply (runs_for (fun n r => kv_inv r.1 size /\ r.2 = rm /\ (exists hs cs, r.1 = with_cells hs cs kv) /\
      (forall t', t' <> t -> v_cells r.1 !! t' = v_cells kv !! t') /\ v_heads r.1 = v_heads kv /\
      exists c', v_cells r.1 !! t = Some c' /\ placed u (s * nt) (take n l) c c')).
    - do 2 (split; [done|]). split; [exists (v_heads kv), (v_cells kv); by destruct kv|].
      do 2 (split; [done|]). exists c. split; [done|]. rewrite take_0. split; done.
    - intros n [kv1 rm1] Hn (I1 & E1 & (hs & cs & Ekv) & Ho & Hh & c1 & Hc1 & P1). simpl in *. subst rm1.
      destruct (lookup_lt_is_Some_2 l n) as [idx Hidx]; [lia|].
      destruct (Hfree idx) as (a & Ha & Hp); [by eapply list_elem_of_lookup_2|].
      assert (Hni : idx ∉ take n l).
      { intros (j & Hj)%list_elem_of_lookup. apply lookup_take_Some in Hj as [Hj ?].
        pose proof (NoDup_lookup _ _ _ _ Hnd Hj Hidx). lia. }
      destruct (TO n Hn) as (p & m & sq & T).
      rewrite (rd_ok _ _ _ Hs), bind_ok, (rd_ok _ _ _ Hl), bind_ok, (rd_ok _ _ _ Hidx), bind_ok.
      eapply runs_mono.
      { apply (apply_token_ok kv1 size u t idx _ rm c1 a p m sq I1 Hc1); [|done|].
        - by rewrite (pl_old _ _ _ _ _ P1).
        - eapply tok_ok_same; [|exact T]. by rewrite Ekv. }
      intros [kv2 rm2] (I2 & -> & (hs2 & cs2 & E2) & Ho2 & Hh2 & c2 & Hc2 & [W2 A2] & S2). simpl in *.
      do 2 (split; [done|]). split; [rewrite E2, Ekv; eauto|].
      split; [intros t' Ht'; rewrite Ho2 by done; by apply Ho|]. split; [congruence|].
      exists c2. split; [done|]. rewrite Nat.add_1_r, (take_S_r _ _ _ Hidx). destruct P1 as [Wp Sp Np Op].
      assert (Hlt : (idx < length (cells_abs c1))%nat).
      { eapply lookup_lt_Some. by rewrite Op, Ha. }
      split; [done|congruence| |].
      + intros j idx' b Hj Hb. rewrite A2. destruct (decide (idx' = idx)) as [->|Hne].
        * rewrite list_lookup_insert_eq by done.
          apply lookup_app_Some in Hj as [Hj|[Hj1 Hj2]]; [by destruct Hni; eapply list_elem_of_lookup_2|].
          apply list_lookup_singleton_Some in Hj2 as [Hj2 _]. rewrite length_take in Hj1, Hj2.
          replace j with n by lia. congruence.
        * rewrite list_lookup_insert_ne by done. apply Np; [|done].
          apply lookup_app_Some in Hj as [Hj|[_ Hj2]]; [done|].
          apply list_lookup_singleton_Some in Hj2 as [_ ?]. congruence.
      + intros i Hi. rewrite A2, list_lookup_insert_ne by set_solver. apply Op. set_solver. }
  intros r (I1 & E1 & Hsame & Ho & Hh & c1 & Hc1 & P1). rewrite take_ge in P1 by lia.
  do 5 (split; [done|]). eauto.
Qed.

(** The cache after a micro-batch went to the free cells of a slot. *)
Record applied (kv : llama_kv_cache) (size nt : nat) (si : slot_info) (u : llama_ubatch) (kv' : llama_kv_cache) : Prop := {
  ap_inv   : kv_inv kv' size;
  ap_same  : exists hs cs, kv' = with_cells hs cs kv;
  ap_new   : forall s t l c, si_strm si !! s = Some t -> si_idxs si !! s = Some l -> v_cells kv !! t = Some c ->
               exists c', v_cells kv' !! t = Some c' /\ placed u (s * nt) l c c';
  ap_other : forall t, t ∉ si_strm si -> v_cells kv' !! t = v_cells kv !! t
}.

Lemma purge_none kv :
  foldM (purge_seq (replicate LLAMA_MAX_SEQ (-1))) kv (seq 0 LLAMA_MAX_SEQ) = Ok kv.
Proof.
  apply runs_inv_eq. apply (runs_for (fun _ kv' => kv' = kv)); [done|]. intros i kv' Hi ->.
  unfold purge_seq. rewrite (rd_ok _ i (-1)), bind_ok by by apply lookup_replicate. done.
Qed.

Lemma move_head_gen kv size si s t l nt :
  kv_inv kv size -> (0 < nt)%nat -> si_strm si !! s = Some t -> si_idxs si !! s = Some l -> length l = nt ->
  (t < k_n_stream kv)%nat -> (forall idx, idx ∈ l -> (idx < size)%nat) ->
  runs (move_head si kv s) (fun kv' => kv_inv kv' size /\ (exists hs, kv' = with_cells hs (v_cells kv) kv)).
Proof.
  intros I Hnt Ht Hl Hlen Hlt Hin.
  destruct (stream_lookup kv size I t Hlt) as (c & h & Hc & Hh).
  destruct (lookup_lt_is_Some_2 l (length l - 1)) as [b Hb]; [lia|].
  destruct (ki_wf _ _ I t c Hc) as (W & Hsz & F).
  unfold move_head. rewrite (rd_ok _ _ _ Ht), bind_ok, (rd_ok _ _ _ Hl), bind_ok, (rd_ok _ _ _ Hb), bind_ok,
    (rd_ok _ _ _ Hc), bind_ok.
  specialize (Hin b ltac:(by eapply list_elem_of_lookup_2)).
  eapply runs_mono; [apply (put_stream_ok kv size I t _ c c Hc); done || lia|].
  intros kv' (I' & Hc' & _ & (hs & cs & ->) & Hother). split; [done|]. exists hs. simpl in *. f_equal.
  apply list_eq. intros t'. destruct (decide (t' = t)) as [->|Hne]; [congruence|]. by destruct (Hother t' Hne).
Qed.

(** [slot_ok] up to the cells of the streams of the slot. *)
Lemma slot_ok_streams kv kv' nt si :
  slot_ok kv nt si -> k_n_stream kv' = k_n_stream kv ->
  (forall t, t ∈ si_strm si -> v_cells kv' !! t = v_cells kv !! t) -> slot_ok kv' nt si.
Proof.
  intros [L N T [S1 S2] F] En Hc. split; try done.
  - rewrite En. done.
  - intros s l t c Hl Ht. rewrite (Hc t) by by eapply list_elem_of_lookup_2. by apply (F s).
Qed.

Lemma slot_idx_lt kv size nt si s l t c idx :
  kv_inv kv size -> slot_ok kv nt si -> si_idxs si !! s = Some l -> si_strm si !! s = Some t ->
  v_cells kv !! t = Some c -> idx ∈ l -> (idx < size)%nat.
Proof.
  intros I SO Hl Ht Hc Hin. destruct (so_free _ _ _ SO s l t c Hl Ht Hc) as [_ Hf].
  destruct (Hf idx Hin) as (a & Ha & _). apply abs_lt in Ha. destruct (ki_wf _ _ I t c Hc) as (_ & <- & _). done.
Qed.

(** [apply_ubatch] on free cells: every token is in its cell, nothing else changed. *)
Lemma apply_ubatch_free_ok kv size nt si u :
  kv_inv kv size -> slot_ok kv nt si -> ub_n_tokens u = (si_n_stream si * nt)%nat ->
  toks_ok kv u nt (si_strm si) ->
  runs (apply_ubatch kv si u) (applied kv size nt si u).
Proof.
  intros I SO Hn TO. unfold apply_ubatch. rewrite (slot_ok_size _ _ _ SO), bind_ok, Hn, Nat.eqb_refl.
  unfold assert_. rewrite bind_ok. unfold si_n_stream.
  set (P := fun n r =>
    kv_inv r.1 size /\ r.2 = replicate LLAMA_MAX_SEQ (-1) /\ (exists hs cs, r.1 = with_cells hs cs kv) /\
    (forall s t l c, (s < n)%nat -> si_strm si !! s = Some t -> si_idxs si !! s = Some l -> v_cells kv !! t = Some c ->
       exists c', v_cells r.1 !! t = Some c' /\ placed u (s * nt) l c c') /\
    (forall t, t ∉ take n (si_strm si) -> v_cells r.1 !! t = v_cells kv !! t)).
  apply runs_bind. eapply runs_mono.
  { apply (runs_for P).
    - do 2 (split; [done|]). split; [exists (v_heads kv), (v_cells kv); by destruct kv|]. split; [lia|done].
    - intros s [kv1 rm] Hs (I1 & E1 & (hs & cs & Ekv) & N1 & O1). cbn [fst snd] in *. subst rm.
      destruct (slot_ok_stream kv nt si s SO Hs) as (t & l & Ht & Hl & Hlen & Hlt).
      destruct (stream_lookup kv size I t Hlt) as (c & h & Hc & _).
      assert (Hout : t ∉ take s (si_strm si)).
      { intros (j & Hj)%list_elem_of_lookup. apply lookup_take_Some in Hj as [Hj ?].
        pose proof (NoDup_lookup _ _ _ _ (proj1 (so_strm _ _ _ SO)) Hj Ht). lia. }
      assert (Hc1 : v_cells kv1 !! t = Some c) by by rewrite O1.
      assert (SO1 : forall c1, v_cells kv1 !! t = Some c1 -> c1 = c) by (intros; congruence).
      eapply runs_mono; [apply (apply_stream_gen kv1 size u si s t l nt _ c)|]; try done.
      + destruct (so_free _ _ _ SO s l t c Hl Ht Hc). done.
      + intros j Hj. destruct (TO s t j Ht Hj) as (p & m & sq & T). exists p, m, sq.
        eapply tok_ok_same; [|exact T]. by rewrite Ekv.
      + intros [kv2 rm2] (I2 & Erm & (hs2 & cs2 & E2) & Ho2 & Hh2 & c2 & Hc2 & P2). cbn [fst snd] in *. subst rm2.
        do 2 (split; [done|]). split; [rewrite E2, Ekv; eauto|]. cbn [fst]. split.
        * intros s' t' l' c' Hs' Ht' Hl' Hc'. destruct (decide (s' = s)) as [->|Hne].
          { simplify_eq. eauto. }
          assert (t' <> t) by (intros ->; by pose proof (NoDup_lookup _ _ _ _ (proj1 (so_strm _ _ _ SO)) Ht Ht')).
          rewrite Ho2 by done. apply (N1 s' t' l' c'); [lia|done..].
        * intros t'. rewrite Nat.add_1_r, (take_S_r _ _ _ Ht). intros Hni.
          rewrite Ho2 by set_solver. apply O1. set_solver. }
  intros [kv1 rm] (I1 & E1 & (hs & cs & Ekv) & N1 & O1). cbn [fst snd] in *. subst rm. cbn [fst snd].
  rewrite purge_none, bind_ok. rewrite firstn_all in O1.
  eapply runs_mono.
  { apply (runs_for (fun _ kv' => kv_inv kv' size /\ exists hs, kv' = with_cells hs (v_cells kv1) kv)).
    - split; [done|]. exists hs. by rewrite Ekv.
    - intros s kv2 Hs [I2 [hs2 E2]].
      destruct (slot_ok_stream kv nt si s SO Hs) as (t & l & Ht & Hl & Hlen & Hlt).
      eapply runs_mono; [apply (move_head_gen kv2 size si s t l nt)|]; try done.
      + apply SO.
      + by rewrite E2.
      + intros idx Hin. destruct (stream_lookup kv size I t Hlt) as (c & h & Hc & _).
        by apply (slot_idx_lt kv size nt si s l t c idx).
      + intros kv3 [I3 [hs3 E3]]. split; [done|]. exists hs3. rewrite E3, E2. done. }
  intros kv2 [I2 [hs2 E2]]. split; [done|eauto| |].
  - intros s t l c Hs Hl Hc. rewrite E2. cbn. apply (N1 s t l c); [by eapply lookup_lt_Some|done..].
  - intros t Ht. rewrite E2. cbn. by apply O1.
Qed.

(** ** find_slot *)

(** A micro-batch whose sequences live in the streams [strm], [nt] tokens in each. *)
Record ubatch_fits (kv : llama_kv_cache) (u : llama_ubatch) (nt : nat) (strm : list nat) : Prop := {
  uf_nt   : (0 < nt)%nat;
  uf_strm : NoDup strm /\ (0 < length strm)%nat;
  uf_n    : ub_n_tokens u = (length strm * nt)%nat /\
            (if (1 <? k_n_stream kv)%nat then ub_n_seqs_unq u = length strm else length strm = 1%nat);
  uf_unq  : forall s t, strm !! s = Some t -> exists q, ub_seq_id_unq u !! s = Some q /\ 0 <= q /\
              seq_to_stream kv !! Z.to_nat q = Some t /\
              ((1 < k_n_stream kv)%nat -> ub_n_seq_id u !! (s * nt)%nat = Some 1 /\
                 exists l, ub_seq_id u !! (s * nt)%nat = Some (q :: l));
  uf_toks : toks_ok kv u nt strm
}.

(** Positions stay below the largest 32-bit integer, so that the next one exists. *)
Definition pos_lt (kv : llama_kv_cache) : Prop :=
  forall t c j b, v_cells kv !! t = Some c -> cells_abs c !! j = Some b -> a_pos b < INT32_MAX.

Definition free_cell (c : llama_kv_cells) (i : nat) : bool :=
  match cells_abs c !! i with Some a => a_pos a =? -1 | None => false end.

(** The number of free cells of a stream. *)
Definition n_free (c : llama_kv_cells) : nat :=
  length (filter (fun i => free_cell c i = true) (seq 0 (cells_size c))).

Lemma n_free_ring c h : (h <= cells_size c)%nat ->
  length (filter (fun i => free_cell c i = true) (ring h (cells_size c))) = n_free c.
Proof. intros H. unfold n_free. by rewrite (ring_Permutation h (cells_size c) H). Qed.

Lemma find_seq_slot_ok kv size u nt strm si s t c :
  kv_inv kv size -> k_swa_type kv = LLAMA_SWA_TYPE_NONE -> pos_lt kv -> ubatch_fits kv u nt strm ->
  strm !! s = Some t -> v_cells kv !! t = Some c ->
  exists r, find_seq_slot kv u false nt si s = Ok r /\
  match r with
  | inr none => none = slot_none /\ (n_free c < nt)%nat
  | inl si' => exists l, si_strm si' = si_strm si ++ [t] /\ si_idxs si' = si_idxs si ++ [l] /\
      si_s0 si' = Nat.min (si_s0 si) t /\ si_s1 si' = Nat.max (si_s1 si) t /\
      length l = nt /\ NoDup l /\ forall idx, idx ∈ l -> exists a, cells_abs c !! idx = Some a /\ a_pos a = -1
  end.
Proof.
  intros I Ht Hpos [U1 U2 U3 U4 U5] Hs Hc. destruct (U4 s t Hs) as (q & Eq & Hq & Em & Hmulti).
  destruct (ki_wf _ _ I t c Hc) as (W & Hsz & F).
  apply lookup_lt_Some in Hc as Hlt. rewrite (ki_cells _ _ I) in Hlt.
  destruct (stream_lookup kv size I t Hlt) as (c0 & h & Hc0 & Hh). rewrite Hc in Hc0. injection Hc0 as <-.
  unfold find_seq_slot. rewrite (rd_ok _ _ _ Eq), bind_ok.
  assert (E1 : (if (1 <? k_n_stream kv)%nat then
     n ← rd (ub_n_seq_id u) (s * nt)%nat; assert_ (n =? 1) ;;
     l ← rd (ub_seq_id u) (s * nt)%nat; x ← rd l 0; assert_ (x =? q) else Ok tt) = Ok tt).
  { destruct (Nat.ltb_spec 1 (k_n_stream kv)) as [H1|]; [|done].
    destruct (Hmulti H1) as [E1 [l E2]]. rewrite (rd_ok _ _ _ E1), bind_ok. change (assert_ (1 =? 1)) with (Ok tt).
    rewrite bind_ok, (rd_ok _ _ _ E2), bind_ok, (rd_ok _ _ q), bind_ok, Z.eqb_refl by done. done. }
  rewrite E1, bind_ok. unfold zidx. rewrite (proj2 (Z.leb_le 0 q) Hq), bind_ok, (rd_ok _ _ _ Em), bind_ok,
    (rd_ok _ _ _ Hc), bind_ok, (rd_ok _ _ _ Hh), bind_ok.
  rewrite (find_in_stream_ok kv c (free_cell c)).
  - rewrite bind_ok. set (h' := if (_ <? h)%nat then 0%nat else h).
    assert (Hh' : (h' <= cells_size c)%nat).
    { unfold h'. pose proof (ki_head _ _ I t h Hh). destruct (_ <? h)%nat; lia. }
    rewrite (n_free_ring c h' Hh'). set (us := filter _ (ring h' (cells_size c))).
    assert (Hus : length us = n_free c) by by apply n_free_ring.
    destruct (Nat.leb_spec nt (n_free c)); [|by eexists].
    eexists. split; [done|]. exists (take nt us). do 4 (split; [done|]).
    split; [rewrite length_take; lia|]. split.
    + eapply sublist_NoDup; [|apply sublist_take]. apply list.NoDup_filter.
      rewrite ring_Permutation by done. apply NoDup_seq.
    + intros idx (k & Hk)%list_elem_of_lookup. apply lookup_take_Some in Hk as [Hk _].
      apply list_elem_of_lookup_2, list_elem_of_filter in Hk as [Hf _]. unfold free_cell in Hf.
      destruct (cells_abs c !! idx) as [a|]; [|done]. exists a. split; [done|lia].
  - intros i Hi. destruct (abs_lookup_lt c i W Hi) as [a Ha]. unfold free_cell. rewrite Ha.
    apply can_use_none; try done; [|intros j b; by apply (Hpos t)]. apply (F i a Ha).
  - done.
  - rewrite Hsz. by apply (ki_head _ _ I t).
Qed.

(** On a cache without sliding window [find_slot] fails only when a stream of the
    micro-batch has too few free cells; else it gives free cells for all its tokens. *)
Lemma find_slot_ok kv size u nt strm :
  kv_inv kv size -> k_swa_type kv = LLAMA_SWA_TYPE_NONE -> pos_lt kv -> ubatch_fits kv u nt strm ->
  exists si, find_slot kv u false = Ok si /\
    ((si = slot_none /\ exists t c, t ∈ strm /\ v_cells kv !! t = Some c /\ (n_free c < nt)%nat) \/
     (si_strm si = strm /\ slot_ok kv nt si /\ si_empty si = false)).
Proof.
  intros I Ht Hpos UF. pose proof UF as [U1 [U2a U2] [U3 U3'] U4 U5].
  assert (Hstrm : forall s t, strm !! s = Some t -> (t < k_n_stream kv)%nat).
  { intros s t Hs. destruct (U4 s t Hs) as (q & _ & _ & Em & _). by apply (ki_map _ _ I) in Em. }
  unfold find_slot.
  assert (E : (if (1 <? k_n_stream kv)%nat then
          if (ub_n_seqs_unq u =? 0)%nat then Fault Overflow
          else assert_ (ub_n_tokens u mod ub_n_seqs_unq u =? 0)%nat ;;
               Ok (ub_n_seqs_unq u, ub_n_tokens u / ub_n_seqs_unq u)%nat
        else Ok (1%nat, ub_n_tokens u)) = Ok (length strm, nt)).
  { destruct (1 <? k_n_stream kv)%nat; [|by rewrite U3, U3', Nat.mul_1_l].
    rewrite U3', U3. destruct (Nat.eqb_spec (length strm) 0); [lia|].
    rewrite Nat.mul_comm, Nat.Div0.mod_mul, Nat.div_mul by lia. done. }
  rewrite E, bind_ok. apply runs_inv. apply runs_bind.
  eapply runs_mono with (P := fun r : slot_info + slot_info =>
    match r with
    | inl si => si_strm si = strm /\ slot_ok kv nt si /\ (si_s0 si <= si_s1 si)%nat
    | inr none => none = slot_none /\ exists t c, t ∈ strm /\ v_cells kv !! t = Some c /\ (n_free c < nt)%nat
    end).
  { eapply runs_mono.
    { apply (runs_foldB (fun l1 si => si_strm si = take (length l1) strm /\ (length l1 <= length strm)%nat /\
        length (si_idxs si) = length l1 /\
        (length l1 <> 0%nat -> si_s0 si <= si_s1 si)%nat /\
        forall s t l c, si_idxs si !! s = Some l -> strm !! s = Some t -> v_cells kv !! t = Some c ->
          length l = nt /\ NoDup l /\ forall idx, idx ∈ l -> exists a, cells_abs c !! idx = Some a /\ a_pos a = -1)
        (fun none => none = slot_none /\ exists t c, t ∈ strm /\ v_cells kv !! t = Some c /\ (n_free c < nt)%nat)).
      - simpl. split; [done|]. split; [lia|]. split; [done|]. split; [lia|]. done.
      - intros l1 s l2 si Hseq (Es & Hle & Ei & Hs01 & Hcells).
        apply seq_split_at in Hseq as [-> Hlt].
        destruct (lookup_lt_is_Some_2 strm (length l1) Hlt) as [t Hst].
        destruct (stream_lookup kv size I t (Hstrm _ _ Hst)) as (c & h & Hc & _).
        destruct (find_seq_slot_ok kv size u nt strm si (length l1) t c) as (r & Er & Hr); try done.
        rewrite Er. apply runs_ok. destruct r as [si'|none].
        + destruct Hr as (l & E1 & E2 & E3 & E4 & Hl1 & Hl2 & Hl3). rewrite length_app. cbn [length].
          rewrite Nat.add_1_r, (take_S_r _ _ _ Hst). split; [congruence|]. split; [lia|].
          split; [rewrite E2, length_app; simpl; lia|]. split; [intros _; lia|].
          intros s t' l' c' Hl' Ht' Hc'. rewrite E2 in Hl'. apply lookup_app_Some in Hl' as [Hl'|[Hge Hl']].
          * by apply (Hcells s t').
          * apply list_lookup_singleton_Some in Hl' as [H0 <-]. assert (s = length l1) as -> by lia.
            simplify_eq. done.
        + destruct Hr as [-> Hf]. split; [done|]. exists t, c. split; [by eapply list_elem_of_lookup_2|done]. }
    intros [si|none]; [|done]. rewrite length_seq. intros (Es & _ & Ei & Hs01 & Hcells).
    rewrite firstn_all in Es. split; [done|]. split; [|apply Hs01; lia].
    split; rewrite ?Es; try done.
    - split; [done|]. intros s l Hl. destruct (lookup_lt_is_Some_2 strm s) as [t Hst].
      { apply lookup_lt_Some in Hl. lia. }
      destruct (stream_lookup kv size I t (Hstrm _ _ Hst)) as (c & h & Hc & _). by apply (Hcells s t l c).
    - intros s l t c Hl Hst Hc. by destruct (Hcells s t l c Hl Hst Hc). }
  intros [si|none].
  - intros (E1 & SO & H01). apply runs_assert; [by apply Nat.leb_le|]. apply runs_ok. right.
    split; [done|]. split; [done|]. unfold si_empty. apply Nat.eqb_neq.
    rewrite (so_len _ _ _ SO), E1. lia.
  - intros H. apply runs_ok. by left.
Qed.

(** ** prepare *)

(** The saved copies of the cells of a slot. *)
Record saved (kv : llama_kv_cache) (si : slot_info) (st : state_t) : Prop := {
  sv_sinfo : st_sinfo st = si;
  sv_heads : st_heads st = v_heads kv;
  sv_cells : forall s t l c, si_strm si !! s = Some t -> si_idxs si !! s = Some l -> v_cells kv !! t = Some c ->
               exists r, st_cells st !! s = Some r /\ copy_of c l r
}.

Lemma free_cell_shift c i a : kv_wf c -> cells_abs c !! i = Some a -> a_pos a = -1 -> a_shift a = 0 /\ unshift a = a.
Proof.
  intros W Ha Hp. destruct (wf_cell _ W _ _ Ha) as (_ & H & _). destruct (H Hp) as [_ Hs].
  split; [done|]. destruct a; unfold unshift; simpl in *. by subst.
Qed.

Lemma save_state_ok kv size nt si :
  kv_inv kv size -> slot_ok kv nt si -> runs (save_state kv si) (saved kv si).
Proof.
  intros I SO. unfold save_state. apply runs_bind. eapply runs_mono.
  { apply (runs_for (fun n acc => length acc = n /\
      forall s t l c, (s < n)%nat -> si_strm si !! s = Some t -> si_idxs si !! s = Some l -> v_cells kv !! t = Some c ->
        exists r, acc !! s = Some r /\ copy_of c l r)).
    - split; [done|lia].
    - intros s acc Hs [Hlen Hacc]. unfold si_n_stream in Hs.
      destruct (slot_ok_stream kv nt si s SO Hs) as (t & l & Ht & Hl & _ & Hlt).
      destruct (stream_lookup kv size I t Hlt) as (c & h & Hc & _).
      destruct (so_free _ _ _ SO s l t c Hl Ht Hc) as [_ Hf]. destruct (ki_wf _ _ I t c Hc) as (W & _ & _).
      rewrite (rd_ok _ _ _ Ht), bind_ok, (rd_ok _ _ _ Hc), bind_ok, (rd_ok _ _ _ Hl), bind_ok.
      apply runs_bind. eapply runs_mono; [apply cells_cp_idxs_ok|].
      { intros idx Hin. destruct (Hf idx Hin) as (a & Ha & Hp). exists a. split; [done|].
        by eapply free_cell_shift. }
      intros r Hr. apply runs_ok. split; [rewrite length_app; simpl; lia|].
      intros s' t' l' c' Hs' Ht' Hl' Hc'. destruct (decide (s' = s)) as [->|Hne].
      + simplify_eq. exists r. split; [|done]. by apply list_lookup_middle.
      + destruct (Hacc s' t' l' c') as (r' & Hr' & Hcp); [lia|done..|]. exists r'. split; [|done].
        by apply lookup_app_l_Some. }
  intros cs [_ Hcs]. apply runs_ok. split; [done|done|]. intros s t l c Hs. apply Hcs; [|done].
  unfold si_n_stream. by eapply lookup_lt_Some.
Qed.

(** Restoring one stream gives back its cells exactly. *)
Lemma restore_stream_ok c c' l r u base :
  kv_wf c -> NoDup l -> (forall idx, idx ∈ l -> exists a, cells_abs c !! idx = Some a /\ a_pos a = -1) ->
  placed u base l c c' -> copy_of c l r -> runs (cells_set_idxs c' l r) (fun c2 => c2 = c).
Proof.
  intros W Hnd Hf [W' S' N' O'] (Hlen & Hsz & Hcp).
  eapply runs_mono; [apply (cells_set_idxs_ok c' l r W' Hnd Hsz)|].
  - intros idx (j & Hj)%list_elem_of_lookup. destruct (Hf idx) as (a & Ha & Hp); [by eapply list_elem_of_lookup_2|].
    exists (new_cell u (base + j) a). split; [by apply N'|done].
  - intros j Hj. destruct (lookup_lt_is_Some_2 l j Hj) as [idx Hidx].
    destruct (Hcp j idx Hidx) as (a & Ha & Hr). exists (unshift a). split; [done|].
    destruct (Hf idx) as (a' & Ha' & Hp); [by eapply list_elem_of_lookup_2|]. simplify_eq.
    destruct (free_cell_shift c idx a W Ha Hp) as [_ ->]. rewrite (proj2 (free_cell_shift c idx a W Ha Hp)).
    by apply (wf_cell _ W idx).
  - intros c2 (W2 & S2 & Hsz2 & N2 & O2). apply kv_cells_canonical; [done|done| |congruence].
    apply list_eq. intros i. destruct (decide (i ∈ l)) as [Hin|Hni].
    + apply list_elem_of_lookup in Hin as [j Hj]. destruct (Hcp j i Hj) as (a & Ha & Hr).
      destruct (Hf i) as (a' & Ha' & Hp); [by eapply list_elem_of_lookup_2|]. simplify_eq.
      rewrite (N2 j i (unshift a) Hj Hr), Ha. f_equal.
      destruct (free_cell_shift c i a W Ha Hp) as [_ E]. by rewrite E, E.
    + by rewrite O2, O'.
Qed.

Lemma restore_state_ok kv size nt si u kv1 kv2 st :
  kv_inv kv size -> slot_ok kv nt si -> saved kv si st -> applied kv size nt si u kv1 ->
  kv_inv kv2 size -> v_cells kv2 = v_cells kv1 -> (exists hs cs, kv2 = with_cells hs cs kv) ->
  runs (restore_state kv2 st) (fun kv3 => kv_inv kv3 size /\ v_cells kv3 = v_cells kv /\
    (exists hs cs, kv3 = with_cells hs cs kv) /\
    (k_n_stream kv = 1%nat -> v_heads kv3 = v_heads kv)).
Proof.
  intros I SO [Sv1 Sv2 Sv3] [_ _ An Ao] I2 Ec2 Hsame. unfold restore_state. rewrite Sv1.
  assert (Hns : (length (si_strm si) <= k_n_stream kv)%nat).
  { apply NoDup_below; [apply SO|]. intros t (s & Hs)%list_elem_of_lookup. by apply (so_strm _ _ _ SO) in Hs. }
  eapply runs_mono.
  { apply (runs_for (fun n kv3 => kv_inv kv3 size /\ (exists hs cs, kv3 = with_cells hs cs kv) /\
      (forall t, t ∉ drop n (si_strm si) -> v_cells kv3 !! t = v_cells kv !! t) /\
      (forall t, t ∈ drop n (si_strm si) -> v_cells kv3 !! t = v_cells kv1 !! t) /\
      (k_n_stream kv = 1%nat -> (0 < n)%nat -> v_heads kv3 = v_heads kv))).
    - split; [done|]. split; [done|]. rewrite Ec2, drop_0. split; [intros t Ht; by apply Ao|]. split; [done|lia].
    - intros s kv3 Hs (I3 & (hs & cs & E3) & R1 & R2 & R3).
      unfold si_n_stream in Hs.
      destruct (slot_ok_stream kv nt si s SO Hs) as (t & l & Ht & Hl & _ & Hlt).
      destruct (stream_lookup kv size I t Hlt) as (c & h & Hc & Hh).
      destruct (so_free _ _ _ SO s l t c Hl Ht Hc) as [Hnd Hf]. destruct (ki_wf _ _ I t c Hc) as (W & Hsz & F).
      destruct (An s t l c Ht Hl Hc) as (c' & Hc' & P). destruct (Sv3 s t l c Ht Hl Hc) as (r & Hr & Hcp).
      assert (Hd : drop s (si_strm si) = t :: drop (S s) (si_strm si)) by by apply drop_S.
      assert (Hc3 : v_cells kv3 !! t = Some c') by (rewrite R2; [done|rewrite Hd; set_solver]).
      destruct (lookup_lt_is_Some_2 (v_heads kv) s) as [h' Hh']; [rewrite (ki_heads _ _ I); lia|].
      rewrite (rd_ok _ _ _ Ht), bind_ok, (rd_ok _ _ _ Hc3), bind_ok, (rd_ok _ _ _ Hl), bind_ok, (rd_ok _ _ _ Hr), bind_ok.
      apply runs_bind. eapply runs_mono; [by apply (restore_stream_ok c c' l r u (s * nt))|]. intros c2 ->.
      rewrite Sv2, (rd_ok _ _ _ Hh'), bind_ok.
      eapply runs_mono; [apply (put_stream_ok kv3 size I3 t h' c c' Hc3); try done|].
      { by apply (ki_head _ _ I s). }
      { rewrite E3. done. }
      intros kv4 (I4 & Hc4 & Hh4 & (hs4 & cs4 & E4) & Hother). split; [done|].
      split; [rewrite E4, E3; eauto|]. rewrite Nat.add_1_r.
      assert (Hout : t ∉ drop (S s) (si_strm si)).
      { intros (j & Hj)%list_elem_of_lookup. rewrite lookup_drop in Hj.
        pose proof (NoDup_lookup _ _ _ _ (proj1 (so_strm _ _ _ SO)) Hj Ht). lia. }
      split; [|split].
      + intros t' Ht'. destruct (decide (t' = t)) as [->|Hne]; [congruence|].
        destruct (Hother t' Hne) as [-> _]. apply R1. rewrite Hd. set_solver.
      + intros t' Ht'. assert (t' <> t) by congruence. destruct (Hother t' ltac:(done)) as [-> _].
        apply R2. rewrite Hd. set_solver.
      + intros H1 _. apply list_eq. intros k.
        assert (t = 0%nat /\ s = 0%nat) as [-> ->] by lia.
        destruct (decide (k = 0%nat)) as [->|Hk]; [by rewrite Hh4, Hh'|].
        rewrite !lookup_ge_None_2; [done|rewrite (ki_heads _ _ I); lia|].
        rewrite (ki_heads _ _ I4), E4, E3. simpl. lia. }
  intros kv3 (I3 & Hs3 & R1 & _ & R3). split; [done|]. split.
  - apply list_eq. intros t. apply R1. rewrite drop_ge by done. set_solver.
  - split; [done|]. intros H1. apply R3; [done|]. apply SO.
Qed.

Lemma applied_pos_lt kv size nt si u kv' :
  kv_inv kv size -> slot_ok kv nt si -> toks_ok kv u nt (si_strm si) -> pos_lt kv ->
  applied kv size nt si u kv' -> pos_lt kv'.
Proof.
  intros I SO TO Hpos [I' _ An Ao] t c j b Hc Hb. destruct (decide (t ∈ si_strm si)) as [Hin|Hni].
  - apply list_elem_of_lookup in Hin as [s Hs]. pose proof (lookup_lt_Some _ _ _ Hs) as Hlts.
    destruct (slot_ok_stream kv nt si s SO Hlts) as (t' & l & Ht' & Hl & Hlen & Hlt). simplify_eq.
    destruct (stream_lookup kv size I t Hlt) as (c0 & h & Hc0 & _).
    destruct (An s t l c0 Hs Hl Hc0) as (c' & Hc' & [_ _ N O]). simplify_eq.
    destruct (decide (j ∈ l)) as [Hj|Hj].
    + apply list_elem_of_lookup in Hj as [k Hk].
      destruct (so_free _ _ _ SO s l t c0 Hl Hs Hc0) as [_ Hf].
      destruct (Hf j) as (a & Ha & _); [by eapply list_elem_of_lookup_2|].
      rewrite (N k j a Hk Ha) in Hb. injection Hb as <-. apply lookup_lt_Some in Hk as Hklt.
      destruct (TO s t k Hs Hklt) as (p & m & sq & T). destruct (to_pos _ _ _ _ _ _ _ T) as [Ep ?].
      simpl. rewrite Ep. simpl. lia.
    + rewrite O in Hb by done. by apply (Hpos t c0 j).
  - rewrite Ao in Hc by done. by apply (Hpos t c j).
Qed.

(** [ubatch_fits] only looks at the configuration of the cache. *)
Lemma ubatch_fits_same kv hs cs u nt strm :
  ubatch_fits kv u nt strm -> ubatch_fits (with_cells hs cs kv) u nt strm.
Proof.
  intros [U1 U2 U3 U4 U5]. split; try done. intros s t j Hs Hj. destruct (U5 s t j Hs Hj) as (p & m & l & T).
  exists p, m, l. eapply tok_ok_same; [|exact T]. done.
Qed.

(** The cache [kv'] after the micro-batches of [l] were placed one after the other in their
    slots, with the invariant and the configuration kept at every step. *)
Inductive applies (size : nat) : llama_kv_cache -> list (slot_info * llama_ubatch) -> llama_kv_cache -> Prop :=
  | applies_nil kv : applies size kv [] kv
  | applies_cons kv si u kv1 l kv' :
      apply_ubatch kv si u = Ok kv1 -> kv_inv kv1 size -> (exists hs cs, kv1 = with_cells hs cs kv) ->
      applies size kv1 l kv' -> applies size kv ((si, u) :: l) kv'.

Lemma applies_snoc size kv l kv1 si u kv2 :
  applies size kv l kv1 -> apply_ubatch kv1 si u = Ok kv2 -> kv_inv kv2 size ->
  (exists hs cs, kv2 = with_cells hs cs kv1) -> applies size kv (l ++ [(si, u)]) kv2.
Proof.
  intros H E I2 S2. induction H as [kv|kv si' u' kv1' l kv' E' I' S' _ IH].
  { econstructor; [exact E|done|done|constructor]. }
  econstructor; [done..|]. by apply IH.
Qed.

(** Every occupied cell of [kv] is still in place in [kv1], and every token of the
    micro-batches [us] has a cell. *)
Definition stored (kv kv1 : llama_kv_cache) (us : list llama_ubatch) : Prop :=
  (forall t c i a, v_cells kv !! t = Some c -> cells_abs c !! i = Some a -> a_pos a <> -1 ->
     exists c1, v_cells kv1 !! t = Some c1 /\ cells_abs c1 !! i = Some a) /\
  (forall u j, u ∈ us -> (j < ub_n_tokens u)%nat -> exists t c i a,
     v_cells kv1 !! t = Some c /\ cells_abs c !! i = Some (new_cell u j a) /\ a_pos (new_cell u j a) <> -1).

Lemma stored_nil kv : stored kv kv [].
Proof. split; [by eauto|]. intros u j Hu. by apply elem_of_nil in Hu. Qed.

Lemma stored_snoc kv kv1 kv2 us u : stored kv kv1 us -> stored kv1 kv2 [u] -> stored kv kv2 (us ++ [u]).
Proof.
  intros [K1 N1] [K2 N2]. split.
  - intros t c i a Hc Ha Hp. destruct (K1 t c i a Hc Ha Hp) as (c1 & Hc1 & Ha1). by apply (K2 t c1 i a).
  - intros v j [Hv|Hv]%elem_of_app Hj; [|by apply N2].
    destruct (N1 v j Hv Hj) as (t & c & i & a & Hc & Ha & Hp).
    destruct (K2 t c i _ Hc Ha Hp) as (c2 & Hc2 & Ha2). by exists t, c2, i, a.
Qed.

Lemma applied_stored kv size nt si u kv' :
  kv_inv kv size -> slot_ok kv nt si -> ub_n_tokens u = (si_n_stream si * nt)%nat -> toks_ok kv u nt (si_strm si) ->
  applied kv size nt si u kv' -> stored kv kv' [u].
Proof.
  intros I SO Hn TO Ap. split.
  - intros t c i a Hc Ha Hp. destruct (decide (t ∈ si_strm si)) as [Ht|Ht].
    + apply list_elem_of_lookup in Ht as [s Hs].
      destruct (slot_ok_stream kv nt si s SO (lookup_lt_Some _ _ _ Hs)) as (t' & l & Hs' & Hl & _). simplify_eq.
      destruct (ap_new _ _ _ _ _ _ Ap s t l c Hs Hl Hc) as (c' & Hc' & P). exists c'. split; [done|].
      rewrite (pl_old _ _ _ _ _ P); [done|]. intros Hi.
      destruct (so_free _ _ _ SO s l t c Hl Hs Hc) as [_ F]. destruct (F i Hi) as (b & Hb & Hbp). by simplify_eq.
    + exists c. split; [|done]. by rewrite (ap_other _ _ _ _ _ _ Ap t Ht).
  - intros v j Hv Hj. apply list_elem_of_singleton in Hv as ->. pose proof (proj1 (so_nt _ _ _ SO)) as Hnt.
    unfold si_n_stream in Hn. rewrite Hn in Hj.
    assert (Hs : (j / nt < length (si_strm si))%nat) by (apply Nat.Div0.div_lt_upper_bound; lia).
    assert (Hk : (j mod nt < nt)%nat) by (apply Nat.mod_upper_bound; lia).
    assert (Ej : j = (j / nt * nt + j mod nt)%nat) by (rewrite (Nat.div_mod_eq j nt) at 1; lia).
    destruct (slot_ok_stream kv nt si (j / nt) SO Hs) as (t & l & Ht & Hl & Hlen & Hlt).
    destruct (stream_lookup kv size I t Hlt) as (c & h & Hc & _).
    destruct (lookup_lt_is_Some_2 l (j mod nt)) as [idx Hidx]; [lia|].
    destruct (so_free _ _ _ SO _ l t c Hl Ht Hc) as [_ F].
    destruct (F idx) as (a & Ha & _); [by eapply list_elem_of_lookup_2|].
    destruct (ap_new _ _ _ _ _ _ Ap _ t l c Ht Hl Hc) as (c' & Hc' & P).
    pose proof (pl_new _ _ _ _ _ P _ _ _ Hidx Ha) as Hnew. rewrite <- Ej in Hnew.
    exists t, c', idx, a. split; [done|]. split; [done|].
    destruct (TO _ t (j mod nt)%nat Ht Hk) as (p & m & sq & TK). destruct (to_pos _ _ _ _ _ _ _ TK) as [Hp Hr].
    rewrite <- Ej in Hp. unfold new_cell. simpl. rewrite Hp. simpl. lia.
Qed.

Section prepare.
Context (kv : llama_kv_cache) (size : nat) (I : kv_inv kv size).
Context (Hnone : k_swa_type kv = LLAMA_SWA_TYPE_NONE).

(** Undoing the recovery stack gives back the cells of [kv]. *)
Definition undo (kv1 : llama_kv_cache) (states : list state_t) : Prop :=
  forall kv2, kv_inv kv2 size -> v_cells kv2 = v_cells kv1 -> (exists hs cs, kv2 = with_cells hs cs kv) ->
    runs (foldM restore_state kv2 (rev states)) (fun kv3 => kv_inv kv3 size /\ v_cells kv3 = v_cells kv /\
      (exists hs cs, kv3 = with_cells hs cs kv) /\
      (k_n_stream kv = 1%nat -> v_heads kv3 = if decide (states = []) then v_heads kv2 else v_heads kv)).

Definition streams_ok (out : list slot_info) : Prop :=
  Forall (fun si => forall t, t ∈ si_strm si -> (t < k_n_stream kv)%nat) out.

Definition prep_inv (l1 : list llama_ubatch) (st : llama_kv_cache * list slot_info * list state_t) : Prop :=
  let '(kv1, out, states) := st in
  kv_inv kv1 size /\ (exists hs cs, kv1 = with_cells hs cs kv) /\ pos_lt kv1 /\
  length out = length l1 /\ length states = length l1 /\ undo kv1 states /\
  applies size kv (zip out l1) kv1 /\ stored kv kv1 l1 /\ streams_ok out.

Lemma undo_snoc kv1 kv2 states s nt si u :
  kv_inv kv1 size -> (exists hs cs, kv1 = with_cells hs cs kv) -> slot_ok kv1 nt si -> saved kv1 si s ->
  applied kv1 size nt si u kv2 -> (states = [] -> kv1 = kv) -> undo kv1 states -> undo kv2 (states ++ [s]).
Proof.
  intros I1 (hs1 & cs1 & E1) SO Sv Ap He U kv3 I3 Ec3 (hs3 & cs3 & E3). rewrite rev_app_distr. cbn [rev app foldM].
  apply runs_bind. eapply runs_mono.
  { apply (restore_state_ok kv1 size nt si u kv2 kv3 s); try done.
    exists hs3, cs3. rewrite E3, E1. done. }
  intros kv4 (I4 & Ec4 & (hs4 & cs4 & E4) & H4). eapply runs_mono; [apply (U kv4 I4 Ec4)|].
  { exists hs4, cs4. rewrite E4, E1. done. }
  intros kv5 (I5 & Ec5 & Hs5 & H5). do 3 (split; [done|]). intros Hn1.
  rewrite H5 by done. destruct (decide (states ++ [s] = [])) as [Hbad|_]; [by destruct states|].
  case_decide as Hst; [|done]. rewrite H4; [by rewrite (He Hst)|]. rewrite E1. exact Hn1.
Qed.

(** A stream of the micro-batch has too few free cells. *)
Definition no_room (kv1 : llama_kv_cache) (u : llama_ubatch) : Prop :=
  exists nt strm t c, ubatch_fits kv u nt strm /\ t ∈ strm /\ v_cells kv1 !! t = Some c /\ (n_free c < nt)%nat.

Lemma prepare_step_ok l1 u st :
  prep_inv l1 st -> (exists nt strm, ubatch_fits kv u nt strm) ->
  runs (prepare_step st u) (fun r =>
    match r with
    | inl st' => prep_inv (l1 ++ [u]) st'
    | inr st' => prep_inv l1 st' /\ no_room st'.1.1 u
    end).
Proof.
  destruct st as [[kv1 out] states]. intros HI (nt & strm & UF).
  pose proof HI as (I1 & (hs & cs & E1) & P1 & Lo & Ls & U & Ap & St & So).
  pose proof (ubatch_fits_same kv hs cs u nt strm UF) as UF1. rewrite <- E1 in UF1.
  unfold prepare_step. destruct (find_slot_ok kv1 size u nt strm I1) as (si & -> & Hsi); try done.
  { by rewrite E1. }
  rewrite bind_ok. destruct Hsi as [(-> & t & c & Ht & Hc & Hf)|(Es & SO & Hne)].
  { cbn. split; [exact HI|]. by exists nt, strm, t, c. }
  rewrite Hne. apply runs_bind. eapply runs_mono; [by apply (save_state_ok kv1 size nt si)|]. intros s Sv.
  assert (TO : toks_ok kv1 u nt (si_strm si)) by (rewrite Es; apply UF1).
  assert (Hn : ub_n_tokens u = (si_n_stream si * nt)%nat).
  { unfold si_n_stream. rewrite Es. by destruct (uf_n _ _ _ _ UF1). }
  assert (Hap : runs (apply_ubatch kv1 si u) (applied kv1 size nt si u)) by (by apply apply_ubatch_free_ok).
  apply runs_inv in Hap as (kv2 & Eap & Hap). rewrite Eap, bind_ok. apply runs_ok.
  pose proof (ap_inv _ _ _ _ _ _ Hap) as I2. destruct (ap_same _ _ _ _ _ _ Hap) as (hs2 & cs2 & E2).
  split; [done|]. split; [rewrite E2, E1; eauto|].
  split; [by apply (applied_pos_lt kv1 size nt si u kv2)|]. rewrite !length_app. simpl. split; [lia|]. split; [lia|]. split; [|split; [|split]].
  - apply (undo_snoc kv1 kv2 states s nt si u); try done; [exists hs, cs; exact E1|].
    intros ->. destruct l1; [|done]. destruct out; [|done]. by inversion Ap.
  - rewrite zip_with_app by lia. eapply applies_snoc; [exact Ap|exact Eap|done|by eauto].
  - eapply stored_snoc; [exact St|]. by eapply applied_stored.
  - apply Forall_app. split; [done|]. apply Forall_singleton. intros t (z & Hz)%list_elem_of_lookup.
    pose proof (proj2 (so_strm _ _ _ SO) _ _ Hz) as Hlt. by rewrite E1 in Hlt.
Qed.

(** What [prepare] promises on a cache without sliding window: the cells are as before,
    and with one stream the whole cache is; the slots it returns can be applied one after
    the other, which stores every token without touching the occupied cells, and when it returns none the placement of a prefix of the micro-batches
    leaves too few free cells for the next one. *)
Definition prepared (us : list llama_ubatch) (r : llama_kv_cache * list slot_info) : Prop :=
  v_cells r.1 = v_cells kv /\ kv_inv r.1 size /\ (exists hs, r.1 = with_cells hs (v_cells kv) kv) /\
  (k_n_stream kv = 1%nat -> r.1 = kv) /\
  ((length r.2 = length us /\ streams_ok r.2 /\
    exists kv', applies size kv (zip r.2 us) kv' /\ kv_inv kv' size /\ stored kv kv' us) \/
   (r.2 = [] /\ exists out l u rest kv1, us = l ++ u :: rest /\ length out = length l /\
      applies size kv (zip out l) kv1 /\ no_room kv1 u)).

Lemma prepare_finish kv1 out states us (success : bool) l :
  prep_inv l (kv1, out, states) -> us <> [] ->
  (if success then l = us else exists u rest, us = l ++ u :: rest /\ no_room kv1 u) ->
  runs (assert_ (negb (length states =? 0)%nat || negb success) ;;
        kv2 ← foldM restore_state kv1 (rev states); Ok (kv2, if success then out else [])) (prepared us).
Proof.
  intros (I1 & Hs1 & P1 & Lo & Ls & U & Ap & St & So) Hne Hl. apply runs_assert.
  { destruct success; [subst l; destruct states; [by destruct us|done]|by rewrite orb_true_r]. }
  apply runs_bind. eapply runs_mono; [apply (U kv1 I1 eq_refl Hs1)|].
  intros kv2 (I2 & Ec2 & (hs2 & cs2 & E2) & H2). apply runs_ok. unfold prepared. cbn [fst snd].
  split; [done|]. split; [done|]. split.
  { exists hs2. rewrite E2 in Ec2. simpl in Ec2. by rewrite E2, Ec2. }
  split.
  - intros Hn1. specialize (H2 Hn1).
    assert (Hh : v_heads kv2 = v_heads kv).
    { rewrite H2. case_decide as Hst; [|done]. subst states. destruct l; [|done]. destruct out; [|done].
      by inversion Ap. }
    rewrite E2 in Hh, Ec2 |- *. simpl in *. subst. by destruct kv.
  - destruct success.
    + left. subst l. split; [done|]. split; [done|]. by exists kv1.
    + right. split; [done|]. destruct Hl as (u & rest & -> & Hr). by exists out, l, u, rest, kv1.
Qed.

Lemma prepare_ok us :
  pos_lt kv -> us <> [] -> Forall (fun u => exists nt strm, ubatch_fits kv u nt strm) us ->
  runs (prepare kv us) (prepared us).
Proof.
  intros Hpos Hne Hus. unfold prepare. apply runs_bind. eapply runs_mono.
  { apply (runs_foldB prep_inv (fun st => exists l u rest, us = l ++ u :: rest /\ prep_inv l st /\ no_room st.1.1 u)).
    - split; [done|]. split; [exists (v_heads kv), (v_cells kv); by destruct kv|]. do 3 (split; [done|]).
      split; [|split; [constructor|split; [by apply stored_nil|constructor]]]. intros kv2 I2 Ec2 Hs. apply runs_ok. split; [done|]. split; [done|]. split; [done|].
      by rewrite decide_True.
    - intros l1 u l2 st E HI. eapply runs_mono; [apply (prepare_step_ok l1 u st HI)|].
      { rewrite Forall_forall in Hus. apply Hus. rewrite E. apply in_app_iff. right. by left. }
      intros [st'|st']; [done|]. intros [H1 H2]. by exists l1, u, l2. }
  intros [[[kv1 out] states]|[[kv1 out] states]].
  - intros HI. by apply (prepare_finish kv1 out states us true us).
  - intros (l & u & rest & E & HI & Hr). apply (prepare_finish kv1 out states us false l HI Hne). eauto.
Qed.
End prepare.
