(* ===== verification/KvCacheMachine.v ===== *)
(** The KV cache as an abstract data type: a machine on arrays of cells, one per stream,
    with one executable step per sequence operation of [llama_kv_cache], and the theorem
    that a cache from the constructor implements it.  The machine is what
    llama-memory.h documents: each operation maps a function over the cells of one stream. *)
From S2P Require Import Prelude Hparams KvCells KvCellsMachine Memory Batch KvCache KvCacheSeq.
Local Open Scope Z_scope.

(** ** The constructor *)
Lemma cells_fit_empty m s n : cells_fit m s (replicate n cell_empty).
Proof. intros i a [-> _]%lookup_replicate. split; [done|]. set_solver. Qed.

(** The map from sequences to streams: all to stream 0, or one stream each. *)
Definition stream_map (unified : bool) (n_seq_max : nat) : list nat :=
  if unified then replicate LLAMA_MAX_SEQ 0%nat
  else if (1 <? n_seq_max)%nat then seq 0 n_seq_max else replicate LLAMA_MAX_SEQ 0%nat.

Lemma stream_map_lt unified n k s :
  (0 < n)%nat -> stream_map unified n !! k = Some s -> (s < if unified then 1 else n)%nat.
Proof.
  intros Hn. unfold stream_map. destruct unified; [intros [-> _]%lookup_replicate; lia|].
  destruct (1 <? n)%nat eqn:E; intros H; [apply lookup_seq in H; lia|apply lookup_replicate in H as [-> _]; lia].
Qed.

Lemma stream_map_length unified n :
  (0 < n <= LLAMA_MAX_SEQ)%nat -> (0 < length (stream_map unified n) <= LLAMA_MAX_SEQ)%nat.
Proof.
  intros Hn. unfold stream_map. destruct unified; [rewrite length_replicate; unfold LLAMA_MAX_SEQ; lia|].
  destruct (1 <? n)%nat; rewrite ?length_seq, ?length_replicate; unfold LLAMA_MAX_SEQ in *; lia.
Qed.

(** A new cache: empty cells in every stream. *)
Record fresh (unified : bool) (size n_seq_max n_pad : nat) (n_swa : Z) (t : llama_swa_type) (hp : llama_hparams)
    (kv : llama_kv_cache) : Prop := {
  fr_inv   : kv_inv kv size;
  fr_hp    : k_hparams kv = hp;
  fr_swa   : k_swa_type kv = t /\ k_n_swa kv = n_swa;
  fr_n     : k_n_stream kv = (if unified then 1 else n_seq_max)%nat /\ k_n_seq_max kv = n_seq_max /\ k_n_pad kv = n_pad;
  fr_map   : seq_to_stream kv = stream_map unified n_seq_max;
  fr_cells : v_cells kv = replicate (k_n_stream kv) (cells_resize size llama_kv_cells_new);
  fr_heads : v_heads kv = replicate (k_n_stream kv) 0%nat;
  fr_sc    : sc_info kv = mk_sc [] []
}.

Lemma llama_kv_cache_new_fresh rs hp tk tv vt unified size n_seq_max n_pad n_swa t filter reuse kv :
  (0 < n_seq_max <= LLAMA_MAX_SEQ)%nat ->
  llama_kv_cache_new rs hp tk tv vt unified size n_seq_max n_pad n_swa t filter reuse true = Ok kv ->
  fresh unified size n_seq_max n_pad n_swa t hp kv.
Proof.
  intros Hn. unfold llama_kv_cache_new.
  destruct (if (n_pad =? 0)%nat then Fault Overflow else assert_ (size mod n_pad =? 0)%nat); [|done..].
  rewrite bind_ok. set (ns := if unified then 1%nat else n_seq_max).
  replace (if (1 <? ns)%nat then seq 0 ns else replicate LLAMA_MAX_SEQ 0%nat) with (stream_map unified n_seq_max)
    by (unfold stream_map, ns; by destruct unified).
  assert (Hns : (0 < ns)%nat) by (unfold ns; destruct unified; lia).
  destruct (assert_ _); [|done..]. rewrite bind_ok.
  destruct (new_layers _ _ _ _ _ _ _ _); [|done..]. rewrite bind_ok.
  destruct (reuse_layers _ _ _ _); [|done..]. rewrite bind_ok. intros [= <-].
  destruct (cells_resize_ok size llama_kv_cells_new) as (W & E & _); [done|].
  split; try done. split; simpl; rewrite ?length_replicate; try done.
  - split; [by apply stream_map_length|]. intros k s Hs. by apply (stream_map_lt unified n_seq_max) in Hs; [|lia].
  - intros s c [-> _]%lookup_replicate. split; [done|]. rewrite E. split; [|apply cells_fit_empty].
    by rewrite <- (length_abs _ W), E, length_replicate.
  - intros s h [-> _]%lookup_replicate. lia.
Qed.

(** ** The machine *)
Inductive kv_op :=
  | KvClear
  | KvSeqRm (x p0 p1 : Z) | KvRmAny (p0 p1 : Z) | KvSeqKeep (x : Z)
  | KvSeqCp (src dst p0 p1 : Z) | KvSeqAdd (x p0 p1 d : Z) | KvSeqDiv (x p0 p1 d : Z).

(** The operation on the object; the flag of [seq_rm] is always true. *)
Definition run_kv_op (kv : llama_kv_cache) (op : kv_op) : res llama_kv_cache :=
  match op with
  | KvClear => kv_clear false kv
  | KvSeqRm x p0 p1 => r ← kv_seq_rm kv x p0 p1; assert_ r.2 ;; Ok r.1
  | KvRmAny p0 p1 => r ← kv_seq_rm kv (-1) p0 p1; assert_ r.2 ;; Ok r.1
  | KvSeqKeep x => kv_seq_keep kv x
  | KvSeqCp src dst p0 p1 => kv_seq_cp kv src dst p0 p1
  | KvSeqAdd x p0 p1 d => kv_seq_add kv x p0 p1 d
  | KvSeqDiv x p0 p1 d => kv_seq_div kv x p0 p1 d
  end.
Definition run_kv_ops (kv : llama_kv_cache) (ops : list kv_op) : res llama_kv_cache := foldM run_kv_op kv ops.

(** The cells of the streams. *)
Abbreviation kv_state := (list (list cell)).
Definition kv_abs (kv : llama_kv_cache) : kv_state := cells_abs <$> v_cells kv.

(** [P] holds of the cells of sequence [x] in the range. *)
Definition on_range (x p0 p1 : Z) (P : cell -> Prop) (l : list cell) : Prop :=
  Forall (fun a => in_range p0 p1 a /\ x ∈ a_seq a -> P a) l.
#[export] Instance on_range_dec x p0 p1 P `{!forall a, Decision (P a)} l : Decision (on_range x p0 p1 P l).
Proof. unfold on_range. apply _. Defined.

(** One step: [None] where an assertion of the code could fail or an integer overflow.
    [m] maps sequences to streams and [n] is the size of a stream. *)
Definition spec_kv_op (m : list nat) (n : nat) (st : kv_state) (op : kv_op) : option kv_state :=
  let stream x := if decide (0 <= x < Z.of_nat (length m)) then m !! Z.to_nat x else None in
  let map_at s (g : cell -> cell) := alter (fmap (M := list) g) s st in
  let when P `{Decision P} (r : kv_state) := if decide P then Some r else None in
  match op with
  | KvClear => Some (fmap (M := list) (fun _ : cell => cell_empty) <$> st)
  | KvSeqRm x p0 p1 => s ← stream x; Some (map_at s (spec_rm x p0 p1))
  | KvRmAny p0 p1 => Some (fmap (M := list) (spec_rm_any p0 p1) <$> st)
  | KvSeqKeep x => s ← stream x; Some (map_at s (spec_keep x))
  | KvSeqCp src dst p0 p1 =>
      s0 ← stream src;
      s1 ← stream dst;
      l ← st !! s0;
      if decide (s0 = s1) then
        when (src = dst \/ on_range src p0 p1 (fun a => dst ∉ a_seq a) l)
          (if decide (src = dst) then st else map_at s0 (spec_cp src dst p0 p1))
      else
        when ((p0 <= 0 \/ Z.of_nat n <= p0 + 1) /\ (p1 <= 0 \/ Z.of_nat n <= p1 + 1) /\
              Forall (fun a => src ∈ a_seq a -> 0 <= a_pos a - a_shift a <= INT32_MAX /\
                                                INT32_MIN <= a_shift a <= INT32_MAX) l)
          (<[s1 := cp_cell src dst <$> l]> st)
  | KvSeqAdd x p0 p1 d =>
      s ← stream x;
      l ← st !! s;
      when (on_range x p0 p1 (fun a => INT32_MIN <= a_pos a + d <= INT32_MAX /\
                                       INT32_MIN <= a_shift a + d <= INT32_MAX) l)
        (map_at s (if d =? 0 then id else spec_add x p0 p1 d))
  | KvSeqDiv x p0 p1 d =>
      s ← stream x;
      l ← st !! s;
      when (1 < d /\ on_range x p0 p1 (fun a => a_shift a + (a_pos a - Z.quot (a_pos a) d) <= INT32_MAX /\
                                                INT32_MIN <= a_shift a) l)
        (map_at s (spec_div x p0 p1 d))
  end.

Fixpoint spec_kv_ops (m : list nat) (n : nat) (st : kv_state) (ops : list kv_op) : option kv_state :=
  match ops with
  | [] => Some st
  | op :: ops => st' ← spec_kv_op m n st op; spec_kv_ops m n st' ops
  end.

(** ** The cache implements the machine *)
(** The cache [kv] with streams of [size] cells implements the state [st]. *)
Record kv_implements (m : list nat) (size : nat) (kv : llama_kv_cache) (st : kv_state) : Prop := {
  im_inv : kv_inv kv size;
  im_map : seq_to_stream kv = m;
  im_pos : n_pos_per_embd (k_hparams kv) = 1;
  im_abs : kv_abs kv = st
}.

Section simulation.
Context (m : list nat) (size : nat) (kv : llama_kv_cache) (st : kv_state).
Context (W : kv_implements m size kv st).

Lemma kv_abs_lookup s l : st !! s = Some l -> exists c, v_cells kv !! s = Some c /\ cells_abs c = l.
Proof. rewrite <- (im_abs _ _ _ _ W). unfold kv_abs. rewrite list_lookup_fmap. by intros (c & ? & ->)%fmap_Some; exists c. Qed.

Lemma implements_config kv' hs cs sc st' :
  kv' = with_cells hs cs (with_sc_info sc kv) -> kv_inv kv' size -> kv_abs kv' = st' -> kv_implements m size kv' st'.
Proof. intros -> I' E. split; [done|apply W|apply W|done]. Qed.

Lemma implements_same kv' st' :
  (exists hs cs, kv' = with_cells hs cs kv) -> kv_inv kv' size -> kv_abs kv' = st' -> kv_implements m size kv' st'.
Proof. intros (hs & cs & ->) I' E. split; [done|apply W|apply W|done]. Qed.

Lemma stream_upd_implements s g kv' :
  stream_upd size kv s g kv' -> kv_implements m size kv' (alter (fmap g) s st).
Proof.
  intros [I' Hsame Hat Hother]. apply implements_same; [done|done|].
  rewrite <- (im_abs _ _ _ _ W). unfold kv_abs. apply list_eq. intros s'.
  destruct (decide (s' = s)) as [->|Hne].
  - rewrite list_lookup_alter_eq, !list_lookup_fmap. destruct (v_cells kv !! s) as [c|] eqn:E; simpl.
    + destruct (Hat c eq_refl) as (c' & -> & Habs). simpl. by rewrite Habs.
    + apply lookup_ge_None_1 in E. rewrite (lookup_ge_None_2 (v_cells kv') s); [done|].
      rewrite (ki_cells _ _ I'). destruct Hsame as (hs & cs & ->). simpl.
      by rewrite <- (ki_cells _ _ (im_inv _ _ _ _ W)).
  - rewrite list_lookup_alter_ne by done. rewrite !list_lookup_fmap. by destruct (Hother s' Hne) as [-> _].
Qed.

Lemma op_at_stream s g (r : res llama_kv_cache) :
  runs r (stream_upd size kv s g) -> runs r (fun kv' => kv_implements m size kv' (alter (fmap g) s st)).
Proof. intros H. eapply runs_mono; [exact H|]. apply stream_upd_implements. Qed.

(** An update of every stream. *)
Lemma all_streams_implements kv' g :
  kv_inv kv' size -> (exists hs cs, kv' = with_cells hs cs kv) ->
  (forall s c, v_cells kv !! s = Some c -> exists c', v_cells kv' !! s = Some c' /\ cells_abs c' = g (cells_abs c)) ->
  kv_implements m size kv' (g <$> st).
Proof.
  intros I' E H. apply implements_same; [done|done|]. rewrite <- (im_abs _ _ _ _ W). unfold kv_abs.
  apply list_eq. intros s. rewrite !list_lookup_fmap. destruct (v_cells kv !! s) as [c|] eqn:Ec; simpl.
  - destruct (H s c Ec) as (c' & -> & <-). done.
  - apply lookup_ge_None_1 in Ec. rewrite (lookup_ge_None_2 (v_cells kv') s); [done|].
    rewrite (ki_cells _ _ I'). destruct E as (? & ? & ->). simpl. by rewrite <- (ki_cells _ _ (im_inv _ _ _ _ W)).
Qed.

Lemma kv_clear_implements :
  runs (kv_clear false kv) (fun kv' => kv_implements m size kv' (fmap (M := list) (fun _ => cell_empty) <$> st)).
Proof.
  eapply runs_mono; [exact (kv_clear_false kv size (im_inv _ _ _ _ W))|]. intros kv' (I' & E & H).
  apply all_streams_implements; [done|done|]. intros s c Hc.
  destruct (lookup_lt_is_Some_2 (v_cells kv') s) as [c' Hc'].
  { rewrite (ki_cells _ _ I'), (n_stream_same _ _ E), <- (ki_cells _ _ (im_inv _ _ _ _ W)). by eapply lookup_lt_Some. }
  exists c'. split; [done|]. rewrite (H s c' Hc'). destruct (ki_wf _ _ (im_inv _ _ _ _ W) s c Hc) as (Wc & <- & _).
  by rewrite <- (length_abs c Wc), fmap_const.
Qed.

Lemma on_range_iff x p0 p1 (P : cell -> Prop) c i a :
  on_range x p0 p1 P (cells_abs c) -> cells_abs c !! i = Some a -> in_range p0 p1 a -> x ∈ a_seq a -> P a.
Proof. unfold on_range. rewrite Forall_lookup. intros H Ha H1 H2. by apply (H i a). Qed.
End simulation.

(** Copying a sequence, within a stream and to another one. *)
Lemma run_seq_cp_ok m size kv st src dst p0 p1 s0 s1 l st' :
  kv_implements m size kv st ->
  0 <= src < Z.of_nat (length m) -> m !! Z.to_nat src = Some s0 ->
  0 <= dst < Z.of_nat (length m) -> m !! Z.to_nat dst = Some s1 -> st !! s0 = Some l ->
  (if decide (s0 = s1) then
     if decide (src = dst \/ on_range src p0 p1 (fun a => dst ∉ a_seq a) l)
     then Some (if decide (src = dst) then st else alter (fmap (spec_cp src dst p0 p1)) s0 st) else None
   else if decide ((p0 <= 0 \/ Z.of_nat size <= p0 + 1) /\ (p1 <= 0 \/ Z.of_nat size <= p1 + 1) /\
              Forall (fun a => src ∈ a_seq a -> 0 <= a_pos a - a_shift a <= INT32_MAX /\
                                                INT32_MIN <= a_shift a <= INT32_MAX) l)
        then Some (<[s1 := cp_cell src dst <$> l]> st) else None) = Some st' ->
  runs (kv_seq_cp kv src dst p0 p1) (fun kv' => kv_implements m size kv' st').
Proof.
  intros W Hs Es Hd Ed Hl H. pose proof (im_inv _ _ _ _ W) as I. pose proof (im_map _ _ _ _ W) as Em.
  destruct (kv_abs_lookup _ _ _ _ W _ _ Hl) as (c & Hc & <-). rewrite <- Em in Hs, Es, Hd, Ed.
  destruct (decide (s0 = s1)) as [<-|Hne]; case_decide as Hp; try discriminate H; injection H as <-.
  - case_decide as Heq.
    + subst dst. unfold kv_seq_cp. destruct (seq_stream_ok kv size I src Hs) as (s & -> & _).
      rewrite !bind_ok, Nat.eqb_refl. unfold seq_cp_same. rewrite Z.eqb_refl. apply runs_ok. exact W.
    + destruct Hp as [?|Hp]; [done|]. apply (op_at_stream _ _ _ _ W).
      apply (kv_seq_cp_same_ok kv size I src dst p0 p1 s0); try done.
      intros c' i a Hc' Ha. simplify_eq. by eapply (on_range_iff src p0 p1 (fun a => dst ∉ a_seq a)).
  - destruct Hp as (H0 & H1 & Hf). pose proof (proj2 (ki_map _ _ I) _ _ Ed) as Hlt.
    destruct (stream_lookup kv size I s1 Hlt) as (c1 & h1 & Hc1 & _).
    eapply runs_mono; [apply (kv_seq_cp_cross_ok kv size I src dst p0 p1 s0 s1 c c1); try done|].
    { intros i a Ha. rewrite Forall_lookup in Hf. by apply (Hf i a). }
    intros kv' (I' & (hs & cs & sc & E) & _ & _ & (c1' & Hc1' & Eabs) & Hother).
    eapply (implements_config _ _ _ _ W); [exact E|done|]. rewrite <- (im_abs _ _ _ _ W). unfold kv_abs.
    apply list_eq. intros s. rewrite list_lookup_fmap. destruct (decide (s = s1)) as [->|Hs1].
    + rewrite Hc1', list_lookup_insert_eq; [simpl; by rewrite Eabs|]. rewrite length_fmap. by eapply lookup_lt_Some.
    + rewrite list_lookup_insert_ne by done. by rewrite list_lookup_fmap, Hother.
Qed.

(** Opens the binds and tests of a step of the machine. *)
Ltac open_kv_step H :=
  repeat match type of H with
  | ((if decide ?P then _ else None) ≫= _) = Some _ =>
      let Hp := fresh "Hx" in destruct (decide P) as [Hp|]; simpl in H; [|discriminate H]
  | ((?l !! ?i) ≫= _) = Some _ =>
      let s := fresh "s" in let E := fresh "E" in destruct (l !! i) as [s|] eqn:E; simpl in H; [|discriminate H]
  | (if decide ?P then Some _ else None) = Some _ =>
      let Hp := fresh "Hp" in destruct (decide P) as [Hp|]; [|discriminate H]
  end.

Lemma run_kv_op_ok m size kv st op st' :
  kv_implements m size kv st -> spec_kv_op m size st op = Some st' ->
  runs (run_kv_op kv op) (fun kv' => kv_implements m size kv' st').
Proof.
  intros W H. pose proof (im_inv _ _ _ _ W) as I. pose proof (im_map _ _ _ _ W) as Em.
  destruct op as [|x p0 p1|p0 p1|x|src dst p0 p1|x p0 p1 d|x p0 p1 d]; cbn [run_kv_op]; cbn [spec_kv_op] in H;
    open_kv_step H.
  - injection H as <-. by apply kv_clear_implements.
  - injection H as <-. destruct (kv_seq_rm_ok kv size I x p0 p1) as (s' & Es & Hr); [by rewrite Em|].
    rewrite Em in Es. simplify_eq. apply runs_bind. eapply runs_mono; [exact Hr|].
    intros [kv' b] [Hb U]. simpl in *. subst b. by apply (stream_upd_implements _ _ _ _ W).
  - injection H as <-. apply runs_bind. eapply runs_mono; [apply (kv_seq_rm_any_ok kv size I)|].
    intros [kv' b] (Hb & I' & E & Hs). simpl in *. subst b.
    by apply (all_streams_implements _ _ _ _ W).
  - injection H as <-. destruct (kv_seq_keep_ok kv size I x) as (s' & Es & Hr); [by rewrite Em|].
    rewrite Em in Es. simplify_eq. by apply (op_at_stream _ _ _ _ W).
  - by eapply run_seq_cp_ok.
  - injection H as <-. destruct (kv_abs_lookup _ _ _ _ W _ _ E0) as (c & Hc & <-).
    destruct (kv_seq_add_ok kv size I x p0 p1 d) as (s' & Es & Hr); [by rewrite Em|apply W|].
    rewrite Em in Es. simplify_eq. apply (op_at_stream _ _ _ _ W), Hr.
    intros c' i a Hc' Ha H1 H2. simplify_eq. exact (on_range_iff _ _ _ _ _ _ _ Hp Ha H1 H2).
  - injection H as <-. destruct (kv_abs_lookup _ _ _ _ W _ _ E0) as (c & Hc & <-). destruct Hp as [Hd Hp].
    destruct (kv_seq_div_ok kv size I x p0 p1 d) as (s' & Es & Hr); [by rewrite Em|apply W|done|].
    rewrite Em in Es. simplify_eq. apply (op_at_stream _ _ _ _ W), Hr.
    intros c' i a Hc' Ha H1 H2. simplify_eq. exact (on_range_iff _ _ _ _ _ _ _ Hp Ha H1 H2).
Qed.

Lemma run_kv_ops_ok m size ops : forall kv st st',
  kv_implements m size kv st -> spec_kv_ops m size st ops = Some st' ->
  runs (run_kv_ops kv ops) (fun kv' => kv_implements m size kv' st').
Proof.
  induction ops as [|op ops IH]; intros kv st st' W H; simpl in H; [by simplify_eq|].
  destruct (spec_kv_op m size st op) as [st1|] eqn:E; simpl in H; [|done].
  cbn [run_kv_ops foldM]. apply runs_bind. eapply runs_mono; [by eapply run_kv_op_ok|].
  intros kv1 W1. by apply (IH kv1 st1).
Qed.

(** ** Caches with given cells *)
(** A cache of one stream with the cells [c]. *)
Lemma one_stream_implements size n_pad n_swa t hp n_seq_max kv h c l b :
  fresh true size n_seq_max n_pad n_swa t hp kv -> n_pos_per_embd hp = 1 ->
  implements c (l, b) -> length l = size -> (h <= size)%nat ->
  (forall i a, l !! i = Some a -> a_pos a <> -1 -> a_seq a <> ∅) ->
  kv_implements (stream_map true n_seq_max) size (with_cells [h] [c] kv) [l].
Proof.
  intros F Hp (W & E & _) Hl Hh Hne. simpl in E. destruct (fr_n _ _ _ _ _ _ _ _ F) as (En & _ & _).
  assert (I' : kv_inv (with_cells [h] [c] kv) size).
  { split; simpl; rewrite ?En; [lia|done|done| | |].
    + pose proof (ki_map _ _ (fr_inv _ _ _ _ _ _ _ _ F)) as Hm. by rewrite En in Hm.
    + intros [|s] c' Hc'; [|done]. injection Hc' as <-. rewrite <- (length_abs c W), E. do 2 (split; [done|]).
      intros i a Ha. split; [by eapply Hne|]. intros x Hx. rewrite (fr_map _ _ _ _ _ _ _ _ F).
      apply lookup_replicate. split; [done|].
      destruct (wf_cell _ W i a) as (_ & _ & Hid); [by rewrite E|]. specialize (Hid x Hx). lia.
    + intros [|s] h' Hh'; [|done]. by injection Hh' as <-. }
  split; [exact I'| | |].
  - apply F.
  - change (n_pos_per_embd (k_hparams kv) = 1). by rewrite (fr_hp _ _ _ _ _ _ _ _ F).
  - unfold kv_abs. simpl. by rewrite E.
Qed.

(** A small model for the examples: one layer, no rotary embedding. *)
Definition toy_hparams : llama_hparams :=
  mk_hparams 8 1 (-1) 4 4 0 0 (replicate 512 2) (replicate 512 1) [] [] 0 0 [0; 0; 0; 0]
    (replicate 512 false) 0 0 0 0 [] false 0 LLAMA_ROPE_TYPE_NONE.
Definition toy_row_size (ty ne : Z) : Z := 2 * ne.
Definition toy_cache (unified : bool) (size n_seq_max : nat) : res llama_kv_cache :=
  llama_kv_cache_new toy_row_size toy_hparams 1 1 false unified size n_seq_max 1 0 LLAMA_SWA_TYPE_NONE None None true.
Definition toy_kv (unified : bool) (size n_seq_max : nat) : llama_kv_cache :=
  match toy_cache unified size n_seq_max with
  | Ok kv => kv
  | _ => mk_kv toy_hparams false 0 0 0 0 LLAMA_SWA_TYPE_NONE [] [] [] (mk_sc [] []) [] ∅
  end.

Lemma toy_fresh unified size n kv :
  (0 < n <= LLAMA_MAX_SEQ)%nat -> toy_cache unified size n = Ok kv ->
  fresh unified size n 1 0 LLAMA_SWA_TYPE_NONE toy_hparams kv.
Proof. apply llama_kv_cache_new_fresh. Qed.

(** ** Properties *)

(** ** The layers of a new cache *)

Definition passes (filter : option (nat -> bool)) (il : nat) : bool := match filter with Some f => f il | None => true end.
Definition own_layer (hp : llama_hparams) (filter : option (nat -> bool)) (il : nat) : bool := has_kv hp il && passes filter il.
(** The layer whose cache layer [il] shares. *)
Definition reuse_of (filter : option (nat -> bool)) (reuse : option (nat -> Z)) (il : nat) : option nat :=
  r ← reuse; if (0 <=? r il) && passes filter il then Some (Z.to_nat (r il)) else None.

(** A layer of [n_stream] zeroed buffers of [size] rows each for the keys and the values. *)
Record layer_blank (rs : Z -> Z -> Z) (hp : llama_hparams) (tk tv : Z) (vt : bool) (size n_stream : nat) (l : kv_layer) : Prop := {
  lb_types : l_k_type l = tk /\ l_v_type l = tv;
  lb_k : n_embd_k_gqa hp (l_il l) = Ok (l_k_ne0 l);
  lb_v : (if vt then n_embd_v_gqa_max hp else n_embd_v_gqa hp (l_il l)) = Ok (l_v_ne0 l);
  lb_k_stream : l_k_stream l = replicate n_stream (replicate (size * Z.to_nat (rs tk (l_k_ne0 l))) 0);
  lb_v_stream : l_v_stream l = replicate n_stream (replicate (size * Z.to_nat (rs tv (l_v_ne0 l))) 0)
}.

Lemma new_layer_ok rs hp tk tv vt size ns il l : new_layer rs hp tk tv vt size ns il = Ok l ->
  l_il l = il /\ layer_blank rs hp tk tv vt size ns l.
Proof.
  unfold new_layer. intros (ek & E1 & (ev & E2 & H)%bind_ok_inv)%bind_ok_inv. injection H as <-. split; [done|]. split; try done. by destruct vt.
Qed.

Lemma new_layers_ok rs hp tk tv vt size ns filter ls m : new_layers rs hp tk tv vt size ns filter = Ok (ls, m) ->
  l_il <$> ls = List.filter (own_layer hp filter) (seq 0 (n_layer hp)) /\ Forall (layer_blank rs hp tk tv vt size ns) ls /\
  forall il k, m !! il = Some k <-> (l_il <$> ls) !! k = Some il.
Proof.
  unfold new_layers. intros H. apply (foldM_seq_inv (fun i '(ls, m) =>
    l_il <$> ls = List.filter (own_layer hp filter) (seq 0 i) /\ Forall (layer_blank rs hp tk tv vt size ns) ls /\
    forall il k, m !! il = Some k <-> (l_il <$> ls) !! k = Some il)) in H; [done|split_and!; try done; intros il k; by rewrite lookup_empty|].
  clear ls m H. intros i [ls m] [ls' m'] Hi (H1 & H2 & H3) H. rewrite seq_app, List.filter_app, <- H1. cbn [List.filter seq plus].
  assert (Ep : match filter with Some f => negb (f i) | None => false end = negb (passes filter i)) by by destruct filter.
  rewrite Ep in H. unfold own_layer. destruct (has_kv hp i); cbn [negb andb] in *; [|injection H as <- <-; by rewrite app_nil_r].
  destruct (passes filter i); cbn [negb] in *; [|injection H as <- <-; by rewrite app_nil_r].
  apply bind_ok_inv in H as (l & [<- Hl]%new_layer_ok & H). injection H as <- <-. rewrite fmap_app. split; [done|].
  split; [apply Forall_app; split; [done|by constructor]|].
  assert (Hlt : forall k, (l_il <$> ls) !! k = Some (l_il l) -> False).
  { intros k Hk. rewrite H1 in Hk. apply list_elem_of_lookup_2, list_elem_of_In, filter_In in Hk as [Hk%in_seq _]. lia. }
  intros il k. destruct (decide (il = l_il l)) as [->|Hne].
  - rewrite lookup_insert_eq. split.
    + intros [= <-]. rewrite lookup_app_r by (by rewrite length_fmap). by rewrite length_fmap, Nat.sub_diag.
    + intros [Hk|[Hk1 Hk2]]%lookup_app_Some; [by apply Hlt in Hk|]. rewrite length_fmap in *.
      apply list_lookup_singleton_Some in Hk2 as [Hk2 _]. f_equal. lia.
  - rewrite lookup_insert_ne by done. rewrite (H3 il k). split.
    + intros Hk. by apply lookup_app_l_Some.
    + intros [Hk|[Hk1 Hk2]]%lookup_app_Some; [done|]. by apply list_lookup_singleton_Some in Hk2 as [_ ?].
Qed.

Lemma reuse_layers_ok hp filter reuse m m' n : (forall il k, m !! il = Some k -> (k < n)%nat) -> reuse_layers hp filter reuse m = Ok m' ->
  forall il, (il < n_layer hp)%nat ->
    match reuse_of filter reuse il with
    | Some src => exists k, m' !! il = Some k /\ (k < n)%nat /\ (reuse_of filter reuse src = None -> m !! src = Some k)
    | None => m' !! il = m !! il
    end.
Proof.
  intros Hm. unfold reuse_layers. destruct reuse as [r|]; [|by intros [= <-]]. intros H.
  apply (foldM_seq_inv (fun i (m' : gmap nat nat) => (forall il k, m' !! il = Some k -> (k < n)%nat) /\
    (forall il, (i <= il)%nat \/ reuse_of filter (Some r) il = None -> m' !! il = m !! il) /\
    forall il src, (il < i)%nat -> reuse_of filter (Some r) il = Some src ->
      exists k, m' !! il = Some k /\ (k < n)%nat /\ (reuse_of filter (Some r) src = None -> m !! src = Some k))) in H.
  - destruct H as (_ & H2 & H3). intros il Hil. destruct (reuse_of filter (Some r) il) as [src|] eqn:E; [by apply H3|by apply H2; right].
  - split; [done|]. split; [done|]. lia.
  - clear m' H. intros i m1 m2 Hi (H1 & H2 & H3) H.
    assert (Ep : match filter with Some f => negb (f i) | None => false end = negb (passes filter i)) by by destruct filter.
    assert (Er : reuse_of filter (Some r) i = if (0 <=? r i) && passes filter i then Some (Z.to_nat (r i)) else None) by done.
    rewrite Ep in H. replace (r i <? 0) with (negb (0 <=? r i)) in H by lia.
    destruct (0 <=? r i); cbn [negb andb] in *; [destruct (passes filter i); cbn [negb] in *|].
    + destruct (m1 !! Z.to_nat (r i)) as [k|] eqn:Ek; [|done]. injection H as <-. split_and!.
      * intros il k' [[_ <-]|[_ Hk]]%lookup_insert_Some; by eapply H1.
      * intros il [Hil|Hil]; (rewrite lookup_insert_ne; [apply H2; (left; lia) || (by right)|]); [lia|congruence].
      * intros il src Hil E. destruct (decide (il = i)) as [->|Hne].
        -- rewrite Er in E. injection E as <-. exists k. rewrite lookup_insert_eq. split; [done|]. split; [by eapply H1|].
           intros En. rewrite <- Ek. symmetry. apply H2. by right.
        -- rewrite lookup_insert_ne by done. apply H3; [lia|done].
    + injection H as <-. split; [done|]. split; [intros il Hil; apply H2; destruct Hil; [left; lia|by right]|].
      intros il src Hil E. destruct (decide (il = i)) as [->|]; [congruence|]. apply H3; [lia|done].
    + injection H as <-. split; [done|]. split; [intros il Hil; apply H2; destruct Hil; [left; lia|by right]|].
      intros il src Hil E. destruct (decide (il = i)) as [->|]; [congruence|]. apply H3; [lia|done].
Qed.

(** The constructor of [llama_kv_cache] establishes the invariant of the class: one
    stream per sequence, or a single unified one, of [kv_size] empty cells, with the head of
    every stream at 0 and every sequence mapped to a stream.  The layers are those that have
    a KV cache and pass the filter, in order, each with zeroed buffers of [kv_size] rows per
    stream; the layer ids are mapped to them, and a layer that reuses another one shares
    its entry. *)
Theorem cache_new_invariant rs hp tk tv vt unified size n_seq_max n_pad n_swa t filter reuse kv :
  (0 < n_seq_max <= LLAMA_MAX_SEQ)%nat ->
  llama_kv_cache_new rs hp tk tv vt unified size n_seq_max n_pad n_swa t filter reuse true = Ok kv ->
  let n_stream := if unified then 1%nat else n_seq_max in
  kv_inv kv size /\ kv_abs kv = replicate n_stream (replicate size cell_empty) /\
  v_heads kv = replicate n_stream 0%nat /\ seq_to_stream kv = stream_map unified n_seq_max /\
  l_il <$> layers kv = List.filter (own_layer hp filter) (seq 0 (n_layer hp)) /\
  Forall (layer_blank rs hp tk tv vt size n_stream) (layers kv) /\
  forall il, (il < n_layer hp)%nat ->
    match reuse_of filter reuse il with
    | Some src => exists k, map_layer_ids kv !! il = Some k /\ (k < length (layers kv))%nat /\
        (reuse_of filter reuse src = None -> (l_il <$> layers kv) !! k = Some src)
    | None => forall k, map_layer_ids kv !! il = Some k <-> (l_il <$> layers kv) !! k = Some il
    end.
Proof.
  intros Hn H n_stream. pose proof (llama_kv_cache_new_fresh _ _ _ _ _ _ _ _ _ _ _ _ _ _ Hn H) as F.
  split; [apply F|]. split; [|split; [|split; [apply F|]]].
  - unfold kv_abs. rewrite (fr_cells _ _ _ _ _ _ _ _ F), fmap_replicate, (proj1 (fr_n _ _ _ _ _ _ _ _ F)).
    destruct (cells_resize_ok size llama_kv_cells_new) as (_ & -> & _); done.
  - by rewrite (fr_heads _ _ _ _ _ _ _ _ F), (proj1 (fr_n _ _ _ _ _ _ _ _ F)).
  - unfold llama_kv_cache_new in H. apply bind_ok_inv in H as (_ & _ & H). apply bind_ok_inv in H as (_ & _ & H).
    apply bind_ok_inv in H as ([ls m] & Hl & H). apply bind_ok_inv in H as (m' & Hm & H). injection H as <-. cbn [layers map_layer_ids fst snd] in *.
    destruct (new_layers_ok _ _ _ _ _ _ _ _ _ _ Hl) as (H1 & H2 & H3). split; [done|]. split; [done|]. intros il Hil.
    assert (Hb : forall il k, m !! il = Some k -> (k < length ls)%nat).
    { intros il' k Hk%H3. apply lookup_lt_Some in Hk. by rewrite length_fmap in Hk. }
    pose proof (reuse_layers_ok hp filter reuse m m' (length ls) Hb Hm il Hil) as R. destruct (reuse_of filter reuse il) as [src|].
    + destruct R as (k & Rk & Rl & Rs). exists k. split; [done|]. split; [done|]. intros En. by apply H3, Rs.
    + intros k. by rewrite R, H3.
Qed.

(** A cache whose layer 1 reuses that of layer 0. *)
Lemma cache_new_invariant_witness :
  let hp := mk_hparams 8 2 (-1) 4 4 0 0 (replicate 512 2) (replicate 512 1) [] [] 0 0 [0; 0; 0; 0]
    (replicate 512 false) 0 0 0 0 [] false 0 LLAMA_ROPE_TYPE_NONE in
  exists kv, llama_kv_cache_new toy_row_size hp 1 1 false false 4 2 1 0 LLAMA_SWA_TYPE_NONE
    None (Some (fun il => if (il =? 1)%nat then 0 else -1)) true = Ok kv /\ kv_inv kv 4 /\ v_heads kv = [0; 0]%nat /\
    exists k, map_layer_ids kv !! 1%nat = Some k /\ (l_il <$> layers kv) !! k = Some 0%nat.
Proof.
  intros hp. eexists. split; [vm_compute; reflexivity|]. set (kv := mk_kv _ _ _ _ _ _ _ _ _ _ _ _ _).
  destruct (cache_new_invariant toy_row_size hp 1 1 false false 4 2 1 0 LLAMA_SWA_TYPE_NONE None (Some (fun il => if (il =? 1)%nat then 0 else -1)) kv)
    as (H1 & _ & H2 & _ & _ & _ & H3).
  - unfold LLAMA_MAX_SEQ. lia.
  - vm_compute. reflexivity.
  - split; [exact H1|]. split; [exact H2|]. destruct (H3 1%nat) as (k & Hk & _ & Hs); [cbn; lia|]. exists k. split; [exact Hk|]. by apply Hs.
Defined.

(** C2: the sequence operations of [llama_kv_cache] implement the machine that maps a
    function over the cells of one stream: any sequence of [clear], [seq_rm], [seq_keep],
    [seq_cp] (within and across streams), [seq_add] and [seq_div] inside its stated
    preconditions runs to the end without a failing assertion, changes the cells as
    specified and keeps the invariant of the cache. *)
Theorem cache_implements_machine m size kv st ops st' :
  kv_implements m size kv st -> spec_kv_ops m size st ops = Some st' ->
  runs (run_kv_ops kv ops) (fun kv' => kv_implements m size kv' st').
Proof. apply run_kv_ops_ok. Qed.

Lemma cache_implements_machine_witness :
  exists c, runs (run_kv_ops (with_cells [2%nat] [c] (toy_kv true 3 2)) [KvSeqCp 0 1 0 (-1); KvSeqRm 0 1 (-1); KvSeqAdd 1 0 2 5])
    (fun kv' => kv_abs kv' = [[mk_cell 5 ext_reset 5 {[0; 1]}; mk_cell 6 ext_reset 5 {[1]}; cell_empty]]).
Proof.
  assert (F : fresh true 3 2 1 0 LLAMA_SWA_TYPE_NONE toy_hparams (toy_kv true 3 2)).
  { apply toy_fresh; [unfold LLAMA_MAX_SEQ; lia|]. vm_compute. reflexivity. }
  destruct (machine_state 3 [OpPosSet 0 0; OpSeqAdd 0 0; OpPosSet 1 1; OpSeqAdd 1 0]
    ([mk_cell 0 ext_reset 0 {[0]}; mk_cell 1 ext_reset 0 {[0]}; cell_empty], false) (replicate 4 NoAnswer))
    as (c & _ & I1); [vm_compute; reflexivity|]. exists c.
  eapply runs_mono; [eapply (cache_implements_machine (stream_map true 2) 3)|].
  - eapply one_stream_implements; [exact F|reflexivity|exact I1|reflexivity|lia|].
    intros [|[|[|i]]] a Ha; simpl in Ha; try discriminate Ha; injection Ha as <-; vm_compute; congruence.
  - vm_compute. reflexivity.
  - intros kv' W'. rewrite (im_abs _ _ _ _ W'). vm_compute. reflexivity.
Defined.

(** [seq_pos_min] and [seq_pos_max] of the cache answer the least and the greatest
    position among the cells that hold the sequence, or -1 when there is none. *)
Theorem cache_position_range m size kv st x :
  kv_implements m size kv st -> 0 <= x < Z.of_nat (length m) ->
  exists s l, m !! Z.to_nat x = Some s /\ st !! s = Some l /\
    mem_seq_pos_min kv x = Ok (least (positions l x)) /\ mem_seq_pos_max kv x = Ok (greatest (positions l x)).
Proof.
  intros W Hx. pose proof (im_inv _ _ _ _ W) as I. rewrite <- (im_map _ _ _ _ W) in *.
  destruct (kv_seq_pos_min_ok kv size I x Hx) as (s & c & Es & Hc & Wc & Hmin & Hmax).
  exists s, (cells_abs c). split; [done|]. split.
  { rewrite <- (im_abs _ _ _ _ W). unfold kv_abs. by rewrite list_lookup_fmap, Hc. }
  cbn [mem_seq_pos_min mem_seq_pos_max llama_kv_cache_memory]. split.
  - apply runs_inv_eq. eapply runs_mono; [exact Hmin|]. intros p Hp. simpl. apply least_spec; [done|].
    intros q (i & a & Ha & Hs & <-)%elem_of_positions.
    destruct (cell_seq_pos a x (wf_cell _ Wc _ _ Ha) Hs). lia.
  - apply runs_inv_eq. eapply runs_mono; [exact Hmax|]. intros p Hp. simpl. by apply greatest_spec.
Qed.

Lemma cache_position_range_witness :
  kv_implements (stream_map false 2) 4 (toy_kv false 4 2) (replicate 2 (replicate 4 cell_empty)) /\
  mem_seq_pos_max (toy_kv false 4 2) 1 = Ok (-1).
Proof.
  assert (W : kv_implements (stream_map false 2) 4 (toy_kv false 4 2) (replicate 2 (replicate 4 cell_empty))).
  { assert (F : fresh false 4 2 1 0 LLAMA_SWA_TYPE_NONE toy_hparams (toy_kv false 4 2)).
    { apply toy_fresh; [unfold LLAMA_MAX_SEQ; lia|]. vm_compute. reflexivity. }
    split; [apply F|apply F|reflexivity|vm_compute; reflexivity]. }
  split; [exact W|].
  destruct (cache_position_range _ _ _ _ 1 W ltac:(vm_compute; split; [discriminate|reflexivity])) as (s & l & Es & El & _ & H).
  vm_compute in Es. injection Es as <-. injection El as <-. rewrite H. vm_compute. reflexivity.
Defined.
