(* ===== verification/KvCacheBatch.v ===== *)
(** From an accepted batch to its cells: [init_batch] of the unified KV cache
    (src/llama/llama.cpp/src/llama-kv-cache.cpp) composed with the batch allocator, the
    search for slots and the memory context that the decoder walks through. *)
From S2P Require Import Prelude Hparams KvCells KvCellsMachine Memory Batch BatchEqual BatchInit.
From S2P Require Import KvCache KvCacheSeq KvCacheSlot KvCacheMachine.
Local Open Scope Z_scope.

(** ** Micro-batches fit a unified cache *)
(** A cache with one stream and no sliding window. *)
Record unified_cache (kv : llama_kv_cache) (size : nat) : Prop := {
  uc_inv : kv_inv kv size;
  uc_one : k_n_stream kv = 1%nat;
  uc_map : seq_to_stream kv = replicate LLAMA_MAX_SEQ 0%nat;
  uc_swa : k_swa_type kv = LLAMA_SWA_TYPE_NONE;
  uc_pos : pos_lt kv
}.

(** The positions of a batch leave room for the next one, and no token names a sequence
    twice. *)
Definition storable (ps ns : list Z) (ss : list (list Z)) (n : nat) : Prop :=
  (forall i p, ps !! i = Some p -> 0 <= p < INT32_MAX) /\
  forall i, (i < n)%nat -> NoDup (seqs_of ns ss i) /\ seqs_of ns ss i <> [].

Section fits.
Context (kv : llama_kv_cache) (size : nat) (a : llama_batch_allocr) (ps ns : list Z) (ss : list (list Z)) (ls : list Z).
Context (C : unified_cache kv size) (W : balloc_wf a ps ns ss ls) (St : storable ps ns ss (get_n_tokens a)).
Context (Hpos : (0 < n_pos_per_embd_ a)%nat).
Context (idxs : list nat) (v : llama_ubatch) (Hlt : forall i, i ∈ idxs -> (i < get_n_tokens a)%nat).
Context (Hh : holds a ps ns ss ls idxs v).

Lemma stream_0 x : 0 <= x < Z.of_nat (n_seq_max a) -> seq_to_stream kv !! Z.to_nat x = Some 0%nat.
Proof.
  intros Hx. pose proof (bw_max _ _ _ _ _ W). rewrite (uc_map _ _ C). apply lookup_replicate. split; [done|lia].
Qed.

(** A token of the micro-batch can be stored. *)
Lemma holds_tok j i : idxs !! j = Some i -> exists p m l, tok_ok kv v 0 j p m l.
Proof.
  intros Hj. pose proof (lookup_lt_Some _ _ _ Hj) as Hjl.
  assert (Hi : (i < get_n_tokens a)%nat) by (apply Hlt; by eapply list_elem_of_lookup_2).
  destruct (ho_npos _ _ _ _ _ _ _ Hh) as [En Lp]. destruct St as [Sp Ss]. destruct (Ss i Hi) as [Hnd Hne].
  assert (Hpl : forall i, (i < length idxs * n_pos_per_embd_ a)%nat -> exists p, ub_pos v !! i = Some p).
  { intros i' Hi'. apply lookup_lt_is_Some_2. lia. }
  destruct (Hpl j) as [p Hpj]; [nia|].
  assert (Hpp : ps !! i = Some p).
  { pose proof (ho_pos _ _ _ _ _ _ _ Hh j i 0%nat Hj Hpos) as E0. cbn [Nat.mul Nat.add] in E0. rewrite Hpj in E0.
    rewrite E0. f_equal. unfold src_off. by destruct (b_token _). }
  destruct (bw_nseq _ _ _ _ _ W) as [_ Lns], (bw_seq _ _ _ _ _ W) as [_ Lss].
  destruct (lookup_lt_is_Some_2 ns i) as [n Hn]; [lia|]. destruct (lookup_lt_is_Some_2 ss i) as [row Hrow]; [lia|].
  destruct (bw_ids _ _ _ _ _ W i n row Hi Hn Hrow) as [Hlen _].
  assert (Esq : seqs_of ns ss i = take (Z.to_nat n) row) by (unfold seqs_of; by rewrite Hn, Hrow).
  assert (Htk : take (Z.to_nat n) (seqs_of ns ss i) = seqs_of ns ss i).
  { rewrite Esq, take_take. f_equal. lia. }
  exists p, n, (seqs_of ns ss i). split.
  - split; [done|]. by apply (Sp i).
  - intros H2d. unfold is_pos_2d in H2d. apply Nat.leb_le in H2d. rewrite En in H2d.
    rewrite (ho_n _ _ _ _ _ _ _ Hh). destruct (Hpl (j + length idxs * 2)%nat) as [x Hx]; [nia|].
    destruct (Hpl (j + length idxs)%nat) as [y Hy]; [nia|]. by exists x, y.
  - split; [by rewrite (ho_nseq _ _ _ _ _ _ _ Hh j i Hj)|]. rewrite Esq in Hne |- *. rewrite length_take.
    destruct (Z.to_nat n) as [|n'] eqn:E; [done|]. lia.
  - by rewrite (ho_seq _ _ _ _ _ _ _ Hh), list_lookup_fmap, Hj.
  - by rewrite Htk.
  - intros x. rewrite Htk. intros Hx. pose proof (seqs_of_range a ps ns ss ls i x W Hi Hx). split; [lia|by apply stream_0].
Qed.

Lemma holds_fits : idxs <> [] -> ubatch_fits kv v (length idxs) [0%nat].
Proof.
  intros Hne. destruct (lookup_lt_is_Some_2 idxs 0) as [i Hi]; [destruct idxs; [done|simpl; lia]|].
  assert (Hin : (i < get_n_tokens a)%nat) by (apply Hlt; by eapply list_elem_of_lookup_2).
  split; [destruct idxs; [done|simpl; lia]|split; [apply NoDup_singleton|simpl; lia]| | |].
  - rewrite (ho_n _ _ _ _ _ _ _ Hh), (uc_one _ _ C). simpl. split; [lia|done].
  - intros [|s] t Ht; [|done]. injection Ht as <-. rewrite (uc_one _ _ C).
    destruct St as [_ Ss]. destruct (Ss i Hin) as [_ Hs]. destruct (seqs_of ns ss i) as [|x l] eqn:Ex; [done|].
    assert (Hx : x ∈ ub_seq_id_unq v).
    { rewrite (ho_unq _ _ _ _ _ _ _ Hh). apply elem_of_ids_below. split.
      - apply elem_of_list_to_set, list_elem_of_join. exists (x :: l). split; [set_solver|].
        apply list_elem_of_lookup_2 with 0%nat. by rewrite (ho_seq _ _ _ _ _ _ _ Hh), list_lookup_fmap, Hi, <- Ex.
      - apply (seqs_of_range a ps ns ss ls i); [done|done|]. rewrite Ex. set_solver. }
    destruct (ub_seq_id_unq v) as [|q l'] eqn:Eq; [by apply elem_of_nil in Hx|]. exists q. split; [done|].
    assert (Hq : 0 <= q < Z.of_nat (n_seq_max a)).
    { assert (Hq' : q ∈ q :: l') by set_solver. rewrite <- Eq, (ho_unq _ _ _ _ _ _ _ Hh) in Hq'.
      apply elem_of_ids_below in Hq' as [_ Hq']. exact Hq'. }
    split; [lia|]. split; [by apply stream_0|]. lia.
  - intros [|s] t j Ht Hj; [|done]. injection Ht as <-. cbn [Nat.mul Nat.add].
    destruct (lookup_lt_is_Some_2 idxs j Hj) as [i' Hi']. by apply (holds_tok j i').
Qed.
End fits.

(** ** The window of the graph *)
Lemma ggml_pad_spec x e :
  (x <= ggml_pad x (2 ^ e) < x + 2 ^ e)%nat /\ (2 ^ e | ggml_pad x (2 ^ e))%nat.
Proof.
  assert (Hp : Z.of_nat (2 ^ e) = 2 ^ Z.of_nat e) by by rewrite Nat2Z.inj_pow.
  assert (Hpos : 0 < 2 ^ Z.of_nat e) by (apply Z.pow_pos_nonneg; lia).
  assert (E : ggml_pad x (2 ^ e) = Z.to_nat ((Z.of_nat x + 2 ^ Z.of_nat e - 1) / 2 ^ Z.of_nat e * 2 ^ Z.of_nat e)).
  { unfold ggml_pad. rewrite Hp. f_equal. replace (2 ^ Z.of_nat e - 1) with (Z.ones (Z.of_nat e)) by (rewrite Z.ones_equiv; lia).
    rewrite Z.ldiff_ones_r, Z.shiftl_mul_pow2, Z.shiftr_div_pow2 by lia. reflexivity. }
  rewrite E. pose proof (Z.div_mod (Z.of_nat x + 2 ^ Z.of_nat e - 1) (2 ^ Z.of_nat e) ltac:(lia)) as D.
  pose proof (Z.mod_pos_bound (Z.of_nat x + 2 ^ Z.of_nat e - 1) _ Hpos) as R.
  set (q := (Z.of_nat x + 2 ^ Z.of_nat e - 1) / 2 ^ Z.of_nat e) in *. assert (Hq : 0 <= q) by (apply Z.div_pos; lia).
  split; [nia|]. exists (Z.to_nat q). apply Nat2Z.inj. rewrite Nat2Z.inj_mul, Hp, !Z2Nat.id by nia. done.
Qed.

Lemma last_occupied_le l : (last_occupied l <= length l)%nat.
Proof. induction l as [|x l IH]; simpl; [lia|]. destruct (last_occupied l); [destruct (occupied x); lia|lia]. Qed.

Lemma get_n_kv_ok kv size si e :
  kv_inv kv size -> Nat.max (k_n_pad kv) 256 = (2 ^ e)%nat ->
  (forall t, t ∈ si_strm si -> (t < k_n_stream kv)%nat) ->
  runs (kv_get_n_kv kv si) (fun n => (n <= size)%nat /\
    forall t c i a, t ∈ si_strm si -> v_cells kv !! t = Some c -> cells_abs c !! i = Some a -> a_pos a <> -1 -> (i < n)%nat).
Proof.
  intros I He Hs. unfold kv_get_n_kv. rewrite He. eapply runs_mono.
  { apply (runs_for (fun k n => (n <= size)%nat /\ forall t c i a, t ∈ take k (si_strm si) -> v_cells kv !! t = Some c ->
      cells_abs c !! i = Some a -> a_pos a <> -1 -> (i < n)%nat)).
    - split; [lia|]. intros t c i a Ht. rewrite take_0 in Ht. by apply elem_of_nil in Ht.
    - intros s n Hlt [Hn IH]. destruct (lookup_lt_is_Some_2 (si_strm si) s Hlt) as [t Ht].
      assert (Htn : (t < k_n_stream kv)%nat) by (apply Hs; by eapply list_elem_of_lookup_2).
      destruct (stream_lookup kv size I t Htn) as (c & h & Hc & _).
      destruct (ki_wf _ _ I t c Hc) as (W & Hsz & _).
      rewrite (rd_ok _ _ _ Ht), bind_ok, (rd_ok _ _ _ Hc), bind_ok. apply runs_ok. split; [lia|].
      intros t' c' i a Hin Hc' Ha Hp. rewrite Nat.add_1_r, (take_S_r _ _ _ Ht) in Hin.
      apply elem_of_app in Hin as [Hin|Hin]; [specialize (IH t' c' i a Hin Hc' Ha Hp); lia|].
      apply list_elem_of_singleton in Hin as ->. rewrite Hc in Hc'. injection Hc' as <-.
      pose proof (proj1 (ggml_pad_spec (cells_used_max_p1 c) e)) as [Hpad _].
      rewrite (used_max_occupied c W) in *. pose proof (last_occupied_spec (cells_abs c)) as Hl.
      pose proof (abs_lt _ _ _ Ha) as Hi. pose proof (last_occupied_le (cells_abs c)) as Hle.
      destruct (last_occupied (cells_abs c)) as [|k].
      + specialize (Hl i a Ha). unfold occupied in Hl. apply negb_false_iff, Z.eqb_eq in Hl. done.
      + destruct Hl as [_ Hl]. specialize (Hl i a Ha). unfold occupied in Hl.
        assert ((i <= k)%nat) by (apply Hl, negb_true_iff, Z.eqb_neq; done). lia. }
  intros n [Hn H]. split; [done|]. intros t c i a Ht. apply (H t). unfold si_n_stream. by rewrite take_ge.
Qed.

(** ** The context that the decoder walks through *)
(** [do { apply } while (next)]: at most one round per micro-batch. *)
Fixpoint walk (graph : llama_kv_cache -> option (list kv_layer)) (fuel : nat) (kv : llama_kv_cache)
    (x : llama_kv_cache_context) : res (llama_kv_cache * llama_kv_cache_context) :=
  match fuel with
  | O => Fault OutOfFuel
  | S fuel =>
      r ← ctx_apply graph kv x;
      n ← ctx_next r.2;
      if (n.2 : bool) then walk graph fuel r.1 n.1 else Ok (r.1, n.1)
  end.

Section context.
Context (graph : llama_kv_cache -> option (list kv_layer)) (size e : nat).

(** Walking through the context of a successful [prepare] places every micro-batch. *)
Lemma walk_ok sis us : forall kv l kv', applies size kv l kv' ->
  forall i n k, l = drop i (zip sis us) -> Nat.max (k_n_pad kv) 256 = (2 ^ e)%nat ->
  length sis = length us -> (i < length us)%nat -> (length us - i <= k)%nat ->
  Forall (fun si => forall t, t ∈ si_strm si -> (t < k_n_stream kv)%nat) sis ->
  exists x', walk graph k kv (mk_ctx LLAMA_MEMORY_STATUS_SUCCESS i sis us n false sc_none) = Ok (kv', x') /\
    x_i_cur x' = length us.
Proof.
  intros kv l kv' A. induction A as [kv|kv si u kv1 l kv' E1 I1 (hs & cs & Ekv1) A IH];
    intros i n k El He Hl Hi Hk Hst.
  { apply (f_equal length) in El. rewrite length_drop, length_zip_with in El. simpl in El. lia. }
  destruct k as [|k]; [lia|]. destruct (lookup_lt_is_Some_2 us i Hi) as [u' Hu].
  destruct (lookup_lt_is_Some_2 sis i) as [si' Hsi]; [lia|].
  assert (Hz : zip sis us !! i = Some (si', u')) by (apply lookup_zip_with_Some; eauto).
  rewrite (drop_S _ _ _ Hz) in El. injection El as <- <- El.
  assert (Hnk : exists m, kv_get_n_kv kv1 si = Ok m).
  { destruct (runs_inv _ _ (get_n_kv_ok kv1 size si e I1 ltac:(by rewrite Ekv1)
      ltac:(rewrite Ekv1; rewrite Forall_lookup in Hst; by apply (Hst i si Hsi)))) as (m & Em & _). by exists m. }
  destruct Hnk as [m Em]. cbn [walk]. unfold ctx_apply. cbn [x_status x_ubatches x_sinfos x_i_cur x_do_shift x_sc_info].
  cbn [llama_memory_status_is_fail negb assert_]. rewrite bind_ok.
  destruct (Nat.eqb_spec (length us) 0) as [?|_]; [lia|].
  rewrite (rd_ok _ _ _ Hsi), bind_ok, (rd_ok _ _ _ Hu), bind_ok, E1, bind_ok, Em, !bind_ok. cbn [fst snd].
  unfold ctx_next. cbn [x_status x_ubatches x_sinfos x_i_cur x_n_kv x_do_shift x_sc_info].
  rewrite bool_decide_true by done. cbn [assert_]. rewrite !bind_ok. cbn [fst snd].
  destruct (Nat.ltb_spec (S i) (length us)) as [Hlt|Hge].
  - apply IH; [done|by rewrite Ekv1|done|done|lia|by rewrite Ekv1].
  - eexists. split.
    + f_equal. f_equal. rewrite drop_ge in El by (rewrite length_zip_with; lia). subst l. by inversion A.
    + simpl. lia.
Qed.
End context.

(** ** init_batch *)
(** [init_batch] found no room: the micro-batches before [u] fill the cache. *)
Definition out_of_room (kv : llama_kv_cache) (size : nat) (us : list llama_ubatch) : Prop :=
  exists out l u rest kv1, us = l ++ u :: rest /\ length out = length l /\
    applies size kv (zip out l) kv1 /\ no_room kv kv1 u.

Lemma init_batch_ok kv size a ps ns ss ls n_ubatch :
  unified_cache kv size -> balloc_wf a ps ns ss ls -> storable ps ns ss (get_n_tokens a) ->
  (0 < n_pos_per_embd_ a)%nat -> (0 < get_n_tokens a)%nat ->
  runs (kv_init_batch kv a n_ubatch) (fun r =>
    let '(kv', a', x) := r in
    kv' = kv /\ get_n_used a' = get_n_tokens a /\
    exists us, split_prefix a ps ns ss ls (Nat.max 1 n_ubatch) (get_n_tokens a) us /\
      ((exists sis kv1, x = ctx_batch sis us /\ length sis = length us /\ streams_ok kv sis /\
          applies size kv (zip sis us) kv1 /\ kv_inv kv1 size /\ stored kv kv1 us) \/
       (x = ctx_of_status LLAMA_MEMORY_STATUS_FAILED_PREPARE /\ out_of_room kv size us))).
Proof.
  intros C W S Hpos Hn. unfold kv_init_batch, kv_split. rewrite (uc_one _ _ C). cbn [Nat.eqb].
  apply runs_bind. pose proof (split_simple_all a ps ns ss ls W n_ubatch []) as R.
  unfold taken, prefix_used in R. cbn [replicate app] in R. rewrite Nat.sub_0_r in R.
  eapply runs_mono; [exact R|]. intros [a' us] [E P]. simpl in E, P. subst a'.
  set (a' := with_split _ _ _ a). change (get_n_used a') with (get_n_tokens a). change (get_n_tokens a') with (get_n_tokens a).
  rewrite Nat.ltb_irrefl.
  assert (Hus : us <> []).
  { intros ->. pose proof (sp_sum _ _ _ _ _ _ _ _ P) as Hs. simpl in Hs. lia. }
  assert (Hfits : Forall (fun u => exists nt strm, ubatch_fits kv u nt strm) us).
  { eapply list_relations.list.Forall_impl; [apply (sp_each _ _ _ _ _ _ _ _ P)|]. intros u (o & i & m & a2 & Hm & U).
    apply ubatch_of_holds in U. exists (length (seq i m)), [0%nat].
    apply (holds_fits kv size a ps ns ss ls); try done; [|destruct m; [lia|done]].
    intros i' Hi'%elem_of_seq. lia. }
  apply runs_bind. eapply runs_mono.
  { apply (prepare_ok kv size (uc_inv _ _ C) (uc_swa _ _ C) us (uc_pos _ _ C) Hus Hfits). }
  intros [kv' sis] (_ & _ & _ & H1 & Hres). simpl in H1, Hres. rewrite (H1 (uc_one _ _ C)).
  destruct Hres as [(Hl & Hst & kv1 & A & I1 & St)|(-> & out & l & u & rest & kv1 & E & Hlo & A & Hr)].
  - destruct (Nat.eqb_spec (length sis) 0) as [Hz|_].
    { destruct us; [done|]. simpl in Hl. lia. }
    apply runs_ok. split; [done|]. split; [done|]. exists us. split; [done|]. left. by exists sis, kv1.
  - cbn [length Nat.eqb]. apply runs_ok. split; [done|]. split; [done|]. exists us. split; [done|]. right.
    split; [done|]. by exists out, l, u, rest, kv1.
Qed.

(** ** Example data *)
Definition toy_ubatch : llama_ubatch :=
  mk_ubatch false 2 1 2 1 1 (Some [5; 6]) None [0; 1] [1; 1] [[0]; [0]] [0] (0 :: replicate 255 (-1)) [0; 1].

Lemma toy_unified size n kv :
  (0 < n <= LLAMA_MAX_SEQ)%nat -> toy_cache true size n = Ok kv -> unified_cache kv size.
Proof.
  intros Hn H. pose proof (toy_fresh true size n kv Hn H) as F. split; try apply F.
  intros t c j b Hc Hb. rewrite (fr_cells _ _ _ _ _ _ _ _ F) in Hc. apply lookup_replicate in Hc as [-> _].
  destruct (cells_resize_ok size llama_kv_cells_new) as (_ & E & _); [done|]. rewrite E in Hb.
  apply lookup_replicate in Hb as [-> _]. simpl. unfold INT32_MAX. lia.
Qed.

Lemma toy_fits size kv : unified_cache kv size -> ubatch_fits kv toy_ubatch 2 [0%nat].
Proof.
  intros C. assert (Hmap : seq_to_stream kv !! 0%nat = Some 0%nat) by (rewrite (uc_map _ _ C); done).
  split; [lia|split; [apply NoDup_singleton|simpl; lia]| | |].
  - rewrite (uc_one _ _ C). done.
  - intros [|s] t Ht; [|done]. injection Ht as <-. exists 0. rewrite (uc_one _ _ C).
    split; [done|]. split; [done|]. split; [done|]. lia.
  - intros [|s] t j Ht Hj; [|done]. injection Ht as <-.
    exists (Z.of_nat j), 1, [0]. split; try done.
    + destruct j as [|[|j]]; [..|lia]; (split; [done|unfold INT32_MAX; lia]).
    + destruct j as [|[|j]]; [..|lia]; (split; [done|simpl; lia]).
    + destruct j as [|[|j]]; [..|lia]; done.
    + apply NoDup_singleton.
    + intros x Hx. apply list_elem_of_singleton in Hx as ->. done.
Qed.

(** ** Properties *)

(** C23: on a cache without a sliding window [find_slot] is complete: it fails only when a
    stream of the micro-batch has fewer free cells than tokens, and otherwise returns
    distinct free cells for every token, in the streams of its sequences. *)
Theorem find_slot_complete kv size u nt strm :
  kv_inv kv size -> k_swa_type kv = LLAMA_SWA_TYPE_NONE -> pos_lt kv -> ubatch_fits kv u nt strm ->
  exists si, find_slot kv u false = Ok si /\
    ((si = slot_none /\ exists t c, t ∈ strm /\ v_cells kv !! t = Some c /\ (n_free c < nt)%nat) \/
     (si_strm si = strm /\ slot_ok kv nt si /\ si_empty si = false)).
Proof. apply find_slot_ok. Qed.

Lemma find_slot_complete_witness :
  unified_cache (toy_kv true 3 2) 3 /\ exists si, find_slot (toy_kv true 3 2) toy_ubatch false = Ok si.
Proof.
  assert (C : unified_cache (toy_kv true 3 2) 3).
  { apply (toy_unified 3 2); [unfold LLAMA_MAX_SEQ; lia|vm_compute; reflexivity]. }
  split; [exact C|].
  destruct (find_slot_complete _ 3 toy_ubatch 2 [0%nat] (uc_inv _ _ C) (uc_swa _ _ C) (uc_pos _ _ C) (toy_fits _ _ C))
    as (si & H & _). exists si. exact H.
Defined.

(** C22: [prepare] is a dry run: on a cache without a sliding window, with any number of
    streams, it ends with the cells of every stream exactly as before (with one stream the
    whole cache), and either returns slots that store every token without touching an
    occupied cell, or fails because some micro-batch does not fit after the earlier ones. *)
Theorem prepare_restores_cells kv size us :
  kv_inv kv size -> k_swa_type kv = LLAMA_SWA_TYPE_NONE -> pos_lt kv -> us <> [] ->
  Forall (fun u => exists nt strm, ubatch_fits kv u nt strm) us ->
  runs (prepare kv us) (prepared kv size us).
Proof. intros I Hs Hp Hne Hu. by apply prepare_ok. Qed.

Lemma prepare_restores_cells_witness :
  unified_cache (toy_kv true 3 2) 3 /\
  runs (prepare (toy_kv true 3 2) [toy_ubatch]) (fun r => r.1 = toy_kv true 3 2).
Proof.
  assert (C : unified_cache (toy_kv true 3 2) 3).
  { apply (toy_unified 3 2); [unfold LLAMA_MAX_SEQ; lia|vm_compute; reflexivity]. }
  split; [exact C|]. eapply runs_mono.
  - apply (prepare_restores_cells _ 3 [toy_ubatch] (uc_inv _ _ C) (uc_swa _ _ C) (uc_pos _ _ C)); [discriminate|].
    apply Forall_singleton. exists 2%nat, [0%nat]. exact (toy_fits _ _ C).
  - intros r (_ & _ & _ & H & _). exact (H (uc_one _ _ C)).
Defined.

(** C38: the number of cells that the attention of a micro-batch sees, [get_n_kv], is at
    most the size of the cache and covers every occupied cell of the streams involved (the
    padding, the greater of 256 and that of the cache, being a power of two). *)
Theorem get_n_kv_covers kv size si e :
  kv_inv kv size -> Nat.max (k_n_pad kv) 256 = (2 ^ e)%nat ->
  (forall t, t ∈ si_strm si -> (t < k_n_stream kv)%nat) ->
  runs (kv_get_n_kv kv si) (fun n => (n <= size)%nat /\
    forall t c i a, t ∈ si_strm si -> v_cells kv !! t = Some c -> cells_abs c !! i = Some a -> a_pos a <> -1 -> (i < n)%nat).
Proof. apply get_n_kv_ok. Qed.

Lemma get_n_kv_covers_witness :
  unified_cache (toy_kv true 3 2) 3 /\
  runs (kv_get_n_kv (toy_kv true 3 2) (mk_slot 0 0 [0%nat] [[1%nat]])) (fun n => (n <= 3)%nat).
Proof.
  assert (C : unified_cache (toy_kv true 3 2) 3).
  { apply (toy_unified 3 2); [unfold LLAMA_MAX_SEQ; lia|vm_compute; reflexivity]. }
  split; [exact C|]. eapply runs_mono.
  - apply (get_n_kv_covers _ 3 (mk_slot 0 0 [0%nat] [[1%nat]]) 8 (uc_inv _ _ C)).
    + vm_compute. reflexivity.
    + intros t Ht. apply list_elem_of_singleton in Ht as ->. rewrite (uc_one _ _ C). lia.
  - intros n [H _]. exact H.
Defined.

(** C3: from an accepted batch to the cache: [init_batch] of the unified cache cuts the
    batch into micro-batches that hold it in order and leaves the cache unchanged; on
    success, walking through the context ([apply], [next]) ends and stores every token of
    the batch at its position with its sequences, keeping every occupied cell; otherwise
    the status is a failure and the batch does not fit. *)
Theorem decode_stores_batch graph kv size e a ps ns ss ls n_ubatch :
  unified_cache kv size -> balloc_wf a ps ns ss ls -> storable ps ns ss (get_n_tokens a) ->
  (0 < n_pos_per_embd_ a)%nat -> (0 < get_n_tokens a)%nat -> Nat.max (k_n_pad kv) 256 = (2 ^ e)%nat ->
  runs (kv_init_batch kv a n_ubatch) (fun r =>
    let '(kv', a', x) := r in
    kv' = kv /\ get_n_used a' = get_n_tokens a /\
    exists us, split_prefix a ps ns ss ls (Nat.max 1 n_ubatch) (get_n_tokens a) us /\
      ((x_status x = LLAMA_MEMORY_STATUS_SUCCESS /\ exists kv1 x', walk graph (length us) kv x = Ok (kv1, x') /\
          kv_inv kv1 size /\ stored kv kv1 us) \/
       (x_status x = LLAMA_MEMORY_STATUS_FAILED_PREPARE /\ out_of_room kv size us))).
Proof.
  intros C W S Hpos Hn He. eapply runs_mono; [by apply (init_batch_ok kv size a ps ns ss ls n_ubatch C W S)|].
  intros [[kv' a'] x] (-> & Hu & us & P & H). split; [done|]. split; [done|]. exists us. split; [done|].
  destruct H as [(sis & kv1 & -> & Hl & Hst & A & I1 & St)|(-> & Hr)]; [left|by right]. split; [done|].
  assert (Hus : (0 < length us)%nat).
  { destruct us; [|simpl; lia]. pose proof (sp_sum _ _ _ _ _ _ _ _ P) as Hs. simpl in Hs. lia. }
  destruct (walk_ok graph size e sis us kv (zip sis us) kv1 A 0 0 (length us)) as (x' & Hw & _); try done; [lia|].
  exists kv1, x'. done.
Qed.

Lemma decode_stores_batch_witness :
  exists ps ns ss ls, balloc_wf toy_alloc ps ns ss ls /\
    runs (kv_init_batch (toy_kv true 4 2) toy_alloc 2) (fun r => r.1.1 = toy_kv true 4 2 /\ get_n_used r.1.2 = 3%nat).
Proof.
  assert (C : unified_cache (toy_kv true 4 2) 4).
  { apply (toy_unified 4 2); [unfold LLAMA_MAX_SEQ; lia|vm_compute; reflexivity]. }
  destruct (balloc_init_ok (H := fixed_memory) (llama_batch_allocr_new 1) toy_batch 32 (Some 6) 4 2 false toy_alloc
    toy_input ltac:(lia) eq_refl toy_init_ok) as ((ps & ns & ss & ls & A) & _).
  pose proof (ac_wf _ _ _ _ _ _ _ _ A) as W. exists ps, ns, ss, ls. split; [exact W|].
  destruct (bw_pos _ _ _ _ _ W) as [Ep _], (bw_nseq _ _ _ _ _ W) as [En _], (bw_seq _ _ _ _ _ W) as [Es _].
  vm_compute in Ep, En, Es. injection Ep as <-. injection En as <-. injection Es as <-.
  eapply runs_mono.
  - apply (decode_stores_batch (fun _ => None) _ 4 8 toy_alloc _ _ _ _ 2 C W);
      [|vm_compute; lia|vm_compute; lia|vm_compute; reflexivity].
    split.
    + intros [|[|[|i]]] p Hp; simpl in Hp; try discriminate Hp; injection Hp as <-; unfold INT32_MAX; lia.
    + intros [|[|[|i]]] Hi; [..|exfalso; vm_compute in Hi; lia]; (split; [apply NoDup_singleton|vm_compute; discriminate]).
  - intros [[kv' a'] x] (E & U & _). split; [exact E|exact U].
Defined.
