(* ===== verification/KvInputs.v ===== *)
(** The graph inputs that the KV cache fills before a micro-batch is computed
    (src/llama/llama.cpp/src/llama-kv-cache.cpp): the attention mask, the rows where the
    new keys and values are stored, and the shifts of the cached keys, entry by entry. *)

From S2P Require Import Prelude Hparams KvCells KvCellsMachine Memory Batch KvCache KvCacheSeq KvCacheSlot KvCacheMachine KvCacheBatch.
Local Open Scope Z_scope.

(** ** Loops that fill a vector from its start *)

Section fill.
Context {A : Type} (val : nat -> A) (data : list A).

(** The first [n] entries are those of [val], the others are still those of [data]. *)
Definition filled (n : nat) (out : list A) : Prop :=
  length out = length data /\
  forall m, out !! m = if decide (m < n)%nat then Some (val m) else data !! m.

Lemma filled_0 : filled 0 data.
Proof. split; [done|]. intros m. by rewrite decide_False by lia. Qed.

Lemma filled_set k out x :
  filled k out -> (k < length data)%nat -> x = val k -> runs (wr out k x) (filled (k + 1)).
Proof.
  intros [L H] Hk ->. rewrite wr_ok by lia. split; [by rewrite length_insert|]. intros m.
  destruct (decide (m = k)) as [->|Hne].
  - rewrite list_lookup_insert_eq by lia. by rewrite decide_True by lia.
  - rewrite list_lookup_insert_ne, H by done. by destruct (decide (m < k)%nat), (decide (m < k + 1)%nat); try lia.
Qed.

Lemma filled_skip k out : filled k out -> data !! k = Some (val k) -> filled (k + 1) out.
Proof.
  intros [L H] Hk. split; [done|]. intros m. rewrite H.
  destruct (decide (m = k)) as [->|Hne].
  - by rewrite decide_False, decide_True by lia.
  - by destruct (decide (m < k)%nat), (decide (m < k + 1)%nat); try lia.
Qed.

(** A loop over [n] blocks of [k] entries, the first of which starts at [a]. *)
Lemma fill_blocks (step : list A -> nat -> res (list A)) a k n out :
  filled a out ->
  (forall i d, (i < n)%nat -> filled (a + i * k) d -> runs (step d i) (filled (a + i * k + k))) ->
  runs (foldM step out (seq 0 n)) (filled (a + n * k)).
Proof.
  intros H0 Hs. apply (runs_for (fun i d => filled (a + i * k) d)).
  - by replace (a + 0 * k)%nat with a by lia.
  - intros i d Hi Hd. replace (a + (i + 1) * k)%nat with (a + i * k + k)%nat by lia. by apply Hs.
Qed.

(** A loop over single entries. *)
Lemma fill_entries (step : list A -> nat -> res (list A)) a n out :
  filled a out ->
  (forall i d, (i < n)%nat -> filled (a + i) d -> runs (step d i) (filled (a + i + 1))) ->
  runs (foldM step out (seq 0 n)) (filled (a + n)).
Proof.
  intros H0 Hs. replace (a + n)%nat with (a + n * 1)%nat by lia. apply fill_blocks; [done|].
  intros i d Hi. rewrite Nat.mul_1_r. by apply Hs.
Qed.
End fill.

(** ** The attention mask *)

(** What the mask takes from a token of the micro-batch. *)
Record query := mk_query { q_seq : Z; q_pos : Z; q_2d : bool; q_x : Z; q_y : Z }.

#[export] Instance swa_visible_dec n t p0 p1 : Decision (swa_visible n t p0 p1).
Proof. destruct t; simpl; apply _. Defined.

(** The token attends to the cell: an occupied cell of its sequence, not in the future
    (for equal positions of an image, not after it in reading order) and in the window. *)
Definition attends (kv : llama_kv_cache) (causal : bool) (q : query) (a : cell) : Prop :=
  a_pos a <> -1 /\ q_seq q ∈ a_seq a /\
  (causal = true -> a_pos a <= q_pos q /\
     (q_2d q = true -> a_pos a = q_pos q -> is_2d_gt (a_ext a) (q_x q) (q_y q) = false)) /\
  swa_visible (k_n_swa kv) (k_swa_type kv) (a_pos a) (q_pos q).

#[export] Instance attends_dec kv causal q a : Decision (attends kv causal q a).
Proof. unfold attends. apply _. Defined.

Definition mask_entry (kv : llama_kv_cache) (causal : bool) (q : query) (a : cell) : mask_val :=
  if decide (attends kv causal q a)
  then MaskVal (if use_alibi (k_hparams kv) then - Z.abs (a_pos a - q_pos q) else 0)
  else MaskInf.

(** A window of a documented size. *)
Definition window_ok (kv : llama_kv_cache) : Prop :=
  k_swa_type kv = LLAMA_SWA_TYPE_NONE \/ 0 < k_n_swa kv <= INT32_MAX.

Section mask.
Context (kv : llama_kv_cache) (size : nat) (I : kv_inv kv size) (Hwin : window_ok kv).

Lemma is_masked_swa_at p0 p1 :
  0 <= p0 <= INT32_MAX -> 0 <= p1 <= INT32_MAX ->
  kv_is_masked_swa kv p0 p1 = Ok (bool_decide (~ swa_visible (k_n_swa kv) (k_swa_type kv) p0 p1)).
Proof.
  intros H0 H1. unfold kv_is_masked_swa. destruct Hwin as [E|Hn].
  - unfold is_masked_swa. rewrite E. replace ((p0 >=? 0) && (p1 >=? 0)) with true by lia.
    unfold assert_. by rewrite bind_ok.
  - destruct (is_masked_swa_visible (k_n_swa kv) (k_swa_type kv) p0 p1 Hn H0 H1) as (b & E & Hb).
    rewrite E. f_equal. destruct b.
    + symmetry. apply bool_decide_eq_true. intros H%Hb. done.
    + symmetry. apply bool_decide_eq_false. intros H. by apply H, Hb.
Qed.

(** One entry of the mask. *)
Lemma kq_entry_ok c causal q j a :
  kv_wf c -> cells_abs c !! j = Some a -> 0 <= q_seq q < Z.of_nat LLAMA_MAX_SEQ -> 0 <= q_pos q <= INT32_MAX ->
  kq_entry kv c causal (q_2d q) (q_seq q) (q_pos q) (q_x q) (q_y q) j = Ok (mask_entry kv causal q a).
Proof.
  intros Hwf Ha Hs Hp. unfold kq_entry, mask_entry. rewrite (cells_is_empty_ok c j a), bind_ok by done.
  destruct (Z.eqb_spec (a_pos a) (-1)) as [E|Hne].
  { rewrite decide_False; [done|]. by intros [? _]. }
  rewrite (cells_seq_has_ok c j a), bind_ok by done.
  case_bool_decide as Hin; cbn [negb]; [|rewrite decide_False; [done|by intros (_ & ? & _)]].
  rewrite (cells_pos_get_ok c j a), bind_ok by done.
  assert (H0 : 0 <= a_pos a <= INT32_MAX).
  { destruct (wf_cell c Hwf j a Ha) as [? _]. lia. }
  destruct (causal && (a_pos a >? q_pos q)) eqn:Ec.
  { apply andb_true_iff in Ec as [-> Ec]. rewrite decide_False; [done|]. intros (_ & _ & Hc & _).
    destruct (Hc eq_refl). lia. }
  assert (Eg : (if causal && q_2d q && (a_pos a =? q_pos q)
     then e0 ← cells_ext_get c j; Ok (is_2d_gt e0 (q_x q) (q_y q)) else Ok false) =
     Ok (causal && q_2d q && (a_pos a =? q_pos q) && is_2d_gt (a_ext a) (q_x q) (q_y q))).
  { destruct (causal && q_2d q && (a_pos a =? q_pos q)); [|done]. by rewrite (cells_ext_get_ok c j a). }
  rewrite Eg, bind_ok. destruct (causal && q_2d q && _ && _) eqn:E2.
  { apply andb_true_iff in E2 as [[[-> E2]%andb_true_iff E3]%andb_true_iff E4].
    rewrite decide_False; [done|]. intros (_ & _ & Hc & _). destruct (Hc eq_refl) as [_ H].
    rewrite H in E4 by (done || lia). done. }
  rewrite is_masked_swa_at, bind_ok by done. case_bool_decide as Hv.
  { rewrite decide_False; [done|]. by intros (_ & _ & _ & ?). }
  assert (Ha' : attends kv causal q a).
  { split; [done|]. split; [done|]. split; [|done]. intros ->. simpl in *. split; [lia|].
    intros E E'. rewrite E, E', Z.eqb_refl in E2. simpl in E2. done. }
  rewrite decide_True by done. destruct (use_alibi _); [|done].
  rewrite i32_ok by (unfold INT32_MIN, INT32_MAX in *; lia). done.
Qed.
End mask.

(** The query of token [i] of a micro-batch. *)
Definition query_at (u : llama_ubatch) (i : nat) : option query :=
  l ← ub_seq_id u !! i;
  seq_id ← head l;
  p ← ub_pos u !! i;
  if is_pos_2d u then
    x ← ub_pos u !! (i + ub_n_tokens u * 2)%nat;
    y ← ub_pos u !! (i + ub_n_tokens u)%nat;
    Some (mk_query seq_id p true x y)
  else Some (mk_query seq_id p false 0 0).

Definition query_ok (kv : llama_kv_cache) (q : query) : Prop :=
  0 <= q_seq q < Z.of_nat (length (seq_to_stream kv)) /\ 0 <= q_pos q <= INT32_MAX.

(** The cells that a query can attend to: those of the stream of its sequence. *)
Definition query_cells (kv : llama_kv_cache) (q : query) : option (list cell) :=
  s ← seq_to_stream kv !! Z.to_nat (q_seq q);
  cells_abs <$> v_cells kv !! s.

Definition mask_at (kv : llama_kv_cache) (causal : bool) (u : llama_ubatch) (n_kv m : nat) : mask_val :=
  default MaskInf (
    q ← query_at u (m / n_kv);
    l ← query_cells kv q;
    mask_entry kv causal q <$> l !! (m mod n_kv)%nat).

Section mask_rows.
Context (kv : llama_kv_cache) (size : nat) (I : kv_inv kv size) (Hwin : window_ok kv).
Context (n_kv : nat) (Hn : (0 < n_kv <= size)%nat) (u : llama_ubatch) (causal : bool).

Lemma query_at_inv i q :
  query_at u i = Some q ->
  exists l, ub_seq_id u !! i = Some (q_seq q :: l) /\ ub_pos u !! i = Some (q_pos q) /\ q_2d q = is_pos_2d u /\
    (if is_pos_2d u then ub_pos u !! (i + ub_n_tokens u * 2)%nat = Some (q_x q) /\
                         ub_pos u !! (i + ub_n_tokens u)%nat = Some (q_y q)
     else q_x q = 0 /\ q_y q = 0).
Proof.
  unfold query_at. destruct (ub_seq_id u !! i) as [[|s l]|]; [done| |done]. simpl.
  destruct (ub_pos u !! i) as [p|]; [|done]. simpl. destruct (is_pos_2d u).
  - destruct (ub_pos u !! (i + ub_n_tokens u * 2)%nat) as [x|]; [|done].
    destruct (ub_pos u !! (i + ub_n_tokens u)%nat) as [y|]; [|done]. intros [= <-]. by exists l.
  - intros [= <-]. by exists l.
Qed.

Lemma mask_row_ok i q data d :
  query_at u i = Some q -> query_ok kv q -> (n_kv * i + n_kv <= length data)%nat ->
  (forall m, (m < length data)%nat -> data !! m = Some MaskInf) ->
  filled (mask_at kv causal u n_kv) data (n_kv * i) d ->
  runs (l ← rd (ub_seq_id u) i;
        seq_id ← rd l 0;
        k ← zidx seq_id;
        strm ← rd (seq_to_stream kv) k;
        c ← rd (v_cells kv) strm;
        p1 ← rd (ub_pos u) i;
        let is_2d := is_pos_2d u in
        p1_x ← (if is_2d then rd (ub_pos u) (i + ub_n_tokens u * 2)%nat else Ok 0);
        p1_y ← (if is_2d then rd (ub_pos u) (i + ub_n_tokens u)%nat else Ok 0);
        foldM (fun data j =>
            x ← kq_entry kv c causal is_2d seq_id p1 p1_x p1_y j;
            match x with
            | MaskInf => Ok data
            | _ => wr data (n_kv * i + j)%nat x
            end) d (seq 0 n_kv))
    (filled (mask_at kv causal u n_kv) data (n_kv * i + n_kv)).
Proof.
  intros Hq [Hs Hp] Hlen Hinf Hd. destruct (query_at_inv i q Hq) as (l & Hl & Hpos & H2 & Hxy).
  rewrite (rd_ok _ _ _ Hl), bind_ok, (rd_ok (q_seq q :: l) 0 (q_seq q) eq_refl), bind_ok.
  destruct (seq_stream_ok kv size I (q_seq q) Hs) as (s & Est & Hst & Hlt).
  destruct (stream_lookup kv size I s Hlt) as (c & h & Hc & _).
  destruct (ki_wf kv size I s c Hc) as (Hwf & Hsz & _).
  unfold zidx. rewrite (proj2 (Z.leb_le 0 (q_seq q))), bind_ok by lia. rewrite (rd_ok _ _ _ Hst), bind_ok, (rd_ok _ _ _ Hc), bind_ok, (rd_ok _ _ _ Hpos), bind_ok.
  assert (Ex : (if is_pos_2d u then rd (ub_pos u) (i + ub_n_tokens u * 2)%nat else Ok 0) = Ok (q_x q)).
  { destruct (is_pos_2d u); destruct Hxy as [H _]; [by apply rd_ok|by rewrite H]. }
  assert (Ey : (if is_pos_2d u then rd (ub_pos u) (i + ub_n_tokens u)%nat else Ok 0) = Ok (q_y q)).
  { destruct (is_pos_2d u); destruct Hxy as [_ H]; [by apply rd_ok|by rewrite H]. }
  cbv zeta. rewrite Ex, bind_ok, Ey, bind_ok, <- H2.
  apply fill_entries; [done|]. intros j d' Hj Hd'.
  assert (Hlj : (j < length (cells_abs c))%nat) by (rewrite (length_abs c Hwf); lia).
  destruct (lookup_lt_is_Some_2 _ _ Hlj) as [a Ha].
  rewrite (kq_entry_ok kv Hwin c causal q j a), bind_ok; try done.
  2: { pose proof (ki_map kv size I) as [[_ ?] _]. lia. }
  assert (E : mask_at kv causal u n_kv (n_kv * i + j) = mask_entry kv causal q a).
  { unfold mask_at. rewrite Nat.mul_comm, Nat.div_add_l, Nat.div_small, Nat.add_0_r by lia.
    rewrite Nat.add_comm, Nat.Div0.mod_add, Nat.mod_small by lia. rewrite Hq. simpl.
    unfold query_cells. rewrite Hst. simpl. rewrite Hc. simpl. by rewrite Ha. }
  destruct (mask_entry kv causal q a) eqn:Ee.
  - apply filled_skip; [done|]. rewrite Hinf by lia. by rewrite E.
  - apply filled_set; [done|lia|done].
Qed.
End mask_rows.

Lemma set_input_kq_mask_ok kv size n_kv n_stream n_elements u causal :
  kv_inv kv size -> window_ok kv -> (0 < n_kv <= size)%nat ->
  (0 < n_stream)%nat -> (ub_n_tokens u mod n_stream = 0)%nat -> (n_kv * ub_n_tokens u <= n_elements)%nat ->
  (forall i, (i < ub_n_tokens u)%nat -> exists q, query_at u i = Some q /\ query_ok kv q) ->
  runs (set_input_kq_mask kv n_kv n_stream n_elements u causal)
    (filled (mask_at kv causal u n_kv) (replicate n_elements MaskInf) (n_kv * ub_n_tokens u)).
Proof.
  intros I Hwin Hn Hs Hmod Hlen Hq. unfold set_input_kq_mask. rewrite (proj2 (Nat.eqb_neq n_stream 0)) by lia.
  apply runs_assert; [by apply Nat.eqb_eq|]. cbv zeta.
  set (n_tps := (ub_n_tokens u / n_stream)%nat).
  assert (Ent : ub_n_tokens u = (n_stream * n_tps)%nat).
  { unfold n_tps. pose proof (Nat.div_mod_eq (ub_n_tokens u) n_stream). lia. }
  eapply runs_mono.
  - apply (fill_blocks (mask_at kv causal u n_kv) (replicate n_elements MaskInf) _ 0 (n_kv * n_tps) n_stream);
      [apply filled_0|].
    intros s d Hsn Hd. cbn [Nat.add] in *.
    replace (s * (n_kv * n_tps) + n_kv * n_tps)%nat with (s * (n_kv * n_tps) + n_tps * n_kv)%nat by lia.
    apply fill_blocks; [done|]. intros ii d' Hii Hd'.
    assert (Hi : (s * n_tps + ii < ub_n_tokens u)%nat) by (rewrite Ent; nia).
    destruct (Hq _ Hi) as (q & Hq1 & Hq2).
    replace (s * (n_kv * n_tps) + ii * n_kv)%nat with (n_kv * (s * n_tps + ii))%nat in * by lia.
    apply (mask_row_ok kv size I Hwin n_kv Hn u causal _ q _ d' Hq1 Hq2).
    + rewrite length_replicate. nia.
    + intros m Hm. rewrite length_replicate in Hm. by apply lookup_replicate_2.
    + done.
  - intros out. rewrite Ent. by replace (0 + n_stream * (n_kv * n_tps))%nat with (n_kv * (n_stream * n_tps))%nat by lia.
Qed.

(** ** Where the keys and values of the micro-batch go *)

(** The cell, in the buffer of all streams, of token [t] of the slots. *)
Definition slot_cell (size nt : nat) (si : slot_info) (t : nat) : nat :=
  default 0%nat (strm ← si_strm si !! (t / nt)%nat; l ← si_idxs si !! (t / nt)%nat; idx ← l !! (t mod nt)%nat; Some (strm * size + idx)%nat).

Section rows.
Context (kv : llama_kv_cache) (size nt : nat) (si : slot_info).
Context (I : kv_inv kv size) (Hsi : slot_ok kv nt si).

Lemma kv_get_size_ok : kv_get_size kv = Ok size.
Proof.
  destruct (ki_map kv size I) as [[H _] _]. unfold kv_get_size.
  destruct (seq_to_stream kv !! 0%nat) as [s|] eqn:E; [|apply lookup_ge_None in E; lia].
  rewrite (rd_ok _ _ _ E), bind_ok.
  destruct (stream_lookup kv size I s) as (c & h & Hc & _); [by apply (proj2 (ki_map kv size I) 0%nat)|].
  rewrite (rd_ok _ _ _ Hc), bind_ok. by destruct (ki_wf kv size I s c Hc) as (_ & -> & _).
Qed.

(** The slot of a token: its stream and its cell, which is free. *)
Lemma slot_at s i :
  (s < length (si_strm si))%nat -> (i < nt)%nat ->
  exists strm l idx, si_strm si !! s = Some strm /\ si_idxs si !! s = Some l /\ l !! i = Some idx /\
    (strm < k_n_stream kv)%nat /\ (idx < size)%nat /\ slot_cell size nt si (s * nt + i) = (strm * size + idx)%nat.
Proof.
  intros Hs Hi. destruct Hsi as [L _ [_ Hl] [_ Ht] Hf].
  destruct (lookup_lt_is_Some_2 (si_strm si) s Hs) as [strm Es].
  destruct (lookup_lt_is_Some_2 (si_idxs si) s) as [l El]; [lia|].
  destruct (lookup_lt_is_Some_2 l i) as [idx Ei]; [by rewrite (Hl s l El)|].
  exists strm, l, idx. split_and!; try done.
  - by apply (Ht s).
  - destruct (stream_lookup kv size I strm) as (c & h & Hc & _); [by apply (Ht s)|].
    destruct (Hf s l strm c El Es Hc) as [_ Hfree].
    destruct (Hfree idx) as (a & Ha & _); [by apply list_elem_of_lookup_2 with i|].
    apply lookup_lt_Some in Ha. destruct (ki_wf kv size I strm c Hc) as (Hwf & <- & _). by rewrite length_abs in Ha.
  - unfold slot_cell. rewrite Nat.div_add_l, Nat.div_small, Nat.add_0_r by lia.
    rewrite Nat.add_comm, Nat.Div0.mod_add, Nat.mod_small by lia. by rewrite Es, El; simpl; rewrite Ei.
Qed.

(** Different tokens have different cells. *)
Lemma slot_cell_inj t1 t2 :
  (t1 < length (si_strm si) * nt)%nat -> (t2 < length (si_strm si) * nt)%nat ->
  slot_cell size nt si t1 = slot_cell size nt si t2 -> t1 = t2.
Proof.
  intros H1 H2 E. assert (Hnt : (0 < nt)%nat) by lia.
  assert (D : forall t, t = (t / nt * nt + t mod nt)%nat) by (intros t; pose proof (Nat.div_mod_eq t nt); lia).
  assert (B : forall t, (t mod nt < nt)%nat) by (intros t; apply Nat.mod_upper_bound; lia).
  assert (Q : forall t, (t < length (si_strm si) * nt)%nat -> (t / nt < length (si_strm si))%nat).
  { intros t Ht. apply Nat.Div0.div_lt_upper_bound. lia. }
  destruct (slot_at (t1 / nt) (t1 mod nt) (Q t1 H1) (B t1)) as (s1 & l1 & i1 & A1 & A2 & A3 & A4 & A5 & A6).
  destruct (slot_at (t2 / nt) (t2 mod nt) (Q t2 H2) (B t2)) as (s2 & l2 & i2 & B1 & B2 & B3 & B4 & B5 & B6).
  rewrite <- D in A6, B6. rewrite A6, B6 in E. apply row_major_inj in E as [-> ->]; [|done..].
  destruct Hsi as [_ _ _ [Hnd _] Hf].
  assert (Et : (t1 / nt)%nat = (t2 / nt)%nat) by (by eapply NoDup_lookup).
  rewrite Et in *. assert (l2 = l1) as -> by congruence.
  destruct (stream_lookup kv size I s2 B4) as (c & h & Hc & _).
  destruct (Hf _ _ _ _ B2 B1 Hc) as [Hnl _].
  assert (Em : (t1 mod nt)%nat = (t2 mod nt)%nat) by (by eapply NoDup_lookup).
  rewrite (D t1), (D t2), Et, Em. done.
Qed.

Lemma set_input_k_idxs_ok u data :
  ub_n_tokens u = (length (si_strm si) * nt)%nat -> (ub_n_tokens u <= length data)%nat ->
  runs (set_input_k_idxs kv data u si) (filled (fun t => Z.of_nat (slot_cell size nt si t)) data (ub_n_tokens u)).
Proof.
  intros Hn Hd. unfold set_input_k_idxs, si_n_stream. rewrite (slot_ok_size kv nt si Hsi), bind_ok.
  apply runs_assert; [apply Nat.eqb_eq; lia|]. rewrite Hn.
  apply (fill_blocks _ data _ 0 nt (length (si_strm si)) data (filled_0 _ _)). intros s d Hs Hfd. cbn [Nat.add] in *.
  destruct (lookup_lt_is_Some_2 (si_strm si) s Hs) as [strm Es].
  rewrite (rd_ok _ _ _ Es), bind_ok, kv_get_size_ok, bind_ok. cbv zeta.
  apply fill_entries; [done|]. intros i d' Hi Hd'.
  destruct (slot_at s i Hs Hi) as (strm' & l & idx & H1 & H2 & H3 & _ & _ & H6).
  rewrite (rd_ok _ _ _ H2), bind_ok, (rd_ok _ _ _ H3), bind_ok.
  apply filled_set; [done|nia|]. rewrite H6. assert (strm' = strm) as -> by congruence. lia.
Qed.

(** With a transposed V cache, element [j] of token [t] has a place of its own. *)
Definition v_place (ev m : nat) : nat :=
  let c := slot_cell size nt si (m / ev) in (c / size * size * ev + (m mod ev * size + c mod size))%nat.

Lemma v_place_inj ev m1 m2 :
  (m1 < length (si_strm si) * nt * ev)%nat -> (m2 < length (si_strm si) * nt * ev)%nat ->
  v_place ev m1 = v_place ev m2 -> m1 = m2.
Proof.
  intros H1 H2 E. unfold v_place in E. assert (Hev : (0 < ev)%nat) by lia.
  assert (Hsz : (0 < size)%nat).
  { pose proof (so_ne _ _ _ Hsi). destruct (so_nt _ _ _ Hsi) as [? _].
    destruct (slot_at 0 0 ltac:(lia) ltac:(lia)) as (? & ? & ? & _ & _ & _ & _ & ? & _). lia. }
  assert (D : forall t, t = (t / ev * ev + t mod ev)%nat) by (intros t; pose proof (Nat.div_mod_eq t ev); lia).
  assert (Q : forall t, (t < length (si_strm si) * nt * ev)%nat -> (t / ev < length (si_strm si) * nt)%nat).
  { intros t Ht. apply Nat.Div0.div_lt_upper_bound. lia. }
  pose proof (Nat.mod_upper_bound m1 ev ltac:(lia)) as B1. pose proof (Nat.mod_upper_bound m2 ev ltac:(lia)) as B2.
  revert E. set (c1 := slot_cell size nt si (m1 / ev)). set (c2 := slot_cell size nt si (m2 / ev)). intros E.
  pose proof (Nat.mod_upper_bound c1 size ltac:(lia)) as S1. pose proof (Nat.mod_upper_bound c2 size ltac:(lia)) as S2.
  rewrite <- !Nat.mul_assoc, !(Nat.mul_comm size ev) in E.
  apply row_major_inj in E as [Es E]; [|nia..]. apply row_major_inj in E as [Ej Ei]; [|lia..].
  assert (Ec : c1 = c2).
  { rewrite (Nat.div_mod_eq c1 size), (Nat.div_mod_eq c2 size). congruence. }
  apply slot_cell_inj in Ec; [|by apply Q..]. rewrite (D m1), (D m2). congruence.
Qed.

Lemma v_place_lt ev m :
  (m < length (si_strm si) * nt * ev)%nat -> (v_place ev m < k_n_stream kv * size * ev)%nat.
Proof.
  intros Hm. assert (Hev : (0 < ev)%nat) by lia. destruct (so_nt _ _ _ Hsi) as [Hnt _].
  assert (Ht : (m / ev < length (si_strm si) * nt)%nat) by (apply Nat.Div0.div_lt_upper_bound; lia).
  pose proof (Nat.mod_upper_bound m ev ltac:(lia)) as Hj. unfold v_place. cbv zeta.
  revert Ht. generalize (m / ev)%nat. intros t Ht.
  destruct (slot_at (t / nt) (t mod nt)) as (s & l & idx & E1 & E2 & E3 & E4 & E5 & E6).
  { apply Nat.Div0.div_lt_upper_bound. lia. }
  { apply Nat.mod_upper_bound. lia. }
  replace (t / nt * nt + t mod nt)%nat with t in E6 by (pose proof (Nat.div_mod_eq t nt); lia).
  rewrite E6, Nat.div_add_l, (Nat.div_small idx), Nat.add_0_r by lia.
  rewrite Nat.add_comm, (Nat.add_comm (s * size) idx), Nat.Div0.mod_add, (Nat.mod_small idx) by lia.
  generalize dependent (m mod ev)%nat. intros j Hj.
  pose proof (Nat.mul_le_mono_r (s + 1) (k_n_stream kv) (size * ev) ltac:(lia)).
  assert (j * size + idx < size * ev)%nat by nia. nia.
Qed.

Lemma set_input_v_idxs_ok u data ev :
  k_v_trans kv = true -> n_embd_v_gqa_max (k_hparams kv) = Ok (Z.of_nat ev) ->
  ub_n_tokens u = (length (si_strm si) * nt)%nat -> (ub_n_tokens u * ev <= length data)%nat ->
  runs (set_input_v_idxs kv data u si) (filled (fun m => Z.of_nat (v_place ev m)) data (ub_n_tokens u * ev)).
Proof.
  intros Ht Hev Hn Hd. unfold set_input_v_idxs, si_n_stream. rewrite (slot_ok_size kv nt si Hsi), bind_ok.
  apply runs_assert; [apply Nat.eqb_eq; lia|]. rewrite Ht. cbn [negb].
  rewrite kv_get_size_ok, bind_ok, Hev, bind_ok, Nat2Z.id. cbv zeta. rewrite Hn, <- Nat.mul_assoc.
  apply (fill_blocks _ data _ 0 (nt * ev) (length (si_strm si)) data (filled_0 _ _)). intros s d Hs Hfd. cbn [Nat.add] in *.
  destruct (lookup_lt_is_Some_2 (si_strm si) s Hs) as [strm Es].
  rewrite (rd_ok _ _ _ Es), bind_ok.
  apply fill_blocks; [done|]. intros i d' Hi Hd'.
  apply fill_entries; [done|]. intros j d2 Hj Hd2.
  destruct (slot_at s i Hs Hi) as (strm' & l & idx & H1 & H2 & H3 & H4 & H5 & H6).
  rewrite (rd_ok _ _ _ H2), bind_ok, (rd_ok _ _ _ H3), bind_ok.
  rewrite (Nat.mul_assoc s nt ev). apply filled_set.
  - by rewrite <- (Nat.mul_assoc s nt ev).
  - assert (s * nt + i < length (si_strm si) * nt)%nat by nia.
    assert ((s * nt + i) * ev + ev <= length (si_strm si) * nt * ev)%nat by nia. nia.
  - assert (strm' = strm) as -> by congruence. rewrite <- Nat2Z.inj_add. f_equal. unfold v_place. cbv zeta.
    replace (s * nt * ev + i * ev + j)%nat with ((s * nt + i) * ev + j)%nat by lia.
    assert (Ed : (((s * nt + i) * ev + j) / ev = s * nt + i)%nat) by (rewrite Nat.div_add_l, (Nat.div_small j) by lia; lia).
    assert (Em : (((s * nt + i) * ev + j) mod ev = j)%nat).
    { rewrite Nat.add_comm, Nat.Div0.mod_add. by apply Nat.mod_small. }
    assert (Eq : ((strm * size + idx) / size = strm)%nat) by (rewrite Nat.div_add_l, (Nat.div_small idx) by lia; lia).
    assert (Er : ((strm * size + idx) mod size = idx)%nat).
    { rewrite Nat.add_comm, Nat.Div0.mod_add. by apply Nat.mod_small. }
    by rewrite Ed, Em, H6, Eq, Er.
Qed.
End rows.

(** ** The shifts of the cached keys *)

Definition shift_at (kv : llama_kv_cache) (size m : nat) : Z :=
  default 0 (c ← v_cells kv !! (m / size)%nat; a_shift <$> cells_abs c !! (m mod size)%nat).

Lemma set_input_k_shift_ok kv size data :
  kv_inv kv size -> (k_n_stream kv * size <= length data)%nat ->
  runs (set_input_k_shift kv data) (filled (shift_at kv size) data (k_n_stream kv * size)).
Proof.
  intros I Hd. unfold set_input_k_shift.
  apply (fill_blocks _ data _ 0 size (k_n_stream kv) data (filled_0 _ _)). intros s d Hs Hfd. cbn [Nat.add] in *.
  destruct (stream_lookup kv size I s Hs) as (c & h & Hc & _).
  destruct (ki_wf kv size I s c Hc) as (Hwf & Hsz & _). rewrite (rd_ok _ _ _ Hc), bind_ok, Hsz.
  apply fill_entries; [done|]. intros i d' Hi Hd'.
  assert (Hli : (i < length (cells_abs c))%nat) by (rewrite (length_abs c Hwf); lia).
  destruct (lookup_lt_is_Some_2 _ _ Hli) as [a Ha].
  assert (E : shift_at kv size (s * size + i) = a_shift a).
  { unfold shift_at. rewrite Nat.div_add_l, Nat.div_small, Nat.add_0_r by lia. rewrite Hc. simpl.
    by rewrite Nat.add_comm, Nat.Div0.mod_add, Nat.mod_small, Ha by lia. }
  rewrite (cells_is_empty_ok c i a), bind_ok by done.
  assert (Ex : (if a_pos a =? -1 then Ok 0 else cells_get_shift c i) = Ok (a_shift a)).
  { destruct (Z.eqb_spec (a_pos a) (-1)) as [Ep|Hne]; [|by apply cells_get_shift_ok].
    destruct (wf_cell c Hwf i a Ha) as (_ & H & _). by destruct (H Ep) as [_ ->]. }
  rewrite Ex, bind_ok. apply filled_set; [done|nia|done].
Qed.

(** ** Properties *)

(** C4: the attention mask of a micro-batch is exact: token [i] gets a finite entry for
    cell [j] iff the cell is occupied, holds the token's sequence, is not in the future
    (nor, at the same position of an image, later in reading order) when attention is
    causal, and lies in the sliding window; the entry is 0, or minus the distance with
    ALiBi, and every other entry is -INFINITY. *)
Theorem attention_mask kv size n_kv n_stream n_elements u causal :
  kv_inv kv size -> window_ok kv -> (0 < n_kv <= size)%nat ->
  (0 < n_stream)%nat -> (ub_n_tokens u mod n_stream = 0)%nat -> (n_kv * ub_n_tokens u <= n_elements)%nat ->
  (forall i, (i < ub_n_tokens u)%nat -> exists q, query_at u i = Some q /\ query_ok kv q) ->
  runs (set_input_kq_mask kv n_kv n_stream n_elements u causal) (fun out =>
    length out = n_elements /\
    (forall i j q l a, (i < ub_n_tokens u)%nat -> (j < n_kv)%nat ->
       query_at u i = Some q -> query_cells kv q = Some l -> l !! j = Some a ->
       (attends kv causal q a -> out !! (n_kv * i + j)%nat =
          Some (MaskVal (if use_alibi (k_hparams kv) then - Z.abs (a_pos a - q_pos q) else 0))) /\
       (~ attends kv causal q a -> out !! (n_kv * i + j)%nat = Some MaskInf)) /\
    (forall m, (n_kv * ub_n_tokens u <= m < n_elements)%nat -> out !! m = Some MaskInf)).
Proof.
  intros I Hwin Hn Hs Hmod Hlen Hq.
  eapply runs_mono; [by apply (set_input_kq_mask_ok kv size n_kv n_stream n_elements u causal)|].
  intros out [L H]. rewrite length_replicate in L. split; [done|]. split.
  - intros i j q l a Hi Hj Hqi Hl Ha. rewrite H, decide_True by nia.
    assert (E : mask_at kv causal u n_kv (n_kv * i + j) = mask_entry kv causal q a).
    { unfold mask_at. rewrite (Nat.mul_comm n_kv i), Nat.div_add_l, Nat.div_small, Nat.add_0_r by lia.
      rewrite Nat.add_comm, Nat.Div0.mod_add, Nat.mod_small, Hqi by lia. simpl. rewrite Hl. simpl. by rewrite Ha. }
    rewrite E. unfold mask_entry. split; intros Ha'; [by rewrite decide_True|by rewrite decide_False].
  - intros m Hm. rewrite H, decide_False by lia. apply lookup_replicate_2. lia.
Qed.

Lemma attention_mask_witness :
  set_input_kq_mask (toy_kv true 3 2) 3 1 6 toy_ubatch true = Ok (replicate 6 MaskInf) /\
  runs (set_input_kq_mask (toy_kv true 3 2) 3 1 6 toy_ubatch true) (fun out => length out = 6%nat).
Proof.
  split; [vm_compute; reflexivity|].
  assert (U : unified_cache (toy_kv true 3 2) 3) by (apply (toy_unified 3 2); [unfold LLAMA_MAX_SEQ; lia|reflexivity]).
  eapply runs_mono; [apply (attention_mask (toy_kv true 3 2) 3 3 1 6 toy_ubatch true)|].
  - exact (uc_inv _ _ U).
  - left. reflexivity.
  - lia.
  - lia.
  - reflexivity.
  - simpl. lia.
  - intros i Hi. simpl in Hi.
    assert (E : i = 0%nat \/ i = 1%nat) by lia.
    destruct E as [-> | ->]; eexists; (split; [reflexivity|]); split; vm_compute; split; discriminate || reflexivity.
  - intros out [H _]. exact H.
Defined.

(** The cell that the slot gives to token [t]: its stream and its index there. *)
Definition slot_entry (nt : nat) (si : slot_info) (t s i : nat) : Prop :=
  exists l, si_strm si !! (t / nt)%nat = Some s /\ si_idxs si !! (t / nt)%nat = Some l /\ l !! (t mod nt)%nat = Some i.

(** One row for each token, in the buffer of all streams: that of its cell, which is free. *)
Definition rows_of_slot (kv : llama_kv_cache) (size nt n : nat) (si : slot_info) (out : list Z) : Prop :=
  NoDup (take n out) /\
  forall t, (t < n)%nat -> exists s i c a, slot_entry nt si t s i /\ out !! t = Some (Z.of_nat (s * size + i)) /\
    v_cells kv !! s = Some c /\ cells_abs c !! i = Some a /\ a_pos a = -1.

Lemma slot_entry_at kv size nt si t : kv_inv kv size -> slot_ok kv nt si -> (t < length (si_strm si) * nt)%nat ->
  exists s i, slot_entry nt si t s i /\ (s < k_n_stream kv)%nat /\ (i < size)%nat /\ slot_cell size nt si t = (s * size + i)%nat.
Proof.
  intros I Hsi Ht. destruct (so_nt _ _ _ Hsi) as [Hnt _].
  destruct (slot_at kv size nt si I Hsi (t / nt) (t mod nt)) as (s & l & idx & E1 & E2 & E3 & E4 & E5 & E6).
  { apply Nat.Div0.div_lt_upper_bound. lia. }
  { apply Nat.mod_upper_bound. lia. }
  replace (t / nt * nt + t mod nt)%nat with t in E6 by (pose proof (Nat.div_mod_eq t nt); lia).
  exists s, idx. split; [by exists l|done].
Qed.

Lemma set_input_rows kv size nt si u data : kv_inv kv size -> slot_ok kv nt si -> ub_n_tokens u = (length (si_strm si) * nt)%nat ->
  (ub_n_tokens u <= length data)%nat -> runs (set_input_k_idxs kv data u si) (rows_of_slot kv size nt (ub_n_tokens u) si).
Proof.
  intros I Hsi Hn Hk. eapply runs_mono; [by apply (set_input_k_idxs_ok kv size nt si I Hsi u data)|]. intros out [L H]. split.
  - apply NoDup_alt. intros t1 t2 x [H1 B1]%lookup_take_Some [H2 B2]%lookup_take_Some.
    rewrite H, decide_True in H1 by done. rewrite H, decide_True in H2 by done. rewrite Hn in *.
    apply (slot_cell_inj kv size nt si I Hsi); [done..|]. apply Nat2Z.inj. congruence.
  - intros t Hlt. rewrite H, decide_True by done. destruct (slot_entry_at kv size nt si t I Hsi ltac:(lia)) as (s & i & He & Hs & _ & ->).
    destruct (stream_lookup kv size I s Hs) as (c & h & Hc & _). pose proof He as (l & E1 & E2 & E3).
    destruct (so_free _ _ _ Hsi _ l s c E2 E1 Hc) as [_ Hf]. destruct (Hf i) as (a & Ha & Hp); [by eapply list_elem_of_lookup_2|].
    by exists s, i, c, a.
Qed.

(** C24: the keys and values of a micro-batch get places of their own: the row of each token
    is the cell that its slot names for it, counted in the buffer of all streams, whose free
    cells the slot holds, and no two tokens share a row.  So it is for the keys, and for the
    values when V is not transposed; with a transposed V every element [j] of token [t] has
    a place of its own, in row [j] of its stream, at the column of that cell; no place is
    used twice and none is outside the buffer. *)
Theorem kv_rows_distinct kv size nt si u kdata vdata ev :
  kv_inv kv size -> slot_ok kv nt si -> ub_n_tokens u = (length (si_strm si) * nt)%nat ->
  (ub_n_tokens u <= length kdata)%nat -> (ub_n_tokens u * (if k_v_trans kv then ev else 1) <= length vdata)%nat ->
  n_embd_v_gqa_max (k_hparams kv) = Ok (Z.of_nat ev) ->
  runs (set_input_k_idxs kv kdata u si) (rows_of_slot kv size nt (ub_n_tokens u) si) /\
  runs (set_input_v_idxs kv vdata u si) (fun out =>
    if k_v_trans kv then
      NoDup (take (ub_n_tokens u * ev) out) /\
      forall t j, (t < ub_n_tokens u)%nat -> (j < ev)%nat -> exists s i, slot_entry nt si t s i /\
        out !! (t * ev + j)%nat = Some (Z.of_nat (s * size * ev + (j * size + i))) /\
        (s * size * ev + (j * size + i) < k_n_stream kv * size * ev)%nat
    else rows_of_slot kv size nt (ub_n_tokens u) si out).
Proof.
  intros I Hsi Hn Hk Hv Hev. split; [by apply set_input_rows|]. destruct (k_v_trans kv) eqn:Ht.
  2: { unfold set_input_v_idxs. rewrite Ht, (slot_ok_size kv nt si Hsi), bind_ok. apply runs_assert; [apply Nat.eqb_eq; unfold si_n_stream; lia|].
    apply set_input_rows; try done. lia. }
  eapply runs_mono; [by apply (set_input_v_idxs_ok kv size nt si I Hsi u vdata ev)|].
  intros out [L H]. split.
  - apply NoDup_alt. intros t1 t2 x [H1 B1]%lookup_take_Some [H2 B2]%lookup_take_Some.
    rewrite H, decide_True in H1 by done. rewrite H, decide_True in H2 by done. rewrite Hn in *.
    apply (v_place_inj kv size nt si I Hsi ev); [done..|]. apply Nat2Z.inj. congruence.
  - intros t j Hlt Hj. assert (Hm : (t * ev + j < ub_n_tokens u * ev)%nat) by nia. rewrite H, decide_True by done.
    destruct (slot_entry_at kv size nt si t I Hsi ltac:(lia)) as (s & i & He & Hs & Hi & Ec). exists s, i. split; [done|].
    assert (Ep : v_place size nt si ev (t * ev + j) = (s * size * ev + (j * size + i))%nat).
    { unfold v_place. rewrite (Nat.div_add_l t ev j), (Nat.div_small j ev), Nat.add_0_r, Ec by lia.
      rewrite (Nat.add_comm (t * ev) j), Nat.Div0.mod_add, (Nat.mod_small j ev) by lia.
      rewrite Nat.div_add_l, (Nat.div_small i), Nat.add_0_r by lia.
      by rewrite (Nat.add_comm (s * size) i), Nat.Div0.mod_add, (Nat.mod_small i) by lia. }
    rewrite <- Ep. split; [done|]. apply (v_place_lt kv size nt si I Hsi). by rewrite <- Hn.
Qed.

(** A cache whose V is transposed, and the slot of a micro-batch of two tokens. *)
Definition toy_trans : llama_kv_cache :=
  match llama_kv_cache_new toy_row_size toy_hparams 1 1 true true 3 2 1 0 LLAMA_SWA_TYPE_NONE None None true with
  | Ok kv => kv
  | _ => toy_kv true 3 2
  end.

Lemma kv_rows_distinct_witness :
  set_input_v_idxs toy_trans [0; 0; 0; 0; 0; 0; 0; 0] toy_ubatch (mk_slot 0 0 [0%nat] [[2; 0]%nat]) = Ok [2; 5; 8; 11; 0; 3; 6; 9] /\
  runs (set_input_k_idxs toy_trans [0; 0] toy_ubatch (mk_slot 0 0 [0%nat] [[2; 0]%nat])) (fun out => NoDup (take 2 out)).
Proof.
  split; [vm_compute; reflexivity|].
  assert (F : fresh true 3 2 1 0 LLAMA_SWA_TYPE_NONE toy_hparams toy_trans).
  { apply (llama_kv_cache_new_fresh toy_row_size toy_hparams 1 1 true true 3 2 1 0 LLAMA_SWA_TYPE_NONE None None);
      [unfold LLAMA_MAX_SEQ; lia|vm_compute; reflexivity]. }
  destruct (kv_rows_distinct toy_trans 3 2 (mk_slot 0 0 [0%nat] [[2; 0]%nat]) toy_ubatch [0; 0] [0; 0; 0; 0; 0; 0; 0; 0] 4) as [H _].
  - apply F.
  - split; try (simpl; lia).
    + split; [lia|]. intros [|s] l; simpl; [by intros [= <-]|done].
    + split; [apply NoDup_singleton|]. intros [|s] t Ht; [injection Ht as <-|done].
      pose proof (proj1 (fr_n _ _ _ _ _ _ _ _ F)) as En. change (0 < k_n_stream toy_trans)%nat. rewrite En. lia.
    + intros [|s] l t c H1 H2 Hc; [|done]. injection H1 as <-. injection H2 as <-.
      rewrite (fr_cells _ _ _ _ _ _ _ _ F) in Hc. apply lookup_replicate in Hc as [-> _].
      split; [by apply (bool_decide_unpack _); vm_compute|].
      intros idx Hin. exists cell_empty. destruct (cells_resize_ok 3 llama_kv_cells_new) as (_ & E & _); [done|].
      rewrite E. split; [|done]. apply lookup_replicate. split; [done|]. set_solver by lia.
  - reflexivity.
  - simpl. lia.
  - vm_compute. lia.
  - vm_compute. reflexivity.
  - eapply runs_mono; [exact H|]. intros out [Hnd _]. exact Hnd.
Defined.
