(* ===== verification/KvState.v ===== *)
(** Saving and restoring the KV cache: [state_write], [state_read] and their helpers of
    src/llama/llama.cpp/src/llama-kv-cache.cpp, over the memory buffers
    [llama_io_write_buffer] and [llama_io_read_buffer] of llama-context.cpp.  A byte is a
    number below 256; machine integers are little-endian.  The cache after an exception
    that the restore itself raises is part of its result. *)

From S2P Require Import Prelude Hparams KvCells Memory Batch KvCache.
Local Open Scope Z_scope.

(** ** Buffers *)

Record llama_io_write_buffer := mk_wbuf { w_out : list Z; w_left : nat }.
Record llama_io_read_buffer := mk_rbuf { r_rest : list Z; r_size_read : nat }.

Definition io_write (io : llama_io_write_buffer) (src : list Z) : res llama_io_write_buffer :=
  if (w_left io <? length src)%nat then Throw "unexpectedly reached end of buffer"
  else Ok (mk_wbuf (w_out io ++ src) (w_left io - length src)).

(** [ggml_backend_tensor_get] and [ggml_backend_tensor_set] on the bytes of a tensor: a range
    that is not empty is asserted to be inside. *)
Definition tensor_get (t : list Z) (off n : nat) : res (list Z) :=
  if (n =? 0)%nat then Ok []
  else assert_ (off + n <=? length t)%nat ;; Ok (take n (drop off t)).
Definition tensor_set (t : list Z) (off : nat) (src : list Z) : res (list Z) :=
  if (length src =? 0)%nat then Ok t
  else
  assert_ (off + length src <=? length t)%nat ;;
  Ok (take off t ++ src ++ drop (off + length src) t).

Definition io_write_tensor (io : llama_io_write_buffer) (t : list Z) (off n : nat) : res llama_io_write_buffer :=
  if (w_left io <? n)%nat then Throw "unexpectedly reached end of buffer"
  else bs ← tensor_get t off n; Ok (mk_wbuf (w_out io ++ bs) (w_left io - n)).

Definition io_read (io : llama_io_read_buffer) (n : nat) : res (list Z * llama_io_read_buffer) :=
  if (length (r_rest io) <? n)%nat then Throw "unexpectedly reached end of buffer"
  else Ok (take n (r_rest io), mk_rbuf (drop n (r_rest io)) (r_size_read io + n)).

(** Little-endian integers of [n] bytes. *)
Fixpoint le_bytes (n : nat) (z : Z) : list Z :=
  match n with O => [] | S n => z `mod` 256 :: le_bytes n (z `div` 256) end.
Fixpoint le_val (bs : list Z) : Z :=
  match bs with [] => 0 | b :: bs => b + 256 * le_val bs end.

Definition write_u32 io z := io_write io (le_bytes 4 z).
Definition write_i32 io z := io_write io (le_bytes 4 (u32 z)).
Definition write_u64 io z := io_write io (le_bytes 8 z).
Definition read_u32 (io : llama_io_read_buffer) : res (Z * llama_io_read_buffer) :=
  r ← io_read io 4; Ok (le_val r.1, r.2).
Definition read_i32 (io : llama_io_read_buffer) : res (Z * llama_io_read_buffer) :=
  r ← io_read io 4; Ok (to_i32 (le_val r.1), r.2).
Definition read_u64 (io : llama_io_read_buffer) : res (Z * llama_io_read_buffer) :=
  r ← io_read io 8; Ok (le_val r.1, r.2).

(** ** Ranges of cells *)

(** Is cell [i] saved: it is occupied, and holds [seq_id] unless that is -1. *)
Definition cell_saved (c : llama_kv_cells) (seq_id : Z) (i : nat) : res bool :=
  e ← cells_is_empty c i;
  if (e : bool) then Ok false
  else if seq_id =? -1 then Ok true else cells_seq_has c i seq_id.

(** One iteration of the loop that counts the cells and finds their ranges, for the test
    [saved]; a [cell_range_begin] equal to the size means that no range is open. *)
Definition range_step (size : nat) (saved : nat -> res bool) (st : nat * nat * list (nat * nat)) (i : nat)
    : res (nat * nat * list (nat * nat)) :=
  let '(count, begin, data) := st in
  s ← saved i;
  if (s : bool) then Ok ((count + 1)%nat, if (begin =? size)%nat then i else begin, data)
  else if negb (begin =? size)%nat then Ok (count, size, data ++ [(begin, i)])
  else Ok (count, begin, data).

(** The number of saved cells and their maximal ranges. *)
Definition cell_ranges (size : nat) (saved : nat -> res bool) : res (nat * list (nat * nat)) :=
  st ← foldM (range_step size saved) (0%nat, size, []) (seq 0 size);
  let '(count, begin, data) := st in
  let data := if negb (begin =? size)%nat then data ++ [(begin, size)] else data in
  let check := foldl (fun n r => n + (r.2 - r.1))%nat 0%nat data in
  assert_ (count =? check)%nat ;;
  Ok (count, data).

(** The cells of the ranges in the order of the loops over them. *)
Definition range_cells (data : list (nat * nat)) : list nat :=
  concat (map (fun r => seq r.1 (r.2 - r.1)) data).

(** ** Writing *)

(** The ids of cell [i] that are written. *)
Definition saved_ids (kv : llama_kv_cache) (c : llama_kv_cells) (seq_id : Z) (i : nat) : res (list Z) :=
  foldM (fun acc k =>
      let cur := Z.of_nat k in
      if (cur =? seq_id) || (seq_id =? -1) then
        h ← cells_seq_has c i cur; Ok (if (h : bool) then acc ++ [cur] else acc)
      else Ok acc) [] (seq 0 (k_n_seq_max kv)).

Definition write_cell_meta (kv : llama_kv_cache) (c : llama_kv_cells) (seq_id : Z)
    (io : llama_io_write_buffer) (i : nat) : res llama_io_write_buffer :=
  ids ← saved_ids kv c seq_id i;
  pos ← cells_pos_get c i;
  io1 ← write_i32 io pos;
  io2 ← write_u32 io1 (Z.of_nat (length ids));
  foldM write_i32 io2 ids.

Definition state_write_meta (kv : llama_kv_cache) (strm : nat) (data : list (nat * nat)) (seq_id : Z)
    (io : llama_io_write_buffer) : res llama_io_write_buffer :=
  c ← rd (v_cells kv) strm;
  foldM (write_cell_meta kv c seq_id) io (range_cells data).

Section data.
(** [ggml_row_size] and [ggml_type_size], in bytes. *)
Context (ggml_row_size : Z -> Z -> Z) (ggml_type_size : Z -> Z).

(** A tensor whose rows are cells: type, row size, then the ranges. *)
Definition write_rows (t : list Z) (ty ne : Z) (data : list (nat * nat)) (io : llama_io_write_buffer)
    : res llama_io_write_buffer :=
  io1 ← write_i32 io ty;
  let size_row := ggml_row_size ty ne in
  io2 ← write_u64 io1 size_row;
  let sr := Z.to_nat size_row in
  foldM (fun io r => io_write_tensor io t (r.1 * sr)%nat ((r.2 - r.1) * sr)%nat) io2 data.

(** A transposed tensor: type, element size, number of rows, then every row. *)
Definition write_cols (t : list Z) (ty ne : Z) (kv_size : nat) (data : list (nat * nat))
    (io : llama_io_write_buffer) : res llama_io_write_buffer :=
  io1 ← write_i32 io ty;
  let size_el := ggml_type_size ty in
  io2 ← write_u32 io1 size_el;
  io3 ← write_u32 io2 ne;
  let se := Z.to_nat size_el in
  foldM (fun io j =>
      foldM (fun io r => io_write_tensor io t ((r.1 + j * kv_size) * se)%nat ((r.2 - r.1) * se)%nat) io data)
    io3 (seq 0 (Z.to_nat ne)).

Definition state_write_data (kv : llama_kv_cache) (strm : nat) (data : list (nat * nat))
    (io : llama_io_write_buffer) : res llama_io_write_buffer :=
  c ← rd (v_cells kv) strm;
  io1 ← write_u32 io (if k_v_trans kv then 1 else 0);
  io2 ← write_u32 io1 (Z.of_nat (length (layers kv)));
  io3 ← foldM (fun io l =>
      ne ← n_embd_k_gqa (k_hparams kv) (l_il l);
      k ← rd (l_k_stream l) strm;
      write_rows k (l_k_type l) ne data io) io2 (layers kv);
  foldM (fun io l =>
      ne ← n_embd_v_gqa (k_hparams kv) (l_il l);
      v ← rd (l_v_stream l) strm;
      if negb (k_v_trans kv) then write_rows v (l_v_type l) ne data io
      else write_cols v (l_v_type l) ne (cells_size c) data io) io3 (layers kv).

Definition state_write (kv : llama_kv_cache) (seq_id : Z) (io : llama_io_write_buffer)
    : res llama_io_write_buffer :=
  io0 ← write_u32 io (Z.of_nat (k_n_stream kv));
  foldM (fun io s =>
      c ← rd (v_cells kv) s;
      cr ← cell_ranges (cells_size c) (cell_saved c seq_id);
      let '(count, data) := cr in
      io1 ← write_u32 io (Z.of_nat count);
      if (count =? 0)%nat then Ok io1
      else
        io2 ← state_write_meta kv s data seq_id io1;
        state_write_data kv s data io2) io0 (seq 0 (k_n_stream kv)).

(** ** Reading *)

(** A helper that returns [false] leaves its loop: [inr] carries the cache at that point. *)
Abbreviation rd_state := (llama_kv_cache * llama_io_read_buffer)%type.

(** The metadata of one cell for a single sequence. *)
Definition read_cell_single (dest : Z) (st : llama_io_read_buffer * llama_ubatch) (i : nat)
    : res ((llama_io_read_buffer * llama_ubatch) + llama_io_read_buffer) :=
  let '(io, u) := st in
  p ← read_i32 io;
  n ← read_u32 p.2;
  if negb (n.1 =? 1) then Ok (inr n.2)
  else
    s ← read_i32 n.2;
    pos ← wr (ub_pos u) i p.1;
    ns ← wr (ub_n_seq_id u) i n.1;
    ss ← wr (ub_seq_id u) i [dest];
    Ok (inl (s.2, mk_ubatch (b_equal_seqs u) (ub_n_tokens u) (ub_n_seq_tokens u) (ub_n_seqs u)
                    (ub_n_seqs_unq u) (ub_n_pos u) (ub_token u) (ub_embd u) pos ns ss (ub_seq_id_unq u)
                    (ub_seq_idx u) (ub_output u))).

Definition set_unq0 (u : llama_ubatch) (dest : Z) : res llama_ubatch :=
  l ← wr (ub_seq_id_unq u) 0 dest;
  Ok (mk_ubatch (b_equal_seqs u) (ub_n_tokens u) (ub_n_seq_tokens u) (ub_n_seqs u)
        (ub_n_seqs_unq u) (ub_n_pos u) (ub_token u) (ub_embd u) (ub_pos u) (ub_n_seq_id u) (ub_seq_id u) l
        (ub_seq_idx u) (ub_output u)).

(** The branch [dest_seq_id != -1]. *)
Definition read_meta_single (kv : llama_kv_cache) (strm count : nat) (dest : Z) (io : llama_io_read_buffer)
    : res (rd_state * slot_info * bool) :=
  r ← kv_seq_rm kv dest (-1) (-1);
  let kv1 := r.1 in
  b ← ubatch_reserve (llama_batch_allocr_new (Z.to_nat (n_pos_per_embd (k_hparams kv1)))) count 1;
  u0 ← set_unq0 b.2 dest;
  l ← foldB (read_cell_single dest) (io, u0) (seq 0 count);
  match l with
  | inr io' => Ok (kv1, io', slot_none, false)
  | inl (io', u) =>
      si ← find_slot kv1 u false;
      if si_empty si then Ok (kv1, io', si, false)
      else
        kv2 ← apply_ubatch kv1 si u;
        assert_ (si_n_stream si =? 1)%nat ;;
        idxs ← rd (si_idxs si) 0;
        assert_ (length idxs =? count)%nat ;;
        c ← rd (v_cells kv2) strm;
        foldM (fun (_ : unit) i =>
            idx ← rd idxs i;
            p ← cells_pos_get c idx;
            q ← rd (ub_pos u) i;
            assert_ (p =? q) ;;
            h ← cells_seq_has c idx dest;
            assert_ h) tt (seq 0 count) ;;
        Ok (kv2, io', si, true)
  end.

(** The ids of cell [i] in a whole-cache restore. *)
Definition read_ids (kv : llama_kv_cache) (i n : nat) (st : llama_kv_cells * llama_io_read_buffer)
    : res ((llama_kv_cells * llama_io_read_buffer) + (llama_kv_cells * llama_io_read_buffer)) :=
  foldB (fun '(c, io) (_ : nat) =>
      s ← read_i32 io;
      if (s.1 <? 0) || (s.1 >=? Z.of_nat (k_n_seq_max kv)) then Ok (inr (c, s.2))
      else c' ← cells_seq_add c i s.1; Ok (inl (c', s.2))) st (seq 0 n).

Definition read_cell_whole (kv : llama_kv_cache) (st : llama_kv_cells * llama_io_read_buffer) (i : nat)
    : res ((llama_kv_cells * llama_io_read_buffer) + (llama_kv_cells * llama_io_read_buffer)) :=
  let '(c, io) := st in
  p ← read_i32 io;
  n ← read_u32 p.2;
  c1 ← cells_pos_set c i p.1;
  read_ids kv i (Z.to_nat n.1) (c1, n.2).

(** The branch [dest_seq_id == -1]; [clear(true)] empties every stream. *)
Definition read_meta_whole (kv : llama_kv_cache) (strm count : nat) (io : llama_io_read_buffer)
    : res (rd_state * slot_info * bool) :=
  c0 ← rd (v_cells kv) strm;
  if (cells_size c0 <? count)%nat then Ok (kv, io, slot_none, false)
  else
    kv1 ← kv_clear true kv;
    c1 ← rd (v_cells kv1) strm;
    h1 ← rd (v_heads kv1) strm;
    l ← foldB (read_cell_whole kv1) (c1, io) (seq 0 count);
    match l with
    | inr (c2, io') => kv2 ← put_stream kv1 strm h1 c2; Ok (kv2, io', slot_none, false)
    | inl (c2, io') =>
        kv2 ← put_stream kv1 strm 0 c2;
        Ok (kv2, io', mk_slot strm strm [strm] [seq 0 count], true)
    end.

Definition state_read_meta (kv : llama_kv_cache) (strm count : nat) (dest : Z) (io : llama_io_read_buffer)
    : res (rd_state * slot_info * bool) :=
  if negb (dest =? -1) then read_meta_single kv strm count dest io
  else read_meta_whole kv strm count io.

(** [count] rows of [sr] bytes read into the cells of the slot. *)
Definition read_cells (si : slot_info) (count sr base : nat) (t : list Z) (io : llama_io_read_buffer)
    : res (list Z * llama_io_read_buffer) :=
  r ← io_read io (count * sr)%nat;
  if si_is_contiguous si then
    h ← si_head si;
    t' ← tensor_set t ((h + base) * sr)%nat r.1; Ok (t', r.2)
  else
    idxs ← rd (si_idxs si) 0;
    t' ← foldM (fun t i =>
        idx ← rd idxs i;
        tensor_set t ((idx + base) * sr)%nat (take sr (drop (i * sr) r.1))) t (seq 0 count);
    Ok (t', r.2).

(** One tensor whose rows are cells: [None] when its description does not match. *)
Definition read_rows (si : slot_info) (count : nat) (t : list Z) (ty ne : Z) (io : llama_io_read_buffer)
    : res (option (list Z) * llama_io_read_buffer) :=
  a ← read_i32 io;
  if negb (ty =? a.1) then Ok (None, a.2)
  else
    b ← read_u64 a.2;
    let size_row := ggml_row_size ty ne in
    if negb (size_row =? b.1) then Ok (None, b.2)
    else if (count =? 0)%nat then Ok (Some t, b.2)
    else r ← read_cells si count (Z.to_nat size_row) 0 t b.2; Ok (Some r.1, r.2).

Definition read_cols (si : slot_info) (count kv_size : nat) (t : list Z) (ty ne : Z) (io : llama_io_read_buffer)
    : res (option (list Z) * llama_io_read_buffer) :=
  a ← read_i32 io;
  if negb (ty =? a.1) then Ok (None, a.2)
  else
    b ← read_u32 a.2;
    let size_el := ggml_type_size ty in
    if negb (size_el =? b.1) then Ok (None, b.2)
    else
      e ← read_u32 b.2;
      if negb (ne =? e.1) then Ok (None, e.2)
      else if (count =? 0)%nat then Ok (Some t, e.2)
      else
        r ← foldM (fun '(t, io) j => read_cells si count (Z.to_nat size_el) (j * kv_size)%nat t io)
              (t, e.2) (seq 0 (Z.to_nat ne));
        Ok (Some r.1, r.2).

(** The loop over the layers: [put] stores the tensor that [get] describes. *)
Definition read_layers (rd_one : kv_layer -> llama_io_read_buffer -> res (option kv_layer * llama_io_read_buffer))
    (ls : list kv_layer) (io : llama_io_read_buffer) : res (list kv_layer * llama_io_read_buffer * bool) :=
  r ← foldB (fun '(done_, rest, io) (_ : nat) =>
        match rest with
        | [] => Ok (inl (done_, [], io))
        | l :: rest =>
            x ← rd_one l io;
            match x.1 with
            | None => Ok (inr (done_ ++ l :: rest, x.2))
            | Some l' => Ok (inl (done_ ++ [l'], rest, x.2))
            end
        end) ([], ls, io) (seq 0 (length ls));
  match r with
  | inl (done_, _, io') => Ok (done_, io', true)
  | inr (ls', io') => Ok (ls', io', false)
  end.

Definition read_k (kv : llama_kv_cache) (strm count : nat) (si : slot_info) (l : kv_layer)
    (io : llama_io_read_buffer) : res (option kv_layer * llama_io_read_buffer) :=
  ne ← n_embd_k_gqa (k_hparams kv) (l_il l);
  t ← rd (l_k_stream l) strm;
  r ← read_rows si count t (l_k_type l) ne io;
  match r.1 with
  | None => Ok (None, r.2)
  | Some t' => ks ← wr (l_k_stream l) strm t';
               Ok (Some (mk_layer (l_il l) (l_k_ne0 l) (l_v_ne0 l) (l_k_type l) (l_v_type l) ks (l_v_stream l)), r.2)
  end.

Definition read_v (kv : llama_kv_cache) (strm count kv_size : nat) (si : slot_info) (l : kv_layer)
    (io : llama_io_read_buffer) : res (option kv_layer * llama_io_read_buffer) :=
  ne ← n_embd_v_gqa (k_hparams kv) (l_il l);
  t ← rd (l_v_stream l) strm;
  r ← (if negb (k_v_trans kv) then read_rows si count t (l_v_type l) ne io
       else read_cols si count kv_size t (l_v_type l) ne io);
  match r.1 with
  | None => Ok (None, r.2)
  | Some t' => vs ← wr (l_v_stream l) strm t';
               Ok (Some (mk_layer (l_il l) (l_k_ne0 l) (l_v_ne0 l) (l_k_type l) (l_v_type l) (l_k_stream l) vs), r.2)
  end.

Definition state_read_data (kv : llama_kv_cache) (strm count : nat) (si : slot_info) (io : llama_io_read_buffer)
    : res (rd_state * bool) :=
  c ← rd (v_cells kv) strm;
  a ← read_u32 io;
  b ← read_u32 a.2;
  if negb (b.1 =? Z.of_nat (length (layers kv))) then Ok (kv, b.2, false)
  else if (cells_size c <? count)%nat then Ok (kv, b.2, false)
  else if negb (eqb (k_v_trans kv) (negb (a.1 =? 0))) then Ok (kv, b.2, false)
  else
    k ← read_layers (read_k kv strm count si) (layers kv) b.2;
    let '(ls1, io1, ok1) := k in
    let kv1 := with_layers ls1 kv in
    if negb ok1 then Ok (kv1, io1, false)
    else
      v ← read_layers (read_v kv1 strm count (cells_size c) si) ls1 io1;
      let '(ls2, io2, ok2) := v in
      Ok (with_layers ls2 kv1, io2, ok2).

(** The restore of one stream: [inr] when it fails, with the cache after the clean-up and
    the message of the exception. *)
Definition read_stream (seq_id : Z) (st : rd_state) (s : nat) : res (rd_state + (llama_kv_cache * string)) :=
  let '(kv, io) := st in
  n ← read_u32 io;
  if n.1 =? 0 then Ok (inl (kv, n.2))
  else
    strm ← (if seq_id =? -1 then Ok s else k ← zidx seq_id; rd (seq_to_stream kv) k);
    let count := Z.to_nat n.1 in
    m ← state_read_meta kv strm count seq_id n.2;
    let '((kv1, io1), si, ok) := m in
    d ← (if (ok : bool) then state_read_data kv1 strm count si io1 else Ok (kv1, io1, false));
    let '((kv2, io2), ok2) := d in
    if (ok2 : bool) then Ok (inl (kv2, io2))
    else
      kv3 ← (if seq_id =? -1 then kv_clear true kv2 else r ← kv_seq_rm kv2 seq_id (-1) (-1); Ok r.1);
      Ok (inr (kv3, "failed to restore kv cache"%string)).

Definition state_read (kv : llama_kv_cache) (seq_id : Z) (io : llama_io_read_buffer)
    : res (rd_state + (llama_kv_cache * string)) :=
  assert_ ((seq_id =? -1) || ((seq_id >=? 0) && (seq_id <? Z.of_nat (length (seq_to_stream kv))))) ;;
  n ← read_u32 io;
  if negb (n.1 =? Z.of_nat (k_n_stream kv)) then Throw "n_stream mismatch"
  else foldB (read_stream seq_id) (kv, n.2) (seq 0 (k_n_stream kv)).
End data.

(** ** Integers *)

Lemma le_round_trip n z : 0 <= z < 256 ^ Z.of_nat n -> le_val (le_bytes n z) = z.
Proof.
  revert z. induction n as [|n IH]; intros z Hz; cbn [le_bytes le_val]; [change (256 ^ Z.of_nat 0) with 1 in Hz; lia|].
  rewrite Nat2Z.inj_succ, Z.pow_succ_r in Hz by lia.
  rewrite IH; [pose proof (Z.div_mod z 256); lia|].
  split; [apply Z.div_pos; lia|]. apply Z.div_lt_upper_bound; lia.
Qed.

Lemma length_le_bytes n z : length (le_bytes n z) = n.
Proof. revert z. induction n as [|n IH]; intros z; simpl; [done|]. by rewrite IH. Qed.

Lemma to_i32_u32 z : INT32_MIN <= z <= INT32_MAX -> to_i32 (u32 z) = z.
Proof.
  unfold to_i32, u32, INT32_MIN, INT32_MAX. intros Hz.
  rewrite Z.add_mod_idemp_l by lia. rewrite Z.mod_small by lia. lia.
Qed.

(** Reading gives back what was written in front of it. *)
Lemma io_read_app bs rest k : io_read (mk_rbuf (bs ++ rest) k) (length bs) = Ok (bs, mk_rbuf rest (k + length bs)).
Proof.
  unfold io_read. cbn [r_rest r_size_read]. rewrite length_app.
  destruct (Nat.ltb_spec (length bs + length rest) (length bs)); [lia|].
  by rewrite take_app_length, drop_app_length.
Qed.

Lemma read_i32_app z rest k :
  INT32_MIN <= z <= INT32_MAX ->
  read_i32 (mk_rbuf (le_bytes 4 (u32 z) ++ rest) k) = Ok (z, mk_rbuf rest (k + 4)).
Proof.
  intros Hz. unfold read_i32. pose proof (io_read_app (le_bytes 4 (u32 z)) rest k) as H.
  rewrite length_le_bytes in H. rewrite H, bind_ok. cbn [fst snd]. rewrite le_round_trip, to_i32_u32; [done|done|].
  unfold u32. change (256 ^ Z.of_nat 4) with 4294967296. by apply Z.mod_pos_bound.
Qed.

Lemma read_u32_app z rest k :
  0 <= z < 4294967296 -> read_u32 (mk_rbuf (le_bytes 4 z ++ rest) k) = Ok (z, mk_rbuf rest (k + 4)).
Proof.
  intros Hz. unfold read_u32. pose proof (io_read_app (le_bytes 4 z) rest k) as H.
  rewrite length_le_bytes in H. rewrite H, bind_ok. cbn [fst snd]. by rewrite le_round_trip.
Qed.

Lemma io_write_ok io bs :
  (length bs <= w_left io)%nat -> io_write io bs = Ok (mk_wbuf (w_out io ++ bs) (w_left io - length bs)).
Proof. intros H. unfold io_write. destruct (Nat.ltb_spec (w_left io) (length bs)); [lia|done]. Qed.

(** ** The ranges cover the saved cells *)

Section ranges.
Context (size : nat) (saved : nat -> res bool) (sv : nat -> bool).
Context (Hsv : forall i, (i < size)%nat -> saved i = Ok (sv i)).

Lemma range_cells_app l1 l2 : range_cells (l1 ++ l2) = range_cells l1 ++ range_cells l2.
Proof. unfold range_cells. by rewrite map_app, concat_app. Qed.

Lemma range_sum data n :
  foldl (fun n (r : nat * nat) => n + (r.2 - r.1))%nat n data = (n + length (range_cells data))%nat.
Proof.
  revert n. induction data as [|r data IH]; intros n; cbn [foldl]; [unfold range_cells; simpl; lia|].
  rewrite IH. change (r :: data) with ([r] ++ data). rewrite range_cells_app, length_app.
  unfold range_cells at 2. simpl. rewrite app_nil_r, length_seq. lia.
Qed.

(** After [i] cells: the closed ranges and the open one hold exactly the saved cells, and
    the ranges are maximal. *)
Definition range_inv (i : nat) (st : nat * nat * list (nat * nat)) : Prop :=
  let '(count, begin, data) := st in
  count = length (filter (fun k => sv k = true) (seq 0 i)) /\
  Forall (fun r => r.1 < r.2 <= size)%nat data /\
  (if (begin =? size)%nat then range_cells data = filter (fun k => sv k = true) (seq 0 i)
   else (begin < i)%nat /\ range_cells data ++ seq begin (i - begin) = filter (fun k => sv k = true) (seq 0 i)).

Lemma range_step_ok i st : (i < size)%nat -> range_inv i st -> runs (range_step size saved st i) (range_inv (S i)).
Proof.
  destruct st as [[count begin] data]. intros Hi (Ec & Ef & Er). unfold range_step.
  rewrite Hsv, bind_ok by done.
  assert (Eseq : filter (fun k => sv k = true) (seq 0 (S i)) =
                 filter (fun k => sv k = true) (seq 0 i) ++ (if sv i then [i] else [])).
  { rewrite seq_S, list.filter_app. f_equal. cbn [Nat.add]. rewrite list.filter_cons, list.filter_nil. by destruct (sv i). }
  destruct (sv i); [|destruct (Nat.eqb_spec begin size) as [Hb|Hb]; cbn [negb]]; apply runs_ok; unfold range_inv; rewrite Eseq.
  - rewrite length_app. split; [simpl; lia|]. split; [done|].
    destruct (Nat.eqb_spec begin size) as [Hb|Hb].
    + destruct (Nat.eqb_spec i size); [lia|]. split; [lia|].
      replace (S i - i)%nat with 1%nat by lia. by rewrite Er.
    + destruct (Nat.eqb_spec begin size); [done|]. destruct Er as [Hlt Er]. split; [lia|].
      replace (S i - begin)%nat with (S (i - begin)) by lia. rewrite seq_S, app_assoc, Er.
      do 2 f_equal. lia.
  - rewrite app_nil_r. split; [done|]. split; [done|]. by rewrite Hb, Nat.eqb_refl.
  - rewrite app_nil_r. destruct Er as [Hlt Er]. split; [done|]. split.
    + apply Forall_app. split; [done|]. apply Forall_singleton. simpl. lia.
    + rewrite Nat.eqb_refl, range_cells_app, <- Er. unfold range_cells at 2. simpl. by rewrite app_nil_r.
Qed.

Lemma cell_ranges_ok :
  exists data, cell_ranges size saved = Ok (length (range_cells data), data) /\
    range_cells data = filter (fun k => sv k = true) (seq 0 size) /\
    Forall (fun r => r.1 < r.2 <= size)%nat data.
Proof.
  unfold cell_ranges.
  destruct (runs_inv _ _ (runs_for range_inv (range_step size saved) size (0%nat, size, [])
    ltac:(unfold range_inv; by rewrite Nat.eqb_refl)
    ltac:(intros i s; rewrite Nat.add_1_r; apply range_step_ok))) as ([[count begin] data] & -> & (Ec & Ef & Er)).
  rewrite bind_ok.
  set (data' := if negb (begin =? size)%nat then data ++ [(begin, size)] else data).
  assert (H : range_cells data' = filter (fun k => sv k = true) (seq 0 size) /\ Forall (fun r => r.1 < r.2 <= size)%nat data').
  { subst data'. destruct (Nat.eqb_spec begin size) as [Hb|Hb]; cbn [negb]; [done|]. destruct Er as [Hlt Er].
    rewrite range_cells_app. unfold range_cells at 2. simpl. rewrite app_nil_r. split; [done|].
    apply Forall_app. split; [done|]. apply Forall_singleton. simpl. lia. }
  destruct H as [H1 H2]. exists data'. rewrite range_sum, H1, Ec, Nat.add_0_l, Nat.eqb_refl.
  split; [|done]. unfold assert_. by rewrite bind_ok.
Qed.
End ranges.

(** ** Metadata round trip *)

(** The bytes of an integer and of the metadata of a cell. *)
Definition bytes_i32 (z : Z) : list Z := le_bytes 4 (u32 z).
Definition cell_bytes (pos : Z) (ids : list Z) : list Z :=
  bytes_i32 pos ++ le_bytes 4 (Z.of_nat (length ids)) ++ concat (map bytes_i32 ids).

(** The writer with more bytes. *)
Definition put_bytes (io : llama_io_write_buffer) (bs : list Z) : llama_io_write_buffer :=
  mk_wbuf (w_out io ++ bs) (w_left io - length bs).

Lemma put_bytes_app io b1 b2 : put_bytes (put_bytes io b1) b2 = put_bytes io (b1 ++ b2).
Proof. unfold put_bytes. simpl. rewrite app_assoc, length_app. f_equal. lia. Qed.

Lemma put_bytes_nil io : put_bytes io [] = io.
Proof. destruct io. unfold put_bytes. simpl. by rewrite app_nil_r, Nat.sub_0_r. Qed.

Lemma write_i32_ok io z : (4 <= w_left io)%nat -> write_i32 io z = Ok (put_bytes io (bytes_i32 z)).
Proof. intros H. unfold write_i32. by rewrite io_write_ok by (rewrite length_le_bytes; lia). Qed.

Lemma write_u32_ok io z : (4 <= w_left io)%nat -> write_u32 io z = Ok (put_bytes io (le_bytes 4 z)).
Proof. intros H. unfold write_u32. by rewrite io_write_ok by (rewrite length_le_bytes; lia). Qed.

Lemma write_ids_ok ids io :
  (4 * length ids <= w_left io)%nat ->
  foldM write_i32 io ids = Ok (put_bytes io (concat (map bytes_i32 ids))).
Proof.
  revert io. induction ids as [|x ids IH]; intros io Hs; cbn [foldM map concat]; [by rewrite put_bytes_nil|].
  simpl in Hs. rewrite write_i32_ok, bind_ok, IH by (simpl; lia).
  by rewrite put_bytes_app.
Qed.

Lemma length_bytes_ids ids : length (concat (map bytes_i32 ids)) = (4 * length ids)%nat.
Proof. induction ids as [|x ids IH]; [done|]. cbn [map concat]. rewrite length_app, IH. simpl. lia. Qed.

Lemma length_cell_bytes pos ids : length (cell_bytes pos ids) = (8 + 4 * length ids)%nat.
Proof.
  unfold cell_bytes, bytes_i32 at 1. rewrite !length_app, !length_le_bytes, length_bytes_ids. lia.
Qed.

(** With [seq_id = -1] the ids of the cell below [n_seq_max] are written in order. *)
Lemma saved_ids_ok kv c i a :
  kv_wf c -> cells_abs c !! i = Some a -> (k_n_seq_max kv <= LLAMA_MAX_SEQ)%nat ->
  saved_ids kv c (-1) i = Ok (ids_below (a_seq a) (k_n_seq_max kv)).
Proof.
  intros W Ha Hn. apply runs_inv_eq. unfold saved_ids.
  apply (runs_for (fun k acc => acc = ids_below (a_seq a) k)); [done|]. intros k acc Hk ->.
  replace ((Z.of_nat k =? -1) || (-1 =? -1)) with true by lia.
  rewrite (cells_seq_has_ok c i a), bind_ok by (done || lia). apply runs_ok.
  rewrite Nat.add_1_r, ids_below_S. case_bool_decide; [done|by rewrite app_nil_r].
Qed.

Lemma write_cell_meta_ok kv c i a io :
  kv_wf c -> cells_abs c !! i = Some a -> a_pos a <> -1 -> (k_n_seq_max kv <= LLAMA_MAX_SEQ)%nat ->
  let bs := cell_bytes (a_pos a) (ids_below (a_seq a) (k_n_seq_max kv)) in
  (length bs <= w_left io)%nat -> write_cell_meta kv c (-1) io i = Ok (put_bytes io bs).
Proof.
  intros W Ha Hp Hn bs Hs. unfold write_cell_meta.
  rewrite (saved_ids_ok kv c i a), bind_ok, (cells_pos_get_ok c i a), bind_ok by done.
  set (ids := ids_below _ _) in *. unfold bs in Hs. rewrite length_cell_bytes in Hs.
  rewrite write_i32_ok, bind_ok, write_u32_ok, bind_ok by (simpl; lia).
  rewrite write_ids_ok by (simpl; lia). rewrite !put_bytes_app. subst bs. unfold cell_bytes. done.
Qed.

(** The cells [js] of [c] as they are written. *)
Definition saved_cells (c : llama_kv_cells) (js : list nat) : list cell := omap (fun i => cells_abs c !! i) js.

Definition meta_bytes (n_max : nat) (l : list cell) : list Z :=
  concat (map (fun a => cell_bytes (a_pos a) (ids_below (a_seq a) n_max)) l).

Lemma write_cells_ok kv c js io :
  kv_wf c -> (k_n_seq_max kv <= LLAMA_MAX_SEQ)%nat ->
  (forall i, i ∈ js -> exists a, cells_abs c !! i = Some a /\ a_pos a <> -1) ->
  (length (meta_bytes (k_n_seq_max kv) (saved_cells c js)) <= w_left io)%nat ->
  foldM (write_cell_meta kv c (-1)) io js = Ok (put_bytes io (meta_bytes (k_n_seq_max kv) (saved_cells c js))).
Proof.
  intros W Hn. revert io. induction js as [|i js IH]; intros io Hjs Hs; [by rewrite put_bytes_nil|].
  destruct (Hjs i) as (a & Ha & Hp); [by left|].
  assert (Es : saved_cells c (i :: js) = a :: saved_cells c js) by (unfold saved_cells; simpl; by rewrite Ha).
  rewrite Es in *. unfold meta_bytes in *. cbn [map concat foldM] in *. rewrite length_app in Hs.
  rewrite (write_cell_meta_ok kv c i a), bind_ok by (done || lia).
  rewrite IH, put_bytes_app; [done| |unfold put_bytes; cbn [w_left]; lia]. intros j Hj. apply Hjs. by right.
Qed.

Lemma read_ids_ok kv c i a ids rest k :
  kv_wf c -> cells_abs c !! i = Some a -> a_pos a <> -1 -> (k_n_seq_max kv <= LLAMA_MAX_SEQ)%nat ->
  NoDup ids -> (forall x, x ∈ ids -> 0 <= x < Z.of_nat (k_n_seq_max kv) /\ x ∉ a_seq a) ->
  runs (read_ids kv i (length ids) (c, mk_rbuf (concat (map bytes_i32 ids) ++ rest) k)) (fun r =>
    exists c', r = inl (c', mk_rbuf rest (k + 4 * length ids)) /\ c_has_shift c' = c_has_shift c /\
      updated c i (mk_cell (a_pos a) (a_ext a) (a_shift a) (list_to_set ids ∪ a_seq a)) c').
Proof.
  intros W Ha Hp Hn. unfold read_ids. generalize 0%nat at 1 as z0.
  revert c a k W Ha Hp. induction ids as [|x ids IH]; intros c a k W Ha Hp z0 Hnd Hx.
  { cbn. exists c. rewrite Nat.add_0_r. split; [done|]. split; [done|]. split; [done|].
    rewrite union_empty_l_L. rewrite list_insert_id; [done|]. rewrite Ha. by destruct a. }
  apply list.NoDup_cons in Hnd as [Hni Hnd]. destruct (Hx x) as [Hr Hns]; [by left|].
  cbn [length seq foldB map concat]. unfold bytes_i32 at 1. rewrite <- app_assoc, read_i32_app, bind_ok
    by (unfold INT32_MIN, INT32_MAX; unfold LLAMA_MAX_SEQ in Hn; lia). cbn [fst snd].
  replace ((x <? 0) || (x >=? Z.of_nat (k_n_seq_max kv))) with false by lia.
  apply runs_bind, runs_bind. eapply runs_mono; [apply (cells_seq_add_ok c i a x W Ha Hp); [lia|done]|].
  intros c1 [[W1 E1] S1]. apply runs_ok. cbv beta iota.
  assert (A1 : cells_abs c1 !! i = Some (mk_cell (a_pos a) (a_ext a) (a_shift a) ({[x]} ∪ a_seq a))).
  { rewrite E1, list_lookup_insert_eq; [done|by eapply lookup_lt_Some]. }
  eapply runs_mono; [apply (IH c1 _ (k + 4)%nat W1 A1); simpl; [done|done|]|].
  { intros y Hy. destruct (Hx y) as [? ?]; [by right|]. split; [done|]. set_solver. }
  intros r (c2 & -> & S2 & W2 & E2). exists c2. split; [do 3 f_equal; simpl; lia|]. split; [congruence|].
  split; [done|]. rewrite E2, E1, list_insert_insert_eq. simpl. do 2 f_equal. set_solver.
Qed.

(** A cell as it comes back: without its extension and its shift. *)
Definition restored (n_max : nat) (a : cell) : cell :=
  mk_cell (a_pos a) ext_reset 0 (list_to_set (ids_below (a_seq a) n_max)).

Lemma length_ids_below u n : (length (ids_below u n) <= n)%nat.
Proof. unfold ids_below. etransitivity; [apply length_filter|]. by rewrite length_fmap, length_seq. Qed.

Lemma read_cell_ok kv c i a rest k :
  kv_wf c -> cells_abs c !! i = Some cell_empty -> 0 <= a_pos a <= INT32_MAX -> (k_n_seq_max kv <= LLAMA_MAX_SEQ)%nat ->
  let bs := cell_bytes (a_pos a) (ids_below (a_seq a) (k_n_seq_max kv)) in
  runs (read_cell_whole kv (c, mk_rbuf (bs ++ rest) k) i) (fun r =>
    exists c', r = inl (c', mk_rbuf rest (k + length bs)) /\ c_has_shift c' = c_has_shift c /\
      updated c i (restored (k_n_seq_max kv) a) c').
Proof.
  intros W He Hp Hn bs. unfold read_cell_whole, bs. rewrite length_cell_bytes.
  set (ids := ids_below _ _). unfold cell_bytes. rewrite <- !app_assoc. unfold bytes_i32 at 1.
  pose proof (length_ids_below (a_seq a) (k_n_seq_max kv)) as Hl. fold ids in Hl.
  rewrite read_i32_app, bind_ok by (unfold INT32_MIN, INT32_MAX in *; lia). cbn [fst snd].
  rewrite read_u32_app, bind_ok by (unfold LLAMA_MAX_SEQ in Hn; lia). cbn [fst snd]. rewrite Nat2Z.id.
  apply runs_bind. eapply runs_mono; [by apply (cells_pos_set_ok c i cell_empty (a_pos a) W He)|].
  intros c1 [[W1 E1] S1].
  assert (A1 : cells_abs c1 !! i = Some (mk_cell (a_pos a) ext_reset 0 ∅)).
  { rewrite E1, list_lookup_insert_eq; [done|by eapply lookup_lt_Some]. }
  eapply runs_mono; [apply (read_ids_ok kv c1 i _ ids rest (k + 4 + 4) W1 A1); simpl; [lia|done|apply NoDup_ids_below|]|].
  { intros x Hx. apply elem_of_ids_below in Hx as [_ Hx]. split; [done|set_solver]. }
  intros r (c2 & -> & S2 & W2 & E2). exists c2. split; [do 3 f_equal; lia|]. split; [congruence|]. split; [done|].
  rewrite E2, E1, list_insert_insert_eq. simpl. by rewrite union_empty_r_L.
Qed.

(** Reading [l] cells into the first cells of an empty stream. *)
Lemma read_cells_meta_ok kv c l rest k :
  kv_wf c -> cells_abs c = replicate (cells_size c) cell_empty -> (length l <= cells_size c)%nat ->
  (k_n_seq_max kv <= LLAMA_MAX_SEQ)%nat -> Forall (fun a => 0 <= a_pos a <= INT32_MAX) l ->
  runs (foldB (read_cell_whole kv) (c, mk_rbuf (meta_bytes (k_n_seq_max kv) l ++ rest) k) (seq 0 (length l)))
    (fun r => exists c', r = inl (c', mk_rbuf rest (k + length (meta_bytes (k_n_seq_max kv) l))) /\ kv_wf c' /\
       c_has_shift c' = c_has_shift c /\
       cells_abs c' = (restored (k_n_seq_max kv) <$> l) ++ replicate (cells_size c - length l) cell_empty).
Proof.
  intros W He Hl Hn Hall.
  assert (H : forall done_ rest_l c1 k1, l = done_ ++ rest_l -> kv_wf c1 -> c_has_shift c1 = c_has_shift c ->
    cells_abs c1 = (restored (k_n_seq_max kv) <$> done_) ++ replicate (cells_size c - length done_) cell_empty ->
    runs (foldB (read_cell_whole kv) (c1, mk_rbuf (meta_bytes (k_n_seq_max kv) rest_l ++ rest) k1)
            (seq (length done_) (length rest_l)))
      (fun r => exists c', r = inl (c', mk_rbuf rest (k1 + length (meta_bytes (k_n_seq_max kv) rest_l))) /\ kv_wf c' /\
       c_has_shift c' = c_has_shift c /\
       cells_abs c' = (restored (k_n_seq_max kv) <$> l) ++ replicate (cells_size c - length l) cell_empty)).
  { intros done_ rest_l. revert done_. induction rest_l as [|a rest_l IH]; intros done_ c1 k1 -> W1 S1 E1.
    { cbn. exists c1. rewrite Nat.add_0_r, app_nil_r. done. }
    rewrite length_app in Hl. simpl in Hl.
    unfold meta_bytes at 1. cbn [length seq foldB map concat]. rewrite <- app_assoc.
    apply Forall_app in Hall as [_ Hall]. pose proof (Forall_inv Hall) as Ha. cbv beta in Ha.
    assert (Ei : cells_abs c1 !! length done_ = Some cell_empty).
    { rewrite E1, lookup_app_r, length_fmap, Nat.sub_diag by by rewrite length_fmap.
      apply lookup_replicate. split; [done|lia]. }
    apply runs_bind. eapply runs_mono; [by apply (read_cell_ok kv c1 _ a)|].
    intros r (c2 & -> & S2 & W2 & E2). cbv beta iota. eapply runs_mono.
    { assert (El : length (done_ ++ [a]) = S (length done_)) by (rewrite length_app; simpl; lia).
      rewrite <- El. apply (IH (done_ ++ [a]) c2); [by rewrite <- app_assoc|done|congruence|].
      rewrite E2, E1, fmap_app, insert_app_r_alt, length_fmap, Nat.sub_diag, El by by rewrite length_fmap.
      replace (cells_size c - length done_)%nat with (S (cells_size c - S (length done_))) by lia.
      simpl. by rewrite <- app_assoc. }
    intros r (c3 & -> & W3 & S3 & E3). exists c3. split; [|done].
    do 3 f_equal. unfold meta_bytes. cbn [map concat]. rewrite length_app. simpl. lia. }
  apply (H [] l c k); [done|done|done|]. simpl. by rewrite Nat.sub_0_r.
Qed.
