(* ===== verification/KvStateOk.v ===== *)
(** Saving a KV cache and restoring it: the bytes that [state_write] produces, and what
    [state_read] makes of them, for the metadata of the cells and for the rows of the key
    and value tensors (src/llama/llama.cpp/src/llama-kv-cache.cpp). *)

From S2P Require Import Prelude Hparams KvCells KvCellsMachine Memory Batch KvCache KvCacheSeq KvCacheMachine KvState.
Local Open Scope Z_scope.

(** ** Writers and readers *)

(** A writer that appends the bytes [bs] when there is room for them. *)
Definition writes (f : llama_io_write_buffer -> res llama_io_write_buffer) (bs : list Z) : Prop :=
  forall io, (length bs <= w_left io)%nat -> f io = Ok (put_bytes io bs).

(** A reader that takes the bytes [bs] off the front and returns [v]. *)
Definition reads {A} (f : llama_io_read_buffer -> res (A * llama_io_read_buffer)) (bs : list Z) (v : A) : Prop :=
  forall rest k, f (mk_rbuf (bs ++ rest) k) = Ok (v, mk_rbuf rest (k + length bs)).

Lemma writes_ret : writes Ok [].
Proof. intros io _. by rewrite put_bytes_nil. Qed.

Lemma writes_ext f g bs : (forall io, f io = g io) -> writes g bs -> writes f bs.
Proof. intros E H io Hl. by rewrite E, H. Qed.

Lemma writes_bind f g b1 b2 : writes f b1 -> writes g b2 -> writes (fun io => f io ≫= g) (b1 ++ b2).
Proof.
  intros Hf Hg io Hl. rewrite length_app in Hl. rewrite Hf, bind_ok by lia.
  rewrite Hg by (unfold put_bytes; simpl; lia). by rewrite put_bytes_app.
Qed.

Lemma writes_foldM {B} (f : llama_io_write_buffer -> B -> res llama_io_write_buffer) (b : B -> list Z) l :
  (forall x, x ∈ l -> writes (fun io => f io x) (b x)) -> writes (fun io => foldM f io l) (concat (map b l)).
Proof.
  induction l as [|x l IH]; intros H; [apply writes_ret|]. cbn [map concat foldM].
  apply (writes_bind (fun io => f io x) (fun io => foldM f io l)); [apply H; by left|].
  apply IH. intros y Hy. apply H. by right.
Qed.

Lemma writes_io_write bs : writes (fun io => io_write io bs) bs.
Proof. intros io H. by apply io_write_ok. Qed.

Lemma reads_bind {A B} (f : llama_io_read_buffer -> res (A * llama_io_read_buffer))
    (g : A -> llama_io_read_buffer -> res (B * llama_io_read_buffer)) b1 b2 a v :
  reads f b1 a -> reads (g a) b2 v -> reads (fun io => r ← f io; g r.1 r.2) (b1 ++ b2) v.
Proof.
  intros Hf Hg rest k. rewrite <- app_assoc, Hf, bind_ok. cbn [fst snd]. rewrite Hg, length_app.
  do 3 f_equal. lia.
Qed.

Lemma reads_i32 z : INT32_MIN <= z <= INT32_MAX -> reads read_i32 (bytes_i32 z) z.
Proof. intros Hz rest k. unfold bytes_i32. by rewrite read_i32_app, length_le_bytes. Qed.

Lemma reads_u32 z : 0 <= z < 4294967296 -> reads read_u32 (le_bytes 4 z) z.
Proof. intros Hz rest k. by rewrite read_u32_app, length_le_bytes. Qed.

Lemma reads_u64 z : 0 <= z < 18446744073709551616 -> reads read_u64 (le_bytes 8 z) z.
Proof.
  intros Hz rest k. unfold read_u64. pose proof (io_read_app (le_bytes 8 z) rest k) as H.
  rewrite length_le_bytes in *. rewrite H, bind_ok. cbn [fst snd]. by rewrite le_round_trip.
Qed.

Lemma foldB_app {S R A} (f : S -> A -> res (S + R)) s l1 l2 :
  foldB f s (l1 ++ l2) = (r ← foldB f s l1; match r with inl s' => foldB f s' l2 | inr b => Ok (inr b) end).
Proof.
  revert s. induction l1 as [|x l1 IH]; intros s; [done|]. cbn [app foldB]. destruct (f s x) as [[s'|b]|?|?]; [|done..].
  rewrite !bind_ok. apply IH.
Qed.

(** ** Rows of a tensor *)

(** The [i]-th piece of [n] bytes. *)
Definition row (n : nat) (t : list Z) (i : nat) : list Z := take n (drop (i * n) t).

Lemma length_row n t i : ((i + 1) * n <= length t)%nat -> length (row n t i) = n.
Proof. intros H. unfold row. rewrite length_take, length_drop. lia. Qed.

Lemma rows_get n t a k :
  ((a + k) * n <= length t)%nat -> take (k * n) (drop (a * n) t) = concat (map (row n t) (seq a k)).
Proof.
  revert a. induction k as [|k IH]; intros a H; [done|]. cbn [seq map concat].
  rewrite <- (IH (S a)) by lia. unfold row. rewrite <- (take_drop n (take (S k * n) _)), take_take.
  f_equal; [f_equal; lia|]. rewrite skipn_firstn_comm, drop_drop. f_equal; [lia|f_equal; lia].
Qed.

Lemma length_row_list n t l :
  (forall i, i ∈ l -> ((i + 1) * n <= length t)%nat) -> length (concat (map (row n t) l)) = (length l * n)%nat.
Proof.
  induction l as [|i l IH]; intros H; [done|]. cbn [map concat length]. rewrite length_app, length_row, IH; [lia|..].
  - intros j Hj. apply H. by right.
  - apply H. by left.
Qed.

(** Rows of a concatenation of rows. *)
Lemma row_rows n t l rest k i :
  (forall i, i ∈ l -> ((i + 1) * n <= length t)%nat) -> l !! k = Some i ->
  row n (concat (map (row n t) l) ++ rest) k = row n t i.
Proof.
  revert k. induction l as [|j l IH]; intros [|k] H Hk; [done..| |].
  - injection Hk as ->. unfold row at 1. cbn [map concat]. rewrite Nat.mul_0_l, drop_0, <- app_assoc.
    rewrite take_app_length'; [done|]. symmetry. apply length_row, H. by left.
  - cbn [map concat]. rewrite <- (IH k) by (done || (intros; apply H; by right)).
    unfold row at 1 5. rewrite <- app_assoc, drop_app.
    rewrite (length_row n t j) by (apply H; by left). rewrite drop_ge by (rewrite length_row; [lia|apply H; by left]).
    replace (S k * n - n)%nat with (k * n)%nat by lia. done.
Qed.

Lemma row_lookup n t i m : row n t i !! m = if decide (m < n)%nat then t !! (i * n + m)%nat else None.
Proof.
  unfold row. case_decide.
  - by rewrite lookup_take, decide_True, lookup_drop by done.
  - by apply lookup_ge_None, Nat.le_trans with n; [rewrite length_take; lia|lia].
Qed.

(** Rows after [tensor_set] of [c] rows at row [b]. *)
Lemma tensor_set_rows n t b c src :
  length src = (c * n)%nat -> ((b + c) * n <= length t)%nat ->
  exists t', tensor_set t (b * n) src = Ok t' /\ length t' = length t /\
    (forall k, (k < c)%nat -> row n t' (b + k) = row n src k) /\
    (forall k, (k < b \/ b + c <= k)%nat -> row n t' k = row n t k).
Proof.
  intros Hs Hb. unfold tensor_set. destruct (Nat.eqb_spec (length src) 0) as [E|Hne].
  - exists t. split; [done|]. split; [done|]. split; [|done]. intros k Hk.
    assert (n = 0)%nat as -> by (destruct n, c; simpl in *; lia). done.
  - rewrite (proj2 (Nat.leb_le _ _)) by lia. unfold assert_. rewrite bind_ok. eexists. split; [reflexivity|].
    assert (Hl : length (take (b * n) t) = (b * n)%nat) by (rewrite length_take; lia).
    assert (H : forall x, (take (b * n) t ++ src ++ drop (b * n + length src) t) !! x =
      if decide (b * n <= x < (b + c) * n)%nat then src !! (x - b * n)%nat else t !! x).
    { intros x. destruct (decide (x < b * n)%nat) as [Hx|Hx].
      { rewrite decide_False, lookup_app_l, lookup_take by lia. by rewrite decide_True by lia. }
      rewrite lookup_app_r, Hl by lia. case_decide as Hc.
      - by rewrite lookup_app_l by lia.
      - rewrite lookup_app_r, lookup_drop by lia. f_equal. lia. }
    split; [rewrite !length_app, length_drop; lia|].
    split; intros k Hk; apply list_eq; intros m; rewrite !row_lookup; (case_decide; [|done]); rewrite H.
    + rewrite decide_True by nia. f_equal. lia.
    + rewrite decide_False; [done|]. nia.
Qed.

(** ** Ranges of rows *)

(** The ranges [data] moved by [b] rows lie inside the tensor. *)
Definition ranges_fit (n : nat) (t : list Z) (b : nat) (data : list (nat * nat)) : Prop :=
  Forall (fun r => r.1 < r.2 /\ (r.2 + b) * n <= length t)%nat data.

Lemma rows_shift n t b a k : map (fun i => row n t (i + b)) (seq a k) = map (row n t) (seq (a + b) k).
Proof. revert a. induction k as [|k IH]; intros a; [done|]. cbn [seq map]. by rewrite IH. Qed.

Lemma writes_range n t b r :
  (r.1 < r.2)%nat -> ((r.2 + b) * n <= length t)%nat ->
  writes (fun io => io_write_tensor io t ((r.1 + b) * n)%nat ((r.2 - r.1) * n)%nat)
    (concat (map (fun i => row n t (i + b)) (seq r.1 (r.2 - r.1)))).
Proof.
  intros Hr Hb io Hl.
  assert (E : concat (map (fun i => row n t (i + b)) (seq r.1 (r.2 - r.1))) =
              take ((r.2 - r.1) * n) (drop ((r.1 + b) * n) t)).
  { rewrite rows_get by nia. by rewrite rows_shift. }
  rewrite E in *. unfold io_write_tensor. rewrite length_take, length_drop in Hl.
  destruct (Nat.ltb_spec (w_left io) ((r.2 - r.1) * n)); [nia|]. unfold tensor_get.
  destruct (Nat.eqb_spec ((r.2 - r.1) * n) 0) as [E0|_].
  - rewrite E0, bind_ok, take_0. by rewrite put_bytes_nil, Nat.sub_0_r, app_nil_r; destruct io.
  - rewrite (proj2 (Nat.leb_le _ _)) by nia. unfold assert_. rewrite !bind_ok. unfold put_bytes.
    do 2 f_equal. rewrite length_take, length_drop. nia.
Qed.

Lemma writes_ranges f n t b data :
  ranges_fit n t b data ->
  (forall io r, f io r = io_write_tensor io t ((r.1 + b) * n)%nat ((r.2 - r.1) * n)%nat) ->
  writes (fun io => foldM f io data)
    (concat (map (fun i => row n t (i + b)) (range_cells data))).
Proof.
  intros H Hf.
  assert (E : concat (map (fun i => row n t (i + b)) (range_cells data)) =
     concat (map (fun r => concat (map (fun i => row n t (i + b)) (seq r.1 (r.2 - r.1)))) data)).
  { unfold range_cells. clear H Hf. induction data as [|r data IH]; [done|]. cbn [map concat].
    by rewrite map_app, concat_app, IH. }
  rewrite E. apply writes_foldM. intros r Hr. unfold ranges_fit in H. rewrite Forall_forall in H.
  destruct (H r) as [H1 H2]; [by apply list_elem_of_In|].
  intros io Hl. rewrite Hf. by apply writes_range.
Qed.

Lemma rows_base_0 n t l : map (fun i => row n t (i + 0)) l = map (row n t) l.
Proof. apply map_ext. intros i. by rewrite Nat.add_0_r. Qed.

(** ** The format of a stream *)

Section format.
Context (ggml_row_size : Z -> Z -> Z) (ggml_type_size : Z -> Z).
(** Sizes in bytes fit the integers in which they are written. *)
Context (Hrs : forall ty ne, 0 <= ggml_row_size ty ne < 18446744073709551616).
Context (Hts : forall ty, 0 <= ggml_type_size ty < 4294967296).

Definition rows_fmt (t : list Z) (ty ne : Z) (js : list nat) : list Z :=
  bytes_i32 ty ++ le_bytes 8 (ggml_row_size ty ne) ++
  concat (map (row (Z.to_nat (ggml_row_size ty ne)) t) js).

(** Row [j] of a transposed tensor. *)
Definition col_fmt (t : list Z) (se kv_size : nat) (js : list nat) (j : nat) : list Z :=
  concat (map (fun i => row se t (i + j * kv_size)) js).
Definition cols_fmt (t : list Z) (ty ne : Z) (kv_size : nat) (js : list nat) : list Z :=
  bytes_i32 ty ++ le_bytes 4 (ggml_type_size ty) ++ le_bytes 4 ne ++
  concat (map (col_fmt t (Z.to_nat (ggml_type_size ty)) kv_size js) (seq 0 (Z.to_nat ne))).

Lemma writes_rows t ty ne data :
  ranges_fit (Z.to_nat (ggml_row_size ty ne)) t 0 data ->
  writes (write_rows ggml_row_size t ty ne data) (rows_fmt t ty ne (range_cells data)).
Proof.
  intros H. unfold write_rows, rows_fmt.
  apply (writes_bind (fun io => write_i32 io ty)); [apply writes_io_write|].
  apply (writes_bind (fun io => write_u64 io _)); [apply writes_io_write|].
  rewrite <- rows_base_0. apply writes_ranges; [done|]. intros io r. by rewrite Nat.add_0_r.
Qed.

Lemma writes_cols t ty ne kv_size data :
  (forall j, (j < Z.to_nat ne)%nat -> ranges_fit (Z.to_nat (ggml_type_size ty)) t (j * kv_size) data) ->
  writes (write_cols ggml_type_size t ty ne kv_size data) (cols_fmt t ty ne kv_size (range_cells data)).
Proof.
  intros H. unfold write_cols, cols_fmt.
  apply (writes_bind (fun io => write_i32 io ty)); [apply writes_io_write|].
  apply (writes_bind (fun io => write_u32 io _)); [apply writes_io_write|].
  apply (writes_bind (fun io => write_u32 io ne)); [apply writes_io_write|].
  apply writes_foldM. intros j [_ Hj]%elem_of_seq. by apply writes_ranges; [apply H|].
Qed.

(** ** Reading rows back *)

(** The slot of a whole restore: the first [count] cells of a stream. *)
Definition front (strm count : nat) : slot_info := mk_slot strm strm [strm] [seq 0 count].

Lemma front_ok strm count : (0 < count)%nat -> si_is_contiguous (front strm count) = true /\ si_head (front strm count) = Ok 0%nat.
Proof.
  intros H. destruct count as [|count]; [lia|]. split; [|done].
  unfold si_is_contiguous, front. cbn [si_idxs seq length Nat.eqb andb]. rewrite length_seq.
  by rewrite bool_decide_eq_true_2.
Qed.

(** [count] pieces of [n] bytes read into the rows from [base]: rows of another tensor. *)
Lemma read_cells_rows strm count n base t (rows : list (list Z)) rest k :
  (0 < count)%nat -> length rows = count -> Forall (fun r => length r = n) rows -> ((base + count) * n <= length t)%nat ->
  exists t', read_cells (front strm count) count n base t (mk_rbuf (concat rows ++ rest) k) =
      Ok (t', mk_rbuf rest (k + length (concat rows))) /\ length t' = length t /\
    (forall m r, rows !! m = Some r -> row n t' (base + m) = r) /\
    (forall m, (m < base \/ base + count <= m)%nat -> row n t' m = row n t m).
Proof.
  intros Hc Hl Hr Hb.
  assert (Hlen : length (concat rows) = (count * n)%nat).
  { rewrite <- Hl. clear -Hr. induction rows as [|r rows IH]; [done|]. cbn [concat length]. rewrite length_app.
    rewrite (Forall_inv Hr), IH by (by apply Forall_inv_tail in Hr). lia. }
  destruct (tensor_set_rows n t base count (concat rows) Hlen Hb) as (t' & E & L & H1 & H2).
  exists t'. split; [|split; [done|split; [|done]]].
  - unfold read_cells. rewrite <- Hlen, io_read_app, bind_ok. cbn [fst snd].
    destruct (front_ok strm count Hc) as [-> ->]. rewrite bind_ok. cbn [Nat.add]. by rewrite E.
  - intros m r Hm. rewrite H1 by (apply lookup_lt_Some in Hm; lia).
    clear -Hr Hm. revert m Hm. induction rows as [|r0 rows IH]; intros m Hm; [done|].
    pose proof (Forall_inv Hr) as H0. cbv beta in H0. destruct m as [|m].
    + injection Hm as ->. unfold row. cbn [concat]. rewrite Nat.mul_0_l, drop_0, take_app_length'; done.
    + cbn [concat]. rewrite <- (IH (Forall_inv_tail Hr) m Hm). unfold row. rewrite drop_app, H0.
      rewrite (drop_ge r0) by lia. replace (S m * n - n)%nat with (m * n)%nat by lia. done.
Qed.

(** The rows [js] of [t0] came to the front of [t']. *)
Definition rows_moved (n : nat) (js : list nat) (t0 t' : list Z) : Prop :=
  forall m i, js !! m = Some i -> row n t' m = row n t0 i.

(** The same for every row of transposed tensors with [size0] and [size] columns. *)
Definition cols_moved (n ne size0 size : nat) (js : list nat) (t0 t' : list Z) : Prop :=
  forall j m i, (j < ne)%nat -> js !! m = Some i -> row n t' (m + j * size) = row n t0 (i + j * size0).

Lemma rows_lengths n t b js :
  (forall i, i ∈ js -> ((i + b + 1) * n <= length t)%nat) ->
  Forall (fun r => length r = n) (map (fun i => row n t (i + b)) js).
Proof.
  intros H. rewrite Forall_forall. intros r Hr. apply in_map_iff in Hr as (i & <- & Hi).
  apply length_row, H. by apply list_elem_of_In.
Qed.

Lemma read_rows_ok strm js t0 t ty ne rest k :
  (0 < length js)%nat -> INT32_MIN <= ty <= INT32_MAX ->
  (forall i, i ∈ js -> ((i + 1) * Z.to_nat (ggml_row_size ty ne) <= length t0)%nat) ->
  (length js * Z.to_nat (ggml_row_size ty ne) <= length t)%nat ->
  exists t', read_rows ggml_row_size (front strm (length js)) (length js) t ty ne
        (mk_rbuf (rows_fmt t0 ty ne js ++ rest) k) =
      Ok (Some t', mk_rbuf rest (k + length (rows_fmt t0 ty ne js))) /\
    length t' = length t /\ rows_moved (Z.to_nat (ggml_row_size ty ne)) js t0 t'.
Proof.
  intros Hc Hty H0 Ht. unfold read_rows, rows_fmt. rewrite <- !app_assoc.
  rewrite (reads_i32 ty Hty), bind_ok. cbn [fst snd]. rewrite Z.eqb_refl. cbn [negb].
  rewrite (reads_u64 _ (Hrs ty ne)), bind_ok. cbn [fst snd]. rewrite Z.eqb_refl. cbn [negb].
  rewrite (proj2 (Nat.eqb_neq _ 0)) by lia. set (n := Z.to_nat _) in *.
  destruct (read_cells_rows strm (length js) n 0 t (map (row n t0) js) rest
    (k + length (bytes_i32 ty) + length (le_bytes 8 (ggml_row_size ty ne))) Hc) as (t' & E & L & H1 & _).
  - by rewrite length_map.
  - rewrite <- rows_base_0. apply rows_lengths. intros i Hi. rewrite Nat.add_0_r. by apply H0.
  - done.
  - exists t'. rewrite E, bind_ok. cbn [fst snd]. rewrite !length_app. split; [do 3 f_equal; lia|]. split; [done|].
    intros m i Hm. apply (H1 m). change (map (row n t0) js) with (row n t0 <$> js). by rewrite list_lookup_fmap, Hm.
Qed.

Lemma read_cols_ok strm js t0 t ty ne size0 size rest k :
  (0 < length js <= size)%nat -> INT32_MIN <= ty <= INT32_MAX -> 0 <= ne < 4294967296 ->
  (forall i, i ∈ js -> (i < size0)%nat) ->
  (Z.to_nat ne * size0 * Z.to_nat (ggml_type_size ty) <= length t0)%nat ->
  (Z.to_nat ne * size * Z.to_nat (ggml_type_size ty) <= length t)%nat ->
  exists t', read_cols ggml_type_size (front strm (length js)) (length js) size t ty ne
        (mk_rbuf (cols_fmt t0 ty ne size0 js ++ rest) k) =
      Ok (Some t', mk_rbuf rest (k + length (cols_fmt t0 ty ne size0 js))) /\
    length t' = length t /\ cols_moved (Z.to_nat (ggml_type_size ty)) (Z.to_nat ne) size0 size js t0 t'.
Proof.
  intros Hc Hty Hne Hjs H0 Ht. unfold read_cols, cols_fmt. rewrite <- !app_assoc.
  rewrite (reads_i32 ty Hty), bind_ok. cbn [fst snd]. rewrite Z.eqb_refl. cbn [negb].
  rewrite (reads_u32 _ (Hts ty)), bind_ok. cbn [fst snd]. rewrite Z.eqb_refl. cbn [negb].
  rewrite (reads_u32 _ Hne), bind_ok. cbn [fst snd]. rewrite Z.eqb_refl. cbn [negb].
  rewrite (proj2 (Nat.eqb_neq _ 0)) by lia. set (n := Z.to_nat (ggml_type_size ty)) in *.
  set (N := Z.to_nat ne) in *. set (k0 := (k + _ + _ + _)%nat).
  assert (G : forall d j t1 k1, (j + d = N)%nat -> length t1 = length t ->
    (forall j' m i, (j' < j)%nat -> js !! m = Some i -> row n t1 (m + j' * size) = row n t0 (i + j' * size0)) ->
    exists t', foldM (fun '(t, io) j => read_cells (front strm (length js)) (length js) n (j * size)%nat t io)
        (t1, mk_rbuf (concat (map (col_fmt t0 n size0 js) (seq j d)) ++ rest) k1) (seq j d) =
        Ok (t', mk_rbuf rest (k1 + length (concat (map (col_fmt t0 n size0 js) (seq j d))))) /\
      length t' = length t /\ cols_moved n N size0 size js t0 t').
  { induction d as [|d IH]; intros j t1 k1 Hj Hl Hd.
    { exists t1. cbn. rewrite Nat.add_0_r. split; [done|]. split; [done|]. intros j' m i Hj'. apply Hd. lia. }
    cbn [seq foldM map concat]. rewrite <- app_assoc.
    destruct (read_cells_rows strm (length js) n (j * size) t1 (map (fun i => row n t0 (i + j * size0)) js)
      (concat (map (col_fmt t0 n size0 js) (seq (S j) d)) ++ rest) k1) as (t2 & E & L & H1 & H2).
    - lia.
    - by rewrite length_map.
    - apply rows_lengths. intros i Hi. specialize (Hjs i Hi).
      etransitivity; [|exact H0]. apply Nat.mul_le_mono_r. nia.
    - rewrite Hl. etransitivity; [|exact Ht]. apply Nat.mul_le_mono_r. nia.
    - unfold col_fmt at 1. rewrite E, bind_ok.
      destruct (IH (S j) t2 (k1 + length (concat (map (fun i => row n t0 (i + j * size0)) js)))%nat) as (t' & E' & L' & H').
      + lia.
      + by rewrite L.
      + intros j' m i Hj' Hm. pose proof (lookup_lt_Some _ _ _ Hm) as Hlt.
        destruct (decide (j' = j)) as [->|Hneq].
        * rewrite Nat.add_comm. apply H1. change (map ?f js) with (f <$> js). by rewrite list_lookup_fmap, Hm.
        * rewrite H2 by nia. apply Hd; [lia|done].
      + exists t'. rewrite E', length_app. split; [|done].
        change (concat (map (fun i => row n t0 (i + j * size0)) js)) with (col_fmt t0 n size0 js j). do 3 f_equal. lia. }
  destruct (G N 0%nat t k0 ltac:(lia) eq_refl ltac:(lia)) as (t' & E & L & H).
  exists t'. rewrite E, bind_ok. cbn [fst snd]. rewrite !length_app. unfold k0. split; [|done]. do 3 f_equal. lia.
Qed.
End format.

(** ** The tensors of a cache *)

Section tensors.
Context (ggml_row_size : Z -> Z -> Z) (ggml_type_size : Z -> Z).
Context (Hrs : forall ty ne, 0 <= ggml_row_size ty ne < 18446744073709551616).
Context (Hts : forall ty, 0 <= ggml_type_size ty < 4294967296).
Abbreviation rsz ty ne := (Z.to_nat (ggml_row_size ty ne)).
Abbreviation tsz ty := (Z.to_nat (ggml_type_size ty)).

(** The tensors of a layer hold [size] cells per stream. *)
Record layer_fits (kv : llama_kv_cache) (size : nat) (l : kv_layer) (nk nv : Z) : Prop := {
  lf_k  : n_embd_k_gqa (k_hparams kv) (l_il l) = Ok nk;
  lf_v  : n_embd_v_gqa (k_hparams kv) (l_il l) = Ok nv;
  lf_ty : INT32_MIN <= l_k_type l <= INT32_MAX /\ INT32_MIN <= l_v_type l <= INT32_MAX;
  lf_n  : length (l_k_stream l) = k_n_stream kv /\ length (l_v_stream l) = k_n_stream kv;
  lf_kt : forall s t, l_k_stream l !! s = Some t -> (size * rsz (l_k_type l) nk <= length t)%nat;
  lf_vt : forall s t, l_v_stream l !! s = Some t ->
            if k_v_trans kv then (Z.to_nat nv * size * tsz (l_v_type l) <= length t)%nat
            else (size * rsz (l_v_type l) nv <= length t)%nat
}.

Definition tensors_fit (kv : llama_kv_cache) (size : nat) : Prop :=
  Z.of_nat (length (layers kv)) < 4294967296 /\
  Forall (fun l => exists nk nv, layer_fits kv size l nk nv) (layers kv).

Lemma gqa_range h il n : n_embd_v_gqa h il = Ok n -> 0 <= n < 4294967296.
Proof.
  unfold n_embd_v_gqa. destruct (n_head_kv h il) as [a| |]; [|done..]. rewrite bind_ok. intros [= <-].
  unfold u32. by apply Z.mod_pos_bound.
Qed.

(** The bytes of the keys and of the values of a layer in stream [s]. *)
Definition k_fmt (kv : llama_kv_cache) (s : nat) (js : list nat) (l : kv_layer) : list Z :=
  match n_embd_k_gqa (k_hparams kv) (l_il l), l_k_stream l !! s with
  | Ok nk, Some t => rows_fmt ggml_row_size t (l_k_type l) nk js
  | _, _ => []
  end.
Definition v_fmt (kv : llama_kv_cache) (size s : nat) (js : list nat) (l : kv_layer) : list Z :=
  match n_embd_v_gqa (k_hparams kv) (l_il l), l_v_stream l !! s with
  | Ok nv, Some t => if k_v_trans kv then cols_fmt ggml_type_size t (l_v_type l) nv size js
                     else rows_fmt ggml_row_size t (l_v_type l) nv js
  | _, _ => []
  end.
Definition data_fmt (kv : llama_kv_cache) (size s : nat) (js : list nat) : list Z :=
  le_bytes 4 (if k_v_trans kv then 1 else 0) ++ le_bytes 4 (Z.of_nat (length (layers kv))) ++
  concat (map (k_fmt kv s js) (layers kv)) ++ concat (map (v_fmt kv size s js) (layers kv)).

Lemma ranges_fit_size n t size b data :
  Forall (fun r => r.1 < r.2 <= size)%nat data -> ((size + b) * n <= length t)%nat -> ranges_fit n t b data.
Proof.
  intros H Ht. unfold ranges_fit. eapply list_relations.list.Forall_impl; [exact H|]. intros r [H1 H2].
  split; [done|]. etransitivity; [|exact Ht]. apply Nat.mul_le_mono_r. lia.
Qed.

Lemma writes_data kv size s data c :
  v_cells kv !! s = Some c -> cells_size c = size -> tensors_fit kv size -> (s < k_n_stream kv)%nat ->
  Forall (fun r => r.1 < r.2 <= size)%nat data ->
  writes (state_write_data ggml_row_size ggml_type_size kv s data) (data_fmt kv size s (range_cells data)).
Proof.
  intros Hc Hsz [_ Hl] Hs Hd. rewrite Forall_forall in Hl. unfold state_write_data.
  eapply writes_ext; [intros io; rewrite (rd_ok _ _ _ Hc), bind_ok; reflexivity|]. rewrite Hsz.
  apply (writes_bind (fun io => write_u32 io _)); [apply writes_io_write|].
  apply (writes_bind (fun io => write_u32 io _)); [apply writes_io_write|].
  apply (writes_bind (fun io => foldM _ io (layers kv))); apply writes_foldM; intros l Hin%list_elem_of_In;
    destruct (Hl l Hin) as (nk & nv & [Hk Hv _ [Lk Lv] Tk Tv]).
  - destruct (lookup_lt_is_Some_2 (l_k_stream l) s) as [t Ht]; [lia|].
    eapply writes_ext; [intros io; rewrite Hk, bind_ok, (rd_ok _ _ _ Ht), bind_ok; reflexivity|].
    unfold k_fmt. rewrite Hk, Ht. apply writes_rows, (ranges_fit_size _ _ size); [done|].
    rewrite Nat.add_0_r. by apply (Tk s).
  - destruct (lookup_lt_is_Some_2 (l_v_stream l) s) as [t Ht]; [lia|]. specialize (Tv s t Ht).
    eapply writes_ext; [intros io; rewrite Hv, bind_ok, (rd_ok _ _ _ Ht), bind_ok; reflexivity|].
    unfold v_fmt. rewrite Hv, Ht. destruct (k_v_trans kv); cbn [negb].
    + apply writes_cols. intros j Hj. apply (ranges_fit_size _ _ size); [done|].
      etransitivity; [|exact Tv]. apply Nat.mul_le_mono_r. nia.
    + apply writes_rows, (ranges_fit_size _ _ size); [done|]. by rewrite Nat.add_0_r.
Qed.

(** A layer [l] of the target after its stream [s] was restored from the layer [l0]. *)
Record layer_k_back (kv0 : llama_kv_cache) (s : nat) (js : list nat) (l0 l l' : kv_layer) : Prop := {
  kb_same : exists ks, l' = mk_layer (l_il l) (l_k_ne0 l) (l_v_ne0 l) (l_k_type l) (l_v_type l) ks (l_v_stream l);
  kb_rest : forall s', s' <> s -> l_k_stream l' !! s' = l_k_stream l !! s';
  kb_rows : forall nk t0 t', n_embd_k_gqa (k_hparams kv0) (l_il l0) = Ok nk ->
              l_k_stream l0 !! s = Some t0 -> l_k_stream l' !! s = Some t' ->
              rows_moved (rsz (l_k_type l0) nk) js t0 t';
  kb_len  : map length (l_k_stream l') = map length (l_k_stream l)
}.
Record layer_v_back (kv0 : llama_kv_cache) (size0 size s : nat) (js : list nat) (l0 l l' : kv_layer) : Prop := {
  vb_same : exists vs, l' = mk_layer (l_il l) (l_k_ne0 l) (l_v_ne0 l) (l_k_type l) (l_v_type l) (l_k_stream l) vs;
  vb_rest : forall s', s' <> s -> l_v_stream l' !! s' = l_v_stream l !! s';
  vb_rows : forall nv t0 t', n_embd_v_gqa (k_hparams kv0) (l_il l0) = Ok nv ->
              l_v_stream l0 !! s = Some t0 -> l_v_stream l' !! s = Some t' ->
              if k_v_trans kv0 then cols_moved (tsz (l_v_type l0)) (Z.to_nat nv) size0 size js t0 t'
              else rows_moved (rsz (l_v_type l0) nv) js t0 t';
  vb_len  : map length (l_v_stream l') = map length (l_v_stream l)
}.

Lemma read_layers_ok (rd_one : kv_layer -> llama_io_read_buffer -> res (option kv_layer * llama_io_read_buffer))
    (fmt : kv_layer -> list Z) (P : kv_layer -> kv_layer -> kv_layer -> Prop) ls0 ls rest k :
  Forall2 (fun l0 l => forall rest k, exists l', rd_one l (mk_rbuf (fmt l0 ++ rest) k) =
     Ok (Some l', mk_rbuf rest (k + length (fmt l0))) /\ P l0 l l') ls0 ls ->
  exists ls', read_layers rd_one ls (mk_rbuf (concat (map fmt ls0) ++ rest) k) =
      Ok (ls', mk_rbuf rest (k + length (concat (map fmt ls0))), true) /\ Forall3 P ls0 ls ls'.
Proof.
  intros H. unfold read_layers.
  match goal with |- context [foldB ?b _ _] => set (body := b) end.
  assert (G : forall done_ a k, exists ls',
    foldB body (done_, ls, mk_rbuf (concat (map fmt ls0) ++ rest) k) (seq a (length ls)) =
      Ok (inl (done_ ++ ls', [], mk_rbuf rest (k + length (concat (map fmt ls0))))) /\ Forall3 P ls0 ls ls').
  { clear k. induction H as [|l0 l ls0 ls Hl H IH]; intros done_ a k.
    - exists []. cbn. rewrite app_nil_r, Nat.add_0_r. split; [done|constructor].
    - cbn [map concat length seq foldB]. rewrite <- app_assoc.
      destruct (Hl (concat (map fmt ls0) ++ rest) k) as (l' & E & HP). unfold body at 2. cbv beta iota. rewrite E, bind_ok. cbn [fst snd].
      destruct (IH (done_ ++ [l']) (S a) (k + length (fmt l0))%nat) as (ls' & E' & H').
      exists (l' :: ls'). rewrite bind_ok, E', <- app_assoc, length_app. split; [|by constructor].
      do 4 f_equal. lia. }
  destruct (G [] 0%nat k) as (ls' & E & H'). exists ls'. rewrite E, bind_ok. by split.
Qed.

(** The same layer of two caches. *)
Definition layer_like (l0 l : kv_layer) : Prop :=
  l_il l = l_il l0 /\ l_k_type l = l_k_type l0 /\ l_v_type l = l_v_type l0.

(** Two caches whose states are interchangeable. *)
Record same_shape (kv0 kv : llama_kv_cache) : Prop := {
  ss_hp     : k_hparams kv = k_hparams kv0;
  ss_trans  : k_v_trans kv = k_v_trans kv0;
  ss_max    : k_n_seq_max kv = k_n_seq_max kv0;
  ss_stream : k_n_stream kv = k_n_stream kv0;
  ss_map    : seq_to_stream kv = seq_to_stream kv0;
  ss_layers : Forall2 layer_like (layers kv0) (layers kv)
}.

Section layer_back.
Context (kv0 kv : llama_kv_cache) (size0 size s : nat) (js : list nat).
Context (Hhp : k_hparams kv = k_hparams kv0) (Htr : k_v_trans kv = k_v_trans kv0) (Hst : k_n_stream kv = k_n_stream kv0).
Context (Hs : (s < k_n_stream kv0)%nat) (Hjs : forall i, i ∈ js -> (i < size0)%nat) (Hc : (0 < length js <= size)%nat).

Lemma insert_lengths {A} (l : list (list A)) i x t :
  l !! i = Some t -> length x = length t -> map length (<[i := x]> l) = map length l.
Proof.
  intros Hi Hx. change (length <$> <[i := x]> l = length <$> l).
  rewrite list_fmap_insert, Hx, list_insert_id; [done|]. by rewrite list_lookup_fmap, Hi.
Qed.

Lemma read_k_ok l0 l nk nv nk' nv' rest k :
  layer_fits kv0 size0 l0 nk nv -> layer_fits kv size l nk' nv' -> layer_like l0 l ->
  exists l', read_k ggml_row_size kv s (length js) (front s (length js)) l (mk_rbuf (k_fmt kv0 s js l0 ++ rest) k) =
      Ok (Some l', mk_rbuf rest (k + length (k_fmt kv0 s js l0))) /\ layer_k_back kv0 s js l0 l l'.
Proof.
  intros [K0 _ [Ty _] [N0 _] T0 _] [K1 _ _ [N1 _] T1 _] (Eil & Ek & _).
  assert (nk' = nk) as -> by (rewrite Hhp, Eil in K1; congruence).
  destruct (lookup_lt_is_Some_2 (l_k_stream l0) s) as [t0 Ht0]; [lia|].
  destruct (lookup_lt_is_Some_2 (l_k_stream l) s) as [t Ht]; [lia|].
  specialize (T0 s t0 Ht0). specialize (T1 s t Ht). rewrite Ek in T1.
  destruct (read_rows_ok ggml_row_size Hrs s js t0 t (l_k_type l0) nk rest k) as (t' & E & L & M); try done.
  - lia.
  - intros i Hi. specialize (Hjs i Hi). etransitivity; [|exact T0]. apply Nat.mul_le_mono_r. lia.
  - etransitivity; [|exact T1]. apply Nat.mul_le_mono_r. lia.
  - eexists. unfold k_fmt, read_k. rewrite K0, Ht0, K1, bind_ok, (rd_ok _ _ _ Ht), bind_ok.
    rewrite <- Ek in E at 1. rewrite E, bind_ok. cbn [fst snd].
    rewrite wr_ok, bind_ok by (by eapply lookup_lt_Some). split; [reflexivity|]. split; cbn.
    + by eexists.
    + intros s' Hne. by rewrite list_lookup_insert_ne.
    + intros nk1 t1 t1' K Ht1 Ht1'. rewrite list_lookup_insert_eq in Ht1' by (by eapply lookup_lt_Some).
      assert (nk1 = nk) as -> by congruence. assert (t1 = t0) as -> by congruence. by injection Ht1' as <-.
    + by eapply insert_lengths.
Qed.

Lemma read_v_ok l0 l nk nv nk' nv' ks rest k :
  layer_fits kv0 size0 l0 nk nv -> layer_fits kv size l nk' nv' -> layer_like l0 l ->
  let l1 := mk_layer (l_il l) (l_k_ne0 l) (l_v_ne0 l) (l_k_type l) (l_v_type l) ks (l_v_stream l) in
  exists l', read_v ggml_row_size ggml_type_size kv s (length js) size (front s (length js)) l1
        (mk_rbuf (v_fmt kv0 size0 s js l0 ++ rest) k) =
      Ok (Some l', mk_rbuf rest (k + length (v_fmt kv0 size0 s js l0))) /\ layer_v_back kv0 size0 size s js l0 l1 l'.
Proof.
  intros [_ K0 [_ Ty] [_ N0] _ T0] [_ K1 _ [_ N1] _ T1] (Eil & _ & Ev).
  assert (nv' = nv) as -> by (rewrite Hhp, Eil in K1; congruence).
  pose proof (gqa_range _ _ _ K0) as Hnv.
  destruct (lookup_lt_is_Some_2 (l_v_stream l0) s) as [t0 Ht0]; [lia|].
  destruct (lookup_lt_is_Some_2 (l_v_stream l) s) as [t Ht]; [lia|].
  specialize (T0 s t0 Ht0). specialize (T1 s t Ht). rewrite Htr, Ev in T1. cbv zeta.
  assert (G : exists t', (if negb (k_v_trans kv) then read_rows ggml_row_size (front s (length js)) (length js) t (l_v_type l) nv
                          else read_cols ggml_type_size (front s (length js)) (length js) size t (l_v_type l) nv)
       (mk_rbuf (v_fmt kv0 size0 s js l0 ++ rest) k) = Ok (Some t', mk_rbuf rest (k + length (v_fmt kv0 size0 s js l0))) /\
     length t' = length t /\
     if k_v_trans kv0 then cols_moved (tsz (l_v_type l0)) (Z.to_nat nv) size0 size js t0 t'
     else rows_moved (rsz (l_v_type l0) nv) js t0 t').
  { rewrite Ev. unfold v_fmt. rewrite K0, Ht0, Htr. destruct (k_v_trans kv0); cbn [negb].
    - by apply (read_cols_ok ggml_type_size Hts s js t0 t (l_v_type l0) nv size0 size rest k).
    - apply (read_rows_ok ggml_row_size Hrs s js t0 t (l_v_type l0) nv rest k); [lia|done|..].
      + intros i Hi. specialize (Hjs i Hi). etransitivity; [|exact T0]. apply Nat.mul_le_mono_r. lia.
      + etransitivity; [|exact T1]. apply Nat.mul_le_mono_r. lia. }
  destruct G as (t' & E & L & M). eexists. unfold read_v. cbn [l_il l_v_stream l_v_type l_k_ne0 l_v_ne0 l_k_type l_k_stream].
  rewrite K1, bind_ok, (rd_ok _ _ _ Ht), bind_ok.
  replace (if negb (k_v_trans kv) then _ else _) with (Ok (Some t', mk_rbuf rest (k + length (v_fmt kv0 size0 s js l0)%nat)))
    by (rewrite <- E; by destruct (negb (k_v_trans kv))).
  rewrite bind_ok. cbn [fst snd].
  rewrite wr_ok, bind_ok by (by eapply lookup_lt_Some). split; [reflexivity|]. split; cbn.
  - by eexists.
  - intros s' Hne. by rewrite list_lookup_insert_ne.
  - intros nv1 t1 t1' K Ht1 Ht1'. rewrite list_lookup_insert_eq in Ht1' by (by eapply lookup_lt_Some).
    assert (nv1 = nv) as -> by congruence. assert (t1 = t0) as -> by congruence. by injection Ht1' as <-.
  - by eapply insert_lengths.
Qed.

(** Both phases: a layer of the target with stream [s] restored. *)
Definition layer_back (l0 l l' : kv_layer) : Prop :=
  exists l1, layer_k_back kv0 s js l0 l l1 /\ layer_v_back kv0 size0 size s js l0 l1 l'.

Lemma compose_back ls0 ls ls1 ls2 :
  Forall3 (layer_k_back kv0 s js) ls0 ls ls1 -> Forall3 (layer_v_back kv0 size0 size s js) ls0 ls1 ls2 ->
  Forall3 layer_back ls0 ls ls2.
Proof.
  intros H. revert ls2. induction H as [|l0 l l1 ls0 ls ls1 Hk H IH]; intros ls2 Hv; inversion Hv; subst; constructor.
  - by exists l1.
  - by apply IH.
Qed.

Lemma state_read_data_ok c rest k :
  v_cells kv !! s = Some c -> cells_size c = size -> tensors_fit kv0 size0 -> tensors_fit kv size ->
  Forall2 layer_like (layers kv0) (layers kv) ->
  exists ls, state_read_data ggml_row_size ggml_type_size kv s (length js) (front s (length js))
        (mk_rbuf (data_fmt kv0 size0 s js ++ rest) k) =
      Ok (with_layers ls kv, mk_rbuf rest (k + length (data_fmt kv0 size0 s js)), true) /\
    Forall3 layer_back (layers kv0) (layers kv) ls.
Proof.
  intros Hcs Hsz [N0 F0] [_ F1] Hlike. pose proof (Forall2_length Hlike) as Hlen.
  unfold state_read_data, data_fmt. rewrite (rd_ok _ _ _ Hcs), bind_ok, <- !app_assoc.
  rewrite (reads_u32 (if k_v_trans kv0 then 1 else 0)), bind_ok by (destruct (k_v_trans kv0); lia). cbn [fst snd].
  rewrite (reads_u32 (Z.of_nat (length (layers kv0)))), bind_ok by lia. cbn [fst snd].
  rewrite Hlen, Z.eqb_refl, Hsz. cbn [negb]. destruct (Nat.ltb_spec size (length js)); [lia|].
  replace (negb (eqb (k_v_trans kv) (negb ((if k_v_trans kv0 then 1 else 0) =? 0)))) with false
    by (rewrite Htr; by destruct (k_v_trans kv0)).
  rewrite Forall_forall in F0, F1.
  destruct (read_layers_ok (read_k ggml_row_size kv s (length js) (front s (length js))) (k_fmt kv0 s js)
    (layer_k_back kv0 s js) (layers kv0) (layers kv)
    (concat (map (v_fmt kv0 size0 s js) (layers kv0)) ++ rest)
    (k + length (le_bytes 4 (if k_v_trans kv0 then 1 else 0)) + length (le_bytes 4 (Z.of_nat (length (layers kv))))))
    as (ls1 & E1 & H1).
  { apply Forall2_same_length_lookup. split; [done|]. intros i l0 l Hl0 Hl rest' k'.
    destruct (F0 l0) as (nk & nv & L0); [by eapply list_elem_of_In, list_elem_of_lookup_2|].
    destruct (F1 l) as (nk' & nv' & L1); [by eapply list_elem_of_In, list_elem_of_lookup_2|].
    eapply read_k_ok; [done|done|]. by eapply (Forall2_lookup_lr _ _ _ i l0 l Hlike). }
  rewrite E1, bind_ok. cbv beta iota. cbn [negb].
  destruct (read_layers_ok (read_v ggml_row_size ggml_type_size (with_layers ls1 kv) s (length js) size (front s (length js)))
    (v_fmt kv0 size0 s js) (layer_v_back kv0 size0 size s js) (layers kv0) ls1 rest
    (k + length (le_bytes 4 (if k_v_trans kv0 then 1 else 0)) + length (le_bytes 4 (Z.of_nat (length (layers kv)))) +
     length (concat (map (k_fmt kv0 s js) (layers kv0))))) as (ls2 & E2 & H2).
  { apply Forall2_same_length_lookup. split; [by destruct (Forall3_length_lm _ _ _ _ H1), (Forall3_length_lr _ _ _ _ H1)|].
    intros i l0 l1 Hl0 Hl1 rest' k'.
    destruct (Forall3_lookup_r _ _ _ _ i l1 H1 Hl1) as (l0' & l & Hl0' & Hl & Hk).
    assert (l0' = l0) as -> by congruence.
    destruct (F0 l0) as (nk & nv & L0); [by eapply list_elem_of_In, list_elem_of_lookup_2|].
    destruct (F1 l) as (nk' & nv' & L1); [by eapply list_elem_of_In, list_elem_of_lookup_2|].
    destruct (kb_same _ _ _ _ _ _ Hk) as (ks & ->).
    apply (read_v_ok l0 l nk nv nk' nv' ks rest' k' L0 L1). by eapply (Forall2_lookup_lr _ _ _ i l0 l Hlike). }
  rewrite E2, bind_ok. exists ls2. split; [|by eapply compose_back].
  rewrite !length_app. do 4 f_equal. lia.
Qed.
End layer_back.

(** ** The whole state *)

Definition occupied_at (c : llama_kv_cells) (i : nat) : bool :=
  match cells_abs c !! i with Some a => negb (a_pos a =? -1) | None => false end.
(** The occupied cells of a stream, in order. *)
Definition occupied_cells (c : llama_kv_cells) : list nat := filter (fun i => occupied_at c i = true) (seq 0 (cells_size c)).

Definition stream_fmt (kv : llama_kv_cache) (size s : nat) : list Z :=
  match v_cells kv !! s with
  | Some c =>
      let js := occupied_cells c in
      le_bytes 4 (Z.of_nat (length js)) ++
      if (length js =? 0)%nat then []
      else meta_bytes (k_n_seq_max kv) (saved_cells c js) ++ data_fmt kv size s js
  | None => []
  end.
Definition state_fmt (kv : llama_kv_cache) (size : nat) : list Z :=
  le_bytes 4 (Z.of_nat (k_n_stream kv)) ++ concat (map (stream_fmt kv size) (seq 0 (k_n_stream kv))).

Lemma occupied_cells_lookup c i : i ∈ occupied_cells c -> exists a, cells_abs c !! i = Some a /\ a_pos a <> -1.
Proof.
  intros [H _]%list_elem_of_filter. unfold occupied_at in H. destruct (cells_abs c !! i) as [a|]; [|done]. exists a. split; [done|]. lia.
Qed.

Lemma cell_saved_ok c i : kv_wf c -> (i < cells_size c)%nat -> cell_saved c (-1) i = Ok (occupied_at c i).
Proof.
  intros W Hi. rewrite <- (length_abs c W) in Hi. destruct (lookup_lt_is_Some_2 _ _ Hi) as [a Ha].
  unfold cell_saved, occupied_at. rewrite (cells_is_empty_ok c i a), bind_ok, Ha by done. by destruct (a_pos a =? -1).
Qed.

Lemma state_write_ok kv size :
  kv_inv kv size -> tensors_fit kv size -> (k_n_seq_max kv <= LLAMA_MAX_SEQ)%nat ->
  writes (state_write ggml_row_size ggml_type_size kv (-1)) (state_fmt kv size).
Proof.
  intros I T Hn. unfold state_write, state_fmt.
  apply (writes_bind (fun io => write_u32 io _)); [apply writes_io_write|].
  apply writes_foldM. intros s [_ Hs]%elem_of_seq. simpl in Hs.
  destruct (stream_lookup kv size I s Hs) as (c & h & Hc & _). destruct (ki_wf kv size I s c Hc) as (W & Hsz & _).
  destruct (cell_ranges_ok (cells_size c) (cell_saved c (-1)) (occupied_at c) (fun i => cell_saved_ok c i W)) as (data & Ed & Er & Fd).
  fold (occupied_cells c) in Er.
  eapply writes_ext; [intros io; rewrite (rd_ok _ _ _ Hc), bind_ok, Ed, bind_ok, Er; reflexivity|].
  unfold stream_fmt. rewrite Hc. cbv zeta.
  apply (writes_bind (fun io => write_u32 io _)); [apply writes_io_write|].
  destruct (length (occupied_cells c) =? 0)%nat; [apply writes_ret|].
  apply (writes_bind (state_write_meta kv s data (-1))).
  - eapply writes_ext; [intros io; unfold state_write_meta; rewrite (rd_ok _ _ _ Hc), bind_ok, Er; reflexivity|].
    intros io Hl. apply write_cells_ok; [done|done| |done]. intros i Hi. by apply occupied_cells_lookup.
  - rewrite <- Er. rewrite Hsz in Fd. by apply (writes_data kv size s data c).
Qed.

(** The target of a restore after [clear(true)]: every stream is empty and the tensors are
    zero. *)
Definition zero_layer (l : kv_layer) : kv_layer :=
  mk_layer (l_il l) (l_k_ne0 l) (l_v_ne0 l) (l_k_type l) (l_v_type l)
    (map (map (fun _ : Z => 0)) (l_k_stream l)) (map (map (fun _ : Z => 0)) (l_v_stream l)).

Lemma kv_inv_layers kv size ls : kv_inv kv size -> kv_inv (with_layers ls kv) size.
Proof. by intros []. Qed.

Lemma kv_clear_true kv size :
  kv_inv kv size ->
  runs (kv_clear true kv) (fun kv' => kv_inv kv' size /\
    (exists hs cs, kv' = with_layers (map zero_layer (layers kv)) (with_cells hs cs kv)) /\
    forall s c, v_cells kv' !! s = Some c -> cells_abs c = replicate size cell_empty).
Proof.
  intros I. pose proof (kv_clear_false kv size I) as H. unfold kv_clear in *.
  destruct (foldM _ _ _) as [kv'| |]; [|done..]. rewrite bind_ok in *. destruct H as (I' & (hs & cs & E) & H').
  simpl. split; [by apply kv_inv_layers|]. split; [|done]. exists hs, cs. by rewrite E.
Qed.

(** The cells of stream [c0] as they come back into a stream of [size] cells. *)
Definition restored_cells (n_max size : nat) (c0 : llama_kv_cells) : list cell :=
  (restored n_max <$> saved_cells c0 (occupied_cells c0)) ++ replicate (size - length (occupied_cells c0)) cell_empty.

(** [kv'] holds stream [s] of [kv0] and nothing else. *)
Record holds_stream (kv0 kv kv' : llama_kv_cache) (size0 size s : nat) (c0 : llama_kv_cells) : Prop := {
  hs_inv    : kv_inv kv' size;
  hs_shape  : same_shape kv0 kv';
  hs_cells  : forall t c, v_cells kv' !! t = Some c ->
                cells_abs c = if decide (t = s) then restored_cells (k_n_seq_max kv0) size c0
                              else replicate size cell_empty;
  hs_layers : Forall3 (layer_back kv0 size0 size s (occupied_cells c0)) (layers kv0) (map zero_layer (layers kv)) (layers kv')
}.

(** Every sequence of the cells is one of the sequences that the state can name. *)
Definition ids_named (kv : llama_kv_cache) : Prop :=
  (k_n_seq_max kv <= LLAMA_MAX_SEQ)%nat /\
  forall s c i a x, v_cells kv !! s = Some c -> cells_abs c !! i = Some a -> x ∈ a_seq a -> x < Z.of_nat (k_n_seq_max kv).

Lemma restored_seq kv size s c i a :
  kv_inv kv size -> ids_named kv -> v_cells kv !! s = Some c -> cells_abs c !! i = Some a ->
  a_seq (restored (k_n_seq_max kv) a) = a_seq a.
Proof.
  intros I [_ Hid] Hc Ha. destruct (ki_wf kv size I s c Hc) as (W & _). destruct (wf_cell c W i a Ha) as (_ & _ & Hs).
  apply set_eq. intros x. simpl. rewrite elem_of_list_to_set, elem_of_ids_below. split; [by intros [? _]|].
  intros Hx. split; [done|]. split; [by apply Hs|by eapply Hid].
Qed.

Lemma saved_cells_lookup c js k a :
  (forall i, i ∈ js -> is_Some (cells_abs c !! i)) -> saved_cells c js !! k = Some a ->
  exists i, js !! k = Some i /\ cells_abs c !! i = Some a.
Proof.
  unfold saved_cells. revert k. induction js as [|j js IH]; intros k H Hk; [done|].
  destruct (H j) as [b Hb]; [by left|]. simpl in Hk. rewrite Hb in Hk. destruct k as [|k].
  - injection Hk as <-. by exists j.
  - destruct (IH k) as (i & Hi & Ha); [intros i Hi; apply H; by right|done|]. by exists i.
Qed.

Lemma length_saved_cells c js :
  (forall i, i ∈ js -> is_Some (cells_abs c !! i)) -> length (saved_cells c js) = length js.
Proof.
  unfold saved_cells. induction js as [|j js IH]; intros H; [done|].
  destruct (H j) as [b Hb]; [by left|]. simpl. rewrite Hb. simpl. f_equal. apply IH. intros i Hi. apply H. by right.
Qed.

Lemma zero_fits kv kv' size l nk nv :
  k_hparams kv' = k_hparams kv -> k_v_trans kv' = k_v_trans kv -> k_n_stream kv' = k_n_stream kv ->
  layer_fits kv size l nk nv -> layer_fits kv' size (zero_layer l) nk nv.
Proof.
  intros Eh Et En [K V T [L1 L2] Tk Tv]. split; cbn; rewrite ?Eh, ?Et, ?En; try done.
  - by rewrite !length_map.
  - intros s t Ht. apply list_lookup_fmap_Some in Ht as (t0 & -> & Ht0). rewrite length_fmap. by apply (Tk s).
  - intros s t Ht. apply list_lookup_fmap_Some in Ht as (t0 & -> & Ht0). rewrite length_fmap. by apply (Tv s).
Qed.

Lemma tensors_fit_zero kv kv' size :
  k_hparams kv' = k_hparams kv -> k_v_trans kv' = k_v_trans kv -> k_n_stream kv' = k_n_stream kv ->
  layers kv' = map zero_layer (layers kv) -> tensors_fit kv size -> tensors_fit kv' size.
Proof.
  intros Eh Et En El [N F]. split; [by rewrite El, length_map|]. rewrite El. apply Forall_map.
  eapply list_relations.list.Forall_impl; [exact F|]. intros l (nk & nv & H). exists nk, nv. by apply (zero_fits kv).
Qed.

(** The tensors keep their sizes. *)
Lemma back_fits kv0 kv kv' size0 size s js l0 l l' nk nv :
  k_hparams kv' = k_hparams kv -> k_v_trans kv' = k_v_trans kv -> k_n_stream kv' = k_n_stream kv ->
  layer_back kv0 size0 size s js l0 l l' -> layer_fits kv size l nk nv -> layer_fits kv' size l' nk nv.
Proof.
  intros Eh Et En (l1 & [(ks & ->) _ _ Lk] & [(vs & ->) _ _ Lv]) [K V T [L1 L2] Tk Tv]. cbn in *.
  assert (G : forall (xs ys : list (list Z)) i x, map length xs = map length ys -> xs !! i = Some x ->
            exists y, ys !! i = Some y /\ length x = length y).
  { intros xs ys i x E Hx. pose proof (f_equal (lookup i) E) as Ei. change (map length ?l) with (length <$> l) in Ei.
    rewrite !list_lookup_fmap, Hx in Ei. destruct (ys !! i) as [y|]; [|done]. exists y. split; [done|]. by injection Ei. }
  split; cbn; rewrite ?Eh, ?Et, ?En; try done.
  - pose proof (f_equal length Lk) as E1. pose proof (f_equal length Lv) as E2. rewrite !length_map in *. lia.
  - intros i t Ht. destruct (G _ _ _ _ Lk Ht) as (y & Hy & ->). by apply (Tk i).
  - intros i t Ht. destruct (G _ _ _ _ Lv Ht) as (y & Hy & ->). by apply (Tv i).
Qed.

Lemma same_shape_sizes kv0 kv size0 size s c0 kv' :
  holds_stream kv0 kv kv' size0 size s c0 -> same_shape kv0 kv -> tensors_fit kv size -> tensors_fit kv' size.
Proof.
  intros [_ [Eh Et _ En _ _] _ Hl] [Eh' Et' _ En' _ _] [N F]. split.
  - rewrite <- (Forall3_length_lr _ _ _ _ Hl), (Forall3_length_lm _ _ _ _ Hl), length_map. done.
  - rewrite Forall_forall in *. intros l' Hin. apply list_elem_of_In, list_elem_of_lookup in Hin as (i & Hi).
    destruct (Forall3_lookup_r _ _ _ _ i l' Hl Hi) as (l0 & l & _ & Hli & Hb).
    apply list_lookup_fmap_Some in Hli as (l1 & -> & Hl1).
    destruct (F l1) as (nk & nv & H); [by eapply list_elem_of_In, list_elem_of_lookup_2|]. exists nk, nv.
    eapply back_fits; [..|exact Hb|]; [| | |eapply (zero_fits kv kv)]; try done; congruence.
Qed.

Section restore.
Context (kv0 kv : llama_kv_cache) (size0 size s : nat) (c0 : llama_kv_cells).
Context (I0 : kv_inv kv0 size0) (I : kv_inv kv size) (Hsh : same_shape kv0 kv).
Context (T0 : tensors_fit kv0 size0) (T : tensors_fit kv size) (Hid : ids_named kv0) (Hc0 : v_cells kv0 !! s = Some c0).
Abbreviation js := (occupied_cells c0).

Lemma js_cells i : i ∈ js -> exists a, cells_abs c0 !! i = Some a /\ a_pos a <> -1.
Proof. apply occupied_cells_lookup. Qed.

Lemma js_some i : i ∈ js -> is_Some (cells_abs c0 !! i).
Proof. intros (a & Ha & _)%js_cells. by exists a. Qed.

(** The restored cells fit the stream. *)
Lemma restored_fit : cells_fit (seq_to_stream kv) s (restored_cells (k_n_seq_max kv0) size c0).
Proof.
  intros i a [Ha|[_ Ha]]%lookup_app_Some; [|apply lookup_replicate in Ha as [-> _]; split; [done|set_solver]].
  apply list_lookup_fmap_Some in Ha as (b & -> & Hb).
  destruct (saved_cells_lookup c0 js i b js_some Hb) as (j & Hj & Ej).
  destruct (js_cells j) as (b' & Eb & Hp); [by eapply list_elem_of_lookup_2|]. assert (b' = b) as -> by congruence.
  rewrite (restored_seq kv0 size0 s c0 j b I0 Hid Hc0 Ej). rewrite (ss_map _ _ Hsh).
  destruct (ki_wf kv0 size0 I0 s c0 Hc0) as (_ & _ & Hf). destruct (Hf j b Ej) as [Hne Hm]. split; [by intros _; apply Hne|done].
Qed.

Lemma saved_positions : Forall (fun a => 0 <= a_pos a <= INT32_MAX) (saved_cells c0 js).
Proof.
  apply Forall_lookup. intros i a Ha. destruct (saved_cells_lookup c0 js i a js_some Ha) as (j & Hj & Ej).
  destruct (js_cells j) as (b & Eb & Hp); [by eapply list_elem_of_lookup_2|]. assert (b = a) as -> by congruence.
  destruct (ki_wf kv0 size0 I0 s c0 Hc0) as (W & _). destruct (wf_cell c0 W j a Ej) as (? & _). lia.
Qed.

(** The metadata of the stream. *)
Lemma read_meta_back rest k :
  (0 < length js <= size)%nat ->
  exists kv2, state_read_meta kv s (length js) (-1) (mk_rbuf (meta_bytes (k_n_seq_max kv0) (saved_cells c0 js) ++ rest) k) =
      Ok (kv2, mk_rbuf rest (k + length (meta_bytes (k_n_seq_max kv0) (saved_cells c0 js))), front s (length js), true) /\
    kv_inv kv2 size /\ (exists hs cs, kv2 = with_layers (map zero_layer (layers kv)) (with_cells hs cs kv)) /\
    forall t c, v_cells kv2 !! t = Some c ->
      cells_abs c = if decide (t = s) then restored_cells (k_n_seq_max kv0) size c0 else replicate size cell_empty.
Proof.
  intros Hlen. assert (Hs : (s < k_n_stream kv)%nat).
  { rewrite (ss_stream _ _ Hsh), <- (ki_cells _ _ I0). by eapply lookup_lt_Some. }
  destruct (stream_lookup kv size I s Hs) as (c & h & Hc & _). destruct (ki_wf kv size I s c Hc) as (_ & Hsz & _).
  unfold state_read_meta. cbn [Z.eqb negb]. unfold read_meta_whole. rewrite (rd_ok _ _ _ Hc), bind_ok, Hsz.
  destruct (Nat.ltb_spec size (length js)); [lia|].
  destruct (runs_inv _ _ (kv_clear_true kv size I)) as (kv1 & E1 & I1 & (hs & cs & Ek) & H1). rewrite E1, bind_ok.
  assert (En : k_n_stream kv1 = k_n_stream kv) by (by rewrite Ek).
  assert (Em : k_n_seq_max kv1 = k_n_seq_max kv0) by (rewrite Ek; apply Hsh).
  assert (Es : seq_to_stream kv1 = seq_to_stream kv) by (by rewrite Ek).
  destruct (stream_lookup kv1 size I1 s) as (c1 & h1 & Hc1 & Hh1); [by rewrite En|].
  rewrite (rd_ok _ _ _ Hc1), bind_ok, (rd_ok _ _ _ Hh1), bind_ok.
  destruct (ki_wf kv1 size I1 s c1 Hc1) as (W1 & Hsz1 & _).
  pose proof (length_saved_cells c0 js js_some) as Ls.
  pose proof (read_cells_meta_ok kv1 c1 (saved_cells c0 js) rest k W1) as R. rewrite Em, Ls, Hsz1 in R.
  destruct (runs_inv _ _ (R (H1 s c1 Hc1) ltac:(lia) (proj1 Hid) saved_positions)) as (r & Er & c2 & -> & W2 & _ & E2).
  clear R. rewrite Er, bind_ok.
  assert (Hf2 : cells_fit (seq_to_stream kv1) s (cells_abs c2)) by (rewrite Es, E2; apply restored_fit).
  assert (Hsz2 : cells_size c2 = size).
  { rewrite <- (length_abs c2 W2), E2, length_app, length_fmap, length_replicate, Ls. lia. }
  destruct (runs_inv _ _ (put_stream_ok kv1 size I1 s 0 c2 c1 Hc1 ltac:(lia) W2 Hsz2 Hf2))
    as (kv2 & Ep & I2 & Hc2 & _ & (hs2 & cs2 & Ek2) & Hother).
  rewrite Ep, bind_ok. exists kv2. split; [done|]. split; [done|]. split.
  - exists hs2, cs2. rewrite Ek2, Ek. done.
  - intros t c' Hc'. case_decide as Ht.
    + subst t. assert (c' = c2) as -> by congruence. by rewrite E2.
    + destruct (Hother t Ht) as [Eo _]. rewrite Eo in Hc'. by apply (H1 t).
Qed.

Lemma read_stream_back rest k :
  (0 < length js <= size)%nat -> Z.of_nat (length js) < 4294967296 ->
  exists kv', read_stream ggml_row_size ggml_type_size (-1) (kv, mk_rbuf (stream_fmt kv0 size0 s ++ rest) k) s =
      Ok (inl (kv', mk_rbuf rest (k + length (stream_fmt kv0 size0 s)))) /\
    holds_stream kv0 kv kv' size0 size s c0.
Proof.
  intros Hlen Hb. unfold stream_fmt. rewrite Hc0. cbv zeta. rewrite (proj2 (Nat.eqb_neq _ 0)) by lia.
  unfold read_stream. rewrite <- !app_assoc, (reads_u32 (Z.of_nat (length js))), bind_ok by lia. cbn [fst snd].
  rewrite (proj2 (Z.eqb_neq _ 0)) by lia. change (-1 =? -1) with true. cbv iota. rewrite bind_ok, Nat2Z.id.
  destruct (read_meta_back (data_fmt kv0 size0 s js ++ rest) (k + length (le_bytes 4 (Z.of_nat (length js)))) Hlen)
    as (kv2 & E2 & I2 & (hs & cs & Ek) & H2).
  rewrite E2, bind_ok. cbv beta iota.
  destruct Hsh as [Sh St Sm Sn Sq Sl].
  assert (Hs : (s < k_n_stream kv0)%nat) by (rewrite <- (ki_cells _ _ I0); by eapply lookup_lt_Some).
  assert (Hs2 : (s < k_n_stream kv2)%nat) by (rewrite Ek; simpl; lia).
  destruct (stream_lookup kv2 size I2 s Hs2) as (c2 & h2 & Hc2 & _). destruct (ki_wf kv2 size I2 s c2 Hc2) as (W2 & Hsz2 & _).
  assert (Hjs : forall i, i ∈ js -> (i < size0)%nat).
  { intros i Hi. destruct (js_some i Hi) as [a Ha]. apply lookup_lt_Some in Ha.
    destruct (ki_wf kv0 size0 I0 s c0 Hc0) as (W0 & <- & _). by rewrite length_abs in Ha. }
  assert (Sl2 : Forall2 layer_like (layers kv0) (layers kv2)).
  { rewrite Ek. simpl. clear -Sl. induction Sl as [|l0 l ls0 ls H Sl IH]; constructor; [exact H|exact IH]. }
  assert (Sh2 : k_hparams kv2 = k_hparams kv0) by (by rewrite Ek).
  assert (St2 : k_v_trans kv2 = k_v_trans kv0) by (by rewrite Ek).
  assert (Sn2 : k_n_stream kv2 = k_n_stream kv0) by (by rewrite Ek).
  destruct (state_read_data_ok kv0 kv2 size0 size s js Sh2 St2 Sn2 Hs Hjs Hlen c2 rest
    (k + length (le_bytes 4 (Z.of_nat (length js))) + length (meta_bytes (k_n_seq_max kv0) (saved_cells c0 js))) Hc2 Hsz2 T0)
    as (ls & E3 & Hls); [|done|].
  { apply (tensors_fit_zero kv); try done; by rewrite Ek. }
  rewrite E3, bind_ok. cbv beta iota. exists (with_layers ls kv2). split; [rewrite !length_app; do 4 f_equal; lia|].
  assert (Ezl : layers kv2 = map zero_layer (layers kv)) by (by rewrite Ek). rewrite Ezl in Hls.
  split; [by apply kv_inv_layers| |exact H2|exact Hls].
  split; cbn; try done; [by rewrite Ek..|].
  apply Forall2_same_length_lookup. split; [by rewrite <- (Forall3_length_lr _ _ _ _ Hls)|].
  intros i l0 l' Hl0 Hl'. destruct (Forall3_lookup_r _ _ _ _ i l' Hls Hl') as (l0' & l & Hl0' & Hl & l1 & [(ks & ->) _ _ _] & [(vs & ->) _ _ _]).
  assert (l0' = l0) as -> by congruence. rewrite <- Ezl in Hl.
  apply (Forall2_lookup_lr _ _ _ i l0 l Sl2 Hl0 Hl).
Qed.

(** A stream that was saved empty is skipped. *)
Lemma read_stream_skip rest k :
  length js = 0%nat ->
  read_stream ggml_row_size ggml_type_size (-1) (kv, mk_rbuf (stream_fmt kv0 size0 s ++ rest) k) s =
    Ok (inl (kv, mk_rbuf rest (k + length (stream_fmt kv0 size0 s)))).
Proof.
  intros E. unfold stream_fmt. rewrite Hc0. cbv zeta. rewrite E. cbn [Nat.eqb]. rewrite app_nil_r.
  unfold read_stream. by rewrite (reads_u32 (Z.of_nat 0)), bind_ok by lia.
Qed.
End restore.

(** The last stream below [n] that has an occupied cell. *)
Fixpoint last_held (kv : llama_kv_cache) (n : nat) : option (nat * llama_kv_cells) :=
  match n with
  | O => None
  | S n =>
      match v_cells kv !! n with
      | Some c => if (length (occupied_cells c) =? 0)%nat then last_held kv n else Some (n, c)
      | None => last_held kv n
      end
  end.

(** What a whole restore leaves: the target as it was when nothing was saved, otherwise the
    last stream that was saved. *)
Definition restored_state (kv0 kv kv' : llama_kv_cache) (size0 size n : nat) : Prop :=
  match last_held kv0 n with
  | None => kv' = kv
  | Some (s, c) => exists kvp, same_shape kv0 kvp /\ tensors_fit kvp size /\ holds_stream kv0 kvp kv' size0 size s c
  end.

Section streams.
Context (kv0 kv : llama_kv_cache) (size0 size : nat).
Context (I0 : kv_inv kv0 size0) (I : kv_inv kv size) (Hsh : same_shape kv0 kv).
Context (T0 : tensors_fit kv0 size0) (T : tensors_fit kv size) (Hid : ids_named kv0).
Context (Hfit : forall s c, v_cells kv0 !! s = Some c -> (length (occupied_cells c) <= size)%nat).
Context (Hsmall : Z.of_nat size < 4294967296).

Lemma restored_state_ok kv1 n :
  restored_state kv0 kv kv1 size0 size n -> kv_inv kv1 size /\ same_shape kv0 kv1 /\ tensors_fit kv1 size.
Proof.
  unfold restored_state. destruct (last_held kv0 n) as [[s c]|]; [|by intros ->].
  intros (kvp & Hp & Tp & H). split; [apply H|]. split; [apply H|]. by eapply same_shape_sizes.
Qed.

Lemma read_streams_ok n rest k : (n <= k_n_stream kv0)%nat ->
  exists kv', foldB (read_stream ggml_row_size ggml_type_size (-1))
      (kv, mk_rbuf (concat (map (stream_fmt kv0 size0) (seq 0 n)) ++ rest) k) (seq 0 n) =
    Ok (inl (kv', mk_rbuf rest (k + length (concat (map (stream_fmt kv0 size0) (seq 0 n)))))) /\
    restored_state kv0 kv kv' size0 size n.
Proof.
  revert rest. induction n as [|n IH]; intros rest Hn.
  { exists kv. cbn. by rewrite Nat.add_0_r. }
  destruct (IH (stream_fmt kv0 size0 n ++ rest) ltac:(lia)) as (kv1 & E1 & H1).
  destruct (restored_state_ok kv1 n H1) as (I1 & S1 & T1).
  rewrite seq_S, map_app, concat_app, foldB_app. cbn [Nat.add map concat]. rewrite app_nil_r, <- app_assoc, E1, bind_ok.
  destruct (lookup_lt_is_Some_2 (v_cells kv0) n) as [c Hc]; [rewrite (ki_cells _ _ I0); lia|].
  cbn [foldB]. unfold restored_state in *. cbn [last_held]. rewrite Hc, length_app.
  destruct (Nat.eqb_spec (length (occupied_cells c)) 0) as [Hz|Hnz].
  - rewrite (read_stream_skip kv0 kv1 size0 n c Hc rest _ Hz), bind_ok. exists kv1. split; [do 4 f_equal; lia|done].
  - pose proof (Hfit n c Hc) as Hf.
    destruct (read_stream_back kv0 kv1 size0 size n c I0 I1 S1 T0 T1 Hid Hc rest
      (k + length (concat (map (stream_fmt kv0 size0) (seq 0 n)))) ltac:(lia) ltac:(lia)) as (kv2 & E2 & H2).
    rewrite E2, bind_ok. exists kv2. split; [do 4 f_equal; lia|]. by exists kv1.
Qed.

Lemma state_read_ok rest k : Z.of_nat (k_n_stream kv0) < 4294967296 ->
  exists kv', state_read ggml_row_size ggml_type_size kv (-1) (mk_rbuf (state_fmt kv0 size0 ++ rest) k) =
    Ok (inl (kv', mk_rbuf rest (k + length (state_fmt kv0 size0)))) /\
    restored_state kv0 kv kv' size0 size (k_n_stream kv0).
Proof.
  intros Hn. unfold state_read, state_fmt. change (assert_ _) with (Ok tt). rewrite bind_ok, <- app_assoc.
  rewrite (reads_u32 (Z.of_nat (k_n_stream kv0))), bind_ok by lia. cbn [fst snd].
  rewrite (ss_stream _ _ Hsh), Z.eqb_refl. cbn [negb].
  destruct (read_streams_ok (k_n_stream kv0) rest (k + length (le_bytes 4 (Z.of_nat (k_n_stream kv0)))) (le_n _)) as (kv' & E & H).
  exists kv'. rewrite E, length_app. split; [do 4 f_equal; lia|done].
Qed.
End streams.
End tensors.

Lemma saved_cells_at c js k :
  (forall i, i ∈ js -> is_Some (cells_abs c !! i)) -> saved_cells c js !! k = (i ← js !! k; cells_abs c !! i).
Proof.
  intros H. destruct (saved_cells c js !! k) as [a|] eqn:E.
  - destruct (saved_cells_lookup c js k a H E) as (i & -> & Ha). by rewrite <- Ha.
  - apply lookup_ge_None in E. rewrite length_saved_cells in E by done. by rewrite lookup_ge_None_2.
Qed.

Lemma restored_cells_at kv0 size0 size c0 s i :
  kv_inv kv0 size0 -> ids_named kv0 -> v_cells kv0 !! s = Some c0 -> (length (occupied_cells c0) <= size)%nat ->
  restored_cells (k_n_seq_max kv0) size c0 !! i =
    match occupied_cells c0 !! i with
    | Some j => a ← cells_abs c0 !! j; Some (mk_cell (a_pos a) ext_reset 0 (a_seq a))
    | None => if decide (i < size)%nat then Some cell_empty else None
    end.
Proof.
  intros I0 Hid Hc0 Hl. pose proof (js_some c0) as Hs. unfold restored_cells.
  destruct (occupied_cells c0 !! i) as [j|] eqn:Ej.
  - rewrite lookup_app_l by (rewrite length_fmap, length_saved_cells by done; by eapply lookup_lt_Some).
    rewrite list_lookup_fmap, saved_cells_at, Ej by done. simpl. destruct (cells_abs c0 !! j) as [a|] eqn:Ea; [|done]. simpl.
    pose proof (restored_seq kv0 size0 s c0 j a I0 Hid Hc0 Ea) as Es. unfold restored in *. simpl in Es. by rewrite Es.
  - apply lookup_ge_None in Ej. rewrite lookup_app_r by (rewrite length_fmap, length_saved_cells by done; lia).
    rewrite length_fmap, length_saved_cells by done. case_decide.
    + apply lookup_replicate. split; [done|lia].
    + apply lookup_ge_None. rewrite length_replicate. lia.
Qed.

(** ** Example data *)

Definition toy_rs (ty ne : Z) : Z := (2 * ne) `mod` 18446744073709551616.
Definition toy_ts (ty : Z) : Z := 2.

Lemma toy_rs_range ty ne : 0 <= toy_rs ty ne < 18446744073709551616.
Proof. apply Z.mod_pos_bound. lia. Qed.

Lemma toy_ts_range ty : 0 <= toy_ts ty < 4294967296.
Proof. unfold toy_ts. lia. Qed.

(** The tensors of the example cache: one layer, whose rows have 8 bytes. *)
Definition toy_layer (size n : nat) : kv_layer :=
  mk_layer 0 4 4 1 1 (replicate n (replicate (size * 8) 0)) (replicate n (replicate (size * 8) 0)).

Lemma toy_tensors_fit size n kv :
  k_hparams kv = toy_hparams -> k_v_trans kv = false -> k_n_stream kv = n -> layers kv = [toy_layer size n] ->
  tensors_fit toy_rs toy_ts kv size.
Proof.
  intros Eh Et En El. split; cbn; rewrite El; [simpl; lia|]. constructor; [|constructor]. exists 4, 4.
  split; cbn; rewrite ?Eh, ?Et, ?En, ?length_replicate; try done.
  - intros s t [-> _]%lookup_replicate. rewrite length_replicate. vm_compute (Z.to_nat _). lia.
  - intros s t [-> _]%lookup_replicate. rewrite length_replicate. vm_compute (Z.to_nat _). lia.
Qed.

(** Two occupied cells, the first cell free. *)
Lemma toy_cells : exists c, implements c
  ([cell_empty; mk_cell 0 ext_reset 0 {[0]}; mk_cell 1 ext_reset 0 {[0; 1]}], false).
Proof.
  destruct (machine_state 3 [OpPosSet 1 0; OpSeqAdd 1 0; OpPosSet 2 1; OpSeqAdd 2 1; OpSeqAdd 2 0]
    ([cell_empty; mk_cell 0 ext_reset 0 {[0]}; mk_cell 1 ext_reset 0 {[0; 1]}], false) (replicate 5 NoAnswer))
    as (c & _ & H); [vm_compute; reflexivity|]. by exists c.
Qed.

Lemma toy_occupied c st :
  implements c st -> occupied_cells c = filter (fun i => occupied_at c i = true) (seq 0 (length st.1)).
Proof. intros (W & E & _). unfold occupied_cells. by rewrite <- E, (length_abs c W). Qed.

(** ** Properties *)

(** C8: saving a whole cache of one stream and restoring it into an interchangeable cache of
    any size that has room: [state_write] ends when the buffer is large enough and
    [state_read] consumes exactly its bytes.  When the saved cache has an occupied cell, the
    target then holds the occupied cells packed at its front, in order, with their
    positions and sequences, and for every layer the keys and values of each of them (also
    when V is transposed), everything else cleared.  A cache that was saved empty is
    skipped by the reader: the target keeps whatever it held.  The shifts and the
    two-dimensional positions are not part of the state. *)
Theorem state_round_trip ggml_row_size ggml_type_size kv0 kv size0 size c0 io :
  (forall ty ne, 0 <= ggml_row_size ty ne < 18446744073709551616) ->
  (forall ty, 0 <= ggml_type_size ty < 4294967296) ->
  kv_inv kv0 size0 -> kv_inv kv size -> same_shape kv0 kv ->
  tensors_fit ggml_row_size ggml_type_size kv0 size0 -> tensors_fit ggml_row_size ggml_type_size kv size -> ids_named kv0 ->
  v_cells kv0 = [c0] -> (length (occupied_cells c0) <= size)%nat -> Z.of_nat size < 4294967296 ->
  (length (state_fmt ggml_row_size ggml_type_size kv0 size0) <= w_left io)%nat ->
  exists bs, state_write ggml_row_size ggml_type_size kv0 (-1) io = Ok (put_bytes io bs) /\
    forall rest k, exists kv',
      state_read ggml_row_size ggml_type_size kv (-1) (mk_rbuf (bs ++ rest) k) = Ok (inl (kv', mk_rbuf rest (k + length bs))) /\
      kv_inv kv' size /\
      (occupied_cells c0 = [] -> kv' = kv) /\
      (occupied_cells c0 <> [] ->
        (forall c i, v_cells kv' !! 0%nat = Some c -> cells_abs c !! i =
           match occupied_cells c0 !! i with
           | Some j => a ← cells_abs c0 !! j; Some (mk_cell (a_pos a) ext_reset 0 (a_seq a))
           | None => if decide (i < size)%nat then Some cell_empty else None
           end) /\
        Forall3 (layer_back ggml_row_size ggml_type_size kv0 size0 size 0 (occupied_cells c0))
          (layers kv0) (map zero_layer (layers kv)) (layers kv')).
Proof.
  intros Hrs Hts I0 I Hsh T0 T Hid Hc0 Hlen Hsm Hio.
  assert (E1 : k_n_stream kv0 = 1%nat) by (by rewrite <- (ki_cells _ _ I0), Hc0).
  exists (state_fmt ggml_row_size ggml_type_size kv0 size0). split.
  { apply (state_write_ok ggml_row_size ggml_type_size kv0 size0 I0 T0 (proj1 Hid) io Hio). }
  intros rest k.
  assert (Hc : v_cells kv0 !! 0%nat = Some c0) by (by rewrite Hc0).
  unfold state_read, state_fmt. rewrite E1. change (assert_ _) with (Ok tt). cbn [seq map concat]. rewrite app_nil_r, bind_ok, <- app_assoc.
  rewrite (reads_u32 (Z.of_nat 1)), bind_ok by lia. cbn [fst snd]. rewrite (ss_stream _ _ Hsh), E1, Z.eqb_refl. cbn [negb seq foldB].
  destruct (decide (occupied_cells c0 = [])) as [E0|E0].
  - rewrite (read_stream_skip ggml_row_size ggml_type_size kv0 kv size0 0 c0 Hc) by (by rewrite E0).
    exists kv. rewrite bind_ok, length_app. split; [do 4 f_equal; lia|]. by split_and!.
  - assert (Hpos : (0 < length (occupied_cells c0))%nat) by (destruct (occupied_cells c0); [done|simpl; lia]).
    destruct (read_stream_back ggml_row_size ggml_type_size Hrs Hts kv0 kv size0 size 0 c0 I0 I Hsh T0 T Hid Hc rest
      (k + length (le_bytes 4 (Z.of_nat 1))) ltac:(lia) ltac:(lia)) as (kv' & E & [Hi _ Hcs Hls]).
    exists kv'. rewrite E, bind_ok, length_app. split; [do 4 f_equal; lia|]. split; [done|]. split; [done|]. intros _. split; [|done].
    intros c i Hc'. rewrite (Hcs 0%nat c Hc'), decide_True by done.
    apply (restored_cells_at kv0 size0 size c0 0 i I0 Hid Hc). lia.
Qed.

Lemma toy_shape kv kv' size size' n :
  k_hparams kv = k_hparams kv' -> k_v_trans kv = k_v_trans kv' -> k_n_seq_max kv = k_n_seq_max kv' ->
  k_n_stream kv = k_n_stream kv' -> seq_to_stream kv = seq_to_stream kv' ->
  layers kv = [toy_layer size n] -> layers kv' = [toy_layer size' n] -> same_shape kv' kv.
Proof. intros E1 E2 E3 E4 E5 E6 E7. split; try done. rewrite E6, E7. by constructor. Qed.

Lemma state_round_trip_witness :
  exists c0 bs, state_write toy_rs toy_ts (with_cells [0%nat] [c0] (toy_kv true 3 2)) (-1) (mk_wbuf [] 1000) =
      Ok (put_bytes (mk_wbuf [] 1000) bs) /\
    exists kv', state_read toy_rs toy_ts (toy_kv true 2 2) (-1) (mk_rbuf bs 0) = Ok (inl (kv', mk_rbuf [] (length bs))).
Proof.
  assert (F : fresh true 3 2 1 0 LLAMA_SWA_TYPE_NONE toy_hparams (toy_kv true 3 2)).
  { apply toy_fresh; [unfold LLAMA_MAX_SEQ; lia|vm_compute; reflexivity]. }
  assert (F' : fresh true 2 2 1 0 LLAMA_SWA_TYPE_NONE toy_hparams (toy_kv true 2 2)).
  { apply toy_fresh; [unfold LLAMA_MAX_SEQ; lia|vm_compute; reflexivity]. }
  destruct toy_cells as (c0 & H). pose proof H as (W & E & S). exists c0. simpl in E.
  assert (Eo : occupied_cells c0 = [1; 2]%nat).
  { unfold occupied_cells, occupied_at. rewrite <- (length_abs c0 W), E. vm_compute. reflexivity. }
  destruct (state_round_trip toy_rs toy_ts (with_cells [0%nat] [c0] (toy_kv true 3 2)) (toy_kv true 2 2) 3 2 c0 (mk_wbuf [] 1000))
    as (bs & Hw & Hr).
  - apply toy_rs_range.
  - apply toy_ts_range.
  - eapply im_inv. eapply one_stream_implements; [exact F|reflexivity|exact H|reflexivity|lia|].
    intros [|[|[|i]]] a Ha; simpl in Ha; try discriminate Ha; injection Ha as <-; vm_compute; congruence.
  - apply F'.
  - apply (toy_shape _ _ 2 3 1); vm_compute; reflexivity.
  - apply (toy_tensors_fit 3 1); vm_compute; reflexivity.
  - apply (toy_tensors_fit 2 1); vm_compute; reflexivity.
  - assert (En : k_n_seq_max (with_cells [0%nat] [c0] (toy_kv true 3 2)) = 2%nat) by (vm_compute; reflexivity).
    split; rewrite En; [unfold LLAMA_MAX_SEQ; lia|]. intros [|s] c i a x Hc Ha Hx; [|discriminate Hc]. injection Hc as <-.
    rewrite E in Ha. destruct i as [|[|[|i]]]; simpl in Ha; try discriminate Ha; injection Ha as <-; simpl in Hx; set_solver by lia.
  - reflexivity.
  - rewrite Eo. simpl. lia.
  - lia.
  - assert (Es : saved_cells c0 [1; 2]%nat = [mk_cell 0 ext_reset 0 {[0]}; mk_cell 1 ext_reset 0 {[0; 1]}])
      by (unfold saved_cells; rewrite E; reflexivity).
    unfold state_fmt, stream_fmt. cbn [v_cells with_cells k_n_stream].
    assert (En : k_n_stream (toy_kv true 3 2) = 1%nat) by (vm_compute; reflexivity). rewrite En.
    cbn [seq map lookup list_lookup]. rewrite Eo, Es. vm_compute. lia.
  - exists bs. split; [exact Hw|]. destruct (Hr [] 0%nat) as (kv' & R & _). rewrite app_nil_r in R. exists kv'. exact R.
Defined.

(** With several streams a whole restore does not give the cache back: every saved
    stream that holds anything clears the whole target again, so that of two streams with
    occupied cells only the later one is left. *)
Theorem restore_loses_streams ggml_row_size ggml_type_size kv0 kv size0 size s1 s2 c1 c2 rest k :
  (forall ty ne, 0 <= ggml_row_size ty ne < 18446744073709551616) ->
  (forall ty, 0 <= ggml_type_size ty < 4294967296) ->
  kv_inv kv0 size0 -> kv_inv kv size -> same_shape kv0 kv ->
  tensors_fit ggml_row_size ggml_type_size kv0 size0 -> tensors_fit ggml_row_size ggml_type_size kv size -> ids_named kv0 ->
  (forall s c, v_cells kv0 !! s = Some c -> (length (occupied_cells c) <= size)%nat) -> Z.of_nat size < 4294967296 ->
  Z.of_nat (k_n_stream kv0) < 4294967296 -> (s1 < s2)%nat ->
  v_cells kv0 !! s1 = Some c1 -> occupied_cells c1 <> [] -> v_cells kv0 !! s2 = Some c2 -> occupied_cells c2 <> [] ->
  exists kv', state_read ggml_row_size ggml_type_size kv (-1)
      (mk_rbuf (state_fmt ggml_row_size ggml_type_size kv0 size0 ++ rest) k) =
    Ok (inl (kv', mk_rbuf rest (k + length (state_fmt ggml_row_size ggml_type_size kv0 size0)))) /\
    forall c, v_cells kv' !! s1 = Some c -> cells_abs c = replicate size cell_empty.
Proof.
  intros Hrs Hts I0 I Hsh T0 T Hid Hfit Hsm Hn Hlt H1 N1 H2 N2.
  destruct (state_read_ok ggml_row_size ggml_type_size Hrs Hts kv0 kv size0 size I0 I Hsh T0 T Hid Hfit Hsm rest k Hn)
    as (kv' & E & H).
  exists kv'. split; [done|]. intros c Hc. unfold restored_state in H.
  assert (L : forall n, (s2 < n)%nat -> exists s c, last_held kv0 n = Some (s, c) /\ (s2 <= s)%nat).
  { induction n as [|n IH]; [lia|]. intros Hs. cbn [last_held]. destruct (decide (n = s2)) as [->|Hne].
    - rewrite H2. destruct (occupied_cells c2); [done|]. by exists s2, c2.
    - destruct (v_cells kv0 !! n) as [cn|]; [|apply IH; lia].
      destruct (length (occupied_cells cn) =? 0)%nat; [apply IH; lia|]. exists n, cn. split; [done|lia]. }
  destruct (L (k_n_stream kv0)) as (s & cs & El & Hs); [rewrite <- (ki_cells _ _ I0); by eapply lookup_lt_Some|].
  rewrite El in H. destruct H as (kvp & _ & _ & Hh).
  rewrite (hs_cells _ _ _ _ _ _ _ _ _ Hh s1 c Hc), decide_False by lia. done.
Qed.

(** One token of sequence 0 in stream 0 and one of sequence 1 in stream 1. *)
Lemma toy_two_streams :
  exists c1 c2, cells_abs c1 = [cell_empty; mk_cell 0 ext_reset 0 {[0]}; cell_empty] /\
    cells_abs c2 = [mk_cell 7 ext_reset 0 {[1]}; cell_empty; cell_empty] /\ kv_wf c1 /\ kv_wf c2 /\
    kv_inv (with_cells [0%nat; 0%nat] [c1; c2] (toy_kv false 3 2)) 3.
Proof.
  destruct (machine_state 3 [OpPosSet 1 0; OpSeqAdd 1 0] ([cell_empty; mk_cell 0 ext_reset 0 {[0]}; cell_empty], false)
    (replicate 2 NoAnswer)) as (c1 & _ & (W1 & E1 & _)); [vm_compute; reflexivity|].
  destruct (machine_state 3 [OpPosSet 0 7; OpSeqAdd 0 1] ([mk_cell 7 ext_reset 0 {[1]}; cell_empty; cell_empty], false)
    (replicate 2 NoAnswer)) as (c2 & _ & (W2 & E2 & _)); [vm_compute; reflexivity|].
  simpl in E1, E2. exists c1, c2. split; [done|]. split; [done|]. split; [done|]. split; [done|].
  assert (F : fresh false 3 2 1 0 LLAMA_SWA_TYPE_NONE toy_hparams (toy_kv false 3 2)).
  { apply toy_fresh; [unfold LLAMA_MAX_SEQ; lia|vm_compute; reflexivity]. }
  destruct (fr_n _ _ _ _ _ _ _ _ F) as (En & _ & _).
  split; cbn [with_cells k_n_stream v_cells v_heads seq_to_stream]; rewrite ?En; [lia|done|done| | |].
  - pose proof (ki_map _ _ (fr_inv _ _ _ _ _ _ _ _ F)) as Hm. by rewrite En in Hm.
  - rewrite (fr_map _ _ _ _ _ _ _ _ F). intros [|[|s]] c Hc; [| |done]; injection Hc as <-.
    + rewrite <- (length_abs c1 W1), E1. split; [done|]. split; [done|].
      intros [|[|[|i]]] a Ha; simpl in Ha; try done; injection Ha as <-; (split; [done|]); simpl; set_solver.
    + rewrite <- (length_abs c2 W2), E2. split; [done|]. split; [done|].
      intros [|[|[|i]]] a Ha; simpl in Ha; try done; injection Ha as <-; (split; [done|]); simpl; set_solver.
  - intros [|[|s]] h Hh; [| |done]; injection Hh as <-; lia.
Qed.

Lemma restore_loses_streams_witness :
  exists c1 c2 bs kv', state_read toy_rs toy_ts (toy_kv false 3 2) (-1) (mk_rbuf bs 0) =
      Ok (inl (kv', mk_rbuf [] (length bs))) /\
    bs = state_fmt toy_rs toy_ts (with_cells [0%nat; 0%nat] [c1; c2] (toy_kv false 3 2)) 3 /\
    (exists a, cells_abs c1 !! 1%nat = Some a /\ a_pos a = 0) /\
    forall c, v_cells kv' !! 0%nat = Some c -> cells_abs c = replicate 3 cell_empty.
Proof.
  destruct toy_two_streams as (c1 & c2 & E1 & E2 & W1 & W2 & I).
  assert (F : fresh false 3 2 1 0 LLAMA_SWA_TYPE_NONE toy_hparams (toy_kv false 3 2)).
  { apply toy_fresh; [unfold LLAMA_MAX_SEQ; lia|vm_compute; reflexivity]. }
  assert (O1 : occupied_cells c1 = [1]%nat).
  { unfold occupied_cells, occupied_at. rewrite <- (length_abs c1 W1), E1. vm_compute. reflexivity. }
  assert (O2 : occupied_cells c2 = [0]%nat).
  { unfold occupied_cells, occupied_at. rewrite <- (length_abs c2 W2), E2. vm_compute. reflexivity. }
  destruct (restore_loses_streams toy_rs toy_ts (with_cells [0%nat; 0%nat] [c1; c2] (toy_kv false 3 2)) (toy_kv false 3 2)
    3 3 0 1 c1 c2 [] 0) as (kv' & R & H).
  - apply toy_rs_range.
  - apply toy_ts_range.
  - exact I.
  - apply F.
  - apply (toy_shape _ _ 3 3 2); vm_compute; reflexivity.
  - apply (toy_tensors_fit 3 2); vm_compute; reflexivity.
  - apply (toy_tensors_fit 3 2); vm_compute; reflexivity.
  - assert (En : k_n_seq_max (with_cells [0%nat; 0%nat] [c1; c2] (toy_kv false 3 2)) = 2%nat) by (vm_compute; reflexivity).
    split; rewrite En; [unfold LLAMA_MAX_SEQ; lia|].
    intros [|[|s]] c i a x Hc Ha Hx; [| |discriminate Hc]; injection Hc as <-; rewrite ?E1, ?E2 in Ha;
      destruct i as [|[|[|i]]]; simpl in Ha; try discriminate Ha; injection Ha as <-; simpl in Hx; set_solver by lia.
  - intros [|[|s]] c Hc; [| |discriminate Hc]; injection Hc as <-; rewrite ?O1, ?O2; simpl; lia.
  - lia.
  - vm_compute. reflexivity.
  - lia.
  - reflexivity.
  - rewrite O1. discriminate.
  - reflexivity.
  - rewrite O2. discriminate.
  - exists c1, c2, (state_fmt toy_rs toy_ts (with_cells [0%nat; 0%nat] [c1; c2] (toy_kv false 3 2)) 3), kv'.
    rewrite app_nil_r in R. split; [exact R|]. split; [reflexivity|]. split; [|exact H].
    exists (mk_cell 0 ext_reset 0 {[0]}). rewrite E1. split; reflexivity.
Defined.
