(* ===== verification/KvCacheIswa.v ===== *)
(** The interleaved sliding-window cache, [llama_kv_cache_iswa] of
    src/llama/llama.cpp/src/llama-kv-cache-iswa.cpp: a base cache for the layers with full
    attention and a second, smaller cache for the layers with a window, kept in step. *)

From S2P Require Import Prelude Hparams KvCells Memory Batch KvCache KvState.
Local Open Scope Z_scope.

(** ** Data *)

Record llama_kv_cache_iswa := mk_iswa {
  iswa_unified : bool;
  kv_base      : llama_kv_cache;
  kv_swa       : llama_kv_cache
}.

Definition with_kvs b w x := mk_iswa (iswa_unified x) b w.

(** ** Constructor *)

(** [!filter || filter(il)] and the kind of layer. *)
Definition layer_wanted (filter : option (nat -> bool)) (il : nat) : bool :=
  match filter with Some f => f il | None => true end.

Definition filter_base (hp : llama_hparams) (filter : option (nat -> bool)) (il : nat) : bool :=
  if negb (layer_wanted filter il) then false else negb (default false (swa_layers hp !! il)).
Definition filter_swa (hp : llama_hparams) (filter : option (nat -> bool)) (il : nat) : bool :=
  if negb (layer_wanted filter il) then false else default false (swa_layers hp !! il).

(** The number of cells of the window cache. *)
Definition iswa_size_swa (n_swa kv_size n_seq_max n_ubatch : nat) (swa_full unified : bool) : nat :=
  let size := ggml_pad (Nat.min kv_size (n_swa * (if unified then n_seq_max else 1) + n_ubatch)) 256 in
  if swa_full then kv_size else size.

Definition llama_kv_cache_iswa_new (ggml_row_size : Z -> Z -> Z) (hp : llama_hparams) (n_swa : nat)
    (swa_type : llama_swa_type) (type_k type_v : Z) (v_trans swa_full unified : bool)
    (kv_size n_seq_max n_ubatch n_pad : nat) (filter : option (nat -> bool)) (reuse : option (nat -> Z))
    (alloc_ok : bool) : res llama_kv_cache_iswa :=
  let size_swa := iswa_size_swa n_swa kv_size n_seq_max n_ubatch swa_full unified in
  b ← llama_kv_cache_new ggml_row_size hp type_k type_v v_trans unified kv_size n_seq_max n_pad
        0 LLAMA_SWA_TYPE_NONE (Some (filter_base hp filter)) reuse alloc_ok;
  w ← llama_kv_cache_new ggml_row_size hp type_k type_v v_trans unified size_swa n_seq_max n_pad
        (Z.of_nat n_swa) swa_type (Some (filter_swa hp filter)) reuse alloc_ok;
  Ok (mk_iswa unified b w).

(** ** Operations: on both caches *)

Definition on_both (f : llama_kv_cache -> res llama_kv_cache) (x : llama_kv_cache_iswa) : res llama_kv_cache_iswa :=
  b ← f (kv_base x);
  w ← f (kv_swa x);
  Ok (with_kvs b w x).

Definition iswa_clear (data : bool) (x : llama_kv_cache_iswa) : res llama_kv_cache_iswa := on_both (kv_clear data) x.

Definition iswa_seq_rm (x : llama_kv_cache_iswa) (seq_id p0 p1 : Z) : res (llama_kv_cache_iswa * bool) :=
  b ← kv_seq_rm (kv_base x) seq_id p0 p1;
  w ← kv_seq_rm (kv_swa x) seq_id p0 p1;
  Ok (with_kvs b.1 w.1 x, true && b.2 && w.2).

Definition iswa_seq_cp (x : llama_kv_cache_iswa) (src dst p0 p1 : Z) : res llama_kv_cache_iswa :=
  on_both (fun kv => kv_seq_cp kv src dst p0 p1) x.
Definition iswa_seq_keep (x : llama_kv_cache_iswa) (seq_id : Z) : res llama_kv_cache_iswa :=
  on_both (fun kv => kv_seq_keep kv seq_id) x.
Definition iswa_seq_add (x : llama_kv_cache_iswa) (seq_id p0 p1 shift : Z) : res llama_kv_cache_iswa :=
  on_both (fun kv => kv_seq_add kv seq_id p0 p1 shift) x.
Definition iswa_seq_div (x : llama_kv_cache_iswa) (seq_id p0 p1 d : Z) : res llama_kv_cache_iswa :=
  on_both (fun kv => kv_seq_div kv seq_id p0 p1 d) x.

Definition iswa_seq_pos_min (x : llama_kv_cache_iswa) (seq_id : Z) : res Z := kv_seq_pos_min (kv_swa x) seq_id.
Definition iswa_seq_pos_max (x : llama_kv_cache_iswa) (seq_id : Z) : res Z := kv_seq_pos_max (kv_swa x) seq_id.

#[export] Instance llama_kv_cache_iswa_memory : LlamaMemory llama_kv_cache_iswa := {|
  mem_seq_pos_min := iswa_seq_pos_min; mem_seq_pos_max := iswa_seq_pos_max
|}.

Definition iswa_get_can_shift (x : llama_kv_cache_iswa) : res bool :=
  a ← kv_get_size (kv_base x); b ← kv_get_size (kv_swa x); Ok (a =? b)%nat.

(** ** The memory context *)

Record llama_kv_cache_iswa_context := mk_ictx {
  ix_i_next   : nat;
  ix_ubatches : list llama_ubatch;
  ix_base     : option llama_kv_cache_context;
  ix_swa      : option llama_kv_cache_context;
  ix_status   : llama_memory_status
}.

Definition ictx_of_status (s : llama_memory_status) : llama_kv_cache_iswa_context := mk_ictx 0 [] None None s.

Definition ictx_pair (ubatches : list llama_ubatch) (b w : llama_kv_cache_context) : llama_kv_cache_iswa_context :=
  mk_ictx 0 ubatches (Some b) (Some w) (llama_memory_status_combine (x_status b) (x_status w)).

Definition iswa_init_full (x : llama_kv_cache_iswa) : res llama_kv_cache_iswa_context :=
  b ← kv_init_full (kv_base x); w ← kv_init_full (kv_swa x); Ok (ictx_pair [] b w).

Definition iswa_init_update (x : llama_kv_cache_iswa) : res (llama_kv_cache_iswa * llama_kv_cache_iswa_context) :=
  b ← kv_init_update (kv_base x);
  w ← kv_init_update (kv_swa x);
  Ok (with_kvs b.1 w.1 x, ictx_pair [] b.2 w.2).

Definition ictx_next (c : llama_kv_cache_iswa_context) : res (llama_kv_cache_iswa_context * bool) :=
  assert_ (bool_decide (ix_status c = LLAMA_MEMORY_STATUS_SUCCESS)) ;;
  b ← deref (ix_base c);
  w ← deref (ix_swa c);
  b' ← ctx_next b;
  w' ← ctx_next w;
  let i := S (ix_i_next c) in
  Ok (mk_ictx i (ix_ubatches c) (Some b'.1) (Some w'.1) (ix_status c), (i <? length (ix_ubatches c))%nat).

Definition ictx_apply (graph : llama_kv_cache -> option (list kv_layer)) (x : llama_kv_cache_iswa)
    (c : llama_kv_cache_iswa_context) : res (llama_kv_cache_iswa * llama_kv_cache_iswa_context) :=
  assert_ (negb (llama_memory_status_is_fail (ix_status c))) ;;
  b ← deref (ix_base c);
  w ← deref (ix_swa c);
  b' ← ctx_apply graph (kv_base x) b;
  w' ← ctx_apply graph (kv_swa x) w;
  Ok (with_kvs b'.1 w'.1 x, mk_ictx (ix_i_next c) (ix_ubatches c) (Some b'.2) (Some w'.2) (ix_status c)).

Definition ictx_get_ubatch (c : llama_kv_cache_iswa_context) : res llama_ubatch :=
  assert_ (bool_decide (ix_status c = LLAMA_MEMORY_STATUS_SUCCESS)) ;;
  rd (ix_ubatches c) (ix_i_next c).

(** ** init_batch *)

(** One attempt: split the batch, then find slots in both caches.  [None] leaves the
    [do ... while (false)] block. *)
Definition iswa_attempt (split : llama_batch_allocr -> res (llama_batch_allocr * llama_ubatch))
    (x : llama_kv_cache_iswa) (a : llama_batch_allocr)
    : res (llama_kv_cache_iswa * llama_batch_allocr * option llama_kv_cache_iswa_context) :=
  r ← split_loop split (split_reset a);
  let '(a', ubatches) := r in
  if (get_n_used a' <? get_n_tokens a')%nat then Ok (x, a', None)
  else
    pb ← prepare (kv_base x) ubatches;
    let x1 := with_kvs pb.1 (kv_swa x) x in
    if (length pb.2 =? 0)%nat then Ok (x1, a', None)
    else
      pw ← prepare (kv_swa x1) ubatches;
      let x2 := with_kvs (kv_base x1) pw.1 x1 in
      if (length pw.2 =? 0)%nat then Ok (x2, a', None)
      else
        assert_ (length pb.2 =? length pw.2)%nat ;;
        Ok (x2, a', Some (ictx_pair ubatches (ctx_batch pb.2 ubatches) (ctx_batch pw.2 ubatches))).

Definition iswa_init_batch (x : llama_kv_cache_iswa) (a : llama_batch_allocr) (n_ubatch : nat)
    : res (llama_kv_cache_iswa * llama_batch_allocr * llama_kv_cache_iswa_context) :=
  r1 ← (if negb (iswa_unified x) then Ok (x, a, None)
        else iswa_attempt (fun a => split_simple a n_ubatch) x a);
  let '(x1, a1, c1) := r1 in
  match c1 with
  | Some c => Ok (x1, a1, c)
  | None =>
      r2 ← iswa_attempt (fun a => split_equal a n_ubatch (negb (iswa_unified x1))) x1 a1;
      let '(x2, a2, c2) := r2 in
      Ok (x2, a2, default (ictx_of_status LLAMA_MEMORY_STATUS_FAILED_PREPARE) c2)
  end.

(** ** State *)

(** [LLAMA_STATE_SEQ_FLAGS_PARTIAL_ONLY] is bit 0 of the flags. *)
Definition partial_only (flags : Z) : bool := Z.testbit flags 0.

Section state.
Context (ggml_row_size : Z -> Z -> Z) (ggml_type_size : Z -> Z).

Definition iswa_state_write (x : llama_kv_cache_iswa) (seq_id flags : Z) (io : llama_io_write_buffer)
    : res llama_io_write_buffer :=
  io1 ← (if negb (partial_only flags) then state_write ggml_row_size ggml_type_size (kv_base x) seq_id io else Ok io);
  state_write ggml_row_size ggml_type_size (kv_swa x) seq_id io1.

(** [inr]: the exception of a failed restore, with the caches at that point. *)
Definition iswa_state_read (x : llama_kv_cache_iswa) (seq_id flags : Z) (io : llama_io_read_buffer)
    : res (llama_kv_cache_iswa * llama_io_read_buffer + llama_kv_cache_iswa * string) :=
  b ← (if negb (partial_only flags) then state_read ggml_row_size ggml_type_size (kv_base x) seq_id io
       else Ok (inl (kv_base x, io)));
  match b with
  | inr (kv, msg) => Ok (inr (with_kvs kv (kv_swa x) x, msg))
  | inl (kv, io1) =>
      w ← state_read ggml_row_size ggml_type_size (kv_swa x) seq_id io1;
      match w with
      | inr (kw, msg) => Ok (inr (with_kvs kv kw x, msg))
      | inl (kw, io2) => Ok (inl (with_kvs kv kw x, io2))
      end
  end.
End state.
