(* ===== verification/Recurrent.v ===== *)
(** The memory of recurrent layers, [llama_memory_recurrent] of
    src/llama/llama.cpp/src/llama-memory-recurrent.cpp, its memory context, and the copies of
    states that [build_rs] of llama-graph.cpp puts in front of every recurrent layer.  A cell
    holds the state of a set of sequences that share it; [tail] of the cell with the number
    of a sequence names the cell of that sequence.  References into the vector of cells
    become reads and updates at an index, so that aliasing is as in the code. *)

From S2P Require Import Prelude Hparams KvCells Memory Batch KvState.
From stdpp Require Import sorting.
Local Open Scope Z_scope.

(** ** Data *)

Record mem_cell := mk_mcell { m_pos : Z; m_src : Z; m_src0 : Z; m_tail : Z; m_seq : gset Z }.

Definition mem_cell_new : mem_cell := mk_mcell (-1) (-1) (-1) (-1) ∅.

Definition has_seq_id (c : mem_cell) (id : Z) : bool := bool_decide (id ∈ m_seq c).
Definition mcell_is_empty (c : mem_cell) : bool := bool_decide (m_seq c = ∅).
Definition is_same_seq (c other : mem_cell) : bool := bool_decide (m_seq c = m_seq other).

Definition set_pos (v : Z) (c : mem_cell) := mk_mcell v (m_src c) (m_src0 c) (m_tail c) (m_seq c).
Definition set_src (v : Z) (c : mem_cell) := mk_mcell (m_pos c) v (m_src0 c) (m_tail c) (m_seq c).
Definition set_src0 (v : Z) (c : mem_cell) := mk_mcell (m_pos c) (m_src c) v (m_tail c) (m_seq c).
Definition set_tail (v : Z) (c : mem_cell) := mk_mcell (m_pos c) (m_src c) (m_src0 c) v (m_seq c).
Definition set_seq (u : gset Z) (c : mem_cell) := mk_mcell (m_pos c) (m_src c) (m_src0 c) (m_tail c) u.
Definition seq_insert (x : Z) (c : mem_cell) := set_seq ({[x]} ∪ m_seq c) c.
Definition seq_erase (x : Z) (c : mem_cell) := set_seq (m_seq c ∖ {[x]}) c.

(** The tensor of a layer: its type and its bytes. *)
Record rs_tensor := mk_rst { t_type : Z; t_data : list Z }.

Record llama_memory_recurrent := mk_rec {
  rm_hparams   : llama_hparams;
  rm_n_seq_max : nat;
  rm_head      : nat;
  rm_size      : nat;
  rm_used      : Z;
  rm_n         : nat;
  rm_rs_z      : Z;
  rm_cells     : list mem_cell;
  rm_r_l       : list (option rs_tensor);
  rm_s_l       : list (option rs_tensor)
}.

Definition with_state (head : nat) (used : Z) (cells : list mem_cell) (m : llama_memory_recurrent) :=
  mk_rec (rm_hparams m) (rm_n_seq_max m) head (rm_size m) used (rm_n m) (rm_rs_z m) cells (rm_r_l m) (rm_s_l m).
Definition with_graph (n : nat) (rs_z : Z) (m : llama_memory_recurrent) :=
  mk_rec (rm_hparams m) (rm_n_seq_max m) (rm_head m) (rm_size m) (rm_used m) n rs_z (rm_cells m) (rm_r_l m) (rm_s_l m).
Definition with_tensors (r s : list (option rs_tensor)) (m : llama_memory_recurrent) :=
  mk_rec (rm_hparams m) (rm_n_seq_max m) (rm_head m) (rm_size m) (rm_used m) (rm_n m) (rm_rs_z m) (rm_cells m) r s.

(** A member of [cells[i]] assigned; [cells[x]] for a signed [x]. *)
Definition upd (i : nat) (f : mem_cell -> mem_cell) (cs : list mem_cell) : res (list mem_cell) :=
  c ← rd cs i; wr cs i (f c).
Definition rdz (cs : list mem_cell) (x : Z) : res mem_cell := k ← zidx x; rd cs k.
Definition updz (x : Z) (f : mem_cell -> mem_cell) (cs : list mem_cell) : res (list mem_cell) :=
  k ← zidx x; upd k f cs.

(** ** Constructor *)

(** [alloc_ctx] and [alloc_buf]: the contexts and the buffers could be allocated. *)
Definition llama_memory_recurrent_new (ggml_row_size : Z -> Z -> Z) (hp : llama_hparams) (type_r type_s : Z)
    (mem_size n_seq_max : nat) (filter : option (nat -> bool)) (alloc_ctx alloc_buf : bool)
    : res llama_memory_recurrent :=
  let tensor ty ne :=
    mk_rst ty (replicate (Z.to_nat (ggml_row_size ty (u32 (ne * Z.of_nat mem_size)))) 0) in
  ls ← foldM (fun '(r, s) il =>
         if match filter with Some f => negb (f il) | None => false end then Ok (r ++ [None], s ++ [None])
         else if negb alloc_ctx then Throw "failed to create ggml context for rs cache"
         else Ok (r ++ [Some (tensor type_r (n_embd_r hp))], s ++ [Some (tensor type_s (n_embd_s hp))]))
       ([], []) (seq 0 (n_layer hp));
  if alloc_buf then
    Ok (mk_rec hp n_seq_max 0 mem_size 0 0 (-1) (replicate mem_size mem_cell_new) ls.1 ls.2)
  else Throw "failed to allocate buffer for rs cache".

(** ** Operations on sequences *)

(** [ggml_backend_buffer_clear(buf, 0)] on every buffer. *)
Definition zero_tensor (t : option rs_tensor) : option rs_tensor :=
  (fun t => mk_rst (t_type t) (map (fun _ => 0) (t_data t))) <$> t.

Definition rec_clear (data : bool) (m : llama_memory_recurrent) : res llama_memory_recurrent :=
  cs ← foldM (fun cs i => upd i (fun c => set_tail (-1) (set_src (-1) (set_seq ∅ (set_pos (-1) c)))) cs)
         (rm_cells m) (seq 0 (rm_size m));
  let m1 := with_state 0 0 cs m in
  Ok (if data then with_tensors (zero_tensor <$> rm_r_l m) (zero_tensor <$> rm_s_l m) m1 else m1).

(** The defaults of a range of positions. *)
Definition range_lo (p0 : Z) : Z := if p0 <? 0 then 0 else p0.
Definition range_hi (p1 : Z) : Z := if p1 <? 0 then INT32_MAX else p1.

(** One cell of the loop of [seq_rm]; the state is the cells, [used] and [new_head]. *)
Definition seq_rm_cell (size : nat) (seq_id p0 p1 : Z) (st : list mem_cell * Z * nat) (i : nat)
    : res (list mem_cell * Z * nat) :=
  let '(cs, used, new_head) := st in
  c ← rd cs i;
  if (m_pos c >=? p0) && (m_pos c <? p1) && ((seq_id <? 0) || has_seq_id c seq_id) then
    cs1 ← upd i (if seq_id <? 0 then set_seq ∅ else seq_erase seq_id) cs;
    c1 ← rd cs1 i;
    if mcell_is_empty c1 then
      let used1 := if m_pos c1 >=? 0 then u32 (used - 1) else used in
      cs2 ← upd i (fun c => set_src (-1) (set_pos (-1) c)) cs1;
      Ok (cs2, used1, if (new_head =? size)%nat then i else new_head)
    else Ok (cs1, used, new_head)
  else Ok st.

(** Where the search for free cells starts after cells were freed. *)
Definition head_after (size new_head head : nat) : nat :=
  if negb (new_head =? size)%nat && (new_head <? head)%nat then new_head else head.

(** The checks before the loop: [None] when the range is refused. *)
Definition seq_rm_tail (m : llama_memory_recurrent) (seq_id p0 p1 : Z) : res (option (list mem_cell)) :=
  let cs := rm_cells m in
  if 0 <=? seq_id then
    c ← rdz cs seq_id;
    if m_tail c >=? 0 then
      cell ← rdz cs (m_tail c);
      if (0 <? p0) && (p0 <=? m_pos cell) && (p1 >? m_pos cell) then Ok None
      else if (p0 <=? m_pos cell) && (m_pos cell <? p1) then cs' ← updz seq_id (set_tail (-1)) cs; Ok (Some cs')
      else Ok (Some cs)
    else Ok (Some cs)
  else if negb (p0 =? p1) && (negb (p0 =? 0) || negb (p1 =? INT32_MAX)) then Ok None
  else Ok (Some cs).

Definition rec_seq_rm (m : llama_memory_recurrent) (seq_id p0 p1 : Z) : res (llama_memory_recurrent * bool) :=
  let p0 := range_lo p0 in
  let p1 := range_hi p1 in
  if seq_id >=? Z.of_nat (rm_size m) then Ok (m, false)
  else
    t ← seq_rm_tail m seq_id p0 p1;
    match t with
    | None => Ok (m, false)
    | Some cs =>
        st ← foldM (seq_rm_cell (rm_size m) seq_id p0 p1) (cs, rm_used m, rm_size m) (seq 0 (rm_size m));
        let '(cs', used, new_head) := st in
        Ok (with_state (head_after (rm_size m) new_head (rm_head m)) used cs' m, true)
    end.

(** A sequence leaves its cell, which is freed when nothing else uses it: shared by [seq_cp]
    and [find_slot]. *)
Definition release_tail (x : Z) (st : list mem_cell * Z) : res (list mem_cell * Z) :=
  let '(cs, used) := st in
  c ← rdz cs x;
  if m_tail c >=? 0 then
    let t := m_tail c in
    cs1 ← updz t (seq_erase x) cs;
    cs2 ← updz x (set_tail (-1)) cs1;
    cell ← rdz cs2 t;
    if mcell_is_empty cell then
      cs3 ← updz t (fun c => set_src (-1) (set_pos (-1) c)) cs2; Ok (cs3, u32 (used - 1))
    else Ok (cs2, used)
  else Ok st.

(** [(uint32_t) seq_id < size]: a negative id is a large number. *)
Definition below_size (m : llama_memory_recurrent) (x : Z) : bool := u32 x <? Z.of_nat (rm_size m).

Definition rec_seq_cp (m : llama_memory_recurrent) (src dst p0 p1 : Z) : res llama_memory_recurrent :=
  if src =? dst then Ok m
  else if below_size m dst && below_size m src then
    st ← release_tail dst (rm_cells m, rm_used m);
    let '(cs, used) := st in
    c ← rdz cs src;
    if m_tail c >=? 0 then
      cs1 ← updz (m_tail c) (seq_insert dst) cs;
      cs2 ← updz dst (set_tail (m_tail c)) cs1;
      Ok (with_state (rm_head m) used cs2 m)
    else Ok (with_state (rm_head m) used cs m)
  else Ok m.

Definition seq_keep_cell (size : nat) (seq_id : Z) (st : list mem_cell * Z * nat) (i : nat)
    : res (list mem_cell * Z * nat) :=
  let '(cs, used, new_head) := st in
  cs1 ← (if negb (Z.of_nat i =? seq_id) then upd i (set_tail (-1)) cs else Ok cs);
  c ← rd cs1 i;
  if negb (has_seq_id c seq_id) then
    let used1 := if m_pos c >=? 0 then u32 (used - 1) else used in
    cs2 ← upd i (fun c => set_seq ∅ (set_src (-1) (set_pos (-1) c))) cs1;
    Ok (cs2, used1, if (new_head =? size)%nat then i else new_head)
  else cs2 ← upd i (set_seq {[seq_id]}) cs1; Ok (cs2, used, new_head).

Definition rec_seq_keep (m : llama_memory_recurrent) (seq_id : Z) : res llama_memory_recurrent :=
  st ← foldM (seq_keep_cell (rm_size m) seq_id) (rm_cells m, rm_used m, rm_size m) (seq 0 (rm_size m));
  let '(cs, used, new_head) := st in
  Ok (with_state (head_after (rm_size m) new_head (rm_head m)) used cs m).

(** The cell of [seq_id] gets the position [f pos] when it is in the range. *)
Definition change_pos (f : Z -> res Z) (m : llama_memory_recurrent) (seq_id p0 p1 : Z) : res llama_memory_recurrent :=
  let p0 := range_lo p0 in
  let p1 := range_hi p1 in
  if p0 =? p1 then Ok m
  else if (0 <=? seq_id) && (seq_id <? Z.of_nat (rm_size m)) then
    c ← rdz (rm_cells m) seq_id;
    if m_tail c >=? 0 then
      cell ← rdz (rm_cells m) (m_tail c);
      if has_seq_id cell seq_id && (p0 <=? m_pos cell) && (m_pos cell <? p1) then
        p ← f (m_pos cell);
        cs ← updz (m_tail c) (set_pos p) (rm_cells m);
        Ok (with_state (rm_head m) (rm_used m) cs m)
      else Ok m
    else Ok m
  else Ok m.

Definition rec_seq_add (m : llama_memory_recurrent) (seq_id p0 p1 shift : Z) : res llama_memory_recurrent :=
  if shift =? 0 then Ok m else change_pos (fun p => i32 (p + shift)) m seq_id p0 p1.

Definition rec_seq_div (m : llama_memory_recurrent) (seq_id p0 p1 d : Z) : res llama_memory_recurrent :=
  if d =? 1 then Ok m
  else change_pos (fun p => if d =? 0 then Fault Overflow else i32 (Z.quot p d)) m seq_id p0 p1.

Definition rec_seq_pos_min (m : llama_memory_recurrent) (seq_id : Z) : res Z :=
  r ← foldM (fun r i => c ← rd (rm_cells m) i;
               Ok (if has_seq_id c seq_id then Z.min r (m_pos c) else r)) INT32_MAX (seq 0 (rm_size m));
  Ok (if r =? INT32_MAX then -1 else r).

Definition rec_seq_pos_max (m : llama_memory_recurrent) (seq_id : Z) : res Z :=
  foldM (fun r i => c ← rd (rm_cells m) i;
           Ok (if has_seq_id c seq_id then Z.max r (m_pos c) else r)) (-1) (seq 0 (rm_size m)).

#[export] Instance llama_memory_recurrent_memory : LlamaMemory llama_memory_recurrent := {|
  mem_seq_pos_min := rec_seq_pos_min; mem_seq_pos_max := rec_seq_pos_max
|}.

Definition rec_get_can_shift (m : llama_memory_recurrent) : bool := true.

(** ** find_slot *)

(** The first token of the set [s] of a micro-batch, and entries of that token. *)
Definition first_token (u : llama_ubatch) (s : nat) : nat := (s * ub_n_seq_tokens u)%nat.
Definition ub_seq_at (u : llama_ubatch) (i j : nat) : res Z := l ← rd (ub_seq_id u) i; rd l j.
Definition first_seq (u : llama_ubatch) (s : nat) : res Z := ub_seq_at u (first_token u s) 0.

(** Every sequence id must be below the size; the ids of a set but the first leave their
    cells.  [inr]: [return false]. *)
Definition check_seq (size : nat) (u : llama_ubatch) (i : nat) (st : list mem_cell * Z) (j : nat)
    : res (list mem_cell * Z + list mem_cell * Z) :=
  x ← ub_seq_at u i j;
  if (x <? 0) || (x >=? Z.of_nat size) then Ok (inr st)
  else if (0 <? j)%nat then st' ← release_tail x st; Ok (inl st')
  else Ok (inl st).

Definition check_set (size : nat) (u : llama_ubatch) (st : list mem_cell * Z) (s : nat)
    : res (list mem_cell * Z + list mem_cell * Z) :=
  let i := first_token u s in
  n ← rd (ub_n_seq_id u) i;
  foldB (check_seq size u i) st (seq 0 (Z.to_nat (u32 n))).

(** The search for an empty cell: [size] steps from [start]; the second argument says
    whether a step moves on before it looks. *)
Definition next_empty (size : nat) (cs : list mem_cell) (move_first : bool) (start : nat) : res nat :=
  let wrap (k : nat) := if (size <=? k)%nat then (k - size)%nat else k in
  r ← foldB (fun (k : nat) (_ : nat) =>
        let k' := wrap (if move_first then (k + 1)%nat else k) in
        c ← rd cs k';
        if mcell_is_empty c then Ok (inr k') else Ok (inl (if move_first then k' else (k' + 1)%nat)))
      start (seq 0 size);
  Ok (match r with inl k | inr k => k end).

(** Does the sequence own its cell? *)
Definition owns_cell (cs : list mem_cell) (x : Z) (meta : mem_cell) : res bool :=
  if m_tail meta >=? 0 then
    c ← rdz cs (m_tail meta);
    assert_ (has_seq_id c x) ;;
    Ok (size (m_seq c) =? 1)%nat
  else Ok false.

(** The old tail of the sequence [x] is copied into the empty cell [e]. *)
Definition copy_tail (cs : list mem_cell) (x t : Z) (e : nat) : res (list mem_cell) :=
  orig ← rdz cs t;
  cs1 ← upd e (fun c => set_src (m_src orig) (set_pos (m_pos orig) c)) cs;
  cs2 ← updz t (seq_erase x) cs1;
  cs3 ← upd e (seq_insert x) cs2;
  orig' ← rdz cs3 t;
  assert_ (negb (mcell_is_empty orig')) ;;
  Ok cs3.

(** One iteration of the loop that gives every set a cell of its own. *)
Definition place_set (size : nat) (u : llama_ubatch) (st : list mem_cell * nat * Z * Z) (s : nat)
    : res (list mem_cell * nat * Z * Z) :=
  let '(cs, e, mn, mx) := st in
  x ← first_seq u s;
  meta ← rdz cs x;
  own ← owns_cell cs x meta;
  r ← (if (own : bool) then Ok (cs, e)
       else
         ec ← rd cs e;
         assert_ (mcell_is_empty ec) ;;
         cs1 ← (if m_tail meta >=? 0 then copy_tail cs x (m_tail meta) e else Ok cs);
         cs2 ← updz x (set_tail (Z.of_nat e)) cs1;
         e' ← (if (s + 1 <? ub_n_seqs u)%nat then next_empty size cs2 true e else Ok e);
         Ok (cs2, e'));
  let '(cs', e') := r in
  meta' ← rdz cs' x;
  let t := m_tail meta' in
  Ok (cs', e', if mn >? t then t else mn, if mx <? t then t else mx).

(** One set moves to its place from [mn] on: the cells are exchanged, and the tails. *)
Definition swap_tails (src dst : Z) (c : mem_cell) : mem_cell :=
  if m_tail c =? src then set_tail dst c else if m_tail c =? dst then set_tail src c else c.

Definition gather_set (size : nat) (u : llama_ubatch) (mn : Z) (cs : list mem_cell) (s : nat)
    : res (list mem_cell) :=
  x ← first_seq u s;
  meta ← rdz cs x;
  let dst := Z.of_nat s + mn in
  let src := m_tail meta in
  if dst =? src then Ok cs
  else
    d ← rdz cs dst;
    c ← rdz cs src;
    cs1 ← updz dst (fun a => set_seq (m_seq c) (set_src (m_src c) (set_pos (m_pos c) a))) cs;
    cs2 ← updz src (fun a => set_seq (m_seq d) (set_src (m_src d) (set_pos (m_pos d) a))) cs1;
    foldM (fun cs j => upd j (swap_tails src dst) cs) cs2 (seq 0 size).

(** The cell of a set gets the last position and the ids of the set; the sum of the warning
    about positions that are not consecutive can overflow. *)
Definition update_set (u : llama_ubatch) (mn : Z) (cs : list mem_cell) (s : nat) : res (list mem_cell) :=
  let i := first_token u s in
  last_pos ← rd (ub_pos u) (Z.to_nat (u32 (Z.of_nat (i + ub_n_seq_tokens u) - 1)));
  let cell_id := Z.of_nat s + mn in
  c ← rdz cs cell_id;
  (if m_pos c >=? 0 then i32 (m_pos c + to_i32 (Z.of_nat (ub_n_seq_tokens u))) else Ok 0) ;;
  cs1 ← updz cell_id (fun c => set_seq ∅ (set_pos last_pos c)) cs;
  n ← rd (ub_n_seq_id u) i;
  foldM (fun cs j =>
      x ← ub_seq_at u i j;
      cs' ← updz cell_id (seq_insert x) cs;
      updz x (set_tail cell_id) cs') cs1 (seq 0 (Z.to_nat n)).

(** The numbers of references to the cells as sources, and the first cell of the range
    without one. *)
Definition src_refcounts (size : nat) (cs : list mem_cell) : res (list Z) :=
  foldM (fun rc i =>
      c ← rd cs i;
      if m_src c >=? 0 then k ← zidx (m_src c); n ← rd rc k; wr rc k (n + 1) else Ok rc)
    (replicate size 0) (seq 0 size).

Definition find_rs_z (rc : list Z) (mn mx : Z) : res Z :=
  r ← foldB (fun (_ : unit) i => k ← zidx i; n ← rd rc k; Ok (if n =? 0 then inr i else inl tt))
        tt (seqZ mn (mx - mn + 1));
  Ok (match r with inl _ => -1 | inr i => i end).

(** The sources are staged for the inputs of the graph. *)
Definition stage_src (rs_z mn mx : Z) (cs : list mem_cell) : res (list mem_cell) :=
  foldM (fun cs i =>
      c ← rdz cs i;
      cs1 ← (if m_src c <? 0 then assert_ (rs_z >=? 0) ;; updz i (set_src0 rs_z) cs
             else updz i (set_src0 (m_src c)) cs);
      updz i (set_src i) cs1) cs (seqZ mn (mx - mn + 1)).

Definition count_used (cs : list mem_cell) : nat := countb (fun c => negb (mcell_is_empty c)) cs.

Definition rec_find_slot (m : llama_memory_recurrent) (u : llama_ubatch) : res (llama_memory_recurrent * bool) :=
  let size := rm_size m in
  let n_seqs := ub_n_seqs u in
  let head0 := if Z.of_nat (rm_head m) >? u32 (rm_used m + u32 (2 * Z.of_nat n_seqs)) then 0%nat else rm_head m in
  assert_ (equal_seqs u) ;;
  r ← foldB (check_set size u) (rm_cells m, rm_used m) (seq 0 n_seqs);
  match r with
  | inr (cs, used) => Ok (with_state head0 used cs m, false)
  | inl (cs, _) =>
      e ← next_empty size cs false head0;
      p ← foldM (place_set size u) (cs, e, to_i32 (u32 (Z.of_nat size - 1)), 0) (seq 0 n_seqs);
      let '(cs1, _, mn, mx) := p in
      cs2 ← foldM (gather_set size u mn) cs1 (seq 0 n_seqs);
      cs3 ← foldM (update_set u mn) cs2 (seq 0 n_seqs);
      rc ← src_refcounts size cs3;
      rs_z ← find_rs_z rc mn mx;
      cs4 ← stage_src rs_z mn mx cs3;
      let n := Z.to_nat (u32 (mx - mn + 1)) in
      let m' := with_state (Z.to_nat (u32 mn)) (Z.of_nat (count_used cs4)) cs4 m in
      Ok (with_graph n rs_z m', (n_seqs <=? n)%nat)
  end.

(** A dry run: the cells, [used] and [head] are restored. *)
Definition rec_prepare (m : llama_memory_recurrent) (us : list llama_ubatch) : res (llama_memory_recurrent * bool) :=
  r ← foldB (fun m u => r ← rec_find_slot m u; let '(m', ok) := r in
               Ok (if (ok : bool) then inl m' else inr m')) m us;
  let '(m', success) := match r with inl m' => (m', true) | inr m' => (m', false) end in
  Ok (with_state (rm_head m) (rm_used m) (rm_cells m) m', success).

(** ** The memory context *)

Record llama_memory_recurrent_context := mk_rctx {
  rx_status   : llama_memory_status;
  rx_i_next   : nat;
  rx_ubatches : list llama_ubatch;
  rx_is_full  : bool
}.

Definition rctx_of_status (s : llama_memory_status) := mk_rctx s 0 [] false.
Definition rctx_full := mk_rctx LLAMA_MEMORY_STATUS_SUCCESS 0 [] true.
Definition rctx_batch (us : list llama_ubatch) := mk_rctx LLAMA_MEMORY_STATUS_SUCCESS 0 us false.

Definition rctx_next (x : llama_memory_recurrent_context) : res (llama_memory_recurrent_context * bool) :=
  assert_ (bool_decide (rx_status x = LLAMA_MEMORY_STATUS_SUCCESS)) ;;
  let i := S (rx_i_next x) in
  Ok (mk_rctx (rx_status x) i (rx_ubatches x) (rx_is_full x), (i <? length (rx_ubatches x))%nat).

(** The result of [find_slot] is not looked at. *)
Definition rctx_apply (m : llama_memory_recurrent) (x : llama_memory_recurrent_context)
    : res (llama_memory_recurrent * bool) :=
  assert_ (negb (llama_memory_status_is_fail (rx_status x))) ;;
  match rx_ubatches x with
  | [] => assert_ (bool_decide (rx_status x = LLAMA_MEMORY_STATUS_NO_UPDATE)) ;; Ok (m, true)
  | _ :: _ =>
      u ← rd (rx_ubatches x) (rx_i_next x);
      r ← rec_find_slot m u;
      Ok (r.1, true)
  end.

Definition rctx_get_status (x : llama_memory_recurrent_context) : llama_memory_status := rx_status x.
Definition rctx_get_ubatch (x : llama_memory_recurrent_context) : res llama_ubatch :=
  assert_ (bool_decide (rx_status x = LLAMA_MEMORY_STATUS_SUCCESS)) ;; rd (rx_ubatches x) (rx_i_next x).
Definition get_n_rs (m : llama_memory_recurrent) (x : llama_memory_recurrent_context) : nat :=
  if rx_is_full x then rm_size m else rm_n m.
Definition get_rs_head (m : llama_memory_recurrent) (x : llama_memory_recurrent_context) : nat :=
  if rx_is_full x then 0%nat else rm_head m.
Definition get_rs_z (m : llama_memory_recurrent) (x : llama_memory_recurrent_context) : Z :=
  if rx_is_full x then 0 else rm_rs_z m.
Definition get_rs_size (m : llama_memory_recurrent) : nat := rm_size m.
Definition get_r_l (m : llama_memory_recurrent) (il : nat) : res (option rs_tensor) := rd (rm_r_l m) il.
Definition get_s_l (m : llama_memory_recurrent) (il : nat) : res (option rs_tensor) := rd (rm_s_l m) il.
Definition s_copy (m : llama_memory_recurrent) (i : nat) : res Z :=
  c ← rd (rm_cells m) (i + rm_head m)%nat; Ok (m_src0 c).

(** ** Contexts of the memory *)

Definition rec_split (embd_all : bool) (n_ubatch : nat) (a : llama_batch_allocr)
    : res (llama_batch_allocr * llama_ubatch) :=
  if embd_all then split_seq a n_ubatch else split_equal a n_ubatch true.

Definition rec_init_batch (m : llama_memory_recurrent) (a : llama_batch_allocr) (n_ubatch : nat) (embd_all : bool)
    : res (llama_memory_recurrent * llama_batch_allocr * llama_memory_recurrent_context) :=
  r ← split_loop (rec_split embd_all n_ubatch) (split_reset a);
  let '(a', ubatches) := r in
  if (get_n_used a' <? get_n_tokens a')%nat then Ok (m, a', rctx_of_status LLAMA_MEMORY_STATUS_FAILED_PREPARE)
  else
    p ← rec_prepare m ubatches;
    let '(m', ok) := p in
    Ok (m', a', if (ok : bool) then rctx_batch ubatches else rctx_of_status LLAMA_MEMORY_STATUS_FAILED_PREPARE).

Definition rec_init_full (m : llama_memory_recurrent) : llama_memory_recurrent_context := rctx_full.
Definition rec_init_update (m : llama_memory_recurrent) : llama_memory_recurrent_context :=
  rctx_of_status LLAMA_MEMORY_STATUS_NO_UPDATE.

(** ** The states of a layer in the graph

    A row is the state of a cell; [scale0] is the multiplication by zero in place. *)

Section graph.
Context {D : Type} (scale0 : D -> D).

(** The input [s_copy] of the graph. *)
Definition set_input_rs (m : llama_memory_recurrent) (x : llama_memory_recurrent_context) : res (list Z) :=
  foldM (fun l i => v ← s_copy m i; Ok (l ++ [v])) [] (seq 0 (get_n_rs m x)).

(** [ggml_get_rows]. *)
Definition get_rows (states : list D) (ids : list Z) : res (list D) :=
  foldM (fun l i => k ← zidx i; r ← rd states k; Ok (l ++ [r])) [] ids.

(** [ggml_cpy] into the rows from [k] on. *)
Definition put_rows (states : list D) (k : nat) (rows : list D) : res (list D) :=
  foldM (fun acc i => r ← rd rows i; wr acc (k + i)%nat r) states (seq 0 (length rows)).

(** The new rows of the tensor, and the states that the layer starts from. *)
Definition build_rs (states : list D) (s_copy_ids : list Z) (n_seqs n_rs rs_head : nat) (rs_zero : Z)
    : res (list D * list D) :=
  states1 ← (if rs_zero >=? 0 then r ← rd states (Z.to_nat rs_zero); wr states (Z.to_nat rs_zero) (scale0 r)
             else Ok states);
  output_states ← get_rows states1 (take n_seqs s_copy_ids);
  states_extra ← get_rows states1 (drop n_seqs s_copy_ids);
  assert_ (length states_extra =? n_rs - n_seqs)%nat ;;
  states2 ← put_rows states1 (rs_head + n_seqs)%nat states_extra;
  Ok (states2, output_states).
End graph.

(** ** State: writing

    The data is never transposed: [s_trans] is the constant 0 when it is written, and a
    reader refuses any other value, so the branches for transposed data cannot run. *)

(** A [std::set] is visited in increasing order. *)
Definition sorted_ids (u : gset Z) : list Z := merge_sort Z.le (elements u).

Definition mcell_saved (m : llama_memory_recurrent) (seq_id : Z) (i : nat) : res bool :=
  c ← rd (rm_cells m) i;
  Ok (((seq_id =? -1) && negb (mcell_is_empty c)) || has_seq_id c seq_id).

Definition rec_write_cell (m : llama_memory_recurrent) (seq_id : Z) (io : llama_io_write_buffer) (i : nat)
    : res llama_io_write_buffer :=
  c ← rd (rm_cells m) i;
  let ids := if seq_id =? -1 then sorted_ids (m_seq c) else [] in
  io1 ← write_i32 io (m_pos c);
  io2 ← write_u32 io1 (Z.of_nat (length ids));
  foldM write_i32 io2 ids.

Definition rec_write_meta (m : llama_memory_recurrent) (data : list (nat * nat)) (seq_id : Z)
    (io : llama_io_write_buffer) : res llama_io_write_buffer :=
  foldM (rec_write_cell m seq_id) io (range_cells data).

Section state.
(** [ggml_row_size], in bytes. *)
Context (ggml_row_size : Z -> Z -> Z).

(** The tensors of all layers, null ones skipped. *)
Definition rec_write_layers (ts : list (option rs_tensor)) (n_layer : nat) (ne : Z) (data : list (nat * nat))
    (io : llama_io_write_buffer) : res llama_io_write_buffer :=
  foldM (fun io il =>
      o ← rd ts il;
      match o with
      | None => Ok io
      | Some t => write_rows ggml_row_size (t_data t) (t_type t) ne data io
      end) io (seq 0 n_layer).

Definition rec_write_data (m : llama_memory_recurrent) (data : list (nat * nat)) (io : llama_io_write_buffer)
    : res llama_io_write_buffer :=
  let nl := n_layer (rm_hparams m) in
  io1 ← write_u32 io 0;
  io2 ← write_u32 io1 (Z.of_nat nl);
  io3 ← rec_write_layers (rm_r_l m) nl (n_embd_r (rm_hparams m)) data io2;
  rec_write_layers (rm_s_l m) nl (n_embd_s (rm_hparams m)) data io3.

Definition rec_state_write (m : llama_memory_recurrent) (seq_id : Z) (io : llama_io_write_buffer)
    : res llama_io_write_buffer :=
  cr ← cell_ranges (rm_size m) (mcell_saved m seq_id);
  let '(count, data) := cr in
  io1 ← write_u32 io (Z.of_nat count);
  io2 ← rec_write_meta m data seq_id io1;
  rec_write_data m data io2.

(** ** State: reading *)

(** The metadata of one cell of a single sequence: [inr] when it names sequences. *)
Definition rec_read_single (st : llama_io_read_buffer * list Z) (i : nat)
    : res (llama_io_read_buffer * list Z + llama_io_read_buffer) :=
  let '(io, pos) := st in
  p ← read_i32 io;
  n ← read_u32 p.2;
  if negb (n.1 =? 0) then Ok (inr n.2)
  else pos' ← wr pos i p.1; Ok (inl (n.2, pos')).

(** The micro-batch of the restore: the positions, and [dest] as the sequence of token 0. *)
Definition single_ubatch (u : llama_ubatch) (pos : list Z) (dest : Z) : res llama_ubatch :=
  ns ← wr (ub_n_seq_id u) 0 1;
  ss ← wr (ub_seq_id u) 0 [dest];
  Ok (mk_ubatch (b_equal_seqs u) (ub_n_tokens u) (ub_n_seq_tokens u) (ub_n_seqs u) (ub_n_seqs_unq u)
        (ub_n_pos u) (ub_token u) (ub_embd u) pos ns ss (ub_seq_id_unq u) (ub_seq_idx u) (ub_output u)).

(** The end of [state_read_meta]: the restored cells keep their own state. *)
Definition keep_src (m : llama_memory_recurrent) (count : nat) : res llama_memory_recurrent :=
  cs ← foldM (fun cs i => upd (rm_head m + i) (set_src (Z.of_nat (rm_head m + i))) cs)
         (rm_cells m) (seq 0 count);
  Ok (with_state (rm_head m) (rm_used m) cs m).

Abbreviation rec_state := (llama_memory_recurrent * llama_io_read_buffer)%type.

Definition rec_read_meta_single (m : llama_memory_recurrent) (count : nat) (dest : Z) (io : llama_io_read_buffer)
    : res (rec_state * bool) :=
  r ← rec_seq_rm m dest (-1) (-1);
  let m1 := r.1 in
  if (count =? 0)%nat then Ok ((m1, io), true)
  else
    b ← ubatch_reserve (llama_batch_allocr_new (Z.to_nat (n_pos_per_embd (rm_hparams m1)))) count 1;
    l ← foldB rec_read_single (io, ub_pos b.2) (seq 0 count);
    match l with
    | inr io' => Ok ((m1, io'), false)
    | inl (io', pos) =>
        u ← single_ubatch b.2 pos dest;
        f ← rec_find_slot m1 u;
        let '(m2, ok) := f in
        if negb ok then Ok ((m2, io'), false)
        else
          assert_ (rm_head m2 + count <=? rm_size m2)%nat ;;
          c0 ← rd (rm_cells m2) (rm_head m2);
          p0 ← rd (ub_pos u) 0;
          assert_ (m_pos c0 =? p0) ;;
          c1 ← rd (rm_cells m2) (rm_head m2 + count - 1);
          p1 ← rd (ub_pos u) (count - 1);
          assert_ (m_pos c1 =? p1) ;;
          assert_ (has_seq_id c0 dest) ;;
          assert_ (has_seq_id c1 dest) ;;
          m3 ← keep_src m2 count;
          Ok ((m3, io'), true)
    end.

(** One id of cell [i] in a whole restore: [inr] when it is negative or known already. *)
Definition rec_read_id (i : nat) (st : list mem_cell * llama_io_read_buffer) (j : nat)
    : res (list mem_cell * llama_io_read_buffer + list mem_cell * llama_io_read_buffer) :=
  let '(cs, io) := st in
  s ← read_i32 io;
  if s.1 <? 0 then Ok (inr (cs, s.2))
  else
    cs1 ← upd i (seq_insert s.1) cs;
    c ← rdz cs1 s.1;
    if negb (m_tail c =? -1) then Ok (inr (cs1, s.2))
    else cs2 ← updz s.1 (set_tail (Z.of_nat i)) cs1; Ok (inl (cs2, s.2)).

Definition rec_read_cell (st : list mem_cell * llama_io_read_buffer) (i : nat)
    : res (list mem_cell * llama_io_read_buffer + list mem_cell * llama_io_read_buffer) :=
  let '(cs, io) := st in
  p ← read_i32 io;
  n ← read_u32 p.2;
  cs1 ← upd i (set_pos p.1) cs;
  foldB (rec_read_id i) (cs1, n.2) (seq 0 (Z.to_nat n.1)).

Definition rec_read_meta_whole (m : llama_memory_recurrent) (count : nat) (io : llama_io_read_buffer)
    : res (rec_state * bool) :=
  if (rm_size m <? count)%nat then Ok ((m, io), false)
  else
    m1 ← rec_clear true m;
    l ← foldB rec_read_cell (rm_cells m1, io) (seq 0 count);
    match l with
    | inr (cs, io') => Ok ((with_state (rm_head m1) (rm_used m1) cs m1, io'), false)
    | inl (cs, io') =>
        m2 ← keep_src (with_state 0 (Z.of_nat count) cs m1) count;
        Ok ((m2, io'), true)
    end.

Definition rec_read_meta (m : llama_memory_recurrent) (count : nat) (dest : Z) (io : llama_io_read_buffer)
    : res (rec_state * bool) :=
  if negb (dest =? -1) then rec_read_meta_single m count dest io else rec_read_meta_whole m count io.

(** One tensor: [None] when its description does not match. *)
Definition rec_read_tensor (head count : nat) (ne : Z) (t : rs_tensor) (io : llama_io_read_buffer)
    : res (option rs_tensor * llama_io_read_buffer) :=
  a ← read_i32 io;
  if negb (t_type t =? a.1) then Ok (None, a.2)
  else
    b ← read_u64 a.2;
    let size_row := ggml_row_size (t_type t) ne in
    if negb (size_row =? b.1) then Ok (None, b.2)
    else if (count =? 0)%nat then Ok (Some t, b.2)
    else
      let sr := Z.to_nat size_row in
      d ← io_read b.2 (count * sr)%nat;
      t' ← tensor_set (t_data t) (head * sr)%nat d.1;
      Ok (Some (mk_rst (t_type t) t'), d.2).

(** The loop over the layers: [inr] when one does not match. *)
Definition rec_read_layer (head count : nat) (ne : Z) (st : list (option rs_tensor) * llama_io_read_buffer) (il : nat)
    : res (list (option rs_tensor) * llama_io_read_buffer + list (option rs_tensor) * llama_io_read_buffer) :=
  let '(ts, io) := st in
  o ← rd ts il;
  match o with
  | None => Ok (inl (ts, io))
  | Some t =>
      r ← rec_read_tensor head count ne t io;
      match r.1 with
      | None => Ok (inr (ts, r.2))
      | Some t' => ts' ← wr ts il (Some t'); Ok (inl (ts', r.2))
      end
  end.

Definition rec_read_data (m : llama_memory_recurrent) (count : nat) (io : llama_io_read_buffer)
    : res (rec_state * bool) :=
  let nl := n_layer (rm_hparams m) in
  a ← read_u32 io;
  b ← read_u32 a.2;
  if negb (b.1 =? Z.of_nat nl) then Ok ((m, b.2), false)
  else if (rm_size m <? count)%nat then Ok ((m, b.2), false)
  else if negb (a.1 =? 0) then Ok ((m, b.2), false)
  else
    r ← foldB (rec_read_layer (rm_head m) count (n_embd_r (rm_hparams m))) (rm_r_l m, b.2) (seq 0 nl);
    match r with
    | inr (rs, io1) => Ok ((with_tensors rs (rm_s_l m) m, io1), false)
    | inl (rs, io1) =>
        s ← foldB (rec_read_layer (rm_head m) count (n_embd_s (rm_hparams m))) (rm_s_l m, io1) (seq 0 nl);
        match s with
        | inr (ss, io2) => Ok ((with_tensors rs ss m, io2), false)
        | inl (ss, io2) => Ok ((with_tensors rs ss m, io2), true)
        end
    end.

(** [inr]: the exception of a failed restore, with the memory after the clean-up. *)
Definition rec_state_read (m : llama_memory_recurrent) (seq_id : Z) (io : llama_io_read_buffer)
    : res (rec_state + llama_memory_recurrent * string) :=
  n ← read_u32 io;
  let count := Z.to_nat n.1 in
  r1 ← rec_read_meta m count seq_id n.2;
  let '((m1, io1), ok1) := r1 in
  r2 ← (if (ok1 : bool) then rec_read_data m1 count io1 else Ok ((m1, io1), false));
  let '((m2, io2), ok2) := r2 in
  if (ok2 : bool) then Ok (inl (m2, io2))
  else
    m3 ← (if seq_id =? -1 then rec_clear true m2 else r ← rec_seq_rm m2 seq_id (-1) (-1); Ok r.1);
    Ok (inr (m3, "failed to restore kv cache"%string)).
End state.
