(* ===== verification/RecurrentOk.v ===== *)
(** The operations on sequences of the recurrent memory (Recurrent.v): the invariant that
    ties the tails to the sets of the cells, and the abstract machine that the memory
    implements, a partial map from sequences to a position, a state and the set of
    sequences that share it. *)

From S2P Require Import Prelude Hparams KvCells Memory Batch KvState Recurrent.
Local Open Scope Z_scope.

(** ** Cells by index *)

Definition cell_at (cs : list mem_cell) (i : nat) : mem_cell := default mem_cell_new (cs !! i).
Abbreviation zat cs x := (cell_at cs (Z.to_nat x)).

Lemma cell_at_ge cs i : (length cs <= i)%nat -> cell_at cs i = mem_cell_new.
Proof. intros H. unfold cell_at. by rewrite lookup_ge_None_2. Qed.

Lemma rd_at cs i : (i < length cs)%nat -> rd cs i = Ok (cell_at cs i).
Proof. intros [c Hc]%lookup_lt_is_Some_2. unfold rd, cell_at. by rewrite Hc. Qed.

Lemma rdz_at cs x : 0 <= x < Z.of_nat (length cs) -> rdz cs x = Ok (zat cs x).
Proof. intros H. unfold rdz, zidx. rewrite (proj2 (Z.leb_le 0 x)), bind_ok by lia. apply rd_at. lia. Qed.

Lemma upd_at i f cs : (i < length cs)%nat -> upd i f cs = Ok (<[i := f (cell_at cs i)]> cs).
Proof. intros H. unfold upd. by rewrite rd_at, bind_ok, wr_ok. Qed.

Lemma updz_at x f cs :
  0 <= x < Z.of_nat (length cs) -> updz x f cs = Ok (<[Z.to_nat x := f (zat cs x)]> cs).
Proof. intros H. unfold updz, zidx. rewrite (proj2 (Z.leb_le 0 x)), bind_ok by lia. apply upd_at. lia. Qed.

Lemma cell_at_insert i c cs j :
  (i < length cs)%nat -> cell_at (<[i := c]> cs) j = if decide (j = i) then c else cell_at cs j.
Proof.
  intros H. unfold cell_at. case_decide as E; [subst; by rewrite list_lookup_insert_eq|].
  by rewrite list_lookup_insert_ne by done.
Qed.

Lemma cell_at_eq cs i : (i < length cs)%nat -> cs !! i = Some (cell_at cs i).
Proof. intros [c Hc]%lookup_lt_is_Some_2. unfold cell_at. by rewrite Hc. Qed.

Lemma empty_spec c : mcell_is_empty c = bool_decide (m_seq c = ∅).
Proof. done. Qed.

Definition busy (c : mem_cell) : nat := Nat.b2n (negb (mcell_is_empty c)).

Lemma count_insert cs i c :
  (i < length cs)%nat -> (count_used (<[i := c]> cs) + busy (cell_at cs i) = count_used cs + busy c)%nat.
Proof. intros H. apply (countb_insert (fun c => negb (mcell_is_empty c))). by apply cell_at_eq. Qed.

Lemma count_used_le cs : (count_used cs <= length cs)%nat.
Proof.
  unfold count_used, countb. induction cs as [|c cs IH]; simpl; [lia|].
  pose proof (Nat.b2n_le_1 (negb (mcell_is_empty c))). lia.
Qed.

(** ** The invariant *)

(** The tail of a sequence names the only cell that holds it; an occupied cell has a
    position and is its own source; a free cell has no position. *)
Record cells_ok (cs : list mem_cell) : Prop := {
  co_tail : forall k, -1 <= m_tail (cell_at cs k);
  co_seq : forall t x, x ∈ m_seq (cell_at cs t) <-> 0 <= x /\ m_tail (zat cs x) = Z.of_nat t;
  co_free : forall i, m_seq (cell_at cs i) = ∅ ->
    m_pos (cell_at cs i) = -1 /\ (m_src (cell_at cs i) = -1 \/ m_src (cell_at cs i) = Z.of_nat i);
  co_busy : forall i, m_seq (cell_at cs i) <> ∅ ->
    0 <= m_pos (cell_at cs i) < INT32_MAX /\ m_src (cell_at cs i) = Z.of_nat i
}.

Record rec_inv (m : llama_memory_recurrent) : Prop := {
  ri_len : length (rm_cells m) = rm_size m;
  ri_max : Z.of_nat (rm_size m) <= INT32_MAX;
  ri_head : (rm_head m <= rm_size m)%nat;
  ri_used : rm_used m = Z.of_nat (count_used (rm_cells m));
  ri_cells : cells_ok (rm_cells m)
}.

Section cells_lemmas.
Context (cs : list mem_cell) (C : cells_ok cs).

(** The tail of a sequence, as an index. *)
Lemma tail_some x : 0 <= x -> 0 <= m_tail (zat cs x) ->
  x < Z.of_nat (length cs) /\ m_tail (zat cs x) < Z.of_nat (length cs) /\ x ∈ m_seq (zat cs (m_tail (zat cs x))).
Proof.
  intros Hx Ht.
  assert (Hin : x ∈ m_seq (zat cs (m_tail (zat cs x)))) by (apply (co_seq cs C); split; [done|lia]).
  split; [|split; [|done]]; apply Z.lt_nge; intros Hge.
  - rewrite (cell_at_ge cs (Z.to_nat x)) in Ht by lia. cbn in Ht. lia.
  - rewrite (cell_at_ge cs (Z.to_nat (m_tail _))) in Hin by lia. cbn in Hin. set_solver.
Qed.

Lemma seq_in t x : x ∈ m_seq (cell_at cs t) ->
  0 <= x < Z.of_nat (length cs) /\ (t < length cs)%nat /\ m_tail (zat cs x) = Z.of_nat t.
Proof.
  intros [Hx Ht]%(co_seq cs C). destruct (tail_some x) as (H1 & H2 & _); [done|lia|]. rewrite Ht in *. lia.
Qed.

Lemma tail_none x : m_tail (zat cs x) < 0 -> forall t, x ∉ m_seq (cell_at cs t).
Proof. intros Hn t Hin. apply seq_in in Hin. lia. Qed.

Lemma pos_of_busy i x : x ∈ m_seq (cell_at cs i) ->
  0 <= m_pos (cell_at cs i) < INT32_MAX /\ m_src (cell_at cs i) = Z.of_nat i.
Proof. intros H. apply (co_busy cs C). set_solver. Qed.

Lemma pos_busy_iff i : m_pos (cell_at cs i) >= 0 <-> m_seq (cell_at cs i) <> ∅.
Proof.
  split; [|intros H; apply (co_busy cs C) in H; lia].
  intros H E. apply (co_free cs C) in E. lia.
Qed.
End cells_lemmas.

(** ** The abstract machine *)

Section machine.
Context {D : Type}.

(** What is known of a sequence: its last position, the sequences that share its state, and
    the state itself. *)
Abbreviation entry := (Z * gset Z * option D)%type.
Abbreviation machine := (Z -> option entry).

Definition seq_state (rows : list D) (cs : list mem_cell) : machine := fun x =>
  let t := m_tail (zat cs x) in
  if (0 <=? x) && (0 <=? t) then Some (m_pos (zat cs t), m_seq (zat cs t), rows !! Z.to_nat t) else None.

(** The sequence [x] is forgotten. *)
Definition r_release (x : Z) (v : machine) : machine := fun y =>
  if decide (y = x) then None else (fun '(p, g, d) => (p, g ∖ {[x]}, d)) <$> v y.

(** [seq_rm]: refused when the range takes off the end of the sequence but not all of it. *)
Definition r_rm (size : nat) (x p0 p1 : Z) (v : machine) : machine * bool :=
  let p0 := range_lo p0 in
  let p1 := range_hi p1 in
  if x >=? Z.of_nat size then (v, false)
  else if x <? 0 then (v, (p0 =? p1) || ((p0 =? 0) && (p1 =? INT32_MAX)))
  else
    match v x with
    | None => (v, true)
    | Some (p, _, _) =>
        if (p0 <=? p) && (p <? p1) then (if 0 <? p0 then (v, false) else (r_release x v, true)) else (v, true)
    end.

Definition in_size (size : nat) (x : Z) : bool := (0 <=? x) && (x <? Z.of_nat size).

Definition r_cp (size : nat) (src dst : Z) (v : machine) : machine :=
  if (src =? dst) || negb (in_size size src) || negb (in_size size dst) then v
  else
    let v1 := r_release dst v in
    match v1 src with
    | None => v1
    | Some (p, g, d) => fun y => if decide (y ∈ {[dst]} ∪ g) then Some (p, {[dst]} ∪ g, d) else v1 y
    end.

Definition r_keep (x : Z) (v : machine) : machine := fun y =>
  if decide (y = x) then (fun '(p, _, d) => (p, {[x]}, d)) <$> v y else None.

(** The position of the state of [x] changes, for all the sequences that share it. *)
Definition r_move (f : Z -> Z) (x p0 p1 : Z) (v : machine) : machine := fun y =>
  (fun '(p, g, d) =>
     if bool_decide (x ∈ g) && (range_lo p0 <=? p) && (p <? range_hi p1) then (f p, g, d) else (p, g, d)) <$> v y.

Inductive rec_op :=
  | Clear (data : bool)
  | SeqRm (x p0 p1 : Z)
  | SeqCp (src dst p0 p1 : Z)
  | SeqKeep (x : Z)
  | SeqAdd (x p0 p1 shift : Z)
  | SeqDiv (x p0 p1 d : Z).

(** Operations of the memory, and of the machine. *)
Definition rec_exec (m : llama_memory_recurrent) (op : rec_op) : res (llama_memory_recurrent * bool) :=
  let ret m := Ok (m, true) in
  match op with
  | Clear data => rec_clear data m ≫= ret
  | SeqRm x p0 p1 => rec_seq_rm m x p0 p1
  | SeqCp src dst p0 p1 => rec_seq_cp m src dst p0 p1 ≫= ret
  | SeqKeep x => rec_seq_keep m x ≫= ret
  | SeqAdd x p0 p1 shift => rec_seq_add m x p0 p1 shift ≫= ret
  | SeqDiv x p0 p1 d => rec_seq_div m x p0 p1 d ≫= ret
  end.

Definition rec_spec (size : nat) (op : rec_op) (v : machine) : machine * bool :=
  match op with
  | Clear _ => (fun _ => None, true)
  | SeqRm x p0 p1 => r_rm size x p0 p1 v
  | SeqCp src dst _ _ => (r_cp size src dst v, true)
  | SeqKeep x => (r_keep x v, true)
  | SeqAdd x p0 p1 shift => (r_move (fun p => p + shift) x p0 p1 v, true)
  | SeqDiv x p0 p1 d => (r_move (fun p => Z.quot p d) x p0 p1 v, true)
  end.

(** The new position of [x] stays a position. *)
Definition move_ok (f : Z -> Z) (x p0 p1 : Z) (v : machine) : Prop :=
  forall p g d, v x = Some (p, g, d) -> range_lo p0 <= p < range_hi p1 -> 0 <= f p < INT32_MAX.

(** What the operations need: no removal of all sequences at once (a negative id with an
    empty range only), and moved positions stay positions. *)
Definition op_ok (op : rec_op) (v : machine) : Prop :=
  match op with
  | SeqRm x p0 p1 => 0 <= x \/ range_lo p0 = range_hi p1 \/ 0 < range_lo p0 \/ range_hi p1 < INT32_MAX
  | SeqCp src dst _ _ => INT32_MIN <= src <= INT32_MAX /\ INT32_MIN <= dst <= INT32_MAX
  | SeqAdd x p0 p1 shift => move_ok (fun p => p + shift) x p0 p1 v
  | SeqDiv x p0 p1 d => d <> 0 /\ move_ok (fun p => Z.quot p d) x p0 p1 v
  | _ => True
  end.
End machine.

(** ** A sequence leaves its cell *)

(** Cells that differ in their tails or staged sources only. *)
Definition same_body (c d : mem_cell) : Prop := m_pos c = m_pos d /\ m_src c = m_src d /\ m_seq c = m_seq d.

(** The body of a cell that [x] leaves. *)
Definition erased (x : Z) (c : mem_cell) : mem_cell :=
  if decide (x ∈ m_seq c) then
    let c' := seq_erase x c in
    if mcell_is_empty c' then set_src (-1) (set_pos (-1) c') else c'
  else c.

Record released (x : Z) (cs cs' : list mem_cell) : Prop := {
  rl_len : length cs' = length cs;
  rl_tail : forall k, m_tail (cell_at cs' k) = if decide (Z.of_nat k = x) then -1 else m_tail (cell_at cs k);
  rl_body : forall i, same_body (cell_at cs' i) (erased x (cell_at cs i))
}.

Lemma erased_seq x c : m_seq (erased x c) = m_seq c ∖ {[x]}.
Proof. unfold erased. case_decide; [by destruct (mcell_is_empty _)|set_solver]. Qed.

Lemma erased_busy x c : m_seq c ∖ {[x]} <> ∅ -> m_pos (erased x c) = m_pos c /\ m_src (erased x c) = m_src c.
Proof.
  intros H. unfold erased. case_decide; [|done]. unfold mcell_is_empty. simpl. by rewrite bool_decide_eq_false_2.
Qed.

Lemma erased_free x c : x ∈ m_seq c -> m_seq c ∖ {[x]} = ∅ -> m_pos (erased x c) = -1 /\ m_src (erased x c) = -1.
Proof.
  intros Hx H. unfold erased. rewrite decide_True by done. unfold mcell_is_empty. simpl. by rewrite bool_decide_eq_true_2.
Qed.

Section released.
Context {D : Type} (rows : list D) (x : Z) (cs cs' : list mem_cell).
Context (C : cells_ok cs) (Hx : 0 <= x) (R : released x cs cs').

Lemma released_ok : cells_ok cs'.
Proof.
  split.
  - intros k. rewrite (rl_tail _ _ _ R). case_decide; [lia|apply (co_tail cs C)].
  - intros t y. destruct (rl_body _ _ _ R t) as (_ & _ & ->). rewrite erased_seq, (rl_tail _ _ _ R).
    rewrite elem_of_difference, elem_of_singleton, (co_seq cs C). case_decide as E; split; intros H; lia.
  - intros i. destruct (rl_body _ _ _ R i) as (-> & -> & ->). rewrite erased_seq. intros E.
    destruct (decide (x ∈ m_seq (cell_at cs i))) as [Hin|Hni]; [destruct (erased_free _ _ Hin E); lia|].
    unfold erased. rewrite decide_False by done. apply (co_free cs C). set_solver.
  - intros i. destruct (rl_body _ _ _ R i) as (-> & -> & ->). rewrite erased_seq. intros E.
    destruct (erased_busy _ _ E) as [-> ->]. apply (co_busy cs C). set_solver.
Qed.

Lemma released_state y : seq_state rows cs' y = r_release x (seq_state rows cs) y.
Proof.
  unfold seq_state at 1, r_release, seq_state. rewrite (rl_tail _ _ _ R).
  destruct (Z.leb_spec 0 y) as [Hy|Hy]; cbn [andb]; [|by case_decide].
  rewrite Z2Nat.id by done. case_decide as E; [done|].
  destruct (Z.leb_spec 0 (m_tail (zat cs y))) as [Ht|Ht]; [|done]. cbn [fmap option_fmap option_map].
  destruct (tail_some cs C y Hy Ht) as (_ & _ & Hin). set (t := m_tail (zat cs y)) in *.
  destruct (rl_body _ _ _ R (Z.to_nat t)) as (-> & _ & ->). rewrite erased_seq.
  by rewrite (proj1 (erased_busy x (zat cs t) ltac:(set_solver))).
Qed.
End released.

(** A sequence without a cell. *)
Lemma released_absent x cs : cells_ok cs -> m_tail (zat cs x) < 0 -> released x cs cs.
Proof.
  intros C Hn. split; [done| |].
  - intros k. case_decide as E; [|done]. pose proof (co_tail cs C k). subst x. rewrite Nat2Z.id in Hn. lia.
  - intros i. unfold erased. rewrite decide_False by (by apply tail_none). done.
Qed.

Lemma release_absent {D} (rows : list D) x cs : cells_ok cs -> m_tail (zat cs x) < 0 ->
  forall y, r_release x (seq_state rows cs) y = seq_state rows cs y.
Proof.
  intros C Hn y. unfold r_release, seq_state. case_decide as E.
  - subst y. rewrite andb_comm. destruct (Z.leb_spec 0 (m_tail (zat cs x))); [lia|done].
  - destruct (_ && _) eqn:Ea; [|done]. cbn. apply andb_prop in Ea as [Hy Ht].
    pose proof (tail_none cs C x Hn (Z.to_nat (m_tail (zat cs y)))). do 3 f_equal. set_solver.
Qed.

Lemma u32_pred n : (0 < n)%nat -> Z.of_nat n <= INT32_MAX -> u32 (Z.of_nat n - 1) = Z.of_nat (n - 1).
Proof. unfold INT32_MAX. intros. rewrite u32_small; lia. Qed.

Lemma busy_seq c u : busy (set_seq u c) = Nat.b2n (negb (bool_decide (u = ∅))).
Proof. done. Qed.

Lemma busy_1 c x : x ∈ m_seq c -> busy c = 1%nat.
Proof. intros H. unfold busy, mcell_is_empty. rewrite bool_decide_eq_false_2; [done|]. set_solver. Qed.

Lemma release_tail_ok x cs :
  cells_ok cs -> 0 <= x < Z.of_nat (length cs) -> Z.of_nat (length cs) <= INT32_MAX ->
  runs (release_tail x (cs, Z.of_nat (count_used cs))) (fun r =>
    released x cs r.1 /\ r.2 = Z.of_nat (count_used r.1)).
Proof.
  intros C Hx Hm. unfold release_tail. rewrite rdz_at, bind_ok by done.
  destruct (Z.geb_spec (m_tail (zat cs x)) 0) as [Ht|Ht]; [|by apply runs_ok; split; [apply released_absent|]].
  destruct (tail_some cs C x ltac:(lia) Ht) as (_ & Hlt & Hin). set (t := m_tail (zat cs x)) in *.
  rewrite updz_at, bind_ok by lia. rewrite updz_at, bind_ok by (rewrite length_insert; lia).
  rewrite rdz_at, bind_ok by (rewrite !length_insert; lia).
  set (cs1 := <[Z.to_nat t := _]> cs). assert (L1 : length cs1 = length cs) by apply length_insert.
  set (cs2 := <[Z.to_nat x := _]> cs1). assert (L2 : length cs2 = length cs) by (unfold cs2; by rewrite length_insert).
  assert (E1 : forall i, cell_at cs1 i = if decide (i = Z.to_nat t) then seq_erase x (zat cs t) else cell_at cs i).
  { intros i. apply cell_at_insert. lia. }
  assert (E2 : forall i, cell_at cs2 i = if decide (i = Z.to_nat x) then set_tail (-1) (zat cs1 x) else cell_at cs1 i).
  { intros i. apply cell_at_insert. lia. }
  assert (B2 : forall i, same_body (cell_at cs2 i) (cell_at cs1 i)).
  { intros i. rewrite E2. case_decide; [by subst i|done]. }
  assert (T1 : forall k, m_tail (cell_at cs1 k) = m_tail (cell_at cs k)).
  { intros k. rewrite E1. case_decide; [by subst k|done]. }
  assert (T2 : forall k, m_tail (cell_at cs2 k) = if decide (Z.of_nat k = x) then -1 else m_tail (cell_at cs k)).
  { intros k. rewrite E2. destruct (decide (k = Z.to_nat x)), (decide (Z.of_nat k = x)); [done|lia|lia|apply T1]. }
  assert (N1 : (count_used cs1 + 1 = count_used cs + busy (seq_erase x (zat cs t)))%nat).
  { rewrite <- (busy_1 _ _ Hin). apply count_insert. lia. }
  assert (N2 : count_used cs2 = count_used cs1).
  { pose proof (count_insert cs1 (Z.to_nat x) (set_tail (-1) (zat cs1 x))) as H. specialize (H ltac:(lia)).
    unfold busy, mcell_is_empty in H. cbn [set_tail m_seq] in H. unfold cs2. lia. }
  assert (Other : forall i, i <> Z.to_nat t -> erased x (cell_at cs i) = cell_at cs i).
  { intros i Hne. unfold erased. rewrite decide_False; [done|]. intros Hi%(seq_in cs C). lia. }
  pose proof (B2 (Z.to_nat t)) as (Bp & Bs & Bq). rewrite !E1, decide_True in Bp, Bs, Bq by done.
  assert (Et : erased x (zat cs t) = if mcell_is_empty (seq_erase x (zat cs t))
    then set_src (-1) (set_pos (-1) (seq_erase x (zat cs t))) else seq_erase x (zat cs t)).
  { unfold erased. by rewrite decide_True. }
  assert (Em : mcell_is_empty (zat cs2 t) = mcell_is_empty (seq_erase x (zat cs t))) by (unfold mcell_is_empty; by rewrite Bq).
  rewrite Em. destruct (mcell_is_empty (seq_erase x (zat cs t))) eqn:Ee.
  - rewrite updz_at, bind_ok by lia. apply runs_ok. cbn [fst snd].
    set (cs3 := <[Z.to_nat t := _]> cs2). assert (E3 : forall i, cell_at cs3 i = if decide (i = Z.to_nat t)
      then set_src (-1) (set_pos (-1) (zat cs2 t)) else cell_at cs2 i) by (intros i; apply cell_at_insert; lia).
    split; [split|].
    + unfold cs3. by rewrite length_insert.
    + intros k. rewrite <- T2, E3. case_decide; [by subst k|done].
    + intros i. rewrite E3. case_decide as Ei.
      * subst i. rewrite Et. by repeat split.
      * rewrite Other by done. destruct (B2 i) as (? & ? & ?). unfold same_body in *. rewrite E1, decide_False in * by done. done.
    + pose proof (count_insert cs2 (Z.to_nat t) (set_src (-1) (set_pos (-1) (zat cs2 t))) ltac:(lia)) as H3.
      unfold busy in H3, N1. rewrite Ee in N1. unfold mcell_is_empty in H3. cbn in H3, N1. fold cs3 in H3.
      rewrite u32_pred; [f_equal; lia|lia|]. pose proof (count_used_le cs). lia.
  - apply runs_ok. cbn [fst snd]. split; [split|].
    + done.
    + done.
    + intros i. destruct (decide (i = Z.to_nat t)) as [->|Ei].
      * rewrite Et. by repeat split.
      * rewrite Other by done. destruct (B2 i) as (? & ? & ?). unfold same_body in *. rewrite E1, decide_False in * by done. done.
    + unfold busy in N1. rewrite Ee in N1. cbn in N1. lia.
Qed.

(** ** Loops that change every cell *)

(** Cells [0 .. i) are changed by [f]. *)
Definition changed (f : nat -> mem_cell -> mem_cell) (cs : list mem_cell) (i : nat) (cs' : list mem_cell) : Prop :=
  length cs' = length cs /\
  forall j, cell_at cs' j = if decide (j < i)%nat then f j (cell_at cs j) else cell_at cs j.

Lemma changed_0 f cs : changed f cs 0 cs.
Proof. split; [done|]. intros j. by rewrite decide_False by lia. Qed.

Lemma changed_S f cs i cs' :
  changed f cs i cs' -> (i < length cs)%nat -> changed f cs (i + 1) (<[i := f i (cell_at cs' i)]> cs').
Proof.
  intros [L H] Hi. split; [by rewrite length_insert|]. intros j. rewrite cell_at_insert by lia.
  destruct (decide (j = i)) as [->|Hj].
  - rewrite decide_True by lia. by rewrite H, decide_False by lia.
  - rewrite H. destruct (decide (j < i)%nat), (decide (j < i + 1)%nat); [done|lia|lia|done].
Qed.

Lemma changed_same f cs i cs' :
  changed f cs i cs' -> f i (cell_at cs i) = cell_at cs i -> changed f cs (i + 1) cs'.
Proof.
  intros [L H] E. split; [done|]. intros j. rewrite H.
  destruct (decide (j = i)) as [->|]; [rewrite decide_False, decide_True by lia; done|].
  destruct (decide (j < i)%nat), (decide (j < i + 1)%nat); [done|lia|lia|done].
Qed.

Lemma changed_at f cs i cs' : changed f cs i cs' -> cell_at cs' i = cell_at cs i.
Proof. intros [_ H]. by rewrite H, decide_False by lia. Qed.

(** After the loop a cell outside is still the default one. *)
Lemma changed_all f cs cs' j :
  changed f cs (length cs) cs' -> (j < length cs)%nat -> cell_at cs' j = f j (cell_at cs j).
Proof. intros [_ H] Hj. by rewrite H, decide_True by done. Qed.

(** [count_used] of the cells while cell [i] is replaced. *)
Lemma count_freed cs i c c' :
  (i < length cs)%nat -> cell_at cs i = c -> busy c = 1%nat -> busy c' = 0%nat -> Z.of_nat (length cs) <= INT32_MAX ->
  u32 (Z.of_nat (count_used cs) - 1) = Z.of_nat (count_used (<[i := c']> cs)).
Proof.
  intros Hi E Hb Hb' Hm. pose proof (count_insert cs i c' Hi). pose proof (count_used_le cs).
  rewrite E in *. rewrite u32_pred by lia. f_equal. lia.
Qed.

Lemma count_kept cs i c' :
  (i < length cs)%nat -> busy (cell_at cs i) = busy c' -> count_used (<[i := c']> cs) = count_used cs.
Proof. intros Hi E. pose proof (count_insert cs i c' Hi). lia. Qed.

(** ** seq_rm *)

Definition rm_cell (x p0 p1 : Z) (c : mem_cell) : mem_cell :=
  if (p0 <=? m_pos c) && (m_pos c <? p1) then erased x c else c.

Lemma rm_cell_tail x p0 p1 z c : same_body (rm_cell x p0 p1 (set_tail z c)) (rm_cell x p0 p1 c).
Proof.
  unfold same_body, rm_cell, erased, mcell_is_empty. cbn [set_tail m_pos m_seq seq_erase set_seq].
  by repeat case_match.
Qed.

Lemma seq_rm_loop cs x p0 p1 :
  Z.of_nat (length cs) <= INT32_MAX -> 0 <= p0 -> 0 <= x \/ p1 <= p0 ->
  runs (foldM (seq_rm_cell (length cs) x p0 p1) (cs, Z.of_nat (count_used cs), length cs) (seq 0 (length cs)))
    (fun '(cs', used, nh) => changed (fun _ => rm_cell x p0 p1) cs (length cs) cs' /\
       used = Z.of_nat (count_used cs') /\ (nh <= length cs)%nat).
Proof.
  intros Hm Hp Hx.
  apply (runs_for (fun i '(cs', used, nh) => changed (fun _ => rm_cell x p0 p1) cs i cs' /\
    used = Z.of_nat (count_used cs') /\ (nh <= length cs)%nat)); [by split; [apply changed_0|]|].
  intros i [[cs' used] nh] Hi (Ch & -> & Hn). unfold seq_rm_cell. pose proof Ch as [L _].
  rewrite rd_at, bind_ok, (changed_at _ _ _ _ Ch) by lia. set (c := cell_at cs i) in *.
  destruct (_ && _) eqn:Ec; cycle 1.
  { apply runs_ok. split; [|done]. apply changed_same; [done|]. fold c. unfold rm_cell, erased.
    destruct ((p0 <=? m_pos c) && (m_pos c <? p1)) eqn:Er; [|done]. rewrite decide_False; [done|]. intros Hin.
    unfold has_seq_id in Ec. rewrite (bool_decide_eq_true_2 _ Hin), orb_true_r in Ec. lia. }
  apply andb_prop in Ec as [Er Eh]. assert (0 <= x) as Hx0 by lia.
  rewrite (proj2 (Z.ltb_ge x 0)) in Eh |- * by lia. cbn [orb] in Eh. apply bool_decide_eq_true in Eh.
  assert (Ef : rm_cell x p0 p1 c = erased x c) by (unfold rm_cell; by replace ((p0 <=? m_pos c) && _) with true by lia).
  rewrite upd_at, (changed_at _ _ _ _ Ch), bind_ok by lia. fold c.
  rewrite rd_at, bind_ok by (rewrite length_insert; lia). rewrite cell_at_insert, decide_True by lia.
  unfold erased in Ef. rewrite decide_True in Ef by done. cbv zeta in Ef.
  pose proof (changed_S _ _ _ _ Ch Hi) as Ch'. cbv beta in Ch'. rewrite (changed_at _ _ _ _ Ch) in Ch'. fold c in Ch'. rewrite Ef in Ch'.
  destruct (mcell_is_empty (seq_erase x c)) eqn:Ee.
  - replace (m_pos (seq_erase x c) >=? 0) with true by (cbn; lia).
    rewrite upd_at, bind_ok by (rewrite length_insert; lia). rewrite cell_at_insert, decide_True, list_insert_insert_eq by lia.
    apply runs_ok. split; [done|]. split; [|case_match; lia].
    apply (count_freed cs' i c); [lia|by apply (changed_at _ _ _ _ Ch)|by apply (busy_1 c x)| |lia].
    unfold busy, mcell_is_empty in *. cbn in *. by rewrite Ee.
  - apply runs_ok. split; [done|]. split; [|done]. f_equal. symmetry. apply count_kept; [lia|].
    rewrite (changed_at _ _ _ _ Ch). fold c. rewrite (busy_1 c x Eh). unfold busy. by rewrite Ee.
Qed.

Lemma head_after_le size nh h : (nh <= size)%nat -> (h <= size)%nat -> (head_after size nh h <= size)%nat.
Proof. unfold head_after. intros. case_match; lia. Qed.

(** The memory after an operation on its cells. *)
Lemma rec_inv_with m h cs :
  rec_inv m -> length cs = rm_size m -> (h <= rm_size m)%nat -> cells_ok cs ->
  rec_inv (with_state h (Z.of_nat (count_used cs)) cs m).
Proof. intros I L H C. split; try done. apply (ri_max m I). Qed.

Lemma rec_inv_tail m f x :
  rec_inv m -> 0 <= x < Z.of_nat (rm_size m) -> f = set_tail (-1) ->
  count_used (<[Z.to_nat x := f (zat (rm_cells m) x)]> (rm_cells m)) = count_used (rm_cells m).
Proof. intros I Hx ->. apply count_kept; [|done]. rewrite (ri_len m I). lia. Qed.

Section rm.
Context {D : Type} (rows : list D) (m : llama_memory_recurrent) (I : rec_inv m).
Abbreviation cs := (rm_cells m).
Abbreviation v := (seq_state rows (rm_cells m)).

Lemma range_lo_pos p : 0 <= range_lo p.
Proof. unfold range_lo. case_match; lia. Qed.

(** The last position of a sequence. *)
Lemma seq_state_pos x p g d : v x = Some (p, g, d) ->
  0 <= x < Z.of_nat (rm_size m) /\ 0 <= m_tail (zat cs x) < Z.of_nat (rm_size m) /\ x ∈ g /\
  p = m_pos (zat cs (m_tail (zat cs x))) /\ g = m_seq (zat cs (m_tail (zat cs x))) /\
  d = rows !! Z.to_nat (m_tail (zat cs x)) /\ 0 <= p < INT32_MAX.
Proof.
  unfold seq_state. destruct (_ && _) eqn:E; [|done]. intros [= <- <- <-]. apply andb_prop in E as [Hx Ht].
  destruct (tail_some cs (ri_cells m I) x ltac:(lia) ltac:(lia)) as (H1 & H2 & H3). rewrite (ri_len m I) in *.
  pose proof (pos_of_busy cs (ri_cells m I) _ _ H3). split; [lia|]. split; [lia|]. split; [done|]. repeat split; lia.
Qed.

Lemma seq_state_none x : 0 <= x -> v x = None -> m_tail (zat cs x) < 0.
Proof. intros Hx. unfold seq_state. destruct (Z.leb_spec 0 x), (Z.leb_spec 0 (m_tail (zat cs x))); [done|lia..]. Qed.

(** The loop of [seq_rm] after the tail was updated in [cs0]. *)
Lemma rm_finish x p0 p1 cs0 (Q : llama_memory_recurrent * bool -> Prop) :
  length cs0 = rm_size m -> count_used cs0 = count_used cs -> 0 <= p0 -> 0 <= x \/ p1 <= p0 ->
  (forall cs' h, changed (fun _ => rm_cell x p0 p1) cs0 (rm_size m) cs' -> (h <= rm_size m)%nat ->
     Q (with_state h (Z.of_nat (count_used cs')) cs' m, true)) ->
  runs (st ← foldM (seq_rm_cell (rm_size m) x p0 p1) (cs0, rm_used m, rm_size m) (seq 0 (rm_size m));
        let '(cs', used, new_head) := st in
        Ok (with_state (head_after (rm_size m) new_head (rm_head m)) used cs' m, true)) Q.
Proof.
  intros L Eu Hp Hx HQ. apply runs_bind. rewrite (ri_used m I), <- Eu, <- L. eapply runs_mono.
  { apply seq_rm_loop; [rewrite L; apply (ri_max m I)|done|done]. }
  intros [[cs' used] nh] (Ch & -> & Hn). apply runs_ok. rewrite L in *. apply HQ; [done|].
  apply head_after_le; [done|apply (ri_head m I)].
Qed.

(** No cell has [x] in the range. *)
Lemma rm_nothing x p0 p1 cs' h :
  (forall i, x ∈ m_seq (cell_at cs i) -> ~ (p0 <= m_pos (cell_at cs i) < p1)) ->
  changed (fun _ => rm_cell x p0 p1) cs (rm_size m) cs' -> (h <= rm_size m)%nat ->
  rec_inv (with_state h (Z.of_nat (count_used cs')) cs' m) /\ cs' = cs.
Proof.
  intros Hno [L Ch] Hh. rewrite <- (ri_len m I) in Ch.
  assert (E : cs' = cs).
  { apply list_eq_same_length with (length cs); [done|lia|]. intros i c d Hi Hc Hd.
    specialize (Ch i). rewrite decide_True in Ch by done. unfold cell_at in Ch. rewrite Hc, Hd in Ch. cbn in Ch. subst c.
    specialize (Hno i). unfold cell_at in Hno. rewrite Hd in Hno. cbn in Hno. unfold rm_cell, erased.
    destruct ((p0 <=? m_pos d) && (m_pos d <? p1)) eqn:E; [|done]. case_decide as Hin; [|done].
    specialize (Hno Hin). lia. }
  subst cs'. split; [|done]. apply rec_inv_with; [done|apply (ri_len m I)|done|apply (ri_cells m I)].
Qed.
End rm.

(** A free cell that has a source was free before, with that source. *)
Definition frees (cs cs' : list mem_cell) : Prop := forall i, m_seq (cell_at cs' i) = ∅ ->
  m_src (cell_at cs' i) = -1 \/ m_seq (cell_at cs i) = ∅ /\ m_src (cell_at cs' i) = m_src (cell_at cs i).

Lemma frees_refl cs : frees cs cs.
Proof. intros i Hi. by right. Qed.

Lemma frees_trans c1 c2 c3 : frees c1 c2 -> frees c2 c3 -> frees c1 c3.
Proof.
  intros H1 H2 i Hi. destruct (H2 i Hi) as [?|[E ->]]; [by left|]. destruct (H1 i E) as [?|[E' ->]]; [by left|by right].
Qed.

Lemma released_frees x cs cs' : released x cs cs' -> frees cs cs'.
Proof.
  intros R i. destruct (rl_body _ _ _ R i) as (_ & -> & ->). rewrite erased_seq. intros E.
  destruct (decide (x ∈ m_seq (cell_at cs i))) as [Hin|Hni]; [left; by apply erased_free|].
  right. unfold erased. rewrite decide_False by done. set_solver.
Qed.

(** What an operation leaves behind: the invariant, the size, and the machine [v']. *)
Definition lands {D} (rows : list D) (m m' : llama_memory_recurrent) (v' : Z -> option (Z * gset Z * option D)) : Prop :=
  rec_inv m' /\ (rm_size m' = rm_size m /\ frees (rm_cells m) (rm_cells m')) /\
  forall y, seq_state rows (rm_cells m') y = v' y.

Section rm2.
Context {D : Type} (rows : list D) (m : llama_memory_recurrent) (I : rec_inv m).
Abbreviation cs := (rm_cells m).
Abbreviation v := (seq_state rows (rm_cells m)).

Lemma lands_same : lands rows m m v.
Proof. split; [done|split; [by split; [|apply frees_refl]|done]]. Qed.

Lemma lands_cells h u : rec_inv (with_state h u cs m) -> lands rows m (with_state h u cs m) v.
Proof. intros I'. split; [done|split; [by split; [|apply frees_refl]|done]]. Qed.

(** The tail of [x] is gone and every cell is passed over: [x] is released. *)
Lemma rm_released x p0 p1 cs' h :
  0 <= x < Z.of_nat (rm_size m) -> 0 <= m_tail (zat cs x) ->
  p0 <= m_pos (zat cs (m_tail (zat cs x))) < p1 ->
  changed (fun _ => rm_cell x p0 p1) (<[Z.to_nat x := set_tail (-1) (zat cs x)]> cs) (rm_size m) cs' ->
  (h <= rm_size m)%nat ->
  lands rows m (with_state h (Z.of_nat (count_used cs')) cs' m) (r_release x v).
Proof.
  intros Hx Ht Hp [L Ch] Hh. pose proof (ri_len m I) as Lc. rewrite length_insert in L.
  set (t := m_tail (zat cs x)) in *.
  assert (Hat : forall j, cell_at (<[Z.to_nat x:=set_tail (-1) (zat cs x)]> cs) j =
    if decide (j = Z.to_nat x) then set_tail (-1) (zat cs x) else cell_at cs j) by (intros; apply cell_at_insert; lia).
  assert (Hrm : forall j, rm_cell x p0 p1 (cell_at cs j) = erased x (cell_at cs j)).
  { intros j. unfold rm_cell, erased. case_decide as Hin; [|by destruct (_ && _)].
    apply (seq_in cs (ri_cells m I)) in Hin as (_ & _ & Ej). fold t in Ej.
    replace (Z.to_nat t) with j in Hp by lia. by replace ((p0 <=? _) && _) with true by lia. }
  assert (R : released x cs cs').
  { split; [done| |].
    - intros k. rewrite Ch, Hat. unfold rm_cell, erased.
      destruct (decide (k = Z.to_nat x)) as [->|Hk].
      + rewrite (decide_True (P := Z.of_nat (Z.to_nat x) = x)) by lia. by repeat case_match.
      + rewrite (decide_False (P := Z.of_nat k = x)) by lia. by repeat case_match.
    - intros i. rewrite Ch, Hat. destruct (decide (i = Z.to_nat x)) as [->|Hi].
      + rewrite decide_True by lia. rewrite <- Hrm. apply rm_cell_tail.
      + rewrite <- Hrm. case_decide as Hd; [done|]. rewrite cell_at_ge by lia. unfold rm_cell, erased. cbn.
        by repeat case_match. }
  split; [|split; [by split; [|by apply (released_frees x)]|]].
  - apply rec_inv_with; [done|by rewrite L|done|]. apply (released_ok x cs); [apply (ri_cells m I)|lia|done].
  - intros y. apply (released_state rows x cs cs'); [apply (ri_cells m I)|lia|done].
Qed.

Lemma rec_seq_rm_ok x p0 p1 : op_ok (SeqRm x p0 p1) v ->
  runs (rec_seq_rm m x p0 p1) (fun r =>
    lands rows m r.1 (r_rm (rm_size m) x p0 p1 v).1 /\ r.2 = (r_rm (rm_size m) x p0 p1 v).2).
Proof.
  cbn [op_ok]. intros Hop. unfold rec_seq_rm, r_rm. pose proof (range_lo_pos p0) as Hlo.
  pose proof (ri_len m I) as Lc. set (lo := range_lo p0) in *. set (hi := range_hi p1) in *.
  destruct (Z.geb_spec x (Z.of_nat (rm_size m))) as [Hs|Hs]; [by apply runs_ok; split; [apply lands_same|]|].
  unfold seq_rm_tail. destruct (Z.leb_spec 0 x) as [Hx|Hx].
  2:{ rewrite (proj2 (Z.ltb_lt x 0)) by lia. cbn [fst snd]. rewrite <- negb_andb.
      destruct (Z.eqb_spec lo hi) as [E|E]; cbn [negb andb orb].
      - rewrite bind_ok. apply (rm_finish m I); [lia|done|done|lia|].
        intros cs' h Ch Hh. split; [|done]. destruct (rm_nothing m I x lo hi cs' h) as [H1 ->]; [lia|done|done|by apply lands_cells].
      - destruct ((lo =? 0) && (hi =? INT32_MAX)) eqn:E2; cbn [negb]; [exfalso; lia|].
        apply runs_ok. split; [apply lands_same|done]. }
  rewrite (proj2 (Z.ltb_ge x 0)) by lia. rewrite rdz_at, bind_ok by lia.
  destruct (Z.geb_spec (m_tail (zat cs x)) 0) as [Ht|Ht].
  2:{ assert (Ev : v x = None).
      { unfold seq_state. rewrite andb_comm. by destruct (Z.leb_spec 0 (m_tail (zat cs x))); [lia|]. }
      rewrite Ev, bind_ok. apply (rm_finish m I); [lia|done|done|by left|].
      intros cs' h Ch Hh. split; [|done]. destruct (rm_nothing m I x lo hi cs' h) as [H1 ->]; [|done|done|by apply lands_cells].
      intros i Hin. exfalso. by apply (tail_none cs (ri_cells m I) x Ht i). }
  destruct (tail_some cs (ri_cells m I) x Hx Ht) as (_ & Hlt & Hin). set (t := m_tail (zat cs x)) in *.
  assert (Ev : v x = Some (m_pos (zat cs t), m_seq (zat cs t), rows !! Z.to_nat t)).
  { unfold seq_state. fold t. by replace ((0 <=? x) && (0 <=? t)) with true by lia. }
  rewrite Ev, rdz_at, bind_ok by lia. set (p := m_pos (zat cs t)) in *.
  destruct ((lo <=? p) && (p <? hi)) eqn:Er.
  - destruct (Z.ltb_spec 0 lo) as [Hl|Hl]; cbn [andb].
    + replace ((lo <=? p) && (hi >? p)) with true by lia. rewrite bind_ok. apply runs_ok. split; [apply lands_same|done].
    + rewrite updz_at, !bind_ok by lia. apply (rm_finish m I); [by rewrite length_insert| |done|by left|].
      * by apply rec_inv_tail.
      * intros cs' h Ch Hh. split; [|done]. apply (rm_released x lo hi); fold t p; (done || lia).
  - replace ((0 <? lo) && (lo <=? p) && (hi >? p)) with false by (destruct (0 <? lo); lia). rewrite bind_ok.
    apply (rm_finish m I); [lia|done|done|by left|].
    intros cs' h Ch Hh. split; [|done]. destruct (rm_nothing m I x lo hi cs' h) as [H1 ->]; [|done|done|by apply lands_cells].
    intros i Hi. apply (seq_in cs (ri_cells m I)) in Hi as (_ & _ & Ei). fold t in Ei.
    replace i with (Z.to_nat t) by lia. fold p. lia.
Qed.
End rm2.

(** ** seq_cp *)

(** The sequence [x] joins the cell [t]. *)
Record joined (x t : Z) (cs cs' : list mem_cell) : Prop := {
  jo_len : length cs' = length cs;
  jo_tail : forall k, m_tail (cell_at cs' k) = if decide (Z.of_nat k = x) then t else m_tail (cell_at cs k);
  jo_body : forall i, same_body (cell_at cs' i)
    (if decide (Z.of_nat i = t) then seq_insert x (cell_at cs i) else cell_at cs i)
}.

Lemma joined_frees x t cs cs' : joined x t cs cs' -> frees cs cs'.
Proof.
  intros J i. destruct (jo_body _ _ _ _ J i) as (_ & -> & ->). case_decide; cbn; intros E; [set_solver|by right].
Qed.

Section joined.
Context {D : Type} (rows : list D) (x t : Z) (cs cs' : list mem_cell).
Context (C : cells_ok cs) (Hx : 0 <= x) (Ht : 0 <= t) (J : joined x t cs cs').
Context (Hn : m_tail (zat cs x) < 0) (Hb : m_seq (zat cs t) <> ∅).

Lemma joined_ok : cells_ok cs'.
Proof.
  split.
  - intros k. rewrite (jo_tail _ _ _ _ J). case_decide; [lia|apply (co_tail cs C)].
  - intros i y. destruct (jo_body _ _ _ _ J i) as (_ & _ & ->). rewrite (jo_tail _ _ _ _ J).
    destruct (decide (Z.of_nat i = t)) as [Ei|Ei]; cbn [seq_insert set_seq m_seq];
      rewrite ?elem_of_union, ?elem_of_singleton, (co_seq cs C); case_decide as Ey; split; intros H; try lia.
    destruct H as [Hy H]. replace y with x in H by lia. lia.
  - intros i. destruct (jo_body _ _ _ _ J i) as (-> & -> & ->). case_decide as Ei; cbn; intros E; [set_solver|].
    by apply (co_free cs C).
  - intros i. destruct (jo_body _ _ _ _ J i) as (-> & -> & ->). case_decide as Ei; cbn; intros E; [|by apply (co_busy cs C)].
    apply (co_busy cs C). replace i with (Z.to_nat t) by lia. done.
Qed.

Lemma joined_state y :
  let g := m_seq (zat cs t) in
  seq_state rows cs' y =
    if decide (y ∈ {[x]} ∪ g) then Some (m_pos (zat cs t), {[x]} ∪ g, rows !! Z.to_nat t) else seq_state rows cs y.
Proof.
  intros g. unfold seq_state. rewrite (jo_tail _ _ _ _ J).
  assert (Eg : forall z, z ∈ g <-> 0 <= z /\ m_tail (zat cs z) = t).
  { intros z. unfold g. rewrite (co_seq cs C). by rewrite Z2Nat.id. }
  destruct (jo_body _ _ _ _ J (Z.to_nat t)) as (Bp & _ & Bs). rewrite decide_True in Bp, Bs by lia. cbn in Bp, Bs.
  destruct (decide (y ∈ {[x]} ∪ g)) as [Hin|Hni].
  - assert (Ey : 0 <= y /\ (if decide (Z.of_nat (Z.to_nat y) = x) then t else m_tail (zat cs y)) = t).
    { apply elem_of_union in Hin as [->%elem_of_singleton|Hy].
      - split; [done|]. by rewrite decide_True by lia.
      - apply Eg in Hy as [H0 H1]. split; [done|]. by case_decide. }
    destruct Ey as [H0 ->]. replace ((0 <=? y) && (0 <=? t)) with true by lia. by rewrite Bp, Bs.
  - destruct (Z.leb_spec 0 y) as [Hy|Hy]; cbn [andb]; [|done].
    rewrite decide_False by (intros E; apply Hni; set_solver by lia).
    destruct (Z.leb_spec 0 (m_tail (zat cs y))) as [H0|H0]; [|done].
    destruct (jo_body _ _ _ _ J (Z.to_nat (m_tail (zat cs y)))) as (-> & _ & ->).
    rewrite decide_False; [done|]. intros E. apply Hni, elem_of_union. right. apply Eg. lia.
Qed.
End joined.

Section cp.
Context {D : Type} (rows : list D) (m : llama_memory_recurrent) (I : rec_inv m).
Abbreviation v := (seq_state rows (rm_cells m)).

Lemma below_size_spec x : INT32_MIN <= x <= INT32_MAX -> below_size m x = in_size (rm_size m) x.
Proof.
  intros Hx. unfold below_size, in_size. pose proof (ri_max m I). unfold INT32_MIN, INT32_MAX in *.
  destruct (Z.leb_spec 0 x) as [H0|H0]; cbn [andb]; [by rewrite u32_small by lia|].
  unfold u32. replace (x `mod` 4294967296) with (x + 4294967296) by (apply (Z.mod_unique_pos _ _ (-1)); lia).
  lia.
Qed.

Lemma seq_state_at cs x : cells_ok cs -> 0 <= x -> 0 <= m_tail (zat cs x) ->
  seq_state rows cs x = Some (m_pos (zat cs (m_tail (zat cs x))), m_seq (zat cs (m_tail (zat cs x))),
    rows !! Z.to_nat (m_tail (zat cs x))).
Proof. intros C Hx Ht. unfold seq_state. by replace ((0 <=? x) && (0 <=? m_tail (zat cs x))) with true by lia. Qed.

Lemma rec_seq_cp_ok src dst p0 p1 :
  INT32_MIN <= src <= INT32_MAX -> INT32_MIN <= dst <= INT32_MAX ->
  runs (rec_seq_cp m src dst p0 p1) (fun m' => lands rows m m' (r_cp (rm_size m) src dst v)).
Proof.
  intros Hs Hd. unfold rec_seq_cp, r_cp. pose proof (ri_len m I) as Lc. pose proof (ri_cells m I) as C.
  destruct (Z.eqb_spec src dst) as [E|E]; [by apply runs_ok, lands_same|]. cbn [orb].
  rewrite !below_size_spec by done. unfold in_size.
  destruct (_ && _ && _) eqn:Hin; cycle 1.
  { replace (negb _ || negb _) with true by lia. by apply runs_ok, lands_same. }
  replace (negb _ || negb _) with false by lia. apply runs_bind. rewrite (ri_used m I).
  pose proof (ri_max m I) as Hmax. eapply runs_mono; [apply release_tail_ok; [done|lia|lia]|].
  intros [cs1 used1] [R E1]. cbn [fst snd] in R, E1. subst used1. pose proof (rl_len _ _ _ R) as L1.
  assert (C1 : cells_ok cs1) by (apply (released_ok dst (rm_cells m)); [done|lia|done]).
  assert (V1 : forall y, seq_state rows cs1 y = r_release dst v y) by (intros; apply released_state; [done|lia|done]).
  rewrite <- V1. rewrite rdz_at, bind_ok by lia.
  destruct (Z.geb_spec (m_tail (zat cs1 src)) 0) as [Ht|Ht]; cycle 1.
  { apply runs_ok. assert (seq_state rows cs1 src = None) as ->.
    { unfold seq_state. rewrite andb_comm. by destruct (Z.leb_spec 0 (m_tail (zat cs1 src))); [lia|]. }
    split; [|split; [by split; [|by apply (released_frees dst)]|done]].
    apply rec_inv_with; [done|lia|apply (ri_head m I)|done]. }
  destruct (tail_some cs1 C1 src ltac:(lia) Ht) as (_ & Hlt & Hsrc).
  rewrite (seq_state_at cs1 src) by (done || lia). set (t := m_tail (zat cs1 src)) in *.
  rewrite updz_at, bind_ok by lia. set (cs2 := <[Z.to_nat t := _]> cs1).
  assert (L2 : length cs2 = length cs1) by apply length_insert. rewrite updz_at, bind_ok by lia.
  set (cs3 := <[Z.to_nat dst := _]> cs2). apply runs_ok.
  assert (E2 : forall i, cell_at cs2 i = if decide (i = Z.to_nat t) then seq_insert dst (zat cs1 t) else cell_at cs1 i)
    by (intros; apply cell_at_insert; lia).
  assert (E3 : forall i, cell_at cs3 i = if decide (i = Z.to_nat dst) then set_tail t (zat cs2 dst) else cell_at cs2 i)
    by (intros; apply cell_at_insert; lia).
  assert (J : joined dst t cs1 cs3).
  { split; [unfold cs3; by rewrite length_insert| |].
    - intros k. rewrite E3. case_decide as Ek; [by rewrite decide_True by lia|]. rewrite decide_False by lia.
      rewrite E2. case_decide; [by subst k|done].
    - intros i. assert (B : same_body (cell_at cs3 i) (cell_at cs2 i)) by (rewrite E3; case_decide; by subst).
      rewrite E2 in B. case_decide as Ei; [rewrite decide_True by lia; by subst i|by rewrite decide_False by lia]. }
  assert (Hn : m_tail (zat cs1 dst) < 0) by (rewrite (rl_tail _ _ _ R), decide_True by lia; lia).
  assert (Hb : m_seq (zat cs1 t) <> ∅) by set_solver.
  assert (C3 : cells_ok cs3) by (apply (joined_ok dst t cs1); (done || lia)).
  assert (Ec : count_used cs3 = count_used cs1).
  { unfold cs3. rewrite count_kept; [|lia|done]. unfold cs2. apply count_kept; [lia|].
    rewrite (busy_1 _ src Hsrc). symmetry. apply (busy_1 _ dst). cbn. set_solver. }
  rewrite <- Ec. split; [|split; [split; [done|]|]].
  - apply rec_inv_with; [done|unfold cs3; rewrite length_insert; lia|apply (ri_head m I)|done].
  - apply (frees_trans _ cs1); [by apply (released_frees dst)|]. by apply (joined_frees dst t).
  - intros y. cbn [rm_cells with_state]. rewrite (joined_state rows dst t cs1 cs3) by (done || lia).
    case_decide; [done|apply V1].
Qed.
End cp.

(** ** seq_keep *)

Definition keep_cell (x : Z) (i : nat) (c : mem_cell) : mem_cell :=
  let c1 := if decide (Z.of_nat i = x) then c else set_tail (-1) c in
  if decide (x ∈ m_seq c) then set_seq {[x]} c1 else set_seq ∅ (set_src (-1) (set_pos (-1) c1)).

Lemma keep_cell_tail x i c : m_tail (keep_cell x i c) = if decide (Z.of_nat i = x) then m_tail c else -1.
Proof. unfold keep_cell. by repeat case_decide. Qed.

Lemma keep_cell_in x i c : x ∈ m_seq c ->
  m_seq (keep_cell x i c) = {[x]} /\ m_pos (keep_cell x i c) = m_pos c /\ m_src (keep_cell x i c) = m_src c.
Proof. intros H. unfold keep_cell. rewrite (decide_True (P := x ∈ _)) by done. by case_decide. Qed.

Lemma keep_cell_out x i c : x ∉ m_seq c ->
  m_seq (keep_cell x i c) = ∅ /\ m_pos (keep_cell x i c) = -1 /\ m_src (keep_cell x i c) = -1.
Proof. intros H. unfold keep_cell. rewrite (decide_False (P := x ∈ _)) by done. by case_decide. Qed.

Lemma seq_keep_loop cs x : cells_ok cs -> Z.of_nat (length cs) <= INT32_MAX ->
  runs (foldM (seq_keep_cell (length cs) x) (cs, Z.of_nat (count_used cs), length cs) (seq 0 (length cs)))
    (fun '(cs', used, nh) => changed (keep_cell x) cs (length cs) cs' /\
       used = Z.of_nat (count_used cs') /\ (nh <= length cs)%nat).
Proof.
  intros C Hm.
  apply (runs_for (fun i '(cs', used, nh) => changed (keep_cell x) cs i cs' /\
    used = Z.of_nat (count_used cs') /\ (nh <= length cs)%nat)); [by split; [apply changed_0|]|].
  intros i [[cs' used] nh] Hi (Ch & -> & Hn). pose proof Ch as [L _]. unfold seq_keep_cell.
  pose proof (changed_S _ _ _ _ Ch Hi) as Ch'. pose proof (changed_at _ _ _ _ Ch) as Ei. rewrite Ei in Ch'.
  set (c := cell_at cs i) in *. set (c1 := if decide (Z.of_nat i = x) then c else set_tail (-1) c).
  assert (E1 : exists cs1, (if negb (Z.of_nat i =? x) then upd i (set_tail (-1)) cs' else Ok cs') = Ok cs1 /\
    cell_at cs1 i = c1 /\ length cs1 = length cs' /\ count_used cs1 = count_used cs' /\
    forall d, <[i := d]> cs1 = <[i := d]> cs').
  { unfold c1. destruct (Z.eqb_spec (Z.of_nat i) x) as [E|E]; cbn [negb].
    - rewrite decide_True by done. by exists cs'.
    - rewrite decide_False by done. rewrite upd_at by lia. eexists. split; [done|].
      rewrite cell_at_insert, decide_True, length_insert, Ei by lia. split; [done|]. split; [done|].
      split; [apply count_kept; [lia|by rewrite Ei]|]. intros d. apply list_insert_insert_eq. }
  destruct E1 as (cs1 & -> & Ec & L1 & N1 & Ins). rewrite bind_ok, rd_at, bind_ok, Ec by lia.
  assert (Ep : m_pos c1 = m_pos c /\ m_seq c1 = m_seq c) by (unfold c1; by case_decide). destruct Ep as [Ep Eq].
  unfold has_seq_id. rewrite Eq, Ep. unfold keep_cell in Ch'. fold c1 in Ch'.
  destruct (decide (x ∈ m_seq c)) as [Hin|Hni].
  - rewrite bool_decide_eq_true_2 by done. cbn [negb]. rewrite upd_at, bind_ok, Ec, Ins by lia. apply runs_ok.
    split; [done|]. split; [|done]. f_equal. symmetry. apply count_kept; [lia|].
    rewrite Ei. fold c. rewrite (busy_1 c x Hin). symmetry. apply (busy_1 _ x). cbn. set_solver.
  - rewrite bool_decide_eq_false_2 by done. cbn [negb]. rewrite upd_at, bind_ok, Ec, Ins by lia. apply runs_ok.
    split; [done|]. split; [|case_match; lia]. pose proof (pos_busy_iff cs C i) as Hb. fold c in Hb.
    destruct (Z.geb_spec (m_pos c) 0) as [Hp|Hp].
    + apply (count_freed cs' i c); [lia|done| |done|lia]. unfold busy, mcell_is_empty.
      rewrite bool_decide_eq_false_2; [done|]. apply Hb. lia.
    + f_equal. symmetry. apply count_kept; [lia|]. rewrite Ei. unfold busy, mcell_is_empty. fold c. cbn.
      destruct (decide (m_seq c = ∅)) as [E|E]; [by rewrite !bool_decide_eq_true_2|]. apply Hb in E. lia.
Qed.

Section keep.
Context {D : Type} (rows : list D) (m : llama_memory_recurrent) (I : rec_inv m).

(** Seen through the default cell, the loop changes every index. *)
Lemma keep_everywhere x cs cs' : changed (keep_cell x) cs (length cs) cs' ->
  forall j, m_tail (cell_at cs' j) = m_tail (keep_cell x j (cell_at cs j)) /\
            same_body (cell_at cs' j) (keep_cell x j (cell_at cs j)).
Proof.
  intros [L Ch] j. rewrite Ch. case_decide as Hj; [done|]. rewrite cell_at_ge by lia.
  rewrite keep_cell_tail. split; [by case_decide|]. destruct (keep_cell_out x j mem_cell_new) as (E1 & E2 & E3); [cbn; set_solver|].
  unfold same_body. rewrite E1, E2, E3. done.
Qed.

Lemma keep_frees x cs cs' : changed (keep_cell x) cs (length cs) cs' -> frees cs cs'.
Proof.
  intros Ch i. destruct (keep_everywhere x cs cs' Ch i) as (_ & _ & -> & ->).
  destruct (decide (x ∈ m_seq (cell_at cs i))) as [Hin|Hni].
  - destruct (keep_cell_in x i _ Hin) as [-> _]. set_solver.
  - destruct (keep_cell_out x i _ Hni) as (_ & _ & ->). by left.
Qed.

Lemma keep_ok x cs cs' : cells_ok cs -> changed (keep_cell x) cs (length cs) cs' -> cells_ok cs'.
Proof.
  intros C Ch. pose proof (keep_everywhere x cs cs' Ch) as K. split.
  - intros k. destruct (K k) as [-> _]. rewrite keep_cell_tail. case_decide; [apply (co_tail cs C)|lia].
  - intros t y. destruct (K t) as (_ & _ & _ & ->), (K (Z.to_nat y)) as [-> _]. rewrite keep_cell_tail.
    destruct (decide (x ∈ m_seq (cell_at cs t))) as [Hin|Hni].
    + destruct (keep_cell_in x t _ Hin) as [-> _]. apply (seq_in cs C) in Hin as (Hx & _ & Et).
      rewrite elem_of_singleton. split; [intros ->; rewrite decide_True by lia; lia|]. intros [Hy H].
      case_decide; lia.
    + destruct (keep_cell_out x t _ Hni) as [-> _]. split; [set_solver|]. intros [Hy H]. exfalso. apply Hni.
      apply (co_seq cs C). case_decide as E; [|lia]. replace y with x in H by lia. split; [lia|done].
  - intros i. destruct (K i) as (_ & -> & -> & ->). destruct (decide (x ∈ m_seq (cell_at cs i))) as [Hin|Hni].
    + destruct (keep_cell_in x i _ Hin) as [-> _]. set_solver.
    + destruct (keep_cell_out x i _ Hni) as (_ & -> & ->). by intros _; split; [|left].
  - intros i. destruct (K i) as (_ & -> & -> & ->). destruct (decide (x ∈ m_seq (cell_at cs i))) as [Hin|Hni].
    + destruct (keep_cell_in x i _ Hin) as (_ & -> & ->). intros _. by apply (pos_of_busy cs C i x).
    + by destruct (keep_cell_out x i _ Hni) as [-> _].
Qed.

Lemma keep_state x cs cs' : cells_ok cs -> changed (keep_cell x) cs (length cs) cs' ->
  forall y, seq_state rows cs' y = r_keep x (seq_state rows cs) y.
Proof.
  intros C Ch y. pose proof (keep_everywhere x cs cs' Ch) as K. unfold seq_state, r_keep.
  destruct (K (Z.to_nat y)) as [-> _]. rewrite keep_cell_tail.
  destruct (Z.leb_spec 0 y) as [Hy|Hy]; cbn [andb]; [|by case_decide].
  rewrite Z2Nat.id by done. destruct (decide (y = x)) as [->|Hn]; [|done].
  destruct (Z.leb_spec 0 (m_tail (zat cs x))) as [Ht|Ht]; [|done].
  destruct (tail_some cs C x Hy Ht) as (_ & _ & Hin).
  destruct (K (Z.to_nat (m_tail (zat cs x)))) as (_ & -> & _ & ->).
  by destruct (keep_cell_in x (Z.to_nat (m_tail (zat cs x))) _ Hin) as (-> & -> & _).
Qed.

Lemma rec_seq_keep_ok x :
  runs (rec_seq_keep m x) (fun m' => lands rows m m' (r_keep x (seq_state rows (rm_cells m)))).
Proof.
  unfold rec_seq_keep. apply runs_bind. pose proof (ri_len m I) as Lc. pose proof (ri_max m I).
  rewrite (ri_used m I), <- Lc. eapply runs_mono; [apply seq_keep_loop; [apply (ri_cells m I)|lia]|].
  intros [[cs' used] nh] (Ch & -> & Hn). apply runs_ok. pose proof Ch as [L _].
  split; [|split; [split; [done|by apply (keep_frees x)]|]].
  - apply rec_inv_with; [done|lia|rewrite <- Lc; apply head_after_le; [lia|rewrite Lc; apply (ri_head m I)]|].
    by apply (keep_ok x (rm_cells m)); [apply (ri_cells m I)|].
  - intros y. by apply keep_state; [apply (ri_cells m I)|].
Qed.
End keep.

(** ** Positions, and the empty memory *)

(** An empty memory. *)
Lemma cells_ok_empty cs' : (forall i, m_tail (cell_at cs' i) = -1 /\ m_seq (cell_at cs' i) = ∅ /\
  m_pos (cell_at cs' i) = -1 /\ m_src (cell_at cs' i) = -1) -> cells_ok cs' /\ count_used cs' = 0%nat.
Proof.
  intros H. split.
  - split.
    + intros k. destruct (H k) as (-> & _). done.
    + intros t y. destruct (H t) as (_ & -> & _), (H (Z.to_nat y)) as (-> & _). split; [set_solver|lia].
    + intros i _. destruct (H i) as (_ & _ & -> & ->). by split; [|left].
    + intros i. by destruct (H i) as (_ & -> & _).
  - apply countb_zero. intros i c Hc. destruct (H i) as (_ & E & _). unfold cell_at in E. rewrite Hc in E. cbn in E.
    unfold mcell_is_empty. by rewrite bool_decide_eq_true_2.
Qed.

Lemma seq_state_empty {D} (rows : list D) cs' : (forall i, m_tail (cell_at cs' i) = -1) -> forall y, seq_state rows cs' y = None.
Proof. intros H y. unfold seq_state. rewrite H. by destruct (0 <=? y). Qed.

Section moves.
Context {D : Type} (rows : list D) (m : llama_memory_recurrent) (I : rec_inv m).
Abbreviation cs := (rm_cells m).
Abbreviation v := (seq_state rows (rm_cells m)).

(** The cell [t] gets another position. *)
Lemma moved_state t p : (0 <= t < Z.of_nat (length cs)) -> m_seq (zat cs t) <> ∅ -> 0 <= p < INT32_MAX ->
  let cs' := <[Z.to_nat t := set_pos p (zat cs t)]> cs in
  rec_inv (with_state (rm_head m) (rm_used m) cs' m) /\ frees cs cs' /\
  forall y, seq_state rows cs' y =
    (fun '(q, g, d) => (if decide (y ∈ m_seq (zat cs t)) then p else q, g, d)) <$> v y.
Proof.
  intros Ht Hb Hp cs'. pose proof (ri_cells m I) as C.
  assert (E : forall i, cell_at cs' i = if decide (i = Z.to_nat t) then set_pos p (zat cs t) else cell_at cs i)
    by (intros; apply cell_at_insert; lia).
  assert (T : forall i, m_tail (cell_at cs' i) = m_tail (cell_at cs i)) by (intros i; rewrite E; case_decide; by subst).
  assert (S : forall i, m_seq (cell_at cs' i) = m_seq (cell_at cs i)) by (intros i; rewrite E; case_decide; by subst).
  assert (Sr : forall i, m_src (cell_at cs' i) = m_src (cell_at cs i)) by (intros i; rewrite E; case_decide; by subst).
  split.
  - assert (Eu : rm_used m = Z.of_nat (count_used cs')).
    { rewrite (ri_used m I). f_equal. symmetry. apply count_kept; [lia|done]. }
    rewrite Eu. apply rec_inv_with; [done|unfold cs'; rewrite length_insert; apply (ri_len m I)|apply (ri_head m I)|]. split.
    + intros k. rewrite T. apply (co_tail cs C).
    + intros i y. rewrite S, T. apply (co_seq cs C).
    + intros i. rewrite S, Sr, E. intros Ei. case_decide as Hi; [by subst i|by apply (co_free cs C)].
    + intros i. rewrite S, Sr, E. intros Ei. pose proof (co_busy cs C i Ei). case_decide; [|done]. cbn. lia.
  - split; [intros i; rewrite S, Sr; by right|].
    intros y. unfold seq_state. rewrite T. destruct (_ && _) eqn:Ey; [|done]. apply andb_prop in Ey as [H0 H1].
    cbn [fmap option_fmap option_map]. rewrite S, E.
    destruct (tail_some cs C y ltac:(lia) ltac:(lia)) as (_ & _ & Hin). do 3 f_equal.
    destruct (decide (Z.to_nat (m_tail (zat cs y)) = Z.to_nat t)) as [Et|Et].
    + rewrite decide_True; [done|]. by rewrite <- Et.
    + rewrite decide_False; [done|]. intros Hy%(seq_in cs C). lia.
Qed.

Lemma change_pos_ok f g x p0 p1 :
  move_ok g x p0 p1 v -> (forall p, 0 <= p < INT32_MAX -> 0 <= g p < INT32_MAX -> f p = Ok (g p)) ->
  runs (change_pos f m x p0 p1) (fun m' => lands rows m m' (r_move g x p0 p1 v)).
Proof.
  intros Hmv Hf. unfold change_pos. pose proof (ri_len m I) as Lc. pose proof (ri_cells m I) as C.
  set (lo := range_lo p0). set (hi := range_hi p1).
  assert (Same : (forall p g0 d, v x = Some (p, g0, d) -> ~ (lo <= p < hi)) -> lands rows m m (r_move g x p0 p1 v)).
  { intros Hno. split; [done|split; [by split; [|apply frees_refl]|]]. intros y. unfold r_move. fold lo hi. destruct (v y) as [[[p u] d]|] eqn:Ey; [|done].
    cbn [fmap option_fmap option_map]. case_bool_decide as Hx; [|done]. cbn [andb].
    destruct (seq_state_pos rows m I y p u d Ey) as (Hy & Ht & Hin & Ep & Eu & Ed & _). subst u.
    pose proof (seq_in cs C _ _ Hx) as (H0 & _ & Etx).
    assert (Ex : v x = Some (p, m_seq (zat cs (m_tail (zat cs y))), d)).
    { rewrite seq_state_at by (done || lia). rewrite Etx, Z2Nat.id by lia. by rewrite Ep, Ed. }
    specialize (Hno _ _ _ Ex). by replace ((lo <=? p) && (p <? hi)) with false by lia. }
  destruct (Z.eqb_spec lo hi) as [E|E]; [apply runs_ok, Same; intros; lia|].
  destruct ((0 <=? x) && (x <? Z.of_nat (rm_size m))) eqn:Ex.
  2:{ apply runs_ok, Same. intros p u d Hv. apply (seq_state_pos rows m I) in Hv. lia. }
  rewrite rdz_at, bind_ok by lia. destruct (Z.geb_spec (m_tail (zat cs x)) 0) as [Ht|Ht].
  2:{ apply runs_ok, Same. intros p u d Hv. apply (seq_state_pos rows m I) in Hv. lia. }
  destruct (tail_some cs C x ltac:(lia) Ht) as (_ & Hlt & Hin). set (t := m_tail (zat cs x)) in *.
  rewrite rdz_at, bind_ok by lia. unfold has_seq_id. rewrite bool_decide_eq_true_2 by done. cbn [andb].
  pose proof (seq_state_at rows cs x C ltac:(lia) Ht) as Ev. fold t in Ev.
  pose proof (pos_of_busy cs C _ _ Hin) as [Hp _].
  destruct ((lo <=? m_pos (zat cs t)) && (m_pos (zat cs t) <? hi)) eqn:Er.
  2:{ apply runs_ok, Same. intros p u d Hv. rewrite Ev in Hv. injection Hv as <- <- <-. lia. }
  pose proof (Hmv _ _ _ Ev ltac:(fold lo hi; lia)) as Hg. rewrite (Hf _ Hp Hg), bind_ok.
  rewrite updz_at, bind_ok by lia. apply runs_ok.
  destruct (moved_state t (g (m_pos (zat cs t))) ltac:(lia) ltac:(set_solver) Hg) as (I' & F' & V').
  split; [done|split; [by split|]]. intros y. cbn [rm_cells with_state]. rewrite V'. unfold r_move. fold lo hi.
  destruct (v y) as [[[q u] d]|] eqn:Ey; [|done]. cbn [fmap option_fmap option_map].
  destruct (seq_state_pos rows m I y q u d Ey) as (Hy & Hty & Hyin & Eq & Eu & Ed & _). subst u q.
  case_decide as Hyt.
  - pose proof (seq_in cs C _ _ Hyt) as (_ & _ & Ety). rewrite Ety, Z2Nat.id by lia.
    rewrite bool_decide_eq_true_2 by done. cbn [andb]. by rewrite Er.
  - rewrite bool_decide_eq_false_2; [done|]. intros Hxy. apply Hyt.
    pose proof (seq_in cs C _ _ Hxy) as (_ & _ & Etx). fold t in Etx. rewrite Etx, Nat2Z.id. done.
Qed.

Lemma rec_clear_ok data :
  runs (rec_clear data m) (fun m' => lands rows m m' (fun _ => None) /\
    m' = with_tensors (if data then zero_tensor <$> rm_r_l m else rm_r_l m)
           (if data then zero_tensor <$> rm_s_l m else rm_s_l m) (with_state 0 0 (rm_cells m') m) /\
    forall i, m_pos (cell_at (rm_cells m') i) = -1 /\ m_tail (cell_at (rm_cells m') i) = -1 /\
              m_src (cell_at (rm_cells m') i) = -1 /\ m_seq (cell_at (rm_cells m') i) = ∅).
Proof.
  unfold rec_clear. pose proof (ri_len m I) as Lc. apply runs_bind.
  set (f := fun c => set_tail (-1) (set_src (-1) (set_seq ∅ (set_pos (-1) c)))).
  rewrite <- Lc. eapply runs_mono.
  { apply (runs_for (fun i cs' => changed (fun _ => f) cs i cs')); [apply changed_0|].
    intros i cs' Hi Ch. pose proof Ch as [L _]. rewrite upd_at by lia. apply runs_ok. by apply changed_S. }
  intros cs' Ch. apply runs_ok. pose proof Ch as [L _].
  assert (H : forall i, m_tail (cell_at cs' i) = -1 /\ m_seq (cell_at cs' i) = ∅ /\
    m_pos (cell_at cs' i) = -1 /\ m_src (cell_at cs' i) = -1).
  { intros i. destruct (decide (i < length cs)%nat) as [Hi|Hi].
    - by rewrite (changed_all _ _ _ _ Ch Hi).
    - by rewrite cell_at_ge by lia. }
  destruct (cells_ok_empty cs' H) as [C' N'].
  assert (I' : rec_inv (with_state 0 0 cs' m)).
  { change (with_state 0 0 cs' m) with (with_state 0 (Z.of_nat 0) cs' m). rewrite <- N'. apply rec_inv_with; [done|lia|lia|done]. }
  assert (V' : forall y, seq_state rows cs' y = None) by (apply seq_state_empty; intros i; apply H).
  assert (F : forall i, m_pos (cell_at cs' i) = -1 /\ m_tail (cell_at cs' i) = -1 /\
              m_src (cell_at cs' i) = -1 /\ m_seq (cell_at cs' i) = ∅) by (intros i; destruct (H i) as (? & ? & ? & ?); done).
  assert (Fr : frees cs cs') by (intros i _; left; apply H).
  destruct data; (split; [split; [|by split]|by split]); [|done].
  destruct I' as [A1 A2 A3 A4 A5]. by split.
Qed.
End moves.

(** ** The memory implements the machine *)

(** Operations on equal machines give equal machines. *)
#[export] Instance rec_spec_proper {D} size op :
  Proper (pointwise_relation Z (=) ==> prod_relation (pointwise_relation Z (=)) (=)) (@rec_spec D size op).
Proof.
  intros v w E. assert (Er : forall x y, r_release x v y = r_release x w y) by (intros x y; unfold r_release; by rewrite E).
  destruct op; cbn [rec_spec]; (split; cbn [fst snd]; [intros y|try done]).
  - done.
  - unfold r_rm. rewrite (E x). repeat case_match; cbn [fst]; auto.
  - unfold r_rm. rewrite (E x). by repeat case_match.
  - unfold r_cp. rewrite (Er dst src). repeat case_match; auto.
  - unfold r_keep. by rewrite E.
  - unfold r_move. by rewrite E.
  - unfold r_move. by rewrite E.
Qed.

#[export] Instance op_ok_proper {D} op : Proper (pointwise_relation Z (=) ==> iff) (@op_ok D op).
Proof.
  assert (H : forall f x p0 p1 (v w : Z -> option (Z * gset Z * option D)), (forall y, v y = w y) ->
    move_ok f x p0 p1 v -> move_ok f x p0 p1 w).
  { intros f x p0 p1 v w E Hv p g d Hw. rewrite <- E in Hw. by eapply Hv. }
  intros v w E. destruct op; cbn [op_ok]; try done.
  - split; apply H; [exact E|intros y; by rewrite E].
  - split; intros [Hd Hv]; (split; [done|]); revert Hv; apply H; [exact E|intros y; by rewrite E].
Qed.

Section runs.
Context {D : Type} (rows : list D).

Definition rec_run (m : llama_memory_recurrent) (ops : list rec_op) : res llama_memory_recurrent :=
  foldM (fun m op => r ← rec_exec m op; Ok r.1) m ops.

Fixpoint spec_run (size : nat) (ops : list rec_op) (v : Z -> option (Z * gset Z * option D)) :=
  match ops with [] => v | op :: ops => spec_run size ops (rec_spec size op v).1 end.

Fixpoint ops_ok (size : nat) (ops : list rec_op) (v : Z -> option (Z * gset Z * option D)) : Prop :=
  match ops with [] => True | op :: ops => op_ok op v /\ ops_ok size ops (rec_spec size op v).1 end.

#[local] Instance spec_run_proper size ops :
  Proper (pointwise_relation Z (=) ==> pointwise_relation Z (=)) (spec_run size ops).
Proof.
  induction ops as [|op ops IH]; intros v w E; [done|]. cbn [spec_run]. apply IH.
  by destruct (rec_spec_proper size op v w E).
Qed.

#[local] Instance ops_ok_proper size ops : Proper (pointwise_relation Z (=) ==> iff) (ops_ok size ops).
Proof.
  induction ops as [|op ops IH]; intros v w E; [done|]. cbn [ops_ok]. rewrite (op_ok_proper op v w E).
  by rewrite (IH _ _ (proj1 (rec_spec_proper size op v w E))).
Qed.

Lemma rec_exec_ok m op : rec_inv m -> op_ok op (seq_state rows (rm_cells m)) ->
  runs (rec_exec m op) (fun r => lands rows m r.1 (rec_spec (rm_size m) op (seq_state rows (rm_cells m))).1 /\
    r.2 = (rec_spec (rm_size m) op (seq_state rows (rm_cells m))).2).
Proof.
  intros I. destruct op as [data|x p0 p1|src dst p0 p1|x|x p0 p1 shift|x p0 p1 d]; cbn [op_ok rec_exec rec_spec]; intros Hop.
  - apply runs_bind. eapply runs_mono; [by apply (rec_clear_ok rows m I data)|]. intros m' [H _]. by apply runs_ok.
  - by apply rec_seq_rm_ok.
  - apply runs_bind. destruct Hop. eapply runs_mono; [by apply (rec_seq_cp_ok rows m I)|]. intros m' H'. by apply runs_ok.
  - apply runs_bind. eapply runs_mono; [by apply (rec_seq_keep_ok rows m I)|]. intros m' H. by apply runs_ok.
  - apply runs_bind. unfold rec_seq_add. destruct (Z.eqb_spec shift 0) as [->|Hs].
    + apply runs_ok, runs_ok. split; [|done]. split; [done|split; [by split; [|apply frees_refl]|]]. intros y. unfold r_move. cbn [fst].
      destruct (seq_state _ _ y) as [[[p g] d]|]; [|done]. cbn. rewrite Z.add_0_r. by destruct (_ && _).
    + eapply runs_mono; [apply (change_pos_ok rows m I _ (fun p => p + shift)); [done|]|intros m' H'; by apply runs_ok].
      intros p Hp Hg. apply i32_ok. unfold INT32_MIN. lia.
  - destruct Hop as [Hd Hop]. apply runs_bind. unfold rec_seq_div. destruct (Z.eqb_spec d 1) as [->|Hs].
    + apply runs_ok, runs_ok. split; [|done]. split; [done|split; [by split; [|apply frees_refl]|]]. intros y. unfold r_move. cbn [fst].
      destruct (seq_state _ _ y) as [[[p g] d]|]; [|done]. cbn. rewrite Z.quot_1_r. by destruct (_ && _).
    + eapply runs_mono; [apply (change_pos_ok rows m I _ (fun p => Z.quot p d)); [done|]|intros m' H'; by apply runs_ok].
      intros p Hp Hg. destruct (Z.eqb_spec d 0); [done|]. apply i32_ok. unfold INT32_MIN. lia.
Qed.

Lemma rec_run_ok ops m : rec_inv m -> ops_ok (rm_size m) ops (seq_state rows (rm_cells m)) ->
  runs (rec_run m ops) (fun m' => lands rows m m' (spec_run (rm_size m) ops (seq_state rows (rm_cells m)))).
Proof.
  revert m. induction ops as [|op ops IH]; intros m I; cbn [ops_ok rec_run foldM spec_run]; intros Hok.
  { apply runs_ok, lands_same. exact I. }
  destruct Hok as [Hop Hok]. apply runs_bind, runs_bind. eapply runs_mono; [by apply rec_exec_ok|].
  intros [m1 b] [(I1 & [S1 F1] & V1) _]. apply runs_ok. cbn [fst] in *.
  assert (E1 : pointwise_relation Z (=) (seq_state rows (rm_cells m1)) (rec_spec (rm_size m) op (seq_state rows (rm_cells m))).1) by exact V1.
  eapply runs_mono; [apply (IH m1 I1); rewrite S1; by apply (ops_ok_proper _ _ _ _ E1)|].
  intros m' (I' & [S' F'] & V'). split; [done|].
  split; [split; [congruence|by eapply frees_trans]|]. intros y. rewrite V', S1. by apply spec_run_proper.
Qed.
End runs.

(** ** What the memory answers *)

Definition last_pos {D} (e : option (Z * gset Z * option D)) : Z := match e with Some (p, _, _) => p | None => -1 end.

Section observers.
Context {D : Type} (rows : list D) (m : llama_memory_recurrent) (I : rec_inv m).
Abbreviation cs := (rm_cells m).

(** A fold over the cells that hold [x] meets one cell at most. *)
Lemma pos_fold (f : Z -> Z -> Z) x z :
  foldM (fun r i => c ← rd cs i; Ok (if has_seq_id c x then f r (m_pos c) else r)) z (seq 0 (rm_size m)) =
  Ok (match seq_state rows cs x with Some (p, _, _) => f z p | None => z end).
Proof.
  pose proof (ri_cells m I) as C. pose proof (ri_len m I) as Lc. apply runs_inv_eq.
  set (t := m_tail (zat cs x)).
  assert (Hin : forall i, x ∈ m_seq (cell_at cs i) <-> 0 <= x /\ t = Z.of_nat i) by (intros; apply (co_seq cs C)).
  eapply runs_mono.
  { apply (runs_for (fun i r => r = if decide (0 <= x /\ 0 <= t < Z.of_nat i) then f z (m_pos (zat cs t)) else z)).
    - by rewrite decide_False by lia.
    - intros i r Hi ->. rewrite rd_at, bind_ok by lia. apply runs_ok. unfold has_seq_id.
      destruct (decide (x ∈ m_seq (cell_at cs i))) as [H|H].
      + rewrite bool_decide_eq_true_2 by done. apply Hin in H as [H0 H1]. rewrite decide_False, decide_True by lia.
        do 3 f_equal. lia.
      + rewrite bool_decide_eq_false_2 by done.
        destruct (decide (0 <= x /\ 0 <= t < Z.of_nat i)), (decide (0 <= x /\ 0 <= t < Z.of_nat (i + 1))); [done|lia| |done].
        exfalso. apply H, Hin. lia. }
  intros r ->. unfold seq_state. fold t. case_decide as Hd; destruct ((0 <=? x) && (0 <=? t)) eqn:E; [done|lia| |done].
  exfalso. destruct (tail_some cs C x ltac:(lia) ltac:(fold t; lia)) as (_ & H & _). fold t in H. lia.
Qed.

Lemma rec_seq_pos_max_ok x : rec_seq_pos_max m x = Ok (last_pos (seq_state rows cs x)).
Proof.
  unfold rec_seq_pos_max. rewrite (pos_fold Z.max). destruct (seq_state rows cs x) as [[[p g] d]|] eqn:E; [|done].
  apply (seq_state_pos rows m I) in E. cbn. f_equal. lia.
Qed.

Lemma rec_seq_pos_min_ok x : rec_seq_pos_min m x = Ok (last_pos (seq_state rows cs x)).
Proof.
  unfold rec_seq_pos_min. rewrite (pos_fold Z.min), bind_ok.
  destruct (seq_state rows cs x) as [[[p g] d]|] eqn:E; [|done].
  apply (seq_state_pos rows m I) in E. cbn. replace (Z.min INT32_MAX p) with p by lia.
  by rewrite (proj2 (Z.eqb_neq p INT32_MAX)) by lia.
Qed.
End observers.

(** The recurrent memory keeps the promises of a memory. *)
#[export] Instance llama_memory_recurrent_laws :
  LlamaMemoryLaws llama_memory_recurrent rec_inv (fun m => Z.of_nat (rm_size m)).
Proof.
  split. intros m s I Hs. exists (last_pos (seq_state (@nil unit) (rm_cells m) s)), (last_pos (seq_state (@nil unit) (rm_cells m) s)).
  cbn. rewrite (rec_seq_pos_min_ok (@nil unit) m I), (rec_seq_pos_max_ok (@nil unit) m I). split; [done|split; [done|]].
  destruct (seq_state _ _ s) as [[[p g] d]|] eqn:E; cbn; [|unfold INT32_MAX; lia].
  apply (seq_state_pos _ m I) in E. lia.
Qed.

(** The constructor gives an empty memory. *)
Lemma rec_new_ok {D} (rows : list D) grs hp tr ts size n_max filter m :
  Z.of_nat size <= INT32_MAX -> llama_memory_recurrent_new grs hp tr ts size n_max filter true true = Ok m ->
  rec_inv m /\ rm_size m = size /\ forall x, seq_state rows (rm_cells m) x = None.
Proof.
  intros Hs. unfold llama_memory_recurrent_new.
  destruct (foldM _ _ _) as [ls|?|?]; cbn; intros E; [|done..]. injection E as <-.
  assert (H : forall i, cell_at (replicate size mem_cell_new) i = mem_cell_new).
  { intros i. unfold cell_at. destruct (replicate size mem_cell_new !! i) eqn:E; [|done]. by apply lookup_replicate in E as [-> _]. }
  destruct (cells_ok_empty (replicate size mem_cell_new)) as [C N]; [intros i; by rewrite H|].
  split; [|split; [done|]].
  - split; [apply length_replicate|done|apply Nat.le_0_l| |done].
    change (0 = Z.of_nat (count_used (replicate size mem_cell_new))). by rewrite N.
  - apply seq_state_empty. intros i. cbn. by rewrite H.
Qed.

(** ** The theorem *)

(** A memory of three cells: sequence 0 in cell 1, sequences 1 and 2 share cell 0. *)
Definition toy_cells : list mem_cell :=
  [mk_mcell 4 0 (-1) 1 {[1; 2]}; mk_mcell 7 1 (-1) 0 {[0]}; mk_mcell (-1) (-1) (-1) 0 ∅].
Definition toy_hp : llama_hparams :=
  mk_hparams 4 0 (-1) 4 4 0 0 [] [] [] [] 0 0 [] [] 0 0 0 0 [] false 0 LLAMA_ROPE_TYPE_NONE.
Definition toy_rec : llama_memory_recurrent := mk_rec toy_hp 3 0 3 2 0 (-1) toy_cells [] [].

Lemma toy_rec_inv : rec_inv toy_rec.
Proof.
  split; [done|done|cbn; lia|by vm_compute|]. split.
  - intros [|[|[|k]]]; vm_compute; done || (intros [=]).
  - intros t x. change (rm_cells toy_rec) with toy_cells.
    assert (Hx : x < 0 \/ x = 0 \/ x = 1 \/ x = 2 \/ 3 <= x) by lia.
    destruct Hx as [Hx|[->|[->|[->|Hx]]]].
    2-4: destruct t as [|[|[|t]]]; cbn; split; set_solver by lia.
    + destruct t as [|[|[|t]]]; cbn; split; set_solver by lia.
    + rewrite (cell_at_ge toy_cells (Z.to_nat x)) by (cbn; lia).
      destruct t as [|[|[|t]]]; cbn; split; set_solver by lia.
  - intros [|[|[|k]]]; cbn; intros E; try done; try (by split; [|left]); set_solver.
  - intros [|[|[|k]]]; cbn; unfold INT32_MAX; intros E; try done; lia.
Qed.

(** C10: the recurrent memory implements a partial map from sequences to a last position and
    a state: from every memory that satisfies its invariant, every list of calls of [clear],
    [seq_rm], [seq_cp], [seq_keep], [seq_add] and [seq_div] whose moved positions stay
    positions (and without the removal of all sequences at once) runs without a fault, keeps
    the invariant, and changes every sequence as the map says: a removal that reaches the
    last position removes the sequence whole, a copy shares the state, a shift moves all
    sequences that share it; both position getters answer the last position, or -1. *)
Theorem recurrent_implements_machine {D} (rows : list D) m ops :
  rec_inv m -> ops_ok (rm_size m) ops (seq_state rows (rm_cells m)) ->
  runs (rec_run m ops) (fun m' =>
    rec_inv m' /\ rm_size m' = rm_size m /\
    forall x, let e := spec_run (rm_size m) ops (seq_state rows (rm_cells m)) x in
      seq_state rows (rm_cells m') x = e /\
      rec_seq_pos_min m' x = Ok (last_pos e) /\ rec_seq_pos_max m' x = Ok (last_pos e)).
Proof.
  intros I Hok. eapply runs_mono; [by apply (rec_run_ok rows)|]. intros m' (I' & [S' _] & V').
  split; [done|split; [done|]]. intros x. cbv zeta. rewrite <- V'.
  split; [done|]. split; [by apply rec_seq_pos_min_ok|by apply rec_seq_pos_max_ok].
Qed.

Definition toy_ops : list rec_op := [SeqAdd 1 0 (-1) 10; SeqCp 0 1 (-1) (-1); SeqRm 0 (-1) (-1); SeqKeep 1].

Lemma recurrent_implements_machine_witness :
  runs (rec_run toy_rec toy_ops) (fun m' => rec_seq_pos_max m' 1 = Ok 7 /\ rec_seq_pos_max m' 0 = Ok (-1)).
Proof.
  assert (Hok : ops_ok 3 toy_ops (seq_state ["a"; "b"; "c"]%string toy_cells)).
  { split; [|split; [|split; [|split; [|done]]]].
    - intros p g d Hv _. vm_compute in Hv. injection Hv as <- _ _. unfold INT32_MAX. lia.
    - unfold op_ok, INT32_MIN, INT32_MAX. lia.
    - left. lia.
    - done. }
  destruct (runs_inv _ _ (recurrent_implements_machine ["a"; "b"; "c"]%string toy_rec toy_ops toy_rec_inv Hok))
    as (m' & -> & _ & _ & H).
  apply runs_ok. destruct (H 1) as (_ & _ & ->), (H 0) as (_ & _ & ->). split; vm_compute; reflexivity.
Defined.
