(* ===== verification/RecurrentSlot.v ===== *)
(** [find_slot] of the recurrent memory (Recurrent.v) and the copies of states in the graph:
    every well-formed micro-batch gets one cell per set of sequences, next to each other,
    and the graph starts each set from the state of its first sequence, keeps the states of
    the sequences outside the batch, and never reads a state that was freed. *)

From S2P Require Import Prelude Hparams KvCells Memory Batch KvState Recurrent RecurrentOk.
Local Open Scope Z_scope.

(** ** Micro-batches *)

(** [sets] are the sets of sequences of the micro-batch and [lasts] their last positions:
    the sets are not empty and share no sequence. *)
Record rec_ubatch (size : nat) (u : llama_ubatch) (sets : list (list Z)) (lasts : list Z) : Prop := {
  ru_equal : equal_seqs u = true;
  ru_seqs : length sets = ub_n_seqs u /\ (0 < ub_n_seqs u)%nat;
  ru_tokens : (0 < ub_n_seq_tokens u)%nat /\ Z.of_nat (ub_n_seqs u * ub_n_seq_tokens u) <= INT32_MAX;
  ru_lasts : length lasts = length sets;
  ru_set : forall s l, sets !! s = Some l -> exists n row,
    ub_n_seq_id u !! first_token u s = Some n /\ ub_seq_id u !! first_token u s = Some row /\
    0 < n <= INT32_MAX /\ (Z.to_nat n <= length row)%nat /\ l = take (Z.to_nat n) row;
  ru_last : forall s p, lasts !! s = Some p ->
    ub_pos u !! (first_token u s + ub_n_seq_tokens u - 1)%nat = Some p /\ 0 <= p < INT32_MAX;
  ru_nodup : NoDup (concat sets);
  ru_range : forall x, x ∈ concat sets -> 0 <= x < Z.of_nat size
}.

Definition first_of (l : list Z) : Z := default (-1) (head l).

(** ** The sequences that become shared leave their cells *)

Record gone (R : list Z) (cs cs' : list mem_cell) : Prop := {
  go_len : length cs' = length cs;
  go_tail : forall k, m_tail (cell_at cs' k) = if decide (Z.of_nat k ∈ R) then -1 else m_tail (cell_at cs k);
  go_seq : forall i x, x ∈ m_seq (cell_at cs' i) <-> x ∈ m_seq (cell_at cs i) /\ x ∉ R;
  go_body : forall i, m_seq (cell_at cs' i) <> ∅ ->
    m_pos (cell_at cs' i) = m_pos (cell_at cs i) /\ m_src (cell_at cs' i) = m_src (cell_at cs i);
  go_frees : frees cs cs'
}.

Lemma gone_nil cs : gone [] cs cs.
Proof. split; try done; [|apply frees_refl]. intros i x. set_solver. Qed.

Lemma gone_snoc R x cs cs1 cs2 : gone R cs cs1 -> released x cs1 cs2 -> gone (R ++ [x]) cs cs2.
Proof.
  intros G L. split.
  - by rewrite (rl_len _ _ _ L), (go_len _ _ _ G).
  - intros k. rewrite (rl_tail _ _ _ L), (go_tail _ _ _ G).
    destruct (decide (Z.of_nat k ∈ R ++ [x])) as [H|H]; repeat case_decide; try done; set_solver.
  - intros i y. destruct (rl_body _ _ _ L i) as (_ & _ & ->). rewrite erased_seq, elem_of_difference, (go_seq _ _ _ G). set_solver.
  - intros i. destruct (rl_body _ _ _ L i) as (-> & -> & ->). rewrite erased_seq. intros E.
    destruct (erased_busy _ _ E) as [-> ->]. apply (go_body _ _ _ G). set_solver.
  - eapply frees_trans; [apply (go_frees _ _ _ G)|by eapply released_frees].
Qed.

Lemma elem_concat_at {A} (ls : list (list A)) k l x : ls !! k = Some l -> x ∈ l -> x ∈ concat ls.
Proof.
  intros Hl Hx. apply list_elem_of_In, in_concat. exists l. split; apply list_elem_of_In; [|done].
  by eapply list_elem_of_lookup_2.
Qed.

Lemma tail_snoc {A} (l : list A) x : l <> [] -> tail (l ++ [x]) = tail l ++ [x].
Proof. by destruct l. Qed.

Lemma ids_length (l : list Z) n : NoDup l -> (forall x, x ∈ l -> 0 <= x < Z.of_nat n) -> (length l <= n)%nat.
Proof.
  intros Hn Hl. rewrite <- (length_map Z.to_nat). apply NoDup_below.
  - change (map ?f l) with (f <$> l). apply NoDup_fmap_2_strong; [|done]. intros x y Hx Hy E. apply Hl in Hx, Hy. lia.
  - intros k. change (map ?f l) with (f <$> l). intros (x & -> & Hx)%list_elem_of_fmap. apply Hl in Hx. lia.
Qed.

Lemma nodup_disjoint {A} (rs : list (list A)) : (forall s l, rs !! s = Some l -> NoDup l) ->
  (forall s s' l l' x, rs !! s = Some l -> rs !! s' = Some l' -> x ∈ l -> x ∈ l' -> s = s') -> NoDup (concat rs).
Proof.
  induction rs as [|l rs IH]; intros Hn Hd; [apply NoDup_nil_2|]. cbn [concat]. apply list.NoDup_app. split; [by apply (Hn 0%nat)|]. split.
  - intros x Hx (l' & Hl' & Hx')%list_elem_of_In%in_concat. apply list_elem_of_In in Hl', Hx'.
    apply list_elem_of_lookup in Hl' as [s Hs]. discriminate (Hd 0%nat (S s) l l' x eq_refl Hs Hx Hx').
  - apply IH; [intros s l' Hl'; by apply (Hn (S s))|].
    intros s s' l1 l2 x H1 H2 Hx1 Hx2. by injection (Hd (S s) (S s') l1 l2 x H1 H2 Hx1 Hx2).
Qed.

Section slot.
Context (size : nat) (u : llama_ubatch) (sets : list (list Z)) (lasts : list Z).
Context (U : rec_ubatch size u sets lasts) (Hmax : Z.of_nat size <= INT32_MAX).
Abbreviation firsts := (map first_of sets).

Lemma set_ids s l : sets !! s = Some l -> exists n,
  ub_n_seq_id u !! first_token u s = Some n /\ 0 < n <= INT32_MAX /\ Z.to_nat n = length l /\
  forall j x, l !! j = Some x -> ub_seq_at u (first_token u s) j = Ok x.
Proof.
  intros Hl. destruct (ru_set _ _ _ _ U s l Hl) as (n & row & Hn & Hr & H0 & Hlen & ->).
  exists n. split; [done|split; [done|]]. rewrite length_take. split; [lia|]. intros j x Hj.
  unfold ub_seq_at. rewrite (rd_ok _ _ _ Hr), bind_ok. apply rd_ok.
  apply lookup_take_Some in Hj as [Hj _]. done.
Qed.

Lemma set_nonempty s l : sets !! s = Some l -> exists x r, l = x :: r.
Proof.
  intros Hl. destruct (set_ids s l Hl) as (n & _ & Hn & Hlen & _). destruct l as [|x r]; [simpl in Hlen; lia|eauto].
Qed.

Lemma id_range s l x : sets !! s = Some l -> x ∈ l -> 0 <= x < Z.of_nat size.
Proof. intros Hl Hx. apply (ru_range _ _ _ _ U). by eapply elem_concat_at. Qed.

Lemma check_set_ok s l cs0 cs R : sets !! s = Some l -> length cs0 = size ->
  gone R cs0 cs -> cells_ok cs ->
  runs (check_set size u (cs, Z.of_nat (count_used cs)) s) (fun r => exists cs', r = inl (cs', Z.of_nat (count_used cs')) /\
    gone (R ++ tail l) cs0 cs' /\ cells_ok cs').
Proof.
  intros Hl L0 G C. unfold check_set. destruct (set_ids s l Hl) as (n & Hn & H0 & Hlen & Hat).
  rewrite (rd_ok _ _ _ Hn), bind_ok. unfold INT32_MAX in *. rewrite u32_small by lia. rewrite Hlen.
  eapply runs_mono.
  { apply (runs_foldB (fun (d : list nat) st => exists cs', st = (cs', Z.of_nat (count_used cs')) /\
      gone (R ++ tail (take (length d) l)) cs0 cs' /\ cells_ok cs') (fun _ => False)).
    - exists cs. rewrite take_0, app_nil_r. done.
    - intros d j l2 st Ed (cs' & -> & G' & C'). apply seq_split_at in Ed as [-> Hj].
      destruct (lookup_lt_is_Some_2 l (length d) Hj) as [x Hx]. unfold check_seq. rewrite (Hat _ _ Hx), bind_ok.
      pose proof (id_range s l x Hl ltac:(by eapply list_elem_of_lookup_2)) as Hr.
      replace ((x <? 0) || (x >=? Z.of_nat size)) with false by lia.
      assert (Et : take (length (d ++ [length d])) l = take (length d) l ++ [x]).
      { rewrite length_app, Nat.add_1_r. by apply take_S_r. }
      rewrite Et. destruct (Nat.ltb_spec 0 (length d)) as [Hd|Hd].
      + apply runs_bind. eapply runs_mono; [apply (release_tail_ok x cs'); [done|rewrite (go_len _ _ _ G'); lia|unfold INT32_MAX; rewrite (go_len _ _ _ G'); lia]|].
        intros [cs2 used2] [Rl E2]. cbn [fst snd] in Rl, E2. subst used2. apply runs_ok. exists cs2. split; [done|].
        split; [|by apply (released_ok x cs' cs2 C'); [lia|]].
        rewrite tail_snoc, app_assoc by (destruct d, l; done || (simpl in *; lia)). by eapply gone_snoc.
      + apply runs_ok. exists cs'. split; [done|]. split; [|done]. destruct d; [|simpl in Hd; lia].
        exact G'. }
  intros [st|st]; [|done]. intros (cs' & -> & G' & C'). exists cs'. split; [done|]. split; [|done].
  by rewrite length_seq, take_ge in G'.
Qed.

Definition rests : list Z := concat (map tail sets).

Lemma check_sets_ok cs : cells_ok cs -> length cs = size ->
  runs (foldB (check_set size u) (cs, Z.of_nat (count_used cs)) (seq 0 (ub_n_seqs u))) (fun r =>
    exists cs' used, r = inl (cs', used) /\ gone rests cs cs' /\ cells_ok cs').
Proof.
  intros C L. destruct (ru_seqs _ _ _ _ U) as [<- _]. eapply runs_mono.
  { apply (runs_foldB (fun (d : list nat) st => exists cs', st = (cs', Z.of_nat (count_used cs')) /\
      gone (concat (map tail (take (length d) sets))) cs cs' /\ cells_ok cs') (fun _ => False)).
    - exists cs. rewrite take_0. split; [done|]. split; [apply gone_nil|done].
    - intros d s l2 st Ed (cs' & -> & G' & C'). apply seq_split_at in Ed as [-> Hs].
      destruct (lookup_lt_is_Some_2 sets (length d) Hs) as [l Hl].
      eapply runs_mono; [by apply (check_set_ok _ l cs)|]. intros r (cs2 & -> & G2 & C2). exists cs2. split; [done|].
      split; [|done]. rewrite length_app, Nat.add_1_r, (take_S_r _ _ _ Hl), map_app, concat_app. simpl. by rewrite app_nil_r. }
  intros [st|st]; [|done]. intros (cs' & -> & G' & C'). eexists _, _. split; [done|]. split; [|done].
  by rewrite length_seq, take_ge in G'.
Qed.
End slot.

(** ** The search for an empty cell *)

Section search.
Context (size : nat) (cs : list mem_cell) (L : length cs = size) (Hs : (0 < size)%nat).
Abbreviation free i := (m_seq (cell_at cs i) = ∅).

(** [e] is the first free cell at a distance of at least [d0] from [start], around the end. *)
Definition first_free (start d0 e : nat) : Prop :=
  exists d, (d0 <= d < d0 + size)%nat /\ e = ((start + d) mod size)%nat /\ free e /\
    forall d', (d0 <= d' < d)%nat -> ~ free ((start + d') mod size)%nat.

Definition wrap (k : nat) : nat := if (size <=? k)%nat then (k - size)%nat else k.

Lemma wrap_mod k : (k <= size)%nat -> wrap k = (k mod size)%nat.
Proof.
  intros Hk. unfold wrap. destruct (Nat.leb_spec size k).
  - replace k with size by lia. by rewrite Nat.sub_diag, Nat.Div0.mod_same.
  - by rewrite Nat.mod_small.
Qed.

Lemma next_empty_ok (move : bool) start : (if move then start < size else start <= size)%nat ->
  runs (next_empty size cs move start) (fun e => first_free start (if move then 1 else 0)%nat e \/
    forall i, (i < size)%nat -> ~ free i).
Proof.
  intros Hst. set (d0 := if move then 1%nat else 0%nat). unfold next_empty. cbv zeta. apply runs_bind.
  assert (Hmod : forall k, (k mod size < size)%nat) by (intros; apply Nat.mod_upper_bound; lia).
  eapply runs_mono.
  { apply (runs_foldB (fun (d : list nat) k =>
      (if move then k < size else k <= size)%nat /\ (k mod size = (start + length d) mod size)%nat /\
      forall d', (d0 <= d' < d0 + length d)%nat -> ~ free ((start + d') mod size)%nat) (fun e => first_free start d0 e)).
    - split; [done|]. split; [by rewrite Nat.add_0_r|]. simpl. lia.
    - intros d j l2 k Ed (Hk & Ek & Hd). apply seq_split_at in Ed as [_ Hj].
      set (k' := wrap (if move then (k + 1)%nat else k)).
      assert (Ek' : k' = ((start + (d0 + length d)) mod size)%nat).
      { unfold k', d0. destruct move; rewrite wrap_mod by lia.
        - rewrite <- Nat.Div0.add_mod_idemp_l, Ek, Nat.Div0.add_mod_idemp_l. f_equal. lia.
        - done. }
      assert (k' < size)%nat as Hk' by (rewrite Ek'; apply Hmod).
      match goal with |- context [rd cs ?e] => change e with k' end.
      rewrite rd_at, bind_ok by lia. unfold mcell_is_empty. case_bool_decide as Hf; apply runs_ok.
      + exists (d0 + length d)%nat. split; [lia|]. split; [done|]. split; [done|]. intros d' Hd'. apply Hd. lia.
      + rewrite length_app. split; [destruct move; simpl; lia|]. split.
        * destruct move; subst d0.
          -- rewrite Nat.mod_small, Ek' by lia. f_equal. simpl. lia.
          -- rewrite Ek', Nat.Div0.add_mod_idemp_l. f_equal. simpl. lia.
        * intros d' Hd'. simpl in Hd'. destruct (decide (d' = d0 + length d)%nat) as [->|Hn]; [by rewrite <- Ek'|].
          apply Hd. lia. }
  intros [k|e]; [|by intros H; apply runs_ok; left]. rewrite length_seq. intros (_ & _ & Hd). apply runs_ok. right.
  intros i Hi. set (d := ((i + size - (start + d0) mod size) mod size)%nat).
  pose proof (Hmod (start + d0)%nat) as H1.
  assert (E : ((start + (d0 + d)) mod size)%nat = i).
  { unfold d. rewrite Nat.add_assoc, Nat.Div0.add_mod_idemp_r, <- Nat.Div0.add_mod_idemp_l.
    replace ((start + d0) mod size + (i + size - (start + d0) mod size))%nat with (i + 1 * size)%nat by lia.
    by rewrite Nat.Div0.mod_add, Nat.mod_small. }
  rewrite <- E. apply Hd. pose proof (Hmod (i + size - (start + d0) mod size)%nat). fold d in H. lia.
Qed.
End search.

(** ** Every set gets a cell of its own *)

Lemma only_member (v : gset Z) x : v <> ∅ -> v ∖ {[x]} = ∅ -> v = {[x]}.
Proof.
  intros [y Hy]%set_choose_L E.
  assert (H : forall z, z ∈ v -> z = x).
  { intros z Hz. destruct (decide (z = x)) as [|Hn]; [done|]. exfalso.
    assert (z ∈ v ∖ {[x]}) by (apply elem_of_difference; split; [done|by intros ?%elem_of_singleton]). set_solver. }
  apply set_eq. intros z. rewrite elem_of_singleton. split; [apply H|]. intros ->. by rewrite <- (H y Hy).
Qed.

Section place.
Context (size : nat) (c0 : list mem_cell) (xs : list Z).
Context (C0 : cells_ok c0) (L0 : length c0 = size).
Context (Hnd : NoDup xs) (Hxs : forall x, x ∈ xs -> 0 <= x < Z.of_nat size).

(** The cells after the first [s] sets: the sequence [j] of [xs] is in the cell [j] of [ts],
    alone with its old position and source, or the cell is still free; the other cells have
    lost these sequences, but not all of their own. *)
Record placed (s : nat) (ts : list Z) (cs : list mem_cell) : Prop := {
  pl_len : length cs = size;
  pl_ts : length ts = s /\ (s <= length xs)%nat /\ NoDup ts /\ forall t, t ∈ ts -> 0 <= t < Z.of_nat size;
  pl_first : forall j x t, xs !! j = Some x -> ts !! j = Some t -> m_tail (zat cs x) = t;
  pl_tail : forall x, 0 <= x -> x ∉ take s xs -> m_tail (zat cs x) = m_tail (zat c0 x);
  pl_own : forall j x t, xs !! j = Some x -> ts !! j = Some t ->
    (forall y, y ∈ m_seq (zat c0 t) -> y ∈ take s xs) /\
    (0 <= m_tail (zat c0 x) /\ m_seq (zat cs t) = {[x]} /\
       m_pos (zat cs t) = m_pos (zat c0 (m_tail (zat c0 x))) /\ m_src (zat cs t) = m_src (zat c0 (m_tail (zat c0 x))) \/
     m_tail (zat c0 x) < 0 /\ m_seq (zat cs t) = ∅ /\ m_seq (zat c0 t) = ∅ /\
       m_pos (zat cs t) = -1 /\ m_src (zat cs t) = m_src (zat c0 t));
  pl_rest : forall i, Z.of_nat i ∉ ts ->
    m_pos (cell_at cs i) = m_pos (cell_at c0 i) /\ m_src (cell_at cs i) = m_src (cell_at c0 i) /\
    (forall y, y ∈ m_seq (cell_at cs i) <-> y ∈ m_seq (cell_at c0 i) /\ y ∉ take s xs) /\
    (m_seq (cell_at c0 i) <> ∅ -> m_seq (cell_at cs i) <> ∅)
}.

Lemma placed_0 : placed 0 [] c0.
Proof.
  split; [done| |done| |done|].
  - split; [done|]. split; [lia|]. split; [apply NoDup_nil_2|]. intros t []%not_elem_of_nil.
  - done.
  - intros i _. rewrite take_0. set_solver.
Qed.

(** The cell [i] can be taken. *)
Definition takable (cs : list mem_cell) (ts : list Z) (i : nat) : Prop :=
  m_seq (cell_at cs i) = ∅ /\ Z.of_nat i ∉ ts.

#[local] Instance takable_dec cs ts i : Decision (takable cs ts i).
Proof. unfold takable. apply _. Defined.

Section at_step.
Context (s : nat) (ts : list Z) (cs : list mem_cell) (P : placed s ts cs).

(** The sequence of a cell of [ts]. *)
Lemma ts_first t : t ∈ ts -> exists j x, xs !! j = Some x /\ ts !! j = Some t /\ (j < s)%nat /\ x ∈ take s xs.
Proof.
  intros [j Hj]%list_elem_of_lookup. destruct (pl_ts _ _ _ P) as (Lt & Hs & _).
  pose proof (lookup_lt_Some _ _ _ Hj) as Hlt. destruct (lookup_lt_is_Some_2 xs j) as [x Hx]; [lia|].
  exists j, x. repeat split; [done|done|lia|]. apply (list_elem_of_lookup_2 _ j). by rewrite lookup_take_lt by lia.
Qed.

Lemma placed_mem i y : y ∈ m_seq (cell_at cs i) -> 0 <= y /\ m_tail (zat cs y) = Z.of_nat i.
Proof.
  intros Hy. destruct (decide (Z.of_nat i ∈ ts)) as [Hi|Hi].
  - apply ts_first in Hi as (j & x & Hx & Ht & _). destruct (pl_own _ _ _ P j x _ Hx Ht) as [_ [(_ & E & _)|(_ & E & _)]];
      rewrite Nat2Z.id in E; rewrite E in Hy; [|set_solver]. apply elem_of_singleton in Hy as ->.
    split; [apply (Hxs x); by eapply list_elem_of_lookup_2|]. by apply (pl_first _ _ _ P j).
  - destruct (pl_rest _ _ _ P i Hi) as (_ & _ & E & _). apply E in Hy as [Hy Hn]. apply (co_seq c0 C0) in Hy as [H0 Ht].
    split; [done|]. by rewrite (pl_tail _ _ _ P) by done.
Qed.

(** The next sequence still has its cell, if any. *)
Lemma next_tail x : xs !! s = Some x ->
  m_tail (zat cs x) = m_tail (zat c0 x) /\ (x ∉ take s xs) /\
  (0 <= m_tail (zat c0 x) -> x ∈ m_seq (zat cs (m_tail (zat c0 x))) /\ (m_tail (zat c0 x) ∉ ts) /\
     0 <= m_tail (zat c0 x) < Z.of_nat size).
Proof.
  intros Hx. assert (H0 : 0 <= x < Z.of_nat size) by (apply Hxs; by eapply list_elem_of_lookup_2).
  assert (Hn : x ∉ take s xs).
  { intros [j Hj]%list_elem_of_lookup. apply lookup_take_Some in Hj as [Hj Hlt].
    pose proof (NoDup_lookup _ _ _ _ Hnd Hj Hx). lia. }
  split; [apply (pl_tail _ _ _ P); [lia|done]|]. split; [done|]. intros Ht.
  destruct (tail_some c0 C0 x ltac:(lia) Ht) as (_ & Hlt & Hin). rewrite L0 in Hlt.
  assert (Hts : m_tail (zat c0 x) ∉ ts).
  { intros (j & x' & Hx' & Ht' & _ & Hin')%ts_first. destruct (pl_own _ _ _ P j x' _ Hx' Ht') as [E _].
    by apply E in Hin. }
  split; [|done]. destruct (pl_rest _ _ _ P (Z.to_nat (m_tail (zat c0 x)))) as (_ & _ & E & _); [by rewrite Z2Nat.id|].
  apply E. done.
Qed.

(** A sequence without a cell of its own finds a cell to take. *)
Lemma some_takable x : xs !! s = Some x ->
  ~ (0 <= m_tail (zat c0 x) /\ size = length c0 /\ m_seq (zat cs (m_tail (zat c0 x))) = {[x]}) ->
  exists i, (i < size)%nat /\ takable cs ts i.
Proof.
  intros Hx Hno. destruct (next_tail x Hx) as (Et & Hn & Hown).
  assert (H0 : 0 <= x < Z.of_nat size) by (apply Hxs; by eapply list_elem_of_lookup_2).
  destruct (decide (Exists (takable cs ts) (seq 0 size))) as [H|H].
  { apply Exists_exists in H as (i & Hi & H). apply list_elem_of_In, elem_of_seq in Hi. exists i. split; [lia|done]. }
  exfalso.
  assert (R : forall i, (i < size)%nat -> exists k, (k < size)%nat /\ Z.of_nat k <> x /\ m_tail (cell_at cs k) = Z.of_nat i).
  { intros i Hi. destruct (decide (m_seq (cell_at cs i) = ∅)) as [E|E].
    - destruct (decide (Z.of_nat i ∈ ts)) as [Ht|Ht].
      + apply ts_first in Ht as (j & y & Hy & Hj & Hjs & Hin).
        assert (0 <= y < Z.of_nat size) by (apply Hxs; by eapply list_elem_of_lookup_2).
        exists (Z.to_nat y). split; [lia|]. split; [intros Ey; apply Hn; by replace x with y by lia|].
        by apply (pl_first _ _ _ P j).
      + exfalso. apply H, Exists_exists. exists i. split; [apply list_elem_of_In, elem_of_seq; lia|done].
    - destruct (decide (m_seq (cell_at cs i) ∖ {[x]} = ∅)) as [E1|E1].
      + exfalso. assert (Es : m_seq (cell_at cs i) = {[x]}) by by apply only_member.
        assert (Hin : x ∈ m_seq (cell_at cs i)) by set_solver. apply placed_mem in Hin as [_ Hin].
        apply Hno. rewrite Et in Hin. rewrite Hin, Nat2Z.id. split; [lia|done].
      + apply set_choose_L in E1 as [y [Hy Hyx]%elem_of_difference]. apply placed_mem in Hy as [Hy0 Hy].
        exists (Z.to_nat y). rewrite Hy. split; [|split; [set_solver by lia|done]].
        destruct (decide (Z.to_nat y < size)%nat) as [|Hge]; [done|]. rewrite cell_at_ge in Hy by (rewrite (pl_len _ _ _ P); lia).
        cbn in Hy. lia. }
  assert (Hl : forall n, (n <= size)%nat -> exists ks, length ks = n /\ NoDup ks /\
     forall k, k ∈ ks -> (k < size)%nat /\ Z.of_nat k <> x /\ 0 <= m_tail (cell_at cs k) < Z.of_nat n).
  { induction n as [|n IH]; intros Hle; [exists []; split; [done|]; split; [apply NoDup_nil_2|]; intros k []%not_elem_of_nil|].
    destruct IH as (ks & Lk & Nk & Hk); [lia|]. destruct (R n) as (k & K1 & K2 & K3); [lia|].
    exists (k :: ks). split; [simpl; lia|]. split.
    - apply NoDup_cons_2; [|done]. intros Hin. apply Hk in Hin as (_ & _ & Hin). lia.
    - intros k' [->|Hin]%elem_of_cons; [split; [done|split; [done|lia]]|]. destruct (Hk k' Hin) as (? & ? & ?).
      split; [done|split; [done|lia]]. }
  destruct (Hl size ltac:(lia)) as (ks & Lk & Nk & Hk).
  assert (Hlen : (length (Z.to_nat x :: ks) <= size)%nat).
  { apply NoDup_below.
    - apply NoDup_cons_2; [|done]. intros Hin. apply Hk in Hin as (_ & Hne & _). lia.
    - intros k [->|Hin]%elem_of_cons; [lia|]. by apply Hk. }
  simpl in Hlen. lia.
Qed.

(** One more set in the cell [t]. *)
Lemma placed_snoc x t cs' :
  xs !! s = Some x -> t ∉ ts -> 0 <= t < Z.of_nat size -> (forall y, y ∈ m_seq (zat c0 t) -> y ∈ take (S s) xs) ->
  length cs' = size ->
  (forall z, 0 <= z -> m_tail (zat cs' z) = if decide (z = x) then t else m_tail (zat cs z)) ->
  (0 <= m_tail (zat c0 x) /\ m_seq (zat cs' t) = {[x]} /\
       m_pos (zat cs' t) = m_pos (zat c0 (m_tail (zat c0 x))) /\ m_src (zat cs' t) = m_src (zat c0 (m_tail (zat c0 x))) \/
     m_tail (zat c0 x) < 0 /\ m_seq (zat cs' t) = ∅ /\ m_seq (zat c0 t) = ∅ /\
       m_pos (zat cs' t) = -1 /\ m_src (zat cs' t) = m_src (zat c0 t)) ->
  (forall i, Z.of_nat i <> t -> m_pos (cell_at cs' i) = m_pos (cell_at cs i) /\ m_src (cell_at cs' i) = m_src (cell_at cs i) /\
     m_seq (cell_at cs' i) = m_seq (cell_at cs i) ∖ {[x]} /\ (m_seq (cell_at cs i) <> ∅ -> m_seq (cell_at cs' i) <> ∅)) ->
  placed (S s) (ts ++ [t]) cs'.
Proof.
  intros Hx Ht Htr Hc L' T' Own Rest. destruct (pl_ts _ _ _ P) as (Lt & Hs & Nt & Rt).
  pose proof (next_tail x Hx) as (_ & Hn & _). pose proof (lookup_lt_Some _ _ _ Hx) as Hlt.
  assert (Hj : forall j y t', xs !! j = Some y -> (ts ++ [t]) !! j = Some t' ->
    (ts !! j = Some t' /\ y <> x /\ t' <> t /\ 0 <= y) \/ (y = x /\ t' = t)).
  { intros j y t' Hy Ht'. destruct (decide (j < length ts)%nat) as [Hl|Hl].
    - rewrite lookup_app_l in Ht' by done. left. split; [done|].
      split; [intros ->; pose proof (NoDup_lookup _ _ _ _ Hnd Hy Hx); lia|].
      split; [intros ->; apply Ht; by eapply list_elem_of_lookup_2|]. apply (Hxs y). by eapply list_elem_of_lookup_2.
    - rewrite lookup_app_r in Ht' by lia. pose proof (lookup_lt_Some _ _ _ Ht') as Hl'. simpl in Hl'.
      replace (j - length ts)%nat with 0%nat in Ht' by lia. injection Ht' as <-. right.
      replace j with s in Hy by lia. rewrite Hx in Hy. by injection Hy as <-. }
  split.
  - done.
  - rewrite length_app. simpl. split; [lia|]. split; [lia|]. split.
    + apply list.NoDup_app. split; [done|]. split; [|apply NoDup_singleton]. intros y Hy ->%list_elem_of_singleton. done.
    + intros y [Hy|Hy%list_elem_of_singleton]%elem_of_app; [by apply Rt|by subst y].
  - intros j y t' Hy Ht'. destruct (Hj j y t' Hy Ht') as [(Ho & Hne & _ & H0)|[-> ->]].
    + rewrite T', decide_False by done. by apply (pl_first _ _ _ P j).
    + rewrite T', decide_True; [done..|]. apply (Hxs x). by eapply list_elem_of_lookup_2.
  - intros z Hz. rewrite (take_S_r _ _ _ Hx), not_elem_of_app, list_elem_of_singleton. intros [Hz1 Hz2].
    rewrite T', decide_False by done. by apply (pl_tail _ _ _ P).
  - intros j y t' Hy Ht'. destruct (Hj j y t' Hy Ht') as [(Ho & Hne & Htn & H0)|[-> ->]]; [|done].
    pose proof (pl_own _ _ _ P j y t' Hy Ho) as [O1 O2].
    split; [intros z Hz; rewrite (take_S_r _ _ _ Hx); apply elem_of_app; left; by apply O1|].
    destruct (Rest (Z.to_nat t')) as (-> & -> & -> & _).
    { destruct (Rt t') as [H1 _]; [by eapply list_elem_of_lookup_2|]. lia. }
    destruct O2 as [(A1 & -> & A2)|(A1 & -> & A2)]; [left|right]; (split; [done|]); (split; [set_solver|done]).
  - intros i. rewrite not_elem_of_app, list_elem_of_singleton. intros [Hi1 Hi2].
    destruct (Rest i Hi2) as (-> & -> & -> & Hne). destruct (pl_rest _ _ _ P i Hi1) as (-> & -> & Es & Hne').
    split; [done|]. split; [done|]. split; [|by intros H; apply Hne, Hne'].
    intros y. rewrite (take_S_r _ _ _ Hx), elem_of_difference, Es, elem_of_app, list_elem_of_singleton, elem_of_singleton. tauto.
Qed.
End at_step.

(** Where the search stands: if some cell can be taken then [e] can, no cell before it can,
    and the free cells from it on can. *)
Definition scan (h : nat) (cs : list mem_cell) (ts : list Z) (e : nat) : Prop :=
  (exists i, (i < size)%nat /\ takable cs ts i) ->
  exists d, (d < size)%nat /\ e = ((h + d) mod size)%nat /\ takable cs ts e /\
    (forall d', (d' < d)%nat -> ~ takable cs ts ((h + d') mod size)%nat) /\
    (forall d', (d <= d' < size)%nat -> m_seq (cell_at cs ((h + d') mod size)) = ∅ -> takable cs ts ((h + d') mod size)%nat).

Lemma mod_lt k : (0 < size)%nat -> (k mod size < size)%nat.
Proof. intros H. apply Nat.mod_upper_bound. lia. Qed.

(** Offsets around the end. *)
Lemma offset_inj h d d' : (d < size)%nat -> (d' < size)%nat ->
  ((h + d) mod size = (h + d') mod size)%nat -> d = d'.
Proof.
  intros Hd Hd' E. pose proof (Nat.div_mod (h + d) size ltac:(lia)). pose proof (Nat.div_mod (h + d') size ltac:(lia)).
  rewrite E in *. set (q := ((h + d) / size)%nat) in *. set (q' := ((h + d') / size)%nat) in *.
  destruct (Nat.lt_trichotomy q q') as [Hq|[Hq|Hq]]; [nia|rewrite Hq in *; lia|nia].
Qed.

Lemma offset_of h i : (i < size)%nat -> exists d, (d < size)%nat /\ i = ((h + d) mod size)%nat.
Proof.
  intros Hi. exists ((i + size - h mod size) mod size)%nat. split; [apply mod_lt; lia|].
  pose proof (mod_lt h ltac:(lia)). rewrite Nat.Div0.add_mod_idemp_r, <- Nat.Div0.add_mod_idemp_l.
  replace (h mod size + (i + size - h mod size))%nat with (i + 1 * size)%nat by lia.
  by rewrite Nat.Div0.mod_add, Nat.mod_small.
Qed.

Lemma scan_first h e : (0 < size)%nat ->
  first_free size c0 h 0 e \/ (forall i, (i < size)%nat -> m_seq (cell_at c0 i) <> ∅) -> scan h c0 [] e.
Proof.
  intros Hs [(d & Hd & -> & Hf & Hb)|Hno] (i & Hi & Hf' & _); [|by destruct (Hno i Hi)].
  exists d. split; [lia|]. split; [done|]. split; [split; [done|by apply not_elem_of_nil]|]. split.
  - intros d' Hd' [E _]. apply (Hb d'); [lia|done].
  - intros d' _ E. split; [done|by apply not_elem_of_nil].
Qed.

(** The search goes on from a cell that was taken. *)
Lemma scan_next h cs ts e cs' ts' e' : (e < size)%nat -> scan h cs ts e ->
  takable cs ts e ->
  (forall i, takable cs' ts' i <-> takable cs ts i /\ i <> e) ->
  (forall i, i <> e -> m_seq (cell_at cs' i) = ∅ <-> m_seq (cell_at cs i) = ∅) ->
  first_free size cs' e 1 e' \/ (forall i, (i < size)%nat -> m_seq (cell_at cs' i) <> ∅) -> scan h cs' ts' e'.
Proof.
  intros He Sc Hte Ht Hf Hn (i & Hi & Hti). destruct (Sc ltac:(by exists e)) as (d & Hd & Ed & _ & Hb & Ha).
  destruct Hn as [(d2 & Hd2 & Ee' & Hf2 & Hb2)|Hno]; [|destruct (Hno i Hi); apply Hti].
  destruct (offset_of h i Hi) as (di & Hdi & Ei). apply Ht in Hti as [Hti Hie].
  assert (Hlt : (d < di)%nat).
  { destruct (Nat.lt_trichotomy d di) as [|[E|E]]; [done| |].
    - exfalso. apply Hie. by rewrite Ei, Ed, E.
    - exfalso. apply (Hb di E). by rewrite <- Ei. }
  assert (Off : forall k, ((e + k) mod size = (h + (d + k)) mod size)%nat).
  { intros k. rewrite Ed, Nat.Div0.add_mod_idemp_l. f_equal. lia. }
  assert (Hle : (d2 <= di - d)%nat).
  { destruct (decide (d2 <= di - d)%nat) as [|Hgt]; [done|]. exfalso. apply (Hb2 (di - d)%nat); [lia|].
    rewrite Off. replace (d + (di - d))%nat with di by lia. rewrite <- Ei. apply Hf; [done|apply Hti]. }
  exists (d + d2)%nat. split; [lia|]. split; [by rewrite <- Off|].
  assert (Hne : forall k, (d < k < size)%nat -> ((h + k) mod size)%nat <> e).
  { intros k Hk E. rewrite Ed in E. apply offset_inj in E; lia. }
  assert (Free : forall k, (d < k < size)%nat -> m_seq (cell_at cs' ((h + k) mod size)) = ∅ -> takable cs' ts' ((h + k) mod size)%nat).
  { intros k Hk E. apply Ht. split; [|by apply Hne]. apply Ha; [lia|]. apply Hf; [by apply Hne|done]. }
  split; [rewrite Ee', Off; apply Free; [lia|by rewrite <- Off, <- Ee']|]. split.
  - intros k Hk Htk. pose proof (proj1 (Ht _) Htk) as [E Hke].
    destruct (Nat.lt_trichotomy k d) as [Hk'|[->|Hk']]; [by apply (Hb k)|by rewrite Ed in Hke|].
    apply (Hb2 (k - d)%nat); [lia|]. rewrite Off. replace (d + (k - d))%nat with k by lia.
      apply Hf; [apply Hne; lia|apply E].
  - intros k Hk E. apply Free; [lia|done].
Qed.

Context (u : llama_ubatch) (Hn : ub_n_seqs u = length xs).
Context (Hfirst : forall s x, xs !! s = Some x -> first_seq u s = Ok x).

(** What a step leaves: one more set placed, in the cell [t]. *)
Definition step_post (h s : nat) (ts : list Z) (mn mx : Z) (r : list mem_cell * nat * Z * Z) : Prop :=
  let '(cs', e', mn', mx') := r in
  exists t, placed (S s) (ts ++ [t]) cs' /\ ((S s < length xs)%nat -> scan h cs' (ts ++ [t]) e') /\
    mn' = Z.min mn t /\ mx' = Z.max mx t.

Section one.
Context (h s : nat) (ts : list Z) (cs : list mem_cell) (e : nat) (mn mx x : Z).
Context (P : placed s ts cs) (Sc : scan h cs ts e) (Hx : xs !! s = Some x).

Lemma next_range : 0 <= x < Z.of_nat size.
Proof. apply Hxs. by eapply list_elem_of_lookup_2. Qed.

(** The end of the iteration: the bounds are updated with the tail of [x]. *)
Lemma step_end cs' e' t : placed (S s) (ts ++ [t]) cs' -> ((S s < length xs)%nat -> scan h cs' (ts ++ [t]) e') ->
  runs (meta' ← rdz cs' x;
        let t := m_tail meta' in
        Ok (cs', e', if mn >? t then t else mn, if mx <? t then t else mx)) (step_post h s ts mn mx).
Proof.
  intros P' Sc'. pose proof next_range. rewrite rdz_at, bind_ok by (rewrite (pl_len _ _ _ P'); lia). apply runs_ok.
  assert (Et : m_tail (zat cs' x) = t).
  { apply (pl_first _ _ _ P' s); [done|]. destruct (pl_ts _ _ _ P) as [<- _]. by apply list_lookup_middle. }
  rewrite Et. exists t. split; [done|]. split; [done|].
  split; [destruct (Z.gtb_spec mn t)|destruct (Z.ltb_spec mx t)]; lia.
Qed.

(** The sequence owns its cell. *)
Lemma own_placed : 0 <= m_tail (zat c0 x) -> m_seq (zat cs (m_tail (zat c0 x))) = {[x]} ->
  placed (S s) (ts ++ [m_tail (zat c0 x)]) cs /\ scan h cs (ts ++ [m_tail (zat c0 x)]) e.
Proof.
  intros Ht Hs. destruct (next_tail s ts cs P x Hx) as (Et & Hxn & Hown). destruct (Hown Ht) as (Hin & Hts & Hr).
  set (t := m_tail (zat c0 x)) in *. pose proof next_range.
  destruct (pl_rest _ _ _ P (Z.to_nat t)) as (Rp & Rs & Rq & _); [by rewrite Z2Nat.id by lia|].
  split.
  - apply (placed_snoc s ts cs P x); try done.
    + intros y Hy. rewrite (take_S_r _ _ _ Hx), elem_of_app, list_elem_of_singleton.
      destruct (decide (y ∈ take s xs)) as [Hyt|Hyt]; [by left|right].
      assert (Hyc : y ∈ m_seq (zat cs t)) by by apply Rq. rewrite Hs in Hyc. by apply elem_of_singleton in Hyc.
    + apply (pl_len _ _ _ P).
    + intros z Hz. case_decide; [by subst z|done].
    + left. rewrite Hs. done.
    + intros i Hi. split; [done|split; [done|]].
      assert (x ∉ m_seq (cell_at cs i)) by (intros Hi'; apply (placed_mem s ts cs P) in Hi'; lia).
      split; [set_solver|done].
  - assert (Hiff : forall i, takable cs (ts ++ [t]) i <-> takable cs ts i).
    { intros i. unfold takable. rewrite not_elem_of_app, list_elem_of_singleton. split; [tauto|].
      intros [E Hi]. split; [done|]. split; [done|]. intros Ei. rewrite <- Ei, Nat2Z.id, E in Hs. set_solver. }
    intros (i & Hi & Hti%Hiff). destruct (Sc ltac:(by exists i)) as (d & Hd & Ed & Hte & Hb & Ha).
    exists d. rewrite Hiff. split; [done|]. split; [done|]. split; [done|].
    split; intros d' Hd'; rewrite Hiff; [by apply Hb|by apply Ha].
Qed.

(** The sequence takes the cell [e]: after [copy_tail], if it had a cell, and the update of
    its tail, the cells are [cs']. *)
Record took (cs' : list mem_cell) : Prop := {
  tk_len : length cs' = size;
  tk_tail : forall z, 0 <= z -> m_tail (zat cs' z) = if decide (z = x) then Z.of_nat e else m_tail (zat cs z);
  tk_cell : (0 <= m_tail (zat c0 x) /\ m_seq (cell_at cs' e) = {[x]} /\
       m_pos (cell_at cs' e) = m_pos (zat c0 (m_tail (zat c0 x))) /\ m_src (cell_at cs' e) = m_src (zat c0 (m_tail (zat c0 x)))) \/
     (m_tail (zat c0 x) < 0 /\ same_body (cell_at cs' e) (cell_at cs e));
  tk_rest : forall i, i <> e -> m_pos (cell_at cs' i) = m_pos (cell_at cs i) /\ m_src (cell_at cs' i) = m_src (cell_at cs i) /\
     m_seq (cell_at cs' i) = m_seq (cell_at cs i) ∖ {[x]} /\ (m_seq (cell_at cs i) <> ∅ -> m_seq (cell_at cs' i) <> ∅)
}.

Lemma took_placed cs' : (e < size)%nat -> takable cs ts e -> took cs' ->
  placed (S s) (ts ++ [Z.of_nat e]) cs' /\
  (forall i, takable cs' (ts ++ [Z.of_nat e]) i <-> takable cs ts i /\ i <> e) /\
  (forall i, i <> e -> m_seq (cell_at cs' i) = ∅ <-> m_seq (cell_at cs i) = ∅).
Proof.
  intros He [Ee Hets] T. destruct (pl_rest _ _ _ P e Hets) as (Rp & Rs & Rq & Rne).
  assert (E0 : m_seq (cell_at c0 e) = ∅).
  { destruct (decide (m_seq (cell_at c0 e) = ∅)) as [|Hne]; [done|]. by apply Rne in Hne. }
  destruct (co_free c0 C0 e E0) as [P0 _].
  assert (F : forall i, i <> e -> m_seq (cell_at cs' i) = ∅ <-> m_seq (cell_at cs i) = ∅).
  { intros i Hi. destruct (tk_rest _ T i Hi) as (_ & _ & E & Hne). split; [|intros E'; rewrite E, E'; set_solver].
    intros E'. destruct (decide (m_seq (cell_at cs i) = ∅)) as [|H]; [done|]. by apply Hne in H. }
  split; [|split; [|done]].
  - apply (placed_snoc s ts cs P x); rewrite ?Nat2Z.id; try done.
    + lia.
    + intros y Hy. rewrite E0 in Hy. set_solver.
    + apply (tk_len _ T).
    + apply (tk_tail _ T).
    + destruct (tk_cell _ T) as [?|(H1 & -> & -> & ->)]; [by left|right]. rewrite Rp, Rs. done.
    + intros i Hi. apply (tk_rest _ T). lia.
  - intros i. unfold takable. rewrite not_elem_of_app, list_elem_of_singleton. split.
    + intros (E & H1 & H2). assert (i <> e) by lia. split; [|done]. split; [by apply F|done].
    + intros ((E & H1) & H2). split; [by apply F|]. split; [done|lia].
Qed.

(** [copy_tail] and the update of the tail. *)
Lemma copy_took : 0 <= m_tail (zat c0 x) -> m_seq (zat cs (m_tail (zat c0 x))) <> {[x]} -> (e < size)%nat -> takable cs ts e ->
  runs (cs1 ← copy_tail cs x (m_tail (zat c0 x)) e; updz x (set_tail (Z.of_nat e)) cs1) took.
Proof.
  intros Ht Hs He [Ee Hets]. destruct (next_tail s ts cs P x Hx) as (Et & Hxn & Hown). destruct (Hown Ht) as (Hin & Hts & Hr).
  set (t := m_tail (zat c0 x)) in *. pose proof next_range as Hxr. pose proof (pl_len _ _ _ P) as L.
  assert (Hte : Z.to_nat t <> e) by (intros Ei; rewrite <- Ei in Ee; rewrite Ee in Hin; set_solver).
  destruct (pl_rest _ _ _ P (Z.to_nat t)) as (Rp & Rs & _); [by rewrite Z2Nat.id by lia|].
  unfold copy_tail. rewrite rdz_at, bind_ok by lia. rewrite upd_at, bind_ok by lia.
  set (d1 := <[e := _]> cs). assert (D1 : length d1 = size) by (unfold d1; by rewrite length_insert).
  assert (A1 : forall i, cell_at d1 i = if decide (i = e) then set_src (m_src (zat cs t)) (set_pos (m_pos (zat cs t)) (cell_at cs e))
     else cell_at cs i) by (intros; apply cell_at_insert; lia).
  rewrite updz_at, bind_ok by lia. set (d2 := <[Z.to_nat t := _]> d1).
  assert (D2 : length d2 = size) by (unfold d2; by rewrite length_insert).
  assert (A2 : forall i, cell_at d2 i = if decide (i = Z.to_nat t) then seq_erase x (zat d1 t) else cell_at d1 i)
    by (intros; apply cell_at_insert; lia).
  rewrite upd_at, bind_ok by lia. set (d3 := <[e := _]> d2).
  assert (D3 : length d3 = size) by (unfold d3; by rewrite length_insert).
  assert (A3 : forall i, cell_at d3 i = if decide (i = e) then seq_insert x (cell_at d2 e) else cell_at d2 i)
    by (intros; apply cell_at_insert; lia).
  assert (Ct : zat d3 t = seq_erase x (zat cs t)).
  { by rewrite A3, decide_False, A2, decide_True, A1, decide_False by done. }
  assert (Ce : cell_at d3 e = seq_insert x (set_src (m_src (zat cs t)) (set_pos (m_pos (zat cs t)) (cell_at cs e)))).
  { rewrite A3, decide_True, A2, decide_False, A1, decide_True by done. done. }
  assert (Co : forall i, i <> e -> i <> Z.to_nat t -> cell_at d3 i = cell_at cs i).
  { intros i H1 H2. by rewrite A3, decide_False, A2, decide_False, A1, decide_False by done. }
  rewrite rdz_at, bind_ok, Ct by lia.
  assert (Hne : m_seq (zat cs t) ∖ {[x]} <> ∅).
  { intros E. apply Hs, only_member; [set_solver|done]. }
  unfold mcell_is_empty. cbn [seq_erase set_seq m_seq]. rewrite bool_decide_eq_false_2 by done. cbn [negb assert_].
  rewrite !bind_ok. rewrite updz_at by lia. apply runs_ok. set (d4 := <[Z.to_nat x := _]> d3).
  assert (A4 : forall i, cell_at d4 i = if decide (i = Z.to_nat x) then set_tail (Z.of_nat e) (zat d3 x) else cell_at d3 i)
    by (intros; apply cell_at_insert; lia).
  assert (B4 : forall i, same_body (cell_at d4 i) (cell_at d3 i)) by (intros i; rewrite A4; case_decide; by subst).
  assert (T3 : forall i, m_tail (cell_at d3 i) = m_tail (cell_at cs i)).
  { intros i. destruct (decide (i = e)) as [->|H1]; [by rewrite Ce|].
    destruct (decide (i = Z.to_nat t)) as [->|H2]; [by rewrite Ct|by rewrite Co]. }
  split.
  - unfold d4. by rewrite length_insert.
  - intros z Hz. rewrite A4. destruct (decide (z = x)) as [->|Hzx]; [by rewrite decide_True|].
    rewrite decide_False by lia. apply T3.
  - left. split; [done|]. destruct (B4 e) as (-> & -> & ->). rewrite Ce. cbn. rewrite Ee, Rp, Rs.
    split; [set_solver|done].
  - intros i Hi. destruct (B4 i) as (-> & -> & ->). destruct (decide (i = Z.to_nat t)) as [->|H2].
    + rewrite Ct. cbn. done.
    + rewrite Co by done. split; [done|split; [done|]]. split; [|done].
      assert (x ∉ m_seq (cell_at cs i)) by (intros Hi'; apply (placed_mem s ts cs P) in Hi'; lia). set_solver.
Qed.

(** The update of the tail alone, for a sequence without a cell. *)
Lemma fresh_took : m_tail (zat c0 x) < 0 -> (e < size)%nat ->
  runs (updz x (set_tail (Z.of_nat e)) cs) took.
Proof.
  intros Ht He. destruct (next_tail s ts cs P x Hx) as (Et & _). pose proof next_range as Hxr. pose proof (pl_len _ _ _ P) as L.
  rewrite updz_at by lia. apply runs_ok. set (d4 := <[Z.to_nat x := _]> cs).
  assert (A4 : forall i, cell_at d4 i = if decide (i = Z.to_nat x) then set_tail (Z.of_nat e) (zat cs x) else cell_at cs i)
    by (intros; apply cell_at_insert; lia).
  assert (B4 : forall i, same_body (cell_at d4 i) (cell_at cs i)) by (intros i; rewrite A4; case_decide; by subst).
  split.
  - unfold d4. by rewrite length_insert.
  - intros z Hz. rewrite A4. destruct (decide (z = x)) as [->|Hzx]; [by rewrite decide_True|]. by rewrite decide_False by lia.
  - right. split; [done|apply B4].
  - intros i Hi. destruct (B4 i) as (-> & -> & ->). split; [done|split; [done|]]. split; [|done].
    assert (x ∉ m_seq (cell_at cs i)) by (intros Hi'; apply (placed_mem s ts cs P) in Hi'; lia). set_solver.
Qed.

Lemma size_one (v : gset Z) y : y ∈ v -> (base.size v =? 1)%nat = bool_decide (v = {[y]}).
Proof.
  intros Hy. case_bool_decide as E; [by rewrite E, size_singleton|]. apply Nat.eqb_neq. intros H1.
  apply size_1_elem_of in H1 as [z Hz]. apply E. set_solver.
Qed.

Lemma place_set_ok :
  runs (place_set size u (cs, e, mn, mx) s) (step_post h s ts mn mx).
Proof.
  unfold place_set. rewrite (Hfirst s x Hx), bind_ok. pose proof next_range as Hxr.
  pose proof (pl_len _ _ _ P) as L. rewrite rdz_at, bind_ok by lia.
  destruct (next_tail s ts cs P x Hx) as (Et & Hxn & Hown). rewrite Et. unfold owns_cell. rewrite Et.
  assert (Next : forall cs', took cs' -> takable cs ts e -> (e < size)%nat ->
    runs (r ← (e' ← (if (s + 1 <? ub_n_seqs u)%nat then next_empty size cs' true e else Ok e); Ok (cs', e'));
          let '(cs', e') := r in
          meta' ← rdz cs' x;
          let t := m_tail meta' in
          Ok (cs', e', if mn >? t then t else mn, if mx <? t then t else mx)) (step_post h s ts mn mx)).
  { intros cs' T Hte He. destruct (took_placed cs' He Hte T) as (P' & Ht & Hf).
    apply runs_bind, runs_bind. destruct (Nat.ltb_spec (s + 1) (ub_n_seqs u)) as [Hlt|Hge].
    - eapply runs_mono; [apply (next_empty_ok size cs' (tk_len _ T) ltac:(lia) true e); done|].
      intros e' He'. apply runs_ok, (step_end cs' e' (Z.of_nat e)); [done|]. intros _.
      by apply (scan_next h cs ts e).
    - apply runs_ok, (step_end cs' e (Z.of_nat e)); [done|]. lia. }
  assert (Avail : ~ (0 <= m_tail (zat c0 x) /\ m_seq (zat cs (m_tail (zat c0 x))) = {[x]}) ->
    takable cs ts e /\ (e < size)%nat).
  { intros Hno. destruct (some_takable s ts cs P x Hx) as (i & Hi & Hti); [tauto|].
    destruct (Sc ltac:(by exists i)) as (d & Hd & -> & Hte & _). split; [done|]. apply mod_lt. lia. }
  destruct (Z.geb_spec (m_tail (zat c0 x)) 0) as [Ht|Ht].
  - destruct (Hown ltac:(lia)) as (Hin & Hts & Hr). rewrite rdz_at, bind_ok by lia. unfold has_seq_id.
    rewrite bool_decide_eq_true_2 by done. cbn [assert_]. rewrite !bind_ok, (size_one _ x Hin).
    case_bool_decide as E.
    + rewrite bind_ok. destruct (own_placed ltac:(lia) E) as [P' S']. by apply (step_end cs e (m_tail (zat c0 x))).
    + destruct Avail as [Hte He]; [tauto|]. rewrite rd_at, bind_ok by lia. unfold mcell_is_empty.
      destruct Hte as [Ee Hets]. rewrite bool_decide_eq_true_2 by done. cbn [assert_]. rewrite bind_ok.
      destruct (runs_inv _ _ (copy_took ltac:(lia) E He ltac:(done))) as (cs' & Ec & T).
      destruct (copy_tail cs x (m_tail (zat c0 x)) e) as [cs1|?|?]; [|done..]. change (updz x (set_tail (Z.of_nat e)) cs1 = Ok cs') in Ec. rewrite bind_ok, Ec, bind_ok.
      by apply Next.
  - destruct Avail as [Hte He]; [lia|]. rewrite bind_ok, rd_at, bind_ok by lia. unfold mcell_is_empty.
    destruct Hte as [Ee Hets]. rewrite bool_decide_eq_true_2 by done. cbn [assert_]. rewrite !bind_ok.
    destruct (runs_inv _ _ (fresh_took ltac:(lia) He)) as (cs' & Ec & T). rewrite Ec, bind_ok. by apply Next.
Qed.
End one.

(** The whole loop. *)
Lemma place_all_ok h e mn mx : scan h c0 [] e ->
  runs (foldM (place_set size u) (c0, e, mn, mx) (seq 0 (length xs))) (fun '(cs, _, mn', mx') =>
    exists ts, placed (length xs) ts cs /\ mn' = foldl Z.min mn ts /\ mx' = foldl Z.max mx ts).
Proof.
  intros Sc. eapply runs_mono.
  { apply (runs_for (fun s '(cs, e, mn', mx') => exists ts, placed s ts cs /\ ((s < length xs)%nat -> scan h cs ts e) /\
      mn' = foldl Z.min mn ts /\ mx' = foldl Z.max mx ts)).
    - exists []. split; [apply placed_0|]. done.
    - intros s [[[cs e'] mn'] mx'] Hs (ts & P & Sc' & -> & ->). destruct (lookup_lt_is_Some_2 xs s Hs) as [x Hx].
      eapply runs_mono; [apply (place_set_ok h s ts cs e' _ _ x P (Sc' Hs) Hx)|].
      intros [[[cs2 e2] mn2] mx2] (t & P2 & Sc2 & -> & ->). rewrite Nat.add_1_r. exists (ts ++ [t]).
      rewrite !foldl_app. done. }
  intros [[[cs e'] mn'] mx'] (ts & P & _ & H). by exists ts.
Qed.
End place.

(** ** The sets move next to each other *)

Section bounds.
Context (size : nat) (ts : list Z) (Hts : forall t, t ∈ ts -> 0 <= t < Z.of_nat size) (Hnd : NoDup ts).
Context (Hne : ts <> []).
Abbreviation mn := (foldl Z.min (Z.of_nat size - 1) ts).
Abbreviation mx := (foldl Z.max 0 ts).

Lemma foldl_min z l : (forall t, t ∈ l -> foldl Z.min z l <= t) /\ (foldl Z.min z l = z \/ foldl Z.min z l ∈ l) /\ foldl Z.min z l <= z.
Proof.
  revert z. induction l as [|t l IH]; intros z; cbn [foldl].
  - split; [by intros t []%not_elem_of_nil|]. split; [by left|lia].
  - destruct (IH (Z.min z t)) as (H1 & H2 & H3). split; [intros y [->|Hy]%elem_of_cons; [lia|by apply H1]|].
    split; [|lia]. destruct H2 as [->|H2]; [|right; by right].
    destruct (Z.min_spec z t) as [[_ ->]|[_ ->]]; [by left|right; by left].
Qed.

Lemma foldl_max z l : (forall t, t ∈ l -> t <= foldl Z.max z l) /\ (foldl Z.max z l = z \/ foldl Z.max z l ∈ l) /\ z <= foldl Z.max z l.
Proof.
  revert z. induction l as [|t l IH]; intros z; cbn [foldl].
  - split; [by intros t []%not_elem_of_nil|]. split; [by left|lia].
  - destruct (IH (Z.max z t)) as (H1 & H2 & H3). split; [intros y [->|Hy]%elem_of_cons; [lia|by apply H1]|].
    split; [|lia]. destruct H2 as [->|H2]; [|right; by right].
    destruct (Z.max_spec z t) as [[_ ->]|[_ ->]]; [right; by left|by left].
Qed.

Lemma range_bounds : 0 <= mn <= mx /\ mx < Z.of_nat size /\ (forall t, t ∈ ts -> mn <= t <= mx).
Proof.
  destruct (foldl_min (Z.of_nat size - 1) ts) as (A1 & A2 & A3). destruct (foldl_max 0 ts) as (B1 & B2 & B3).
  destruct ts as [|t l] eqn:E; [done|]. rewrite <- E in *.
  assert (Ht : t ∈ ts) by (rewrite E; by left). pose proof (Hts t Ht). pose proof (A1 t Ht). pose proof (B1 t Ht).
  split; [|split; [|by auto]]; [|destruct B2 as [->|B2]; [lia|]; apply Hts in B2; lia].
  destruct A2 as [A2|A2]; [lia|]. apply Hts in A2. lia.
Qed.

(** The sets fit between the bounds. *)
Lemma range_room : Z.of_nat (length ts) <= mx - mn + 1.
Proof.
  destruct range_bounds as (H1 & H2 & H3).
  assert (H : (length (map (fun t => Z.to_nat (t - mn)) ts) <= Z.to_nat (mx - mn + 1))%nat).
  { apply NoDup_below.
    - change (map ?f ts) with (f <$> ts). apply NoDup_fmap_2_strong; [|done].
      intros t t' Ht Ht' E. pose proof (H3 t Ht). pose proof (H3 t' Ht'). lia.
    - intros k. change (map ?f ts) with (f <$> ts). intros (t & -> & Ht)%list_elem_of_fmap. pose proof (H3 t Ht). lia. }
  rewrite length_map in H. lia.
Qed.
End bounds.

Section gather.
Context (size : nat) (u : llama_ubatch) (xs ts : list Z) (c1 : list mem_cell) (mn mx : Z).
Context (L1 : length c1 = size) (Hlen : length ts = length xs) (Hnd : NoDup ts).
Context (Hxs : forall x, x ∈ xs -> 0 <= x < Z.of_nat size).
Context (Hfirst : forall s x, xs !! s = Some x -> first_seq u s = Ok x).
Context (Htail : forall j x t, xs !! j = Some x -> ts !! j = Some t -> m_tail (zat c1 x) = t).
Context (Hmn : 0 <= mn) (Hmx : mx < Z.of_nat size) (Hts : forall t, t ∈ ts -> mn <= t <= mx).
Context (Hroom : Z.of_nat (length ts) <= mx - mn + 1).

(** The cells are those of [c1] permuted between the bounds; the first [s] sets are in
    their places. *)
Record gathered (s : nat) (f g : Z -> Z) (cs : list mem_cell) : Prop := {
  ga_len : length cs = size;
  ga_inv : (forall i, f (g i) = i) /\ (forall i, g (f i) = i);
  ga_out : forall i, ~ (mn <= i <= mx) -> f i = i;
  ga_tail : forall x, 0 <= x -> m_tail (zat cs x) = f (m_tail (zat c1 x));
  ga_body : forall i, 0 <= i -> same_body (zat cs i) (zat c1 (g i));
  ga_done : forall j t, (j < s)%nat -> ts !! j = Some t -> f t = mn + Z.of_nat j
}.

Lemma moved_0 : gathered 0 (fun i => i) (fun i => i) c1.
Proof. split; try done. lia. Qed.

Lemma gathered_in s f g cs i : gathered s f g cs -> mn <= i <= mx -> mn <= f i <= mx.
Proof.
  intros G Hi. clear L1 Hlen. destruct (decide (mn <= f i <= mx)) as [|Hn]; [done|]. exfalso.
  pose proof (ga_out _ _ _ _ G _ Hn) as E. destruct (ga_inv _ _ _ _ G) as [_ Hg].
  pose proof (Hg (f i)) as E1. rewrite E, Hg in E1. lia.
Qed.

Lemma gathered_g_out s f g cs i : gathered s f g cs -> ~ (mn <= i <= mx) -> g i = i.
Proof.
  intros G Hi. destruct (ga_inv _ _ _ _ G) as [_ Hg]. pose proof (ga_out _ _ _ _ G i Hi) as E.
  rewrite <- E at 1. apply Hg.
Qed.

(** The exchange of two indices. *)
Definition transpose (a b i : Z) : Z := if i =? a then b else if i =? b then a else i.

Lemma transpose_inv a b i : transpose a b (transpose a b i) = i.
Proof. unfold transpose. repeat case_match; lia. Qed.

Lemma gather_set_ok s f g cs : (s < length xs)%nat -> gathered s f g cs ->
  runs (gather_set size u mn cs s) (fun cs' => exists f' g', gathered (S s) f' g' cs').
Proof.
  intros Hs G. destruct (lookup_lt_is_Some_2 xs s Hs) as [x Hx]. destruct (lookup_lt_is_Some_2 ts s) as [t Ht]; [lia|].
  pose proof (Hxs x ltac:(by eapply list_elem_of_lookup_2)) as Hxr.
  pose proof (Hts t ltac:(by eapply list_elem_of_lookup_2)) as Htr.
  pose proof (ga_len _ _ _ _ G) as L. destruct (ga_inv _ _ _ _ G) as [Ifg Igf].
  unfold gather_set. rewrite (Hfirst s x Hx), bind_ok, (rdz_at cs x), bind_ok by lia. cbv zeta.
  rewrite (ga_tail _ _ _ _ G) by lia. rewrite (Htail s x t Hx Ht).
  pose proof (gathered_in _ _ _ _ _ G Htr) as Hsr. set (src := f t) in *. set (dst := Z.of_nat s + mn).
  assert (Hdr : mn <= dst <= mx) by (unfold dst; lia).
  assert (Hd : forall j t', (j < S s)%nat -> ts !! j = Some t' -> (j < s)%nat /\ f t' <> src /\ f t' <> dst /\ f t' = mn + Z.of_nat j \/ j = s /\ t' = t).
  { intros j t' Hj Ht'. destruct (decide (j = s)) as [->|Hne]; [right; split; [done|congruence]|]. left.
    assert (Hjs : (j < s)%nat) by lia. pose proof (ga_done _ _ _ _ G j t' Hjs Ht') as E. split; [done|].
    split; [|unfold dst; lia]. intros Es. unfold src in Es. apply (f_equal g) in Es. rewrite !Igf in Es. subst t'.
    pose proof (NoDup_lookup _ _ _ _ Hnd Ht Ht'). lia. }
  destruct (Z.eqb_spec dst src) as [E|E].
  { apply runs_ok. exists f, g. destruct G as [A1 A2 A3 A4 A5 A6]. split; try done.
    intros j t' Hj Ht'. destruct (Hd j t' Hj Ht') as [(_ & _ & _ & ->)|[-> ->]]; [done|]. fold src. unfold dst in E. lia. }
  rewrite !rdz_at, !bind_ok by lia. rewrite updz_at, bind_ok by lia. set (d1 := <[Z.to_nat dst := _]> cs).
  assert (D1 : length d1 = size) by (unfold d1; by rewrite length_insert).
  rewrite updz_at, bind_ok by lia. set (d2 := <[Z.to_nat src := _]> d1).
  assert (D2 : length d2 = size) by (unfold d2; by rewrite length_insert).
  assert (B2 : forall i, m_tail (cell_at d2 i) = m_tail (cell_at cs i) /\
     (0 <= Z.of_nat i -> same_body (cell_at d2 i) (zat cs (transpose src dst (Z.of_nat i))))).
  { intros i. unfold d2, d1. rewrite cell_at_insert by (rewrite length_insert; lia).
    rewrite (cell_at_insert _ _ _ i), (cell_at_insert _ _ _ (Z.to_nat src)) by lia. unfold transpose.
    destruct (decide (i = Z.to_nat src)) as [->|H1].
    - rewrite decide_False by lia. split; [done|]. rewrite Z2Nat.id, Z.eqb_refl by lia. done.
    - destruct (decide (i = Z.to_nat dst)) as [->|H2].
      + split; [done|]. rewrite Z2Nat.id by lia. intros _. rewrite (proj2 (Z.eqb_neq dst src)), Z.eqb_refl by lia. done.
      + split; [done|]. intros _. rewrite (proj2 (Z.eqb_neq _ src)), (proj2 (Z.eqb_neq _ dst)) by lia. by rewrite Nat2Z.id. }
  eapply runs_mono.
  { apply (runs_for (fun i cs' => changed (fun _ => swap_tails src dst) d2 i cs')); [apply changed_0|].
    intros i cs' Hi Ch. pose proof Ch as [Lc _]. rewrite upd_at by lia. apply runs_ok. apply (changed_S (fun _ => swap_tails src dst)); [done|lia]. }
  intros cs' Ch. rewrite <- D2 in Ch. pose proof Ch as [L' Ch'].
  assert (T' : forall i, m_tail (cell_at cs' i) = transpose src dst (m_tail (cell_at cs i))).
  { intros i. rewrite Ch'. destruct (B2 i) as [Ei _]. unfold swap_tails, transpose. case_decide as Hi.
    - rewrite Ei. destruct (Z.eqb_spec (m_tail (cell_at cs i)) src); [done|]. by destruct (Z.eqb_spec (m_tail (cell_at cs i)) dst).
    - rewrite Ei, cell_at_ge by lia. change (m_tail mem_cell_new) with (-1). rewrite (proj2 (Z.eqb_neq _ src)), (proj2 (Z.eqb_neq _ dst)) by lia. done. }
  assert (B' : forall i, same_body (cell_at cs' i) (cell_at d2 i)).
  { intros i. rewrite Ch'. case_decide; [|done]. unfold swap_tails. by repeat case_match. }
  exists (fun i => transpose src dst (f i)), (fun i => g (transpose src dst i)). split.
  - by rewrite L'.
  - split; intros i; [by rewrite Ifg, transpose_inv|by rewrite transpose_inv, Igf].
  - intros i Hi. rewrite (ga_out _ _ _ _ G) by done. unfold transpose.
    by rewrite (proj2 (Z.eqb_neq _ src)), (proj2 (Z.eqb_neq _ dst)) by lia.
  - intros y Hy. by rewrite T', (ga_tail _ _ _ _ G).
  - intros i Hi. unfold same_body. destruct (B' (Z.to_nat i)) as (-> & -> & ->). destruct (B2 (Z.to_nat i)) as [_ Hb].
    rewrite Z2Nat.id in Hb by done. destruct (Hb Hi) as (-> & -> & ->).
    apply (ga_body _ _ _ _ G). unfold transpose. repeat case_match; lia.
  - intros j t' Hj Ht'. destruct (Hd j t' Hj Ht') as [(_ & H1 & H2 & H3)|[-> ->]]; unfold transpose.
    + rewrite (proj2 (Z.eqb_neq _ src)), (proj2 (Z.eqb_neq _ dst)) by done. done.
    + fold src. rewrite Z.eqb_refl. unfold dst. lia.
Qed.

Lemma gather_all_ok : runs (foldM (gather_set size u mn) c1 (seq 0 (length xs)))
  (fun cs => exists f g, gathered (length xs) f g cs).
Proof.
  apply (runs_for (fun s cs => exists f g, gathered s f g cs)); [by exists (fun i => i), (fun i => i); apply moved_0|].
  intros s cs Hs (f & g & G). rewrite Nat.add_1_r. by eapply gather_set_ok.
Qed.
End gather.

(** ** Positions and ids of the sets *)

Lemma concat_disjoint {A} (ls : list (list A)) : NoDup (concat ls) ->
  forall i j l l' x, ls !! i = Some l -> ls !! j = Some l' -> x ∈ l -> x ∈ l' -> i = j.
Proof.
  induction ls as [|l0 ls IH]; [done|]. intros Hn. simpl in Hn. apply list.NoDup_app in Hn as (_ & Hd & Hn).
  intros [|i] [|j] l l' x Hi Hj Hx Hx'; simpl in *; [done| | |f_equal; by eapply IH].
  - injection Hi as ->. exfalso. by apply (Hd x Hx), (elem_concat_at ls j l').
  - injection Hj as ->. exfalso. by apply (Hd x Hx'), (elem_concat_at ls i l).
Qed.

Section update.
Context (size : nat) (u : llama_ubatch) (sets : list (list Z)) (lasts : list Z).
Context (U : rec_ubatch size u sets lasts) (Hmax : Z.of_nat size <= INT32_MAX).
Context (c2 : list mem_cell) (L2 : length c2 = size) (mn : Z).
Context (Hmn : 0 <= mn) (Hroom : mn + Z.of_nat (length sets) <= Z.of_nat size).
(** The sum of the warning does not overflow. *)
Context (Hpos : forall s, (s < length sets)%nat -> m_pos (zat c2 (mn + Z.of_nat s)) + Z.of_nat (ub_n_seq_tokens u) <= INT32_MAX).

Record updated (s : nat) (cs : list mem_cell) : Prop := {
  up_len : length cs = size;
  up_tail : forall j l y, (j < s)%nat -> sets !! j = Some l -> y ∈ l -> m_tail (zat cs y) = mn + Z.of_nat j;
  up_keep : forall y, 0 <= y -> (forall j l, (j < s)%nat -> sets !! j = Some l -> y ∉ l) -> m_tail (zat cs y) = m_tail (zat c2 y);
  up_set : forall j l p, (j < s)%nat -> sets !! j = Some l -> lasts !! j = Some p ->
    m_pos (zat cs (mn + Z.of_nat j)) = p /\ m_src (zat cs (mn + Z.of_nat j)) = m_src (zat c2 (mn + Z.of_nat j)) /\
    m_seq (zat cs (mn + Z.of_nat j)) = list_to_set l;
  up_rest : forall i, 0 <= i -> ~ (mn <= i < mn + Z.of_nat s) -> same_body (zat cs i) (zat c2 i)
}.

Lemma updated_0 : updated 0 c2.
Proof. split; done || lia. Qed.

(** The loop over the ids of a set. *)
Lemma insert_ids s l cs : sets !! s = Some l -> length cs = size -> let c := mn + Z.of_nat s in
  runs (foldM (fun cs j => x ← ub_seq_at u (first_token u s) j;
                 cs' ← updz c (seq_insert x) cs; updz x (set_tail c) cs') cs (seq 0 (length l)))
    (fun cs' => length cs' = size /\
      (forall y, 0 <= y -> m_tail (zat cs' y) = if decide (y ∈ l) then c else m_tail (zat cs y)) /\
      (forall i, m_pos (cell_at cs' i) = m_pos (cell_at cs i) /\ m_src (cell_at cs' i) = m_src (cell_at cs i) /\
         m_seq (cell_at cs' i) = if decide (i = Z.to_nat c) then list_to_set l ∪ m_seq (cell_at cs i) else m_seq (cell_at cs i))).
Proof.
  intros Hl L c. destruct (set_ids size u sets lasts U s l Hl) as (n & _ & _ & _ & Hat).
  assert (Hc : 0 <= c < Z.of_nat size) by (apply lookup_lt_Some in Hl; unfold c; lia).
  eapply runs_mono.
  { apply (runs_for (fun k cs' => length cs' = size /\
      (forall y, 0 <= y -> m_tail (zat cs' y) = if decide (y ∈ take k l) then c else m_tail (zat cs y)) /\
      (forall i, m_pos (cell_at cs' i) = m_pos (cell_at cs i) /\ m_src (cell_at cs' i) = m_src (cell_at cs i) /\
         m_seq (cell_at cs' i) = if decide (i = Z.to_nat c) then list_to_set (take k l) ∪ m_seq (cell_at cs i) else m_seq (cell_at cs i)))).
    - split; [done|]. split; [intros y _; by rewrite decide_False by (rewrite take_0; apply not_elem_of_nil)|].
      intros i. split; [done|]. split; [done|]. rewrite take_0. cbn. case_decide; [set_solver|done].
    - intros k cs' Hk (L' & T & B). destruct (lookup_lt_is_Some_2 l k Hk) as [x Hx]. rewrite (Hat k x Hx), bind_ok.
      pose proof (id_range size u sets lasts U s l x Hl ltac:(by eapply list_elem_of_lookup_2)) as Hxr.
      rewrite updz_at, bind_ok by lia. set (d1 := <[Z.to_nat c := _]> cs').
      assert (D1 : length d1 = size) by (unfold d1; by rewrite length_insert). rewrite updz_at by lia. apply runs_ok.
      assert (A1 : forall i, cell_at d1 i = if decide (i = Z.to_nat c) then seq_insert x (zat cs' c) else cell_at cs' i)
        by (intros; apply cell_at_insert; lia).
      rewrite Nat.add_1_r, (take_S_r _ _ _ Hx). split; [by rewrite length_insert|]. split.
      + intros y Hy. rewrite cell_at_insert by lia. destruct (decide (Z.to_nat y = Z.to_nat x)) as [E|E].
        * rewrite decide_True by (replace y with x by lia; apply elem_of_app; right; by apply list_elem_of_singleton). done.
        * assert (Et : m_tail (zat d1 y) = m_tail (zat cs' y)) by (rewrite A1; case_decide as E1; [by rewrite E1|done]).
          rewrite Et, T by done. destruct (decide (y ∈ take k l)), (decide (y ∈ take k l ++ [x])) as [H|H]; try done; exfalso.
          -- set_solver.
          -- apply elem_of_app in H as [?|H%list_elem_of_singleton]; [done|lia].
      + intros i. rewrite cell_at_insert by lia.
        assert (Eb : m_pos (cell_at d1 i) = m_pos (cell_at cs i) /\ m_src (cell_at d1 i) = m_src (cell_at cs i) /\
          m_seq (cell_at d1 i) = if decide (i = Z.to_nat c) then list_to_set (take k l ++ [x]) ∪ m_seq (cell_at cs i) else m_seq (cell_at cs i)).
        { rewrite A1. destruct (B i) as (B1 & B2 & B3). case_decide as Ei; [|done]. subst i.
          cbn [seq_insert set_seq m_pos m_src m_seq]. rewrite B1, B2, B3. split; [done|split; [done|]]. set_solver. }
        destruct (decide (i = Z.to_nat x)) as [->|Ei]; exact Eb. }
  intros cs'. by rewrite take_ge.
Qed.

Lemma update_set_ok s cs : (s < length sets)%nat -> updated s cs -> runs (update_set u mn cs s) (updated (S s)).
Proof.
  intros Hs W. destruct (lookup_lt_is_Some_2 sets s Hs) as [l Hl].
  destruct (lookup_lt_is_Some_2 lasts s) as [p Hp]; [by rewrite (ru_lasts _ _ _ _ U)|].
  destruct (ru_last _ _ _ _ U s p Hp) as [Hup Hpr]. destruct (ru_tokens _ _ _ _ U) as [Ht0 Ht1].
  destruct (ru_seqs _ _ _ _ U) as [Hns _]. destruct (set_ids size u sets lasts U s l Hl) as (n & Hn & Hn0 & Hnl & _).
  unfold update_set. set (c := Z.of_nat s + mn). assert (Hc : c = mn + Z.of_nat s) by (unfold c; lia).
  assert (Hidx : Z.to_nat (u32 (Z.of_nat (first_token u s + ub_n_seq_tokens u) - 1)) = (first_token u s + ub_n_seq_tokens u - 1)%nat).
  { unfold first_token, INT32_MAX in *. rewrite u32_small; [lia|]. nia. }
  rewrite Hidx, (rd_ok _ _ _ Hup), bind_ok. pose proof (up_len _ _ W) as L. rewrite rdz_at, bind_ok by lia.
  destruct (up_rest _ _ W c) as (Bp & Bs & Bq); [lia..|].
  assert (Ew : (if m_pos (zat cs c) >=? 0 then i32 (m_pos (zat cs c) + to_i32 (Z.of_nat (ub_n_seq_tokens u))) else Ok 0) =
    Ok (if m_pos (zat cs c) >=? 0 then m_pos (zat cs c) + Z.of_nat (ub_n_seq_tokens u) else 0)).
  { destruct (Z.geb_spec (m_pos (zat cs c)) 0); [|done]. assert (Z.of_nat (ub_n_seq_tokens u) <= INT32_MAX) by nia.
    rewrite to_i32_small by lia. apply i32_ok. rewrite Bp in *. rewrite Hc in *. pose proof (Hpos s Hs). unfold INT32_MIN. lia. }
  rewrite Ew, bind_ok. rewrite updz_at, bind_ok by lia. set (d := <[Z.to_nat c := _]> cs).
  assert (D : length d = size) by (unfold d; by rewrite length_insert).
  assert (A : forall i, cell_at d i = if decide (i = Z.to_nat c) then set_seq ∅ (set_pos p (zat cs c)) else cell_at cs i)
    by (intros; apply cell_at_insert; lia).
  rewrite (rd_ok _ _ _ Hn), bind_ok, Hnl. eapply runs_mono; [rewrite Hc; by apply (insert_ids s l d)|].
  intros cs' (L' & T & B). rewrite <- Hc in *.
  assert (Td : forall y, m_tail (zat d y) = m_tail (zat cs y)) by (intros y; rewrite A; case_decide as E; [by rewrite E|done]).
  pose proof (concat_disjoint sets (ru_nodup _ _ _ _ U)) as Hdis.
  split.
  - done.
  - intros j l' y Hj Hl' Hy. pose proof (id_range size u sets lasts U j l' y Hl' Hy). rewrite T by lia.
    destruct (decide (j = s)) as [->|Hne].
    + rewrite Hl in Hl'. injection Hl' as <-. by rewrite decide_True.
    + rewrite decide_False, Td by (intros Hy'; apply Hne; by eapply Hdis). apply (up_tail _ _ W j l'); [lia|done|done].
  - intros y Hy Hno. rewrite T, decide_False, Td by (done || (apply (Hno s); [lia|done])).
    apply (up_keep _ _ W); [done|]. intros j l' Hj. apply Hno. lia.
  - intros j l' q Hj Hl' Hq. destruct (B (Z.to_nat (mn + Z.of_nat j))) as (-> & -> & ->). rewrite A.
    destruct (decide (j = s)) as [->|Hne].
    + rewrite Hl in Hl'. injection Hl' as <-. rewrite Hp in Hq. injection Hq as <-.
      rewrite !decide_True by lia. cbn. rewrite Bs, Hc. split; [done|split; [done|]]. set_solver.
    + rewrite !decide_False by lia. apply (up_set _ _ W); [lia|done|done].
  - intros i Hi Hni. destruct (B (Z.to_nat i)) as (B1 & B2 & B3). unfold same_body. rewrite B1, B2, B3, A.
    rewrite !decide_False by lia. apply (up_rest _ _ W); lia.
Qed.

Lemma update_all_ok : runs (foldM (update_set u mn) c2 (seq 0 (length sets))) (updated (length sets)).
Proof.
  apply (runs_for updated); [apply updated_0|]. intros s cs Hs W. rewrite Nat.add_1_r. by apply update_set_ok.
Qed.
End update.
