(* ===== verification/RecurrentDecode.v ===== *)
(** A decoding step of the recurrent memory: [find_slot] as a whole, and the states that the
    graph reads and writes (Recurrent.v, RecurrentSlot.v). *)

From S2P Require Import Prelude Hparams KvCells Memory Batch KvState Recurrent RecurrentOk RecurrentSlot.
Local Open Scope Z_scope.

(** ** Sources *)

Section stage.
Context (size : nat) (c3 : list mem_cell) (L3 : length c3 = size) (mn mx : Z).
Context (Hb : 0 <= mn <= mx) (Hmx : mx < Z.of_nat size).
(** Sources are cells; outside the bounds a cell is its own source. *)
Context (Hsrc : forall i, m_src (cell_at c3 i) < Z.of_nat size).
Context (Hout : forall i, ~ (mn <= Z.of_nat i <= mx) -> m_src (cell_at c3 i) = -1 \/ m_src (cell_at c3 i) = Z.of_nat i).

(** A reference count is zero when no cell has that source. *)
Definition counts (n : nat) (rc : list Z) : Prop :=
  length rc = size /\ forall k c, rc !! k = Some c ->
    0 <= c /\ (c = 0 <-> forall i, (i < n)%nat -> m_src (cell_at c3 i) <> Z.of_nat k).

Lemma src_refcounts_ok : runs (src_refcounts size c3) (counts size).
Proof.
  unfold src_refcounts. apply (runs_for counts).
  { split; [apply length_replicate|]. intros k c Hk. apply lookup_replicate in Hk as [-> _]. split; [done|]. split; [lia|done]. }
  intros i rc Hi [L H]. rewrite rd_at, bind_ok by lia. set (z := m_src (cell_at c3 i)).
  destruct (Z.geb_spec z 0) as [Hz|Hz].
  - pose proof (Hsrc i) as Hs. fold z in Hs. unfold zidx. rewrite (proj2 (Z.leb_le 0 z)), bind_ok by lia.
    destruct (lookup_lt_is_Some_2 rc (Z.to_nat z)) as [c Hc]; [lia|]. rewrite (rd_ok _ _ _ Hc), bind_ok, wr_ok by lia.
    apply runs_ok. split; [by rewrite length_insert|]. intros k d Hd. destruct (decide (k = Z.to_nat z)) as [->|Hne].
    + rewrite list_lookup_insert_eq in Hd by lia. injection Hd as <-. destruct (H _ _ Hc) as [H0 _]. split; [lia|].
      split; [lia|]. intros Hn. exfalso. apply (Hn i); [lia|]. fold z. lia.
    + rewrite list_lookup_insert_ne in Hd by done. destruct (H _ _ Hd) as [H0 Hiff]. split; [done|]. rewrite Hiff.
      split; intros Hn j Hj; [destruct (decide (j = i)) as [->|]; [fold z; lia|apply Hn; lia]|apply Hn; lia].
  - apply runs_ok. split; [done|]. intros k d Hd. destruct (H _ _ Hd) as [H0 Hiff]. split; [done|]. rewrite Hiff.
    split; intros Hn j Hj; [destruct (decide (j = i)) as [->|]; [fold z; lia|apply Hn; lia]|apply Hn; lia].
Qed.

(** The cell that is zeroed: between the bounds, and nobody's source; there is one whenever
    some cell between the bounds has no source. *)
Definition zero_cell (z : Z) : Prop :=
  (z = -1 \/ mn <= z <= mx /\ forall i, (i < size)%nat -> m_src (cell_at c3 i) <> z) /\
  ((exists i, mn <= Z.of_nat i <= mx /\ m_src (cell_at c3 i) < 0) -> z <> -1).

(** If every cell between the bounds is a source then every cell has one. *)
Lemma all_sources : (forall k, mn <= k <= mx -> exists i, (i < size)%nat /\ m_src (cell_at c3 i) = k) ->
  forall i, mn <= Z.of_nat i <= mx -> 0 <= m_src (cell_at c3 i).
Proof.
  intros Hall i Hi. destruct (Z.le_gt_cases 0 (m_src (cell_at c3 i))) as [|Hneg]; [done|]. exfalso.
  assert (Hl : forall n, Z.of_nat n <= mx - mn + 1 -> exists l : list nat, length l = n /\ NoDup l /\
    forall k, k ∈ l -> (k < Z.to_nat (mx - mn + 1))%nat /\ mn <= m_src (cell_at c3 (k + Z.to_nat mn)) < mn + Z.of_nat n).
  { induction n as [|n IH]; intros Hn; [exists []; split; [done|]; split; [apply NoDup_nil_2|]; intros k Hk; by apply not_elem_of_nil in Hk|].
    destruct IH as (l & Ll & Nl & Hk); [lia|]. destruct (Hall (mn + Z.of_nat n)) as (j & Hj & Ej); [lia|].
    assert (Hjr : mn <= Z.of_nat j <= mx).
    { destruct (decide (mn <= Z.of_nat j <= mx)) as [|Ho]; [done|]. destruct (Hout j Ho); lia. }
    exists ((j - Z.to_nat mn)%nat :: l).
    assert (Ejj : (j - Z.to_nat mn + Z.to_nat mn = j)%nat) by lia.
    split; [simpl; lia|]. split.
    - apply NoDup_cons_2; [|done]. intros Hin. apply Hk in Hin as [_ Hin]. rewrite Ejj in Hin. lia.
    - intros k [->|Hin]%elem_of_cons; [rewrite Ejj; lia|]. destruct (Hk k Hin). lia. }
  destruct (Hl (Z.to_nat (mx - mn + 1)) ltac:(lia)) as (l & Ll & Nl & Hk).
  assert (H : (length ((i - Z.to_nat mn)%nat :: l) <= Z.to_nat (mx - mn + 1))%nat).
  { apply NoDup_below.
    - apply NoDup_cons_2; [|done]. intros Hin. apply Hk in Hin as [_ Hin].
      replace (i - Z.to_nat mn + Z.to_nat mn)%nat with i in Hin by lia. lia.
    - intros k [->|Hin]%elem_of_cons; [lia|]. by apply Hk. }
  simpl in H. lia.
Qed.

Lemma find_rs_z_ok rc : counts size rc -> runs (find_rs_z rc mn mx) zero_cell.
Proof.
  intros [L H]. unfold find_rs_z. apply runs_bind.
  assert (Hrc : forall k, 0 <= k < Z.of_nat size -> exists c, rc !! Z.to_nat k = Some c /\
    (c = 0 <-> forall i, (i < size)%nat -> m_src (cell_at c3 i) <> k)).
  { intros k Hk. destruct (lookup_lt_is_Some_2 rc (Z.to_nat k)) as [c Hc]; [lia|]. exists c. split; [done|].
    destruct (H _ _ Hc) as [_ ->]. by rewrite Z2Nat.id by lia. }
  eapply runs_mono.
  { apply (runs_foldB (fun (d : list Z) (_ : unit) => forall k, k ∈ d -> exists i, (i < size)%nat /\ m_src (cell_at c3 i) = k)
      (fun z => mn <= z <= mx /\ forall i, (i < size)%nat -> m_src (cell_at c3 i) <> z)).
    - intros k Hk. by apply not_elem_of_nil in Hk.
    - intros d k l2 [] Ed Hd. assert (Hk : mn <= k <= mx).
      { assert (k ∈ seqZ mn (mx - mn + 1)) as Hk by (rewrite Ed; set_solver). apply elem_of_seqZ in Hk. lia. }
      destruct (Hrc k ltac:(lia)) as (c & Hc & Hiff). unfold zidx. rewrite (proj2 (Z.leb_le 0 k)), bind_ok by lia.
      rewrite (rd_ok _ _ _ Hc), bind_ok. destruct (Z.eqb_spec c 0) as [E|E]; apply runs_ok.
      + split; [done|]. by apply Hiff.
      + intros k' [Hk'|Hk'%list_elem_of_singleton]%elem_of_app; [by apply Hd|]. subst k'.
        destruct (decide (Exists (fun i => m_src (cell_at c3 i) = k) (seq 0 size))) as [Hx|Hx].
        * apply Exists_exists in Hx as (i & Hi & Ei). apply list_elem_of_In, elem_of_seq in Hi. exists i. split; [lia|done].
        * exfalso. apply E, Hiff. intros i Hi Ei. apply Hx, Exists_exists. exists i. split; [|done].
          apply list_elem_of_In, elem_of_seq. lia. }
  intros [[]|z] Hz; apply runs_ok.
  - split; [by left|]. intros (i & Hi & Hneg). exfalso.
    assert (0 <= m_src (cell_at c3 i)); [|lia]. apply all_sources; [|done]. intros k Hk. apply Hz, elem_of_seqZ. lia.
  - split; [by right|]. lia.
Qed.

(** After staging: sources between the bounds move to [src0]. *)
Definition staged (z : Z) (cs : list mem_cell) : Prop :=
  length cs = size /\ forall i,
    m_pos (cell_at cs i) = m_pos (cell_at c3 i) /\ m_seq (cell_at cs i) = m_seq (cell_at c3 i) /\
    m_tail (cell_at cs i) = m_tail (cell_at c3 i) /\
    (~ (mn <= Z.of_nat i <= mx) -> m_src (cell_at cs i) = m_src (cell_at c3 i)) /\
    (mn <= Z.of_nat i <= mx -> m_src (cell_at cs i) = Z.of_nat i /\
       m_src0 (cell_at cs i) = if m_src (cell_at c3 i) <? 0 then z else m_src (cell_at c3 i)).

Lemma stage_src_ok z : zero_cell z -> runs (stage_src z mn mx c3) (staged z).
Proof.
  intros [Hz Hex]. unfold stage_src.
  set (f := fun c i => set_src i (set_src0 (if m_src c <? 0 then z else m_src c) c)).
  eapply runs_mono.
  { apply (runs_foldM (fun (d : list Z) cs => length cs = size /\ forall i, cell_at cs i =
        if decide (mn <= Z.of_nat i < mn + Z.of_nat (length d)) then f (cell_at c3 i) (Z.of_nat i) else cell_at c3 i)).
    - split; [done|]. intros i. by rewrite decide_False by (simpl; lia).
    - intros d k l2 cs Ed [L H].
      assert (Hk : k = mn + Z.of_nat (length d) /\ k <= mx).
      { assert (E : seqZ mn (mx - mn + 1) !! length d = Some k) by (rewrite Ed; by apply list_lookup_middle).
        apply lookup_seqZ in E. lia. }
      destruct Hk as [Ek Hk]. rewrite rdz_at, bind_ok by lia.
      assert (Ec : zat cs k = zat c3 k) by (rewrite H, decide_False by lia; done).
      rewrite Ec. set (c := zat c3 k) in *.
      assert (E1 : (if m_src c <? 0 then assert_ (z >=? 0) ;; updz k (set_src0 z) cs else updz k (set_src0 (m_src c)) cs) =
        Ok (<[Z.to_nat k := set_src0 (if m_src c <? 0 then z else m_src c) c]> cs)).
      { destruct (Z.ltb_spec (m_src c) 0) as [Hn|Hn]; [|by rewrite updz_at, Ec by lia].
        assert (z <> -1). { apply Hex. exists (Z.to_nat k). split; [lia|done]. }
        replace (z >=? 0) with true by lia. cbn [assert_]. rewrite bind_ok. by rewrite updz_at, Ec by lia. }
      rewrite E1, bind_ok. rewrite updz_at by (rewrite length_insert; lia). apply runs_ok.
      rewrite cell_at_insert, decide_True by lia. rewrite list_insert_insert_eq. split; [by rewrite length_insert|].
      intros i. rewrite cell_at_insert by lia. rewrite length_app. cbn [length]. destruct (decide (i = Z.to_nat k)) as [->|Hne].
      + rewrite decide_True by lia. unfold f. by rewrite Z2Nat.id by lia.
      + rewrite H. destruct (decide (mn <= Z.of_nat i < mn + Z.of_nat (length d))), (decide (mn <= Z.of_nat i < mn + Z.of_nat (length d + 1)));
          [done|lia|lia|done]. }
  intros cs [L H]. split; [done|]. intros i. rewrite H, length_seqZ. case_decide as Hi; cbn.
  - split; [done|split; [done|split; [done|]]]. split; [lia|done].
  - split; [done|split; [done|split; [done|]]]. split; [done|lia].
Qed.
End stage.

Lemma concat_nodup {A} (ls : list (list A)) s l : NoDup (concat ls) -> ls !! s = Some l -> NoDup l.
Proof.
  revert s. induction ls as [|l0 ls IH]; intros [|s] Hn Hl; [done..| |]; simpl in *; apply list.NoDup_app in Hn as (H1 & _ & H2).
  - by injection Hl as <-.
  - by eapply IH.
Qed.

(** ** The cells after a micro-batch *)

(** The micro-batch [sets] was placed from the cell [h] on, in a range of [n] cells; [z] is
    the cell that is zeroed.  A cell of the range starts from the row [m_src0]; the others
    keep theirs. *)
Definition in_range (h n : nat) (i : nat) : Prop := (h <= i < h + n)%nat.

(** The row of cell [i] comes from row [k], which is not zeroed. *)
Definition row_from (h n : nat) (z : Z) (cs : list mem_cell) (i k : nat) : Prop :=
  (in_range h n i /\ m_src0 (cell_at cs i) = Z.of_nat k \/ ~ in_range h n i /\ i = k) /\ Z.of_nat k <> z.
Definition row_zero (h n : nat) (z : Z) (cs : list mem_cell) (i : nat) : Prop :=
  in_range h n i /\ m_src0 (cell_at cs i) = z /\ in_range h n (Z.to_nat z) /\ 0 <= z.

Record decoded (sets : list (list Z)) (lasts : list Z) (cs : list mem_cell) (h n : nat) (z : Z) (cs' : list mem_cell) : Prop := {
  de_len : length cs' = length cs;
  de_ok : cells_ok cs';
  de_room : (h + n <= length cs)%nat /\ (length sets <= n)%nat;
  de_set : forall s l p, sets !! s = Some l -> lasts !! s = Some p ->
    m_pos (cell_at cs' (h + s)) = p /\ m_seq (cell_at cs' (h + s)) = list_to_set l;
  de_start : forall s l, sets !! s = Some l -> let t := m_tail (zat cs (first_of l)) in
    if decide (0 <= t) then row_from h n z cs' (h + s) (Z.to_nat t)
    else row_zero h n z cs' (h + s) \/
         exists k, row_from h n z cs' (h + s) k /\ m_seq (cell_at cs k) = ∅ /\ m_src (cell_at cs k) = Z.of_nat k;
  de_other : forall y, 0 <= y -> y ∉ concat sets -> let t := m_tail (zat cs y) in let t' := m_tail (zat cs' y) in
    if decide (0 <= t) then 0 <= t' /\ ~ (h <= Z.to_nat t' < h + length sets)%nat /\
      m_pos (zat cs' t') = m_pos (zat cs t) /\
      m_seq (zat cs' t') = m_seq (zat cs t) ∖ list_to_set (concat sets) /\ row_from h n z cs' (Z.to_nat t') (Z.to_nat t)
    else t' < 0;
  de_zero : z = -1 \/ 0 <= z /\ in_range h n (Z.to_nat z);
  de_src : forall i, in_range h n i -> m_src (cell_at cs' i) = Z.of_nat i;
  de_free : forall i, (i < length cs)%nat -> m_seq (cell_at cs' i) = ∅ -> m_src (cell_at cs' i) = Z.of_nat i ->
    ~ (h <= i < h + length sets)%nat /\
    (row_zero h n z cs' i \/ exists k, row_from h n z cs' i k /\ m_seq (cell_at cs k) = ∅ /\ m_src (cell_at cs k) = Z.of_nat k)
}.

Section finish.
Context (size : nat) (u : llama_ubatch) (sets : list (list Z)) (lasts : list Z).
Context (U : rec_ubatch size u sets lasts).
Abbreviation xs := (map first_of sets).
Context (cm c0 c1 c2 c3 c4 : list mem_cell) (ts : list Z) (f g : Z -> Z) (z mn mx : Z).
Context (Lm : length cm = size) (Cm : cells_ok cm) (G0 : gone (rests sets) cm c0) (C0 : cells_ok c0).
Context (P1 : placed size c0 xs (length sets) ts c1).
Context (Hmn : 0 <= mn <= mx) (Hmx : mx < Z.of_nat size) (Hts : forall t, t ∈ ts -> mn <= t <= mx).
Context (Hroom : Z.of_nat (length sets) <= mx - mn + 1).
Context (G2 : gathered size ts c1 mn mx (length sets) f g c2).
Context (W3 : updated size sets lasts c2 mn (length sets) c3).
Context (Hz : zero_cell size c3 mn mx z) (S4 : staged size c3 mn mx z c4).
Abbreviation n := (length sets).
Abbreviation h := (Z.to_nat mn).

(** *** The sets and their first sequences *)

Lemma set_first s l : sets !! s = Some l -> exists x, first_of l = x /\ x ∈ l /\ xs !! s = Some x /\ l = x :: tail l.
Proof.
  intros Hl. destruct (set_nonempty size u sets lasts U s l Hl) as (x & r & ->). exists x. split; [done|]. split; [by left|].
  split; [|done]. change (map first_of sets) with (first_of <$> sets). by rewrite list_lookup_fmap, Hl.
Qed.

Lemma first_set s x : xs !! s = Some x -> exists l, sets !! s = Some l /\ x ∈ l /\ first_of l = x.
Proof.
  change (map first_of sets) with (first_of <$> sets). intros (l & -> & Hl)%list_lookup_fmap_Some.
  exists l. split; [done|]. destruct (set_first s l Hl) as (x & <- & Hx & _). done.
Qed.

Lemma batch_split y : y ∈ concat sets <-> y ∈ xs \/ y ∈ rests sets.
Proof.
  assert (H : Forall (fun l => l <> []) sets).
  { apply Forall_forall. intros l Hl. apply list_elem_of_In, list_elem_of_lookup in Hl as [s Hl].
    by destruct (set_first s l Hl) as (x & _ & Hx & _); destruct l; [by apply not_elem_of_nil in Hx|]. }
  unfold rests. clear -H. induction H as [|l ls Hl H IH]; cbn [map concat].
  - split; [by intros []%not_elem_of_nil|intros [[]%not_elem_of_nil|[]%not_elem_of_nil]].
  - destruct l as [|x r]; [done|]. cbn [app tail]. rewrite !elem_of_cons, !elem_of_app, IH. cbn. tauto.
Qed.

Lemma set_batch s l y : sets !! s = Some l -> y ∈ l -> y ∈ concat sets.
Proof. apply elem_concat_at. Qed.

Lemma batch_set y : y ∈ concat sets -> exists s l, sets !! s = Some l /\ y ∈ l.
Proof.
  intros (l & Hl & Hy)%list_elem_of_In%in_concat. apply list_elem_of_In, list_elem_of_lookup in Hl as [s Hl].
  exists s, l. split; [done|by apply list_elem_of_In].
Qed.

(** *** Tails *)

Lemma first_not_rest s l : sets !! s = Some l -> first_of l ∉ rests sets.
Proof.
  intros Hl. destruct (set_first s l Hl) as (x & -> & Hx & _ & El).
  unfold rests. intros (r & Hr & Hxr)%list_elem_of_In%in_concat. apply list_elem_of_In in Hxr.
  apply list_elem_of_In in Hr. change (map ?tl sets) with (tl <$> sets) in Hr.
  apply list_elem_of_fmap in Hr as (l' & -> & Hl'). apply list_elem_of_lookup in Hl' as [s' Hl'].
  destruct (set_first s' l' Hl') as (x' & _ & _ & _ & El').
  assert (E : s = s').
  { eapply (concat_disjoint sets (ru_nodup _ _ _ _ U)); [exact Hl|exact Hl'|exact Hx|]. rewrite El'. by right. }
  subst s'. rewrite Hl in Hl'. injection Hl' as <-.
  pose proof (concat_nodup sets s l (ru_nodup _ _ _ _ U) Hl) as Hnd. rewrite El in Hnd.
  apply list.NoDup_cons in Hnd as [Hnd _]. done.
Qed.

Lemma tail_m s l : sets !! s = Some l -> m_tail (zat c0 (first_of l)) = m_tail (zat cm (first_of l)).
Proof.
  intros Hl. rewrite (go_tail _ _ _ G0). destruct (set_first s l Hl) as (x & Ex & Hx & _).
  pose proof (ru_range _ _ _ _ U x ltac:(by eapply set_batch)). rewrite Z2Nat.id by lia.
  by rewrite decide_False by by eapply first_not_rest.
Qed.

Lemma tail_other y : 0 <= y -> y ∉ concat sets ->
  m_tail (zat c4 y) = f (m_tail (zat cm y)) /\ m_tail (zat c1 y) = m_tail (zat cm y) /\ m_tail (zat c0 y) = m_tail (zat cm y).
Proof.
  intros Hy Hn. rewrite batch_split in Hn.
  assert (E0 : m_tail (zat c0 y) = m_tail (zat cm y)).
  { rewrite (go_tail _ _ _ G0), Z2Nat.id by done. rewrite decide_False; [done|]. tauto. }
  assert (E1 : m_tail (zat c1 y) = m_tail (zat c0 y)).
  { apply (pl_tail _ _ _ _ _ _ P1); [done|]. intros Ht. apply Hn. left.
    destruct (proj1 (list_elem_of_lookup _ _) Ht) as [j Hj]. apply lookup_take_Some in Hj as [Hj _]. by eapply list_elem_of_lookup_2. }
  split; [|split; [congruence|done]].
  destruct S4 as [_ S]. destruct (S (Z.to_nat y)) as (_ & _ & -> & _).
  rewrite (up_keep _ _ _ _ _ _ _ W3); [|done|].
  - by rewrite (ga_tail _ _ _ _ _ _ _ _ _ G2), E1, E0.
  - intros j l _ Hl Hin. apply Hn, batch_split. by eapply set_batch.
Qed.

Lemma tail_batch s l y : sets !! s = Some l -> y ∈ l -> m_tail (zat c4 y) = mn + Z.of_nat s.
Proof.
  intros Hl Hy. destruct S4 as [_ S]. destruct (S (Z.to_nat y)) as (_ & _ & -> & _).
  apply (up_tail _ _ _ _ _ _ _ W3 s l); [by eapply lookup_lt_Some|done|done].
Qed.

(** *** Bodies *)

Lemma ts_at s l : sets !! s = Some l -> exists t, ts !! s = Some t /\ f t = mn + Z.of_nat s /\ mn <= t <= mx /\ xs !! s = Some (first_of l).
Proof.
  intros Hl. pose proof (lookup_lt_Some _ _ _ Hl) as Hs. destruct (pl_ts _ _ _ _ _ _ P1) as (Lt & _).
  destruct (lookup_lt_is_Some_2 ts s) as [t Ht]; [lia|]. exists t. split; [done|].
  split; [by apply (ga_done _ _ _ _ _ _ _ _ _ G2)|]. split; [apply Hts; by eapply list_elem_of_lookup_2|].
  by destruct (set_first s l Hl) as (x & -> & _ & Hx & _).
Qed.

(** The cell of a set: [f] takes it from the cell [t] of [ts]. *)
Lemma body_set s l p : sets !! s = Some l -> lasts !! s = Some p -> exists t, ts !! s = Some t /\ xs !! s = Some (first_of l) /\
  m_pos (cell_at c4 (h + s)) = p /\ m_seq (cell_at c4 (h + s)) = list_to_set l /\
  m_src (cell_at c3 (h + s)) = m_src (zat c1 t).
Proof.
  intros Hl Hp. destruct (ts_at s l Hl) as (t & Ht & Eft & Htr & Hx). exists t. split; [done|split; [done|]].
  destruct S4 as [_ S]. destruct (S (h + s)%nat) as (-> & -> & _).
  pose proof (lookup_lt_Some _ _ _ Hl) as Hs.
  destruct (up_set _ _ _ _ _ _ _ W3 s l p Hs Hl Hp) as (E1 & E2 & E3).
  replace (Z.to_nat (mn + Z.of_nat s)) with (h + s)%nat in * by lia. rewrite E1, E3. split; [done|split; [done|]].
  rewrite E2. pose proof (ga_body _ _ _ _ _ _ _ _ _ G2 (mn + Z.of_nat s) ltac:(lia)) as (_ & Es & _).
  replace (Z.to_nat (mn + Z.of_nat s)) with (h + s)%nat in Es by lia. rewrite Es. rewrite <- Eft.
  destruct (ga_inv _ _ _ _ _ _ _ _ _ G2) as [_ ->]. done.
Qed.

(** Another cell: [f] takes it from the cell [g i] of [cm], where it lost the batch. *)
Lemma body_other i : ~ (mn <= Z.of_nat i < mn + Z.of_nat n) -> 0 <= g (Z.of_nat i) ->
  let k := Z.to_nat (g (Z.of_nat i)) in
  m_pos (cell_at c4 i) = m_pos (cell_at c0 k) /\ m_src (cell_at c3 i) = m_src (cell_at c0 k) /\
  (forall y, y ∈ m_seq (cell_at c4 i) <-> y ∈ m_seq (cell_at cm k) /\ y ∉ concat sets) /\
  (m_seq (cell_at c4 i) = ∅ -> m_seq (cell_at c0 k) = ∅).
Proof.
  intros Hi Hg k. destruct (ga_inv _ _ _ _ _ _ _ _ _ G2) as [Ifg Igf].
  assert (Hk : Z.of_nat k ∉ ts).
  { unfold k. rewrite Z2Nat.id by done. intros [s Hs]%list_elem_of_lookup.
    pose proof (lookup_lt_Some _ _ _ Hs) as Hl. destruct (pl_ts _ _ _ _ _ _ P1) as (Lt & _).
    pose proof (ga_done _ _ _ _ _ _ _ _ _ G2 s _ ltac:(lia) Hs) as E. rewrite Ifg in E. lia. }
  destruct (pl_rest _ _ _ _ _ _ P1 k Hk) as (Rp & Rs & Rq & Rn).
  pose proof (up_rest _ _ _ _ _ _ _ W3 (Z.of_nat i) ltac:(lia) Hi) as (Up & Us & Uq).
  pose proof (ga_body _ _ _ _ _ _ _ _ _ G2 (Z.of_nat i) ltac:(lia)) as (Gp & Gs & Gq). fold k in Gp, Gs, Gq.
  rewrite Nat2Z.id in Up, Us, Uq, Gp, Gs, Gq. destruct S4 as [_ S]. destruct (S i) as (-> & -> & _).
  rewrite Up, Us, Uq, Gp, Gs, Gq, Rp, Rs. split; [done|split; [done|]]. split.
  - intros y. rewrite Rq, take_ge, (go_seq _ _ _ G0), batch_split by (rewrite length_map; lia). tauto.
  - intros E. destruct (decide (m_seq (cell_at c0 k) = ∅)) as [|Hne]; [done|]. by apply Rn in Hne.
Qed.

Lemma g_pos i : 0 <= i -> 0 <= g i.
Proof.
  intros Hi. destruct (decide (mn <= i <= mx)) as [Hin|Hout].
  - destruct (ga_inv _ _ _ _ _ _ _ _ _ G2) as [Ifg Igf]. destruct (decide (mn <= g i <= mx)) as [|Ho]; [lia|].
    pose proof (ga_out _ _ _ _ _ _ _ _ _ G2 _ Ho) as E. rewrite Ifg in E. lia.
  - by rewrite (gathered_g_out size ts c1 mn mx n f g c2).
Qed.

Lemma f_pos i : 0 <= i -> 0 <= f i.
Proof.
  intros Hi. destruct (decide (mn <= i <= mx)) as [Hin|Hout].
  - assert (mn <= f i <= mx) by (eapply gathered_in; [exact G2|done]). lia.
  - by rewrite (ga_out _ _ _ _ _ _ _ _ _ G2).
Qed.

Lemma f_neg i : i < 0 -> f i = i.
Proof. intros Hi. apply (ga_out _ _ _ _ _ _ _ _ _ G2). lia. Qed.

(** Which cells have no set. *)
Lemma cell_split i : (exists s l p, sets !! s = Some l /\ lasts !! s = Some p /\ i = (h + s)%nat) \/
  ~ (mn <= Z.of_nat i < mn + Z.of_nat n).
Proof.
  destruct (decide (mn <= Z.of_nat i < mn + Z.of_nat n)) as [Hi|Hi]; [left|by right].
  destruct (lookup_lt_is_Some_2 sets (i - h)) as [l Hl]; [lia|].
  destruct (lookup_lt_is_Some_2 lasts (i - h)) as [p Hp]; [rewrite (ru_lasts _ _ _ _ U); lia|].
  exists (i - h)%nat, l, p. split; [done|split; [done|lia]].
Qed.

Lemma finish_ok : cells_ok c4.
Proof.
  destruct (ga_inv _ _ _ _ _ _ _ _ _ G2) as [Ifg Igf]. split.
  - intros k. destruct (decide (Z.of_nat k ∈ concat sets)) as [Hb|Hb].
    + destruct (batch_set _ Hb) as (s & l & Hl & Hy). pose proof (tail_batch s l _ Hl Hy) as E.
      rewrite Nat2Z.id in E. lia.
    + pose proof (tail_other (Z.of_nat k) ltac:(lia) Hb) as (E & _). rewrite Nat2Z.id in E. rewrite E.
      pose proof (co_tail cm Cm k). destruct (decide (m_tail (cell_at cm k) = -1)) as [->|]; [by rewrite f_neg|].
      pose proof (f_pos (m_tail (cell_at cm k)) ltac:(lia)). lia.
  - intros t y. destruct (cell_split t) as [(s & l & p & Hl & Hp & ->)|Ht].
    + destruct (body_set s l p Hl Hp) as (t0 & Ht0 & Hx & _ & -> & _). rewrite elem_of_list_to_set. split.
      * intros Hy. pose proof (ru_range _ _ _ _ U y ltac:(by eapply set_batch)). split; [lia|].
        rewrite (tail_batch s l y) by done. lia.
      * intros [Hy Et]. destruct (decide (y ∈ concat sets)) as [Hb|Hb].
        { destruct (batch_set _ Hb) as (s' & l' & Hl' & Hy'). rewrite (tail_batch s' l' y) in Et by done.
          replace s' with s in Hl' by lia. rewrite Hl in Hl'. by injection Hl' as <-. }
        exfalso. destruct (tail_other y Hy Hb) as (E & _ & E0). rewrite E in Et.
        destruct (ts_at s l Hl) as (t1 & Ht1 & Eft & Htr & _). rewrite Ht0 in Ht1. injection Ht1 as <-.
        assert (Ey : m_tail (zat c0 y) = t0).
        { rewrite E0. rewrite <- (Igf (m_tail (zat cm y))), <- (Igf t0). f_equal. lia. }
        assert (Hin : y ∈ m_seq (zat c0 t0)) by (apply (co_seq c0 C0); split; [done|lia]).
        destruct (pl_own _ _ _ _ _ _ P1 s _ t0 Hx Ht0) as [Ho _]. apply Ho in Hin.
        apply Hb, batch_split. left. destruct (proj1 (list_elem_of_lookup _ _) Hin) as [j Hj].
        apply lookup_take_Some in Hj as [Hj _]. by eapply list_elem_of_lookup_2.
    + destruct (body_other t Ht (g_pos (Z.of_nat t) ltac:(lia))) as (_ & _ & -> & _). split.
      * intros [Hin Hb]. apply (co_seq cm Cm) in Hin as [Hy Et]. split; [done|].
        destruct (tail_other y Hy Hb) as (-> & _). rewrite Et, Z2Nat.id by (apply g_pos; lia). apply Ifg.
      * intros [Hy Et]. destruct (decide (y ∈ concat sets)) as [Hb|Hb].
        { destruct (batch_set _ Hb) as (s' & l' & Hl' & Hy'). rewrite (tail_batch s' l' y) in Et by done.
          apply lookup_lt_Some in Hl'. lia. }
        split; [|done]. destruct (tail_other y Hy Hb) as (E & _). rewrite E in Et. apply (co_seq cm Cm). split; [done|].
        rewrite <- Et, Igf. destruct (decide (0 <= m_tail (zat cm y))) as [H0|H0]; [lia|].
        rewrite f_neg in Et by lia. lia.
  - intros i Hi. destruct (cell_split i) as [(s & l & p & Hl & Hp & ->)|Ht].
    + destruct (body_set s l p Hl Hp) as (t0 & _ & _ & _ & E & _). rewrite E in Hi.
      destruct (set_first s l Hl) as (x & _ & Hx & _). exfalso. apply (elem_of_list_to_set (C := gset Z)) in Hx. set_solver.
    + destruct (body_other i Ht (g_pos (Z.of_nat i) ltac:(lia))) as (-> & Es & _ & He). specialize (He Hi).
      destruct (co_free c0 C0 _ He) as [-> Hs]. split; [done|].
      destruct S4 as [_ S]. destruct (S i) as (_ & _ & _ & So & Sin).
      destruct (decide (mn <= Z.of_nat i <= mx)) as [Hr|Hr]; [right; by apply Sin|]. rewrite (So Hr), Es.
      destruct Hs as [Hs|Hs]; rewrite Hs; [by left|right].
      rewrite (gathered_g_out size ts c1 mn mx n f g c2) by done. by rewrite Nat2Z.id.
  - intros i Hi. destruct (cell_split i) as [(s & l & p & Hl & Hp & ->)|Ht].
    + destruct (body_set s l p Hl Hp) as (t0 & _ & _ & -> & _). pose proof (lookup_lt_Some _ _ _ Hl).
      destruct (ru_last _ _ _ _ U s p Hp) as [_ ?]. split; [done|].
      destruct S4 as [_ S]. destruct (S (h + s)%nat) as (_ & _ & _ & _ & Sin). apply Sin. lia.
    + destruct (body_other i Ht (g_pos (Z.of_nat i) ltac:(lia))) as (-> & Es & Eq & He).
      set (k := Z.to_nat (g (Z.of_nat i))) in *.
      assert (Hk : m_seq (cell_at c0 k) <> ∅).
      { apply set_choose_L in Hi as [y Hy]. apply Eq in Hy as [Hy Hb].
        assert (y ∈ m_seq (cell_at c0 k)); [|set_solver]. apply (go_seq _ _ _ G0). split; [done|].
        intros Hr. apply Hb, batch_split. by right. }
      destruct (co_busy c0 C0 k Hk) as [Hp Hs]. split; [done|].
      destruct S4 as [_ S]. destruct (S i) as (_ & _ & _ & So & Sin).
      destruct (decide (mn <= Z.of_nat i <= mx)) as [Hr|Hr]; [by apply Sin|]. rewrite (So Hr), Es, Hs. unfold k.
      rewrite (gathered_g_out size ts c1 mn mx n f g c2) by done. by rewrite Nat2Z.id.
Qed.

(** *** Rows *)

Abbreviation w := (Z.to_nat (mx - mn + 1)).

Lemma in_range_iff i : in_range h w i <-> mn <= Z.of_nat i <= mx.
Proof. unfold in_range. lia. Qed.

(** Where the row of a cell of the range comes from. *)
Lemma range_row i : mn <= Z.of_nat i <= mx ->
  (0 <= m_src (cell_at c3 i) -> row_from h w z c4 i (Z.to_nat (m_src (cell_at c3 i)))) /\
  (m_src (cell_at c3 i) < 0 -> row_zero h w z c4 i).
Proof.
  intros Hi. destruct S4 as [_ S]. destruct (S i) as (_ & _ & _ & _ & Sin). destruct (Sin Hi) as [_ E0].
  destruct Hz as [Hz1 Hz2]. unfold row_from, row_zero. rewrite !in_range_iff. split; intros Hs.
  - rewrite E0. rewrite (proj2 (Z.ltb_ge _ 0)) by lia. rewrite Z2Nat.id by done. split; [by left|].
    destruct Hz1 as [->|[_ Hno]]; [lia|]. apply Hno. lia.
  - rewrite E0. rewrite (proj2 (Z.ltb_lt _ 0)) by lia. assert (z <> -1) by (apply Hz2; by exists i). lia.
Qed.

Lemma outside_row i : ~ (mn <= Z.of_nat i <= mx) -> row_from h w z c4 i i.
Proof.
  intros Hi. unfold row_from. rewrite in_range_iff. split; [by right|].
  destruct Hz as [[->|[Hzr _]] _]; lia.
Qed.

(** A free cell that has a source was free and zeroed before. *)
Lemma free_source k : m_seq (cell_at c0 k) = ∅ -> 0 <= m_src (cell_at c0 k) ->
  m_src (cell_at c0 k) = Z.of_nat k /\ m_seq (cell_at cm k) = ∅ /\ m_src (cell_at cm k) = Z.of_nat k.
Proof.
  intros Hf Hs. destruct (co_free c0 C0 k Hf) as [_ [E|E]]; [lia|]. split; [done|].
  destruct (go_frees _ _ _ G0 k Hf) as [E'|[Hfm Em]]; [lia|]. split; [done|congruence].
Qed.

Lemma start_row s l : sets !! s = Some l -> let t := m_tail (zat cm (first_of l)) in
  if decide (0 <= t) then row_from h w z c4 (h + s) (Z.to_nat t)
  else row_zero h w z c4 (h + s) \/
       exists k, row_from h w z c4 (h + s) k /\ m_seq (cell_at cm k) = ∅ /\ m_src (cell_at cm k) = Z.of_nat k.
Proof.
  intros Hl t. destruct (lookup_lt_is_Some_2 lasts s) as [p Hp]; [rewrite (ru_lasts _ _ _ _ U); by eapply lookup_lt_Some|].
  destruct (body_set s l p Hl Hp) as (t0 & Ht0 & Hx & _ & _ & Es). pose proof (lookup_lt_Some _ _ _ Hl).
  destruct (range_row (h + s)) as [R1 R2]; [lia|]. rewrite Es in R1, R2. pose proof (tail_m s l Hl) as Et. fold t in Et.
  destruct (pl_own _ _ _ _ _ _ P1 s _ t0 Hx Ht0) as [_ [(H1 & _ & _ & E)|(H1 & _ & Hf & _ & E)]]; rewrite Et in *.
  - rewrite decide_True by done. assert (Hin : first_of l ∈ m_seq (zat c0 t)).
    { apply (co_seq c0 C0). rewrite Et. destruct (set_first s l Hl) as (x & -> & Hx' & _).
      pose proof (ru_range _ _ _ _ U x ltac:(by eapply set_batch)). lia. }
    destruct (pos_of_busy c0 C0 _ _ Hin) as [_ Esrc]. rewrite Esrc in E. rewrite E in R1. rewrite Z2Nat.id in R1 by done.
    apply R1. lia.
  - rewrite decide_False by lia. rewrite E in R1, R2.
    destruct (decide (0 <= m_src (zat c0 t0))) as [Hs|Hs]; [right|left; apply R2; lia].
    destruct (free_source _ Hf Hs) as (E1 & F1 & F2). exists (Z.to_nat t0). split; [|done].
    specialize (R1 Hs). by rewrite E1, Nat2Z.id in R1.
Qed.

Lemma other_not_set y : 0 <= y -> y ∉ concat sets -> 0 <= m_tail (zat cm y) ->
  ~ (mn <= f (m_tail (zat cm y)) < mn + Z.of_nat n).
Proof.
  intros Hy Hb Ht Hr. destruct (cell_split (Z.to_nat (f (m_tail (zat cm y))))) as [(s & l & p & Hl & Hp & E)|E]; [|lia].
  destruct (ts_at s l Hl) as (t0 & Ht0 & Eft & _ & Hx). destruct (ga_inv _ _ _ _ _ _ _ _ _ G2) as [_ Igf].
  assert (Et : m_tail (zat cm y) = t0).
  { rewrite <- (Igf (m_tail (zat cm y))), <- (Igf t0). f_equal. lia. }
  destruct (tail_other y Hy Hb) as (_ & _ & E0).
  assert (Hin : y ∈ m_seq (zat c0 t0)) by (apply (co_seq c0 C0); split; [done|lia]).
  destruct (pl_own _ _ _ _ _ _ P1 s _ t0 Hx Ht0) as [Ho _]. apply Ho in Hin.
  apply Hb, batch_split. left. destruct (proj1 (list_elem_of_lookup _ _) Hin) as [j Hj].
  apply lookup_take_Some in Hj as [Hj _]. by eapply list_elem_of_lookup_2.
Qed.

Lemma other_row y : 0 <= y -> y ∉ concat sets -> let t := m_tail (zat cm y) in let t' := m_tail (zat c4 y) in
  if decide (0 <= t) then 0 <= t' /\ ~ (h <= Z.to_nat t' < h + n)%nat /\
    m_pos (zat c4 t') = m_pos (zat cm t) /\ m_seq (zat c4 t') = m_seq (zat cm t) ∖ list_to_set (concat sets) /\
    row_from h w z c4 (Z.to_nat t') (Z.to_nat t)
  else t' < 0.
Proof.
  intros Hy Hb t t'. destruct (tail_other y Hy Hb) as (E4 & _ & E0). fold t t' in E4, E0.
  case_decide as Ht; [|rewrite E4, f_neg; lia]. pose proof (other_not_set y Hy Hb Ht) as Hns. fold t in Hns. rewrite <- E4 in Hns.
  pose proof (f_pos t Ht) as Hp. rewrite <- E4 in Hp. destruct (ga_inv _ _ _ _ _ _ _ _ _ G2) as [_ Igf].
  assert (Eg : g t' = t) by (rewrite E4; apply Igf).
  destruct (body_other (Z.to_nat t')) as (Ep & Es & Eq & _); [lia|rewrite Z2Nat.id by done; lia|].
  rewrite Z2Nat.id, Eg in Ep, Es, Eq by done.
  assert (Hin : y ∈ m_seq (zat c0 t)) by (apply (co_seq c0 C0); rewrite E0; split; [done|lia]).
  split; [done|]. split; [lia|]. split; [rewrite Ep; apply (go_body _ _ _ G0); set_solver|]. split.
  - apply set_eq. intros x. by rewrite Eq, elem_of_difference, elem_of_list_to_set.
  - destruct (decide (mn <= t' <= mx)) as [Hr|Hr].
    + destruct (range_row (Z.to_nat t')) as [R _]; [lia|]. destruct (pos_of_busy c0 C0 _ _ Hin) as [_ Esrc].
      rewrite Es, Esrc, Z2Nat.id in R by done. apply R. lia.
    + pose proof (gathered_g_out size ts c1 mn mx n f g c2 t' G2 Hr) as Eo. rewrite Eg in Eo. rewrite <- Eo.
      apply outside_row. lia.
Qed.

Lemma free_row i : m_seq (cell_at c4 i) = ∅ -> m_src (cell_at c4 i) = Z.of_nat i ->
  ~ (h <= i < h + n)%nat /\
  (row_zero h w z c4 i \/ exists k, row_from h w z c4 i k /\ m_seq (cell_at cm k) = ∅ /\ m_src (cell_at cm k) = Z.of_nat k).
Proof.
  intros Hf Hs. destruct (cell_split i) as [(s & l & p & Hl & Hp & ->)|Hi].
  { exfalso. destruct (body_set s l p Hl Hp) as (t0 & _ & _ & _ & E & _). rewrite E in Hf.
    destruct (set_first s l Hl) as (x & _ & Hx & _). apply (elem_of_list_to_set (C := gset Z)) in Hx. set_solver. }
  split; [lia|]. destruct (body_other i Hi (g_pos (Z.of_nat i) ltac:(lia))) as (_ & Es & _ & He). specialize (He Hf).
  set (k := Z.to_nat (g (Z.of_nat i))) in *. destruct (decide (mn <= Z.of_nat i <= mx)) as [Hr|Hr].
  - destruct (range_row i Hr) as [R1 R2]. rewrite Es in R1, R2.
    destruct (decide (0 <= m_src (cell_at c0 k))) as [Hk|Hk]; [right|left; apply R2; lia].
    destruct (free_source _ He Hk) as (E1 & F1 & F2). exists k. split; [|done]. specialize (R1 Hk). by rewrite E1, Nat2Z.id in R1.
  - assert (Ek : k = i) by (unfold k; rewrite (gathered_g_out size ts c1 mn mx n f g c2) by done; lia).
    destruct S4 as [_ S]. destruct (S i) as (_ & _ & _ & So & _). rewrite (So Hr), Es in Hs. rewrite Ek in *.
    right. exists i. destruct (free_source i He ltac:(lia)) as (_ & F1 & F2). split; [by apply outside_row|done].
Qed.

Lemma finish_decoded : decoded sets lasts cm h w z c4.
Proof.
  destruct S4 as [L4 _]. split.
  - lia.
  - apply finish_ok.
  - lia.
  - intros s l p Hl Hp. by destruct (body_set s l p Hl Hp) as (t0 & _ & _ & E1 & E2 & _).
  - apply start_row.
  - apply other_row.
  - destruct Hz as [[->|[Hzr _]] _]; [by left|right]. unfold in_range. lia.
  - intros i Hi. destruct S4 as [_ S]. destruct (S i) as (_ & _ & _ & _ & Sin). apply Sin. by apply in_range_iff.
  - intros i _. apply free_row.
Qed.
End finish.

(** *** Sources *)

Section sources.
Context (size : nat) (u : llama_ubatch) (sets : list (list Z)) (lasts : list Z).
Context (U : rec_ubatch size u sets lasts).
Abbreviation xs := (map first_of sets).
Context (c0 c1 c2 c3 : list mem_cell) (ts : list Z) (f g : Z -> Z) (mn mx : Z).
Context (C0 : cells_ok c0) (L0 : length c0 = size).
Context (P1 : placed size c0 xs (length sets) ts c1) (Hmn : 0 <= mn).
Context (Hts : forall t, t ∈ ts -> mn <= t <= mx).
Context (G2 : gathered size ts c1 mn mx (length sets) f g c2).
Context (W3 : updated size sets lasts c2 mn (length sets) c3).

Lemma src_c0 i : m_src (cell_at c0 i) = -1 \/ m_src (cell_at c0 i) = Z.of_nat i /\ (i < size)%nat.
Proof.
  destruct (Nat.lt_ge_cases i size) as [Hi|Hi]; [|left; by rewrite cell_at_ge by lia].
  destruct (decide (m_seq (cell_at c0 i) = ∅)) as [E|E].
  - destruct (co_free c0 C0 i E) as [_ [H|H]]; auto.
  - destruct (co_busy c0 C0 i E) as [_ H]. auto.
Qed.

Lemma src_c2 i : m_src (cell_at c3 i) = m_src (cell_at c2 i).
Proof.
  destruct (decide (mn <= Z.of_nat i < mn + Z.of_nat (length sets))) as [Hi|Hi].
  - destruct (lookup_lt_is_Some_2 sets (Z.to_nat (Z.of_nat i - mn))) as [l Hl]; [lia|].
    destruct (lookup_lt_is_Some_2 lasts (Z.to_nat (Z.of_nat i - mn))) as [p Hp]; [rewrite (ru_lasts _ _ _ _ U); lia|].
    pose proof (lookup_lt_Some _ _ _ Hl) as Hlt.
    destruct (up_set _ _ _ _ _ _ _ W3 _ l p Hlt Hl Hp) as (_ & E & _).
    replace (mn + _) with (Z.of_nat i) in E by lia. by rewrite Nat2Z.id in E.
  - destruct (up_rest _ _ _ _ _ _ _ W3 (Z.of_nat i) ltac:(lia) Hi) as (_ & E & _). by rewrite Nat2Z.id in E.
Qed.

(** A source after the placement is an old source. *)
Lemma src_c1 i : exists k, m_src (cell_at c1 i) = m_src (cell_at c0 k) /\ (Z.of_nat i ∉ ts -> k = i).
Proof.
  destruct (decide (Z.of_nat i ∈ ts)) as [Hi|Hi].
  - destruct (ts_first _ _ _ L0 _ _ _ P1 _ Hi) as (j & x & Hx & Ht & _).
    destruct (pl_own _ _ _ _ _ _ P1 j x _ Hx Ht) as [_ [(_ & _ & _ & E)|(_ & _ & _ & _ & E)]]; rewrite Nat2Z.id in E; by eexists.
  - exists i. by destruct (pl_rest _ _ _ _ _ _ P1 i Hi) as (_ & E & _).
Qed.

Lemma src_c3 i : m_src (cell_at c3 i) < Z.of_nat size /\
  (~ (mn <= Z.of_nat i <= mx) -> m_src (cell_at c3 i) = -1 \/ m_src (cell_at c3 i) = Z.of_nat i).
Proof.
  destruct (ga_body _ _ _ _ _ _ _ _ _ G2 (Z.of_nat i) ltac:(lia)) as (_ & E & _). rewrite Nat2Z.id in E.
  rewrite src_c2, E. split.
  - destruct (src_c1 (Z.to_nat (g (Z.of_nat i)))) as (k & -> & _). destruct (src_c0 k) as [->|[-> ?]]; lia.
  - intros Ho. rewrite (gathered_g_out size ts c1 mn mx _ f g c2 _ G2 Ho), Nat2Z.id.
    destruct (src_c1 i) as (k & -> & Hk). rewrite Hk; [|intros Hi; by apply Ho, Hts]. destruct (src_c0 i); tauto.
Qed.
End sources.

(** ** find_slot as a whole *)

(** The positions of the first sequences of the sets leave room for the new tokens. *)
Definition room_for (m : llama_memory_recurrent) (u : llama_ubatch) (sets : list (list Z)) : Prop :=
  forall s l, sets !! s = Some l -> let t := m_tail (zat (rm_cells m) (first_of l)) in
    0 <= t -> m_pos (zat (rm_cells m) t) + Z.of_nat (ub_n_seq_tokens u) <= INT32_MAX.

Section find_slot.
Context (m : llama_memory_recurrent) (u : llama_ubatch) (sets : list (list Z)) (lasts : list Z).
Context (I : rec_inv m) (U : rec_ubatch (rm_size m) u sets lasts) (Hroom : room_for m u sets).
Abbreviation size := (rm_size m).
Abbreviation xs := (map first_of sets).

Lemma firsts_ok : NoDup xs /\ (forall x, x ∈ xs -> 0 <= x < Z.of_nat size) /\
  (forall s x, xs !! s = Some x -> first_seq u s = Ok x).
Proof.
  split; [|split].
  - apply NoDup_alt. intros i j x Hi Hj. apply (first_set size u sets lasts U) in Hi as (l & Hl & Hx & _), Hj as (l' & Hl' & Hx' & _).
    exact (concat_disjoint sets (ru_nodup _ _ _ _ U) i j l l' x Hl Hl' Hx Hx').
  - intros x [s Hs]%list_elem_of_lookup. apply (first_set size u sets lasts U) in Hs as (l & Hl & Hx & _).
    by apply (id_range size u sets lasts U s l).
  - intros s x Hs. apply (first_set size u sets lasts U) in Hs as (l & Hl & _ & <-).
    destruct (set_ids size u sets lasts U s l Hl) as (n & _ & _ & _ & Hat).
    destruct (set_first size u sets lasts U s l Hl) as (x & -> & _ & _ & El).
    unfold first_seq. apply Hat. by rewrite El.
Qed.

(** The position in the place of a set, before it is updated. *)
Lemma place_pos c0 c1 c2 ts f g mn mx s : gone (rests sets) (rm_cells m) c0 -> cells_ok c0 ->
  placed size c0 xs (length sets) ts c1 -> 0 <= mn ->
  gathered size ts c1 mn mx (length sets) f g c2 -> (s < length sets)%nat ->
  m_pos (zat c2 (mn + Z.of_nat s)) + Z.of_nat (ub_n_seq_tokens u) <= INT32_MAX.
Proof.
  intros G0 C0 P1 Hmn G2 Hs. destruct (lookup_lt_is_Some_2 sets s Hs) as [l Hl].
  destruct (pl_ts _ _ _ _ _ _ P1) as (Lt & _). destruct (lookup_lt_is_Some_2 ts s) as [t Ht]; [lia|].
  destruct (set_first size u sets lasts U s l Hl) as (x & Ex & Hxl & Hx & _).
  destruct (ga_inv _ _ _ _ _ _ _ _ _ G2) as [_ Igf]. pose proof (ga_done _ _ _ _ _ _ _ _ _ G2 s t Hs Ht) as Ef.
  destruct (ga_body _ _ _ _ _ _ _ _ _ G2 (mn + Z.of_nat s)) as (-> & _); [lia|]. rewrite <- Ef, Igf.
  pose proof (tail_m size u sets lasts U (rm_cells m) c0 (ri_len m I) G0 s l Hl) as Et. rewrite Ex in Et.
  destruct (pl_own _ _ _ _ _ _ P1 s x t Hx Ht) as [_ [(H1 & _ & -> & _)|(_ & _ & _ & -> & _)]].
  - assert (Hin : x ∈ m_seq (zat c0 (m_tail (zat c0 x)))).
    { apply (co_seq c0 C0). pose proof (id_range size u sets lasts U s l x Hl Hxl). lia. }
    assert (Hne : m_seq (zat c0 (m_tail (zat c0 x))) <> ∅) by (clear -Hin; set_solver).
    destruct (go_body _ _ _ G0 _ Hne) as [-> _]. specialize (Hroom s l Hl). rewrite Ex, <- Et in Hroom. by apply Hroom.
  - destruct (ru_tokens _ _ _ _ U), (ru_seqs _ _ _ _ U). unfold INT32_MAX in *. nia.
Qed.

Lemma rec_find_slot_ok : runs (rec_find_slot m u) (fun r =>
  r.2 = true /\ (length sets = 1%nat -> rm_n r.1 = 1%nat) /\ rec_inv r.1 /\ decoded sets lasts (rm_cells m) (rm_head r.1) (rm_n r.1) (rm_rs_z r.1) (rm_cells r.1) /\
  r.1 = mk_rec (rm_hparams m) (rm_n_seq_max m) (rm_head r.1) (rm_size m) (Z.of_nat (count_used (rm_cells r.1)))
          (rm_n r.1) (rm_rs_z r.1) (rm_cells r.1) (rm_r_l m) (rm_s_l m)).
Proof.
  destruct firsts_ok as (Hnd & Hxr & Hf). destruct (ru_seqs _ _ _ _ U) as [Hns Hpos].
  pose proof (ri_len m I) as Lm. pose proof (ri_max m I) as Hmax. pose proof (ri_cells m I) as Cm.
  assert (Lx : length xs = length sets) by apply length_map.
  assert (Hsz : (0 < size)%nat).
  { destruct (lookup_lt_is_Some_2 xs 0) as [x Hx]; [lia|]. pose proof (Hxr x ltac:(by eapply list_elem_of_lookup_2)). lia. }
  unfold rec_find_slot. set (head0 := if _ >? _ then 0%nat else rm_head m).
  assert (Hh0 : (head0 <= size)%nat) by (unfold head0; pose proof (ri_head m I); case_match; lia).
  rewrite (ru_equal _ _ _ _ U). cbn [assert_]. rewrite bind_ok, (ri_used m I).
  apply runs_bind. eapply runs_mono; [by apply (check_sets_ok size u sets lasts)|].
  intros r (c0 & used & -> & G0 & C0). cbv beta iota. pose proof (go_len _ _ _ G0) as L0. rewrite Lm in L0.
  apply runs_bind. eapply runs_mono; [by apply (next_empty_ok size c0 L0 Hsz false head0)|]. intros e He.
  assert (Esz : to_i32 (u32 (Z.of_nat size - 1)) = Z.of_nat size - 1).
  { unfold INT32_MAX in Hmax. rewrite u32_small by lia. apply to_i32_small. unfold INT32_MAX. lia. }
  rewrite Esz, <- Hns, <- Lx. apply runs_bind. eapply runs_mono.
  { apply (place_all_ok size c0 xs C0 L0 Hnd Hxr u ltac:(lia) Hf head0). by apply scan_first. }
  intros [[[c1 e'] mn] mx] (ts & P1 & -> & ->). rewrite Lx in P1 |- *.
  destruct (pl_ts _ _ _ _ _ _ P1) as (Lt & _ & Nt & Rt).
  assert (Hne : ts <> []) by (intros ->; simpl in Lt; lia).
  destruct (range_bounds size ts Rt Nt Hne) as (Hb & Hmx & Hts). pose proof (range_room size ts Rt Nt Hne) as Hrm.
  set (mn := foldl Z.min _ ts) in *. set (mx := foldl Z.max 0 ts) in *. rewrite Lt in Hrm.
  apply runs_bind. eapply runs_mono.
  { rewrite <- Lx. apply (gather_all_ok size u xs ts c1 mn mx (pl_len _ _ _ _ _ _ P1) ltac:(lia) Nt Hxr Hf (pl_first _ _ _ _ _ _ P1)); try done; lia. }
  rewrite Lx. intros c2 (f & g & G2).
  apply runs_bind. eapply runs_mono.
  { apply (update_all_ok size u sets lasts U Hmax c2 (ga_len _ _ _ _ _ _ _ _ _ G2) mn ltac:(lia) ltac:(lia)).
    intros s Hs. eapply place_pos; done || lia. }
  intros c3 W3. pose proof (up_len _ _ _ _ _ _ _ W3) as L3.
  pose proof (src_c3 size u sets lasts U c0 c1 c2 c3 ts f g mn mx C0 L0 P1 Hts G2 W3) as Src.
  apply runs_bind. eapply runs_mono; [apply (src_refcounts_ok size c3 L3); intros i; apply Src|]. intros rc Hrc.
  apply runs_bind. eapply runs_mono; [apply (find_rs_z_ok size c3 L3 mn mx Hb Hmx); [intros i; apply Src|intros i; apply Src|exact Hrc]|]. intros z Hz.
  apply runs_bind. eapply runs_mono; [by apply (stage_src_ok size c3 L3 mn mx Hb Hmx z Hz)|]. intros c4 S4.
  assert (D : decoded sets lasts (rm_cells m) (Z.to_nat mn) (Z.to_nat (mx - mn + 1)) z c4).
  { by apply (finish_decoded size u sets lasts U (rm_cells m) c0 c1 c2 c3 c4 ts f g z mn mx). }
  apply runs_ok. cbn. unfold INT32_MAX in Hmax. rewrite !u32_small by lia.
  split; [apply Nat.leb_le; lia|]. split; [|split; [|split; [done|done]]].
  { intros E1. destruct ts as [|t [|]]; simpl in Lt; try lia. assert (mn = t /\ mx = t) as [-> ->]; [|lia].
    subst mn mx. cbn. pose proof (Rt t ltac:(left)). lia. }
  destruct S4 as [L4 _]. split; cbn; [done|unfold INT32_MAX; lia|lia|done|apply (de_ok _ _ _ _ _ _ _ D)].
Qed.
End find_slot.
