(* ===== verification/RecurrentGraph.v ===== *)
(** The states of the recurrent memory in the graph (Recurrent.v): a decoding step starts
    every set of sequences from the state of its first sequence, or from a zeroed state,
    keeps the states of the other sequences, and never reads the state of a freed cell. *)

From S2P Require Import Prelude Hparams KvCells Memory Batch KvState Recurrent RecurrentOk RecurrentSlot RecurrentDecode.
Local Open Scope Z_scope.

(** ** Rows *)

Section rows.
Context {D : Type} (scale0 : D -> D).

Lemma get_rows_ok (states : list D) ids : Forall (fun k => 0 <= k < Z.of_nat (length states)) ids ->
  runs (get_rows states ids) (fun l => length l = length ids /\
    forall i k, ids !! i = Some k -> l !! i = states !! Z.to_nat k).
Proof.
  intros F. unfold get_rows.
  apply (runs_foldM (fun d l => length l = length d /\ forall i k, d !! i = Some k -> l !! i = states !! Z.to_nat k)).
  { split; [done|]. intros i k H. by rewrite lookup_nil in H. }
  intros d k l2 l -> [L H]. apply Forall_app in F as [_ F]. apply Forall_cons_iff in F as [Hk _].
  unfold zidx. rewrite (proj2 (Z.leb_le 0 k)), bind_ok by lia.
  destruct (lookup_lt_is_Some_2 states (Z.to_nat k)) as [r Hr]; [lia|]. rewrite (rd_ok _ _ _ Hr), bind_ok. apply runs_ok.
  split; [rewrite !length_app; simpl; lia|]. intros i k' Hi. apply lookup_app_Some in Hi as [Hi|[Hge Hi]].
  - rewrite lookup_app_l by (rewrite L; by eapply lookup_lt_Some). by apply H.
  - apply list_lookup_singleton_Some in Hi as [Hi ->]. rewrite lookup_app_r, L by lia. by rewrite Hi.
Qed.

Lemma put_rows_ok (states : list D) k rows : (k + length rows <= length states)%nat ->
  runs (put_rows states k rows) (fun st => length st = length states /\
    forall i, st !! i = if decide (k <= i < k + length rows)%nat then rows !! (i - k)%nat else states !! i).
Proof.
  intros Hk. unfold put_rows. eapply runs_mono.
  { apply (runs_for (fun n st => length st = length states /\
      forall i, st !! i = if decide (k <= i < k + n)%nat then rows !! (i - k)%nat else states !! i)).
    - split; [done|]. intros i. by rewrite decide_False by lia.
    - intros n st Hn [L H]. destruct (lookup_lt_is_Some_2 rows n Hn) as [r Hr]. rewrite (rd_ok _ _ _ Hr), bind_ok, wr_ok by lia.
      apply runs_ok. split; [by rewrite length_insert|]. intros i. destruct (decide (i = k + n)%nat) as [->|Hne].
      + rewrite list_lookup_insert_eq, decide_True by lia. rewrite <- Hr. f_equal. lia.
      + rewrite list_lookup_insert_ne, H by done.
        destruct (decide (k <= i < k + n)%nat), (decide (k <= i < k + (n + 1))%nat); [done|lia|lia|done]. }
  done.
Qed.

(** The states after the zeroing of row [z]. *)
Definition zeroed (z : Z) (rows rows1 : list D) : Prop :=
  length rows1 = length rows /\ (forall k : nat, Z.of_nat k <> z -> rows1 !! k = rows !! k) /\
  (0 <= z -> exists r, rows1 !! Z.to_nat z = Some (scale0 r)).

Lemma zero_row_ok (rows : list D) z : z < Z.of_nat (length rows) ->
  runs (if z >=? 0 then r ← rd rows (Z.to_nat z); wr rows (Z.to_nat z) (scale0 r) else Ok rows) (zeroed z rows).
Proof.
  intros Hz. destruct (Z.geb_spec z 0) as [H|H]; [|apply runs_ok; split; [done|split; [done|lia]]].
  destruct (lookup_lt_is_Some_2 rows (Z.to_nat z)) as [r Hr]; [lia|]. rewrite (rd_ok _ _ _ Hr), bind_ok, wr_ok by lia.
  apply runs_ok. split; [by rewrite length_insert|]. split.
  - intros k Hk. rewrite list_lookup_insert_ne; [done|lia].
  - intros _. exists r. apply list_lookup_insert_eq. lia.
Qed.
End rows.

(** ** Freed states *)

(** The row of a free cell that may be read again, because the cell is its own source, was
    multiplied by zero. *)
Definition clean {D} (scale0 : D -> D) (rows : list D) (cs : list mem_cell) : Prop :=
  length rows = length cs /\
  forall i, (i < length cs)%nat -> m_seq (cell_at cs i) = ∅ -> m_src (cell_at cs i) = Z.of_nat i ->
    exists r, rows !! i = Some (scale0 r).

Lemma clean_frees {D} (scale0 : D -> D) rows cs cs' :
  length cs' = length cs -> frees cs cs' -> clean scale0 rows cs -> clean scale0 rows cs'.
Proof.
  intros L F [Lr H]. split; [congruence|]. intros i Hi E Es. destruct (F i E) as [F'|[E' Es']]; [lia|].
  apply H; [lia|done|congruence].
Qed.

(** ** The specification of a decoding step *)

(** The step takes the machine [v] to [v']: set [s] starts from the state [starts !! s], which
    is the state of its first sequence or a zeroed one; its sequences share the new state
    [new !! s] at the last position of the set; the others keep their states. *)
Record decode_spec {D} (scale0 : D -> D) (sets : list (list Z)) (lasts : list Z)
    (v : Z -> option (Z * gset Z * option D)) (starts new : list D) (v' : Z -> option (Z * gset Z * option D)) : Prop := {
  ds_starts : length starts = length sets;
  ds_start : forall s l, sets !! s = Some l ->
    match v (first_of l) with
    | Some (_, _, d) => starts !! s = d
    | None => exists r, starts !! s = Some (scale0 r)
    end;
  ds_set : forall s l p y, sets !! s = Some l -> lasts !! s = Some p -> y ∈ l ->
    v' y = Some (p, list_to_set l, new !! s);
  ds_other : forall y, y ∉ concat sets ->
    v' y = (fun '(p, g, d) => (p, g ∖ list_to_set (concat sets), d)) <$> v y
}.

(** The rows of one layer after its graph: the input of the graph, the copies of the states,
    and the new states of the sets, which [model] computes from the states that they start
    from. *)
Definition graph_rows {D} (scale0 : D -> D) (model : llama_ubatch -> list D -> list D)
    (m : llama_memory_recurrent) (x : llama_memory_recurrent_context) (rows : list D) : res (list D) :=
  u ← rctx_get_ubatch x;
  ids ← set_input_rs m x;
  b ← build_rs scale0 rows ids (ub_n_seqs u) (get_n_rs m x) (get_rs_head m x) (get_rs_z m x);
  put_rows b.1 (get_rs_head m x) (model u b.2).

(** A step of the decoder for one layer: [apply], then the graph. *)
Definition graph_step {D} (scale0 : D -> D) (model : llama_ubatch -> list D -> list D)
    (m : llama_memory_recurrent) (x : llama_memory_recurrent_context) (rows : list D)
    : res (llama_memory_recurrent * list D) :=
  r ← rctx_apply m x;
  rows' ← graph_rows scale0 model r.1 x rows;
  Ok (r.1, rows').

Section step.
Context {D : Type} (scale0 : D -> D) (rows : list D).
Context (size : nat) (u : llama_ubatch) (sets : list (list Z)) (lasts : list Z).
Context (U : rec_ubatch size u sets lasts).
Context (cs : list mem_cell) (h n : nat) (z : Z) (cs' : list mem_cell).
Context (C : cells_ok cs) (Cl : clean scale0 rows cs) (De : decoded sets lasts cs h n z cs').
Abbreviation ns := (length sets).
Abbreviation source i := (m_src0 (cell_at cs' i)).
Definition ids : list Z := map (fun i => source (i + h)) (seq 0 n).

(** The sequences of a set are in the place of the set. *)
Lemma set_tail_place s l y : sets !! s = Some l -> y ∈ l -> 0 <= y /\ m_tail (zat cs' y) = Z.of_nat (h + s).
Proof.
  intros Hl Hy. destruct (lookup_lt_is_Some_2 lasts s) as [p Hp]; [rewrite (ru_lasts _ _ _ _ U); by eapply lookup_lt_Some|].
  destruct (de_set _ _ _ _ _ _ _ De s l p Hl Hp) as [_ E].
  apply (co_seq cs' (de_ok _ _ _ _ _ _ _ De)). rewrite E. by apply elem_of_list_to_set.
Qed.

Lemma busy_source y : 0 <= y -> 0 <= m_tail (zat cs y) -> (Z.to_nat (m_tail (zat cs y)) < length cs)%nat.
Proof. intros Hy Ht. destruct (tail_some cs C y Hy Ht) as (_ & H & _). lia. Qed.

Lemma own_source k : m_src (cell_at cs k) = Z.of_nat k -> (k < length cs)%nat.
Proof. intros E. apply Nat.lt_nge. intros Hk. rewrite cell_at_ge in E by lia. cbn in E. lia. Qed.

(** Every cell of the range has a row to start from. *)
Lemma range_source i : in_range h n i ->
  (exists k, row_from h n z cs' i k /\ (k < length cs)%nat) \/ row_zero h n z cs' i.
Proof.
  intros Hi. destruct (decide (i < h + ns)%nat) as [Hs|Hs].
  - destruct Hi as [Hh _]. destruct (lookup_lt_is_Some_2 sets (i - h)) as [l Hl]; [lia|].
    pose proof (de_start _ _ _ _ _ _ _ De _ l Hl) as H. cbv zeta in H. replace (h + (i - h))%nat with i in H by lia.
    case_decide as Ht.
    + left. eexists. split; [exact H|]. apply busy_source; [|done].
      destruct (set_first size u sets lasts U _ l Hl) as (x & -> & Hx & _). by apply (set_tail_place (i - h) l).
    + destruct H as [H|(k & H & _ & Es)]; [by right|left]. exists k. split; [done|by apply own_source].
  - pose proof (de_room _ _ _ _ _ _ _ De) as Hroom. destruct (decide (m_seq (cell_at cs' i) = ∅)) as [E|E].
    + destruct (de_free _ _ _ _ _ _ _ De i) as [_ [H|(k & H & _ & Es)]]; [unfold in_range in Hi; lia|done| |by right|].
      * by apply (de_src _ _ _ _ _ _ _ De).
      * left. exists k. split; [done|by apply own_source].
    + left. apply set_choose_L in E as [y Hy]. apply (co_seq cs' (de_ok _ _ _ _ _ _ _ De)) in Hy as [H0 Ht].
      pose proof (de_other _ _ _ _ _ _ _ De y H0) as H'. cbv zeta in H'. rewrite Ht in H'.
      assert (Hb : y ∉ concat sets).
      { intros (s & l & Hl & Hy)%(batch_set sets). apply (set_tail_place s l y Hl) in Hy as [_ Hy].
        apply lookup_lt_Some in Hl. lia. }
      specialize (H' Hb). case_decide as Hd; [|lia]. destruct H' as (_ & _ & _ & _ & H'). rewrite Nat2Z.id in H'.
      eexists. split; [exact H'|by apply busy_source].
Qed.

Section zeroed_rows.
Context (rows1 : list D) (Z1 : zeroed scale0 z rows rows1).

Lemma from_value i k : row_from h n z cs' i k ->
  (if decide (in_range h n i) then rows1 !! Z.to_nat (source i) else rows1 !! i) = rows !! k.
Proof.
  destruct Z1 as (_ & Hk & _). intros [[[Hi E]|[Hi ->]] Hz].
  - rewrite decide_True, E, Nat2Z.id by done. by apply Hk.
  - rewrite decide_False by done. by apply Hk.
Qed.

Lemma zero_value i : row_zero h n z cs' i -> exists r, rows1 !! Z.to_nat (source i) = Some (scale0 r).
Proof. intros (_ & -> & _ & Hz). by apply Z1. Qed.

(** The row that a set starts from. *)
Lemma start_value s l : sets !! s = Some l ->
  match seq_state rows cs (first_of l) with
  | Some (_, _, d) => rows1 !! Z.to_nat (source (h + s)) = d
  | None => exists r, rows1 !! Z.to_nat (source (h + s)) = Some (scale0 r)
  end.
Proof.
  intros Hl. pose proof (de_start _ _ _ _ _ _ _ De s l Hl) as H. cbv zeta in H.
  pose proof (lookup_lt_Some _ _ _ Hl) as Hlt. pose proof (de_room _ _ _ _ _ _ _ De) as Hroom.
  assert (Hr : in_range h n (h + s)) by (unfold in_range; lia).
  destruct (set_first size u sets lasts U s l Hl) as (x & Ex & Hx & _). rewrite Ex in *.
  destruct (set_tail_place s l x Hl Hx) as [H0 _]. unfold seq_state. rewrite (proj2 (Z.leb_le 0 x)) by done.
  case_decide as Ht.
  - rewrite (proj2 (Z.leb_le 0 _)) by done. cbn. apply from_value in H. by rewrite decide_True in H.
  - rewrite (proj2 (Z.leb_gt 0 _)) by lia. cbn. destruct H as [H|(k & H & Ek & Es)]; [by apply zero_value|].
    apply from_value in H. rewrite decide_True in H by done. rewrite H. destruct Cl as [_ Hc].
    apply Hc; [by apply own_source|done|done].
Qed.

(** The rows after the copies and the new states. *)
Definition stepped (new rows3 : list D) : Prop :=
  length rows3 = length rows /\ forall i, rows3 !! i =
    if decide (h <= i < h + ns)%nat then new !! (i - h)%nat
    else if decide (in_range h n i) then rows1 !! Z.to_nat (source i) else rows1 !! i.

Lemma stepped_from new rows3 i k : stepped new rows3 -> ~ (h <= i < h + ns)%nat ->
  row_from h n z cs' i k -> rows3 !! i = rows !! k.
Proof. intros [_ H] Hi R. rewrite H, decide_False by done. by apply from_value. Qed.

Lemma stepped_zero new rows3 i : stepped new rows3 -> ~ (h <= i < h + ns)%nat ->
  row_zero h n z cs' i -> exists r, rows3 !! i = Some (scale0 r).
Proof.
  intros [_ H] Hi R. pose proof R as [Hr _]. rewrite H, decide_False, decide_True by done. by apply zero_value.
Qed.

Lemma stepped_clean new rows3 : stepped new rows3 -> clean scale0 rows3 cs'.
Proof.
  intros St. pose proof St as [L _]. destruct Cl as [Lr Hc]. pose proof (de_len _ _ _ _ _ _ _ De) as Ld.
  split; [congruence|]. intros i Hi E Es. destruct (de_free _ _ _ _ _ _ _ De i ltac:(lia) E Es) as [Hn [H|(k & H & Ek & Ks)]].
  - by eapply stepped_zero.
  - rewrite (stepped_from _ _ _ _ St Hn H). apply Hc; [by apply own_source|done|done].
Qed.

Lemma stepped_spec starts new rows3 : stepped new rows3 -> length starts = ns ->
  (forall s, (s < ns)%nat -> starts !! s = rows1 !! Z.to_nat (source (h + s))) ->
  decode_spec scale0 sets lasts (seq_state rows cs) starts new (seq_state rows3 cs').
Proof.
  intros St Ls Hst. split; [done| | |].
  - intros s l Hl. rewrite Hst by (by eapply lookup_lt_Some). by apply start_value.
  - intros s l p y Hl Hp Hy. destruct (set_tail_place s l y Hl Hy) as [H0 Et].
    destruct (de_set _ _ _ _ _ _ _ De s l p Hl Hp) as [Ep Eq].
    unfold seq_state. rewrite Et, Nat2Z.id, Ep, Eq. rewrite !(proj2 (Z.leb_le 0 _)) by lia. cbn [andb].
    do 2 f_equal. destruct St as [_ ->]. pose proof (lookup_lt_Some _ _ _ Hl). rewrite decide_True by lia. f_equal. lia.
  - intros y Hb. unfold seq_state. destruct (Z.leb_spec 0 y) as [H0|H0]; [|done]. cbn [andb].
    pose proof (de_other _ _ _ _ _ _ _ De y H0 Hb) as H. cbv zeta in H. case_decide as Ht.
    + destruct H as (Ht' & Hn & -> & -> & R). rewrite !(proj2 (Z.leb_le 0 _)) by done. cbn.
      by rewrite (stepped_from _ _ _ _ St Hn R).
    + by rewrite !(proj2 (Z.leb_gt 0 _)) by lia.
Qed.
End zeroed_rows.

Lemma ids_at i k : ids !! i = Some k <-> (i < n)%nat /\ k = source (i + h).
Proof.
  unfold ids. change (map ?f ?l) with (f <$> l). rewrite list_lookup_fmap_Some. split.
  - intros (j & -> & [-> Hj]%lookup_seq). done.
  - intros [Hi ->]. exists i. split; [done|]. by apply lookup_seq.
Qed.

Lemma ids_ok k : k ∈ ids -> 0 <= k < Z.of_nat (length rows).
Proof.
  intros [i Hi]%list_elem_of_lookup. apply ids_at in Hi as [Hi ->]. destruct Cl as [-> _].
  pose proof (de_room _ _ _ _ _ _ _ De) as Hroom.
  assert (Hr : in_range h n (i + h)) by (unfold in_range; lia).
  destruct (range_source (i + h) Hr) as [(k & [[[_ ->]|[Hn _]] _] & Hk)|(_ & -> & Hz & H0)]; [lia|done|].
  unfold in_range in Hz. lia.
Qed.

(** The copies of the states, and the new states. *)
Lemma copies_ok (new : list D -> list D) : (forall l, length (new l) = length l) ->
  runs (b ← build_rs scale0 rows ids ns n h z; rows' ← put_rows b.1 h (new b.2); Ok (b.2, rows'))
    (fun '(starts, rows3) => clean scale0 rows3 cs' /\
       decode_spec scale0 sets lasts (seq_state rows cs) starts (new starts) (seq_state rows3 cs')).
Proof.
  intros Hnew. pose proof (de_room _ _ _ _ _ _ _ De) as Hroom. pose proof Cl as [Lr _].
  assert (Li : length ids = n) by (unfold ids; by rewrite length_map, length_seq).
  unfold build_rs. apply runs_bind, runs_bind. eapply runs_mono.
  { apply (zero_row_ok scale0). destruct (de_zero _ _ _ _ _ _ _ De) as [->|[H0 Hz]]; [lia|]. unfold in_range in Hz. lia. }
  intros rows1 Z1. pose proof Z1 as [L1 _].
  assert (Fi : Forall (fun k => 0 <= k < Z.of_nat (length rows1)) ids).
  { apply list.Forall_forall. intros k Hk. rewrite L1. by apply ids_ok. }
  apply runs_bind. eapply runs_mono; [by apply get_rows_ok, Forall_take|]. intros starts [Ls Hs].
  apply runs_bind. eapply runs_mono; [by apply get_rows_ok, Forall_drop|]. intros extra [Le He].
  rewrite length_take in Ls. rewrite length_drop in Le.
  apply runs_assert; [apply Nat.eqb_eq; lia|]. apply runs_bind.
  eapply runs_mono; [apply put_rows_ok; lia|]. intros rows2 [L2 H2]. apply runs_ok. cbn [fst snd].
  apply runs_bind. eapply runs_mono; [apply put_rows_ok; rewrite Hnew; lia|]. intros rows3 [L3 H3]. apply runs_ok.
  assert (St : stepped rows1 (new starts) rows3).
  { split; [congruence|]. intros i. rewrite H3, Hnew. replace (length starts) with ns by lia.
    destruct (decide (h <= i < h + ns)%nat) as [Hi|Hi]; [done|]. rewrite H2, Le.
    destruct (decide (in_range h n i)) as [Hr|Hr]; unfold in_range in Hr.
    - rewrite decide_True by lia. apply (He (i - (h + ns))%nat). rewrite lookup_drop. apply ids_at. split; [lia|f_equal; f_equal; lia].
    - by rewrite decide_False by lia. }
  split; [by eapply stepped_clean|]. apply (stepped_spec rows1 Z1); [done|lia|].
  intros s Hlt. apply Hs. apply lookup_take_Some. split; [|done]. apply ids_at. split; [lia|f_equal; f_equal; lia].
Qed.
End step.

(** ** A batch *)

(** A micro-batch with its sets of sequences and their last positions. *)
Abbreviation step := (llama_ubatch * list (list Z) * list Z)%type.

(** Positions leave room for [T] more tokens, and no set has more than [T]. *)
Definition low (T : nat) (cs : list mem_cell) : Prop := forall i, m_pos (cell_at cs i) + Z.of_nat T <= INT32_MAX.

Definition batch_ok (size T : nat) (b : list step) : Prop :=
  Z.of_nat T <= INT32_MAX /\ Forall (fun '(u, sets, lasts) => rec_ubatch size u sets lasts /\
    (ub_n_seq_tokens u <= T)%nat /\ forall p, p ∈ lasts -> p + Z.of_nat T <= INT32_MAX) b.

Inductive decode_chain {D} (scale0 : D -> D) (model : llama_ubatch -> list D -> list D) :
    list step -> (Z -> option (Z * gset Z * option D)) -> (Z -> option (Z * gset Z * option D)) -> Prop :=
  | chain_nil v w : (forall y, v y = w y) -> decode_chain scale0 model [] v w
  | chain_cons u sets lasts b v v1 w starts :
      decode_spec scale0 sets lasts v starts (model u starts) v1 -> decode_chain scale0 model b v1 w ->
      decode_chain scale0 model ((u, sets, lasts) :: b) v w.

(** [do { ... } while (mctx->next())] *)
Fixpoint rec_loop {D} (scale0 : D -> D) (model : llama_ubatch -> list D -> list D) (fuel : nat)
    (m : llama_memory_recurrent) (x : llama_memory_recurrent_context) (rows : list D)
    : res (llama_memory_recurrent * list D) :=
  match fuel with
  | O => Fault OutOfFuel
  | S fuel =>
      s ← graph_step scale0 model m x rows;
      n ← rctx_next x;
      if (n.2 : bool) then rec_loop scale0 model fuel s.1 n.1 s.2 else Ok s
  end.

Lemma low_decoded T sets lasts cs h n z cs' : Z.of_nat T <= INT32_MAX -> length lasts = length sets ->
  (forall p, p ∈ lasts -> p + Z.of_nat T <= INT32_MAX) ->
  low T cs -> decoded sets lasts cs h n z cs' -> low T cs'.
Proof.
  intros HT Ll Hl Lo De i. pose proof (de_ok _ _ _ _ _ _ _ De) as C'.
  destruct (decide (m_seq (cell_at cs' i) = ∅)) as [E|E]; [destruct (co_free cs' C' i E); lia|].
  apply set_choose_L in E as [y Hy]. apply (co_seq cs' C') in Hy as [H0 Ht].
  destruct (decide (y ∈ concat sets)) as [Hb|Hb].
  - apply batch_set in Hb as (s & l & Hs & Hyl). destruct (lookup_lt_is_Some_2 lasts s) as [p Hp].
    { rewrite Ll. by eapply lookup_lt_Some. }
    destruct (de_set _ _ _ _ _ _ _ De s l p Hs Hp) as [Ep Eq].
    assert (Hin : y ∈ m_seq (cell_at cs' (h + s))) by (rewrite Eq; by apply elem_of_list_to_set).
    apply (co_seq cs' C') in Hin as [_ Hin]. rewrite Ht in Hin. apply Nat2Z.inj in Hin as ->. rewrite Ep.
    apply Hl. by eapply list_elem_of_lookup_2.
  - pose proof (de_other _ _ _ _ _ _ _ De y H0 Hb) as H. cbv zeta in H. rewrite Ht, Nat2Z.id in H.
    case_decide; [|lia]. destruct H as (_ & _ & -> & _). apply Lo.
Qed.

(** [find_slot] succeeds on every micro-batch of a batch. *)
Definition found (T : nat) (sets : list (list Z)) (lasts : list Z) (m m' : llama_memory_recurrent) : Prop :=
  rec_inv m' /\ low T (rm_cells m') /\
  decoded sets lasts (rm_cells m) (rm_head m') (rm_n m') (rm_rs_z m') (rm_cells m') /\
  rm_hparams m' = rm_hparams m /\ rm_n_seq_max m' = rm_n_seq_max m /\ rm_size m' = rm_size m /\
  rm_r_l m' = rm_r_l m /\ rm_s_l m' = rm_s_l m.

Lemma find_found T m u sets lasts : rec_inv m -> low T (rm_cells m) -> batch_ok (rm_size m) T [(u, sets, lasts)] ->
  runs (rec_find_slot m u) (fun r => r.2 = true /\ found T sets lasts m r.1).
Proof.
  intros I Lo [HT Hb]. apply Forall_cons_iff in Hb as [(U & Hn & Hl) _].
  assert (Hr : room_for m u sets) by (intros s l Hs t Ht; pose proof (Lo (Z.to_nat t)); subst t; lia).
  eapply runs_mono; [by apply (rec_find_slot_ok m u sets lasts I U Hr)|]. intros [m' ok] (E & _ & I' & De & E2).
  cbn [fst snd] in *. split; [exact E|]. split; [exact I'|]. split; [|split; [exact De|rewrite E2; by cbn]].
  by eapply (low_decoded T sets lasts); [done|apply (ru_lasts _ _ _ _ U)|done|exact Lo|exact De].
Qed.

Lemma batch_ok_cons size T x b : batch_ok size T (x :: b) -> batch_ok size T [x] /\ batch_ok size T b.
Proof. intros [HT H]. apply Forall_cons_iff in H as [H1 H2]. by repeat split; [|apply Forall_cons|..]. Qed.

(** The dry run: it succeeds, and leaves the cells. *)
Lemma prepare_found T b : forall m, rec_inv m -> low T (rm_cells m) -> batch_ok (rm_size m) T b ->
  runs (rec_prepare m (b.*1).*1) (fun r => r.2 = true /\ exists n z, r.1 = with_graph n z m).
Proof.
  intros m I Lo Hb. unfold rec_prepare. apply runs_bind.
  set (Inv := fun m' : llama_memory_recurrent => rec_inv m' /\ low T (rm_cells m') /\
    rm_hparams m' = rm_hparams m /\ rm_n_seq_max m' = rm_n_seq_max m /\ rm_size m' = rm_size m /\
    rm_r_l m' = rm_r_l m /\ rm_s_l m' = rm_s_l m).
  eapply runs_mono.
  { apply (runs_foldB (fun _ m' => Inv m') (fun _ => False)); [done|].
    intros l1 u l2 m' El (I' & Lo' & E1 & E2 & E3 & E4 & E5).
    assert (Hu : exists sets lasts, batch_ok (rm_size m') T [(u, sets, lasts)]).
    { assert (Hin : u ∈ (b.*1).*1) by (rewrite El; set_solver).
      apply list_elem_of_fmap in Hin as ([u' sets] & -> & Hin). apply list_elem_of_fmap in Hin as ([[u'' sets'] lasts] & [= -> ->] & Hin).
      exists sets', lasts. destruct Hb as [HT Hb]. rewrite E3. split; [done|]. rewrite list.Forall_forall in Hb.
      apply Forall_cons; [|done]. exact (Hb _ Hin). }
    destruct Hu as (sets & lasts & Hu). apply runs_bind. eapply runs_mono; [by apply (find_found T m' u sets lasts)|].
    intros [m2 ok] [Ok2 (I2 & Lo2 & _ & F1 & F2 & F3 & F4 & F5)]. cbn [fst snd] in *. subst ok. apply runs_ok.
    split; [done|]. split; [done|]. repeat split; congruence. }
  intros [m'|m']; [|done]. intros (_ & _ & E1 & E2 & E3 & E4 & E5). apply runs_ok. cbn [fst snd]. split; [done|].
  exists (rm_n m'), (rm_rs_z m'). unfold with_state, with_graph. cbn. by rewrite E1, E2, E3, E4, E5.
Qed.

Section decoder.
Context {D : Type} (scale0 : D -> D) (model : llama_ubatch -> list D -> list D).
Context (Hmodel : forall u l, length (model u l) = length l).

(** The input of the graph holds the staged sources. *)
Lemma set_input_ok m us i : rec_inv m -> (rm_head m + rm_n m <= rm_size m)%nat ->
  set_input_rs m (mk_rctx LLAMA_MEMORY_STATUS_SUCCESS i us false) = Ok (ids (rm_head m) (rm_n m) (rm_cells m)).
Proof.
  intros I Hr. apply runs_inv_eq. unfold set_input_rs, get_n_rs, ids. cbn [rx_is_full].
  apply (runs_for (fun k l => l = map (fun j => m_src0 (cell_at (rm_cells m) (j + rm_head m))) (seq 0 k))); [done|].
  intros k l Hk ->. unfold s_copy. pose proof (ri_len m I). rewrite rd_at, !bind_ok by lia. apply runs_ok.
  by rewrite Nat.add_1_r, seq_S, map_app.
Qed.

Lemma graph_step_ok T m rows i us u sets lasts : rec_inv m -> low T (rm_cells m) -> clean scale0 rows (rm_cells m) ->
  batch_ok (rm_size m) T [(u, sets, lasts)] -> us !! i = Some u ->
  runs (graph_step scale0 model m (mk_rctx LLAMA_MEMORY_STATUS_SUCCESS i us false) rows) (fun '(m', rows') =>
    found T sets lasts m m' /\ clean scale0 rows' (rm_cells m') /\ exists starts,
      decode_spec scale0 sets lasts (seq_state rows (rm_cells m)) starts (model u starts) (seq_state rows' (rm_cells m'))).
Proof.
  intros I Lo Cl Hb Hu. unfold graph_step, graph_rows, rctx_apply, rctx_get_ubatch. cbn [rx_status llama_memory_status_is_fail].
  apply runs_bind. destruct us as [|u0 us]; [done|]. cbn [rx_ubatches rx_i_next negb assert_]. rewrite bind_ok.
  rewrite (rd_ok _ _ _ Hu), bind_ok. apply runs_bind.
  eapply runs_mono; [by apply (find_found T m u sets lasts)|]. intros [m' ok] [_ F]. cbn [fst] in *. apply runs_ok. cbn [fst].
  pose proof F as (I' & _ & De & _ & _ & Es & _). apply runs_bind. rewrite bool_decide_eq_true_2 by done. cbn [assert_]. rewrite bind_ok, bind_ok.
  pose proof (ri_len m I) as Lm. pose proof (de_room _ _ _ _ _ _ _ De) as Hroom.
  rewrite set_input_ok, bind_ok by (done || lia). unfold get_n_rs, get_rs_head, get_rs_z. cbn [rx_is_full].
  destruct Hb as [_ Hb]. apply Forall_cons_iff in Hb as [(U & _) _]. destruct (ru_seqs _ _ _ _ U) as [<- _].
  destruct (runs_inv _ _ (copies_ok scale0 rows _ u sets lasts U _ _ _ _ _ (ri_cells m I) Cl De (model u) (Hmodel u)))
    as ([starts rows3] & E & Hc & Hs).
  destruct (build_rs _ _ _ _ _ _ _) as [[r2 st]|?|?]; [|done..]. cbn [mbind res_bind fst snd] in *.
  destruct (put_rows _ _ _) as [r3|?|?]; [|done..]. cbn [mbind res_bind] in *. injection E as -> ->.
  apply runs_ok, runs_ok. split; [done|]. split; [done|]. by exists starts.
Qed.

Lemma decode_chain_proper b v v' w w' : decode_chain scale0 model b v w ->
  (forall y, v y = v' y) -> (forall y, w y = w' y) -> decode_chain scale0 model b v' w'.
Proof.
  intros H. revert v'. induction H as [v w E|u sets lasts b v v1 w starts S _ IH]; intros v' Ev Ew.
  - constructor. intros y. by rewrite <- Ev, E.
  - econstructor; [|by apply IH]. destruct S as [S1 S2 S3 S4]. split; [done| |done|].
    + intros s l Hl. rewrite <- Ev. by apply S2.
    + intros y Hy. rewrite <- Ev. by apply S4.
Qed.

(** The loop of the decoder over the rest of a batch. *)
Lemma rec_loop_ok T us b : forall m rows i, b <> [] -> (b.*1).*1 = drop i us ->
  rec_inv m -> low T (rm_cells m) -> clean scale0 rows (rm_cells m) -> batch_ok (rm_size m) T b ->
  runs (rec_loop scale0 model (length b) m (mk_rctx LLAMA_MEMORY_STATUS_SUCCESS i us false) rows) (fun '(m', rows') =>
    rec_inv m' /\ rm_size m' = rm_size m /\ low T (rm_cells m') /\ clean scale0 rows' (rm_cells m') /\
    decode_chain scale0 model b (seq_state rows (rm_cells m)) (seq_state rows' (rm_cells m'))).
Proof.
  induction b as [|[[u sets] lasts] b IH]; intros m rows i Hne Eb I Lo Cl Hb; [done|].
  apply batch_ok_cons in Hb as [Hu Hb]. cbn [length rec_loop].
  assert (Hi : us !! i = Some u).
  { rewrite <- (Nat.add_0_r i), <- lookup_drop, <- Eb. done. }
  apply runs_bind. eapply runs_mono; [by apply (graph_step_ok T m rows i us u sets lasts)|].
  intros [m1 rows1] (F & Cl1 & starts & Sp). pose proof F as (I1 & Lo1 & _ & _ & _ & Es & _).
  unfold rctx_next. rewrite bool_decide_eq_true_2 by done. cbn [assert_ rx_i_next rx_ubatches fst snd]. rewrite !bind_ok.
  assert (Ed : (b.*1).*1 = drop (S i) us).
  { replace (S i) with (i + 1)%nat by lia. rewrite <- drop_drop, <- Eb. done. }
  destruct (Nat.ltb_spec (S i) (length us)) as [Hlt|Hge]; cbn [fst snd].
  - assert (Hnb : b <> []).
    { intros ->. cbn in Ed. apply (f_equal length) in Ed. rewrite length_drop in Ed. cbn in Ed. lia. }
    eapply runs_mono; [apply (IH m1 rows1 (S i)); try done; by rewrite Es|].
    intros [m2 rows2] (I2 & Es2 & Lo2 & Cl2 & Ch). split; [done|]. split; [congruence|]. split; [done|]. split; [done|].
    by econstructor.
  - assert (b = []) as ->.
    { destruct b; [done|]. apply (f_equal length) in Ed. rewrite length_drop in Ed. cbn in Ed. lia. }
    apply runs_ok. split; [done|]. split; [done|]. split; [done|]. split; [done|]. econstructor; [exact Sp|]. by constructor.
Qed.
End decoder.
