(* ===== verification/RecurrentBatch.v ===== *)
(** From an accepted batch to the states of the recurrent memory: [init_batch]
    (src/llama/llama.cpp/src/llama-memory-recurrent.cpp) cuts the batch with [split_equal],
    and the decoder walks through the micro-batches (RecurrentGraph.v). *)

From S2P Require Import Prelude Hparams KvCells Memory Batch BatchEqual BatchInit KvState.
From S2P Require Import Recurrent RecurrentOk RecurrentSlot RecurrentDecode RecurrentGraph.
Local Open Scope Z_scope.

(** ** The sets of a micro-batch *)

Definition sets_of (v : llama_ubatch) : list (list Z) :=
  (fun s => default [] (ub_seq_id v !! first_token v s)) <$> seq 0 (ub_n_seqs v).
Definition lasts_of (v : llama_ubatch) : list Z :=
  (fun s => default (-1) (ub_pos v !! (first_token v s + ub_n_seq_tokens v - 1)%nat)) <$> seq 0 (ub_n_seqs v).
Definition step_of (v : llama_ubatch) : step := (v, sets_of v, lasts_of v).

Lemma at_seq {A} (f : nat -> A) n s x : (f <$> seq 0 n) !! s = Some x <-> (s < n)%nat /\ x = f s.
Proof.
  rewrite list_lookup_fmap_Some. split.
  - intros (j & -> & [-> Hj]%lookup_seq). done.
  - intros [Hs ->]. exists s. split; [done|]. by apply lookup_seq.
Qed.

Section batch.
Context (a : llama_batch_allocr) (ps ns : list Z) (ss : list (list Z)) (ls : list Z).
Context (W : balloc_wf a ps ns ss ls) (SW : sets_wf a ns ss).
Abbreviation n := (get_n_tokens a).
Abbreviation seqs i := (seqs_of ns ss i).

(** The positions of the batch leave room for as many tokens again, and no token names a
    sequence twice. *)
Definition rec_storable : Prop :=
  (forall i p, ps !! i = Some p -> 0 <= p /\ p + Z.of_nat n <= INT32_MAX) /\
  forall i, (i < n)%nat -> NoDup (seqs i) /\ seqs i <> [].

Context (St : rec_storable) (Hpos : (0 < n_pos_per_embd_ a)%nat) (Hn : (0 < n)%nat).

(** The count and the ids of a token. *)
Lemma token_ids i : (i < n)%nat -> exists k, ns !! i = Some k /\ 0 < k <= INT32_MAX /\ Z.to_nat k = length (seqs i) /\
  forall x, x ∈ seqs i -> 0 <= x < Z.of_nat (n_seq_max a).
Proof.
  intros Hi. destruct (bw_nseq _ _ _ _ _ W) as [_ Ln], (bw_seq _ _ _ _ _ W) as [_ Ls].
  destruct (lookup_lt_is_Some_2 ns i) as [k Hk]; [lia|]. destruct (lookup_lt_is_Some_2 ss i) as [l Hl]; [lia|].
  destruct (bw_ids _ _ _ _ _ W i k l Hi Hk Hl) as [Hlen Hr]. destruct St as [_ Hs]. destruct (Hs i Hi) as [Hnd Hne].
  unfold seqs_of in *. rewrite Hk, Hl in *. exists k. split; [done|].
  pose proof (ids_length _ _ Hnd Hr) as Hmx. pose proof (bw_max _ _ _ _ _ W) as Hm. rewrite length_take in *.
  unfold LLAMA_MAX_SEQ, INT32_MAX in *. split; [|split; [lia|done]].
  split; [|lia]. destruct (Z.to_nat k) eqn:Ek; [by rewrite take_0 in Hne|lia].
Qed.

Section one.
Context (size : nat) (Hsize : (n_seq_max a <= size)%nat).
Context (idxs : list nat) (v : llama_ubatch) (Hh : holds a ps ns ss ls idxs v) (Hs : shaped a idxs v).
Context (Hnd : NoDup idxs) (Hlt : forall i, i ∈ idxs -> (i < n)%nat).

(** A token of the micro-batch in the batch. *)
Lemma row_token s j : (s < ub_n_seqs v)%nat -> (j < ub_n_seq_tokens v)%nat ->
  exists i, idxs !! (first_token v s + j)%nat = Some i /\ (i < n)%nat.
Proof.
  intros H1 H2. destruct (lookup_lt_is_Some_2 idxs (first_token v s + j)) as [i Hi].
  - rewrite <- (ho_rect _ _ _ _ _ _ _ Hh). unfold first_token. nia.
  - exists i. split; [done|]. apply Hlt. by eapply list_elem_of_lookup_2.
Qed.

(** The sequences of a set are those of its first token. *)
Lemma set_token s l : sets_of v !! s = Some l -> exists i, idxs !! first_token v s = Some i /\ (i < n)%nat /\ l = seqs i.
Proof.
  intros [Hlt' ->]%at_seq. destruct (sh_pos _ _ _ Hs) as [_ H0]. destruct (row_token s 0 Hlt' H0) as (i & Hi & Hin).
  rewrite Nat.add_0_r in Hi. exists i. split; [done|]. split; [done|]. by rewrite (ho_seq _ _ _ _ _ _ _ Hh), list_lookup_fmap, Hi.
Qed.

Lemma last_token s p : lasts_of v !! s = Some p ->
  ub_pos v !! (first_token v s + ub_n_seq_tokens v - 1)%nat = Some p /\ exists i, (i < n)%nat /\ ps !! i = Some p.
Proof.
  intros [Hlt' ->]%at_seq. destruct (sh_pos _ _ _ Hs) as [_ H0].
  destruct (row_token s (ub_n_seq_tokens v - 1) Hlt') as (i & Hi & Hin); [lia|].
  replace (first_token v s + (ub_n_seq_tokens v - 1))%nat with (first_token v s + ub_n_seq_tokens v - 1)%nat in Hi by lia.
  pose proof (ho_pos _ _ _ _ _ _ _ Hh _ i 0 Hi Hpos) as E. cbn [Nat.mul Nat.add] in E.
  assert (E0 : src_off (Batch.batch a) 0 = 0%nat) by (unfold src_off; by case_match). rewrite E0 in E. cbn in E.
  destruct (bw_pos _ _ _ _ _ W) as [_ Lp]. destruct (lookup_lt_is_Some_2 ps i) as [p Hp].
  { unfold pos_len in Lp. case_match; nia. }
  rewrite E, Hp. split; [done|]. by exists i.
Qed.

Lemma ubatch_ok : Z.of_nat n <= INT32_MAX -> rec_ubatch size v (sets_of v) (lasts_of v) /\ (ub_n_seq_tokens v <= n)%nat /\
  forall p, p ∈ lasts_of v -> p + Z.of_nat n <= INT32_MAX.
Proof.
  intros Hmax. destruct St as [Sp Ss]. destruct (sh_pos _ _ _ Hs) as [P1 P2].
  assert (Hlen : (ub_n_seqs v * ub_n_seq_tokens v <= n)%nat).
  { rewrite Nat.mul_comm, (ho_rect _ _ _ _ _ _ _ Hh). by apply NoDup_below. }
  assert (Rng : forall s l x, sets_of v !! s = Some l -> x ∈ l -> 0 <= x < Z.of_nat (n_seq_max a)).
  { intros s l x Hl Hx. apply set_token in Hl as (i & _ & Hi & ->). destruct (token_ids i Hi) as (k & _ & _ & _ & H). by apply H. }
  split; [split|split; [nia|]].
  - by apply (sh_equal _ _ _ Hs).
  - unfold sets_of. by rewrite length_fmap, length_seq.
  - split; [done|]. lia.
  - unfold sets_of, lasts_of. by rewrite !length_fmap, !length_seq.
  - intros s l Hl. apply set_token in Hl as (i & Hi & Hin & ->). destruct (token_ids i Hin) as (k & Hk & H0 & Hlk & _).
    exists k, (seqs i). rewrite (ho_nseq _ _ _ _ _ _ _ Hh _ _ Hi), (ho_seq _ _ _ _ _ _ _ Hh), list_lookup_fmap, Hi.
    repeat split; [done|lia|lia|lia|]. rewrite take_ge by lia. done.
  - intros s p Hp. apply last_token in Hp as (Hp & i & Hi & Hpi). split; [done|]. destruct (Sp i p Hpi). lia.
  - apply nodup_disjoint; [intros s l (i & _ & Hi & ->)%set_token; by apply Ss|].
    intros s s' l l' x (i & Hi & Hin & ->)%set_token (i' & Hi' & Hin' & ->)%set_token Hx Hx'.
    destruct (decide (s = s')) as [|Hne]; [done|]. exfalso.
    destruct (sh_sets _ _ _ Hs) as (cur & Ecur & Hd & Hrow).
    assert (Hset : forall s i, idxs !! first_token v s = Some i -> exists c, cur !! s = Some c /\ seq_set a !! i = Some c).
    { clear -Hrow Ecur Hh P2. intros s i Hi. destruct (lookup_lt_is_Some_2 cur s) as [c Hc].
      { apply lookup_lt_Some in Hi. rewrite <- (ho_rect _ _ _ _ _ _ _ Hh) in Hi. unfold first_token in Hi. rewrite Ecur. nia. }
      destruct (Hrow s c 0%nat Hc P2) as (i' & Hi' & Hsi). rewrite Nat.add_0_r in Hi'. unfold first_token in Hi.
      rewrite Hi in Hi'. injection Hi' as <-. by exists c. }
    destruct (Hset s i Hi) as (c & Hc & Hci), (Hset s' i' Hi') as (c' & Hc' & Hci').
    pose proof (Hd s s' c c' Hc Hc' Hne) as Hdis. destruct (sw_set _ _ _ SW i c Hci) as [_ ->], (sw_set _ _ _ SW i' c' Hci') as [_ ->].
    apply (elem_of_list_to_set (C := gset Z)) in Hx, Hx'. set_solver.
  - intros x (s & l & Hl & Hx)%batch_set. specialize (Rng s l x Hl Hx). lia.
  - intros p [s Hp]%list_elem_of_lookup. apply last_token in Hp as (_ & i & _ & Hpi). by apply (Sp i p).
Qed.
End one.
End batch.

(** ** The micro-batches of split_equal *)

Section split.
Context (a : llama_batch_allocr) (ps ns : list Z) (ss : list (list Z)) (ls : list Z).
Context (W : balloc_wf a ps ns ss ls) (SW : sets_wf a ns ss) (St : rec_storable a ps ns ss).
Context (Hpos : (0 < n_pos_per_embd_ a)%nat) (Hn : (0 < get_n_tokens a)%nat).

Lemma steps_ok size idxss us : (n_seq_max a <= size)%nat -> Z.of_nat (get_n_tokens a) <= INT32_MAX ->
  Forall2 (fun l v => holds a ps ns ss ls l v /\ shaped a l v) idxss us ->
  concat idxss ≡ₚ seq 0 (get_n_tokens a) -> batch_ok size (get_n_tokens a) (step_of <$> us).
Proof.
  intros Hs Hmax F P. split; [done|]. apply Forall_fmap, list.Forall_forall. intros v [k Hv]%list_elem_of_lookup.
  destruct (Forall2_lookup_r _ _ _ _ _ F Hv) as (l & Hl & Hh & Hsh). cbn.
  assert (Hnd : NoDup (concat idxss)) by (rewrite P; apply NoDup_seq).
  apply (ubatch_ok a ps ns ss ls W SW St Hpos Hn size Hs l v Hh Hsh); [by eapply concat_nodup| |done].
  intros i Hi. assert (Hin : i ∈ concat idxss) by (by eapply elem_concat_at). rewrite P in Hin. apply elem_of_seq in Hin. lia.
Qed.

Lemma steps_ubatches us : ((step_of <$> us).*1).*1 = us.
Proof. induction us as [|v us IH]; [done|]. cbn. f_equal. exact IH. Qed.

(** The loop over [split_equal]. *)
Lemma rec_split_ok size n_ubatch : (n_seq_max a <= size)%nat -> Z.of_nat (get_n_tokens a) <= INT32_MAX -> has_cpl a = false ->
  runs (split_loop (rec_split false n_ubatch) (split_reset a)) (fun '(a1, us) => exists idxss,
    get_n_used a1 = get_n_tokens a /\ get_n_tokens a1 = get_n_tokens a /\ us <> [] /\
    Forall2 (holds a ps ns ss ls) idxss us /\ concat idxss ≡ₚ seq 0 (get_n_tokens a) /\
    batch_ok size (get_n_tokens a) (step_of <$> us)).
Proof.
  intros Hs Hmax Hc. eapply runs_mono.
  { exact (split_equal_all a ps ns ss ls W SW [] n_ubatch true ltac:(by rewrite Hc)). }
  intros [a1 us] ((o & uu & Ea) & idxss & F & P & _). cbn [fst snd] in *. subst a1. exists idxss.
  pose proof (steps_ok size idxss us Hs Hmax F P) as B. split; [done|]. split; [done|]. split; [|split; [|by split]].
  - intros ->. apply Forall2_nil_inv_r in F as ->. apply Permutation_length in P. rewrite length_seq in P. cbn in P. lia.
  - eapply Forall2_impl; [|exact F]. by intros l v [Hh _].
Qed.

(** [init_batch] prepares all micro-batches. *)
Lemma rec_init_batch_ok m n_ubatch : rec_inv m -> low (get_n_tokens a) (rm_cells m) -> (n_seq_max a <= rm_size m)%nat ->
  Z.of_nat (get_n_tokens a) <= INT32_MAX -> has_cpl a = false ->
  runs (rec_init_batch m a n_ubatch false) (fun '(m1, a1, x) => exists us idxss n z,
    m1 = with_graph n z m /\ get_n_used a1 = get_n_tokens a /\ x = rctx_batch us /\ us <> [] /\
    Forall2 (holds a ps ns ss ls) idxss us /\ concat idxss ≡ₚ seq 0 (get_n_tokens a) /\
    batch_ok (rm_size m) (get_n_tokens a) (step_of <$> us)).
Proof.
  intros I Lo Hs Hmax Hc. unfold rec_init_batch. apply runs_bind. eapply runs_mono; [by apply (rec_split_ok (rm_size m))|].
  intros [a1 us] (idxss & Eu & Et & Hne & F & P & B). rewrite Eu, Et, Nat.ltb_irrefl. apply runs_bind. eapply runs_mono.
  { rewrite <- (steps_ubatches us). apply (prepare_found (get_n_tokens a) (step_of <$> us) m I Lo B). }
  intros [m1 ok] (E & nn & z & Em). cbn [fst snd] in *. subst ok m1. apply runs_ok. exists us, idxss, nn, z. by repeat split; try apply B.
Qed.
End split.

(** ** The theorem *)

(** The operations on sequences keep the states clean (RecurrentOk.v). *)
Lemma lands_clean {D} (scale0 : D -> D) rows m m' v : rec_inv m ->
  lands rows m m' v -> clean scale0 rows (rm_cells m) -> clean scale0 rows (rm_cells m').
Proof.
  intros I (I' & [Es F] & _) C. eapply clean_frees; [|exact F|exact C].
  rewrite (ri_len m I), (ri_len m' I'). exact Es.
Qed.

(** C6: from an accepted batch (without coupled sequences, and not decoded for an embedding of
    every token, which [split_seq] would cut) to the states of its sequences: [init_batch] of the recurrent memory cuts the batch into micro-batches that hold every
    token once and leaves cells, [head] and [used] as they were; the loop of the decoder
    ([apply] with [find_slot], the copies of [build_rs], the new states, [next]) then runs
    through all micro-batches, and each of them starts every set of sequences from the state
    of its first sequence, or from a zeroed state when it has none (never from the state of
    a freed cell), stores the new state for all sequences of the set at its last position,
    and keeps the position and the state of every other sequence. *)
Theorem recurrent_decodes_batch {D} (scale0 : D -> D) (model : llama_ubatch -> list D -> list D)
    m rows a ps ns ss ls n_ubatch :
  (forall u l, length (model u l) = length l) ->
  rec_inv m -> clean scale0 rows (rm_cells m) -> low (get_n_tokens a) (rm_cells m) ->
  balloc_wf a ps ns ss ls -> sets_wf a ns ss -> rec_storable a ps ns ss -> has_cpl a = false ->
  (0 < n_pos_per_embd_ a)%nat -> (0 < get_n_tokens a)%nat -> Z.of_nat (get_n_tokens a) <= INT32_MAX ->
  (n_seq_max a <= rm_size m)%nat ->
  runs (rec_init_batch m a n_ubatch false) (fun '(m1, a1, x) =>
    (exists n z, m1 = with_graph n z m) /\ rx_status x = LLAMA_MEMORY_STATUS_SUCCESS /\
    (exists idxss, Forall2 (holds a ps ns ss ls) idxss (rx_ubatches x) /\ concat idxss ≡ₚ seq 0 (get_n_tokens a)) /\
    runs (rec_loop scale0 model (length (rx_ubatches x)) m1 x rows) (fun '(m2, rows2) =>
      rec_inv m2 /\ clean scale0 rows2 (rm_cells m2) /\
      decode_chain scale0 model (step_of <$> rx_ubatches x)
        (seq_state rows (rm_cells m)) (seq_state rows2 (rm_cells m2)))).
Proof.
  intros Hm I Cl Lo W SW St Hc Hpos Hn Hmax Hs. eapply runs_mono; [by apply (rec_init_batch_ok a ps ns ss ls W SW St Hpos Hn m n_ubatch)|].
  intros [[m1 a1] x] (us & idxss & n & z & -> & _ & -> & Hne & F & P & B). split; [by exists n, z|]. split; [done|].
  split; [by exists idxss|]. cbn [rx_ubatches rctx_batch].
  assert (I1 : rec_inv (with_graph n z m)) by (destruct I as [A1 A2 A3 A4 A5]; by split).
  rewrite <- (length_fmap step_of). eapply runs_mono.
  { apply (rec_loop_ok scale0 model Hm (get_n_tokens a) us (step_of <$> us) (with_graph n z m) rows 0); try done.
    - intros E. by apply fmap_nil_inv in E.
    - by rewrite steps_ubatches, drop_0. }
  intros [m2 rows2] (I2 & _ & _ & Cl2 & Ch). by split.
Qed.

Definition toy_rows : list Z := [10; 20; 30].
Definition toy_model (u : llama_ubatch) (l : list Z) : list Z := map (Z.add 1) l.

Lemma toy_clean : clean (Z.mul 0) toy_rows toy_cells /\ low 3 toy_cells.
Proof.
  split.
  - split; [done|]. intros [|[|[|i]]] Hi E Es; vm_compute in Es; done || (simpl in Hi; lia) || discriminate.
  - intros [|[|[|i]]]; vm_compute; discriminate.
Qed.

Definition toy_seqs : list (list Z) := [[0]; [0]; [0]].

Lemma toy_accepted : exists ls, balloc_wf toy_alloc [7; 8; 9] [1; 1; 1] toy_seqs ls /\ sets_wf toy_alloc [1; 1; 1] toy_seqs /\
  rec_storable toy_alloc [7; 8; 9] [1; 1; 1] toy_seqs.
Proof.
  destruct (balloc_init_ok (H := fixed_memory) (llama_batch_allocr_new 1) toy_batch 32 (Some 6) 4 2 false toy_alloc
    toy_input ltac:(lia) eq_refl toy_init_ok) as ((ps & ns & ss & ls & A) & _).
  pose proof (ac_wf _ _ _ _ _ _ _ _ A) as W. pose proof (ac_sets _ _ _ _ _ _ _ _ A) as SW.
  destruct (bw_pos _ _ _ _ _ W) as [Ep _], (bw_nseq _ _ _ _ _ W) as [En _], (bw_seq _ _ _ _ _ W) as [Es _].
  vm_compute in Ep, En, Es. injection Ep as <-. injection En as <-. injection Es as <-.
  exists ls. split; [exact W|]. split; [exact SW|]. split.
  - intros [|[|[|i]]] p Hp; simpl in Hp; try discriminate Hp; injection Hp as <-; vm_compute; split; discriminate.
  - intros [|[|[|i]]] Hi; [..|exfalso; vm_compute in Hi; lia]; (split; [apply NoDup_singleton|vm_compute; discriminate]).
Qed.

Lemma recurrent_decodes_batch_witness :
  exists ls, balloc_wf toy_alloc [7; 8; 9] [1; 1; 1] toy_seqs ls /\
    runs (rec_init_batch toy_rec toy_alloc 2 false) (fun '(m1, a1, x) =>
      rx_status x = LLAMA_MEMORY_STATUS_SUCCESS /\
      runs (rec_loop (Z.mul 0) toy_model (length (rx_ubatches x)) m1 x toy_rows) (fun '(m2, rows2) =>
        clean (Z.mul 0) rows2 (rm_cells m2))).
Proof.
  destruct toy_accepted as (ls & W & SW & St), toy_clean as [Cl Lo]. exists ls. split; [exact W|]. eapply runs_mono.
  - apply (recurrent_decodes_batch (Z.mul 0) toy_model toy_rec toy_rows toy_alloc [7; 8; 9] [1; 1; 1] toy_seqs ls 2); try eassumption.
    + intros u l. apply length_map.
    + apply toy_rec_inv.
    + vm_compute. reflexivity.
    + vm_compute. lia.
    + vm_compute. lia.
    + vm_compute. discriminate.
    + vm_compute. lia.
  - intros [[m1 a1] x] (_ & E & _ & R). split; [exact E|]. eapply runs_mono; [exact R|].
    intros [m2 rows2] (_ & C & _). exact C.
Defined.
