(* ===== verification/RecurrentFaults.v ===== *)
(** Calls after which the recurrent memory (Recurrent.v) violates its own assertions. *)

From S2P Require Import Prelude Hparams KvCells Memory Batch KvState Recurrent RecurrentOk RecurrentSlot RecurrentDecode RecurrentGraph.
Local Open Scope Z_scope.

(** ** The removal of all sequences at once *)

(** What the loop of [seq_rm] does to a cell when it matches any sequence. *)
Definition emptied (c : mem_cell) : mem_cell :=
  if (m_pos c >=? 0) && (m_pos c <? INT32_MAX) then set_src (-1) (set_pos (-1) (set_seq ∅ c)) else c.

Lemma empty_loop cs used : Z.of_nat (length cs) <= INT32_MAX ->
  runs (foldM (seq_rm_cell (length cs) (-1) 0 INT32_MAX) (cs, used, length cs) (seq 0 (length cs)))
    (fun '(cs', used', nh) => changed (fun _ => emptied) cs (length cs) cs' /\ (nh <= length cs)%nat).
Proof.
  intros Hm. eapply runs_mono.
  { apply (runs_for (fun i '(cs', used', nh) => changed (fun _ => emptied) cs i cs' /\ (nh <= length cs)%nat)).
    - split; [apply changed_0|done].
    - intros i [[cs' used'] nh] Hi [Ch Hn]. pose proof Ch as [L _]. unfold seq_rm_cell.
      pose proof (changed_at _ _ _ _ Ch) as Ei.
      rewrite rd_at, bind_ok, Ei by lia. cbn [Z.ltb Z.compare orb]. rewrite andb_true_r.
      destruct ((m_pos (cell_at cs i) >=? 0) && (m_pos (cell_at cs i) <? INT32_MAX)) eqn:E.
      + rewrite upd_at, bind_ok by lia. rewrite rd_at, bind_ok by (rewrite length_insert; lia).
        rewrite cell_at_insert, decide_True by (done || lia). unfold mcell_is_empty at 1. cbn [m_seq set_seq].
        rewrite bool_decide_eq_true_2 by done. rewrite upd_at, bind_ok by (rewrite length_insert; lia). apply runs_ok.
        rewrite cell_at_insert, decide_True by (done || lia). rewrite list_insert_insert_eq. split; [|case_match; lia].
        rewrite Ei. replace (set_src (-1) (set_pos (-1) (set_seq ∅ (cell_at cs i)))) with (emptied (cell_at cs' i)) by (rewrite Ei; unfold emptied; by rewrite E).
        apply (changed_S (fun _ => emptied)); [done|lia].
      + apply runs_ok. split; [|done]. apply (changed_same (fun _ => emptied)); [done|]. unfold emptied. by rewrite E. }
  done.
Qed.

Section remove_all.
Context (m : llama_memory_recurrent) (I : rec_inv m).
Abbreviation cs := (rm_cells m).

(** All cells are empty, and all tails are left as they were. *)
Definition tails_left (m' : llama_memory_recurrent) : Prop :=
  rm_size m' = rm_size m /\ length (rm_cells m') = rm_size m /\ (rm_head m' <= rm_size m)%nat /\
  forall i, m_seq (cell_at (rm_cells m') i) = ∅ /\ m_tail (cell_at (rm_cells m') i) = m_tail (cell_at cs i).

Lemma rm_all_ok : runs (rec_seq_rm m (-1) (-1) (-1)) (fun r => r.2 = true /\ tails_left r.1).
Proof.
  pose proof (ri_len m I) as L. pose proof (ri_max m I) as Hm. unfold rec_seq_rm. cbn [range_lo range_hi Z.ltb Z.compare].
  replace (-1 >=? Z.of_nat (rm_size m)) with false by lia. unfold seq_rm_tail.
  change (range_lo (-1)) with 0. change (range_hi (-1)) with INT32_MAX. cbn [Z.leb Z.compare].
  change (negb (0 =? INT32_MAX) && _) with false. cbv iota. rewrite bind_ok. apply runs_bind. rewrite <- L at 1 2 3.
  eapply runs_mono; [apply empty_loop; lia|]. intros [[cs' used'] nh] [Ch Hn]. apply runs_ok. pose proof Ch as [L' _].
  cbn. split; [done|]. split; [done|]. cbn. split; [lia|]. split; [pose proof (ri_head m I); unfold head_after; case_match; lia|].
  intros i. destruct (Nat.lt_ge_cases i (length cs)) as [Hi|Hi].
  - rewrite (changed_all _ _ _ _ Ch Hi). unfold emptied. destruct (decide (m_seq (cell_at cs i) = ∅)) as [E|E].
    + by case_match.
    + destruct (co_busy cs (ri_cells m I) i E) as [Hp _].
      replace ((m_pos (cell_at cs i) >=? 0) && (m_pos (cell_at cs i) <? INT32_MAX)) with true by lia. done.
  - by rewrite !cell_at_ge by lia.
Qed.

(** The position getters report that every sequence is gone. *)
Lemma tails_left_pos m' y : tails_left m' -> rec_seq_pos_max m' y = Ok (-1).
Proof.
  intros (Es & L & _ & H). apply runs_inv_eq. unfold rec_seq_pos_max. rewrite Es.
  apply (runs_for (fun _ r => r = -1)); [done|]. intros i r Hi ->. rewrite rd_at, bind_ok by lia.
  unfold has_seq_id. destruct (H i) as [-> _]. by rewrite bool_decide_eq_false_2 by set_solver.
Qed.
End remove_all.

(** The checks of a micro-batch whose sets have one sequence each. *)
Lemma check_singles size u sets lasts st : rec_ubatch size u sets lasts -> Forall (fun l => length l = 1%nat) sets ->
  foldB (check_set size u) st (seq 0 (ub_n_seqs u)) = Ok (inl st).
Proof.
  intros U F. destruct (ru_seqs _ _ _ _ U) as [<- _]. apply runs_inv_eq. eapply runs_mono.
  { apply (runs_foldB (fun (_ : list nat) s => s = st) (fun _ => False)); [done|].
    intros d s l2 st' Ed ->. apply seq_split_at in Ed as [-> Hs].
    destruct (lookup_lt_is_Some_2 sets (length d) Hs) as [l Hl].
    destruct (set_ids size u sets lasts U _ l Hl) as (n & Hn & H0 & Hlen & Hat). unfold check_set.
    rewrite list.Forall_forall in F. pose proof (F l ltac:(by eapply list_elem_of_lookup_2)) as L1.
    unfold INT32_MAX in H0. rewrite (rd_ok _ _ _ Hn), bind_ok, u32_small, Hlen, L1 by lia. cbn [seq foldB]. unfold check_seq.
    destruct l as [|x [|]]; [done| |done]. rewrite (Hat 0%nat x eq_refl), bind_ok.
    pose proof (id_range size u sets lasts U _ _ x Hl ltac:(left)) as Hr.
    replace ((x <? 0) || (x >=? Z.of_nat size)) with false by lia. done. }
  intros [s|s]; [by intros ->|done].
Qed.

Lemma stale_tail_fault m m' u sets lasts x : rec_inv m -> tails_left m m' -> rec_ubatch (rm_size m) u sets lasts ->
  Forall (fun l => length l = 1%nat) sets -> sets !! 0%nat = Some [x] -> 0 <= m_tail (zat (rm_cells m) x) ->
  rec_find_slot m' u = Fault AssertFailed.
Proof.
  intros I (Es & L & Hh & H) U F Hx Ht. pose proof (id_range _ u sets lasts U 0 _ x Hx ltac:(left)) as Hr.
  assert (Ep : forall e mn mx, place_set (rm_size m) u (rm_cells m', e, mn, mx) 0 = Fault AssertFailed).
  { intros e mn mx. unfold place_set.
    destruct (set_ids _ u sets lasts U 0 _ Hx) as (c & _ & _ & _ & Hat).
    assert (Ef : first_seq u 0 = Ok x) by (unfold first_seq; by apply Hat).
    rewrite Ef, bind_ok, rdz_at, bind_ok by lia. unfold owns_cell. destruct (H (Z.to_nat x)) as [_ ->].
    replace (m_tail (zat (rm_cells m) x) >=? 0) with true by lia.
    destruct (tail_some _ (ri_cells m I) x ltac:(lia) Ht) as (_ & Hlt & _). pose proof (ri_len m I).
    rewrite rdz_at, bind_ok by lia. unfold has_seq_id. destruct (H (Z.to_nat (m_tail (zat (rm_cells m) x)))) as [-> _].
    by rewrite bool_decide_eq_false_2 by set_solver. }
  unfold rec_find_slot. rewrite (ru_equal _ _ _ _ U). cbn [assert_]. rewrite bind_ok, Es, (check_singles _ u sets lasts), bind_ok by done.
  set (h0 := if _ >? _ then 0%nat else rm_head m').
  assert (Hh0 : (h0 <= rm_size m)%nat) by (unfold h0; case_match; lia).
  destruct (runs_inv _ _ (next_empty_ok (rm_size m) (rm_cells m') L ltac:(lia) false h0 Hh0)) as (e & -> & _). rewrite bind_ok.
  destruct (ru_seqs _ _ _ _ U) as [_ Hn]. destruct (ub_n_seqs u) as [|k]; [lia|]. cbn [seq foldM]. by rewrite Ep.
Qed.

(** C39: removing the cells of every sequence at once, [seq_rm(-1, -1, -1)], succeeds and
    empties all cells, so that the position getters answer -1 for every sequence, but it
    leaves the tails behind: the next micro-batch of unshared sequences whose first one was in
    the memory makes [find_slot] fail its assertion that the tail holds the sequence. *)
Theorem remove_all_leaves_tails m u sets lasts x :
  rec_inv m -> rec_ubatch (rm_size m) u sets lasts -> Forall (fun l => length l = 1%nat) sets ->
  sets !! 0%nat = Some [x] -> rec_seq_pos_max m x <> Ok (-1) ->
  runs (rec_seq_rm m (-1) (-1) (-1)) (fun r =>
    r.2 = true /\ (forall y, rec_seq_pos_max r.1 y = Ok (-1)) /\ rec_find_slot r.1 u = Fault AssertFailed).
Proof.
  intros I U F Hx Hp. eapply runs_mono; [by apply rm_all_ok|]. intros [m' ok] [E T]. split; [done|].
  split; [intros y; by apply (tails_left_pos m)|]. apply (stale_tail_fault m m' u sets lasts x); try done.
  rewrite (rec_seq_pos_max_ok (@nil unit) m I) in Hp. unfold seq_state in Hp.
  destruct ((0 <=? x) && (0 <=? m_tail (zat (rm_cells m) x))) eqn:Ex; [lia|done].
Qed.

(** A token of sequence 0 at position 8. *)
Definition toy_token : llama_ubatch :=
  mk_ubatch true 1 1 1 1 1 (Some [5]) None [8] [1] [[0]] [0] (0 :: replicate 255 (-1)) [1].

Lemma toy_token_ok size : (0 < size)%nat -> rec_ubatch size toy_token [[0]] [8].
Proof.
  intros Hs. split; try done.
  - cbn. lia.
  - by cbn; unfold INT32_MAX; lia.
  - intros [|s] l Hl; [|done]. injection Hl as <-. exists 1, [0]. repeat split; cbn; lia || done.
  - intros [|s] p Hp; [|done]. injection Hp as <-. by split; [|unfold INT32_MAX; lia].
  - cbn. apply NoDup_singleton.
  - intros x Hx. cbn in Hx. apply list_elem_of_singleton in Hx. lia.
Qed.

Lemma remove_all_leaves_tails_witness :
  rec_seq_pos_max toy_rec 0 = Ok 7 /\
  runs (rec_seq_rm toy_rec (-1) (-1) (-1)) (fun r => r.2 = true /\ rec_find_slot r.1 toy_token = Fault AssertFailed).
Proof.
  split; [vm_compute; reflexivity|].
  eapply runs_mono; [apply (remove_all_leaves_tails toy_rec toy_token [[0]] [8] 0 toy_rec_inv)|].
  - apply toy_token_ok. cbn. lia.
  - repeat constructor.
  - reflexivity.
  - vm_compute. discriminate.
  - intros r (E & _ & H). split; [exact E|exact H].
Defined.
