(* ===== verification/RecurrentState.v ===== *)
(** Saving the recurrent memory and restoring it (Recurrent.v): [state_write] and
    [state_read] of src/llama/llama.cpp/src/llama-memory-recurrent.cpp, for the whole memory
    and for one sequence, with the states in the tensors of the layers. *)

From S2P Require Import Prelude Hparams KvCells Memory Batch KvCache KvState KvStateOk.
From S2P Require Import Recurrent RecurrentOk RecurrentSlot RecurrentDecode RecurrentGraph.
From stdpp Require Import sorting.
Local Open Scope Z_scope.

(** ** The saved cells *)

Section saved.
Context (m : llama_memory_recurrent) (I : rec_inv m) (x : Z).
Abbreviation cs := (rm_cells m).

(** Is the cell saved for the sequence [x] (all sequences when it is -1)? *)
Definition saved_at (i : nat) : bool :=
  ((x =? -1) && negb (mcell_is_empty (cell_at cs i))) || has_seq_id (cell_at cs i) x.

Definition saved_list : list nat := filter (fun i => saved_at i = true) (seq 0 (rm_size m)).

Lemma mcell_saved_ok i : (i < rm_size m)%nat -> mcell_saved m x i = Ok (saved_at i).
Proof. intros Hi. unfold mcell_saved. by rewrite rd_at, bind_ok by (rewrite (ri_len m I); lia). Qed.

Lemma saved_list_lt i : i ∈ saved_list -> (i < rm_size m)%nat.
Proof. unfold saved_list. intros [_ H]%list_elem_of_filter. apply elem_of_seq in H. lia. Qed.

Lemma saved_busy i : i ∈ saved_list -> m_seq (cell_at cs i) <> ∅.
Proof.
  unfold saved_list, saved_at, has_seq_id, mcell_is_empty. intros [H _]%list_elem_of_filter E.
  rewrite E, bool_decide_eq_true_2, andb_false_r in H by done. cbn in H. apply bool_decide_eq_true in H. set_solver.
Qed.

(** The ids of a cell that are written. *)
Definition ids_of (i : nat) : list Z := if x =? -1 then sorted_ids (m_seq (cell_at cs i)) else [].

Definition meta_fmt (js : list nat) : list Z := concat (map (fun i => cell_bytes (m_pos (cell_at cs i)) (ids_of i)) js).

Lemma writes_rec_meta data : Forall (fun r => r.1 < r.2 <= rm_size m)%nat data ->
  (forall i, i ∈ range_cells data -> (i < rm_size m)%nat) ->
  writes (rec_write_meta m data x) (meta_fmt (range_cells data)).
Proof.
  intros _ Hl. unfold rec_write_meta, meta_fmt. apply writes_foldM. intros i Hi.
  eapply writes_ext.
  { intros io. unfold rec_write_cell. rewrite rd_at, bind_ok by (rewrite (ri_len m I); by apply Hl). reflexivity. }
  fold (ids_of i). unfold cell_bytes. apply writes_bind; [apply writes_io_write|].
  apply (writes_bind (fun io => write_u32 io _)); [apply writes_io_write|].
  apply writes_foldM. intros z _. apply writes_io_write.
Qed.
End saved.

Lemma sorted_ids_elem u y : y ∈ sorted_ids u <-> y ∈ u.
Proof. unfold sorted_ids. by rewrite merge_sort_Permutation, elem_of_elements. Qed.

Lemma sorted_ids_set u : list_to_set (sorted_ids u) = u.
Proof. apply set_eq. intros y. by rewrite elem_of_list_to_set, sorted_ids_elem. Qed.

Lemma sorted_ids_nodup u : NoDup (sorted_ids u).
Proof. unfold sorted_ids. rewrite merge_sort_Permutation. apply NoDup_elements. Qed.

(** ** The tensors *)

Section tensors.
Context (grs : Z -> Z -> Z) (Hrs : forall ty ne, 0 <= grs ty ne < 18446744073709551616).
Abbreviation rsz ty ne := (Z.to_nat (grs ty ne)).

(** The tensors of [nl] layers hold a row of [ne] elements for each of [size] cells. *)
Definition rs_fit (nl : nat) (ne : Z) (size : nat) (ts : list (option rs_tensor)) : Prop :=
  length ts = nl /\ forall il t, ts !! il = Some (Some t) ->
    INT32_MIN <= t_type t <= INT32_MAX /\ (size * rsz (t_type t) ne <= length (t_data t))%nat.

Definition tensor_fmt (ne : Z) (js : list nat) (o : option rs_tensor) : list Z :=
  match o with Some t => rows_fmt grs (t_data t) (t_type t) ne js | None => [] end.

Lemma writes_rec_layers ts nl ne size data : rs_fit nl ne size ts -> Forall (fun r => r.1 < r.2 <= size)%nat data ->
  writes (rec_write_layers grs ts nl ne data) (concat (map (tensor_fmt ne (range_cells data)) ts)).
Proof.
  intros [L F] Hd. unfold rec_write_layers.
  replace (map (tensor_fmt ne (range_cells data)) ts)
    with (map (fun il => tensor_fmt ne (range_cells data) (default None (ts !! il))) (seq 0 nl)).
  - apply writes_foldM. intros il Hil. apply elem_of_seq in Hil.
    destruct (lookup_lt_is_Some_2 ts il) as [o Ho]; [lia|]. rewrite Ho. cbn [default].
    eapply writes_ext; [intros io; by rewrite (rd_ok _ _ _ Ho), bind_ok|].
    destruct o as [t|]; [|apply writes_ret]. cbn. destruct (F il t Ho) as [_ Hf].
    apply (writes_rows grs). apply (ranges_fit_size _ _ size); [done|]. by rewrite Nat.add_0_r.
  - apply list_eq. intros i. change (map ?f ?l) with (f <$> l). change (map (tensor_fmt ne (range_cells data)) ts) with (tensor_fmt ne (range_cells data) <$> ts).
    rewrite !list_lookup_fmap. destruct (ts !! i) as [o|] eqn:E.
    + apply lookup_lt_Some in E as Hlt. rewrite lookup_seq_lt by lia. cbn. by rewrite E.
    + apply lookup_ge_None in E. by rewrite lookup_seq_ge by lia.
Qed.

(** The tensors of a memory. *)
Record mem_fits (m : llama_memory_recurrent) : Prop := {
  mf_r : rs_fit (n_layer (rm_hparams m)) (n_embd_r (rm_hparams m)) (rm_size m) (rm_r_l m);
  mf_s : rs_fit (n_layer (rm_hparams m)) (n_embd_s (rm_hparams m)) (rm_size m) (rm_s_l m);
  mf_n : Z.of_nat (n_layer (rm_hparams m)) < 4294967296
}.

Definition rec_data_fmt (m : llama_memory_recurrent) (js : list nat) : list Z :=
  le_bytes 4 0 ++ le_bytes 4 (Z.of_nat (n_layer (rm_hparams m))) ++
  concat (map (tensor_fmt (n_embd_r (rm_hparams m)) js) (rm_r_l m)) ++
  concat (map (tensor_fmt (n_embd_s (rm_hparams m)) js) (rm_s_l m)).

Lemma writes_rec_data m data : mem_fits m -> Forall (fun r => r.1 < r.2 <= rm_size m)%nat data ->
  writes (rec_write_data grs m data) (rec_data_fmt m (range_cells data)).
Proof.
  intros [Fr Fs _] Hd. unfold rec_write_data, rec_data_fmt.
  apply (writes_bind (fun io => write_u32 io _)); [apply writes_io_write|].
  apply (writes_bind (fun io => write_u32 io _)); [apply writes_io_write|].
  apply writes_bind; by eapply writes_rec_layers.
Qed.

Definition rec_fmt (m : llama_memory_recurrent) (x : Z) : list Z :=
  let js := saved_list m x in
  le_bytes 4 (Z.of_nat (length js)) ++ meta_fmt m x js ++ rec_data_fmt m js.

(** [state_write] writes the number of saved cells, the cells, and their states. *)
Lemma rec_state_write_ok m x : rec_inv m -> mem_fits m -> writes (rec_state_write grs m x) (rec_fmt m x).
Proof.
  intros I F. unfold rec_state_write, rec_fmt. cbv zeta.
  destruct (cell_ranges_ok (rm_size m) (mcell_saved m x) (saved_at m x) (mcell_saved_ok m I x)) as (data & Ed & Er & Fd).
  eapply writes_ext; [intros io; rewrite Ed, bind_ok; reflexivity|]. fold (saved_list m x) in Er. rewrite <- Er.
  apply (writes_bind (fun io => write_u32 io _)); [apply writes_io_write|].
  apply writes_bind; [|by apply writes_rec_data]. apply writes_rec_meta; [done|done|].
  intros i. rewrite Er. apply saved_list_lt.
Qed.

(** ** Reading the tensors back *)

(** The rows [js] of [t0] came to the rows of [t'] from [head] on; the other rows are those
    of [t]. *)
Definition tensor_back (ne : Z) (head : nat) (js : list nat) (t0 t t' : rs_tensor) : Prop :=
  let n := rsz (t_type t0) ne in
  t_type t' = t_type t0 /\ length (t_data t') = length (t_data t) /\
  (forall k i, js !! k = Some i -> row n (t_data t') (head + k) = row n (t_data t0) i) /\
  (forall k, (k < head \/ head + length js <= k)%nat -> row n (t_data t') k = row n (t_data t) k).

Definition rs_like (o0 o : option rs_tensor) : Prop :=
  match o0, o with Some t0, Some t => t_type t = t_type t0 | None, None => True | _, _ => False end.
Definition rs_back (ne : Z) (head : nat) (js : list nat) (o0 o o' : option rs_tensor) : Prop :=
  match o0, o, o' with
  | Some t0, Some t, Some t' => tensor_back ne head js t0 t t'
  | None, None, None => True
  | _, _, _ => False
  end.

Lemma rec_read_tensor_ok head js t0 t ne size0 size rest k :
  t_type t = t_type t0 -> INT32_MIN <= t_type t0 <= INT32_MAX -> (forall i, i ∈ js -> (i < size0)%nat) ->
  (size0 * rsz (t_type t0) ne <= length (t_data t0))%nat -> (size * rsz (t_type t0) ne <= length (t_data t))%nat ->
  (head + length js <= size)%nat ->
  exists t', rec_read_tensor grs head (length js) ne t (mk_rbuf (rows_fmt grs (t_data t0) (t_type t0) ne js ++ rest) k) =
      Ok (Some t', mk_rbuf rest (k + length (rows_fmt grs (t_data t0) (t_type t0) ne js))) /\
    tensor_back ne head js t0 t t'.
Proof.
  intros Ety Hty Hjs H0 H1 Hh. unfold rec_read_tensor, rows_fmt. rewrite <- !app_assoc, Ety.
  rewrite (reads_i32 _ Hty), bind_ok. cbn [fst snd]. rewrite Z.eqb_refl. cbn [negb].
  rewrite (reads_u64 _ (Hrs (t_type t0) ne)), bind_ok. cbn [fst snd]. rewrite Z.eqb_refl. cbn [negb].
  set (n := rsz (t_type t0) ne) in *. rewrite !length_app.
  destruct (Nat.eqb_spec (length js) 0) as [E|E].
  { exists t. destruct js; [|done]. cbn [map concat app length]. split; [do 3 f_equal; lia|].
    split; [done|]. split; [done|]. split; [|done]. intros m i Hm. by rewrite lookup_nil in Hm. }
  assert (Hlen : length (concat (map (row n (t_data t0)) js)) = (length js * n)%nat).
  { apply length_row_list. intros i Hi. apply Hjs in Hi. nia. }
  rewrite <- Hlen, io_read_app, bind_ok. cbn [fst snd]. rewrite Hlen.
  destruct (tensor_set_rows n (t_data t) head (length js) _ Hlen) as (d & Ed & Ld & Hin & Hout); [nia|].
  rewrite Ed, bind_ok. eexists. split; [do 3 f_equal; lia|]. split; [done|]. split; [done|]. cbn [t_data]. split; [|done].
  intros m i Hm. rewrite Hin by (by eapply lookup_lt_Some).
  rewrite <- (app_nil_r (concat _)). apply row_rows; [|done]. intros j Hj. apply Hjs in Hj. fold n. nia.
Qed.

Lemma rec_read_layers_ok head js ts0 ts nl ne size0 size rest k :
  rs_fit nl ne size0 ts0 -> rs_fit nl ne size ts -> Forall2 rs_like ts0 ts -> (forall i, i ∈ js -> (i < size0)%nat) ->
  (head + length js <= size)%nat ->
  exists ts', foldB (rec_read_layer grs head (length js) ne) (ts, mk_rbuf (concat (map (tensor_fmt ne js) ts0) ++ rest) k) (seq 0 nl) =
      Ok (inl (ts', mk_rbuf rest (k + length (concat (map (tensor_fmt ne js) ts0))))) /\
    Forall3 (rs_back ne head js) ts0 ts ts'.
Proof.
  intros [L0 F0] [L1 F1] Lk Hjs Hh.
  assert (H : forall d ts1 ts2 pre k, (length ts1 + d)%nat = nl -> Forall2 rs_like ts1 ts2 -> length pre = d ->
    (forall il t, ts1 !! il = Some (Some t) -> ts0 !! (d + il)%nat = Some (Some t)) ->
    (forall il t, ts2 !! il = Some (Some t) -> ts !! (d + il)%nat = Some (Some t)) ->
    exists ts', foldB (rec_read_layer grs head (length js) ne)
        (pre ++ ts2, mk_rbuf (concat (map (tensor_fmt ne js) ts1) ++ rest) k) (seq d (length ts1)) =
      Ok (inl (pre ++ ts', mk_rbuf rest (k + length (concat (map (tensor_fmt ne js) ts1))))) /\
    Forall3 (rs_back ne head js) ts1 ts2 ts').
  { clear k. intros d ts1. revert d. induction ts1 as [|o0 ts1 IH]; intros d ts2 pre k Hd Lk1 Lp H1 H2.
    { apply Forall2_nil_inv_l in Lk1 as ->. exists []. split; [|constructor]. cbn. do 3 f_equal. by rewrite Nat.add_0_r. }
    apply Forall2_cons_inv_l in Lk1 as (o & ts3 & Lo & Lk1 & ->). cbn [length] in Hd.
    assert (Ho : (pre ++ o :: ts3) !! d = Some o) by (by apply list_lookup_middle).
    assert (Hstep : exists o', rec_read_layer grs head (length js) ne
        (pre ++ o :: ts3, mk_rbuf (tensor_fmt ne js o0 ++ concat (map (tensor_fmt ne js) ts1) ++ rest) k) d =
      Ok (inl ((pre ++ [o']) ++ ts3, mk_rbuf (concat (map (tensor_fmt ne js) ts1) ++ rest) (k + length (tensor_fmt ne js o0)))) /\
      rs_back ne head js o0 o o').
    { unfold rec_read_layer. rewrite (rd_ok _ _ _ Ho), bind_ok.
      destruct o0 as [t0|], o as [t|]; try done; [|exists None; split; [|done]; rewrite <- app_assoc; cbn; by rewrite Nat.add_0_r].
      destruct (F0 d t0) as [Hty Hf0]; [rewrite <- (Nat.add_0_r d); by apply H1|].
      destruct (F1 d t) as [_ Hf1]; [rewrite <- (Nat.add_0_r d); by apply H2|]. cbn in Lo. rewrite Lo in Hf1.
      destruct (rec_read_tensor_ok head js t0 t ne size0 size (concat (map (tensor_fmt ne js) ts1) ++ rest) k Lo Hty Hjs Hf0 Hf1 Hh)
        as (t' & E & B). cbn [tensor_fmt]. rewrite E, bind_ok. cbn [fst snd].
      rewrite wr_ok, bind_ok by (rewrite length_app; cbn; lia). exists (Some t'). split; [|done].
      rewrite insert_app_r_alt, Lp, Nat.sub_diag by lia. by rewrite <- app_assoc. }
    destruct Hstep as (o' & E & B). cbn [map concat]. rewrite <- app_assoc. cbn [length seq foldB]. rewrite E, bind_ok.
    destruct (IH (S d) ts3 (pre ++ [o']) (k + length (tensor_fmt ne js o0))%nat) as (ts' & E' & F'); [lia|done|rewrite length_app; cbn; lia| | |].
    - intros il t Hil. replace (S d + il)%nat with (d + S il)%nat by lia. by apply H1.
    - intros il t Hil. replace (S d + il)%nat with (d + S il)%nat by lia. by apply H2.
    - exists (o' :: ts'). rewrite E'. split; [|by constructor]. rewrite length_app, Nat.add_assoc, <- app_assoc. done. }
  destruct (H 0%nat ts0 ts [] k) as (ts' & E & B); [lia|done|done|done|done|]. rewrite L0 in E. exists ts'. split; [exact E|done].
Qed.

(** Two memories whose states are interchangeable. *)
Record like (m0 m : llama_memory_recurrent) : Prop := {
  lk_hp : rm_hparams m = rm_hparams m0;
  lk_r : Forall2 rs_like (rm_r_l m0) (rm_r_l m);
  lk_s : Forall2 rs_like (rm_s_l m0) (rm_s_l m)
}.

(** The tensors [rs] and [ss] hold the rows [js] of [m0] from [head] on, the rest is that of [m]. *)
Definition states_back (m0 m : llama_memory_recurrent) (head : nat) (js : list nat) (rs ss : list (option rs_tensor)) : Prop :=
  Forall3 (rs_back (n_embd_r (rm_hparams m0)) head js) (rm_r_l m0) (rm_r_l m) rs /\
  Forall3 (rs_back (n_embd_s (rm_hparams m0)) head js) (rm_s_l m0) (rm_s_l m) ss.

Lemma rec_read_data_ok m0 m js rest k : like m0 m -> mem_fits m0 -> mem_fits m ->
  (forall i, i ∈ js -> (i < rm_size m0)%nat) -> (rm_head m + length js <= rm_size m)%nat ->
  exists rs ss, rec_read_data grs m (length js) (mk_rbuf (rec_data_fmt m0 js ++ rest) k) =
      Ok ((with_tensors rs ss m, mk_rbuf rest (k + length (rec_data_fmt m0 js))), true) /\
    states_back m0 m (rm_head m) js rs ss.
Proof.
  intros [Ehp Lr Ls] [Fr0 Fs0 Hn] [Fr Fs _] Hjs Hh. unfold rec_read_data, rec_data_fmt. rewrite Ehp in *.
  rewrite <- !app_assoc. rewrite (reads_u32 0 ltac:(lia)), bind_ok. cbn [fst snd].
  rewrite (reads_u32 (Z.of_nat (n_layer (rm_hparams m0)))), bind_ok by lia. cbn [fst snd]. rewrite Z.eqb_refl. cbn [negb].
  destruct (Nat.ltb_spec (rm_size m) (length js)) as [H|_]; [lia|]. cbn [Z.eqb negb].
  destruct (rec_read_layers_ok (rm_head m) js _ _ _ _ _ _
    (concat (map (tensor_fmt (n_embd_s (rm_hparams m0)) js) (rm_s_l m0)) ++ rest)
    (k + length (le_bytes 4 0) + length (le_bytes 4 (Z.of_nat (n_layer (rm_hparams m0)))))%nat Fr0 Fr Lr Hjs Hh) as (rs & -> & Br).
  rewrite bind_ok. cbn [fst snd].
  destruct (rec_read_layers_ok (rm_head m) js _ _ _ _ _ _ rest
    (k + length (le_bytes 4 0) + length (le_bytes 4 (Z.of_nat (n_layer (rm_hparams m0)))) +
     length (concat (map (tensor_fmt (n_embd_r (rm_hparams m0)) js) (rm_r_l m0))))%nat Fs0 Fs Ls Hjs Hh) as (ss & -> & Bs).
  rewrite bind_ok. exists rs, ss. split; [|by split]. rewrite !length_app, !Nat.add_assoc. done.
Qed.
End tensors.

(** ** Reading the cells of a whole memory *)

Section loaded.
Context (size : nat).
Implicit Types (L : list (Z * list Z)) (cs : list mem_cell).

(** The first cells have the positions and the ids of [L]; the others are free. *)
Record loaded L cs : Prop := {
  ld_len : length cs = size;
  ld_cell : forall k p ids, L !! k = Some (p, ids) -> m_pos (cell_at cs k) = p /\ m_seq (cell_at cs k) = list_to_set ids;
  ld_free : forall i, (length L <= i)%nat -> m_pos (cell_at cs i) = -1 /\ m_seq (cell_at cs i) = ∅;
  ld_src : forall i, m_src (cell_at cs i) = -1;
  ld_tail : forall k p ids y, L !! k = Some (p, ids) -> y ∈ ids -> 0 <= y /\ m_tail (zat cs y) = Z.of_nat k;
  ld_none : forall i, Z.of_nat i ∉ concat (L.*2) -> m_tail (cell_at cs i) = -1
}.

Lemma loaded_cell L cs p : loaded L cs -> (length L < size)%nat ->
  loaded (L ++ [(p, [])]) (<[length L := set_pos p (cell_at cs (length L))]> cs).
Proof.
  intros [Hl Hc Hf Hs Ht Hn] Hlt.
  assert (E : forall i, cell_at (<[length L := set_pos p (cell_at cs (length L))]> cs) i =
    if decide (i = length L) then set_pos p (cell_at cs (length L)) else cell_at cs i) by (intros; apply cell_at_insert; lia).
  assert (Et : forall i, m_tail (cell_at (<[length L := set_pos p (cell_at cs (length L))]> cs) i) = m_tail (cell_at cs i)).
  { intros i. rewrite E. case_decide; [by subst|done]. }
  split.
  - by rewrite length_insert.
  - intros k q ids [Hk|[Hk E1]]%lookup_snoc_Some; rewrite E.
    + rewrite decide_False by lia. apply Hc. by destruct Hk.
    + injection E1 as <- <-. rewrite decide_True by done. split; [done|]. by apply (Hf (length L)).
  - intros i Hi. rewrite length_app in Hi. cbn in Hi. rewrite E, decide_False by lia. apply Hf. lia.
  - intros i. rewrite E. case_decide; [by apply Hs|done].
  - intros k q ids y [[_ Hk]|[_ E1]]%lookup_snoc_Some Hy; [rewrite Et; by eapply Ht|]. injection E1 as <- <-. by apply not_elem_of_nil in Hy.
  - intros i Hi. rewrite Et. apply Hn. rewrite fmap_app, concat_app in Hi. cbn in Hi. by rewrite app_nil_r in Hi.
Qed.

Lemma loaded_id L cs p ids x : loaded (L ++ [(p, ids)]) cs -> (length L < size)%nat -> 0 <= x < Z.of_nat size ->
  x ∉ concat ((L ++ [(p, ids)]).*2) -> let i := length L in
  exists cs1 c cs2, upd i (seq_insert x) cs = Ok cs1 /\ rdz cs1 x = Ok c /\ m_tail c = -1 /\
    updz x (set_tail (Z.of_nat i)) cs1 = Ok cs2 /\ loaded (L ++ [(p, ids ++ [x])]) cs2.
Proof.
  intros [Hl Hc Hf Hs Ht Hn] Hlt Hx Hni i. set (cs1 := <[i := seq_insert x (cell_at cs i)]> cs).
  assert (L1 : length cs1 = size) by (unfold cs1; by rewrite length_insert).
  assert (E1 : forall j, cell_at cs1 j = if decide (j = i) then seq_insert x (cell_at cs i) else cell_at cs j).
  { intros j. apply cell_at_insert. lia. }
  assert (T1 : forall j, m_tail (cell_at cs1 j) = m_tail (cell_at cs j)) by (intros j; rewrite E1; case_decide; [by subst j|done]).
  set (cs2 := <[Z.to_nat x := set_tail (Z.of_nat i) (zat cs1 x)]> cs1).
  exists cs1, (zat cs1 x), cs2. split; [apply upd_at; lia|]. split; [apply rdz_at; lia|].
  split; [rewrite T1; apply Hn; by rewrite Z2Nat.id by lia|]. split; [apply updz_at; lia|].
  assert (E2 : forall j, cell_at cs2 j = if decide (j = Z.to_nat x) then set_tail (Z.of_nat i) (zat cs1 x) else cell_at cs1 j).
  { intros j. apply cell_at_insert. lia. }
  assert (B2 : forall j, same_body (cell_at cs2 j) (cell_at cs1 j)) by (intros j; rewrite E2; case_decide; [by subst j|done]).
  assert (T2 : forall j, m_tail (cell_at cs2 j) = if decide (j = Z.to_nat x) then Z.of_nat i else m_tail (cell_at cs j)).
  { intros j. rewrite E2. case_decide; [done|apply T1]. }
  assert (Hi : (L ++ [(p, ids)]) !! i = Some (p, ids)) by (by apply list_lookup_middle).
  split.
  - unfold cs2. by rewrite length_insert.
  - intros k q us [[Hne Hk]|[Ek Eq]]%lookup_snoc_Some; destruct (B2 k) as (-> & _ & ->); rewrite E1.
    + rewrite decide_False by (unfold i; lia). apply Hc. by apply lookup_app_l_Some.
    + injection Eq as <- <-. subst k. rewrite decide_True by done. destruct (Hc i p ids Hi) as [Ep Es].
      split; [done|]. cbn. rewrite Es. set_solver.
  - intros j Hj. destruct (B2 j) as (-> & _ & ->). rewrite length_app in Hj. cbn in Hj.
    rewrite E1, decide_False by (unfold i; lia). apply Hf. rewrite length_app. cbn. lia.
  - intros j. destruct (B2 j) as (_ & -> & _). rewrite E1. case_decide; [by subst j; apply Hs|done].
  - intros k q us y Hk Hy. rewrite T2.
    assert (Hor : (exists us', (L ++ [(p, ids)]) !! k = Some (q, us') /\ y ∈ us') \/ k = i /\ y = x).
    { apply lookup_snoc_Some in Hk as [[Hne Hk]|[-> Eq]].
      - left. exists us. split; [|done]. by apply lookup_app_l_Some.
      - injection Eq as <- <-. apply elem_of_app in Hy as [Hy|Hy%list_elem_of_singleton]; [left; by exists ids|by right]. }
    destruct Hor as [(us' & Hk' & Hy')|[-> ->]]; [|rewrite decide_True by done; lia].
    destruct (Ht k q us' y Hk' Hy') as [H0 E]. split; [done|]. rewrite decide_False; [done|]. intros Ey.
    apply Hni. replace x with y by lia. eapply elem_concat_at; [|exact Hy']. by rewrite list_lookup_fmap, Hk'.
  - intros j Hj. rewrite T2. rewrite fmap_app, concat_app in Hj. cbn in Hj. rewrite app_nil_r in Hj. rewrite decide_False.
    + apply Hn. rewrite fmap_app, concat_app. cbn. rewrite app_nil_r. set_solver.
    + intros ->. apply Hj. rewrite Z2Nat.id by lia. set_solver.
Qed.

(** What can be loaded: disjoint sets of valid ids, that fit the memory. *)
Record loadable L : Prop := {
  la_pos : forall p ids, (p, ids) ∈ L -> 0 <= p < INT32_MAX /\ ids <> [];
  la_nd : NoDup (concat (L.*2));
  la_ids : forall x, x ∈ concat (L.*2) -> 0 <= x < Z.of_nat size;
  la_len : (length L <= size)%nat /\ Z.of_nat size <= INT32_MAX
}.

Lemma loaded_nil cs : length cs = size -> (forall i, m_pos (cell_at cs i) = -1 /\ m_tail (cell_at cs i) = -1 /\
  m_src (cell_at cs i) = -1 /\ m_seq (cell_at cs i) = ∅) -> loaded [] cs.
Proof.
  intros L0 H. split; [done| | | | |].
  - intros k p ids Hk. by rewrite lookup_nil in Hk.
  - intros i _. destruct (H i) as (? & _ & _ & ?). done.
  - intros i. apply H.
  - intros k p ids y Hk. by rewrite lookup_nil in Hk.
  - intros i _. apply H.
Qed.

Lemma rec_read_id_ok L p ids x cs rest k j : loaded (L ++ [(p, ids)]) cs -> (length L < size)%nat ->
  Z.of_nat size <= INT32_MAX -> 0 <= x < Z.of_nat size -> x ∉ concat ((L ++ [(p, ids)]).*2) ->
  exists cs', rec_read_id (length L) (cs, mk_rbuf (bytes_i32 x ++ rest) k) j =
      Ok (inl (cs', mk_rbuf rest (k + length (bytes_i32 x)))) /\ loaded (L ++ [(p, ids ++ [x])]) cs'.
Proof.
  intros Ld Hlt Hmax Hx Hni. unfold rec_read_id. unfold INT32_MAX in Hmax.
  rewrite (reads_i32 x) by (unfold INT32_MIN, INT32_MAX; lia). rewrite bind_ok. cbn [fst snd].
  replace (x <? 0) with false by lia.
  destruct (loaded_id L cs p ids x Ld Hlt Hx Hni) as (cs1 & c & cs2 & -> & E2 & E3 & E4 & Ld2).
  rewrite bind_ok, E2, bind_ok, E3. cbn [Z.eqb Pos.eqb negb]. rewrite E4, !bind_ok. by exists cs2.
Qed.

Lemma rec_read_ids_ok L p ids2 : forall ids1 cs rest k js, loaded (L ++ [(p, ids1)]) cs -> (length L < size)%nat ->
  Z.of_nat size <= INT32_MAX -> length js = length ids2 ->
  NoDup (concat ((L ++ [(p, ids1 ++ ids2)]).*2)) -> (forall x, x ∈ ids2 -> 0 <= x < Z.of_nat size) ->
  exists cs', foldB (rec_read_id (length L)) (cs, mk_rbuf (concat (map bytes_i32 ids2) ++ rest) k) js =
      Ok (inl (cs', mk_rbuf rest (k + length (concat (map bytes_i32 ids2))))) /\ loaded (L ++ [(p, ids1 ++ ids2)]) cs'.
Proof.
  induction ids2 as [|x ids2 IH]; intros ids1 cs rest k js Ld Hlt Hmax Hj Hnd Hr.
  { destruct js; [|done]. exists cs. rewrite app_nil_r in *. cbn. by rewrite Nat.add_0_r. }
  destruct js as [|j js]; [done|]. injection Hj as Hj. cbn [map concat]. rewrite <- app_assoc.
  assert (Hni : x ∉ concat ((L ++ [(p, ids1)]).*2)).
  { rewrite fmap_app, concat_app in *. cbn in *. rewrite app_nil_r in *.
    apply list.NoDup_app in Hnd as (_ & H1 & H2). apply list.NoDup_app in H2 as (_ & H2 & _).
    intros [Hin|Hin]%elem_of_app; [by apply (H1 x Hin); set_solver|by apply (H2 x Hin); left]. }
  destruct (rec_read_id_ok L p ids1 x cs (concat (map bytes_i32 ids2) ++ rest) k j Ld Hlt Hmax (Hr x ltac:(left)) Hni) as (cs2 & E & Ld2).
  destruct (IH (ids1 ++ [x]) cs2 rest (k + length (bytes_i32 x))%nat js Ld2 Hlt Hmax Hj) as (cs' & E' & Ld').
  - by rewrite <- app_assoc.
  - intros y Hy. apply Hr. by right.
  - rewrite <- app_assoc in Ld'. exists cs'. split; [|done].
    cbn [foldB]. rewrite E, bind_ok, E', length_app, Nat.add_assoc. done.
Qed.

Lemma loadable_cell L1 p ids L2 : loadable (L1 ++ (p, ids) :: L2) ->
  0 <= p < INT32_MAX /\ NoDup (concat ((L1 ++ [(p, ids)]).*2)) /\ (forall x, x ∈ ids -> 0 <= x < Z.of_nat size) /\
  (length ids <= size)%nat /\ (length L1 < size)%nat /\ Z.of_nat size <= INT32_MAX.
Proof.
  intros La. destruct (la_pos _ La p ids) as [Hp _]; [set_solver|]. destruct (la_len _ La) as [Hlen Hmax].
  rewrite length_app in Hlen. cbn in Hlen. split; [done|].
  assert (Hnd : NoDup (concat ((L1 ++ [(p, ids)]).*2))).
  { pose proof (la_nd _ La) as H. replace (L1 ++ (p, ids) :: L2) with ((L1 ++ [(p, ids)]) ++ L2) in H by (by rewrite <- app_assoc).
    rewrite fmap_app, concat_app in H. by apply list.NoDup_app in H as [H _]. }
  assert (Hids : forall x, x ∈ ids -> 0 <= x < Z.of_nat size).
  { intros x Hx. apply (la_ids _ La). rewrite fmap_app, concat_app. cbn. set_solver. }
  split; [done|]. split; [done|]. split; [|split; [lia|done]]. apply (ids_length ids size); [|exact Hids].
  rewrite fmap_app, concat_app in Hnd. cbn in Hnd. rewrite app_nil_r in Hnd. by apply list.NoDup_app in Hnd as (_ & _ & ?).
Qed.

Lemma rec_read_cell_ok L1 p ids L2 cs rest k : loadable (L1 ++ (p, ids) :: L2) -> loaded L1 cs ->
  exists cs', rec_read_cell (cs, mk_rbuf (cell_bytes p ids ++ rest) k) (length L1) =
    Ok (inl (cs', mk_rbuf rest (k + length (cell_bytes p ids)))) /\ loaded (L1 ++ [(p, ids)]) cs'.
Proof.
  intros La Ld. destruct (loadable_cell L1 p ids L2 La) as (Hp & Hnd & Hids & Hl & Hlt & Hmax).
  unfold rec_read_cell, cell_bytes. rewrite <- !app_assoc. pose proof Hmax as Hmax'. unfold INT32_MAX in Hmax'.
  rewrite (reads_i32 p) by (unfold INT32_MIN; lia). rewrite bind_ok. cbn [fst snd].
  rewrite (reads_u32 (Z.of_nat (length ids))), bind_ok by lia. cbn [fst snd]. rewrite Nat2Z.id.
  rewrite upd_at, bind_ok by (rewrite (ld_len _ _ Ld); lia).
  destruct (rec_read_ids_ok L1 p ids [] _ rest
    (k + length (bytes_i32 p) + length (le_bytes 4 (Z.of_nat (length ids))))%nat (seq 0 (length ids))
    (loaded_cell L1 cs p Ld Hlt) Hlt Hmax (length_seq _ _) Hnd Hids) as (cs1 & E & Ld1).
  exists cs1. split; [|exact Ld1]. rewrite E, !length_app, !Nat.add_assoc. done.
Qed.

Lemma rec_read_cells_ok L2 : forall L1 cs rest k, loadable (L1 ++ L2) -> loaded L1 cs ->
  exists cs', foldB rec_read_cell (cs, mk_rbuf (concat (map (fun e => cell_bytes e.1 e.2) L2) ++ rest) k)
        (seq (length L1) (length L2)) =
      Ok (inl (cs', mk_rbuf rest (k + length (concat (map (fun e => cell_bytes e.1 e.2) L2))))) /\ loaded (L1 ++ L2) cs'.
Proof.
  induction L2 as [|[p ids] L2 IH]; intros L1 cs rest k La Ld.
  { exists cs. rewrite app_nil_r. cbn. by rewrite Nat.add_0_r. }
  cbn [map concat length seq fst snd]. rewrite <- app_assoc.
  destruct (rec_read_cell_ok L1 p ids L2 cs (concat (map (fun e => cell_bytes e.1 e.2) L2) ++ rest) k La Ld) as (cs1 & E & Ld1).
  destruct (IH (L1 ++ [(p, ids)]) cs1 rest (k + length (cell_bytes p ids))%nat) as (cs' & E' & Ld'); [by rewrite <- app_assoc|done|].
  rewrite length_app, Nat.add_1_r in E'. rewrite <- app_assoc in Ld'. exists cs'. split; [|exact Ld'].
  cbn [foldB]. rewrite E, bind_ok, E', length_app, Nat.add_assoc. done.
Qed.
End loaded.

(** ** The memory after a whole restore *)

Lemma countb_prefix {A} (P : A -> bool) l : forall n, (n <= length l)%nat ->
  (forall i c, l !! i = Some c -> P c = bool_decide (i < n)%nat) -> countb P l = n.
Proof.
  induction l as [|c l IH]; intros n Hn H; [simpl in Hn; unfold countb; simpl; lia|].
  pose proof (H 0%nat c eq_refl) as H0. unfold countb in *. cbn [sum_list_with]. rewrite H0. destruct n as [|n].
  - rewrite bool_decide_eq_false_2 by lia. cbn. apply (IH 0%nat); [lia|]. intros i d Hi. rewrite (H (S i) d Hi).
    by rewrite !bool_decide_eq_false_2 by lia.
  - rewrite bool_decide_eq_true_2 by lia. cbn. f_equal. apply IH; [simpl in Hn; lia|]. intros i d Hi. rewrite (H (S i) d Hi).
    apply bool_decide_ext. lia.
Qed.

Section restored.
Context (size : nat) (L : list (Z * list Z)) (cs cs' : list mem_cell).
Context (La : loadable size L) (Ld : loaded size L cs).
Context (Ch : changed (fun i => set_src (Z.of_nat i)) cs (length L) cs').

Lemma restored_cell i : m_pos (cell_at cs' i) = m_pos (cell_at cs i) /\ m_seq (cell_at cs' i) = m_seq (cell_at cs i) /\
  m_tail (cell_at cs' i) = m_tail (cell_at cs i) /\
  m_src (cell_at cs' i) = if decide (i < length L)%nat then Z.of_nat i else -1.
Proof. destruct Ch as [_ H]. rewrite H. case_decide; [done|]. repeat split. apply (ld_src _ _ _ Ld). Qed.

Lemma in_entry y : y ∈ concat (L.*2) -> exists k p ids, L !! k = Some (p, ids) /\ y ∈ ids.
Proof.
  intros (ids & Hl & Hy)%list_elem_of_In%in_concat. apply list_elem_of_In in Hl, Hy.
  apply list_elem_of_fmap in Hl as ([p ids'] & -> & Hl). apply list_elem_of_lookup in Hl as [k Hk]. by exists k, p, ids'.
Qed.

Lemma restored_seq_empty i : m_seq (cell_at cs' i) = ∅ <-> (length L <= i)%nat.
Proof.
  destruct (restored_cell i) as (_ & -> & _). split; [|intros H; by apply (ld_free _ _ _ Ld)].
  intros E. apply Nat.le_ngt. intros Hi. destruct (lookup_lt_is_Some_2 L i Hi) as [[p ids] Hk].
  destruct (ld_cell _ _ _ Ld i p ids Hk) as [_ E']. rewrite E in E'.
  destruct (la_pos _ _ La p ids) as [_ Hne]; [by eapply list_elem_of_lookup_2|]. destruct ids as [|z ids]; [done|]. set_solver.
Qed.

Lemma restored_ok : cells_ok cs' /\ count_used cs' = length L.
Proof.
  assert (Ht : forall i, Z.of_nat i ∈ concat (L.*2) -> exists k p ids, L !! k = Some (p, ids) /\ Z.of_nat i ∈ ids /\
    m_tail (cell_at cs' i) = Z.of_nat k).
  { intros i (k & p & ids & Hk & Hi)%in_entry. exists k, p, ids. split; [done|]. split; [done|].
    destruct (restored_cell i) as (_ & _ & -> & _). destruct (ld_tail _ _ _ Ld k p ids _ Hk Hi) as [_ E]. by rewrite Nat2Z.id in E. }
  assert (Hn : forall i, Z.of_nat i ∉ concat (L.*2) -> m_tail (cell_at cs' i) = -1).
  { intros i Hi. destruct (restored_cell i) as (_ & _ & -> & _). by apply (ld_none _ _ _ Ld). }
  split; [split|].
  - intros k. destruct (decide (Z.of_nat k ∈ concat (L.*2))) as [H|H]; [|by rewrite Hn].
    destruct (Ht k H) as (j & p & ids & _ & _ & ->). lia.
  - intros t x. destruct (restored_cell t) as (_ & -> & _). split.
    + intros Hx. destruct (decide (t < length L)%nat) as [Hi|Hi]; [|destruct (ld_free _ _ _ Ld t ltac:(lia)) as [_ E]; set_solver].
      destruct (lookup_lt_is_Some_2 L t Hi) as [[p ids] Hk]. destruct (ld_cell _ _ _ Ld t p ids Hk) as [_ E]. rewrite E in Hx.
      apply (elem_of_list_to_set (C := gset Z)) in Hx. destruct (restored_cell (Z.to_nat x)) as (_ & _ & -> & _).
      by apply (ld_tail _ _ _ Ld t p ids).
    + intros [H0 E]. destruct (decide (x ∈ concat (L.*2))) as [H|H].
      * destruct (Ht (Z.to_nat x)) as (k & p & ids & Hk & Hi & E2); [by rewrite Z2Nat.id|]. rewrite E2 in E. apply Nat2Z.inj in E as ->.
        destruct (ld_cell _ _ _ Ld t p ids Hk) as [_ ->]. rewrite Z2Nat.id in Hi by done. by apply elem_of_list_to_set.
      * rewrite Hn in E by (by rewrite Z2Nat.id). lia.
  - intros i Hi%restored_seq_empty. destruct (restored_cell i) as (-> & _ & _ & ->). rewrite decide_False by lia.
    destruct (ld_free _ _ _ Ld i Hi) as [-> _]. split; [done|by left].
  - intros i Hi. assert (Hlt : (i < length L)%nat) by (apply Nat.lt_nge; intros H; by apply Hi, restored_seq_empty).
    destruct (restored_cell i) as (-> & _ & _ & ->). rewrite decide_True by done.
    destruct (lookup_lt_is_Some_2 L i Hlt) as [[p ids] Hk]. destruct (ld_cell _ _ _ Ld i p ids Hk) as [-> _].
    split; [|done]. apply (la_pos _ _ La p ids). by eapply list_elem_of_lookup_2.
  - pose proof Ch as [Lc _]. pose proof (ld_len _ _ _ Ld) as Ls. destruct (la_len _ _ La) as [Hl _].
    apply countb_prefix; [lia|]. intros i c Hc.
    assert (Ei : cell_at cs' i = c) by (unfold cell_at; by rewrite Hc). unfold mcell_is_empty. rewrite <- Ei.
    destruct (decide (i < length L)%nat) as [H|H].
    + rewrite (bool_decide_eq_true_2 (i < _)%nat) by done. rewrite bool_decide_eq_false_2; [done|]. rewrite restored_seq_empty. lia.
    + rewrite (bool_decide_eq_false_2 (i < _)%nat) by done. rewrite bool_decide_eq_true_2; [done|]. rewrite restored_seq_empty. lia.
Qed.

Lemma restored_at {D} (rows : list D) k p ids y : L !! k = Some (p, ids) -> y ∈ ids ->
  seq_state rows cs' y = Some (p, list_to_set ids, rows !! k).
Proof.
  intros Hk Hy. destruct (ld_tail _ _ _ Ld k p ids y Hk Hy) as [H0 E]. unfold seq_state.
  destruct (restored_cell (Z.to_nat y)) as (_ & _ & -> & _). rewrite E, Nat2Z.id, !(proj2 (Z.leb_le 0 _)) by lia. cbn [andb].
  destruct (restored_cell k) as (-> & -> & _). by destruct (ld_cell _ _ _ Ld k p ids Hk) as [-> ->].
Qed.

Lemma restored_none {D} (rows : list D) y : y ∉ concat (L.*2) -> seq_state rows cs' y = None.
Proof.
  intros Hy. unfold seq_state. destruct (Z.leb_spec 0 y) as [H0|H0]; [|done]. cbn [andb].
  destruct (restored_cell (Z.to_nat y)) as (_ & _ & -> & _). rewrite (ld_none _ _ _ Ld); [done|]. by rewrite Z2Nat.id.
Qed.
End restored.

Lemma keep_src_ok m count : (rm_head m + count <= length (rm_cells m))%nat ->
  runs (keep_src m count) (fun m' => exists cs', m' = with_state (rm_head m) (rm_used m) cs' m /\
    length cs' = length (rm_cells m) /\ forall j, cell_at cs' j =
      if decide (rm_head m <= j < rm_head m + count)%nat then set_src (Z.of_nat j) (cell_at (rm_cells m) j) else cell_at (rm_cells m) j).
Proof.
  intros H. unfold keep_src. apply runs_bind. eapply runs_mono.
  { apply (runs_for (fun i cs' => length cs' = length (rm_cells m) /\ forall j, cell_at cs' j =
      if decide (rm_head m <= j < rm_head m + i)%nat then set_src (Z.of_nat j) (cell_at (rm_cells m) j) else cell_at (rm_cells m) j)).
    - split; [done|]. intros j. by rewrite decide_False by lia.
    - intros i cs' Hi [L Hc]. rewrite upd_at by lia. apply runs_ok. split; [by rewrite length_insert|]. intros j.
      rewrite cell_at_insert by lia. destruct (decide (j = rm_head m + i)%nat) as [->|Hne].
      + rewrite Hc, decide_False, decide_True by lia. done.
      + rewrite Hc. destruct (decide (rm_head m <= j < rm_head m + i)%nat), (decide (rm_head m <= j < rm_head m + (i + 1))%nat); done || lia. }
  intros cs' [L Hc]. apply runs_ok. by exists cs'.
Qed.

(** The machine of the restored sequences, layer by layer: [F] gives it from the machines of
    the saved memory and of the target. *)
Definition rows_of (n size : nat) (t : rs_tensor) : list (list Z) := map (row n (t_data t)) (seq 0 size).

Lemma rows_of_at n size t i : (i < size)%nat -> rows_of n size t !! i = Some (row n (t_data t) i).
Proof. intros Hi. unfold rows_of. change (map ?f ?l) with (f <$> l). by rewrite list_lookup_fmap, lookup_seq_lt. Qed.

Section restores.
Context (grs : Z -> Z -> Z).
Abbreviation machine := (Z -> option (Z * gset Z * option (list Z))).
Context (F : machine -> machine -> machine).

Definition layer_restored (ne : Z) (m0 m m' : llama_memory_recurrent) (o0 o o' : option rs_tensor) : Prop :=
  match o0, o, o' with
  | Some t0, Some t, Some t' =>
      let n := Z.to_nat (grs (t_type t0) ne) in
      t_type t' = t_type t0 /\ forall y, seq_state (rows_of n (rm_size m') t') (rm_cells m') y =
        F (seq_state (rows_of n (rm_size m0) t0) (rm_cells m0)) (seq_state (rows_of n (rm_size m) t) (rm_cells m)) y
  | None, None, None => True
  | _, _, _ => False
  end.

Definition restores (m0 m m' : llama_memory_recurrent) : Prop :=
  (forall y, seq_state [] (rm_cells m') y = F (seq_state [] (rm_cells m0)) (seq_state [] (rm_cells m)) y) /\
  Forall3 (layer_restored (n_embd_r (rm_hparams m0)) m0 m m') (rm_r_l m0) (rm_r_l m) (rm_r_l m') /\
  Forall3 (layer_restored (n_embd_s (rm_hparams m0)) m0 m m') (rm_s_l m0) (rm_s_l m) (rm_s_l m').
End restores.

Lemma Forall3_mono {A B C} (P Q : A -> B -> C -> Prop) l1 l2 l3 :
  (forall a b c, P a b c -> Q a b c) -> Forall3 P l1 l2 l3 -> Forall3 Q l1 l2 l3.
Proof. intros H. induction 1; constructor; auto. Qed.

(** ** The whole memory *)

Section whole.
Context (grs : Z -> Z -> Z) (Hrs : forall ty ne, 0 <= grs ty ne < 18446744073709551616).
Context (m0 m : llama_memory_recurrent) (I0 : rec_inv m0) (I : rec_inv m).
Context (Lk : like m0 m) (Fit0 : mem_fits grs m0) (Fit : mem_fits grs m).
Abbreviation c0 := (rm_cells m0).
Abbreviation js := (saved_list m0 (-1)).
(** The occupied cells and their sequences fit the target. *)
Context (Hlen : (length js <= rm_size m)%nat) (Hids : forall i y, y ∈ m_seq (cell_at c0 i) -> y < Z.of_nat (rm_size m)).

Definition entry (i : nat) : Z * list Z := (m_pos (cell_at c0 i), sorted_ids (m_seq (cell_at c0 i))).
Definition entries : list (Z * list Z) := entry <$> js.

Lemma js_spec i : i ∈ js <-> (i < rm_size m0)%nat /\ m_seq (cell_at c0 i) <> ∅.
Proof.
  split; [intros H; split; [by apply (saved_list_lt m0 (-1))|by apply (saved_busy m0 I0 (-1))]|].
  intros [Hi Hb]. unfold saved_list. apply list_elem_of_filter. split; [|apply elem_of_seq; lia].
  unfold saved_at, mcell_is_empty. by rewrite bool_decide_eq_false_2.
Qed.

Lemma entries_meta : meta_fmt m0 (-1) js = concat (map (fun e => cell_bytes e.1 e.2) entries).
Proof. unfold meta_fmt, entries. change (entry <$> js) with (map entry js). by rewrite map_map. Qed.

Lemma entries_at k p ids : entries !! k = Some (p, ids) -> exists i, js !! k = Some i /\ p = m_pos (cell_at c0 i) /\
  ids = sorted_ids (m_seq (cell_at c0 i)) /\ i ∈ js.
Proof.
  unfold entries. intros (i & [= -> ->] & Hi)%list_lookup_fmap_Some. exists i. repeat split; [done|]. by eapply list_elem_of_lookup_2.
Qed.

Lemma entries_id y : y ∈ concat (entries.*2) <-> exists k i, js !! k = Some i /\ y ∈ m_seq (cell_at c0 i).
Proof.
  split.
  - intros (k & p & ids & Hk & Hy)%in_entry. apply entries_at in Hk as (i & Hi & _ & -> & _). exists k, i.
    split; [done|]. by apply sorted_ids_elem.
  - intros (k & i & Hk & Hy). apply (elem_concat_at _ k (sorted_ids (m_seq (cell_at c0 i)))); [|by apply sorted_ids_elem].
    unfold entries. by rewrite !list_lookup_fmap, Hk.
Qed.

Lemma entries_loadable : loadable (rm_size m) entries.
Proof.
  pose proof (ri_cells m0 I0) as C. split.
  - intros p ids [k Hk]%list_elem_of_lookup. apply entries_at in Hk as (i & _ & -> & -> & [_ Hb]%js_spec).
    split; [by apply (co_busy c0 C)|]. intros E. apply Hb. rewrite <- (sorted_ids_set (m_seq _)), E. done.
  - apply nodup_disjoint.
    + intros s l Hl. unfold entries in Hl. rewrite !list_lookup_fmap in Hl. destruct (js !! s); [|done].
      injection Hl as <-. apply sorted_ids_nodup.
    + intros s s' l l' x Hl Hl' Hx Hx'. unfold entries in Hl, Hl'. rewrite !list_lookup_fmap in Hl, Hl'.
      destruct (js !! s) as [i|] eqn:Ei; [|done]. destruct (js !! s') as [i'|] eqn:Ei'; [|done].
      injection Hl as <-. injection Hl' as <-. cbn in Hx, Hx'. rewrite sorted_ids_elem in Hx, Hx'.
      apply (co_seq c0 C) in Hx as [_ Ex], Hx' as [_ Ex']. rewrite Ex in Ex'. apply Nat2Z.inj in Ex' as <-.
      eapply NoDup_lookup; [|exact Ei|exact Ei']. unfold saved_list. apply NoDup_filter, NoDup_seq.
  - intros x (k & i & _ & Hx)%entries_id. specialize (Hids i x Hx). apply (co_seq c0 C) in Hx. lia.
  - unfold entries. rewrite length_fmap. split; [done|apply (ri_max m I)].
Qed.

(** The restored machine is the saved one. *)
Lemma whole_state {D} (rows0 rows : list D) cs cs' y : loaded (rm_size m) entries cs ->
  changed (fun i => set_src (Z.of_nat i)) cs (length entries) cs' ->
  (forall k i, js !! k = Some i -> rows !! k = rows0 !! i) ->
  seq_state rows cs' y = seq_state rows0 c0 y.
Proof.
  intros Ld Ch Hr. pose proof (ri_cells m0 I0) as C.
  destruct (decide (y ∈ concat (entries.*2))) as [Hy|Hy].
  - apply entries_id in Hy as (k & i & Hk & Hy).
    assert (Hek : entries !! k = Some (entry i)) by (unfold entries; by rewrite list_lookup_fmap, Hk).
    rewrite (restored_at _ _ _ _ Ld Ch rows k _ _ y Hek) by (by apply sorted_ids_elem). rewrite sorted_ids_set, (Hr k i Hk).
    pose proof Hy as [H0 Et]%(co_seq c0 C). unfold seq_state. rewrite Et, Nat2Z.id, !(proj2 (Z.leb_le 0 _)) by lia. done.
  - rewrite (restored_none _ _ _ _ Ld Ch rows y Hy). unfold seq_state.
    destruct ((0 <=? y) && (0 <=? m_tail (zat c0 y))) eqn:E; [exfalso|done]. apply Hy, entries_id.
    destruct (tail_some c0 C y) as (_ & Hlt & Hin); [lia|lia|]. set (i := Z.to_nat (m_tail (zat c0 y))) in *.
    assert (Hi : i ∈ js) by (apply js_spec; split; [unfold i; rewrite <- (ri_len m0 I0); lia|set_solver]).
    apply list_elem_of_lookup in Hi as [k Hk]. by exists k, i.
Qed.

Lemma zero_fit nl ne size ts : rs_fit grs nl ne size ts -> rs_fit grs nl ne size (zero_tensor <$> ts).
Proof.
  intros [L F]. split; [by rewrite length_fmap|]. intros il t Hil. apply list_lookup_fmap_Some in Hil as (o & E & Ho).
  destruct o as [t0|]; [|done]. injection E as ->. cbn. rewrite length_map. by apply F with (il := il).
Qed.

Lemma zero_like ts0 ts : Forall2 rs_like ts0 ts -> Forall2 rs_like ts0 (zero_tensor <$> ts).
Proof. induction 1 as [|o0 o l1 l2 H]; constructor; [|done]. by destruct o0, o. Qed.

Lemma back_restored ne size ts0 ts ts' cs cs' m' : rs_fit grs (length ts0) ne size ts0 ->
  loaded (rm_size m) entries cs -> changed (fun i => set_src (Z.of_nat i)) cs (length entries) cs' ->
  rm_cells m' = cs' -> rm_size m' = rm_size m ->
  Forall2 rs_like ts0 ts -> Forall3 (rs_back grs ne 0 js) ts0 (zero_tensor <$> ts) ts' ->
  Forall3 (layer_restored grs (fun v0 _ => v0) ne m0 m m') ts0 ts ts'.
Proof.
  intros _ Ld Ch Ec Es Lt. revert ts'. induction Lt as [|o0 o ts0 ts Lo Lt IH]; intros ts' B.
  - inversion B; subst. constructor.
  - cbn in B. inversion B as [|? ? o' ? ? ts2 Bo Bs]; subst. constructor; [|by apply IH].
    destruct o0 as [t0|], o as [t|], o' as [t'|]; try done. destruct Bo as (Ety & _ & Hr & _). split; [done|]. intros y.
    apply (whole_state _ _ cs); [done|done|]. intros k i Hk.
    assert (Hki : (k < rm_size m)%nat) by (apply lookup_lt_Some in Hk; lia).
    assert (Hi : i ∈ js) by (by eapply list_elem_of_lookup_2). apply js_spec in Hi as [Hi _].
    rewrite !rows_of_at by (rewrite ?Es; lia). f_equal. by apply (Hr k i).
Qed.

Lemma rec_read_whole rest k :
  exists m', rec_state_read grs m (-1) (mk_rbuf (rec_fmt grs m0 (-1) ++ rest) k) =
      Ok (inl (m', mk_rbuf rest (k + length (rec_fmt grs m0 (-1))))) /\
    rec_inv m' /\ rm_size m' = rm_size m /\ restores grs (fun v0 _ => v0) m0 m m'.
Proof.
  pose proof entries_loadable as La. pose proof (ri_max m I) as Hmax. unfold INT32_MAX in Hmax.
  assert (Le : length entries = length js) by (unfold entries; by rewrite length_fmap).
  unfold rec_state_read, rec_fmt. cbv zeta. rewrite <- !app_assoc.
  rewrite (reads_u32 (Z.of_nat (length js))), bind_ok by lia. cbn [fst snd]. rewrite Nat2Z.id.
  unfold rec_read_meta. cbn [Z.eqb Pos.eqb negb]. unfold rec_read_meta_whole.
  destruct (Nat.ltb_spec (rm_size m) (length js)) as [H|_]; [lia|].
  destruct (runs_inv _ _ (rec_clear_ok (@nil unit) m I true)) as (m1 & -> & (I1 & [Es1 _] & _) & Em1 & Hfree). rewrite bind_ok.
  pose proof (ri_len m1 I1) as L1. rewrite Es1 in L1. rewrite entries_meta.
  destruct (rec_read_cells_ok (rm_size m) entries [] (rm_cells m1) (rec_data_fmt grs m0 js ++ rest)
    (k + length (le_bytes 4 (Z.of_nat (length js))))%nat La (loaded_nil _ _ L1 Hfree)) as (cs & E & Ld).
  cbn [length app] in E, Ld. rewrite Le in E. rewrite E, bind_ok. clear E.
  assert (Lcs := ld_len _ _ _ Ld).
  destruct (runs_inv _ _ (keep_src_ok (with_state 0 (Z.of_nat (length js)) cs m1) (length js)
    ltac:(cbn; lia))) as (m2 & -> & cs' & -> & L' & Hc). cbn [rm_cells rm_head rm_used with_state] in *. rewrite !bind_ok. cbv beta iota.
  assert (Ch : changed (fun i => set_src (Z.of_nat i)) cs (length entries) cs').
  { split; [done|]. intros j. rewrite Hc, Le. destruct (decide (j < length js)%nat); [by rewrite decide_True by lia|by rewrite decide_False by lia]. }
  set (m2 := with_state _ _ cs' _).
  assert (Lk2 : like m0 m2).
  { destruct Lk as [Eh Lr Ls]. split; [by unfold m2; rewrite Em1|..]; unfold m2; rewrite Em1; cbn; by apply zero_like. }
  assert (Fit2 : mem_fits grs m2).
  { destruct Fit as [Fr Fs Fn]. split; unfold m2; rewrite Em1; cbn; [by apply zero_fit..|done]. }
  destruct (rec_read_data_ok grs Hrs m0 m2 js rest
    (k + length (le_bytes 4 (Z.of_nat (length js))) + length (concat (map (fun e => cell_bytes e.1 e.2) entries)))%nat
    Lk2 Fit0 Fit2) as (rs & ss & -> & Br & Bs).
  { intros i Hi. by apply js_spec in Hi as [? _]. }
  { unfold m2. cbn. rewrite Es1. lia. }
  rewrite bind_ok. cbv beta iota. exists (with_tensors rs ss m2). split; [by rewrite !length_app, !Nat.add_assoc|].
  destruct (restored_ok _ _ _ _ La Ld Ch) as [C' N'].
  split; [unfold m2; split; cbn [rm_cells rm_size rm_head rm_used with_tensors with_state]; [by rewrite L', Lcs, Es1|unfold INT32_MAX; lia|lia|by rewrite N', Le|done]|].
  split; [cbn; by rewrite Es1|]. destruct Fit0 as [F0r F0s _], Lk as [_ Lr Ls].
  split; [|split].
  - intros y. by apply (whole_state [] [] cs).
  - eapply (back_restored _ _ _ _ _ cs cs'); [by rewrite (proj1 F0r)|done|done|done|cbn; by rewrite Es1|done|].
    revert Br. unfold m2. rewrite Em1. done.
  - eapply (back_restored _ _ _ _ _ cs cs'); [by rewrite (proj1 F0s)|done|done|done|cbn; by rewrite Es1|done|].
    revert Bs. unfold m2. rewrite Em1. done.
Qed.
End whole.

(** ** One sequence *)

(** The sequence [x] of the saved memory becomes the sequence [dest] of the target, alone in
    its cell; an old [dest] is gone. *)
Definition restored_seq {D} (x dest : Z) (v0 v : Z -> option (Z * gset Z * option D)) : Z -> option (Z * gset Z * option D) :=
  fun y => if decide (y = dest) then (fun '(p, _, d) => (p, {[dest]}, d)) <$> v0 x else r_release dest v y.

Section ubatch.
Context (hp : llama_hparams) (dest p : Z).

(** The micro-batch of the restore. *)
Definition single_of (b : llama_ubatch) : llama_ubatch :=
  mk_ubatch (b_equal_seqs b) (ub_n_tokens b) (ub_n_seq_tokens b) (ub_n_seqs b) (ub_n_seqs_unq b)
    (ub_n_pos b) (ub_token b) (ub_embd b) [p] [1] [[dest]] (ub_seq_id_unq b) (ub_seq_idx b) (ub_output b).

Lemma single_reserve : exists b, ubatch_reserve (llama_batch_allocr_new (Z.to_nat (n_pos_per_embd hp))) 1 1 = Ok b /\
  ub_pos b.2 = [0] /\ single_ubatch b.2 [p] dest = Ok (single_of b.2) /\
  forall size, 0 <= dest < Z.of_nat size -> 0 <= p < INT32_MAX -> rec_ubatch size (single_of b.2) [[dest]] [p].
Proof.
  eexists. split; [vm_compute; reflexivity|]. split; [reflexivity|]. split; [vm_compute; reflexivity|].
  intros size Hd Hp. split; try done.
  - cbn. lia.
  - cbn. unfold INT32_MAX. lia.
  - intros [|s] l Hl; [|done]. injection Hl as <-. exists 1, [dest]. repeat split; cbn; lia || done.
  - intros [|s] q Hq; [|done]. injection Hq as <-. by split.
  - cbn. apply NoDup_singleton.
  - intros y Hy. cbn in Hy. apply list_elem_of_singleton in Hy as ->. done.
Qed.
End ubatch.

Lemma rec_read_single_ok p ids_ rest k : 0 <= p < INT32_MAX ->
  foldB rec_read_single (mk_rbuf (cell_bytes p [] ++ rest) k, [ids_]) (seq 0 1) =
    Ok (inl (mk_rbuf rest (k + length (cell_bytes p [])), [p])).
Proof.
  intros Hp. cbn [seq foldB]. unfold rec_read_single, cell_bytes. cbn [map concat length]. rewrite <- !app_assoc. cbn [app].
  rewrite (reads_i32 p) by (unfold INT32_MIN; lia). rewrite bind_ok. cbn [fst snd].
  rewrite (reads_u32 (Z.of_nat 0)), bind_ok by lia. cbn [fst snd]. change (negb (Z.of_nat 0 =? 0)) with false. cbv iota.
  rewrite wr_ok, bind_ok by (cbn; lia). rewrite bind_ok. by rewrite !length_app, Nat.add_0_r, Nat.add_assoc.
Qed.

(** The memory after [seq_rm] of a whole sequence. *)
Lemma rm_dest {D} (rows : list D) m dest : rec_inv m -> 0 <= dest < Z.of_nat (rm_size m) ->
  runs (rec_seq_rm m dest (-1) (-1)) (fun r => lands rows m r.1 (r_release dest (seq_state rows (rm_cells m)))).
Proof.
  intros I Hd. eapply runs_mono; [apply (rec_seq_rm_ok rows m I dest (-1) (-1)); left; lia|].
  intros [m1 ok] [(I1 & S1 & V1) _]. cbn [fst] in *. split; [done|]. split; [done|]. intros y. rewrite V1. unfold r_rm.
  replace (dest >=? Z.of_nat (rm_size m)) with false by lia. replace (dest <? 0) with false by lia.
  change (range_lo (-1)) with 0. change (range_hi (-1)) with INT32_MAX.
  destruct (seq_state rows (rm_cells m) dest) as [[[p g] d]|] eqn:E.
  - destruct (seq_state_pos rows m I dest p g d E) as (_ & _ & _ & _ & _ & _ & Hp).
    replace ((0 <=? p) && (p <? INT32_MAX)) with true by lia. done.
  - cbn [fst]. symmetry. apply release_absent; [by apply (ri_cells m I)|]. by apply (seq_state_none rows m); [lia|].
Qed.

(** [seq_rm] changes no tensor. *)
Lemma rm_same m x p0 p1 m1 ok : rec_seq_rm m x p0 p1 = Ok (m1, ok) ->
  rm_hparams m1 = rm_hparams m /\ rm_r_l m1 = rm_r_l m /\ rm_s_l m1 = rm_s_l m.
Proof.
  unfold rec_seq_rm. case_match; [by intros [= <- _]|]. intros E.
  destruct (seq_rm_tail _ _ _ _) as [[cs|]|?|?]; cbn in E; try done; [|by injection E as <- _].
  destruct (foldM _ _ _) as [[[cs' u] nh]|?|?]; cbn in E; try done. by injection E as <- _.
Qed.

(** The slot of the sequence after [find_slot], when it had no cell. *)
Lemma dest_slot {D} (rows rows2 : list D) m1 dest p h z c2 y : rec_inv m1 -> 0 <= dest ->
  decoded [[dest]] [p] (rm_cells m1) h 1 z c2 -> (forall i, i <> h -> rows2 !! i = rows !! i) ->
  seq_state rows2 c2 y = if decide (y = dest) then Some (p, {[dest]}, rows2 !! h)
    else (fun '(p, g, d) => (p, g ∖ {[dest]}, d)) <$> seq_state rows (rm_cells m1) y.
Proof.
  intros I Hd De Hr. pose proof (de_ok _ _ _ _ _ _ _ De) as C.
  destruct (de_set _ _ _ _ _ _ _ De 0 [dest] p eq_refl eq_refl) as [Ep Eq]. rewrite Nat.add_0_r in Ep, Eq.
  assert (Es : list_to_set (concat [[dest]]) = ({[dest]} : gset Z)) by (cbn; apply (right_id_L ∅ (∪))).
  assert (Eq' : m_seq (cell_at c2 h) = {[dest]}) by (rewrite Eq; exact Es).
  case_decide as Hy.
  - subst y. assert (Hin : dest ∈ m_seq (cell_at c2 h)) by set_solver. apply (co_seq c2 C) in Hin as [_ Et].
    unfold seq_state. rewrite Et, Nat2Z.id, Ep, Eq', !(proj2 (Z.leb_le 0 _)) by lia. done.
  - unfold seq_state. destruct (Z.leb_spec 0 y) as [H0|H0]; [|done]. cbn [andb].
    assert (Hb : y ∉ concat [[dest]]) by (cbn; by intros ?%list_elem_of_singleton).
    pose proof (de_other _ _ _ _ _ _ _ De y H0 Hb) as H. cbv zeta in H. case_decide as Ht.
    + destruct H as (Ht' & Hn & -> & -> & [[[Hi _]|[_ Ei]] _]); [unfold in_range in Hi; cbn in Hn; lia|].
      rewrite !(proj2 (Z.leb_le 0 _)) by done. cbn [andb fmap option_fmap option_map].
      rewrite Ei, Hr by (cbn in Hn; lia). by rewrite Es.
    + by rewrite !(proj2 (Z.leb_gt 0 _)) by lia.
Qed.

Lemma keep_src_same m1 h n z c2 sets lasts (m2 : llama_memory_recurrent) :
  decoded sets lasts (rm_cells m1) h n z c2 -> rm_cells m2 = c2 -> rm_head m2 = h -> (1 <= n)%nat -> keep_src m2 1 = Ok m2.
Proof.
  intros De Ec Eh Hn. pose proof (de_room _ _ _ _ _ _ _ De) as [Hr _]. pose proof (de_len _ _ _ _ _ _ _ De) as Ll.
  apply runs_inv_eq. eapply runs_mono; [apply keep_src_ok; rewrite Ec, Eh; lia|]. intros m3 (c3 & -> & L3 & H3).
  assert (c3 = rm_cells m2) as ->.
  { apply list_eq. intros i. destruct (Nat.lt_ge_cases i (length (rm_cells m2))) as [Hi|Hi].
    - rewrite (cell_at_eq c3 i), (cell_at_eq (rm_cells m2) i) by lia. f_equal. rewrite H3. case_decide as Hd; [|done].
      assert (Es : m_src (cell_at (rm_cells m2) i) = Z.of_nat i).
      { rewrite Ec. apply (de_src _ _ _ _ _ _ _ De). unfold in_range. lia. }
      destruct (cell_at (rm_cells m2) i) as [q sr s0 tl sq]. cbn in Es. by subst sr.
    - by rewrite !lookup_ge_None_2 by lia. }
  by destruct m2.
Qed.

Section single.
Context (m : llama_memory_recurrent) (I : rec_inv m) (dest : Z) (Hd : 0 <= dest < Z.of_nat (rm_size m)).

(** What the restored metadata leave. *)
Record single_meta (p : Z) (m' : llama_memory_recurrent) : Prop := {
  sm_inv : rec_inv m';
  sm_same : rm_size m' = rm_size m /\ rm_hparams m' = rm_hparams m /\ rm_r_l m' = rm_r_l m /\ rm_s_l m' = rm_s_l m;
  sm_head : (rm_head m' < rm_size m)%nat;
  sm_state : forall {D} (rows rows2 : list D) y, (forall i, i <> rm_head m' -> rows2 !! i = rows !! i) ->
    seq_state rows2 (rm_cells m') y = if decide (y = dest) then Some (p, {[dest]}, rows2 !! rm_head m')
      else r_release dest (seq_state rows (rm_cells m)) y
}.

Lemma rec_read_meta_one p rest k : 0 <= p < INT32_MAX ->
  exists m', rec_read_meta m 1 dest (mk_rbuf (cell_bytes p [] ++ rest) k) =
      Ok ((m', mk_rbuf rest (k + length (cell_bytes p []))), true) /\ single_meta p m'.
Proof.
  intros Hp. unfold rec_read_meta. replace (dest =? -1) with false by lia. cbn [negb]. unfold rec_read_meta_single.
  destruct (runs_inv _ _ (rm_dest (@nil unit) m dest I Hd)) as ([m1 ok] & E1 & (I1 & [S1 _] & V1)). rewrite E1, bind_ok. cbn [fst snd Nat.eqb] in *.
  pose proof (rm_same m dest (-1) (-1) m1 ok E1) as M1.
  destruct (single_reserve (rm_hparams m1) dest p) as (b & -> & Ep & Eu & Hu). rewrite bind_ok, Ep.
  rewrite rec_read_single_ok, bind_ok, Eu, bind_ok by done. cbv beta iota.
  assert (Ht1 : m_tail (zat (rm_cells m1) dest) < 0).
  { apply (seq_state_none (@nil unit) m1); [lia|]. rewrite V1. unfold r_release. by rewrite decide_True. }
  assert (Hroom : room_for m1 (single_of dest p b.2) [[dest]]).
  { intros [|s] l Hl; [|done]. injection Hl as <-. intros t Ht. subst t. cbn in Ht. lia. }
  rewrite <- S1 in Hd. destruct (runs_inv _ _ (rec_find_slot_ok m1 _ [[dest]] [p] I1 (Hu _ Hd Hp) Hroom)) as ([m2 ok2] & -> & E2 & En & I2 & De & Em2).
  cbn [fst snd] in *. subst ok2. specialize (En eq_refl). rewrite En in De. rewrite bind_ok. cbv beta iota. cbn [negb].
  pose proof (de_room _ _ _ _ _ _ _ De) as [Hr _]. pose proof (de_len _ _ _ _ _ _ _ De) as Ll.
  pose proof (ri_len m1 I1) as L1. assert (S2 : rm_size m2 = rm_size m1) by (by rewrite Em2).
  destruct (de_set _ _ _ _ _ _ _ De 0 [dest] p eq_refl eq_refl) as [Epos Eseq]. rewrite Nat.add_0_r in Epos, Eseq.
  assert (Hlt : (rm_head m2 < length (rm_cells m2))%nat) by lia.
  replace (rm_head m2 + 1 <=? rm_size m2)%nat with true by (symmetry; apply Nat.leb_le; lia). cbn [assert_]. rewrite bind_ok.
  rewrite (rd_at _ _ Hlt), bind_ok. cbn [single_of ub_pos rd lookup list_lookup]. rewrite bind_ok, Epos, Z.eqb_refl. cbn [assert_]. rewrite bind_ok.
  rewrite Nat.add_sub, (rd_at _ _ Hlt), bind_ok. cbn [Nat.sub single_of ub_pos rd lookup list_lookup]. rewrite bind_ok, Epos, Z.eqb_refl. cbn [assert_]. rewrite bind_ok.
  unfold has_seq_id. rewrite Eseq, bool_decide_eq_true_2 by (by apply elem_of_list_to_set, list_elem_of_singleton). cbn [assert_]. rewrite !bind_ok.
  rewrite (keep_src_same m1 (rm_head m2) 1 (rm_rs_z m2) (rm_cells m2) [[dest]] [p] m2 De) by done. rewrite bind_ok.
  exists m2. split; [done|]. destruct M1 as (M1 & M2 & M3). split.
  - done.
  - rewrite Em2. cbn. by rewrite S1, M1, M2, M3.
  - lia.
  - intros D rows rows2 y Hrows. rewrite (dest_slot rows rows2 m1 dest p _ _ _ y I1 ltac:(lia) De Hrows).
    destruct (runs_inv _ _ (rm_dest rows m dest I ltac:(lia))) as ([m1' ok'] & E1' & (_ & _ & V1')). rewrite E1 in E1'.
    injection E1' as <- _. cbn [fst] in V1'. case_decide as Hy; [done|]. rewrite V1'. unfold r_release.
    rewrite decide_False by done. destruct (seq_state rows (rm_cells m) y) as [[[q g] d]|]; [|done]. cbn. do 3 f_equal. set_solver.
Qed.

(** A sequence that was saved without a cell: the target loses [dest]. *)
Lemma rec_read_meta_none io : exists m', rec_read_meta m 0 dest io = Ok ((m', io), true) /\ rec_inv m' /\
  (rm_size m' = rm_size m /\ rm_hparams m' = rm_hparams m /\ rm_r_l m' = rm_r_l m /\ rm_s_l m' = rm_s_l m) /\
  forall (D : Type) (rows : list D) y, seq_state rows (rm_cells m') y = r_release dest (seq_state rows (rm_cells m)) y.
Proof.
  unfold rec_read_meta. replace (dest =? -1) with false by lia. cbn [negb]. unfold rec_read_meta_single.
  destruct (runs_inv _ _ (rm_dest (@nil unit) m dest I Hd)) as ([m1 ok] & E1 & (I1 & [S1 _] & _)). rewrite E1, bind_ok. cbn [fst snd Nat.eqb] in *.
  exists m1. split; [done|]. split; [done|]. split; [split; [done|by eapply rm_same]|].
  intros D rows y. destruct (runs_inv _ _ (rm_dest rows m dest I ltac:(lia))) as ([m1' ok'] & E1' & (_ & _ & V1')). rewrite E1 in E1'.
  injection E1' as <- _. apply V1'.
Qed.
End single.

(** The cells that are saved for one sequence. *)
Lemma saved_single m x : rec_inv m -> 0 <= x ->
  saved_list m x = if decide (0 <= m_tail (zat (rm_cells m) x)) then [Z.to_nat (m_tail (zat (rm_cells m) x))] else [].
Proof.
  intros I Hx. pose proof (ri_cells m I) as C. set (t := m_tail (zat (rm_cells m) x)).
  assert (Hin : forall i, i ∈ saved_list m x <-> (i < rm_size m)%nat /\ t = Z.of_nat i).
  { intros i. unfold saved_list. rewrite list_elem_of_filter, elem_of_seq. unfold saved_at, has_seq_id.
    replace (x =? -1) with false by lia. cbn [andb orb]. rewrite bool_decide_eq_true, (co_seq _ C). fold t. lia. }
  assert (Hnd : NoDup (saved_list m x)) by (apply NoDup_filter, NoDup_seq).
  case_decide as Ht.
  - destruct (tail_some _ C x Hx Ht) as (_ & Hlt & _). fold t in Hlt. pose proof (ri_len m I).
    assert (H0 : Z.to_nat t ∈ saved_list m x) by (apply Hin; lia).
    destruct (saved_list m x) as [|a [|b l]]; [by apply not_elem_of_nil in H0|by apply list_elem_of_singleton in H0 as ->|].
    exfalso. destruct (proj1 (Hin a) ltac:(left)) as [_ Ea], (proj1 (Hin b) ltac:(right; left)) as [_ Eb].
    apply list.NoDup_cons in Hnd as [Hna _]. apply Hna. assert (a = b) as -> by lia. by left.
  - destruct (saved_list m x) as [|a l]; [done|]. destruct (proj1 (Hin a) ltac:(left)). lia.
Qed.

Section one.
Context (grs : Z -> Z -> Z) (Hrs : forall ty ne, 0 <= grs ty ne < 18446744073709551616).
Context (m0 m : llama_memory_recurrent) (I0 : rec_inv m0) (I : rec_inv m) (x dest : Z).
Context (Lk : like m0 m) (Fit0 : mem_fits grs m0) (Fit : mem_fits grs m).
Context (Hx : 0 <= x) (Hd : 0 <= dest < Z.of_nat (rm_size m)).
Abbreviation js := (saved_list m0 x).
Abbreviation back v0 v := (restored_seq x dest v0 v).

(** The tensors after the restore, for what the metadata left in [m1]. *)
Lemma single_layers ne head ts0 ts ts' m' :
  rm_size m' = rm_size m -> Forall2 rs_like ts0 ts -> Forall3 (rs_back grs ne head js) ts0 ts ts' ->
  (head + length js <= rm_size m)%nat ->
  (forall (rows0 rows rows2 : list (list Z)), (forall i, (i < head \/ head + length js <= i)%nat -> rows2 !! i = rows !! i) ->
     (forall k i, js !! k = Some i -> rows2 !! (head + k)%nat = rows0 !! i) ->
     forall y, seq_state rows2 (rm_cells m') y = back (seq_state rows0 (rm_cells m0)) (seq_state rows (rm_cells m)) y) ->
  Forall3 (layer_restored grs (restored_seq x dest) ne m0 m m') ts0 ts ts'.
Proof.
  intros Es Lt B Hh Hst. revert Lt. induction B as [|o0 o o' ts0 ts ts' Bo _ IH]; intros Lt; constructor.
  2:{ apply IH. by inversion Lt. }
  assert (Lo : rs_like o0 o) by (by inversion Lt).
  destruct o0 as [t0|], o as [t|], o' as [t'|]; try done. cbn in Lo. destruct Bo as (Ety & _ & Hr & Hout). split; [done|]. intros y.
  apply Hst.
  - intros i Hi. rewrite Es. destruct (Nat.lt_ge_cases i (rm_size m)) as [Hlt|Hge].
    + rewrite !rows_of_at by done. f_equal. by apply Hout.
    + rewrite !lookup_ge_None_2; [done|unfold rows_of; rewrite length_map, length_seq; lia..].
  - intros k i Hk. pose proof (lookup_lt_Some _ _ _ Hk) as Hlt.
    assert (Hi : (i < rm_size m0)%nat) by (eapply saved_list_lt; by eapply list_elem_of_lookup_2).
    rewrite !rows_of_at by (rewrite ?Es; lia). f_equal. by apply Hr.
Qed.

(** The metadata of the sequence: its cell, if it has one, is restored in a cell of its own. *)
Record one_meta (l : list nat) (m1 : llama_memory_recurrent) : Prop := {
  om_inv : rec_inv m1;
  om_same : rm_size m1 = rm_size m /\ rm_hparams m1 = rm_hparams m /\ rm_r_l m1 = rm_r_l m /\ rm_s_l m1 = rm_s_l m;
  om_room : (rm_head m1 + length l <= rm_size m)%nat /\ (length l <= 1)%nat;
  om_state : forall (D : Type) (rows0 rows rows2 : list D),
    (forall i, (i < rm_head m1 \/ rm_head m1 + length l <= i)%nat -> rows2 !! i = rows !! i) ->
    (forall k i, l !! k = Some i -> rows2 !! (rm_head m1 + k)%nat = rows0 !! i) ->
    forall y, seq_state rows2 (rm_cells m1) y = back (seq_state rows0 (rm_cells m0)) (seq_state rows (rm_cells m)) y
}.

Lemma rec_read_meta_sequence rest k :
  exists m1, rec_read_meta m (length js) dest (mk_rbuf (meta_fmt m0 x js ++ rest) k) =
      Ok ((m1, mk_rbuf rest (k + length (meta_fmt m0 x js))), true) /\ one_meta js m1.
Proof.
  rewrite (saved_single m0 x I0 Hx). unfold meta_fmt. case_decide as Ht; cbn [length map concat].
  - set (t := Z.to_nat (m_tail (zat (rm_cells m0) x))). destruct (tail_some _ (ri_cells m0 I0) x Hx Ht) as (_ & _ & Hin). fold t in Hin.
    destruct (pos_of_busy _ (ri_cells m0 I0) t x Hin) as [Hp _].
    assert (Ei : ids_of m0 x t = []) by (unfold ids_of; by replace (x =? -1) with false by lia). rewrite Ei, app_nil_r.
    destruct (rec_read_meta_one m I dest Hd (m_pos (cell_at (rm_cells m0) t)) rest k Hp) as (m1 & E & [S1 S2 S3 S4]).
    exists m1. split; [exact E|]. split; [done|done|cbn; lia|].
    intros D rows0 rows rows2 Hout Hk y. rewrite (S4 D rows rows2 y) by (intros i Hi; apply Hout; cbn; lia). unfold restored_seq.
    case_decide as Hy; [|done]. specialize (Hk 0%nat t eq_refl). rewrite Nat.add_0_r in Hk. rewrite Hk.
    unfold seq_state. rewrite !(proj2 (Z.leb_le 0 _)) by done. done.
  - destruct (rec_read_meta_none m I dest Hd (mk_rbuf rest k)) as (m1 & E & S1 & S2 & S3).
    exists m1. cbn [app]. rewrite Nat.add_0_r. split; [exact E|]. split; [done|done| |].
    { destruct S2 as [S2 _]. cbn. rewrite Nat.add_0_r, <- S2. split; [apply (ri_head m1 S1)|lia]. }
    intros D rows0 rows rows2 Hout _ y. assert (rows2 = rows) as -> by (apply list_eq; intros i; apply Hout; cbn; lia).
    rewrite S3. unfold restored_seq. case_decide as Hy; [|done]. subst y. unfold r_release. rewrite decide_True by done.
    unfold seq_state. rewrite (proj2 (Z.leb_gt 0 (m_tail _))) by lia. by rewrite andb_false_r.
Qed.

Lemma rec_read_one rest k :
  exists m', rec_state_read grs m dest (mk_rbuf (rec_fmt grs m0 x ++ rest) k) =
      Ok (inl (m', mk_rbuf rest (k + length (rec_fmt grs m0 x)))) /\
    rec_inv m' /\ rm_size m' = rm_size m /\ restores grs (restored_seq x dest) m0 m m'.
Proof.
  assert (Hjs : forall i, i ∈ js -> (i < rm_size m0)%nat) by (intros i; apply saved_list_lt).
  destruct (rec_read_meta_sequence (rec_data_fmt grs m0 js ++ rest) (k + length (le_bytes 4 (Z.of_nat (length js)))))
    as (m1 & E & [I1 (Es & Eh & Er & Esl) [Hh H1] Hst]).
  unfold rec_state_read, rec_fmt. cbv zeta. rewrite <- !app_assoc. rewrite (reads_u32 (Z.of_nat (length js))), bind_ok by lia.
  cbn [fst snd]. rewrite Nat2Z.id, E, bind_ok. cbv beta iota.
  assert (Lk1 : like m0 m1) by (destruct Lk; split; congruence).
  assert (Fit1 : mem_fits grs m1) by (destruct Fit; split; congruence).
  rewrite <- Es in Hh. destruct (rec_read_data_ok grs Hrs m0 m1 js rest
    (k + length (le_bytes 4 (Z.of_nat (length js))) + length (meta_fmt m0 x js))%nat Lk1 Fit0 Fit1 Hjs Hh) as (rs & ss & -> & Br & Bs).
  rewrite bind_ok. cbv beta iota. rewrite Er in Br. rewrite Esl in Bs. rewrite Es in Hh.
  exists (with_tensors rs ss m1). split; [by rewrite !length_app, !Nat.add_assoc|].
  split; [destruct I1; by split|]. split; [done|]. destruct Lk as [_ Lr Ls].
  split; [|split; cbn [rm_r_l rm_s_l with_tensors]; by eapply single_layers; [..|done|done|apply (Hst (list Z))]].
  intros y. apply (Hst (list Z)); intros; by rewrite !lookup_nil.
Qed.
End one.

(** ** Example data *)

(** Two layers, of which the first is recurrent, with rows of 8 and 16 bytes. *)
Definition toy_rs_hp : llama_hparams :=
  mk_hparams 4 2 (-1) 4 4 0 0 [] [] [] [] 2 1 [] [] 0 0 0 0 [] false 0 LLAMA_ROPE_TYPE_NONE.
Definition toy_mem (size : nat) (b used : Z) (cs : list mem_cell) : llama_memory_recurrent :=
  mk_rec toy_rs_hp 3 0 size used 0 (-1) cs
    [Some (mk_rst 1 (replicate (size * 8) b)); None] [Some (mk_rst 1 (replicate (size * 16) b)); None].
Definition toy_saved : llama_memory_recurrent := toy_mem 3 7 2 toy_cells.
Definition toy_target : llama_memory_recurrent := toy_mem 4 9 0 (replicate 4 mem_cell_new).

Lemma toy_mem_inv : rec_inv toy_saved /\ rec_inv toy_target.
Proof.
  split.
  - destruct toy_rec_inv as [A1 A2 A3 A4 A5]. by split.
  - assert (H : forall i, cell_at (replicate 4 mem_cell_new) i = mem_cell_new).
    { intros i. unfold cell_at. destruct (replicate 4 mem_cell_new !! i) eqn:E; [|done]. by apply lookup_replicate in E as [-> _]. }
    destruct (cells_ok_empty (replicate 4 mem_cell_new)) as [C N]; [intros i; by rewrite H|].
    split; [done|done|cbn; lia|by vm_compute|exact C].
Qed.

Lemma toy_mem_fits size b used cs : mem_fits toy_rs (toy_mem size b used cs).
Proof.
  split; [split..|done]; try done; intros [|[|il]] t Ht; try done; injection Ht as <-;
    (split; [unfold INT32_MIN, INT32_MAX; cbn; lia|]); cbn [t_data t_type]; rewrite length_replicate; cbn [rm_size toy_mem];
    apply Nat.eq_le_incl; vm_compute Z.to_nat; lia.
Qed.

Lemma toy_mem_like size size' b b' used used' cs cs' : like (toy_mem size b used cs) (toy_mem size' b' used' cs').
Proof. split; [done|repeat constructor..]. Qed.

(** ** Properties *)

(** C9: saving a whole recurrent memory and restoring it into an interchangeable one of any
    size that holds its cells and its sequences gives it back: [state_write] ends when the
    buffer is large enough, [state_read] consumes exactly its bytes, and the target then
    implements the same map from sequences to positions, sharing and, for every recurrent
    layer, states; everything that was in the target is gone. *)
Theorem recurrent_state_round_trip ggml_row_size m0 m io :
  (forall ty ne, 0 <= ggml_row_size ty ne < 18446744073709551616) ->
  rec_inv m0 -> rec_inv m -> like m0 m -> mem_fits ggml_row_size m0 -> mem_fits ggml_row_size m ->
  (length (saved_list m0 (-1)) <= rm_size m)%nat ->
  (forall i y, y ∈ m_seq (cell_at (rm_cells m0) i) -> y < Z.of_nat (rm_size m)) ->
  (length (rec_fmt ggml_row_size m0 (-1)) <= w_left io)%nat ->
  exists bs, rec_state_write ggml_row_size m0 (-1) io = Ok (put_bytes io bs) /\
    forall rest k, exists m',
      rec_state_read ggml_row_size m (-1) (mk_rbuf (bs ++ rest) k) = Ok (inl (m', mk_rbuf rest (k + length bs))) /\
      rec_inv m' /\ rm_size m' = rm_size m /\ restores ggml_row_size (fun v0 _ => v0) m0 m m'.
Proof.
  intros Hrs I0 I Lk F0 F Hlen Hids Hio. exists (rec_fmt ggml_row_size m0 (-1)).
  split; [by apply rec_state_write_ok|]. intros rest k. by apply rec_read_whole.
Qed.

Lemma recurrent_state_round_trip_witness :
  exists bs, rec_state_write toy_rs toy_saved (-1) (mk_wbuf [] 1000) = Ok (put_bytes (mk_wbuf [] 1000) bs) /\
    exists m', rec_state_read toy_rs toy_target (-1) (mk_rbuf bs 0) = Ok (inl (m', mk_rbuf [] (length bs))) /\
      rec_seq_pos_max m' 2 = Ok 4 /\ rec_seq_pos_max m' 0 = Ok 7.
Proof.
  destruct toy_mem_inv as [I0 I].
  destruct (recurrent_state_round_trip toy_rs toy_saved toy_target (mk_wbuf [] 1000)) as (bs & E & H).
  - exact toy_rs_range.
  - exact I0.
  - exact I.
  - apply toy_mem_like.
  - apply toy_mem_fits.
  - apply toy_mem_fits.
  - vm_compute. lia.
  - intros i y Hy. apply (seq_in _ (ri_cells _ I0)) in Hy. cbn in *. lia.
  - vm_compute. lia.
  - exists bs. split; [exact E|]. destruct (H [] 0%nat) as (m' & E' & I' & _ & Hs & _). rewrite app_nil_r in E'.
    exists m'. split; [exact E'|]. rewrite !(rec_seq_pos_max_ok (@nil (list Z)) m' I'), !Hs. split; vm_compute; reflexivity.
Defined.

(** C26: saving one sequence of a recurrent memory and restoring it as the sequence [dest] of
    an interchangeable one: the target then has [dest] alone in a cell, with the position
    and, for every recurrent layer, the state that the sequence had (nothing when it had
    none); an old [dest] is gone, and every other sequence keeps its position and its
    states. *)
Theorem recurrent_sequence_round_trip ggml_row_size m0 m x dest io :
  (forall ty ne, 0 <= ggml_row_size ty ne < 18446744073709551616) ->
  rec_inv m0 -> rec_inv m -> like m0 m -> mem_fits ggml_row_size m0 -> mem_fits ggml_row_size m ->
  0 <= x -> 0 <= dest < Z.of_nat (rm_size m) ->
  (length (rec_fmt ggml_row_size m0 x) <= w_left io)%nat ->
  exists bs, rec_state_write ggml_row_size m0 x io = Ok (put_bytes io bs) /\
    forall rest k, exists m',
      rec_state_read ggml_row_size m dest (mk_rbuf (bs ++ rest) k) = Ok (inl (m', mk_rbuf rest (k + length bs))) /\
      rec_inv m' /\ rm_size m' = rm_size m /\ restores ggml_row_size (restored_seq x dest) m0 m m'.
Proof.
  intros Hrs I0 I Lk F0 F Hx Hd Hio. exists (rec_fmt ggml_row_size m0 x).
  split; [by apply rec_state_write_ok|]. intros rest k. by apply rec_read_one.
Qed.

Lemma recurrent_sequence_round_trip_witness :
  exists bs, rec_state_write toy_rs toy_saved 2 (mk_wbuf [] 1000) = Ok (put_bytes (mk_wbuf [] 1000) bs) /\
    exists m', rec_state_read toy_rs toy_saved 0 (mk_rbuf bs 0) = Ok (inl (m', mk_rbuf [] (length bs))) /\
      rec_seq_pos_max m' 0 = Ok 4 /\ rec_seq_pos_max m' 1 = Ok 4.
Proof.
  destruct toy_mem_inv as [I0 _].
  destruct (recurrent_sequence_round_trip toy_rs toy_saved toy_saved 2 0 (mk_wbuf [] 1000)) as (bs & E & H).
  - exact toy_rs_range.
  - exact I0.
  - exact I0.
  - apply toy_mem_like.
  - apply toy_mem_fits.
  - apply toy_mem_fits.
  - lia.
  - cbn. lia.
  - vm_compute. lia.
  - exists bs. split; [exact E|]. destruct (H [] 0%nat) as (m' & E' & I' & _ & Hs & _). rewrite app_nil_r in E'.
    exists m'. split; [exact E'|]. rewrite !(rec_seq_pos_max_ok (@nil (list Z)) m' I'), !Hs. split; vm_compute; reflexivity.
Defined.
