(* ===== verification/Hybrid.v ===== *)
(** The memory of models that mix attention and recurrent layers, [llama_memory_hybrid] of
    src/llama/llama.cpp/src/llama-memory-hybrid.cpp: a KV cache and a recurrent memory that
    every operation keeps together, and the pair of their contexts. *)

From S2P Require Import Prelude Hparams KvCells Memory Batch KvCache KvState KvCacheIswa Recurrent.
Local Open Scope Z_scope.

(** ** Data *)

Record llama_memory_hybrid := mk_hyb {
  mem_attn : llama_kv_cache;
  mem_recr : llama_memory_recurrent
}.

(** ** Constructor *)

(** The default filters; the constructors of the parts ask them only for [il < n_layer]. *)
Definition filter_attn_default (hp : llama_hparams) (il : nat) : bool :=
  match is_recurrent hp il with Ok b => negb b | _ => false end.
Definition filter_recr_default (hp : llama_hparams) (il : nat) : bool :=
  match is_recurrent hp il with Ok b => b | _ => false end.

(** [alloc_attn], [alloc_ctx], [alloc_buf]: the buffers of the two parts could be allocated. *)
Definition llama_memory_hybrid_new (ggml_row_size : Z -> Z -> Z) (hp : llama_hparams) (type_k type_v : Z)
    (v_trans : bool) (kv_size n_pad : nat) (n_swa : Z) (swa_type : llama_swa_type) (type_r type_s : Z)
    (rs_size n_seq_max : nat) (unified : bool) (filter_attn filter_recr : option (nat -> bool))
    (alloc_attn alloc_ctx alloc_buf : bool) : res llama_memory_hybrid :=
  a ← llama_kv_cache_new ggml_row_size hp type_k type_v v_trans unified kv_size n_seq_max n_pad n_swa swa_type
        (Some (default (filter_attn_default hp) filter_attn)) None alloc_attn;
  r ← llama_memory_recurrent_new ggml_row_size hp type_r type_s rs_size n_seq_max
        (Some (default (filter_recr_default hp) filter_recr)) alloc_ctx alloc_buf;
  Ok (mk_hyb a r).

(** ** Operations on sequences *)

Definition hyb_get_can_shift (h : llama_memory_hybrid) : bool := kv_get_can_shift (mem_attn h).

(** The two operations, on the attention part first. *)
Definition on_parts (f : llama_kv_cache -> res llama_kv_cache)
    (g : llama_memory_recurrent -> res llama_memory_recurrent) (h : llama_memory_hybrid) : res llama_memory_hybrid :=
  a ← f (mem_attn h);
  r ← g (mem_recr h);
  Ok (mk_hyb a r).

Definition hyb_clear (data : bool) (h : llama_memory_hybrid) : res llama_memory_hybrid :=
  on_parts (kv_clear data) (rec_clear data) h.

(** The recurrent part comes first, since it may refuse. *)
Definition hyb_seq_rm (h : llama_memory_hybrid) (seq_id p0 p1 : Z) : res (llama_memory_hybrid * bool) :=
  r ← rec_seq_rm (mem_recr h) seq_id p0 p1;
  let h1 := mk_hyb (mem_attn h) r.1 in
  if negb r.2 then Ok (h1, false)
  else a ← kv_seq_rm (mem_attn h1) seq_id p0 p1; Ok (mk_hyb a.1 r.1, a.2).

Definition hyb_seq_cp (h : llama_memory_hybrid) (src dst p0 p1 : Z) : res llama_memory_hybrid :=
  on_parts (fun kv => kv_seq_cp kv src dst p0 p1) (fun m => rec_seq_cp m src dst p0 p1) h.
Definition hyb_seq_keep (h : llama_memory_hybrid) (seq_id : Z) : res llama_memory_hybrid :=
  on_parts (fun kv => kv_seq_keep kv seq_id) (fun m => rec_seq_keep m seq_id) h.
Definition hyb_seq_add (h : llama_memory_hybrid) (seq_id p0 p1 shift : Z) : res llama_memory_hybrid :=
  on_parts (fun kv => kv_seq_add kv seq_id p0 p1 shift) (fun m => rec_seq_add m seq_id p0 p1 shift) h.
Definition hyb_seq_div (h : llama_memory_hybrid) (seq_id p0 p1 d : Z) : res llama_memory_hybrid :=
  on_parts (fun kv => kv_seq_div kv seq_id p0 p1 d) (fun m => rec_seq_div m seq_id p0 p1 d) h.

(** The minimum of the whole is the maximum of the minima, and the other way round. *)
Definition hyb_seq_pos_min (h : llama_memory_hybrid) (seq_id : Z) : res Z :=
  a ← kv_seq_pos_min (mem_attn h) seq_id;
  r ← rec_seq_pos_min (mem_recr h) seq_id;
  Ok (Z.max a r).
Definition hyb_seq_pos_max (h : llama_memory_hybrid) (seq_id : Z) : res Z :=
  a ← kv_seq_pos_max (mem_attn h) seq_id;
  r ← rec_seq_pos_max (mem_recr h) seq_id;
  Ok (Z.min a r).

#[export] Instance llama_memory_hybrid_memory : LlamaMemory llama_memory_hybrid := {|
  mem_seq_pos_min := hyb_seq_pos_min; mem_seq_pos_max := hyb_seq_pos_max
|}.

(** ** State *)

Section state.
Context (ggml_row_size : Z -> Z -> Z) (ggml_type_size : Z -> Z).

Definition hyb_state_write (h : llama_memory_hybrid) (seq_id flags : Z) (io : llama_io_write_buffer)
    : res llama_io_write_buffer :=
  io1 ← (if negb (partial_only flags) then state_write ggml_row_size ggml_type_size (mem_attn h) seq_id io else Ok io);
  rec_state_write ggml_row_size (mem_recr h) seq_id io1.

(** [inr]: the exception of a failed restore, with the memory at that point. *)
Definition hyb_state_read (h : llama_memory_hybrid) (seq_id flags : Z) (io : llama_io_read_buffer)
    : res (llama_memory_hybrid * llama_io_read_buffer + llama_memory_hybrid * string) :=
  a ← (if negb (partial_only flags) then state_read ggml_row_size ggml_type_size (mem_attn h) seq_id io
       else Ok (inl (mem_attn h, io)));
  match a with
  | inr (kv, msg) => Ok (inr (mk_hyb kv (mem_recr h), msg))
  | inl (kv, io1) =>
      r ← rec_state_read ggml_row_size (mem_recr h) seq_id io1;
      match r with
      | inr (m, msg) => Ok (inr (mk_hyb kv m, msg))
      | inl (m, io2) => Ok (inl (mk_hyb kv m, io2))
      end
  end.
End state.

(** ** The memory context *)

Record llama_memory_hybrid_context := mk_hctx {
  hx_i_next   : nat;
  hx_ubatches : list llama_ubatch;
  hx_attn     : option llama_kv_cache_context;
  hx_recr     : option llama_memory_recurrent_context;
  hx_status   : llama_memory_status
}.

Definition hctx_of_status (s : llama_memory_status) : llama_memory_hybrid_context := mk_hctx 0 [] None None s.

Definition hctx_pair (us : list llama_ubatch) (a : llama_kv_cache_context) (r : llama_memory_recurrent_context)
    : llama_memory_hybrid_context :=
  mk_hctx 0 us (Some a) (Some r) (llama_memory_status_combine (x_status a) (rx_status r)).

Definition hctx_batch (sinfos_attn : list slot_info) (us : list llama_ubatch) : llama_memory_hybrid_context :=
  hctx_pair us (ctx_batch sinfos_attn us) (rctx_batch us).

Definition hyb_init_full (h : llama_memory_hybrid) : res llama_memory_hybrid_context :=
  a ← kv_init_full (mem_attn h); Ok (hctx_pair [] a (rec_init_full (mem_recr h))).

Definition hyb_init_update (h : llama_memory_hybrid) : res (llama_memory_hybrid * llama_memory_hybrid_context) :=
  a ← kv_init_update (mem_attn h);
  Ok (mk_hyb a.1 (mem_recr h), hctx_pair [] a.2 (rec_init_update (mem_recr h))).

Definition hctx_next (c : llama_memory_hybrid_context) : res (llama_memory_hybrid_context * bool) :=
  assert_ (bool_decide (hx_status c = LLAMA_MEMORY_STATUS_SUCCESS)) ;;
  a ← deref (hx_attn c);
  a' ← ctx_next a;
  r ← deref (hx_recr c);
  r' ← rctx_next r;
  let i := S (hx_i_next c) in
  Ok (mk_hctx i (hx_ubatches c) (Some a'.1) (Some r'.1) (hx_status c), (i <? length (hx_ubatches c))%nat).

(** [apply] of the KV cache always answers true. *)
Definition hctx_apply (graph : llama_kv_cache -> option (list kv_layer)) (h : llama_memory_hybrid)
    (c : llama_memory_hybrid_context) : res (llama_memory_hybrid * llama_memory_hybrid_context * bool) :=
  assert_ (negb (llama_memory_status_is_fail (hx_status c))) ;;
  a ← deref (hx_attn c);
  a' ← ctx_apply graph (mem_attn h) a;
  r ← deref (hx_recr c);
  r' ← rctx_apply (mem_recr h) r;
  Ok (mk_hyb a'.1 r'.1, mk_hctx (hx_i_next c) (hx_ubatches c) (Some a'.2) (Some r) (hx_status c), true && true && r'.2).

Definition hctx_get_status (c : llama_memory_hybrid_context) : llama_memory_status := hx_status c.
Definition hctx_get_ubatch (c : llama_memory_hybrid_context) : res llama_ubatch :=
  assert_ (bool_decide (hx_status c = LLAMA_MEMORY_STATUS_SUCCESS)) ;; rd (hx_ubatches c) (hx_i_next c).
Definition get_attn (c : llama_memory_hybrid_context) : option llama_kv_cache_context := hx_attn c.
Definition get_recr (c : llama_memory_hybrid_context) : option llama_memory_recurrent_context := hx_recr c.

(** ** init_batch *)

(** The micro-batches follow the recurrent pattern; both parts try them. *)
Definition hyb_init_batch (h : llama_memory_hybrid) (a : llama_batch_allocr) (n_ubatch : nat) (embd_all : bool)
    : res (llama_memory_hybrid * llama_batch_allocr * llama_memory_hybrid_context) :=
  let failed := hctx_of_status LLAMA_MEMORY_STATUS_FAILED_PREPARE in
  s ← split_loop (rec_split embd_all n_ubatch) (split_reset a);
  let '(a', ubatches) := s in
  if (get_n_used a' <? get_n_tokens a')%nat then Ok (h, a', failed)
  else
    r ← rec_prepare (mem_recr h) ubatches;
    let h1 := mk_hyb (mem_attn h) r.1 in
    if negb r.2 then Ok (h1, a', failed)
    else
      p ← prepare (mem_attn h1) ubatches;
      let h2 := mk_hyb p.1 (mem_recr h1) in
      if (length p.2 =? 0)%nat then Ok (h2, a', failed)
      else Ok (h2, a', hctx_batch p.2 ubatches).
