(* ===== verification/HybridBatch.v ===== *)
(** From an accepted batch to both parts of the hybrid memory (Hybrid.v): [init_batch] of
    src/llama/llama.cpp/src/llama-memory-hybrid.cpp tries the micro-batches in the recurrent
    memory and in the KV cache, and the decoder walks through the pair of their contexts.
    The theorem composes the ones of the parts (KvCacheBatch.v, RecurrentBatch.v). *)

From S2P Require Import Prelude Hparams KvCells KvCellsMachine Memory Batch BatchEqual BatchInit.
From S2P Require Import KvCache KvCacheSeq KvCacheSlot KvCacheMachine KvCacheBatch.
From S2P Require Import KvState Recurrent RecurrentOk RecurrentSlot RecurrentDecode RecurrentGraph RecurrentBatch.
From S2P Require Import Hybrid.
Local Open Scope Z_scope.

(** ** The loop of the decoder *)

Section loop.
Context {D : Type} (scale0 : D -> D) (model : llama_ubatch -> list D -> list D).
Context (graph : llama_kv_cache -> option (list kv_layer)).

(** [do { apply; graph } while (next)] for one recurrent layer: at most one round per
    micro-batch. *)
Fixpoint hyb_loop (fuel : nat) (h : llama_memory_hybrid) (c : llama_memory_hybrid_context) (rows : list D)
    : res (llama_memory_hybrid * llama_memory_hybrid_context * list D) :=
  match fuel with
  | O => Fault OutOfFuel
  | S fuel =>
      s ← hctx_apply graph h c;
      let '(h1, c1, _) := s in
      x ← deref (get_recr c1);
      rows1 ← graph_rows scale0 model (mem_recr h1) x rows;
      n ← hctx_next c1;
      if (n.2 : bool) then hyb_loop fuel h1 n.1 rows1 else Ok (h1, n.1, rows1)
  end.

Lemma ctx_apply_keeps kv x kv' x' : ctx_apply graph kv x = Ok (kv', x') ->
  x_ubatches x' = x_ubatches x /\ x_i_cur x' = x_i_cur x /\ x_status x' = x_status x.
Proof.
  intros H. unfold ctx_apply in H. bind_inv H u0 Ha. case_match.
  - bind_inv H r Hr. by injection H as <- <-.
  - bind_inv H si Hsi. bind_inv H u Hu. bind_inv H kv1 Hk. bind_inv H n Hn. by injection H as <- <-.
Qed.

(** When both parts run through the micro-batches on their own, the pair does. *)
Lemma hyb_loop_both us k : forall i kv m xa xr rows kv' xa' m' rows',
  walk graph k kv xa = Ok (kv', xa') -> rec_loop scale0 model k m xr rows = Ok (m', rows') ->
  x_ubatches xa = us -> x_i_cur xa = i -> x_status xa = LLAMA_MEMORY_STATUS_SUCCESS ->
  xr = mk_rctx LLAMA_MEMORY_STATUS_SUCCESS i us false ->
  exists c', hyb_loop k (mk_hyb kv m) (mk_hctx i us (Some xa) (Some xr) LLAMA_MEMORY_STATUS_SUCCESS) rows =
    Ok (mk_hyb kv' m', c', rows').
Proof.
  induction k as [|k IH]; intros i kv m xa xr rows kv' xa' m' rows' Hw Hr Eu Ei Es ->; [done|].
  cbn [walk] in Hw. bind_inv Hw a Ha. bind_inv Hw na Hna. destruct a as [kv1 xa1].
  pose proof (ctx_apply_keeps _ _ _ _ Ha) as (Eu1 & Ei1 & Es1). cbn [fst snd] in *.
  cbn [rec_loop] in Hr. bind_inv Hr s Hs. bind_inv Hr nr Hnr. unfold graph_step in Hs. bind_inv Hs r Hra.
  bind_inv Hs rows1 Hrows. injection Hs as <-. cbn [fst snd] in *.
  unfold ctx_next in Hna. rewrite Es1, Es, bool_decide_eq_true_2 in Hna by done. injection Hna as <-.
  unfold rctx_next in Hnr. rewrite bool_decide_eq_true_2 in Hnr by done. injection Hnr as <-. cbn [fst snd rx_ubatches rx_i_next] in *.
  rewrite Eu1, Eu, Ei1, Ei in Hw.
  cbn [hyb_loop]. unfold hctx_apply. cbn [hx_status hx_attn hx_recr hx_i_next hx_ubatches llama_memory_status_is_fail negb assert_ deref mem_attn mem_recr].
  rewrite !bind_ok, Ha, !bind_ok, Hra, !bind_ok. cbn [fst snd get_recr hx_recr deref mem_recr]. rewrite bind_ok, Hrows, bind_ok.
  unfold hctx_next. cbn [hx_status hx_attn hx_recr hx_i_next hx_ubatches deref]. rewrite bool_decide_eq_true_2 by done.
  cbn [assert_]. rewrite !bind_ok. unfold ctx_next. rewrite Es1, Es, bool_decide_eq_true_2 by done. cbn [assert_].
  rewrite !bind_ok. unfold rctx_next. rewrite bool_decide_eq_true_2 by done. cbn [assert_ rx_ubatches rx_i_next fst snd rx_status rx_is_full].
  rewrite !bind_ok. cbn [fst snd]. rewrite Eu1, Eu, Ei1, Ei.
  destruct (S i <? length us)%nat.
  - by eapply IH.
  - injection Hw as <- <-. injection Hr as <- <-. by eexists.
Qed.
End loop.

(** ** init_batch *)

Section init.
Context (h : llama_memory_hybrid) (size : nat).
Context (a : llama_batch_allocr) (ps ns : list Z) (ss : list (list Z)) (ls : list Z).
Context (C : unified_cache (mem_attn h) size) (I : rec_inv (mem_recr h)).
Context (Lo : low (get_n_tokens a) (rm_cells (mem_recr h))) (Hs : (n_seq_max a <= rm_size (mem_recr h))%nat).
Context (W : balloc_wf a ps ns ss ls) (SW : sets_wf a ns ss) (St : rec_storable a ps ns ss) (Hc : has_cpl a = false).
Context (Hpos : (0 < n_pos_per_embd_ a)%nat) (Hn : (0 < get_n_tokens a)%nat) (Hmax : Z.of_nat (get_n_tokens a) <= INT32_MAX).

(** The micro-batches of [split_equal] fit the unified cache. *)
Lemma equal_fits idxss us : Forall2 (holds a ps ns ss ls) idxss us -> concat idxss ≡ₚ seq 0 (get_n_tokens a) ->
  batch_ok (rm_size (mem_recr h)) (get_n_tokens a) (step_of <$> us) ->
  Forall (fun u => exists nt strm, ubatch_fits (mem_attn h) u nt strm) us.
Proof.
  intros F P [_ B]. rewrite Forall_fmap in B. apply list.Forall_forall. intros v Hv.
  rewrite list.Forall_forall in B. destruct (B v Hv) as (U & _). apply list_elem_of_lookup in Hv as [k Hv].
  destruct (Forall2_lookup_r _ _ _ _ _ F Hv) as (l & Hl & Hh). exists (length l), [0%nat].
  destruct St as [Sp Ss]. eapply (holds_fits (mem_attn h) size a ps ns ss ls); try done.
  - split; [|done]. intros i p Hp. destruct (Sp i p Hp). lia.
  - intros i Hi. assert (Hin : i ∈ concat idxss) by (by eapply elem_concat_at). rewrite P in Hin. apply elem_of_seq in Hin. lia.
  - pose proof (ho_rect _ _ _ _ _ _ _ Hh). destruct (ru_seqs _ _ _ _ U) as [_ H1], (ru_tokens _ _ _ _ U) as [H2 _]. intros ->. simpl in *. nia.
Qed.

Lemma hyb_init_batch_ok n_ubatch :
  runs (hyb_init_batch h a n_ubatch false) (fun '(h1, a1, c) => exists us idxss n z,
    h1 = mk_hyb (mem_attn h) (with_graph n z (mem_recr h)) /\ get_n_used a1 = get_n_tokens a /\ us <> [] /\
    Forall2 (holds a ps ns ss ls) idxss us /\ concat idxss ≡ₚ seq 0 (get_n_tokens a) /\
    batch_ok (rm_size (mem_recr h)) (get_n_tokens a) (step_of <$> us) /\
    ((exists sis kv1, c = hctx_batch sis us /\ length sis = length us /\ streams_ok (mem_attn h) sis /\
        applies size (mem_attn h) (zip sis us) kv1 /\ kv_inv kv1 size /\ stored (mem_attn h) kv1 us) \/
     (c = hctx_of_status LLAMA_MEMORY_STATUS_FAILED_PREPARE /\ out_of_room (mem_attn h) size us))).
Proof.
  unfold hyb_init_batch. apply runs_bind.
  eapply runs_mono; [exact (rec_split_ok a ps ns ss ls W SW St Hpos Hn (rm_size (mem_recr h)) n_ubatch Hs Hmax Hc)|].
  intros [a1 us] (idxss & Eu & Et & Hne & F & P & B). rewrite Eu, Et, Nat.ltb_irrefl.
  apply runs_bind. eapply runs_mono.
  { rewrite <- (steps_ubatches us). apply (prepare_found (get_n_tokens a) (step_of <$> us) _ I Lo B). }
  intros [m1 ok] (Eok & nn & z & Em). cbn [fst snd] in *. subst ok m1. cbn [negb mem_attn mem_recr].
  apply runs_bind. eapply runs_mono.
  { apply (prepare_ok (mem_attn h) size (uc_inv _ _ C) (uc_swa _ _ C) us (uc_pos _ _ C) Hne). by eapply equal_fits. }
  intros [kv' sis] (_ & _ & _ & H1 & Hres). cbn [fst snd] in *. rewrite (H1 (uc_one _ _ C)).
  destruct Hres as [(Hl & Hst & kv1 & A & I1 & S1)|(-> & out & l & u & rest & kv1 & E & Hlo & A & Hr)].
  - destruct (Nat.eqb_spec (length sis) 0) as [Hz|_]; [destruct us; [done|simpl in Hl; lia]|].
    apply runs_ok. exists us, idxss, nn, z. do 6 (split; [done|]). left. by exists sis, kv1.
  - cbn [length Nat.eqb]. apply runs_ok. exists us, idxss, nn, z. do 6 (split; [done|]). right.
    split; [done|]. by exists out, l, u, rest, kv1.
Qed.
End init.

(** ** The theorem *)

(** C7: from an accepted batch (without coupled sequences, and not decoded for an embedding of
    every token) to both parts of the hybrid memory: [init_batch] cuts the batch into micro-batches that hold every token once and
    leaves both parts as they were; when the KV cache has room for all of them, the loop of
    the decoder ([apply] of both contexts, the copies of [build_rs], the new states, [next])
    ends with every token stored in the KV cache, every occupied cell kept, and every
    sequence of the recurrent memory started from its own state or a zeroed one and left
    with its new state; otherwise the status is a failure, for lack of cells only. *)
Theorem hybrid_decodes_batch {D} (scale0 : D -> D) (model : llama_ubatch -> list D -> list D) graph
    h size e rows a ps ns ss ls n_ubatch :
  (forall u l, length (model u l) = length l) ->
  unified_cache (mem_attn h) size -> Nat.max (k_n_pad (mem_attn h)) 256 = (2 ^ e)%nat ->
  rec_inv (mem_recr h) -> clean scale0 rows (rm_cells (mem_recr h)) -> low (get_n_tokens a) (rm_cells (mem_recr h)) ->
  balloc_wf a ps ns ss ls -> sets_wf a ns ss -> rec_storable a ps ns ss -> has_cpl a = false ->
  (0 < n_pos_per_embd_ a)%nat -> (0 < get_n_tokens a)%nat -> Z.of_nat (get_n_tokens a) <= INT32_MAX ->
  (n_seq_max a <= rm_size (mem_recr h))%nat ->
  runs (hyb_init_batch h a n_ubatch false) (fun '(h1, a1, c) =>
    exists us idxss, (exists n z, h1 = mk_hyb (mem_attn h) (with_graph n z (mem_recr h))) /\
    Forall2 (holds a ps ns ss ls) idxss us /\ concat idxss ≡ₚ seq 0 (get_n_tokens a) /\
    ((hctx_get_status c = LLAMA_MEMORY_STATUS_SUCCESS /\ exists h2 c' rows2,
        hyb_loop scale0 model graph (length us) h1 c rows = Ok (h2, c', rows2) /\
        kv_inv (mem_attn h2) size /\ stored (mem_attn h) (mem_attn h2) us /\
        rec_inv (mem_recr h2) /\ clean scale0 rows2 (rm_cells (mem_recr h2)) /\
        decode_chain scale0 model (step_of <$> us)
          (seq_state rows (rm_cells (mem_recr h))) (seq_state rows2 (rm_cells (mem_recr h2)))) \/
     (hctx_get_status c = LLAMA_MEMORY_STATUS_FAILED_PREPARE /\ out_of_room (mem_attn h) size us))).
Proof.
  intros Hm C He I Cl Lo W SW St Hc Hpos Hn Hmax Hs. eapply runs_mono; [by apply (hyb_init_batch_ok h size a ps ns ss ls)|].
  intros [[h1 a1] c] (us & idxss & n & z & -> & _ & Hne & F & P & B & Hr). exists us, idxss.
  split; [by exists n, z|]. split; [done|]. split; [done|].
  destruct Hr as [(sis & kv1 & -> & Hl & Hst & A & I1 & S1)|[-> Hr]]; [left|by right]. split; [done|].
  assert (I2 : rec_inv (with_graph n z (mem_recr h))) by (destruct I as [A1 A2 A3 A4 A5]; by split).
  assert (Hlen : (0 < length us)%nat) by (destruct us; [done|simpl; lia]).
  destruct (walk_ok graph size e sis us (mem_attn h) _ kv1 A 0 0 (length us)) as (xa' & Hw & _); try done; try lia.
  destruct (runs_inv _ _ (rec_loop_ok scale0 model Hm (get_n_tokens a) us (step_of <$> us) (with_graph n z (mem_recr h)) rows 0
    ltac:(intros E; by apply fmap_nil_inv in E) ltac:(by rewrite steps_ubatches, drop_0) I2 Lo Cl B))
    as ([m2 rows2] & Er & I3 & _ & _ & Cl2 & Ch).
  rewrite length_fmap in Er.
  destruct (hyb_loop_both scale0 model graph us (length us) 0 _ _ _ _ _ _ _ _ _ Hw Er) as (c' & El); [done..|].
  exists (mk_hyb kv1 m2), c', rows2. do 5 (split; [done|]). exact Ch.
Qed.

Definition toy_hyb : llama_memory_hybrid := mk_hyb (toy_kv true 4 2) toy_rec.

Lemma hybrid_decodes_batch_witness :
  runs (hyb_init_batch toy_hyb toy_alloc 2 false) (fun '(h1, a1, c) => exists us,
    (hctx_get_status c = LLAMA_MEMORY_STATUS_SUCCESS /\ exists h2 c' rows2,
       hyb_loop (Z.mul 0) toy_model (fun _ => None) (length us) h1 c toy_rows = Ok (h2, c', rows2) /\
       stored (toy_kv true 4 2) (mem_attn h2) us /\ rec_inv (mem_recr h2)) \/
    (hctx_get_status c = LLAMA_MEMORY_STATUS_FAILED_PREPARE /\ out_of_room (toy_kv true 4 2) 4 us)).
Proof.
  destruct toy_accepted as (ls & W & SW & St), toy_clean as [Cl Lo]. eapply runs_mono.
  - apply (hybrid_decodes_batch (Z.mul 0) toy_model (fun _ => None) toy_hyb 4 8 toy_rows toy_alloc
      [7; 8; 9] [1; 1; 1] toy_seqs ls 2); try eassumption.
    + intros u l. apply length_map.
    + apply (toy_unified 4 2); [unfold LLAMA_MAX_SEQ; lia|vm_compute; reflexivity].
    + vm_compute. reflexivity.
    + apply toy_rec_inv.
    + vm_compute. reflexivity.
    + vm_compute. lia.
    + vm_compute. lia.
    + vm_compute. discriminate.
    + vm_compute. lia.
  - intros [[h1 a1] c] (us & idxss & _ & _ & _ & R). exists us.
    destruct R as [[E (h2 & c' & rows2 & El & _ & S1 & I2 & _)]|R]; [left|by right].
    split; [exact E|]. exists h2, c', rows2. split; [exact El|]. split; [exact S1|exact I2].
Defined.
