(* ===== verification/HybridOk.v ===== *)
(** The two parts of the hybrid memory (Hybrid.v) stay in step: over a unified KV cache the
    last position of every sequence in the cells is the position of its recurrent state, and
    every operation on sequences of src/llama/llama.cpp/src/llama-memory-hybrid.cpp keeps it
    so.  With that the memory answers the batch allocator as the interface asks. *)

From S2P Require Import Prelude Hparams KvCells KvCellsMachine Memory Batch BatchEqual BatchInit KvCache KvCacheSeq KvCacheMachine.
From S2P Require Import KvState Recurrent RecurrentOk Hybrid.
Local Open Scope Z_scope.

(** ** The last position under a change of all cells *)

Lemma top_kept (g : cell -> cell) l y' y p : spec_pos_max l y' p ->
  (forall a, a ∈ l -> y ∈ a_seq (g a) -> y' ∈ a_seq a /\ a_pos (g a) = a_pos a) ->
  (forall a, a ∈ l -> y' ∈ a_seq a -> a_pos a = p -> y ∈ a_seq (g a)) -> spec_pos_max (g <$> l) y p.
Proof.
  intros H Hb Hf. destruct H as [[-> Hn]|[(i & a & Ha & Hy & Hp) Hm]].
  - left. split; [done|]. intros i b. rewrite list_lookup_fmap_Some. intros (a & -> & Ha) Hy.
    destruct (Hb a) as [Hy' _]; [by eapply list_elem_of_lookup_2|done|]. by apply (Hn i a).
  - right. assert (Hin : a ∈ l) by (by eapply list_elem_of_lookup_2). split.
    + exists i, (g a). rewrite list_lookup_fmap, Ha. specialize (Hf a Hin Hy Hp). split; [done|]. split; [done|].
      destruct (Hb a Hin Hf) as [_ ->]. done.
    + intros j b. rewrite list_lookup_fmap_Some. intros (c & -> & Hc) Hyc.
      destruct (Hb c) as [Hy' ->]; [by eapply list_elem_of_lookup_2|done|]. by apply (Hm j c).
Qed.

Lemma top_none (g : cell -> cell) l y : (forall a, a ∈ l -> y ∉ a_seq (g a)) -> spec_pos_max (g <$> l) y (-1).
Proof.
  intros H. left. split; [done|]. intros i b. rewrite list_lookup_fmap_Some. intros (a & -> & Ha). apply H.
  by eapply list_elem_of_lookup_2.
Qed.

Lemma top_le l x p a : spec_pos_max l x p -> a ∈ l -> x ∈ a_seq a -> a_pos a <= p.
Proof.
  intros H [i Ha]%list_elem_of_lookup Hx. destruct H as [[-> Hn]|[_ Hm]]; [by destruct (Hn i a)|by apply (Hm i a)].
Qed.

Lemma top_absent l x a : spec_pos_max l x (-1) -> Forall cell_ok l -> a ∈ l -> x ∉ a_seq a.
Proof.
  intros H F Ha Hx. pose proof (top_le _ _ _ _ H Ha Hx). rewrite list.Forall_forall in F.
  destruct (cell_seq_pos a x (F a Ha) Hx). lia.
Qed.

Lemma top_unique l x p q : spec_pos_max l x p -> spec_pos_max l x q -> p = q.
Proof. intros ->%greatest_spec ->%greatest_spec. done. Qed.

Lemma top_at l x p : spec_pos_max l x p -> p <> -1 -> exists a, a ∈ l /\ x ∈ a_seq a /\ a_pos a = p.
Proof.
  intros [[-> _]|[(i & a & Ha & H) _]] Hp; [done|]. exists a. split; [by eapply list_elem_of_lookup_2|done].
Qed.

(** ** The invariant *)

(** The map from sequences to streams of a unified cache. *)
Abbreviation unified_map := (stream_map true 1).
Abbreviation recr m := (seq_state (@nil unit) (rm_cells m)).

Record hyb_inv (size : nat) (h : llama_memory_hybrid) : Prop := {
  hi_attn : exists l, kv_implements unified_map size (mem_attn h) [l];
  hi_recr : rec_inv (mem_recr h);
  hi_ids  : (rm_size (mem_recr h) <= LLAMA_MAX_SEQ)%nat;
  hi_step : forall x, 0 <= x < Z.of_nat (rm_size (mem_recr h)) ->
    kv_seq_pos_max (mem_attn h) x = rec_seq_pos_max (mem_recr h) x
}.

(** In step: the cells of the cache and the map of the recurrent memory. *)
Definition in_step (n : nat) (l : list cell) (v : Z -> option (Z * gset Z * option unit)) : Prop :=
  forall x, 0 <= x < Z.of_nat n -> spec_pos_max l x (last_pos (v x)).

Lemma unified_length : length unified_map = LLAMA_MAX_SEQ.
Proof. apply length_replicate. Qed.

Section attn.
Context (size : nat) (kv : llama_kv_cache) (l : list cell) (K : kv_implements unified_map size kv [l]).

Lemma attn_cells : exists c, v_cells kv = [c] /\ l = cells_abs c /\ kv_wf c.
Proof.
  pose proof (im_abs _ _ _ _ K) as E. unfold kv_abs in E. destruct (v_cells kv) as [|c [|c' cs]] eqn:Ec; try done.
  injection E as <-. exists c. split; [done|]. split; [done|].
  destruct (ki_wf _ _ (im_inv _ _ _ _ K) 0%nat c) as [H _]; [by rewrite Ec|done].
Qed.

Lemma attn_ok : Forall cell_ok l.
Proof.
  destruct attn_cells as (c & _ & -> & W). apply Forall_lookup. intros i a Ha. by apply (wf_cell _ W i).
Qed.

Lemma attn_top x : 0 <= x < Z.of_nat LLAMA_MAX_SEQ -> runs (kv_seq_pos_max kv x) (spec_pos_max l x).
Proof.
  intros Hx. destruct attn_cells as (c & Ec & -> & _).
  destruct (kv_seq_pos_min_ok kv size (im_inv _ _ _ _ K) x) as (s & c' & _ & Hc & _ & _ & Hr).
  { by rewrite (im_map _ _ _ _ K), unified_length. }
  rewrite Ec in Hc. destruct s as [|s]; [injection Hc as <-|by destruct s]. exact Hr.
Qed.

End attn.

Lemma hyb_inv_step size h : hyb_inv size h -> exists l, kv_implements unified_map size (mem_attn h) [l] /\
  in_step (rm_size (mem_recr h)) l (recr (mem_recr h)).
Proof.
  intros [[l K] R Hn S]. exists l. split; [done|]. intros x Hx.
  destruct (runs_inv _ _ (attn_top size (mem_attn h) l K x ltac:(lia))) as (p & E & Hp). rewrite S in E by done.
  rewrite (rec_seq_pos_max_ok (@nil unit) _ R) in E. by injection E as ->.
Qed.

Lemma step_hyb_inv size kv l m : kv_implements unified_map size kv [l] -> rec_inv m -> (rm_size m <= LLAMA_MAX_SEQ)%nat ->
  in_step (rm_size m) l (recr m) -> hyb_inv size (mk_hyb kv m).
Proof.
  intros K R Hn S. split; [by exists l|done|done|]. intros x Hx. cbn [mem_attn mem_recr] in *.
  destruct (runs_inv _ _ (attn_top size kv l K x ltac:(lia))) as (p & -> & Hp).
  rewrite (rec_seq_pos_max_ok (@nil unit) _ R). f_equal. eapply top_unique; [exact Hp|by apply S].
Qed.

(** The memory keeps the promises of a memory: both getters answer the position of the
    recurrent state. *)
Lemma hyb_range_ok size h x : hyb_inv size h -> 0 <= x < Z.of_nat (rm_size (mem_recr h)) ->
  exists p, -1 <= p < INT32_MAX /\ hyb_seq_pos_min h x = Ok p /\ hyb_seq_pos_max h x = Ok p.
Proof.
  intros H Hx. destruct H as [[l K] R Hn S]. exists (last_pos (recr (mem_recr h) x)).
  destruct (mem_range (LlamaMemoryLaws := llama_kv_cache_laws) (mem_attn h) x) as (lo & hi & E1 & E2 & H1 & H2 & H3).
  { exists size. apply K. } { rewrite (im_map _ _ _ _ K), unified_length. lia. }
  cbn [mem_seq_pos_min mem_seq_pos_max llama_kv_cache_memory] in *. pose proof (S x Hx) as E.
  rewrite E2, (rec_seq_pos_max_ok (@nil unit) _ R) in E. injection E as ->.
  unfold hyb_seq_pos_min, hyb_seq_pos_max.
  rewrite E1, E2, (rec_seq_pos_max_ok (@nil unit) _ R), (rec_seq_pos_min_ok (@nil unit) _ R), !bind_ok.
  split; [|split; f_equal; lia].
  destruct (recr (mem_recr h) x) as [[[p g] d]|] eqn:Ex; cbn; [|unfold INT32_MAX; lia].
  apply (seq_state_pos _ _ R) in Ex. lia.
Qed.

#[export] Instance llama_memory_hybrid_laws :
  LlamaMemoryLaws llama_memory_hybrid (fun h => exists size, hyb_inv size h) (fun h => Z.of_nat (rm_size (mem_recr h))).
Proof.
  split. intros h x [size I] Hx. destruct (hyb_range_ok size h x I Hx) as (p & Hp & E1 & E2). exists p, p. cbn.
  split; [done|]. split; [done|]. lia.
Qed.

(** ** Operations of the cache *)

(** A step of the machine of the cache on its one stream. *)
Lemma attn_step size kv l op g : kv_implements unified_map size kv [l] ->
  spec_kv_op unified_map size [l] op = Some [g <$> l] ->
  runs (run_kv_op kv op) (fun kv' => kv_implements unified_map size kv' [g <$> l]).
Proof. apply run_kv_op_ok. Qed.

Lemma unified_at x : 0 <= x < Z.of_nat LLAMA_MAX_SEQ -> unified_map !! Z.to_nat x = Some 0%nat.
Proof. intros Hx. apply lookup_replicate. split; [done|lia]. Qed.

Ltac at_unified Hx :=
  match type of Hx with
  | 0 <= ?x < _ =>
      rewrite (decide_True (P := 0 <= x < Z.of_nat (length unified_map))) by (rewrite unified_length; exact Hx);
      rewrite (unified_at _ Hx); cbn [mbind option_bind]
  end.

Section steps.
Context (size : nat) (l : list cell).

Lemma spec_clear_one : spec_kv_op unified_map size [l] KvClear = Some [(fun _ => cell_empty) <$> l].
Proof. done. Qed.
Lemma spec_rm_one x p0 p1 : 0 <= x < Z.of_nat LLAMA_MAX_SEQ ->
  spec_kv_op unified_map size [l] (KvSeqRm x p0 p1) = Some [spec_rm x p0 p1 <$> l].
Proof. intros Hx. cbn [spec_kv_op]. at_unified Hx. done. Qed.
Lemma spec_keep_one x : 0 <= x < Z.of_nat LLAMA_MAX_SEQ ->
  spec_kv_op unified_map size [l] (KvSeqKeep x) = Some [spec_keep x <$> l].
Proof. intros Hx. cbn [spec_kv_op]. at_unified Hx. done. Qed.
Lemma spec_cp_one src dst p0 p1 : 0 <= src < Z.of_nat LLAMA_MAX_SEQ -> 0 <= dst < Z.of_nat LLAMA_MAX_SEQ ->
  src <> dst -> on_range src p0 p1 (fun a => dst ∉ a_seq a) l ->
  spec_kv_op unified_map size [l] (KvSeqCp src dst p0 p1) = Some [spec_cp src dst p0 p1 <$> l].
Proof.
  intros Hs Hd Hne Hr. cbn [spec_kv_op]. at_unified Hs. at_unified Hd. cbn [lookup list_lookup mbind option_bind].
  rewrite decide_True by done. rewrite decide_True by (by right). by rewrite decide_False.
Qed.
Lemma spec_add_one x p0 p1 d : 0 <= x < Z.of_nat LLAMA_MAX_SEQ ->
  on_range x p0 p1 (fun a => INT32_MIN <= a_pos a + d <= INT32_MAX /\ INT32_MIN <= a_shift a + d <= INT32_MAX) l ->
  spec_kv_op unified_map size [l] (KvSeqAdd x p0 p1 d) = Some [(if d =? 0 then id else spec_add x p0 p1 d) <$> l].
Proof.
  intros Hx Hr. cbn [spec_kv_op]. at_unified Hx. cbn [lookup list_lookup mbind option_bind]. by rewrite decide_True.
Qed.
End steps.

(** ** Cells under the operations *)

Lemma seq_rm_cell a x y : cell_ok a -> y ∈ a_seq (spec_seq_rm a x).1 <-> y ∈ a_seq a /\ y <> x.
Proof. intros _. unfold spec_seq_rm. case_decide; cbn; set_solver. Qed.
Lemma seq_rm_pos a x y : y ∈ a_seq (spec_seq_rm a x).1 -> a_pos (spec_seq_rm a x).1 = a_pos a.
Proof. unfold spec_seq_rm. case_decide; cbn; [set_solver|done]. Qed.

Lemma keep_cell a x y : y ∈ a_seq (spec_keep x a) <-> y = x /\ x ∈ a_seq a.
Proof. unfold spec_keep, spec_seq_keep. repeat case_decide; cbn; set_solver. Qed.
Lemma keep_pos a x y : y ∈ a_seq (spec_keep x a) -> a_pos (spec_keep x a) = a_pos a.
Proof. unfold spec_keep, spec_seq_keep. repeat case_decide; cbn; set_solver. Qed.

Lemma add_cell a x p0 p1 d y : 0 <= a_pos a + d -> y ∈ a_seq (spec_add x p0 p1 d a) <-> y ∈ a_seq a.
Proof. intros H. unfold spec_add, spec_pos_add. case_decide; [|done]. by rewrite decide_False by lia. Qed.

(** ** The parts step together *)

Lemma step_clear n l : in_step n ((fun _ : cell => cell_empty) <$> l) (fun _ => None).
Proof. intros x _. apply top_none. intros a _. apply not_elem_of_empty. Qed.

Section together.
Context (n : nat) (l : list cell) (v : Z -> option (Z * gset Z * option unit)).
Context (S : in_step n l v) (F : Forall cell_ok l).
Context (Hv : forall x p g d, v x = Some (p, g, d) -> x ∈ g /\ 0 <= p < INT32_MAX /\ forall y, y ∈ g -> v y = Some (p, g, d)).

(** A removal of [x]: nothing, or everything. *)
Lemma step_rm x p0 p1 : 0 <= x < Z.of_nat n -> (r_rm n x p0 p1 v).2 = true ->
  in_step n (spec_rm x p0 p1 <$> l) (r_rm n x p0 p1 v).1.
Proof.
  intros Hx Hok y Hy. unfold r_rm in *.
  destruct (Z.geb_spec x (Z.of_nat n)) as [Hb|_]; [lia|]. destruct (Z.ltb_spec x 0) as [Hb|_]; [lia|].
  pose proof (S x Hx) as Tx. pose proof (S y Hy) as Ty. rewrite list.Forall_forall in F.
  assert (Other : y <> x -> spec_pos_max (spec_rm x p0 p1 <$> l) y (last_pos (v y))).
  { intros Hne. apply (top_kept _ _ y); [done|..]; intros a Ha; unfold spec_rm; case_decide; try done.
    - intros Hin. split; [by apply seq_rm_cell in Hin as [? _]; [|apply F]|by eapply seq_rm_pos].
    - intros Hin _. by apply seq_rm_cell; [apply F|]. }
  destruct (v x) as [[[p g] d]|] eqn:Ex; cbn [last_pos] in Tx.
  - destruct (Hv _ _ _ _ Ex) as [_ Hp].
    destruct ((range_lo p0 <=? p) && (p <? range_hi p1)) eqn:Er.
    + destruct (Z.ltb_spec 0 (range_lo p0)) as [Hlo|Hlo]; [done|]. cbn [fst]. unfold r_release.
      case_decide as Hyx.
      * subst y. apply top_none. intros a Ha. unfold spec_rm. case_decide as Hr.
        -- rewrite seq_rm_cell by by apply F. by intros [_ ?].
        -- intros Hin. apply Hr. split; [|done]. pose proof (top_le _ _ _ _ Tx Ha Hin).
           destruct (cell_seq_pos a x (F a Ha) Hin). unfold in_range.
           change (fix_p0 p0) with (range_lo p0). change (fix_p1 p1) with (range_hi p1). lia.
      * specialize (Other Hyx). destruct (v y) as [[[q g'] d']|]; exact Other.
    + cbn [fst]. destruct (decide (y = x)) as [->|Hyx]; [|by apply Other]. rewrite Ex. cbn [last_pos].
      apply (top_kept _ _ x); [done|..]; intros a Ha; unfold spec_rm; case_decide as Hr; try done.
      * intros Hin. split; [by apply seq_rm_cell in Hin as [? _]; [|apply F]|by eapply seq_rm_pos].
      * intros _ Hap. exfalso. destruct Hr as [Hr _]. unfold in_range in Hr.
        change (fix_p0 p0) with (range_lo p0) in Hr. change (fix_p1 p1) with (range_hi p1) in Hr. lia.
  - cbn [fst]. destruct (decide (y = x)) as [->|Hyx]; [|by apply Other]. rewrite Ex. cbn [last_pos].
    apply top_none. intros a Ha. pose proof (top_absent _ _ a Tx ltac:(by apply list.Forall_forall) Ha) as Hn.
    unfold spec_rm. case_decide as Hr; [by destruct Hr|done].
Qed.

Lemma step_keep x : 0 <= x < Z.of_nat n -> in_step n (spec_keep x <$> l) (r_keep x v).
Proof.
  intros Hx y Hy. unfold r_keep. case_decide as E.
  - subst y. assert (El : last_pos ((fun '(p, _, d) => (p, {[x]}, d)) <$> v x) = last_pos (v x)).
    { by destruct (v x) as [[[p g] d]|]. }
    rewrite El. apply (top_kept _ _ x); [by apply S|..]; intros a Ha.
    + intros Hin. split; [by apply keep_cell in Hin as [_ ?]|by eapply keep_pos].
    + intros Hin _. by apply keep_cell.
  - apply top_none. intros a Ha [? _]%keep_cell. done.
Qed.

(** A copy to an absent sequence. *)
Lemma step_cp src dst : 0 <= src < Z.of_nat n -> 0 <= dst < Z.of_nat n -> src <> dst -> v dst = None ->
  in_step n (spec_cp src dst (-1) (-1) <$> l) (r_cp n src dst v).
Proof.
  intros Hs Hd Hne Ed y Hy. unfold r_cp, in_size.
  rewrite (proj2 (Z.eqb_neq src dst)), !(proj2 (Z.leb_le _ _)), !(proj2 (Z.ltb_lt _ _)) by lia.
  cbn [andb negb orb]. rewrite list.Forall_forall in F.
  pose proof (S src Hs) as Ts. pose proof (S dst Hd) as Td. rewrite Ed in Td. cbn [last_pos] in Td.
  assert (Other : y <> dst -> spec_pos_max (spec_cp src dst (-1) (-1) <$> l) y (last_pos (v y))).
  { intros Hyd. apply (top_kept _ _ y); [by apply S|..]; intros a Ha; unfold spec_cp; case_decide; cbn; try done; set_solver. }
  assert (Same : last_pos (r_release dst v y) = last_pos (v y)).
  { unfold r_release. case_decide as E; [subst y; by rewrite Ed|]. by destruct (v y) as [[[q g] d]|]. }
  destruct (r_release dst v src) as [[[p g] d]|] eqn:Er; unfold r_release in Er; rewrite decide_False in Er by done;
    destruct (v src) as [[[p' g'] d']|] eqn:Es; try done.
  - injection Er as -> <- ->. destruct (Hv _ _ _ _ Es) as (Hin & Hp & Hsh). cbn [last_pos] in Ts.
    destruct (decide (y = dst)) as [->|Hyd].
    + rewrite decide_True by set_solver. cbn [last_pos]. apply (top_kept _ _ src); [done|..]; intros a Ha.
      * intros Hy'. unfold spec_cp in *. case_decide as Hr; [by destruct Hr|]. by destruct (top_absent _ _ a Td ltac:(by apply list.Forall_forall) Ha).
      * intros Hsa Hap. unfold spec_cp. rewrite decide_True; [set_solver|]. split; [|done]. unfold in_range. cbn. lia.
    + case_decide as Hg; [|rewrite Same; by apply Other]. cbn [last_pos]. rewrite (Hsh y) in Other by set_solver. by apply Other.
  - rewrite Same. destruct (decide (y = dst)) as [->|Hyd]; [|by apply Other]. rewrite Ed. apply top_none. intros a Ha.
    unfold spec_cp. case_decide as Hr; [|by apply (top_absent _ _ a Td ltac:(by apply list.Forall_forall))].
    destruct (top_absent _ _ a Ts ltac:(by apply list.Forall_forall) Ha). by destruct Hr.
Qed.

(** A shift of the end of a sequence that shares neither cells nor state, over positions
    that are free. *)
Definition can_shift (x p0 d : Z) : Prop :=
  (forall p g e, v x = Some (p, g, e) -> g = {[x]}) /\
  forall a, a ∈ l -> x ∈ a_seq a ->
    if decide (in_range p0 (-1) a)
    then a_seq a = {[x]} /\ 0 <= a_pos a + d < INT32_MAX /\ INT32_MIN <= a_shift a + d <= INT32_MAX
    else a_pos a < p0 + d.

Lemma shifted_cell x p0 d a : can_shift x p0 d -> a ∈ l -> x ∈ a_seq a -> in_range p0 (-1) a ->
  a_seq (spec_add x p0 (-1) d a) = {[x]} /\ a_pos (spec_add x p0 (-1) d a) = a_pos a + d.
Proof.
  intros [_ Hc] Ha Hx Hr. specialize (Hc a Ha Hx). rewrite decide_True in Hc by done. destruct Hc as (E & H0 & _).
  unfold spec_add, spec_pos_add. rewrite decide_True by done. by rewrite decide_False by lia.
Qed.

Lemma unshifted_cell x p0 d a : ~ (in_range p0 (-1) a /\ x ∈ a_seq a) -> spec_add x p0 (-1) d a = a.
Proof. intros H. unfold spec_add. by rewrite decide_False. Qed.

(** The sequence [x] itself. *)
Lemma step_add_self x p0 d p g e : v x = Some (p, g, e) -> can_shift x p0 d -> spec_pos_max l x p ->
  spec_pos_max (spec_add x p0 (-1) d <$> l) x (if (range_lo p0 <=? p) && (p <? range_hi (-1)) then p + d else p).
Proof.
  intros Ex Hc Tx. destruct (Hv _ _ _ _ Ex) as (Hin & Hp & _).
  assert (Rng : forall a, a_pos a <= p -> in_range p0 (-1) a <-> range_lo p0 <= a_pos a).
  { intros a Ha. unfold in_range. change (fix_p0 p0) with (range_lo p0). cbn. lia. }
  destruct ((range_lo p0 <=? p) && (p <? range_hi (-1))) eqn:Er.
  - destruct (top_at _ _ _ Tx) as (a & Ha & Hax & Hap); [lia|]. right. split.
    + destruct (shifted_cell x p0 d a Hc Ha Hax) as [E1 E2]; [apply Rng; lia|].
      apply list_elem_of_lookup in Ha as [i Hi]. exists i, (spec_add x p0 (-1) d a).
      rewrite list_lookup_fmap, Hi, E1, E2, Hap. split; [done|]. split; [set_solver|done].
    + intros j b. rewrite list_lookup_fmap_Some. intros (c & -> & Hj) Hb.
      assert (Hcl : c ∈ l) by (by eapply list_elem_of_lookup_2).
      destruct (decide (in_range p0 (-1) c /\ x ∈ a_seq c)) as [[Hr Hxc]|Hn].
      * destruct (shifted_cell x p0 d c Hc Hcl Hxc Hr) as [_ ->]. pose proof (top_le _ _ _ _ Tx Hcl Hxc). lia.
      * rewrite unshifted_cell in * by done. destruct Hc as [_ Hc]. specialize (Hc c Hcl Hb).
        case_decide as Hr; [by destruct Hn|]. pose proof (top_le _ _ _ _ Tx Hcl Hb) as Hle. rewrite (Rng c Hle) in Hr.
        unfold range_lo in *. case_match; lia.
  - apply (top_kept _ _ x); [done|..]; intros a Ha.
    + intros Hb. destruct (decide (in_range p0 (-1) a /\ x ∈ a_seq a)) as [[Hr Hxa]|Hn]; [|by rewrite unshifted_cell in * by done].
      pose proof (top_le _ _ _ _ Tx Ha Hxa) as Hle. rewrite (Rng a Hle) in Hr. cbn in Er. lia.
    + intros Hxa Hap. destruct (decide (in_range p0 (-1) a /\ x ∈ a_seq a)) as [[Hr _]|Hn]; [|by rewrite unshifted_cell by done].
      destruct (shifted_cell x p0 d a Hc Ha Hxa Hr) as [-> _]. set_solver.
Qed.

Lemma step_add x p0 d : 0 <= x < Z.of_nat n -> can_shift x p0 d ->
  in_step n ((if d =? 0 then id else spec_add x p0 (-1) d) <$> l) (r_move (fun p => p + d) x p0 (-1) v).
Proof.
  intros Hx Hc y Hy. destruct (Z.eqb_spec d 0) as [->|Hd].
  { rewrite list_fmap_id. assert (E : last_pos (r_move (fun p => p + 0) x p0 (-1) v y) = last_pos (v y)).
    { unfold r_move. destruct (v y) as [[[q g] e]|]; [|done]. cbn. rewrite Z.add_0_r. by destruct (_ && _). }
    rewrite E. by apply S. }
  pose proof (S y Hy) as Ty. unfold r_move. destruct (decide (y = x)) as [->|Hyx].
  - destruct (v x) as [[[p g] e]|] eqn:Ex; cbn [fmap option_fmap option_map last_pos] in *.
    + destruct (Hv _ _ _ _ Ex) as (Hin & _). rewrite (bool_decide_eq_true_2 _ Hin). cbn [andb].
      pose proof (step_add_self x p0 d p g e Ex Hc Ty) as R. by destruct (_ && _).
    + apply top_none. intros a Ha. pose proof (top_absent _ _ a Ty F Ha) as Hn. rewrite unshifted_cell; [done|]. by intros [_ ?].
  - assert (E : last_pos ((fun '(p, g, e) => if bool_decide (x ∈ g) && (range_lo p0 <=? p) && (p <? range_hi (-1))
        then (p + d, g, e) else (p, g, e)) <$> v y) = last_pos (v y)).
    { destruct (v y) as [[[q g] e]|] eqn:Ey; [|done]. cbn. rewrite bool_decide_eq_false_2; [done|]. intros Hxg.
      destruct (Hv _ _ _ _ Ey) as (Hyg & _ & Hsh). destruct Hc as [Hc _]. rewrite (Hc _ _ _ (Hsh x Hxg)) in Hyg. set_solver. }
    rewrite E. apply (top_kept _ _ y); [done|..]; intros a Ha;
      (destruct (decide (in_range p0 (-1) a /\ x ∈ a_seq a)) as [[Hr Hxa]|Hn]; [|by rewrite unshifted_cell by done]);
      destruct (shifted_cell x p0 d a Hc Ha Hxa Hr) as [Es _].
    + rewrite Es. set_solver.
    + destruct Hc as [_ Hc]. specialize (Hc a Ha Hxa). rewrite decide_True in Hc by done. destruct Hc as [Ea _].
      rewrite Ea. set_solver.
Qed.
End together.

(** ** The operations of the memory *)

Inductive hyb_op :=
  | HybClear (data : bool)
  | HybSeqRm (x p0 p1 : Z)
  | HybSeqCp (src dst : Z)
  | HybSeqKeep (x : Z)
  | HybSeqAdd (x p0 d : Z).

(** Copies are of whole sequences, shifts of the end of a sequence. *)
Definition hyb_exec (h : llama_memory_hybrid) (op : hyb_op) : res (llama_memory_hybrid * bool) :=
  let ret h := Ok (h, true) in
  match op with
  | HybClear data => hyb_clear data h ≫= ret
  | HybSeqRm x p0 p1 => hyb_seq_rm h x p0 p1
  | HybSeqCp src dst => hyb_seq_cp h src dst (-1) (-1) ≫= ret
  | HybSeqKeep x => hyb_seq_keep h x ≫= ret
  | HybSeqAdd x p0 d => hyb_seq_add h x p0 (-1) d ≫= ret
  end.

(** What the operation asks of the recurrent memory. *)
Definition rec_op_of (op : hyb_op) : rec_op :=
  match op with
  | HybClear data => Clear data
  | HybSeqRm x p0 p1 => SeqRm x p0 p1
  | HybSeqCp src dst => SeqCp src dst (-1) (-1)
  | HybSeqKeep x => SeqKeep x
  | HybSeqAdd x p0 d => SeqAdd x p0 (-1) d
  end.

Definition hyb_op_ok (h : llama_memory_hybrid) (op : hyb_op) : Prop :=
  let valid x := 0 <= x < Z.of_nat (rm_size (mem_recr h)) in
  match op with
  | HybClear _ => True
  | HybSeqRm x _ _ => 0 <= x
  | HybSeqCp src dst => valid src /\ valid dst /\ src <> dst /\ hyb_seq_pos_max h dst = Ok (-1)
  | HybSeqKeep x => valid x
  | HybSeqAdd x p0 d => valid x /\ forall l, kv_abs (mem_attn h) = [l] -> can_shift l (recr (mem_recr h)) x p0 d
  end.

Lemma kv_clear_any size kv l data : kv_implements unified_map size kv [l] ->
  runs (kv_clear data kv) (fun kv' => kv_implements unified_map size kv' [(fun _ => cell_empty) <$> l]).
Proof.
  intros K. pose proof (attn_step size kv l KvClear _ K (spec_clear_one size l)) as R. cbn [run_kv_op] in R.
  destruct data; [|exact R]. unfold kv_clear in *. apply runs_inv in R as (kv' & E & [I' M P A]).
  apply bind_ok_inv in E as (kv1 & E & E1). injection E1 as ->. rewrite E, bind_ok. apply runs_ok.
  split; [|done..]. destruct I'. by split.
Qed.

Lemma rec_seq_rm_refused m x p0 p1 m' : rec_seq_rm m x p0 p1 = Ok (m', false) -> m' = m.
Proof.
  unfold rec_seq_rm. intros H. case_match; [by injection H as <-|].
  bind_inv H t Ht. destruct t as [cs|]; [|by injection H as <-]. bind_inv H st Hst. by destruct st as [[? ?] ?].
Qed.

Section ops.
Context (size : nat) (h : llama_memory_hybrid) (I : hyb_inv size h).
Abbreviation m := (mem_recr h).

Lemma recr_shared x p g d : recr m x = Some (p, g, d) ->
  x ∈ g /\ 0 <= p < INT32_MAX /\ forall y, y ∈ g -> recr m y = Some (p, g, d).
Proof.
  intros E. pose proof (hi_recr _ _ I) as R. destruct (seq_state_pos _ _ R _ _ _ _ E) as (_ & Ht & Hx & Ep & Eg & Ed & Hp).
  split; [done|]. split; [done|]. intros y Hy. rewrite Eg in Hy. apply (co_seq _ (ri_cells _ R)) in Hy as [H0 Hty].
  rewrite seq_state_at; [|apply R|done|]; rewrite Hty, Z2Nat.id by lia; [by rewrite Ep, Eg, Ed|lia].
Qed.

(** The memory [h'] is in step, with the machine [v'] of its recurrent part. *)
Definition arrives (v' : Z -> option (Z * gset Z * option unit)) (h' : llama_memory_hybrid) : Prop :=
  hyb_inv size h' /\ rm_size (mem_recr h') = rm_size m /\ forall x, recr (mem_recr h') x = v' x.

Lemma arrive kv' l' m' v' : kv_implements unified_map size kv' [l'] -> lands (@nil unit) m m' v' ->
  in_step (rm_size m) l' v' -> arrives v' (mk_hyb kv' m').
Proof.
  intros K (R' & [Es _] & Ev) St. split; [|by split]. apply (step_hyb_inv size kv' l'); [done|done|rewrite Es; apply I|].
  rewrite Es. intros x Hx. rewrite Ev. by apply St.
Qed.

Lemma both_step op f l' : (rec_spec (rm_size m) op (recr m)).2 = true -> op_ok op (recr m) ->
  runs (f (mem_attn h)) (fun kv' => kv_implements unified_map size kv' [l']) ->
  in_step (rm_size m) l' (rec_spec (rm_size m) op (recr m)).1 -> forall g, rec_exec m op = g m ≫= (fun m' => Ok (m', true)) ->
  runs (on_parts f g h ≫= fun h' => Ok (h', true)) (fun r =>
    arrives (rec_spec (rm_size m) op (recr m)).1 r.1 /\ r.2 = (rec_spec (rm_size m) op (recr m)).2 /\ (r.2 = false -> r.1 = h)).
Proof.
  intros Hb Hop Hf St g Eg. pose proof (rec_exec_ok (@nil unit) m op (hi_recr _ _ I) Hop) as Hg. rewrite Eg in Hg.
  apply runs_bind. unfold on_parts. apply runs_bind. eapply runs_mono; [exact Hf|]. intros kv' K.
  apply runs_inv in Hg as ([m' b] & E & L & _). apply bind_ok_inv in E as (m1 & E & E1). injection E1 as -> <-.
  rewrite E, bind_ok. apply runs_ok, runs_ok. cbn [fst snd] in *. split; [by apply (arrive _ l')|]. by rewrite Hb.
Qed.

(** A removal: the recurrent part answers first. *)
Lemma rm_step x p0 p1 : 0 <= x -> runs (hyb_seq_rm h x p0 p1) (fun r =>
  arrives (r_rm (rm_size m) x p0 p1 (recr m)).1 r.1 /\ r.2 = (r_rm (rm_size m) x p0 p1 (recr m)).2 /\ (r.2 = false -> r.1 = h)).
Proof.
  intros Hx. destruct (hyb_inv_step size h I) as (l & K & St). pose proof (hi_ids _ _ I) as Hn.
  destruct (runs_inv _ _ (rec_seq_rm_ok (@nil unit) m (hi_recr _ _ I) x p0 p1 ltac:(by left))) as ([m' b] & E & L & Eb).
  cbn [fst snd] in *. subst b. unfold hyb_seq_rm. rewrite E, bind_ok. cbn [fst snd].
  destruct (r_rm (rm_size m) x p0 p1 (recr m)).2 eqn:Er; cbn [negb].
  - assert (Hlt : x < Z.of_nat (rm_size m)).
    { unfold r_rm in Er. destruct (Z.geb_spec x (Z.of_nat (rm_size m))); [done|lia]. }
    assert (Hv : 0 <= x < Z.of_nat LLAMA_MAX_SEQ) by lia.
    pose proof (attn_step size (mem_attn h) l _ _ K (spec_rm_one size l x p0 p1 Hv)) as R. cbn [run_kv_op] in R.
    apply runs_inv in R as (kv' & Ek & K'). apply bind_ok_inv in Ek as ([kv1 b] & Ek & E1). cbn [fst snd] in E1.
    apply bind_ok_inv in E1 as (u & Eb & E1). injection E1 as ->. cbn [mem_attn]. rewrite Ek, bind_ok. apply runs_ok.
    cbn [fst snd]. assert (b = true) as -> by (by destruct b). split; [|done]. apply (arrive _ (spec_rm x p0 p1 <$> l)); [done|done|].
    apply step_rm; [done|by eapply attn_ok|exact recr_shared|lia|done].
  - apply rec_seq_rm_refused in E as ->. apply runs_ok. cbn [fst snd].
    assert (Eh : mk_hyb (mem_attn h) m = h) by (by destruct h). rewrite Eh. split; [|done].
    split; [exact I|]. split; [done|]. apply L.
Qed.

Lemma hyb_exec_ok op : hyb_op_ok h op -> runs (hyb_exec h op) (fun r =>
  arrives (rec_spec (rm_size m) (rec_op_of op) (recr m)).1 r.1 /\
  r.2 = (rec_spec (rm_size m) (rec_op_of op) (recr m)).2 /\ (r.2 = false -> r.1 = h)).
Proof.
  intros Hop. destruct (hyb_inv_step size h I) as (l & K & St). pose proof (hi_ids _ _ I) as Hn.
  pose proof (attn_ok size _ l K) as F. pose proof recr_shared as Sh.
  destruct op as [data|x p0 p1|src dst|x|x p0 d]; cbn [hyb_exec rec_op_of hyb_op_ok] in *.
  - apply (both_step (Clear data) _ ((fun _ => cell_empty) <$> l)); [done|done|by apply kv_clear_any|apply step_clear|done].
  - by apply rm_step.
  - destruct Hop as (Hs & Hd & Hne & Habs).
    assert (Ed : recr m dst = None).
    { destruct (hyb_range_ok size h dst I Hd) as (p & _ & _ & E). rewrite E in Habs. injection Habs as ->.
      unfold hyb_seq_pos_max in E. rewrite (hi_step _ _ I) in E by done.
      rewrite (rec_seq_pos_max_ok (@nil unit) m (hi_recr _ _ I)), !bind_ok in E. injection E as E. rewrite Z.min_id in E.
      destruct (recr m dst) as [[[q g] e]|] eqn:Er; [|done]. cbn in E. destruct (Sh _ _ _ _ Er) as (_ & ? & _). lia. }
    apply (both_step (SeqCp src dst (-1) (-1)) _ (spec_cp src dst (-1) (-1) <$> l));
      [done|cbn [op_ok]; unfold INT32_MIN, INT32_MAX, LLAMA_MAX_SEQ in *; lia| |by apply step_cp|done].
    apply (attn_step size (mem_attn h) l (KvSeqCp src dst (-1) (-1)) _ K). apply spec_cp_one; [lia|lia|done|].
    apply list.Forall_forall. intros a Ha _. pose proof (St dst Hd) as T. rewrite Ed in T. by apply (top_absent l).
  - apply (both_step (SeqKeep x) _ (spec_keep x <$> l)); [done|done| |by apply step_keep|done].
    apply (attn_step size (mem_attn h) l (KvSeqKeep x) _ K), spec_keep_one. lia.
  - destruct Hop as [Hx Hc]. specialize (Hc l (im_abs _ _ _ _ K)). pose proof Hc as [Hg Hcell].
    apply (both_step (SeqAdd x p0 (-1) d) _ ((if d =? 0 then id else spec_add x p0 (-1) d) <$> l)); [done| | |by apply step_add|done].
    + intros p g e Ex Hp. pose proof (St x Hx) as T. rewrite Ex in T. cbn [last_pos] in T. destruct (Sh _ _ _ _ Ex) as (_ & Hp' & _).
      destruct (top_at _ _ _ T) as (a & Ha & Hxa & <-); [lia|]. specialize (Hcell a Ha Hxa). rewrite decide_True in Hcell; [lia|exact Hp].
    + apply (attn_step size (mem_attn h) l (KvSeqAdd x p0 (-1) d) _ K), spec_add_one; [lia|].
      apply list.Forall_forall. intros a Ha [Hr Hxa]. specialize (Hcell a Ha Hxa). rewrite decide_True in Hcell by done.
      unfold INT32_MIN, INT32_MAX in *. lia.
Qed.
End ops.

(** ** The constructor *)

Lemma hyb_new_ok grs hp tk tv vt kv_size n_pad n_swa t tr ts rs_size n_seq_max fa fr h :
  (0 < n_seq_max <= LLAMA_MAX_SEQ)%nat -> (rs_size <= LLAMA_MAX_SEQ)%nat -> n_pos_per_embd hp = 1 ->
  llama_memory_hybrid_new grs hp tk tv vt kv_size n_pad n_swa t tr ts rs_size n_seq_max true fa fr true true true = Ok h ->
  hyb_inv kv_size h /\ forall x, 0 <= x < Z.of_nat rs_size -> hyb_seq_pos_max h x = Ok (-1).
Proof.
  intros Hn Hr Hp H. unfold llama_memory_hybrid_new in H. bind_inv H kv Hkv. bind_inv H m Hm. injection H as <-.
  apply llama_kv_cache_new_fresh in Hkv as F; [|done].
  apply (rec_new_ok (@nil unit)) in Hm as (R & Es & Hv); [|unfold INT32_MAX, LLAMA_MAX_SEQ in *; lia].
  destruct (cells_resize_ok kv_size llama_kv_cells_new) as (_ & Ec & _); [done|].
  assert (K : kv_implements unified_map kv_size kv [replicate kv_size cell_empty]).
  { split; [apply F|by rewrite (fr_map _ _ _ _ _ _ _ _ F)|by rewrite (fr_hp _ _ _ _ _ _ _ _ F)|].
    unfold kv_abs. rewrite (fr_cells _ _ _ _ _ _ _ _ F). destruct (fr_n _ _ _ _ _ _ _ _ F) as [-> _]. by rewrite fmap_replicate, Ec. }
  assert (I : hyb_inv kv_size (mk_hyb kv m)).
  { apply (step_hyb_inv kv_size kv (replicate kv_size cell_empty)); [done|done|lia|]. intros x _. rewrite Hv. left.
    split; [done|]. intros i a [-> _]%lookup_replicate. apply not_elem_of_empty. }
  split; [done|]. intros x Hx. unfold hyb_seq_pos_max. rewrite (hi_step _ _ I) by (cbn; lia). cbn [mem_recr].
  by rewrite (rec_seq_pos_max_ok (@nil unit) m R), Hv, !bind_ok.
Qed.

(** ** The theorem *)

(** C11: over a unified KV cache the two parts of the hybrid memory stay in step: for sequence
    ids that the memory has, [clear], [seq_rm] (of any id from 0 on), [seq_keep], a copy of a
    whole sequence to an absent one, and a shift by [d] from the position [p0] to the end of a
    sequence, under the bounds below, run on both parts without a fault and leave the last
    position of every sequence in the cells of the cache equal to the position of its recurrent
    state; both position getters of the memory answer that position (or -1), and a [seq_rm]
    that the recurrent part refuses changes nothing.  The bounds of the shift ([can_shift]):
    the sequence shares neither its recurrent state nor a cell from [p0] on; every such cell
    keeps a position of at least 0 and below the largest 32-bit value, and the shift that it
    has collected stays a 32-bit value; and the cells of the sequence before [p0], which stay
    where they are, lie below [p0 + d], so that they do not end up behind the moved ones.
    Nothing is claimed of a shift past these bounds, where the parts can get out of step. *)
Theorem hybrid_parts_in_step size h op :
  hyb_inv size h -> hyb_op_ok h op ->
  runs (hyb_exec h op) (fun r =>
    let spec := rec_spec (rm_size (mem_recr h)) (rec_op_of op) (recr (mem_recr h)) in
    hyb_inv size r.1 /\ r.2 = spec.2 /\ (r.2 = false -> r.1 = h) /\
    forall x, 0 <= x < Z.of_nat (rm_size (mem_recr h)) ->
      hyb_seq_pos_min r.1 x = Ok (last_pos (spec.1 x)) /\ hyb_seq_pos_max r.1 x = Ok (last_pos (spec.1 x))).
Proof.
  intros I Hop. eapply runs_mono; [by apply hyb_exec_ok|]. intros [h' b] ((I' & Es & Ev) & Eb & Hf). cbv zeta. cbn [fst snd] in *.
  split; [done|]. split; [done|]. split; [done|]. intros x Hx. rewrite <- Ev.
  destruct (hyb_range_ok size h' x I') as (p & _ & E1 & E2); [lia|]. rewrite E1, E2.
  unfold hyb_seq_pos_max in E2. rewrite (hi_step _ _ I'), (rec_seq_pos_max_ok (@nil unit) _ (hi_recr _ _ I')), !bind_ok, Z.min_id in E2 by lia.
  by injection E2 as <-.
Qed.

Definition step_cells : list cell := [mk_cell 7 ext_reset 0 {[0]}; mk_cell 4 ext_reset 0 {[1; 2]}; cell_empty].

Lemma step_cells_ok : in_step 3 step_cells (recr toy_rec).
Proof.
  intros x Hx. assert (Hc : x = 0 \/ x = 1 \/ x = 2) by lia.
  destruct Hc as [-> | [-> | ->]]; (right; split; [|intros [|[|[|i]]] a Ha Hin; try discriminate Ha; injection Ha as <-; vm_compute; try discriminate; exfalso; cbn in Hin; set_solver]).
  - exists 0%nat, (mk_cell 7 ext_reset 0 {[0]}). split; [done|]. split; [cbn; set_solver|done].
  - exists 1%nat, (mk_cell 4 ext_reset 0 {[1; 2]}). split; [done|]. split; [cbn; set_solver|done].
  - exists 1%nat, (mk_cell 4 ext_reset 0 {[1; 2]}). split; [done|]. split; [cbn; set_solver|done].
Qed.

Lemma hybrid_parts_in_step_witness :
  exists kv, hyb_inv 3 (mk_hyb kv toy_rec) /\
    runs (hyb_exec (mk_hyb kv toy_rec) (HybSeqRm 1 2 (-1))) (fun r => r = (mk_hyb kv toy_rec, false)) /\
    runs (hyb_exec (mk_hyb kv toy_rec) (HybSeqRm 1 0 (-1))) (fun r => r.2 = true /\
      hyb_seq_pos_max r.1 1 = Ok (-1) /\ hyb_seq_pos_max r.1 2 = Ok 4).
Proof.
  assert (F : fresh true 3 2 1 0 LLAMA_SWA_TYPE_NONE toy_hparams (toy_kv true 3 2)).
  { apply toy_fresh; [unfold LLAMA_MAX_SEQ; lia|]. vm_compute. reflexivity. }
  destruct (machine_state 3 [OpPosSet 0 7; OpSeqAdd 0 0; OpPosSet 1 4; OpSeqAdd 1 1; OpSeqAdd 1 2]
    (step_cells, false) (replicate 5 NoAnswer)) as (c & _ & I1); [vm_compute; reflexivity|].
  exists (with_cells [2%nat] [c] (toy_kv true 3 2)).
  assert (I : hyb_inv 3 (mk_hyb (with_cells [2%nat] [c] (toy_kv true 3 2)) toy_rec)).
  { apply (step_hyb_inv 3 _ step_cells); [|apply toy_rec_inv|vm_compute; lia|exact step_cells_ok].
    eapply (one_stream_implements 3 1 0 _ _ 2); [exact F|reflexivity|exact I1|reflexivity|lia|].
    intros [|[|[|i]]] a Ha; simpl in Ha; try discriminate Ha; injection Ha as <-; vm_compute; congruence. }
  split; [exact I|]. split.
  - eapply runs_mono; [apply (hybrid_parts_in_step 3 _ (HybSeqRm 1 2 (-1)) I); cbn; lia|].
    intros [h' b] (_ & Eb & Hf & _). cbn [fst snd] in *. vm_compute in Eb. subst b. by rewrite Hf.
  - eapply runs_mono; [apply (hybrid_parts_in_step 3 _ (HybSeqRm 1 0 (-1)) I); cbn; lia|].
    intros [h' b] (_ & Eb & _ & Hx). cbn [fst snd] in *. vm_compute in Eb. split; [exact Eb|]. split.
    + destruct (Hx 1) as (_ & E1); [vm_compute; split; [discriminate|reflexivity]|]. rewrite E1. vm_compute. reflexivity.
    + destruct (Hx 2) as (_ & E1); [vm_compute; split; [discriminate|reflexivity]|]. rewrite E1. vm_compute. reflexivity.
Defined.
