(* ===== verification/StateExn.v ===== *)
(** Computations that keep a mutable object and may throw: the object survives the
    exception, as a C++ object captured by reference does.  Used for the grammar parser
    (its symbol table and rules) and for the text written to a [FILE *]. *)

From S2P Require Import Prelude.

Definition ST (S A : Type) : Type := S -> res A * S.

Definition st_bind {S A B} (m : ST S A) (k : A -> ST S B) : ST S B := fun s =>
  match m s with
  | (Ok a, s') => k a s'
  | (Throw msg, s') => (Throw msg, s')
  | (Fault f, s') => (Fault f, s')
  end.

Declare Scope st_scope.
Delimit Scope st_scope with st.
Notation "x <- m ;; k" := (st_bind m (fun x => k))
  (at level 100, m at next level, right associativity) : st_scope.
Notation "m ;;; k" := (st_bind m (fun _ => k))
  (at level 100, right associativity) : st_scope.
Local Open Scope st_scope.

Definition st_ret {S A} (a : A) : ST S A := fun s => (Ok a, s).
Definition lift {S A} (m : res A) : ST S A := fun s => (m, s).
Definition st_throw {S A} (msg : string) : ST S A := fun s => (Throw msg, s).
Definition st_get {S} : ST S S := fun s => (Ok s, s).
Definition st_put {S} (s' : S) : ST S unit := fun _ => (Ok tt, s').

(** [while (true) { ... }]: [inl] continues, [inr] leaves the loop. *)
Fixpoint st_loop {S A} (fuel : nat) (body : A -> ST S (A + A)) (a : A) : ST S A :=
  match fuel with
  | O => lift (Fault OutOfFuel)
  | Datatypes.S fuel =>
      r <- body a ;;
      match r with
      | inl a' => st_loop fuel body a'
      | inr a' => st_ret a'
      end
  end.

(** ** Reasoning *)

Section rules.
(** An invariant of the object, an order in which it only grows, and the objects in which an
    index may leave its bounds. *)
Context {S : Type} (I : S -> Prop) (le : S -> S -> Prop) (bad : S -> Prop) `{!PreOrder le}.

(** [keeps P m Q]: from an object satisfying the invariant and [P], [m] either throws
    or ends with a larger object that satisfies the invariant and is related to the
    value by [Q]; it faults only in a bad object, on an index, and never for lack of fuel. *)
Definition keeps {A} (P : S -> Prop) (m : ST S A) (Q : A -> S -> Prop) : Prop :=
  forall s, I s -> P s ->
    match m s with
    | (Ok a, s') => I s' /\ le s s' /\ Q a s'
    | (Throw _, _) => True
    | (Fault f, s') => f = OutOfRange /\ bad s'
    end.

(** A property of the object that its growth preserves. *)
Definition stable (F : S -> Prop) : Prop := forall s s', le s s' -> F s -> F s'.

Lemma keeps_ret {A} (a : A) P (Q : A -> S -> Prop) :
  (forall s, I s -> P s -> Q a s) -> keeps P (st_ret a) Q.
Proof. intros H s HI HP. repeat split; [done|reflexivity|auto]. Qed.

Lemma keeps_throw {A} msg P (Q : A -> S -> Prop) : keeps P (st_throw msg) Q.
Proof. done. Qed.

Lemma keeps_lift {A} (m : res A) P (Q : A -> S -> Prop) :
  (forall a s, m = Ok a -> I s -> P s -> Q a s) -> (forall f, m <> Fault f) ->
  keeps P (lift m) Q.
Proof.
  intros H Hf s HI HP. unfold lift. destruct m as [a|msg|f]; [|done|].
  - repeat split; [done|reflexivity|auto].
  - by destruct (Hf f).
Qed.

Lemma keeps_get P (Q : S -> S -> Prop) :
  (forall s, I s -> P s -> Q s s) -> keeps P st_get Q.
Proof. intros H s HI HP. repeat split; [done|reflexivity|auto]. Qed.

Lemma keeps_bind {A B} (m : ST S A) (k : A -> ST S B) P (R : A -> S -> Prop) (Q : B -> S -> Prop) :
  keeps P m R -> (forall a, keeps (R a) (k a) Q) -> keeps P (st_bind m k) Q.
Proof.
  intros Hm Hk s HI HP. specialize (Hm s HI HP). unfold st_bind.
  destruct (m s) as [[a|msg|f] s1]; [|done..]. destruct Hm as (HI1 & Hle & HR).
  specialize (Hk a s1 HI1 HR).
  destruct (k a s1) as [[b|msg|f] s2]; [|done..].
  destruct Hk as (? & ? & ?). repeat split; [done|by transitivity s1|done].
Qed.

Lemma keeps_mono {A} (m : ST S A) (P P' : S -> Prop) (Q Q' : A -> S -> Prop) :
  keeps P m Q -> (forall s, I s -> P' s -> P s) -> (forall a s, I s -> Q a s -> Q' a s) ->
  keeps P' m Q'.
Proof.
  intros Hm HP HQ s HI Hs. specialize (Hm s HI (HP s HI Hs)).
  destruct (m s) as [[a|msg|f] s']; [|done..]. destruct Hm as (? & ? & ?). auto.
Qed.

Lemma keeps_frame {A} (m : ST S A) (P F : S -> Prop) (Q : A -> S -> Prop) :
  stable F -> keeps P m Q -> keeps (fun s => P s /\ F s) m (fun a s => Q a s /\ F s).
Proof.
  intros HF Hm s HI [HP Hs]. specialize (Hm s HI HP).
  destruct (m s) as [[a|msg|f] s']; [|done..]. destruct Hm as (? & ? & ?).
  repeat split; [done..|]. by eapply HF.
Qed.

Lemma keeps_pure {A} (phi : Prop) (m : ST S A) P (Q : A -> S -> Prop) :
  (phi -> keeps P m Q) -> keeps (fun s => phi /\ P s) m Q.
Proof. intros H s HI [Hphi HP]. by apply H. Qed.

Lemma keeps_if {A} (b : bool) (m m' : ST S A) P (Q : A -> S -> Prop) :
  (b = true -> keeps P m Q) -> (b = false -> keeps P m' Q) -> keeps P (if b then m else m') Q.
Proof. destruct b; auto. Qed.

(** The rule of consequence with a framed stable property. *)
Lemma keeps_use {A} (F : S -> Prop) (m : ST S A) (P P' : S -> Prop) (Q Q' : A -> S -> Prop) :
  stable F -> keeps P m Q ->
  (forall s, P' s -> P s /\ F s) -> (forall a s, Q a s -> F s -> Q' a s) ->
  keeps P' m Q'.
Proof.
  intros HF Hm HP HQ. eapply (keeps_mono m _ _ _ _ (keeps_frame m P F Q HF Hm)); [auto|].
  intros a s _ [H1 H2]. auto.
Qed.

Lemma keeps_loop {A} (body : A -> ST S (A + A)) (J : A -> S -> Prop) (m : A -> nat) (Q : A -> S -> Prop) :
  (forall a, keeps (J a) (body a) (fun r s =>
     match r with inl a' => J a' s /\ (m a' < m a)%nat | inr a' => Q a' s end)) ->
  forall fuel a, (m a < fuel)%nat -> keeps (J a) (st_loop fuel body a) Q.
Proof.
  intros Hb fuel. induction fuel as [|fuel IH]; intros a Hm; [lia|]. simpl.
  eapply keeps_bind; [apply Hb|]. intros [a'|a'].
  - intros s HI [HJ Hlt]. by apply IH; [lia|..].
  - apply keeps_ret. auto.
Qed.
End rules.
