(* ===== verification/GrammarParser.v ===== *)
(** The GBNF grammar parser of src/llama/llama.cpp/src/llama-grammar.cpp (lines 14-690)
    and the two UTF-8 decoders of the same file.

    A [const char *] into a NUL-terminated text is the suffix of the text that it points
    to ([peek] is [*pos], and reads the NUL at the end); a difference of pointers is a
    difference of lengths.  The parser object (symbol table and rules) is the state of
    the [ST] monad, so that its contents after an exception are those of the C++ object. *)

From Stdlib Require Import Ascii.
From stdpp Require Import pretty.
From S2P Require Import Prelude StateExn.
Local Open Scope Z_scope.
Local Open Scope st_scope.

(** ** Characters and C strings *)

Definition byte (c : ascii) : Z := Z.of_N (Ascii.N_of_ascii c).
Definition NUL : ascii := Ascii.zero.
Definition DQUOTE : ascii := Ascii.ascii_of_N 34.

Definition peek (s : string) : ascii :=
  match s with EmptyString => NUL | String c _ => c end.
Definition adv (s : string) : string :=
  match s with EmptyString => EmptyString | String _ s' => s' end.
Definition is_ (s : string) (c : ascii) : bool := bool_decide (peek s = c).
(** [*pos == 0] *)
Definition at_end (s : string) : bool := is_ s NUL.

(** [std::string(from, to - from)] for a pointer [to] further in the text. *)
Definition span (from to : string) : string :=
  String.substring 0 (String.length from - String.length to) from.

(** ** UTF-8 *)

Record llama_partial_utf8 := mk_partial { pu_value : Z; pu_n_remain : Z }.

#[export] Instance llama_partial_utf8_eq_dec : EqDecision llama_partial_utf8.
Proof. solve_decision. Defined.

Definition utf8_len (highbits : Z) : Z :=
  nth (Z.to_nat highbits) [1; 1; 1; 1; 1; 1; 1; 1; 1; 1; 1; 1; 2; 2; 3; 4] 0.

(** [value = (value << 6) + (b & 0x3F)] on [uint32_t]. *)
Definition shift_in (value b : Z) : Z := u32 (u32 (Z.shiftl value 6) + Z.land b 63).

(** [for ( ; pos < end && *pos; pos++)] with [n = end - pos]. *)
Fixpoint utf8_more (s : string) (n : nat) (value : Z) : Z * string :=
  match n, s with
  | S n', String c s' =>
      if byte c =? 0 then (value, s) else utf8_more s' n' (shift_in value (byte c))
  | _, _ => (value, s)
  end.

(** [decode_utf8(const char * src)] *)
Definition decode_utf8_char (src : string) : Z * string :=
  let first_byte := byte (peek src) in
  let len := utf8_len (Z.shiftr first_byte 4) in
  let mask := (Z.shiftl 1 (8 - len) - 1) `mod` 256 in
  utf8_more (adv src) (Z.to_nat (len - 1)) (Z.land first_byte mask).

Definition utf8_extra (highbits : Z) : Z :=
  nth (Z.to_nat highbits) [1; 1; 1; 1; 1; 1; 1; 1; 0; 0; 0; 0; 2; 2; 3; 4] 0 - 1.

(** [while ( *pos != 0 && n_remain > 0)] of the resumed sequence; [None]: invalid byte. *)
Fixpoint utf8_resume (s : string) (value n_remain : Z) : option (string * Z * Z) :=
  match s with
  | EmptyString => Some (s, value, n_remain)
  | String c s' =>
      if (byte c =? 0) || (n_remain <=? 0) then Some (s, value, n_remain)
      else if negb (Z.shiftr (byte c) 6 =? 2) then None
      else utf8_resume s' (shift_in value (byte c)) (n_remain - 1)
  end.

(** The inner [while ( *pos != 0 && n_remain > 0)]. *)
Fixpoint utf8_tail (s : string) (value n_remain : Z) : string * Z * Z :=
  match s with
  | EmptyString => (s, value, n_remain)
  | String c s' =>
      if (byte c =? 0) || (n_remain <=? 0) then (s, value, n_remain)
      else utf8_tail s' (shift_in value (byte c)) (n_remain - 1)
  end.

Record utf8_state := mk_u8 { u8_pos : string; u8_value : Z; u8_remain : Z; u8_out : list Z }.

(** One round of the main loop; [inr] leaves it, with [None] for an invalid sequence. *)
Definition utf8_round (st : utf8_state) : utf8_state + option utf8_state :=
  if at_end (u8_pos st) then inr (Some st)
  else
    let first_byte := byte (peek (u8_pos st)) in
    let n_remain := utf8_extra (Z.shiftr first_byte 4) in
    if n_remain <? 0 then inr None
    else
      let mask := (Z.shiftl 1 (7 - n_remain) - 1) `mod` 256 in
      let '(pos, value, n_remain) := utf8_tail (adv (u8_pos st)) (Z.land first_byte mask) n_remain in
      inl (mk_u8 pos value n_remain
             (if n_remain =? 0 then u8_out st ++ [value] else u8_out st)).

Fixpoint utf8_rounds (fuel : nat) (st : utf8_state) : res (option utf8_state) :=
  match fuel with
  | O => Fault OutOfFuel
  | S fuel =>
      match utf8_round st with
      | inl st' => utf8_rounds fuel st'
      | inr r => Ok r
      end
  end.

(** [decode_utf8(const std::string &, llama_partial_utf8)] *)
Definition decode_utf8 (src : string) (partial_start : llama_partial_utf8) :
    res (list Z * llama_partial_utf8) :=
  match utf8_resume src (pu_value partial_start) (pu_n_remain partial_start) with
  | None => Ok ([0], mk_partial 0 (-1))
  | Some (pos, value, n_remain) =>
      let code_points :=
        if (pu_n_remain partial_start >? 0) && (n_remain =? 0) then [value] else [] in
      r ← utf8_rounds (S (String.length src)) (mk_u8 pos value n_remain code_points);
      match r with
      | None => Ok ([0], mk_partial 0 (-1))
      | Some st => Ok (u8_out st ++ [0], mk_partial (u8_value st) (u8_remain st))
      end
  end.

(** ** Lexical helpers *)

Definition is_digit_char (c : ascii) : bool := (48 <=? byte c) && (byte c <=? 57).

Definition is_word_char (c : ascii) : bool :=
  ((97 <=? byte c) && (byte c <=? 122)) || ((65 <=? byte c) && (byte c <=? 90)) ||
  (byte c =? 45) || is_digit_char c.

(** The loop of [parse_hex]: [n] characters left before [end]. *)
Fixpoint hex_loop (s : string) (n : nat) (value : Z) : Z * string * nat :=
  match n, s with
  | S n', String c s' =>
      let b := byte c in
      let value' := u32 (Z.shiftl value 4) in
      if b =? 0 then (value, s, n)
      else if (97 <=? b) && (b <=? 102) then hex_loop s' n' (u32 (value' + (b - 97 + 10)))
      else if (65 <=? b) && (b <=? 70) then hex_loop s' n' (u32 (value' + (b - 65 + 10)))
      else if (48 <=? b) && (b <=? 57) then hex_loop s' n' (u32 (value' + (b - 48)))
      else (value', s, n)
  | _, _ => (value, s, n)
  end.

Definition parse_hex (src : string) (size : nat) : res (Z * string) :=
  let '(value, pos, to_go) := hex_loop src size 0 in
  if Nat.eqb to_go 0 then Ok (value, pos)
  else Throw ("expecting " +:+ pretty size +:+ " hex chars at " +:+ src).

(** [comment]: inside the inner loop that skips a [#] comment. *)
Fixpoint parse_space_from (comment newline_ok : bool) (s : string) : string :=
  match s with
  | EmptyString => s
  | String c s' =>
      let newline := (byte c =? 13) || (byte c =? 10) in
      if comment && negb (byte c =? 0) && negb newline then parse_space_from true newline_ok s'
      else if byte c =? 35 then parse_space_from true newline_ok s'
      else if (byte c =? 32) || (byte c =? 9) || (newline_ok && newline)
      then parse_space_from false newline_ok s'
      else s
  end.
Definition parse_space (src : string) (newline_ok : bool) : string :=
  parse_space_from false newline_ok src.

Fixpoint skip_while (p : ascii -> bool) (s : string) : string :=
  match s with
  | EmptyString => s
  | String c s' => if p c then skip_while p s' else s
  end.

Definition parse_name (src : string) : res string :=
  let pos := skip_while is_word_char src in
  if decide (String.length pos = String.length src) then Throw ("expecting name at " +:+ src)
  else Ok pos.

Definition parse_int (src : string) : res string :=
  let pos := skip_while is_digit_char src in
  if decide (String.length pos = String.length src) then Throw ("expecting integer at " +:+ src)
  else Ok pos.

Definition UINT64_MAX : Z := 18446744073709551615.

(** [std::stoul] on a text of decimal digits; [unsigned long] has 64 bits. *)
Fixpoint digits_value (s : string) (acc : Z) : Z :=
  match s with
  | EmptyString => acc
  | String c s' => digits_value s' (acc * 10 + (byte c - 48))
  end.
Definition stoul (s : string) : res Z :=
  let v := digits_value s 0 in
  if v <=? UINT64_MAX then Ok v else Throw "stoul".

Definition parse_char (src : string) : res (Z * string) :=
  if is_ src "\" then
    let e := peek (adv src) in
    let rest := adv (adv src) in
    let b := byte e in
    if b =? 120 then parse_hex rest 2
    else if b =? 117 then parse_hex rest 4
    else if b =? 85 then parse_hex rest 8
    else if b =? 116 then Ok (9, rest)
    else if b =? 114 then Ok (13, rest)
    else if b =? 110 then Ok (10, rest)
    else if (b =? 92) || (b =? 34) || (b =? 91) || (b =? 93) then Ok (b, rest)
    else Throw ("unknown escape at " +:+ src)
  else if negb (at_end src) then Ok (decode_utf8_char src)
  else Throw "unexpected end of input".

(** ** Grammar elements and the parser object *)

Inductive llama_gretype :=
  | LLAMA_GRETYPE_END
  | LLAMA_GRETYPE_ALT
  | LLAMA_GRETYPE_RULE_REF
  | LLAMA_GRETYPE_CHAR
  | LLAMA_GRETYPE_CHAR_NOT
  | LLAMA_GRETYPE_CHAR_RNG_UPPER
  | LLAMA_GRETYPE_CHAR_ALT
  | LLAMA_GRETYPE_CHAR_ANY
  | LLAMA_GRETYPE_TOKEN
  | LLAMA_GRETYPE_TOKEN_NOT.

#[export] Instance llama_gretype_eq_dec : EqDecision llama_gretype.
Proof. solve_decision. Defined.

Record llama_grammar_element := mk_elem { ge_type : llama_gretype; ge_value : Z }.

#[export] Instance llama_grammar_element_eq_dec : EqDecision llama_grammar_element.
Proof. solve_decision. Defined.

Abbreviation llama_grammar_rule := (list llama_grammar_element).
Abbreviation llama_grammar_rules := (list llama_grammar_rule).

Record llama_grammar_parser := mk_parser {
  gp_symbol_ids : gmap string Z;
  gp_rules      : llama_grammar_rules
}.

Definition llama_grammar_parser_new : llama_grammar_parser := mk_parser ∅ [].

Abbreviation PM := (ST llama_grammar_parser).

Definition next_symbol_id (p : llama_grammar_parser) : Z := u32 (Z.of_nat (size (gp_symbol_ids p))).

Definition get_symbol_id (name : string) : PM Z := fun p =>
  match gp_symbol_ids p !! name with
  | Some id => (Ok id, p)
  | None =>
      let next_id := next_symbol_id p in
      (Ok next_id, mk_parser (<[name := next_id]> (gp_symbol_ids p)) (gp_rules p))
  end.

Definition generated_name (base_name : string) (id : Z) : string :=
  base_name +:+ "_" +:+ pretty id.

Definition generate_symbol_id (base_name : string) : PM Z := fun p =>
  let next_id := next_symbol_id p in
  (Ok next_id,
   mk_parser (<[generated_name base_name next_id := next_id]> (gp_symbol_ids p)) (gp_rules p)).

Definition add_rule (rule_id : Z) (rule : llama_grammar_rule) : PM unit := fun p =>
  let rules :=
    if Z.of_nat (length (gp_rules p)) <=? rule_id
    then vresize [] (Z.to_nat (u32 (rule_id + 1))) (gp_rules p) else gp_rules p in
  match wr rules (Z.to_nat rule_id) rule with
  | Ok rules' => (Ok tt, mk_parser (gp_symbol_ids p) rules')
  | Throw msg => (Throw msg, p)
  | Fault f => (Fault f, mk_parser (gp_symbol_ids p) rules)
  end.

Definition MAX_REPETITION_THRESHOLD : Z := 2000.

(** One rule S'(i + 1) of the optional repetitions; the state is [last_rec_rule_id]. *)
Definition add_rec_rule (rule_name : string) (prev_rule : llama_grammar_rule) (no_max : bool)
    (last_rec_rule_id : Z) (i : Z) : PM Z :=
  rec_rule_id <- generate_symbol_id rule_name ;;
  let rec_rule :=
    prev_rule ++
    (if (i >? 0) || no_max
     then [mk_elem LLAMA_GRETYPE_RULE_REF (if no_max then rec_rule_id else last_rec_rule_id)]
     else []) ++
    [mk_elem LLAMA_GRETYPE_ALT 0; mk_elem LLAMA_GRETYPE_END 0] in
  add_rule rec_rule_id rec_rule ;;;
  st_ret rec_rule_id.

Fixpoint add_rec_rules (rule_name : string) (prev_rule : llama_grammar_rule) (no_max : bool)
    (last_rec_rule_id : Z) (i : Z) (n : nat) : PM Z :=
  match n with
  | O => st_ret last_rec_rule_id
  | S n =>
      rec_rule_id <- add_rec_rule rule_name prev_rule no_max last_rec_rule_id i ;;
      add_rec_rules rule_name prev_rule no_max rec_rule_id (i + 1) n
  end.

(** [uint64_t] number of optional repetitions. *)
Definition n_opt (min_times max_times : Z) : Z :=
  if max_times =? UINT64_MAX then 1 else u64 (max_times - min_times).

Definition handle_repetitions (rule_name : string) (pos : string) (rule : llama_grammar_rule)
    (last_sym_start : nat) (min_times max_times : Z) : PM llama_grammar_rule :=
  let no_max := max_times =? UINT64_MAX in
  if decide (last_sym_start = length rule)
  then st_throw ("expecting preceding item to */+/?/{ at " +:+ pos)
  else
    let prev_rule := drop last_sym_start rule in
    let rule :=
      if min_times =? 0 then take last_sym_start rule
      else Nat.iter (Z.to_nat (min_times - 1)) (fun r => r ++ prev_rule) rule in
    last_rec_rule_id <- add_rec_rules rule_name prev_rule no_max 0 0
                          (Z.to_nat (n_opt min_times max_times)) ;;
    st_ret (if n_opt min_times max_times >? 0
            then rule ++ [mk_elem LLAMA_GRETYPE_RULE_REF last_rec_rule_id] else rule).

Section parser.

(** [vocab->tokenize(text, len, tokens, 2, false, true)] of the vocabulary, when there is
    one: the tokens of the text, special tokens parsed, none added. *)
Variable vocab : option (string -> list Z).

Definition parse_token (src : string) : res (Z * string) :=
  if negb (is_ src "<") then Throw ("expecting '<' at " +:+ src)
  else
    let pos := adv src in
    if is_ pos "[" then
      let pos := adv pos in
      int_end ← parse_int pos;
      v ← stoul (span pos int_end);
      if negb (is_ int_end "]") then Throw ("expecting ']' at " +:+ int_end)
      else
        let pos := adv int_end in
        if negb (is_ pos ">") then Throw ("expecting '>' at " +:+ pos)
        else Ok (u32 v, adv pos)
    else
      match vocab with
      | None => Throw ("no vocab to parse token at " +:+ src)
      | Some tokenize =>
          let pos := skip_while (fun c => negb ((byte c =? 0) || (byte c =? 62))) pos in
          if negb (is_ pos ">") then Throw ("expecting '>' at " +:+ pos)
          else
            let pos := adv pos in
            match tokenize (span src pos) with
            | [t] => Ok (u32 t, pos)
            | _ => Throw ("invalid token '" +:+ span src pos +:+ "'")
            end
      end.

(** The loop over the characters of a literal string. *)
Fixpoint literal_loop (fuel : nat) (pos : string) (rule : llama_grammar_rule) :
    res (string * llama_grammar_rule) :=
  match fuel with
  | O => Fault OutOfFuel
  | S fuel =>
      if is_ pos DQUOTE then Ok (pos, rule)
      else if at_end pos then Throw "unexpected end of input"
      else
        '(c, pos') ← parse_char pos;
        literal_loop fuel pos' (rule ++ [mk_elem LLAMA_GRETYPE_CHAR c])
  end.

(** The loop over the members of a character class. *)
Fixpoint class_loop (fuel : nat) (start_type : llama_gretype) (last_sym_start : nat)
    (pos : string) (rule : llama_grammar_rule) : res (string * llama_grammar_rule) :=
  match fuel with
  | O => Fault OutOfFuel
  | S fuel =>
      if is_ pos "]" then Ok (pos, rule)
      else if at_end pos then Throw "unexpected end of input"
      else
        '(c, pos) ← parse_char pos;
        let type := if decide (last_sym_start < length rule)%nat
                    then LLAMA_GRETYPE_CHAR_ALT else start_type in
        let rule := rule ++ [mk_elem type c] in
        if is_ pos "-" && negb (is_ (adv pos) "]") then
          if at_end (adv pos) then Throw "unexpected end of input"
          else
            '(c2, pos) ← parse_char (adv pos);
            class_loop fuel start_type last_sym_start pos
              (rule ++ [mk_elem LLAMA_GRETYPE_CHAR_RNG_UPPER c2])
        else class_loop fuel start_type last_sym_start pos rule
  end.

Record seq_state := mk_seq { sq_pos : string; sq_rule : llama_grammar_rule; sq_last : nat }.

(** The bounds of [{m}], [{m,}] and [{m,n}], [pos] after the brace, and what follows. *)
Definition parse_bounds (pos : string) (is_nested : bool) : res (Z * Z * string) :=
  let pos := parse_space pos is_nested in
  if negb (is_digit_char (peek pos)) then Throw ("expecting an int at " +:+ pos)
  else
    int_end ← parse_int pos;
    min_times ← stoul (span pos int_end);
    let pos := parse_space int_end is_nested in
    '(max_times, pos) ←
      (if is_ pos "}" then Ok (min_times, parse_space (adv pos) is_nested)
       else if is_ pos "," then
         let pos := parse_space (adv pos) is_nested in
         '(max_times, pos) ←
           (if is_digit_char (peek pos) then
              int_end ← parse_int pos;
              max_times ← stoul (span pos int_end);
              Ok (max_times, parse_space int_end is_nested)
            else Ok (UINT64_MAX, pos));
         if negb (is_ pos "}") then Throw ("expecting '}' at " +:+ pos)
         else Ok (max_times, parse_space (adv pos) is_nested)
       else Throw ("expecting ',' at " +:+ pos));
    let has_max := negb (max_times =? UINT64_MAX) in
    if (min_times >? MAX_REPETITION_THRESHOLD) ||
       (has_max && (max_times >? MAX_REPETITION_THRESHOLD))
    then Throw "number of repetitions exceeds sane defaults, please reduce the number of repetitions"
    else Ok (min_times, max_times, pos).

(** One round of the main loop of [parse_sequence]; [alternates] is the recursive call of
    [parse_alternates].  [inr] leaves the loop. *)
Definition sequence_round (alternates : string -> Z -> PM string) (rule_name : string)
    (is_nested : bool) (st : seq_state) : PM (seq_state + seq_state) :=
  let pos := sq_pos st in
  let rule := sq_rule st in
  let last := sq_last st in
  let symbol pos' el := st_ret (inl (mk_seq pos' (rule ++ [el]) (length rule))) in
  let repeat pos' min_times max_times :=
    rule' <- handle_repetitions rule_name pos' rule last min_times max_times ;;
    st_ret (inl (mk_seq pos' rule' last)) in
  if at_end pos then st_ret (inr st)
  else if is_ pos DQUOTE then
    r <- lift (literal_loop (S (String.length pos)) (adv pos) rule) ;;
    st_ret (inl (mk_seq (parse_space (adv r.1) is_nested) r.2 (length rule)))
  else if is_ pos "[" then
    let pos := adv pos in
    let neg := is_ pos "^" in
    let pos := if neg then adv pos else pos in
    let start_type := if neg then LLAMA_GRETYPE_CHAR_NOT else LLAMA_GRETYPE_CHAR in
    r <- lift (class_loop (S (String.length pos)) start_type (length rule) pos rule) ;;
    st_ret (inl (mk_seq (parse_space (adv r.1) is_nested) r.2 (length rule)))
  else if is_ pos "<" || is_ pos "!" then
    let neg := is_ pos "!" in
    let pos := if neg then adv pos else pos in
    let type := if neg then LLAMA_GRETYPE_TOKEN_NOT else LLAMA_GRETYPE_TOKEN in
    t <- lift (parse_token pos) ;;
    symbol (parse_space t.2 is_nested) (mk_elem type t.1)
  else if is_word_char (peek pos) then
    name_end <- lift (parse_name pos) ;;
    ref_rule_id <- get_symbol_id (span pos name_end) ;;
    symbol (parse_space name_end is_nested) (mk_elem LLAMA_GRETYPE_RULE_REF ref_rule_id)
  else if is_ pos "(" then
    let pos := parse_space (adv pos) true in
    sub_rule_id <- generate_symbol_id rule_name ;;
    pos <- alternates pos sub_rule_id ;;
    if negb (is_ pos ")") then st_throw ("expecting ')' at " +:+ pos)
    else symbol (parse_space (adv pos) is_nested) (mk_elem LLAMA_GRETYPE_RULE_REF sub_rule_id)
  else if is_ pos "." then
    symbol (parse_space (adv pos) is_nested) (mk_elem LLAMA_GRETYPE_CHAR_ANY 0)
  else if is_ pos "*" then repeat (parse_space (adv pos) is_nested) 0 UINT64_MAX
  else if is_ pos "+" then repeat (parse_space (adv pos) is_nested) 1 UINT64_MAX
  else if is_ pos "?" then repeat (parse_space (adv pos) is_nested) 0 1
  else if is_ pos "{" then
    b <- lift (parse_bounds (adv pos) is_nested) ;;
    repeat b.2 b.1.1 b.1.2
  else st_ret (inr st).

Definition parse_sequence (alternates : string -> Z -> PM string) (src rule_name : string)
    (rule : llama_grammar_rule) (is_nested : bool) : PM (string * llama_grammar_rule) :=
  st <- st_loop (S (String.length src)) (sequence_round alternates rule_name is_nested)
          (mk_seq src rule (length rule)) ;;
  st_ret (sq_pos st, sq_rule st).

(** One round of the loop over the alternatives. *)
Definition alternates_round (alternates : string -> Z -> PM string) (rule_name : string)
    (is_nested : bool) (st : string * llama_grammar_rule) :
    PM (string * llama_grammar_rule + string * llama_grammar_rule) :=
  if is_ st.1 "|" then
    r <- parse_sequence alternates (parse_space (adv st.1) true) rule_name
           (st.2 ++ [mk_elem LLAMA_GRETYPE_ALT 0]) is_nested ;;
    st_ret (inl r)
  else st_ret (inr st).

(** [fuel] bounds the nesting of parentheses. *)
Fixpoint parse_alternates (fuel : nat) (src rule_name : string) (rule_id : Z)
    (is_nested : bool) {struct fuel} : PM string :=
  match fuel with
  | O => lift (Fault OutOfFuel)
  | S fuel =>
      let nested pos id := parse_alternates fuel pos rule_name id true in
      r <- parse_sequence nested src rule_name [] is_nested ;;
      r <- st_loop (S (String.length src)) (alternates_round nested rule_name is_nested) r ;;
      add_rule rule_id (r.2 ++ [mk_elem LLAMA_GRETYPE_END 0]) ;;;
      st_ret r.1
  end.

Definition parse_rule (src : string) : PM string :=
  name_end <- lift (parse_name src) ;;
  let pos := parse_space name_end false in
  rule_id <- get_symbol_id (span src name_end) ;;
  let name := span src name_end in
  if negb (is_ pos ":" && is_ (adv pos) ":" && is_ (adv (adv pos)) "=") then
    st_throw ("expecting ::= at " +:+ pos)
  else
    let pos := parse_space (adv (adv (adv pos))) true in
    pos <- parse_alternates (S (String.length pos)) pos name rule_id false ;;
    if byte (peek pos) =? 13 then
      st_ret (parse_space (if byte (peek (adv pos)) =? 10 then adv (adv pos) else adv pos) true)
    else if byte (peek pos) =? 10 then st_ret (parse_space (adv pos) true)
    else if negb (at_end pos) then st_throw ("expecting newline or end at " +:+ pos)
    else st_ret (parse_space pos true).

(** The check that every rule that is referred to is defined. *)
Definition check_ref (p : llama_grammar_parser) (elem : llama_grammar_element) : res unit :=
  if decide (ge_type elem = LLAMA_GRETYPE_RULE_REF) then
    let defined :=
      match gp_rules p !! Z.to_nat (ge_value elem) with Some (_ :: _) => true | _ => false end in
    if defined then Ok tt
    else
      match list_find (fun kv => kv.2 = ge_value elem) (map_to_list (gp_symbol_ids p)) with
      | Some (_, (name, _)) => Throw ("Undefined rule identifier '" +:+ name +:+ "'")
      | None => Ok tt
      end
  else Ok tt.

Definition check_rule (p : llama_grammar_parser) (rule : llama_grammar_rule) : res unit :=
  match rule with
  | [] => Throw "Undefined rule"
  | _ => foldM (fun _ elem => check_ref p elem) tt rule
  end.

Definition parse_body (src : string) : PM unit :=
  st_loop (S (String.length src))
    (fun pos =>
       if at_end pos then st_ret (inr pos) else pos <- parse_rule pos ;; st_ret (inl pos))
    (parse_space src true) ;;;
  p <- st_get ;;
  lift (foldM (fun _ rule => check_rule p rule) tt (gp_rules p)).

(** [llama_grammar_parser::parse]: an exception is caught, the rules are cleared. *)
Definition grammar_parse (src : string) : PM bool := fun p =>
  match parse_body src p with
  | (Ok _, p') => (Ok true, p')
  | (Throw _, p') => (Ok false, mk_parser (gp_symbol_ids p') [])
  | (Fault f, p') => (Fault f, p')
  end.

End parser.
