(* ===== verification/GrammarParserOk.v ===== *)
(** Correctness of the grammar parser: it ends on every input, its symbol table stays a
    numbering of the names, and the rules it accepts are well formed, which is what the
    matcher of Grammar.v relies on. *)

From Stdlib Require Import Ascii.
From stdpp Require Import pretty.
From S2P Require Import Prelude StateExn GrammarParser.
Local Open Scope Z_scope.

(** ** Computations that may throw but never fault *)

Definition sound {A} (m : res A) (Q : A -> Prop) : Prop :=
  match m with Ok a => Q a | Throw _ => True | Fault _ => False end.

Lemma sound_bind {A B} (m : res A) (k : A -> res B) (Q : B -> Prop) :
  sound m (fun a => sound (k a) Q) -> sound (m ≫= k) Q.
Proof. by destruct m. Qed.

Lemma sound_mono {A} (m : res A) (P Q : A -> Prop) :
  sound m P -> (forall a, P a -> Q a) -> sound m Q.
Proof. destruct m; simpl; auto. Qed.

Lemma sound_if {A} (b : bool) (m m' : res A) Q :
  (b = true -> sound m Q) -> (b = false -> sound m' Q) -> sound (if b then m else m') Q.
Proof. destruct b; auto. Qed.

Lemma keeps_sound {S A} (I : S -> Prop) le bad `{!PreOrder le} (P : S -> Prop) (m : res A) (R : A -> Prop) (Q : A -> S -> Prop) :
  sound m R -> (forall a s, R a -> P s -> Q a s) -> keeps I le bad P (lift m) Q.
Proof.
  intros Hm HQ. apply keeps_lift; [done| |].
  - intros a s -> _ HP. by apply HQ.
  - by intros f ->.
Qed.

(** ** Every lexical function moves forward *)

Abbreviation len := String.length.

Lemma adv_len s : at_end s = false -> (len (adv s) < len s)%nat.
Proof. destruct s; [done|]. simpl. lia. Qed.

Lemma is_adv_len s c : is_ s c = true -> c <> NUL -> (len (adv s) < len s)%nat.
Proof.
  intros H Hc. apply adv_len. unfold at_end, is_ in *.
  apply bool_decide_eq_true in H. apply bool_decide_eq_false. congruence.
Qed.

Lemma adv_le s : (len (adv s) <= len s)%nat.
Proof. destruct s; simpl; lia. Qed.

Lemma utf8_more_len s n v : (len (utf8_more s n v).2 <= len s)%nat.
Proof.
  revert n v. induction s as [|c s IH]; intros [|n] v; simpl; [lia..|].
  case_match; simpl; [lia|]. specialize (IH n (shift_in v (byte c))). lia.
Qed.

Lemma decode_utf8_char_len s : at_end s = false -> (len (decode_utf8_char s).2 < len s)%nat.
Proof.
  intros H. pose proof (adv_len s H). unfold decode_utf8_char.
  pose proof (utf8_more_len (adv s) (Z.to_nat (utf8_len (Z.shiftr (byte (peek s)) 4) - 1))
    (Z.land (byte (peek s)) ((Z.shiftl 1 (8 - utf8_len (Z.shiftr (byte (peek s)) 4)) - 1) `mod` 256))).
  simpl in *. lia.
Qed.

(** The decoder always answers. *)
Lemma utf8_tail_len s : forall v n, (len (utf8_tail s v n).1.1 <= len s)%nat.
Proof. induction s as [|c s IH]; intros v n; simpl; [lia|]. destruct (_ || _); simpl; [lia|]. etrans; [apply IH|]. lia. Qed.

Lemma utf8_rounds_total fuel : forall st, (len (u8_pos st) < fuel)%nat -> exists r, utf8_rounds fuel st = Ok r.
Proof.
  induction fuel as [|fuel IH]; intros st Hf; [lia|]. simpl. unfold utf8_round.
  destruct (at_end (u8_pos st)) eqn:Ee; [by eexists|]. destruct (_ <? 0); [by eexists|].
  destruct (utf8_tail _ _ _) as [[pos v] n] eqn:Et. apply IH. simpl.
  pose proof (utf8_tail_len (adv (u8_pos st)) (Z.land (byte (peek (u8_pos st)))
    ((Z.shiftl 1 (7 - utf8_extra (Z.shiftr (byte (peek (u8_pos st))) 4)) - 1) `mod` 256))
    (utf8_extra (Z.shiftr (byte (peek (u8_pos st))) 4))) as H.
  rewrite Et in H. simpl in H. pose proof (adv_len _ Ee). lia.
Qed.

Lemma utf8_resume_len s : forall v n s' v' n', utf8_resume s v n = Some (s', v', n') -> (len s' <= len s)%nat.
Proof.
  induction s as [|c s IH]; intros v n s' v' n' H; simpl in *; [by injection H as <- <- <-|].
  destruct (_ || _); [by injection H as <- <- <-|]. destruct (negb _); [done|]. apply IH in H. lia.
Qed.

Lemma decode_utf8_total s p : exists cps p', decode_utf8 s p = Ok (cps ++ [0], p').
Proof.
  unfold decode_utf8. destruct (utf8_resume s (pu_value p) (pu_n_remain p)) as [[[s' v] n]|] eqn:E.
  2:{ by exists [], (mk_partial 0 (-1)). }
  apply utf8_resume_len in E.
  destruct (utf8_rounds_total (S (len s)) (mk_u8 s' v n (if (pu_n_remain p >? 0) && (n =? 0) then [v] else []))) as (r & Hr).
  { simpl. lia. }
  rewrite Hr, bind_ok. destruct r as [st|]; [by eexists _, _|]. by exists [], (mk_partial 0 (-1)).
Qed.

Lemma hex_loop_len s n v : (len (hex_loop s n v).1.2 <= len s)%nat.
Proof.
  revert n v. induction s as [|c s IH]; intros [|n] v; simpl; [lia..|].
  repeat case_match; simpl; try lia; etrans; [apply IH|lia|apply IH|lia|apply IH|lia].
Qed.

Lemma parse_hex_sound s n : sound (parse_hex s n) (fun r => (len r.2 <= len s)%nat).
Proof.
  unfold parse_hex. pose proof (hex_loop_len s n 0) as H.
  destruct (hex_loop s n 0) as [[v pos] k]. simpl in H. by case_match.
Qed.

Lemma parse_space_from_len c b s : (len (parse_space_from c b s) <= len s)%nat.
Proof.
  revert c. induction s as [|a s IH]; intros c; simpl; [lia|].
  repeat case_match; simpl; try lia; etrans; try apply IH; lia.
Qed.
Lemma parse_space_len s b : (len (parse_space s b) <= len s)%nat.
Proof. apply parse_space_from_len. Qed.

Lemma skip_while_len p s : (len (skip_while p s) <= len s)%nat.
Proof. induction s as [|c s IH]; simpl; [lia|]. case_match; simpl; lia. Qed.

Lemma parse_name_sound s : sound (parse_name s) (fun r => r = skip_while is_word_char s /\ (len r < len s)%nat).
Proof.
  unfold parse_name. pose proof (skip_while_len is_word_char s).
  case_decide; simpl; [done|]. split; [done|lia].
Qed.

Lemma parse_int_sound s : sound (parse_int s) (fun r => (len r < len s)%nat).
Proof.
  unfold parse_int. pose proof (skip_while_len is_digit_char s).
  case_decide; simpl; [done|lia].
Qed.

Lemma stoul_sound s : sound (stoul s) (fun _ => True).
Proof. unfold stoul. by case_match. Qed.

Lemma parse_char_sound s : sound (parse_char s) (fun r => (len r.2 < len s)%nat).
Proof.
  unfold parse_char. apply sound_if; intros H.
  - pose proof (is_adv_len s _ H ltac:(discriminate)). pose proof (adv_le (adv s)).
    assert (Hx : forall n, sound (parse_hex (adv (adv s)) n) (fun r => (len r.2 < len s)%nat)).
    { intros n. eapply sound_mono; [apply parse_hex_sound|]. intros a Ha. simpl in Ha. lia. }
    cbv zeta. repeat (apply sound_if; intros _; [first [apply Hx|simpl; lia]|]). exact Logic.I.
  - apply sound_if; [|done]. intros Hs. apply negb_true_iff in Hs. by apply decode_utf8_char_len.
Qed.

(** ** Well-formed rule bodies *)

Definition gretype_in (t : llama_gretype) (l : list llama_gretype) : bool := bool_decide (t ∈ l).

(** What may follow the element type [prev] ([None]: the start of a symbol). *)
Definition may_follow (prev : option llama_gretype) (t : llama_gretype) : bool :=
  match t with
  | LLAMA_GRETYPE_CHAR_ALT =>
      match prev with
      | Some p => gretype_in p [LLAMA_GRETYPE_CHAR; LLAMA_GRETYPE_CHAR_NOT;
                                LLAMA_GRETYPE_CHAR_ALT; LLAMA_GRETYPE_CHAR_RNG_UPPER]
      | None => false
      end
  | LLAMA_GRETYPE_CHAR_RNG_UPPER =>
      match prev with
      | Some p => gretype_in p [LLAMA_GRETYPE_CHAR; LLAMA_GRETYPE_CHAR_NOT; LLAMA_GRETYPE_CHAR_ALT]
      | None => false
      end
  | LLAMA_GRETYPE_END => false
  | _ => true
  end.

Fixpoint body_ok (prev : option llama_gretype) (l : llama_grammar_rule) : bool :=
  match l with
  | [] => true
  | e :: l => may_follow prev (ge_type e) && body_ok (Some (ge_type e)) l
  end.

(** A rule is a body followed by the only [END]. *)
Definition rule_ok (rule : llama_grammar_rule) : Prop :=
  exists body, rule = body ++ [mk_elem LLAMA_GRETYPE_END 0] /\ body_ok None body = true.

Definition last_type (prev : option llama_gretype) (l : llama_grammar_rule) : option llama_gretype :=
  match list.last l with Some e => Some (ge_type e) | None => prev end.

Lemma may_follow_none prev t : may_follow None t = true -> may_follow prev t = true.
Proof. by destruct t. Qed.

Lemma body_ok_none prev l : body_ok None l = true -> body_ok prev l = true.
Proof.
  destruct l as [|e l]; [done|]. simpl. rewrite !andb_true_iff.
  intros [H ?]. split; [by apply may_follow_none|done].
Qed.

Lemma body_ok_app_last prev l1 l2 :
  body_ok prev (l1 ++ l2) = body_ok prev l1 && body_ok (last_type prev l1) l2.
Proof.
  revert prev. induction l1 as [|e l1 IH]; intros prev; [done|]. simpl.
  rewrite IH, <- andb_assoc. do 2 f_equal. unfold last_type.
  rewrite list.last_cons. by destruct (list.last l1).
Qed.

Lemma body_ok_app prev l1 l2 :
  body_ok prev l1 = true -> body_ok None l2 = true -> body_ok prev (l1 ++ l2) = true.
Proof. intros H1 H2. rewrite body_ok_app_last, H1. by apply body_ok_none. Qed.

Lemma body_ok_snoc prev l e :
  body_ok prev l = true -> may_follow (last_type prev l) (ge_type e) = true ->
  body_ok prev (l ++ [e]) = true.
Proof. intros H1 H2. rewrite body_ok_app_last, H1. simpl. by rewrite H2. Qed.

Lemma last_type_snoc prev l e : last_type prev (l ++ [e]) = Some (ge_type e).
Proof. unfold last_type. by rewrite list.last_snoc. Qed.

(** ** Literals, classes, tokens, bounds *)

Definition no_refs (l : llama_grammar_rule) : Prop :=
  Forall (fun e => ge_type e <> LLAMA_GRETYPE_RULE_REF) l.

(** What the loops push onto the rule: one well-formed symbol without references. *)
Definition pushed (rule : llama_grammar_rule) (r : string * llama_grammar_rule) (s : string) : Prop :=
  (len r.1 <= len s)%nat /\
  exists sym, r.2 = rule ++ sym /\ body_ok None sym = true /\ no_refs sym.

Lemma literal_loop_sound rule fuel pos sym :
  (len pos < fuel)%nat -> body_ok None sym = true -> no_refs sym ->
  sound (literal_loop fuel pos (rule ++ sym)) (fun r => pushed rule r pos).
Proof.
  revert pos sym. induction fuel as [|fuel IH]; intros pos sym Hf Hb Hn; [lia|]. simpl.
  apply sound_if; intros _; [by split; [|exists sym]|]. apply sound_if; intros _; [done|].
  apply sound_bind. eapply sound_mono; [apply parse_char_sound|]. intros [c pos'] Hlt. simpl in Hlt.
  rewrite <- app_assoc. eapply sound_mono.
  - apply IH; [lia| |].
    + apply body_ok_snoc; [done|]. by destruct (last_type None sym).
    + apply Forall_app. split; [done|]. by constructor.
  - intros r [H1 H2]. split; [simpl in *; lia|done].
Qed.

Definition class_tail (sym : llama_grammar_rule) : Prop :=
  sym = [] \/ may_follow (last_type None sym) LLAMA_GRETYPE_CHAR_ALT = true.

Lemma class_loop_sound rule st fuel pos sym :
  (st = LLAMA_GRETYPE_CHAR \/ st = LLAMA_GRETYPE_CHAR_NOT) ->
  (len pos < fuel)%nat -> body_ok None sym = true -> no_refs sym -> class_tail sym ->
  sound (class_loop fuel st (length rule) pos (rule ++ sym)) (fun r => pushed rule r pos).
Proof.
  intros Hst. revert pos sym. induction fuel as [|fuel IH]; intros pos sym Hf Hb Hn Ht; [lia|]. simpl.
  apply sound_if; intros _; [by split; [|exists sym]|]. apply sound_if; intros _; [done|].
  apply sound_bind. eapply sound_mono; [apply parse_char_sound|]. intros [c pos1] Hlt. simpl in Hlt.
  set (t := if decide _ then _ else _).
  assert (Htt : t = LLAMA_GRETYPE_CHAR \/ t = LLAMA_GRETYPE_CHAR_NOT \/ t = LLAMA_GRETYPE_CHAR_ALT).
  { unfold t. case_decide; tauto. }
  assert (Hb1 : body_ok None (sym ++ [mk_elem t c]) = true).
  { apply body_ok_snoc; [done|]. simpl. unfold t. destruct Ht as [->|Ht].
    - rewrite app_nil_r, decide_False by lia. by destruct Hst as [->| ->].
    - case_decide; [done|]. apply may_follow_none. by destruct Hst as [->| ->]. }
  assert (Hn1 : no_refs (sym ++ [mk_elem t c])).
  { apply Forall_app. split; [done|]. constructor; [|done]. by destruct Htt as [->|[->| ->]]. }
  rewrite <- app_assoc. apply sound_if; intros Hdash.
  - apply sound_if; intros Hend; [done|].
    apply sound_bind. eapply sound_mono; [apply parse_char_sound|]. intros [c2 pos2] Hlt2.
    simpl in Hlt2. pose proof (adv_le pos1). rewrite <- app_assoc. eapply sound_mono.
    + apply IH; [lia| | |].
      * apply body_ok_snoc; [done|]. rewrite last_type_snoc. simpl. by destruct Htt as [->|[->| ->]].
      * apply Forall_app. split; [done|]. by constructor.
      * right. by rewrite last_type_snoc.
    + intros r [H1 H2]. split; [simpl in *; lia|done].
  - eapply sound_mono.
    + apply IH; [lia|done|done|]. right. rewrite last_type_snoc. simpl.
      by destruct Htt as [->|[->| ->]].
    + intros r [H1 H2]. split; [simpl in *; lia|done].
Qed.

Lemma parse_token_sound vocab s : sound (parse_token vocab s) (fun r => (len r.2 < len s)%nat).
Proof.
  unfold parse_token. apply sound_if; [done|]. intros H. apply negb_false_iff in H.
  pose proof (is_adv_len s _ H ltac:(discriminate)) as Hs.
  apply sound_if; intros H1.
  - pose proof (adv_le (adv s)). apply sound_bind.
    eapply sound_mono; [apply parse_int_sound|]. intros e He. simpl in He.
    apply sound_bind. eapply sound_mono; [apply stoul_sound|]. intros v _.
    apply sound_if; [done|]. intros _. apply sound_if; [done|]. intros _. simpl.
    pose proof (adv_le e). pose proof (adv_le (adv e)). lia.
  - destruct vocab as [tok|]; [|done]. cbv zeta.
    set (pos := skip_while _ _). assert (len pos <= len (adv s))%nat by apply skip_while_len.
    apply sound_if; [done|]. intros _. pose proof (adv_le pos).
    destruct (tok _) as [|t [|]]; simpl; [done|lia|done].
Qed.

Lemma parse_bounds_sound s b : sound (parse_bounds s b) (fun r => (len r.2 <= len s)%nat).
Proof.
  unfold parse_bounds. set (pos := parse_space s b).
  assert (Hp : (len pos <= len s)%nat) by apply parse_space_len.
  apply sound_if; [done|]. intros _.
  apply sound_bind. eapply sound_mono; [apply parse_int_sound|]. intros e He. simpl in He.
  apply sound_bind. eapply sound_mono; [apply stoul_sound|]. intros mn _. cbv zeta.
  set (pos1 := parse_space e b). assert (Hp1 : (len pos1 <= len e)%nat) by apply parse_space_len.
  assert (Hsp : forall q, (len (parse_space (adv q) b) <= len q)%nat).
  { intros q. etrans; [apply parse_space_len|apply adv_le]. }
  apply sound_bind. apply (sound_mono _ (fun r => (len r.2 <= len s)%nat)).
  - apply sound_if; intros _; [simpl; specialize (Hsp pos1); lia|].
    apply sound_if; intros _; [|done]. specialize (Hsp pos1) as Hsp1.
    apply sound_bind. apply (sound_mono _ (fun r => (len r.2 <= len s)%nat)).
    + apply sound_if; intros _; [|simpl; lia].
      apply sound_bind. eapply sound_mono; [apply parse_int_sound|]. intros e2 He2. simpl in He2.
      apply sound_bind. eapply sound_mono; [apply stoul_sound|]. intros mx _. simpl.
      pose proof (parse_space_len e2 b). lia.
    + intros [mx q] Hq. simpl in Hq. apply sound_if; [done|]. intros _. simpl. specialize (Hsp q). lia.
  - intros [mx q] Hq. apply sound_if; [done|]. by intros _.
Qed.

(** ** The parser object *)

Definition word_only (s : string) : Prop := skip_while is_word_char s = EmptyString.

Definition id_known (id : Z) (p : llama_grammar_parser) : Prop :=
  exists name, gp_symbol_ids p !! name = Some id.

(** Every reference of a rule is the number of a name. *)
Definition known (l : llama_grammar_rule) (p : llama_grammar_parser) : Prop :=
  Forall (fun e => ge_type e = LLAMA_GRETYPE_RULE_REF -> id_known (ge_value e) p) l.

Definition sym_le (p p' : llama_grammar_parser) : Prop := gp_symbol_ids p ⊆ gp_symbol_ids p'.

#[export] Instance sym_le_preorder : PreOrder sym_le.
Proof. split; [by intros p; unfold sym_le|intros p q r; unfold sym_le; by etrans]. Qed.

(** The symbol table numbers the names from 0, without repetition. *)
Definition numbering (m : gmap string Z) : Prop :=
  (forall k v, m !! k = Some v -> 0 <= v < Z.of_nat (size m)) /\
  (forall k k' v, m !! k = Some v -> m !! k' = Some v -> k = k').

Record parser_inv (p : llama_grammar_parser) : Prop := mk_parser_inv {
  pi_generated : forall base id v, word_only base ->
    gp_symbol_ids p !! generated_name base id = Some v -> v = id;
  pi_numbering : Z.of_nat (size (gp_symbol_ids p)) < 4294967296 -> numbering (gp_symbol_ids p);
  pi_rules : Forall (fun r => r = [] \/ (rule_ok r /\ known r p)) (gp_rules p)
}.

(** More symbols than 32 bits can number: the number of a rule may wrap around. *)
Definition crowded (p : llama_grammar_parser) : Prop := 4294967296 <= Z.of_nat (size (gp_symbol_ids p)).

Abbreviation pkeeps := (keeps parser_inv sym_le crowded).
Abbreviation pstable := (stable sym_le).
Abbreviation pkeeps_bind := (keeps_bind parser_inv sym_le crowded).
Abbreviation pkeeps_use := (keeps_use parser_inv sym_le crowded).
Abbreviation pkeeps_ret := (keeps_ret parser_inv sym_le crowded).

Lemma id_known_stable id : pstable (id_known id).
Proof. intros p q Hle [name H]. exists name. by eapply lookup_weaken. Qed.

Lemma known_stable l : pstable (known l).
Proof.
  intros p q Hle H. refine (list_relations.list.Forall_impl _ _ _ H _).
  intros e He Ht. eapply id_known_stable; eauto.
Qed.

Lemma known_app l1 l2 p : known (l1 ++ l2) p <-> known l1 p /\ known l2 p.
Proof. apply Forall_app. Qed.

Lemma known_no_refs l p : no_refs l -> known l p.
Proof. intros H. refine (list_relations.list.Forall_impl _ _ _ H _). by intros e He ?. Qed.

Lemma known_ref id p : id_known id p -> known [mk_elem LLAMA_GRETYPE_RULE_REF id] p.
Proof. intros H. by constructor. Qed.

Lemma rules_known_stable p q :
  sym_le p q -> gp_rules q = gp_rules p ->
  Forall (fun r => r = [] \/ (rule_ok r /\ known r p)) (gp_rules p) ->
  Forall (fun r => r = [] \/ (rule_ok r /\ known r q)) (gp_rules q).
Proof.
  intros Hle -> H. refine (list_relations.list.Forall_impl _ _ _ H _).
  intros r [->|[? ?]]; [by left|right]. split; [done|by eapply known_stable].
Qed.

Lemma generated_name_inj b b' id id' :
  word_only b -> word_only b' -> generated_name b id = generated_name b' id' -> id = id'.
Proof.
  unfold generated_name, word_only. revert b'.
  induction b as [|c b IH]; intros b' Hb Hb' E; destruct b' as [|c' b'].
  - change (String "_" (pretty id) = String "_" (pretty id')) in E.
    injection E as E. by apply pretty_Z_inj.
  - simpl in E. injection E as <- _. by change (String "_" b' = EmptyString) in Hb'.
  - simpl in E. injection E as -> _. by change (String "_" b = EmptyString) in Hb.
  - simpl in *. injection E as <- E. destruct (is_word_char c); [|done]. by apply (IH b').
Qed.

Lemma generated_not_word base id : ~ word_only (generated_name base id).
Proof.
  unfold word_only, generated_name. induction base as [|c base IH]; simpl; [done|].
  by destruct (is_word_char c).
Qed.

Lemma numbering_insert (m : gmap string Z) k :
  m !! k = None -> Z.of_nat (S (size m)) < 4294967296 -> numbering m ->
  numbering (<[k := u32 (Z.of_nat (size m))]> m).
Proof.
  intros Hk Hs [Hb Hi].
  assert (Hu : u32 (Z.of_nat (size m)) = Z.of_nat (size m)).
  { unfold u32. apply Z.mod_small. lia. }
  rewrite Hu. split.
  - intros k' v. rewrite map_size_insert_None by done.
    intros [[<- <-]|[? H]]%lookup_insert_Some; [lia|]. specialize (Hb _ _ H). lia.
  - intros k1 k2 v H1 H2.
    apply lookup_insert_Some in H1 as [[<- <-]|[? H1]];
      apply lookup_insert_Some in H2 as [[<- E]|[? H2]]; try done.
    + specialize (Hb _ _ H2). lia.
    + specialize (Hb _ _ H1). lia.
    + by eapply Hi.
Qed.

Lemma add_name_keeps p k :
  parser_inv p ->
  (gp_symbol_ids p !! k = None \/ gp_symbol_ids p !! k = Some (next_symbol_id p)) ->
  (forall base id, word_only base -> k = generated_name base id -> id = next_symbol_id p) ->
  let p' := mk_parser (<[k := next_symbol_id p]> (gp_symbol_ids p)) (gp_rules p) in
  parser_inv p' /\ sym_le p p' /\ id_known (next_symbol_id p) p'.
Proof.
  intros [Hg Hn Hr] Hk Hgen p'.
  assert (Hle : sym_le p p').
  { destruct Hk as [Hk|Hk]; unfold sym_le; simpl; [by apply insert_subseteq|by rewrite insert_id]. }
  assert (Hid : id_known (next_symbol_id p) p') by (exists k; apply lookup_insert_eq).
  split; [|done]. split.
  - intros base id v Hb H. unfold p' in H; cbn [gp_symbol_ids] in H. apply lookup_insert_Some in H as [[E <-]|[? H]]; [|by eapply Hg].
    symmetry. by eapply Hgen.
  - unfold p'. simpl. destruct Hk as [Hk|Hk]; [|by rewrite insert_id].
    intros Hs. rewrite map_size_insert_None in Hs by done.
    apply numbering_insert; [done|done|apply Hn; lia].
  - by eapply rules_known_stable.
Qed.

Lemma get_symbol_id_keeps name P :
  word_only name -> pkeeps P (get_symbol_id name) (fun id => id_known id).
Proof.
  intros Hw p Hp _. unfold get_symbol_id.
  destruct (gp_symbol_ids p !! name) as [id|] eqn:E.
  - split; [done|]. split; [reflexivity|by exists name].
  - destruct (add_name_keeps p name Hp) as (? & ? & ?); [by left| |by auto].
    intros base id _ ->. by destruct (generated_not_word base id).
Qed.

Lemma generate_symbol_id_keeps base P :
  word_only base -> pkeeps P (generate_symbol_id base) (fun id => id_known id).
Proof.
  intros Hw p Hp _. unfold generate_symbol_id.
  destruct (add_name_keeps p (generated_name base (next_symbol_id p)) Hp) as (? & ? & ?).
  - destruct (gp_symbol_ids p !! _) as [v|] eqn:E; [right|by left].
    f_equal. by eapply (pi_generated p).
  - intros b id Hb E. symmetry. exact (generated_name_inj _ _ _ _ Hw Hb E).
  - by auto.
Qed.

Lemma Forall_vresize {A} (P : A -> Prop) d n l : P d -> Forall P l -> Forall P (vresize d n l).
Proof.
  intros Hd Hl. unfold vresize. apply Forall_app. split; [by apply Forall_take|by apply Forall_replicate].
Qed.

Lemma add_rule_keeps id rule :
  rule_ok rule -> pkeeps (fun p => known rule p /\ id_known id p) (add_rule id rule) (fun _ _ => True).
Proof.
  intros Hr p Hp [Hk [name Hid]]. unfold add_rule. set (rules := if _ <=? _ then _ else _).
  assert (HF : Forall (fun r => r = [] \/ (rule_ok r /\ known r p)) rules).
  { pose proof (pi_rules p Hp). unfold rules. case_match; [|done]. apply Forall_vresize; [by left|done]. }
  unfold wr. case_decide as Hlt.
  2: { split; [done|]. unfold crowded. cbn [gp_symbol_ids]. destruct (Z.le_gt_cases 4294967296 (Z.of_nat (size (gp_symbol_ids p)))) as [|Hs]; [done|].
    exfalso. apply Hlt. destruct (pi_numbering p Hp Hs) as [Hb _]. specialize (Hb _ _ Hid). unfold rules.
    destruct (Z.leb_spec (Z.of_nat (length (gp_rules p))) id); [|lia]. unfold vresize, u32. rewrite Z.mod_small by lia.
    rewrite length_app, length_take, length_replicate. lia. }
  split; [|split; [unfold sym_le; simpl; reflexivity|done]].
  split; try apply Hp. simpl. apply Forall_insert; [done|]. by right.
Qed.

(** ** Repetitions *)

Lemma alt_end_body (l : llama_grammar_rule) : body_ok None l = true -> rule_ok (l ++ [mk_elem LLAMA_GRETYPE_ALT 0; mk_elem LLAMA_GRETYPE_END 0]).
Proof.
  intros H. exists (l ++ [mk_elem LLAMA_GRETYPE_ALT 0]). split; [by rewrite <- app_assoc|].
  by apply body_ok_app.
Qed.

Lemma known_alt_end l p : known l p -> known (l ++ [mk_elem LLAMA_GRETYPE_ALT 0; mk_elem LLAMA_GRETYPE_END 0]) p.
Proof. intros H. apply known_app. split; [done|]. by repeat constructor. Qed.

Definition rec_pre (prev : llama_grammar_rule) (last i : Z) (p : llama_grammar_parser) : Prop :=
  known prev p /\ (0 < i -> id_known last p).

Lemma rec_pre_stable prev last i : pstable (rec_pre prev last i).
Proof.
  intros p q Hle [H1 H2]. split; [by eapply known_stable|].
  intros Hi. eapply id_known_stable; eauto.
Qed.

Lemma add_rec_rule_keeps name prev no_max last i :
  word_only name -> body_ok None prev = true ->
  pkeeps (rec_pre prev last i) (add_rec_rule name prev no_max last i) (fun id => id_known id).
Proof.
  intros Hw Hb. unfold add_rec_rule.
  apply (pkeeps_bind _ _ _ (fun id p => id_known id p /\ rec_pre prev last i p)).
  { eapply (pkeeps_use (rec_pre prev last i)); [apply rec_pre_stable| |by split; [exact Logic.I|]|by split].
    by apply generate_symbol_id_keeps. }
  intros id. cbv zeta. set (rule := prev ++ _).
  set (ref := if (i >? 0) || no_max then _ else _) in rule.
  assert (Hr : rule_ok rule).
  { unfold rule. rewrite app_assoc. apply alt_end_body, body_ok_app; [done|]. unfold ref. by case_match. }
  apply (pkeeps_bind _ _ _ (fun _ => id_known id)).
  - eapply (pkeeps_use (id_known id)); [apply id_known_stable|by apply add_rule_keeps| |by auto].
    intros s [Hid [Hk Hl]]. split; [split; [|done]|done]. unfold rule. rewrite app_assoc.
    apply known_alt_end, known_app. split; [done|]. unfold ref.
    destruct (i >? 0) eqn:Ei, no_max; simpl; try (by constructor); apply known_ref; auto.
    apply Hl. apply Z.gtb_lt in Ei. lia.
  - intros _. by apply pkeeps_ret.
Qed.

Lemma add_rec_rules_keeps name prev no_max n last i :
  word_only name -> body_ok None prev = true -> 0 <= i ->
  pkeeps (rec_pre prev last i)
    (add_rec_rules name prev no_max last i n) (fun id p => (0 < n)%nat \/ 0 < i -> id_known id p).
Proof.
  intros Hw Hb. revert last i. induction n as [|n IH]; intros last i Hi; simpl.
  - apply pkeeps_ret. intros s _ [_ H] [|]; [lia|auto].
  - apply (pkeeps_bind _ _ _ (fun id p => id_known id p /\ known prev p)).
    + eapply (pkeeps_use (known prev)); [apply known_stable|by apply add_rec_rule_keeps| |by split].
      intros s H. split; [exact H|apply H].
    + intros id. eapply keeps_mono; [apply IH; lia| |].
      * intros s _ [H1 H2]. by split.
      * intros a s _ H _. apply H. right. lia.
Qed.

(** A sequence being parsed: well-formed symbols, the last of which starts at [last]. *)
Definition seq_inv (rule : llama_grammar_rule) (last : nat) : Prop :=
  (last <= length rule)%nat /\
  body_ok None (take last rule) = true /\ body_ok None (drop last rule) = true.

Lemma seq_inv_push rule sym :
  body_ok None rule = true -> body_ok None sym = true -> seq_inv (rule ++ sym) (length rule).
Proof.
  intros H1 H2. split; [rewrite length_app; lia|].
  rewrite take_app_length, drop_app_length. done.
Qed.

Lemma seq_inv_body rule last : seq_inv rule last -> body_ok None rule = true.
Proof.
  intros (_ & H1 & H2). rewrite <- (take_drop last rule). by apply body_ok_app.
Qed.

Lemma repeat_prev rule last n :
  seq_inv rule last ->
  let rule' := Nat.iter n (fun r => r ++ drop last rule) rule in
  exists sym, rule' = take last rule ++ sym /\ body_ok None sym = true /\
    (forall p, known rule p -> known sym p).
Proof.
  intros (Hl & H1 & H2). induction n as [|n (sym & E & Hs & Hk)]; simpl.
  - exists (drop last rule). rewrite take_drop. split_and!; [done..|].
    intros p Hp. by apply Forall_drop.
  - exists (sym ++ drop last rule). rewrite E, app_assoc. split_and!; [done|by apply body_ok_app|].
    intros p Hp. apply known_app. split; [by apply Hk|by apply Forall_drop].
Qed.

Lemma handle_repetitions_keeps name pos rule last mn mx :
  word_only name -> seq_inv rule last ->
  pkeeps (known rule) (handle_repetitions name pos rule last mn mx)
    (fun rule' p => seq_inv rule' last /\ known rule' p).
Proof.
  intros Hw Hinv. unfold handle_repetitions. case_decide as Hne; [apply keeps_throw|].
  set (n := Z.to_nat (n_opt mn mx)).
  set (rule1 := if mn =? 0 then _ else _).
  assert (exists sym, rule1 = take last rule ++ sym /\ body_ok None sym = true /\
            forall p, known rule p -> known sym p) as (sym & E & Hs & Hk).
  { unfold rule1. case_match.
    - exists []. rewrite app_nil_r. split_and!; [done..|]. constructor.
    - by apply repeat_prev. }
  destruct Hinv as (Hl & H1 & H2).
  assert (Hlen : length (take last rule) = last) by (apply length_take_le; lia).
  apply (pkeeps_bind _ _ _ (fun id p => ((0 < n)%nat \/ 0 < 0 -> id_known id p) /\ known rule p)).
  { apply (pkeeps_use (known rule) _ _ _ _ _ (known_stable rule)
      (add_rec_rules_keeps name (drop last rule) (mx =? UINT64_MAX) n 0 0 Hw H2 ltac:(lia))); [|by split].
    intros p Hp. split; [|done]. split; [by apply Forall_drop|lia]. }
  intros id. apply pkeeps_ret. intros p _ [Hid Hp].
  assert (Hin : forall tl, body_ok None tl = true -> known tl p ->
    seq_inv (take last rule ++ sym ++ tl) last /\ known (take last rule ++ sym ++ tl) p).
  { intros tl Ht Htk. split.
    - pose proof (seq_inv_push (take last rule) (sym ++ tl) H1) as Hp2.
      rewrite Hlen in Hp2. apply Hp2. by apply body_ok_app.
    - rewrite !known_app. split_and!; [by apply Forall_take|by apply Hk|done]. }
  rewrite E. destruct (n_opt mn mx >? 0) eqn:En.
  - rewrite <- app_assoc. apply Hin; [done|]. apply known_ref, Hid. left.
    apply Z.gtb_lt in En. unfold n. lia.
  - rewrite <- (app_nil_r (take last rule ++ sym)), <- app_assoc. apply Hin; [done|constructor].
Qed.

(** ** Sequences and alternatives *)

(** Where a sequence being parsed stands: [b] bounds the text that is left. *)
Definition seq_at (b : nat) (st : seq_state) (p : llama_grammar_parser) : Prop :=
  ((len (sq_pos st) <= b)%nat /\ seq_inv (sq_rule st) (sq_last st)) /\ known (sq_rule st) p.

(** A round either advances in the text, or leaves the loop. *)
Definition round_post (b : nat) (st : seq_state) (r : seq_state + seq_state)
    (p : llama_grammar_parser) : Prop :=
  match r with
  | inl st' => seq_at b st' p /\ (len (sq_pos st') < len (sq_pos st))%nat
  | inr st' => seq_at b st' p
  end.

Definition nested_ok (b : nat) (alternates : string -> Z -> PM string) : Prop :=
  forall pos id, (len pos < b)%nat ->
    pkeeps (id_known id) (alternates pos id) (fun pos' _ => (len pos' <= len pos)%nat).

Section round.
Context (b : nat) (st : seq_state) (nested : bool).
Hypothesis (Hb : (len (sq_pos st) <= b)%nat) (Hinv : seq_inv (sq_rule st) (sq_last st)).

Lemma push_keeps pos' sym (P : llama_grammar_parser -> Prop) :
  (len pos' < len (sq_pos st))%nat -> body_ok None sym = true ->
  (forall p, P p -> known (sq_rule st) p /\ known sym p) ->
  pkeeps P (st_ret (inl (mk_seq pos' (sq_rule st ++ sym) (length (sq_rule st))))) (round_post b st).
Proof.
  intros Hp Hs Hk. apply pkeeps_ret. intros p _ HP. destruct (Hk p HP) as [H1 H2].
  split; [|done]. split; [split|]; simpl; [lia| |by apply known_app].
  apply seq_inv_push; [by eapply seq_inv_body|done].
Qed.

Lemma space_lt s : (len s < len (sq_pos st))%nat ->
  (len (parse_space s nested) < len (sq_pos st))%nat.
Proof using Type. intros H. exact (Nat.le_lt_trans _ _ _ (parse_space_len s nested) H). Qed.

Lemma repeat_keeps name pos' mn mx :
  word_only name -> (len pos' < len (sq_pos st))%nat ->
  pkeeps (known (sq_rule st))
    (st_bind (handle_repetitions name pos' (sq_rule st) (sq_last st) mn mx)
       (fun rule' => st_ret (inl (mk_seq pos' rule' (sq_last st)))))
    (round_post b st).
Proof.
  intros Hw Hp. eapply pkeeps_bind; [by apply handle_repetitions_keeps|].
  intros rule'. apply pkeeps_ret. intros p _ [H1 H2]. split; [|done]. split; [split|]; simpl; [lia|done..].
Qed.

(** A literal or a class: [m] pushed one symbol. *)
Lemma pushed_keeps (m : res (string * llama_grammar_rule)) pos0 :
  (len pos0 < len (sq_pos st))%nat -> sound m (fun r => pushed (sq_rule st) r pos0) ->
  pkeeps (known (sq_rule st))
    (st_bind (lift m) (fun r => st_ret (inl (mk_seq (parse_space (adv r.1) nested) r.2 (length (sq_rule st))))))
    (round_post b st).
Proof.
  intros Hp Hm.
  apply (pkeeps_bind _ _ _ (fun r p => pushed (sq_rule st) r pos0 /\ known (sq_rule st) p)).
  { eapply keeps_sound; [apply _|exact Hm|]. intros a s H1 H2. by split. }
  intros [pos1 rule1]. apply keeps_pure. intros [H1 (sym & H2 & H3 & H4)].
  simpl in *. subst rule1. apply push_keeps; [|done|].
  - apply space_lt. pose proof (adv_le pos1). lia.
  - intros p Hk. split; [done|by apply known_no_refs].
Qed.
End round.

Lemma span_skip_while s : word_only (span s (skip_while is_word_char s)).
Proof.
  unfold span, word_only. pose proof (skip_while_len is_word_char s) as Hl.
  induction s as [|c s IH]; [done|]. simpl. pose proof (skip_while_len is_word_char s) as Hl2.
  destruct (is_word_char c) eqn:E.
  - replace (S (len s) - len (skip_while is_word_char s))%nat
      with (S (len s - len (skip_while is_word_char s))) by lia.
    simpl. rewrite E. by apply IH.
  - simpl. rewrite Nat.sub_diag. by destruct s.
Qed.

Lemma sequence_round_keeps vocab alternates name nested b st :
  word_only name -> nested_ok b alternates ->
  pkeeps (seq_at b st) (sequence_round vocab alternates name nested st) (round_post b st).
Proof.
  intros Hw Hn. apply keeps_pure. intros [Hb Hinv]. unfold sequence_round. cbv zeta.
  assert (Hadv : forall s c, is_ s c = true -> c <> NUL -> (len (parse_space (adv s) nested) < len s)%nat).
  { intros s c H1 H2. pose proof (is_adv_len s c H1 H2). pose proof (parse_space_len (adv s) nested). lia. }
  assert (Hstop : pkeeps (known (sq_rule st)) (st_ret (inr st)) (round_post b st)).
  { apply pkeeps_ret. intros p _ H. by split. }
  apply keeps_if; intros Hend; [exact Hstop|].
  apply keeps_if; intros E1.
  { pose proof (is_adv_len _ _ E1 ltac:(discriminate)). apply (pushed_keeps b st nested Hb Hinv _ (adv (sq_pos st))); [done|].
    rewrite <- (app_nil_r (sq_rule st)) at 1. apply literal_loop_sound; [lia|done|constructor]. }
  apply keeps_if; intros E2.
  { pose proof (is_adv_len _ _ E2 ltac:(discriminate)). set (pos0 := if is_ (adv (sq_pos st)) "^" then _ else _).
    assert (Hp0 : (len pos0 <= len (adv (sq_pos st)))%nat) by (unfold pos0; case_match; [apply adv_le|done]).
    apply (pushed_keeps b st nested Hb Hinv _ pos0); [lia|].
    rewrite <- (app_nil_r (sq_rule st)) at 2.
    apply class_loop_sound; [case_match; tauto|lia|done|constructor|by left]. }
  apply keeps_if; intros E3.
  { set (pos0 := if is_ (sq_pos st) "!" then _ else _).
    assert (Hp0 : (len pos0 <= len (sq_pos st))%nat) by (unfold pos0; case_match; [apply adv_le|done]).
    apply (pkeeps_bind _ _ _ (fun t p => (len t.2 < len pos0)%nat /\ known (sq_rule st) p)).
    { eapply keeps_sound; [apply _|apply parse_token_sound|]. by split. }
    intros t. apply keeps_pure. intros Ht. apply (push_keeps b st Hb Hinv); [apply space_lt; lia| |].
    1: by case_match.
    intros p Hk. split; [done|]. constructor; [|constructor]. simpl. by case_match. }
  apply keeps_if; intros E4.
  { apply (pkeeps_bind _ _ _ (fun e p => (e = skip_while is_word_char (sq_pos st) /\ (len e < len (sq_pos st))%nat) /\ known (sq_rule st) p)).
    { eapply keeps_sound; [apply _|apply parse_name_sound|]. by split. }
    intros e. apply keeps_pure. intros [-> He].
    apply (pkeeps_bind _ _ _ (fun id p => id_known id p /\ known (sq_rule st) p)).
    { apply (pkeeps_use (known (sq_rule st)) _ _ _ _ _ (known_stable _)
        (get_symbol_id_keeps _ (fun _ => True) (span_skip_while _))); by split. }
    intros id. apply (push_keeps b st Hb Hinv); [by apply space_lt|done|].
    intros p [H1 H2]. split; [done|by apply known_ref]. }
  apply keeps_if; intros E5.
  { pose proof (is_adv_len _ _ E5 ltac:(discriminate)).
    set (pos0 := parse_space (adv (sq_pos st)) true).
    assert (Hp0 : (len pos0 <= len (adv (sq_pos st)))%nat) by apply parse_space_len.
    apply (pkeeps_bind _ _ _ (fun id p => id_known id p /\ known (sq_rule st) p)).
    { apply (pkeeps_use (known (sq_rule st)) _ _ _ _ _ (known_stable _)
        (generate_symbol_id_keeps _ (fun _ => True) Hw)); by split. }
    intros id.
    apply (pkeeps_bind _ _ _ (fun pos' p => (len pos' <= len pos0)%nat /\ (id_known id p /\ known (sq_rule st) p))).
    { refine (pkeeps_use (fun p => id_known id p /\ known (sq_rule st) p) _ _ _ _ _ _ (Hn pos0 id ltac:(lia)) _ _).
      - intros p q Hle [H1 H2]. split; [by eapply id_known_stable|by eapply known_stable].
      - intros p [H1 H2]. by split.
      - by split. }
    intros pos'. apply keeps_pure. intros Hp'.
    apply keeps_if; intros E; [by apply keeps_throw|].
    apply (push_keeps b st Hb Hinv); [|done|].
    - apply space_lt. pose proof (adv_le pos'). lia.
    - intros p [H1 H2]. split; [done|by apply known_ref]. }
  apply keeps_if; intros E6.
  { apply (push_keeps b st Hb Hinv); [|done|].
    - by eapply Hadv.
    - intros p Hk. split; [done|]. by apply known_no_refs, Forall_singleton. }
  apply keeps_if; intros E7; [apply (repeat_keeps b st Hb Hinv); [done|by eapply Hadv]|].
  apply keeps_if; intros E8; [apply (repeat_keeps b st Hb Hinv); [done|by eapply Hadv]|].
  apply keeps_if; intros E9; [apply (repeat_keeps b st Hb Hinv); [done|by eapply Hadv]|].
  apply keeps_if; intros E10; [|exact Hstop].
  pose proof (is_adv_len _ _ E10 ltac:(discriminate)).
  apply (pkeeps_bind _ _ _ (fun r p => (len r.2 <= len (adv (sq_pos st)))%nat /\ known (sq_rule st) p)).
  { eapply keeps_sound; [apply _|apply parse_bounds_sound|]. by split. }
  intros r. apply keeps_pure. intros Hr. apply (repeat_keeps b st Hb Hinv); [done|lia].
Qed.

(** What [parse_sequence] returns: the rule so far, with nothing pending. *)
Definition parsed (n : nat) (r : string * llama_grammar_rule) (p : llama_grammar_parser) : Prop :=
  ((len r.1 <= n)%nat /\ body_ok None r.2 = true) /\ known r.2 p.

Lemma parse_sequence_keeps vocab alternates src name rule nested :
  word_only name -> nested_ok (len src) alternates -> body_ok None rule = true ->
  pkeeps (known rule) (parse_sequence vocab alternates src name rule nested) (parsed (len src)).
Proof.
  intros Hw Hn Hr. unfold parse_sequence.
  apply (pkeeps_bind _ _ _ (seq_at (len src))).
  - eapply keeps_mono.
    + apply (keeps_loop parser_inv sym_le crowded _ (seq_at (len src)) (fun st => len (sq_pos st)) (seq_at (len src)));
        [|simpl; lia].
      intros st. by apply sequence_round_keeps.
    + intros p _ Hk. split; [split|]; simpl; [done| |done].
      rewrite <- (app_nil_r rule) at 1. by apply seq_inv_push.
    + done.
  - intros st. apply pkeeps_ret. intros p _ [[H1 H2] H3]. split; [split|]; simpl; [done| |done].
    by eapply seq_inv_body.
Qed.

Lemma alternates_round_keeps vocab alternates name nested b st :
  word_only name -> nested_ok b alternates ->
  pkeeps (parsed b st) (alternates_round vocab alternates name nested st) (fun r p =>
    match r with
    | inl st' => parsed b st' p /\ (len st'.1 < len st.1)%nat
    | inr st' => parsed b st' p
    end).
Proof.
  intros Hw Hn. apply keeps_pure. intros [Hl Hb]. unfold alternates_round.
  apply keeps_if; intros E.
  - pose proof (is_adv_len _ _ E ltac:(discriminate)).
    set (pos := parse_space (adv st.1) true).
    assert (Hp : (len pos <= len (adv st.1))%nat) by apply parse_space_len.
    apply (pkeeps_bind _ _ _ (parsed (len pos))).
    + eapply keeps_mono; [apply parse_sequence_keeps; [done| |]| |done].
      * intros q id Hq. apply Hn. lia.
      * by apply body_ok_app.
      * intros p _ Hk. apply known_app. split; [done|]. by apply known_no_refs, Forall_singleton.
    + intros r. apply pkeeps_ret. intros p _ [[H1 H2] H3]. split; [split; [split|]|]; [lia|done..|lia].
  - apply pkeeps_ret. intros p _ H. by split.
Qed.

Lemma parse_alternates_keeps vocab fuel src name id nested :
  (len src < fuel)%nat -> word_only name ->
  pkeeps (id_known id) (parse_alternates vocab fuel src name id nested)
    (fun pos' _ => (len pos' <= len src)%nat).
Proof.
  revert src id nested. induction fuel as [|fuel IH]; intros src id nested Hf Hw; [lia|]. simpl.
  assert (Hn : nested_ok (len src) (fun pos id => parse_alternates vocab fuel pos name id true)).
  { intros pos id' Hp. apply IH; [lia|done]. }
  apply (pkeeps_bind _ _ _ (fun r p => parsed (len src) r p /\ id_known id p)).
  { eapply (pkeeps_use (id_known id)); [apply id_known_stable|by apply parse_sequence_keeps| |by split].
    intros p Hp. split; [constructor|done]. }
  intros r. apply (pkeeps_bind _ _ _ (fun r p => parsed (len src) r p /\ id_known id p)).
  { eapply (pkeeps_use (id_known id) _ (parsed (len src) r)); [apply id_known_stable| |by intros p H|by split].
    apply keeps_pure. intros [H1 H2].
    change (pkeeps (known r.2)
      (st_loop (S (len src)) (alternates_round vocab (fun pos id => parse_alternates vocab fuel pos name id true) name nested) r)
      (parsed (len src))).
    eapply keeps_mono; [apply (keeps_loop parser_inv sym_le crowded _ (parsed (len src)) (fun st => len st.1) (parsed (len src)))| |done].
    - intros st. by apply alternates_round_keeps.
    - lia.
    - intros p _ H3. by split. }
  intros r2. eapply (keeps_mono parser_inv sym_le crowded _
    (fun p => ((len r2.1 <= len src)%nat /\ body_ok None r2.2 = true) /\ (known r2.2 p /\ id_known id p)));
    [|by intros p _ [[? ?] ?]|intros a p _ H; exact H]. apply keeps_pure. intros [H1 H2].
  apply (pkeeps_bind _ _ _ (fun _ _ => True)).
  { eapply keeps_mono; [apply add_rule_keeps; by exists r2.2| |done].
    intros p _ [Hk Hid]. split; [|done]. apply known_app. split; [done|]. by apply known_no_refs, Forall_singleton. }
  intros _. by apply pkeeps_ret.
Qed.

Lemma parse_rule_keeps vocab src :
  pkeeps (fun _ => True) (parse_rule vocab src) (fun pos' _ => (len pos' < len src)%nat).
Proof.
  unfold parse_rule.
  apply (pkeeps_bind _ _ _ (fun e p => (e = skip_while is_word_char src /\ (len e < len src)%nat) /\ True)).
  { eapply keeps_sound; [apply _|apply parse_name_sound|]. by split. }
  intros e. apply keeps_pure. intros [-> He]. cbv zeta.
  set (pos := parse_space _ false). assert (Hp : (len pos <= len (skip_while is_word_char src))%nat) by apply parse_space_len.
  apply (pkeeps_bind _ _ _ (fun id => id_known id)).
  { eapply keeps_mono; [apply (get_symbol_id_keeps _ (fun _ => True)), span_skip_while|done|done]. }
  intros id. apply keeps_if; intros _; [apply keeps_throw|].
  set (pos1 := parse_space _ true).
  assert (Hp1 : (len pos1 <= len pos)%nat).
  { unfold pos1. etrans; [apply parse_space_len|]. do 3 (etrans; [apply adv_le|]). done. }
  apply (pkeeps_bind _ _ _ (fun pos' p => (len pos' <= len pos1)%nat /\ True)).
  { eapply keeps_mono; [apply parse_alternates_keeps; [lia|apply span_skip_while]|done|done]. }
  intros q. apply keeps_pure. intros Hq.
  assert (Hs : forall s, (len s <= len q)%nat ->
    pkeeps (fun _ => True) (st_ret (parse_space s true)) (fun pos' _ => (len pos' < len src)%nat)).
  { intros s Hs. apply pkeeps_ret. intros p _ _. pose proof (parse_space_len s true). lia. }
  apply keeps_if; intros _; [|apply keeps_if; intros _].
  - apply Hs. case_match; [etrans; [apply adv_le|]|]; apply adv_le.
  - apply Hs, adv_le.
  - apply keeps_if; intros _; [apply keeps_throw|by apply Hs].
Qed.

(** ** Whole grammars *)

(** Every rule is a well-formed body with its [END], and refers to existing rules: what
    the matcher relies on. *)
Definition refs_below (n : nat) (l : llama_grammar_rule) : Prop :=
  Forall (fun e => ge_type e = LLAMA_GRETYPE_RULE_REF -> (Z.to_nat (ge_value e) < n)%nat) l.

Definition grammar_wf (rules : llama_grammar_rules) : Prop :=
  Forall (fun r => rule_ok r /\ refs_below (length rules) r) rules.

Lemma sound_foldM {A} (f : A -> res unit) (Q : A -> Prop) l :
  (forall x, x ∈ l -> sound (f x) (fun _ => Q x)) ->
  sound (foldM (fun _ x => f x) tt l) (fun _ => Forall Q l).
Proof.
  induction l as [|x l IH]; intros H; simpl; [constructor|].
  apply sound_bind. eapply sound_mono; [apply H; left|]. intros [] Hx.
  eapply sound_mono; [apply IH; intros y Hy; apply H; by right|]. intros [] Hl. by constructor.
Qed.

Lemma check_ref_sound p e :
  (ge_type e = LLAMA_GRETYPE_RULE_REF -> id_known (ge_value e) p) ->
  sound (check_ref p e) (fun _ =>
    ge_type e = LLAMA_GRETYPE_RULE_REF -> (Z.to_nat (ge_value e) < length (gp_rules p))%nat).
Proof.
  intros Hk. unfold check_ref. case_decide as Ht; [|by intros ?].
  assert (Hf : list_find (fun kv => kv.2 = ge_value e) (map_to_list (gp_symbol_ids p)) <> None).
  { intros F. destruct (Hk Ht) as [name Hname]. apply elem_of_map_to_list in Hname.
    apply list_find_None in F. rewrite Forall_forall in F. apply list_elem_of_In in Hname. by destruct (F _ Hname). }
  destruct (list_find _ _) as [[i [k v]]|]; [|done].
  destruct (gp_rules p !! Z.to_nat (ge_value e)) as [[|]|] eqn:E; [done| |done].
  intros _. by eapply lookup_lt_Some.
Qed.

Lemma check_rule_sound p r :
  r = [] \/ (rule_ok r /\ known r p) ->
  sound (check_rule p r) (fun _ => rule_ok r /\ refs_below (length (gp_rules p)) r).
Proof.
  intros Hr. destruct r as [|e r]; [done|]. destruct Hr as [?|[Hok Hk]]; [done|].
  unfold check_rule. eapply sound_mono.
  - apply sound_foldM. intros x Hx. apply check_ref_sound. apply (proj1 (Forall_forall _ _) Hk).
    by apply list_elem_of_In.
  - intros [] H. by split.
Qed.

Lemma parse_body_keeps vocab src :
  pkeeps (fun _ => True) (parse_body vocab src) (fun _ p => grammar_wf (gp_rules p)).
Proof.
  unfold parse_body. apply (pkeeps_bind _ _ _ (fun _ _ => True)).
  - apply (keeps_loop parser_inv sym_le crowded _ (fun _ _ => True) (fun pos => len pos) (fun _ _ => True)).
    + intros pos. apply keeps_if; intros _; [by apply pkeeps_ret|].
      apply (pkeeps_bind _ _ _ (fun pos' _ => (len pos' < len pos)%nat)); [apply parse_rule_keeps|].
      intros pos'. by apply pkeeps_ret.
    + pose proof (parse_space_len src true). lia.
  - intros _. intros s HI _. unfold st_bind, st_get, lift.
    assert (Hs : sound (foldM (fun _ rule => check_rule s rule) tt (gp_rules s))
      (fun _ => grammar_wf (gp_rules s))).
    { apply sound_foldM. intros r Hr. apply check_rule_sound.
      apply (proj1 (Forall_forall _ _) (pi_rules s HI)).
      by apply list_elem_of_In. }
    destruct (foldM _ _ _) as [[]|msg|f]; [|done|done]. split; [done|by split].
Qed.

Lemma parser_inv_new : parser_inv llama_grammar_parser_new.
Proof.
  split.
  - intros base id v _ H. simpl in H. by rewrite lookup_empty in H.
  - intros _. split; intros *; simpl; by rewrite lookup_empty.
  - constructor.
Qed.

(** Parsing ends on every text; [true] comes with a well-formed grammar, [false] with no
    rules at all. *)
Lemma grammar_parse_ok vocab src :
  match grammar_parse vocab src llama_grammar_parser_new with
  | (Ok true, p) => parser_inv p /\ grammar_wf (gp_rules p)
  | (Ok false, p) => gp_rules p = []
  | (Throw _, _) => False
  | (Fault f, p) => f = OutOfRange /\ crowded p
  end.
Proof.
  unfold grammar_parse. pose proof (parse_body_keeps vocab src llama_grammar_parser_new parser_inv_new Logic.I) as H.
  destruct (parse_body vocab src llama_grammar_parser_new) as [[[]|msg|f] p]; [|done|done].
  destruct H as (H1 & _ & H2). by split.
Qed.
