(* ===== verification/Utf8.v ===== *)
(** The streaming UTF-8 decoder of llama-grammar.cpp against the UTF-8 encoding: a text
    cut at any byte and decoded in two calls gives the code points of the whole. *)

From Stdlib Require Import Ascii.
From S2P Require Import Prelude GrammarParser.
Local Open Scope Z_scope.

(** Division and remainder in [lia]. *)
Local Ltac Zify.zify_post_hook ::= Z.to_euclidean_division_equations.

(** ** The encoding *)

(** The bytes of a code point below 0x110000. *)
Definition utf8_bytes (c : Z) : list Z :=
  if c <? 128 then [c]
  else if c <? 2048 then [192 + c / 64; 128 + c `mod` 64]
  else if c <? 65536 then [224 + c / 4096; 128 + (c / 64) `mod` 64; 128 + c `mod` 64]
  else [240 + c / 262144; 128 + (c / 4096) `mod` 64; 128 + (c / 64) `mod` 64; 128 + c `mod` 64].

Definition str_of (l : list Z) : string := fold_right (fun z s => String (ascii_of_N (Z.to_N z)) s) EmptyString l.

Definition utf8_encode (cs : list Z) : list Z := concat (map utf8_bytes cs).

Definition code_point (c : Z) : Prop := 0 < c < 1114112.
Definition is_byte (b : Z) : Prop := 0 < b < 256.

Lemma byte_of z : 0 <= z < 256 -> byte (ascii_of_N (Z.to_N z)) = z.
Proof. intros H. unfold byte. rewrite N_ascii_embedding; lia. Qed.

Lemma str_of_app l1 l2 : str_of (l1 ++ l2) = str_of l1 +:+ str_of l2.
Proof. induction l1 as [|z l1 IH]; [done|]. simpl. by rewrite IH. Qed.

Lemma str_of_length l : String.length (str_of l) = length l.
Proof. induction l as [|z l IH]; [done|]. simpl. by rewrite IH. Qed.

Lemma shift_in_eq v b : 0 <= v < 67108864 -> 0 <= b -> shift_in v b = v * 64 + b `mod` 64.
Proof.
  intros Hv Hb. unfold shift_in, u32. rewrite Z.shiftl_mul_pow2 by lia.
  change 63 with (Z.ones 6). rewrite Z.land_ones by lia. change (2 ^ 6) with 64.
  pose proof (Z.mod_pos_bound b 64 ltac:(lia)).
  rewrite (Z.mod_small (v * 64)) by lia. by rewrite Z.mod_small by lia.
Qed.

(** A continuation byte. *)
Definition cont (b : Z) : Prop := 128 <= b < 192.

Lemma cont_shift b : cont b -> Z.shiftr b 6 = 2.
Proof. unfold cont. intros H. rewrite Z.shiftr_div_pow2 by lia. change (2 ^ 6) with 64. lia. Qed.

(** Both inner loops consume [n] continuation bytes. *)
Fixpoint shift_all (v : Z) (l : list Z) : Z :=
  match l with [] => v | b :: l => shift_all (shift_in v b) l end.

Lemma utf8_tail_app l rest v n :
  Forall cont l -> (length l <= n)%nat -> (length l = n \/ rest = []) ->
  utf8_tail (str_of (l ++ rest)) v (Z.of_nat n) = (str_of rest, shift_all v l, Z.of_nat (n - length l)).
Proof.
  revert v n. induction l as [|b l IH]; intros v n Hl Hn Hr; simpl in *.
  - destruct Hr as [<-| ->]; [|simpl; by rewrite Nat.sub_0_r].
    destruct rest as [|z rest]; [done|]. simpl. by rewrite orb_true_r.
  - pose proof (Forall_inv Hl) as Hb. unfold cont in Hb. rewrite byte_of by lia.
    rewrite (proj2 (Z.eqb_neq b 0)) by lia. rewrite (proj2 (Z.leb_gt _ 0)) by lia. simpl.
    destruct n as [|n]; [lia|]. replace (Z.of_nat (S n) - 1) with (Z.of_nat n) by lia.
    apply IH; [by apply Forall_inv_tail in Hl|lia|]. destruct Hr; [left; lia|by right].
Qed.

Lemma utf8_resume_app l rest v n :
  Forall cont l -> (length l <= n)%nat -> (length l = n \/ rest = []) ->
  utf8_resume (str_of (l ++ rest)) v (Z.of_nat n) =
    Some (str_of rest, shift_all v l, Z.of_nat (n - length l)).
Proof.
  revert v n. induction l as [|b l IH]; intros v n Hl Hn Hr; simpl in *.
  - destruct Hr as [<-| ->]; [|simpl; by rewrite Nat.sub_0_r].
    destruct rest as [|z rest]; [done|]. simpl. by rewrite orb_true_r.
  - pose proof (Forall_inv Hl) as Hb. rewrite byte_of by (unfold cont in Hb; lia).
    rewrite (cont_shift b Hb). unfold cont in Hb.
    rewrite (proj2 (Z.eqb_neq b 0)) by lia. rewrite (proj2 (Z.leb_gt _ 0)) by lia. simpl.
    destruct n as [|n]; [lia|]. replace (Z.of_nat (S n) - 1) with (Z.of_nat n) by lia.
    apply IH; [by apply Forall_inv_tail in Hl|lia|]. destruct Hr; [left; lia|by right].
Qed.

(** ** The shape of an encoded code point *)

Definition utf8_mask (n : Z) : Z := (Z.shiftl 1 (7 - n) - 1) `mod` 256.

(** A first byte and its continuation bytes, which shift in to the code point. *)
Record encoded (c : Z) (b : Z) (l : list Z) : Prop := mk_encoded {
  en_byte  : is_byte b;
  en_extra : utf8_extra (Z.shiftr b 4) = Z.of_nat (length l);
  en_cont  : Forall cont l;
  en_value : shift_all (Z.land b (utf8_mask (Z.of_nat (length l)))) l = c
}.

Lemma mask_value n : (n <= 3)%nat -> utf8_mask (Z.of_nat n) = Z.ones (7 - Z.of_nat n).
Proof. intros H. destruct n as [|[|[|[|n]]]]; try reflexivity. lia. Qed.

Lemma utf8_bytes_encoded c : code_point c -> exists b l, utf8_bytes c = b :: l /\ encoded c b l.
Proof.
  unfold code_point, utf8_bytes. intros Hc.
  assert (Hext : forall b k, (b / 16 = 12 \/ b / 16 = 13 -> k = 1) -> (b / 16 = 14 -> k = 2) -> (b / 16 = 15 -> k = 3) ->
    192 <= b < 256 -> utf8_extra (Z.shiftr b 4) = k).
  { intros b k H1 H2 H3 Hb. rewrite Z.shiftr_div_pow2 by lia. change (2 ^ 4) with 16.
    assert (Hd : b / 16 = 12 \/ b / 16 = 13 \/ b / 16 = 14 \/ b / 16 = 15) by lia.
    destruct Hd as [E|[E|[E|E]]]; rewrite E; unfold utf8_extra; simpl; symmetry; auto. }
  destruct (Z.ltb_spec c 128); [|destruct (Z.ltb_spec c 2048); [|destruct (Z.ltb_spec c 65536)]];
    eexists _, _; (split; [reflexivity|]); split; cbn [length]; unfold is_byte, cont; try lia.
  - rewrite Z.shiftr_div_pow2 by lia. change (2 ^ 4) with 16.
    assert (Hd : 0 <= c / 16 < 8) by lia. unfold utf8_extra.
    assert (E : c / 16 = 0 \/ c / 16 = 1 \/ c / 16 = 2 \/ c / 16 = 3 \/ c / 16 = 4 \/ c / 16 = 5 \/ c / 16 = 6 \/ c / 16 = 7) by lia.
    destruct E as [E|[E|[E|[E|[E|[E|[E|E]]]]]]]; rewrite E; reflexivity.
  - constructor.
  - rewrite mask_value by lia. simpl. rewrite Z.land_ones by lia. change (2 ^ (7 - 0)) with 128. lia.
  - apply Hext; lia.
  - repeat constructor; lia.
  - rewrite mask_value by lia. cbn [shift_all]. rewrite Z.land_ones by lia. change (2 ^ (7 - Z.of_nat 1)) with 64.
    rewrite shift_in_eq; lia.
  - apply Hext; lia.
  - repeat constructor; lia.
  - rewrite mask_value by lia. cbn [shift_all]. rewrite Z.land_ones by lia. change (2 ^ (7 - Z.of_nat 2)) with 32.
    rewrite (shift_in_eq ((224 + c / 4096) `mod` 32)) by lia. rewrite shift_in_eq; lia.
  - apply Hext; lia.
  - repeat constructor; lia.
  - rewrite mask_value by lia. cbn [shift_all]. rewrite Z.land_ones by lia. change (2 ^ (7 - Z.of_nat 3)) with 16.
    rewrite (shift_in_eq ((240 + c / 262144) `mod` 16)) by lia.
    rewrite (shift_in_eq ((240 + c / 262144) `mod` 16 * 64 + _)) by lia. rewrite shift_in_eq; lia.
Qed.

(** ** Decoding a stream *)

(** The decoder state waits for the bytes [l], which complete the code points [pc]. *)
Inductive waiting : llama_partial_utf8 -> list Z -> list Z -> Prop :=
  | waiting_none v : waiting (mk_partial v 0) [] []
  | waiting_some v l : l <> [] -> Forall cont l ->
      waiting (mk_partial v (Z.of_nat (length l))) l [shift_all v l].

Lemma shift_all_app v l1 l2 : shift_all v (l1 ++ l2) = shift_all (shift_all v l1) l2.
Proof. revert v. induction l1 as [|b l1 IH]; intros v; [done|]. apply IH. Qed.

(** One round of the main loop on a first byte followed by [s]. *)
Lemma utf8_round_ok c b l s v r out :
  encoded c b l ->
  utf8_round (mk_u8 (str_of (b :: s)) v r out) =
    let '(pos, value, n) := utf8_tail (str_of s) (Z.land b (utf8_mask (Z.of_nat (length l)))) (Z.of_nat (length l)) in
    inl (mk_u8 pos value n (if n =? 0 then out ++ [value] else out)).
Proof.
  intros [Hb He _ _]. unfold is_byte in Hb. unfold utf8_round.
  assert (Hpeek : byte (peek (str_of (b :: s))) = b) by (simpl; apply byte_of; lia).
  assert (Hend : at_end (str_of (b :: s)) = false).
  { unfold at_end, is_. apply bool_decide_eq_false. intros E. rewrite E in Hpeek.
    change (byte NUL) with 0 in Hpeek. lia. }
  cbn [u8_pos u8_out]. rewrite Hend, Hpeek, He. rewrite (proj2 (Z.ltb_ge _ 0)) by lia. reflexivity.
Qed.

(** A list that is cut inside its first part, or after it. *)
Lemma app_cut {A} (l t s s' : list A) :
  l ++ t = s ++ s' -> (exists l2, l2 <> [] /\ l = s ++ l2 /\ s' = l2 ++ t) \/
                      (exists s2, s = l ++ s2 /\ t = s2 ++ s').
Proof.
  revert s. induction l as [|x l IH]; intros s E; simpl in *; [right; by exists s|].
  destruct s as [|y s]; simpl in *; [left; by exists (x :: l)|].
  injection E as -> E. destruct (IH s E) as [(l2 & H1 & -> & ->)|(s2 & -> & ->)]; [left|right]; eauto.
Qed.

Lemma utf8_rounds_stream cs : forall s s' v out fuel,
  Forall code_point cs -> utf8_encode cs = s ++ s' -> (length s < fuel)%nat ->
  exists cs1 v' r' l' pc' cs',
    utf8_rounds fuel (mk_u8 (str_of s) v 0 out) = Ok (Some (mk_u8 EmptyString v' r' (out ++ cs1))) /\
    waiting (mk_partial v' r') l' pc' /\ s' = l' ++ utf8_encode cs' /\ Forall code_point cs' /\
    cs1 ++ pc' ++ cs' = cs.
Proof.
  induction cs as [|c cs IH]; intros s s' v out fuel Hcs E Hf.
  { symmetry in E. apply app_eq_nil in E as [-> ->]. destruct fuel as [|fuel]; [lia|].
    exists [], v, 0, [], [], []. rewrite app_nil_r. split_and!; [done|constructor|done..]. }
  destruct s as [|b0 s].
  { destruct fuel as [|fuel]; [lia|]. exists [], v, 0, [], [], (c :: cs).
    rewrite app_nil_r. by split_and!; [|constructor|..]. }
  destruct (utf8_bytes_encoded c (Forall_inv Hcs)) as (b & l & Eb & Henc).
  unfold utf8_encode in E. simpl in E. rewrite Eb in E. simpl in E. injection E as <- E.
  destruct fuel as [|fuel]; [lia|]. cbn [utf8_rounds]. rewrite (utf8_round_ok c b l) by done.
  pose proof Henc as [_ _ Hcont Hval]. apply app_cut in E as [(l2 & Hne & -> & ->)|(s2 & -> & E)].
  - apply Forall_app in Hcont as [Hc1 Hc2].
    pose proof (utf8_tail_app s [] (Z.land b (utf8_mask (Z.of_nat (length (s ++ l2))))) (length (s ++ l2)) Hc1
      ltac:(rewrite length_app; lia) ltac:(by right)) as Ht.
    rewrite app_nil_r in Ht. rewrite Ht. clear Ht.
    rewrite length_app. replace (length s + length l2 - length s)%nat with (length l2) by lia.
    assert (Hl2 : (0 < length l2)%nat) by (destruct l2; [done|simpl; lia]).
    rewrite (proj2 (Z.eqb_neq _ 0)) by lia.
    destruct fuel as [|fuel]; [simpl in Hf; lia|].
    eexists [], _, _, l2, _, cs. split_and!; [cbn; by rewrite app_nil_r|by constructor|done|by apply Forall_inv_tail in Hcs|].
    rewrite length_app, shift_all_app in Hval. simpl. by rewrite Hval.
  - rewrite utf8_tail_app; [|done|lia|by left]. rewrite Nat.sub_diag.
    change (Z.of_nat 0) with 0. change (0 =? 0) with true. cbv iota. rewrite Hval. simpl in Hf. rewrite length_app in Hf.
    destruct (IH s2 s' c (out ++ [c]) fuel (Forall_inv_tail Hcs) E ltac:(lia))
      as (cs1 & v' & r' & l' & pc' & cs' & H1 & H2 & H3 & H4 & <-).
    exists (c :: cs1), v', r', l', pc', cs'. split_and!; try done. by rewrite H1, <- app_assoc.
Qed.

(** Decoding one chunk of an encoded stream: what comes out, what is still pending and
    what is left of the stream make up the code points. *)
Lemma decode_utf8_stream p l pc cs s s' :
  waiting p l pc -> Forall code_point cs -> l ++ utf8_encode cs = s ++ s' ->
  exists out p' l' pc' cs',
    decode_utf8 (str_of s) p = Ok (out ++ [0], p') /\ waiting p' l' pc' /\
    s' = l' ++ utf8_encode cs' /\ Forall code_point cs' /\ out ++ pc' ++ cs' = pc ++ cs.
Proof.
  intros Hw Hcs E. unfold decode_utf8. rewrite str_of_length.
  assert (Hresume : forall s1 rest, Forall cont s1 -> (length s1 <= length l)%nat ->
    (length s1 = length l \/ rest = []) ->
    utf8_resume (str_of (s1 ++ rest)) (pu_value p) (pu_n_remain p) =
      Some (str_of rest, shift_all (pu_value p) s1, Z.of_nat (length l - length s1))).
  { intros s1 rest H1 H2 H3. replace (pu_n_remain p) with (Z.of_nat (length l)) by by destruct Hw.
    by apply utf8_resume_app. }
  assert (Hcont : Forall cont l) by (destruct Hw; [constructor|done]).
  apply app_cut in E as [(l2 & Hne & El & ->)|(s2 & -> & E)].
  - subst l. apply Forall_app in Hcont as [Hc1 Hc2].
    pose proof (Hresume s [] Hc1) as Hr. rewrite app_nil_r, length_app in Hr.
    rewrite Hr by (lia || by right). replace (length s + length l2 - length s)%nat with (length l2) by lia.
    assert (Hl2 : (0 < length l2)%nat) by (destruct l2; [done|simpl; lia]).
    rewrite (proj2 (Z.eqb_neq (Z.of_nat (length l2)) 0)), andb_false_r by lia. cbn.
    inversion Hw as [|v l0 Hl0 Hcl E1 E2 E3]; [by destruct s, l2|]. subst.
    eexists [], _, l2, _, cs. split_and!; [reflexivity|by constructor|done..|].
    simpl. by rewrite <- shift_all_app.
  - rewrite (Hresume l s2 Hcont ltac:(lia) ltac:(by left)). rewrite Nat.sub_diag.
    destruct (utf8_rounds_stream cs s2 s' (shift_all (pu_value p) l) pc (S (length (l ++ s2))) Hcs E)
      as (cs1 & v' & r' & l' & pc' & cs' & H1 & H2 & H3 & H4 & H5).
    { rewrite length_app. lia. }
    assert (Epc : (if (pu_n_remain p >? 0) && (Z.of_nat 0 =? 0) then [shift_all (pu_value p) l] else []) = pc).
    { destruct Hw as [v|v l0 Hne Hc0]; [done|]. simpl. destruct l0; [done|]. done. }
    rewrite Epc. change (Z.of_nat 0) with 0. rewrite H1, bind_ok. cbn [u8_out u8_value u8_remain].
    exists (pc ++ cs1), (mk_partial v' r'), l', pc', cs'. split_and!; try done.
    rewrite <- H5. by rewrite <- !app_assoc.
Qed.
