(* ===== verification/Unicode.v ===== *)
(** Text of the tokenizers, src/llama/llama.cpp/src/unicode.cpp: UTF-8, the encoding of bytes
    as printable characters, the classes of code points, and the pre-tokenizers that split a
    text into words.  A [std::string] is a list of bytes (0 to 255), a [std::wstring] a list
    of code points.  The tables of unicode-data.cpp, which is generated, [std::regex] and
    [std::wstring_convert] are parameters. *)

From Stdlib Require Import Ascii.
From S2P Require Import Prelude.
Local Open Scope Z_scope.

(** The bytes of a string literal. *)
Fixpoint lit (s : string) : list Z :=
  match s with EmptyString => [] | String c s => Z.of_N (Ascii.N_of_ascii c) :: lit s end.

(** ** UTF-8 *)

Definition unicode_len_utf8 (src : Z) : nat :=
  nth (Z.to_nat (Z.shiftr src 4)) [1; 1; 1; 1; 1; 1; 1; 1; 1; 1; 1; 1; 2; 2; 3; 4]%nat 0%nat.

(** A byte of [utf8] that continues a sequence; out of the string it does not. *)
Definition is_cont (utf8 : list Z) (i : nat) : bool :=
  match utf8 !! i with Some b => Z.land b 192 =? 128 | None => false end.

(** The code point and the new [offset]. *)
Definition unicode_cpt_from_utf8 (utf8 : list Z) (offset : nat) : res (Z * nat) :=
  assert_ (offset <? length utf8)%nat ;;
  b0 ← rd utf8 offset;
  let low i := b ← rd utf8 (offset + i); Ok (Z.land b 63) in
  if Z.land b0 128 =? 0 then Ok (b0, offset + 1)%nat
  else if Z.land b0 64 =? 0 then Throw "invalid character"
  else if Z.land b0 32 =? 0 then
    if negb (is_cont utf8 (offset + 1)) then Throw "invalid character"
    else
      b1 ← low 1%nat;
      Ok (Z.lor (Z.shiftl (Z.land b0 31) 6) b1, offset + 2)%nat
  else if Z.land b0 16 =? 0 then
    if negb (is_cont utf8 (offset + 1)) || negb (is_cont utf8 (offset + 2)) then Throw "invalid character"
    else
      b1 ← low 1%nat; b2 ← low 2%nat;
      Ok (Z.lor (Z.lor (Z.shiftl (Z.land b0 15) 12) (Z.shiftl b1 6)) b2, offset + 3)%nat
  else if Z.land b0 8 =? 0 then
    if negb (is_cont utf8 (offset + 1)) || negb (is_cont utf8 (offset + 2)) || negb (is_cont utf8 (offset + 3))
    then Throw "invalid character"
    else
      b1 ← low 1%nat; b2 ← low 2%nat; b3 ← low 3%nat;
      Ok (Z.lor (Z.lor (Z.lor (Z.shiftl (Z.land b0 7) 18) (Z.shiftl b1 12)) (Z.shiftl b2 6)) b3, offset + 4)%nat
  else Throw "failed to convert utf8 to codepoint".

Definition unicode_cpt_to_utf8 (cpt : Z) : res (list Z) :=
  let tail k := Z.lor 128 (Z.land (Z.shiftr cpt k) 63) in
  if cpt <=? 127 then Ok [cpt]
  else if (128 <=? cpt) && (cpt <=? 2047) then Ok [Z.lor 192 (Z.land (Z.shiftr cpt 6) 31); tail 0]
  else if (2048 <=? cpt) && (cpt <=? 65535) then Ok [Z.lor 224 (Z.land (Z.shiftr cpt 12) 15); tail 6; tail 0]
  else if (65536 <=? cpt) && (cpt <=? 1114111) then
    Ok [Z.lor 240 (Z.land (Z.shiftr cpt 18) 7); tail 12; tail 6; tail 0]
  else Throw "invalid codepoint".

(** One round of the loop; an exception costs one byte. *)
Definition cpts_body (utf8 : list Z) (st : nat * list Z) : res (nat * list Z + nat * list Z) :=
  let '(offset, result) := st in
  if (offset <? length utf8)%nat then
    match unicode_cpt_from_utf8 utf8 offset with
    | Ok (cpt, offset') => Ok (inl (offset', result ++ [cpt]))
    | Throw _ => Ok (inl ((offset + 1)%nat, result ++ [65533]))
    | Fault f => Fault f
    end
  else Ok (inr st).
Definition unicode_cpts_from_utf8 (utf8 : list Z) : res (list Z) :=
  r ← loop (S (length utf8)) (cpts_body utf8) (0%nat, []); Ok r.2.

Definition unicode_cpts_to_utf8 (cps : list Z) : res (list Z) :=
  foldM (fun result c => s ← unicode_cpt_to_utf8 c; Ok (result ++ s)) [] cps.

(** ** Bytes as printable characters *)

(** The three loops over the bytes that stand for themselves. *)
Definition range (a b : Z) : list Z := (fun i => a + Z.of_nat i) <$> seq 0 (Z.to_nat (b - a + 1)).
Definition self_bytes : list Z := range 33 126 ++ range 161 172 ++ range 174 255.

Definition unicode_byte_to_utf8_map : res (gmap Z (list Z)) :=
  m ← foldM (fun m ch => s ← unicode_cpt_to_utf8 ch; Ok (<[ch := s]> m)) ∅ self_bytes;
  r ← foldM (fun '(m, n) ch =>
        match (m : gmap Z (list Z)) !! ch with
        | Some _ => Ok (m, n)
        | None => s ← unicode_cpt_to_utf8 (256 + n); Ok (<[ch := s]> m, n + 1)
        end) (m, 0) (range 0 255);
  Ok r.1.

Definition unicode_utf8_to_byte_map : res (gmap (list Z) Z) :=
  m ← foldM (fun m ch => s ← unicode_cpt_to_utf8 ch; Ok (<[s := ch]> m)) ∅ self_bytes;
  r ← foldM (fun '(m, n) ch =>
        k ← unicode_cpt_to_utf8 ch;
        match (m : gmap (list Z) Z) !! k with
        | Some _ => Ok (m, n)
        | None => s ← unicode_cpt_to_utf8 (256 + n); Ok (<[s := ch]> m, n + 1)
        end) (m, 0) (range 0 255);
  Ok r.1.

(** [map.at(key)]. *)
Definition at_key {K A} `{Countable K} (m : gmap K A) (k : K) : res A :=
  match m !! k with Some x => Ok x | None => Throw "map::at" end.

Definition unicode_byte_to_utf8 (byte : Z) : res (list Z) := m ← unicode_byte_to_utf8_map; at_key m byte.
Definition unicode_utf8_to_byte (utf8 : list Z) : res Z := m ← unicode_utf8_to_byte_map; at_key m utf8.

Definition encode_word (word : list Z) : res (list Z) :=
  utf_word ← unicode_cpts_from_utf8 word;
  text_utf ← foldM (fun t c => s ← unicode_cpt_to_utf8 c; Ok (t ++ s)) [] utf_word;
  foldM (fun e c => s ← unicode_byte_to_utf8 c; Ok (e ++ s)) [] text_utf.
Definition unicode_byte_encoding_process (bpe_words : list (list Z)) : res (list (list Z)) :=
  foldM (fun l word => e ← encode_word word; Ok (l ++ [e])) [] bpe_words.

(** ** Classes of code points *)

(** The flags of a code point, a 16-bit mask; [NUMBER] is 2, and so on. *)
Definition is_number (f : Z) : bool := Z.testbit f 1.
Definition is_letter (f : Z) : bool := Z.testbit f 2.
Definition is_whitespace (f : Z) : bool := Z.testbit f 8.
Definition category_flag (f : Z) : Z := Z.land f 255.
Definition MAX_CODEPOINTS : Z := 1114112.

Definition unicode_cpt_is_han (cpt : Z) : bool :=
  let within a b := (a <=? cpt) && (cpt <=? b) in
  if within 19968 40959 then true            (* 4E00-9FFF *)
  else if within 13312 19903 then true       (* 3400-4DBF *)
  else if within 131072 173791 then true     (* 20000-2A6DF *)
  else if within 173824 177983 then true     (* 2A700-2B73F *)
  else if within 177984 178207 then true     (* 2B740-2B81F *)
  else if within 178208 183983 then true     (* 2B820-2CEAF *)
  else if within 183984 191471 then true     (* 2CEB0-2EBEF *)
  else if within 63744 64255 then true       (* F900-FAFF *)
  else if within 194560 195103 then true     (* 2F800-2FA1F *)
  else false.

(** The tables of unicode-data.cpp. *)
Record unicode_data := mk_udata {
  unicode_ranges_flags  : list (Z * Z);
  unicode_set_whitespace : list Z;
  unicode_map_lowercase : list (Z * Z);
  unicode_map_uppercase : list (Z * Z);
  unicode_ranges_nfd    : list (Z * Z * Z)
}.

Section data.
Context (ud : unicode_data).

(** The entry of the array at [cpt]: the last range that writes it, then the marks. *)
Definition unicode_cpt_flags_array (cpt : Z) : Z :=
  let f0 := foldl (fun f i =>
      match unicode_ranges_flags ud !! i, unicode_ranges_flags ud !! S i with
      | Some (ini, v), Some (end_, _) => if (ini <=? cpt) && (cpt <? end_) then v else f
      | _, _ => f
      end) 1 (seq 0 (length (unicode_ranges_flags ud) - 1)) in
  let mark b bit f := if (b : bool) then Z.lor f bit else f in
  let f1 := mark (bool_decide (cpt ∈ unicode_set_whitespace ud)) 256 f0 in
  let f2 := mark (bool_decide (cpt ∈ (unicode_map_lowercase ud).*2)) 512 f1 in
  let f3 := mark (bool_decide (cpt ∈ (unicode_map_uppercase ud).*2)) 1024 f2 in
  mark (bool_decide (cpt ∈ (unicode_ranges_nfd ud).*2)) 2048 f3.

Definition unicode_cpt_flags_from_cpt (cpt : Z) : Z :=
  if cpt <? MAX_CODEPOINTS then unicode_cpt_flags_array cpt else 1.

Definition unicode_cpt_flags_from_utf8 (utf8 : list Z) : res Z :=
  if bool_decide (utf8 = []) then Ok 1
  else r ← unicode_cpt_from_utf8 utf8 0; Ok (unicode_cpt_flags_from_cpt r.1).

(** [std::lower_bound] on a table sorted by its first component. *)
Definition unicode_tolower (cpt : Z) : Z :=
  match head (filter (fun p : Z * Z => cpt <= p.1) (unicode_map_lowercase ud)) with
  | Some (k, v) => if k =? cpt then v else cpt
  | None => cpt
  end.

(** [std::upper_bound(...) - 1]: the last range that starts at or before [cpt]. *)
Definition unicode_cpts_normalize_nfd (cpts : list Z) : res (list Z) :=
  foldM (fun r cpt =>
    match list.last (filter (fun p : Z * Z * Z => p.1.1 <= cpt) (unicode_ranges_nfd ud)) with
    | Some (first, last, nfd) => Ok (r ++ [if (first <=? cpt) && (cpt <=? last) then nfd else cpt])
    | None => Fault OutOfRange
    end) [] cpts.
End data.
