(* ===== verification/UnicodeOk.v ===== *)
(** Correctness of the text functions of Unicode.v: the encoder is UTF-8, the decoder is its
    inverse, and the encoding of bytes as printable characters can be undone. *)

From S2P Require Import Prelude GrammarParser Utf8 Unicode.
Local Open Scope Z_scope.

Local Ltac Zify.zify_post_hook ::= Z.to_euclidean_division_equations.

(** ** Bits *)

Lemma lor_shift q b k : 0 <= k -> 0 <= b < 2 ^ k -> Z.lor (q * 2 ^ k) b = q * 2 ^ k + b.
Proof.
  intros Hk Hb. rewrite <- Z.add_lor_land. enough (E : Z.land (q * 2 ^ k) b = 0) by lia.
  apply Z.bits_inj'. intros n Hn. rewrite Z.land_spec, Z.bits_0. destruct (Z.ltb_spec n k).
  - by rewrite Z.mul_pow2_bits_low.
  - rewrite <- (Z.mod_small b (2 ^ k)) by done. rewrite Z.mod_pow2_bits_high by lia. by rewrite andb_false_r.
Qed.

Lemma land_mask b k : 0 <= k -> Z.land b (Z.ones k) = b mod 2 ^ k.
Proof. intros. by apply Z.land_ones. Qed.

(** A code point that [unicode_cpt_to_utf8] accepts. *)
Definition scalar (c : Z) : Prop := 0 <= c < 1114112.

Lemma tail_byte c k : 0 <= k -> Z.lor 128 (Z.land (Z.shiftr c k) 63) = 128 + (c / 2 ^ k) mod 64.
Proof.
  intros Hk. rewrite Z.shiftr_div_pow2 by done. change 63 with (Z.ones 6). rewrite land_mask by lia.
  change 128 with (2 * 2 ^ 6). apply lor_shift; [lia|]. apply Z.mod_pos_bound. lia.
Qed.

Lemma head_byte c q k m : 0 <= m -> 0 <= k -> 0 <= c / 2 ^ k < 2 ^ m ->
  Z.lor (q * 2 ^ m) (Z.land (Z.shiftr c k) (Z.ones m)) = q * 2 ^ m + c / 2 ^ k.
Proof.
  intros Hm Hk Hc. rewrite Z.shiftr_div_pow2 by done. rewrite land_mask, Z.mod_small by done. by apply lor_shift.
Qed.

(** The encoder is UTF-8. *)
Lemma cpt_to_utf8_ok c : scalar c -> unicode_cpt_to_utf8 c = Ok (utf8_bytes c).
Proof.
  unfold scalar. intros Hc. unfold unicode_cpt_to_utf8, utf8_bytes.
  destruct (Z.leb_spec c 127); [by rewrite (proj2 (Z.ltb_lt c 128)) by lia|]. rewrite (proj2 (Z.ltb_ge c 128)) by lia.
  rewrite (proj2 (Z.leb_le 128 c)) by lia. cbn [andb].
  assert (T0 : Z.lor 128 (Z.land (Z.shiftr c 0) 63) = 128 + c mod 64) by (rewrite tail_byte by lia; change (2 ^ 0) with 1; by rewrite Z.div_1_r).
  assert (T6 : Z.lor 128 (Z.land (Z.shiftr c 6) 63) = 128 + (c / 64) mod 64) by (by rewrite tail_byte).
  assert (T12 : Z.lor 128 (Z.land (Z.shiftr c 12) 63) = 128 + (c / 4096) mod 64) by (by rewrite tail_byte).
  rewrite T0, T6, T12. clear T0 T6 T12.
  destruct (Z.leb_spec c 2047).
  { rewrite (proj2 (Z.ltb_lt c 2048)) by lia. do 2 f_equal. apply (head_byte c 6 6 5); lia. }
  rewrite (proj2 (Z.ltb_ge c 2048)), (proj2 (Z.leb_le 2048 c)) by lia. cbn [andb]. destruct (Z.leb_spec c 65535).
  { rewrite (proj2 (Z.ltb_lt c 65536)) by lia. do 2 f_equal. apply (head_byte c 14 12 4); lia. }
  rewrite (proj2 (Z.ltb_ge c 65536)), (proj2 (Z.leb_le 65536 c)), (proj2 (Z.leb_le c 1114111)) by lia. cbn [andb].
  do 2 f_equal. apply (head_byte c 30 18 3); lia.
Qed.

Lemma cpt_to_utf8_bad c : 1114112 <= c -> unicode_cpt_to_utf8 c = Throw "invalid codepoint".
Proof.
  intros H. unfold unicode_cpt_to_utf8.
  rewrite (proj2 (Z.leb_gt c 127)), (proj2 (Z.leb_gt c 2047)), (proj2 (Z.leb_gt c 65535)), (proj2 (Z.leb_gt c 1114111)) by lia.
  by rewrite !andb_false_r.
Qed.

(** ** Decoding *)

(** A property of all bytes, checked. *)
Lemma all_bytes (P : Z -> bool) : forallb P (range 0 255) = true -> forall b, 0 <= b < 256 -> P b = true.
Proof.
  rewrite forallb_forall. intros H b Hb. apply H. apply list_elem_of_In. unfold range.
  apply list_elem_of_fmap. exists (Z.to_nat b). split; [lia|]. apply elem_of_seq. lia.
Qed.

Lemma cont_byte b : 128 <= b < 192 -> Z.land b 192 = 128 /\ Z.land b 63 = b - 128.
Proof.
  intros Hb. assert (H : (if (128 <=? b) && (b <? 192) then (Z.land b 192 =? 128) && (Z.land b 63 =? b - 128) else true) = true).
  { apply (all_bytes (fun b => if (128 <=? b) && (b <? 192) then (Z.land b 192 =? 128) && (Z.land b 63 =? b - 128) else true));
      [vm_compute; reflexivity|lia]. }
  rewrite (proj2 (Z.leb_le 128 b)), (proj2 (Z.ltb_lt b 192)) in H by lia. cbn [andb] in H. lia.
Qed.

(** The tests on the first byte, by the number of bytes. *)
Definition lead_ok (b : Z) : bool :=
  let t k := negb (Z.land b k =? 0) in
  if b <? 128 then negb (t 128)
  else if b <? 192 then true
  else if b <? 224 then t 128 && t 64 && negb (t 32) && (Z.land b 31 =? b - 192)
  else if b <? 240 then t 128 && t 64 && t 32 && negb (t 16) && (Z.land b 15 =? b - 224)
  else if b <? 248 then t 128 && t 64 && t 32 && t 16 && negb (t 8) && (Z.land b 7 =? b - 240)
  else true.
Lemma lead_byte b : 0 <= b < 256 -> lead_ok b = true.
Proof. apply (all_bytes lead_ok). vm_compute. reflexivity. Qed.

Lemma cont_at (l : list Z) i b : l !! i = Some b -> 128 <= b < 192 ->
  is_cont l i = true /\ rd l i = Ok b /\ Z.land b 63 = b - 128.
Proof.
  intros Hl Hb. destruct (cont_byte b Hb) as [H1 H2]. unfold is_cont. rewrite Hl, H1. split; [done|]. split; [by apply rd_ok|done].
Qed.

Lemma lor_add a b k : 0 <= k -> (2 ^ k | a) -> 0 <= b < 2 ^ k -> Z.lor a b = a + b.
Proof. intros Hk [q ->] Hb. by apply lor_shift. Qed.

(** Decoding a code point that starts at [offset]. *)
Lemma cpt_from_utf8_ok pre c post : scalar c ->
  unicode_cpt_from_utf8 (pre ++ utf8_bytes c ++ post) (length pre) = Ok (c, (length pre + length (utf8_bytes c))%nat).
Proof.
  unfold scalar. intros Hc. set (l := pre ++ utf8_bytes c ++ post).
  assert (At : forall i b, utf8_bytes c !! i = Some b -> l !! (length pre + i)%nat = Some b).
  { intros i b Hb. unfold l. rewrite lookup_app_r by lia. replace (length pre + i - length pre)%nat with i by lia.
    by apply lookup_app_l_Some. }
  assert (Hlen : (length pre <? length l)%nat = true).
  { apply Nat.ltb_lt. unfold l. rewrite !length_app. unfold utf8_bytes. repeat case_match; simpl; lia. }
  unfold unicode_cpt_from_utf8. rewrite Hlen. cbn [assert_]. rewrite bind_ok. clear Hlen.
  unfold utf8_bytes in At |- *.
  destruct (Z.ltb_spec c 128); [|destruct (Z.ltb_spec c 2048); [|destruct (Z.ltb_spec c 65536)]]; cbn [length].
  - pose proof (At 0%nat c eq_refl) as A0. rewrite Nat.add_0_r in A0. rewrite (rd_ok _ _ _ A0), bind_ok.
    pose proof (lead_byte c ltac:(lia)) as L. unfold lead_ok in L. rewrite (proj2 (Z.ltb_lt c 128)) in L by lia.
    rewrite negb_involutive in L. by rewrite L.
  - pose proof (At 0%nat _ eq_refl) as A0. pose proof (At 1%nat _ eq_refl) as A1. rewrite Nat.add_0_r in A0.
    set (b0 := 192 + c / 64) in *. assert (B0 : b0 = 192 + c / 64) by done. clearbody b0.
    pose proof (lead_byte b0 ltac:(lia)) as L. unfold lead_ok in L.
    rewrite (proj2 (Z.ltb_ge b0 128)), (proj2 (Z.ltb_ge b0 192)), (proj2 (Z.ltb_lt b0 224)) in L by lia.
    rewrite !andb_true_iff, !negb_true_iff, !negb_false_iff in L. destruct L as (((L1 & L2) & L3) & L4).
    destruct (cont_at _ _ _ A1 ltac:(lia)) as (C1 & R1 & E1).
    rewrite (rd_ok _ _ _ A0), bind_ok, L1, L2, L3, C1, R1, bind_ok, bind_ok, E1. cbn [negb]. apply Z.eqb_eq in L4. rewrite L4.
    f_equal. f_equal. rewrite Z.shiftl_mul_pow2 by lia. rewrite (lor_add _ _ 6); [lia|lia|by exists (b0 - 192)|lia].
  - pose proof (At 0%nat _ eq_refl) as A0. pose proof (At 1%nat _ eq_refl) as A1. pose proof (At 2%nat _ eq_refl) as A2. rewrite Nat.add_0_r in A0.
    set (b0 := 224 + c / 4096) in *. assert (B0 : b0 = 224 + c / 4096) by done. clearbody b0.
    pose proof (lead_byte b0 ltac:(lia)) as L. unfold lead_ok in L.
    rewrite (proj2 (Z.ltb_ge b0 128)), (proj2 (Z.ltb_ge b0 192)), (proj2 (Z.ltb_ge b0 224)), (proj2 (Z.ltb_lt b0 240)) in L by lia.
    rewrite !andb_true_iff, !negb_true_iff, !negb_false_iff in L. destruct L as ((((L1 & L2) & L3) & L4) & L5).
    destruct (cont_at _ _ _ A1 ltac:(lia)) as (C1 & R1 & E1), (cont_at _ _ _ A2 ltac:(lia)) as (C2 & R2 & E2).
    rewrite (rd_ok _ _ _ A0), bind_ok, L1, L2, L3, L4, C1, C2, R1, R2, !bind_ok, E1, E2. cbn [negb orb]. apply Z.eqb_eq in L5. rewrite L5.
    f_equal. f_equal. rewrite !Z.shiftl_mul_pow2 by lia.
    rewrite (lor_add _ ((128 + (c / 64) mod 64 - 128) * 2 ^ 6) 12); [|lia|by exists (b0 - 224)|lia].
    rewrite (lor_add _ _ 6); [lia|lia|exists ((b0 - 224) * 64 + (c / 64) mod 64); lia|lia].
  - pose proof (At 0%nat _ eq_refl) as A0. pose proof (At 1%nat _ eq_refl) as A1. pose proof (At 2%nat _ eq_refl) as A2.
    pose proof (At 3%nat _ eq_refl) as A3. rewrite Nat.add_0_r in A0.
    set (b0 := 240 + c / 262144) in *. assert (B0 : b0 = 240 + c / 262144) by done. clearbody b0.
    pose proof (lead_byte b0 ltac:(lia)) as L. unfold lead_ok in L.
    rewrite (proj2 (Z.ltb_ge b0 128)), (proj2 (Z.ltb_ge b0 192)), (proj2 (Z.ltb_ge b0 224)), (proj2 (Z.ltb_ge b0 240)), (proj2 (Z.ltb_lt b0 248)) in L by lia.
    rewrite !andb_true_iff, !negb_true_iff, !negb_false_iff in L. destruct L as (((((L1 & L2) & L3) & L4) & L5) & L6).
    destruct (cont_at _ _ _ A1 ltac:(lia)) as (C1 & R1 & E1), (cont_at _ _ _ A2 ltac:(lia)) as (C2 & R2 & E2), (cont_at _ _ _ A3 ltac:(lia)) as (C3 & R3 & E3).
    rewrite (rd_ok _ _ _ A0), bind_ok, L1, L2, L3, L4, L5, C1, C2, C3, R1, R2, R3, !bind_ok, E1, E2, E3. cbn [negb orb]. apply Z.eqb_eq in L6. rewrite L6.
    f_equal. f_equal. rewrite !Z.shiftl_mul_pow2 by lia.
    rewrite (lor_add _ ((128 + (c / 4096) mod 64 - 128) * 2 ^ 12) 18); [|lia|by exists (b0 - 240)|lia].
    rewrite (lor_add _ ((128 + (c / 64) mod 64 - 128) * 2 ^ 6) 12); [|lia|exists ((b0 - 240) * 64 + (c / 4096) mod 64); lia|lia].
    rewrite (lor_add _ _ 6); [lia|lia|exists (((b0 - 240) * 64 + (c / 4096) mod 64) * 64 + (c / 64) mod 64); lia|lia].
Qed.

(** ** Whole texts *)

(** A round of the decoder: it ends, and goes on by at least one byte within the text. *)
Lemma cpt_from_utf8_round utf8 offset : (offset < length utf8)%nat ->
  match unicode_cpt_from_utf8 utf8 offset with
  | Ok (_, offset') => (offset < offset' <= length utf8)%nat
  | Throw _ => True
  | Fault _ => False
  end.
Proof.
  intros Ho. unfold unicode_cpt_from_utf8. rewrite (proj2 (Nat.ltb_lt _ _) Ho). cbn [assert_]. rewrite bind_ok.
  assert (C : forall i, is_cont utf8 i = true -> exists b, rd utf8 i = Ok b /\ (i < length utf8)%nat).
  { intros i. unfold is_cont. destruct (utf8 !! i) as [b|] eqn:E; [|done]. intros _. exists b. split; [by apply rd_ok|].
    by eapply lookup_lt_Some. }
  destruct (lookup_lt_is_Some_2 _ _ Ho) as [b0 E0]. rewrite (rd_ok _ _ _ E0), bind_ok.
  destruct (_ =? 0); [lia|]. destruct (_ =? 0); [done|]. destruct (_ =? 0); [|destruct (_ =? 0); [|destruct (_ =? 0); [|done]]].
  - destruct (is_cont utf8 (offset + 1)) eqn:C1; [|done]. destruct (C _ C1) as (b1 & R1 & L1). rewrite R1, !bind_ok. cbn [negb]. lia.
  - destruct (is_cont utf8 (offset + 1)) eqn:C1; [|done]. destruct (is_cont utf8 (offset + 2)) eqn:C2; [|done].
    destruct (C _ C1) as (b1 & R1 & L1), (C _ C2) as (b2 & R2 & L2). rewrite R1, R2, !bind_ok. cbn [negb orb]. lia.
  - destruct (is_cont utf8 (offset + 1)) eqn:C1; [|done]. destruct (is_cont utf8 (offset + 2)) eqn:C2; [|done].
    destruct (is_cont utf8 (offset + 3)) eqn:C3; [|done].
    destruct (C _ C1) as (b1 & R1 & L1), (C _ C2) as (b2 & R2 & L2), (C _ C3) as (b3 & R3 & L3).
    rewrite R1, R2, R3, !bind_ok. cbn [negb orb]. lia.
Qed.

Lemma cpts_from_utf8_total text : runs (unicode_cpts_from_utf8 text) (fun cpts => (length cpts <= length text)%nat).
Proof.
  unfold unicode_cpts_from_utf8. apply runs_bind.
  apply (runs_loop (fun st => (length st.2 <= st.1)%nat /\ (st.1 <= length text)%nat) (fun st => (length text - st.1)%nat));
    [|cbn; lia|cbn; lia].
  intros [offset result] [H1 H2]. unfold cpts_body. cbn [fst snd] in *. destruct (Nat.ltb_spec offset (length text)) as [Ho|Ho].
  - pose proof (cpt_from_utf8_round text offset Ho) as R. destruct (unicode_cpt_from_utf8 text offset) as [[c o]|e|f]; [..|done];
      apply runs_ok; cbn [fst snd]; rewrite length_app; simpl; lia.
  - apply runs_ok. apply runs_ok. cbn. lia.
Qed.

Lemma utf8_bytes_length c : (1 <= length (utf8_bytes c))%nat.
Proof. unfold utf8_bytes. repeat case_match; simpl; lia. Qed.

Lemma utf8_encode_cons c cs : utf8_encode (c :: cs) = utf8_bytes c ++ utf8_encode cs.
Proof. done. Qed.
Lemma utf8_encode_app a b : utf8_encode (a ++ b) = utf8_encode a ++ utf8_encode b.
Proof. unfold utf8_encode. by rewrite map_app, concat_app. Qed.

Lemma cpts_body_end text offset out : (length text <= offset)%nat -> cpts_body text (offset, out) = Ok (inr (offset, out)).
Proof. intros H. unfold cpts_body. by rewrite (proj2 (Nat.ltb_ge _ _)). Qed.
Lemma cpts_body_ok pre c cs out : scalar c ->
  cpts_body (pre ++ utf8_encode (c :: cs)) (length pre, out) = Ok (inl (length (pre ++ utf8_bytes c), out ++ [c])).
Proof.
  intros Hc. unfold cpts_body. rewrite utf8_encode_cons, (cpt_from_utf8_ok pre c) by done. pose proof (utf8_bytes_length c).
  rewrite (proj2 (Nat.ltb_lt _ _)) by (rewrite !length_app; lia). by rewrite length_app.
Qed.

Lemma cpts_from_utf8_from cs : Forall scalar cs -> forall pre out fuel, (length cs < fuel)%nat ->
  loop fuel (cpts_body (pre ++ utf8_encode cs)) (length pre, out) = Ok (length (pre ++ utf8_encode cs), out ++ cs).
Proof.
  induction 1 as [|c cs Hc _ IH]; intros pre out [|fuel] Hf; try (simpl in Hf; lia); cbn [loop].
  - unfold utf8_encode. cbn [map concat]. rewrite !app_nil_r, cpts_body_end, bind_ok by lia. done.
  - rewrite cpts_body_ok, bind_ok by done. rewrite utf8_encode_cons, app_assoc, IH by (simpl in Hf; lia).
    by rewrite <- (app_assoc out).
Qed.

Lemma utf8_encode_length cs : (length cs <= length (utf8_encode cs))%nat.
Proof. induction cs as [|c cs IH]; [done|]. rewrite utf8_encode_cons, length_app. simpl. pose proof (utf8_bytes_length c). lia. Qed.

(** Decoding inverts encoding. *)
Lemma cpts_from_utf8_encode cs : Forall scalar cs -> unicode_cpts_from_utf8 (utf8_encode cs) = Ok cs.
Proof.
  intros H. pose proof (utf8_encode_length cs). unfold unicode_cpts_from_utf8.
  by rewrite (cpts_from_utf8_from cs H [] [] (S (length (utf8_encode cs))) ltac:(lia) : loop _ (cpts_body (utf8_encode cs)) (0%nat, []) = _).
Qed.

Lemma foldM_utf8 cs out : Forall scalar cs ->
  foldM (fun t c => s ← unicode_cpt_to_utf8 c; Ok (t ++ s)) out cs = Ok (out ++ utf8_encode cs).
Proof.
  intros H. revert out. induction H as [|c cs Hc _ IH]; intros out; cbn [foldM]; [by rewrite app_nil_r|].
  rewrite cpt_to_utf8_ok by done. rewrite !bind_ok, IH. by rewrite utf8_encode_cons, app_assoc.
Qed.
Lemma cpts_to_utf8_ok cs : Forall scalar cs -> unicode_cpts_to_utf8 cs = Ok (utf8_encode cs).
Proof. intros H. unfold unicode_cpts_to_utf8. by rewrite foldM_utf8. Qed.

(** ** Bytes as printable characters *)

(** The code point that stands for a byte. *)
Definition byte_cpt (b : Z) : Z :=
  match unicode_byte_to_utf8 b with
  | Ok s => match unicode_cpt_from_utf8 s 0 with Ok (c, _) => c | _ => 0 end
  | _ => 0
  end.

(** What is checked of every byte: the two maps are inverse to each other, and the character
    is neither a control character nor white space below 256. *)
Definition byte_coded (b : Z) : bool :=
  match unicode_byte_to_utf8 b with
  | Ok s => bool_decide (s = utf8_bytes (byte_cpt b)) && (33 <=? byte_cpt b) && (byte_cpt b <? 324) &&
            match unicode_utf8_to_byte s with Ok b' => b' =? b | _ => false end
  | _ => false
  end.
Lemma byte_coded_all b : 0 <= b < 256 -> byte_coded b = true.
Proof. apply (all_bytes byte_coded). vm_compute. reflexivity. Qed.

Definition byte (b : Z) : Prop := 0 <= b < 256.

Lemma byte_to_utf8_ok b : byte b -> unicode_byte_to_utf8 b = Ok (utf8_bytes (byte_cpt b)).
Proof.
  intros Hb. pose proof (byte_coded_all b Hb) as H. unfold byte_coded in H. destruct (unicode_byte_to_utf8 b) as [s|?|?]; [|done..].
  rewrite !andb_true_iff, bool_decide_eq_true in H. destruct H as (((-> & _) & _) & _). done.
Qed.
Lemma utf8_to_byte_ok b : byte b -> unicode_utf8_to_byte (utf8_bytes (byte_cpt b)) = Ok b.
Proof.
  intros Hb. pose proof (byte_coded_all b Hb) as H. unfold byte_coded in H. destruct (unicode_byte_to_utf8 b) as [s|?|?]; [|done..].
  rewrite !andb_true_iff, bool_decide_eq_true in H. destruct H as (((-> & _) & _) & H).
  destruct (unicode_utf8_to_byte _) as [b'|?|?]; [|done..]. by apply Z.eqb_eq in H as ->.
Qed.
Lemma byte_cpt_range b : byte b -> 33 <= byte_cpt b < 324.
Proof.
  intros Hb. pose proof (byte_coded_all b Hb) as H. unfold byte_coded in H. destruct (unicode_byte_to_utf8 b) as [s|?|?]; [|done..].
  rewrite !andb_true_iff in H. destruct H as (((_ & H1) & H2) & _). lia.
Qed.
Lemma byte_cpt_scalar b : byte b -> scalar (byte_cpt b).
Proof. intros H%byte_cpt_range. unfold scalar. lia. Qed.

Lemma utf8_bytes_byte c : scalar c -> Forall byte (utf8_bytes c).
Proof. unfold scalar, byte, utf8_bytes. intros Hc. repeat case_match; repeat constructor; lia. Qed.
Lemma utf8_encode_byte cs : Forall scalar cs -> Forall byte (utf8_encode cs).
Proof. induction 1; [constructor|]. rewrite utf8_encode_cons. apply Forall_app. split; [by apply utf8_bytes_byte|done]. Qed.

(** A text, byte by byte as characters. *)
Definition encoded_bytes (l : list Z) : list Z := utf8_encode (byte_cpt <$> l).

Lemma encoded_bytes_app a b : encoded_bytes (a ++ b) = encoded_bytes a ++ encoded_bytes b.
Proof. unfold encoded_bytes. by rewrite fmap_app, utf8_encode_app. Qed.

Lemma encode_bytes_ok l out : Forall byte l ->
  foldM (fun e c => s ← unicode_byte_to_utf8 c; Ok (e ++ s)) out l = Ok (out ++ encoded_bytes l).
Proof.
  intros H. revert out. induction H as [|b l Hb _ IH]; intros out; cbn [foldM]; [by rewrite app_nil_r|].
  rewrite byte_to_utf8_ok by done. rewrite !bind_ok, IH. unfold encoded_bytes. rewrite fmap_cons, utf8_encode_cons. by rewrite app_assoc.
Qed.

Lemma encode_word_ok cs : Forall scalar cs -> encode_word (utf8_encode cs) = Ok (encoded_bytes (utf8_encode cs)).
Proof.
  intros H. unfold encode_word. rewrite cpts_from_utf8_encode, bind_ok by done.
  rewrite foldM_utf8, bind_ok by done. cbn [app]. rewrite encode_bytes_ok by (by apply utf8_encode_byte). done.
Qed.

Lemma byte_encoding_ok words : Forall (Forall scalar) words ->
  unicode_byte_encoding_process (utf8_encode <$> words) = Ok ((fun w => encoded_bytes (utf8_encode w)) <$> words).
Proof.
  intros H. unfold unicode_byte_encoding_process.
  enough (G : forall out, foldM (fun l word => e ← encode_word word; Ok (l ++ [e])) out (utf8_encode <$> words) =
    Ok (out ++ ((fun w => encoded_bytes (utf8_encode w)) <$> words))) by apply G.
  induction H as [|w ws Hw _ IH]; intros out; [by rewrite app_nil_r|]. cbn [fmap list_fmap foldM].
  rewrite encode_word_ok by done. rewrite !bind_ok. setoid_rewrite IH. by rewrite <- app_assoc.
Qed.
