(* ===== verification/UnicodeSplit.v ===== *)
(** The pre-tokenizers of src/llama/llama.cpp/src/unicode.cpp: hand-written versions of some
    regular expressions, [std::regex] for the others, and [unicode_regex_split], which refines
    a list of lengths with every expression and encodes the words.  The lambdas [_get_cpt],
    [_get_flags] and [_add_token] of the code become definitions over the bounds of a segment;
    [_prev_end] and the lengths found so far are the state. *)

From S2P Require Import Prelude Unicode.
Local Open Scope Z_scope.

Definition OUT_OF_RANGE : Z := 4294967295.
Definition chr_space : Z := 32.
Definition chr_quote : Z := 39.
Definition is_newline (c : Z) : bool := (c =? 13) || (c =? 10).

(** [_prev_end] and [bpe_offsets]. *)
Abbreviation tokens := (nat * list nat)%type.

Section split.
Context (ud : unicode_data).

(** ** A segment *)

Section segment.
Context (cpts : list Z) (offset_ini offset_end : nat).

Definition inside (pos : nat) : bool := (offset_ini <=? pos)%nat && (pos <? offset_end)%nat.
Definition get_cpt (pos : nat) : Z := if inside pos then default OUT_OF_RANGE (cpts !! pos) else OUT_OF_RANGE.
Definition get_flags (pos : nat) : Z := if inside pos then unicode_cpt_flags_from_cpt ud (get_cpt pos) else 0.

(** The new state, and the length of the token. *)
Definition add_token (tk : tokens) (end_ : nat) : res (tokens * nat) :=
  let '(prev_end, out) := tk in
  assert_ ((prev_end <=? end_)%nat && (end_ <=? offset_end)%nat) ;;
  let len := (end_ - prev_end)%nat in
  Ok ((end_, if (0 <? len)%nat then out ++ [len] else out), len).

(** [while (P(pos)) pos++;] *)
Definition scan (P : nat -> bool) (pos : nat) : res nat :=
  loop (S (S (offset_end - pos))) (fun p => if P p then Ok (inl (S p)) else Ok (inr p)) pos.

(** A token up to [pos], where the loop goes on. *)
Definition emit (tk : tokens) (pos : nat) : res (nat * tokens) := r ← add_token tk pos; Ok (pos, r.1).

(** The length of a contraction ('s, 're, ...) at [pos], or 0. *)
Definition contraction (lower : Z -> Z) (pos : nat) : nat :=
  if (get_cpt pos =? chr_quote) && (pos + 1 <? offset_end)%nat then
    let next := lower (get_cpt (pos + 1)) in
    if (next =? 115) || (next =? 116) || (next =? 109) || (next =? 100) then 2
    else if (pos + 2 <? offset_end)%nat then
      let next_next := lower (get_cpt (pos + 2)) in
      if ((next =? 114) && (next_next =? 101)) || ((next =? 118) && (next_next =? 101)) ||
         ((next =? 108) && (next_next =? 108)) then 3 else 0
    else 0
  else 0.

(** [pos += _add_token(pos + n)]. *)
Definition emit_contraction (tk : tokens) (pos n : nat) : res (nat * tokens) :=
  r ← add_token tk (pos + n)%nat; Ok ((pos + r.2)%nat, r.1).

(** The flags behind an optional space, and the position there. *)
Definition spaced_flags (pos : nat) : Z := if get_cpt pos =? chr_space then get_flags (pos + 1) else get_flags pos.
Definition spaced (pos : nat) : nat := if get_cpt pos =? chr_space then (pos + 1)%nat else pos.

Definition is_other (f : Z) : bool := negb (is_whitespace f || is_letter f || is_number f) && negb (f =? 0).

(** The cases for white space, shared by the splitters: [\s+(?!\S)], [\s+], and no match. *)
Definition split_spaces (tk : tokens) (pos num_whitespaces : nat) : res (nat * tokens) :=
  if (1 <? num_whitespaces)%nat && negb (get_cpt (pos + num_whitespaces) =? OUT_OF_RANGE)
  then emit tk (pos + num_whitespaces - 1)
  else if (0 <? num_whitespaces)%nat then emit tk (pos + num_whitespaces)
  else emit tk (pos + 1).

Definition gpt2_step (st : nat * tokens) : res (nat * tokens) :=
  let '(pos, tk) := st in
  let n := contraction id pos in
  if (0 <? n)%nat then emit_contraction tk pos n
  else
    let flags2 := spaced_flags pos in
    if is_letter flags2 then e ← scan (fun p => is_letter (get_flags p)) (spaced pos); emit tk e
    else if is_number flags2 then e ← scan (fun p => is_number (get_flags p)) (spaced pos); emit tk e
    else if is_other flags2 then e ← scan (fun p => is_other (get_flags p)) (spaced pos); emit tk e
    else
      e ← scan (fun p => is_whitespace (get_flags p)) pos;
      split_spaces tk pos (e - pos).

(** [\p{N}{1,3}]: a token at every third digit, and one for the rest. *)
Definition digits_body (st : nat * nat * tokens) : res (nat * nat * tokens + nat * nat * tokens) :=
  let '(pos, ini, tk) := st in
  if is_number (get_flags pos) then
    let pos := S pos in
    if (3 <=? pos - ini)%nat then r ← add_token tk pos; Ok (inl (pos, pos, r.1))
    else Ok (inl (pos, ini, tk))
  else Ok (inr st).
Definition split_digits (tk : tokens) (pos : nat) : res (nat * tokens) :=
  r ← loop (S (S (offset_end - pos))) digits_body (pos, pos, tk);
  emit r.2 r.1.1.

(** The end of the white space and the position behind its last line break, or 0. *)
Definition newline_body (st : nat * nat) : res (nat * nat + nat * nat) :=
  let '(p, last) := st in
  if is_whitespace (get_flags p) then
    Ok (inl (S p, if is_newline (get_cpt p) then (p + 1)%nat else last))
  else Ok (inr st).
Definition split_lines (tk : tokens) (pos : nat) : res (nat * tokens) :=
  r ← loop (S (S (offset_end - pos))) newline_body (pos, 0%nat);
  let '(e, last_end_r_or_n) := r in
  if (0 <? last_end_r_or_n)%nat then emit tk last_end_r_or_n
  else split_spaces tk pos (e - pos).

(** [ ?[^\s\p{L}\p{N}]+[\r\n]*]. *)
Definition split_others (tk : tokens) (pos : nat) : res (nat * tokens) :=
  e ← scan (fun p => is_other (get_flags p)) (spaced pos);
  e' ← scan (fun p => is_newline (get_cpt p)) e;
  emit tk e'.

Definition llama3_step (st : nat * tokens) : res (nat * tokens) :=
  let '(pos, tk) := st in
  let cpt := get_cpt pos in
  let flags := get_flags pos in
  let n := contraction (unicode_tolower ud) pos in
  if (0 <? n)%nat then emit_contraction tk pos n
  else if negb (is_newline cpt || is_number flags) && (is_letter flags || is_letter (get_flags (pos + 1))) then
    e ← scan (fun p => is_letter (get_flags p)) (pos + 1)%nat; emit tk e
  else if is_number flags then split_digits tk pos
  else
    let flags2 := spaced_flags pos in
    if negb (is_whitespace flags2 || is_letter flags2 || is_number flags2) && negb (flags =? 0)
    then split_others tk pos
    else split_lines tk pos.

(** *** Kimi K2 *)

Definition is_word (p : nat) : bool := is_letter (get_flags p) && negb (unicode_cpt_is_han (get_cpt p)).

(** A letter pattern from [pos]: the end of the word, or [None] when there is no letter. *)
Definition kimi_word (pos : nat) (has_leading_char : bool) : res (option nat) :=
  e ← scan is_word pos;
  let has_letters := (pos <? e)%nat in
  if has_letters || (negb has_leading_char && is_word e) then
    let e1 := if has_letters then e else S e in
    e2 ← scan is_word e1;
    Ok (Some (e2 + contraction (unicode_tolower ud) e2)%nat)
  else Ok None.

(** The patterns after the words. *)
Definition kimi_rest (tk : tokens) (pos : nat) : res (nat * tokens) :=
  if is_number (get_flags pos) then split_digits tk pos
  else if is_other (spaced_flags pos) then split_others tk pos
  else split_lines tk pos.

Definition kimi_step (st : nat * tokens) : res (nat * tokens) :=
  let '(pos, tk) := st in
  let cpt := get_cpt pos in
  let flags := get_flags pos in
  if unicode_cpt_is_han cpt then
    e ← scan (fun p => unicode_cpt_is_han (get_cpt p)) pos; emit tk e
  else
    let leading := negb (is_newline cpt || is_letter flags || is_number flags) in
    if (is_letter flags && negb (unicode_cpt_is_han cpt)) || (leading && is_word (pos + 1)) then
      w ← kimi_word (if leading then pos + 1 else pos)%nat leading;
      match w with
      | Some e => emit tk e
      | None => kimi_rest tk pos
      end
    else kimi_rest tk pos.

(** *** AFMoE digits *)

(** Groups of three digits up to [end_]. *)
Definition groups_body (end_ : nat) (st : nat * tokens) : res (nat * tokens + nat * tokens) :=
  let '(current, tk) := st in
  if (current <? end_)%nat then r ← add_token tk (current + 3)%nat; Ok (inl ((current + 3)%nat, r.1))
  else Ok (inr st).

Definition afmoe_step (st : nat * tokens) : res (nat * tokens) :=
  let '(pos, tk) := st in
  if is_number (get_flags pos) then
    e ← scan (fun p => is_number (get_flags p) && (p <? offset_end)%nat) pos;
    let remainder := ((e - pos) mod 3)%nat in
    st1 ← (if (0 <? remainder)%nat then r ← add_token tk (pos + remainder)%nat; Ok ((pos + remainder)%nat, r.1)
           else Ok (pos, tk));
    st2 ← loop (S (e - pos)) (groups_body e) st1;
    Ok (e, st2.2)
  else Ok ((pos + 1)%nat, tk).

(** [for (pos = offset_ini; pos < offset_end; )]. *)
Definition split_segment (step : nat * tokens -> res (nat * tokens)) (out : list nat) : res tokens :=
  r ← loop (S (S (offset_end - offset_ini)))
        (fun st => if (st.1 <? offset_end)%nat then st' ← step st; Ok (inl st') else Ok (inr st))
        (offset_ini, (offset_ini, out));
  Ok r.2.
End segment.

(** ** All segments *)

Definition split_custom (step : list Z -> nat -> nat -> nat * tokens -> res (nat * tokens))
    (finish : nat -> tokens -> res tokens) (text : list Z) (offsets : list nat) : res (list nat) :=
  cpts ← unicode_cpts_from_utf8 text;
  r ← foldM (fun '(start, out) offset =>
        let offset_end := (start + offset)%nat in
        assert_ (offset_end <=? length cpts)%nat ;;
        tk ← split_segment start offset_end (step cpts start offset_end) out;
        tk' ← finish offset_end tk;
        Ok (offset_end, tk'.2)) (0%nat, []) offsets;
  Ok r.2.

Definition no_finish (offset_end : nat) (tk : tokens) : res tokens := Ok tk.

Definition unicode_regex_split_custom_gpt2 := split_custom gpt2_step no_finish.
Definition unicode_regex_split_custom_llama3 := split_custom llama3_step no_finish.
Definition unicode_regex_split_custom_kimi_k2 := split_custom kimi_step no_finish.
(** What remains is a token of its own. *)
Definition unicode_regex_split_custom_afmoe := split_custom afmoe_step
  (fun offset_end tk =>
     if (tk.1 <? offset_end)%nat then r ← add_token offset_end tk offset_end; Ok r.1 else Ok tk).

Definition gpt2_regex : list Z := lit "'s|'t|'re|'ve|'m|'ll|'d| ?\p{L}+| ?\p{N}+| ?[^\s\p{L}\p{N}]+|\s+(?!\S)".
Definition llama3_regex : list Z :=
  lit "(?i:'s|'t|'re|'ve|'m|'ll|'d)|[^\r\n\p{L}\p{N}]?\p{L}+|\p{N}{1,3}| ?[^\s\p{L}\p{N}]+[\r\n]*|\s*[\r\n]+|\s+(?!\S)|\s+".
Definition llama3_regex' : list Z :=
  lit "(?:'[sS]|'[tT]|'[rR][eE]|'[vV][eE]|'[mM]|'[lL][lL]|'[dD])|[^\r\n\p{L}\p{N}]?\p{L}+|\p{N}{1,3}| ?[^\s\p{L}\p{N}]+[\r\n]*|\s*[\r\n]+|\s+(?!\S)|\s+".

Definition unicode_regex_split_custom (text regex_expr : list Z) (offsets : list nat) : res (list nat) :=
  let is_ s := bool_decide (regex_expr = s) in
  if is_ gpt2_regex then unicode_regex_split_custom_gpt2 text offsets
  else if is_ llama3_regex || is_ llama3_regex' then unicode_regex_split_custom_llama3 text offsets
  else if is_ (lit "\p{Han}+") then unicode_regex_split_custom_kimi_k2 text offsets
  else if is_ (lit "\p{AFMoE_digits}") then unicode_regex_split_custom_afmoe text offsets
  else Ok [].
End split.
