(* ===== verification/UnicodeSplitOk.v ===== *)
(** The pre-tokenizers (UnicodeSplit.v) refine every segment of a text: they end, keep the
    assertions of the code, and give positive lengths that add up to the segment. *)

From S2P Require Import Prelude Unicode UnicodeSplit.
Local Open Scope Z_scope.

Section segment.
Context (ud : unicode_data) (cpts : list Z) (ini endo : nat).
Abbreviation get_cpt := (get_cpt cpts ini endo).
Abbreviation get_flags := (get_flags ud cpts ini endo).

(** [tk'] has the tokens of [tk] and then tokens of positive length up to its own end. *)
Definition grown (tk tk' : tokens) : Prop :=
  exists l, tk'.2 = tk.2 ++ l /\ Forall (fun n => 0 < n)%nat l /\ tk'.1 = (tk.1 + sum_list l)%nat.

Lemma grown_refl tk : grown tk tk.
Proof. exists []. rewrite app_nil_r. split; [done|]. split; [done|]. simpl. lia. Qed.

Lemma grown_trans t1 t2 t3 : grown t1 t2 -> grown t2 t3 -> grown t1 t3.
Proof.
  intros (l & E1 & P1 & S1) (l' & E2 & P2 & S2). exists (l ++ l'). rewrite E2, E1, app_assoc. split; [done|].
  split; [by apply Forall_app_2|]. rewrite sum_list_with_app. lia.
Qed.

Lemma add_token_ok tk e : (tk.1 <= e <= endo)%nat ->
  runs (add_token endo tk e) (fun r => grown tk r.1 /\ r.1.1 = e /\ r.2 = (e - tk.1)%nat).
Proof.
  destruct tk as [p out]. cbn [fst]. intros H. unfold add_token.
  apply runs_assert; [by rewrite andb_true_iff, !Nat.leb_le|]. apply runs_ok. cbn [fst snd]. split; [|done].
  destruct (Nat.ltb_spec 0 (e - p)) as [Hlt|Hge].
  - exists [(e - p)%nat]. split; [done|]. split; [by constructor|]. simpl. lia.
  - exists []. rewrite app_nil_r. split; [done|]. split; [done|]. simpl. lia.
Qed.

Lemma emit_ok tk e : (tk.1 <= e <= endo)%nat ->
  runs (emit endo tk e) (fun r => r.1 = e /\ grown tk r.2 /\ r.2.1 = e).
Proof.
  intros H. unfold emit. apply runs_bind. eapply runs_mono; [by apply add_token_ok|]. intros r (G & E & _). by apply runs_ok.
Qed.

Definition bounded (P : nat -> bool) : Prop := forall p, P p = true -> (p < endo)%nat.

Lemma scan_chars_ok P pos : bounded P ->
  runs (scan endo P pos) (fun e => (pos <= e)%nat /\ (pos <= endo -> e <= endo)%nat /\ P e = false /\ (P pos = true -> pos < e)%nat).
Proof.
  intros HP. unfold scan. set (I := fun p => (pos <= p)%nat /\ (pos <= endo -> p <= endo)%nat /\ (P pos = true -> p = pos \/ pos < p)%nat).
  apply (runs_loop I (fun p => (S endo - p)%nat)); [|lia|by repeat split; [lia|lia|left]].
  intros p (H1 & H2 & H3). destruct (P p) eqn:Ep; apply runs_ok.
  - pose proof (HP p Ep). unfold I. split; [|lia]. split; [lia|]. split; [lia|]. intros _. right. lia.
  - split; [done|]. split; [done|]. split; [done|]. intros Hp. destruct (H3 Hp) as [->|?]; [congruence|done].
Qed.

Lemma flags_out p : inside ini endo p = false -> get_flags p = 0.
Proof. intros H. unfold UnicodeSplit.get_flags. by rewrite H. Qed.
Lemma cpt_out p : inside ini endo p = false -> get_cpt p = OUT_OF_RANGE.
Proof. intros H. unfold UnicodeSplit.get_cpt. by rewrite H. Qed.
Lemma inside_lt p : inside ini endo p = true -> (p < endo)%nat.
Proof. unfold inside. rewrite andb_true_iff, Nat.ltb_lt. lia. Qed.

Lemma bounded_flags Q : Q 0 = false -> bounded (fun p => Q (get_flags p)).
Proof.
  intros HQ p Hp. destruct (inside ini endo p) eqn:E; [by apply inside_lt|]. by rewrite flags_out, HQ in Hp.
Qed.
Lemma bounded_cpt Q : Q OUT_OF_RANGE = false -> bounded (fun p => Q (get_cpt p)).
Proof.
  intros HQ p Hp. destruct (inside ini endo p) eqn:E; [by apply inside_lt|]. by rewrite cpt_out, HQ in Hp.
Qed.
Lemma bounded_and P Q : bounded P -> bounded (fun p => P p && Q p).
Proof. intros HP p [H _]%andb_prop. by apply HP. Qed.

Lemma contraction_le lower pos : (0 < contraction cpts ini endo lower pos)%nat -> (pos + contraction cpts ini endo lower pos <= endo)%nat.
Proof.
  unfold contraction. destruct (get_cpt pos =? chr_quote); [|simpl; lia]. cbn [andb].
  destruct (Nat.ltb_spec (pos + 1) endo); [|lia]. case_match; [lia|].
  destruct (Nat.ltb_spec (pos + 2) endo); [|lia]. case_match; lia.
Qed.

(** A step takes at least one code point and ends its last token where it stops. *)
Definition advances (pos : nat) (tk : tokens) (r : nat * tokens) : Prop :=
  (pos < r.1 <= endo)%nat /\ grown tk r.2 /\ r.2.1 = r.1.

Lemma emit_advances pos tk e : tk.1 = pos -> (pos < e <= endo)%nat -> runs (emit endo tk e) (advances pos tk).
Proof.
  intros Ht He. eapply runs_mono; [apply emit_ok; lia|]. intros r (E & G & E1). unfold advances. by rewrite E.
Qed.

Lemma contraction_advances lower pos tk : tk.1 = pos -> (0 < contraction cpts ini endo lower pos)%nat ->
  runs (emit_contraction endo tk pos (contraction cpts ini endo lower pos)) (advances pos tk).
Proof.
  intros Ht Hn. pose proof (contraction_le lower pos Hn). unfold emit_contraction. apply runs_bind.
  eapply runs_mono; [apply add_token_ok; lia|]. intros r (G & E & El). apply runs_ok. rewrite El, Ht.
  unfold advances. cbn [fst snd]. split; [lia|]. split; [done|]. lia.
Qed.

(** A scan from [pos] that takes a code point, and a token of what it took. *)
Lemma scan_emit P pos start tk : bounded P -> tk.1 = pos -> (pos <= start <= endo)%nat ->
  (pos < start \/ P start = true)%nat ->
  runs (e ← scan endo P start; emit endo tk e) (advances pos tk).
Proof.
  intros HP Ht Hs Hp. apply runs_bind. eapply runs_mono; [by apply scan_chars_ok|]. intros e (H1 & H2 & _ & H4).
  apply emit_advances; [done|]. destruct Hp as [Hp|Hp]; [lia|specialize (H4 Hp); lia].
Qed.

Lemma spaces_advance pos tk n : tk.1 = pos -> (pos < endo)%nat -> (pos + n <= endo)%nat ->
  runs (split_spaces cpts ini endo tk pos n) (advances pos tk).
Proof.
  intros Ht Hlt Hn. unfold split_spaces. destruct (Nat.ltb_spec 1 n); cbn [andb]; [destruct (negb _)|].
  - apply emit_advances; [done|lia].
  - destruct (Nat.ltb_spec 0 n); [|lia]. apply emit_advances; [done|lia].
  - destruct (Nat.ltb_spec 0 n); apply emit_advances; done || lia.
Qed.

Lemma spaced_le pos : (pos < endo)%nat -> (pos <= spaced cpts ini endo pos <= endo)%nat.
Proof. intros H. unfold spaced. case_match; lia. Qed.
Lemma spaced_at pos : spaced_flags ud cpts ini endo pos = get_flags (spaced cpts ini endo pos).
Proof. unfold spaced_flags, spaced. by case_match. Qed.

Lemma gpt2_advances pos tk : (ini <= pos < endo)%nat -> tk.1 = pos ->
  runs (gpt2_step ud cpts ini endo (pos, tk)) (advances pos tk).
Proof.
  intros Hp Ht. unfold gpt2_step. destruct (Nat.ltb_spec 0 (contraction cpts ini endo id pos)); [by apply contraction_advances|].
  rewrite spaced_at. pose proof (spaced_le pos ltac:(lia)) as Hs.
  destruct (is_letter _) eqn:E1; [apply scan_emit; [by apply bounded_flags|done|done|by right]|].
  destruct (is_number _) eqn:E2; [apply scan_emit; [by apply bounded_flags|done|done|by right]|].
  destruct (is_other _) eqn:E3; [apply scan_emit; [by apply bounded_flags|done|done|by right]|].
  apply runs_bind. eapply runs_mono; [apply scan_chars_ok; by apply (bounded_flags is_whitespace)|]. intros e (H1 & H2 & _).
  apply spaces_advance; [done|lia|lia].
Qed.

(** The digits of a number, in groups. *)
Lemma digits_advance pos tk : (ini <= pos < endo)%nat -> tk.1 = pos -> is_number (get_flags pos) = true ->
  runs (split_digits ud cpts ini endo tk pos) (advances pos tk).
Proof.
  intros Hp Ht Hd. unfold split_digits. apply runs_bind.
  set (I := fun st : nat * nat * tokens => (pos <= st.1.1 <= endo)%nat /\ st.2.1 = st.1.2 /\ (pos <= st.1.2 <= st.1.1)%nat /\ grown tk st.2).
  eapply runs_mono.
  { apply (runs_loop I (fun st => (endo - st.1.1)%nat) (fun st => I st /\ (pos < st.1.1)%nat)); [|cbn; lia|].
    - intros [[p i] t] (H1 & H2 & H3 & G). cbn [fst snd] in *. unfold digits_body.
      destruct (is_number (get_flags p)) eqn:En.
      + assert (Hpe : (p < endo)%nat) by (by apply (bounded_flags is_number)).
        destruct (Nat.leb_spec 3 (S p - i)).
        * apply runs_bind. eapply runs_mono; [apply add_token_ok; lia|]. intros r (G' & E & _). apply runs_ok. cbn [fst snd].
          split; [|lia]. unfold I. cbn [fst snd]. split; [lia|]. split; [done|]. split; [lia|]. by eapply grown_trans.
        * apply runs_ok. cbn [fst snd]. split; [|lia]. unfold I. cbn [fst snd]. split; [lia|]. split; [done|]. split; [lia|done].
      + apply runs_ok. split; [by unfold I|]. cbn [fst snd]. destruct (decide (p = pos)) as [->|]; [congruence|lia].
    - unfold I. cbn [fst snd]. split; [lia|]. split; [done|]. split; [lia|apply grown_refl]. }
  intros [[p i] t] [(H1 & H2 & H3 & G) Hlt]. cbn [fst snd] in *. eapply runs_mono; [apply emit_ok; lia|].
  intros r (E & G' & E1). unfold advances. rewrite E. split; [lia|]. split; [by eapply grown_trans|]. by rewrite E1.
Qed.

Lemma lines_advance pos tk : (pos < endo)%nat -> tk.1 = pos -> runs (split_lines ud cpts ini endo tk pos) (advances pos tk).
Proof.
  intros Hp Ht. unfold split_lines. apply runs_bind.
  set (I := fun st : nat * nat => (pos <= st.1 <= endo)%nat /\ (st.2 = 0 \/ pos < st.2 <= endo)%nat).
  eapply runs_mono.
  { apply (runs_loop I (fun st => (endo - st.1)%nat) I); [|cbn; lia|unfold I; cbn; lia].
    intros [p last] [H1 H2]. cbn [fst snd] in *. unfold newline_body. destruct (is_whitespace (get_flags p)) eqn:Ew.
    - assert (Hpe : (p < endo)%nat) by (by apply (bounded_flags is_whitespace)). apply runs_ok. unfold I. cbn [fst snd].
      split; [|lia]. split; [lia|]. case_match; lia.
    - by apply runs_ok. }
  intros [e last] [H1 H2]. cbn [fst snd] in *. destruct (Nat.ltb_spec 0 last).
  - apply emit_advances; [done|lia].
  - apply spaces_advance; [done|lia|lia].
Qed.

Lemma others_advance pos tk : (pos < endo)%nat -> tk.1 = pos ->
  (pos < spaced cpts ini endo pos)%nat \/ is_other (get_flags pos) = true ->
  runs (split_others ud cpts ini endo tk pos) (advances pos tk).
Proof.
  intros Hp Ht Ho. unfold split_others. pose proof (spaced_le pos Hp) as Hs. apply runs_bind.
  eapply runs_mono; [apply scan_chars_ok; by apply (bounded_flags is_other)|]. intros e (H1 & H2 & _ & H4).
  assert (He : (pos < e)%nat).
  { destruct Ho as [Ho|Ho]; [lia|]. destruct (decide (pos < spaced cpts ini endo pos)%nat); [lia|].
    assert (E : spaced cpts ini endo pos = pos) by lia. rewrite E in H4. by apply H4. }
  apply scan_emit; [by apply (bounded_cpt is_newline)|done|lia|by left].
Qed.

Lemma llama3_advances pos tk : (ini <= pos < endo)%nat -> tk.1 = pos ->
  runs (llama3_step ud cpts ini endo (pos, tk)) (advances pos tk).
Proof.
  intros Hp Ht. unfold llama3_step.
  destruct (Nat.ltb_spec 0 (contraction cpts ini endo (unicode_tolower ud) pos)); [by apply contraction_advances|].
  destruct (negb (is_newline _ || _) && _) eqn:E1; [apply scan_emit; [by apply (bounded_flags is_letter)|done|lia|left; lia]|].
  destruct (is_number _) eqn:E2; [by apply digits_advance|].
  destruct (negb (is_whitespace _ || _ || _) && _) eqn:E3; [|apply lines_advance; lia || done].
  apply others_advance; [lia|done|]. apply andb_prop in E3 as [E3 E4]. unfold spaced_flags, spaced in *.
  destruct (get_cpt pos =? chr_space); [left; lia|right]. unfold is_other. by rewrite E3, E4.
Qed.

Lemma word_bounded : bounded (is_word ud cpts ini endo).
Proof. apply bounded_and. by apply (bounded_flags is_letter). Qed.

Lemma kimi_word_ok pos leading : (pos <= endo)%nat ->
  runs (kimi_word ud cpts ini endo pos leading) (fun w => match w with
    | Some e => (pos < e <= endo)%nat | None => True end).
Proof.
  intros Hp. unfold kimi_word. apply runs_bind. eapply runs_mono; [apply scan_chars_ok, word_bounded|]. intros e (H1 & H2 & H3 & _).
  rewrite H3, andb_false_r, orb_false_r. destruct (Nat.ltb_spec pos e) as [Hlt|]; [|by apply runs_ok].
  apply runs_bind. eapply runs_mono; [apply scan_chars_ok, word_bounded|]. intros e2 (H4 & H5 & _). apply runs_ok.
  destruct (decide (contraction cpts ini endo (unicode_tolower ud) e2 = 0)%nat) as [->|Hn]; [lia|].
  pose proof (contraction_le (unicode_tolower ud) e2 ltac:(lia)). lia.
Qed.

Lemma kimi_rest_ok pos tk : (ini <= pos < endo)%nat -> tk.1 = pos ->
  runs (kimi_rest ud cpts ini endo tk pos) (advances pos tk).
Proof.
  intros Hp Ht. unfold kimi_rest. destruct (is_number _) eqn:E2; [by apply digits_advance|].
  destruct (is_other _) eqn:E3; [|apply lines_advance; lia || done].
  apply others_advance; [lia|done|]. unfold spaced_flags, spaced in *. destruct (get_cpt pos =? chr_space); [left; lia|by right].
Qed.

Lemma kimi_advances pos tk : (ini <= pos < endo)%nat -> tk.1 = pos ->
  runs (kimi_step ud cpts ini endo (pos, tk)) (advances pos tk).
Proof.
  intros Hp Ht. unfold kimi_step. destruct (unicode_cpt_is_han _) eqn:Eh.
  { apply scan_emit; [by apply (bounded_cpt unicode_cpt_is_han)|done|lia|by right]. }
  destruct (_ || _) eqn:E; [|by apply kimi_rest_ok]. apply runs_bind. eapply runs_mono.
  { apply kimi_word_ok. case_match; lia. }
  intros [e|] H; [|by apply kimi_rest_ok]. apply emit_advances; [done|]. case_match; lia.
Qed.

(** ** AFMoE: tokens may end before the position *)

Lemma groups_ok fuel e cur tk : (e - cur < fuel)%nat -> (cur <= e <= endo)%nat -> (tk.1 <= cur)%nat -> ((e - cur) mod 3 = 0)%nat ->
  runs (loop fuel (groups_body endo e) (cur, tk)) (fun st => grown tk st.2 /\ (st.2.1 <= e)%nat).
Proof.
  intros Hf He Ht Hm.
  apply (runs_loop (fun st => (st.1 <= e)%nat /\ (st.2.1 <= st.1)%nat /\ ((e - st.1) mod 3 = 0)%nat /\ grown tk st.2)
    (fun st => (e - st.1)%nat)); [|exact Hf|cbn; split; [lia|split; [done|split; [done|apply grown_refl]]]].
  intros [c t] (H1 & H2 & H3 & G). cbn [fst snd] in *. unfold groups_body. destruct (Nat.ltb_spec c e).
  - assert (c + 3 <= e)%nat by (pose proof (Nat.div_mod_eq (e - c) 3); lia).
    apply runs_bind. eapply runs_mono; [apply add_token_ok; lia|]. intros r (G' & E & _). apply runs_ok. cbn [fst snd].
    split; [|lia]. split; [done|]. split; [lia|]. split; [|by eapply grown_trans].
    pose proof (Nat.div_mod_eq (e - c) 3). apply Nat.Div0.mod_divides. exists ((e - c) / 3 - 1)%nat. lia.
  - apply runs_ok. cbn [fst snd]. split; [done|lia].
Qed.

Lemma afmoe_ok pos tk : (ini <= pos < endo)%nat -> (tk.1 <= pos)%nat ->
  runs (afmoe_step ud cpts ini endo (pos, tk)) (fun r => (pos < r.1 <= endo)%nat /\ grown tk r.2 /\ (r.2.1 <= r.1)%nat).
Proof.
  intros Hp Ht. unfold afmoe_step. destruct (is_number (get_flags pos)) eqn:En.
  2:{ apply runs_ok. cbn [fst snd]. split; [lia|]. split; [apply grown_refl|lia]. }
  apply runs_bind. eapply runs_mono; [apply scan_chars_ok, bounded_and; by apply (bounded_flags is_number)|].
  intros e (H1 & H2 & _ & H4). assert (He : (pos < e <= endo)%nat).
  { split; [apply H4; rewrite En; cbn [andb]; apply Nat.ltb_lt; lia|lia]. }
  pose proof (Nat.mod_upper_bound (e - pos) 3 ltac:(lia)) as Hr. pose proof (Nat.div_mod_eq (e - pos) 3) as Hd.
  set (rem := ((e - pos) mod 3)%nat) in *. set (q := ((e - pos) / 3)%nat) in *. clearbody rem q.
  assert (H : runs (if (0 <? rem)%nat then r ← add_token endo tk (pos + rem)%nat; Ok ((pos + rem)%nat, r.1) else Ok (pos, tk))
    (fun st => st.1 = (pos + rem)%nat /\ grown tk st.2 /\ (st.2.1 <= st.1)%nat)).
  { destruct (Nat.ltb_spec 0 rem).
    - apply runs_bind. eapply runs_mono; [apply add_token_ok; lia|]. intros r (G & E & _). apply runs_ok. cbn [fst snd]. split; [done|]. split; [done|lia].
    - apply runs_ok. cbn [fst snd]. split; [lia|]. split; [apply grown_refl|lia]. }
  apply runs_bind. eapply runs_mono; [exact H|]. intros [cur t] (E & G & Hle). cbn [fst snd] in *. subst cur.
  apply runs_bind. eapply runs_mono.
  { apply (groups_ok _ e); [lia|lia|done|]. apply Nat.Div0.mod_divides. exists q. lia. }
  intros st [G' Hle']. apply runs_ok. cbn [fst snd]. split; [lia|]. split; [by eapply grown_trans|done].
Qed.

(** ** The segment *)

(** [R]: how far the last token may stay behind the position. *)
Lemma segment_ok (R : nat -> nat -> Prop) step out : (ini <= endo)%nat -> R ini ini ->
  (forall pos tk, (ini <= pos < endo)%nat -> R pos tk.1 ->
     runs (step (pos, tk)) (fun r => (pos < r.1 <= endo)%nat /\ grown tk r.2 /\ R r.1 r.2.1)) ->
  runs (split_segment ini endo step out) (fun tk => grown (ini, out) tk /\ R endo tk.1).
Proof.
  intros Hi H0 Hstep. unfold split_segment. apply runs_bind. eapply runs_mono.
  { apply (runs_loop (fun st => (ini <= st.1 <= endo)%nat /\ grown (ini, out) st.2 /\ R st.1 st.2.1) (fun st => (endo - st.1)%nat)
      (fun st => grown (ini, out) st.2 /\ R endo st.2.1)); [|cbn; lia|split; [cbn; lia|split; [apply grown_refl|done]]].
    intros [pos tk] (H1 & G & HR). cbn [fst snd] in *. destruct (Nat.ltb_spec pos endo) as [Hlt|Hge].
    - apply runs_bind. eapply runs_mono; [by apply Hstep; [lia|]|]. intros [pos' tk'] (H2 & G' & HR'). apply runs_ok. cbn [fst snd] in *.
      split; [|lia]. split; [lia|]. split; [by eapply grown_trans|done].
    - apply runs_ok. assert (pos = endo) as -> by lia. done. }
  intros st [G HR]. by apply runs_ok.
Qed.

(** The whole segment is cut. *)
Definition cut (out : list nat) (tk : tokens) : Prop := grown (ini, out) tk /\ tk.1 = endo.

Lemma exact_segment step out : (ini <= endo)%nat ->
  (forall pos tk, (ini <= pos < endo)%nat -> tk.1 = pos -> runs (step (pos, tk)) (advances pos tk)) ->
  runs (split_segment ini endo step out ≫= no_finish endo) (cut out).
Proof.
  intros Hi H. apply runs_bind. eapply runs_mono.
  { apply (segment_ok (fun pos prev => prev = pos)); [done|done|]. intros pos tk Hp Ht. by apply H. }
  intros tk [G E]. by apply runs_ok.
Qed.

Lemma afmoe_segment out : (ini <= endo)%nat ->
  runs (split_segment ini endo (afmoe_step ud cpts ini endo) out ≫= fun tk =>
    if (tk.1 <? endo)%nat then r ← add_token endo tk endo; Ok r.1 else Ok tk) (cut out).
Proof.
  intros Hi. apply runs_bind. eapply runs_mono.
  { apply (segment_ok (fun pos prev => prev <= pos)%nat); [done|done|]. intros pos tk Hp Ht. by apply afmoe_ok. }
  intros tk [G Hle]. cbn beta in Hle. destruct (Nat.ltb_spec tk.1 endo).
  - apply runs_bind. eapply runs_mono; [apply add_token_ok; lia|]. intros r (G' & E & _). apply runs_ok.
    split; [by eapply grown_trans|done].
  - apply runs_ok. split; [done|lia].
Qed.
End segment.

(** ** All segments *)

(** [out] refines [offsets]: every length is replaced by positive lengths that add up to it. *)
Definition refines (offsets out : list nat) : Prop :=
  exists ls, out = concat ls /\ Forall2 (fun o l => sum_list l = o /\ Forall (fun n => 0 < n)%nat l) offsets ls.

Lemma refines_sum offsets out : refines offsets out -> sum_list out = sum_list offsets.
Proof.
  intros (ls & -> & F). induction F as [|o l os ls [E _] _ IH]; [done|]. simpl. rewrite sum_list_with_app.
  change (sum_list_with id) with sum_list. rewrite IH. simpl. lia.
Qed.

Section all.
Context (ud : unicode_data) (step : list Z -> nat -> nat -> nat * tokens -> res (nat * tokens)) (finish : nat -> tokens -> res tokens).
Context (Hseg : forall cpts ini endo out, (ini <= endo)%nat ->
  runs (split_segment ini endo (step cpts ini endo) out ≫= finish endo) (cut ini endo out)).

Lemma split_custom_ok text cpts offsets : unicode_cpts_from_utf8 text = Ok cpts -> sum_list offsets = length cpts ->
  runs (split_custom step finish text offsets) (refines offsets).
Proof.
  intros Ec Hsum. unfold split_custom. rewrite Ec, bind_ok. apply runs_bind.
  eapply runs_mono.
  { apply (runs_foldM (fun done_ st => st.1 = sum_list done_ /\ refines done_ st.2)); [by split; [|exists []]|].
    intros l1 o l2 [start out] El [E (ls & Eo & F)]. cbn [fst snd] in *. subst offsets start out.
    rewrite sum_list_with_app in Hsum. simpl in Hsum. change (sum_list_with id) with sum_list in Hsum.
    apply runs_assert; [apply Nat.leb_le; lia|].
    pose proof (Hseg cpts (sum_list l1) (sum_list l1 + o) (concat ls) ltac:(lia)) as R.
    apply runs_inv in R as (tk & Etk & (l & El & Pl & Sl) & Ee). cbn [fst snd] in *.
    destruct (split_segment _ _ _ _) as [tk0|?|?]; [|done..]. cbn [mbind res_bind] in *. rewrite Etk.
    apply runs_ok. cbn [fst snd]. rewrite sum_list_with_app. simpl. split; [change (sum_list_with id) with sum_list; lia|].
    exists (ls ++ [l]). rewrite concat_app, El. simpl. rewrite app_nil_r. split; [done|]. apply Forall2_app; [done|].
    constructor; [|done]. split; [lia|done]. }
  intros [start out] [_ H]. by apply runs_ok.
Qed.
End all.

Section custom.
Context (ud : unicode_data) (text cpts : list Z) (offsets : list nat).
Context (Ec : unicode_cpts_from_utf8 text = Ok cpts) (Hsum : sum_list offsets = length cpts).

Lemma gpt2_ok : runs (unicode_regex_split_custom_gpt2 ud text offsets) (refines offsets).
Proof.
  eapply split_custom_ok; [|exact Ec|exact Hsum]. intros c ini endo out Hi. apply exact_segment; [done|].
  intros pos tk Hp Ht. by apply gpt2_advances.
Qed.
Lemma llama3_ok : runs (unicode_regex_split_custom_llama3 ud text offsets) (refines offsets).
Proof.
  eapply split_custom_ok; [|exact Ec|exact Hsum]. intros c ini endo out Hi. apply exact_segment; [done|].
  intros pos tk Hp Ht. by apply llama3_advances.
Qed.
Lemma kimi_ok : runs (unicode_regex_split_custom_kimi_k2 ud text offsets) (refines offsets).
Proof.
  eapply split_custom_ok; [|exact Ec|exact Hsum]. intros c ini endo out Hi. apply exact_segment; [done|].
  intros pos tk Hp Ht. by apply kimi_advances.
Qed.
Lemma afmoe_all_ok : runs (unicode_regex_split_custom_afmoe ud text offsets) (refines offsets).
Proof. eapply split_custom_ok; [|exact Ec|exact Hsum]. intros c ini endo out Hi. by apply afmoe_segment. Qed.

Lemma custom_ok regex : runs (unicode_regex_split_custom ud text regex offsets) (fun out => out = [] \/ refines offsets out).
Proof.
  unfold unicode_regex_split_custom. repeat case_match.
  - eapply runs_mono; [apply gpt2_ok|by right].
  - eapply runs_mono; [apply llama3_ok|by right].
  - eapply runs_mono; [apply kimi_ok|by right].
  - eapply runs_mono; [apply afmoe_all_ok|by right].
  - apply runs_ok. by left.
Qed.
End custom.
