(* ===== verification/UnicodeRegex.v ===== *)
(** [unicode_regex_split] of src/llama/llama.cpp/src/unicode.cpp: every expression of the
    pre-tokenizer cuts the pieces that the earlier ones left, with a hand-written splitter
    (UnicodeSplit.v) or with [std::regex], over a text in which every code point has become
    one character.  The words are then encoded byte by byte. *)

From S2P Require Import Prelude Unicode UnicodeSplit.
Local Open Scope Z_scope.

(** [std::regex] and [std::wregex]: whether an expression is valid, and the positions and
    lengths of its matches in a text, in the order of [std::regex_iterator] ([None]: a
    [std::regex_error] while matching).  [from_bytes]: [std::wstring_convert] ([None]: a
    [std::range_error]). *)
Record regex_engine := mk_engine {
  re_valid   : list Z -> bool;
  re_matches : list Z -> list Z -> option (list (nat * nat));
  wre_valid   : list Z -> bool;
  wre_matches : list Z -> list Z -> option (list (nat * nat));
  from_bytes : list Z -> option (list Z)
}.

(** ** Splitting with std::regex
    The two overloads differ in the type of the characters only. *)

(** The loop over the matches of a segment: [start_idx] and the lengths. *)
Definition stl_match (st : nat * list nat) (m : nat * nat) : nat * list nat :=
  let '(start_idx, out) := st in
  let '(position, len) := m in
  let out1 := if (start_idx <? position)%nat then out ++ [(position - start_idx)%nat] else out in
  ((position + len)%nat, out1 ++ [len]).

(** [None]: a [std::regex_error]. *)
Definition unicode_regex_split_stl (valid : list Z -> bool) (matches : list Z -> list Z -> option (list (nat * nat)))
    (text regex_expr : list Z) (offsets : list nat) : res (option (list nat)) :=
  if negb (valid regex_expr) then Ok None
  else
    r ← foldB (fun '(start, out) offset =>
          if (length text <? start + offset)%nat then Fault OutOfRange
          else
            match matches regex_expr (take offset (drop start text)) with
            | None => Ok (inr tt)
            | Some ms =>
                let '(start_idx, out1) := foldl stl_match (0%nat, out) ms in
                let out2 := if (start_idx <? offset)%nat then out1 ++ [(offset - start_idx)%nat] else out1 in
                Ok (inl ((start + offset)%nat, out2))
            end) (0%nat, []) offsets;
    Ok (match r with inl (_, out) => Some out | inr _ => None end).

(** ** Categories *)

(** [\p{N}] and its siblings: the pattern, the flag, the collapsed character, and the class
    of the code points below 128. *)
Definition k_ucat : list (list Z * Z * Z * list Z) := [
  (lit "\p{N}", 2,  209, lit "0-9");
  (lit "\p{L}", 4,  210, lit "A-Za-z");
  (lit "\p{P}", 32, 211, lit "!-#%-*,-/:-;?-@\[-\]_\{\}");
  (lit "\p{M}", 16, 212, []);
  (lit "\p{S}", 64, 213, lit "\$\+<->^`\|")
].

Definition has_sub (pat s : list Z) : bool :=
  existsb (fun i => bool_decide (take (length pat) (drop i s) = pat)) (seq 0 (S (length s))).
Definition has_category (regex_expr : list Z) : bool := existsb (fun c => has_sub c.1.1.1 regex_expr) k_ucat.

Section regex.
Context (ud : unicode_data) (en : regex_engine).

Definition unicode_wstring_from_utf8 (s : list Z) : res (list Z) :=
  match from_bytes en s with Some w => Ok w | None => Throw "wstring_convert::from_bytes" end.

(** A code point as one byte. *)
Definition collapse_cpt (cpt : Z) : Z :=
  if cpt <? 128 then cpt
  else
    let flags := unicode_cpt_flags_from_cpt ud cpt in
    if is_whitespace flags then 11
    else match list_find (fun c : list Z * Z * Z * list Z => c.1.1.2 = category_flag flags) k_ucat with
         | Some (_, c) => c.1.2
         | None => 208
         end.

(** The expression in terms of the collapsed characters, from index [i] on. *)
Fixpoint collapse_regex (fuel : nat) (e : list Z) (i : nat) (inside : bool) (out : list Z) : res (list Z) :=
  match fuel with
  | O => Fault OutOfFuel
  | S fuel =>
      if (i <? length e)%nat then
        let c := nth i e 0 in
        let escaped := (0 <? i)%nat && (nth (i - 1) e 0 =? 92) in
        if (c =? 91) && negb escaped then collapse_regex fuel e (i + 1) true (out ++ [91])
        else if inside && (c =? 93) && negb escaped then collapse_regex fuel e (i + 1) false (out ++ [93])
        else
          let is_p := (c =? 92) && (i + 4 <? length e)%nat && (nth (i + 1) e 0 =? 112) &&
                      (nth (i + 2) e 0 =? 123) && (nth (i + 4) e 0 =? 125) in
          match (if is_p then list_find (fun c : list Z * Z * Z * list Z => c.1.1.1 = take 5 (drop i e)) k_ucat else None) with
          | Some (_, u) =>
              let body := u.1.2 :: u.2 in
              collapse_regex fuel e (i + 5) inside (out ++ if inside then body else [91] ++ body ++ [93])
          | None => collapse_regex fuel e (i + 1) inside (out ++ [c])
          end
      else Ok out
  end.

Definition split_collapsed (cpts regex_expr : list Z) (offsets : list nat) : res (option (list nat)) :=
  cpts_regex ← unicode_cpts_from_utf8 regex_expr;
  if existsb (fun c => 128 <=? c) cpts_regex then
    Throw "Regex includes both unicode categories and non-ASCII characters - not supported"
  else
    e ← collapse_regex (S (length regex_expr)) regex_expr 0 false [];
    unicode_regex_split_stl (re_valid en) (re_matches en) (collapse_cpt <$> cpts) e offsets.

Definition split_wide (cpts regex_expr : list Z) (offsets : list nat) : res (option (list nat)) :=
  wregex_expr ← unicode_wstring_from_utf8 regex_expr;
  let wtext := (fun c => if (127 <? c) && is_whitespace (unicode_cpt_flags_from_cpt ud c) then 11 else c) <$> cpts in
  unicode_regex_split_stl (wre_valid en) (wre_matches en) wtext wregex_expr offsets.

(** One expression. *)
Definition split_regex (text cpts : list Z) (bpe_offsets : list nat) (regex_expr : list Z) : res (list nat) :=
  tmp ← unicode_regex_split_custom ud text regex_expr bpe_offsets;
  if (0 <? length tmp)%nat then Ok tmp
  else
    r ← (if has_category regex_expr then split_collapsed cpts regex_expr bpe_offsets
         else split_wide cpts regex_expr bpe_offsets);
    match r with
    | Some out => Ok out
    | None => Throw "Failed to process regex"
    end.

Definition split_word (cpts : list Z) (st : nat * list (list Z)) (offset : nat) : res (nat * list (list Z)) :=
  let '(start, words) := st in
  word ← foldM (fun w i => c ← rd cpts i; s ← unicode_cpt_to_utf8 c; Ok (w ++ s)) [] (seq start offset);
  Ok ((start + offset)%nat, words ++ [word]).

Definition unicode_regex_split (text : list Z) (regex_exprs : list (list Z)) : res (list (list Z)) :=
  cpts ← unicode_cpts_from_utf8 text;
  bpe_offsets ← foldM (split_regex text cpts) [length cpts] regex_exprs;
  r ← foldM (split_word cpts) (0%nat, []) bpe_offsets;
  unicode_byte_encoding_process r.2.
End regex.
