(* ===== verification/UnicodeRegexOk.v ===== *)
(** [unicode_regex_split] loses nothing: its words, in order, are the text with every byte as
    a printable character, whatever the expressions match.  The words of the hand-written
    splitters need no regular-expression library at all. *)

From S2P Require Import Prelude GrammarParser Utf8 Unicode UnicodeOk UnicodeSplit UnicodeSplitOk UnicodeRegex.
Local Open Scope Z_scope.

(** A computation that may throw but runs into no assertion or access out of bounds. *)
Definition lands {A} (m : res A) (P : A -> Prop) : Prop :=
  match m with Ok a => P a | Throw _ => True | Fault _ => False end.

Lemma lands_runs {A} (m : res A) (P : A -> Prop) : runs m P -> lands m P.
Proof. by destruct m. Qed.
Lemma lands_bind {A B} (m : res A) (k : A -> res B) P : lands m (fun a => lands (k a) P) -> lands (m ≫= k) P.
Proof. by destruct m. Qed.
Lemma lands_mono {A} (m : res A) (P Q : A -> Prop) : lands m P -> (forall a, P a -> Q a) -> lands m Q.
Proof. destruct m; cbn; auto. Qed.
Lemma lands_foldM {A B} (I : A -> Prop) (f : A -> B -> res A) l s :
  I s -> (forall x s, I s -> lands (f s x) I) -> lands (foldM f s l) I.
Proof.
  intros H0 Hf. revert s H0. induction l as [|x l IH]; intros s Hs; [done|]. cbn [foldM]. apply lands_bind.
  eapply lands_mono; [by apply Hf|]. apply IH.
Qed.

(** ** The matches of an expression *)

(** Matches in a text of [n] characters from [s] on: in order, without overlap. *)
Fixpoint matches_in (s n : nat) (ms : list (nat * nat)) : Prop :=
  match ms with
  | [] => True
  | (position, len) :: ms => (s <= position)%nat /\ (position + len <= n)%nat /\ matches_in (position + len) n ms
  end.

(** What [std::regex_iterator] promises. *)
Definition iterates (matches : list Z -> list Z -> option (list (nat * nat))) : Prop :=
  forall e t ms, matches e t = Some ms -> matches_in 0 (length t) ms.

Lemma stl_matches_ok n ms s out : matches_in s n ms -> (s <= n)%nat ->
  exists e l, foldl stl_match (s, out) ms = (e, out ++ l) /\ (e <= n)%nat /\ (s + sum_list l = e)%nat.
Proof.
  revert s out. induction ms as [|[p len] ms IH]; intros s out; cbn [matches_in foldl stl_match].
  - intros _ Hs. exists s, []. rewrite app_nil_r. simpl. split; [done|lia].
  - intros (H1 & H2 & H3) Hs.
    destruct (IH _ ((if (s <? p)%nat then out ++ [(p - s)%nat] else out) ++ [len]) H3 ltac:(lia)) as (e & l & -> & He & Hsum).
    destruct (Nat.ltb_spec s p).
    + exists e, ((p - s)%nat :: len :: l). rewrite <- !app_assoc. simpl. split; [done|lia].
    + exists e, (len :: l). rewrite <- app_assoc. simpl. split; [done|lia].
Qed.

Lemma sum_list_app l1 l2 : sum_list (l1 ++ l2) = (sum_list l1 + sum_list l2)%nat.
Proof. apply sum_list_with_app. Qed.

(** Where a matcher was asked and answered. *)
Definition answers (matches : list Z -> list Z -> option (list (nat * nat))) (e : list Z) : Prop :=
  forall t, matches e t <> None.

Section stl.
Context (valid : list Z -> bool) (matches : list Z -> list Z -> option (list (nat * nat))) (Hit : iterates matches).

Lemma split_stl_ok text e offsets : sum_list offsets = length text ->
  runs (unicode_regex_split_stl valid matches text e offsets) (fun r => match r with
    | Some out => sum_list out = sum_list offsets
    | None => valid e = false \/ ~ answers matches e
    end).
Proof.
  intros Hsum. unfold unicode_regex_split_stl. destruct (valid e); [|by left]. cbn [negb]. apply runs_bind.
  eapply runs_mono.
  { apply (runs_foldB (fun done_ st => st.1 = sum_list done_ /\ sum_list st.2 = sum_list done_) (fun _ => ~ answers matches e)); [done|].
    intros l1 o l2 [start out] -> [E1 E2]. cbn [fst snd] in *. rewrite sum_list_app in Hsum. simpl in Hsum.
    change (foldr (fun x => Nat.add (id x)) 0%nat l2) with (sum_list l2) in Hsum.
    destruct (Nat.ltb_spec (length text) (start + o)); [lia|].
    destruct (matches e _) as [ms|] eqn:Em; [|by apply runs_ok; intros A; by apply (A _ Em)].
    pose proof (Hit _ _ _ Em) as Hm. rewrite length_take, length_drop, Nat.min_l in Hm by lia.
    destruct (stl_matches_ok o ms 0 out Hm ltac:(lia)) as (e' & l & -> & He & Hl). apply runs_ok. cbn [fst snd].
    rewrite sum_list_app. simpl. destruct (Nat.ltb_spec e' o); rewrite !sum_list_app; simpl; lia. }
  intros [[start out]|[]]; cbn; [by intros [_ ?]|by right].
Qed.
End stl.

(** ** One expression *)

Lemma collapse_regex_ok fuel e i inside out : (length e - i < fuel)%nat -> runs (collapse_regex fuel e i inside out) (fun _ => True).
Proof.
  revert i inside out. induction fuel as [|fuel IH]; intros i inside out Hf; [lia|]. cbn [collapse_regex].
  destruct (Nat.ltb_spec i (length e)); [|done]. repeat (case_match; try (apply IH; lia)).
Qed.

Section regex.
Context (ud : unicode_data) (en : regex_engine).
Context (Hre : iterates (re_matches en)) (Hwre : iterates (wre_matches en)).

(** An expression that the library can use: without categories it is UTF-8 and valid, with
    categories it is ASCII and valid once they are collapsed. *)
Definition usable (e : list Z) : Prop :=
  if has_category e then
    forall c, unicode_cpts_from_utf8 e = Ok c -> existsb (fun c => 128 <=? c) c = false /\
    forall e', collapse_regex (S (length e)) e 0 false [] = Ok e' -> re_valid en e' = true /\ answers (re_matches en) e'
  else exists w, from_bytes en e = Some w /\ wre_valid en w = true /\ answers (wre_matches en) w.

Definition custom_regexes : list (list Z) :=
  [gpt2_regex; llama3_regex; llama3_regex'; lit "\p{Han}+"; lit "\p{AFMoE_digits}"].

Section text.
Context (text cpts : list Z) (Ec : unicode_cpts_from_utf8 text = Ok cpts).

Lemma fallback_ok e offsets : sum_list offsets = length cpts ->
  lands (if has_category e then split_collapsed ud en cpts e offsets else split_wide ud en cpts e offsets)
    (fun r => match r with Some out => sum_list out = sum_list offsets | None => ~ usable e end) /\
  (usable e -> runs (if has_category e then split_collapsed ud en cpts e offsets else split_wide ud en cpts e offsets)
    (fun r => match r with Some out => sum_list out = sum_list offsets | None => False end)).
Proof.
  intros Hsum. unfold usable. destruct (has_category e).
  - unfold split_collapsed. destruct (runs_inv _ _ (cpts_from_utf8_total e)) as (c & Ece & _). rewrite Ece, !bind_ok.
    destruct (runs_inv _ _ (collapse_regex_ok (S (length e)) e 0 false [] ltac:(lia))) as (e' & Ee & _). rewrite Ee, !bind_ok.
    pose proof (split_stl_ok (re_valid en) (re_matches en) Hre (collapse_cpt ud <$> cpts) e' offsets) as S.
    rewrite length_fmap in S. specialize (S Hsum). split.
    + destruct (existsb _ _); [done|]. apply lands_runs. eapply runs_mono; [exact S|]. intros [out|]; [done|].
      intros [H|H] U; destruct (proj2 (U c eq_refl) e' eq_refl) as [U1 U2]; [congruence|done].
    + intros U. destruct (U c eq_refl) as [-> U']. destruct (U' e' eq_refl) as [U1 U2]. eapply runs_mono; [exact S|].
      intros [out|]; [done|]. intros [H|H]; [congruence|done].
  - unfold split_wide, unicode_wstring_from_utf8. split.
    + destruct (from_bytes en e) as [w|]; [|done]. rewrite bind_ok. apply lands_runs. eapply runs_mono; [apply (split_stl_ok _ _ Hwre); by rewrite length_fmap|].
      intros [out|]; [done|]. intros [H|H] (w' & [= <-] & U1 & U2); [congruence|done].
    + intros (w & -> & U1 & U2). rewrite bind_ok. eapply runs_mono; [apply (split_stl_ok _ _ Hwre); by rewrite length_fmap|].
      intros [out|]; [done|]. intros [H|H]; [congruence|done].
Qed.

Lemma custom_runs e offsets : e ∈ custom_regexes -> sum_list offsets = length cpts ->
  runs (unicode_regex_split_custom ud text e offsets) (refines offsets).
Proof.
  intros He Hsum. unfold unicode_regex_split_custom. unfold custom_regexes in He. rewrite !elem_of_cons in He.
  destruct (bool_decide (e = gpt2_regex)) eqn:E1; [by eapply gpt2_ok|]. apply bool_decide_eq_false in E1.
  destruct (bool_decide (e = llama3_regex) || bool_decide (e = llama3_regex')) eqn:E2; [by eapply llama3_ok|].
  apply orb_false_iff in E2 as [E2%bool_decide_eq_false E3%bool_decide_eq_false].
  destruct (bool_decide (e = lit "\p{Han}+")) eqn:E4; [by eapply kimi_ok|]. apply bool_decide_eq_false in E4.
  destruct (bool_decide (e = lit "\p{AFMoE_digits}")) eqn:E5; [by eapply afmoe_all_ok|]. apply bool_decide_eq_false in E5.
  exfalso. rewrite elem_of_nil in He. tauto.
Qed.

Lemma split_regex_lands offsets e : sum_list offsets = length cpts ->
  lands (split_regex ud en text cpts offsets e) (fun out => sum_list out = length cpts).
Proof.
  intros Hsum. unfold split_regex. apply lands_bind, lands_runs. eapply runs_mono; [by apply (custom_ok ud text cpts)|].
  intros tmp Ht. destruct (Nat.ltb_spec 0 (length tmp)) as [Hl|_].
  - destruct Ht as [->|Ht]; [simpl in Hl; lia|]. cbn. by rewrite (refines_sum _ _ Ht).
  - apply lands_bind. eapply lands_mono; [apply fallback_ok, Hsum|]. intros [out|]; [|done]. cbn. congruence.
Qed.

Lemma split_regex_runs offsets e : cpts <> [] -> sum_list offsets = length cpts -> e ∈ custom_regexes \/ usable e ->
  runs (split_regex ud en text cpts offsets e) (fun out => sum_list out = length cpts).
Proof.
  intros Hne Hsum He. unfold split_regex. apply runs_bind.
  assert (P : forall tmp, refines offsets tmp -> (0 < length tmp)%nat).
  { intros tmp R. apply refines_sum in R. destruct tmp; [|simpl; lia]. destruct cpts; [done|]. simpl in *. lia. }
  destruct He as [He|He].
  - eapply runs_mono; [by apply custom_runs|]. intros tmp R. rewrite (proj2 (Nat.ltb_lt _ _) (P _ R)). cbn. by rewrite (refines_sum _ _ R).
  - eapply runs_mono; [by apply (custom_ok ud text cpts)|]. intros tmp Ht. destruct (Nat.ltb_spec 0 (length tmp)) as [Hl|_].
    + destruct Ht as [->|Ht]; [simpl in Hl; lia|]. cbn. by rewrite (refines_sum _ _ Ht).
    + apply runs_bind. eapply runs_mono; [by apply fallback_ok|]. intros [out|]; [|done]. cbn. congruence.
Qed.

(** ** The words *)

Context (Hsc : Forall scalar cpts).

Lemma split_word_ok start offset words : (start + offset <= length cpts)%nat ->
  split_word cpts (start, words) offset = Ok ((start + offset)%nat, words ++ [utf8_encode (take offset (drop start cpts))]).
Proof.
  intros Hb. unfold split_word.
  assert (R : runs (foldM (fun w i => c ← rd cpts i; s ← unicode_cpt_to_utf8 c; Ok (w ++ s)) [] (seq start offset))
    (fun w => w = utf8_encode (take offset (drop start cpts)))).
  { eapply runs_mono; [apply (runs_for_from (fun i w => w = utf8_encode (take (i - start) (drop start cpts))))|].
    - rewrite Nat.sub_diag. done.
    - intros i w Hi ->. destruct (lookup_lt_is_Some_2 cpts i ltac:(lia)) as [c Ec']. rewrite (rd_ok _ _ _ Ec'), bind_ok.
      rewrite cpt_to_utf8_ok, bind_ok by (by eapply Forall_lookup_1). apply runs_ok.
      replace (i + 1 - start)%nat with (S (i - start)) by lia.
      rewrite (take_S_r _ _ c) by (rewrite lookup_drop; by replace (start + (i - start))%nat with i by lia).
      rewrite utf8_encode_app. f_equal. unfold utf8_encode. simpl. by rewrite app_nil_r.
    - intros w. by replace (start + offset - start)%nat with offset by lia. }
  by rewrite (runs_inv_eq _ _ R), bind_ok.
Qed.

(** The pieces of [cpts] of the given lengths. *)
Fixpoint pieces (start : nat) (offsets : list nat) : list (list Z) :=
  match offsets with
  | [] => []
  | o :: offsets => take o (drop start cpts) :: pieces (start + o) offsets
  end.
Lemma pieces_concat start offsets : (start + sum_list offsets)%nat = length cpts -> concat (pieces start offsets) = drop start cpts.
Proof.
  revert start. induction offsets as [|o offsets IH]; intros start Hs; simpl in Hs; cbn [pieces concat].
  - rewrite drop_ge by lia. done.
  - rewrite IH by (change (foldr (fun x => Nat.add (id x)) 0%nat offsets) with (sum_list offsets) in Hs; lia).
    rewrite <- drop_drop. by rewrite take_drop.
Qed.
Lemma pieces_scalar start offsets : Forall (Forall scalar) (pieces start offsets).
Proof. revert start. induction offsets; intros start; constructor; [by apply Forall_take, Forall_drop|done]. Qed.

Lemma split_words_ok offsets start words : (start + sum_list offsets <= length cpts)%nat ->
  foldM (split_word cpts) (start, words) offsets =
    Ok ((start + sum_list offsets)%nat, words ++ (utf8_encode <$> pieces start offsets)).
Proof.
  revert start words. induction offsets as [|o offsets IH]; intros start words Hs; simpl in Hs; cbn [foldM pieces].
  - rewrite app_nil_r. simpl. by rewrite Nat.add_0_r.
  - change (foldr (fun x => Nat.add (id x)) 0%nat offsets) with (sum_list offsets) in Hs.
    rewrite split_word_ok, bind_ok, IH by lia. rewrite fmap_cons, <- app_assoc. f_equal. f_equal. simpl.
    change (foldr (fun x => Nat.add (id x)) 0%nat offsets) with (sum_list offsets). unfold id. lia.
Qed.

(** The words of pieces of the text, byte by byte as characters. *)
Definition encoded_words (ps : list (list Z)) : list (list Z) := (fun p => encoded_bytes (utf8_encode p)) <$> ps.
Lemma encoded_words_concat ps : concat (encoded_words ps) = encoded_bytes (utf8_encode (concat ps)).
Proof. induction ps as [|p l IH]; [done|]. cbn [encoded_words fmap list_fmap concat]. rewrite utf8_encode_app, encoded_bytes_app, <- IH. done. Qed.

Lemma encode_pieces offsets : sum_list offsets = length cpts ->
  runs (r ← foldM (split_word cpts) (0%nat, []) offsets; unicode_byte_encoding_process r.2)
    (fun words => exists ps, words = encoded_words ps /\ concat ps = cpts /\ Forall (Forall scalar) ps).
Proof.
  intros Hs. rewrite split_words_ok, bind_ok by (simpl; lia). cbn [snd app].
  rewrite byte_encoding_ok by apply pieces_scalar. apply runs_ok. exists (pieces 0 offsets). split; [done|].
  split; [by apply pieces_concat|apply pieces_scalar].
Qed.
End text.
End regex.

(** ** The whole function *)

Section split.
Context (ud : unicode_data) (en : regex_engine) (Hre : iterates (re_matches en)) (Hwre : iterates (wre_matches en)).

Lemma regex_split_lands text cpts exprs : unicode_cpts_from_utf8 text = Ok cpts -> Forall scalar cpts ->
  lands (unicode_regex_split ud en text exprs) (fun words => exists ps, words = encoded_words ps /\ concat ps = cpts /\ Forall (Forall scalar) ps).
Proof.
  intros Ec Hsc. unfold unicode_regex_split. rewrite Ec, bind_ok. apply lands_bind. eapply lands_mono.
  - apply (lands_foldM (fun out => sum_list out = length cpts)); [simpl; lia|]. intros e offsets Hs.
    by apply (split_regex_lands ud en Hre Hwre).
  - intros offsets Hs. apply lands_runs. by apply encode_pieces.
Qed.

Lemma regex_split_runs text cpts exprs : unicode_cpts_from_utf8 text = Ok cpts -> Forall scalar cpts -> cpts <> [] ->
  Forall (fun e => e ∈ custom_regexes \/ usable en e) exprs ->
  runs (unicode_regex_split ud en text exprs) (fun words => exists ps, words = encoded_words ps /\ concat ps = cpts /\ Forall (Forall scalar) ps).
Proof.
  intros Ec Hsc Hne He. unfold unicode_regex_split. rewrite Ec, bind_ok. apply runs_bind. eapply runs_mono.
  - apply (runs_foldM_inv (fun out => sum_list out = length cpts)); [simpl; lia|]. intros e offsets Hin Hs.
    apply (split_regex_runs ud en Hre Hwre); [done..|]. by apply (proj1 (list.Forall_forall _ _) He).
  - intros offsets Hs. by apply encode_pieces.
Qed.
End split.

(** C21: Pre-tokenization loses nothing: for a text whose code points are valid (which covers every
    UTF-8 text and texts with broken sequences, replaced by U+FFFD), whatever the expressions
    match, [unicode_regex_split] never violates an assertion or a bound, and the words, if it
    returns them and does not throw, are, one after the other, the text with every byte as its
    printable character.  It does return them for a text that is not empty, when every
    expression is one of the hand-written ones or is accepted by the library.  (On the empty
    text a hand-written splitter finds no piece, which the code takes for an unknown expression
    and hands to the library, so returning is not claimed there.) *)
Theorem regex_split_lossless ud en text cpts exprs :
  iterates (re_matches en) -> iterates (wre_matches en) ->
  unicode_cpts_from_utf8 text = Ok cpts -> Forall scalar cpts ->
  lands (unicode_regex_split ud en text exprs) (fun words => concat words = encoded_bytes (utf8_encode cpts)) /\
  (cpts <> [] -> Forall (fun e => e ∈ custom_regexes \/ usable en e) exprs ->
   exists words, unicode_regex_split ud en text exprs = Ok words /\ concat words = encoded_bytes (utf8_encode cpts)).
Proof.
  intros Hre Hwre Ec Hsc. split.
  - eapply lands_mono; [by apply regex_split_lands|]. intros words (ps & -> & <- & _). apply encoded_words_concat.
  - intros Hne He. destruct (runs_inv _ _ (regex_split_runs ud en Hre Hwre text cpts exprs Ec Hsc Hne He)) as (words & E & ps & -> & <- & _).
    exists (encoded_words ps). split; [done|]. apply encoded_words_concat.
Qed.

(** A small table of ASCII letters, digits and the space, and a library that knows the
    expression " " only. *)
Definition toy_ud : unicode_data := mk_udata
  [(0, 1); (48, 2); (58, 1); (65, 4); (91, 1); (97, 4); (123, 1); (1114112, 0)] [32] [(65, 97); (66, 98)] [] [(0, 0, 0)].
Definition toy_find (s : nat) (t : list Z) : list (nat * nat) :=
  omap (fun p => if p.2 =? 32 then Some (p.1, 1%nat) else None) (zip (seq s (length t)) t).
Definition toy_engine : regex_engine :=
  mk_engine (fun _ => false) (fun _ _ => None) (fun e => bool_decide (e = [32])) (fun _ t => Some (toy_find 0 t)) Some.

Lemma toy_find_in s b t : (b <= s)%nat -> matches_in b (s + length t) (toy_find s t).
Proof.
  revert s b. induction t as [|c t IH]; intros s b Hb; [done|]. unfold toy_find. simpl. destruct (c =? 32); cbn [matches_in].
  - split; [done|]. split; [lia|]. replace (s + S (length t))%nat with (S s + length t)%nat by lia. apply IH. lia.
  - replace (s + S (length t))%nat with (S s + length t)%nat by lia. apply IH. lia.
Qed.

Lemma regex_split_lossless_witness :
  iterates (re_matches toy_engine) /\ iterates (wre_matches toy_engine) /\
  unicode_cpts_from_utf8 (lit "Hi 42") = Ok (lit "Hi 42") /\
  unicode_regex_split toy_ud toy_engine (lit "Hi 42") [llama3_regex; [32]] =
    Ok [lit "Hi"; encoded_bytes [32]; lit "42"] /\
  exists words, unicode_regex_split toy_ud toy_engine (lit "Hi 42") [llama3_regex; [32]] = Ok words /\
    concat words = encoded_bytes (utf8_encode (lit "Hi 42")).
Proof.
  assert (H1 : iterates (re_matches toy_engine)) by done.
  assert (H2 : iterates (wre_matches toy_engine)).
  { intros e t ms [= <-]. by apply (toy_find_in 0 0 t). }
  assert (H3 : unicode_cpts_from_utf8 (lit "Hi 42") = Ok (lit "Hi 42")) by (vm_compute; reflexivity).
  split; [done|]. split; [done|]. split; [done|]. split; [vm_compute; reflexivity|].
  apply (regex_split_lossless toy_ud toy_engine (lit "Hi 42") (lit "Hi 42")); [done|done|done| |done|].
  - unfold scalar. repeat constructor; simpl; lia.
  - constructor; [left; unfold custom_regexes; set_solver|]. constructor; [right|constructor].
    unfold usable. replace (has_category [32]) with false by (vm_compute; reflexivity).
    exists [32]. split; [done|]. split; [vm_compute; reflexivity|done].
Defined.

(** ** Where an exception leaves the tokenizer *)

(** The four bytes F7 BF BF BF are taken for the code point 1FFFFF, which has no encoding:
    the comment in [unicode_cpts_from_utf8] says that invalid input is replaced "to avoid
    leaking the exception beyond llama_tokenize". *)
Theorem invalid_codepoint_leaks ud en : 
  unicode_cpts_from_utf8 [247; 191; 191; 191] = Ok [2097151] /\
  unicode_regex_split ud en [247; 191; 191; 191] [] = Throw "invalid codepoint".
Proof. split; vm_compute; reflexivity. Qed.
