(* ===== verification/Vocab.v ===== *)
(** The vocabulary, src/llama/llama.cpp/src/llama-vocab.cpp: the data of [llama_vocab], its
    accessors, byte tokens, and the part of [load] that fills the tables of tokens.  Scores
    are floating-point numbers, of which the code compares some and adds some: a type with
    operations ([FloatOps]), whose laws ([FloatLaws]) hold for floats without NaN. *)

From stdpp Require Import pretty sorting.
From S2P Require Import Prelude Unicode.
Local Open Scope Z_scope.

(** ** Scores *)

Class FloatOps (F : Type) := {
  f_lt : F -> F -> bool;
  f_eq : F -> F -> bool;
  f_add : F -> F -> F;
  f_sub : F -> F -> F;
  f_of_Z : Z -> F;
  f_lowest : F;     (* -FLT_MAX, -DBL_MAX *)
  f_highest : F     (* FLT_MAX *)
}.

(** Ordered, with a sum that respects the order. *)
Class FloatLaws (F : Type) `{FloatOps F} := {
  f_lt_irrefl a : f_lt a a = false;
  f_lt_trans a b c : f_lt a b = true -> f_lt b c = true -> f_lt a c = true;
  f_eq_spec a b : f_eq a b = negb (f_lt a b) && negb (f_lt b a);
  f_eq_lt a b c : f_eq a b = true -> f_lt b c = true -> f_lt a c = true;
  f_lt_eq a b c : f_lt a b = true -> f_eq b c = true -> f_lt a c = true;
  f_add_mono a b c : f_lt b a = false -> f_lt (f_add b c) (f_add a c) = false
}.

#[export] Instance z_float : FloatOps Z := {
  f_lt := Z.ltb; f_eq := Z.eqb; f_add := Z.add; f_sub := Z.sub; f_of_Z := id; f_lowest := -1000000000000; f_highest := 1000000000000
}.
#[export] Instance z_float_laws : FloatLaws Z.
Proof.
  constructor; cbn; intros.
  - apply Z.ltb_irrefl.
  - lia.
  - destruct (Z.eqb_spec a b), (Z.ltb_spec a b), (Z.ltb_spec b a); try done; lia.
  - lia.
  - lia.
  - lia.
Qed.

(** ** The data *)

Inductive llama_vocab_type :=
  | LLAMA_VOCAB_TYPE_NONE | LLAMA_VOCAB_TYPE_SPM | LLAMA_VOCAB_TYPE_BPE | LLAMA_VOCAB_TYPE_WPM
  | LLAMA_VOCAB_TYPE_UGM | LLAMA_VOCAB_TYPE_RWKV | LLAMA_VOCAB_TYPE_PLAMO2.
#[export] Instance vocab_type_eq_dec : EqDecision llama_vocab_type.
Proof. solve_decision. Defined.

Definition LLAMA_TOKEN_NULL : Z := -1.

(** Attributes are bits of a mask. *)
Definition ATTR_UNKNOWN : Z := 1.
Definition ATTR_UNUSED : Z := 2.
Definition ATTR_NORMAL : Z := 4.
Definition ATTR_CONTROL : Z := 8.
Definition ATTR_USER_DEFINED : Z := 16.
Definition ATTR_BYTE : Z := 32.
Definition ATTR_LSTRIP : Z := 128.
Definition ATTR_RSTRIP : Z := 256.
Definition has_attr (attr mask : Z) : bool := negb (Z.land attr mask =? 0).

Record token_data (F : Type) := mk_token { td_text : list Z; td_score : F; td_attr : Z }.
Arguments mk_token {F} _ _ _.
Arguments td_text {F} _.
Arguments td_score {F} _.
Arguments td_attr {F} _.

(** The members of [llama_vocab::impl] that the tokenizers use. *)
Record llama_vocab (F : Type) := mk_vocab {
  v_type : llama_vocab_type;
  v_token_to_id : gmap (list Z) Z;
  v_id_to_token : list (token_data F);
  v_cache_special_tokens : list Z;
  v_cache_token_to_piece : list (list Z);
  v_bpe_ranks : gmap (list Z * list Z) Z;
  v_max_token_len : Z;
  v_special_bos_id : Z;
  v_special_eos_id : Z;
  v_special_unk_id : Z;
  v_special_sep_id : Z;
  v_add_space_prefix : bool;
  v_add_bos : bool;
  v_add_eos : bool;
  v_ignore_merges : bool;
  v_clean_spaces : bool;
  v_remove_extra_whitespaces : bool;
  v_escape_whitespaces : bool;
  v_treat_whitespace_as_suffix : bool
}.
Arguments mk_vocab {F}.
Arguments v_type {F} _.
Arguments v_token_to_id {F} _.
Arguments v_id_to_token {F} _.
Arguments v_cache_special_tokens {F} _.
Arguments v_cache_token_to_piece {F} _.
Arguments v_bpe_ranks {F} _.
Arguments v_max_token_len {F} _.
Arguments v_special_bos_id {F} _.
Arguments v_special_eos_id {F} _.
Arguments v_special_unk_id {F} _.
Arguments v_special_sep_id {F} _.
Arguments v_add_space_prefix {F} _.
Arguments v_add_bos {F} _.
Arguments v_add_eos {F} _.
Arguments v_ignore_merges {F} _.
Arguments v_clean_spaces {F} _.
Arguments v_remove_extra_whitespaces {F} _.
Arguments v_escape_whitespaces {F} _.
Arguments v_treat_whitespace_as_suffix {F} _.

(** [v[i]] with a signed index, and [v.at(i)], which throws. *)
Definition idx {A} (l : list A) (i : Z) : res A := if i <? 0 then Fault OutOfRange else rd l (Z.to_nat i).
Definition set_idx {A} (l : list A) (i : Z) (x : A) : res (list A) := if i <? 0 then Fault OutOfRange else wr l (Z.to_nat i) x.
Definition at_idx {A} (l : list A) (i : Z) : res A :=
  if i <? 0 then Throw "vector::at" else match l !! Z.to_nat i with Some x => Ok x | None => Throw "vector::at" end.

Section vocab.
Context {F : Type} (v : llama_vocab F).

Definition n_tokens : Z := Z.of_nat (length (v_id_to_token v)).
Definition has_type : res unit := assert_ (bool_decide (v_type v <> LLAMA_VOCAB_TYPE_NONE)).

Definition text_to_token (text : list Z) : res Z :=
  has_type ;; Ok (default LLAMA_TOKEN_NULL (v_token_to_id v !! text)).
Definition get_token_data (id : Z) : res (token_data F) := has_type ;; at_idx (v_id_to_token v) id.
Definition token_get_attr (id : Z) : res Z := has_type ;; d ← at_idx (v_id_to_token v) id; Ok (td_attr d).
Definition token_get_score (id : Z) : res F := has_type ;; d ← at_idx (v_id_to_token v) id; Ok (td_score d).

Definition is_attr (mask : Z) (id : Z) : res bool :=
  has_type ;; d ← idx (v_id_to_token v) id; Ok (has_attr (td_attr d) mask).
Definition is_normal : Z -> res bool := is_attr ATTR_NORMAL.
Definition is_unknown : Z -> res bool := is_attr ATTR_UNKNOWN.
Definition is_control : Z -> res bool := is_attr ATTR_CONTROL.
Definition is_byte_token : Z -> res bool := is_attr ATTR_BYTE.
Definition is_user_defined : Z -> res bool := is_attr ATTR_USER_DEFINED.
Definition is_unused : Z -> res bool := is_attr ATTR_UNUSED.

(** [strtol(s, NULL, 16)] on two characters, truncated to a byte: digits up to the first
    character that is none. *)
Definition hex_value (c : Z) : option Z :=
  if (48 <=? c) && (c <=? 57) then Some (c - 48)
  else if (97 <=? c) && (c <=? 102) then Some (c - 87)
  else if (65 <=? c) && (c <=? 70) then Some (c - 55)
  else None.
Fixpoint hex_digits (acc : Z) (l : list Z) : Z :=
  match l with
  | [] => acc
  | c :: l => match hex_value c with Some d => hex_digits (acc * 16 + d) l | None => acc end
  end.

(** [substr(pos, n)] throws when it starts behind the end. *)
Definition substr (s : list Z) (pos n : nat) : res (list Z) :=
  if (length s <? pos)%nat then Throw "basic_string::substr" else Ok (take n (drop pos s)).

Definition token_to_byte (id : Z) : res Z :=
  has_type ;;
  b ← is_byte_token id;
  assert_ b ;;
  d ← at_idx (v_id_to_token v) id;
  match v_type v with
  | LLAMA_VOCAB_TYPE_SPM | LLAMA_VOCAB_TYPE_UGM =>
      buf ← substr (td_text d) 3 2; Ok (hex_digits 0 buf)
  | _ => Fault AbortCalled
  end.

Definition hex_char (d : Z) : Z := if d <? 10 then 48 + d else 55 + d.
(** "<0xHH>" *)
Definition byte_name (ch : Z) : list Z := [60; 48; 120; hex_char (Z.shiftr ch 4); hex_char (Z.land ch 15); 62].

(** A C string ends at the first zero. *)
Definition c_str (l : list Z) : list Z := match list_find (fun c => c = 0) l with Some (i, _) => take i l | None => l end.

Definition byte_to_token (ch : Z) : res Z :=
  has_type ;;
  match v_type v with
  | LLAMA_VOCAB_TYPE_SPM | LLAMA_VOCAB_TYPE_UGM =>
      match v_token_to_id v !! byte_name ch with
      | Some t => Ok t
      | None => at_key (v_token_to_id v) (c_str [ch])
      end
  | LLAMA_VOCAB_TYPE_WPM | LLAMA_VOCAB_TYPE_BPE => s ← unicode_byte_to_utf8 ch; at_key (v_token_to_id v) s
  | LLAMA_VOCAB_TYPE_PLAMO2 => at_key (v_token_to_id v) (byte_name ch)
  | _ => Fault AbortCalled
  end.

Definition find_bpe_rank (token_left token_right : list Z) : res Z :=
  let without c s := bool_decide (c ∉ (s : list Z)) in
  assert_ (without 32 token_left) ;;
  assert_ (without 10 token_left) ;;
  assert_ (without 32 token_right) ;;
  assert_ (without 10 token_right) ;;
  Ok (default (-1) (v_bpe_ranks v !! (token_left, token_right))).
End vocab.

(** ** The tables of tokens, filled by [load] *)

(** The types of a GGUF file: 0 undefined, 1 normal, 2 unknown, ... *)
Definition attr_of_type (t : Z) : Z :=
  match t with
  | 1 => ATTR_NORMAL
  | 2 => ATTR_UNKNOWN
  | 3 => ATTR_CONTROL
  | 4 => ATTR_USER_DEFINED
  | 5 => ATTR_UNUSED
  | 6 => ATTR_BYTE
  | _ => 0
  end.

(** [std::to_string] of an index. *)
Definition to_string_nat (n : nat) : list Z := lit (pretty (N.of_nat n)).

(** A word of the file at index [i]. *)
Definition word_at (i : nat) (word : list Z) : list Z :=
  if bool_decide (word = []) then lit "[EMPTY_" ++ to_string_nat i ++ lit "]" else word.

(** The loop over the tokens, and the assertion behind it: ids, data and the longest length. *)
Definition load_token {F} `{FloatOps F} (words : list (list Z)) (scores : option (list F)) (toktypes : option (list Z))
    (st : gmap (list Z) Z * list (token_data F) * Z) (i : nat) : res (gmap (list Z) Z * list (token_data F) * Z) :=
  let '(ids, tokens, max_len) := st in
  w ← rd words i;
  let word := word_at i w in
  score ← match scores with Some s => rd s i | None => Ok (f_of_Z 0) end;
  attr ← match toktypes with Some t => ty ← rd t i; Ok (attr_of_type ty) | None => Ok ATTR_NORMAL end;
  Ok (<[word := Z.of_nat i]> ids, tokens ++ [mk_token word score attr], Z.max max_len (Z.of_nat (length word))).
Definition load_tokens {F} `{FloatOps F} (words : list (list Z)) (scores : option (list F)) (toktypes : option (list Z)) :
    res (gmap (list Z) Z * list (token_data F) * Z) :=
  r ← foldM (load_token words scores toktypes) (∅, [], 0) (seq 0 (length words));
  assert_ (length r.1.2 =? size r.1.1)%nat ;;
  Ok r.

(** The tokens that a text is searched for, and the order [std::sort] leaves them in: longer
    texts first, in any order among equal lengths. *)
Definition special_tokens {F} (tokens : list (token_data F)) : list Z :=
  omap (fun i => match tokens !! i with
    | Some d => if has_attr (td_attr d) (Z.lor (Z.lor ATTR_CONTROL ATTR_USER_DEFINED) ATTR_UNKNOWN) then Some (Z.of_nat i) else None
    | None => None
    end) (seq 0 (length tokens)).
Definition text_length {F} (tokens : list (token_data F)) (id : Z) : nat :=
  match tokens !! Z.to_nat id with Some d => length (td_text d) | None => 0 end.
Definition special_cache {F} (tokens : list (token_data F)) (cache : list Z) : Prop :=
  cache ≡ₚ special_tokens tokens /\ StronglySorted (fun a b => text_length tokens b <= text_length tokens a)%nat cache.
