(* ===== verification/VocabOk.v ===== *)
(** Well-formed vocabularies: what [load] establishes of the tables of tokens, and what the
    accessors do on them. *)

From S2P Require Import Prelude Unicode UnicodeOk Vocab.
Local Open Scope Z_scope.

(** Ids and texts are inverse to each other, and no text is empty. *)
Record tables_ok {F : Type} (ids : gmap (list Z) Z) (tokens : list (token_data F)) : Prop := {
  to_ids w t : ids !! w = Some t <-> 0 <= t /\ exists d, tokens !! Z.to_nat t = Some d /\ td_text d = w;
  to_text t d : tokens !! t = Some d -> td_text d <> []
}.

Record vocab_ok {F : Type} (v : llama_vocab F) : Prop := {
  vo_type : v_type v <> LLAMA_VOCAB_TYPE_NONE;
  vo_tables : tables_ok (v_token_to_id v) (v_id_to_token v);
  vo_size : n_tokens v < 2147483648
}.

Section accessors.
Context {F : Type} (v : llama_vocab F) (Hv : vocab_ok v).

Lemma has_type_ok : has_type v = Ok tt.
Proof. unfold has_type. rewrite bool_decide_true; [done|apply Hv]. Qed.

Lemma token_ok w t : v_token_to_id v !! w = Some t ->
  0 <= t < n_tokens v /\ exists d, v_id_to_token v !! Z.to_nat t = Some d /\ td_text d = w.
Proof.
  intros (Ht & d & Hd & Ew)%(to_ids _ _ (vo_tables _ Hv)). split; [|by exists d]. apply lookup_lt_Some in Hd. unfold n_tokens. lia.
Qed.

Lemma text_to_token_some w t : v_token_to_id v !! w = Some t -> text_to_token v w = Ok t /\ t <> LLAMA_TOKEN_NULL.
Proof.
  intros Hw. unfold text_to_token. rewrite has_type_ok, bind_ok, Hw. split; [done|]. apply token_ok in Hw as [? _].
  unfold LLAMA_TOKEN_NULL. lia.
Qed.
Lemma text_to_token_none w : v_token_to_id v !! w = None -> text_to_token v w = Ok LLAMA_TOKEN_NULL.
Proof. intros Hw. unfold text_to_token. by rewrite has_type_ok, bind_ok, Hw. Qed.

Lemma token_data_ok w t : v_token_to_id v !! w = Some t ->
  exists d, get_token_data v t = Ok d /\ td_text d = w /\ v_id_to_token v !! Z.to_nat t = Some d.
Proof.
  intros Hw. destruct (token_ok _ _ Hw) as (Ht & d & Hd & Ew). exists d. unfold get_token_data, at_idx.
  rewrite has_type_ok, bind_ok, (proj2 (Z.ltb_ge t 0)), Hd by lia. done.
Qed.
Lemma token_u32 w t : v_token_to_id v !! w = Some t -> (n_tokens v <=? u32 t) = false.
Proof.
  intros Hw. destruct (token_ok _ _ Hw) as [Ht _]. pose proof (vo_size _ Hv). unfold u32. rewrite Z.mod_small by lia. lia.
Qed.

Lemma empty_no_token : v_token_to_id v !! [] = None.
Proof.
  destruct (v_token_to_id v !! []) as [t|] eqn:E; [|done]. destruct (token_ok _ _ E) as (_ & d & Hd & Ew).
  by destruct (to_text _ _ (vo_tables _ Hv) _ _ Hd).
Qed.
End accessors.

(** ** Loading *)

Section load.
Context {F : Type} `{FloatOps F} (words : list (list Z)) (scores : option (list F)) (toktypes : option (list Z)).
Context (Hs : forall s, scores = Some s -> (length words <= length s)%nat).
Context (Ht : forall t, toktypes = Some t -> (length words <= length t)%nat).

(** The words as they are stored. *)
Definition stored_words : list (list Z) := imap word_at words.

Lemma load_token_ok ids tokens m i w : words !! i = Some w ->
  exists score attr, load_token words scores toktypes (ids, tokens, m) i =
    Ok (<[word_at i w := Z.of_nat i]> ids, tokens ++ [mk_token (word_at i w) score attr], Z.max m (Z.of_nat (length (word_at i w)))).
Proof.
  intros Hw. unfold load_token. rewrite (rd_ok _ _ _ Hw), bind_ok. pose proof (lookup_lt_Some _ _ _ Hw) as Hi.
  destruct scores as [s|].
  - destruct (lookup_lt_is_Some_2 s i) as [x Hx]; [by specialize (Hs s eq_refl); lia|]. rewrite (rd_ok _ _ _ Hx), bind_ok.
    destruct toktypes as [t|]; [|by eexists _, _].
    destruct (lookup_lt_is_Some_2 t i) as [y Hy]; [by specialize (Ht t eq_refl); lia|]. rewrite (rd_ok _ _ _ Hy), !bind_ok. by eexists _, _.
  - destruct toktypes as [t|]; [|by eexists _, _].
    destruct (lookup_lt_is_Some_2 t i) as [y Hy]; [by specialize (Ht t eq_refl); lia|]. rewrite (rd_ok _ _ _ Hy), !bind_ok. by eexists _, _.
Qed.

(** The state of the loop at index [i]: the last id of every word. *)
Definition load_inv (i : nat) (st : gmap (list Z) Z * list (token_data F) * Z) : Prop :=
  let '(ids, tokens, m) := st in
  (td_text <$> tokens = take i stored_words) /\
  (forall w, (exists n, take i stored_words !! n = Some w) <-> is_Some (ids !! w)) /\
  (forall w t, ids !! w = Some t -> 0 <= t /\ take i stored_words !! Z.to_nat t = Some w) /\
  (forall w, w ∈ take i stored_words -> Z.of_nat (length w) <= m) /\
  (size ids <= i)%nat /\ (size ids = i <-> NoDup (take i stored_words)).

Lemma load_inv_step i w ids tokens m s a : words !! i = Some w -> load_inv i (ids, tokens, m) ->
  load_inv (i + 1) (<[word_at i w := Z.of_nat i]> ids, tokens ++ [mk_token (word_at i w) s a], Z.max m (Z.of_nat (length (word_at i w)))).
Proof.
  intros Hw (H1 & H2 & H3 & H4 & H5 & H6). set (x := word_at i w).
  assert (Ex : stored_words !! i = Some x) by (unfold stored_words; by rewrite list_lookup_imap, Hw).
  assert (Et : take (i + 1) stored_words = take i stored_words ++ [x]) by (rewrite Nat.add_1_r; by apply take_S_r).
  assert (Hl : length (take i stored_words) = i).
  { rewrite length_take. apply lookup_lt_Some in Ex. lia. }
  unfold load_inv. rewrite Et. split_and!.
  - by rewrite fmap_app, H1.
  - intros y. destruct (decide (y = x)) as [->|Hy].
    + rewrite lookup_insert_eq. split; [by eexists|]. intros _. exists i. by rewrite lookup_app_r, Hl, Nat.sub_diag by lia.
    + rewrite lookup_insert_ne by done. rewrite <- H2. split; intros [n Hn]; exists n.
      * apply lookup_app_Some in Hn as [?|[_ Hn]]; [done|]. apply list_lookup_singleton_Some in Hn as [_ E]. by subst y.
      * by apply lookup_app_l_Some.
  - intros y t. destruct (decide (y = x)) as [->|Hy].
    + rewrite lookup_insert_eq. intros [= <-]. split; [lia|]. by rewrite Nat2Z.id, lookup_app_r, Hl, Nat.sub_diag by lia.
    + rewrite lookup_insert_ne by done. intros Hyt. destruct (H3 _ _ Hyt). split; [done|]. by apply lookup_app_l_Some.
  - intros y. rewrite elem_of_app, list_elem_of_singleton. intros [Hy| ->]; [specialize (H4 y Hy)|]; lia.
  - rewrite map_size_insert. destruct (ids !! x); cbn; lia.
  - rewrite map_size_insert, list.NoDup_app. destruct (ids !! x) as [t|] eqn:E; cbn.
    + split; [lia|]. intros (_ & Hn & _). exfalso. destruct (proj2 (H2 x) ltac:(by rewrite E)) as [n Hx].
      apply (Hn x); [by eapply list_elem_of_lookup_2|by left].
    + split; [intros Hsz; split_and!|intros (Hn & _ & _); apply H6 in Hn; lia]; [by apply H6; lia| |apply NoDup_singleton].
      intros y Hy ->%list_elem_of_singleton. apply list_elem_of_lookup in Hy. apply H2 in Hy. rewrite E in Hy. by destruct Hy.
Qed.

Lemma stored_length : length stored_words = length words.
Proof. apply length_imap. Qed.

Lemma load_loop : runs (foldM (load_token words scores toktypes) (∅, [], 0) (seq 0 (length words))) (load_inv (length words)).
Proof.
  apply runs_for.
  - unfold load_inv. rewrite take_0. split_and!; try done.
    + intros w. split; [by intros [n Hn]|by intros [t Ht']].
    + by intros w ?%elem_of_nil.
    + split; [intros _; constructor|done].
  - intros i [[ids tokens] m] Hi Hinv. destruct (lookup_lt_is_Some_2 words i Hi) as [w Hw].
    destruct (load_token_ok ids tokens m i w Hw) as (s & a & ->). apply runs_ok. by apply load_inv_step.
Qed.

Lemma word_at_nonempty i w : word_at i w <> [].
Proof. unfold word_at. case_bool_decide; [done|done]. Qed.

(** Loading succeeds exactly on words that are pairwise different as stored. *)
Lemma load_tokens_ok : 
  (NoDup stored_words -> exists r, load_tokens words scores toktypes = Ok r) /\
  forall ids tokens m, load_tokens words scores toktypes = Ok (ids, tokens, m) ->
    td_text <$> tokens = stored_words /\ NoDup stored_words /\ tables_ok ids tokens /\
    forall w, w ∈ stored_words -> Z.of_nat (length w) <= m.
Proof.
  unfold load_tokens. destruct (runs_inv _ _ load_loop) as ([[ids0 tokens0] m0] & E & H1 & H2 & H3 & H4 & H5 & H6).
  rewrite E, bind_ok. cbn [fst snd]. rewrite <- stored_length in H1, H2, H3, H4, H5, H6. rewrite firstn_all in H1, H2, H3, H4, H6.
  assert (El : length tokens0 = length stored_words) by (by rewrite <- H1, length_fmap). rewrite El. split.
  - intros Hn%H6. rewrite Hn, Nat.eqb_refl. by eexists.
  - intros ids tokens m. destruct (Nat.eqb_spec (length stored_words) (size ids0)) as [Es|]; [|done]. intros [= <- <- <-].
    split; [done|]. assert (Hn : NoDup stored_words) by (by apply H6). split; [done|]. split; [|done]. constructor.
    + intros w t. split.
      * intros Hw. destruct (H3 _ _ Hw) as [? Hl]. split; [done|]. rewrite <- H1 in Hl. apply list_lookup_fmap_Some in Hl as (d & Hd & ->). by exists d.
      * intros (Ht0 & d & Hd & Ew). assert (Hl : stored_words !! Z.to_nat t = Some w) by (rewrite <- H1, list_lookup_fmap, Hd; cbn; by rewrite Ew).
        destruct (proj1 (H2 w)) as [t' Ht']; [by exists (Z.to_nat t)|]. destruct (H3 _ _ Ht') as [? Hl'].
        rewrite Ht'. f_equal. pose proof (NoDup_lookup _ _ _ _ Hn Hl Hl'). lia.
    + intros t d Hd. assert (Hl : stored_words !! t = Some (td_text d)) by (by rewrite <- H1, list_lookup_fmap, Hd).
      unfold stored_words in Hl. rewrite list_lookup_imap in Hl. destruct (words !! t); [|done]. injection Hl as <-. apply word_at_nonempty.
Qed.
End load.

(** ** A small vocabulary *)

Definition toy_words : list (list Z) :=
  [lit "<unk>"; lit "a"; lit "b"; lit "c"; lit "ab"; lit "bc"; [226; 150; 129]; lit "<0x64>"; lit "<|sep|>"; [226; 150; 129; 97]].
Definition toy_scores : list Z := [0; -5; -6; -7; -2; -1; -3; 0; 0; -4].
Definition toy_types : list Z := [2; 1; 1; 1; 1; 1; 1; 6; 3; 1].

Definition toy_vocab (ty : llama_vocab_type) : llama_vocab Z :=
  match load_tokens toy_words (Some toy_scores) (Some toy_types) with
  | Ok (ids, tokens, m) =>
      mk_vocab ty ids tokens [8; 0] [] (<[(lit "b", lit "c") := 0]> (<[(lit "a", lit "b") := 1]> ∅)) m (-1) (-1) 0 (-1)
        true false false false false false true false
  | _ => mk_vocab ty ∅ [] [] [] ∅ 0 0 0 0 0 false false false false false false false false
  end.

Lemma toy_vocab_ok ty : ty <> LLAMA_VOCAB_TYPE_NONE -> vocab_ok (toy_vocab ty).
Proof.
  intros Hty. assert (Hload : exists ids tokens m, load_tokens toy_words (Some toy_scores) (Some toy_types) = Ok (ids, tokens, m) /\ length tokens = 10%nat).
  { vm_compute. by eexists _, _, _. }
  destruct Hload as (ids & tokens & m & E & Hl). unfold toy_vocab. rewrite E.
  destruct (load_tokens_ok toy_words (Some toy_scores) (Some toy_types)) as [_ Hok];
    [by intros s [= <-]; vm_compute; lia|by intros s [= <-]; vm_compute; lia|].
  destruct (Hok _ _ _ E) as (_ & _ & T & _). constructor; [done|done|]. unfold n_tokens. cbn [v_id_to_token]. rewrite Hl. lia.
Qed.
