(* ===== verification/VocabMerge.v ===== *)
(** The two tokenizers of src/llama/llama.cpp/src/llama-vocab.cpp that merge pairs of
    neighbouring symbols: [llm_tokenizer_spm_session], by the score of the token that two
    symbols make together, and [llm_tokenizer_bpe_session], by the rank of the pair.  Symbols
    form a doubly linked list inside a vector; candidates wait in a priority queue and may be
    outdated when they are taken out.  A pointer into the text is an offset. *)

From S2P Require Import Prelude Unicode UnicodeSplit UnicodeRegex Vocab.
Local Open Scope Z_scope.

(** ** std::priority_queue
    What the standard says of [std::push_heap] and [std::pop_heap]: a queue keeps its
    elements, and gives one that is not less than any other. *)

Definition strict_weak {A} (less : A -> A -> bool) : Prop :=
  (forall a, less a a = false) /\
  (forall a b c, less a b = true -> less b c = true -> less a c = true) /\
  (forall a b c, less a b = false -> less b a = false -> less b c = false -> less c b = false ->
     less a c = false /\ less c a = false).

Class PriorityQueue := {
  pq_heap {A} : (A -> A -> bool) -> list A -> Prop;
  pq_push {A} : (A -> A -> bool) -> list A -> A -> list A;
  pq_pop {A} : (A -> A -> bool) -> list A -> option (A * list A);
  pq_heap_nil {A} (less : A -> A -> bool) : pq_heap less [];
  pq_push_ok {A} (less : A -> A -> bool) q x : strict_weak less -> pq_heap less q ->
    pq_heap less (pq_push less q x) /\ pq_push less q x ≡ₚ x :: q;
  pq_pop_none {A} (less : A -> A -> bool) q : pq_pop less q = None <-> q = [];
  pq_pop_ok {A} (less : A -> A -> bool) q x q' : strict_weak less -> pq_heap less q -> pq_pop less q = Some (x, q') ->
    pq_heap less q' /\ q ≡ₚ x :: q' /\ Forall (fun y => less x y = false) q'
}.

(** ** Symbols *)

Record llm_symbol := mk_sym { sym_prev : Z; sym_next : Z; sym_text : nat; sym_n : nat }.
Definition sym_set_n (s : llm_symbol) n := mk_sym (sym_prev s) (sym_next s) (sym_text s) n.
Definition sym_set_next (s : llm_symbol) i := mk_sym (sym_prev s) i (sym_text s) (sym_n s).
Definition sym_set_prev (s : llm_symbol) i := mk_sym i (sym_next s) (sym_text s) (sym_n s).

(** [std::string(p, n)] for a pointer into [text]. *)
Definition sub_text (text : list Z) (offset n : nat) : res (list Z) :=
  if (offset + n <=? length text)%nat then Ok (take n (drop offset text)) else Fault OutOfRange.

(** The UTF-8 characters of a text as linked symbols. *)
Definition split_body (text : list Z) (st : Z * nat * list llm_symbol) : res (Z * nat * list llm_symbol + Z * nat * list llm_symbol) :=
  let '(index, offs, symbols) := st in
  if (offs <? length text)%nat then
    c ← rd text offs;
    let n := Nat.min (unicode_len_utf8 c) (length text - offs) in
    let offs' := (offs + n)%nat in
    let sym := mk_sym (index - 1) (if (offs' =? length text)%nat then -1 else index + 1) offs n in
    Ok (inl (index + 1, offs', symbols ++ [sym]))
  else Ok (inr st).
Definition split_symbols (text : list Z) : res (list llm_symbol) :=
  r ← loop (S (length text)) (split_body text) (0, 0%nat, []); Ok r.2.

(** The right symbol joins the left one and leaves the chain. *)
Definition merge_symbols (symbols : list llm_symbol) (left right : Z) : res (list llm_symbol) :=
  l ← idx symbols left;
  r ← idx symbols right;
  s1 ← set_idx symbols left (sym_set_n l (sym_n l + sym_n r)%nat);
  r1 ← idx s1 right;
  s2 ← set_idx s1 right (sym_set_n r1 0%nat);
  l2 ← idx s2 left;
  r2 ← idx s2 right;
  s3 ← set_idx s2 left (sym_set_next l2 (sym_next r2));
  if 0 <=? sym_next r2 then n ← idx s3 (sym_next r2); set_idx s3 (sym_next r2) (sym_set_prev n left)
  else Ok s3.

(** A candidate: its symbols, their text together, and its score or rank.  (Of the text the
    SPM code keeps the size, the BPE code the text and the size.) *)
Record llm_bigram (K : Type) := mk_bigram { bg_left : Z; bg_right : Z; bg_text : list Z; bg_key : K }.
Arguments mk_bigram {K} _ _ _ _.
Arguments bg_left {K} _.
Arguments bg_right {K} _.
Arguments bg_text {K} _.
Arguments bg_key {K} _.

(** ** SPM *)

Section spm.
Context {F : Type} `{FloatOps F} `{PriorityQueue} (v : llama_vocab F).

Definition spm_less (l r : llm_bigram F) : bool :=
  f_lt (bg_key l) (bg_key r) || (f_eq (bg_key l) (bg_key r) && (bg_left r <? bg_left l)).

Record spm_session := mk_spm {
  spm_symbols : list llm_symbol;
  spm_queue : list (llm_bigram F);
  spm_rev_merge : gmap (list Z) (Z * Z)
}.

Definition spm_try_add_bigram (text : list Z) (s : spm_session) (left right : Z) : res spm_session :=
  if (left =? -1) || (right =? -1) then Ok s
  else
    l ← idx (spm_symbols s) left;
    r ← idx (spm_symbols s) right;
    t ← sub_text text (sym_text l) (sym_n l + sym_n r);
    token ← text_to_token v t;
    if token =? LLAMA_TOKEN_NULL then Ok s
    else if n_tokens v <=? u32 token then Ok s
    else
      tok_data ← get_token_data v token;
      Ok (mk_spm (spm_symbols s)
            (pq_push spm_less (spm_queue s) (mk_bigram left right t (td_score tok_data)))
            (<[t := (left, right)]> (spm_rev_merge s))).

Definition spm_merge_body (text : list Z) (s : spm_session) : res (spm_session + spm_session) :=
  match pq_pop spm_less (spm_queue s) with
  | None => Ok (inr s)
  | Some (bigram, queue) =>
      let s1 := mk_spm (spm_symbols s) queue (spm_rev_merge s) in
      left_sym ← idx (spm_symbols s1) (bg_left bigram);
      right_sym ← idx (spm_symbols s1) (bg_right bigram);
      if (sym_n left_sym =? 0)%nat || (sym_n right_sym =? 0)%nat ||
         negb (sym_n left_sym + sym_n right_sym =? length (bg_text bigram))%nat
      then Ok (inl s1)
      else
        symbols ← merge_symbols (spm_symbols s1) (bg_left bigram) (bg_right bigram);
        let s2 := mk_spm symbols (spm_queue s1) (spm_rev_merge s1) in
        l ← idx symbols (bg_left bigram);
        s3 ← spm_try_add_bigram text s2 (sym_prev l) (bg_left bigram);
        l3 ← idx (spm_symbols s3) (bg_left bigram);
        s4 ← spm_try_add_bigram text s3 (bg_left bigram) (sym_next l3);
        Ok (inl s4)
  end.

(** Tokens of a symbol, appended to [output]. *)
Fixpoint spm_resegment (fuel : nat) (text : list Z) (s : spm_session) (symbol : llm_symbol) (output : list Z) : res (list Z) :=
  match fuel with
  | O => Fault OutOfFuel
  | S fuel =>
      t ← sub_text text (sym_text symbol) (sym_n symbol);
      token ← text_to_token v t;
      if negb (token =? LLAMA_TOKEN_NULL) then Ok (output ++ [token])
      else
        match spm_rev_merge s !! t with
        | None => foldM (fun output c => id ← byte_to_token v c; Ok (output ++ [id])) output t
        | Some (first, second) =>
            a ← idx (spm_symbols s) first;
            output1 ← spm_resegment fuel text s a output;
            b ← idx (spm_symbols s) second;
            spm_resegment fuel text s b output1
        end
  end.

(** The loop along the chain. *)
Definition spm_output_body (text : list Z) (s : spm_session) (st : Z * list Z) : res (Z * list Z + Z * list Z) :=
  let '(i, output) := st in
  if i =? -1 then Ok (inr st)
  else
    symbol ← idx (spm_symbols s) i;
    output1 ← spm_resegment (S (length (spm_symbols s))) text s symbol output;
    Ok (inl (sym_next symbol, output1)).

Definition spm_seed (text : list Z) (symbols : list llm_symbol) : res spm_session :=
  foldM (fun s i => spm_try_add_bigram text s (Z.of_nat i) (Z.of_nat i + 1)) (mk_spm symbols [] ∅) (seq 0 (length symbols - 1)).

Definition spm_merge (text : list Z) (s : spm_session) : res spm_session :=
  loop (S (length (spm_queue s) + 2 * length (spm_symbols s))) (spm_merge_body text) s.

Definition spm_tokenize (text output : list Z) : res (list Z) :=
  symbols ← split_symbols text;
  s0 ← spm_seed text symbols;
  s ← spm_merge text s0;
  r ← loop (S (S (length symbols))) (spm_output_body text s) (0, output);
  Ok r.2.
End spm.

(** ** BPE *)

Section bpe.
Context {F : Type} `{PriorityQueue} (v : llama_vocab F) (ud : unicode_data) (en : regex_engine) (regex_exprs : list (list Z)).

Definition bpe_less (l r : llm_bigram Z) : bool :=
  (bg_key r <? bg_key l) || ((bg_key l =? bg_key r) && (bg_left r <? bg_left l)).

Definition bpe_append_bos (output : list Z) : res (list Z) :=
  if v_add_bos v then assert_ (negb (v_special_bos_id v =? LLAMA_TOKEN_NULL)) ;; Ok (output ++ [v_special_bos_id v])
  else Ok output.
Definition bpe_append_eos (output : list Z) : res (list Z) :=
  if v_add_eos v then assert_ (negb (v_special_eos_id v =? LLAMA_TOKEN_NULL)) ;; Ok (output ++ [v_special_eos_id v])
  else Ok output.

(** [symbols] and [work_queue] while a word is processed. *)
Record bpe_session := mk_bpe { bpe_symbols : list llm_symbol; bpe_queue : list (llm_bigram Z) }.

Definition bpe_add_new_bigram (word : list Z) (s : bpe_session) (left right : Z) : res bpe_session :=
  if (left =? -1) || (right =? -1) then Ok s
  else
    l ← idx (bpe_symbols s) left;
    r ← idx (bpe_symbols s) right;
    left_token ← sub_text word (sym_text l) (sym_n l);
    right_token ← sub_text word (sym_text r) (sym_n r);
    rank_found ← find_bpe_rank v left_token right_token;
    if rank_found <? 0 then Ok s
    else
      Ok (mk_bpe (bpe_symbols s)
            (pq_push bpe_less (bpe_queue s) (mk_bigram left right (left_token ++ right_token) rank_found))).

Definition bpe_merge_body (word : list Z) (s : bpe_session) : res (bpe_session + bpe_session) :=
  match pq_pop bpe_less (bpe_queue s) with
  | None => Ok (inr s)
  | Some (bigram, queue) =>
      let s1 := mk_bpe (bpe_symbols s) queue in
      left_symbol ← idx (bpe_symbols s1) (bg_left bigram);
      right_symbol ← idx (bpe_symbols s1) (bg_right bigram);
      if (sym_n left_symbol =? 0)%nat || (sym_n right_symbol =? 0)%nat then Ok (inl s1)
      else
        left_token ← sub_text word (sym_text left_symbol) (sym_n left_symbol);
        right_token ← sub_text word (sym_text right_symbol) (sym_n right_symbol);
        if bool_decide (left_token ++ right_token <> bg_text bigram) then Ok (inl s1)
        else
          symbols ← merge_symbols (bpe_symbols s1) (bg_left bigram) (bg_right bigram);
          let s2 := mk_bpe symbols (bpe_queue s1) in
          l ← idx symbols (bg_left bigram);
          s3 ← bpe_add_new_bigram word s2 (sym_prev l) (bg_left bigram);
          l3 ← idx (bpe_symbols s3) (bg_left bigram);
          s4 ← bpe_add_new_bigram word s3 (bg_left bigram) (sym_next l3);
          Ok (inl s4)
  end.

(** The symbols of a word when it is done. *)
Definition bpe_word_symbols (word : list Z) : res (list llm_symbol) :=
  t ← (if v_ignore_merges v then text_to_token v word else Ok LLAMA_TOKEN_NULL);
  if v_ignore_merges v && negb (t =? LLAMA_TOKEN_NULL) then Ok [mk_sym (-1) (-1) 0 (length word)]
  else split_symbols word.
Definition bpe_seed (word : list Z) (symbols : list llm_symbol) : res bpe_session :=
  foldM (fun s i => bpe_add_new_bigram word s (Z.of_nat i) (Z.of_nat i + 1)) (mk_bpe symbols []) (seq 0 (length symbols - 1)).
Definition bpe_word (word : list Z) : res (list llm_symbol) :=
  symbols ← bpe_word_symbols word;
  s0 ← bpe_seed word symbols;
  s ← loop (S (length (bpe_queue s0) + 2 * length (bpe_symbols s0))) (bpe_merge_body word) s0;
  Ok (bpe_symbols s).

(** [symbols_final], where every symbol points into its own word. *)
Record final_symbol := mk_final { fin_prev : Z; fin_next : Z; fin_str : list Z }.
Definition fin_set_next (s : final_symbol) i := mk_final (fin_prev s) i (fin_str s).

Definition bpe_finish (word : list Z) (st : list final_symbol * Z) (sym : llm_symbol) : res (list final_symbol * Z) :=
  let '(final, final_prev_index) := st in
  if (0 <? sym_n sym)%nat then
    str ← sub_text word (sym_text sym) (sym_n sym);
    final1 ← (if negb (final_prev_index =? -1) then
                p ← idx final final_prev_index;
                set_idx final final_prev_index (fin_set_next p (Z.of_nat (length final)))
              else Ok final);
    Ok (final1 ++ [mk_final final_prev_index (-1) str], Z.of_nat (length final1))
  else Ok st.

(** The token of a symbol, or the tokens of its bytes, as far as there are any. *)
Definition bpe_emit (output str : list Z) : res (list Z) :=
  token ← text_to_token v str;
  if token =? LLAMA_TOKEN_NULL then
    foldM (fun output c =>
      t ← text_to_token v [c];
      Ok (if negb (t =? LLAMA_TOKEN_NULL) then output ++ [t] else output)) output str
  else Ok (output ++ [token]).

Definition bpe_output_body (final : list final_symbol) (st : Z * list Z) : res (Z * list Z + Z * list Z) :=
  let '(i, output) := st in
  if i =? -1 then Ok (inr st)
  else
    symbol ← idx final i;
    output1 ← (if (length (fin_str symbol) =? 0)%nat then Ok output else bpe_emit output (fin_str symbol));
    Ok (inl (fin_next symbol, output1)).

Definition bpe_tokenize (text output : list Z) : res (list Z) :=
  word_collection ← unicode_regex_split ud en text regex_exprs;
  r ← foldM (fun st word => symbols ← bpe_word word; foldM (bpe_finish word) st symbols) ([], -1) word_collection;
  let final := r.1 in
  if bool_decide (final = []) then Ok output
  else
    o ← loop (S (S (length final))) (bpe_output_body final) (0, output);
    Ok o.2.
End bpe.
