(* ===== verification/VocabMergeOk.v ===== *)
(** Correctness of the merging tokenizers of VocabMerge.v.  Both implement the same reference:
    starting from the characters of a text, merge the best pair of neighbours (the higher
    score, or the lower rank; among equals the leftmost) until no pair can be merged. *)

From stdpp Require Import sorting.
From S2P Require Import Prelude Unicode Vocab VocabMerge.
Local Open Scope Z_scope.

(** ** The reference *)

Section reference.
Context {K : Type} (key : list Z -> list Z -> option K) (worse same : K -> K -> bool).

(** Pieces [a] and [b] behind [l1] are the best pair of [l1 ++ a :: b :: l2]. *)
Definition best_pair (l1 : list (list Z)) (a b : list Z) (l2 : list (list Z)) : Prop :=
  exists k, key a b = Some k /\
  forall l1' a' b' l2' k', l1 ++ a :: b :: l2 = l1' ++ a' :: b' :: l2' -> key a' b' = Some k' ->
    worse k k' = false /\ (same k k' = true -> (length l1 <= length l1')%nat).

Inductive greedy_step : list (list Z) -> list (list Z) -> Prop :=
  | merge_best l1 a b l2 : best_pair l1 a b l2 -> greedy_step (l1 ++ a :: b :: l2) (l1 ++ (a ++ b) :: l2).

Definition stuck (ps : list (list Z)) : Prop := forall l1 a b l2, ps = l1 ++ a :: b :: l2 -> key a b = None.
Definition greedy (ps qs : list (list Z)) : Prop := rtc greedy_step ps qs /\ stuck qs.

Lemma greedy_step_concat ps qs : greedy_step ps qs -> concat qs = concat ps.
Proof. intros [l1 a b l2 _]. rewrite !concat_app. cbn. by rewrite <- app_assoc. Qed.
Lemma greedy_length ps qs : greedy ps qs -> (length qs <= length ps)%nat.
Proof.
  intros [R _]. induction R as [|p q r [l1 a b l2 _] _ IH]; [done|]. rewrite !length_app in *. cbn [length] in *. lia.
Qed.
Lemma greedy_concat ps qs : greedy ps qs -> concat qs = concat ps.
Proof. intros [R _]. induction R as [|p q r S _ IH]; [done|]. by rewrite IH, (greedy_step_concat _ _ S). Qed.
End reference.

(** ** The chain of symbols *)

Section chain.
Context (text : list Z).

Definition piece (s : llm_symbol) : list Z := take (sym_n s) (drop (sym_text s) text).

Definition first_of (L : list nat) (nxt : Z) : Z := match L with [] => nxt | j :: _ => Z.of_nat j end.
Definition last_of (L : list nat) (prev : Z) : Z := match list.last L with Some i => Z.of_nat i | None => prev end.

(** The symbols with indices [L] follow each other, from offset [off] to offset [stop]. *)
Fixpoint linked (syms : list llm_symbol) (prev : Z) (off : nat) (L : list nat) (nxt : Z) (stop : nat) : Prop :=
  match L with
  | [] => off = stop
  | i :: L => exists s, syms !! i = Some s /\ sym_prev s = prev /\ sym_text s = off /\ (0 < sym_n s)%nat /\
      sym_next s = first_of L nxt /\ linked syms (Z.of_nat i) (off + sym_n s) L nxt stop
  end.

Lemma linked_app syms prev off L1 L2 nxt stop :
  linked syms prev off (L1 ++ L2) nxt stop <->
  exists mid, linked syms prev off L1 (first_of L2 nxt) mid /\ linked syms (last_of L1 prev) mid L2 nxt stop.
Proof.
  revert prev off. induction L1 as [|i L1 IH]; intros prev off; cbn [app linked].
  - unfold last_of. cbn. split; [intros H; by exists off|by intros (? & <- & H)].
  - assert (E : first_of (L1 ++ L2) nxt = first_of L1 (first_of L2 nxt)) by (by destruct L1).
    assert (E' : last_of (i :: L1) prev = last_of L1 (Z.of_nat i)).
    { unfold last_of. destruct L1 as [|j L1]; [done|]. cbn. destruct (list.last (j :: L1)) eqn:El; [done|]. by apply last_None in El. }
    rewrite E, E'. split.
    + intros (s & H1 & H2 & H3 & H4 & H5 & (mid & H6 & H7)%IH). exists mid. split; [|done]. by exists s.
    + intros (mid & (s & H1 & H2 & H3 & H4 & H5 & H6) & H7). exists s. do 5 (split; [done|]). apply IH. by exists mid.
Qed.

Lemma linked_ext syms syms' prev off L nxt stop : (forall i, i ∈ L -> syms' !! i = syms !! i) ->
  linked syms prev off L nxt stop -> linked syms' prev off L nxt stop.
Proof.
  revert prev off. induction L as [|i L IH]; intros prev off He; cbn; [done|]. intros (s & H1 & H2 & H3 & H4 & H5 & H6).
  exists s. rewrite He by (by left). do 5 (split; [done|]). apply IH; [|done]. intros k Hk. apply He. by right.
Qed.

Lemma linked_lookup syms prev off L nxt stop i : linked syms prev off L nxt stop -> i ∈ L ->
  exists s, syms !! i = Some s /\ (0 < sym_n s)%nat /\ (off <= sym_text s)%nat /\ (sym_text s + sym_n s <= stop)%nat.
Proof.
  revert prev off. induction L as [|j L IH]; intros prev off; cbn [linked]; [intros _ []%elem_of_nil|].
  intros (s & H1 & H2 & H3 & H4 & H5 & H6).
  assert (G : forall L prev off, linked syms prev off L nxt stop -> (off <= stop)%nat).
  { intros L'. induction L' as [|k L' IHL]; intros p o; cbn; [lia|]. intros (? & ? & ? & ? & ? & ? & ?%IHL). lia. }
  pose proof (G _ _ _ H6). intros [->|Hi]%elem_of_cons.
  - exists s. split; [done|]. lia.
  - destruct (IH _ _ H6 Hi) as (s' & ? & ? & ? & ?). exists s'. split; [done|]. lia.
Qed.

(** The live symbols are [L], in order, the first one among them; they cover the text; the
    others are empty. *)
Record chain (syms : list llm_symbol) (L : list nat) : Prop := {
  ch_linked : linked syms (-1) 0 L (-1) (length text);
  ch_sorted : StronglySorted lt L;
  ch_dead : forall i s, syms !! i = Some s -> i ∉ L -> sym_n s = 0%nat;
  ch_head : forall i L', L = i :: L' -> i = 0%nat
}.

Definition pieces_of (syms : list llm_symbol) (L : list nat) : list (list Z) :=
  (fun i => match syms !! i with Some s => piece s | None => [] end) <$> L.

Lemma piece_length s : (sym_text s + sym_n s <= length text)%nat -> length (piece s) = sym_n s.
Proof. intros H. unfold piece. rewrite length_take, length_drop. lia. Qed.

Lemma pieces_concat_from syms prev off L nxt : linked syms prev off L nxt (length text) ->
  concat (pieces_of syms L) = drop off text.
Proof.
  revert prev off. induction L as [|i L IH]; intros prev off; cbn; [intros ->; by rewrite drop_ge|].
  intros (s & H1 & H2 & H3 & H4 & H5 & H6). rewrite H1. setoid_rewrite (IH _ _ H6). unfold piece. rewrite H3.
  rewrite <- drop_drop. apply take_drop.
Qed.
Lemma chain_concat syms L : chain syms L -> concat (pieces_of syms L) = text.
Proof. intros C. by rewrite (pieces_concat_from _ _ _ _ _ (ch_linked _ _ C)). Qed.

Lemma chain_live syms L i : chain syms L -> i ∈ L ->
  exists s, syms !! i = Some s /\ (0 < sym_n s)%nat /\ (sym_text s + sym_n s <= length text)%nat.
Proof. intros C Hi. destruct (linked_lookup _ _ _ _ _ _ _ (ch_linked _ _ C) Hi) as (s & ? & ? & ? & ?). by exists s. Qed.

Lemma chain_alive syms L i s : chain syms L -> syms !! i = Some s -> sym_n s <> 0%nat -> i ∈ L.
Proof. intros C Hs Hn. destruct (decide (i ∈ L)); [done|]. by destruct Hn; apply (ch_dead _ _ C i). Qed.

(** Two neighbours in [L]. *)
Lemma chain_pair syms L1 i j L2 : chain syms (L1 ++ i :: j :: L2) ->
  exists si sj, syms !! i = Some si /\ syms !! j = Some sj /\ sym_next si = Z.of_nat j /\ sym_prev sj = Z.of_nat i /\
    sym_text sj = (sym_text si + sym_n si)%nat /\ (0 < sym_n si)%nat /\ (0 < sym_n sj)%nat /\
    sym_prev si = last_of L1 (-1) /\ sym_next sj = first_of L2 (-1) /\ (sym_text sj + sym_n sj <= length text)%nat.
Proof.
  intros C. pose proof (ch_linked _ _ C) as Hl. apply linked_app in Hl as (mid & H1 & si & H2 & H3 & H4 & H5 & H6 & sj & H7 & H8 & H9 & H10 & H11 & H12).
  destruct (chain_live syms _ j C) as (sj' & E & ? & ?); [rewrite elem_of_app, !elem_of_cons; tauto|].
  rewrite H7 in E. injection E as <-. exists si, sj. cbn in H6. rewrite H4. split_and!; try done; lia.
Qed.

Lemma sorted_mid L1 i j L2 : StronglySorted lt (L1 ++ i :: j :: L2) ->
  StronglySorted lt (L1 ++ i :: L2) /\ i <> j /\ (forall k, k ∈ L1 -> (k < i)%nat) /\ (i < j)%nat /\ (forall k, k ∈ L2 -> (j < k)%nat).
Proof.
  intros Hs. apply StronglySorted_app in Hs as (H3 & H1 & H2).
  apply StronglySorted_inv in H2 as [H2 F2]. apply StronglySorted_inv in H2 as [H2 F3].
  assert (i < j)%nat by (by inversion F2). rewrite list.Forall_forall in F3.
  split_and!; [|lia| |done|done].
  - apply StronglySorted_app. split_and!; [|done|].
    + intros a b Ha Hb. apply H3; [done|]. rewrite !elem_of_cons in *. tauto.
    + constructor; [done|]. apply list.Forall_forall. intros k Hk. specialize (F3 k Hk). lia.
  - intros k Hk. apply H3; [done|]. by left.
Qed.
(** What [merge_symbols] writes. *)
Lemma merge_symbols_run syms L1 i j L2 si sj : chain syms (L1 ++ i :: j :: L2) -> syms !! i = Some si -> syms !! j = Some sj ->
  exists syms', merge_symbols syms (Z.of_nat i) (Z.of_nat j) = Ok syms' /\ length syms' = length syms /\
    syms' !! i = Some (mk_sym (sym_prev si) (first_of L2 (-1)) (sym_text si) (sym_n si + sym_n sj)) /\
    syms' !! j = Some (sym_set_n sj 0) /\
    forall k, k <> i -> k <> j ->
      syms' !! k = if decide (head L2 = Some k) then flip sym_set_prev (Z.of_nat i) <$> syms !! k else syms !! k.
Proof.
  intros C Hi Hj. destruct (chain_pair _ _ _ _ _ C) as (si' & sj' & Ei & Ej & _ & _ & _ & _ & _ & _ & Hn & _).
  rewrite Hi in Ei. injection Ei as <-. rewrite Hj in Ej. injection Ej as <-.
  destruct (sorted_mid _ _ _ _ (ch_sorted _ _ C)) as (_ & Hij & _ & Hlt & HL2).
  pose proof (lookup_lt_Some _ _ _ Hi) as Li. pose proof (lookup_lt_Some _ _ _ Hj) as Lj.
  unfold merge_symbols, idx, set_idx. rewrite !(proj2 (Z.ltb_ge _ 0)) by lia. rewrite !Nat2Z.id.
  rewrite (rd_ok _ _ _ Hi), bind_ok, (rd_ok _ _ _ Hj), bind_ok, wr_ok, bind_ok by done.
  rewrite (rd_ok _ _ sj), bind_ok by (by rewrite list_lookup_insert_ne).
  rewrite wr_ok, bind_ok by (by rewrite length_insert).
  rewrite (rd_ok _ i (sym_set_n si (sym_n si + sym_n sj))), bind_ok by (rewrite list_lookup_insert_ne by done; by apply list_lookup_insert_eq).
  rewrite (rd_ok _ j (sym_set_n sj 0)), bind_ok by (apply list_lookup_insert_eq; by rewrite length_insert).
  rewrite wr_ok, bind_ok by (by rewrite !length_insert). cbn [sym_set_n sym_next sym_prev sym_text sym_n sym_set_next].
  rewrite Hn. destruct L2 as [|h L2]; cbn [first_of head].
  - cbn. eexists. split; [done|]. rewrite !length_insert. split; [done|].
    split; [apply list_lookup_insert_eq; by rewrite !length_insert|].
    split; [rewrite list_lookup_insert_ne by done; apply list_lookup_insert_eq; by rewrite length_insert|].
    intros k Hki Hkj. by rewrite !list_lookup_insert_ne.
  - rewrite (proj2 (Z.leb_le 0 (Z.of_nat h))), (proj2 (Z.ltb_ge (Z.of_nat h) 0)), Nat2Z.id by lia.
    assert (j < h)%nat by (apply HL2; by left).
    destruct (chain_live _ _ h C) as (sh & Hh & _); [rewrite elem_of_app, !elem_of_cons; tauto|].
    pose proof (lookup_lt_Some _ _ _ Hh) as Lh.
    rewrite (rd_ok _ h sh), bind_ok by (by rewrite !list_lookup_insert_ne by lia). rewrite wr_ok by (by rewrite !length_insert).
    eexists. split; [done|]. rewrite !length_insert. split; [done|].
    split; [rewrite list_lookup_insert_ne by lia; apply list_lookup_insert_eq; by rewrite !length_insert|].
    split; [rewrite !list_lookup_insert_ne by lia; apply list_lookup_insert_eq; by rewrite length_insert|].
    intros k Hki Hkj. destruct (decide (h = k)) as [->|Hk].
    + rewrite decide_True by done. rewrite list_lookup_insert_eq by (by rewrite !length_insert). by rewrite Hh.
    + rewrite decide_False by congruence. by rewrite !list_lookup_insert_ne.
Qed.

(** Two vectors of symbols that differ in the links only, outside of [i] and [j]. *)
Definition same_texts (syms syms' : list llm_symbol) (i j : nat) : Prop :=
  forall k s, syms !! k = Some s -> exists s', syms' !! k = Some s' /\ sym_text s' = sym_text s /\
    (k <> i -> k <> j -> sym_n s' = sym_n s).

Lemma merge_symbols_ok syms L1 i j L2 si sj : chain syms (L1 ++ i :: j :: L2) -> syms !! i = Some si -> syms !! j = Some sj ->
  exists syms', merge_symbols syms (Z.of_nat i) (Z.of_nat j) = Ok syms' /\ length syms' = length syms /\
    chain syms' (L1 ++ i :: L2) /\ same_texts syms syms' i j /\
    exists si', syms' !! i = Some si' /\ piece si' = piece si ++ piece sj.
Proof.
  intros C Hi Hj. destruct (merge_symbols_run _ _ _ _ _ _ _ C Hi Hj) as (syms' & E & Hlen & Ei & Ej & Eo).
  exists syms'. split; [done|]. split; [done|].
  destruct (sorted_mid _ _ _ _ (ch_sorted _ _ C)) as (Hs & Hij & HL1 & Hlt & HL2).
  assert (ST : same_texts syms syms' i j).
  { intros k s Hk. destruct (decide (k = i)) as [->|Hki].
    - rewrite Hi in Hk. injection Hk as <-. eexists. split; [exact Ei|done].
    - destruct (decide (k = j)) as [->|Hkj].
      + rewrite Hj in Hk. injection Hk as <-. eexists. split; [exact Ej|done].
      + rewrite Eo by done. destruct (decide _); rewrite Hk; cbn; eexists; (split; [done|]); done. }
  pose proof (ch_linked _ _ C) as Hl. apply linked_app in Hl as (mid & H1 & si' & H2 & H3 & H4 & H5 & H6 & sj' & H7 & H8 & H9 & H10 & H11 & H12).
  rewrite Hi in H2. injection H2 as <-. rewrite Hj in H7. injection H7 as <-.
  split; [|split; [done|]].
  - constructor; [|done| |].
    + apply linked_app. exists mid. split.
      * eapply linked_ext; [|exact H1]. intros k Hk. rewrite Eo by (specialize (HL1 k Hk); lia).
        rewrite decide_False; [done|]. intros Eh. destruct L2 as [|h L2]; [done|]. injection Eh as ->.
        specialize (HL1 k Hk). specialize (HL2 k ltac:(by left)). lia.
      * cbn [linked]. eexists. split; [exact Ei|]. cbn [sym_prev sym_next sym_text sym_n].
        do 2 (split; [done|]). split; [lia|]. split; [done|]. rewrite Nat.add_assoc.
        destruct L2 as [|h L2]; [done|]. cbn [linked] in H12 |- *. destruct H12 as (sh & Hh & H13 & H14 & H15 & H16 & H17).
        assert (j < h)%nat by (apply HL2; by left).
        exists (sym_set_prev sh (Z.of_nat i)). split; [rewrite Eo by lia; rewrite decide_True by done; by rewrite Hh|].
        do 2 (split; [done|]). do 2 (split; [done|]). eapply linked_ext; [|exact H17]. intros k Hk.
        assert (Hs2 : (h < k)%nat).
        { apply StronglySorted_app in Hs as (_ & _ & Hs). apply StronglySorted_inv in Hs as [Hs _]. apply StronglySorted_inv in Hs as [_ Hs].
          by apply (proj1 (list.Forall_forall _ _) Hs). }
        rewrite Eo by lia. rewrite decide_False; [done|]. cbn. intros [= ->]. lia.
    + intros k s Hk Hn. destruct (decide (k = i)) as [->|Hki]; [destruct Hn; rewrite elem_of_app, elem_of_cons; tauto|].
      destruct (decide (k = j)) as [->|Hkj]; [rewrite Ej in Hk; by injection Hk as <-|].
      destruct (syms !! k) as [s0|] eqn:E0.
      * destruct (ST k s0 E0) as (s' & E' & _ & Hn'). rewrite Hk in E'. injection E' as <-. rewrite Hn' by done.
        apply (ch_dead _ _ C k); [done|]. rewrite elem_of_app, !elem_of_cons in *. tauto.
      * apply lookup_ge_None in E0. apply lookup_lt_Some in Hk. lia.
    + intros k L' E'. destruct L1 as [|a L1]; cbn in E'; injection E' as -> _; by eapply (ch_head _ _ C).
  - eexists. split; [exact Ei|]. unfold piece. cbn [sym_n sym_text]. rewrite H9.
    rewrite <- drop_drop. rewrite H4. set (d := drop mid text). rewrite <- (firstn_skipn (sym_n si) d) at 1.
    assert (sym_n si <= length d)%nat.
    { destruct (chain_live _ _ i C) as (s & E0 & _ & Hle); [rewrite elem_of_app, elem_of_cons; tauto|]. rewrite Hi in E0. injection E0 as <-.
      unfold d. rewrite length_drop. lia. }
    rewrite take_app_ge by (rewrite length_take; lia). rewrite length_take. f_equal. f_equal. lia.
Qed.

Lemma pieces_same syms syms' i j L : same_texts syms syms' i j -> (forall k, k ∈ L -> k <> i /\ k <> j /\ is_Some (syms !! k)) ->
  pieces_of syms' L = pieces_of syms L.
Proof.
  intros ST HL. unfold pieces_of. apply list_fmap_ext. intros n k Hk. apply list_elem_of_lookup_2 in Hk.
  destruct (HL k Hk) as (Hi & Hj & s & Es). destruct (ST k s Es) as (s' & Es' & Ht & Hn). rewrite Es, Es'. unfold piece. by rewrite Ht, Hn.
Qed.

Lemma merge_pieces syms syms' L1 i j L2 si sj si' : chain syms (L1 ++ i :: j :: L2) -> same_texts syms syms' i j ->
  syms !! i = Some si -> syms !! j = Some sj -> syms' !! i = Some si' -> piece si' = piece si ++ piece sj ->
  pieces_of syms (L1 ++ i :: j :: L2) = pieces_of syms L1 ++ piece si :: piece sj :: pieces_of syms L2 /\
  pieces_of syms' (L1 ++ i :: L2) = pieces_of syms L1 ++ (piece si ++ piece sj) :: pieces_of syms L2.
Proof.
  intros C ST Hi Hj Hi' Hp. destruct (sorted_mid _ _ _ _ (ch_sorted _ _ C)) as (Hs & Hij & HL1 & Hlt & HL2).
  split; unfold pieces_of; rewrite fmap_app, ?fmap_cons; [by rewrite Hi, Hj|].
  rewrite Hi', Hp. f_equal; [|f_equal]; apply (pieces_same syms syms' i j); try done; intros k Hk.
  - specialize (HL1 k Hk). split_and!; [lia..|]. destruct (chain_live _ _ k C) as (s & Es & _); [rewrite elem_of_app; tauto|by exists s].
  - specialize (HL2 k Hk). split_and!; [lia..|]. destruct (chain_live _ _ k C) as (s & Es & _); [rewrite elem_of_app, !elem_of_cons; tauto|by exists s].
Qed.
End chain.

(** A list without duplicates splits at an element in one way. *)
Lemma NoDup_mid_inj {A} (L1 L2 M1 M2 : list A) i : NoDup (L1 ++ i :: L2) -> L1 ++ i :: L2 = M1 ++ i :: M2 -> L1 = M1 /\ L2 = M2.
Proof.
  revert M1. induction L1 as [|x L1 IH]; intros M1 Hn E; destruct M1 as [|y M1]; cbn in *.
  - by injection E as ->.
  - injection E as -> ->. apply list.NoDup_cons in Hn as [[] _]. rewrite elem_of_app, elem_of_cons. tauto.
  - injection E as -> <-. apply list.NoDup_cons in Hn as [[] _]. rewrite elem_of_app, elem_of_cons. tauto.
  - injection E as -> E. apply list.NoDup_cons in Hn as [_ Hn]. by destruct (IH M1 Hn E) as [-> ->].
Qed.

Lemma seq_increasing a n : StronglySorted lt (seq a n).
Proof.
  revert a. induction n as [|n IH]; intros a; cbn; constructor; [apply IH|]. apply list.Forall_forall. intros x ?%elem_of_seq. lia.
Qed.

Lemma StronglySorted_NoDup_lt (L : list nat) : StronglySorted lt L -> NoDup L.
Proof.
  induction 1 as [|x L _ IH F]; constructor; [|done]. rewrite list.Forall_forall in F. intros Hx. specialize (F x Hx). lia.
Qed.

(** ** The queue *)

(** An order of scores or ranks: [worse] is strict and weak, [same] is its equivalence. *)
Record key_order {K} (worse same : K -> K -> bool) : Prop := {
  ko_irrefl a : worse a a = false;
  ko_trans a b c : worse a b = true -> worse b c = true -> worse a c = true;
  ko_same a b : same a b = negb (worse a b) && negb (worse b a);
  ko_same_l a b c : same a b = true -> worse b c = true -> worse a c = true;
  ko_same_r a b c : worse a b = true -> same b c = true -> worse a c = true
}.

Section queue.
Context {K : Type} (worse same : K -> K -> bool) (Ho : key_order worse same) `{PriorityQueue}.

(** The comparators of both queues. *)
Definition less (l r : llm_bigram K) : bool :=
  worse (bg_key l) (bg_key r) || (same (bg_key l) (bg_key r) && (bg_left r <? bg_left l)).

Lemma same_iff a b : same a b = true <-> worse a b = false /\ worse b a = false.
Proof. rewrite (ko_same _ _ Ho), andb_true_iff, !negb_true_iff. done. Qed.
Lemma same_refl a : same a a = true.
Proof. apply same_iff. by rewrite (ko_irrefl _ _ Ho). Qed.
Lemma same_trans a b c : same a b = true -> same b c = true -> same a c = true.
Proof.
  intros H1 H2. apply same_iff. split.
  - destruct (worse a c) eqn:E; [|done]. apply same_iff in H1 as H1'. destruct H1' as [_ H1'].
    assert (worse b c = true); [|apply same_iff in H2 as [? _]; congruence].
    apply (ko_same_l _ _ Ho b a c); [by apply same_iff; apply same_iff in H1 as []|done].
  - destruct (worse c a) eqn:E; [|done].
    assert (worse c b = true) by (by apply (ko_same_r _ _ Ho c a b)). apply same_iff in H2 as []. congruence.
Qed.

Lemma less_false l r : less l r = false <->
  worse (bg_key l) (bg_key r) = false /\ (same (bg_key l) (bg_key r) = true -> bg_left l <= bg_left r).
Proof.
  unfold less. rewrite orb_false_iff. destruct (same _ _); cbn [andb]; [|by split; intros [? ?]].
  rewrite Z.ltb_ge. split; [intros [? ?]|intros [? H1]]; split; try done. by apply H1.
Qed.
Lemma less_true l r : less l r = true <->
  worse (bg_key l) (bg_key r) = true \/ (same (bg_key l) (bg_key r) = true /\ bg_left r < bg_left l).
Proof. unfold less. by rewrite orb_true_iff, andb_true_iff, Z.ltb_lt. Qed.

Lemma less_incomparable l r : less l r = false -> less r l = false -> same (bg_key l) (bg_key r) = true /\ bg_left l = bg_left r.
Proof.
  rewrite !less_false. intros [H1 H2] [H3 H4]. assert (E : same (bg_key l) (bg_key r) = true) by (by apply same_iff).
  assert (E' : same (bg_key r) (bg_key l) = true) by (by apply same_iff). specialize (H2 E). specialize (H4 E'). split; [done|lia].
Qed.

Lemma less_strict_weak : strict_weak less.
Proof.
  split_and!.
  - intros a. apply less_false. split; [apply (ko_irrefl _ _ Ho)|lia].
  - intros a b c. rewrite !less_true. intros [H1|[H1 H2]] [H3|[H3 H4]].
    + left. by eapply (ko_trans _ _ Ho).
    + left. by eapply (ko_same_r _ _ Ho).
    + left. by eapply (ko_same_l _ _ Ho).
    + right. split; [by eapply same_trans|lia].
  - intros a b c H1 H2 H3 H4. destruct (less_incomparable _ _ H1 H2) as [E1 E2], (less_incomparable _ _ H3 H4) as [E3 E4].
    pose proof (same_trans _ _ _ E1 E3) as E. apply same_iff in E as [? ?]. rewrite !less_false. repeat split; [done|lia|done|lia].
Qed.

Context (key : list Z -> list Z -> option K) (text : list Z).

(** Neighbours in a list of indices. *)
Definition adj (L : list nat) (i j : nat) : Prop := exists n, L !! n = Some i /\ L !! S n = Some j.

Lemma adj_split L i j : adj L i j <-> exists L1 L2, L = L1 ++ i :: j :: L2.
Proof.
  split.
  - intros (n & Hi & Hj). exists (take n L), (drop (S (S n)) L). rewrite <- (drop_S _ _ _ Hj), <- (drop_S _ _ _ Hi).
    by rewrite take_drop.
  - intros (L1 & L2 & ->). exists (length L1). rewrite lookup_app_r, Nat.sub_diag by lia. split; [done|].
    rewrite lookup_app_r by lia. by replace (S (length L1) - length L1)%nat with 1%nat by lia.
Qed.

Lemma sorted_adj L i j : StronglySorted lt L -> i ∈ L -> j ∈ L -> (i < j)%nat -> (forall k, k ∈ L -> ~ (i < k < j)%nat) -> adj L i j.
Proof.
  intros Hs Hi Hj Hij Hb. apply adj_split. apply list_elem_of_split in Hi as (L1 & L2 & ->). exists L1.
  apply StronglySorted_app in Hs as (H1 & _ & H2). apply StronglySorted_inv in H2 as [H2 F2]. rewrite list.Forall_forall in F2.
  rewrite elem_of_app, elem_of_cons in Hj. destruct Hj as [Hj|[->|Hj]]; [|lia|].
  - specialize (H1 j i Hj ltac:(by left)). lia.
  - destruct L2 as [|h L2]; [by apply elem_of_nil in Hj|]. exists L2. do 2 f_equal.
    apply elem_of_cons in Hj as [->|Hj]; [done|]. apply StronglySorted_inv in H2 as [_ F3]. rewrite list.Forall_forall in F3.
    specialize (F3 j Hj). specialize (F2 h ltac:(by left)). destruct (Hb h); [rewrite elem_of_app, !elem_of_cons; tauto|lia].
Qed.

Lemma adj_position (L : list nat) i i' n n' : StronglySorted lt L -> L !! n = Some i -> L !! n' = Some i' -> (i <= i')%nat -> (n <= n')%nat.
Proof.
  intros Hs Hn Hn' Hi. destruct (decide (n <= n')%nat); [done|]. exfalso.
  rewrite <- (take_drop_middle L n i Hn) in Hs. apply StronglySorted_app in Hs as (H1 & _ & _).
  assert (i' ∈ take n L) by (apply list_elem_of_lookup; exists n'; rewrite lookup_take_lt by lia; done).
  specialize (H1 i' i ltac:(done) ltac:(by left)). lia.
Qed.

(** What a candidate of the queue remembers: where its parts began. *)
Definition candidate_ok (syms : list llm_symbol) (L : list nat) (b : llm_bigram K) : Prop :=
  exists i j si sj p1 p2, bg_left b = Z.of_nat i /\ bg_right b = Z.of_nat j /\ (i < j)%nat /\
    syms !! i = Some si /\ syms !! j = Some sj /\ (forall k, k ∈ L -> ~ (i < k < j)%nat) /\
    sym_text sj = (sym_text si + length p1)%nat /\ p1 = take (length p1) (drop (sym_text si) text) /\
    p2 = take (length p2) (drop (sym_text sj) text) /\ bg_text b = p1 ++ p2 /\ key p1 p2 = Some (bg_key b).

Definition pair_bigram (i j : nat) (si sj : llm_symbol) (k : K) : llm_bigram K :=
  mk_bigram (Z.of_nat i) (Z.of_nat j) (piece text si ++ piece text sj) k.

Definition waiting (syms : list llm_symbol) (q : list (llm_bigram K)) (i j : nat) : Prop :=
  forall si sj k, syms !! i = Some si -> syms !! j = Some sj -> key (piece text si) (piece text sj) = Some k ->
    pair_bigram i j si sj k ∈ q.

(** The queue holds the candidate of every pair of neighbours that [P] selects. *)
Record queue_ok (syms : list llm_symbol) (L : list nat) (q : list (llm_bigram K)) (P : nat -> nat -> Prop) : Prop := {
  qo_heap : pq_heap less q;
  qo_cands : forall b, b ∈ q -> candidate_ok syms L b;
  qo_waiting : forall i j, adj L i j -> P i j -> waiting syms q i j
}.
Definition all_pairs (i j : nat) : Prop := True.

(** A candidate whose symbols are alive and have their former text is a pair of neighbours. *)
Lemma fresh_pair syms L b si sj i j : chain text syms L -> candidate_ok syms L b ->
  bg_left b = Z.of_nat i -> bg_right b = Z.of_nat j -> syms !! i = Some si -> syms !! j = Some sj ->
  sym_n si <> 0%nat -> sym_n sj <> 0%nat -> (sym_n si + sym_n sj)%nat = length (bg_text b) ->
  adj L i j /\ bg_text b = piece text si ++ piece text sj /\ key (piece text si) (piece text sj) = Some (bg_key b).
Proof.
  intros C (i' & j' & si' & sj' & p1 & p2 & El & Er & Hij & Hi & Hj & Hb & Ht & E1 & E2 & Eb & Ek) Hl Hr Hi' Hj' Ni Nj Hn.
  assert (i' = i) as -> by lia. assert (j' = j) as -> by lia. rewrite Hi' in Hi. injection Hi as <-. rewrite Hj' in Hj. injection Hj as <-.
  assert (A : adj L i j).
  { apply sorted_adj; try done; [apply (ch_sorted _ _ _ C)|by eapply (chain_alive text)|by eapply (chain_alive text)]. }
  split; [done|]. apply adj_split in A as (L1 & L2 & ->).
  destruct (chain_pair _ _ _ _ _ _ C) as (ti & tj & Ei & Ej & _ & _ & Et & _). rewrite Hi' in Ei. injection Ei as <-.
  rewrite Hj' in Ej. injection Ej as <-. rewrite Eb, length_app in Hn.
  assert (piece text si = p1) as -> by (unfold piece; rewrite E1; f_equal; lia).
  assert (piece text sj = p2) as -> by (unfold piece; rewrite E2; f_equal; lia). done.
Qed.

Lemma chain_piece_length syms L i si : chain text syms L -> syms !! i = Some si -> i ∈ L -> length (piece text si) = sym_n si.
Proof.
  intros C Hi HL. destruct (chain_live _ _ _ _ C HL) as (s & E & _ & Hle). rewrite Hi in E. injection E as <-. by apply piece_length.
Qed.
Lemma adj_elem (L : list nat) i j : adj L i j -> i ∈ L /\ j ∈ L.
Proof. intros (n & Hi & Hj). split; by eapply list_elem_of_lookup_2. Qed.
Lemma adj_lt (L : list nat) i j : StronglySorted lt L -> adj L i j -> (i < j)%nat /\ forall k, k ∈ L -> ~ (i < k < j)%nat.
Proof.
  intros Hs (L1 & L2 & ->)%adj_split. destruct (sorted_mid _ _ _ _ Hs) as (_ & _ & H1 & H2 & H3). split; [done|].
  intros k. rewrite elem_of_app, !elem_of_cons. intros [Hk|[->|[->|Hk]]]; [|lia..|]; [specialize (H1 k Hk)|specialize (H3 k Hk)]; lia.
Qed.

Lemma queue_ok_mono syms L q (P P' : nat -> nat -> Prop) : queue_ok syms L q P ->
  (forall i j, adj L i j -> P' i j -> P i j) -> queue_ok syms L q P'.
Proof. intros [H1 H2 H3] HP. constructor; [done..|]. intros i j A Q. apply H3; auto. Qed.

(** Pushing the candidate of a pair. *)
Definition pushed (q : list (llm_bigram K)) (i j : nat) (si sj : llm_symbol) : list (llm_bigram K) :=
  match key (piece text si) (piece text sj) with Some k => pq_push less q (pair_bigram i j si sj k) | None => q end.

Lemma pushed_ok syms L q P i j si sj : chain text syms L -> queue_ok syms L q P -> adj L i j ->
  syms !! i = Some si -> syms !! j = Some sj ->
  queue_ok syms L (pushed q i j si sj) (fun a b => P a b \/ (a = i /\ b = j)) /\ (length (pushed q i j si sj) <= S (length q))%nat.
Proof.
  intros C [H1 H2 H3] A Hi Hj. unfold pushed. destruct (key _ _) as [k|] eqn:Ek.
  - destruct (pq_push_ok less q (pair_bigram i j si sj k) less_strict_weak H1) as [H1' Pq].
    split; [constructor; [done|..]|by rewrite Pq].
    + intros b. rewrite Pq, elem_of_cons. intros [->|Hb]; [|by apply H2].
      destruct (adj_lt _ _ _ (ch_sorted _ _ _ C) A) as [Hij Hbt]. destruct (adj_elem _ _ _ A) as [Li Lj].
      pose proof (proj1 (adj_split _ _ _) A) as (L1 & L2 & ->).
      destruct (chain_pair _ _ _ _ _ _ C) as (ti & tj & Ei & Ej & _ & _ & Et & _). rewrite Hi in Ei. injection Ei as <-.
      rewrite Hj in Ej. injection Ej as <-.
      exists i, j, si, sj, (piece text si), (piece text sj). rewrite !(chain_piece_length _ _ _ _ C) by done. by split_and!.
    + intros a b Aab [Pab|[-> ->]] sa sb k' Ha Hb Ek'; rewrite Pq, elem_of_cons; [right; by apply (H3 a b)|].
      left. rewrite Hi in Ha. rewrite Hj in Hb. injection Ha as <-. injection Hb as <-. congruence.
  - split; [constructor; [done..|]|lia]. intros a b Aab [Pab|[-> ->]]; [by apply H3|].
    intros sa sb k' Ha Hb Ek'. congruence.
Qed.

(** An outdated candidate can go. *)
Definition outdated (syms : list llm_symbol) (b : llm_bigram K) : Prop :=
  forall i j si sj, bg_left b = Z.of_nat i -> bg_right b = Z.of_nat j -> syms !! i = Some si -> syms !! j = Some sj ->
    sym_n si <> 0%nat -> sym_n sj <> 0%nat -> piece text si ++ piece text sj <> bg_text b.

Lemma pop_outdated syms L q b q' : chain text syms L -> queue_ok syms L q all_pairs -> pq_pop less q = Some (b, q') ->
  outdated syms b -> queue_ok syms L q' all_pairs.
Proof.
  intros C [H1 H2 H3] Ep Ho'. destruct (pq_pop_ok less q b q' less_strict_weak H1 Ep) as (H1' & Pq & _). constructor; [done|..].
  - intros c Hc. apply H2. rewrite Pq. by right.
  - intros i j A _ si sj k Hi Hj Ek. pose proof (H3 i j A I si sj k Hi Hj Ek) as Hin. rewrite Pq in Hin.
    apply elem_of_cons in Hin as [Eb|Hin]; [|done]. exfalso. destruct (adj_elem _ _ _ A) as [Li Lj].
    destruct (chain_live _ _ _ _ C Li) as (s1 & E1 & N1 & _), (chain_live _ _ _ _ C Lj) as (s2 & E2 & N2 & _).
    rewrite Hi in E1. injection E1 as <-. rewrite Hj in E2. injection E2 as <-.
    apply (Ho' i j si sj); try (by rewrite <- Eb); try done; lia.
Qed.

(** The candidate at the top is the best pair. *)
Lemma pop_best syms L1 i j L2 q b q' si sj : chain text syms (L1 ++ i :: j :: L2) -> queue_ok syms (L1 ++ i :: j :: L2) q all_pairs ->
  pq_pop less q = Some (b, q') -> bg_left b = Z.of_nat i -> syms !! i = Some si -> syms !! j = Some sj ->
  key (piece text si) (piece text sj) = Some (bg_key b) ->
  best_pair key worse same (pieces_of text syms L1) (piece text si) (piece text sj) (pieces_of text syms L2).
Proof.
  intros C [H1 H2 H3] Ep Hl Hi Hj Ek. destruct (pq_pop_ok less q b q' less_strict_weak H1 Ep) as (_ & Pq & Fq).
  exists (bg_key b). split; [done|]. intros l1' a' b' l2' k' E Ek'.
  assert (Ep' : pieces_of text syms (L1 ++ i :: j :: L2) = l1' ++ a' :: b' :: l2').
  { rewrite <- E. unfold pieces_of. by rewrite fmap_app, !fmap_cons, Hi, Hj. }
  unfold pieces_of in Ep'. apply fmap_app_inv in Ep' as (L1' & M & -> & EM & EL).
  symmetry in EM. apply fmap_cons_inv in EM as (i' & M1 & -> & EM1 & ->). symmetry in EM1.
  apply fmap_cons_inv in EM1 as (j' & L2' & -> & _ & ->).
  assert (A : adj (L1 ++ i :: j :: L2) i' j') by (apply adj_split; by exists L1', L2').
  destruct (adj_elem _ _ _ A) as [Li Lj].
  destruct (chain_live _ _ _ _ C Li) as (s1 & E1 & _), (chain_live _ _ _ _ C Lj) as (s2 & E2 & _). rewrite E1, E2 in Ek'.
  pose proof (H3 i' j' A I s1 s2 k' E1 E2 Ek') as Hin. rewrite Pq in Hin. unfold pieces_of. rewrite !length_fmap.
  assert (W : worse (bg_key b) k' = false /\ (same (bg_key b) k' = true -> (i <= i')%nat)).
  { apply elem_of_cons in Hin as [Eb|Hin].
    - rewrite <- Eb in Hl |- *. cbn in Hl |- *. split; [apply (ko_irrefl _ _ Ho)|lia].
    - rewrite list.Forall_forall in Fq. apply Fq, less_false in Hin as [W1 W2]. cbn in W1, W2. split; [done|]. intros S. specialize (W2 S). lia. }
  destruct W as [W1 W2]. split; [done|]. intros S. apply (adj_position (L1 ++ i :: j :: L2) i i'); [apply (ch_sorted _ _ _ C)|..|by apply W2].
  - by rewrite lookup_app_r, Nat.sub_diag.
  - rewrite EL. by rewrite lookup_app_r, Nat.sub_diag.
Qed.

(** The candidates that are left after a merge. *)
Lemma adj_away L1 i j L2 a b : adj (L1 ++ i :: L2) a b -> a <> i -> b <> i -> adj (L1 ++ i :: j :: L2) a b.
Proof.
  intros (n & Ha & Hb) Hna Hnb. destruct (decide (n < length L1)%nat) as [Hn|Hn].
  - destruct (decide (S n < length L1)%nat) as [Hn'|Hn'].
    + exists n. rewrite lookup_app_l in Ha, Hb by done. by rewrite !lookup_app_l.
    + rewrite lookup_app_r in Hb by lia. replace (S n - length L1)%nat with 0%nat in Hb by lia. by injection Hb as ->.
  - rewrite lookup_app_r in Ha, Hb by lia. destruct (n - length L1)%nat as [|m] eqn:E; [by injection Ha as ->|].
    exists (S n). rewrite !lookup_app_r by lia. replace (S n - length L1)%nat with (S (S m)) by lia.
    replace (S (S n) - length L1)%nat with (S (S (S m))) by lia. replace (S n - length L1)%nat with (S (S m)) in Hb by lia. done.
Qed.

Lemma pop_merge syms syms' L1 i j L2 q b q' : chain text syms (L1 ++ i :: j :: L2) -> queue_ok syms (L1 ++ i :: j :: L2) q all_pairs ->
  pq_pop less q = Some (b, q') -> bg_left b = Z.of_nat i -> same_texts syms syms' i j ->
  queue_ok syms' (L1 ++ i :: L2) q' (fun a b => a <> i /\ b <> i).
Proof.
  intros C [H1 H2 H3] Ep Hl ST. destruct (pq_pop_ok less q b q' less_strict_weak H1 Ep) as (H1' & Pq & _).
  destruct (sorted_mid _ _ _ _ (ch_sorted _ _ _ C)) as (Hs & Hij & HL1 & Hlt & HL2). constructor; [done|..].
  - intros c Hc. destruct (H2 c ltac:(rewrite Pq; by right)) as (x & y & sx & sy & p1 & p2 & R1 & R2 & R3 & R4 & R5 & R6 & R7 & R8 & R9 & R10 & R11).
    destruct (ST x sx R4) as (sx' & Ex & Tx & _), (ST y sy R5) as (sy' & Ey & Ty & _).
    exists x, y, sx', sy', p1, p2. rewrite Tx, Ty. split_and!; try done.
    intros k Hk. apply R6. rewrite elem_of_app, !elem_of_cons in *. tauto.
  - intros x y A [Nx Ny] sx' sy' k Ex Ey Ek. destruct (adj_elem _ _ _ A) as [Lx Ly].
    assert (Hx : x ∈ L1 ++ i :: j :: L2) by (rewrite elem_of_app, !elem_of_cons in *; tauto).
    assert (Hy : y ∈ L1 ++ i :: j :: L2) by (rewrite elem_of_app, !elem_of_cons in *; tauto).
    assert (Nj : forall z, z ∈ L1 ++ i :: L2 -> z <> i -> z <> j).
    { intros z. rewrite elem_of_app, elem_of_cons. intros [Hz|[->|Hz]] Nz; [specialize (HL1 z Hz)|done|specialize (HL2 z Hz)]; lia. }
    destruct (chain_live _ _ _ _ C Hx) as (sx & Hsx & _), (chain_live _ _ _ _ C Hy) as (sy & Hsy & _).
    destruct (ST x sx Hsx) as (sx2 & Ex2 & Tx & Mx), (ST y sy Hsy) as (sy2 & Ey2 & Ty & My).
    rewrite Ex in Ex2. injection Ex2 as <-. rewrite Ey in Ey2. injection Ey2 as <-.
    assert (Px : piece text sx' = piece text sx) by (unfold piece; rewrite Tx, Mx by auto; done).
    assert (Py : piece text sy' = piece text sy) by (unfold piece; rewrite Ty, My by auto; done).
    unfold pair_bigram. rewrite Px, Py in Ek |- *.
    pose proof (H3 x y (adj_away _ _ _ _ _ _ A Nx Ny) I sx sy k Hsx Hsy Ek) as Hin. rewrite Pq in Hin.
    apply elem_of_cons in Hin as [Eb|Hin]; [|done]. rewrite <- Eb in Hl. cbn in Hl. lia.
Qed.
(** [try_add_bigram] and [add_new_bigram] on the queue. *)
Definition add_pair (syms : list llm_symbol) (q : list (llm_bigram K)) (left right : Z) : list (llm_bigram K) :=
  if (left =? -1) || (right =? -1) then q
  else match syms !! Z.to_nat left, syms !! Z.to_nat right with
       | Some si, Some sj => pushed q (Z.to_nat left) (Z.to_nat right) si sj
       | _, _ => q
       end.

Lemma add_pair_none syms q left right : left = -1 \/ right = -1 -> add_pair syms q left right = q.
Proof. intros [->| ->]; unfold add_pair; [done|]. by rewrite orb_true_r. Qed.
Lemma add_pair_ok syms L q P i j : chain text syms L -> queue_ok syms L q P -> adj L i j ->
  queue_ok syms L (add_pair syms q (Z.of_nat i) (Z.of_nat j)) (fun a b => P a b \/ (a = i /\ b = j)) /\
  (length (add_pair syms q (Z.of_nat i) (Z.of_nat j)) <= S (length q))%nat.
Proof.
  intros C Q A. unfold add_pair. rewrite (proj2 (Z.eqb_neq _ _)), (proj2 (Z.eqb_neq _ _)) by lia. cbn [orb]. rewrite !Nat2Z.id.
  destruct (adj_elem _ _ _ A) as [Li Lj].
  destruct (chain_live _ _ _ _ C Li) as (si & Ei & _), (chain_live _ _ _ _ C Lj) as (sj & Ej & _). rewrite Ei, Ej. by apply pushed_ok.
Qed.

Lemma chain_at syms L1 i L2 : chain text syms (L1 ++ i :: L2) ->
  exists s, syms !! i = Some s /\ sym_prev s = last_of L1 (-1) /\ sym_next s = first_of L2 (-1).
Proof.
  intros C. pose proof (ch_linked _ _ _ C) as Hl. apply linked_app in Hl as (mid & _ & s & H1 & H2 & _ & _ & H3 & _). by exists s.
Qed.

(** The neighbours of a place in a list. *)
Lemma last_of_cases L1 : (L1 = [] /\ last_of L1 (-1) = -1) \/ exists M p, L1 = M ++ [p] /\ last_of L1 (-1) = Z.of_nat p.
Proof.
  destruct L1 as [|p M] using rev_ind; [by left|]. right. exists M, p. split; [done|]. unfold last_of. by rewrite last_snoc.
Qed.
Lemma adj_mid L1 i L2 a b : adj (L1 ++ i :: L2) a b -> (a <> i /\ b <> i) \/
  (exists M, L1 = M ++ [a] /\ b = i) \/ (exists M, L2 = b :: M /\ a = i) \/ ~ NoDup (L1 ++ i :: L2).
Proof.
  intros A. destruct (decide (NoDup (L1 ++ i :: L2))) as [Hnd|]; [|tauto]. apply adj_split in A as (M1 & M2 & E).
  destruct (decide (a = i)) as [->|Na]; [|destruct (decide (b = i)) as [->|]; [|tauto]].
  - right. right. left. exists M2. split; [|done].
    assert (L1 = M1 /\ L2 = b :: M2) as [_ ?]; [|done].
    eapply NoDup_mid_inj; [exact Hnd|exact E].
  - right. left. exists M1. split; [|done].
    assert (L1 = M1 ++ [a] /\ L2 = M2) as [? _]; [|done].
    eapply NoDup_mid_inj; [exact Hnd|]. by rewrite <- app_assoc.
Qed.
Lemma after_merge syms L1 i L2 q s : chain text syms (L1 ++ i :: L2) ->
  queue_ok syms (L1 ++ i :: L2) q (fun a b => a <> i /\ b <> i) -> syms !! i = Some s ->
  let q2 := add_pair syms (add_pair syms q (sym_prev s) (Z.of_nat i)) (Z.of_nat i) (sym_next s) in
  queue_ok syms (L1 ++ i :: L2) q2 all_pairs /\ (length q2 <= length q + 2)%nat.
Proof.
  intros C Q Hi. destruct (chain_at _ _ _ _ C) as (s0 & E0 & Hp & Hn). rewrite Hi in E0. injection E0 as <-.
  cbn zeta. rewrite Hp, Hn. clear s Hi Hp Hn.
  assert (Q1 : queue_ok syms (L1 ++ i :: L2) (add_pair syms q (last_of L1 (-1)) (Z.of_nat i))
      (fun a b => (a <> i /\ b <> i) \/ exists M, L1 = M ++ [a] /\ b = i) /\
      (length (add_pair syms q (last_of L1 (-1)) (Z.of_nat i)) <= S (length q))%nat).
  { destruct (last_of_cases L1) as [[-> ->]|(M & p & -> & ->)].
    - rewrite add_pair_none by (by left). split; [|lia]. eapply queue_ok_mono; [exact Q|].
      intros a b _ [?|(M & E & _)]; [done|by destruct M].
    - destruct (add_pair_ok _ _ _ _ p i C Q) as [Q1 Lq]; [apply adj_split; exists M, L2; by rewrite <- app_assoc|].
      split; [|done]. eapply queue_ok_mono; [exact Q1|]. intros a b _ [?|(M' & E & ->)]; [by left|right].
      by apply app_inj_tail in E as [_ ->]. }
  destruct Q1 as [Q1 Lq1]. clear Q. set (q1 := add_pair syms q _ _) in *. clearbody q1.
  pose proof (StronglySorted_NoDup_lt (L1 ++ i :: L2) (ch_sorted _ _ _ C)) as Hnd.
  destruct L2 as [|h L2]; cbn [first_of].
  - rewrite add_pair_none by (by right). split; [|lia]. eapply queue_ok_mono; [exact Q1|]. intros a b A _.
    destruct (adj_mid _ _ _ _ _ A) as [?|[?|[(M & E & _)|?]]]; [by left|by right|done|done].
  - destruct (add_pair_ok _ _ _ _ i h C Q1) as [Q2 Lq]; [apply adj_split; by exists L1, L2|]. split; [|lia].
    eapply queue_ok_mono; [exact Q2|]. intros a b A _.
    destruct (adj_mid _ _ _ _ _ A) as [?|[?|[(M & E & ->)|?]]]; [by left; left|by left; right|right|done]. by injection E as <- _.
Qed.

(** ** The loop of a tokenizer *)

Section loop.
Context {S : Type} (syms_of : S -> list llm_symbol) (queue_of : S -> list (llm_bigram K)) (X : S -> Prop) (body : S -> res (S + S)).

(** What a round does with the candidate at the top. *)
Definition round_spec : Prop := forall s L, chain text (syms_of s) L -> X s ->
  match pq_pop less (queue_of s) with
  | None => body s = Ok (inr s)
  | Some (b, q') => forall i j si sj, candidate_ok (syms_of s) L b -> bg_left b = Z.of_nat i -> bg_right b = Z.of_nat j ->
      syms_of s !! i = Some si -> syms_of s !! j = Some sj ->
      (outdated (syms_of s) b ->
        exists s', body s = Ok (inl s') /\ syms_of s' = syms_of s /\ queue_of s' = q' /\ X s') /\
      (forall L1 L2 syms' si', L = L1 ++ i :: j :: L2 -> bg_text b = piece text si ++ piece text sj ->
        merge_symbols (syms_of s) (Z.of_nat i) (Z.of_nat j) = Ok syms' -> chain text syms' (L1 ++ i :: L2) -> syms' !! i = Some si' ->
        exists s', body s = Ok (inl s') /\ syms_of s' = syms' /\ X s' /\
          queue_of s' = add_pair syms' (add_pair syms' q' (sym_prev si') (Z.of_nat i)) (Z.of_nat i) (sym_next si'))
  end.
Context (Hround : round_spec).

Definition session_ok (s : S) (L : list nat) : Prop :=
  chain text (syms_of s) L /\ queue_ok (syms_of s) L (queue_of s) all_pairs /\ X s.

Lemma round_ok s L : session_ok s L ->
  (body s = Ok (inr s) /\ stuck key (pieces_of text (syms_of s) L)) \/
  exists s' L', body s = Ok (inl s') /\ session_ok s' L' /\
    rtc (greedy_step key worse same) (pieces_of text (syms_of s) L) (pieces_of text (syms_of s') L') /\
    (length (queue_of s') + 2 * length L' < length (queue_of s) + 2 * length L)%nat.
Proof.
  intros (C & Q & HX). pose proof (Hround s L C HX) as R. destruct (pq_pop less (queue_of s)) as [[b q']|] eqn:Ep.
  2: { left. split; [done|]. apply pq_pop_none in Ep. intros l1 a b' l2 E. destruct (key a b') as [k|] eqn:Ek; [|done]. exfalso.
    unfold pieces_of in E. apply fmap_app_inv in E as (L1 & M & -> & EM & EL).
    symmetry in EM. apply fmap_cons_inv in EM as (i & M1 & -> & EM1 & ->). symmetry in EM1.
    apply fmap_cons_inv in EM1 as (j & L2 & -> & _ & ->).
    assert (A : adj L i j) by (rewrite EL; apply adj_split; by exists L1, L2). destruct (adj_elem _ _ _ A) as [Li Lj].
    destruct (chain_live _ _ _ _ C Li) as (si & Ei & _), (chain_live _ _ _ _ C Lj) as (sj & Ej & _). rewrite Ei, Ej in Ek.
    pose proof (qo_waiting _ _ _ _ Q i j A I si sj k Ei Ej Ek) as W. rewrite Ep in W. by apply elem_of_nil in W. }
  right. destruct (pq_pop_ok less (queue_of s) b q' less_strict_weak (qo_heap _ _ _ _ Q) Ep) as (_ & Pq & _).
  assert (Lq : length (queue_of s) = Datatypes.S (length q')) by (by rewrite Pq).
  pose proof (qo_cands _ _ _ _ Q b ltac:(rewrite Pq; by left)) as Cb.
  pose proof Cb as (i & j & si & sj & p1 & p2 & El & Er & Hij & Ei & Ej & _).
  destruct (R i j si sj Cb El Er Ei Ej) as [R1 R2].
  destruct (decide (sym_n si <> 0%nat /\ sym_n sj <> 0%nat /\ piece text si ++ piece text sj = bg_text b)) as [(Ni & Nj & Et)|Hout].
  - assert (Ai : i ∈ L) by (by eapply (chain_alive text)). assert (Aj : j ∈ L) by (by eapply (chain_alive text)).
    assert (Hn : (sym_n si + sym_n sj)%nat = length (bg_text b)).
    { rewrite <- Et, length_app. by rewrite (chain_piece_length _ _ _ _ C Ei Ai), (chain_piece_length _ _ _ _ C Ej Aj). }
    destruct (fresh_pair _ _ _ _ _ _ _ C Cb El Er Ei Ej Ni Nj Hn) as (A & _ & Ek).
    apply adj_split in A as (L1 & L2 & ->).
    destruct (merge_symbols_ok _ _ _ _ _ _ _ _ C Ei Ej) as (syms' & Em & _ & C' & ST & si' & Ei' & Ep').
    destruct (R2 L1 L2 syms' si' eq_refl (eq_sym Et) Em C' Ei') as (s' & Eb & Es & HX' & Eq).
    pose proof (pop_merge _ _ _ _ _ _ _ _ _ C Q Ep El ST) as Q'.
    destruct (after_merge _ _ _ _ _ _ C' Q' Ei') as [Q2 L2q]. destruct (merge_pieces _ _ _ _ _ _ _ _ _ _ C ST Ei Ej Ei' Ep') as [P1 P2].
    exists s', (L1 ++ i :: L2). split; [done|]. unfold session_ok. rewrite Es, Eq. split; [done|]. split.
    + rewrite P1, P2. apply rtc_once. constructor. by apply (pop_best _ _ _ _ _ _ _ _ _ _ C Q Ep El Ei Ej Ek).
    + rewrite !length_app. cbn [length]. cbn zeta in L2q. lia.
  - destruct R1 as (s' & Eb & Es & Eq & HX').
    { intros i' j' ti tj El' Er' Ei' Ej' Ni Nj Et. assert (i' = i) as -> by lia. assert (j' = j) as -> by lia.
      rewrite Ei in Ei'. injection Ei' as <-. rewrite Ej in Ej'. injection Ej' as <-. by apply Hout. }
    exists s', L. split; [done|]. unfold session_ok. rewrite Es, Eq. split_and!; [done| |done|apply rtc_refl|lia].
    eapply pop_outdated; [done|done|done|]. intros i' j' ti tj El' Er' Ei' Ej' Ni Nj Et. assert (i' = i) as -> by lia. assert (j' = j) as -> by lia.
    rewrite Ei in Ei'. injection Ei' as <-. rewrite Ej in Ej'. injection Ej' as <-. by apply Hout.
Qed.

(** The loop ends where no pair of the reference is left. *)
Lemma merge_loop_ok fuel s L : session_ok s L -> (length (queue_of s) + 2 * length L < fuel)%nat ->
  runs (loop fuel body s) (fun s' => exists L', session_ok s' L' /\
    greedy key worse same (pieces_of text (syms_of s) L) (pieces_of text (syms_of s') L')).
Proof.
  revert s L. induction fuel as [|fuel IH]; intros s L Hs Hf; [lia|]. cbn [loop].
  destruct (round_ok s L Hs) as [[-> St]|(s' & L' & -> & Hs' & R & Hm)]; rewrite bind_ok.
  - apply runs_ok. exists L. split; [done|]. split; [apply rtc_refl|done].
  - eapply runs_mono; [apply (IH s' L' Hs'); lia|]. intros s2 (L2 & H2 & R2 & S2). exists L2. split; [done|]. split; [by etrans|done].
Qed.
(** Seeding the queue with all neighbours. *)
Context (add : S -> Z -> Z -> res S).
Definition add_spec : Prop := forall s L i j, chain text (syms_of s) L -> X s -> adj L i j ->
  exists s', add s (Z.of_nat i) (Z.of_nat j) = Ok s' /\ syms_of s' = syms_of s /\ X s' /\
    queue_of s' = add_pair (syms_of s) (queue_of s) (Z.of_nat i) (Z.of_nat j).

Lemma seed_ok s n : add_spec -> chain text (syms_of s) (seq 0 n) -> queue_of s = [] -> X s ->
  runs (foldM (fun s i => add s (Z.of_nat i) (Z.of_nat i + 1)) s (seq 0 (n - 1)))
    (fun s' => session_ok s' (seq 0 n) /\ syms_of s' = syms_of s).
Proof.
  intros Hadd C Eq HX. eapply runs_mono.
  { apply (runs_for (fun i s' => syms_of s' = syms_of s /\ X s' /\ queue_ok (syms_of s) (seq 0 n) (queue_of s') (fun a b => (a < i)%nat))).
    - split; [done|]. split; [done|]. rewrite Eq. constructor; [apply pq_heap_nil|by intros b ?%elem_of_nil|]. intros i j _ Hi. lia.
    - intros i s1 Hi (E1 & HX1 & Q1). assert (A : adj (seq 0 n) i (i + 1)).
      { exists i. rewrite !lookup_seq. split; split; lia. }
      replace (Z.of_nat i + 1) with (Z.of_nat (i + 1)) by lia.
      destruct (Hadd s1 (seq 0 n) i (i + 1)%nat) as (s2 & -> & E2 & HX2 & Eq2); [by rewrite E1|done|done|].
      apply runs_ok. rewrite E2, E1. split; [done|]. split; [done|]. rewrite Eq2, E1.
      eapply queue_ok_mono; [apply (add_pair_ok _ _ _ _ _ _ C Q1 A)|]. intros a b (m & Ha & Hb) Hlt.
      rewrite !lookup_seq in Ha, Hb. destruct Ha as [Ha _], Hb as [Hb _]. destruct (decide (a = i)) as [->|]; [right|left]; lia. }
  intros s' (E & HX' & Q). split; [|done]. unfold session_ok. rewrite E. split; [done|]. split; [|done].
  eapply queue_ok_mono; [exact Q|]. intros a b (m & Ha & Hb) _. rewrite !lookup_seq in Ha, Hb. lia.
Qed.
End loop.
End queue.

(** ** The characters of a text *)

Fixpoint chars_from (fuel : nat) (text : list Z) : list (list Z) :=
  match fuel, text with
  | S fuel, c :: _ =>
      let n := Nat.min (unicode_len_utf8 c) (length text) in take n text :: chars_from fuel (drop n text)
  | _, _ => []
  end.
(** A text cut at the lengths that its first bytes announce. *)
Definition utf8_chars (text : list Z) : list (list Z) := chars_from (length text) text.

Definition byte_values (text : list Z) : Prop := Forall (fun c => 0 <= c < 256) text.

Lemma len_utf8_pos c : 0 <= c < 256 -> (1 <= unicode_len_utf8 c <= 4)%nat.
Proof.
  intros Hc. unfold unicode_len_utf8. rewrite Z.shiftr_div_pow2 by lia.
  assert (Hd : 0 <= c / 2 ^ 4 < 16) by (split; [apply Z.div_pos; lia|apply Z.div_lt_upper_bound; lia]).
  generalize dependent (c / 2 ^ 4). clear c Hc. intros d Hd. assert (E : (Z.to_nat d < 16)%nat) by lia.
  generalize dependent (Z.to_nat d). clear d Hd. intros n Hn. do 16 (destruct n as [|n]; [cbn; lia|]). lia.
Qed.

Lemma chars_fuel f g text : byte_values text -> (length text <= f)%nat -> (length text <= g)%nat -> chars_from f text = chars_from g text.
Proof.
  revert g text. induction f as [|f IH]; intros g text Hb Hf Hg.
  - destruct text; [by destruct g|simpl in Hf; lia].
  - destruct text as [|c t]; [by destruct g|]. destruct g as [|g]; [simpl in Hg; lia|]. cbn [chars_from]. f_equal.
    pose proof (len_utf8_pos c (Forall_inv Hb)). simpl in Hf, Hg.
    apply IH; [by apply Forall_drop|rewrite length_drop; simpl; lia..].
Qed.
Lemma utf8_chars_cons c t : byte_values (c :: t) ->
  utf8_chars (c :: t) = take (Nat.min (unicode_len_utf8 c) (length (c :: t))) (c :: t) ::
    utf8_chars (drop (Nat.min (unicode_len_utf8 c) (length (c :: t))) (c :: t)).
Proof.
  intros Hb. unfold utf8_chars at 1. cbn [length chars_from]. f_equal. pose proof (len_utf8_pos c (Forall_inv Hb)).
  apply chars_fuel; [by apply Forall_drop|rewrite length_drop; simpl; lia..].
Qed.

(** ** The symbols of a text *)

Section split.
Context (text : list Z) (Hb : byte_values text).

Definition split_inv (st : Z * nat * list llm_symbol) : Prop :=
  let '(index, offs, syms) := st in
  index = Z.of_nat (length syms) /\ (offs <= length text)%nat /\
  linked syms (-1) 0 (seq 0 (length syms)) (if (offs =? length text)%nat then -1 else index) offs /\
  pieces_of text syms (seq 0 (length syms)) ++ utf8_chars (drop offs text) = utf8_chars text.

Lemma split_round st : split_inv st -> runs (split_body text st) (fun r => match r with
  | inl st' => split_inv st' /\ (length text - st'.1.2 < length text - st.1.2)%nat
  | inr st' => st' = st /\ st.1.2 = length text
  end).
Proof.
  destruct st as [[index offs] syms]. intros (Ei & Ho & Hl & Hp). unfold split_body. cbn [fst snd].
  destruct (Nat.ltb_spec offs (length text)) as [Hlt|Hge]; [|apply runs_ok; split; [done|cbn; lia]].
  destruct (lookup_lt_is_Some_2 _ _ Hlt) as [c Ec]. rewrite (rd_ok _ _ _ Ec), bind_ok.
  assert (Hc : 0 <= c < 256) by (by eapply Forall_lookup_1 in Hb). pose proof (len_utf8_pos c Hc).
  set (n := Nat.min (unicode_len_utf8 c) (length text - offs)). assert (Hn : (0 < n /\ offs + n <= length text)%nat) by lia.
  set (sym := mk_sym _ _ _ _). apply runs_ok. cbn [fst snd]. split; [|lia]. unfold split_inv. rewrite length_app. cbn [length].
  assert (Es : (syms ++ [sym]) !! length syms = Some sym) by (by rewrite lookup_app_r, Nat.sub_diag).
  assert (Eo : forall k, k ∈ seq 0 (length syms) -> (syms ++ [sym]) !! k = syms !! k).
  { intros k ?%elem_of_seq. apply lookup_app_l. lia. }
  split; [lia|]. split; [lia|]. rewrite seq_app. cbn [seq]. rewrite Nat.add_0_l. split.
  - apply linked_app. exists offs. split.
    + eapply linked_ext; [exact Eo|]. cbn [first_of]. by rewrite (proj2 (Nat.eqb_neq _ _)), Ei in Hl by lia.
    + cbn [linked]. exists sym. split; [done|]. cbn [sym sym_prev sym_text sym_n sym_next first_of].
      split; [|split; [done|split; [lia|split; [|done]]]].
      * destruct (length syms) as [|m] eqn:Em; [by rewrite Ei|]. rewrite seq_S. unfold last_of. rewrite last_snoc. lia.
      * destruct (_ =? _)%nat; [done|lia].
  - unfold pieces_of in *. rewrite fmap_app, <- app_assoc, <- Hp. f_equal.
    + apply list_fmap_ext. intros m k Hk. by rewrite Eo by (by eapply list_elem_of_lookup_2).
    + cbn. rewrite Es. rewrite (drop_S _ _ _ Ec). rewrite utf8_chars_cons by (rewrite <- (drop_S _ _ _ Ec); by apply Forall_drop).
      rewrite <- (drop_S _ _ _ Ec). unfold piece. cbn [sym sym_text sym_n]. rewrite length_drop, drop_drop. done.
Qed.

Lemma split_symbols_ok : runs (split_symbols text) (fun syms =>
  chain text syms (seq 0 (length syms)) /\ pieces_of text syms (seq 0 (length syms)) = utf8_chars text).
Proof.
  unfold split_symbols. apply runs_bind.
  eapply runs_mono; [apply (runs_loop split_inv (fun st => length text - st.1.2)%nat (fun st => split_inv st /\ st.1.2 = length text))|].
  - intros st Hst. eapply runs_mono; [by apply split_round|]. intros [st'|st']; [done|]. intros [-> E]. done.
  - cbn. lia.
  - split; [done|]. split; [lia|]. split; [done|]. by rewrite drop_0.
  - intros [[index offs] syms] [(Ei & Ho & Hl & Hp) E]. cbn [fst snd] in *. subst offs. apply runs_ok. rewrite Nat.eqb_refl in Hl.
    rewrite drop_all, app_nil_r in Hp. split; [|done]. constructor; [done| | |].
    + apply seq_increasing.
    + intros i s Hi Hn. destruct Hn. apply elem_of_seq. apply lookup_lt_Some in Hi. lia.
    + intros i L'. destruct syms; [done|]. by intros [= <- _].
Qed.
End split.

(** ** A queue
    The simplest queue that keeps the contract: a list that is searched for its best element. *)

Fixpoint pop_max {A} (less : A -> A -> bool) (x : A) (l : list A) : A * list A :=
  match l with
  | [] => (x, [])
  | y :: l => if less x y then let r := pop_max less y l in (r.1, x :: r.2) else let r := pop_max less x l in (r.1, y :: r.2)
  end.

Lemma pop_max_ok {A} (less : A -> A -> bool) x l : strict_weak less ->
  x :: l ≡ₚ (pop_max less x l).1 :: (pop_max less x l).2 /\ forall z, z ∈ x :: l -> less (pop_max less x l).1 z = false.
Proof.
  intros (I & T & W). revert x. induction l as [|y l IH]; intros x; cbn [pop_max].
  - split; [done|]. intros z ->%list_elem_of_singleton. apply I.
  - destruct (less x y) eqn:E; cbn [fst snd].
    + destruct (IH y) as [P M]. split; [by rewrite P, Permutation_swap|]. intros z. rewrite elem_of_cons. intros [->|Hz]; [|by apply M].
      destruct (less _ x) eqn:E'; [|done]. rewrite <- (M y ltac:(by left)). symmetry. by eapply T.
    + destruct (IH x) as [P M]. split; [rewrite (Permutation_swap y x l), P; apply Permutation_swap|].
      intros z. rewrite !elem_of_cons. intros [->|[->|Hz]]; [apply M; by left| |apply M; by right].
      pose proof (M x ltac:(by left)) as Mx. set (m := (pop_max less x l).1) in *. clearbody m.
      destruct (less m y) eqn:E1; [|done]. destruct (less y x) eqn:E2; [rewrite <- Mx; symmetry; by eapply T|].
      destruct (less x m) eqn:E3; [rewrite <- E; symmetry; by eapply T|]. rewrite <- E1. by apply (W m x y).
Qed.

Definition list_queue : PriorityQueue.
Proof.
  refine {| pq_heap := fun _ _ _ => True; pq_push := fun _ _ q x => x :: q;
            pq_pop := fun _ less q => match q with [] => None | x :: q => Some (pop_max less x q) end |}.
  - done.
  - intros A less q x _ _. done.
  - intros A less q. by destruct q.
  - intros A less q x q' Hw _. destruct q as [|y q]; [done|]. intros [= E]. destruct (pop_max_ok less y q Hw) as [P M].
    rewrite E in P, M. cbn in P, M. split; [done|]. split; [done|]. apply list.Forall_forall. intros z Hz. apply M. rewrite P. by right.
Defined.
