(* ===== verification/VocabSpmOk.v ===== *)
(** The SPM tokenizer merges greedily by score: [spm_tokenize] gives the tokens of the pieces
    that the reference of VocabMergeOk.v leaves, and bytes for the pieces that are no token. *)

From S2P Require Import Prelude Unicode Vocab VocabOk VocabMerge VocabMergeOk.
Local Open Scope Z_scope.

Lemma idx_ok {A} (l : list A) i x : l !! i = Some x -> idx l (Z.of_nat i) = Ok x.
Proof. intros H. unfold idx. rewrite (proj2 (Z.ltb_ge _ 0)), Nat2Z.id by lia. by apply rd_ok. Qed.

Lemma sub_text_ok text off n : (off + n <= length text)%nat -> sub_text text off n = Ok (take n (drop off text)).
Proof. intros H. unfold sub_text. by rewrite (proj2 (Nat.leb_le _ _)). Qed.

Section spm.
Context {F : Type} `{FloatOps F} `{!FloatLaws F} `{PriorityQueue} (v : llama_vocab F) (Hv : vocab_ok v).

(** The score of the token that two texts make together. *)
Definition spm_key (a b : list Z) : option F :=
  t ← v_token_to_id v !! (a ++ b); td_score <$> v_id_to_token v !! Z.to_nat t.

Lemma score_order : key_order (K := F) f_lt f_eq.
Proof.
  constructor; [apply f_lt_irrefl|apply f_lt_trans| |apply f_eq_lt|apply f_lt_eq]. intros a b. apply f_eq_spec.
Qed.

Definition merged_tokens (s : spm_session (F := F)) : Prop :=
  forall t p, spm_rev_merge s !! t = Some p -> is_Some (v_token_to_id v !! t).

Section text.
Context (text : list Z).

Lemma spm_add_none s left right : left = -1 \/ right = -1 -> spm_try_add_bigram v text s left right = Ok s.
Proof. intros [->| ->]; unfold spm_try_add_bigram; [done|]. by rewrite orb_true_r. Qed.

Lemma neighbour_text syms L i j : chain text syms L -> adj L i j -> exists si sj, syms !! i = Some si /\ syms !! j = Some sj /\
  (sym_text si + sym_n si <= length text)%nat /\ (sym_text sj + sym_n sj <= length text)%nat /\
  (sym_text si + (sym_n si + sym_n sj) <= length text)%nat /\
  take (sym_n si + sym_n sj) (drop (sym_text si) text) = piece text si ++ piece text sj.
Proof.
  intros C (L1 & L2 & ->)%adj_split. destruct (chain_pair _ _ _ _ _ _ C) as (si & sj & Ei & Ej & _ & _ & Et & _ & _ & _ & _ & Hle).
  exists si, sj. split_and!; [done|done|lia|done|lia|]. unfold piece. rewrite Et, <- drop_drop.
  set (d := drop (sym_text si) text). assert (sym_n si <= length d)%nat by (unfold d; rewrite length_drop; lia).
  rewrite <- (take_drop (sym_n si) d) at 1. rewrite take_app_ge by (rewrite length_take; lia). rewrite length_take. f_equal. f_equal. lia.
Qed.

Lemma spm_add : add_spec f_lt f_eq spm_key text spm_symbols spm_queue merged_tokens (spm_try_add_bigram v text).
Proof.
  intros s L i j C HX A. destruct (neighbour_text _ _ _ _ C A) as (si & sj & Ei & Ej & _ & _ & Hle & Et).
  unfold spm_try_add_bigram, add_pair. rewrite !(proj2 (Z.eqb_neq _ (-1))) by lia. cbn [orb]. rewrite !Nat2Z.id, Ei, Ej.
  rewrite (idx_ok _ _ _ Ei), bind_ok, (idx_ok _ _ _ Ej), bind_ok, sub_text_ok, bind_ok, Et by done. unfold pushed, spm_key.
  destruct (v_token_to_id v !! _) as [t|] eqn:Ew; cbn [mbind option_bind].
  - destruct (text_to_token_some v Hv _ _ Ew) as [-> Ht]. rewrite bind_ok, (proj2 (Z.eqb_neq _ _) Ht), (token_u32 v Hv _ _ Ew).
    destruct (token_data_ok v Hv _ _ Ew) as (d & -> & _ & Ed). rewrite bind_ok, Ed. cbn. eexists. split; [done|]. cbn.
    split; [done|]. split; [|done]. intros u p. cbn. destruct (decide (u = piece text si ++ piece text sj)) as [->|Hu]; [by rewrite Ew|].
    rewrite lookup_insert_ne by done. apply HX.
  - rewrite (text_to_token_none v Hv _ Ew), bind_ok. cbn. by exists s.
Qed.

Lemma spm_round : round_spec f_lt f_eq spm_key text spm_symbols spm_queue merged_tokens (spm_merge_body v text).
Proof.
  intros s L C HX. change (less f_lt f_eq) with (spm_less (F := F)) in *. unfold spm_merge_body.
  destruct (pq_pop spm_less (spm_queue s)) as [[b q']|]; [|done]. intros i j si sj Cb El Er Ei Ej. cbn [spm_symbols spm_queue spm_rev_merge].
  rewrite El, Er, (idx_ok _ _ _ Ei), bind_ok, (idx_ok _ _ _ Ej), bind_ok. split.
  - intros Hout. exists (mk_spm (spm_symbols s) q' (spm_rev_merge s)). split; [|done].
    destruct ((sym_n si =? 0)%nat || (sym_n sj =? 0)%nat || _) eqn:Et; [done|]. exfalso.
    rewrite !orb_false_iff, negb_false_iff, !Nat.eqb_neq, Nat.eqb_eq in Et. destruct Et as ((Ni & Nj) & Hn).
    destruct (fresh_pair spm_key text _ _ _ _ _ _ _ C Cb El Er Ei Ej Ni Nj Hn) as (_ & Eb & _). by eapply Hout.
  - intros L1 L2 syms' si' -> Eb Em C' Ei'.
    assert (Li : i ∈ L1 ++ i :: j :: L2) by (rewrite elem_of_app, !elem_of_cons; tauto).
    assert (Lj : j ∈ L1 ++ i :: j :: L2) by (rewrite elem_of_app, !elem_of_cons; tauto).
    assert (Hn : length (bg_text b) = (sym_n si + sym_n sj)%nat).
    { rewrite Eb, length_app. by rewrite (chain_piece_length _ _ _ _ _ C Ei Li), (chain_piece_length _ _ _ _ _ C Ej Lj). }
    destruct (chain_pair _ _ _ _ _ _ C) as (ti & tj & Eti & Etj & _ & _ & _ & Ni & Nj & _). rewrite Ei in Eti. injection Eti as <-.
    rewrite Ej in Etj. injection Etj as <-.
    rewrite (proj2 (Nat.eqb_neq _ _)), (proj2 (Nat.eqb_neq _ _)), Hn, Nat.eqb_refl by lia. cbn [orb negb].
    rewrite Em, bind_ok, (idx_ok _ _ _ Ei'), bind_ok.
    destruct (chain_at _ _ _ _ _ C') as (s0 & E0 & Hp & Hx). rewrite Ei' in E0. injection E0 as <-.
    set (s2 := mk_spm syms' q' (spm_rev_merge s)).
    assert (A1 : exists s3, spm_try_add_bigram v text s2 (sym_prev si') (Z.of_nat i) = Ok s3 /\ spm_symbols s3 = syms' /\ merged_tokens s3 /\
      spm_queue s3 = add_pair f_lt f_eq spm_key text syms' q' (sym_prev si') (Z.of_nat i)).
    { rewrite Hp. destruct (last_of_cases L1) as [[-> ->]|(M & p & -> & ->)].
      - rewrite spm_add_none, add_pair_none by (by left). by exists s2.
      - apply (spm_add s2 ((M ++ [p]) ++ i :: L2)); [done|exact HX|]. apply adj_split. exists M, L2. by rewrite <- app_assoc. }
    destruct A1 as (s3 & -> & E3 & HX3 & Eq3). rewrite bind_ok, E3, (idx_ok _ _ _ Ei'), bind_ok, Hx. rewrite <- Eq3.
    destruct L2 as [|h L2]; cbn [first_of].
    + rewrite spm_add_none, add_pair_none, bind_ok by (by right). by exists s3.
    + destruct (spm_add s3 (L1 ++ i :: h :: L2) i h) as (s4 & -> & E4 & HX4 & Eq4); [by rewrite E3|done|apply adj_split; by exists L1, L2|].
      rewrite bind_ok. exists s4. rewrite E4, Eq4, E3. done.
Qed.

(** ** The output *)

Definition byte_token (c : Z) : option Z :=
  match v_token_to_id v !! byte_name c with Some t => Some t | None => v_token_to_id v !! c_str [c] end.

Definition spm_tokens (p : list Z) : list Z :=
  match v_token_to_id v !! p with Some t => [t] | None => (fun c => default LLAMA_TOKEN_NULL (byte_token c)) <$> p end.

Context (Htype : v_type v = LLAMA_VOCAB_TYPE_SPM) (Hbytes : forall c, c ∈ text -> is_Some (byte_token c)).

Lemma byte_to_token_ok c : c ∈ text -> byte_to_token v c = Ok (default LLAMA_TOKEN_NULL (byte_token c)).
Proof.
  intros Hc. destruct (Hbytes c Hc) as [t Ht]. rewrite Ht. unfold byte_to_token. rewrite (has_type_ok v Hv), bind_ok, Htype.
  unfold byte_token in Ht. destruct (v_token_to_id v !! byte_name c); [by injection Ht as ->|]. unfold at_key. by rewrite Ht.
Qed.

Lemma resegment_ok fuel s sym output : merged_tokens s -> (sym_text sym + sym_n sym <= length text)%nat ->
  spm_resegment v (S fuel) text s sym output = Ok (output ++ spm_tokens (piece text sym)).
Proof.
  intros HX Hle. cbn [spm_resegment]. rewrite sub_text_ok, bind_ok by done. fold (piece text sym). unfold spm_tokens.
  destruct (v_token_to_id v !! piece text sym) as [t|] eqn:Ew.
  - destruct (text_to_token_some v Hv _ _ Ew) as [-> Ht]. by rewrite bind_ok, (proj2 (Z.eqb_neq _ _) Ht).
  - rewrite (text_to_token_none v Hv _ Ew), bind_ok. cbn [negb Z.eqb LLAMA_TOKEN_NULL Pos.eqb].
    destruct (spm_rev_merge s !! _) as [p|] eqn:Er; [destruct (HX _ _ Er); congruence|].
    assert (Hp : forall c, c ∈ piece text sym -> c ∈ text).
    { intros c Hc. unfold piece in Hc. rewrite <- (take_drop (sym_text sym) text). apply elem_of_app. right.
      rewrite <- (take_drop (sym_n sym) (drop _ _)). apply elem_of_app. by left. }
    revert output Hp. generalize (piece text sym). intros l. induction l as [|c l IH]; intros output Hp; [by rewrite app_nil_r|].
    cbn [foldM fmap list_fmap]. rewrite byte_to_token_ok, !bind_ok by (apply Hp; by left). rewrite IH by (intros; apply Hp; by right).
    by rewrite <- app_assoc.
Qed.

Lemma output_round s i sy output : merged_tokens s -> spm_symbols s !! i = Some sy -> (sym_text sy + sym_n sy <= length text)%nat ->
  spm_output_body v text s (Z.of_nat i, output) = Ok (inl (sym_next sy, output ++ spm_tokens (piece text sy))).
Proof.
  intros HX Es Hle. unfold spm_output_body. rewrite (proj2 (Z.eqb_neq _ _)) by lia.
  by rewrite (idx_ok _ _ _ Es), bind_ok, resegment_ok, bind_ok.
Qed.

Lemma output_ok s prev off L fuel output : merged_tokens s -> linked (spm_symbols s) prev off L (-1) (length text) ->
  (length L < fuel)%nat ->
  loop fuel (spm_output_body v text s) (first_of L (-1), output) = Ok (-1, output ++ concat (spm_tokens <$> pieces_of text (spm_symbols s) L)).
Proof.
  intros HX. revert prev off fuel output. induction L as [|i L IH]; intros prev off [|fuel] output Hl Hf; try (simpl in Hf; lia).
  - cbn. by rewrite app_nil_r.
  - pose proof (linked_lookup _ _ _ _ _ _ i Hl ltac:(by left)) as (s1 & Es1 & _ & _ & Hle).
    cbn [linked] in Hl. destruct Hl as (sy & Es & _ & _ & _ & En & Hl). rewrite Es in Es1. injection Es1 as <-.
    cbn [first_of loop]. rewrite (output_round s i sy output HX Es Hle), bind_ok, En, (IH _ _ fuel _ Hl) by (simpl in Hf; lia).
    unfold pieces_of. rewrite !fmap_cons, Es. cbn [concat]. by rewrite <- app_assoc.
Qed.
End text.

Lemma spm_tokenize_ok text output : v_type v = LLAMA_VOCAB_TYPE_SPM -> text <> [] -> byte_values text ->
  (forall c, c ∈ text -> is_Some (byte_token c)) ->
  exists ps, greedy spm_key f_lt f_eq (utf8_chars text) ps /\
    spm_tokenize v text output = Ok (output ++ concat (spm_tokens <$> ps)).
Proof.
  intros Htype Hne Hb Hbytes. unfold spm_tokenize.
  destruct (runs_inv _ _ (split_symbols_ok text Hb)) as (syms & -> & C & Ep). rewrite bind_ok.
  destruct (runs_inv _ _ (seed_ok f_lt f_eq score_order spm_key text spm_symbols spm_queue merged_tokens
    (spm_try_add_bigram v text) (mk_spm syms [] ∅) (length syms) (spm_add text) C eq_refl ltac:(intros ? ?; cbn; by rewrite lookup_empty))) as (s0 & E0 & Hs0 & Es0).
  unfold spm_seed. rewrite E0, bind_ok. unfold spm_merge. cbn [spm_symbols] in Es0. rewrite Es0.
  destruct (runs_inv _ _ (merge_loop_ok f_lt f_eq score_order spm_key text _ _ _ _ (spm_round text)
    (S (length (spm_queue s0) + 2 * length syms)) s0 _ Hs0 ltac:(rewrite length_seq; lia))) as (s1 & -> & L & (C1 & _ & HX1) & G).
  rewrite bind_ok, Es0, Ep in *. exists (pieces_of text (spm_symbols s1) L). split; [done|].
  destruct L as [|i L].
  { destruct Hne. by rewrite <- (chain_concat _ _ _ C1). }
  pose proof (ch_head _ _ _ C1 i L eq_refl) as ->.
  pose proof (greedy_length _ _ _ _ _ G) as Hlen. rewrite <- Ep in Hlen. unfold pieces_of in Hlen. rewrite !length_fmap, length_seq in Hlen.
  pose proof (output_ok text Htype Hbytes s1 (-1) 0 (0%nat :: L) (S (S (length syms))) output HX1 (ch_linked _ _ _ C1) ltac:(lia)) as Ho.
  change (first_of (0%nat :: L) (-1)) with 0 in Ho. by rewrite Ho, bind_ok.
Qed.
End spm.

(** C14: The SPM tokenizer terminates and implements greedy merging: a text is cut into its
    characters, then the two neighbours whose joined text is the token of the highest score
    (the leftmost among equal scores) are merged, as long as any two neighbours make a token.
    The result is the tokens of the remaining pieces, bytes for a piece that is no token, and
    the pieces are the text: nothing is lost, although candidates go out of date in the queue
    and the priority queue may order equal elements in any way. *)
Theorem spm_merges_greedily {F} `{FloatOps F} `{!FloatLaws F} `{PriorityQueue} (v : llama_vocab F) text output :
  vocab_ok v -> v_type v = LLAMA_VOCAB_TYPE_SPM -> text <> [] -> byte_values text ->
  (forall c, c ∈ text -> is_Some (byte_token v c)) ->
  exists ps, greedy (spm_key v) f_lt f_eq (utf8_chars text) ps /\ concat ps = text /\
    spm_tokenize v text output = Ok (output ++ concat (spm_tokens v <$> ps)).
Proof.
  intros Hv Ht Hne Hb Hbytes. destruct (spm_tokenize_ok v Hv text output Ht Hne Hb Hbytes) as (ps & G & E).
  exists ps. split; [done|]. split; [|done]. rewrite (greedy_concat _ _ _ _ _ G).
  destruct (runs_inv _ _ (split_symbols_ok text Hb)) as (syms & _ & C & <-). by apply chain_concat.
Qed.

Lemma spm_merges_greedily_witness :
  spm_tokenize (H0 := list_queue) (toy_vocab LLAMA_VOCAB_TYPE_SPM) (lit "abcd") [] = Ok [1; 5; 7] /\
  exists ps, greedy (spm_key (toy_vocab LLAMA_VOCAB_TYPE_SPM)) f_lt f_eq (utf8_chars (lit "abcd")) ps /\ concat ps = lit "abcd" /\
    spm_tokenize (H0 := list_queue) (toy_vocab LLAMA_VOCAB_TYPE_SPM) (lit "abcd") [] =
      Ok ([] ++ concat (spm_tokens (toy_vocab LLAMA_VOCAB_TYPE_SPM) <$> ps)).
Proof.
  split; [vm_compute; reflexivity|].
  apply (spm_merges_greedily (H0 := list_queue) (toy_vocab LLAMA_VOCAB_TYPE_SPM) (lit "abcd") []).
  - by apply toy_vocab_ok.
  - vm_compute; reflexivity.
  - done.
  - unfold byte_values. repeat constructor; simpl; lia.
  - intros c Hc. cbn in Hc. rewrite !elem_of_cons in Hc. destruct Hc as [->|[->|[->|[->|Hc]]]]; [vm_compute; by eexists..|].
    by apply elem_of_nil in Hc.
Defined.
