(* ===== verification/VocabBpeOk.v ===== *)
(** The BPE tokenizer: every word of the pre-tokenizer is merged greedily by rank, and the
    output is the tokens of the pieces of all words in order. *)

From stdpp Require Import sorting.
From S2P Require Import Prelude Utf8 Unicode UnicodeOk UnicodeSplit UnicodeRegex UnicodeRegexOk Vocab VocabOk VocabMerge VocabMergeOk VocabSpmOk.
Local Open Scope Z_scope.

(** A greater rank is worse. *)
Definition rank_worse (a b : Z) : bool := b <? a.
Lemma rank_order : key_order rank_worse Z.eqb.
Proof.
  unfold rank_worse. constructor; intros; rewrite ?Z.eqb_eq, ?Z.ltb_lt in *; lia.
Qed.

Lemma filter_increasing (P : nat -> Prop) `{!forall x, Decision (P x)} (L : list nat) : StronglySorted lt L -> StronglySorted lt (filter P L).
Proof.
  induction 1 as [|x L _ IH Fx]; [constructor|]. rewrite filter_cons. destruct (decide (P x)); [|done]. constructor; [done|].
  rewrite list.Forall_forall in Fx |- *. intros y [_ Hy]%list_elem_of_filter. by apply Fx.
Qed.

Section bpe.
Context {F : Type} `{PriorityQueue} (v : llama_vocab F) (Hv : vocab_ok v).

Definition bpe_key (a b : list Z) : option Z :=
  r ← v_bpe_ranks v !! (a, b); if r <? 0 then None else Some r.

Section word.
Context (word : list Z) (Hsp : 32 ∉ word) (Hnl : 10 ∉ word).

Lemma bpe_add_none s left right : left = -1 \/ right = -1 -> bpe_add_new_bigram v word s left right = Ok s.
Proof. intros [->| ->]; unfold bpe_add_new_bigram; [done|]. by rewrite orb_true_r. Qed.

Lemma piece_elem sym c : c ∈ piece word sym -> c ∈ word.
Proof.
  intros Hc. unfold piece in Hc. rewrite <- (take_drop (sym_text sym) word). apply elem_of_app. right.
  rewrite <- (take_drop (sym_n sym) (drop _ _)). apply elem_of_app. by left.
Qed.

Lemma find_rank_ok si sj : find_bpe_rank v (piece word si) (piece word sj) =
  Ok (default (-1) (v_bpe_ranks v !! (piece word si, piece word sj))).
Proof.
  unfold find_bpe_rank. rewrite !bool_decide_true; [done|..]; intros Hc%piece_elem; done.
Qed.

Definition no_inv (s : bpe_session) : Prop := True.

Lemma bpe_add : add_spec rank_worse Z.eqb bpe_key word bpe_symbols bpe_queue no_inv (bpe_add_new_bigram v word).
Proof.
  intros s L i j C HX A. destruct (neighbour_text _ _ _ _ _ C A) as (si & sj & Ei & Ej & Hi & Hj & _ & _).
  unfold bpe_add_new_bigram, add_pair. rewrite !(proj2 (Z.eqb_neq _ (-1))) by lia. cbn [orb]. rewrite !Nat2Z.id, Ei, Ej.
  rewrite (idx_ok _ _ _ Ei), bind_ok, (idx_ok _ _ _ Ej), bind_ok, (sub_text_ok word (sym_text si)), bind_ok, (sub_text_ok word (sym_text sj)), bind_ok by done.
  fold (piece word si) (piece word sj). rewrite find_rank_ok, bind_ok. unfold pushed, bpe_key.
  destruct (v_bpe_ranks v !! _) as [r|]; cbn [default mbind option_bind].
  - unfold id. destruct (r <? 0); eexists; repeat split.
  - eexists; repeat split.
Qed.

Lemma bpe_round : round_spec rank_worse Z.eqb bpe_key word bpe_symbols bpe_queue no_inv (bpe_merge_body v word).
Proof.
  intros s L C HX. change (less rank_worse Z.eqb) with bpe_less in *. unfold bpe_merge_body.
  destruct (pq_pop bpe_less (bpe_queue s)) as [[b q']|]; [|done]. intros i j si sj Cb El Er Ei Ej. cbn [bpe_symbols bpe_queue].
  rewrite El, Er, (idx_ok _ _ _ Ei), bind_ok, (idx_ok _ _ _ Ej), bind_ok. split.
  - intros Hout. exists (mk_bpe (bpe_symbols s) q'). split; [|repeat split].
    destruct ((sym_n si =? 0)%nat || (sym_n sj =? 0)%nat) eqn:Et; [done|].
    rewrite orb_false_iff, !Nat.eqb_neq in Et. destruct Et as [Ni Nj].
    destruct (chain_live _ _ _ i C) as (s1 & E1 & _ & H1); [by eapply (chain_alive word)|]. rewrite Ei in E1. injection E1 as <-.
    destruct (chain_live _ _ _ j C) as (s2 & E2 & _ & H2); [by eapply (chain_alive word)|]. rewrite Ej in E2. injection E2 as <-.
    rewrite (sub_text_ok word (sym_text si)), bind_ok, (sub_text_ok word (sym_text sj)), bind_ok by done. fold (piece word si) (piece word sj).
    rewrite bool_decide_true; [done|]. by eapply Hout.
  - intros L1 L2 syms' si' -> Eb Em C' Ei'.
    destruct (chain_pair _ _ _ _ _ _ C) as (ti & tj & Eti & Etj & _ & _ & Ett & Ni & Nj & _ & _ & Hle). rewrite Ei in Eti. injection Eti as <-.
    rewrite Ej in Etj. injection Etj as <-.
    rewrite (proj2 (Nat.eqb_neq _ _)), (proj2 (Nat.eqb_neq _ _)) by lia. cbn [orb].
    rewrite (sub_text_ok word (sym_text si)), bind_ok, (sub_text_ok word (sym_text sj)), bind_ok by lia. fold (piece word si) (piece word sj).
    rewrite bool_decide_false by (intros N; by apply N). rewrite Em, bind_ok, (idx_ok _ _ _ Ei'), bind_ok.
    destruct (chain_at _ _ _ _ _ C') as (s0 & E0 & Hp & Hx). rewrite Ei' in E0. injection E0 as <-.
    set (s2 := mk_bpe syms' q').
    assert (A1 : exists s3, bpe_add_new_bigram v word s2 (sym_prev si') (Z.of_nat i) = Ok s3 /\ bpe_symbols s3 = syms' /\
      bpe_queue s3 = add_pair rank_worse Z.eqb bpe_key word syms' q' (sym_prev si') (Z.of_nat i)).
    { rewrite Hp. destruct (last_of_cases L1) as [[-> ->]|(M & p & -> & ->)].
      - rewrite bpe_add_none, add_pair_none by (by left). by exists s2.
      - destruct (bpe_add s2 ((M ++ [p]) ++ i :: L2) p i) as (s3 & ? & ? & _ & ?); [done..| |by exists s3].
        apply adj_split. exists M, L2. by rewrite <- app_assoc. }
    destruct A1 as (s3 & -> & E3 & Eq3). rewrite bind_ok, E3, (idx_ok _ _ _ Ei'), bind_ok, Hx. rewrite <- Eq3.
    destruct L2 as [|h L2]; cbn [first_of].
    + rewrite bpe_add_none, add_pair_none, bind_ok by (by right). exists s3. repeat split; done.
    + destruct (bpe_add s3 (L1 ++ i :: h :: L2) i h) as (s4 & -> & E4 & HX4 & Eq4); [by rewrite E3|done|apply adj_split; by exists L1, L2|].
      rewrite bind_ok. exists s4. rewrite E4, Eq4, E3. repeat split.
Qed.

(** The pieces of a word: itself when merges are ignored for tokens, or the result of merging. *)
Definition bpe_pieces (ps : list (list Z)) : Prop :=
  if v_ignore_merges v && bool_decide (is_Some (v_token_to_id v !! word)) then ps = [word]
  else greedy bpe_key rank_worse Z.eqb (utf8_chars word) ps.

Lemma sorted_same (L M : list nat) : StronglySorted lt L -> StronglySorted lt M -> (forall x, x ∈ L <-> x ∈ M) -> L = M.
Proof.
  intros HL HM E. assert (AntiSymm eq lt) by (intros x y ? ?; lia). apply (StronglySorted_unique lt); [done|done|]. apply NoDup_Permutation; [by apply StronglySorted_NoDup_lt..|done].
Qed.

(** The live symbols in the order of the vector. *)
Definition live (syms : list llm_symbol) : list llm_symbol := filter (fun s => (0 < sym_n s)%nat) syms.

Lemma live_chain syms L : chain word syms L -> piece word <$> live syms = pieces_of word syms L.
Proof.
  intros C. unfold live. assert (EL : L = filter (fun i => 0 < default 0 (sym_n <$> syms !! i))%nat (seq 0 (length syms))).
  { apply sorted_same; [apply (ch_sorted _ _ _ C)| |].
    - apply filter_increasing, seq_increasing.
    - intros x. rewrite list_elem_of_filter, elem_of_seq. split.
      + intros Hx. destruct (chain_live _ _ _ x C Hx) as (s & Es & Hn & _). rewrite Es. cbn. apply lookup_lt_Some in Es. lia.
      + intros [Hx _]. destruct (syms !! x) as [s|] eqn:Es; cbn in Hx; [|lia]. eapply (chain_alive word); [done|done|lia]. }
  rewrite EL. clear. unfold pieces_of. induction syms as [|s syms IH] using rev_ind; [done|].
  rewrite list.filter_app, fmap_app, IH, length_app, seq_app, list.filter_app, fmap_app. cbn [length seq]. rewrite Nat.add_0_l. f_equal.
  - assert (E : forall k, k ∈ seq 0 (length syms) -> (syms ++ [s]) !! k = syms !! k) by (intros k ?%elem_of_seq; apply lookup_app_l; lia).
    revert E. generalize (seq 0 (length syms)). intros l. induction l as [|k l IHl]; intros E; [done|].
    rewrite !filter_cons, E by (by left). destruct (decide _); cbn; [rewrite E by (by left); f_equal|]; apply IHl; intros; apply E; by right.
  - rewrite !filter_cons. rewrite lookup_app_r, Nat.sub_diag by lia. cbn. destruct (decide _); [|done]. cbn.
    by rewrite lookup_app_r, Nat.sub_diag by lia.
Qed.
Context (Hb : byte_values word).

(** A whole word that is taken as one symbol. *)
Lemma whole_chain : word <> [] -> chain word [mk_sym (-1) (-1) 0 (length word)] [0%nat].
Proof.
  intros Hne. assert (0 < length word)%nat by (destruct word; [done|simpl; lia]). constructor.
  - cbn. eexists. split; [done|]. cbn. do 2 (split; [done|]). split; [lia|]. done.
  - repeat constructor.
  - intros [|i] s Hi Hn; [destruct Hn; by left|done].
  - by intros i L' [= <- _].
Qed.

Lemma bpe_word_ok : runs (bpe_word v word) (fun syms => exists ps, bpe_pieces ps /\ piece word <$> live syms = ps /\
  forall s, s ∈ syms -> (0 < sym_n s)%nat -> (sym_text s + sym_n s <= length word)%nat).
Proof.
  assert (R : runs (bpe_word_symbols v word) (fun syms => chain word syms (seq 0 (length syms)) /\
    if v_ignore_merges v && bool_decide (is_Some (v_token_to_id v !! word)) then syms = [mk_sym (-1) (-1) 0 (length word)]
    else pieces_of word syms (seq 0 (length syms)) = utf8_chars word)).
  { unfold bpe_word_symbols. destruct (v_ignore_merges v); [|by apply (split_symbols_ok word Hb)].
    destruct (v_token_to_id v !! word) as [t|] eqn:Ew; cbn [andb].
    - destruct (text_to_token_some v Hv _ _ Ew) as [-> Ht]. rewrite bind_ok, (proj2 (Z.eqb_neq _ _) Ht). cbn [negb andb].
      apply runs_ok. rewrite bool_decide_true by (by eexists). split; [|done]. apply whole_chain. intros ->. by rewrite (empty_no_token v Hv) in Ew.
    - rewrite (text_to_token_none v Hv _ Ew), bind_ok. cbn [negb andb Z.eqb LLAMA_TOKEN_NULL Pos.eqb].
      rewrite bool_decide_false by (by intros [? ?]). by apply (split_symbols_ok word Hb). }
  apply runs_inv in R as (syms & E & C & Hp). unfold bpe_word. rewrite E, bind_ok. unfold bpe_seed.
  destruct (runs_inv _ _ (seed_ok rank_worse Z.eqb rank_order bpe_key word bpe_symbols bpe_queue no_inv
    (bpe_add_new_bigram v word) (mk_bpe syms []) (length syms) bpe_add C eq_refl I)) as (s0 & E0 & Hs0 & Es0).
  rewrite E0, bind_ok. cbn [bpe_symbols] in Es0. rewrite Es0.
  destruct (runs_inv _ _ (merge_loop_ok rank_worse Z.eqb rank_order bpe_key word _ _ _ _ bpe_round
    (S (length (bpe_queue s0) + 2 * length syms)) s0 _ Hs0 ltac:(rewrite length_seq; lia))) as (s1 & -> & L & (C1 & _ & _) & G).
  rewrite bind_ok. apply runs_ok. exists (pieces_of word (bpe_symbols s1) L). split; [|split].
  - rewrite Es0 in G. unfold bpe_pieces. destruct (v_ignore_merges v && _); [|by rewrite <- Hp].
    subst syms. destruct G as [R _]. pose proof (chain_concat _ _ _ C) as Ec. cbn in Ec, R. rewrite app_nil_r in Ec. rewrite Ec in R.
    inversion R as [|x y z S]; [done|]. subst. inversion S as [l1 a b l2 Hbp E1 E2]. by destruct l1 as [|? [|]].
  - by apply live_chain.
  - intros s (i & Hi)%list_elem_of_lookup Hn. destruct (chain_live _ _ _ i C1) as (s' & Es & _ & Hle).
    { eapply (chain_alive word); [done|done|lia]. } rewrite Hi in Es. by injection Es as <-.
Qed.

(** ** The final list *)

(** The symbols [strs] linked in order. *)
Definition final_of (strs : list (list Z)) : list final_symbol :=
  imap (fun k s => mk_final (Z.of_nat k - 1) (if (S k =? length strs)%nat then -1 else Z.of_nat (S k)) s) strs.

Lemma final_length strs : length (final_of strs) = length strs.
Proof. apply length_imap. Qed.
Lemma final_snoc strs str p : final_of strs !! (length strs - 1)%nat = Some p ->
  final_of (strs ++ [str]) =
    <[(length strs - 1)%nat := fin_set_next p (Z.of_nat (length strs))]> (final_of strs) ++ [mk_final (Z.of_nat (length strs) - 1) (-1) str].
Proof.
  intros Hp. assert (Hl : (length strs - 1 < length strs)%nat) by (rewrite <- (final_length strs) at 2; by eapply lookup_lt_Some).
  unfold final_of in Hp. rewrite list_lookup_imap in Hp. destruct (strs !! (length strs - 1)%nat) as [z|] eqn:Ez; [|done]. injection Hp as <-.
  apply list_eq. intros k. unfold final_of. rewrite list_lookup_imap, length_app. cbn [length].
  destruct (decide (k < length strs)%nat) as [Hk|Hk].
  - rewrite !lookup_app_l by (rewrite ?length_insert, ?length_imap; done).
    destruct (lookup_lt_is_Some_2 strs k Hk) as [x Ex]. rewrite Ex. cbn [fmap option_fmap option_map].
    destruct (decide (k = length strs - 1)%nat) as [->|Hne].
    + rewrite list_lookup_insert_eq by (by rewrite length_imap). rewrite Ez in Ex. injection Ex as ->. unfold fin_set_next. cbn [fin_prev fin_str].
      rewrite (proj2 (Nat.eqb_neq _ _)) by lia. do 2 f_equal. lia.
    + rewrite list_lookup_insert_ne, list_lookup_imap, Ex by done. cbn [fmap option_fmap option_map].
      by rewrite !(proj2 (Nat.eqb_neq _ _)) by lia.
  - rewrite !lookup_app_r by (rewrite ?length_insert, ?length_imap; lia). rewrite length_insert, length_imap.
    destruct (k - length strs)%nat as [|m] eqn:E; cbn [lookup list_lookup fmap option_fmap option_map]; [|done]. rewrite (proj2 (Nat.eqb_eq _ _)) by lia. do 2 f_equal. lia.
Qed.

Definition final_state (strs : list (list Z)) : list final_symbol * Z := (final_of strs, Z.of_nat (length strs) - 1).

Lemma bpe_finish_ok strs s : (sym_text s + sym_n s <= length word)%nat ->
  bpe_finish word (final_state strs) s =
    Ok (final_state (if (0 <? sym_n s)%nat then strs ++ [piece word s] else strs)).
Proof.
  intros Hle. unfold bpe_finish, final_state. destruct (0 <? sym_n s)%nat; [|done]. rewrite sub_text_ok, bind_ok by done. fold (piece word s).
  destruct (decide (strs = [])) as [->|Hne]; [done|]. assert (Hl : (0 < length strs)%nat) by (destruct strs; [done|simpl; lia]).
  rewrite (proj2 (Z.eqb_neq _ (-1))) by lia. cbn [negb].
  destruct (lookup_lt_is_Some_2 (final_of strs) (length strs - 1)) as [p Hp]; [rewrite final_length; lia|].
  replace (Z.of_nat (length strs) - 1) with (Z.of_nat (length strs - 1)) by lia. rewrite (idx_ok _ _ _ Hp), bind_ok, final_length.
  unfold set_idx. rewrite (proj2 (Z.ltb_ge _ 0)), Nat2Z.id, wr_ok, bind_ok by (rewrite ?final_length; lia).
  rewrite length_insert, final_length, (final_snoc _ _ _ Hp), length_app. cbn [length].
  replace (Z.of_nat (length strs + 1) - 1) with (Z.of_nat (length strs)) by lia. by replace (Z.of_nat (length strs) - 1) with (Z.of_nat (length strs - 1)) by lia.
Qed.

Lemma finish_all strs syms : (forall s, s ∈ syms -> (0 < sym_n s)%nat -> (sym_text s + sym_n s <= length word)%nat) ->
  foldM (bpe_finish word) (final_state strs) syms = Ok (final_state (strs ++ (piece word <$> live syms))).
Proof.
  revert strs. induction syms as [|s syms IH]; intros strs Hs; [cbn; by rewrite app_nil_r|]. cbn [foldM]. unfold live. rewrite filter_cons.
  destruct (decide (0 < sym_n s)%nat) as [Hn|Hn].
  - rewrite bpe_finish_ok by (apply Hs; [by left|done]). rewrite (proj2 (Nat.ltb_lt _ _) Hn), bind_ok, IH by (intros; apply Hs; [by right|done]).
    by rewrite fmap_cons, <- app_assoc.
  - assert (E : bpe_finish word (final_state strs) s = Ok (final_state strs)) by (unfold bpe_finish, final_state; by rewrite (proj2 (Nat.ltb_ge _ _)) by lia).
    rewrite E, bind_ok. apply IH. intros; apply Hs; [by right|done].
Qed.
End word.

(** ** The output *)

Definition bpe_tokens (p : list Z) : list Z :=
  match v_token_to_id v !! p with Some t => [t] | None => omap (fun c => v_token_to_id v !! [c]) p end.

Lemma bpe_emit_ok output p : bpe_emit v output p = Ok (output ++ bpe_tokens p).
Proof.
  unfold bpe_emit, bpe_tokens. destruct (v_token_to_id v !! p) as [t|] eqn:Ew.
  - destruct (text_to_token_some v Hv _ _ Ew) as [-> Ht]. by rewrite bind_ok, (proj2 (Z.eqb_neq _ _) Ht).
  - rewrite (text_to_token_none v Hv _ Ew), bind_ok. cbn [negb Z.eqb LLAMA_TOKEN_NULL Pos.eqb]. clear Ew.
    revert output. induction p as [|c p IH]; intros output; [cbn; by rewrite app_nil_r|]. cbn [foldM omap list_omap].
    destruct (v_token_to_id v !! [c]) as [t|] eqn:Ec.
    + destruct (text_to_token_some v Hv _ _ Ec) as [-> Ht]. rewrite !bind_ok, (proj2 (Z.eqb_neq _ _) Ht). cbn [negb]. rewrite IH. by rewrite <- app_assoc.
    + rewrite (text_to_token_none v Hv _ Ec), !bind_ok. cbn [negb Z.eqb LLAMA_TOKEN_NULL Pos.eqb]. apply IH.
Qed.

Lemma bpe_output_round strs k p output : strs !! k = Some p -> p <> [] ->
  bpe_output_body v (final_of strs) (Z.of_nat k, output) =
    Ok (inl (if (S k =? length strs)%nat then -1 else Z.of_nat (S k), output ++ bpe_tokens p)).
Proof.
  intros Hp Hne. unfold bpe_output_body. rewrite (proj2 (Z.eqb_neq _ _)) by lia.
  assert (E : final_of strs !! k = Some (mk_final (Z.of_nat k - 1) (if (S k =? length strs)%nat then -1 else Z.of_nat (S k)) p))
    by (unfold final_of; by rewrite list_lookup_imap, Hp).
  rewrite (idx_ok _ _ _ E), bind_ok. cbn [fin_str fin_next]. rewrite (proj2 (Nat.eqb_neq (length p) 0)) by (destruct p; [done|simpl; lia]).
  by rewrite bpe_emit_ok, bind_ok.
Qed.

Lemma bpe_output_ok strs k fuel output : Forall (fun p => p <> []) strs -> (k < length strs)%nat -> (length strs - k < fuel)%nat ->
  loop fuel (bpe_output_body v (final_of strs)) (Z.of_nat k, output) = Ok (-1, output ++ concat (bpe_tokens <$> drop k strs)).
Proof.
  intros Hne. revert k output. induction fuel as [|fuel IH]; intros k output Hk Hf; [lia|]. cbn [loop].
  destruct (lookup_lt_is_Some_2 strs k Hk) as [p Hp]. rewrite (bpe_output_round _ _ _ _ Hp), bind_ok by (by eapply Forall_lookup_1 in Hne).
  rewrite (drop_S _ _ _ Hp), fmap_cons. cbn [concat]. rewrite app_assoc. destruct (Nat.eqb_spec (S k) (length strs)) as [E|E].
  - rewrite drop_ge by lia. cbn. rewrite app_nil_r. destruct fuel; [lia|done].
  - by rewrite IH by lia.
Qed.
(** ** All words *)

(** What the merging code asserts of a word: bytes without blanks and line breaks. *)
Definition printable (w : list Z) : Prop := byte_values w /\ (32 ∉ w) /\ (10 ∉ w).

Lemma chars_concat w : byte_values w -> concat (utf8_chars w) = w.
Proof. intros Hb. destruct (runs_inv _ _ (split_symbols_ok w Hb)) as (syms & _ & C & <-). by apply chain_concat. Qed.

Lemma bpe_pieces_concat w ps : byte_values w -> bpe_pieces w ps -> concat ps = w.
Proof.
  intros Hb. unfold bpe_pieces. destruct (_ && _); [intros ->; by rewrite concat_cons, app_nil_r|].
  intros G. by rewrite (greedy_concat _ _ _ _ _ G), chars_concat.
Qed.

Lemma words_ok words strs : Forall printable words ->
  runs (foldM (fun st word => symbols ← bpe_word v word; foldM (bpe_finish word) st symbols) (final_state strs) words)
    (fun st => exists pss, Forall2 bpe_pieces words pss /\ st = final_state (strs ++ concat pss) /\ Forall (fun p => p <> []) (concat pss)).
Proof.
  intros Hw. revert strs. induction Hw as [|w words (Hb & Hs & Hn) _ IH]; intros strs.
  - apply runs_ok. exists []. rewrite app_nil_r. repeat split; constructor.
  - cbn [foldM]. destruct (runs_inv _ _ (bpe_word_ok w Hs Hn Hb)) as (syms & -> & ps & Hp & El & Hle). rewrite bind_ok, finish_all, bind_ok by done.
    eapply runs_mono; [apply IH|]. intros st (pss & F2 & -> & Hne). exists (ps :: pss). split; [by constructor|].
    cbn [concat]. rewrite El, app_assoc. split; [done|]. apply Forall_app. split; [|done]. rewrite <- El. apply list.Forall_forall.
    intros p (s & -> & [Hlive Hin]%list_elem_of_filter)%list_elem_of_fmap E.
    pose proof (piece_length w s (Hle s Hin Hlive)) as Hl. rewrite E in Hl. simpl in Hl. lia.
Qed.

Context (ud : unicode_data) (en : regex_engine) (regex_exprs : list (list Z)).

Lemma bpe_tokenize_ok text words output : unicode_regex_split ud en text regex_exprs = Ok words -> Forall printable words ->
  exists pss, Forall2 bpe_pieces words pss /\
    bpe_tokenize v ud en regex_exprs text output = Ok (output ++ concat (bpe_tokens <$> concat pss)).
Proof.
  intros Ew Hw. destruct (runs_inv _ _ (words_ok words [] Hw)) as (st & E & pss & F2 & -> & Hne).
  exists pss. split; [done|]. unfold bpe_tokenize. rewrite Ew, bind_ok. change ([], -1) with (final_state []). rewrite E, bind_ok.
  cbn [app final_state fst]. set (strs := concat pss) in *. clearbody strs. destruct strs as [|p strs]; [cbn; by rewrite app_nil_r|].
  rewrite bool_decide_false by done.
  pose proof (bpe_output_ok (p :: strs) 0 (S (S (length (final_of (p :: strs))))) output Hne ltac:(simpl; lia) ltac:(rewrite final_length; lia)) as Ho.
  change (Z.of_nat 0) with 0 in Ho. by rewrite Ho, bind_ok.
Qed.
End bpe.

(** The words of the pre-tokenizer are printable. *)
Lemma encoded_printable l : Forall byte l -> printable (encoded_bytes l).
Proof.
  intros Hl. assert (G : forall c, c ∈ encoded_bytes l -> 33 <= c < 256).
  { unfold encoded_bytes. induction Hl as [|b l Hb _ IH]; [by intros c ?%elem_of_nil|]. rewrite fmap_cons, utf8_encode_cons. intros c.
    rewrite elem_of_app. intros [Hc|Hc]; [|by apply IH]. pose proof (byte_cpt_range b Hb). revert Hc. unfold utf8_bytes.
    pose proof (Z.mod_pos_bound (byte_cpt b) 64 eq_refl). pose proof (Z.div_mod (byte_cpt b) 64 ltac:(lia)).
    destruct (Z.ltb_spec (byte_cpt b) 128); [intros ->%list_elem_of_singleton; lia|].
    rewrite (proj2 (Z.ltb_lt (byte_cpt b) 2048)) by lia. intros [->| ->%list_elem_of_singleton]%elem_of_cons; lia. }
  split_and!.
  - apply list.Forall_forall. intros c Hc. specialize (G c Hc). lia.
  - intros Hc. specialize (G _ Hc). lia.
  - intros Hc. specialize (G _ Hc). lia.
Qed.
Lemma encoded_words_printable ps : Forall (Forall scalar) ps -> Forall printable (encoded_words ps).
Proof.
  intros H. unfold encoded_words. apply Forall_fmap. eapply list.Forall_impl; [exact H|]. intros p Hp. by apply encoded_printable, utf8_encode_byte.
Qed.

(** C13: The BPE tokenizer terminates, runs none of its assertions, and merges greedily: every
    word of the pre-tokenizer is cut into characters, of which the two neighbours with the
    lowest rank (the leftmost among equals) are merged as long as any pair has a rank; with
    [ignore_merges] a word that is a token stays whole.  The output is the tokens of the
    pieces of all words in order, and the pieces are the text, byte by byte as characters. *)
Theorem bpe_merges_greedily {F} `{PriorityQueue} (v : llama_vocab F) ud en regex_exprs text cpts words output :
  vocab_ok v -> iterates (re_matches en) -> iterates (wre_matches en) ->
  unicode_cpts_from_utf8 text = Ok cpts -> Forall scalar cpts ->
  unicode_regex_split ud en text regex_exprs = Ok words ->
  exists pss, Forall2 (bpe_pieces v) words pss /\ concat (concat pss) = encoded_bytes (utf8_encode cpts) /\
    bpe_tokenize v ud en regex_exprs text output = Ok (output ++ concat (bpe_tokens v <$> concat pss)).
Proof.
  intros Hv Hre Hwre Ec Hsc Ew. pose proof (regex_split_lands ud en Hre Hwre text cpts regex_exprs Ec Hsc) as L. rewrite Ew in L.
  destruct L as (ps & -> & <- & Hps). pose proof (encoded_words_printable ps Hps) as Hw.
  destruct (bpe_tokenize_ok v Hv ud en regex_exprs text _ output Ew Hw) as (pss & F2 & E). exists pss. split; [done|]. split; [|done].
  rewrite <- encoded_words_concat. clear Ew E. revert Hw. induction F2 as [|w q ws qs Hq _ IH]; intros Hw; [done|].
  apply list.Forall_cons in Hw as [(Hb & _) Hw]. cbn [concat]. rewrite concat_app, (bpe_pieces_concat v w q Hb Hq), IH by done. done.
Qed.

Lemma bpe_merges_greedily_witness :
  unicode_regex_split toy_ud toy_engine (lit "abc ab") [gpt2_regex] = Ok [lit "abc"; encoded_bytes (lit " ab")] /\
  bpe_tokenize (H := list_queue) (toy_vocab LLAMA_VOCAB_TYPE_BPE) toy_ud toy_engine [gpt2_regex] (lit "abc ab") [] = Ok [1; 5; 4] /\
  exists pss, Forall2 (bpe_pieces (toy_vocab LLAMA_VOCAB_TYPE_BPE)) [lit "abc"; encoded_bytes (lit " ab")] pss /\
    concat (concat pss) = encoded_bytes (utf8_encode (lit "abc ab")) /\
    bpe_tokenize (H := list_queue) (toy_vocab LLAMA_VOCAB_TYPE_BPE) toy_ud toy_engine [gpt2_regex] (lit "abc ab") [] =
      Ok ([] ++ concat (bpe_tokens (toy_vocab LLAMA_VOCAB_TYPE_BPE) <$> concat pss)).
Proof.
  assert (Es : unicode_regex_split toy_ud toy_engine (lit "abc ab") [gpt2_regex] = Ok [lit "abc"; encoded_bytes (lit " ab")])
    by (vm_compute; reflexivity).
  split; [done|]. split; [vm_compute; reflexivity|].
  apply (bpe_merges_greedily (H := list_queue) (toy_vocab LLAMA_VOCAB_TYPE_BPE) toy_ud toy_engine [gpt2_regex] (lit "abc ab") (lit "abc ab")).
  - by apply toy_vocab_ok.
  - done.
  - intros e t ms [= <-]. by apply (toy_find_in 0 0 t).
  - vm_compute; reflexivity.
  - unfold scalar. repeat constructor; simpl; lia.
  - done.
Defined.
