(* ===== verification/VocabUgm.v ===== *)
(** The unigram tokenizer of src/llama/llama.cpp/src/llama-vocab.cpp ([llm_tokenizer_ugm] and
    its session): the trie of tokens, the normalization of the input with the compact double
    array of the model, and the search for the segmentation of the highest score. *)

From S2P Require Import Prelude Unicode Vocab.
Local Open Scope Z_scope.

(** ** The trie *)

#[warnings="-register-all"]
Inductive naive_trie := mk_trie { children : list (Z * naive_trie); has_value : bool; value : Z }.
Definition trie_empty : naive_trie := mk_trie [] false 0.

Fixpoint find_child (l : list (Z * naive_trie)) (c : Z) : option naive_trie :=
  match l with [] => None | (k, t) :: l => if k =? c then Some t else find_child l c end.
Fixpoint set_child (l : list (Z * naive_trie)) (c : Z) (t : naive_trie) : list (Z * naive_trie) :=
  match l with [] => [(c, t)] | (k, t') :: l => if k =? c then (k, t) :: l else (k, t') :: set_child l c t end.

Definition traverse (t : naive_trie) (c : Z) : option naive_trie := find_child (children t) c.

Fixpoint trie_insert (t : naive_trie) (key : list Z) (v : Z) : naive_trie :=
  match key with
  | [] => mk_trie (children t) true v
  | c :: key =>
      let sub := default trie_empty (traverse t c) in
      mk_trie (set_child (children t) c (trie_insert sub key v)) (has_value t) (value t)
  end.

(** The length of the longest path along [key]. *)
Fixpoint get_longest_prefix (t : naive_trie) (key : list Z) (offset : nat) : nat :=
  match key with
  | [] => offset
  | c :: key => match traverse t c with Some t' => get_longest_prefix t' key (offset + 1) | None => offset end
  end.

(** [s[i]] of a [std::string]: the byte behind the end is zero. *)
Definition str_at (s : list Z) (i : nat) : res Z := if (i =? length s)%nat then Ok 0 else rd s i.

(** ** The tokenizer *)

Section ugm.
Context {F : Type} `{FloatOps F} (v : llama_vocab F).

Record llm_tokenizer_ugm := mk_ugm {
  ugm_prefix_replacements : list Z;
  ugm_xcda_array : list Z;
  ugm_user_defined_token_matcher : naive_trie;
  ugm_min_score : F;
  ugm_max_score : F;
  ugm_unknown_token_score : F;
  ugm_token_matcher : naive_trie
}.

(** A little-endian 32-bit word. *)
Definition le32 (l : list Z) (offset : nat) : res Z :=
  b0 ← rd l offset; b1 ← rd l (offset + 1); b2 ← rd l (offset + 2); b3 ← rd l (offset + 3);
  Ok (b0 + 256 * b1 + 65536 * b2 + 16777216 * b3).

(** The two parts of the precompiled character map. *)
Definition parse_charsmap (precompiled_charsmap : list Z) : res (list Z * list Z) :=
  if (0 <? length precompiled_charsmap)%nat then
    xcda_blob_size ← le32 precompiled_charsmap 0;
    let charsmap_offset := 4 in
    if Z.of_nat (length precompiled_charsmap) <=? xcda_blob_size + charsmap_offset
    then Throw "Index out of array bounds in precompiled charsmap!"
    else
      words ← foldM (fun l i => w ← le32 precompiled_charsmap (4 + 4 * i)%nat; Ok (l ++ [w])) [] (seq 0 (Z.to_nat (xcda_blob_size / 4)));
      Ok (words, drop (Z.to_nat (charsmap_offset + xcda_blob_size)) precompiled_charsmap)
  else Ok ([], []).

Definition std_min (a b : F) : F := if f_lt b a then b else a.
Definition std_max (a b : F) : F := if f_lt a b then b else a.

(** A token of the vocabulary: the range of scores and the two tries. *)
Definition ugm_token (st : F * F * naive_trie * naive_trie) (id : nat) : res (F * F * naive_trie * naive_trie) :=
  let '(min_score, max_score, matcher, user) := st in
  token_data ← get_token_data v (Z.of_nat id);
  normal ← is_normal v (Z.of_nat id);
  user_defined ← is_user_defined v (Z.of_nat id);
  unused ← is_unused v (Z.of_nat id);
  Ok (if (normal : bool) then std_min min_score (td_score token_data) else min_score,
      if (normal : bool) then std_max max_score (td_score token_data) else max_score,
      if (normal : bool) || user_defined || unused then trie_insert matcher (td_text token_data) (Z.of_nat id) else matcher,
      if (user_defined : bool) then trie_insert user (td_text token_data) 0 else user).

Definition ugm_new (precompiled_charsmap : list Z) : res llm_tokenizer_ugm :=
  p ← parse_charsmap precompiled_charsmap;
  r ← foldM ugm_token (f_highest, f_lowest, trie_empty, trie_empty) (seq 0 (length (v_id_to_token v)));
  let '(min_score, max_score, matcher, user) := r in
  Ok (mk_ugm p.2 p.1 user min_score max_score (f_sub min_score (f_of_Z 10)) matcher).

Context (tk : llm_tokenizer_ugm).

(** ** Normalization *)

(** Nodes of the double array. *)
Definition get_node (index : Z) : res Z :=
  if Z.of_nat (length (ugm_xcda_array tk)) <=? index then Throw "Index out of array bounds in XCDA array!"
  else idx (ugm_xcda_array tk) index.
Definition get_base (index : Z) : res Z :=
  packed_node ← get_node index;
  Ok (u32 (Z.shiftl (Z.shiftr packed_node 10) (Z.shiftr (Z.land packed_node 512) 6))).
Definition get_lcheck (index : Z) : res Z := packed_node ← get_node index; Ok (Z.land packed_node (Z.lor 2147483648 255)).
Definition get_leaf (index : Z) : res bool := packed_node ← get_node index; Ok (Z.land (Z.shiftr packed_node 8) 1 =? 1).
Definition get_value (index : Z) : res Z := packed_node ← get_node index; Ok (Z.land packed_node 2147483647).

(** The walk along the input: [node_index], and length and offset of the longest replacement;
    [inr] leaves the loop. *)
Definition xcda_step (input_offset : nat) (st : Z * nat * Z) (p : nat * Z) : res (Z * nat * Z + Z * nat * Z) :=
  let '(node_index, longest_length, longest_offset) := st in
  let '(prefix_offset, c) := p in
  if c =? 0 then Ok (inr st)
  else
    let node_index := Z.lxor node_index c in
    lcheck ← get_lcheck node_index;
    if negb (lcheck =? c) then Ok (inr (node_index, longest_length, longest_offset))
    else
      is_leaf ← get_leaf node_index;
      base ← get_base node_index;
      let node_index := Z.lxor node_index base in
      if (is_leaf : bool) then
        v ← get_value node_index; Ok (inl (node_index, (prefix_offset - input_offset + 1)%nat, v))
      else Ok (inl (node_index, longest_length, longest_offset)).

Definition xcda_walk (input : list Z) (input_offset : nat) : res (nat * Z) :=
  if (0 <? length (ugm_xcda_array tk))%nat then
    root ← get_base 0;
    r ← foldB (xcda_step input_offset) (root, 0%nat, 0)
          (zip (seq input_offset (length input - input_offset)) (drop input_offset input));
    Ok (match r with inl (_, n, o) | inr (_, n, o) => (n, o) end)
  else Ok (0%nat, 0).

(** [strlen]: the text up to the first zero. *)
Definition c_string (l : list Z) : res (list Z) :=
  match list_find (fun c => c = 0) l with Some (i, _) => Ok (take i l) | None => Fault OutOfRange end.

(** The normalized text of a prefix, and the length of the prefix. *)
Definition normalize_prefix (input : list Z) (input_offset : nat) : res (list Z * nat) :=
  if (input_offset =? length input)%nat then Ok ([], 0%nat)
  else
    let m := get_longest_prefix (ugm_user_defined_token_matcher tk) (drop input_offset input) 0 in
    if (0 <? m)%nat then Ok (take m (drop input_offset input), m)
    else
      w ← xcda_walk input input_offset;
      let '(longest_prefix_length, longest_prefix_offset) := w in
      if (0 <? longest_prefix_length)%nat then
        if Z.of_nat (length (ugm_prefix_replacements tk)) <=? longest_prefix_offset
        then Throw "Index out of array bounds in precompiled charsmap!"
        else
          prefix_replacement ← c_string (drop (Z.to_nat longest_prefix_offset) (ugm_prefix_replacements tk));
          Ok (prefix_replacement, longest_prefix_length)
      else
        match unicode_cpt_from_utf8 input input_offset with
        | Ok (_, prefix_offset) =>
            Ok (take (prefix_offset - input_offset) (drop input_offset input), (prefix_offset - input_offset)%nat)
        | Throw _ => Ok ([239; 191; 189], 1%nat)
        | Fault f => Fault f
        end.

Definition escaped_space : list Z := [226; 150; 129].

(** A character of the normalized prefix: the output, [is_space_prepended], [processing_non_ws]. *)
Definition normalize_char (st : list Z * bool * bool) (c : Z) : list Z * bool * bool :=
  let space := if v_escape_whitespaces v then escaped_space else [32] in
  let shall_prepend_space := negb (v_treat_whitespace_as_suffix v) && v_add_space_prefix v in
  let shall_merge_spaces := v_remove_extra_whitespaces v in
  let '(normalized, is_space_prepended, processing_non_ws) := st in
  if negb (c =? 32) then
    if negb processing_non_ws && ((shall_prepend_space && negb is_space_prepended) || shall_merge_spaces)
    then (normalized ++ space ++ [c], true, true)
    else (normalized ++ [c], is_space_prepended, true)
  else (if shall_merge_spaces then normalized else normalized ++ space, is_space_prepended, false).

Definition normalize_body (input : list Z) (st : nat * (list Z * bool * bool)) : res (nat * (list Z * bool * bool) + nat * (list Z * bool * bool)) :=
  let '(input_offset, s) := st in
  if (input_offset <? length input)%nat then
    norm_res ← normalize_prefix input input_offset;
    Ok (inl ((input_offset + norm_res.2)%nat, foldl normalize_char s norm_res.1))
  else Ok (inr st).

Definition normalize (input : list Z) : res (list Z) :=
  r ← loop (S (length input)) (normalize_body input) (0%nat, ([], false, false));
  let shall_append_space := v_treat_whitespace_as_suffix v && v_add_space_prefix v in
  let space := if v_escape_whitespaces v then escaped_space else [32] in
  Ok (if shall_append_space then r.2.1.1 ++ space else r.2.1.1).

(** ** The search *)

Record best_tokenization := mk_best { bt_token_id : Z; bt_input_offset : nat; bt_score_sum : F }.

(** [if (challenger.score_sum > champ.score_sum) champ = challenger;] *)
Definition challenge (results : list best_tokenization) (at_ : nat) (challenger : best_tokenization) : res (list best_tokenization) :=
  champ ← rd results at_;
  if f_lt (bt_score_sum champ) (bt_score_sum challenger) then wr results at_ challenger else Ok results.

(** A node of the trie on the walk: a token that ends at [prefix_offset]. *)
Definition ugm_candidate (input_offset n_utf8_code_units : nat) (score : F) (prefix_offset : nat) (node : naive_trie)
    (found : bool) (results : list best_tokenization) : res (bool * list best_tokenization) :=
  if has_value node then
    token_data ← get_token_data v (value node);
    user ← is_user_defined v (value node);
    let token_score := if (user : bool) then f_of_Z 0 else td_score token_data in
    results' ← challenge results prefix_offset (mk_best (value node) input_offset (f_add score token_score));
    Ok (found || (prefix_offset - input_offset =? n_utf8_code_units)%nat, results')
  else Ok (found, results).

(** The walk through the trie from [input_offset]: whether the code point is a token, and the
    results.  [current_best] is not written during the walk. *)
Fixpoint ugm_matches (fuel : nat) (normalized : list Z) (input_offset n_utf8_code_units : nat) (score : F)
    (prefix_offset : nat) (node : option naive_trie) (found : bool) (results : list best_tokenization) : res (bool * list best_tokenization) :=
  match fuel with
  | O => Fault OutOfFuel
  | S fuel =>
      match node with
      | Some node =>
          if (prefix_offset <=? length normalized)%nat then
            st ← ugm_candidate input_offset n_utf8_code_units score prefix_offset node found results;
            c ← str_at normalized prefix_offset;
            ugm_matches fuel normalized input_offset n_utf8_code_units score (prefix_offset + 1) (traverse node c) st.1 st.2
          else Ok (found, results)
      | None => Ok (found, results)
      end
  end.

Definition ugm_body (normalized : list Z) (st : nat * list best_tokenization) : res (nat * list best_tokenization + nat * list best_tokenization) :=
  let '(input_offset, results) := st in
  if (input_offset <? length normalized)%nat then
    c ← rd normalized input_offset;
    let n := Nat.min (unicode_len_utf8 c) (length normalized - input_offset) in
    current_best ← rd results input_offset;
    r ← ugm_matches (S (S (length normalized - input_offset))) normalized input_offset n (bt_score_sum current_best)
          (input_offset + 1) (traverse (ugm_token_matcher tk) c) false results;
    let '(found, results1) := (r : bool * list best_tokenization) in
    results' ← (if found then Ok results1
                else challenge results1 (input_offset + n)
                       (mk_best (v_special_unk_id v) input_offset (f_add (bt_score_sum current_best) (ugm_unknown_token_score tk))));
    Ok (inl ((input_offset + n)%nat, results'))
  else Ok (inr st).

(** The way back: the results, [is_prev_unknown] and the output.  [tokenization] is a reference
    to the last result, which the loop's assignment overwrites with the one before. *)
Definition backtrack_body (input_len : nat) (st : list best_tokenization * bool * list Z) :
    res (list best_tokenization * bool * list Z + list best_tokenization * bool * list Z) :=
  let '(results, is_prev_unknown, output) := st in
  tokenization ← rd results input_len;
  let is_unknown := bt_token_id tokenization =? v_special_unk_id v in
  let output := if negb (is_prev_unknown && is_unknown) then output ++ [bt_token_id tokenization] else output in
  if (bt_input_offset tokenization =? 0)%nat then Ok (inr (results, is_prev_unknown, output))
  else
    next ← rd results (bt_input_offset tokenization);
    results ← wr results input_len next;
    Ok (inl (results, is_unknown, output)).

Definition ugm_tokenize (text output : list Z) : res (list Z) :=
  normalized ← normalize text;
  if (length normalized =? 0)%nat then Ok output
  else
    let init := replicate (length normalized + 1) (mk_best (v_special_unk_id v) 0 f_lowest) in
    let init := <[0%nat := mk_best (v_special_unk_id v) 0 (f_of_Z 0)]> init in
    r ← loop (S (length normalized)) (ugm_body normalized) (0%nat, init);
    b ← loop (S (length normalized)) (backtrack_body (length normalized)) (r.2, false, []);
    Ok (output ++ rev b.2).
End ugm.
