(* ===== verification/VocabUgmOk.v ===== *)
(** The unigram tokenizer finds a segmentation of the highest score: the trie holds exactly
    the tokens, and the table of [ugm_tokenize] is a shortest-path search over the offsets of
    the text. *)

From S2P Require Import Prelude Unicode Vocab VocabOk VocabMerge VocabMergeOk VocabUgm.
Local Open Scope Z_scope.

(** ** The trie *)

Fixpoint walk (t : naive_trie) (key : list Z) : option naive_trie :=
  match key with [] => Some t | c :: key => t' ← traverse t c; walk t' key end.
Definition node_value (t : naive_trie) : option Z := if has_value t then Some (value t) else None.
Definition trie_value (t : naive_trie) (key : list Z) : option Z := t' ← walk t key; node_value t'.

Lemma find_set_child l c t c' : find_child (set_child l c t) c' = if decide (c = c') then Some t else find_child l c'.
Proof.
  induction l as [|[k t'] l IH]; cbn.
  - destruct (Z.eqb_spec c c'); [by rewrite decide_True|by rewrite decide_False].
  - destruct (Z.eqb_spec k c) as [->|Hk]; cbn.
    + destruct (Z.eqb_spec c c'); [by rewrite decide_True|by rewrite decide_False].
    + rewrite IH. destruct (Z.eqb_spec k c') as [->|]; [|done]. by rewrite decide_False.
Qed.

(** Inserting a key changes the value of that key only. *)
Lemma trie_insert_value t key x key' :
  trie_value (trie_insert t key x) key' = if decide (key = key') then Some x else trie_value t key'.
Proof.
  revert t key'. induction key as [|c key IH]; intros t [|c' key']; try done; cbn [trie_insert]; unfold trie_value; cbn [walk traverse children].
  unfold traverse at 1. cbn [children]. rewrite find_set_child. destruct (decide (c = c')) as [->|Hc]; cbn [mbind option_bind].
  - specialize (IH (default trie_empty (traverse t c')) key'). unfold trie_value in IH. rewrite IH.
    destruct (decide (key = key')) as [->|Hk]; [by rewrite decide_True|rewrite decide_False by congruence].
    destruct (traverse t c') as [t'|]; cbn; [done|]. by destruct key'.
  - rewrite decide_False by congruence. done.
Qed.
Lemma trie_empty_value key : trie_value trie_empty key = None.
Proof. by destruct key. Qed.

Lemma walk_snoc t key c : walk t (key ++ [c]) = t' ← walk t key; traverse t' c.
Proof.
  revert t. induction key as [|k key IH]; intros t; cbn; [by destruct (traverse t c)|]. destruct (traverse t k); cbn; [apply IH|done].
Qed.

(** ** The tokenizer of a vocabulary *)

Section new.
Context {F : Type} `{FloatOps F} (v : llama_vocab F) (Hv : vocab_ok v).

(** The attributes of the tokens that the trie holds. *)
Definition in_matcher (d : token_data F) : bool :=
  has_attr (td_attr d) ATTR_NORMAL || has_attr (td_attr d) ATTR_USER_DEFINED || has_attr (td_attr d) ATTR_UNUSED.

Lemma get_token_ok t d : v_id_to_token v !! t = Some d -> get_token_data v (Z.of_nat t) = Ok d.
Proof.
  intros Hd. unfold get_token_data, at_idx. by rewrite (has_type_ok v Hv), bind_ok, (proj2 (Z.ltb_ge _ 0)), Nat2Z.id, Hd by lia.
Qed.
Lemma is_attr_ok t d mask : v_id_to_token v !! t = Some d -> is_attr v mask (Z.of_nat t) = Ok (has_attr (td_attr d) mask).
Proof.
  intros Hd. unfold is_attr, idx. by rewrite (has_type_ok v Hv), bind_ok, (proj2 (Z.ltb_ge _ 0)), Nat2Z.id, (rd_ok _ _ _ Hd), bind_ok by lia.
Qed.

Definition matcher_at (i : nat) (m : naive_trie) : Prop := forall key t, trie_value m key = Some t <->
  exists n d, (n < i)%nat /\ t = Z.of_nat n /\ v_id_to_token v !! n = Some d /\ td_text d = key /\ in_matcher d = true.

Lemma same_text n n' d d' : v_id_to_token v !! n = Some d -> v_id_to_token v !! n' = Some d' -> td_text d = td_text d' -> n = n'.
Proof.
  intros H1 H2 E.
  assert (R : forall m x, v_id_to_token v !! m = Some x -> v_token_to_id v !! td_text x = Some (Z.of_nat m)).
  { intros m x Hx. apply (to_ids _ _ (vo_tables _ Hv)). split; [lia|]. exists x. by rewrite Nat2Z.id. }
  pose proof (R _ _ H1) as E1. pose proof (R _ _ H2) as E2. rewrite E in E1. rewrite E1 in E2. injection E2. lia.
Qed.

Lemma ugm_token_ok i mn mx m u d : v_id_to_token v !! i = Some d -> matcher_at i m ->
  exists mn' mx' m' u', ugm_token v (mn, mx, m, u) i = Ok (mn', mx', m', u') /\ matcher_at (i + 1) m'.
Proof.
  intros Hd Hm. unfold ugm_token, is_normal, is_user_defined, is_unused.
  rewrite (get_token_ok _ _ Hd), bind_ok, !(is_attr_ok _ _ _ Hd), !bind_ok. do 4 eexists. split; [done|].
  change (has_attr (td_attr d) ATTR_NORMAL || has_attr (td_attr d) ATTR_USER_DEFINED || has_attr (td_attr d) ATTR_UNUSED) with (in_matcher d).
  intros key t. destruct (in_matcher d) eqn:Ei.
  - rewrite trie_insert_value. destruct (decide (td_text d = key)) as [E|E].
    + split; [intros [= <-]; exists i, d; split_and!; try done; lia|]. intros (n & d' & _ & -> & Hn & En & _).
      by rewrite (same_text n i d' d Hn Hd) by congruence.
    + rewrite (Hm key t). split; intros (n & d' & Hn & ? & Hd' & ? & ?); exists n, d'; split_and!; try done; [lia|].
      destruct (decide (n = i)) as [->|]; [|lia]. rewrite Hd in Hd'. injection Hd' as <-. done.
  - rewrite (Hm key t). split; intros (n & d' & Hn & ? & Hd' & ? & ?); exists n, d'; split_and!; try done; [lia|].
    destruct (decide (n = i)) as [->|]; [|lia]. rewrite Hd in Hd'. injection Hd' as <-. congruence.
Qed.

(** The score of the unknown token: ten below the lowest score of a normal token. *)
Definition normal_scores (n : nat) : list F :=
  omap (fun d => if has_attr (td_attr d) ATTR_NORMAL then Some (td_score d) else None) (take n (v_id_to_token v)).
Definition unknown_score : F := f_sub (foldl std_min f_highest (normal_scores (length (v_id_to_token v)))) (f_of_Z 10).

Lemma ugm_token_min i mn mx m u mn' mx' m' u' : mn = foldl std_min f_highest (normal_scores i) ->
  ugm_token v (mn, mx, m, u) i = Ok (mn', mx', m', u') -> mn' = foldl std_min f_highest (normal_scores (i + 1)).
Proof.
  intros -> E. unfold ugm_token, is_normal in E. destruct (lookup_lt_is_Some (v_id_to_token v) i) as [_ Hs].
  destruct (v_id_to_token v !! i) as [d|] eqn:Hd.
  - rewrite (get_token_ok _ _ Hd), bind_ok, (is_attr_ok _ _ _ Hd), bind_ok in E. unfold is_user_defined, is_unused in E.
    rewrite !(is_attr_ok _ _ _ Hd), !bind_ok in E. injection E as <- _ _ _.
    unfold normal_scores. rewrite Nat.add_1_r, (take_S_r _ _ _ Hd), omap_app, foldl_app. cbn. by destruct (has_attr (td_attr d) ATTR_NORMAL).
  - exfalso. unfold get_token_data, at_idx in E. by rewrite (has_type_ok v Hv), bind_ok, (proj2 (Z.ltb_ge _ 0)), Nat2Z.id, Hd in E by lia.
Qed.

(** The trie of a tokenizer holds the normal, user-defined and unused tokens. *)
Lemma ugm_new_matcher charsmap tk : ugm_new v charsmap = Ok tk ->
  matcher_at (length (v_id_to_token v)) (ugm_token_matcher tk) /\ ugm_unknown_token_score tk = unknown_score.
Proof.
  unfold ugm_new. destruct (parse_charsmap charsmap) as [p|?|?]; [|done..]. rewrite bind_ok.
  assert (R : runs (foldM (ugm_token v) (f_highest, f_lowest, trie_empty, trie_empty) (seq 0 (length (v_id_to_token v))))
    (fun st => matcher_at (length (v_id_to_token v)) st.1.2 /\
      st.1.1.1 = foldl std_min f_highest (normal_scores (length (v_id_to_token v))))).
  { apply (runs_for (fun i st => matcher_at i st.1.2 /\ st.1.1.1 = foldl std_min f_highest (normal_scores i))).
    - split; [|done]. intros key t. cbn. rewrite trie_empty_value. split; [done|]. intros (n & d & ? & _). lia.
    - intros i [[[mn mx] m] u] Hi [Hm Hmn]. destruct (lookup_lt_is_Some_2 _ i Hi) as [d Hd].
      destruct (ugm_token_ok i mn mx m u d Hd Hm) as (? & ? & ? & ? & E & Hm'). rewrite E. apply runs_ok. cbn. split; [done|].
      by eapply ugm_token_min. }
  apply runs_inv in R as ([[[mn mx] m] u] & -> & Hm & Hmn). rewrite bind_ok. intros [= <-]. split; [done|]. cbn in *. by subst mn.
Qed.
End new.

(** ** The search *)

Section search.
Context {F : Type} `{FloatOps F} `{!FloatLaws F} (v : llama_vocab F) (Hv : vocab_ok v) (s : list Z) (Hb : byte_values s).

Abbreviation unk := (v_special_unk_id v).

Lemma f_not_lt_trans (x y z : F) : f_lt x y = false -> f_lt y z = false -> f_lt x z = false.
Proof.
  intros H1 H2. destruct (f_lt x z) eqn:E; [|done]. destruct (f_lt y x) eqn:E'.
  - rewrite <- H2. symmetry. by eapply f_lt_trans.
  - rewrite <- H2. symmetry. eapply f_eq_lt; [|done]. by rewrite f_eq_spec, E', H1.
Qed.

(** The score of a token: user-defined tokens count as zero. *)
Definition token_weight (id : Z) : F :=
  match v_id_to_token v !! Z.to_nat id with
  | Some d => if has_attr (td_attr d) ATTR_USER_DEFINED then f_of_Z 0 else td_score d
  | None => f_of_Z 0
  end.

Definition piece_at (o o' : nat) : list Z := take (o' - o) (drop o s).
Definition char_len (o : nat) : nat := Nat.min (unicode_len_utf8 (default 0 (s !! o))) (length s - o).

Lemma char_len_pos o : (o < length s)%nat -> (0 < char_len o)%nat /\ (o + char_len o <= length s)%nat.
Proof.
  intros Ho. unfold char_len. destruct (lookup_lt_is_Some_2 s o Ho) as [c Hc]. rewrite Hc. change (default 0 (Some c)) with c.
  assert (0 <= c < 256) by (by eapply Forall_lookup_1 in Hb). pose proof (len_utf8_pos c ltac:(lia)). lia.
Qed.

(** The token [id] of the vocabulary is written [key], and is normal, user-defined or unused. *)
Definition spells (id : Z) (key : list Z) : Prop :=
  exists d, 0 <= id /\ v_id_to_token v !! Z.to_nat id = Some d /\ td_text d = key /\ in_matcher d = true.

(** A step from [o] to [o']: a token, or the unknown token for a code point that is none. *)
Inductive edge (o o' : nat) : Z -> F -> Prop :=
  | token_edge id : (o < o')%nat -> (o' <= length s)%nat -> spells id (piece_at o o') -> edge o o' id (token_weight id)
  | unknown_edge : (o < length s)%nat -> o' = (o + char_len o)%nat -> (forall id, ~ spells id (piece_at o o')) ->
      edge o o' unk (unknown_score v).

(** The starts of characters. *)
Inductive boundary : nat -> Prop :=
  | boundary_0 : boundary 0
  | boundary_next o : boundary o -> (o < length s)%nat -> boundary (o + char_len o).

(** A segmentation of the text up to an offset, with its score (summed from the left) and its
    tokens. *)
Inductive segmentation : nat -> F -> list Z -> Prop :=
  | seg_nil : segmentation 0 (f_of_Z 0) []
  | seg_snoc o score ids o' id w : segmentation o score ids -> boundary o -> edge o o' id w ->
      segmentation o' (f_add score w) (ids ++ [id]).

Lemma edge_lt o o' id w : edge o o' id w -> (o < o' <= length s)%nat.
Proof. destruct 1 as [|Ho ->]; [lia|]. pose proof (char_len_pos o Ho). lia. Qed.

Lemma segmentation_le o score ids : segmentation o score ids -> (o <= length s)%nat.
Proof. destruct 1 as [|? ? ? ? ? ? _ _ He]; [lia|]. apply edge_lt in He. lia. Qed.

(** The trie of the tokenizer knows the tokens. *)
Context (tk : llm_tokenizer_ugm (F := F)).
Context (Hm : matcher_at v (length (v_id_to_token v)) (ugm_token_matcher tk)) (Hu : ugm_unknown_token_score tk = unknown_score v).

Lemma trie_spells key id : trie_value (ugm_token_matcher tk) key = Some id <-> spells id key.
Proof.
  rewrite (Hm key id). split.
  - intros (n & d & _ & -> & Hd & Ek & Ei). exists d. rewrite Nat2Z.id. split_and!; try done. lia.
  - intros (d & H0 & Hd & Ek & Ei). exists (Z.to_nat id), d. split_and!; try done; [by eapply lookup_lt_Some|lia].
Qed.
Lemma trie_spells_none key : trie_value (ugm_token_matcher tk) key = None <-> forall id, ~ spells id key.
Proof.
  split.
  - intros E id Hid%trie_spells. congruence.
  - intros Hn. destruct (trie_value _ key) as [id|] eqn:E; [|done]. by apply trie_spells, Hn in E.
Qed.

(** What the walk from [o] leaves at [x]: the better one of an entry and a token. *)
Definition better (e : best_tokenization (F := F)) (c : best_tokenization) : best_tokenization :=
  if f_lt (bt_score_sum e) (bt_score_sum c) then c else e.
Definition offered (o : nat) (score : F) (x : nat) (e : best_tokenization) : best_tokenization :=
  match trie_value (ugm_token_matcher tk) (piece_at o x) with
  | Some id => better e (mk_best id o (f_add score (token_weight id)))
  | None => e
  end.

Lemma challenge_ok R x e c : R !! x = Some e -> challenge R x c = Ok (<[x := better e c]> R).
Proof.
  intros He. unfold challenge, better. rewrite (rd_ok _ _ _ He), bind_ok. destruct (f_lt _ _).
  - apply wr_ok. by eapply lookup_lt_Some.
  - by rewrite list_insert_id.
Qed.

Lemma walk_none_value o p x : walk (ugm_token_matcher tk) (piece_at o p) = None -> (o <= p)%nat -> (p <= x)%nat ->
  trie_value (ugm_token_matcher tk) (piece_at o x) = None.
Proof.
  intros Hw Hop Hpx. unfold trie_value, piece_at in *. replace (x - o)%nat with ((p - o) + (x - p))%nat by lia.
  rewrite <- (take_drop (p - o) (take (p - o + (x - p)) (drop o s))), take_take, Nat.min_l by lia.
  generalize (drop (p - o) (take (p - o + (x - p)) (drop o s))). generalize dependent (take (p - o) (drop o s)). clear.
  intros key. generalize (ugm_token_matcher tk). induction key as [|c key IH]; intros t Hw rest; [done|]. cbn in *.
  destruct (traverse t c); cbn in *; [by apply IH|done].
Qed.

Lemma piece_snoc o p c : (o <= p)%nat -> s !! p = Some c -> piece_at o (p + 1) = piece_at o p ++ [c].
Proof.
  intros Ho Hc. unfold piece_at. replace (p + 1 - o)%nat with (S (p - o)) by lia. apply take_S_r. rewrite lookup_drop.
  by replace (o + (p - o))%nat with p by lia.
Qed.

Lemma matches_ok o score n fuel p found R : (o < p)%nat -> (length s + 2 - p < fuel)%nat -> length R = S (length s) ->
  exists found' R', ugm_matches v fuel s o n score p (walk (ugm_token_matcher tk) (piece_at o p)) found R = Ok (found', R') /\
    length R' = length R /\
    (forall x, R' !! x = if decide (p <= x)%nat then offered o score x <$> R !! x else R !! x) /\
    (found' = true <-> found = true \/ (p <= o + n <= length s)%nat /\ is_Some (trie_value (ugm_token_matcher tk) (piece_at o (o + n)))).
Proof.
  revert p found R. induction fuel as [|fuel IH]; intros p found R Hop Hf Hl; [lia|]. cbn [ugm_matches].
  destruct (walk (ugm_token_matcher tk) (piece_at o p)) as [node|] eqn:Ew.
  2: { exists found, R. split; [done|]. split; [done|]. split.
    - intros x. destruct (decide (p <= x)%nat); [|done]. unfold offered. rewrite (walk_none_value o p x Ew) by lia. by destruct (R !! x).
    - split; [by left|]. intros [?|[Hn [y Hy]]]; [done|]. by rewrite (walk_none_value o p (o + n) Ew) in Hy by lia. }
  destruct (Nat.leb_spec p (length s)) as [Hp|Hp].
  2: { exists found, R. split; [done|]. split; [done|]. split; [|split; [by left|intros [?|[? _]]; [done|lia]]].
    intros x. destruct (decide (p <= x)%nat); [|done]. by rewrite (lookup_ge_None_2 R x) by lia. }
  assert (St : exists found1, ugm_candidate v o n score p node found R = Ok (found1, alter (offered o score p) p R) /\
      (found1 = true <-> found = true \/ p = (o + n)%nat /\ is_Some (trie_value (ugm_token_matcher tk) (piece_at o (o + n))))).
  { assert (Ev : trie_value (ugm_token_matcher tk) (piece_at o p) = node_value node) by (unfold trie_value; by rewrite Ew).
    destruct (lookup_lt_is_Some_2 R p ltac:(lia)) as [e He]. assert (Ea : alter (offered o score p) p R = <[p := offered o score p e]> R).
    { apply list_eq. intros k. destruct (decide (k = p)) as [->|]; [rewrite list_lookup_alter_eq, He, list_lookup_insert_eq by lia; done|].
      by rewrite list_lookup_alter_ne, list_lookup_insert_ne by done. }
    rewrite Ea. unfold offered, ugm_candidate. rewrite Ev. unfold node_value in *. destruct (has_value node) eqn:Eh.
    - apply Hm in Ev as Hd. destruct Hd as (t & d & _ & Et & Hd & _ & _). rewrite Et. rewrite (get_token_ok v Hv _ _ Hd), bind_ok.
      unfold is_user_defined. rewrite (is_attr_ok v Hv _ _ _ Hd), bind_ok. cbn zeta. unfold token_weight. rewrite Nat2Z.id, Hd.
      rewrite (challenge_ok _ _ _ _ He), bind_ok. eexists. split; [done|]. rewrite orb_true_iff, Nat.eqb_eq. split; (intros [?|Hx]; [by left|right]).
      + assert (o + n = p)%nat as -> by lia. split; [done|]. rewrite Ev. by eexists.
      + lia.
    - exists found. split; [by rewrite list_insert_id|]. split; [by left|]. intros [?|[-> Hx]]; [done|]. rewrite Ev in Hx. by destruct Hx. }
  destruct St as (found1 & -> & Hfound1). rewrite bind_ok. set (R1 := alter _ p R).
  assert (Hl1 : length R1 = S (length s)) by (unfold R1; by rewrite length_alter).
  assert (HR1 : forall x, R1 !! x = if decide (p = x) then offered o score x <$> R !! x else R !! x).
  { intros x. unfold R1. destruct (decide (p = x)) as [->|]; [by rewrite list_lookup_alter_eq|by rewrite list_lookup_alter_ne]. }
  cbn [fst snd]. destruct (decide (p = length s)) as [->|Hne].
  - unfold str_at. rewrite Nat.eqb_refl, bind_ok. destruct fuel as [|fuel]; [lia|]. cbn [ugm_matches].
    assert (E : forall nd, ugm_matches v (S fuel) s o n score (length s + 1) nd found1 R1 = Ok (found1, R1)).
    { intros nd. cbn [ugm_matches]. destruct nd; [|done]. by rewrite (proj2 (Nat.leb_gt _ _)) by lia. }
    setoid_rewrite E. exists found1, R1. split; [done|]. split; [by rewrite Hl1, Hl|]. split.
    + intros x. rewrite HR1. destruct (decide (length s = x)) as [<-|]; [by rewrite decide_True|].
      destruct (decide (length s <= x)%nat); [|done]. by rewrite (lookup_ge_None_2 R x) by lia.
    + rewrite Hfound1. split; (intros [?|[? ?]]; [by left|right]); (split; [lia|done]).
  - destruct (lookup_lt_is_Some_2 s p ltac:(lia)) as [c Hc]. unfold str_at. rewrite (proj2 (Nat.eqb_neq _ _)), (rd_ok _ _ _ Hc), bind_ok by lia.
    assert (En : traverse node c = walk (ugm_token_matcher tk) (piece_at o (p + 1))) by (rewrite (piece_snoc o p c) by (lia || done); by rewrite walk_snoc, Ew).
    rewrite En. destruct (IH (p + 1)%nat found1 R1 ltac:(lia) ltac:(lia) Hl1) as (f2 & R2 & -> & Hl2 & HR2 & Hf2).
    exists f2, R2. split; [done|]. split; [by rewrite Hl2, Hl1, Hl|]. split.
    + intros x. rewrite HR2, HR1. destruct (decide (p = x)) as [<-|].
      * rewrite decide_False, decide_True by lia. done.
      * destruct (decide (p + 1 <= x)%nat), (decide (p <= x)%nat); try done; lia.
    + rewrite Hf2, Hfound1. split.
      * intros [[?|[-> ?]]|[? ?]]; [by left|right; split; [lia|done]..].
      * intros [?|[Hr ?]]; [by left; left|]. destruct (decide (p = o + n)%nat) as [->|]; [left; by right|right; split; [lia|done]].
Qed.

Lemma better_le e c : f_lt (bt_score_sum (better e c)) (bt_score_sum e) = false /\ f_lt (bt_score_sum (better e c)) (bt_score_sum c) = false.
Proof.
  unfold better. destruct (f_lt (bt_score_sum e) (bt_score_sum c)) eqn:E; (split; [|try apply f_lt_irrefl]); [|apply f_lt_irrefl|done].
  destruct (f_lt (bt_score_sum c) (bt_score_sum e)) eqn:E'; [|done]. by rewrite <- (f_lt_irrefl (bt_score_sum c)), (f_lt_trans _ _ _ E' E).
Qed.
Lemma better_or e c : better e c = e \/ better e c = c.
Proof. unfold better. destruct (f_lt _ _); [by right|by left]. Qed.

(** What a round does to the entry [e] at [x]: [e'] is [e] or the end of an edge, and nothing
    that was offered beats it. *)
Definition relaxed (o : nat) (score : F) (x : nat) (e e' : best_tokenization) : Prop :=
  (e' = e \/ exists id w, edge o x id w /\ e' = mk_best id o (f_add score w)) /\
  (forall id w, edge o x id w -> f_lt (bt_score_sum e') (f_add score w) = false) /\
  f_lt (bt_score_sum e') (bt_score_sum e) = false.

Lemma offered_relaxed o score x e : (o < x <= length s)%nat ->
  (x = (o + char_len o)%nat -> is_Some (trie_value (ugm_token_matcher tk) (piece_at o x))) -> relaxed o score x e (offered o score x e).
Proof.
  intros Hx Hn. unfold relaxed, offered. destruct (trie_value _ _) as [id|] eqn:Et.
  - set (c := mk_best _ _ _). destruct (better_le e c) as [He Hc]. split_and!; [|intros id' w Hw|done].
    + destruct (better_or e c) as [-> | ->]; [by left|right]. exists id, (token_weight id). split; [constructor; [lia..|by apply trie_spells]|done].
    + destruct Hw as [id0 _ _ Hs|_ _ Hs%trie_spells_none]; [|congruence]. apply trie_spells in Hs.
      assert (id0 = id) as -> by congruence. done.
  - split_and!; [by left| |apply f_lt_irrefl]. intros id w Hw. destruct Hw as [id _ _ Hid%trie_spells|? Ex _]; [congruence|]. destruct (Hn Ex). congruence.
Qed.

Lemma ugm_body_ok o R e0 : (o < length s)%nat -> length R = S (length s) -> R !! o = Some e0 ->
  exists R', ugm_body v tk s (o, R) = Ok (inl ((o + char_len o)%nat, R')) /\ length R' = length R /\
    forall x e, R !! x = Some e -> exists e', R' !! x = Some e' /\ relaxed o (bt_score_sum e0) x e e'.
Proof.
  intros Ho Hl He0. destruct (char_len_pos o Ho) as [Hn0 Hn]. destruct (lookup_lt_is_Some_2 s o Ho) as [c Hc].
  unfold ugm_body. rewrite (proj2 (Nat.ltb_lt _ _) Ho), (rd_ok _ _ _ Hc), bind_ok, (rd_ok _ _ _ He0), bind_ok. cbn zeta.
  assert (En : Nat.min (unicode_len_utf8 c) (length s - o) = char_len o) by (unfold char_len; by rewrite Hc). rewrite En.
  assert (Ew : traverse (ugm_token_matcher tk) c = walk (ugm_token_matcher tk) (piece_at o (o + 1))).
  { rewrite (piece_snoc o o c (le_n o) Hc), walk_snoc. unfold piece_at. by rewrite Nat.sub_diag. }
  rewrite Ew. destruct (matches_ok o (bt_score_sum e0) (char_len o) (S (S (length s - o))) (o + 1) false R ltac:(lia) ltac:(lia) Hl)
    as (found & R1 & -> & Hl1 & HR1 & Hfound). rewrite bind_ok.
  assert (Skip : forall x e, (x <= o)%nat -> relaxed o (bt_score_sum e0) x e e).
  { intros x e Hx. split_and!; [by left| |apply f_lt_irrefl]. intros id w Hw. apply edge_lt in Hw. lia. }
  destruct found.
  - rewrite bind_ok. exists R1. split_and!; [done..|]. intros x e He. rewrite HR1, He.
    apply lookup_lt_Some in He as Hx. destruct (decide (o + 1 <= x)%nat); [|exists e; split; [done|apply Skip; lia]].
    eexists. split; [done|]. apply offered_relaxed; [lia|]. intros ->. by destruct (proj1 Hfound eq_refl) as [?|[_ ?]].
  - assert (Ht : trie_value (ugm_token_matcher tk) (piece_at o (o + char_len o)) = None).
    { apply eq_None_not_Some. intros ?. assert (false = true); [|done]. apply Hfound. right. split; [lia|done]. }
    destruct (lookup_lt_is_Some_2 R (o + char_len o) ltac:(lia)) as [e1 He1].
    assert (He1' : R1 !! (o + char_len o)%nat = Some e1).
    { rewrite HR1, decide_True, He1 by lia. cbn [fmap option_fmap option_map]. unfold offered. by rewrite Ht. }
    set (u := mk_best unk o _). rewrite (challenge_ok _ _ _ u He1'), bind_ok.
    eexists. split_and!; [done|by rewrite length_insert, Hl1|]. intros x e He.
    destruct (decide (x = o + char_len o)%nat) as [->|Hx].
    + rewrite list_lookup_insert_eq by (rewrite Hl1; by eapply lookup_lt_Some). rewrite He1 in He. injection He as <-.
      eexists. split; [done|]. destruct (better_le e1 u) as [H1 H2]. split_and!; [|intros id w Hw|done].
      * destruct (better_or e1 u) as [-> | ->]; [by left|right]. exists unk, (unknown_score v). split; [|unfold u; by rewrite Hu].
          apply unknown_edge; [done..|by apply trie_spells_none].
      * destruct Hw as [id _ _ Hid%trie_spells|]; [congruence|]. rewrite <- Hu. exact H2.
    + rewrite list_lookup_insert_ne, HR1, He by done. apply lookup_lt_Some in He as Hx'.
      destruct (decide (o + 1 <= x)%nat); [|exists e; split; [done|apply Skip; lia]].
      eexists. split; [done|]. apply offered_relaxed; [lia|done].
Qed.

(** ** The table *)

(** Every entry is an initial one or the end of an edge from a boundary before [o], and no
    such edge beats an entry. *)
Record table_ok (o : nat) (R : list best_tokenization) : Prop := {
  tb_length : length R = S (length s);
  tb_boundary : boundary o;
  tb_first : R !! 0%nat = Some (mk_best unk 0 (f_of_Z 0));
  tb_entry : forall x e, R !! x = Some e -> x <> 0%nat ->
    e = mk_best unk 0 f_lowest \/
    exists ob e0 id w, boundary ob /\ (ob < o)%nat /\ R !! ob = Some e0 /\ edge ob x id w /\ e = mk_best id ob (f_add (bt_score_sum e0) w);
  tb_best : forall ob x e0 e id w, boundary ob -> (ob < o)%nat -> R !! ob = Some e0 -> R !! x = Some e -> edge ob x id w ->
    f_lt (bt_score_sum e) (f_add (bt_score_sum e0) w) = false
}.

Lemma boundary_le o : boundary o -> (o <= length s)%nat.
Proof. induction 1 as [|o _ _ Ho]; [lia|]. by apply char_len_pos. Qed.

(** Boundaries do not lie inside a character. *)
Lemma boundary_step b : boundary b -> forall a, boundary a -> (a < b)%nat -> (a + char_len a <= b)%nat.
Proof.
  induction b as [b IH] using lt_wf_ind. intros Hb' a Ha Hab. destruct Hb' as [|o Hbo Ho]; [lia|]. pose proof (char_len_pos o Ho).
  destruct (lt_eq_lt_dec a o) as [[Hao| ->]|Hoa]; [|lia|].
  - pose proof (IH o ltac:(lia) Hbo a Ha Hao). lia.
  - pose proof (IH a Hab Ha o Hbo Hoa). lia.
Qed.

Lemma table_init : table_ok 0 (<[0%nat := mk_best unk 0 (f_of_Z 0)]> (replicate (length s + 1) (mk_best unk 0 f_lowest))).
Proof.
  constructor.
  - rewrite length_insert, length_replicate. lia.
  - constructor.
  - apply list_lookup_insert_eq. rewrite length_replicate. lia.
  - intros x e He Hx. left. rewrite list_lookup_insert_ne in He by done. by apply lookup_replicate in He as [-> _].
  - intros; lia.
Qed.

Lemma relaxed_same o score x e e' : relaxed o score x e e' -> (x <= o)%nat -> e' = e.
Proof. intros [[?|(id & w & Hw & _)] _] Hx; [done|]. apply edge_lt in Hw. lia. Qed.

Lemma table_round o R : table_ok o R -> (o < length s)%nat ->
  exists R', ugm_body v tk s (o, R) = Ok (inl ((o + char_len o)%nat, R')) /\ table_ok (o + char_len o) R'.
Proof.
  intros T Ho. pose proof (tb_length _ _ T) as Hl. destruct (lookup_lt_is_Some_2 R o ltac:(lia)) as [e0 He0].
  destruct (ugm_body_ok o R e0 Ho Hl He0) as (R' & E & Hl' & HR'). exists R'. split; [done|].
  destruct (char_len_pos o Ho) as [Hn0 Hn].
  assert (Same : forall x e, R !! x = Some e -> (x <= o)%nat -> R' !! x = Some e).
  { intros x e He Hx. destruct (HR' x e He) as (e' & He' & Hr). by rewrite <- (relaxed_same _ _ _ _ _ Hr Hx). }
  assert (Back : forall x e', R' !! x = Some e' -> exists e, R !! x = Some e /\ relaxed o (bt_score_sum e0) x e e').
  { intros x e' He'. destruct (lookup_lt_is_Some_2 R x) as [e He]; [rewrite <- Hl'; by eapply lookup_lt_Some|].
    destruct (HR' x e He) as (e'' & He'' & Hr). assert (e'' = e') as -> by congruence. by exists e. }
  assert (Le : forall ob, boundary ob -> (ob < o + char_len o)%nat -> (ob <= o)%nat).
  { intros ob Hob Hlt. destruct (decide (ob <= o)%nat); [done|].
    pose proof (boundary_step ob Hob o (tb_boundary _ _ T) ltac:(lia)). lia. }
  constructor.
  - by rewrite Hl'.
  - constructor; [apply T|done].
  - apply Same; [apply T|lia].
  - intros x e' He' Hx. destruct (Back x e' He') as (e & He & [[->|(id & w & Hw & ->)] _]).
    + destruct (tb_entry _ _ T x e He Hx) as [->|(ob & eb & id & w & Hob & Hlt & Heb & Hw & ->)]; [by left|right].
      exists ob, eb, id, w. split_and!; [done|lia|apply Same; [done|lia]|done..].
    + right. exists o, e0, id, w. split_and!; [apply T|lia|apply Same; [done|lia]|done..].
  - intros ob x eb e' id w Hob Hlt Heb He' Hw. destruct (Back x e' He') as (e & He & Hr).
    pose proof (Le ob Hob Hlt) as Hle. destruct (Back ob eb Heb) as (eb0 & Heb0 & Hrb). pose proof (relaxed_same _ _ _ _ _ Hrb Hle) as Ex. subst eb. clear Hrb.
    destruct (decide (ob = o)) as [->|].
    + assert (eb0 = e0) as -> by congruence. by apply (proj1 (proj2 Hr) id w).
    + eapply f_not_lt_trans; [apply Hr|]. eapply (tb_best _ _ T ob x); [done|lia|done..].
Qed.

Lemma table_loop : exists R, loop (S (length s)) (ugm_body v tk s)
    (0%nat, <[0%nat := mk_best unk 0 (f_of_Z 0)]> (replicate (length s + 1) (mk_best unk 0 f_lowest))) = Ok (length s, R) /\ table_ok (length s) R.
Proof.
  assert (Rn : runs (loop (S (length s)) (ugm_body v tk s)
    (0%nat, <[0%nat := mk_best unk 0 (f_of_Z 0)]> (replicate (length s + 1) (mk_best unk 0 f_lowest))))
    (fun st => st.1 = length s /\ table_ok (length s) st.2)).
  { apply (runs_loop (fun st => table_ok st.1 st.2) (fun st => length s - st.1)%nat); [|cbn; lia|apply table_init].
    intros [o R] T. cbn in T. pose proof (boundary_le _ (tb_boundary _ _ T)). destruct (decide (o < length s)%nat) as [Ho|Ho].
    - destruct (table_round o R T Ho) as (R' & -> & T'). apply runs_ok. destruct (char_len_pos o Ho). cbn [fst snd]. split; [done|lia].
    - assert (o = length s) as -> by lia. unfold ugm_body. rewrite Nat.ltb_irrefl. by apply runs_ok. }
  apply runs_inv in Rn as ([o R] & -> & Ho & T). cbn in Ho, T. rewrite Ho. by exists R.
Qed.

(** ** The way back *)

(** The path that the entries of the table describe. *)
Inductive table_path (R : list (best_tokenization (F := F))) : nat -> list Z -> Prop :=
  | path_0 : table_path R 0 []
  | path_snoc x e ids : R !! x = Some e -> (bt_input_offset e < x)%nat -> table_path R (bt_input_offset e) ids ->
      table_path R x (ids ++ [bt_token_id e]).

(** Runs of the unknown token count once. *)
Fixpoint squeeze (is_prev_unknown : bool) (ids : list Z) : list Z :=
  match ids with
  | [] => []
  | id :: ids => (if is_prev_unknown && (id =? unk) then [] else [id]) ++ squeeze (id =? unk) ids
  end.
Lemma squeeze_snoc p ids id : squeeze p (ids ++ [id]) =
  squeeze p ids ++ (if match list.last ids with Some id' => id' =? unk | None => p end && (id =? unk) then [] else [id]).
Proof.
  revert p. induction ids as [|x ids IH]; intros p; cbn [app squeeze]; [by rewrite app_nil_r|]. rewrite IH, <- app_assoc. rewrite last_cons. by destruct (list.last ids).
Qed.
Lemma squeeze_rev ids : rev (squeeze false (rev ids)) = squeeze false ids.
Proof.
  induction ids as [|id ids IH]; [done|]. cbn [rev squeeze andb]. rewrite squeeze_snoc, rev_app_distr, IH.
  destruct ids as [|id' ids]; [cbn; by destruct (id =? unk)|]. cbn [rev]. rewrite last_snoc.
  destruct (Z.eqb_spec id unk) as [->|]; cbn; [|by rewrite andb_false_r].
  destruct (Z.eqb_spec id' unk) as [->|]; done.
Qed.

Lemma backtrack_last T n e p output : T !! n = Some e -> bt_input_offset e = 0%nat ->
  backtrack_body v n (T, p, output) = Ok (inr (T, p, if negb (p && (bt_token_id e =? unk)) then output ++ [bt_token_id e] else output)).
Proof. intros He E. unfold backtrack_body. rewrite (rd_ok _ _ _ He), bind_ok. cbn zeta. by rewrite E. Qed.
Lemma backtrack_round T n e e' p output : T !! n = Some e -> bt_input_offset e <> 0%nat -> T !! bt_input_offset e = Some e' ->
  backtrack_body v n (T, p, output) =
  Ok (inl (<[n := e']> T, bt_token_id e =? unk, if negb (p && (bt_token_id e =? unk)) then output ++ [bt_token_id e] else output)).
Proof.
  intros He E Hn. unfold backtrack_body. rewrite (rd_ok _ _ _ He), bind_ok. cbn zeta.
  by rewrite (proj2 (Nat.eqb_neq _ _) E), (rd_ok _ _ _ Hn), bind_ok, wr_ok, bind_ok by by eapply lookup_lt_Some.
Qed.

(** The loop overwrites the entry at [n] only, and reads entries before it. *)
Lemma backtrack_ok R n T x e ids p output fuel : table_path R x ids -> R !! x = Some e -> x <> 0%nat -> (x <= n)%nat -> (x < fuel)%nat ->
  T !! n = Some e -> (forall k, (k < n)%nat -> T !! k = R !! k) ->
  exists T' p', loop fuel (backtrack_body v n) (T, p, output) = Ok (T', p', output ++ squeeze p (rev ids)).
Proof.
  intros HP. revert T e p output fuel. induction HP as [|x e' ids He' Hlt HP IH]; intros T e p output [|fuel] He Hx Hxn Hf HT Hsame; try lia.
  assert (e' = e) as -> by congruence. cbn [loop]. rewrite rev_unit. cbn [squeeze].
  pose (output' := if negb (p && (bt_token_id e =? unk)) then output ++ [bt_token_id e] else output).
  assert (Eo : output ++ (if p && (bt_token_id e =? unk) then [] else [bt_token_id e]) = output').
  { unfold output'. destruct (p && _); cbn; [by rewrite app_nil_r|done]. }
  rewrite app_assoc, Eo. clear Eo. destruct (Nat.eq_dec (bt_input_offset e) 0%nat) as [E0|Hne].
  - rewrite (backtrack_last T n e), bind_ok by done. rewrite E0 in HP. inversion HP; subst; [|lia]. cbn [rev squeeze]. rewrite app_nil_r. by do 2 eexists.
  - assert (Hn : exists e1, R !! bt_input_offset e = Some e1) by (inversion HP; subst; [lia|by eexists]). destruct Hn as [e1 Hn].
    rewrite (backtrack_round T n e e1) by (done || (rewrite Hsame by lia; done)). rewrite bind_ok. apply (IH _ e1); [done|done|lia|lia|..].
    + apply list_lookup_insert_eq. by eapply lookup_lt_Some.
    + intros k Hk. rewrite list_lookup_insert_ne by lia. by apply Hsame.
Qed.

(** ** The optimum *)

Context (Hlow : forall o score ids, segmentation o score ids -> f_lt f_lowest score = true).

Lemma table_upper R o score ids e : table_ok (length s) R -> segmentation o score ids -> R !! o = Some e ->
  f_lt (bt_score_sum e) score = false.
Proof.
  intros T Hs. revert e. induction Hs as [|o score ids o' id w Hs IH Hbo Hw]; intros e He.
  - rewrite (tb_first _ _ T) in He. injection He as <-. apply f_lt_irrefl.
  - pose proof (edge_lt _ _ _ _ Hw). destruct (lookup_lt_is_Some_2 R o) as [e0 He0]; [rewrite (tb_length _ _ T); lia|].
    eapply f_not_lt_trans; [eapply (tb_best _ _ T o o'); done || lia|]. apply f_add_mono. by apply IH.
Qed.

Lemma boundary_edge o : (o < length s)%nat -> exists id w, edge o (o + char_len o) id w.
Proof.
  intros Ho. destruct (char_len_pos o Ho). destruct (trie_value (ugm_token_matcher tk) (piece_at o (o + char_len o))) as [id|] eqn:E.
  - exists id, (token_weight id). constructor; [lia..|by apply trie_spells].
  - exists unk, (unknown_score v). apply unknown_edge; [done..|by apply trie_spells_none].
Qed.

Lemma table_lower R o e : table_ok (length s) R -> boundary o -> R !! o = Some e ->
  exists ids, segmentation o (bt_score_sum e) ids /\ table_path R o ids.
Proof.
  intros T. revert e. induction o as [o IH] using lt_wf_ind. intros e Hbo He. destruct (decide (o = 0)%nat) as [->|Hne].
  { rewrite (tb_first _ _ T) in He. injection He as <-. exists []. split; constructor. }
  assert (E : e = mk_best unk 0 f_lowest -> False).
  { intros Ee. destruct Hbo as [|ob Hob Hlt]; [done|]. destruct (char_len_pos ob Hlt).
    destruct (lookup_lt_is_Some_2 R ob) as [e0 He0]; [rewrite (tb_length _ _ T); lia|].
    destruct (IH ob ltac:(lia) e0 Hob He0) as (ids & Hs & _). destruct (boundary_edge ob Hlt) as (id & w & Hw).
    assert (Hs' : segmentation (ob + char_len ob) (f_add (bt_score_sum e0) w) (ids ++ [id])) by by eapply seg_snoc.
    apply Hlow in Hs' as Hgt. pose proof (table_upper R _ _ _ e T Hs' He) as Hup. rewrite Ee in Hup. cbn in Hup. congruence. }
  destruct (tb_entry _ _ T o e He Hne) as [Ee|(ob & e0 & id & w & Hob & Hlt & He0 & Hw & ->)]; [by destruct E|].
  pose proof (edge_lt _ _ _ _ Hw). destruct (IH ob ltac:(lia) e0 Hob He0) as (ids & Hs & HP). exists (ids ++ [id]). split.
  - by eapply seg_snoc.
  - apply (path_snoc R o _ ids He); [cbn; lia|done].
Qed.

Lemma search_ok text output : normalize v tk text = Ok s -> s <> [] ->
  exists score ids, segmentation (length s) score ids /\
    (forall score' ids', segmentation (length s) score' ids' -> f_lt score score' = false) /\
    ugm_tokenize v tk text output = Ok (output ++ squeeze false ids).
Proof.
  intros Hn Hne. unfold ugm_tokenize. rewrite Hn, bind_ok. destruct (Nat.eqb_spec (length s) 0) as [E|Hl]; [by destruct s|]. cbn zeta.
  destruct table_loop as (R & -> & T). rewrite bind_ok. cbn [snd].
  destruct (lookup_lt_is_Some_2 R (length s)) as [e He]; [rewrite (tb_length _ _ T); lia|].
  destruct (table_lower R _ e T (tb_boundary _ _ T) He) as (ids & Hs & HP).
  destruct (backtrack_ok R (length s) R _ e ids false [] (S (length s)) HP He Hl ltac:(lia) ltac:(lia) He ltac:(done)) as (R' & p & ->). rewrite bind_ok. cbn [snd app].
  exists (bt_score_sum e), ids. split; [done|]. split; [|by rewrite squeeze_rev].
  intros score' ids' Hs'. by eapply table_upper.
Qed.
End search.

(** C12: The unigram tokenizer finds the best segmentation: over all ways to write the
    normalized text as texts of the vocabulary's normal, unused and user-defined tokens (the
    latter with score 0) that start at characters, with the unknown token, ten below the
    lowest score of a normal token, for a character that is no such text, the ids come from
    one whose score no other exceeds, runs of the unknown token collapsed into one.  The
    segmentations are those of the vocabulary and the normalized text alone; the scores are
    summed from the left and stay above the lowest float.  The table of the search ends
    after one pass and the way back reaches the start. *)
Theorem ugm_best_segmentation {F : Type} `{FloatOps F} `{!FloatLaws F} (v : llama_vocab F) charsmap tk text s output :
  vocab_ok v -> ugm_new v charsmap = Ok tk -> normalize v tk text = Ok s -> s <> [] -> byte_values s ->
  (forall o score ids, segmentation v s o score ids -> f_lt f_lowest score = true) ->
  exists score ids, segmentation v s (length s) score ids /\
    (forall score' ids', segmentation v s (length s) score' ids' -> f_lt score score' = false) /\
    ugm_tokenize v tk text output = Ok (output ++ squeeze v false ids).
Proof.
  intros Hv Hnew Hn Hne Hb Hlow. destruct (ugm_new_matcher v Hv charsmap tk Hnew). by eapply search_ok.
Qed.

(** A score is a sum of at most one weight per byte. *)
Lemma toy_score_low s o score ids : byte_values s -> segmentation (toy_vocab LLAMA_VOCAB_TYPE_UGM) s o score ids -> -17 * Z.of_nat o <= score.
Proof.
  intros Hb. assert (Hu : unknown_score (toy_vocab LLAMA_VOCAB_TYPE_UGM) = -17) by (by vm_compute). assert (Hw : forall id, -17 <= token_weight (toy_vocab LLAMA_VOCAB_TYPE_UGM) id).
  { intros id. unfold token_weight. destruct (v_id_to_token (toy_vocab LLAMA_VOCAB_TYPE_UGM) !! Z.to_nat id) as [d|] eqn:E; [|done].
    apply (Forall_lookup_1 (fun d => -17 <= if has_attr (td_attr d) ATTR_USER_DEFINED then f_of_Z 0 else td_score d)) in E; [done|].
    apply (bool_decide_unpack _). vm_compute. exact I. }
  induction 1 as [|o score ids o' id w _ IH _ Hedge]; [cbn; lia|]. pose proof (edge_lt _ s Hb _ _ _ _ Hedge).
  assert (-17 <= w) by (destruct Hedge; [apply Hw|lia]). cbn. lia.
Qed.

Lemma ugm_best_segmentation_witness : exists tk, ugm_new (toy_vocab LLAMA_VOCAB_TYPE_UGM) [] = Ok tk /\
  ugm_tokenize (toy_vocab LLAMA_VOCAB_TYPE_UGM) tk (lit "abcXYd") [] = Ok [9; 5; 0] /\
  exists score ids, ugm_tokenize (toy_vocab LLAMA_VOCAB_TYPE_UGM) tk (lit "abcXYd") [] =
    Ok ([] ++ squeeze (toy_vocab LLAMA_VOCAB_TYPE_UGM) false ids) /\
    segmentation (toy_vocab LLAMA_VOCAB_TYPE_UGM) ([226; 150; 129] ++ lit "abcXYd") 9 score ids.
Proof.
  eexists. split; [vm_compute; reflexivity|]. split; [vm_compute; reflexivity|]. set (tk := mk_ugm _ _ _ _ _ _ _).
  assert (Hb : byte_values ([226; 150; 129] ++ lit "abcXYd")) by (unfold byte_values; cbn; repeat constructor; lia).
  destruct (ugm_best_segmentation (toy_vocab LLAMA_VOCAB_TYPE_UGM) [] tk (lit "abcXYd") ([226; 150; 129] ++ lit "abcXYd") []) as (score & ids & Hs & _ & E).
  - by apply toy_vocab_ok.
  - vm_compute; reflexivity.
  - vm_compute; reflexivity.
  - done.
  - done.
  - intros o score ids Hs.
    pose proof (segmentation_le _ _ Hb _ _ _ Hs) as Ho. cbn in Ho.
    pose proof (toy_score_low _ o score ids Hb Hs). cbn. lia.
  - exists score, ids. by split.
Defined.

(** The first match of [normalize_prefix] is the longest path through the trie, be it a whole
    user-defined token or a part of one. *)
Lemma part_of_user_token {F : Type} (tk : llm_tokenizer_ugm (F := F)) :
  ugm_user_defined_token_matcher tk = trie_insert trie_empty (lit "abc") 0 ->
  trie_value (ugm_user_defined_token_matcher tk) (lit "ab") = None /\
  normalize_prefix tk (lit "abx") 0 = Ok (lit "ab", 2%nat).
Proof. intros E. unfold normalize_prefix. rewrite E. by vm_compute. Qed.
