(* ===== verification/VocabWords.v ===== *)
(** The word-piece tokenizer and the tokenizer of RWKV of src/llama/llama.cpp/src/llama-vocab.cpp:
    both look for the longest token at a position, one word by word in the table of tokens, the
    other in a trie of the unescaped tokens. *)

From S2P Require Import Prelude Unicode Vocab VocabUgm.
Local Open Scope Z_scope.

(** ** WPM *)

Definition is_separator (f : Z) : bool := Z.testbit f 3.
Definition is_punctuation (f : Z) : bool := Z.testbit f 5.
Definition is_symbol (f : Z) : bool := Z.testbit f 6.
Definition is_control_cpt (f : Z) : bool := Z.testbit f 7.

Definition is_chinese_char (cpt : Z) : bool :=
  let within a b := (a <=? cpt) && (cpt <=? b) in
  within 19968 40959 || within 13312 19903 || within 131072 173791 || within 173824 177983 ||
  within 177984 178207 || within 178464 183983 || within 63744 64255 || within 194560 195103.

Section wpm.
Context {F : Type} (v : llama_vocab F) (ud : unicode_data).

(** The words so far, the last one apart. *)
Definition finish_word (st : list (list Z) * list Z) : list (list Z) * list Z :=
  if (0 <? length st.2)%nat then (st.1 ++ [st.2], []) else st.

Definition preprocess_cpt (st : list (list Z) * list Z) (cpt : Z) : res (list (list Z) * list Z) :=
  let flags := unicode_cpt_flags_from_cpt ud cpt in
  if is_whitespace flags then Ok (finish_word st)
  else
    assert_ (negb (is_separator flags)) ;;
    if (cpt =? 0) || (cpt =? 65533) || is_control_cpt flags then Ok st
    else
      s ← unicode_cpt_to_utf8 (unicode_tolower ud cpt);
      if is_punctuation flags || ((cpt <? 127) && is_symbol flags) || is_chinese_char cpt then
        let st1 := finish_word st in Ok (st1.1 ++ [s], [])
      else Ok (st.1, st.2 ++ s).

Definition preprocess (text : list Z) : res (list (list Z)) :=
  cpts ← unicode_cpts_from_utf8 text;
  cpts_nfd ← unicode_cpts_normalize_nfd ud cpts;
  st ← foldM preprocess_cpt ([], []) cpts_nfd;
  Ok (if (length st.2 =? 0)%nat then st.1 else st.1 ++ [st.2]).

(** The longest match from [i], of at most [max_token_len + 1] bytes: the end and the token. *)
Definition wpm_try (word1 : list Z) (i : nat) (st : unit) (j : nat) : res (unit + nat * Z) :=
  s ← substr word1 i (j - i);
  id ← text_to_token v s;
  Ok (if negb (id =? LLAMA_TOKEN_NULL) then inr (j, id) else inl st).
Definition wpm_match (word1 : list Z) (i : nat) : res (unit + nat * Z) :=
  last ← i32 (Z.of_nat i + v_max_token_len v);
  last ← i32 (last + 1);
  let top := Z.min (Z.of_nat (length word1)) last in
  foldB (wpm_try word1 i) tt (rev (seq (S i) (Z.to_nat (top - Z.of_nat i)))).

(** The loop over the positions; a position without a match discards the tokens of the word. *)
Definition wpm_body (word1 : list Z) (current_tokens : nat) (st : nat * list Z) : res (nat * list Z + nat * list Z) :=
  let '(i, output) := st in
  if (i <? length word1)%nat then
    r ← wpm_match word1 i;
    match r with
    | inr (j, id) => Ok (inl (j, output ++ [id]))
    | inl _ => Ok (inr (i, take current_tokens output))
    end
  else Ok (inr st).

Definition wpm_word (output word : list Z) : res (list Z) :=
  if (length word =? 0)%nat then Ok output
  else
    let word1 := escaped_space ++ word in
    _ ← i32 (Z.of_nat (length word1));
    let current_tokens := length output in
    r ← loop (S (length word1)) (wpm_body word1 current_tokens) (0%nat, output);
    Ok (if (current_tokens =? length r.2)%nat then r.2 ++ [v_special_unk_id v] else r.2).

Definition wpm_tokenize (text output : list Z) : res (list Z) :=
  words ← preprocess text;
  foldM wpm_word output words.
End wpm.

(** ** RWKV *)

(** The parser of an escaped token: [escaping], [hex_remaining], [hex_acc] and the output.
    [char] is signed. *)
Definition unescape_char (st : bool * Z * Z * list Z) (c : Z) : bool * Z * Z * list Z :=
  let '(escaping, hex_remaining, hex_acc, output) := st in
  let sc := if 128 <=? c then c - 256 else c in
  if negb (hex_remaining =? 0) then
    let value := (if 97 <=? sc then sc - 97 + 10 else sc - 48) `mod` 256 in
    let hex_acc := (Z.shiftl hex_acc 4 + value) `mod` 256 in
    let hex_remaining := hex_remaining - 1 in
    if hex_remaining =? 0 then (escaping, hex_remaining, 0, output ++ [hex_acc])
    else (escaping, hex_remaining, hex_acc, output)
  else if (escaping : bool) then
    if c =? 116 then (false, hex_remaining, hex_acc, output ++ [9])
    else if c =? 110 then (false, hex_remaining, hex_acc, output ++ [10])
    else if c =? 114 then (false, hex_remaining, hex_acc, output ++ [13])
    else if c =? 120 then (false, 2, hex_acc, output)
    else (false, hex_remaining, hex_acc, output ++ [c])
  else if c =? 92 then (true, hex_remaining, hex_acc, output)
  else (escaping, hex_remaining, hex_acc, output ++ [c]).
Definition llama_unescape_rwkv_token (escaped : list Z) : list Z := (foldl unescape_char (false, 0, 0, []) escaped).2.

Section rwkv.
Context {F : Type} (v : llama_vocab F).

Definition rwkv_new : res naive_trie :=
  foldM (fun m id =>
    data ← get_token_data v (Z.of_nat id);
    Ok (trie_insert m (llama_unescape_rwkv_token (td_text data)) (Z.of_nat id))) trie_empty (seq 0 (length (v_id_to_token v))).

Context (token_matcher : naive_trie).

(** The walk through the trie, on [position], [token_id] and [token_length]. *)
Definition rwkv_walk_body (text : list Z) (st : option naive_trie * nat * Z * nat) :
    res (option naive_trie * nat * Z * nat + option naive_trie * nat * Z * nat) :=
  let '(node, position, token_id, token_length) := st in
  match node with
  | None => Ok (inr st)
  | Some node =>
      let '(token_id, token_length) := if has_value node then (value node, (position + 1)%nat) else (token_id, token_length) in
      let position := (position + 1)%nat in
      c ← str_at text position;
      Ok (inl (traverse node c, position, token_id, token_length))
  end.

Definition rwkv_body (text : list Z) (st : nat * list Z) : res (nat * list Z + nat * list Z) :=
  let '(position, output) := st in
  if (position <? length text)%nat then
    c ← rd text position;
    match traverse token_matcher c with
    | None => Ok (inl ((position + 1)%nat, output ++ [v_special_unk_id v]))
    | Some node =>
        w ← loop (S (S (length text))) (rwkv_walk_body text) (Some node, position, 0, 0%nat);
        let '(_, _, token_id, token_length) := w in
        Ok (inl (token_length, output ++ [token_id]))
    end
  else Ok (inr st).

(** [fuel] bounds the rounds of the loop, which need not end. *)
Definition rwkv_tokenize (fuel : nat) (text output : list Z) : res (list Z) :=
  r ← loop fuel (rwkv_body text) (0%nat, output);
  Ok r.2.
End rwkv.
