(* ===== verification/VocabPlamo.v ===== *)
(** The tokenizer of PLaMo-2 of src/llama/llama.cpp/src/llama-vocab.cpp ([llm_tokenizer_plamo2]):
    the tables built from the tokens and the search for the segmentation of the lowest cost
    from the end of the text. *)

From stdpp Require Import sorting pretty.
From S2P Require Import Prelude Unicode Vocab.
Local Open Scope Z_scope.

Definition INVALID_SCORE : Z := -20000000.
Definition UNKNOWN_SCORE : Z := -10000000.

(** [round(score * 1e4)] of a finite score. *)
Class FloatScaled (F : Type) := f_scaled : F -> option Z.

(** A row of the table. *)
Record plamo_row := mk_row { row_piece_length : Z; row_token_id : Z; row_score : Z; row_piece_id : Z }.
Record llm_tokenizer_plamo2 := mk_plamo { pl_bytes : list Z; pl_to_suffix_id : gmap Z Z; pl_table : list plamo_row }.

(** [std::stoi(s, nullptr, 16)]: blanks, a sign, digits, of which there must be one. *)
Definition is_space (c : Z) : bool := ((9 <=? c) && (c <=? 13)) || (c =? 32).
Fixpoint skip_space (l : list Z) : list Z :=
  match l with c :: l' => if is_space c then skip_space l' else l | [] => [] end.
Definition stoi_16 (l : list Z) : res Z :=
  let '(neg, l1) := match skip_space l with
    | c :: l' => if c =? 45 then (true, l') else (false, if c =? 43 then l' else c :: l')
    | [] => (false, []) end in
  match l1 with
  | c :: _ => if bool_decide (is_Some (hex_value c)) then Ok (if neg then - hex_digits 0 l1 else hex_digits 0 l1) else Throw "stoi"
  | [] => Throw "stoi"
  end.

(** [unicode_cpt_to_utf8] of several code points, one after the other. *)
Definition join_utf8 (cpts : list Z) : res (list Z) :=
  foldM (fun s c => t ← unicode_cpt_to_utf8 c; Ok (s ++ t)) [] cpts.

(** The order of the reversed strings. *)
Fixpoint lex_le (a b : list Z) : bool :=
  match a, b with
  | [], _ => true
  | _, [] => false
  | x :: a, y :: b => (x <? y) || ((x =? y) && lex_le a b)
  end.
Definition suffix_le (a b : list Z) : Prop := lex_le (rev a) (rev b) = true.
#[export] Instance suffix_le_dec : RelDecision suffix_le := fun a b => decide (lex_le (rev a) (rev b) = true).

Section build.
Context {F : Type} `{FloatScaled F} (v : llama_vocab F).

(** [suffix_to_score]: a suffix that is no token has the score NaN, [None]. *)
Definition scores := gmap (list Z) (option F).

Definition byte_token_text (text : list Z) : bool :=
  (length text =? 6)%nat && bool_decide (take 3 text = [60; 48; 120]) && bool_decide (list.last text = Some 62).

Definition add_suffix (cpts : list Z) (m : scores) (i : nat) : res scores :=
  suffix ← join_utf8 (drop i cpts);
  Ok (match m !! suffix with Some _ => m | None => <[suffix := None]> m end).

Definition build_token (st : gmap (list Z) Z * list Z * scores) (token_id : nat) : res (gmap (list Z) Z * list Z * scores) :=
  let '(token_to_id, bytes, m) := st in
  entry ← get_token_data v (Z.of_nat token_id);
  let token_to_id := <[td_text entry := Z.of_nat token_id]> token_to_id in
  b ← is_byte_token v (Z.of_nat token_id);
  if (b : bool) then
    if byte_token_text (td_text entry) then
      hex_str ← substr (td_text entry) 3 2;
      byte_val ← stoi_16 hex_str;
      bytes ← set_idx bytes byte_val (Z.of_nat token_id);
      Ok (token_to_id, bytes, m)
    else Ok (token_to_id, bytes, m)
  else
    cpts ← unicode_cpts_from_utf8 (td_text entry);
    m ← foldM (add_suffix cpts) (<[td_text entry := Some (td_score entry)]> m) (seq 1 (length cpts - 1));
    Ok (token_to_id, bytes, m).

Definition check_byte (bytes : list Z) (u : unit) (i : nat) : res unit :=
  b ← rd bytes i;
  if b =? 0 then Throw ("Byte token for <0x" ++ pretty (N.of_nat i) ++ "> is not set")%string else Ok u.

(** A code point and the number of a suffix in one integer. *)
Definition piece_code (c id : Z) : Z := Z.lor (Z.shiftl c 32) id.

(** The ids of the suffixes: their first rows in the table. *)
Definition count_piece (m : scores) (cpts : list Z) (n : Z) (piece_length : nat) : res Z :=
  piece ← join_utf8 (take piece_length cpts);
  match m !! piece with Some _ => i32 (n + 1) | None => Ok n end.
Definition number_suffix (m : scores) (st : gmap (list Z) Z * gmap Z Z * Z) (suffix : list Z) : res (gmap (list Z) Z * gmap Z Z * Z) :=
  let '(suffix_to_id, to_suffix_id, num_pieces) := st in
  let suffix_to_id := <[suffix := num_pieces]> suffix_to_id in
  if bool_decide (suffix = []) then
    n ← i32 (num_pieces + 1); Ok (suffix_to_id, to_suffix_id, n)
  else
    cpts ← unicode_cpts_from_utf8 suffix;
    remaining ← join_utf8 (drop 1 cpts);
    c ← rd cpts 0;
    let to_suffix_id := <[piece_code c (default 0 (suffix_to_id !! remaining)) := num_pieces]> to_suffix_id in
    pieces_for_suffix ← foldM (count_piece m cpts) 1 (rev (seq 1 (length cpts)));
    n ← i32 (num_pieces + pieces_for_suffix);
    Ok (suffix_to_id, to_suffix_id, n).

(** The rows of a suffix: the tokens and suffixes that start it, longest first, and the
    sentinel. *)
Definition fill_row (token_to_id suffix_to_id : gmap (list Z) Z) (m : scores) (cpts : list Z)
    (st : list plamo_row * nat) (piece_length : nat) : res (list plamo_row * nat) :=
  let '(table, table_idx) := st in
  piece ← join_utf8 (take piece_length cpts);
  match m !! piece with
  | None => Ok st
  | Some score =>
      s ← match score ≫= f_scaled with Some s => i32 s | None => Ok INVALID_SCORE end;
      table ← wr table table_idx (mk_row (Z.of_nat piece_length) (default (-1) (token_to_id !! piece)) s (default 0 (suffix_to_id !! piece)));
      Ok (table, S table_idx)
  end.
Definition fill_suffix (token_to_id suffix_to_id : gmap (list Z) Z) (m : scores)
    (st : list plamo_row * nat) (suffix : list Z) : res (list plamo_row * nat) :=
  cpts ← unicode_cpts_from_utf8 suffix;
  r ← foldM (fill_row token_to_id suffix_to_id m cpts) st (rev (seq 1 (length cpts)));
  let '(table, table_idx) := (r : list plamo_row * nat) in
  row ← rd table table_idx;
  table ← wr table table_idx (mk_row 1 (-1) UNKNOWN_SCORE (row_piece_id row));
  Ok (table, S table_idx).

Definition plamo_build : res llm_tokenizer_plamo2 :=
  t ← foldM build_token (∅, replicate 256 0, ∅) (seq 0 (length (v_id_to_token v)));
  let '(token_to_id, bytes, m) := t in
  foldM (check_byte bytes) tt (seq 0 256) ;;
  let suffixes := merge_sort suffix_le ((map_to_list m).*1 ++ [[]]) in
  n ← foldM (number_suffix m) (∅, ∅, 0) suffixes;
  let '(suffix_to_id, to_suffix_id, num_pieces) := n in
  r ← foldM (fill_suffix token_to_id suffix_to_id m) (replicate (Z.to_nat num_pieces) (mk_row 0 0 0 0), 0%nat) suffixes;
  Ok (mk_plamo bytes to_suffix_id r.1).
End build.

(** ** Encoding *)

(** An entry of the path: the length of the token, its id, and the number of tokens to the end. *)
Record plamo_path := mk_path { pa_token_length : Z; pa_token_id : Z; pa_num_tokens : Z }.

Section encode.
Context (tk : llm_tokenizer_plamo2).

(** The row [p] of a search for the suffix that [c] extends; [inr] leaves the loop. *)
Definition find_suffix (c : Z) (suffix_id : Z) (p : nat) : res (Z + Z) :=
  row ← rd (pl_table tk) p;
  let suffix_id := default 0 (pl_to_suffix_id tk !! piece_code c (row_piece_id row)) in
  Ok (if (0 <? suffix_id) || (row_score row =? UNKNOWN_SCORE) then inr suffix_id else inl suffix_id).

Definition over_128 (c : Z) : Z := (if 128 <=? c then 1 else 0) + (if 2048 <=? c then 1 else 0) + (if 65536 <=? c then 1 else 0).

(** The row [p] as the next piece of the text at [i]. *)
Definition update_path (c : Z) (i : nat) (st : list Z * list plamo_path) (p : nat) :
    res (list Z * list plamo_path + list Z * list plamo_path) :=
  let '(scores, path) := st in
  row ← rd (pl_table tk) p;
  let score := row_score row in
  st ← (if INVALID_SCORE <? score then
          s0 ← idx scores (Z.of_nat i + row_piece_length row);
          si ← rd scores i;
          let s := s0 - score in
          if s <? si then
            next ← idx path (Z.of_nat i + row_piece_length row);
            n ← i32 (pa_num_tokens next + 1);
            n ← (if score =? UNKNOWN_SCORE then i32 (n + over_128 c) else Ok n);
            scores ← wr scores i s;
            path ← wr path i (mk_path (row_piece_length row) (row_token_id row) n);
            Ok (scores, path)
          else Ok st
        else Ok st);
  Ok (if score =? UNKNOWN_SCORE then inr st else inl st).

Definition rows_from (suffix_id : Z) : list nat :=
  seq (Z.to_nat suffix_id) (length (pl_table tk) - Z.to_nat suffix_id).
Definition either {A} (s : A + A) : A := match s with inl a => a | inr a => a end.

Definition encode_step (unicode_data : list Z) (st : Z * list Z * list plamo_path) (i : nat) : res (Z * list Z * list plamo_path) :=
  let '(suffix_id, scores, path) := st in
  c ← rd unicode_data i;
  r ← foldB (find_suffix c) suffix_id (rows_from suffix_id);
  let suffix_id := either r in
  r ← foldB (update_path c i) (scores, path) (rows_from suffix_id);
  Ok (suffix_id, (either r).1, (either r).2).

(** The byte tokens of a code point. *)
Definition fallback_byte (c s i : Z) : Z :=
  let b := if s =? 1 then c `mod` 256 else if i =? 0 then Z.land (Z.shiftr 3840 s) 255 else 128 in
  Z.lor b (Z.land (Z.shiftr c ((s - i - 1) * 6)) 63).
Definition byte_fallback (c : Z) (output : list Z) : res (list Z) :=
  let s := 1 + over_128 c in
  foldM (fun output i => t ← idx (pl_bytes tk) (fallback_byte c s (Z.of_nat i)); Ok (output ++ [t])) output (seq 0 (Z.to_nat s)).

Definition decode_body (unicode_data : list Z) (path : list plamo_path) (st : Z * list Z) : res (Z * list Z + Z * list Z) :=
  let '(pos, token_ids) := st in
  if pos <? Z.of_nat (length unicode_data) then
    e ← idx path pos;
    token_ids ← (if 0 <=? pa_token_id e then Ok (token_ids ++ [pa_token_id e])
                 else c ← idx unicode_data pos; byte_fallback c token_ids);
    assert_ (0 <? pa_token_length e) ;;
    pos ← i32 (pos + pa_token_length e);
    Ok (inl (pos, token_ids))
  else Ok (inr st).

Definition plamo_encode (text : list Z) : res (list Z) :=
  cpts ← unicode_cpts_from_utf8 text;
  let unicode_data := match cpts with c :: rest => if c =? 65279 then rest else cpts | [] => [] end in
  if bool_decide (unicode_data = []) then Ok []
  else
    let n := length unicode_data in
    let scores := <[n := 0]> (replicate (n + 1) 1152921504606846976) in
    let path := replicate (n + 1) (mk_path 0 0 0) in
    r ← foldM (encode_step unicode_data) (0, scores, path) (rev (seq 0 n));
    o ← loop (S n) (decode_body unicode_data r.2) (0, []);
    Ok o.2.

Definition plamo_tokenize (text output : list Z) : res (list Z) :=
  tokens ← plamo_encode text;
  Ok (output ++ tokens).
End encode.
