(* ===== verification/VocabText.v ===== *)
(** From text to tokens and back, src/llama/llama.cpp/src/llama-vocab.cpp: the split of a text
    at its special tokens, [tokenize] over all tokenizers, the pieces of tokens with their
    cache, and [detokenize]. *)

From S2P Require Import Prelude Unicode UnicodeRegex Vocab VocabMerge VocabUgm VocabWords VocabPlamo.
Local Open Scope Z_scope.

(** ** Strings *)

(** [s.find(text, pos)]; the view of a part of a string is its prefix. *)
Definition str_find (s text : list Z) (pos : nat) : option nat :=
  p ← list_find (fun i => take (length text) (drop i s) = text) (seq pos (S (length s) - pos)); Some p.2.

(** [replace_all] of llama-impl.cpp. *)
Definition replace_body (s search replace : list Z) (st : list Z * nat) : res (list Z * nat + list Z * nat) :=
  let '(builder, last_pos) := st in
  match str_find s search last_pos with
  | Some pos => Ok (inl (builder ++ take (pos - last_pos) (drop last_pos s) ++ replace, (pos + length search)%nat))
  | None => Ok (inr (builder ++ drop last_pos s, last_pos))
  end.
Definition replace_all (s search replace : list Z) : res (list Z) :=
  if bool_decide (search = []) then Ok s
  else r ← loop (S (length s)) (replace_body s search replace) ([], 0%nat); Ok r.1.

Definition llama_escape_whitespace (text : list Z) : res (list Z) := replace_all text [32] escaped_space.
Definition llama_unescape_whitespace (word : list Z) : res (list Z) := replace_all word escaped_space [32].

(** "%02x" *)
Definition hex_lower (d : Z) : Z := if d <? 10 then 48 + d else 87 + d.
Definition hex_byte (c : Z) : list Z := [hex_lower (Z.shiftr c 4); hex_lower (Z.land c 15)].
Definition llama_decode_text (text : list Z) : res (list Z) :=
  cpts ← unicode_cpts_from_utf8 text;
  foldM (fun decoded_text cpt =>
    utf8 ← unicode_cpt_to_utf8 cpt;
    match unicode_utf8_to_byte utf8 with
    | Ok b => Ok (decoded_text ++ [b])
    | Throw _ => Ok (decoded_text ++ lit "[UNK_BYTE_0x" ++ concat (hex_byte <$> utf8) ++ text ++ lit "]")
    | Fault f => Fault f
    end) [] cpts.

(** ** Fragments *)

Inductive fragment_buffer_variant :=
  | FRAGMENT_TOKEN (token : Z)
  | FRAGMENT_RAW_TEXT (offset length : nat).

(** The constructor of a piece of text, with its assertions. *)
Definition raw_fragment (raw_text : list Z) (off len : nat) : res fragment_buffer_variant :=
  assert_ (1 <=? len)%nat ;; assert_ (off + len <=? length raw_text)%nat ;; Ok (FRAGMENT_RAW_TEXT off len).

(** [isspace] of a byte, and the loops that leave out blanks at the end and at the start. *)
Fixpoint strip_right (raw_text : list Z) (off len : nat) : res nat :=
  match len with
  | O => Ok O
  | S len' => c ← rd raw_text (off + len'); if is_space c then strip_right raw_text off len' else Ok len
  end.
Fixpoint strip_left (raw_text : list Z) (off len : nat) : res (nat * nat) :=
  match len with
  | O => Ok (off, O)
  | S len' => c ← rd raw_text off; if is_space c then strip_left raw_text (S off) len' else Ok (off, len)
  end.

Section partition.
Context (raw_text : list Z) {F : Type} (data : token_data F) (special_id : Z).

(** The text in front of the token at [match_], if any is left, and the text behind it. *)
Definition left_fragment (raw_text_base_offset match_ : nat) : res (list fragment_buffer_variant) :=
  if (raw_text_base_offset <? match_)%nat then
    let left_reminder_length := (match_ - raw_text_base_offset)%nat in
    n ← (if has_attr (td_attr data) ATTR_LSTRIP then strip_right raw_text raw_text_base_offset left_reminder_length
         else Ok left_reminder_length);
    if (0 <? n)%nat then f ← raw_fragment raw_text raw_text_base_offset n; Ok [f] else Ok []
  else Ok [].
Definition right_fragment (right_reminder_offset right_reminder_length : nat) : res (list fragment_buffer_variant * nat * nat) :=
  r ← (if has_attr (td_attr data) ATTR_RSTRIP then strip_left raw_text right_reminder_offset right_reminder_length
       else Ok (right_reminder_offset, right_reminder_length));
  if (0 <? r.2)%nat then f ← raw_fragment raw_text r.1 r.2; Ok ([f], r.1, r.2) else Ok ([], r.1, r.2).

(** What takes the place of a fragment: [removelast] is the erased piece of text that was
    searched, the rest of it becomes the last element again. *)
Definition split_fragment_body (st : list fragment_buffer_variant * nat * nat) :
    res (list fragment_buffer_variant * nat * nat + list fragment_buffer_variant * nat * nat) :=
  let '(out, raw_text_base_offset, raw_text_base_length) := st in
  let text := td_text data in
  match str_find (take (raw_text_base_offset + raw_text_base_length) raw_text) text raw_text_base_offset with
  | None => Ok (inr st)
  | Some match_ =>
      left ← left_fragment raw_text_base_offset match_;
      let out := removelast out ++ left ++ [FRAGMENT_TOKEN special_id] in
      if (match_ + length text <? raw_text_base_offset + raw_text_base_length)%nat then
        r ← right_fragment (match_ + length text)%nat (raw_text_base_length - ((match_ - raw_text_base_offset) + length text))%nat;
        Ok (inl (out ++ r.1.1, r.1.2, r.2))
      else Ok (inr (out, raw_text_base_offset, raw_text_base_length))
  end.
Definition split_fragment (f : fragment_buffer_variant) : res (list fragment_buffer_variant) :=
  match f with
  | FRAGMENT_TOKEN _ => Ok [f]
  | FRAGMENT_RAW_TEXT off len => r ← loop (S (S len)) split_fragment_body ([f], off, len); Ok r.1.1
  end.
Definition split_buffer (buffer : list fragment_buffer_variant) : res (list fragment_buffer_variant) :=
  foldM (fun out f => l ← split_fragment f; Ok (out ++ l)) [] buffer.
End partition.

Section tokenize.
Context {F : Type} `{FloatOps F} `{PriorityQueue} (v : llama_vocab F) (ud : unicode_data) (en : regex_engine).

Definition tokenizer_st_partition (raw_text : list Z) (buffer : list fragment_buffer_variant) (parse_special : bool) :
    res (list fragment_buffer_variant) :=
  foldM (fun buffer special_id =>
    data ← get_token_data v special_id;
    if negb parse_special && has_attr (td_attr data) (Z.lor ATTR_CONTROL ATTR_UNKNOWN) then Ok buffer
    else split_buffer raw_text data special_id buffer) buffer (v_cache_special_tokens v).

(** [tokenizer]: the object that [init_tokenizer] makes for the type of the vocabulary. *)
Inductive llm_tokenizer :=
  | TOKENIZER_SPM
  | TOKENIZER_BPE (regex_exprs : list (list Z))
  | TOKENIZER_WPM
  | TOKENIZER_UGM (tk : llm_tokenizer_ugm (F := F))
  | TOKENIZER_RWKV (token_matcher : naive_trie)
  | TOKENIZER_PLAMO2 (tk : llm_tokenizer_plamo2).

(** A fragment goes through the session, or is a token already. *)
Definition push_fragment (raw_text : list Z) (session : list Z -> list Z -> res (list Z)) (output : list Z) (f : fragment_buffer_variant) : res (list Z) :=
  match f with
  | FRAGMENT_RAW_TEXT off len => text ← substr raw_text off len; session text output
  | FRAGMENT_TOKEN token => Ok (output ++ [token])
  end.

(** The SPM session with the space in front of a text behind a special token. *)
Definition push_spm (raw_text : list Z) (st : list Z * bool) (f : fragment_buffer_variant) : res (list Z * bool) :=
  let '(output, is_prev_special) := st in
  match f with
  | FRAGMENT_RAW_TEXT off len =>
      part ← substr raw_text off len;
      text ← llama_escape_whitespace ((if v_add_space_prefix v && is_prev_special then [32] else []) ++ part);
      output ← spm_tokenize v text output;
      Ok (output, false)
  | FRAGMENT_TOKEN token => Ok (output ++ [token], true)
  end.

Definition push_special (b : bool) (id : Z) (output : list Z) : res (list Z) :=
  if b then assert_ (negb (id =? LLAMA_TOKEN_NULL)) ;; Ok (output ++ [id]) else Ok output.

(** [rounds] bounds the rounds of the RWKV tokenizer. *)
Definition tokenize (rounds : nat) (tokenizer : option llm_tokenizer) (raw_text : list Z) (add_special parse_special : bool) : res (list Z) :=
  t ← match tokenizer with Some t => Ok t | None => Fault AssertFailed end;
  fragment_buffer ← (if bool_decide (raw_text <> []) then
                       f ← raw_fragment raw_text 0 (length raw_text); tokenizer_st_partition raw_text [f] parse_special
                     else Ok []);
  match v_type v with
  | LLAMA_VOCAB_TYPE_SPM =>
      output ← push_special (add_special && v_add_bos v) (v_special_bos_id v) [];
      r ← foldM (push_spm raw_text) (output, true) fragment_buffer;
      push_special (add_special && v_add_eos v) (v_special_eos_id v) r.1
  | LLAMA_VOCAB_TYPE_BPE =>
      match t with
      | TOKENIZER_BPE regex_exprs =>
          output ← (if add_special then bpe_append_bos v [] else Ok []);
          output ← foldM (push_fragment raw_text (bpe_tokenize v ud en regex_exprs)) output fragment_buffer;
          if add_special then bpe_append_eos v output else Ok output
      | _ => Fault OutOfRange
      end
  | LLAMA_VOCAB_TYPE_WPM =>
      output ← push_special add_special (v_special_bos_id v) [];
      output ← foldM (push_fragment raw_text (wpm_tokenize v ud)) output fragment_buffer;
      push_special add_special (v_special_sep_id v) output
  | LLAMA_VOCAB_TYPE_UGM =>
      match t with
      | TOKENIZER_UGM tk =>
          output ← push_special (add_special && v_add_bos v) (v_special_bos_id v) [];
          output ← foldM (push_fragment raw_text (ugm_tokenize v tk)) output fragment_buffer;
          push_special (add_special && v_add_eos v) (v_special_eos_id v) output
      | _ => Fault OutOfRange
      end
  | LLAMA_VOCAB_TYPE_RWKV =>
      match t with
      | TOKENIZER_RWKV token_matcher => foldM (push_fragment raw_text (rwkv_tokenize v token_matcher rounds)) [] fragment_buffer
      | _ => Fault OutOfRange
      end
  | LLAMA_VOCAB_TYPE_PLAMO2 =>
      match t with
      | TOKENIZER_PLAMO2 tk => foldM (push_fragment raw_text (plamo_tokenize tk)) [] fragment_buffer
      | _ => Fault OutOfRange
      end
  | LLAMA_VOCAB_TYPE_NONE => Fault AbortCalled
  end.
End tokenize.

(** ** Pieces *)

Section pieces.
Context {F : Type} (v : llama_vocab F).

(** [_try_copy]: the result, and what is written to the buffer. *)
Fixpoint skip_spaces (lstrip : nat) (token : list Z) : list Z :=
  match lstrip, token with
  | S lstrip, c :: token' => if c =? 32 then skip_spaces lstrip token' else token
  | _, _ => token
  end.
Definition try_copy (length_ lstrip : Z) (token : list Z) : res (Z * list Z) :=
  if INT32_MAX <=? Z.of_nat (length token) then Fault AbortCalled
  else
    let token := skip_spaces (Z.to_nat lstrip) token in
    let size := Z.of_nat (length token) in
    Ok (if length_ <? size then (- size, []) else (size, token)).

Definition ATTR_SPECIAL : Z := Z.lor ATTR_UNKNOWN ATTR_CONTROL.

(** The piece of a token that is not in the cache. *)
Definition uncached_piece (token attr length_ lstrip : Z) : res (Z * list Z) :=
  if (0 <=? token) && (token <? Z.of_nat (length (v_id_to_token v))) then
    d ← idx (v_id_to_token v) token;
    let token_text := td_text d in
    match v_type v with
    | LLAMA_VOCAB_TYPE_WPM | LLAMA_VOCAB_TYPE_SPM | LLAMA_VOCAB_TYPE_UGM =>
        if has_attr attr (Z.lor ATTR_SPECIAL ATTR_USER_DEFINED) then try_copy length_ lstrip token_text
        else if has_attr attr ATTR_NORMAL then
          result ← llama_unescape_whitespace token_text; try_copy length_ lstrip result
        else if has_attr attr ATTR_BYTE then byte ← token_to_byte v token; try_copy length_ lstrip [byte]
        else Ok (0, [])
    | LLAMA_VOCAB_TYPE_BPE =>
        if has_attr attr (Z.lor ATTR_SPECIAL ATTR_USER_DEFINED) then try_copy length_ lstrip token_text
        else if has_attr attr ATTR_NORMAL then
          result ← llama_decode_text token_text; try_copy length_ lstrip result
        else Ok (0, [])
    | LLAMA_VOCAB_TYPE_RWKV =>
        let result := llama_unescape_rwkv_token token_text in
        let size := Z.of_nat (length result) in
        if u64 length_ <? size then n ← i32 (- size); Ok (n, []) else Ok (size, result)
    | LLAMA_VOCAB_TYPE_PLAMO2 =>
        b ← is_byte_token v token;
        if (b : bool) && byte_token_text token_text then
          hex_str ← substr token_text 3 2;
          hex_val ← stoi_16 hex_str;
          Ok (if length_ <? 1 then (-1, []) else (1, [hex_val `mod` 256]))
        else try_copy length_ lstrip token_text
    | LLAMA_VOCAB_TYPE_NONE => Fault AbortCalled
    end
  else Ok (0, []).

Definition token_to_piece (token length_ lstrip : Z) (special : bool) : res (Z * list Z) :=
  attr ← token_get_attr v token;
  if negb special && has_attr attr ATTR_SPECIAL then Ok (0, [])
  else if bool_decide (v_cache_token_to_piece v <> []) then
    result ← at_idx (v_cache_token_to_piece v) token;
    try_copy length_ lstrip result
  else uncached_piece token attr length_ lstrip.

(** [piece.resize(-n_chars)], [piece.resize(n_chars)]: what was written, and zeros. *)
Definition fit (n : Z) (l : list Z) : list Z := vresize 0 (Z.to_nat n) l.
(** [capacity]: of an empty [std::string]. *)
Definition token_to_piece_for_cache (capacity : Z) (token : Z) (special : bool) : res (list Z) :=
  r ← token_to_piece token capacity 0 special;
  if r.1 <? 0 then
    r' ← token_to_piece token (- r.1) 0 special;
    assert_ (r'.1 =? - r.1) ;;
    Ok (fit (- r.1) r'.2)
  else Ok (fit r.1 r.2).
Definition build_cache (capacity : Z) : res (list (list Z)) :=
  foldM (fun cache id => p ← token_to_piece_for_cache capacity (Z.of_nat id) true; Ok (cache ++ [p])) [] (seq 0 (length (v_id_to_token v))).

(** ** Detokenization *)

(** [memcpy] to the buffer. *)
Definition copy_to (text : list Z) (pos : nat) (bytes : list Z) : res (list Z) :=
  foldM (fun t i => b ← rd bytes i; wr t (pos + i) b) text (seq 0 (length bytes)).

(** The state: the buffer, the position in it, [avail], [total] and [remove_space]. *)
Definition detokenize_token (unparse_special : bool) (st : list Z * nat * Z * Z * bool) (token : Z) : res (list Z * nat * Z * Z * bool) :=
  let '(text, pos, avail, total, remove_space) := st in
  assert_ (0 <=? avail) ;;
  r ← token_to_piece token avail (if (remove_space : bool) then 1 else 0) unparse_special;
  let '(n_chars, bytes) := (r : Z * list Z) in
  if n_chars <? 0 then total ← i32 (total - n_chars); Ok (text, pos, 0, total, false)
  else if 0 <? n_chars then
    text ← copy_to text pos bytes;
    avail ← i32 (avail - n_chars);
    total ← i32 (total + n_chars);
    Ok (text, (pos + Z.to_nat n_chars)%nat, avail, total, false)
  else Ok (text, pos, avail, total, false).

(** The passes over the buffer, which starts at [base] = [text - total]. *)
Definition at_text (text : list Z) (base i : Z) : res Z := idx text (base + i).
Definition set_text (text : list Z) (base i x : Z) : res (list Z) := set_idx text (base + i) x.
Definition is_char (x : Z) (l : list Z) : bool := bool_decide (x ∈ l).

Definition clean_body1 (base total1 : Z) (st : list Z * Z * Z) : res (list Z * Z * Z + list Z * Z * Z) :=
  let '(text, total, i) := st in
  if i <? total1 then
    x ← at_text text base i;
    p ← at_text text base (i - 1);
    let total := if (p =? 32) && is_char x (lit "?!.,") then total - 1 else total in
    text ← set_text text base total x;
    Ok (inl (text, total + 1, i + 1))
  else Ok (inr st).
Definition clean_body2 (base total2 : Z) (st : list Z * Z * Z) : res (list Z * Z * Z + list Z * Z * Z) :=
  let '(text, total, i) := st in
  if i <? total2 then
    x ← at_text text base i;
    cut ← (if (x =? 39) && (i + 1 <? total2) then
             p ← at_text text base (i - 1); n ← at_text text base (i + 1); Ok ((p =? 32) && (n =? 32))
           else Ok false);
    if (cut : bool) then
      text ← set_text text base (i + 1) 0;
      text ← set_text text base (total - 1) x;
      Ok (inl (text, total, i + 2))
    else
      text ← set_text text base total x;
      Ok (inl (text, total + 1, i + 1))
  else Ok (inr st).
(** Whether the apostrophe at [i] starts a contraction that the space in front is removed for. *)
Definition contraction_at (text : list Z) (base total3 i : Z) : res bool :=
  x1 ← at_text text base (i + 1);
  if is_char x1 (lit "td") then Ok false
  else if is_char x1 (lit "sm") then Ok true
  else if i + 2 <? total3 then
    x2 ← at_text text base (i + 2);
    Ok (negb ((x1 =? 108) && (x2 =? 108)) && (((x1 =? 114) && (x2 =? 101)) || ((x1 =? 118) && (x2 =? 101))))
  else Ok false.
Definition clean_body3 (base total3 : Z) (st : list Z * Z * Z) : res (list Z * Z * Z + list Z * Z * Z) :=
  let '(text, total, i) := st in
  if i <? total3 then
    x ← at_text text base i;
    p ← at_text text base (i - 1);
    cut ← (if (p =? 32) && (x =? 39) && (i + 1 <? total3) then contraction_at text base total3 i else Ok false);
    let total := if (cut : bool) then total - 1 else total in
    text ← set_text text base total x;
    Ok (inl (text, total + 1, i + 1))
  else Ok (inr st).
Definition clean_pass (body : Z -> Z -> list Z * Z * Z -> res (list Z * Z * Z + list Z * Z * Z)) (base : Z) (st : list Z * Z) : res (list Z * Z) :=
  let '(text, total) := st in
  r ← loop (S (Z.to_nat total)) (body base total) (text, if total =? 0 then 0 else 1, 1);
  Ok r.1.

Definition detokenize (tokenizer : bool) (tokens : list Z) (text : list Z) (text_len_max : Z) (remove_special unparse_special : bool) :
    res (Z * list Z) :=
  if bool_decide (v_type v = LLAMA_VOCAB_TYPE_NONE) then Ok (0, text)
  else
    assert_ tokenizer ;;
    let '(tokens, remove_space) :=
      match tokens with
      | t :: rest => if remove_special && v_add_bos v && (t =? v_special_bos_id v) then (rest, false) else (tokens, v_add_space_prefix v)
      | [] => (tokens, v_add_space_prefix v)
      end in
    let tokens :=
      if remove_special && v_add_eos v && bool_decide (list.last tokens = Some (v_special_eos_id v)) then removelast tokens else tokens in
    r ← foldM (detokenize_token unparse_special) (text, 0%nat, text_len_max, 0, remove_space) tokens;
    let '(text, pos, _, total, _) := (r : list Z * nat * Z * Z * bool) in
    if text_len_max <? total then n ← i32 (- total); Ok (n, text)
    else
      r ← (if v_clean_spaces v then
             let base := Z.of_nat pos - total in
             s1 ← clean_pass clean_body1 base (text, total);
             s2 ← clean_pass clean_body2 base s1;
             clean_pass clean_body3 base s2
           else Ok (text, total));
      let '(text, total) := (r : list Z * Z) in
      if total <=? text_len_max then Ok (total, text) else n ← i32 (- total); Ok (n, text).

(** The overloads for callers: tokens into an array, text into a string. *)
Definition tokenize_to (result : list Z) (n_tokens_max : Z) (tokens : list Z) : res (Z * list Z) :=
  if INT32_MAX <=? Z.of_nat (length result) then Ok (INT32_MIN, tokens)
  else if n_tokens_max <? Z.of_nat (length result) then Ok (- Z.of_nat (length result), tokens)
  else t ← copy_to tokens 0 result; Ok (Z.of_nat (length result), t).
Definition detokenize_string (capacity : nat) (tokenizer : bool) (tokens : list Z) (special : bool) : res (list Z) :=
  let text := replicate (Nat.max capacity (length tokens)) 0 in
  r ← detokenize tokenizer tokens text (Z.of_nat (length text)) false special;
  let '(n_chars, text) := (r : Z * list Z) in
  if n_chars <? 0 then
    let text := vresize 0 (Z.to_nat (- n_chars)) text in
    r ← detokenize tokenizer tokens text (Z.of_nat (length text)) false special;
    let '(n_chars, text) := (r : Z * list Z) in
    assert_ (n_chars <=? Z.of_nat (length text)) ;;
    if n_chars <? 0 then Throw "basic_string::resize" else Ok (fit n_chars text)
  else Ok (fit n_chars text).
End pieces.
