(* ===== verification/VocabTextOk.v ===== *)
(** Searching and replacing in strings, and the pieces of tokens with their cache. *)

From S2P Require Import Prelude GrammarParser Utf8 Unicode UnicodeOk Vocab VocabOk VocabMerge VocabMergeOk VocabUgm VocabText.
Local Open Scope Z_scope.

(** ** Searching *)

(** [text] stands at offset [i] of [s]. *)
Definition stands_at (s text : list Z) (i : nat) : Prop := take (length text) (drop i s) = text.
Definition occurs (text s : list Z) : Prop := exists a b, s = a ++ text ++ b.

Lemma stands_at_occurs s text i : stands_at s text i -> occurs text s.
Proof.
  intros Hi. exists (take i s), (drop (length text) (drop i s)). transitivity (take i s ++ drop i s); [by rewrite take_drop|].
  f_equal. rewrite <- (take_drop (length text) (drop i s)) at 1. f_equal. done.
Qed.
Lemma stands_at_bound s text i : stands_at s text i -> text <> [] -> (i + length text <= length s)%nat.
Proof.
  intros Hi Hne. assert (Hl : length (take (length text) (drop i s)) = length text) by (by rewrite Hi).
  rewrite length_take, length_drop in Hl. assert (0 < length text)%nat by (destruct text; [done|cbn; lia]). lia.
Qed.

Lemma str_find_some s text pos i : str_find s text pos = Some i ->
  (pos <= i <= length s)%nat /\ stands_at s text i /\ forall j, (pos <= j < i)%nat -> ~ stands_at s text j.
Proof.
  unfold str_find. destruct (list_find _ _) as [[k x]|] eqn:E; [|done]. cbn. intros [= <-].
  apply list_find_Some in E as (Hk & Hx & Hbefore). apply lookup_seq in Hk as [-> Hk]. split; [lia|]. split; [done|].
  intros j Hj Hs. apply (Hbefore (j - pos)%nat j); [apply lookup_seq; lia|lia|done].
Qed.
Lemma str_find_none s text pos i : str_find s text pos = None -> (pos <= i)%nat -> (i <= length s)%nat -> ~ stands_at s text i.
Proof.
  unfold str_find. destruct (list_find _ _) as [[k x]|] eqn:E; [done|]. intros _ Hp Hi. apply list_find_None in E.
  rewrite list.Forall_forall in E. apply E. apply elem_of_seq. lia.
Qed.

(** ** Replacing *)

(** The left-most occurrences, one after the other. *)
Fixpoint replaced (search replace : list Z) (skip : nat) (s : list Z) : list Z :=
  match s with
  | [] => []
  | c :: r =>
      match skip with
      | S skip => replaced search replace skip r
      | O => if bool_decide (take (length search) s = search) then replace ++ replaced search replace (length search - 1) r
             else c :: replaced search replace 0 r
      end
  end.

Section replace.
Context (s search replace : list Z) (Hne : search <> []).
Abbreviation rep := (replaced search replace).

Lemma replaced_skip n l : rep n l = rep 0 (drop n l).
Proof.
  revert l. induction n as [|n IH]; intros l; [by rewrite drop_0|]. destruct l as [|c l]; [done|]. cbn [replaced drop]. apply IH.
Qed.
(** Up to the first occurrence nothing changes. *)
Lemma replaced_none l n : (forall j, (j < n)%nat -> ~ stands_at l search j) -> rep 0 l = take n l ++ rep 0 (drop n l).
Proof.
  revert l. induction n as [|n IH]; intros l Hno; [done|]. destruct l as [|c l]; [done|]. cbn [take drop app].
  cbn [replaced]. rewrite bool_decide_false by (apply (Hno 0%nat); lia). f_equal. apply IH. intros j Hj. apply (Hno (S j)). lia.
Qed.

Lemma replace_round builder last : replace_body s search replace (builder, last) =
  Ok match str_find s search last with
     | Some pos => inl (builder ++ take (pos - last) (drop last s) ++ replace, (pos + length search)%nat)
     | None => inr (builder ++ drop last s, last)
     end.
Proof. unfold replace_body. by destruct (str_find s search last). Qed.

Lemma replace_loop fuel builder last : (length s - last < fuel)%nat -> (last <= length s)%nat ->
  exists last', loop fuel (replace_body s search replace) (builder, last) = Ok (builder ++ rep 0 (drop last s), last').
Proof.
  revert builder last. induction fuel as [|fuel IH]; intros builder last Hf Hl; [lia|]. cbn [loop]. rewrite replace_round, bind_ok.
  destruct (str_find s search last) as [pos|] eqn:E.
  - apply str_find_some in E as (Hpos & Hs & Hbefore). pose proof (stands_at_bound _ _ _ Hs Hne) as Hb.
    assert (0 < length search)%nat by (destruct search; [done|cbn; lia]).
    destruct (IH (builder ++ take (pos - last) (drop last s) ++ replace) (pos + length search)%nat ltac:(lia) Hb) as (last' & ->).
    exists last'. do 2 f_equal. rewrite (replaced_none (drop last s) (pos - last)).
    2: { intros j Hj Hst. apply (Hbefore (last + j)%nat); [lia|]. unfold stands_at in *. by rewrite drop_drop in Hst. }
    rewrite drop_drop. replace (last + (pos - last))%nat with pos by lia. rewrite <- !app_assoc. do 3 f_equal.
    unfold stands_at in Hs. destruct (drop pos s) as [|c r] eqn:Er.
    { rewrite take_nil in Hs. by destruct search. }
    cbn [replaced]. rewrite bool_decide_true by done. f_equal. rewrite <- drop_drop, Er, (replaced_skip (length search - 1)).
    destruct (length search) as [|n]; [lia|]. cbn [drop Nat.sub]. by rewrite Nat.sub_0_r.
  - exists last. do 2 f_equal. rewrite (replaced_none (drop last s) (length (drop last s))).
    + by rewrite firstn_all, (drop_ge (drop last s) (length (drop last s))), app_nil_r by lia.
    + intros j Hj Hst. rewrite length_drop in Hj. apply (str_find_none _ _ _ (last + j) E); [lia|lia|].
      unfold stands_at in *. by rewrite drop_drop in Hst.
Qed.

Lemma replace_all_ok : replace_all s search replace = Ok (rep 0 s).
Proof.
  unfold replace_all. rewrite bool_decide_false by done. destruct (replace_loop (S (length s)) [] 0) as (last & ->); [lia..|]. done.
Qed.
End replace.

(** ** Characters *)

Section utf8.
Local Ltac Zify.zify_post_hook ::= Z.to_euclidean_division_equations.

(** The first byte says how many follow, and those that follow are below C0 and above 7F. *)
Lemma utf8_shape c : scalar c -> exists b l, utf8_bytes c = b :: l /\ Forall (fun x => 128 <= x < 192) l /\
  unicode_len_utf8 b = S (length l) /\ 0 <= b < 256 /\ (b < 128 \/ 192 <= b) /\ (b < 128 -> c = b /\ l = []).
Proof.
  unfold scalar, utf8_bytes, unicode_len_utf8. intros Hc.
  assert (L : forall b k n, 0 <= b < 256 -> b / 16 = k -> 12 <= k <= 15 -> n = nth (Z.to_nat k) [1; 1; 1; 1; 1; 1; 1; 1; 1; 1; 1; 1; 2; 2; 3; 4]%nat 0%nat ->
    nth (Z.to_nat (Z.shiftr b 4)) [1; 1; 1; 1; 1; 1; 1; 1; 1; 1; 1; 1; 2; 2; 3; 4]%nat 0%nat = n).
  { intros b k n Hb Hk _ ->. rewrite Z.shiftr_div_pow2 by lia. change (2 ^ 4) with 16. by rewrite Hk. }
  destruct (Z.ltb_spec c 128); [|destruct (Z.ltb_spec c 2048); [|destruct (Z.ltb_spec c 65536)]];
    eexists _, _; (split; [reflexivity|]); split_and!; try lia; try (repeat constructor; lia).
  - rewrite Z.shiftr_div_pow2 by lia. change (2 ^ 4) with 16. assert (Hd : (Z.to_nat (c / 16) < 8)%nat) by lia.
    generalize dependent (Z.to_nat (c / 16)). intros n Hn. do 8 (destruct n as [|n]; [done|]). lia.
  - assert (E : (192 + c / 64) / 16 = 12 \/ (192 + c / 64) / 16 = 13) by lia.
    destruct E as [E|E]; (eapply L; [lia|exact E|lia|done]).
  - eapply (L _ 14); [lia..|done].
  - eapply (L _ 15); [lia..|done].
Qed.
End utf8.

Lemma utf8_chars_encode cs : Forall scalar cs -> utf8_chars (utf8_encode cs) = utf8_bytes <$> cs.
Proof.
  induction 1 as [|c cs Hc Hcs IH]; [done|]. rewrite utf8_encode_cons, fmap_cons.
  assert (Hb : byte_values (utf8_bytes c ++ utf8_encode cs)).
  { unfold byte_values. rewrite <- utf8_encode_cons. apply (utf8_encode_byte (c :: cs)). by constructor. }
  destruct (utf8_shape c Hc) as (b & l & E & _ & Hlen & _). rewrite E in *. cbn [app] in *. rewrite utf8_chars_cons by done.
  rewrite Hlen, Nat.min_l by (cbn; rewrite length_app; lia). cbn [take drop]. rewrite take_app_length, drop_app_length. by rewrite IH.
Qed.

(** What replaces blanks, and back. *)
Definition blank_out (c : Z) : Z := if c =? 32 then 9601 else c.
Definition blank_in (c : Z) : Z := if c =? 9601 then 32 else c.
Lemma escaped_space_bytes : escaped_space = utf8_bytes 9601.
Proof. by vm_compute. Qed.
Lemma blank_out_scalar c : scalar c -> scalar (blank_out c).
Proof. unfold blank_out, scalar. destruct (c =? 32); lia. Qed.
Lemma blank_in_out c : c <> 9601 -> blank_in (blank_out c) = c.
Proof. intros. unfold blank_in, blank_out. destruct (Z.eqb_spec c 32) as [->|]; [done|]. by rewrite (proj2 (Z.eqb_neq _ _)). Qed.

(** A character without an occurrence is copied. *)
Lemma replaced_copy search replace l rest : (forall j, (j < length l)%nat -> ~ stands_at (l ++ rest) search j) ->
  replaced search replace 0 (l ++ rest) = l ++ replaced search replace 0 rest.
Proof. intros Hno. rewrite (replaced_none _ _ _ (length l) Hno). by rewrite take_app_length, drop_app_length. Qed.
(** An occurrence is replaced. *)
Lemma replaced_here search replace rest : search <> [] -> replaced search replace 0 (search ++ rest) = replace ++ replaced search replace 0 rest.
Proof.
  intros Hne. destruct search as [|c t]; [done|]. cbn [app replaced]. rewrite bool_decide_true by (cbn [length take]; by rewrite take_app_length).
  f_equal. cbn [length Nat.sub]. by rewrite Nat.sub_0_r, replaced_skip, drop_app_length.
Qed.
Lemma stands_at_head s text i c t : text = c :: t -> stands_at s text i -> s !! i = Some c.
Proof.
  intros -> Hs. unfold stands_at in Hs. destruct (drop i s) as [|x r] eqn:E; [done|]. injection Hs as -> _.
  rewrite <- (Nat.add_0_r i), <- lookup_drop, E. done.
Qed.

Lemma escape_ok cs : Forall scalar cs -> llama_escape_whitespace (utf8_encode cs) = Ok (utf8_encode (blank_out <$> cs)).
Proof.
  intros Hcs. unfold llama_escape_whitespace. rewrite replace_all_ok by done. f_equal. rewrite escaped_space_bytes.
  induction Hcs as [|c cs Hc Hcs IH]; [done|]. rewrite fmap_cons, !utf8_encode_cons. destruct (utf8_shape c Hc) as (b & l & E & Hl & _ & _ & Hb & Hlow).
  destruct (decide (c = 32)) as [->|Hne].
  - change (utf8_bytes 32) with [32]. by rewrite replaced_here, IH.
  - unfold blank_out at 1. rewrite (proj2 (Z.eqb_neq _ _) Hne), replaced_copy, IH; [done|]. rewrite E.
    intros [|j] Hj Hs; apply (stands_at_head _ _ _ 32 []) in Hs; try done.
    + injection Hs as ->. destruct Hlow; lia.
    + cbn in Hj. change ((l ++ utf8_encode cs) !! j = Some 32) in Hs. rewrite lookup_app_l in Hs by lia. eapply Forall_lookup_1 in Hs; [|done]. cbn in Hs. lia.
Qed.
Lemma unescape_ok cs : Forall scalar cs -> llama_unescape_whitespace (utf8_encode cs) = Ok (utf8_encode (blank_in <$> cs)).
Proof.
  intros Hcs. unfold llama_unescape_whitespace. rewrite replace_all_ok by done. f_equal.
  induction Hcs as [|c cs Hc Hcs IH]; [done|]. rewrite fmap_cons, !utf8_encode_cons.
  destruct (utf8_shape c Hc) as (b & l & E & Hl & Hlen & Hr & Hb & _).
  destruct (decide (c = 9601)) as [->|Hne].
  - rewrite <- escaped_space_bytes. by rewrite replaced_here, IH.
  - unfold blank_in at 1. rewrite (proj2 (Z.eqb_neq _ _) Hne), replaced_copy, IH; [done|].
    intros [|j] Hj Hs.
    + apply Hne. unfold stands_at in Hs. rewrite drop_0, E in Hs. cbn [app length escaped_space take] in Hs. injection Hs as -> Hs.
      cbn in Hlen. destruct l as [|l1 [|l2 [|? l]]]; try done. cbn in Hs. injection Hs as -> ->.
      assert (D : unicode_cpt_from_utf8 (utf8_bytes c) 0 = Ok (c, length (utf8_bytes c))).
      { pose proof (cpt_from_utf8_ok [] c [] Hc) as D. by rewrite app_nil_l, app_nil_r in D. }
      rewrite E in D. vm_compute in D. congruence.
    + rewrite E in Hj, Hs. apply (stands_at_head _ _ _ 226 [150; 129]) in Hs; [|done]. cbn in Hj. change ((l ++ utf8_encode cs) !! j = Some 226) in Hs. rewrite lookup_app_l in Hs by lia.
      eapply Forall_lookup_1 in Hs; [|done]. cbn in Hs. lia.
Qed.

(** The characters of the byte-level encoding are bytes again. *)
Lemma decode_text_ok l : Forall byte l -> llama_decode_text (encoded_bytes l) = Ok l.
Proof.
  intros Hl. unfold llama_decode_text, encoded_bytes.
  rewrite cpts_from_utf8_encode, bind_ok by (apply list.Forall_fmap; eapply list.Forall_impl; [exact Hl|apply byte_cpt_scalar]).
  generalize (utf8_encode (byte_cpt <$> l)). intros text.
  enough (H : forall out, foldM (fun decoded_text cpt =>
    utf8 ← unicode_cpt_to_utf8 cpt;
    match unicode_utf8_to_byte utf8 with
    | Ok b => Ok (decoded_text ++ [b])
    | Throw _ => Ok (decoded_text ++ lit "[UNK_BYTE_0x" ++ concat (hex_byte <$> utf8) ++ text ++ lit "]")
    | Fault f => Fault f
    end) out (byte_cpt <$> l) = Ok (out ++ l)) by apply (H []).
  induction Hl as [|b l Hb Hl IH]; intros out; [by rewrite app_nil_r|]. rewrite fmap_cons. cbn [foldM].
  pose proof (utf8_to_byte_ok b Hb) as E. pose proof (byte_cpt_scalar b Hb) as Hs. generalize dependent (byte_cpt b). intros c E Hs.
  rewrite (cpt_to_utf8_ok c Hs), bind_ok, E, bind_ok, IH. by rewrite <- app_assoc.
Qed.

(** ** Pieces *)

Section pieces.
Context {F : Type} (v : llama_vocab F).

(** The tokenizers whose pieces are text. *)
Definition text_type (ty : llama_vocab_type) : bool :=
  match ty with LLAMA_VOCAB_TYPE_SPM | LLAMA_VOCAB_TYPE_WPM | LLAMA_VOCAB_TYPE_UGM | LLAMA_VOCAB_TYPE_BPE => true | _ => false end.

(** The text of a token, whatever the size of the buffer. *)
Definition piece_text (token : Z) (d : token_data F) : res (list Z) :=
  let attr := td_attr d in
  if has_attr attr (Z.lor ATTR_SPECIAL ATTR_USER_DEFINED) then Ok (td_text d)
  else if has_attr attr ATTR_NORMAL then
    if bool_decide (v_type v = LLAMA_VOCAB_TYPE_BPE) then llama_decode_text (td_text d) else llama_unescape_whitespace (td_text d)
  else if has_attr attr ATTR_BYTE && negb (bool_decide (v_type v = LLAMA_VOCAB_TYPE_BPE)) then b ← token_to_byte v token; Ok [b]
  else Ok [].

Lemma try_copy_nil length_ lstrip : 0 <= length_ -> try_copy length_ lstrip [] = Ok (0, []).
Proof.
  intros Hl. unfold try_copy. assert (E : skip_spaces (Z.to_nat lstrip) [] = []) by (by destruct (Z.to_nat lstrip)). rewrite E.
  change (Z.of_nat (length (@nil Z))) with 0. by rewrite (proj2 (Z.ltb_ge length_ 0) Hl).
Qed.

Lemma uncached_ok token d length_ lstrip : text_type (v_type v) = true -> 0 <= token -> v_id_to_token v !! Z.to_nat token = Some d -> 0 <= length_ ->
  uncached_piece v token (td_attr d) length_ lstrip = (p ← piece_text token d; try_copy length_ lstrip p).
Proof.
  intros Ht H0 Hd Hlen. pose proof (lookup_lt_Some _ _ _ Hd). unfold uncached_piece, piece_text.
  rewrite (proj2 (Z.leb_le _ _) H0), (proj2 (Z.ltb_lt _ _)) by lia. cbn [andb]. unfold idx. rewrite (proj2 (Z.ltb_ge _ _) H0), (rd_ok _ _ _ Hd), bind_ok. cbn zeta.
  destruct (has_attr (td_attr d) (Z.lor ATTR_SPECIAL ATTR_USER_DEFINED)); [by destruct (v_type v)|].
  destruct (has_attr (td_attr d) ATTR_NORMAL).
  { destruct (v_type v); try done. }
  destruct (has_attr (td_attr d) ATTR_BYTE); cbn [andb].
  - destruct (v_type v); try done; try (by destruct (token_to_byte v token)). cbn [bool_decide negb]. symmetry. by apply try_copy_nil.
  - rewrite bind_ok, try_copy_nil by done. by destruct (v_type v).
Qed.

Lemma attr_ok token d : v_type v <> LLAMA_VOCAB_TYPE_NONE -> 0 <= token -> v_id_to_token v !! Z.to_nat token = Some d ->
  token_get_attr v token = Ok (td_attr d).
Proof.
  intros Ht H0 Hd. unfold token_get_attr, has_type, at_idx. rewrite bool_decide_true by done. cbn [assert_]. by rewrite bind_ok, (proj2 (Z.ltb_ge _ _) H0), Hd.
Qed.
End pieces.

(** ** The cache *)

Definition with_cache {F} (v : llama_vocab F) (cache : list (list Z)) : llama_vocab F :=
  mk_vocab (v_type v) (v_token_to_id v) (v_id_to_token v) (v_cache_special_tokens v) cache (v_bpe_ranks v) (v_max_token_len v)
    (v_special_bos_id v) (v_special_eos_id v) (v_special_unk_id v) (v_special_sep_id v) (v_add_space_prefix v) (v_add_bos v) (v_add_eos v)
    (v_ignore_merges v) (v_clean_spaces v) (v_remove_extra_whitespaces v) (v_escape_whitespaces v) (v_treat_whitespace_as_suffix v).

Section cache.
Context {F : Type} (v : llama_vocab F) (Ht : text_type (v_type v) = true).
Context (capacity : Z) (Hcap : 0 <= capacity).

Lemma text_type_not_none : v_type v <> LLAMA_VOCAB_TYPE_NONE.
Proof. intros E. by rewrite E in Ht. Qed.

(** A token without the cache. *)
Lemma token_to_piece_uncached token d length_ lstrip special : v_cache_token_to_piece v = [] ->
  0 <= token -> v_id_to_token v !! Z.to_nat token = Some d -> 0 <= length_ ->
  token_to_piece v token length_ lstrip special =
    if negb special && has_attr (td_attr d) ATTR_SPECIAL then Ok (0, []) else p ← piece_text v token d; try_copy length_ lstrip p.
Proof.
  intros Hc H0 Hd Hlen. unfold token_to_piece. rewrite (attr_ok v token d text_type_not_none H0 Hd), bind_ok, Hc. rewrite bool_decide_false by (by intros []).
  destruct (_ && _); [done|]. by apply uncached_ok.
Qed.

Lemma try_copy_0 length_ q : try_copy length_ 0 q =
  if INT32_MAX <=? Z.of_nat (length q) then Fault AbortCalled
  else Ok (if length_ <? Z.of_nat (length q) then (- Z.of_nat (length q), []) else (Z.of_nat (length q), q)).
Proof. unfold try_copy. change (Z.to_nat 0) with 0%nat. by replace (skip_spaces 0 q) with q by (by destruct q). Qed.

Lemma piece_for_cache_ok token d p : v_cache_token_to_piece v = [] -> 0 <= token -> v_id_to_token v !! Z.to_nat token = Some d ->
  token_to_piece_for_cache v capacity token true = Ok p -> piece_text v token d = Ok p /\ Z.of_nat (length p) < INT32_MAX.
Proof.
  intros Hc H0 Hd. unfold token_to_piece_for_cache. rewrite (token_to_piece_uncached token d) by done. cbn [negb andb].
  destruct (piece_text v token d) as [q|?|?] eqn:Eq; [|done..]. rewrite bind_ok, try_copy_0.
  destruct (Z.leb_spec INT32_MAX (Z.of_nat (length q))) as [|Hq]; [done|]. rewrite bind_ok.
  assert (Ef : fit (Z.of_nat (length q)) q = q).
  { unfold fit, vresize. by rewrite Nat2Z.id, firstn_all, Nat.sub_diag, app_nil_r. }
  destruct (Z.ltb_spec capacity (Z.of_nat (length q))); cbn [fst snd].
  - assert (Hneg : - Z.of_nat (length q) < 0) by lia. rewrite (proj2 (Z.ltb_lt _ _) Hneg), Z.opp_involutive.
    rewrite (token_to_piece_uncached token d) by (done || lia). cbn [negb andb]. rewrite Eq, bind_ok, try_copy_0.
    rewrite (proj2 (Z.leb_gt _ _) Hq), bind_ok, Z.ltb_irrefl. cbn [fst snd]. rewrite Z.eqb_refl. cbn [assert_]. rewrite bind_ok, Ef. by intros [= <-].
  - assert (Hpos : 0 <= Z.of_nat (length q)) by lia. rewrite (proj2 (Z.ltb_ge _ _) Hpos), Ef. by intros [= <-].
Qed.
End cache.

(** The entries of a built cache. *)
Lemma build_cache_lookup {F} (v : llama_vocab F) capacity cache token : build_cache v capacity = Ok cache ->
  (token < length (v_id_to_token v))%nat ->
  exists p, cache !! token = Some p /\ token_to_piece_for_cache v capacity (Z.of_nat token) true = Ok p.
Proof.
  unfold build_cache. set (n := length _). intros E Ht.
  assert (G : forall k c0 l, foldM (fun cache id => p ← token_to_piece_for_cache v capacity (Z.of_nat id) true; Ok (cache ++ [p])) c0 (seq k l) = Ok cache ->
    length c0 = k -> forall t, (k <= t < k + l)%nat -> exists p, cache !! t = Some p /\ token_to_piece_for_cache v capacity (Z.of_nat t) true = Ok p).
  { clear E. intros k c0 l. revert k c0. induction l as [|l IH]; intros k c0 E Hl t Hk; [lia|]. cbn [seq foldM] in E.
    destruct (token_to_piece_for_cache v capacity (Z.of_nat k) true) as [p|?|?] eqn:Ep; [|done..]. rewrite !bind_ok in E.
    destruct (decide (t = k)) as [->|]; [|apply (IH (S k) _ E); [rewrite length_app; simpl; lia|lia]].
    exists p. split; [|done]. assert (Pre : forall k c0 l c, foldM (fun cache id => p ← token_to_piece_for_cache v capacity (Z.of_nat id) true; Ok (cache ++ [p])) c0 (seq k l) = Ok c -> c0 `prefix_of` c).
    { clear. intros k c0 l. revert k c0. induction l as [|l IH]; intros k c0 c; cbn [seq foldM]; [by intros [= <-]|].
      destruct (token_to_piece_for_cache v capacity (Z.of_nat k) true); [|done..]. rewrite bind_ok. intros E%IH. by eapply prefix_app_l. }
    apply Pre in E. eapply prefix_lookup_Some; [|exact E]. by rewrite lookup_app_r, Hl, Nat.sub_diag by lia. }
  apply (G 0%nat [] n E eq_refl token). lia.
Qed.

(** A token from the cache: what it is without. *)
Lemma token_to_piece_cached {F} (v : llama_vocab F) capacity cache token length_ lstrip special :
  text_type (v_type v) = true -> 0 <= capacity -> v_cache_token_to_piece v = [] -> build_cache v capacity = Ok cache ->
  0 <= token < n_tokens v -> 0 <= length_ ->
  token_to_piece (with_cache v cache) token length_ lstrip special = token_to_piece v token length_ lstrip special.
Proof.
  intros Ht Hcap Hc E Hr Hlen. unfold n_tokens in Hr. destruct (lookup_lt_is_Some_2 (v_id_to_token v) (Z.to_nat token) ltac:(lia)) as [d Hd].
  destruct (build_cache_lookup v capacity cache (Z.to_nat token) E ltac:(lia)) as (p & Hp & Ep). rewrite Z2Nat.id in Ep by lia.
  destruct (piece_for_cache_ok v Ht capacity Hcap token d p Hc ltac:(lia) Hd Ep) as [Et _].
  rewrite (token_to_piece_uncached v Ht token d) by (done || lia). unfold token_to_piece.
  rewrite (attr_ok (with_cache v cache) token d) by (done || lia || by apply text_type_not_none). rewrite bind_ok. cbn [with_cache v_cache_token_to_piece].
  rewrite bool_decide_true by (by intros ->). destruct (negb special && _); [done|].
  unfold at_idx. rewrite (proj2 (Z.ltb_ge _ _)), Hp, bind_ok, Et by lia. done.
Qed.
