(* ===== verification/VocabDetokOk.v ===== *)
(** Detokenization: the passes that edit the buffer in place compute list functions, and
    [detokenize] writes the pieces of the tokens one after the other, or says how much room
    they need. *)

From S2P Require Import Prelude Unicode Vocab VocabOk VocabText VocabTextOk.
Local Open Scope Z_scope.

(** ** The passes *)

(** A space is left out when what follows says so. *)
Fixpoint drop_spaces (cut : list Z -> bool) (l : list Z) : list Z :=
  match l with
  | [] => []
  | p :: r => if (p =? 32) && cut r then drop_spaces cut r else p :: drop_spaces cut r
  end.

(** " ?", " !", " .", " ," *)
Definition cut1 (r : list Z) : bool := match r with x :: _ => is_char x (lit "?!.,") | [] => false end.
(** " 's", " 'm", " 're", " 've" *)
Definition cut3 (r : list Z) : bool :=
  match r with
  | x :: x1 :: r => (x =? 39) && (is_char x1 (lit "sm") ||
      match r with x2 :: _ => ((x1 =? 114) || (x1 =? 118)) && (x2 =? 101) | [] => false end)
  | _ => false
  end.
(** " ' " *)
Definition quoted (l : list Z) : bool := match l with p :: x :: n :: _ => (p =? 32) && (x =? 39) && (n =? 32) | _ => false end.
Fixpoint drop_quotes (skip : nat) (l : list Z) : list Z :=
  match l with
  | [] => []
  | p :: r =>
      match skip with
      | S skip => drop_quotes skip r
      | O => if quoted l then 39 :: drop_quotes 2 r else p :: drop_quotes 0 r
      end
  end.
Definition cleaned (l : list Z) : list Z := drop_spaces cut3 (drop_quotes 0 (drop_spaces cut1 l)).

(** The buffer holds [l] in front of [rest]. *)
Section pass.
Context (l rest : list Z).
Abbreviation whole := (l ++ rest).

Lemma at_text_ok text i x : text !! i = Some x -> at_text text 0 (Z.of_nat i) = Ok x.
Proof. intros Hx. unfold at_text, idx. by rewrite Z.add_0_l, (proj2 (Z.ltb_ge _ _)), Nat2Z.id, (rd_ok _ _ _ Hx) by lia. Qed.
Lemma set_text_ok text i x : (i < length text)%nat -> set_text text 0 (Z.of_nat i) x = Ok (<[i := x]> text).
Proof. intros Hi. unfold set_text, set_idx. by rewrite Z.add_0_l, (proj2 (Z.ltb_ge _ _)), Nat2Z.id, wr_ok by lia. Qed.

(** What is written is [out]; from [from] on the buffer is as it was. *)
Record edited (text out : list Z) (from : nat) : Prop := {
  ed_length : length text = length whole;
  ed_out : take (length out) text = out;
  ed_rest j : (from <= j)%nat -> text !! j = whole !! j
}.

Lemma edited_write text out from from' x : edited text out from -> (from <= from')%nat -> (length out < length l)%nat ->
  ((from' <= length out)%nat -> whole !! length out = Some x) -> edited (<[length out := x]> text) (out ++ [x]) from'.
Proof.
  intros [H1 H2 H3] Hf Hl Hx. assert (length whole = length l + length rest)%nat by apply length_app. constructor.
  - by rewrite length_insert.
  - rewrite length_app, Nat.add_1_r. erewrite take_S_r by (apply list_lookup_insert_eq; lia). by rewrite take_insert_ge, H2 by lia.
  - intros j Hj. destruct (decide (j = length out)) as [->|]; [|rewrite list_lookup_insert_ne by done; apply H3; lia].
    rewrite list_lookup_insert_eq by lia. symmetry. by apply Hx.
Qed.
(** The last of the written characters is replaced. *)
Lemma edited_back text o p from : edited text (o ++ [p]) from -> edited text o from.
Proof.
  intros [H1 H2 H3]. constructor; [done| |done]. rewrite length_app in H2.
  assert (E : take (length o) text = take (length o) (take (length o + length [p]) text)) by (rewrite take_take; f_equal; lia).
  by rewrite E, H2, take_app_length.
Qed.

(** The state in front of index [i]: what is written ends with the character before [i], and
    the list function goes on with it. *)
Definition going (f : list Z -> list Z) (text : list Z) (total : Z) (i : nat) : Prop :=
  exists o p, l !! (i - 1)%nat = Some p /\ (1 <= i <= length l)%nat /\ total = Z.of_nat (S (length o)) /\ (length o < i)%nat /\ edited text (o ++ [p]) (i - 1) /\ f l = o ++ f (drop (i - 1) l).

Lemma going_start f p : l !! 0%nat = Some p -> going f whole 1 1.
Proof.
  intros Hp. pose proof (lookup_lt_Some _ _ _ Hp). exists [], p. split_and!; try done; try (simpl; lia). constructor; [done| |done].
  destruct l; [done|]. cbn in *. by injection Hp as ->.
Qed.

Lemma drop_at i x : l !! i = Some x -> drop i l = x :: drop (S i) l.
Proof. intros. by apply drop_S. Qed.

(** A character is written behind the others, or over a space. *)
Lemma going_write f (cut : bool) text total i x : going f text total i -> l !! i = Some x ->
  (forall p, l !! (i - 1)%nat = Some p -> f (p :: drop i l) = if cut then f (drop i l) else p :: f (drop i l)) ->
  let total' := if cut then total - 1 else total in
  exists text', set_text text 0 total' x = Ok text' /\ going f text' (total' + 1) (S i).
Proof.
  intros (o & p & Hp & Hi & -> & Ho & He & Hf) Hx Hs. pose proof (lookup_lt_Some _ _ _ Hx) as Hl. cbn zeta.
  assert (Hw : whole !! i = Some x) by (by apply lookup_app_l_Some).
  assert (Hlen : (length whole = length l + length rest)%nat) by apply length_app.
  assert (Ed : drop (i - 1) l = p :: drop i l).
  { rewrite (drop_S _ p) by done. f_equal. f_equal. lia. }
  rewrite Ed, (Hs p Hp) in Hf. pose proof (ed_length _ _ _ He). destruct cut.
  - apply edited_back in He. replace (Z.of_nat (S (length o)) - 1) with (Z.of_nat (length o)) by lia.
    rewrite set_text_ok by lia. eexists. split; [done|]. exists o, x. replace (S i - 1)%nat with i by lia. split_and!; try done; try lia.
    apply (edited_write _ _ (i - 1)); [done|lia..].
  - rewrite set_text_ok by lia. eexists. split; [done|]. exists (o ++ [p]), x. replace (S i - 1)%nat with i by lia.
    rewrite !length_app. cbn [length]. split_and!; try done; try lia.
    + replace (S (length o)) with (length (o ++ [p])) by (rewrite length_app; simpl; lia).
      apply (edited_write _ _ (i - 1)); [done|lia|rewrite length_app; simpl; lia|]. rewrite length_app. cbn [length]. intros ?. by replace (length o + 1)%nat with i by lia.
    + by rewrite <- app_assoc.
Qed.

(** Reading in front of the writing. *)
Lemma going_at f text total i j x : going f text total i -> (i - 1 <= j)%nat -> l !! j = Some x -> at_text text 0 (Z.of_nat j) = Ok x.
Proof.
  intros (o & p & _ & _ & _ & _ & He & _) Hj Hx. apply at_text_ok. rewrite (ed_rest _ _ _ He) by done. by apply lookup_app_l_Some.
Qed.
Lemma going_end f text total i : going f text total i -> i = length l -> (forall p, f [p] = [p]) ->
  total = Z.of_nat (length (f l)) /\ take (length (f l)) text = f l /\ length text = length whole.
Proof.
  intros (o & p & Hp & Hi & -> & _ & He & ->) -> Hf. rewrite (drop_S _ p) by done. rewrite drop_ge, Hf by lia.
  split_and!; [rewrite length_app; simpl; lia|by apply (ed_out _ _ _ He)|by apply He].
Qed.
End pass.

(** ** The three passes *)

Section passes.
Context (l rest : list Z).

Lemma contraction_ok text total i x1 : l !! i = Some 39 -> going l rest (drop_spaces cut3) text total i -> l !! S i = Some x1 ->
  contraction_at text 0 (Z.of_nat (length l)) (Z.of_nat i) = Ok (cut3 (drop i l)).
Proof.
  intros Hx G H1. rewrite (drop_S _ _ _ Hx), (drop_S _ _ _ H1). unfold contraction_at.
  replace (Z.of_nat i + 1) with (Z.of_nat (S i)) by lia. rewrite (going_at _ _ _ _ _ _ _ x1 G) by (done || lia). rewrite bind_ok.
  replace (Z.of_nat i + 2) with (Z.of_nat (S (S i))) by lia. cbn [cut3 Z.eqb Pos.eqb andb].
  assert (C : is_char x1 (lit "td") = (x1 =? 116) || (x1 =? 100)).
  { unfold is_char. cbn. case_bool_decide as E; rewrite !elem_of_cons in E.
    - destruct E as [-> | [-> | []%elem_of_nil]]; done.
    - destruct (Z.eqb_spec x1 116), (Z.eqb_spec x1 100); tauto. }
  assert (C' : is_char x1 (lit "sm") = (x1 =? 115) || (x1 =? 109)).
  { unfold is_char. cbn. case_bool_decide as E; rewrite !elem_of_cons in E.
    - destruct E as [-> | [-> | []%elem_of_nil]]; done.
    - destruct (Z.eqb_spec x1 115), (Z.eqb_spec x1 109); tauto. }
  rewrite C, C'. destruct (lookup_lt_is_Some (l) (S (S i))) as [_ Hs].
  destruct (Z.ltb_spec (Z.of_nat (S (S i))) (Z.of_nat (length l))) as [Hl|Hl].
  - destruct Hs as [x2 H2]; [lia|]. rewrite (drop_S _ _ _ H2), (going_at _ _ _ _ _ _ _ x2 G) by (done || lia). rewrite bind_ok.
    destruct (Z.eqb_spec x1 116) as [->|]; [done|]. destruct (Z.eqb_spec x1 100) as [->|]; [done|].
    destruct (Z.eqb_spec x1 115) as [->|]; [done|]. destruct (Z.eqb_spec x1 109) as [->|]; [done|].
    destruct (Z.eqb_spec x1 108) as [->|]; cbn; [by destruct (x2 =? 108)|].
    by destruct (x1 =? 114), (x1 =? 118), (x2 =? 101).
  - rewrite drop_ge by lia. destruct (Z.eqb_spec x1 116) as [->|]; [done|]. destruct (Z.eqb_spec x1 100) as [->|]; [done|].
    by destruct (x1 =? 115), (x1 =? 109).
Qed.

(** A round of the first and of the third pass. *)
Lemma body1_ok text total i x : going l rest (drop_spaces cut1) text total i -> l !! i = Some x ->
  exists text' total', clean_body1 0 (Z.of_nat (length l)) (text, total, Z.of_nat i) = Ok (inl (text', total', Z.of_nat (S i))) /\
    going l rest (drop_spaces cut1) text' total' (S i).
Proof.
  intros G Hx. pose proof (lookup_lt_Some _ _ _ Hx). pose proof G as (o & p & Hp & Hi & _). unfold clean_body1.
  rewrite (proj2 (Z.ltb_lt _ _)) by lia. rewrite (going_at _ _ _ _ _ _ _ x G) by (done || lia). rewrite bind_ok.
  replace (Z.of_nat i - 1) with (Z.of_nat (i - 1)) by lia. rewrite (going_at _ _ _ _ _ _ _ p G) by (done || lia). rewrite bind_ok.
  destruct (going_write l rest (drop_spaces cut1) ((p =? 32) && is_char x (lit "?!.,")) text total i x G Hx) as (text' & E & G').
  { intros p' Hp'. assert (p' = p) as -> by congruence. by rewrite (drop_S _ _ _ Hx). }
  cbn zeta. rewrite E, bind_ok. exists text', ((if (p =? 32) && is_char x (lit "?!.,") then total - 1 else total) + 1).
  by replace (Z.of_nat i + 1) with (Z.of_nat (S i)) by lia.
Qed.
Lemma body3_ok text total i x : going l rest (drop_spaces cut3) text total i -> l !! i = Some x ->
  exists text' total', clean_body3 0 (Z.of_nat (length l)) (text, total, Z.of_nat i) = Ok (inl (text', total', Z.of_nat (S i))) /\
    going l rest (drop_spaces cut3) text' total' (S i).
Proof.
  intros G Hx. pose proof (lookup_lt_Some _ _ _ Hx). pose proof G as (o & p & Hp & Hi & _). unfold clean_body3.
  rewrite (proj2 (Z.ltb_lt _ _)) by lia. rewrite (going_at _ _ _ _ _ _ _ x G) by (done || lia). rewrite bind_ok.
  replace (Z.of_nat i - 1) with (Z.of_nat (i - 1)) by lia. rewrite (going_at _ _ _ _ _ _ _ p G) by (done || lia). rewrite bind_ok.
  assert (Ec : (if (p =? 32) && (x =? 39) && (Z.of_nat i + 1 <? Z.of_nat (length l)) then contraction_at text 0 (Z.of_nat (length l)) (Z.of_nat i) else Ok false)
    = Ok ((p =? 32) && cut3 (drop i l))).
  { destruct (p =? 32); [|done]. destruct (Z.eqb_spec x 39) as [->|Hne]; cbn [andb].
    - destruct (Z.ltb_spec (Z.of_nat i + 1) (Z.of_nat (length l))) as [Hl|Hl].
      + destruct (lookup_lt_is_Some_2 l (S i) ltac:(lia)) as [x1 H1]. by apply (contraction_ok text total i x1).
      + rewrite (drop_S _ _ _ Hx), drop_ge by lia. done.
    - rewrite (drop_S _ _ _ Hx). cbn. destruct (drop (S i) l); [done|]. by rewrite (proj2 (Z.eqb_neq _ _) Hne). }
  rewrite Ec, bind_ok. destruct (going_write l rest (drop_spaces cut3) ((p =? 32) && cut3 (drop i l)) text total i x G Hx) as (text' & E & G').
  { intros p' Hp'. assert (p' = p) as -> by congruence. done. }
  cbn zeta. rewrite E, bind_ok. exists text', ((if (p =? 32) && cut3 (drop i l) then total - 1 else total) + 1).
  by replace (Z.of_nat i + 1) with (Z.of_nat (S i)) by lia.
Qed.
End passes.

(** What a pass leaves: [f l] in front of some rest. *)
Definition passed (f : list Z -> list Z) (l : list Z) (text : list Z) (st : list Z * Z) : Prop :=
  st.2 = Z.of_nat (length (f l)) /\ (length (f l) <= length l)%nat /\ take (length (f l)) st.1 = f l /\ length st.1 = length text.

Lemma drop_spaces_length cut l : (length (drop_spaces cut l) <= length l)%nat.
Proof. induction l as [|p l IH]; [done|]. cbn. destruct (_ && _); simpl; lia. Qed.

(** A pass that goes on round by round. *)
Lemma pass_ok f body l text : take (length l) text = l -> f [] = [] -> (forall p, f [p] = [p]) -> (length (f l) <= length l)%nat ->
  (forall text' total i, Z.of_nat (length l) <= i -> body 0 (Z.of_nat (length l)) (text', total, i) = Ok (inr (text', total, i))) ->
  (forall rest text' total i x, going l rest f text' total i -> l !! i = Some x ->
    exists text'' total', body 0 (Z.of_nat (length l)) (text', total, Z.of_nat i) = Ok (inl (text'', total', Z.of_nat (S i))) /\
      going l rest f text'' total' (S i)) ->
  runs (clean_pass body 0 (text, Z.of_nat (length l))) (passed f l text).
Proof.
  intros Ht Hnil H1 Hlen Hend Hround. rewrite <- (take_drop (length l) text), Ht. set (rest := drop _ text). unfold clean_pass.
  rewrite Nat2Z.id. destruct l as [|p l']; [cbn; rewrite Hend by (cbn; lia); rewrite bind_ok; apply runs_ok; unfold passed; rewrite Hnil; by rewrite take_0|].
  rewrite (proj2 (Z.eqb_neq _ _)) by (simpl; lia). set (l := p :: l') in *. apply runs_bind.
  apply (runs_loop (fun st => exists i, st.2 = Z.of_nat i /\ going l rest f st.1.1 st.1.2 i) (fun st => length l - Z.to_nat st.2)%nat).
  - intros [[text' total] i'] (i & Ei & G). cbn [fst snd] in *. subst i'. pose proof G as (_ & _ & _ & Hi & _).
    destruct (decide (i < length l)%nat) as [Hl|Hl].
    + destruct (lookup_lt_is_Some_2 l i Hl) as [x Hx]. destruct (Hround rest text' total i x G Hx) as (text'' & total' & -> & G').
      apply runs_ok. cbn [fst snd]. split; [by exists (S i)|]. rewrite !Nat2Z.id. lia.
    + rewrite Hend by lia. apply runs_ok. destruct (going_end l rest f text' total i G ltac:(lia) H1) as (E1 & E2 & E3).
      by apply runs_ok.
  - cbn [snd]. lia.
  - exists 1%nat. split; [done|]. by apply (going_start _ _ _ p).
Qed.

Lemma pass1_ok l text : take (length l) text = l -> runs (clean_pass clean_body1 0 (text, Z.of_nat (length l))) (passed (drop_spaces cut1) l text).
Proof.
  intros Ht. apply pass_ok; try done.
  - intros p. cbn. by rewrite andb_false_r.
  - apply drop_spaces_length.
  - intros text' total i Hi. unfold clean_body1. by rewrite (proj2 (Z.ltb_ge _ _)).
  - intros. by eapply body1_ok.
Qed.
Lemma pass3_ok l text : take (length l) text = l -> runs (clean_pass clean_body3 0 (text, Z.of_nat (length l))) (passed (drop_spaces cut3) l text).
Proof.
  intros Ht. apply pass_ok; try done.
  - intros p. cbn. by rewrite andb_false_r.
  - apply drop_spaces_length.
  - intros text' total i Hi. unfold clean_body3. by rewrite (proj2 (Z.ltb_ge _ _)).
  - intros. by eapply body3_ok.
Qed.

(** The second pass marks the space behind a quote with a zero and skips it. *)
Section pass2.
Context (l rest : list Z).
Abbreviation f := (drop_quotes 0).

Definition skipped (text : list Z) (total : Z) (i : nat) : Prop :=
  exists o, total = Z.of_nat (length o) /\ (length o < i)%nat /\ (1 <= i <= length l)%nat /\ text !! (i - 1)%nat = Some 0 /\
    edited l rest text o i /\ f l = o ++ f (drop i l).

Lemma body2_skipped text total i x : skipped text total i -> l !! i = Some x ->
  exists text', clean_body2 0 (Z.of_nat (length l)) (text, total, Z.of_nat i) = Ok (inl (text', total + 1, Z.of_nat (S i))) /\
    going l rest f text' (total + 1) (S i).
Proof.
  intros (o & -> & Ho & Hi & Hp & He & Hf) Hx. pose proof (lookup_lt_Some _ _ _ Hx) as Hl. unfold clean_body2.
  assert (Hw : forall j y, (i <= j)%nat -> l !! j = Some y -> text !! j = Some y).
  { intros j y Hj Hy. rewrite (ed_rest _ _ _ _ _ He) by done. by apply lookup_app_l_Some. }
  rewrite (proj2 (Z.ltb_lt _ _)) by lia. rewrite (at_text_ok _ i x) by (by apply Hw). rewrite bind_ok.
  assert (Ec : (if (x =? 39) && (Z.of_nat i + 1 <? Z.of_nat (length l)) then
      p ← at_text text 0 (Z.of_nat i - 1); n ← at_text text 0 (Z.of_nat i + 1); Ok ((p =? 32) && (n =? 32)) else Ok false) = Ok false).
  { destruct (x =? 39); [|done]. destruct (Z.ltb_spec (Z.of_nat i + 1) (Z.of_nat (length l))) as [Hn|]; [|done]. cbn [andb].
    replace (Z.of_nat i - 1) with (Z.of_nat (i - 1)) by lia. replace (Z.of_nat i + 1) with (Z.of_nat (S i)) by lia.
    destruct (lookup_lt_is_Some_2 l (S i) ltac:(lia)) as [n Hn'].
    by rewrite (at_text_ok _ _ _ Hp), bind_ok, (at_text_ok _ _ n), bind_ok by (apply Hw; [lia|done]). }
  rewrite Ec, bind_ok. pose proof (ed_length _ _ _ _ _ He) as Hlen. rewrite length_app in Hlen.
  rewrite set_text_ok, bind_ok by lia. eexists. replace (Z.of_nat i + 1) with (Z.of_nat (S i)) by lia. split; [done|].
  exists o, x. replace (S i - 1)%nat with i by lia. split_and!; try done; try lia.
  apply (edited_write _ _ _ _ i); [done|lia..].
Qed.

Lemma body2_going text total i x : going l rest f text total i -> l !! i = Some x ->
  exists text' total' i', clean_body2 0 (Z.of_nat (length l)) (text, total, Z.of_nat i) = Ok (inl (text', total', Z.of_nat i')) /\
    (i < i')%nat /\ (going l rest f text' total' i' \/ skipped text' total' i').
Proof.
  intros G Hx. pose proof (lookup_lt_Some _ _ _ Hx) as Hl. pose proof G as (o & p & Hp & Hi & Et & Ho & He & Hf). unfold clean_body2.
  rewrite (proj2 (Z.ltb_lt _ _)) by lia. rewrite (going_at _ _ _ _ _ _ _ x G) by (done || lia). rewrite bind_ok.
  assert (Ec : (if (x =? 39) && (Z.of_nat i + 1 <? Z.of_nat (length l)) then
      p ← at_text text 0 (Z.of_nat i - 1); n ← at_text text 0 (Z.of_nat i + 1); Ok ((p =? 32) && (n =? 32)) else Ok false) =
    Ok (quoted (p :: drop i l))).
  { rewrite (drop_S _ _ _ Hx). cbn [quoted]. destruct (Z.ltb_spec (Z.of_nat i + 1) (Z.of_nat (length l))) as [Hn|Hn].
    - replace (Z.of_nat i - 1) with (Z.of_nat (i - 1)) by lia. replace (Z.of_nat i + 1) with (Z.of_nat (S i)) by lia.
      destruct (lookup_lt_is_Some_2 l (S i) ltac:(lia)) as [n Hn']. rewrite (drop_S _ _ _ Hn').
      rewrite (going_at _ _ _ _ _ _ (i - 1) p G), bind_ok, (going_at _ _ _ _ _ _ (S i) n G), bind_ok by (done || lia).
      by destruct (x =? 39), (p =? 32).
    - rewrite andb_false_r, drop_ge by lia. done. }
  rewrite Ec, bind_ok. destruct (quoted (p :: drop i l)) eqn:Eq.
  - assert (Ed : drop (i - 1) l = p :: drop i l) by (rewrite (drop_S _ p) by done; do 2 f_equal; lia).
    rewrite (drop_S _ _ _ Hx) in Eq. destruct (drop (S i) l) as [|n r] eqn:Er; [done|]. cbn in Eq. assert (x = 39) as -> by (by apply andb_true_iff in Eq as [[_ ?%Z.eqb_eq]%andb_true_iff _]).
    assert (Hn : l !! S i = Some n) by (rewrite <- (Nat.add_0_r (S i)), <- lookup_drop, Er; done).
    pose proof (lookup_lt_Some _ _ _ Hn). assert (Er' : drop (i + 2) l = r).
    { replace (i + 2)%nat with (S i + 1)%nat by lia. by rewrite <- drop_drop, Er. }
    pose proof (ed_length _ _ _ _ _ He) as Hlen. rewrite length_app in Hlen.
    replace (Z.of_nat i + 1) with (Z.of_nat (S i)) by lia. rewrite set_text_ok, bind_ok by lia. subst total.
    replace (Z.of_nat (S (length o)) - 1) with (Z.of_nat (length o)) by lia. rewrite set_text_ok, bind_ok by (rewrite length_insert; lia).
    eexists _, _, (i + 2)%nat. replace (Z.of_nat i + 2) with (Z.of_nat (i + 2)) by lia. split; [done|]. split; [lia|]. right.
    exists (o ++ [39]). split_and!; try lia.
    + rewrite length_app. simpl. lia.
    + rewrite length_app. simpl. lia.
    + replace (i + 2 - 1)%nat with (S i) by lia. rewrite list_lookup_insert_ne by lia. apply list_lookup_insert_eq. lia.
    + apply (edited_write _ _ _ _ (i + 2)); [|lia..]. destruct (edited_back _ _ _ _ _ _ He) as [H1 H2 H3]. constructor.
      * by rewrite length_insert.
      * by rewrite take_insert_ge by lia.
      * intros j Hj. rewrite list_lookup_insert_ne by lia. apply H3. lia.
    + rewrite Hf, Ed, Er', (drop_S _ _ _ Hx), Er, <- app_assoc. cbn [drop_quotes quoted]. rewrite Eq. done.
  - destruct (going_write l rest f false text total i x G Hx) as (text' & E & G').
    { intros p' Hp'. assert (p' = p) as -> by congruence. cbn [drop_quotes]. by rewrite Eq. }
    cbn zeta in E. rewrite E, bind_ok. exists text', (total + 1), (S i). replace (Z.of_nat i + 1) with (Z.of_nat (S i)) by lia.
    split; [done|]. split; [lia|]. by left.
Qed.
End pass2.

Lemma drop_quotes_length skip l : (length (drop_quotes skip l) <= length l)%nat.
Proof.
  revert skip. induction l as [|p l IH]; intros [|skip]; [done..| |].
  - cbn [drop_quotes]. destruct (quoted _); cbn [length]; [specialize (IH 2%nat)|specialize (IH 0%nat)]; lia.
  - cbn. specialize (IH skip). lia.
Qed.

Lemma pass2_ok l text : take (length l) text = l -> runs (clean_pass clean_body2 0 (text, Z.of_nat (length l))) (passed (drop_quotes 0) l text).
Proof.
  intros Ht. pose proof (drop_quotes_length 0 l) as Hlen. rewrite <- (take_drop (length l) text), Ht. set (rest := drop _ text). unfold clean_pass.
  rewrite Nat2Z.id. destruct l as [|p l']; [cbn; apply runs_ok; unfold passed; by rewrite take_0|].
  rewrite (proj2 (Z.eqb_neq _ _)) by (simpl; lia). set (l := p :: l') in *. apply runs_bind.
  apply (runs_loop (fun st => exists i, st.2 = Z.of_nat i /\ (going l rest (drop_quotes 0) st.1.1 st.1.2 i \/ skipped l rest st.1.1 st.1.2 i))
    (fun st => length l - Z.to_nat st.2)%nat).
  - intros [[text' total] i'] (i & Ei & G). cbn [fst snd] in *. subst i'.
    assert (Hi : (1 <= i <= length l)%nat) by (destruct G as [(? & ? & _ & ? & _)|(? & _ & _ & ? & _)]; done).
    destruct (decide (i < length l)%nat) as [Hl|Hl].
    + destruct (lookup_lt_is_Some_2 l i Hl) as [x Hx]. destruct G as [G|G].
      * destruct (body2_going l rest text' total i x G Hx) as (text'' & total' & i' & -> & Hi' & G').
        apply runs_ok. cbn [fst snd]. split; [by exists i'|]. rewrite !Nat2Z.id. lia.
      * destruct (body2_skipped l rest text' total i x G Hx) as (text'' & -> & G').
        apply runs_ok. cbn [fst snd]. split; [exists (S i); split; [done|by left]|]. rewrite !Nat2Z.id. lia.
    + assert (i = length l) as -> by lia. unfold clean_body2 at 1. rewrite Z.ltb_irrefl. apply runs_ok. destruct G as [G|G].
      * destruct (going_end l rest _ text' total _ G eq_refl) as (E1 & E2 & E3); [done|]. by apply runs_ok.
      * destruct G as (o & -> & _ & _ & _ & He & Hf). rewrite drop_ge, app_nil_r in Hf by lia. apply runs_ok. unfold passed. cbn [fst snd].
        rewrite Hf in *. split_and!; [done..|apply (ed_out _ _ _ _ _ He)|apply (ed_length _ _ _ _ _ He)].
  - cbn [snd]. lia.
  - exists 1%nat. split; [done|]. left. by apply (going_start _ _ _ p).
Qed.

(** All three passes. *)
Lemma clean_ok l text : take (length l) text = l ->
  runs (s1 ← clean_pass clean_body1 0 (text, Z.of_nat (length l)); s2 ← clean_pass clean_body2 0 s1; clean_pass clean_body3 0 s2) (passed cleaned l text).
Proof.
  intros Ht. apply runs_bind. eapply runs_mono; [by apply pass1_ok|]. intros [t1 n1] (E1 & L1 & T1 & S1). cbn in E1, T1, S1. subst n1.
  apply runs_bind. eapply runs_mono; [by apply pass2_ok|]. intros [t2 n2] (E2 & L2 & T2 & S2). cbn in E2, T2, S2. subst n2.
  eapply runs_mono; [by apply pass3_ok|]. intros [t3 n3] (E3 & L3 & T3 & S3). cbn in E3, T3, S3. unfold cleaned.
  split_and!; [done|cbn; lia|done|cbn; congruence].
Qed.

(** ** The pieces in the buffer *)

Lemma copy_to_ok text pos bytes : (pos + length bytes <= length text)%nat ->
  copy_to text pos bytes = Ok (take pos text ++ bytes ++ drop (pos + length bytes) text).
Proof.
  intros Hl. apply runs_inv_eq. unfold copy_to.
  eapply runs_mono; [apply (runs_copy bytes text (fun k => k) (fun k => pos + k)%nat); [intros; lia|intros; lia]|].
  intros t (H1 & H2 & H3). apply list_eq. intros j. destruct (decide (j < pos)%nat) as [Hj|Hj].
  - rewrite H3 by (intros; lia). rewrite lookup_app_l, lookup_take_lt by (rewrite ?length_take; lia). done.
  - rewrite lookup_app_r; rewrite length_take, Nat.min_l by lia; [|lia]. destruct (decide (j < pos + length bytes)%nat) as [Hj'|Hj'].
    + rewrite lookup_app_l by lia. replace j with (pos + (j - pos))%nat at 1 by lia. rewrite H2 by lia. done.
    + rewrite lookup_app_r, lookup_drop by lia. rewrite H3 by (intros; lia). f_equal. lia.
Qed.

Section detokenize.
Context {F : Type} (v : llama_vocab F) (unparse : bool).

(** The piece of a token, as far as [token_to_piece] shows it. *)
Definition has_piece (t : Z) (p : list Z) : Prop :=
  forall len lstrip, 0 <= len -> token_to_piece v t len lstrip unparse = try_copy len lstrip p.
Definition strip (remove_space : bool) (p : list Z) : list Z := skip_spaces (if remove_space then 1 else 0) p.

Lemma skip_spaces_length n p : (length (skip_spaces n p) <= length p)%nat.
Proof. revert p. induction n as [|n IH]; intros [|c p]; try done. cbn [skip_spaces]. destruct (c =? 32); [|done]. specialize (IH p). cbn. lia. Qed.

(** The buffer [text0] after the output [out], if it fits. *)
Definition written (text0 out : list Z) (st : list Z * nat * Z * Z * bool) : Prop :=
  let '(text, pos, avail, total, _) := st in
  total = Z.of_nat (length out) /\ length text = length text0 /\
  if decide (length out <= length text0)%nat then
    text = out ++ drop (length out) text0 /\ pos = length out /\ avail = Z.of_nat (length text0 - length out)
  else avail = 0.

Lemma detokenize_token_ok text0 out st t p : written text0 out st -> has_piece t p ->
  Z.of_nat (length (out ++ p)) < INT32_MAX -> Z.of_nat (length text0) <= INT32_MAX ->
  exists st', detokenize_token v unparse st t = Ok st' /\ written text0 (out ++ strip st.2 p) st' /\ st'.2 = false.
Proof.
  destruct st as [[[[text pos] avail] total] rs]. intros (-> & Hl & Hw) Hp Hmax Hbuf. unfold detokenize_token.
  assert (Ha : 0 <= avail) by (destruct (decide _); lia). rewrite (proj2 (Z.leb_le _ _) Ha). cbn [assert_]. rewrite bind_ok, Hp by done. rewrite length_app in Hmax. cbn [snd].
  unfold try_copy. rewrite (proj2 (Z.leb_gt _ _)), bind_ok by lia.
  replace (Z.to_nat (if rs then 1 else 0)) with (if rs then 1%nat else 0%nat) by by destruct rs. change (skip_spaces (if rs then 1 else 0) p) with (strip rs p).
  pose proof (skip_spaces_length (if rs then 1 else 0) p) as Hs. fold (strip rs p) in Hs. set (q := strip rs p) in *.
  assert (I : forall n, 0 <= n <= INT32_MAX -> i32 n = Ok n).
  { intros n Hn. unfold i32, in_i32, INT32_MIN. unfold INT32_MAX in *. by rewrite (proj2 (Z.leb_le _ _)), (proj2 (Z.leb_le _ _)) by lia. }
  unfold written. rewrite length_app. destruct (Z.ltb_spec avail (Z.of_nat (length q))) as [Hlt|Hge].
  - rewrite (proj2 (Z.ltb_lt _ _)), I, bind_ok by lia. eexists. split; [done|]. split; [|done]. split_and!; [lia|done|].
    rewrite decide_False; [done|]. destruct (decide (length out <= length text0)%nat) as [|]; [destruct Hw as (_ & _ & ->)|]; lia.
  - rewrite (proj2 (Z.ltb_ge _ _)) by lia. destruct (decide (length q = 0)%nat) as [E0|Hne].
    + rewrite (proj2 (Z.ltb_ge _ _)) by lia. destruct q; [|done]. rewrite app_nil_r. eexists. split; [done|]. split; [|done].
      cbn [length]. rewrite !Nat.add_0_r. by split_and!.
    + rewrite (proj2 (Z.ltb_lt _ _)) by lia. destruct (decide (length out <= length text0)%nat) as [Hfit|]; [|lia]. destruct Hw as (-> & -> & ->).
      rewrite copy_to_ok, bind_ok by (rewrite length_app, length_drop; lia).
      rewrite (I (Z.of_nat (length text0 - length out) - Z.of_nat (length q))), bind_ok, (I (Z.of_nat (length out) + Z.of_nat (length q))), bind_ok by lia. eexists. split; [done|]. split; [|done].
      split_and!; [lia| |].
      * rewrite !length_app, length_take, !length_drop, length_app, length_drop. lia.
      * rewrite decide_True by lia. split_and!; [|lia..].
        rewrite take_app_length, <- app_assoc. do 2 f_equal. rewrite drop_app_add, drop_drop. by f_equal.
Qed.

(** The tokens without the special ones at the ends, and whether the first space goes. *)
Definition trimmed (tokens : list Z) (remove_special : bool) : list Z * bool :=
  let '(tokens, remove_space) :=
    match tokens with
    | t :: rest => if remove_special && v_add_bos v && (t =? v_special_bos_id v) then (rest, false) else (tokens, v_add_space_prefix v)
    | [] => (tokens, v_add_space_prefix v)
    end in
  (if remove_special && v_add_eos v && bool_decide (list.last tokens = Some (v_special_eos_id v)) then removelast tokens else tokens, remove_space).
(** What the pieces of the tokens spell. *)
Definition spelled_text (remove_space : bool) (ps : list (list Z)) : list Z :=
  match ps with [] => [] | p :: ps => strip remove_space p ++ concat ps end.

Lemma strip_false p : strip false p = p.
Proof. done. Qed.
Lemma pieces_from text0 tokens ps : Forall2 has_piece tokens ps -> Z.of_nat (length text0) <= INT32_MAX -> forall out st,
  written text0 out st -> st.2 = false -> Z.of_nat (length (out ++ concat ps)) < INT32_MAX ->
  exists st', foldM (detokenize_token v unparse) st tokens = Ok st' /\ written text0 (out ++ concat ps) st'.
Proof.
  intros HF Hbuf. induction HF as [|t p tokens ps Hp HF IH]; intros out st Hw Hrs Hmax.
  - exists st. split; [done|]. cbn. by rewrite app_nil_r.
  - cbn [concat] in *. rewrite app_assoc in Hmax. cbn [foldM].
    destruct (detokenize_token_ok text0 out st t p Hw Hp ltac:(rewrite length_app in Hmax; lia) Hbuf) as (st1 & -> & Hw1 & Hrs1).
    rewrite bind_ok, app_assoc. rewrite Hrs, strip_false in Hw1. by apply IH.
Qed.
Lemma pieces_ok text0 tokens ps rs : Forall2 has_piece tokens ps -> Z.of_nat (length text0) <= INT32_MAX -> Z.of_nat (length (concat ps)) < INT32_MAX ->
  exists st', foldM (detokenize_token v unparse) (text0, 0%nat, Z.of_nat (length text0), 0, rs) tokens = Ok st' /\
    written text0 (spelled_text rs ps) st'.
Proof.
  intros HF Hbuf Hmax. assert (Hw : written text0 [] (text0, 0%nat, Z.of_nat (length text0), 0, rs)).
  { unfold written. cbn [length]. rewrite decide_True by lia. split_and!; try done. by rewrite Nat.sub_0_r. }
  destruct HF as [|t p tokens ps Hp HF]; [by eexists|]. cbn [concat] in Hmax. rewrite length_app in Hmax. cbn [foldM spelled_text].
  destruct (detokenize_token_ok text0 [] _ t p Hw Hp ltac:(cbn; lia) Hbuf) as (st1 & -> & Hw1 & Hrs1). cbn [snd app] in Hw1.
  rewrite bind_ok. apply pieces_from; try done. rewrite length_app. pose proof (skip_spaces_length (if rs then 1 else 0) p). unfold strip. lia.
Qed.

(** The text that a caller gets. *)
Definition shown (l : list Z) : list Z := if v_clean_spaces v then cleaned l else l.

Lemma cleaned_length l : (length (cleaned l) <= length l)%nat.
Proof.
  unfold cleaned. pose proof (drop_spaces_length cut1 l). pose proof (drop_quotes_length 0 (drop_spaces cut1 l)).
  pose proof (drop_spaces_length cut3 (drop_quotes 0 (drop_spaces cut1 l))). lia.
Qed.

Lemma detokenize_ok tokens ps remove_special ts rs : v_type v <> LLAMA_VOCAB_TYPE_NONE -> trimmed tokens remove_special = (ts, rs) ->
  let out := spelled_text rs ps in forall text0,
  Forall2 has_piece ts ps -> Z.of_nat (length text0) <= INT32_MAX -> Z.of_nat (length (concat ps)) < INT32_MAX ->
  exists n text, detokenize v true tokens text0 (Z.of_nat (length text0)) remove_special unparse = Ok (n, text) /\ length text = length text0 /\
    if decide (length out <= length text0)%nat then n = Z.of_nat (length (shown out)) /\ take (length (shown out)) text = shown out
    else n = - Z.of_nat (length out).
Proof.
  intros Htype Et. cbn zeta. intros text0 HF Hbuf Hmax. unfold detokenize.
  rewrite bool_decide_false by done. cbn [assert_]. rewrite bind_ok. unfold trimmed in Et.
  destruct (match tokens with [] => _ | _ => _ end) as [tokens' rs'] eqn:Em. injection Et as <- <-.
  destruct (pieces_ok text0 _ ps rs' HF Hbuf Hmax) as ([[[[text pos] avail] total] rs''] & -> & (-> & Hl & Hw)). rewrite bind_ok.
  set (out := spelled_text rs' ps) in *. destruct (decide (length out <= length text0)%nat) as [Hfit|Hfit].
  - destruct Hw as (-> & -> & _). rewrite (proj2 (Z.ltb_ge _ _)) by lia. unfold shown. destruct (v_clean_spaces v).
    + replace (Z.of_nat (length out) - Z.of_nat (length out)) with 0 by lia.
      assert (Ht : take (length out) (out ++ drop (length out) text0) = out) by apply take_app_length.
      destruct (runs_inv _ _ (clean_ok out _ Ht)) as ([t n] & E & En & Hle & Hc & Hlen). cbn [fst snd] in *. subst n.
      rewrite E, bind_ok. rewrite (proj2 (Z.leb_le _ _)) by lia. eexists _, t. split; [done|]. split; [congruence|done].
    + rewrite bind_ok, (proj2 (Z.leb_le _ _)) by lia. eexists _, _. split; [done|]. split; [done|]. split; [done|]. apply take_app_length.
  - rewrite (proj2 (Z.ltb_lt _ _)) by lia.
    assert (Ho : Z.of_nat (length out) <= INT32_MAX).
    { unfold out, spelled_text. destruct ps as [|p ps]; [cbn; unfold INT32_MAX; lia|]. cbn [concat] in Hmax. rewrite length_app in *.
      pose proof (skip_spaces_length (if rs' then 1 else 0) p). unfold strip. lia. }
    unfold i32, in_i32. rewrite (proj2 (Z.leb_le _ _)), (proj2 (Z.leb_le _ _)) by (unfold INT32_MIN, INT32_MAX in *; lia). cbn [andb]. rewrite bind_ok.
    by eexists _, _.
Qed.
End detokenize.

(** ** The pieces of text tokenizers *)

(** No cache, or the one that [load] builds. *)
Definition cache_ok {F : Type} (v : llama_vocab F) : Prop :=
  v_cache_token_to_piece v = [] \/
  exists v0 capacity cache, 0 <= capacity /\ v_cache_token_to_piece v0 = [] /\ build_cache v0 capacity = Ok cache /\ v = with_cache v0 cache.

(** The text of a token as it is shown. *)
Definition token_text {F : Type} (v : llama_vocab F) (unparse : bool) (t : Z) : res (list Z) :=
  d ← at_idx (v_id_to_token v) t;
  if negb unparse && has_attr (td_attr d) ATTR_SPECIAL then Ok [] else piece_text v t d.

Lemma token_text_piece {F : Type} (v : llama_vocab F) unparse t p : text_type (v_type v) = true -> cache_ok v ->
  token_text v unparse t = Ok p -> has_piece v unparse t p.
Proof.
  intros Ht Hc. unfold token_text, at_idx. destruct (Z.ltb_spec t 0) as [|H0]; [done|].
  destruct (v_id_to_token v !! Z.to_nat t) as [d|] eqn:Hd; [|done]. rewrite bind_ok. pose proof (lookup_lt_Some _ _ _ Hd) as Hlt. intros Ep len lstrip Hlen.
  assert (U : forall v0 : llama_vocab F, v_type v0 = v_type v -> v_id_to_token v0 = v_id_to_token v -> v_cache_token_to_piece v0 = [] ->
    (if negb unparse && has_attr (td_attr d) ATTR_SPECIAL then Ok [] else piece_text v0 t d) = Ok p ->
    token_to_piece v0 t len lstrip unparse = try_copy len lstrip p).
  { intros v0 E1 E2 E3 E4. rewrite (token_to_piece_uncached v0) with (d := d) by congruence.
    destruct (_ && _); [injection E4 as <-; by rewrite try_copy_nil|]. by rewrite E4, bind_ok. }
  destruct Hc as [Hc|(v0 & capacity & cache & Hcap & Hc0 & Hb & ->)]; [by apply U|].
  rewrite (token_to_piece_cached v0 capacity) by (done || (unfold n_tokens; cbn in Hlt; lia)). by apply U.
Qed.

Lemma detokenize_pieces {F : Type} (v : llama_vocab F) unparse tokens ps capacity :
  text_type (v_type v) = true -> cache_ok v -> Forall2 (fun t p => token_text v unparse t = Ok p) tokens ps ->
  Z.of_nat (length (concat ps)) < INT32_MAX -> Z.of_nat (Nat.max capacity (length tokens)) <= INT32_MAX ->
  let out := spelled_text (v_add_space_prefix v) ps in
  detokenize_string v capacity true tokens unparse = Ok (shown v out) /\
  forall text0, Z.of_nat (length text0) <= INT32_MAX ->
    exists n text, detokenize v true tokens text0 (Z.of_nat (length text0)) false unparse = Ok (n, text) /\ length text = length text0 /\
      if decide (length out <= length text0)%nat then n = Z.of_nat (length (shown v out)) /\ take (length (shown v out)) text = shown v out
      else n = - Z.of_nat (length out).
Proof.
  intros Ht Hc HF Hmax Hcap. cbn zeta.
  assert (HF' : Forall2 (has_piece v unparse) tokens ps) by (eapply list.Forall2_impl; [exact HF|intros; by apply token_text_piece]).
  assert (Et : trimmed v tokens false = (tokens, v_add_space_prefix v)) by (by destruct tokens).
  assert (D := fun text0 Hbuf => detokenize_ok v unparse tokens ps false _ _ (text_type_not_none v Ht) Et text0 HF' Hbuf Hmax). cbn zeta in D.
  split; [|exact D]. unfold detokenize_string. set (out := spelled_text _ ps) in *.
  assert (Hs : (length (shown v out) <= length out)%nat) by (unfold shown; destruct (v_clean_spaces v); [apply cleaned_length|done]).
  assert (Hfit : forall text, (length out <= length text)%nat -> take (length (shown v out)) text = shown v out -> fit (Z.of_nat (length (shown v out))) text = shown v out).
  { intros text Hl Htk. unfold fit, vresize. rewrite Nat2Z.id, Htk. replace (length (shown v out) - length text)%nat with 0%nat by lia. apply app_nil_r. }
  destruct (D (replicate (Nat.max capacity (length tokens)) 0)) as (n & text & -> & Hl & Hn); [by rewrite length_replicate|]. rewrite bind_ok.
  rewrite length_replicate in *. destruct (decide _) as [Hin|Hout].
  - destruct Hn as [-> Htk]. rewrite (proj2 (Z.ltb_ge _ _)) by lia. by rewrite Hfit by (done || lia).
  - subst n. rewrite (proj2 (Z.ltb_lt _ _)), Z.opp_involutive, Nat2Z.id by lia. set (text1 := vresize 0 (length out) text).
    assert (Hl1 : length text1 = length out) by (unfold text1, vresize; rewrite length_app, length_take, length_replicate; lia).
    destruct (D text1) as (n & text2 & -> & Hl2 & Hn).
    { rewrite Hl1. unfold out, spelled_text. destruct ps as [|p ps']; [cbn; unfold INT32_MAX; lia|]. cbn [concat] in Hmax. rewrite length_app in *.
      pose proof (skip_spaces_length (if v_add_space_prefix v then 1 else 0) p). unfold strip. lia. }
    rewrite bind_ok. rewrite Hl1 in *. rewrite decide_True in Hn by done. destruct Hn as [-> Htk]. rewrite Hl2.
    rewrite (proj2 (Z.leb_le _ _)) by lia. cbn [assert_]. rewrite bind_ok, (proj2 (Z.ltb_ge _ _)) by lia. by rewrite Hfit by (done || lia).
Qed.

(** C18: For the SPM, WPM, UGM and BPE vocabularies detokenization spells the tokens: the string
    is the texts of the tokens one after the other, without the first space when the model adds
    one, cleaned of the spaces in front of punctuation, around a lone quote and in contractions
    when the model asks for it; the passes that do this in place in one buffer compute these
    list functions.  The call with a buffer writes that text when the pieces fit into it and
    otherwise returns the negated room that they need.  For these vocabularies the cache of
    pieces makes no difference (the RWKV pieces and the byte pieces of PLaMo-2 keep a leading
    space that is stripped from the cached ones, and are not covered). *)
Theorem detokenize_spells {F : Type} (v : llama_vocab F) unparse tokens ps capacity :
  text_type (v_type v) = true -> cache_ok v -> Forall2 (fun t p => token_text v unparse t = Ok p) tokens ps ->
  Z.of_nat (length (concat ps)) < INT32_MAX -> Z.of_nat (Nat.max capacity (length tokens)) <= INT32_MAX ->
  let out := spelled_text (v_add_space_prefix v) ps in
  detokenize_string v capacity true tokens unparse = Ok (shown v out) /\
  forall text0, Z.of_nat (length text0) <= INT32_MAX ->
    exists n text, detokenize v true tokens text0 (Z.of_nat (length text0)) false unparse = Ok (n, text) /\ length text = length text0 /\
      if decide (length out <= length text0)%nat then n = Z.of_nat (length (shown v out)) /\ take (length (shown v out)) text = shown v out
      else n = - Z.of_nat (length out).
Proof. apply detokenize_pieces. Qed.

Lemma detokenize_spells_witness :
  detokenize_string (toy_vocab LLAMA_VOCAB_TYPE_SPM) 2 true [6; 4; 7; 6; 1] true = Ok (lit "abd a") /\
  let v := toy_vocab LLAMA_VOCAB_TYPE_SPM in
  detokenize_string v 2 true [6; 4; 7; 6; 1] true = Ok (shown v (spelled_text (v_add_space_prefix v) [lit " "; lit "ab"; lit "d"; lit " "; lit "a"])).
Proof.
  split; [vm_compute; reflexivity|].
  apply (detokenize_spells (toy_vocab LLAMA_VOCAB_TYPE_SPM) true [6; 4; 7; 6; 1] [lit " "; lit "ab"; lit "d"; lit " "; lit "a"] 2).
  - vm_compute; reflexivity.
  - left. vm_compute; reflexivity.
  - repeat constructor; vm_compute; reflexivity.
  - vm_compute; reflexivity.
  - vm_compute; discriminate.
Defined.
