(* ===== verification/VocabPartOk.v ===== *)
(** The split of a text at its special tokens loses nothing but the blanks that a token strips,
    and leaves no special token in the text between them. *)

From S2P Require Import Prelude Unicode Vocab VocabOk VocabUgm VocabUgmOk VocabPlamo VocabText VocabTextOk.
Local Open Scope Z_scope.

Section part.
Context {F : Type} (v : llama_vocab F) (raw : list Z) (parse_special : bool).

(** Blanks from [o] to [p], and a place without a blank. *)
Definition blanks (o p : nat) : Prop := (o <= p)%nat /\ forall j, (o <= j < p)%nat -> exists c, raw !! j = Some c /\ is_space c = true.
Definition no_blank (j : nat) : Prop := exists c, raw !! j = Some c /\ is_space c = false.

(** The special tokens that are looked for. *)
Definition looked_for (d : token_data F) : bool :=
  parse_special || negb (has_attr (td_attr d) (Z.lor ATTR_CONTROL ATTR_UNKNOWN)).

(** The fragments, one after the other, are the text from [o] to [o']: a piece of text is
    itself, a token is a special token that was looked for, and stands for its text, with
    blanks in front only when it strips to the left, and behind only when it strips to the
    right. *)
Inductive covers : nat -> list fragment_buffer_variant -> nat -> Prop :=
  | covers_nil o : covers o [] o
  | covers_raw o len fs o' : (1 <= len)%nat -> (o + len <= length raw)%nat -> covers (o + len) fs o' ->
      covers o (FRAGMENT_RAW_TEXT o len :: fs) o'
  | covers_token o p q id d fs o' : id ∈ v_cache_special_tokens v -> v_id_to_token v !! Z.to_nat id = Some d -> looked_for d = true ->
      blanks o p -> (o <> p -> has_attr (td_attr d) ATTR_LSTRIP = true) ->
      stands_at raw (td_text d) p ->
      blanks (p + length (td_text d)) q -> (p + length (td_text d) <> q -> has_attr (td_attr d) ATTR_RSTRIP = true)%nat ->
      covers q fs o' -> covers o (FRAGMENT_TOKEN id :: fs) o'.

Lemma covers_app o fs m gs o' : covers o fs m -> covers m gs o' -> covers o (fs ++ gs) o'.
Proof. induction 1; intros Hg; [done|constructor; auto|econstructor; eauto]. Qed.

(** What stands side by side: a token that strips leaves no blank on that side of the piece of
    text next to it, and pieces of text are separated by tokens. *)
Definition side_by_side (f g : fragment_buffer_variant) : Prop :=
  match f, g with
  | FRAGMENT_TOKEN id, FRAGMENT_RAW_TEXT o _ =>
      forall d, v_id_to_token v !! Z.to_nat id = Some d -> has_attr (td_attr d) ATTR_RSTRIP = true -> no_blank o
  | FRAGMENT_RAW_TEXT o n, FRAGMENT_TOKEN id =>
      forall d, v_id_to_token v !! Z.to_nat id = Some d -> has_attr (td_attr d) ATTR_LSTRIP = true -> no_blank (o + n - 1)
  | FRAGMENT_RAW_TEXT _ _, FRAGMENT_RAW_TEXT _ _ => False
  | FRAGMENT_TOKEN _, FRAGMENT_TOKEN _ => True
  end.
Fixpoint stripped (fs : list fragment_buffer_variant) : Prop :=
  match fs with f :: ((g :: _) as fs') => side_by_side f g /\ stripped fs' | _ => True end.

Lemma stripped_app l1 l2 : stripped (l1 ++ l2) <->
  stripped l1 /\ stripped l2 /\ forall f g, list.last l1 = Some f -> head l2 = Some g -> side_by_side f g.
Proof.
  induction l1 as [|f [|f' l1] IH].
  - cbn. split; [intros H; split_and!; done|tauto].
  - cbn. destruct l2 as [|g l2]; cbn; [split; [intros; split_and!; done|done]|].
    split; [intros [? ?]; split_and!; try done; by intros ? ? [= <-] [= <-]|intros (_ & ? & Hg); split; [by apply Hg|done]].
  - change (stripped ((f :: f' :: l1) ++ l2)) with (side_by_side f f' /\ stripped ((f' :: l1) ++ l2)). rewrite IH.
    change (list.last (f :: f' :: l1)) with (list.last (f' :: l1)). change (stripped (f :: f' :: l1)) with (side_by_side f f' /\ stripped (f' :: l1)).
    tauto.
Qed.

(** What may stand in the place of a piece of text. *)
Definition in_place_of (off len : nat) (l : list fragment_buffer_variant) : Prop :=
  l <> [] /\ (forall o n, head l = Some (FRAGMENT_RAW_TEXT o n) -> o = off) /\
  (forall o n, list.last l = Some (FRAGMENT_RAW_TEXT o n) -> (o + n = off + len)%nat).
Lemma stripped_place out off len l fs : stripped (out ++ FRAGMENT_RAW_TEXT off len :: fs) -> stripped l -> in_place_of off len l -> stripped (out ++ l ++ fs).
Proof.
  intros (H1 & H2 & H3)%stripped_app Hl (Hne & Hh & Hlast). change (FRAGMENT_RAW_TEXT off len :: fs) with ([FRAGMENT_RAW_TEXT off len] ++ fs) in H2.
  apply stripped_app in H2 as (_ & H2 & H4). apply stripped_app. split; [done|]. split.
  - apply stripped_app. split; [done|]. split; [done|]. intros f g Hf Hg. specialize (H4 _ _ eq_refl Hg).
    destruct f as [id|o n], g as [id'|o' n']; try done. cbn in *. by rewrite (Hlast _ _ Hf).
  - intros f g Hf Hg. destruct l as [|g' l]; [done|]. injection Hg as ->. specialize (H3 _ _ Hf eq_refl).
    destruct f as [id|o n], g as [id'|o' n']; try done. cbn in *. by rewrite (Hh _ _ eq_refl).
Qed.

(** A piece of text without an occurrence of [text]. *)
Definition free_of (text : list Z) (f : fragment_buffer_variant) : Prop :=
  match f with
  | FRAGMENT_TOKEN _ => True
  | FRAGMENT_RAW_TEXT off len => forall i, (off <= i)%nat -> (i + length text <= off + len)%nat -> ~ stands_at raw text i
  end.
(** A piece of text inside of another. *)
Definition inside_of (off len : nat) (f : fragment_buffer_variant) : Prop :=
  match f with FRAGMENT_TOKEN _ => True | FRAGMENT_RAW_TEXT o n => (off <= o)%nat /\ (o + n <= off + len)%nat end.
Lemma free_inside text off len f : free_of text (FRAGMENT_RAW_TEXT off len) -> inside_of off len f -> free_of text f.
Proof. destruct f as [|o n]; [done|]. cbn. intros Hf [H1 H2] i Hi Hn. apply Hf; lia. Qed.

Lemma stands_at_take text m i : text <> [] -> stands_at (take m raw) text i <-> stands_at raw text i /\ (i + length text <= m)%nat.
Proof.
  intros Hne. split.
  - intros Hs. pose proof (stands_at_bound _ _ _ Hs Hne) as Hb. rewrite length_take in Hb. split; [|lia].
    unfold stands_at in *. by rewrite skipn_firstn_comm, take_take, Nat.min_l in Hs by lia.
  - intros [Hs Hm]. unfold stands_at in *. rewrite skipn_firstn_comm, take_take, Nat.min_l by lia. done.
Qed.

(** ** Stripping *)

Lemma strip_right_ok off len : (off + len <= length raw)%nat ->
  exists n, strip_right raw off len = Ok n /\ (n <= len)%nat /\ blanks (off + n) (off + len) /\ ((0 < n)%nat -> no_blank (off + n - 1)).
Proof.
  induction len as [|len IH]; intros Hl; [exists 0%nat; split; [done|]; split; [lia|]; split; [split; [lia|intros; lia]|lia]|].
  destruct (lookup_lt_is_Some_2 raw (off + len) ltac:(lia)) as [c Hc]. cbn [strip_right]. rewrite (rd_ok _ _ _ Hc), bind_ok.
  destruct (is_space c) eqn:Es.
  - destruct (IH ltac:(lia)) as (n & -> & Hn & [_ Hb] & Hnb). exists n. split; [done|]. split; [lia|]. split; [|done]. split; [lia|]. intros j Hj.
    destruct (decide (j = off + len)%nat) as [->|]; [by exists c|apply Hb; lia].
  - exists (S len). split; [done|]. split; [lia|]. split; [split; [lia|intros; lia]|]. intros _. exists c.
    by replace (off + S len - 1)%nat with (off + len)%nat by lia.
Qed.
Lemma strip_left_ok off len : (off + len <= length raw)%nat ->
  exists o n, strip_left raw off len = Ok (o, n) /\ (o + n = off + len)%nat /\ blanks off o /\ ((0 < n)%nat -> no_blank o).
Proof.
  revert off. induction len as [|len IH]; intros off Hl; [exists off, 0%nat; split; [done|]; split; [lia|]; split; [split; [lia|intros; lia]|lia]|].
  destruct (lookup_lt_is_Some_2 raw off ltac:(lia)) as [c Hc]. cbn [strip_left]. rewrite (rd_ok _ _ _ Hc), bind_ok.
  destruct (is_space c) eqn:Es.
  - destruct (IH (S off) ltac:(lia)) as (o & n & -> & Hn & [Ho Hb] & Hnb). exists o, n. split; [done|]. split; [lia|]. split; [|done]. split; [lia|].
    intros j Hj. destruct (decide (j = off)) as [->|]; [by exists c|apply Hb; lia].
  - exists off, (S len). split; [done|]. split; [lia|]. split; [split; [lia|intros; lia]|]. intros _. by exists c.
Qed.

Lemma raw_fragment_ok off len : (1 <= len)%nat -> (off + len <= length raw)%nat -> raw_fragment raw off len = Ok (FRAGMENT_RAW_TEXT off len).
Proof. intros H1 H2. unfold raw_fragment. by rewrite (proj2 (Nat.leb_le _ _) H1), (proj2 (Nat.leb_le _ _) H2). Qed.

(** ** One fragment *)

Section fragment.
Context (d : token_data F) (id : Z) (Hd : v_id_to_token v !! Z.to_nat id = Some d) (Hne : td_text d <> []).
Context (Hsp : id ∈ v_cache_special_tokens v) (Hlook : looked_for d = true).
Context (off0 len0 : nat) (Hlen : (off0 + len0 <= length raw)%nat).
Abbreviation text := (td_text d).

(** What precedes the rest that is still to be searched. *)
Definition done_before (pre : list fragment_buffer_variant) (b : nat) : Prop :=
  covers off0 pre b /\ Forall (free_of text) pre /\ Forall (inside_of off0 len0) pre.
Definition split_inv (st : list fragment_buffer_variant * nat * nat) : Prop :=
  let '(out, b, n) := st in
  (b + n = off0 + len0)%nat /\ (off0 <= b)%nat /\ stripped out /\ in_place_of off0 len0 out /\
  ((n = 0%nat /\ done_before out b) \/ exists pre, out = pre ++ [FRAGMENT_RAW_TEXT b n] /\ (1 <= n)%nat /\ done_before pre b).
Definition split_done (out : list fragment_buffer_variant) : Prop :=
  done_before out (off0 + len0) /\ stripped out /\ in_place_of off0 len0 out.

Lemma done_app pre b gs m : done_before pre b -> covers b gs m -> Forall (free_of text) gs -> Forall (inside_of off0 len0) gs -> done_before (pre ++ gs) m.
Proof. intros (H1 & H2 & H3) Hc Hf Hi. split; [by eapply covers_app|]. by rewrite !Forall_app. Qed.

(** The text in front of an occurrence, and the token. *)
Lemma left_ok b n i : (b <= i)%nat -> (i <= b + n)%nat -> (b + n = off0 + len0)%nat -> (off0 <= b)%nat ->
  (forall j, (b <= j < i)%nat -> ~ stands_at raw text j) -> stands_at raw text i ->
  exists left p, left_fragment raw d b i = Ok left /\ covers b left p /\ Forall (free_of text) left /\ Forall (inside_of off0 len0) left /\
    blanks p i /\ (p <> i -> has_attr (td_attr d) ATTR_LSTRIP = true) /\
    (left = [] \/ exists n', left = [FRAGMENT_RAW_TEXT b n'] /\ (has_attr (td_attr d) ATTR_LSTRIP = true -> no_blank (b + n' - 1))).
Proof.
  intros Hb Hi He Ho Hno Hs. unfold left_fragment. destruct (Nat.ltb_spec b i) as [Hlt|Hge].
  2: { assert (i = b) as -> by lia. exists [], b. split_and!; try done; [constructor|split; [lia|intros; lia]|by left]. }
  cbn zeta. assert (Hn : exists n, (if has_attr (td_attr d) ATTR_LSTRIP then strip_right raw b (i - b) else Ok (i - b)%nat) = Ok n /\
    (n <= i - b)%nat /\ blanks (b + n) i /\ ((b + n)%nat <> i -> has_attr (td_attr d) ATTR_LSTRIP = true) /\
    ((0 < n)%nat -> has_attr (td_attr d) ATTR_LSTRIP = true -> no_blank (b + n - 1))).
  { destruct (has_attr (td_attr d) ATTR_LSTRIP).
    - destruct (strip_right_ok b (i - b) ltac:(lia)) as (n' & E & Hn' & Hbl & Hnb). exists n'. split_and!; try done; [|by intros; apply Hnb].
      by replace (b + (i - b))%nat with i in Hbl by lia.
    - exists (i - b)%nat. split_and!; [done|lia| |lia|done]. split; [lia|intros; lia]. }
  destruct Hn as (n' & -> & Hn' & Hbl & Hattr & Hnb). rewrite bind_ok. destruct (Nat.ltb_spec 0 n') as [Hpos|Hz].
  - rewrite raw_fragment_ok, bind_ok by lia. exists [FRAGMENT_RAW_TEXT b n'], (b + n')%nat. split; [done|].
    split; [constructor; [lia..|constructor]|]. rewrite !Forall_singleton. split_and!; try done.
    + cbn. intros j Hj Hj'. apply Hno. assert (0 < length text)%nat by (destruct text; [done|cbn; lia]). lia.
    + cbn. lia.
    + right. exists n'. split; [done|]. by apply Hnb.
  - assert (n' = 0%nat) as -> by lia. rewrite Nat.add_0_r in *. exists [], b. split_and!; try done; [constructor|by left].
Qed.

Lemma right_ok o n : (o + n <= length raw)%nat ->
  exists right_ o' n', right_fragment raw d o n = Ok (right_, o', n') /\ (o' + n' = o + n)%nat /\ blanks o o' /\
    (o <> o' -> has_attr (td_attr d) ATTR_RSTRIP = true) /\
    ((right_ = [] /\ n' = 0%nat) \/ (right_ = [FRAGMENT_RAW_TEXT o' n'] /\ (1 <= n')%nat /\ (has_attr (td_attr d) ATTR_RSTRIP = true -> no_blank o'))).
Proof.
  intros Hl. unfold right_fragment.
  assert (Hs : exists o' n', (if has_attr (td_attr d) ATTR_RSTRIP then strip_left raw o n else Ok (o, n)) = Ok (o', n') /\
    (o' + n' = o + n)%nat /\ blanks o o' /\ (o <> o' -> has_attr (td_attr d) ATTR_RSTRIP = true) /\
    ((0 < n')%nat -> has_attr (td_attr d) ATTR_RSTRIP = true -> no_blank o')).
  { destruct (has_attr (td_attr d) ATTR_RSTRIP).
    - destruct (strip_left_ok o n Hl) as (o' & n' & E & Hon & Hbl & Hnb). exists o', n'. split_and!; try done. by intros; apply Hnb.
    - exists o, n. split_and!; try done. split; [lia|intros; lia]. }
  destruct Hs as (o' & n' & -> & Hon & Hbl & Ha & Hnb). rewrite bind_ok. cbn [fst snd]. pose proof (proj1 Hbl).
  destruct (Nat.ltb_spec 0 n') as [Hp|Hz].
  - rewrite raw_fragment_ok, bind_ok by lia. eexists _, o', n'. split_and!; try done. right. split; [done|]. split; [lia|]. by apply Hnb.
  - eexists _, o', n'. split_and!; try done. left. split; [done|lia].
Qed.

(** The token behind the text in front of it. *)
Lemma token_placed pre b n left : stripped (pre ++ [FRAGMENT_RAW_TEXT b n]) -> in_place_of off0 len0 (pre ++ [FRAGMENT_RAW_TEXT b n]) ->
  (left = [] \/ exists n', left = [FRAGMENT_RAW_TEXT b n'] /\ (has_attr (td_attr d) ATTR_LSTRIP = true -> no_blank (b + n' - 1))) ->
  stripped (pre ++ left ++ [FRAGMENT_TOKEN id]) /\
  forall o n, head (pre ++ left ++ [FRAGMENT_TOKEN id]) = Some (FRAGMENT_RAW_TEXT o n) -> o = off0.
Proof.
  intros (H1 & _ & H3)%stripped_app (_ & Hh & _) Hleft. split.
  - apply stripped_app. split; [done|]. split.
    + destruct Hleft as [->|(n' & -> & Hl)]; [done|]. cbn. split; [|done]. intros d' Hd'. assert (d' = d) as -> by congruence. done.
    + intros f g Hf Hg. specialize (H3 _ _ Hf eq_refl). destruct Hleft as [->|(n' & -> & Hl)]; injection Hg as <-; by destruct f.
  - intros o m Hhd. destruct pre as [|f pre].
    + destruct Hleft as [->|(n' & -> & Hl)]; [done|]. injection Hhd as <- _. by eapply Hh.
    + injection Hhd as ->. by eapply Hh.
Qed.
Lemma token_place_last pre left : (forall o n, head (pre ++ left ++ [FRAGMENT_TOKEN id]) = Some (FRAGMENT_RAW_TEXT o n) -> o = off0) ->
  in_place_of off0 len0 (pre ++ left ++ [FRAGMENT_TOKEN id]).
Proof. rewrite app_assoc. intros Hh. split; [by destruct (pre ++ left)|]. split; [done|]. intros o n. by rewrite last_snoc. Qed.
Lemma raw_place_last pre o n : (forall o n, head pre = Some (FRAGMENT_RAW_TEXT o n) -> o = off0) -> pre <> [] -> (o + n = off0 + len0)%nat ->
  in_place_of off0 len0 (pre ++ [FRAGMENT_RAW_TEXT o n]).
Proof.
  intros Hh Hp He. split; [by destruct pre|]. split; [by destruct pre|]. intros o' n'. rewrite last_snoc. by intros [= <- <-].
Qed.

Lemma split_body_ok st : split_inv st -> runs (split_fragment_body raw d id st) (fun r => match r with
  | inl st' => split_inv st' /\ (st'.2 < st.2)%nat
  | inr st' => split_done st'.1.1
  end).
Proof.
  destruct st as [[out b] n]. intros (He & Ho & Hst & Hpl & Hcase). unfold split_fragment_body.
  assert (Hpos : (0 < length text)%nat) by (destruct text; [done|cbn; lia]).
  destruct (str_find (take (b + n) raw) text b) as [i|] eqn:Ef.
  2: { apply runs_ok. cbn [fst]. split; [|by split]. destruct Hcase as [[-> Hd0]|(pre & -> & Hn & Hd0)].
    - by replace (off0 + len0)%nat with b by lia.
    - eapply done_app; [done|constructor; [done|lia|]|..].
      + replace (b + n)%nat with (off0 + len0)%nat by lia. constructor.
      + rewrite Forall_singleton. cbn. intros i Hi Hb Hs. apply (str_find_none _ _ _ i Ef); [done|rewrite length_take; lia|].
        by apply stands_at_take.
      + rewrite Forall_singleton. cbn. lia. }
  apply str_find_some in Ef as (Hi & Hs & Hbefore). apply stands_at_take in Hs as [Hs Hb]; [|done].
  destruct Hcase as [[-> _]|(pre & -> & Hn & Hd0)]; [lia|].
  destruct (left_ok b n i) as (left & p & -> & Hc & Hf & Hin & Hbl & Hattr & Hleft); [lia|lia|done|done| |done|].
  { intros j Hj Hj'. apply (Hbefore j Hj), stands_at_take; [done|]. split; [done|lia]. }
  rewrite bind_ok. cbn zeta. rewrite removelast_last.
  assert (Hpre : forall q, blanks (i + length text) q -> ((i + length text)%nat <> q -> has_attr (td_attr d) ATTR_RSTRIP = true) ->
    done_before (pre ++ left ++ [FRAGMENT_TOKEN id]) q).
  { intros q Hq Hqa. rewrite app_assoc. eapply done_app; [by eapply done_app| |rewrite Forall_singleton; done..].
    econstructor; try done. constructor. }
  assert (Hst' : stripped (pre ++ left ++ [FRAGMENT_TOKEN id]) /\
    forall o n, head (pre ++ left ++ [FRAGMENT_TOKEN id]) = Some (FRAGMENT_RAW_TEXT o n) -> o = off0) by by eapply token_placed.
  destruct Hst' as [Hst' Hhead].
  destruct (Nat.ltb_spec (i + length text) (b + n)) as [Hr|Hr].
  - destruct (right_ok (i + length text) (n - (i - b + length text)) ltac:(lia)) as (right_ & o & n' & -> & Hon & Hbl' & Hattr' & Hr').
    rewrite bind_ok. cbn [fst snd]. pose proof (proj1 Hbl'). apply runs_ok. cbn [snd]. split; [|lia]. split; [lia|]. split; [lia|].
    destruct Hr' as [[-> ->]|(-> & Hn' & Hnb)].
    + rewrite app_nil_r. split; [done|]. split; [by apply token_place_last|]. left. split; [done|]. by apply Hpre.
    + replace (pre ++ left ++ [FRAGMENT_TOKEN id] ++ [FRAGMENT_RAW_TEXT o n']) with ((pre ++ left ++ [FRAGMENT_TOKEN id]) ++ [FRAGMENT_RAW_TEXT o n'])
        by by rewrite <- !app_assoc. split; [|split; [apply raw_place_last; [done|by destruct pre, left|lia]|]].
      * apply stripped_app. split; [done|]. split; [done|]. intros f g Hl Hg. injection Hg as <-. rewrite app_assoc, last_snoc in Hl. injection Hl as <-.
        intros d' Hd'. assert (d' = d) as -> by congruence. done.
      * right. eexists. split; [done|]. split; [done|]. by apply Hpre.
  - apply runs_ok. cbn [fst]. split; [|split; [done|by apply token_place_last]]. replace (off0 + len0)%nat with (i + length text)%nat by lia. apply Hpre; [|done].
    split; [lia|intros; lia].
Qed.

Lemma split_fragment_ok : (1 <= len0)%nat -> runs (split_fragment raw d id (FRAGMENT_RAW_TEXT off0 len0)) split_done.
Proof.
  intros Hl. unfold split_fragment. apply runs_bind.
  eapply runs_mono; [apply (runs_loop split_inv (fun st => st.2) (fun st => split_done st.1.1))|].
  - apply split_body_ok.
  - cbn. lia.
  - split; [done|]. split; [done|]. split; [done|]. split; [split; [done|]; by split; intros o n [= <- <-]|]. right. exists []. split; [done|]. split; [done|]. split; [constructor|done].
  - done.
Qed.
End fragment.

(** ** The whole buffer *)

Lemma split_buffer_ok d id o fs o' : v_id_to_token v !! Z.to_nat id = Some d -> td_text d <> [] ->
  id ∈ v_cache_special_tokens v -> looked_for d = true -> covers o fs o' -> forall out,
  runs (foldM (fun out f => l ← split_fragment raw d id f; Ok (out ++ l)) out fs) (fun r => exists fs', r = out ++ fs' /\ covers o fs' o' /\
    Forall (free_of (td_text d)) fs' /\ (forall t, Forall (free_of t) fs -> Forall (free_of t) fs') /\ (stripped (out ++ fs) -> stripped r)).
Proof.
  intros Hd Hne Hsp Hlook. induction 1 as [o|o len fs o' Hl Hb Hc IH|o p q id' d' fs o' Hsp' Hd' Hlook' Hbl Ha Hs Hbl' Ha' Hc IH]; intros out; cbn [foldM].
  - apply runs_ok. exists []. rewrite app_nil_r. split_and!; try done. constructor.
  - apply runs_bind, runs_bind. eapply runs_mono; [by apply split_fragment_ok|]. intros l ((Hc1 & Hf1 & Hi1) & Hst & Hpl). apply runs_ok.
    eapply runs_mono; [apply IH|]. intros r (fs' & -> & Hc2 & Hf2 & Hk2 & Hst2). exists (l ++ fs'). rewrite <- app_assoc. split; [done|].
    split; [by eapply covers_app|]. split; [by apply Forall_app|]. split; [|intros Hst0; rewrite app_assoc; apply Hst2; rewrite <- app_assoc; by eapply stripped_place].
    intros t [Ht Hts]%list.Forall_cons. apply Forall_app. split; [|by apply Hk2].
    eapply list.Forall_impl; [exact Hi1|]. intros f. by apply free_inside.
  - apply runs_bind, runs_bind, runs_ok, runs_ok. eapply runs_mono; [apply IH|]. intros r (fs' & -> & Hc2 & Hf2 & Hk2 & Hst2).
    exists (FRAGMENT_TOKEN id' :: fs'). rewrite <- app_assoc. rewrite <- (app_assoc out [_] fs) in Hst2. rewrite <- app_assoc in Hst2.
    split; [done|]. split; [by econstructor|]. split; [by constructor|]. split; [|exact Hst2].
    intros t [Ht Hts]%list.Forall_cons. constructor; [done|]. by apply Hk2.
Qed.

Context (Hv : vocab_ok v).
Lemma partition_ok ids o fs o' : Forall (fun id => 0 <= id < n_tokens v /\ id ∈ v_cache_special_tokens v) ids -> covers o fs o' ->
  runs (foldM (fun buffer special_id =>
    data ← get_token_data v special_id;
    if negb parse_special && has_attr (td_attr data) (Z.lor ATTR_CONTROL ATTR_UNKNOWN) then Ok buffer
    else split_buffer raw data special_id buffer) fs ids) (fun r => covers o r o' /\ (stripped fs -> stripped r) /\
    (forall t, Forall (free_of t) fs -> Forall (free_of t) r) /\
    forall id d, id ∈ ids -> v_id_to_token v !! Z.to_nat id = Some d -> looked_for d = true -> Forall (free_of (td_text d)) r).
Proof.
  intros Hids. revert fs. induction Hids as [|id ids [Hid Hsp] Hids IH]; intros fs Hc; cbn [foldM].
  - apply runs_ok. split; [done|]. split; [done|]. split; [done|]. by intros id d ?%elem_of_nil.
  - unfold n_tokens in Hid. destruct (lookup_lt_is_Some_2 (v_id_to_token v) (Z.to_nat id) ltac:(lia)) as [d Hd].
    assert (Eg : get_token_data v id = Ok d) by (rewrite <- (Z2Nat.id id) by lia; by apply get_token_ok).
    rewrite Eg, bind_ok. set (skip := negb parse_special && _).
    assert (Es : looked_for d = negb skip) by (unfold looked_for, skip; by destruct parse_special, (has_attr _ _)).
    assert (Hstep : runs (if skip then Ok fs else split_buffer raw d id fs) (fun fs' => covers o fs' o' /\ (stripped fs -> stripped fs') /\
      (forall t, Forall (free_of t) fs -> Forall (free_of t) fs') /\ (skip = false -> Forall (free_of (td_text d)) fs'))).
    { destruct skip; [by apply runs_ok|]. eapply runs_mono; [apply (split_buffer_ok d id o fs o' Hd (to_text _ _ (vo_tables _ Hv) _ _ Hd) Hsp Es Hc [])|].
      intros r (fs' & -> & H1 & H2 & H3 & H4). done. }
    apply runs_bind. eapply runs_mono; [exact Hstep|]. intros fs' (Hc' & Hst & Hk & Hn). eapply runs_mono; [by apply IH|].
    intros r (H1 & H0 & H2 & H3). split; [done|]. split; [auto|]. split; [intros t Ht; by apply H2, Hk|].
    intros id' d' [->|Hin]%elem_of_cons Hd' Hlook; [|by eapply H3]. assert (d' = d) as -> by congruence. apply H2, Hn. rewrite Es in Hlook. by destruct skip.
Qed.
End part.

(** C17: The split of a text at its special tokens never fails, and every looked-for token is
    found and no other: the fragments, one after the other, are the text; a token among them
    is a special token that was looked for (control and unknown tokens are only with
    [parse_special]) and stands for an occurrence of its text; blanks are left out exactly
    where a token strips them: none on a side without the attribute, and all of them, up to
    the next token, on a side with it; and no remaining piece of text contains the text of a
    token that was looked for. *)
Theorem special_tokens_split {F : Type} (v : llama_vocab F) raw parse_special :
  vocab_ok v -> Forall (fun id => 0 <= id < n_tokens v) (v_cache_special_tokens v) -> raw <> [] ->
  exists fs, tokenizer_st_partition v raw [FRAGMENT_RAW_TEXT 0 (length raw)] parse_special = Ok fs /\
    covers v raw parse_special 0 fs (length raw) /\ stripped v raw fs /\
    forall id d, id ∈ v_cache_special_tokens v -> v_id_to_token v !! Z.to_nat id = Some d -> looked_for parse_special d = true ->
      Forall (free_of raw (td_text d)) fs.
Proof.
  intros Hv Hids Hne. assert (Hc : covers v raw parse_special 0 [FRAGMENT_RAW_TEXT 0 (length raw)] (length raw)).
  { constructor; [destruct raw; [done|cbn; lia]|lia|constructor]. }
  assert (Hids' : Forall (fun id => 0 <= id < n_tokens v /\ id ∈ v_cache_special_tokens v) (v_cache_special_tokens v)).
  { rewrite list.Forall_forall in Hids |- *. intros id Hid. split; [by apply Hids|done]. }
  destruct (runs_inv _ _ (partition_ok v raw parse_special Hv _ _ _ _ Hids' Hc)) as (fs & E & H1 & H2 & _ & H3). exists fs. split; [exact E|]. split; [exact H1|]. split; [by apply H2|exact H3].
Qed.

Lemma special_tokens_split_witness :
  tokenizer_st_partition (toy_vocab LLAMA_VOCAB_TYPE_SPM) (lit "ab<|sep|>c") [FRAGMENT_RAW_TEXT 0 10] true =
    Ok [FRAGMENT_RAW_TEXT 0 2; FRAGMENT_TOKEN 8; FRAGMENT_RAW_TEXT 9 1] /\
  exists fs, tokenizer_st_partition (toy_vocab LLAMA_VOCAB_TYPE_SPM) (lit "ab<|sep|>c") [FRAGMENT_RAW_TEXT 0 10] true = Ok fs /\
    covers (toy_vocab LLAMA_VOCAB_TYPE_SPM) (lit "ab<|sep|>c") true 0 fs 10.
Proof.
  split; [vm_compute; reflexivity|].
  destruct (special_tokens_split (toy_vocab LLAMA_VOCAB_TYPE_SPM) (lit "ab<|sep|>c") true) as (fs & E & H & _).
  - by apply toy_vocab_ok.
  - apply (bool_decide_unpack _). vm_compute. exact I.
  - done.
  - change (length (lit "ab<|sep|>c")) with 10%nat in E, H. exists fs. split; [exact E|exact H].
Defined.
