(* ===== verification/VocabTripOk.v ===== *)
(** Detokenization undoes tokenization: for the SPM and the BPE tokenizer, a UTF-8 text that
    spells no special token comes back from its tokens. *)

From S2P Require Import Prelude GrammarParser Utf8 Unicode UnicodeOk UnicodeSplit UnicodeRegex UnicodeRegexOk Vocab VocabOk VocabMerge VocabMergeOk VocabSpmOk VocabBpeOk VocabUgm VocabText VocabTextOk VocabDetokOk VocabPartOk.
Local Open Scope Z_scope.

(** ** Pieces of segments *)

Section grouped.
Context {A K : Type} (f : list A -> list Z) (Hf : forall a b, f (a ++ b) = f a ++ f b).
Context (key : list Z -> list Z -> option K) (worse same : K -> K -> bool).

(** A segment is one of the first ones, or was made by merging a pair. *)
Definition made_from (segs : list (list A)) (s : list A) : Prop :=
  s ∈ segs \/ exists a b, f s = a ++ b /\ is_Some (key a b).

(** The pieces are segments of what the first ones were segments of. *)
Lemma greedy_grouped segs qs : greedy key worse same (f <$> segs) qs -> Forall (fun s => s <> []) segs ->
  exists segs', qs = f <$> segs' /\ concat segs' = concat segs /\ Forall (fun s => s <> []) segs' /\ Forall (made_from segs) segs'.
Proof.
  intros [R _] Hne. remember (f <$> segs) as ps eqn:Eps.
  assert (Start : exists segs', ps = f <$> segs' /\ concat segs' = concat segs /\ Forall (fun s => s <> []) segs' /\ Forall (made_from segs) segs').
  { exists segs. split_and!; try done. apply list.Forall_forall. intros s Hs. by left. }
  clear Eps Hne. induction R as [|p q r [l1 a b l2 Hb] _ IH]; [done|]. apply IH. destruct Start as (segs' & E & Hc & Hn & Hm).
  symmetry in E. apply fmap_app_inv in E as (s1 & s2' & E1 & E2 & ->). symmetry in E2.
  apply fmap_cons_inv in E2 as (sa & s2'' & Ea & E2 & ->). symmetry in E2. apply fmap_cons_inv in E2 as (sb & s2 & Eb & E2 & ->).
  exists (s1 ++ (sa ++ sb) :: s2). rewrite fmap_app, fmap_cons, Hf, E1, E2, Ea, Eb. split; [done|].
  rewrite Forall_app, !list.Forall_cons in Hn, Hm. destruct Hn as (Hn1 & Hna & Hnb & Hn2), Hm as (Hm1 & Hma & Hmb & Hm2).
  split; [rewrite <- Hc, !concat_app; cbn; by rewrite <- app_assoc|]. rewrite !Forall_app, !list.Forall_cons. split_and!; try done.
  - by destruct sa.
  - right. exists a, b. rewrite Hf, <- Ea, <- Eb. split; [done|]. destruct Hb as (k & Hk & _). by exists k.
Qed.
End grouped.

Lemma utf8_segments cs : Forall scalar cs -> utf8_chars (utf8_encode cs) = utf8_encode <$> ((fun c => [c]) <$> cs).
Proof.
  intros Hcs. rewrite utf8_chars_encode, <- list_fmap_compose by done. apply list_fmap_ext. intros i c _. cbn. unfold utf8_encode. cbn. by rewrite app_nil_r.
Qed.
Lemma concat_singles {A} (cs : list A) : concat ((fun c => [c]) <$> cs) = cs.
Proof. induction cs as [|c cs IH]; [done|]. cbn. by f_equal. Qed.
Lemma singles_nonempty {A} (cs : list A) : Forall (fun s => s <> []) ((fun c => [c]) <$> cs).
Proof. apply list.Forall_fmap, list.Forall_true. done. Qed.

Lemma concat_encode segs : concat (utf8_encode <$> segs) = utf8_encode (concat segs).
Proof. induction segs as [|s segs IH]; [done|]. rewrite fmap_cons. cbn [concat]. by rewrite utf8_encode_app, IH. Qed.

(** ** Plain tokens *)

Lemma has_attr_lor x a b : has_attr x (Z.lor a b) = has_attr x a || has_attr x b.
Proof.
  unfold has_attr. rewrite Z.land_lor_distr_r, <- negb_andb. f_equal. apply eq_true_iff_eq.
  rewrite andb_true_iff, !Z.eqb_eq. apply Z.lor_eq_0_iff.
Qed.

(** A normal token that is neither special nor user-defined. *)
Definition plain {F} (d : token_data F) : Prop :=
  has_attr (td_attr d) ATTR_NORMAL = true /\ has_attr (td_attr d) ATTR_CONTROL = false /\
  has_attr (td_attr d) ATTR_UNKNOWN = false /\ has_attr (td_attr d) ATTR_USER_DEFINED = false.
Definition spells_plain {F} (v : llama_vocab F) (s : list Z) : Prop :=
  forall t d, v_id_to_token v !! t = Some d -> occurs (td_text d) s -> plain d.

Section plain.
Context {F : Type} (v : llama_vocab F) (Hv : vocab_ok v).

Lemma plain_text unparse t d : v_id_to_token v !! Z.to_nat t = Some d -> 0 <= t -> plain d ->
  token_text v unparse t = if bool_decide (v_type v = LLAMA_VOCAB_TYPE_BPE) then llama_decode_text (td_text d) else llama_unescape_whitespace (td_text d).
Proof.
  intros Hd H0 (Hn & Hc & Hu & Hd'). unfold token_text, at_idx. rewrite (proj2 (Z.ltb_ge _ _) H0), Hd, bind_ok. unfold piece_text, ATTR_SPECIAL.
  by rewrite !has_attr_lor, Hc, Hu, Hd', Hn, andb_false_r.
Qed.

(** No special token is found in a text that spells plain tokens. *)
Lemma no_special_token raw parse_special : special_cache (v_id_to_token v) (v_cache_special_tokens v) -> spells_plain v raw -> raw <> [] ->
  tokenizer_st_partition v raw [FRAGMENT_RAW_TEXT 0 (length raw)] parse_special = Ok [FRAGMENT_RAW_TEXT 0 (length raw)].
Proof.
  intros [Hp _] Hs Hne. assert (Hids : Forall (fun id => exists d, 0 <= id /\ v_id_to_token v !! Z.to_nat id = Some d /\ ~ plain d) (v_cache_special_tokens v)).
  { rewrite Hp. apply list.Forall_forall. intros id. unfold special_tokens. rewrite list_elem_of_omap. intros (i & _ & Hi).
    destruct (v_id_to_token v !! i) as [d|] eqn:Hd; [|done]. destruct (has_attr _ _) eqn:Ha; [|done]. injection Hi as <-.
    exists d. rewrite Nat2Z.id. split; [lia|]. split; [done|]. intros (_ & Hc & Hu & Hd'). by rewrite !has_attr_lor, Hc, Hu, Hd' in Ha. }
  unfold tokenizer_st_partition. clear Hp. induction Hids as [|id ids (d & H0 & Hd & Hnp) _ IH]; [done|]. cbn [foldM].
  assert (Eg : get_token_data v id = Ok d) by (rewrite <- (Z2Nat.id id) by done; by apply VocabUgmOk.get_token_ok).
  rewrite Eg, bind_ok. assert (Estep : (if negb parse_special && has_attr (td_attr d) (Z.lor ATTR_CONTROL ATTR_UNKNOWN)
    then Ok [FRAGMENT_RAW_TEXT 0 (length raw)] else split_buffer raw d id [FRAGMENT_RAW_TEXT 0 (length raw)]) = Ok [FRAGMENT_RAW_TEXT 0 (length raw)]).
  2: { by rewrite Estep, bind_ok. }
  destruct (_ && _); [done|].
  assert (Eb : split_fragment_body raw d id ([FRAGMENT_RAW_TEXT 0 (length raw)], 0%nat, length raw) = Ok (inr ([FRAGMENT_RAW_TEXT 0 (length raw)], 0%nat, length raw))).
  { unfold split_fragment_body. rewrite Nat.add_0_l, firstn_all. destruct (str_find raw (td_text d) 0) as [i|] eqn:Ef; [|done].
    apply str_find_some in Ef as (_ & Hst & _). destruct Hnp. eapply Hs; [done|]. by eapply stands_at_occurs. }
  unfold split_buffer, split_fragment. cbn [foldM loop]. by rewrite Eb.
Qed.
End plain.

(** ** What the pieces spell *)

(** A text without its first blank, when the model puts one in front of every text. *)
Definition unprefixed (rs : bool) (l : list Z) : list Z :=
  match l with c :: l' => if rs && (c =? 32) then l' else l | [] => [] end.

Lemma spelled_unprefixed (rs : bool) ps : Forall (fun p => p <> []) ps -> spelled_text rs ps = unprefixed rs (concat ps).
Proof.
  intros Hne. unfold spelled_text, strip. destruct ps as [|p ps]; [done|]. apply list.Forall_cons in Hne as [Hp _].
  destruct p as [|c p]; [done|]. destruct rs; [|done]. cbn. by destruct (c =? 32).
Qed.

Lemma spelled_strip (rs : bool) ps s : Forall (fun p => p <> []) ps -> concat ps = (if rs then [32] else @nil Z) ++ s -> spelled_text rs ps = s.
Proof.
  intros Hne Hc. rewrite spelled_unprefixed, Hc by done. destruct rs; [done|]. by destruct s.
Qed.

(** ** SPM *)

(** A vocabulary with the blank and a token for every byte. *)
Record spm_complete {F : Type} (v : llama_vocab F) : Prop := {
  sc_blank : is_Some (v_token_to_id v !! escaped_space);
  sc_byte b : 0 <= b < 256 -> exists t d, v_token_to_id v !! byte_name b = Some t /\ v_id_to_token v !! Z.to_nat t = Some d /\
    has_attr (td_attr d) ATTR_BYTE = true /\ has_attr (td_attr d) ATTR_NORMAL = false /\
    has_attr (td_attr d) (Z.lor ATTR_SPECIAL ATTR_USER_DEFINED) = false;
  sc_cache : special_cache (v_id_to_token v) (v_cache_special_tokens v)
}.

Lemma byte_name_hex b : 0 <= b < 256 -> hex_digits 0 (take 2 (drop 3 (byte_name b))) = b.
Proof.
  intros Hb. apply Z.eqb_eq. revert b Hb. by apply (all_bytes (fun b => hex_digits 0 (take 2 (drop 3 (byte_name b))) =? b)).
Qed.

Section spm.
Context {F : Type} `{FloatOps F} `{!FloatLaws F} `{PriorityQueue} (v : llama_vocab F).
Context (Hv : vocab_ok v) (Ht : v_type v = LLAMA_VOCAB_TYPE_SPM) (Hc : spm_complete v) (unparse : bool).

Lemma byte_token_text b : 0 <= b < 256 -> exists t, byte_token v b = Some t /\ token_text v unparse t = Ok [b].
Proof.
  intros Hb. destruct (sc_byte _ Hc b Hb) as (t & d & Hw & Hd & Hab & Han & Has). exists t. unfold byte_token. rewrite Hw. split; [done|].
  destruct (token_ok v Hv _ _ Hw) as (Hr & d' & Hd' & Etx). assert (d' = d) as -> by congruence.
  unfold token_text, at_idx. rewrite (proj2 (Z.ltb_ge _ _)), Hd, bind_ok by lia. pose proof Has as Hsp. rewrite has_attr_lor in Hsp.
  apply orb_false_iff in Hsp as [-> _]. rewrite andb_false_r. unfold piece_text. rewrite Has, Han, Hab, Ht. cbn [bool_decide negb andb].
  rewrite bool_decide_false by done. cbn [negb]. unfold token_to_byte. rewrite (has_type_ok v Hv), bind_ok.
  assert (Ei : is_byte_token v t = Ok true).
  { unfold is_byte_token, is_attr, idx. rewrite (has_type_ok v Hv), bind_ok, (proj2 (Z.ltb_ge _ _)), (rd_ok _ _ _ Hd), bind_ok by lia. by rewrite Hab. }
  rewrite Ei, bind_ok. cbn [assert_]. rewrite bind_ok. unfold at_idx. rewrite (proj2 (Z.ltb_ge _ _)), Hd, bind_ok, Ht, Etx by lia.
  unfold substr. rewrite (proj2 (Nat.ltb_ge _ _)), !bind_ok by (cbn; lia). by rewrite byte_name_hex.
Qed.
Lemma byte_tokens_text bs : Forall byte bs -> Forall2 (fun t p => token_text v unparse t = Ok p)
  ((fun c => default LLAMA_TOKEN_NULL (byte_token v c)) <$> bs) ((fun b => [b]) <$> bs).
Proof.
  induction 1 as [|b bs Hb Hbs IH]; [constructor|]. rewrite !fmap_cons. constructor; [|done].
  destruct (byte_token_text b Hb) as (t & -> & E). done.
Qed.

(** The tokens of a segment spell it, with blanks for the blank character. *)
Lemma segment_text cs seg : spells_plain v (utf8_encode cs) -> Forall scalar seg -> seg <> [] ->
  made_from utf8_encode (spm_key v) ((fun c => [c]) <$> cs) seg -> occurs (utf8_encode seg) (utf8_encode cs) ->
  exists qs, Forall2 (fun t p => token_text v unparse t = Ok p) (spm_tokens v (utf8_encode seg)) qs /\
    concat qs = utf8_encode (blank_in <$> seg) /\ Forall (fun p => p <> []) qs.
Proof.
  intros Hs Hsc Hne Hm Hocc. unfold spm_tokens. destruct (v_token_to_id v !! utf8_encode seg) as [t|] eqn:Et.
  - destruct (token_ok v Hv _ _ Et) as (Hr & d & Hd & Etx). exists [utf8_encode (blank_in <$> seg)]. cbn. rewrite app_nil_r. split; [|split; [done|]].
    + constructor; [|constructor]. rewrite (plain_text v unparse t d Hd) by (lia || (eapply Hs; [done|by rewrite Etx])). rewrite Ht, bool_decide_false by done.
      rewrite Etx. by apply unescape_ok.
    + rewrite Forall_singleton. destruct seg as [|c seg]; [done|]. rewrite fmap_cons, utf8_encode_cons. intros E.
      apply app_eq_nil in E as [E _]. pose proof (utf8_bytes_length (blank_in c)). rewrite E in *. cbn in *. lia.
  - destruct Hm as [Hin|(a & b & E & k & Hk)].
    + apply list_elem_of_fmap in Hin as (c & -> & _). apply Forall_inv in Hsc.
      assert (E1 : utf8_encode [c] = utf8_bytes c) by (unfold utf8_encode; cbn; apply app_nil_r). rewrite E1 in *.
      assert (Hc9 : c <> 9601) by (intros ->; rewrite <- escaped_space_bytes in Et; destruct (sc_blank _ Hc); congruence).
      exists ((fun b => [b]) <$> utf8_bytes c). split; [by apply byte_tokens_text, utf8_bytes_byte|]. split.
      * rewrite concat_singles. change (blank_in <$> [c]) with [blank_in c]. unfold blank_in. by rewrite (proj2 (Z.eqb_neq _ _) Hc9).
      * apply singles_nonempty.
    + unfold spm_key in Hk. rewrite <- E, Et in Hk. done.
Qed.

Lemma segments_text cs segs : spells_plain v (utf8_encode cs) -> Forall scalar cs -> concat segs = cs ->
  Forall (fun s => s <> []) segs -> Forall (made_from utf8_encode (spm_key v) ((fun c => [c]) <$> cs)) segs ->
  exists qs, Forall2 (fun t p => token_text v unparse t = Ok p) (concat (spm_tokens v <$> (utf8_encode <$> segs))) qs /\
    concat qs = utf8_encode (blank_in <$> cs) /\ Forall (fun p => p <> []) qs.
Proof.
  intros Hs Hsc Hcat. assert (G : forall pre segs', pre ++ concat segs' = cs -> Forall (fun s => s <> []) segs' ->
    Forall (made_from utf8_encode (spm_key v) ((fun c => [c]) <$> cs)) segs' ->
    exists qs, Forall2 (fun t p => token_text v unparse t = Ok p) (concat (spm_tokens v <$> (utf8_encode <$> segs'))) qs /\
      concat qs = utf8_encode (blank_in <$> concat segs') /\ Forall (fun p => p <> []) qs).
  2: { intros Hn Hm. destruct (G [] segs) as (qs & F1 & C1 & N1); [done..|]. rewrite Hcat in C1. by exists qs. }
  intros pre segs'. revert pre. induction segs' as [|seg segs' IH]; intros pre E Hn Hm; [exists []; by split|].
  apply list.Forall_cons in Hn as [Hn1 Hn], Hm as [Hm1 Hm]. cbn [concat] in *.
  assert (Hscs : Forall scalar seg) by (rewrite <- E, !Forall_app in Hsc; tauto).
  destruct (segment_text cs seg Hs Hscs Hn1 Hm1) as (q1 & F1 & C1 & N1).
  { exists (utf8_encode pre), (utf8_encode (concat segs')). by rewrite <- E, !utf8_encode_app. }
  destruct (IH (pre ++ seg)) as (q2 & F2 & C2 & N2); [by rewrite <- app_assoc|done..|].
  exists (q1 ++ q2). rewrite !fmap_cons. cbn [concat]. split; [by apply Forall2_app|]. split; [by rewrite concat_app, fmap_app, utf8_encode_app, C1, C2|].
  by apply Forall_app.
Qed.

(** The text as the tokenizer sees it: with the space that the model adds. *)
Definition with_space (cs : list Z) : list Z := (if v_add_space_prefix v then [32] else []) ++ cs.

Lemma with_space_encode cs : utf8_encode (with_space cs) = (if v_add_space_prefix v then [32] else []) ++ utf8_encode cs.
Proof. unfold with_space. rewrite utf8_encode_app. by destruct (v_add_space_prefix v). Qed.

Lemma blank_encode_length cs : Forall scalar cs -> (length (utf8_encode cs) <= length (utf8_encode (blank_out <$> cs)))%nat.
Proof.
  induction 1 as [|c cs Hs Hcs IH]; [done|]. rewrite fmap_cons, !utf8_encode_cons, !length_app. unfold blank_out at 1.
  destruct (Z.eqb_spec c 32) as [->|]; [cbn; lia|lia].
Qed.
Lemma spm_tokens_length (ps : list (list Z)) : Forall (fun p => p <> []) ps -> (length (concat (spm_tokens v <$> ps)) <= length (concat ps))%nat.
Proof.
  induction 1 as [|p ps Hp Hps IH]; [done|]. rewrite fmap_cons. cbn [concat]. rewrite !length_app.
  assert (length (spm_tokens v p) <= length p)%nat; [|lia]. unfold spm_tokens. destruct (v_token_to_id v !! p); [|by rewrite length_fmap].
  destruct p; [done|cbn; lia].
Qed.

Lemma spm_tokenize_plain cs ud en rounds parse_special : Forall scalar cs -> cs <> [] -> 9601 ∉ cs ->
  spells_plain v (utf8_encode cs) -> spells_plain v (utf8_encode (blank_out <$> with_space cs)) ->
  exists ids qs, tokenize v ud en rounds (Some TOKENIZER_SPM) (utf8_encode cs) false parse_special = Ok ids /\
    Forall2 (fun t p => token_text v unparse t = Ok p) ids qs /\ concat qs = utf8_encode (with_space cs) /\ Forall (fun p => p <> []) qs /\
    (length ids <= length (utf8_encode (blank_out <$> with_space cs)))%nat.
Proof.
  intros Hsc Hne H9 Hp1 Hp2. set (raw := utf8_encode cs) in *.
  assert (Hraw : raw <> []).
  { destruct cs as [|c cs']; [done|]. unfold raw. rewrite utf8_encode_cons. pose proof (utf8_bytes_length c). destruct (utf8_bytes c); [cbn in *; lia|done]. }
  assert (Hlen : (1 <= length raw)%nat) by (destruct raw; [done|cbn; lia]).
  assert (Hsc' : Forall scalar (with_space cs)) by (unfold with_space; destruct (v_add_space_prefix v); [constructor; [unfold scalar; lia|done]|done]).
  assert (Hsc2 : Forall scalar (blank_out <$> with_space cs)) by (apply list.Forall_fmap; eapply list.Forall_impl; [exact Hsc'|apply blank_out_scalar]).
  set (cs2 := blank_out <$> with_space cs) in *.
  assert (Hne2 : cs2 <> []) by (unfold cs2, with_space; destruct (v_add_space_prefix v), cs; done).
  assert (Htext : utf8_encode cs2 <> []).
  { destruct cs2 as [|c cs']; [done|]. rewrite utf8_encode_cons. pose proof (utf8_bytes_length c). destruct (utf8_bytes c); [cbn in *; lia|done]. }
  destruct (spm_tokenize_ok v Hv (utf8_encode cs2) [] Ht Htext (utf8_encode_byte cs2 Hsc2)) as (ps & G & E).
  { intros b Hb. pose proof (utf8_encode_byte cs2 Hsc2) as HB. rewrite list.Forall_forall in HB. destruct (byte_token_text b (HB b Hb)) as (t & -> & _). by eexists. }
  pose proof (greedy_concat _ _ _ _ _ G) as Hcat. rewrite utf8_segments in G, Hcat by done.
  destruct (greedy_grouped utf8_encode utf8_encode_app _ _ _ _ _ G (singles_nonempty cs2)) as (segs & -> & Hcs & Hn & Hm). rewrite concat_singles in Hcs.
  destruct (segments_text cs2 segs Hp2 Hsc2 Hcs Hn Hm) as (qs & HF & Hq & Hqn).
  exists (concat (spm_tokens v <$> (utf8_encode <$> segs))), qs. split; [|split; [done|split; [|split; [done|]]]].
  - unfold tokenize. rewrite bool_decide_true by done. rewrite bind_ok, raw_fragment_ok, bind_ok by lia.
    rewrite (no_special_token v Hv raw parse_special (sc_cache _ Hc) Hp1 Hraw), bind_ok, Ht. cbn [andb push_special]. rewrite bind_ok. cbn [foldM push_spm].
    unfold substr. rewrite (proj2 (Nat.ltb_ge _ _)), bind_ok, drop_0, firstn_all by lia. rewrite andb_true_r.
    unfold raw. rewrite <- with_space_encode, escape_ok, bind_ok by done. fold cs2. rewrite E, !bind_ok. done.
  - rewrite Hq. unfold cs2. rewrite <- list_fmap_compose. f_equal. rewrite <- (list_fmap_id (with_space cs)) at 2. apply list_fmap_ext.
    intros i c Hi. change (blank_in (blank_out c) = c). apply blank_in_out. intros ->. apply list_elem_of_lookup_2 in Hi. unfold with_space in Hi. destruct (v_add_space_prefix v); set_solver.
  - etransitivity; [apply spm_tokens_length|].
    + apply list.Forall_fmap. eapply list.Forall_impl; [exact Hn|]. intros seg Hs Es. destruct seg as [|c seg]; [done|].
      unfold compose in Es. rewrite utf8_encode_cons in Es. pose proof (utf8_bytes_length c). destruct (utf8_bytes c); [cbn in *; lia|done].
    + by rewrite Hcat, concat_encode, concat_singles.
Qed.
End spm.

(** C15: For the SPM tokenizer, detokenization undoes tokenization: a UTF-8 text without the
    blank character U+2581 that spells no token other than normal ones comes back from its
    tokens, whatever the scores merge, also where characters fall back to byte tokens and
    with the space that the model puts in front (cleaned as any detokenized text is, when the
    model asks for it).  The vocabulary needs the blank and a token for every byte. *)
Theorem spm_round_trip {F : Type} `{FloatOps F} `{!FloatLaws F} `{PriorityQueue} (v : llama_vocab F) cs ud en rounds parse_special unparse capacity :
  vocab_ok v -> v_type v = LLAMA_VOCAB_TYPE_SPM -> spm_complete v -> cache_ok v ->
  Forall scalar cs -> 9601 ∉ cs -> spells_plain v (utf8_encode cs) -> spells_plain v (utf8_encode (blank_out <$> with_space v cs)) ->
  Z.of_nat (Nat.max capacity (length (utf8_encode (blank_out <$> with_space v cs)))) < INT32_MAX ->
  exists ids, tokenize v ud en rounds (Some TOKENIZER_SPM) (utf8_encode cs) false parse_special = Ok ids /\
    detokenize_string v capacity true ids unparse = Ok (shown v (utf8_encode cs)).
Proof.
  intros Hv Ht Hc Hca Hsc H9 Hp1 Hp2 Hlen. assert (Htt : text_type (v_type v) = true) by by rewrite Ht.
  destruct (decide (cs = [])) as [->|Hne].
  - exists []. split; [unfold tokenize; by rewrite bool_decide_false, !bind_ok, Ht by (by intros [])|].
    assert (HF : Forall2 (fun t p => token_text v unparse t = Ok p) [] []) by constructor.
    destruct (detokenize_pieces v unparse [] [] capacity Htt Hca HF) as [-> _]; [cbn; unfold INT32_MAX; lia|cbn; lia|done].
  - destruct (spm_tokenize_plain v Hv Ht Hc unparse cs ud en rounds parse_special) as (ids & qs & E & HF & Hq & Hqn & Hl); [done..|].
    exists ids. split; [done|]. assert (Hw : Forall scalar (with_space v cs)).
    { unfold with_space. destruct (v_add_space_prefix v); [constructor; [unfold scalar; lia|done]|done]. }
    pose proof (blank_encode_length (with_space v cs) Hw) as Hbl.
    destruct (detokenize_pieces v unparse ids qs capacity Htt Hca HF) as [-> _]; [rewrite Hq; lia|lia|].
    rewrite with_space_encode in Hq. by rewrite (spelled_strip _ _ _ Hqn Hq).
Qed.

(** ** A vocabulary with all bytes *)

Definition full_words : list (list Z) := [lit "<unk>"; escaped_space; lit "a"; lit "b"; lit "ab"] ++ (byte_name <$> range 0 255).
Definition full_scores : list Z := [0; -1; -2; -3; -1] ++ replicate 256 0.
Definition full_types : list Z := [2; 1; 1; 1; 1] ++ replicate 256 6.
Definition full_load := load_tokens full_words (Some full_scores) (Some full_types).
Definition full_vocab : llama_vocab Z :=
  match full_load with
  | Ok (ids, tokens, m) =>
      mk_vocab LLAMA_VOCAB_TYPE_SPM ids tokens [0] [] ∅ m (-1) (-1) 0 (-1) true false false false false false true false
  | _ => toy_vocab LLAMA_VOCAB_TYPE_SPM
  end.

Lemma full_vocab_ok : vocab_ok full_vocab.
Proof.
  destruct (load_tokens_ok full_words (Some full_scores) (Some full_types)) as [_ Hok];
    [by intros s [= <-]; vm_compute; lia|by intros s [= <-]; vm_compute; lia|].
  assert (Hl : match full_load with Ok (_, tokens, _) => bool_decide (length tokens = 261%nat) | _ => false end = true) by (vm_compute; reflexivity).
  change (load_tokens full_words (Some full_scores) (Some full_types)) with full_load in Hok.
  unfold full_vocab. destruct full_load as [[[ids tokens] m]|?|?]; [|discriminate Hl..]. apply bool_decide_eq_true in Hl.
  destruct (Hok ids tokens m eq_refl) as (_ & _ & T & _). constructor; [done|done|]. unfold n_tokens. cbn [v_id_to_token]. rewrite Hl. lia.
Qed.

(** Whether a byte has its token. *)
Definition byte_there (b : Z) : bool :=
  match v_token_to_id full_vocab !! byte_name b with
  | Some t => match v_id_to_token full_vocab !! Z.to_nat t with
              | Some d => has_attr (td_attr d) ATTR_BYTE && negb (has_attr (td_attr d) ATTR_NORMAL) &&
                          negb (has_attr (td_attr d) (Z.lor ATTR_SPECIAL ATTR_USER_DEFINED))
              | None => false
              end
  | None => false
  end.
Lemma full_vocab_complete : spm_complete full_vocab.
Proof.
  constructor.
  - vm_compute. by eexists.
  - intros b Hb. assert (E : byte_there b = true) by (revert b Hb; apply all_bytes; vm_compute; reflexivity).
    unfold byte_there in E. destruct (v_token_to_id full_vocab !! byte_name b) as [t|]; [|discriminate E].
    destruct (v_id_to_token full_vocab !! Z.to_nat t) as [d|] eqn:Hd; [|discriminate E]. exists t, d. rewrite Hd.
    rewrite !andb_true_iff, !negb_true_iff in E. destruct E as [[E1 E2] E3]. exact (conj eq_refl (conj eq_refl (conj E1 (conj E2 E3)))).
  - split; [by vm_compute|]. constructor; constructor.
Qed.

Definition plain_if_there (s : list Z) (d : token_data Z) : bool :=
  match str_find s (td_text d) 0 with
  | None => true
  | Some _ => has_attr (td_attr d) ATTR_NORMAL && negb (has_attr (td_attr d) ATTR_CONTROL) &&
              negb (has_attr (td_attr d) ATTR_UNKNOWN) && negb (has_attr (td_attr d) ATTR_USER_DEFINED)
  end.
Lemma spells_plain_check (v : llama_vocab Z) s : forallb (plain_if_there s) (v_id_to_token v) = true -> spells_plain v s.
Proof.
  rewrite forallb_forall. intros Hall t d Hd (a & b & E). specialize (Hall d (proj1 (list_elem_of_In _ _) (list_elem_of_lookup_2 _ _ _ Hd))).
  unfold plain_if_there in Hall. destruct (str_find s (td_text d) 0) as [i|] eqn:Ef.
  - rewrite !andb_true_iff, !negb_true_iff in Hall. unfold plain. tauto.
  - destruct (str_find_none s (td_text d) 0 (length a) Ef); [lia|rewrite E, length_app; lia|].
    unfold stands_at. by rewrite E, drop_app_length, take_app_length.
Qed.

Lemma spm_round_trip_witness :
  tokenize (H0 := list_queue) full_vocab toy_ud toy_engine 0 (Some TOKENIZER_SPM) (utf8_encode [97; 98; 32; 233]) false true = Ok [1; 4; 1; 200; 174] /\
  exists ids, tokenize (H0 := list_queue) full_vocab toy_ud toy_engine 0 (Some TOKENIZER_SPM) (utf8_encode [97; 98; 32; 233]) false true = Ok ids /\
    detokenize_string full_vocab 15 true ids false = Ok (shown full_vocab (utf8_encode [97; 98; 32; 233])).
Proof.
  split; [vm_compute; reflexivity|].
  apply (spm_round_trip (H0 := list_queue) full_vocab [97; 98; 32; 233] toy_ud toy_engine 0 true false 15).
  - exact full_vocab_ok.
  - vm_compute; reflexivity.
  - exact full_vocab_complete.
  - left. vm_compute; reflexivity.
  - repeat constructor; unfold scalar; lia.
  - set_solver.
  - apply spells_plain_check. vm_compute; reflexivity.
  - apply spells_plain_check. vm_compute; reflexivity.
  - vm_compute; reflexivity.
Defined.

(** ** BPE *)

(** A vocabulary with a token for the character of every byte and for the result of every
    merge. *)
Record bpe_complete {F : Type} (v : llama_vocab F) : Prop := {
  bc_byte b : 0 <= b < 256 -> is_Some (v_token_to_id v !! encoded_bytes [b]);
  bc_merge l r rank : v_bpe_ranks v !! (l, r) = Some rank -> is_Some (v_token_to_id v !! (l ++ r));
  bc_cache : special_cache (v_id_to_token v) (v_cache_special_tokens v)
}.

Section bpe.
Context {F : Type} `{FloatOps F} `{PriorityQueue} (v : llama_vocab F).
Context (Hv : vocab_ok v) (Ht : v_type v = LLAMA_VOCAB_TYPE_BPE) (Hc : bpe_complete v) (unparse : bool).

Lemma encoded_segments bs : Forall byte bs -> utf8_chars (encoded_bytes bs) = encoded_bytes <$> ((fun b => [b]) <$> bs).
Proof.
  intros Hb. unfold encoded_bytes. rewrite utf8_chars_encode by (apply list.Forall_fmap; eapply list.Forall_impl; [exact Hb|apply byte_cpt_scalar]).
  rewrite <- !list_fmap_compose. apply list_fmap_ext. intros i b _. unfold compose. cbn [fmap list_fmap]. unfold utf8_encode. cbn [map concat]. by rewrite app_nil_r.
Qed.
Lemma concat_encoded segs : concat (encoded_bytes <$> segs) = encoded_bytes (concat segs).
Proof. induction segs as [|s segs IH]; [done|]. rewrite fmap_cons. cbn [concat]. by rewrite encoded_bytes_app, IH. Qed.

(** The pieces of a word are tokens, of segments of its bytes. *)
Lemma bpe_segments bs ps : Forall byte bs -> bpe_pieces v (encoded_bytes bs) ps ->
  exists segs, ps = encoded_bytes <$> segs /\ concat segs = bs /\ Forall (fun s => s <> []) segs /\
    Forall (fun s => is_Some (v_token_to_id v !! encoded_bytes s)) segs.
Proof.
  intros Hb. unfold bpe_pieces. destruct (_ && _) eqn:Ei.
  - intros ->. apply andb_true_iff in Ei as [_ Ei%bool_decide_eq_true]. exists [bs]. rewrite !Forall_singleton. cbn. rewrite app_nil_r. split_and!; try done.
    intros ->. change (encoded_bytes []) with (@nil Z) in Ei. rewrite (empty_no_token v Hv) in Ei. by destruct Ei.
  - rewrite encoded_segments by done. intros G.
    destruct (greedy_grouped encoded_bytes encoded_bytes_app _ _ _ _ _ G (singles_nonempty bs)) as (segs & -> & Hcs & Hn & Hm).
    rewrite concat_singles in Hcs. exists segs. split_and!; try done. eapply list.Forall_impl; [exact Hm|]. intros s [Hin|(a & b & -> & k & Hk)].
    + apply list_elem_of_fmap in Hin as (b & -> & Hin). apply (bc_byte _ Hc). rewrite list.Forall_forall in Hb. by apply Hb.
    + unfold bpe_key in Hk. destruct (v_bpe_ranks v !! (a, b)) as [rank|] eqn:Er; [|done]. by eapply (bc_merge _ Hc).
Qed.

(** Their texts are the segments. *)
Lemma bpe_texts raw segs : Forall byte raw -> spells_plain v (encoded_bytes raw) -> Forall (fun s => is_Some (v_token_to_id v !! encoded_bytes s)) segs ->
  forall pre post, pre ++ concat segs ++ post = raw ->
  Forall2 (fun t p => token_text v unparse t = Ok p) (concat (bpe_tokens v <$> (encoded_bytes <$> segs))) segs.
Proof.
  intros Hraw Hs. induction 1 as [|s segs [t Hw] Hsegs IH]; intros pre post E; [constructor|]. rewrite !fmap_cons. cbn [concat] in *.
  unfold bpe_tokens at 1. rewrite Hw. cbn [app]. destruct (token_ok v Hv _ _ Hw) as (Hr & d & Hd & Etx). constructor.
  - rewrite (plain_text v unparse t d Hd) by (lia || (eapply Hs; [done|]; rewrite Etx; exists (encoded_bytes pre), (encoded_bytes (concat segs ++ post));
      by rewrite <- E, <- app_assoc, !encoded_bytes_app)).
    rewrite Ht, bool_decide_true, Etx by done. apply decode_text_ok. rewrite <- E, !Forall_app in Hraw. tauto.
  - apply (IH (pre ++ s) post). by rewrite <- E, <- !app_assoc.
Qed.

Lemma word_segments (ps : list (list Z)) (pss : list (list (list Z))) : Forall (Forall scalar) ps ->
  Forall2 (bpe_pieces v) (encoded_words ps) pss ->
  exists segs, concat pss = encoded_bytes <$> segs /\ concat segs = utf8_encode (concat ps) /\ Forall (fun s => s <> []) segs /\
    Forall (fun s => is_Some (v_token_to_id v !! encoded_bytes s)) segs.
Proof.
  intros Hsc. unfold encoded_words. revert pss. induction Hsc as [|p ps Hp Hps IH]; intros pss HF.
  - inversion HF; subst. exists []. by split_and!.
  - rewrite fmap_cons in HF. inversion HF as [|? w ? pss' Hw HF']; subst.
    destruct (bpe_segments (utf8_encode p) w (utf8_encode_byte p Hp) Hw) as (s1 & -> & C1 & N1 & T1).
    destruct (IH pss' HF') as (s2 & E2 & C2 & N2 & T2). exists (s1 ++ s2). cbn [concat]. rewrite E2, fmap_app. split; [done|].
    split; [by rewrite concat_app, C1, C2, utf8_encode_app|]. split; by apply Forall_app.
Qed.

Lemma bpe_tokenize_plain cs ud en exprs rounds parse_special : iterates (re_matches en) -> iterates (wre_matches en) ->
  Forall (fun e => e ∈ custom_regexes \/ usable en e) exprs -> Forall scalar cs -> cs <> [] ->
  spells_plain v (utf8_encode cs) -> spells_plain v (encoded_bytes (utf8_encode cs)) ->
  exists ids qs, tokenize v ud en rounds (Some (TOKENIZER_BPE exprs)) (utf8_encode cs) false parse_special = Ok ids /\
    Forall2 (fun t p => token_text v unparse t = Ok p) ids qs /\ concat qs = utf8_encode cs /\ Forall (fun p => p <> []) qs /\
    (length ids <= length (utf8_encode cs))%nat.
Proof.
  intros Hre Hwre Hex Hsc Hne Hp1 Hp2. set (raw := utf8_encode cs) in *.
  assert (Hlen : (1 <= length raw)%nat).
  { unfold raw. pose proof (utf8_encode_length cs). destruct cs; [done|cbn in *; lia]. }
  assert (Hraw : raw <> []) by (intros E; rewrite E in Hlen; cbn in Hlen; lia).
  destruct (runs_inv _ _ (regex_split_runs ud en Hre Hwre raw cs exprs (cpts_from_utf8_encode cs Hsc) Hsc Hne Hex)) as (words & Ew & ps & -> & Hps & Hpsc).
  destruct (bpe_tokenize_ok v Hv ud en exprs raw (encoded_words ps) [] Ew (encoded_words_printable ps Hpsc)) as (pss & HF & E).
  destruct (word_segments ps pss Hpsc HF) as (segs & Epss & Hcs & Hn & Htok). rewrite Hps in Hcs. fold raw in Hcs.
  exists (concat (bpe_tokens v <$> concat pss)), segs. rewrite Epss.
  assert (HT : Forall2 (fun t p => token_text v unparse t = Ok p) (concat (bpe_tokens v <$> (encoded_bytes <$> segs))) segs).
  { apply (bpe_texts raw segs (utf8_encode_byte cs Hsc) Hp2 Htok [] []). cbn. by rewrite app_nil_r. }
  split; [|split; [done|split; [done|split; [done|]]]].
  - unfold tokenize. rewrite bool_decide_true by done. rewrite bind_ok, raw_fragment_ok, bind_ok by lia.
    rewrite (no_special_token v Hv raw parse_special (bc_cache _ Hc) Hp1 Hraw), bind_ok, Ht, bind_ok. cbn [foldM push_fragment].
    unfold substr. rewrite (proj2 (Nat.ltb_ge _ _)), bind_ok, drop_0, firstn_all by lia. rewrite E, bind_ok, Epss. done.
  - rewrite (Forall2_length HT), <- Hcs. clear -Hn. induction Hn as [|s segs Hs _ IH]; [done|]. cbn [concat]. rewrite length_app. destruct s; [done|cbn; lia].
Qed.
End bpe.

(** C16: For the BPE tokenizer, detokenization undoes tokenization: a UTF-8 text that spells no
    token other than normal ones comes back from its tokens, through the pre-tokenizer, the
    characters that stand for bytes, the merges and back (cleaned when the model asks for it).
    When the model says that a blank is put in front of every text, which the BPE tokenizer
    does not do, a blank at the start of the text is lost.  The vocabulary needs a token for
    the character of every byte and for the result of every merge, and every expression of
    the pre-tokenizer is split by hand in the code or accepted by the expression library,
    whose matches follow one another. *)
Theorem bpe_round_trip {F : Type} `{FloatOps F} `{PriorityQueue} (v : llama_vocab F) cs ud en exprs rounds parse_special unparse capacity :
  vocab_ok v -> v_type v = LLAMA_VOCAB_TYPE_BPE -> bpe_complete v -> cache_ok v ->
  iterates (re_matches en) -> iterates (wre_matches en) -> Forall (fun e => e ∈ custom_regexes \/ usable en e) exprs ->
  Forall scalar cs -> spells_plain v (utf8_encode cs) -> spells_plain v (encoded_bytes (utf8_encode cs)) ->
  Z.of_nat (Nat.max capacity (length (utf8_encode cs))) < INT32_MAX ->
  exists ids, tokenize v ud en rounds (Some (TOKENIZER_BPE exprs)) (utf8_encode cs) false parse_special = Ok ids /\
    detokenize_string v capacity true ids unparse = Ok (shown v (unprefixed (v_add_space_prefix v) (utf8_encode cs))).
Proof.
  intros Hv Ht Hc Hca Hre Hwre Hex Hsc Hp1 Hp2 Hlen. assert (Htt : text_type (v_type v) = true) by (by rewrite Ht).
  destruct (decide (cs = [])) as [->|Hne].
  - exists []. split; [unfold tokenize; by rewrite bool_decide_false, !bind_ok, Ht by (by intros [])|].
    assert (HF : Forall2 (fun t p => token_text v unparse t = Ok p) [] []) by constructor.
    destruct (detokenize_pieces v unparse [] [] capacity Htt Hca HF) as [-> _]; [cbn; unfold INT32_MAX; lia|cbn; lia|done].
  - destruct (bpe_tokenize_plain v Hv Ht Hc unparse cs ud en exprs rounds parse_special) as (ids & qs & E & HF & Hq & Hqn & Hl); [done..|].
    exists ids. split; [done|].
    destruct (detokenize_pieces v unparse ids qs capacity Htt Hca HF) as [-> _]; [rewrite Hq; lia|lia|].
    by rewrite (spelled_unprefixed _ qs Hqn), Hq.
Qed.

(** ** A vocabulary with the characters of all bytes *)

Definition full_bpe_words : list (list Z) := [lit "<unk>"; lit "ab"] ++ ((fun b => encoded_bytes [b]) <$> range 0 255).
Definition full_bpe_load := load_tokens (F := Z) full_bpe_words None (Some (2 :: replicate 257 1)).
Definition full_bpe_ranks : gmap (list Z * list Z) Z := <[(lit "a", lit "b") := 0]> ∅.
Definition full_bpe_vocab : llama_vocab Z :=
  match full_bpe_load with
  | Ok (ids, tokens, m) =>
      mk_vocab LLAMA_VOCAB_TYPE_BPE ids tokens [0] [] full_bpe_ranks m (-1) (-1) 0 (-1) false false false false false false true false
  | _ => toy_vocab LLAMA_VOCAB_TYPE_BPE
  end.

Lemma full_bpe_ok : vocab_ok full_bpe_vocab.
Proof.
  assert (Hw : length full_bpe_words = 258%nat) by (vm_compute; reflexivity).
  destruct (load_tokens_ok (F := Z) full_bpe_words None (Some (2 :: replicate 257 1))) as [_ Hok];
    [by intros s [=]|intros s [= <-]; rewrite Hw; vm_compute; lia|].
  assert (Hl : match full_bpe_load with Ok (_, tokens, _) => bool_decide (length tokens = 258%nat) | _ => false end = true) by (vm_compute; reflexivity).
  change (load_tokens full_bpe_words None (Some (2 :: replicate 257 1))) with full_bpe_load in Hok.
  unfold full_bpe_vocab. destruct full_bpe_load as [[[ids tokens] m]|?|?]; [|discriminate Hl..]. apply bool_decide_eq_true in Hl.
  destruct (Hok ids tokens m eq_refl) as (_ & _ & T & _). constructor; [done|done|]. unfold n_tokens. cbn [v_id_to_token]. rewrite Hl. lia.
Qed.
Lemma full_bpe_rank l r rank : full_bpe_ranks !! (l, r) = Some rank -> l = lit "a" /\ r = lit "b".
Proof. unfold full_bpe_ranks. intros [[E _]|[_ E]]%lookup_insert_Some; [by injection E as <- <-|by rewrite lookup_empty in E]. Qed.
Lemma full_bpe_vocab_ranks : v_bpe_ranks full_bpe_vocab = full_bpe_ranks.
Proof.
  assert (Ho : match full_bpe_load with Ok _ => true | _ => false end = true) by (vm_compute; reflexivity).
  unfold full_bpe_vocab. destruct full_bpe_load as [[[ids tokens] m]|?|?]; [reflexivity|discriminate Ho..].
Qed.
Lemma full_bpe_vocab_cache : v_cache_special_tokens full_bpe_vocab = [0].
Proof. vm_compute. reflexivity. Qed.
Definition character_there (b : Z) : bool :=
  match v_token_to_id full_bpe_vocab !! encoded_bytes [b] with Some _ => true | None => false end.
Lemma full_bpe_complete : bpe_complete full_bpe_vocab.
Proof.
  constructor.
  - intros b Hb. assert (E : character_there b = true) by (revert b Hb; apply all_bytes; vm_compute; reflexivity).
    unfold character_there in E. destruct (v_token_to_id full_bpe_vocab !! encoded_bytes [b]) as [t|]; [by exists t|discriminate E].
  - intros l r rank Hr. rewrite full_bpe_vocab_ranks in Hr. destruct (full_bpe_rank l r rank Hr) as [-> ->]. exists 1. vm_compute. reflexivity.
  - unfold special_cache. rewrite full_bpe_vocab_cache. split; [by vm_compute|]. constructor; constructor.
Qed.

Lemma bpe_round_trip_witness :
  (exists ids, tokenize (H0 := list_queue) full_bpe_vocab toy_ud toy_engine 0 (Some (TOKENIZER_BPE [gpt2_regex])) (utf8_encode [97; 98; 32; 233]) false true = Ok ids /\
    length ids = 4%nat) /\
  exists ids, tokenize (H0 := list_queue) full_bpe_vocab toy_ud toy_engine 0 (Some (TOKENIZER_BPE [gpt2_regex])) (utf8_encode [97; 98; 32; 233]) false true = Ok ids /\
    detokenize_string full_bpe_vocab 15 true ids false = Ok (shown full_bpe_vocab (utf8_encode [97; 98; 32; 233])).
Proof.
  split; [eexists; split; vm_compute; reflexivity|].
  apply (bpe_round_trip (H0 := list_queue) full_bpe_vocab [97; 98; 32; 233] toy_ud toy_engine [gpt2_regex] 0 true false 15).
  - exact full_bpe_ok.
  - vm_compute; reflexivity.
  - exact full_bpe_complete.
  - left. vm_compute; reflexivity.
  - intros e t ms. unfold re_matches, toy_engine. discriminate.
  - intros e t ms [= <-]. by apply (toy_find_in 0 0 t).
  - constructor; [left; left|constructor].
  - repeat constructor; unfold scalar; lia.
  - apply spells_plain_check. vm_compute; reflexivity.
  - apply spells_plain_check. vm_compute; reflexivity.
  - vm_compute; reflexivity.
Defined.
