(* ===== verification/VocabWordsOk.v ===== *)
(** The word-piece tokenizer takes the longest token at every position of a word or gives the
    word up; the tokenizer of RWKV takes the longest token at every position of the text, and
    ends when every byte that starts a token is a token. *)

From S2P Require Import Prelude Unicode UnicodeOk UnicodeRegex UnicodeRegexOk Vocab VocabOk VocabUgm VocabUgmOk VocabWords.
Local Open Scope Z_scope.

(** ** WPM *)

Section wpm.
Context {F : Type} (v : llama_vocab F) (Hv : vocab_ok v) (Hmax : forall w t, v_token_to_id v !! w = Some t -> Z.of_nat (length w) <= v_max_token_len v).

(** The longest token of [w] at [i]. *)
Definition longest (w : list Z) (i j : nat) (id : Z) : Prop :=
  ((i < j <= length w)%nat) /\ v_token_to_id v !! take (j - i) (drop i w) = Some id /\
  forall j', (j < j' <= length w)%nat -> v_token_to_id v !! take (j' - i) (drop i w) = None.

(** Longest tokens, one after the other, from [i] to the end. *)
Inductive longest_match (w : list Z) : nat -> list Z -> Prop :=
  | match_end : longest_match w (length w) []
  | match_token i j id ids : longest w i j id -> longest_match w j ids -> longest_match w i (id :: ids).

(** What becomes of a word. *)
Definition word_tokens (word ids : list Z) : Prop :=
  let w := escaped_space ++ word in
  if decide (word = []) then ids = [] else longest_match w 0 ids \/ ((forall ids', ~ longest_match w 0 ids') /\ ids = [v_special_unk_id v]).

Lemma longest_unique w i j j' id id' : longest w i j id -> longest w i j' id' -> j = j' /\ id = id'.
Proof.
  intros (H1 & H2 & H3) (H1' & H2' & H3'). destruct (lt_eq_lt_dec j j') as [[Hlt| ->]|Hlt].
  - rewrite H3 in H2' by lia. done.
  - split; [done|congruence].
  - rewrite H3' in H2 by lia. done.
Qed.

(** The scan from the longest candidate down. *)
Lemma wpm_scan_ok w i top : (i <= top <= length w)%nat -> 
  (exists j id, (i < j <= top)%nat /\ foldB (wpm_try v w i) tt (rev (seq (S i) (top - i))) = Ok (inr (j, id)) /\
     v_token_to_id v !! take (j - i) (drop i w) = Some id /\ forall j', (j < j' <= top)%nat -> v_token_to_id v !! take (j' - i) (drop i w) = None) \/
  (foldB (wpm_try v w i) tt (rev (seq (S i) (top - i))) = Ok (inl tt) /\ forall j', (i < j' <= top)%nat -> v_token_to_id v !! take (j' - i) (drop i w) = None).
Proof.
  intros Ht. induction top as [|top IH]; [right; split; [done|lia]|]. destruct (decide (i = S top)) as [->|Hi].
  { right. rewrite Nat.sub_diag. split; [done|lia]. }
  replace (S top - i)%nat with (S (top - i)) by lia. rewrite seq_S, rev_unit. cbn [foldB]. replace (S i + (top - i))%nat with (S top) by lia.
  assert (Et : wpm_try v w i tt (S top) = Ok (match v_token_to_id v !! take (S top - i) (drop i w) with Some id => inr (S top, id) | None => inl tt end)).
  { unfold wpm_try, substr. rewrite (proj2 (Nat.ltb_ge _ _)), bind_ok by lia. destruct (v_token_to_id v !! _) as [id|] eqn:E.
    - destruct (text_to_token_some v Hv _ _ E) as [-> Hn]. by rewrite bind_ok, (proj2 (Z.eqb_neq _ _) Hn).
    - by rewrite (text_to_token_none v Hv _ E), bind_ok. }
  rewrite Et, bind_ok. destruct (v_token_to_id v !! take (S top - i) (drop i w)) as [id|] eqn:E.
  - left. exists (S top), id. split_and!; try done; lia.
  - destruct IH as [(j & id & Hj & E1 & E2 & E3)|[E1 E3]]; [lia|left; exists j, id|right]; (split_and!; try done; try lia); intros j' Hj';
      (destruct (decide (j' = S top)) as [->|]; [done|apply E3; lia]).
Qed.

Lemma match_ok w i : (i < length w)%nat -> Z.of_nat (length w) + v_max_token_len v < INT32_MAX -> 0 <= v_max_token_len v ->
  (exists j id, wpm_match v w i = Ok (inr (j, id)) /\ longest w i j id) \/
  (wpm_match v w i = Ok (inl tt) /\ forall j id, ~ longest w i j id).
Proof.
  intros Hi Hlen H0. unfold wpm_match.
  assert (I : forall z, 0 <= z <= INT32_MAX -> i32 z = Ok z).
  { intros z Hz. unfold i32, in_i32, INT32_MIN, INT32_MAX in *. by rewrite (proj2 (Z.leb_le _ _)), (proj2 (Z.leb_le _ _)) by lia. }
  rewrite I, bind_ok, I, bind_ok by lia. cbn zeta.
  set (top := Z.to_nat (Z.min (Z.of_nat (length w)) (Z.of_nat i + v_max_token_len v + 1))).
  replace (Z.to_nat (Z.min (Z.of_nat (length w)) (Z.of_nat i + v_max_token_len v + 1) - Z.of_nat i)) with (top - i)%nat by lia.
  assert (Htop : (i <= top <= length w)%nat) by lia.
  assert (Beyond : forall j, (top < j <= length w)%nat -> v_token_to_id v !! take (j - i) (drop i w) = None).
  { intros j Hj. destruct (v_token_to_id v !! _) as [t|] eqn:E; [|done]. apply Hmax in E. rewrite length_take, length_drop in E. lia. }
  destruct (wpm_scan_ok w i top Htop) as [(j & id & Hj & -> & E2 & E3)|[-> E3]].
  - left. exists j, id. split; [done|]. split; [lia|]. split; [done|]. intros j' Hj'. destruct (decide (j' <= top)%nat); [apply E3; lia|apply Beyond; lia].
  - right. split; [done|]. intros j id (Hj & E & _). destruct (decide (j <= top)%nat); [rewrite E3 in E by lia|rewrite Beyond in E by lia]; done.
Qed.

Lemma body_token w n i output j id : (i < length w)%nat -> wpm_match v w i = Ok (inr (j, id)) ->
  wpm_body v w n (i, output) = Ok (inl (j, output ++ [id])).
Proof. intros Hi E. unfold wpm_body. by rewrite (proj2 (Nat.ltb_lt _ _) Hi), E, bind_ok. Qed.
Lemma body_none w n i output : (i < length w)%nat -> wpm_match v w i = Ok (inl tt) -> wpm_body v w n (i, output) = Ok (inr (i, take n output)).
Proof. intros Hi E. unfold wpm_body. by rewrite (proj2 (Nat.ltb_lt _ _) Hi), E, bind_ok. Qed.
Lemma body_end w n output : wpm_body v w n (length w, output) = Ok (inr (length w, output)).
Proof. unfold wpm_body. by rewrite Nat.ltb_irrefl. Qed.

Lemma loop_match w output fuel i pre : Z.of_nat (length w) + v_max_token_len v < INT32_MAX -> 0 <= v_max_token_len v ->
  (i <= length w)%nat -> (length w - i < fuel)%nat ->
  (exists ids, loop fuel (wpm_body v w (length output)) (i, output ++ pre) = Ok (length w, output ++ pre ++ ids) /\ longest_match w i ids) \/
  (exists i', loop fuel (wpm_body v w (length output)) (i, output ++ pre) = Ok (i', output) /\ forall ids, ~ longest_match w i ids).
Proof.
  intros Hlen H0. revert i pre. induction fuel as [|fuel IH]; intros i pre Hi Hf; [lia|]. cbn [loop].
  destruct (decide (i = length w)) as [->|Hne].
  { left. exists []. rewrite body_end, bind_ok, app_nil_r. split; [done|constructor]. }
  destruct (match_ok w i ltac:(lia) Hlen H0) as [(j & id & E & Hl)|[E Hn]].
  - rewrite (body_token _ _ _ _ j id), bind_ok by (done || lia). rewrite <- app_assoc. pose proof (proj1 Hl) as Hj.
    destruct (IH j (pre ++ [id]) ltac:(lia) ltac:(lia)) as [(ids & E' & Hm)|(i' & E' & Hm)].
    + left. exists (id :: ids). rewrite E'. split; [by rewrite <- !app_assoc|]. exact (match_token w i j id ids Hl Hm).
    + right. exists i'. split; [done|]. intros ids Hm'. inversion Hm' as [Ei|? j' id' ids' Hl' Hm'']; subst; [lia|].
      destruct (longest_unique _ _ _ _ _ _ Hl Hl') as [-> ->]. by eapply Hm.
  - right. exists i. rewrite body_none, bind_ok, take_app_length by (done || lia). split; [done|].
    intros ids Hm. inversion Hm as [Ei|? j' id' ids' Hl' Hm'']; subst; [lia|]. by eapply Hn.
Qed.

Lemma longest_match_nonempty w ids : (0 < length w)%nat -> longest_match w 0 ids -> ids <> [].
Proof. intros Hw Hm. inversion Hm; subst; [lia|done]. Qed.

Lemma wpm_word_ok output word : 0 <= v_max_token_len v -> Z.of_nat (length word) + 3 + v_max_token_len v < INT32_MAX ->
  exists ids, wpm_word v output word = Ok (output ++ ids) /\ word_tokens word ids.
Proof.
  intros H0 Hlen. unfold wpm_word, word_tokens. destruct (decide (word = [])) as [->|Hne]; [exists []; rewrite (app_nil_r output); by split|].
  rewrite (proj2 (Nat.eqb_neq _ _)) by (by destruct word). cbn zeta. set (w := escaped_space ++ word).
  assert (Hw : Z.of_nat (length w) = Z.of_nat (length word) + 3) by (unfold w; rewrite length_app; cbn; lia).
  unfold i32 at 1, in_i32. rewrite (proj2 (Z.leb_le _ _)), (proj2 (Z.leb_le _ _)) by (unfold INT32_MIN, INT32_MAX in *; lia). cbn [andb]. rewrite bind_ok.
  pose proof (loop_match w output (S (length w)) 0 [] ltac:(lia) H0 ltac:(lia) ltac:(lia)) as L. rewrite app_nil_r in L.
  destruct L as [(ids & -> & Hm)|(i' & -> & Hm)]; rewrite bind_ok; cbn [snd app].
  - pose proof (longest_match_nonempty w ids ltac:(lia) Hm) as Hi. exists ids. split; [|by left].
    rewrite length_app, (proj2 (Nat.eqb_neq _ _)); [done|]. destruct ids; [done|cbn; lia].
  - exists [v_special_unk_id v]. rewrite Nat.eqb_refl. split; [done|]. by right.
Qed.

Lemma wpm_words_ok output words : 0 <= v_max_token_len v -> Forall (fun w => Z.of_nat (length w) + 3 + v_max_token_len v < INT32_MAX) words ->
  exists idss, foldM (wpm_word v) output words = Ok (output ++ concat idss) /\ Forall2 word_tokens words idss.
Proof.
  intros H0 Hw. revert output. induction Hw as [|w words Hw _ IH]; intros output; [exists []; cbn; rewrite app_nil_r; by split|]. cbn [foldM].
  destruct (wpm_word_ok output w H0 Hw) as (ids & -> & Hi). rewrite bind_ok. destruct (IH (output ++ ids)) as (idss & -> & HF).
  exists (ids :: idss). cbn [concat]. rewrite <- app_assoc. by split; [|constructor].
Qed.
End wpm.

(** ** RWKV *)

Lemma loop_mono {S} fuel fuel' (body : S -> res (S + S)) s s' : (fuel <= fuel')%nat -> loop fuel body s = Ok s' -> loop fuel' body s = Ok s'.
Proof.
  revert fuel' s. induction fuel as [|fuel IH]; intros [|fuel'] s Hle E; [done..|lia|]. cbn [loop] in *.
  destruct (body s) as [[s1|s1]| |]; try done. rewrite !bind_ok in *. apply IH; [lia|done].
Qed.

(** The bytes of a token. *)
Definition rwkv_bytes {F} (d : token_data F) : list Z := llama_unescape_rwkv_token (td_text d).

(** [id] is the last token with the bytes [key]. *)
Definition last_token {F} (v : llama_vocab F) (key : list Z) (id : Z) : Prop :=
  exists t, id = Z.of_nat t /\ (exists d, v_id_to_token v !! t = Some d /\ rwkv_bytes d = key) /\
    forall t' d, (t < t')%nat -> v_id_to_token v !! t' = Some d -> rwkv_bytes d <> key.

(** A walk through the trie goes along a key. *)
Lemma walk_insert t key x key' t' : walk (trie_insert t key x) key' = Some t' -> is_Some (walk t key') \/ key' `prefix_of` key.
Proof.
  revert t key'. induction key as [|c key IH]; intros t [|c' key'] E; try (left; done).
  cbn [trie_insert walk] in *. unfold traverse at 1 in E. cbn [children] in E. rewrite find_set_child in E. destruct (decide (c = c')) as [->|Hc].
  - cbn [mbind option_bind] in E. apply IH in E as [E|E]; [|right; by apply prefix_cons].
      destruct (traverse t c') as [s|]; cbn in *; [by left|]. destruct key'; [right; by exists key|by destruct E].
  - left. cbn [walk]. unfold traverse at 1. by rewrite E.
Qed.

Section rwkv_new.
Context {F : Type} `{FloatOps F} (v : llama_vocab F) (Hv : vocab_ok v).

Definition trie_of_first (n : nat) (m : naive_trie) : Prop :=
  (forall key id, trie_value m key = Some id <->
     exists t, (t < n)%nat /\ id = Z.of_nat t /\ (exists d, v_id_to_token v !! t = Some d /\ rwkv_bytes d = key) /\
       forall t' d, (t < t' < n)%nat -> v_id_to_token v !! t' = Some d -> rwkv_bytes d <> key) /\
  (forall key t, walk m key = Some t -> key = [] \/ exists i d, v_id_to_token v !! i = Some d /\ key `prefix_of` rwkv_bytes d) /\
  (forall i d, (i < n)%nat -> v_id_to_token v !! i = Some d -> trie_value m (rwkv_bytes d) <> None).

Lemma trie_of_step n m d : trie_of_first n m -> v_id_to_token v !! n = Some d ->
  trie_of_first (S n) (trie_insert m (rwkv_bytes d) (Z.of_nat n)).
Proof.
  intros (HV & HW & HD) Hd. split; [|split].
  - intros key id. rewrite trie_insert_value. destruct (decide (rwkv_bytes d = key)) as [Hk|Hk].
    + split.
      * intros [= <-]. exists n. split; [lia|]. split; [done|]. split; [by exists d|]. intros t' d' Ht. lia.
      * intros (t & Ht & -> & _ & Hlast). f_equal. destruct (decide (t = n)) as [->|]; [done|]. destruct (Hlast n d); [lia|done|done].
    + rewrite HV. split; intros (t & Ht & Hid & Hd' & Hlast).
      * exists t. split_and!; [lia|done|done|]. intros t' d' Ht' E. destruct (decide (t' = n)) as [->|]; [|apply (Hlast t'); [lia|done]]. congruence.
      * exists t. split_and!; [|done|done|intros t' d' Ht'; apply Hlast; lia]. destruct Hd' as (d' & E & Hk'). destruct (decide (t = n)) as [->|]; [|lia]. congruence.
  - intros key t E. apply walk_insert in E as [[t' E]|E]; [by eapply HW|]. right. by exists n, d.
  - intros i d' Hi E. rewrite trie_insert_value. destruct (decide _) as [|Hk]; [done|]. apply (HD i); [|done].
    destruct (decide (i = n)) as [->|]; [congruence|lia].
Qed.

Lemma rwkv_new_ok : exists m, rwkv_new v = Ok m /\ trie_of_first (length (v_id_to_token v)) m.
Proof.
  set (step := fun m id => data ← get_token_data v (Z.of_nat id); Ok (trie_insert m (llama_unescape_rwkv_token (td_text data)) (Z.of_nat id))).
  assert (R : runs (foldM step trie_empty (seq 0 (length (v_id_to_token v)))) (trie_of_first (length (v_id_to_token v)))); [|by apply runs_inv in R].
  pose proof (runs_foldM (fun done_ m => trie_of_first (length done_) m) step (seq 0 (length (v_id_to_token v))) trie_empty) as R.
  cbn beta in R. rewrite length_seq in R. apply R.
  - split; [intros key id; rewrite trie_empty_value; split; [done|intros (t & Ht & _); cbn in Ht; lia]|].
    split; [|intros i d Hi; cbn in Hi; lia]. intros [|c key] t E; [by left|done].
  - intros pre i post m Es Hm. apply seq_split_at in Es as [-> Hn]. unfold step.
    destruct (lookup_lt_is_Some_2 (v_id_to_token v) (length pre) ltac:(lia)) as [d Hd].
    rewrite (get_token_ok v Hv _ _ Hd), bind_ok, length_app. cbn [runs length]. rewrite Nat.add_1_r. by apply trie_of_step.
Qed.
End rwkv_new.

Section rwkv.
Context {F : Type} (v : llama_vocab F) (m : naive_trie) (text : list Z).
(** No token has a zero byte behind its first byte: the zero behind the text stops a walk. *)
Hypothesis Hnul : forall key t, key <> [] -> walk m key = Some t -> traverse t 0 = None.

Definition piece (i j : nat) : list Z := take (j - i) (drop i text).

(** [id] is the longest token that starts at [p] and ends by [x], up to [q]. *)
Definition best_until (p x q : nat) (id : Z) : Prop :=
  ((p < q <= x)%nat /\ trie_value m (piece p q) = Some id /\ forall q', (q < q' <= x)%nat -> trie_value m (piece p q') = None) \/
  (id = 0 /\ q = 0%nat /\ forall q', (p < q' <= x)%nat -> trie_value m (piece p q') = None).

Lemma piece_walk_none p x y : (p <= x <= y)%nat -> walk m (piece p x) = None -> trie_value m (piece p y) = None.
Proof.
  intros Hxy E. unfold trie_value. enough (walk m (piece p y) = None) as -> by done.
  assert (Ep : piece p y = piece p x ++ take (y - x) (drop (x - p) (drop p text))).
  { unfold piece. replace (y - p)%nat with ((x - p) + (y - x))%nat by lia. by rewrite take_take_drop. }
  rewrite Ep. generalize (take (y - x) (drop (x - p) (drop p text))). intros rest. revert E. generalize m. generalize (piece p x).
  intros key. induction key as [|c key IH]; intros t E; [done|]. cbn in *. destruct (traverse t c); cbn in *; [by apply IH|done].
Qed.

Lemma best_extend p x y q id : (p <= x <= y)%nat -> best_until p x q id -> (forall q', (x < q' <= y)%nat -> trie_value m (piece p q') = None) -> best_until p y q id.
Proof.
  intros Hxy [(Hq & E & Hn)|(E & E' & Hn)] Hx; [left|right]; (split_and!; try done; try lia); intros q' Hq'; (destruct (decide (q' <= x)%nat); [apply Hn|apply Hx]; lia).
Qed.

Lemma text_piece_snoc p x c : (p <= x)%nat -> text !! x = Some c -> piece p (S x) = piece p x ++ [c].
Proof.
  intros Hp Hc. unfold piece. replace (S x - p)%nat with (S (x - p)) by lia. apply take_S_r. rewrite lookup_drop. by replace (p + (x - p))%nat with x by lia.
Qed.

Lemma piece_one p c : text !! p = Some c -> piece p (S p) = [c].
Proof. intros Hc. rewrite (text_piece_snoc p p c) by done. unfold piece. by rewrite Nat.sub_diag. Qed.
Lemma walk_one c : walk m [c] = traverse m c.
Proof. cbn [walk]. by destruct (traverse m c). Qed.

Lemma walk_loop_ok p : (p < length text)%nat -> forall fuel pos node tid tlen, (p <= pos <= length text)%nat -> (length text - pos < fuel)%nat ->
  node = (if (pos <? length text)%nat then walk m (piece p (S pos)) else None) -> best_until p pos tlen tid ->
  exists node' pos' tid' tlen', loop fuel (rwkv_walk_body text) (node, pos, tid, tlen) = Ok (node', pos', tid', tlen') /\ best_until p (length text) tlen' tid'.
Proof.
  intros Hp. induction fuel as [|fuel IH]; intros pos node tid tlen Hpos Hf Hnode Hb; [lia|]. cbn [loop].
  destruct node as [nd|]; cbn [rwkv_walk_body]; [|rewrite bind_ok].
  - destruct (Nat.ltb_spec pos (length text)) as [Hlt|]; [|done].
    assert (Hb' : let '(tid', tlen') := if has_value nd then (value nd, (pos + 1)%nat) else (tid, tlen) in best_until p (S pos) tlen' tid').
    { destruct (has_value nd) eqn:Ev.
      - left. split; [lia|]. split; [|lia]. rewrite Nat.add_1_r. unfold trie_value. rewrite <- Hnode. cbn. unfold node_value. by rewrite Ev.
      - apply (best_extend p pos); [lia|done|]. intros q' Hq'. replace q' with (S pos) by lia. unfold trie_value. rewrite <- Hnode. cbn. unfold node_value. by rewrite Ev. }
    destruct (if has_value nd then (value nd, (pos + 1)%nat) else (tid, tlen)) as [tid' tlen']. rewrite Nat.add_1_r.
    assert (Hne : piece p (S pos) <> []).
    { intros E. apply (f_equal length) in E. unfold piece in E. rewrite length_take, length_drop in E. cbn in E. lia. }
    destruct (decide (S pos = length text)) as [Hend|Hend].
    + unfold str_at. rewrite (proj2 (Nat.eqb_eq _ _) Hend), !bind_ok. apply IH; [lia|lia| |done].
      rewrite (proj2 (Nat.ltb_ge _ _)) by lia. by apply (Hnul (piece p (S pos))).
    + destruct (lookup_lt_is_Some_2 text (S pos) ltac:(lia)) as [c Hc].
      unfold str_at. rewrite (proj2 (Nat.eqb_neq _ _) Hend), (rd_ok _ _ _ Hc), !bind_ok. apply IH; [lia|lia| |done].
      rewrite (proj2 (Nat.ltb_lt _ _)), (text_piece_snoc p (S pos) c), walk_snoc, <- Hnode by (done || lia). done.
  - exists None, pos, tid, tlen. split; [done|]. apply (best_extend p pos); [lia|done|]. intros q' Hq'.
    destruct (Nat.ltb_spec pos (length text)) as [Hlt|]; [|lia]. by apply (piece_walk_none p (S pos)); [lia|].
Qed.

(** One round at [p]: an unknown byte, the longest token, or, where a path of the trie holds no
    token, the position zero again. *)
Lemma rwkv_round p output c : text !! p = Some c ->
  (traverse m c = None /\ rwkv_body v m text (p, output) = Ok (inl ((p + 1)%nat, output ++ [v_special_unk_id v]))) \/
  (is_Some (traverse m c) /\ exists q id, rwkv_body v m text (p, output) = Ok (inl (q, output ++ [id])) /\ best_until p (length text) q id).
Proof.
  intros Hc. pose proof (lookup_lt_Some _ _ _ Hc) as Hp. unfold rwkv_body. rewrite (proj2 (Nat.ltb_lt _ _) Hp), (rd_ok _ _ _ Hc), bind_ok.
  destruct (traverse m c) as [nd|] eqn:E; [right|by left]. split; [done|].
  destruct (walk_loop_ok p Hp (S (S (length text))) p (Some nd) 0 0%nat) as (nd' & pos' & tid & tlen & -> & Hb); [lia|lia| | |].
  - by rewrite (proj2 (Nat.ltb_lt _ _) Hp), (piece_one p c Hc), walk_one, E.
  - right. split_and!; try done. lia.
  - rewrite bind_ok. by exists tlen, tid.
Qed.

(** The longest tokens from [p] to the end, unknown bytes apart. *)
Inductive rwkv_match : nat -> list Z -> Prop :=
  | rwkv_end : rwkv_match (length text) []
  | rwkv_unknown p c ids : text !! p = Some c -> traverse m c = None -> rwkv_match (S p) ids -> rwkv_match p (v_special_unk_id v :: ids)
  | rwkv_token p q id ids : (p < q <= length text)%nat -> trie_value m (piece p q) = Some id ->
      (forall q', (q < q' <= length text)%nat -> trie_value m (piece p q') = None) -> rwkv_match q ids -> rwkv_match p (id :: ids).

(** When every byte that starts a token is a token, the loop ends. *)
Lemma rwkv_loop_ok (Hbyte : forall c t, traverse m c = Some t -> has_value t = true) fuel p output : (p <= length text)%nat -> (length text - p < fuel)%nat ->
  exists ids, loop fuel (rwkv_body v m text) (p, output) = Ok (length text, output ++ ids) /\ rwkv_match p ids.
Proof.
  revert p output. induction fuel as [|fuel IH]; intros p output Hp Hf; [lia|]. cbn [loop]. destruct (decide (p = length text)) as [->|Hne].
  { unfold rwkv_body. rewrite Nat.ltb_irrefl, bind_ok. exists []. rewrite app_nil_r. split; [done|constructor]. }
  destruct (lookup_lt_is_Some_2 text p ltac:(lia)) as [c Hc].
  destruct (rwkv_round p output c Hc) as [[Hu ->]|[[t Ht] (q & id & -> & Hb)]]; rewrite bind_ok.
  - destruct (IH (p + 1)%nat (output ++ [v_special_unk_id v]) ltac:(lia) ltac:(lia)) as (ids & -> & Hm). rewrite Nat.add_1_r in Hm.
    exists (v_special_unk_id v :: ids). rewrite <- app_assoc. split; [done|]. exact (rwkv_unknown p c ids Hc Hu Hm).
  - destruct Hb as [(Hq & Ev & Hl)|(_ & _ & Hn)].
    + destruct (IH q (output ++ [id]) ltac:(lia) ltac:(lia)) as (ids & -> & Hm). exists (id :: ids). rewrite <- app_assoc. split; [done|].
      exact (rwkv_token p q id ids Hq Ev Hl Hm).
    + exfalso. specialize (Hn (S p) ltac:(lia)). unfold trie_value in Hn. rewrite (piece_one p c Hc), walk_one, Ht in Hn. cbn in Hn.
      unfold node_value in Hn. by rewrite (Hbyte _ _ Ht) in Hn.
Qed.
End rwkv.

(** ** The tokenizers on a vocabulary *)

(** C19: The word-piece tokenizer terminates and splits every word of the normalized text into
    longest tokens: with the phantom space in front, the longest token at the start of the word,
    then the longest one behind it, and so on to the end of the word; when at some position no
    token fits, the tokens of the word are taken back and the word becomes the unknown token.
    The bound of [max_token_len] on the scan loses no token. *)
Theorem wpm_longest_match {F : Type} (v : llama_vocab F) (ud : unicode_data) (text : list Z) (output : list Z) (words : list (list Z)) :
  vocab_ok v -> (forall w t, v_token_to_id v !! w = Some t -> Z.of_nat (length w) <= v_max_token_len v) -> 0 <= v_max_token_len v ->
  preprocess ud text = Ok words -> Forall (fun w => Z.of_nat (length w) + 3 + v_max_token_len v < INT32_MAX) words ->
  exists idss, wpm_tokenize v ud text output = Ok (output ++ concat idss) /\ Forall2 (word_tokens v) words idss.
Proof. intros Hv Hmax H0 Hw Hl. unfold wpm_tokenize. rewrite Hw, bind_ok. by apply wpm_words_ok. Qed.

Lemma wpm_longest_match_witness :
  preprocess toy_ud (lit "abc zz  ab") = Ok [lit "abc"; lit "zz"; lit "ab"] /\
  wpm_tokenize (toy_vocab LLAMA_VOCAB_TYPE_WPM) toy_ud (lit "abc zz  ab") [7] = Ok [7; 9; 5; 0; 9; 2] /\
  exists idss, wpm_tokenize (toy_vocab LLAMA_VOCAB_TYPE_WPM) toy_ud (lit "abc zz  ab") [7] = Ok ([7] ++ concat idss) /\
    Forall2 (word_tokens (toy_vocab LLAMA_VOCAB_TYPE_WPM)) [lit "abc"; lit "zz"; lit "ab"] idss.
Proof.
  assert (Ep : preprocess toy_ud (lit "abc zz  ab") = Ok [lit "abc"; lit "zz"; lit "ab"]) by (vm_compute; reflexivity).
  split; [exact Ep|]. split; [vm_compute; reflexivity|].
  apply (wpm_longest_match (toy_vocab LLAMA_VOCAB_TYPE_WPM) toy_ud (lit "abc zz  ab") [7] [lit "abc"; lit "zz"; lit "ab"]).
  - by apply toy_vocab_ok.
  - assert (Hm : map_Forall (fun w _ => Z.of_nat (length w) <= v_max_token_len (toy_vocab LLAMA_VOCAB_TYPE_WPM)) (v_token_to_id (toy_vocab LLAMA_VOCAB_TYPE_WPM))).
    { match goal with |- ?G => refine (@bool_decide_eq_true_1 G ltac:(apply map_Forall_dec; intros; apply _) _) end. vm_compute. reflexivity. }
    intros w t E. exact (Hm w t E).
  - vm_compute. discriminate.
  - exact Ep.
  - repeat (constructor; [vm_compute; reflexivity|]). constructor.
Defined.

(** Longest tokens of RWKV from [p] to the end, and the unknown token for a byte that starts no
    token. *)
Inductive rwkv_segment {F} (v : llama_vocab F) (text : list Z) : nat -> list Z -> Prop :=
  | segment_end : rwkv_segment v text (length text) []
  | segment_unknown p c ids : text !! p = Some c -> (forall t d, v_id_to_token v !! t = Some d -> head (rwkv_bytes d) <> Some c) ->
      rwkv_segment v text (S p) ids -> rwkv_segment v text p (v_special_unk_id v :: ids)
  | segment_token p q id ids : (p < q <= length text)%nat -> last_token v (piece text p q) id ->
      (forall q' t d, (q < q' <= length text)%nat -> v_id_to_token v !! t = Some d -> rwkv_bytes d <> piece text p q') ->
      rwkv_segment v text q ids -> rwkv_segment v text p (id :: ids).

Lemma match_segment {F} (v : llama_vocab F) m text p ids : trie_of_first v (length (v_id_to_token v)) m ->
  rwkv_match v m text p ids -> rwkv_segment v text p ids.
Proof.
  intros (HV & HW & HD). induction 1 as [|p c ids Hc Ht _ IH|p q id ids Hq Hid Hl _ IH]; [constructor| |].
  - apply (segment_unknown v text p c); [done| |done]. intros t d Hd. destruct (rwkv_bytes d) as [|c' rest] eqn:E; [done|]. intros [= ->].
    apply (HD t d); [by eapply lookup_lt_Some|done|]. rewrite E. unfold trie_value. cbn [walk]. by rewrite Ht.
  - apply (segment_token v text p q); [done| | |done].
    + apply HV in Hid as (t & Ht & -> & Hd & Hlast). exists t. split; [done|]. split; [done|].
      intros t' d' Hlt E. apply (Hlast t'); [|done]. split; [done|by eapply lookup_lt_Some].
    + intros q' t d Hq' Hd E. apply (HD t d); [by eapply lookup_lt_Some|done|]. rewrite E. by apply Hl.
Qed.

(** C20: The RWKV tokenizer terminates and splits a text into longest tokens, from left to
    right, with the unknown token for a byte that no token starts with, provided that every byte
    that starts a token is itself a token and that no token has a zero byte behind its first
    byte. Tokens are compared by their unescaped bytes, and the last of several tokens with the
    same bytes is taken. *)
Theorem rwkv_longest_match {F : Type} (v : llama_vocab F) (text output : list Z) :
  vocab_ok v ->
  (forall t d c rest, v_id_to_token v !! t = Some d -> rwkv_bytes d = c :: rest -> exists t' d', v_id_to_token v !! t' = Some d' /\ rwkv_bytes d' = [c]) ->
  (forall t d c rest, v_id_to_token v !! t = Some d -> rwkv_bytes d = c :: rest -> 0 ∉ rest) ->
  exists m ids, rwkv_new v = Ok m /\ rwkv_segment v text 0 ids /\
    forall fuel, (length text < fuel)%nat -> rwkv_tokenize v m fuel text output = Ok (output ++ ids).
Proof.
  intros Hv Hone Hzero. destruct (rwkv_new_ok v Hv) as (m & Em & Hm). pose proof Hm as (HV & HW & HD).
  assert (Hnul : forall key t, key <> [] -> walk m key = Some t -> traverse t 0 = None).
  { intros key t Hne E. destruct (traverse t 0) as [t'|] eqn:Et; [|done]. assert (E' : walk m (key ++ [0]) = Some t') by by rewrite walk_snoc, E.
    apply HW in E' as [E'|(i & d & Hd & [rest Hr])]; [by apply app_eq_nil in E' as [_ ?]|]. destruct key as [|c key]; [done|].
    exfalso. apply (Hzero i d c (key ++ [0] ++ rest) Hd); [by rewrite Hr; cbn; rewrite <- app_assoc|]. rewrite !elem_of_app. right. left. by left. }
  assert (Hbyte : forall c t, traverse m c = Some t -> has_value t = true).
  { intros c t E. destruct (HW [c] t) as [|(i & d & Hd & [rest Hr])]; [by rewrite walk_one|done|].
    destruct (Hone i d c rest Hd Hr) as (t' & d' & Hd' & E'). specialize (HD t' d' ltac:(by eapply lookup_lt_Some) Hd').
    rewrite E' in HD. unfold trie_value in HD. rewrite walk_one, E in HD. cbn in HD. unfold node_value in HD. by destruct (has_value t). }
  destruct (rwkv_loop_ok v m text Hnul Hbyte (S (length text)) 0 output ltac:(lia) ltac:(lia)) as (ids & E & Hs).
  exists m, ids. split; [done|]. split; [by apply (match_segment v m)|]. intros fuel Hf. unfold rwkv_tokenize.
  by rewrite (loop_mono _ fuel _ _ _ Hf E).
Qed.

(** A small vocabulary: [rwkv_words] written with an escaped byte. *)
Definition rwkv_words : list (list Z) := [lit "a"; lit "b"; lit "\x63"; lit "ab"; lit "abc"; lit "abc\n"; lit "\n"].
Definition rwkv_vocab (words : list (list Z)) : llama_vocab Z :=
  match load_tokens words None None with
  | Ok (ids, tokens, m) =>
      mk_vocab LLAMA_VOCAB_TYPE_RWKV ids tokens [] [] ∅ m (-1) (-1) 99 (-1) false false false false false false true false
  | _ => mk_vocab LLAMA_VOCAB_TYPE_RWKV ∅ [] [] [] ∅ 0 0 0 0 0 false false false false false false false false
  end.
Lemma rwkv_vocab_ok : vocab_ok (rwkv_vocab rwkv_words).
Proof.
  assert (Hload : exists ids tokens m, load_tokens (F := Z) rwkv_words None None = Ok (ids, tokens, m) /\ length tokens = 7%nat).
  { vm_compute. by eexists _, _, _. }
  destruct Hload as (ids & tokens & m & E & Hl). unfold rwkv_vocab. rewrite E.
  destruct (load_tokens_ok (F := Z) rwkv_words None None) as [_ Hok]; [done..|].
  destruct (Hok _ _ _ E) as (_ & _ & T & _). constructor; [done|done|]. unfold n_tokens. cbn [v_id_to_token]. rewrite Hl. lia.
Qed.

(** What [rwkv_longest_match] asks of the tokens, as a test. *)
Definition rwkv_tokens_fit (ds : list (token_data Z)) : bool :=
  forallb (fun d => match rwkv_bytes d with
    | [] => true
    | c :: rest => bool_decide (0 ∉ rest) && bool_decide ([c] ∈ (rwkv_bytes <$> ds))
    end) ds.
Lemma rwkv_tokens_fit_ok ds t d c rest : rwkv_tokens_fit ds = true -> ds !! t = Some d -> rwkv_bytes d = c :: rest ->
  (0 ∉ rest) /\ exists t' d', ds !! t' = Some d' /\ rwkv_bytes d' = [c].
Proof.
  intros Hf Hd Eb. unfold rwkv_tokens_fit in Hf. rewrite forallb_forall in Hf. specialize (Hf d ltac:(apply list_elem_of_In; by eapply list_elem_of_lookup_2)).
  rewrite Eb in Hf. apply andb_true_iff in Hf as [H1 H2]. apply bool_decide_eq_true_1 in H1, H2. split; [done|].
  apply list_elem_of_fmap in H2 as (d' & E & Hin). apply list_elem_of_lookup in Hin as [t' Ht']. by exists t', d'.
Qed.

Lemma rwkv_longest_match_witness :
  (exists m, rwkv_new (rwkv_vocab rwkv_words) = Ok m /\
     rwkv_tokenize (rwkv_vocab rwkv_words) m 8 (lit "abxabcc") [] = Ok [3; 99; 4; 2]) /\
  exists m ids, rwkv_new (rwkv_vocab rwkv_words) = Ok m /\ rwkv_segment (rwkv_vocab rwkv_words) (lit "abxabcc") 0 ids /\
    forall fuel, (length (lit "abxabcc") < fuel)%nat -> rwkv_tokenize (rwkv_vocab rwkv_words) m fuel (lit "abxabcc") [] = Ok ([] ++ ids).
Proof.
  split; [eexists; split; vm_compute; reflexivity|].
  assert (Hf : rwkv_tokens_fit (v_id_to_token (rwkv_vocab rwkv_words)) = true) by (vm_compute; reflexivity).
  apply (rwkv_longest_match (rwkv_vocab rwkv_words) (lit "abxabcc") []).
  - exact rwkv_vocab_ok.
  - intros t d c rest Hd E. exact (proj2 (rwkv_tokens_fit_ok _ t d c rest Hf Hd E)).
  - intros t d c rest Hd E. exact (proj1 (rwkv_tokens_fit_ok _ t d c rest Hf Hd E)).
Defined.

(** Without a token for its first byte, a text that leaves the trie before any token ends sends
    the position back to zero: with the one token [ab], tokenizing [ac] never ends. *)
Lemma rwkv_diverges : exists m, rwkv_new (rwkv_vocab [lit "ab"]) = Ok m /\
  forall fuel output, rwkv_tokenize (rwkv_vocab [lit "ab"]) m fuel (lit "ac") output = Fault OutOfFuel.
Proof.
  eexists. split; [vm_compute; reflexivity|]. intros fuel. unfold rwkv_tokenize.
  match goal with |- context [rwkv_body ?v ?m ?text] => set (body := rwkv_body v m text) end.
  assert (Hb : forall output, body (0%nat, output) = Ok (inl (0%nat, output ++ [0]))) by (intros output; vm_compute; reflexivity).
  induction fuel as [|fuel IH]; intros output; [done|]. cbn [loop]. rewrite Hb, bind_ok. apply IH.
Qed.
