(* ===== verification/Grammar.v ===== *)
(** The grammar matcher of src/llama/llama.cpp/src/llama-grammar.cpp (lines 690-1471):
    the pushdown stacks and their advance, the acceptance of characters and tokens, the
    rejection of sampling candidates, the left-recursion check, the construction of a
    grammar, lazy triggers and the token table of [ollama_vocab].

    A [const llama_grammar_element *] is the pair of the index of its rule and its offset
    in the rule; a stack is listed from its top, so that [stack.back()] is the head. *)

From stdpp Require Import pretty.
From S2P Require Import Prelude StateExn GrammarParser.
Local Open Scope Z_scope.

(** ** Pointers into the rules *)

Definition elem_ptr : Type := nat * nat.
Abbreviation llama_grammar_stack := (list elem_ptr).
Abbreviation llama_grammar_stacks := (list llama_grammar_stack).

Definition next (p : elem_ptr) : elem_ptr := (p.1, S p.2).

(** [*p] *)
Definition elem_at (rules : llama_grammar_rules) (p : elem_ptr) : res llama_grammar_element :=
  rule ← rd rules p.1; rd rule p.2.

Definition rule_len (rules : llama_grammar_rules) (r : nat) : nat :=
  match rules !! r with Some rule => length rule | None => 0 end.

(** [llama_grammar_is_end_of_sequence] *)
Definition end_type (t : llama_gretype) : bool :=
  match t with LLAMA_GRETYPE_END | LLAMA_GRETYPE_ALT => true | _ => false end.
Definition is_end_of_sequence (rules : llama_grammar_rules) (p : elem_ptr) : res bool :=
  e ← elem_at rules p; Ok (end_type (ge_type e)).

(** [if (!is_end_of_sequence(p)) stack.push_back(p);] *)
Definition push_unless_end (rules : llama_grammar_rules) (p : elem_ptr) (stack : llama_grammar_stack) :
    res llama_grammar_stack :=
  e ← is_end_of_sequence rules p;
  Ok (if e : bool then stack else p :: stack).

(** ** Matching one character or token *)

Definition positive_char (t : llama_gretype) : bool :=
  match t with LLAMA_GRETYPE_CHAR | LLAMA_GRETYPE_CHAR_ANY => true | _ => false end.
Definition char_start (t : llama_gretype) : bool :=
  positive_char t || bool_decide (t = LLAMA_GRETYPE_CHAR_NOT).

Definition is_type (t t' : llama_gretype) : bool := bool_decide (t = t').

(** The [do ... while (pos->type == LLAMA_GRETYPE_CHAR_ALT)] of [match_char]. *)
Fixpoint match_char_loop (fuel : nat) (rules : llama_grammar_rules) (chr : Z)
    (pos : elem_ptr) (found : bool) : res (bool * elem_ptr) :=
  match fuel with
  | O => Fault OutOfFuel
  | S fuel =>
      e ← elem_at rules pos;
      e1 ← elem_at rules (next pos);
      let '(found, pos) :=
        if is_type (ge_type e1) LLAMA_GRETYPE_CHAR_RNG_UPPER then
          (found || ((ge_value e <=? chr) && (chr <=? ge_value e1)), next (next pos))
        else if is_type (ge_type e) LLAMA_GRETYPE_CHAR_ANY then (true, next pos)
        else (found || (ge_value e =? chr), next pos) in
      e' ← elem_at rules pos;
      if is_type (ge_type e') LLAMA_GRETYPE_CHAR_ALT
      then match_char_loop fuel rules chr pos found else Ok (found, pos)
  end.

Definition match_char (rules : llama_grammar_rules) (pos : elem_ptr) (chr : Z) : res (bool * elem_ptr) :=
  e ← elem_at rules pos;
  let is_positive_char := positive_char (ge_type e) in
  assert_ (is_positive_char || is_type (ge_type e) LLAMA_GRETYPE_CHAR_NOT);;
  '(found, pos) ← match_char_loop (S (rule_len rules pos.1)) rules chr pos false;
  Ok (Bool.eqb found is_positive_char, pos).

Fixpoint match_partial_loop (fuel : nat) (rules : llama_grammar_rules) (low high : Z)
    (is_positive_char : bool) (pos : elem_ptr) : res bool :=
  match fuel with
  | O => Fault OutOfFuel
  | S fuel =>
      e ← elem_at rules pos;
      e1 ← elem_at rules (next pos);
      let continue pos :=
        e' ← elem_at rules pos;
        if is_type (ge_type e') LLAMA_GRETYPE_CHAR_ALT
        then match_partial_loop fuel rules low high is_positive_char pos
        else Ok (negb is_positive_char) in
      if is_type (ge_type e1) LLAMA_GRETYPE_CHAR_RNG_UPPER then
        if (ge_value e <=? high) && (low <=? ge_value e1) then Ok is_positive_char
        else continue (next (next pos))
      else if is_type (ge_type e) LLAMA_GRETYPE_CHAR_ANY then Ok true
      else if (low <=? ge_value e) && (ge_value e <=? high) then Ok is_positive_char
      else continue (next pos)
  end.

(** The code points that a partial sequence may become; [n_remain] is at most 3. *)
Definition partial_range (partial : llama_partial_utf8) : Z * Z :=
  let n_remain := pu_n_remain partial in
  let low := u32 (Z.shiftl (pu_value partial) (n_remain * 6)) in
  let high := Z.lor low (Z.shiftl 1 (n_remain * 6) - 1) in
  let low :=
    if low =? 0 then
      if n_remain =? 2 then Z.shiftl 1 11 else if n_remain =? 3 then Z.shiftl 1 16 else low
    else low in
  (low, high).

Definition match_partial_char (rules : llama_grammar_rules) (pos : elem_ptr)
    (partial : llama_partial_utf8) : res bool :=
  e ← elem_at rules pos;
  let is_positive_char := positive_char (ge_type e) in
  assert_ (is_positive_char || is_type (ge_type e) LLAMA_GRETYPE_CHAR_NOT);;
  if (pu_n_remain partial <? 0) || ((pu_n_remain partial =? 1) && (pu_value partial <? 2))
  then Ok false
  else
    let '(low, high) := partial_range partial in
    match_partial_loop (S (rule_len rules pos.1)) rules low high is_positive_char pos.

Definition token_type (t : llama_gretype) : bool :=
  match t with LLAMA_GRETYPE_TOKEN | LLAMA_GRETYPE_TOKEN_NOT => true | _ => false end.

Definition match_token (rules : llama_grammar_rules) (pos : elem_ptr) (token : Z) : res bool :=
  e ← elem_at rules pos;
  assert_ (token_type (ge_type e));;
  if is_type (ge_type e) LLAMA_GRETYPE_TOKEN then Ok (ge_value e =? u32 token)
  else if is_type (ge_type e) LLAMA_GRETYPE_TOKEN_NOT then Ok (negb (ge_value e =? u32 token))
  else Ok false.

(** ** Advancing a stack to the terminals *)

(** [if (std::find(stacks, stack) == stacks.end()) stacks.emplace_back(stack);] *)
Definition add_stack (stack : llama_grammar_stack) (stacks : llama_grammar_stacks) : llama_grammar_stacks :=
  if decide (stack ∈ stacks) then stacks else stacks ++ [stack].

(** [while (!is_end_of_sequence(p)) p++;] *)
Fixpoint scan_to_end (fuel : nat) (rules : llama_grammar_rules) (p : elem_ptr) : res elem_ptr :=
  match fuel with
  | O => Fault OutOfFuel
  | S fuel =>
      e ← is_end_of_sequence rules p;
      if e : bool then Ok p else scan_to_end fuel rules (next p)
  end.

(** The [do ... while (true)] over the alternatives of a rule, from [subpos]: [body] is
    run at the start of each. *)
Fixpoint for_alternates {S} (fuel : nat) (rules : llama_grammar_rules)
    (body : S -> elem_ptr -> res S) (s : S) (subpos : elem_ptr) : res S :=
  match fuel with
  | O => Fault OutOfFuel
  | Datatypes.S fuel =>
      s ← body s subpos;
      subpos ← scan_to_end (Datatypes.S (rule_len rules subpos.1)) rules subpos;
      e ← elem_at rules subpos;
      if is_type (ge_type e) LLAMA_GRETYPE_ALT
      then for_alternates fuel rules body s (next subpos) else Ok s
  end.

(** [fuel] bounds the depth of the recursion. *)
Fixpoint advance_stack (fuel : nat) (rules : llama_grammar_rules) (stack : llama_grammar_stack)
    (new_stacks : llama_grammar_stacks) : res llama_grammar_stacks :=
  match fuel with
  | O => Fault OutOfFuel
  | S fuel =>
      match stack with
      | [] => Ok (add_stack stack new_stacks)
      | pos :: rest =>
          e ← elem_at rules pos;
          match ge_type e with
          | LLAMA_GRETYPE_RULE_REF =>
              let rule_id := Z.to_nat (ge_value e) in
              for_alternates (S (rule_len rules rule_id)) rules
                (fun new_stacks subpos =>
                   new_stack ← push_unless_end rules (next pos) rest;
                   new_stack ← push_unless_end rules subpos new_stack;
                   advance_stack fuel rules new_stack new_stacks)
                new_stacks (rule_id, 0%nat)
          | LLAMA_GRETYPE_CHAR | LLAMA_GRETYPE_CHAR_NOT | LLAMA_GRETYPE_CHAR_ANY
          | LLAMA_GRETYPE_TOKEN | LLAMA_GRETYPE_TOKEN_NOT => Ok (add_stack stack new_stacks)
          | _ => Fault AbortCalled
          end
      end
  end.

(** ** Left recursion *)

Record left_rec_state := mk_lr {
  lr_visited     : list bool;
  lr_in_progress : list bool;
  lr_may_be_empty : list bool
}.

(** The first loop: does some alternative of the rule consist of nothing at all? *)
Definition directly_empty (rule : llama_grammar_rule) : bool :=
  match foldB (fun at_rule_start e =>
          if end_type (ge_type e) then
            if at_rule_start : bool then Ok (inr tt) else Ok (inl true)
          else Ok (inl false)) true rule with
  | Ok (inr _) => true
  | _ => false
  end.

(** One element in the second loop; [inr]: [return true]. *)
Definition left_rec_elem (detect : left_rec_state -> nat -> res (bool * left_rec_state))
    (st : left_rec_state * bool) (e : llama_grammar_element) :
    res (left_rec_state * bool + left_rec_state) :=
  let '(s, recurse) := st in
  if is_type (ge_type e) LLAMA_GRETYPE_RULE_REF && recurse then
    '(found, s) ← detect s (Z.to_nat (ge_value e));
    if found : bool then Ok (inr s)
    else
      empty ← rd (lr_may_be_empty s) (Z.to_nat (ge_value e));
      Ok (inl (s, empty))
  else if end_type (ge_type e) then Ok (inl (s, true))
  else Ok (inl (s, false)).

Fixpoint detect_left_recursion (fuel : nat) (rules : llama_grammar_rules)
    (s : left_rec_state) (rule_index : nat) : res (bool * left_rec_state) :=
  match fuel with
  | O => Fault OutOfFuel
  | S fuel =>
      in_progress ← rd (lr_in_progress s) rule_index;
      if in_progress : bool then Ok (true, s)
      else
        prog ← wr (lr_in_progress s) rule_index true;
        rule ← rd rules rule_index;
        empty ← (if directly_empty rule then wr (lr_may_be_empty s) rule_index true
                 else Ok (lr_may_be_empty s));
        r ← foldB (left_rec_elem (detect_left_recursion fuel rules))
              (mk_lr (lr_visited s) prog empty, true) rule;
        match r with
        | inr s => Ok (true, s)
        | inl (s, _) =>
            prog ← wr (lr_in_progress s) rule_index false;
            visited ← wr (lr_visited s) rule_index true;
            Ok (false, mk_lr visited prog (lr_may_be_empty s))
        end
  end.

(** ** Rejecting candidates *)

Record llama_grammar_candidate := mk_cand {
  cd_index       : nat;
  cd_code_points : list Z;         (* the array, terminated by 0 *)
  cd_at          : nat;            (* where [code_points] points in it *)
  cd_partial     : llama_partial_utf8;
  cd_id          : Z
}.

Abbreviation llama_grammar_candidates := (list llama_grammar_candidate).

(** [*tok.code_points] *)
Definition cand_char (tok : llama_grammar_candidate) : res Z := rd (cd_code_points tok) (cd_at tok).
Definition cand_move (at_ : nat) (tok : llama_grammar_candidate) : llama_grammar_candidate :=
  mk_cand (cd_index tok) (cd_code_points tok) at_ (cd_partial tok) (cd_id tok).

Definition incomplete (tok : llama_grammar_candidate) : bool :=
  negb (pu_n_remain (cd_partial tok) =? 0).

Definition keep_if (b : bool) (tok : llama_grammar_candidate) (l : llama_grammar_candidates) :
    llama_grammar_candidates := if b then l ++ [tok] else l.

Definition reject_at_end (rejects : llama_grammar_candidates) (tok : llama_grammar_candidate) :
    res llama_grammar_candidates :=
  c ← cand_char tok;
  Ok (keep_if (negb (c =? 0) || incomplete tok) tok rejects).

Definition reject_at_token (rules : llama_grammar_rules) (stack_pos : elem_ptr)
    (rejects : llama_grammar_candidates) (tok : llama_grammar_candidate) :
    res llama_grammar_candidates :=
  c ← cand_char tok;
  if c =? 0 then Ok (keep_if (incomplete tok) tok rejects)
  else
    m ← match_token rules stack_pos (cd_id tok);
    Ok (keep_if (negb m) tok rejects).

Definition reject_at_char (rules : llama_grammar_rules) (stack_pos : elem_ptr)
    (st : llama_grammar_candidates * llama_grammar_candidates) (tok : llama_grammar_candidate) :
    res (llama_grammar_candidates * llama_grammar_candidates) :=
  let '(rejects, next_candidates) := st in
  c ← cand_char tok;
  if c =? 0 then
    if incomplete tok then
      m ← match_partial_char rules stack_pos (cd_partial tok);
      Ok (keep_if (negb m) tok rejects, next_candidates)
    else Ok (rejects, next_candidates)
  else
    m ← match_char rules stack_pos c;
    if m.1 : bool then Ok (rejects, next_candidates ++ [cand_move (S (cd_at tok)) tok])
    else Ok (rejects ++ [tok], next_candidates).

(** [llama_grammar_reject_candidates], given the function for one stack. *)
Definition reject_candidates_with
    (for_stack : llama_grammar_stack -> llama_grammar_candidates -> res llama_grammar_candidates)
    (stacks : llama_grammar_stacks) (candidates : llama_grammar_candidates) :
    res llama_grammar_candidates :=
  match stacks with
  | [] => Fault AssertFailed
  | front :: others =>
      match candidates with
      | [] => Ok []
      | _ =>
          rejects ← for_stack front candidates;
          foldM (fun rejects stack => for_stack stack rejects) rejects others
      end
  end.

(** [depth] bounds the characters of a candidate, [fuel] the advance of the stacks. *)
Fixpoint reject_candidates_for_stack (depth fuel : nat) (rules : llama_grammar_rules)
    (stack : llama_grammar_stack) (candidates : llama_grammar_candidates) :
    res llama_grammar_candidates :=
  match depth with
  | O => Fault OutOfFuel
  | S depth =>
      match stack with
      | [] => foldM reject_at_end [] candidates
      | stack_pos :: rest =>
          e ← elem_at rules stack_pos;
          if token_type (ge_type e) then foldM (reject_at_token rules stack_pos) [] candidates
          else
            '(rejects, next_candidates) ← foldM (reject_at_char rules stack_pos) ([], []) candidates;
            m ← match_char rules stack_pos 0;
            stack_after ← push_unless_end rules m.2 rest;
            next_stacks ← advance_stack fuel rules stack_after [];
            next_rejects ←
              reject_candidates_with (reject_candidates_for_stack depth fuel rules)
                next_stacks next_candidates;
            Ok (rejects ++ ((fun tok => cand_move (cd_at tok - 1) tok) <$> next_rejects))
      end
  end.

Definition reject_candidates (depth fuel : nat) (rules : llama_grammar_rules)
    (stacks : llama_grammar_stacks) (candidates : llama_grammar_candidates) :
    res llama_grammar_candidates :=
  reject_candidates_with (reject_candidates_for_stack depth fuel rules) stacks candidates.

(** ** Vocabularies *)

Record ollama_vocab := mk_ollama_vocab {
  token_to_piece_map : gmap Z string;
  special_eog_ids    : gset Z
}.

Definition ollama_token_to_piece (v : ollama_vocab) (token : Z) : res string :=
  match token_to_piece_map v !! token with
  | Some piece => Ok piece
  | None => Throw ("Token not found in vocabulary: " +:+ pretty token)
  end.

(** [n] pairs of the two arrays. *)
Definition add_token_pieces (tokens : list Z) (pieces : list string) (n : nat) (v : ollama_vocab) :
    res ollama_vocab :=
  m ← foldM (fun m i =>
        t ← rd tokens i; p ← rd pieces i; Ok (<[t := p]> m))
      (token_to_piece_map v) (seq 0 n);
  Ok (mk_ollama_vocab m (special_eog_ids v)).

Definition ollama_is_eog (v : ollama_vocab) (token : Z) : bool :=
  bool_decide (token ∈ special_eog_ids v).

Definition set_eog_tokens (tokens : list Z) (n : nat) (v : ollama_vocab) : res ollama_vocab :=
  s ← foldM (fun s i => t ← rd tokens i; Ok ({[ t ]} ∪ s)) (special_eog_ids v) (seq 0 n);
  Ok (mk_ollama_vocab (token_to_piece_map v) s).

(** What the grammar asks of a [llama_vocab]. *)
Record vocab_ops := mk_vocab_ops {
  vo_token_to_piece : Z -> string;
  vo_is_eog         : Z -> bool
}.

(** ** The grammar object *)

(** A compiled [std::regex], as what [std::regex_match] gives on a text: [None], or the
    position and length of every group, the whole match first. *)
Definition regex_fn : Type := string -> option (list (nat * nat)).

Record llama_grammar_trigger_pattern := mk_trigger { tp_pattern : string; tp_regex : regex_fn }.

Record llama_grammar := mk_grammar {
  g_vocab            : option vocab_ops;
  g_o_vocab          : option ollama_vocab;
  g_rules            : llama_grammar_rules;
  g_stacks           : llama_grammar_stacks;
  g_partial_utf8     : llama_partial_utf8;
  g_lazy             : bool;
  g_awaiting_trigger : bool;
  g_trigger_buffer   : string;
  g_trigger_buffer_positions : list (Z * (nat * nat));
  g_trigger_tokens   : list Z;
  g_trigger_patterns : list llama_grammar_trigger_pattern
}.

Definition with_stacks (s : llama_grammar_stacks) (g : llama_grammar) : llama_grammar :=
  mk_grammar (g_vocab g) (g_o_vocab g) (g_rules g) s (g_partial_utf8 g) (g_lazy g)
    (g_awaiting_trigger g) (g_trigger_buffer g) (g_trigger_buffer_positions g)
    (g_trigger_tokens g) (g_trigger_patterns g).
Definition with_partial (p : llama_partial_utf8) (g : llama_grammar) : llama_grammar :=
  mk_grammar (g_vocab g) (g_o_vocab g) (g_rules g) (g_stacks g) p (g_lazy g)
    (g_awaiting_trigger g) (g_trigger_buffer g) (g_trigger_buffer_positions g)
    (g_trigger_tokens g) (g_trigger_patterns g).
Definition with_trigger (awaiting : bool) (buffer : string) (positions : list (Z * (nat * nat)))
    (g : llama_grammar) : llama_grammar :=
  mk_grammar (g_vocab g) (g_o_vocab g) (g_rules g) (g_stacks g) (g_partial_utf8 g) (g_lazy g)
    awaiting buffer positions (g_trigger_tokens g) (g_trigger_patterns g).

Definition token_to_piece (g : llama_grammar) (token : Z) : res string :=
  match g_o_vocab g with
  | Some v => ollama_token_to_piece v (u32 token)
  | None => v ← deref (g_vocab g); Ok (vo_token_to_piece v token)
  end.
Definition is_eog (g : llama_grammar) (token : Z) : res bool :=
  match g_o_vocab g with
  | Some v => Ok (ollama_is_eog v (u32 token))
  | None => v ← deref (g_vocab g); Ok (vo_is_eog v token)
  end.

(** ** Accepting characters and tokens *)

Definition accept_chr (fuel : nat) (rules : llama_grammar_rules) (stack : llama_grammar_stack)
    (chr : Z) (new_stacks : llama_grammar_stacks) : res llama_grammar_stacks :=
  match stack with
  | [] => Ok new_stacks
  | pos :: rest =>
      e ← elem_at rules pos;
      if token_type (ge_type e) then Ok new_stacks
      else
        m ← match_char rules pos chr;
        if m.1 : bool then
          new_stack ← push_unless_end rules m.2 rest;
          advance_stack fuel rules new_stack new_stacks
        else Ok new_stacks
  end.

(** The stacks after one character. *)
Definition accept_stacks (fuel : nat) (rules : llama_grammar_rules) (stacks : llama_grammar_stacks)
    (chr : Z) : res llama_grammar_stacks :=
  foldM (fun new_stacks stack => accept_chr fuel rules stack chr new_stacks) [] stacks.

Local Open Scope st_scope.

Definition llama_grammar_accept (fuel : nat) (chr : Z) : ST llama_grammar unit :=
  g <- st_get ;;
  stacks <- lift (accept_stacks fuel (g_rules g) (g_stacks g) chr) ;;
  st_put (with_stacks stacks g).

(** The code points without the terminating 0. *)
Definition body_points (code_points : list Z) : list Z := removelast code_points.

Definition accept_str (fuel : nat) (piece : string) : ST llama_grammar unit :=
  g <- st_get ;;
  decoded <- lift (decode_utf8 piece (g_partial_utf8 g)) ;;
  st_loop (S (length decoded.1))
    (fun chrs =>
       match chrs with
       | [] => st_ret (inr [])
       | chr :: chrs => llama_grammar_accept fuel chr ;;; st_ret (inl chrs)
       end) (body_points decoded.1) ;;;
  g <- st_get ;;
  st_put (with_partial decoded.2 g) ;;;
  match g_stacks g with
  | [] => st_throw ("Unexpected empty grammar stack after accepting piece: " +:+ piece)
  | _ => st_ret tt
  end.

(** The stacks that a stack becomes over the characters of a token; [inr] is [break]. *)
Definition accept_points (fuel : nat) (rules : llama_grammar_rules) (stack : llama_grammar_stack)
    (chrs : list Z) : res llama_grammar_stacks :=
  (r ← foldB (fun current_stacks chr =>
         next_stacks ← accept_stacks fuel rules current_stacks chr;
         match next_stacks with
         | [] => Ok (inr next_stacks)
         | _ => Ok (inl next_stacks)
         end) [stack] chrs;
   match r with inl s => Ok s | inr s => Ok s end)%stdpp.

Definition accept_token_stack (fuel : nat) (rules : llama_grammar_rules) (token : Z)
    (chrs : list Z) (stacks_new : llama_grammar_stacks) (stack : llama_grammar_stack) :
    res llama_grammar_stacks :=
  (match stack with
   | [] => Ok stacks_new
   | pos :: rest =>
       e ← elem_at rules pos;
       if token_type (ge_type e) then
         m ← match_token rules pos token;
         if m : bool then
           new_stack ← push_unless_end rules (next pos) rest;
           advance_stack fuel rules new_stack stacks_new
         else Ok stacks_new
       else
         current_stacks ← accept_points fuel rules stack chrs;
         Ok (foldl (fun l s => add_stack s l) stacks_new current_stacks)
   end)%stdpp.

Definition accept_token (fuel : nat) (token : Z) (piece : string) : ST llama_grammar unit :=
  g <- st_get ;;
  decoded <- lift (decode_utf8 piece (g_partial_utf8 g)) ;;
  stacks_new <- lift (foldM (accept_token_stack fuel (g_rules g) token (body_points decoded.1))
                        [] (g_stacks g)) ;;
  st_put (with_partial decoded.2 (with_stacks stacks_new g)) ;;;
  match stacks_new with
  | [] => st_throw ("Unexpected empty grammar stack after accepting piece: " +:+ piece +:+
                    " (" +:+ pretty token +:+ ")")
  | _ => st_ret tt
  end.

(** [for (i = 1; i < match.size(); i++) if (match.length(i) > 0) ...], then group 0. *)
Definition match_start (groups : list (nat * nat)) : res nat :=
  match list_find (fun g => (0 < g.2)%nat) (drop 1 groups) with
  | Some (_, (position, _)) => Ok position
  | None => (g ← rd groups 0; Ok g.1)%stdpp
  end.

(** Replays the tokens that overlap with the text from [start]. *)
Fixpoint replay_tokens (fuel : nat) (start : nat) (buffer : string)
    (positions : list (Z * (nat * nat))) : ST llama_grammar unit :=
  match positions with
  | [] => st_ret tt
  | (tok, (tok_start, tok_end)) :: positions =>
      (if decide (tok_end <= start)%nat then st_ret tt
       else
         let piece_start := if decide (tok_start < start)%nat then start else tok_start in
         accept_token fuel tok (String.substring piece_start (tok_end - piece_start) buffer)) ;;;
      replay_tokens fuel start buffer positions
  end.

(** The first trigger pattern that matches the buffer. *)
Fixpoint find_trigger (buffer : string) (patterns : list llama_grammar_trigger_pattern) :
    option (list (nat * nat)) :=
  match patterns with
  | [] => None
  | t :: patterns =>
      match tp_regex t buffer with Some m => Some m | None => find_trigger buffer patterns end
  end.

Definition accept_impl (fuel : nat) (token : Z) : ST llama_grammar unit :=
  g <- st_get ;;
  piece <- lift (token_to_piece g token) ;;
  if g_awaiting_trigger g then
    if decide (token ∈ g_trigger_tokens g) then
      st_put (with_trigger false EmptyString (g_trigger_buffer_positions g) g) ;;;
      accept_token fuel token piece
    else
      let position := (String.length (g_trigger_buffer g),
                       (String.length (g_trigger_buffer g) + String.length piece)%nat) in
      let positions := g_trigger_buffer_positions g ++ [(token, position)] in
      let buffer := g_trigger_buffer g +:+ piece in
      st_put (with_trigger true buffer positions g) ;;;
      match find_trigger buffer (g_trigger_patterns g) with
      | Some groups =>
          st_put (with_trigger false buffer positions g) ;;;
          start <- lift (match_start groups) ;;
          replay_tokens fuel start buffer positions ;;;
          g' <- st_get ;;
          st_put (with_trigger false EmptyString [] g')
      | None => st_ret tt
      end
  else
    eog <- lift (is_eog g token) ;;
    if eog : bool then
      if decide ([] ∈ g_stacks g) then st_ret tt else lift (Fault AbortCalled)
    else accept_token fuel token piece.

(** ** Applying a grammar to the sampling candidates *)

Section apply.
(** The type of logits and [-INFINITY]. *)
Context {logit : Type} (neg_infinity : logit).

Record llama_token_data := mk_token_data { td_id : Z; td_logit : logit }.

Definition mask_logit (i : nat) (l : list llama_token_data) : list llama_token_data :=
  alter (fun d => mk_token_data (td_id d) neg_infinity) i l.

Definition apply_candidate (g : llama_grammar) (allow_eog : bool)
    (st : list llama_token_data * llama_grammar_candidates) (i : nat) :
    res (list llama_token_data * llama_grammar_candidates) :=
  (let '(data, candidates) := st in
   d ← rd data i;
   piece ← token_to_piece g (td_id d);
   eog ← is_eog g (td_id d);
   if eog : bool then Ok (if allow_eog then data else mask_logit i data, candidates)
   else if at_end piece then Ok (mask_logit i data, candidates)
   else
     '(code_points, partial) ← decode_utf8 piece (g_partial_utf8 g);
     Ok (data, candidates ++ [mk_cand i code_points 0 partial (td_id d)]))%stdpp.

Definition apply_impl (depth fuel : nat) (g : llama_grammar) (data : list llama_token_data) :
    res (list llama_token_data) :=
  (if g_awaiting_trigger g then Ok data
   else
     let allow_eog := bool_decide ([] ∈ g_stacks g) in
     '(data, candidates) ←
       foldM (apply_candidate g allow_eog) (data, []) (seq 0 (length data));
     rejects ← reject_candidates depth fuel (g_rules g) (g_stacks g) candidates;
     Ok (foldl (fun data tok => mask_logit (cd_index tok) data) data rejects))%stdpp.
End apply.

(** ** Building a grammar *)

Definition copy_rule_loop := fix go (rule : llama_grammar_rule) : res llama_grammar_rule :=
  (match rule with
   | [] => Fault OutOfRange
   | e :: rule =>
       if is_type (ge_type e) LLAMA_GRETYPE_END then Ok []
       else rule' ← go rule; Ok (e :: rule')
   end)%stdpp.

(** [for (pos = rules[i]; pos->type != END; pos++) push_back( *pos); push_back(END);] *)
Definition copy_rule (rule : llama_grammar_rule) : res llama_grammar_rule :=
  (r ← copy_rule_loop rule; Ok (r ++ [mk_elem LLAMA_GRETYPE_END 0]))%stdpp.

Definition copy_rules (rules : llama_grammar_rules) : res llama_grammar_rules :=
  (foldM (fun l rule => r ← copy_rule rule; Ok (l ++ [r])) [] rules)%stdpp.

(** The check of all the rules: the index of a left-recursive one, if any. *)
Definition find_left_recursion (rules : llama_grammar_rules) : res (left_rec_state + nat) :=
  let n := length rules in
  (foldB (fun s i =>
     visited ← rd (lr_visited s) i;
     if visited : bool then Ok (inl s)
     else
       '(found, s) ← detect_left_recursion (S n) rules s i;
       if found : bool then Ok (inr i) else Ok (inl s))
     (mk_lr (replicate n false) (replicate n false) (replicate n false)) (seq 0 n))%stdpp.

(** The stacks at the start of a rule. *)
Definition initial_stacks (fuel : nat) (rules : llama_grammar_rules) (start_rule_index : nat) :
    res llama_grammar_stacks :=
  (_ ← rd rules start_rule_index;
   for_alternates (S (rule_len rules start_rule_index)) rules
     (fun stacks pos =>
        stack ← push_unless_end rules pos [];
        advance_stack fuel rules stack stacks)
     [] (start_rule_index, 0%nat))%stdpp.

(** [llama_grammar_init_impl] on rules; [None] is a null pointer. *)
Definition grammar_init_rules (fuel : nat) (vocab : option vocab_ops) (o_vocab : option ollama_vocab)
    (rules : llama_grammar_rules) (start_rule_index : nat) : res (option llama_grammar) :=
  (vec_rules ← copy_rules rules;
   lr ← find_left_recursion vec_rules;
   match lr with
   | inr _ => Ok None
   | inl _ =>
       stacks ← initial_stacks fuel vec_rules start_rule_index;
       Ok (Some (mk_grammar vocab o_vocab vec_rules stacks (mk_partial 0 0) false false
                   EmptyString [] [] []))
   end)%stdpp.

(** [llama_grammar_init_impl] on a text; [tokenize] is the one of the vocabulary and
    [regex] compiles a pattern. *)
Definition grammar_init_str (fuel : nat) (vocab : option vocab_ops)
    (tokenize : option (string -> list Z)) (regex : string -> res regex_fn)
    (o_vocab : option ollama_vocab) (grammar_str grammar_root : string) (lazy : bool)
    (trigger_patterns : list string) (trigger_tokens : list Z) : res (option llama_grammar) :=
  match grammar_parse tokenize grammar_str llama_grammar_parser_new with
  | (Fault f, _) => Fault f
  | (Throw msg, _) => Throw msg
  | (Ok ok, parser) =>
      if negb ok || bool_decide (gp_rules parser = []) then Ok None
      else if bool_decide (gp_symbol_ids parser !! "root" = None) then Ok None
      else
        match gp_symbol_ids parser !! grammar_root with
        | None => Throw "map::at"
        | Some start_rule_index =>
            (vec_rules ← copy_rules (gp_rules parser);
             lr ← find_left_recursion vec_rules;
             match lr with
             | inr _ => Ok None
             | inl _ =>
                 stacks ← initial_stacks fuel vec_rules (Z.to_nat start_rule_index);
                 patterns ← foldM (fun l p => r ← regex p; Ok (l ++ [mk_trigger p r])) [] trigger_patterns;
                 Ok (Some (mk_grammar vocab o_vocab vec_rules stacks (mk_partial 0 0) lazy lazy
                             EmptyString [] trigger_tokens patterns))
             end)%stdpp
        end
  end.

(** ** Copying a grammar *)

(** A pointer of the copy: into the new rules ([inl]) or still into the old ones. *)
Definition redirect_pointer (rules : llama_grammar_rules) (p : elem_ptr) : elem_ptr + elem_ptr :=
  foldl (fun q ir0 =>
    foldl (fun q ir1 => if decide (p = (ir0, ir1)) then inl (ir0, ir1) else q)
      q (seq 0 (rule_len rules ir0))) (inr p) (seq 0 (length rules)).

(** [llama_grammar_clone_impl]: the copy, its stacks as pointers into either object. *)
Definition grammar_clone (g : llama_grammar) : llama_grammar * list (list (elem_ptr + elem_ptr)) :=
  (g, map (fun stack => map (redirect_pointer (g_rules g)) stack) (g_stacks g)).
