(* ===== verification/GrammarOk.v ===== *)
(** The matcher of Grammar.v implements the language of the grammar: an inductive
    definition of the words derived from a position is the reference, the pushdown stacks
    are shown to represent it, and accepting a character is its derivative.  Hypothesis
    of all of it is the well-formedness that the parser guarantees. *)

From S2P Require Import Prelude StateExn GrammarParser GrammarParserOk Grammar.
Local Open Scope Z_scope.

(** ** Well-formed rules and pointers *)

Lemma elem_at_ok rules p e :
  elem_at rules p = Ok e <-> exists rule, rules !! p.1 = Some rule /\ rule !! p.2 = Some e.
Proof.
  unfold elem_at, rd. split.
  - destruct (rules !! p.1) as [rule|] eqn:E; [|done]. simpl.
    destruct (rule !! p.2) as [e'|] eqn:E2; [|done]. intros [= ->]. eauto.
  - intros (rule & -> & H). simpl. by rewrite H.
Qed.

Lemma body_ok_lookup prev l i e :
  body_ok prev l = true -> l !! i = Some e ->
  may_follow (match i with O => prev | S j => ge_type <$> l !! j end) (ge_type e) = true.
Proof.
  revert prev i. induction l as [|x l IH]; intros prev i H Hi; [done|]. simpl in H.
  apply andb_true_iff in H as [H1 H2]. destruct i as [|i]; simpl in Hi; [by simplify_eq|].
  specialize (IH _ _ H2 Hi). by destruct i.
Qed.

(** What may stand at the start of an alternative or after a symbol. *)
Definition symbol_start (t : llama_gretype) : Prop :=
  t <> LLAMA_GRETYPE_CHAR_ALT /\ t <> LLAMA_GRETYPE_CHAR_RNG_UPPER.

Definition ptr_ok (rules : llama_grammar_rules) (p : elem_ptr) : Prop :=
  exists e, elem_at rules p = Ok e /\ symbol_start (ge_type e).

Section wf.
Context (rules : llama_grammar_rules) (Hwf : grammar_wf rules).

Lemma wf_rule r rule : rules !! r = Some rule ->
  rule_ok rule /\ refs_below (length rules) rule.
Proof. intros H. exact (Forall_lookup_1 _ _ _ _ Hwf H). Qed.

Lemma rule_ok_lookup rule i e :
  rule_ok rule -> rule !! i = Some e ->
  (ge_type e = LLAMA_GRETYPE_END /\ S i = length rule) \/
  ((S i < length rule)%nat /\
   may_follow (match i with O => None | S j => ge_type <$> rule !! j end) (ge_type e) = true).
Proof.
  intros (body & -> & Hb) Hi. rewrite length_app. simpl.
  apply lookup_app_Some in Hi as [Hi|[Hlen Hi]].
  - right. pose proof (lookup_lt_Some _ _ _ Hi). split; [lia|].
    pose proof (body_ok_lookup None body i e Hb Hi) as H1. destruct i as [|j]; [done|].
    by rewrite lookup_app_l by lia.
  - left. destruct (i - length body)%nat eqn:E; [|done]. simplify_eq/=. split; [done|lia].
Qed.

(** What follows an element that is not [END]. *)
Lemma elem_next p e :
  elem_at rules p = Ok e -> ge_type e <> LLAMA_GRETYPE_END ->
  exists e', elem_at rules (next p) = Ok e' /\
    (ge_type e' = LLAMA_GRETYPE_END \/ may_follow (Some (ge_type e)) (ge_type e') = true).
Proof.
  intros (rule & Hr & He)%elem_at_ok Hne. destruct (wf_rule _ _ Hr) as [Hok _].
  destruct (rule_ok_lookup _ _ _ Hok He) as [[? _]|[Hlt _]]; [done|].
  destruct (lookup_lt_is_Some_2 rule (S p.2) Hlt) as [e' He'].
  exists e'. split; [apply elem_at_ok; eauto|].
  destruct (rule_ok_lookup _ _ _ Hok He') as [[? _]|[_ Hf]]; [by left|right].
  by rewrite He in Hf.
Qed.

Lemma elem_ref p e :
  elem_at rules p = Ok e -> ge_type e = LLAMA_GRETYPE_RULE_REF ->
  (Z.to_nat (ge_value e) < length rules)%nat.
Proof.
  intros (rule & Hr & He)%elem_at_ok Ht. destruct (wf_rule _ _ Hr) as [_ Hrefs].
  exact (Forall_lookup_1 _ _ _ _ Hrefs He Ht).
Qed.

Lemma symbol_start_intro prev t :
  (t = LLAMA_GRETYPE_END \/ may_follow prev t = true) ->
  (match prev with
   | None => True
   | Some p => end_type p = true \/ p = LLAMA_GRETYPE_RULE_REF \/ token_type p = true \/ p = LLAMA_GRETYPE_CHAR_ANY
   end) ->
  symbol_start t.
Proof.
  intros [->|H] Hp; [done|]. split; intros ->; destruct prev as [p|]; try done;
    by destruct p, Hp as [?|[?|[?|?]]].
Qed.

Lemma ptr_start r : (r < length rules)%nat -> ptr_ok rules (r, 0%nat).
Proof.
  intros H. destruct (lookup_lt_is_Some_2 rules r H) as [rule Hr].
  destruct (wf_rule _ _ Hr) as [Hok _]. pose proof Hok as (body & E & Hb).
  destruct (lookup_lt_is_Some_2 rule 0) as [e He]; [rewrite E, length_app; simpl; lia|].
  exists e. split; [apply elem_at_ok; eauto|].
  destruct (rule_ok_lookup rule 0 e Hok He) as [[Ht _]|[_ Hf]].
  - by apply (symbol_start_intro None); [left|].
  - by apply (symbol_start_intro None); [right|].
Qed.

Lemma ptr_next p e :
  elem_at rules p = Ok e ->
  (ge_type e = LLAMA_GRETYPE_ALT \/ ge_type e = LLAMA_GRETYPE_RULE_REF \/ token_type (ge_type e) = true) ->
  ptr_ok rules (next p).
Proof.
  intros He Ht. destruct (elem_next p e He) as (e' & He' & Hf).
  { intros E. rewrite E in Ht. by destruct Ht as [?|[?|?]]. }
  exists e'. split; [done|]. eapply symbol_start_intro; [exact Hf|].
  destruct Ht as [->|[->|?]]; auto.
Qed.

Lemma is_end_ok p e : elem_at rules p = Ok e -> is_end_of_sequence rules p = Ok (end_type (ge_type e)).
Proof. intros H. unfold is_end_of_sequence. by rewrite H. Qed.
End wf.

(** ** The characters of a class *)

(** The members of the class that starts a list of elements ([None]: any character) and
    how many elements they take. *)
Fixpoint class_of (l : llama_grammar_rule) : list (option (Z * Z)) * nat :=
  let more l :=
    match l with
    | e :: _ => if is_type (ge_type e) LLAMA_GRETYPE_CHAR_ALT then class_of l else ([], 0%nat)
    | [] => ([], 0%nat)
    end in
  match l with
  | e :: ((e1 :: l') as r) =>
      if is_type (ge_type e1) LLAMA_GRETYPE_CHAR_RNG_UPPER then
        let m := more l' in (Some (ge_value e, ge_value e1) :: m.1, S (S m.2))
      else
        let m := more r in
        ((if is_type (ge_type e) LLAMA_GRETYPE_CHAR_ANY then None
          else Some (ge_value e, ge_value e)) :: m.1, S m.2)
  | _ => ([], 0%nat)
  end.

Definition in_member (c : Z) (m : option (Z * Z)) : bool :=
  match m with Some (lo, hi) => (lo <=? c) && (c <=? hi) | None => true end.
Definition in_class (c : Z) (l : list (option (Z * Z))) : bool := existsb (in_member c) l.

(** The elements from a pointer to the end of its rule. *)
Definition elems_from (rules : llama_grammar_rules) (p : elem_ptr) : llama_grammar_rule :=
  match rules !! p.1 with Some rule => drop p.2 rule | None => [] end.

Definition class_more (l : llama_grammar_rule) : list (option (Z * Z)) * nat :=
  match l with
  | e :: _ => if is_type (ge_type e) LLAMA_GRETYPE_CHAR_ALT then class_of l else ([], 0%nat)
  | [] => ([], 0%nat)
  end.

Lemma class_of_cons e e1 l :
  class_of (e :: e1 :: l) =
    if is_type (ge_type e1) LLAMA_GRETYPE_CHAR_RNG_UPPER
    then (Some (ge_value e, ge_value e1) :: (class_more l).1, S (S (class_more l).2))
    else ((if is_type (ge_type e) LLAMA_GRETYPE_CHAR_ANY then None
           else Some (ge_value e, ge_value e)) :: (class_more (e1 :: l)).1, S (class_more (e1 :: l)).2).
Proof. reflexivity. Qed.

(** Whether a character is accepted at a class, and where the class ends. *)
Definition class_accepts (rules : llama_grammar_rules) (p : elem_ptr) (c : Z) : bool :=
  match elems_from rules p with
  | e :: _ => Bool.eqb (in_class c (class_of (elems_from rules p)).1) (positive_char (ge_type e))
  | [] => false
  end.
Definition class_end (rules : llama_grammar_rules) (p : elem_ptr) : elem_ptr :=
  (p.1, (p.2 + (class_of (elems_from rules p)).2)%nat).

Lemma elems_from_cons rules p e :
  elem_at rules p = Ok e -> elems_from rules p = e :: elems_from rules (next p).
Proof.
  intros (rule & Hr & He)%elem_at_ok. unfold elems_from. simpl. rewrite Hr.
  by apply drop_S.
Qed.

Lemma elems_from_length rules p : (length (elems_from rules p) <= rule_len rules p.1)%nat.
Proof.
  unfold elems_from, rule_len. destruct (rules !! p.1); [|done]. rewrite length_drop. lia.
Qed.

Lemma single_in c e : in_member c (Some (ge_value e, ge_value e)) = (ge_value e =? c).
Proof.
  simpl. destruct (Z.eqb_spec (ge_value e) c) as [->|Hne]; [by rewrite Z.leb_refl|].
  apply andb_false_iff. rewrite !Z.leb_gt. lia.
Qed.

(** The element types met inside a class. *)
Definition class_elem (t : llama_gretype) : Prop :=
  char_start t = true \/ t = LLAMA_GRETYPE_CHAR_ALT.

Lemma is_type_spec t t' : is_type t t' = true <-> t = t'.
Proof. apply bool_decide_eq_true. Qed.

Section class.
Context (rules : llama_grammar_rules) (Hwf : grammar_wf rules).

Lemma class_elem_next p e :
  elem_at rules p = Ok e -> class_elem (ge_type e) ->
  exists e1, elem_at rules (next p) = Ok e1 /\
    (ge_type e1 = LLAMA_GRETYPE_CHAR_RNG_UPPER -> exists e2, elem_at rules (next (next p)) = Ok e2 /\
       ge_type e2 <> LLAMA_GRETYPE_CHAR_RNG_UPPER).
Proof.
  intros He Ht. destruct (elem_next rules Hwf p e He) as (e1 & H1 & _).
  { intros E. rewrite E in Ht. by destruct Ht. }
  exists e1. split; [done|]. intros E1.
  destruct (elem_next rules Hwf (next p) e1 H1) as (e2 & H2 & Hf); [by rewrite E1|].
  exists e2. split; [done|]. intros E2. rewrite E1, E2 in Hf. by destruct Hf.
Qed.

(** Unfolding of the class at a pointer: one member, and the rest if it goes on. *)
Lemma class_of_step p e e1 :
  elem_at rules p = Ok e -> elem_at rules (next p) = Ok e1 ->
  let rng := is_type (ge_type e1) LLAMA_GRETYPE_CHAR_RNG_UPPER in
  let q := if rng then next (next p) else next p in
  let m := if rng then Some (ge_value e, ge_value e1)
           else if is_type (ge_type e) LLAMA_GRETYPE_CHAR_ANY then None
           else Some (ge_value e, ge_value e) in
  forall e2, elem_at rules q = Ok e2 ->
  class_of (elems_from rules p) =
    if is_type (ge_type e2) LLAMA_GRETYPE_CHAR_ALT
    then let r := class_of (elems_from rules q) in
         (m :: r.1, (r.2 + (q.2 - p.2))%nat)
    else ([m], (q.2 - p.2)%nat).
Proof.
  intros He H1 rng q m e2 H2. rewrite (elems_from_cons rules p e He), (elems_from_cons rules _ e1 H1).
  rewrite class_of_cons. unfold q, m in *. clear q m. subst rng.
  destruct (is_type (ge_type e1) LLAMA_GRETYPE_CHAR_RNG_UPPER) eqn:Erng; cbn [next fst snd].
  - rewrite (elems_from_cons rules _ e2 H2). unfold class_more.
    destruct (is_type (ge_type e2) LLAMA_GRETYPE_CHAR_ALT); cbn [fst snd]; f_equal; lia.
  - assert (e2 = e1) as -> by congruence. rewrite (elems_from_cons rules _ e1 H1). unfold class_more.
    destruct (is_type (ge_type e1) LLAMA_GRETYPE_CHAR_ALT); cbn [fst snd]; f_equal; lia.
Qed.

(** Induction along a class: the property is shown at a pointer from the next member. *)
Lemma class_ind (P : elem_ptr -> llama_grammar_element -> Prop) :
  (forall p e e1 q m e2,
     elem_at rules p = Ok e -> class_elem (ge_type e) -> elem_at rules (next p) = Ok e1 ->
     (q, m) = (if is_type (ge_type e1) LLAMA_GRETYPE_CHAR_RNG_UPPER
               then (next (next p), Some (ge_value e, ge_value e1))
               else (next p, if is_type (ge_type e) LLAMA_GRETYPE_CHAR_ANY then None
                             else Some (ge_value e, ge_value e))) ->
     elem_at rules q = Ok e2 -> (p.2 < q.2)%nat -> q.1 = p.1 ->
     ge_type e2 <> LLAMA_GRETYPE_CHAR_RNG_UPPER ->
     (length (elems_from rules q) < length (elems_from rules p))%nat ->
     class_of (elems_from rules p) =
       (if is_type (ge_type e2) LLAMA_GRETYPE_CHAR_ALT
        then let r := class_of (elems_from rules q) in (m :: r.1, (r.2 + (q.2 - p.2))%nat)
        else ([m], (q.2 - p.2)%nat)) ->
     (ge_type e2 = LLAMA_GRETYPE_CHAR_ALT -> P q e2) -> P p e) ->
  forall p e, elem_at rules p = Ok e -> class_elem (ge_type e) -> P p e.
Proof.
  intros Hstep p. remember (length (elems_from rules p)) as n eqn:En.
  revert p En. induction (lt_wf n) as [n _ IH]. intros p -> e He Ht.
  destruct (class_elem_next p e He Ht) as (e1 & H1 & Hr).
  pose proof (class_of_step p e e1 He H1) as Hc. cbv zeta in Hc.
  pose proof (f_equal length (elems_from_cons rules p e He)) as L1.
  pose proof (f_equal length (elems_from_cons rules _ e1 H1)) as L2. simpl in L1, L2.
  destruct (is_type (ge_type e1) LLAMA_GRETYPE_CHAR_RNG_UPPER) eqn:Erng.
  - destruct Hr as (e2 & H2 & Hn2); [by apply is_type_spec|].
    pose proof (f_equal length (elems_from_cons rules _ e2 H2)) as L3. simpl in L3.
    apply (Hstep p e e1 (next (next p)) (Some (ge_value e, ge_value e1)) e2); try done.
    + by rewrite Erng.
    + simpl; lia.
    + lia.
    + by apply Hc.
    + intros Ea. apply (IH (length (elems_from rules (next (next p))))); [lia|done|done|by right].
  - eapply (Hstep p e e1 (next p) _ e1); try done.
    + by rewrite Erng.
    + simpl; lia.
    + intros E. by rewrite E in Erng.
    + lia.
    + by apply Hc.
    + intros Ea. apply (IH (length (elems_from rules (next p)))); [lia|done|done|by right].
Qed.

Lemma match_char_loop_ok c p e :
  elem_at rules p = Ok e -> class_elem (ge_type e) ->
  forall fuel found, (length (elems_from rules p) <= fuel)%nat ->
    match_char_loop fuel rules c p found =
      Ok (found || in_class c (class_of (elems_from rules p)).1, class_end rules p).
Proof.
  revert p e. apply (class_ind (fun p e => forall fuel found,
    (length (elems_from rules p) <= fuel)%nat -> _ = _)).
  intros p e e1 q m e2 He Ht H1 Hqm H2 Hlt Hq1 Hn Hlen Hc IH fuel found Hf.
  destruct fuel as [|fuel]; [lia|]. simpl. rewrite He, bind_ok, H1, bind_ok.
  unfold class_end. rewrite Hc.
  assert (E : (if is_type (ge_type e1) LLAMA_GRETYPE_CHAR_RNG_UPPER
      then (found || (ge_value e <=? c) && (c <=? ge_value e1), next (next p))
      else if is_type (ge_type e) LLAMA_GRETYPE_CHAR_ANY then (true, next p)
      else (found || (ge_value e =? c), next p)) = (found || in_member c m, q)).
  { destruct (is_type (ge_type e1) _); [by injection Hqm as -> ->|].
    destruct (is_type (ge_type e) _); injection Hqm as -> ->; simpl.
    - by rewrite orb_true_r.
    - by rewrite <- single_in. }
  rewrite E, H2, bind_ok.
  destruct (is_type (ge_type e2) LLAMA_GRETYPE_CHAR_ALT) eqn:Ea.
  - rewrite IH; [|by apply is_type_spec|lia]. unfold class_end. simpl.
    rewrite <- orb_assoc. do 2 f_equal. rewrite Hq1. f_equal. lia.
  - simpl. rewrite orb_false_r. do 2 f_equal. destruct q. simpl in *. subst. f_equal. lia.
Qed.

Lemma class_end_ok p e :
  elem_at rules p = Ok e -> class_elem (ge_type e) -> ptr_ok rules (class_end rules p).
Proof.
  revert p e. apply (class_ind (fun p e => ptr_ok rules (class_end rules p))).
  intros p e e1 q m e2 He Ht H1 Hqm H2 Hlt Hq1 Hn Hlen Hc IH. unfold class_end. rewrite Hc.
  destruct (is_type (ge_type e2) LLAMA_GRETYPE_CHAR_ALT) eqn:Ea; simpl.
  - replace (p.1, _) with (class_end rules q); [by apply IH, is_type_spec|].
    unfold class_end. rewrite Hq1. f_equal. lia.
  - replace (p.1, _) with q; [|destruct q; simpl in *; subst; f_equal; lia].
    exists e2. split; [done|]. split; [|done]. intros E. by rewrite E in Ea.
Qed.

Lemma match_char_ok p e c :
  elem_at rules p = Ok e -> char_start (ge_type e) = true ->
  match_char rules p c = Ok (class_accepts rules p c, class_end rules p).
Proof.
  intros He Ht. unfold match_char. rewrite He, bind_ok.
  assert (Ha : positive_char (ge_type e) || is_type (ge_type e) LLAMA_GRETYPE_CHAR_NOT = true) by exact Ht.
  rewrite Ha. change (assert_ true) with (Ok tt). rewrite bind_ok.
  rewrite (match_char_loop_ok c p e He); [|by left|].
  - simpl. unfold class_accepts. by rewrite (elems_from_cons rules p e He).
  - pose proof (elems_from_length rules p). lia.
Qed.
End class.

(** ** Partial UTF-8 sequences *)

(** Some code point of [low .. high] belongs to the member. *)
Definition meets (low high : Z) (m : option (Z * Z)) : bool :=
  match m with Some (lo, hi) => (lo <=? high) && (low <=? hi) | None => true end.

Section partial.
Context (rules : llama_grammar_rules) (Hwf : grammar_wf rules).

Lemma match_partial_loop_ok low high pos_char p e :
  elem_at rules p = Ok e -> class_elem (ge_type e) ->
  forall fuel, (length (elems_from rules p) <= fuel)%nat ->
    (ge_type e = LLAMA_GRETYPE_CHAR_ANY -> pos_char = true) ->
    match_partial_loop fuel rules low high pos_char p =
      Ok (if existsb (meets low high) (class_of (elems_from rules p)).1
          then pos_char else negb pos_char).
Proof.
  revert p e. apply (class_ind rules Hwf (fun p e => forall fuel,
    (length (elems_from rules p) <= fuel)%nat -> _ -> _ = _)).
  intros p e e1 q m e2 He Ht H1 Hqm H2 Hlt Hq1 Hn Hlen Hc IH fuel Hf Hany.
  destruct fuel as [|fuel]; [lia|]. simpl. rewrite He, bind_ok, H1, bind_ok, Hc.
  assert (Hcont : (e' ← elem_at rules q;
      (if is_type (ge_type e') LLAMA_GRETYPE_CHAR_ALT
       then match_partial_loop fuel rules low high pos_char q else Ok (negb pos_char)) : res bool) =
    Ok (if existsb (meets low high) (if is_type (ge_type e2) LLAMA_GRETYPE_CHAR_ALT
          then (class_of (elems_from rules q)).1 else []) then pos_char else negb pos_char)).
  { rewrite H2, bind_ok. destruct (is_type (ge_type e2) LLAMA_GRETYPE_CHAR_ALT) eqn:Ea; [|done].
    apply is_type_spec in Ea. apply IH; [done|lia|]. rewrite Ea. done. }
  set (tl := if is_type (ge_type e2) _ then (class_of _).1 else _) in Hcont.
  replace (existsb (meets low high) _) with (meets low high m || existsb (meets low high) tl).
  2: { unfold tl. by destruct (is_type (ge_type e2) _). }
  destruct (is_type (ge_type e1) LLAMA_GRETYPE_CHAR_RNG_UPPER); [injection Hqm as -> ->|].
  { change (meets low high (Some (ge_value e, ge_value e1))) with ((ge_value e <=? high) && (low <=? ge_value e1)).
    destruct ((ge_value e <=? high) && (low <=? ge_value e1)); [done|]. exact Hcont. }
  injection Hqm as -> ->. destruct (is_type (ge_type e) LLAMA_GRETYPE_CHAR_ANY) eqn:E.
  { simpl. by rewrite Hany by (by apply is_type_spec). }
  change (meets low high (Some (ge_value e, ge_value e))) with ((ge_value e <=? high) && (low <=? ge_value e)).
  rewrite (andb_comm (ge_value e <=? high)).
  destruct ((low <=? ge_value e) && (ge_value e <=? high)); [done|]. by rewrite H1 in Hcont.
Qed.

(** The answer for a partial sequence, in terms of the members of the class. *)
Lemma match_partial_char_ok p e partial :
  elem_at rules p = Ok e -> char_start (ge_type e) = true ->
  match_partial_char rules p partial =
    Ok (if (pu_n_remain partial <? 0) || ((pu_n_remain partial =? 1) && (pu_value partial <? 2))
        then false
        else let '(low, high) := partial_range partial in
             Bool.eqb (existsb (meets low high) (class_of (elems_from rules p)).1)
               (positive_char (ge_type e))).
Proof.
  intros He Ht. unfold match_partial_char. rewrite He, bind_ok.
  assert (Ha : positive_char (ge_type e) || is_type (ge_type e) LLAMA_GRETYPE_CHAR_NOT = true) by exact Ht.
  rewrite Ha. change (assert_ true) with (Ok tt). rewrite bind_ok.
  case_match; [done|]. destruct (partial_range partial) as [low high].
  rewrite (match_partial_loop_ok low high _ p e He).
  - by destruct (existsb _ _), (positive_char _).
  - by left.
  - pose proof (elems_from_length rules p). lia.
  - by intros ->.
Qed.
End partial.
