(* ===== verification/GrammarPartial.v ===== *)
(** What the grammar does with a character whose bytes are not complete yet: the answer of
    [llama_grammar_match_partial_char] in terms of the characters that the bytes begin. *)

From S2P Require Import Prelude GrammarParser GrammarParserOk Utf8 Grammar GrammarOk.
Local Open Scope Z_scope.

(** Division and remainder in [lia]. *)
Local Ltac Zify.zify_post_hook ::= Z.to_euclidean_division_equations.

(** The character [c] (of at most 21 bits, as four bytes can encode) starts with the bytes
    [pre] and goes on behind them. *)
Definition begins (pre : list Z) (c : Z) : Prop :=
  0 <= c < 2097152 /\ exists suf, suf <> [] /\ utf8_bytes c = pre ++ suf.

(** The decoder in front of the missing bytes of a character. *)
Lemma decode_prefix c b l1 l2 :
  encoded c b (l1 ++ l2) -> l2 <> [] ->
  decode_utf8 (str_of (b :: l1)) (mk_partial 0 0) =
    Ok ([0], mk_partial (shift_all (Z.land b (utf8_mask (Z.of_nat (length (l1 ++ l2))))) l1) (Z.of_nat (length l2))).
Proof.
  intros Henc Hne. unfold decode_utf8. rewrite str_of_length.
  pose proof (utf8_resume_app [] (b :: l1) 0 0 (Forall_nil_2 _) ltac:(done) ltac:(by left)) as Hr.
  cbn [app shift_all] in Hr. change (Z.of_nat 0) with 0 in Hr. cbn [pu_value pu_n_remain]. rewrite Hr. clear Hr.
  change (0 >? 0) with false. cbn [andb utf8_rounds length Nat.sub].
  rewrite (utf8_round_ok c b (l1 ++ l2)) by done.
  pose proof Henc as [_ _ Hcont _]. apply Forall_app in Hcont as [Hc1 Hc2].
  pose proof (utf8_tail_app l1 [] (Z.land b (utf8_mask (Z.of_nat (length (l1 ++ l2))))) (length (l1 ++ l2)) Hc1
    ltac:(rewrite length_app; lia) ltac:(by right)) as Ht.
  rewrite app_nil_r in Ht. rewrite Ht. clear Ht.
  rewrite length_app. replace (length l1 + length l2 - length l1)%nat with (length l2) by lia.
  assert (Hl2 : (0 < length l2)%nat) by (destruct l2; [done|simpl; lia]).
  rewrite (proj2 (Z.eqb_neq _ 0)) by lia. reflexivity.
Qed.

Lemma partial_range_eq v n :
  (n = 1 \/ n = 2 \/ n = 3) -> 0 <= v -> v * 2 ^ (n * 6) < 4294967296 ->
  partial_range (mk_partial v n) =
    (if v =? 0 then if n =? 2 then 2048 else if n =? 3 then 65536 else 0 else v * 2 ^ (n * 6),
     v * 2 ^ (n * 6) + (2 ^ (n * 6) - 1)).
Proof.
  intros Hn Hv Hb. unfold partial_range. cbn [pu_n_remain pu_value].
  rewrite Z.shiftl_mul_pow2 by lia. unfold u32. rewrite Z.mod_small by lia.
  assert (Hl : Z.lor (v * 2 ^ (n * 6)) (Z.shiftl 1 (n * 6) - 1) = v * 2 ^ (n * 6) + (2 ^ (n * 6) - 1)).
  { rewrite Z.shiftl_1_l.
    assert (E : Z.land (v * 2 ^ (n * 6)) (2 ^ (n * 6) - 1) = 0).
    { replace (2 ^ (n * 6) - 1) with (Z.ones (n * 6)) by (rewrite Z.ones_equiv; lia).
      rewrite Z.land_ones by lia. apply Z.mod_mul. pose proof (Z.pow_pos_nonneg 2 (n * 6)); lia. }
    pose proof (Z.add_lor_land (v * 2 ^ (n * 6)) (2 ^ (n * 6) - 1)). lia. }
  rewrite Hl. f_equal. destruct Hn as [->|[->| ->]]; cbn; destruct (Z.eqb_spec v 0); try (rewrite (proj2 (Z.eqb_neq _ 0)) by lia; done); by subst.
Qed.

(** Case distinction on the length of an encoding. *)
Local Ltac by_length c :=
  unfold utf8_bytes in *; destruct (Z.ltb_spec c 128); [|destruct (Z.ltb_spec c 2048); [|destruct (Z.ltb_spec c 65536)]].

(** The characters that have the bits [v] in front of [n] missing bytes. *)
Definition span (n : nat) (v c : Z) : Prop :=
  match n with
  | 1%nat => v * 64 <= c <= v * 64 + 63
  | 2%nat => (if v =? 0 then 2048 else v * 4096) <= c <= v * 4096 + 4095
  | 3%nat => (if v =? 0 then 65536 else v * 262144) <= c <= v * 262144 + 262143
  | _ => False
  end.

Local Ltac same_bytes k c :=
  let Hc := fresh "Hc" in let Hs := fresh "Hs" in let E := fresh "E" in let suf := fresh "suf" in
  split;
  [ intros [Hc (suf & Hs & E)]; by_length c; injection E; intros; subst;
    try (match goal with |- context [?a =? 0] => destruct (Z.eqb_spec a 0) end); (lia || done)
  | intros Hc;
    try (match type of Hc with context [?a =? 0] => destruct (Z.eqb_spec a 0) end);
    (split; [lia|]); exists (drop k (utf8_bytes c)); by_length c; try lia;
    (split; [done|]); cbn [drop app]; repeat (apply f_equal2; [lia|]); reflexivity ].

Lemma begins_iff pre suf c0 c :
  0 <= c0 < 2097152 -> utf8_bytes c0 = pre ++ suf -> pre <> [] -> suf <> [] ->
  begins pre c <-> span (length suf) (c0 / 64 ^ Z.of_nat (length suf)) c.
Proof.
  intros Hc0 E Hpre Hsuf. destruct pre as [|b0 pre]; [done|]. clear Hpre.
  destruct suf as [|x0 suf]; [done|]. clear Hsuf.
  by_length c0; cbn [app] in E.
  - destruct pre; discriminate E.
  - destruct pre as [|b1 pre]; [|destruct pre; discriminate E]. cbn [app] in E. injection E as <- <- <-.
    cbn [length]. change (64 ^ Z.of_nat 1) with 64. cbn [span]. same_bytes 1%nat c.
  - destruct pre as [|b1 [|b2 pre]]; [..|destruct pre; discriminate E]; cbn [app] in E; injection E; intros; subst.
    + cbn [length]. change (64 ^ Z.of_nat 2) with 4096. cbn [span]. same_bytes 1%nat c.
    + cbn [length]. change (64 ^ Z.of_nat 1) with 64. cbn [span]. same_bytes 2%nat c.
  - destruct pre as [|b1 [|b2 [|b3 pre]]]; [..|destruct pre; discriminate E]; cbn [app] in E; injection E; intros; subst.
    + cbn [length]. change (64 ^ Z.of_nat 3) with 262144. cbn [span]. same_bytes 1%nat c.
    + cbn [length]. change (64 ^ Z.of_nat 2) with 4096. cbn [span]. same_bytes 2%nat c.
    + cbn [length]. change (64 ^ Z.of_nat 1) with 64. cbn [span]. same_bytes 3%nat c.
Qed.

Lemma shift_all_value l : forall v,
  Forall cont l -> 0 <= v -> (v + 1) * 64 ^ Z.of_nat (length l) <= 4294967296 ->
  0 <= shift_all v l /\ (shift_all v l + 1 <= (v + 1) * 64 ^ Z.of_nat (length l)) /\
  shift_all v l / 64 ^ Z.of_nat (length l) = v.
Proof.
  induction l as [|b l IH]; intros v Hl Hv Hb.
  { cbn [length shift_all] in *. change (64 ^ Z.of_nat 0) with 1 in *. lia. }
  cbn [length shift_all] in *. rewrite Nat2Z.inj_succ, Z.pow_succ_r in * by lia.
  pose proof (Z.pow_pos_nonneg 64 (Z.of_nat (length l)) ltac:(lia) ltac:(lia)) as Hp.
  pose proof (Forall_inv Hl) as Hc. unfold cont in Hc.
  assert (Hv' : v < 67108864) by nia. rewrite shift_in_eq by lia.
  assert (Hm : 0 <= b `mod` 64 < 64) by lia.
  destruct (IH (v * 64 + b `mod` 64) (Forall_inv_tail Hl)) as (H1 & H2 & H3); [lia|nia|].
  split; [done|]. split; [nia|].
  rewrite (Z.mul_comm 64), <- Z.div_div by lia. rewrite H3. lia.
Qed.

(** The decoder state in front of the missing bytes of a code point. *)
Lemma decode_begins c0 pre suf :
  code_point c0 -> utf8_bytes c0 = pre ++ suf -> pre <> [] -> suf <> [] ->
  (1 <= length suf <= 3)%nat /\
  decode_utf8 (str_of pre) (mk_partial 0 0) =
    Ok ([0], mk_partial (c0 / 64 ^ Z.of_nat (length suf)) (Z.of_nat (length suf))).
Proof.
  intros Hc E Hpre Hsuf. destruct (utf8_bytes_encoded c0 Hc) as (b & l & Eb & Henc).
  destruct pre as [|b' l1]; [done|]. rewrite Eb in E. injection E as <- ->.
  assert (Hlen : (length (l1 ++ suf) <= 3)%nat).
  { pose proof (f_equal length Eb) as L. unfold utf8_bytes in L. repeat case_match; simpl in L; lia. }
  assert (Hs : (1 <= length suf)%nat) by (destruct suf; [done|simpl; lia]).
  split; [rewrite length_app in Hlen; lia|].
  rewrite (decode_prefix c0 b l1 suf Henc Hsuf). do 3 f_equal.
  destruct Henc as [_ _ Hcont Hval]. pose proof Hcont as [Hc1 Hc2]%Forall_app.
  rewrite shift_all_app in Hval. rewrite length_app in *.
  set (m := Z.land b _) in *.
  assert (Hm : 0 <= m < 128).
  { unfold m. rewrite <- Nat2Z.inj_add || idtac. rewrite mask_value by lia. rewrite Z.land_ones by lia.
    pose proof (Z.pow_le_mono_r 2 (7 - Z.of_nat (length l1 + length suf)) 7 ltac:(lia) ltac:(lia)).
    pose proof (Z.pow_pos_nonneg 2 (7 - Z.of_nat (length l1 + length suf)) ltac:(lia) ltac:(lia)).
    pose proof (Z.mod_pos_bound b (2 ^ (7 - Z.of_nat (length l1 + length suf))) ltac:(lia)). lia. }
  assert (Hk : forall k, (k <= 3)%nat -> 1 <= 64 ^ Z.of_nat k <= 262144).
  { intros [|[|[|[|k]]]] Hk; [by vm_compute..|lia]. }
  destruct (shift_all_value l1 m Hc1 ltac:(lia)) as (H1 & H2 & _); [pose proof (Hk (length l1) ltac:(lia)); nia|].
  destruct (shift_all_value suf (shift_all m l1) Hc2 H1) as (_ & _ & H3).
  - assert (Hk2 : 64 ^ Z.of_nat (length l1) * 64 ^ Z.of_nat (length suf) <= 262144).
    { rewrite <- Z.pow_add_r, <- Nat2Z.inj_add by lia. by apply Hk. }
    pose proof (Hk (length suf) ltac:(lia)). nia.
  - by rewrite Hval in H3.
Qed.

(** The members of a class are written with the lower bound first. *)
Definition ordered_member (m : option (Z * Z)) : Prop :=
  match m with Some (lo, hi) => lo <= hi | None => True end.

Lemma meets_iff low high cls :
  low <= high -> Forall ordered_member cls ->
  existsb (meets low high) cls = true <-> exists c, low <= c <= high /\ in_class c cls = true.
Proof.
  intros Hb Ho. unfold in_class. rewrite existsb_exists. split.
  - intros (m & Hin & Hm). rewrite Forall_forall in Ho. pose proof (Ho m Hin) as Hom.
    assert (H : exists c, low <= c <= high /\ in_member c m = true).
    { destruct m as [[lo hi]|]; [|exists low; split; [lia|done]]. simpl in *.
      apply andb_true_iff in Hm. rewrite !Z.leb_le in Hm. exists (Z.max low lo).
      rewrite andb_true_iff, !Z.leb_le. lia. }
    destruct H as (c & Hc & Hin'). exists c. split; [done|]. apply existsb_exists. by exists m.
  - intros (c & Hc & (m & Hin & Hm)%existsb_exists). exists m. split; [done|].
    destruct m as [[lo hi]|]; [|done]. simpl in *. rewrite andb_true_iff, !Z.leb_le in *. lia.
Qed.

(** The interval of [match_partial_char] is the span of the missing bytes. *)
Lemma partial_range_span c0 n :
  code_point c0 -> 128 <= c0 -> (1 <= n <= 3)%nat ->
  let v := c0 / 64 ^ Z.of_nat n in
  exists low high, partial_range (mk_partial v (Z.of_nat n)) = (low, high) /\ low <= high /\
    (forall c, span n v c <-> low <= c <= high) /\ ((Z.of_nat n =? 1) && (v <? 2) = false).
Proof.
  intros Hc Hc0 Hn v. unfold code_point in Hc.
  assert (E : 2 ^ (Z.of_nat n * 6) = 64 ^ Z.of_nat n).
  { change 64 with (2 ^ 6). rewrite <- Z.pow_mul_r by lia. f_equal. lia. }
  assert (Hp : 0 < 64 ^ Z.of_nat n) by (apply Z.pow_pos_nonneg; lia).
  rewrite partial_range_eq; [|lia|by apply Z.div_pos; lia|].
  - eexists _, _. split; [reflexivity|]. rewrite E. subst v.
    destruct n as [|[|[|[|n]]]]; [lia|..|lia]; cbn [span]; [change (64 ^ Z.of_nat 1) with 64|change (64 ^ Z.of_nat 2) with 4096
      |change (64 ^ Z.of_nat 3) with 262144]; 
      [change (Z.of_nat 1) with 1|change (Z.of_nat 2) with 2|change (Z.of_nat 3) with 3];
      cbn [Z.eqb Pos.eqb andb].
    + rewrite (proj2 (Z.eqb_neq (c0 / 64) 0)) by lia. split_and!; [lia|intros; lia|]. change (1 =? 1) with true. apply Z.ltb_ge, Z.div_le_lower_bound; lia.
    + destruct (Z.eqb_spec (c0 / 4096) 0); split_and!; try done; intros; lia.
    + destruct (Z.eqb_spec (c0 / 262144) 0); split_and!; try done; intros; lia.
  - rewrite E. unfold v. pose proof (Z.mul_div_le c0 (64 ^ Z.of_nat n) Hp). lia.
Qed.

(** ** The decoder's pending state *)

(** What the decoder leaves: no more than three bytes are missing, and the bits before them
    are those of a character of 22 bits; or an invalid sequence. *)
Definition partial_ok (p : llama_partial_utf8) : Prop :=
  pu_n_remain p = -1 \/ (0 <= pu_n_remain p <= 3 /\ 0 <= pu_value p /\ (pu_value p + 1) * 64 ^ pu_n_remain p <= 4194304).

Lemma partial_shift v n b : 0 < n <= 3 -> 0 <= v -> (v + 1) * 64 ^ n <= 4194304 -> 0 <= b ->
  0 <= n - 1 <= 3 /\ 0 <= shift_in v b /\ (shift_in v b + 1) * 64 ^ (n - 1) <= 4194304.
Proof.
  intros Hn Hv Hb Hb0. assert (E : 64 ^ n = 64 * 64 ^ (n - 1)) by (rewrite <- Z.pow_succ_r by lia; f_equal; lia).
  pose proof (Z.pow_pos_nonneg 64 (n - 1) ltac:(lia) ltac:(lia)) as Hp. rewrite E in Hb. clear E.
  assert (v < 67108864) by nia. rewrite shift_in_eq by lia. pose proof (Z.mod_pos_bound b 64 ltac:(lia)). generalize dependent (64 ^ (n - 1)). intros q. nia.
Qed.

Lemma byte_nonneg c : 0 <= byte c.
Proof. unfold byte. lia. Qed.

Lemma utf8_resume_partial s : forall v n s' v' n', utf8_resume s v n = Some (s', v', n') ->
  partial_ok (mk_partial v n) -> partial_ok (mk_partial v' n').
Proof.
  unfold partial_ok. cbn [pu_value pu_n_remain]. induction s as [|c s IH]; intros v n s' v' n'; simpl; [by intros [= <- <- <-]|].
  destruct ((byte c =? 0) || (n <=? 0)) eqn:E; [by intros [= <- <- <-]|]. apply orb_false_iff in E as [_ E%Z.leb_gt].
  destruct (negb _); [done|]. intros H [?|(Hn & Hv & Hb)]; [lia|]. apply IH in H; [done|]. right.
  apply partial_shift; try lia. apply byte_nonneg.
Qed.
Lemma utf8_tail_partial s : forall v n s' v' n', utf8_tail s v n = (s', v', n') ->
  partial_ok (mk_partial v n) -> partial_ok (mk_partial v' n').
Proof.
  unfold partial_ok. cbn [pu_value pu_n_remain]. induction s as [|c s IH]; intros v n s' v' n'; simpl; [by intros [= <- <- <-]|].
  destruct ((byte c =? 0) || (n <=? 0)) eqn:E; [by intros [= <- <- <-]|]. apply orb_false_iff in E as [_ E%Z.leb_gt].
  intros H [?|(Hn & Hv & Hb)]; [lia|]. apply IH in H; [done|]. right. apply partial_shift; try lia. apply byte_nonneg.
Qed.

Lemma utf8_rounds_partial fuel : forall st r, utf8_rounds fuel st = Ok (Some r) ->
  partial_ok (mk_partial (u8_value st) (u8_remain st)) -> partial_ok (mk_partial (u8_value r) (u8_remain r)).
Proof.
  induction fuel as [|fuel IH]; intros st r; [done|]. cbn [utf8_rounds]. unfold utf8_round.
  destruct (at_end (u8_pos st)); [by intros [= <-]|]. set (b := byte _). set (n := utf8_extra _).
  destruct (Z.ltb_spec n 0) as [|Hn]; [done|]. destruct (utf8_tail _ _ _) as [[s' v'] n'] eqn:Et. intros H _. eapply IH; [exact H|].
  cbn [u8_value u8_remain]. eapply utf8_tail_partial; [exact Et|]. unfold partial_ok. right. cbn [pu_value pu_n_remain].
  assert (Hn3 : n <= 3).
  { unfold n, utf8_extra. generalize (Z.to_nat (Z.shiftr b 4)). intros k. do 16 (destruct k as [|k]; [simpl; lia|]). simpl. destruct k; lia. }
  split; [lia|]. assert (Ev : (Z.shiftl 1 (7 - n) - 1) `mod` 256 = Z.ones (7 - n)).
  { assert (Hc : n = 0 \/ n = 1 \/ n = 2 \/ n = 3) by lia. by destruct Hc as [->|[->|[->| ->]]]. }
  rewrite Ev, Z.land_ones by lia. pose proof (Z.mod_pos_bound b (2 ^ (7 - n)) ltac:(by apply Z.pow_pos_nonneg; lia)) as Hm.
  split; [lia|]. generalize dependent (b `mod` 2 ^ (7 - n)). intros x Hm.
  assert (Hc : n = 0 \/ n = 1 \/ n = 2 \/ n = 3) by lia. destruct Hc as [E|[E|[E|E]]]; rewrite E in *; cbn in *; lia.
Qed.

(** Decoding keeps the pending state in range. *)
Lemma decode_partial_ok s p cps p' : decode_utf8 s p = Ok (cps, p') -> partial_ok p -> partial_ok p'.
Proof.
  unfold decode_utf8. destruct (utf8_resume s (pu_value p) (pu_n_remain p)) as [[[s' v] n]|] eqn:E.
  2: { intros [= _ <-] _. by left. }
  intros H Hp. destruct (utf8_rounds _ _) as [[st|]|?|?] eqn:Hr; [|injection H as _ <-; by left|discriminate H..]. injection H as _ <-.
  eapply utf8_rounds_partial; [exact Hr|]. cbn [u8_value u8_remain]. eapply utf8_resume_partial; [exact E|]. by destruct p.
Qed.

(** ** Completions *)

(** The character [c] has the bits of [p] in front of its missing bytes, and an encoding
    longer than those bytes. *)
Definition completes (p : llama_partial_utf8) (c : Z) : Prop :=
  0 < pu_n_remain p /\ pu_n_remain p < Z.of_nat (length (utf8_bytes c)) /\ c / 64 ^ pu_n_remain p = pu_value p.

(** Behind the first bytes of a code point, these are the characters that the bytes begin. *)
Lemma completes_begins c0 pre suf p c : code_point c0 -> utf8_bytes c0 = pre ++ suf -> pre <> [] -> suf <> [] ->
  decode_utf8 (str_of pre) (mk_partial 0 0) = Ok ([0], p) -> completes p c <-> begins pre c.
Proof.
  intros Hc0 E Hpre Hsuf Hd. destruct (decode_begins c0 pre suf Hc0 E Hpre Hsuf) as [Hn Hd']. rewrite Hd' in Hd. injection Hd as <-.
  unfold code_point in Hc0. rewrite (begins_iff pre suf c0 c) by (done || lia). unfold completes. cbn [pu_n_remain pu_value].
  assert (H128 : 128 <= c0).
  { destruct (Z.le_gt_cases 128 c0); [done|]. exfalso. unfold utf8_bytes in E.
    rewrite (proj2 (Z.ltb_lt c0 128)) in E by lia. destruct pre as [|? []], suf; done. }
  assert (Hl : (length suf = 1 \/ length suf = 2 \/ length suf = 3)%nat) by lia.
  unfold utf8_bytes. destruct Hl as [->|[->| ->]]; cbn [span];
    [change (64 ^ Z.of_nat 1) with 64; change (Z.of_nat 1) with 1|change (64 ^ Z.of_nat 2) with 4096; change (Z.of_nat 2) with 2
    |change (64 ^ Z.of_nat 3) with 262144; change (Z.of_nat 3) with 3];
    (destruct (Z.ltb_spec c 128); [|destruct (Z.ltb_spec c 2048); [|destruct (Z.ltb_spec c 65536)]]); cbn [length];
    try destruct (Z.eqb_spec (c0 / 4096) 0); try destruct (Z.eqb_spec (c0 / 262144) 0); lia.
Qed.

(** The ranges of a rule are written with the lower bound first. *)
Fixpoint ordered_ranges (l : llama_grammar_rule) : bool :=
  match l with
  | e :: ((u :: _) as l') => (negb (is_type (ge_type u) LLAMA_GRETYPE_CHAR_RNG_UPPER) || (ge_value e <=? ge_value u)) && ordered_ranges l'
  | _ => true
  end.

Lemma ordered_drop l n : ordered_ranges l = true -> ordered_ranges (drop n l) = true.
Proof.
  revert l. induction n as [|n IH]; intros [|e l] H; try done. apply IH. destruct l as [|u l]; [done|]. by apply andb_true_iff in H as [_ H].
Qed.
Lemma ordered_class l : ordered_ranges l = true -> Forall ordered_member (class_of l).1.
Proof.
  remember (length l) as n eqn:E. revert l E. induction n as [n IH] using lt_wf_ind. intros l -> Ho.
  destruct l as [|e [|e1 l]]; [constructor..|]. rewrite class_of_cons.
  assert (Hmore : forall l', (length l' < length (e :: e1 :: l))%nat -> ordered_ranges l' = true -> Forall ordered_member (class_more l').1).
  { intros [|e' l'] Hl Ho'; [constructor|]. cbn [class_more]. destruct (is_type _ _); [|constructor]. by apply (IH _ Hl _ eq_refl). }
  pose proof Ho as [Hu Ho1]%andb_true_iff. destruct (is_type (ge_type e1) LLAMA_GRETYPE_CHAR_RNG_UPPER).
  - constructor; [by apply Z.leb_le in Hu|]. apply Hmore; [cbn; lia|]. by apply (ordered_drop (e1 :: l) 1).
  - constructor; [destruct (is_type _ _); cbn; lia|]. apply Hmore; [cbn; lia|done].
Qed.

(** What a character element of a rule requires of an incomplete character: some completion
    is accepted, and for an inverse class every completion is. *)
Definition partial_accepted (rules : llama_grammar_rules) (p : elem_ptr) (e : llama_grammar_element) (partial : llama_partial_utf8) : Prop :=
  (exists c, completes partial c /\ class_accepts rules p c = true) /\
  (positive_char (ge_type e) = false -> forall c, completes partial c -> class_accepts rules p c = true).

Lemma completes_range p : partial_ok p -> pu_n_remain p <> 0 ->
  if (pu_n_remain p <? 0) || ((pu_n_remain p =? 1) && (pu_value p <? 2)) then forall c, ~ completes p c
  else (partial_range p).1 <= (partial_range p).2 /\ forall c, completes p c <-> (partial_range p).1 <= c <= (partial_range p).2.
Proof.
  destruct p as [v n]. unfold partial_ok, completes. cbn [pu_value pu_n_remain]. intros [->|(Hn & Hv & Hb)] Hn0; [cbn; intros c; lia|].
  rewrite (proj2 (Z.ltb_ge n 0)) by lia. cbn [orb].
  assert (Hr : partial_range (mk_partial v n) =
    (if v =? 0 then if n =? 2 then 2048 else if n =? 3 then 65536 else 0 else v * 2 ^ (n * 6), v * 2 ^ (n * 6) + (2 ^ (n * 6) - 1))).
  { apply partial_range_eq; [lia|done|]. assert (E : 2 ^ (n * 6) = 64 ^ n) by (change 64 with (2 ^ 6); rewrite <- Z.pow_mul_r by lia; f_equal; lia).
    rewrite E. nia. }
  rewrite Hr. clear Hr Hb. unfold utf8_bytes. assert (Hc : n = 1 \/ n = 2 \/ n = 3) by lia.
  destruct Hc as [->|[->| ->]]; cbn [Z.eqb Pos.eqb andb fst snd];
    [change (2 ^ (1 * 6)) with 64; change (64 ^ 1) with 64; destruct (Z.ltb_spec v 2) as [Hv2|Hv2]
    |change (2 ^ (2 * 6)) with 4096; change (64 ^ 2) with 4096|change (2 ^ (3 * 6)) with 262144; change (64 ^ 3) with 262144];
    [intros c|split; [|intros c]..]; destruct (Z.eqb_spec v 0);
    try (destruct (Z.ltb_spec c 128); [|destruct (Z.ltb_spec c 2048); [|destruct (Z.ltb_spec c 65536)]]; cbn [length]; lia); lia.
Qed.

Lemma match_partial_accepted rules p e partial :
  grammar_wf rules -> Forall (fun r => ordered_ranges r = true) rules -> elem_at rules p = Ok e -> char_start (ge_type e) = true ->
  partial_ok partial -> pu_n_remain partial <> 0 ->
  match_partial_char rules p partial = Ok true <-> partial_accepted rules p e partial.
Proof.
  intros Hwf Ho He Ht Hp Hn. rewrite (match_partial_char_ok rules Hwf p e _ He Ht). pose proof (completes_range _ Hp Hn) as Hr.
  unfold partial_accepted. destruct (_ || _).
  { split; [done|]. intros [(c & Hc & _) _]. by apply Hr in Hc. }
  destruct (partial_range partial) as [low high]. destruct Hr as [Hlh Hr]. cbn [fst snd] in *.
  assert (Hord : Forall ordered_member (class_of (elems_from rules p)).1).
  { apply ordered_class. unfold elems_from. destruct (rules !! p.1) as [r|] eqn:Er; [|done].
    apply ordered_drop. by apply (Forall_lookup_1 _ _ _ _ Ho Er). }
  pose proof (meets_iff low high _ Hlh Hord) as Hm.
  assert (Ha : forall c, class_accepts rules p c =
            Bool.eqb (in_class c (class_of (elems_from rules p)).1) (positive_char (ge_type e))).
  { intros c. unfold class_accepts. by rewrite (elems_from_cons rules p e He) at 1. }
  setoid_rewrite Ha. destruct (positive_char (ge_type e)).
  - split.
    + intros [= E%eqb_prop]. apply Hm in E as (c & Hc & Hi). split; [|done]. exists c. by rewrite Hi, Hr.
    + intros [(c & Hc%Hr & E%eqb_prop) _]. f_equal. apply eqb_true_iff, Hm. by exists c.
  - split.
    + intros [= E%eqb_prop]. assert (Hall : forall c, completes partial c -> Bool.eqb (in_class c (class_of (elems_from rules p)).1) false = true).
      { intros c Hc%Hr. apply eqb_true_iff, not_true_is_false. intros Hi. rewrite (proj2 Hm) in E; [done|by exists c]. }
      split; [|done]. exists low. split; [apply Hr; lia|]. apply Hall, Hr. lia.
    + intros [_ Hall]. f_equal. apply eqb_true_iff, not_true_is_false. intros (c & Hc%Hr & Hi)%Hm.
      specialize (Hall eq_refl c Hc). by rewrite Hi in Hall.
Qed.

(** ** Property *)

(** For the first bytes of a character, what [llama_grammar_match_partial_char] answers
    is decided by the characters that those bytes begin: on a class it is true iff one of
    them belongs to the class, but on an inverse class it is true only if all of them do
    (the comment above the function promises "some" in both cases). *)
Theorem partial_char_spec rules p e c0 pre suf partial :
  grammar_wf rules -> elem_at rules p = Ok e -> char_start (ge_type e) = true ->
  Forall ordered_member (class_of (elems_from rules p)).1 ->
  code_point c0 -> utf8_bytes c0 = pre ++ suf -> pre <> [] -> suf <> [] ->
  decode_utf8 (str_of pre) (mk_partial 0 0) = Ok ([0], partial) ->
  exists b, match_partial_char rules p partial = Ok b /\
    (b = true <-> if positive_char (ge_type e)
                  then exists c, begins pre c /\ class_accepts rules p c = true
                  else forall c, begins pre c -> class_accepts rules p c = true).
Proof.
  intros Hwf He Ht Ho Hc0 E Hpre Hsuf Hd.
  destruct (decode_begins c0 pre suf Hc0 E Hpre Hsuf) as [Hn Hd']. rewrite Hd' in Hd. injection Hd as <-.
  assert (H128 : 128 <= c0).
  { destruct (Z.le_gt_cases 128 c0); [done|]. exfalso. unfold utf8_bytes in E.
    rewrite (proj2 (Z.ltb_lt c0 128)) in E by lia. destruct pre as [|? []], suf; done. }
  destruct (partial_range_span c0 (length suf) Hc0 H128 Hn) as (low & high & Hr & Hlh & Hspan & Hv).
  rewrite (match_partial_char_ok rules Hwf p e _ He Ht). eexists. split; [reflexivity|].
  cbn [pu_n_remain pu_value]. rewrite (proj2 (Z.ltb_ge (Z.of_nat (length suf)) 0)) by lia.
  rewrite Hv, Hr. cbn [orb].
  assert (Hb : forall c, begins pre c <-> low <= c <= high).
  { intros c. rewrite <- Hspan. eapply begins_iff; try done. unfold code_point in Hc0. lia. }
  pose proof (meets_iff low high _ Hlh Ho) as Hm.
  assert (Ha : forall c, class_accepts rules p c =
            Bool.eqb (in_class c (class_of (elems_from rules p)).1) (positive_char (ge_type e))).
  { intros c. unfold class_accepts. by rewrite (elems_from_cons rules p e He) at 1. }
  destruct (positive_char (ge_type e)).
  - rewrite eqb_true_iff, Hm. split; intros (c & Hc & Hi); exists c; (split; [by apply Hb|]).
    + by rewrite Ha, Hi.
    + rewrite Ha in Hi. by destruct (in_class _ _).
  - rewrite eqb_true_iff. split.
    + intros Hf c Hc%Hb. rewrite Ha. apply eqb_true_iff. apply not_true_is_false. intros Hi.
      rewrite (proj2 Hm) in Hf; [done|by exists c].
    + intros H. apply not_true_is_false. intros (c & Hc & Hi)%Hm.
      apply Hb, H in Hc. by rewrite Ha, Hi in Hc.
Qed.

(** The first byte of the euro sign against [^x] and [^€]: the second excludes one of the
    characters that may follow, and is answered false. *)
Lemma partial_char_spec_witness :
  exists b, match_partial_char [[mk_elem LLAMA_GRETYPE_CHAR_NOT 8364; mk_elem LLAMA_GRETYPE_END 0]] (0, 0)%nat (mk_partial 2 2) = Ok b /\
    b = false.
Proof.
  set (rules := [[mk_elem LLAMA_GRETYPE_CHAR_NOT 8364; mk_elem LLAMA_GRETYPE_END 0]]).
  destruct (partial_char_spec rules (0, 0)%nat (mk_elem LLAMA_GRETYPE_CHAR_NOT 8364) 8364 [226] [130; 172] (mk_partial 2 2))
    as (b & Hb & Hiff).
  - constructor; [|constructor]. split.
    + exists [mk_elem LLAMA_GRETYPE_CHAR_NOT 8364]. split; reflexivity.
    + constructor; [discriminate|]. constructor; [discriminate|]. constructor.
  - reflexivity.
  - reflexivity.
  - constructor; [simpl; lia|constructor].
  - unfold code_point. lia.
  - reflexivity.
  - discriminate.
  - discriminate.
  - reflexivity.
  - exists b. split; [exact Hb|]. destruct b; [|reflexivity]. exfalso.
    pose proof (proj1 Hiff eq_refl 8364) as H. cbn [positive_char ge_type] in H.
    assert (H' : class_accepts rules (0, 0)%nat 8364 = true); [|discriminate H'].
    apply H. split; [lia|]. exists [130; 172]. split; [discriminate|reflexivity].
Defined.
