(* ===== verification/GrammarLang.v ===== *)
(** The language of a grammar and of the pushdown stacks, and the theorem that the stacks
    computed by [advance_stack], [accept] and [accept_token] represent it exactly. *)

From S2P Require Import Prelude StateExn GrammarParser GrammarParserOk Grammar GrammarOk.
Local Open Scope Z_scope.

(** ** The reference semantics *)

(** A word is made of characters (code points) and of whole tokens. *)
Inductive letter := Chr (c : Z) | Tok (t : Z).

Definition token_accepts (e : llama_grammar_element) (token : Z) : bool :=
  match ge_type e with
  | LLAMA_GRETYPE_TOKEN => ge_value e =? u32 token
  | LLAMA_GRETYPE_TOKEN_NOT => negb (ge_value e =? u32 token)
  | _ => false
  end.

Section language.
Context (rules : llama_grammar_rules).

(** The offsets at which the alternatives of a rule start. *)
Inductive alternate (r : nat) : nat -> Prop :=
  | alt_first : alternate r 0
  | alt_later o e : elem_at rules (r, o) = Ok e -> ge_type e = LLAMA_GRETYPE_ALT -> alternate r (S o).

(** [derives p w]: the elements from [p] to the end of its alternative derive [w]. *)
Inductive derives : elem_ptr -> list letter -> Prop :=
  | derives_end p e :
      elem_at rules p = Ok e -> end_type (ge_type e) = true -> derives p []
  | derives_char p e c w :
      elem_at rules p = Ok e -> char_start (ge_type e) = true ->
      class_accepts rules p c = true -> derives (class_end rules p) w ->
      derives p (Chr c :: w)
  | derives_token p e t w :
      elem_at rules p = Ok e -> token_accepts e t = true -> derives (next p) w ->
      derives p (Tok t :: w)
  | derives_ref p e o w1 w2 :
      elem_at rules p = Ok e -> ge_type e = LLAMA_GRETYPE_RULE_REF ->
      alternate (Z.to_nat (ge_value e)) o ->
      derives (Z.to_nat (ge_value e), o) w1 -> derives (next p) w2 ->
      derives p (w1 ++ w2).

(** A rule derives what one of its alternatives derives. *)
Definition rule_derives (r : nat) (w : list letter) : Prop :=
  exists o, alternate r o /\ derives (r, o) w.

(** A stack accepts the concatenation of what its pointers derive, from the top. *)
Inductive accepts : llama_grammar_stack -> list letter -> Prop :=
  | accepts_nil : accepts [] []
  | accepts_cons p s w1 w2 : derives p w1 -> accepts s w2 -> accepts (p :: s) (w1 ++ w2).

Definition accepted (stacks : llama_grammar_stacks) (w : list letter) : Prop :=
  exists s, s ∈ stacks /\ accepts s w.

(** The stacks that the matcher keeps: empty, or with a terminal on top; the pointers
    below are symbols that are still to be derived. *)
Definition pending (p : elem_ptr) : Prop :=
  exists e, elem_at rules p = Ok e /\ symbol_start (ge_type e) /\ end_type (ge_type e) = false.
Definition terminal_top (s : llama_grammar_stack) : Prop :=
  match s with
  | [] => True
  | p :: _ => exists e, elem_at rules p = Ok e /\
      (char_start (ge_type e) = true \/ token_type (ge_type e) = true)
  end.
Definition stack_ok (s : llama_grammar_stack) : Prop := Forall pending s /\ terminal_top s.

Lemma accepts_nil_inv w : accepts [] w <-> w = [].
Proof. split; [by inversion 1|intros ->; constructor]. Qed.

Lemma accepts_cons_inv p s w :
  accepts (p :: s) w <-> exists w1 w2, w = w1 ++ w2 /\ derives p w1 /\ accepts s w2.
Proof.
  split; [inversion 1; subst; eauto|]. intros (w1 & w2 & -> & ? & ?). by constructor.
Qed.

Lemma derives_end_inv p e w :
  elem_at rules p = Ok e -> end_type (ge_type e) = true -> derives p w <-> w = [].
Proof.
  intros He Ht. split; [|intros ->; by eapply derives_end].
  inversion 1 as [p' e' He' Ht'|p' e' c w' He' Ht'|p' e' t w' He' Ht'|p' e' o w1 w2 He' Ht']; subst; [done|..];
    assert (e' = e) as -> by congruence; exfalso;
    destruct e as [[] v]; try discriminate Ht; try discriminate Ht'.
Qed.

(** [push_unless_end] puts a pointer in front of a stack. *)
Lemma push_unless_end_ok p s :
  ptr_ok rules p -> exists s', push_unless_end rules p s = Ok s' /\
    (Forall pending s -> Forall pending s') /\ (length s' <= S (length s))%nat /\
    (forall w, accepts s' w <-> exists w1 w2, w = w1 ++ w2 /\ derives p w1 /\ accepts s w2).
Proof.
  intros (e & He & Hs). unfold push_unless_end. rewrite (is_end_ok rules p e He), bind_ok.
  destruct (end_type (ge_type e)) eqn:Et.
  - exists s. split_and!; [done|done|lia|]. intros w. split.
    + intros H. exists [], w. split; [done|]. split; [by eapply derives_end|done].
    + intros (w1 & w2 & -> & H1 & H2). apply (derives_end_inv p e) in H1; [|done..]. by subst.
  - exists (p :: s). split_and!; [done| |simpl; lia|].
    + intros H. constructor; [by exists e|done].
    + apply accepts_cons_inv.
Qed.

(** ** The loop over the alternatives *)

(** The offsets of the alternatives that start after an offset. *)
Fixpoint next_alts (l : llama_grammar_rule) (o : nat) : list nat :=
  match l with
  | [] => []
  | e :: l =>
      match ge_type e with
      | LLAMA_GRETYPE_END => []
      | LLAMA_GRETYPE_ALT => S o :: next_alts l (S o)
      | _ => next_alts l (S o)
      end
  end.
End language.

Section alternates.
Context (rules : llama_grammar_rules) (Hwf : grammar_wf rules).

Lemma elem_at_not_end_next p e :
  elem_at rules p = Ok e -> end_type (ge_type e) = false \/ ge_type e = LLAMA_GRETYPE_ALT ->
  exists e', elem_at rules (next p) = Ok e'.
Proof.
  intros He Ht. destruct (elem_next rules Hwf p e He) as (e' & H & _); [|eauto].
  intros E. rewrite E in Ht. by destruct Ht.
Qed.

Lemma scan_to_end_ok fuel p e :
  elem_at rules p = Ok e -> (length (elems_from rules p) <= fuel)%nat ->
  exists q e', scan_to_end fuel rules p = Ok q /\ elem_at rules q = Ok e' /\
    end_type (ge_type e') = true /\ q.1 = p.1 /\
    (length (elems_from rules q) <= length (elems_from rules p))%nat /\
    next_alts (elems_from rules p) p.2 = next_alts (elems_from rules q) q.2.
Proof.
  revert p e. induction fuel as [|fuel IH]; intros p e He Hf.
  { rewrite (elems_from_cons rules p e He) in Hf. simpl in Hf. lia. }
  simpl. rewrite (is_end_ok rules p e He), bind_ok.
  destruct (end_type (ge_type e)) eqn:Et; [exists p, e; by split_and!|].
  destruct (elem_at_not_end_next p e He) as [e1 H1]; [by left|].
  rewrite (elems_from_cons rules p e He) in Hf |- *. simpl in Hf.
  destruct (IH (next p) e1 H1 ltac:(lia)) as (q & e' & Hq & Hqe & Hqt & Hq1 & Hl & Ha).
  exists q, e'. split_and!; [done..|simpl; lia|]. rewrite <- Ha. simpl.
  by destruct e as [[] v].
Qed.

Lemma for_alternates_ok {S} (body : S -> elem_ptr -> res S) fuel p e s :
  elem_at rules p = Ok e -> (length (elems_from rules p) <= fuel)%nat ->
  for_alternates fuel rules body s p =
    (s ← body s p; foldM (fun s o => body s (p.1, o)) s (next_alts (elems_from rules p) p.2)).
Proof.
  revert p e s. induction fuel as [|fuel IH]; intros p e s He Hf.
  { rewrite (elems_from_cons rules p e He) in Hf. simpl in Hf. lia. }
  cbn [for_alternates]. destruct (body s p) as [s'| |]; [|done..]. rewrite !bind_ok.
  destruct (scan_to_end_ok (Datatypes.S (rule_len rules p.1)) p e He) as (q & e' & Hq & Hqe & Hqt & Hq1 & Hl & Ha).
  { pose proof (elems_from_length rules p). lia. }
  rewrite Hq, bind_ok, Hqe, bind_ok, Ha.
  rewrite (elems_from_cons rules q e' Hqe) in Hl |- *. simpl in Hl.
  destruct e' as [[] v]; try discriminate Hqt; [reflexivity|].
  destruct (elem_at_not_end_next q _ Hqe) as [e1 H1]; [by right|].
  cbn [ge_type next_alts]. change (is_type LLAMA_GRETYPE_ALT LLAMA_GRETYPE_ALT) with true. cbv iota.
  rewrite (IH (next q) e1 s' H1 ltac:(lia)). cbn [foldM next fst snd].
  rewrite <- Hq1. by destruct q.
Qed.

(** The offsets visited are the starts of the alternatives. *)
Lemma next_alts_alternate r o l :
  (exists p, elems_from rules (r, p) = l /\ p = o) ->
  forall x, x ∈ next_alts l o -> alternate rules r x.
Proof.
  revert o. induction l as [|e l IH]; intros o (p & Hl & ->) x Hx; [by apply elem_of_nil in Hx|].
  assert (He : elem_at rules (r, o) = Ok e).
  { unfold elems_from in Hl. simpl in Hl. destruct (rules !! r) as [rule|] eqn:Hr; [|done].
    apply elem_at_ok. exists rule. split; [done|]. simpl.
    by rewrite <- (Nat.add_0_r o), <- lookup_drop, Hl. }
  assert (Hl' : exists p, elems_from rules (r, p) = l /\ p = S o).
  { exists (S o). split; [|done]. rewrite (elems_from_cons rules _ e He) in Hl. by injection Hl. }
  simpl in Hx. destruct (ge_type e) eqn:Et; try (by eapply IH); [by apply elem_of_nil in Hx|].
  apply elem_of_cons in Hx as [->|Hx]; [by eapply alt_later|by eapply IH].
Qed.

Lemma alternate_next_alts r x :
  alternate rules r x -> x = 0%nat \/ x ∈ next_alts (elems_from rules (r, 0%nat)) 0.
Proof.
  destruct 1 as [|o e He Ht]; [by left|right].
  apply elem_at_ok in He as (rule & Hr & He). simpl in *.
  destruct (wf_rule rules Hwf r rule Hr) as [(body & E & Hb) _].
  unfold elems_from. simpl. rewrite Hr, drop_0. subst rule.
  assert (Hbody : body !! o = Some e).
  { apply lookup_app_Some in He as [?|[_ H]]; [done|].
    destruct (o - length body)%nat; simplify_eq/=. }
  clear He Hr. rewrite <- (Nat.add_0_r o) at 1. generalize 0%nat as k. generalize (@None llama_gretype) as prev.
  intros prev. revert prev Hb.
  enough (G : forall prev o k, body_ok prev body = true -> body !! o = Some e ->
    S (o + k) ∈ next_alts (body ++ [mk_elem LLAMA_GRETYPE_END 0]) k) by eauto.
  clear o Hbody. induction body as [|b body IH]; intros prev o k Hb Hl; [done|].
  simpl in Hb. apply andb_true_iff in Hb as [Hb1 Hb2]. destruct o as [|o]; simpl in Hl; simpl.
  - simplify_eq. rewrite Ht. left.
  - assert (H : S (S o + k) ∈ next_alts (body ++ [mk_elem LLAMA_GRETYPE_END 0]) (S k)).
    { replace (S o + k)%nat with (o + S k)%nat by lia. by eapply IH. }
    destruct (ge_type b); try exact H; [by destruct prev|]. by right.
Qed.
End alternates.

(** ** Advancing a stack *)

(** A computation that can only fail by running out of fuel. *)
Definition limited {A} (m : res A) (Q : A -> Prop) : Prop :=
  match m with Ok a => Q a | Fault OutOfFuel => True | _ => False end.

Lemma limited_ok {A} (a : A) (Q : A -> Prop) : Q a -> limited (Ok a) Q.
Proof. done. Qed.

Lemma limited_bind {A B} (m : res A) (k : A -> res B) (Q : B -> Prop) :
  limited m (fun a => limited (k a) Q) -> limited (m ≫= k) Q.
Proof. by destruct m as [a|msg|[]]. Qed.

Lemma limited_mono {A} (m : res A) (P Q : A -> Prop) :
  limited m P -> (forall a, P a -> Q a) -> limited m Q.
Proof. destruct m as [a|msg|[]]; simpl; auto. Qed.

Lemma limited_foldM {S B} (J : list B -> S -> Prop) (f : S -> B -> res S) done_ l s :
  J done_ s ->
  (forall l1 x s, x ∈ l -> J l1 s -> limited (f s x) (J (l1 ++ [x]))) ->
  limited (foldM f s l) (J (done_ ++ l)).
Proof.
  revert done_ s. induction l as [|x l IH]; intros done_ s H0 Hs; simpl.
  { by rewrite app_nil_r. }
  apply limited_bind. eapply limited_mono; [apply Hs; [left|exact H0]|].
  intros s' H'. replace (done_ ++ x :: l) with ((done_ ++ [x]) ++ l) by by rewrite <- app_assoc.
  apply IH; [done|]. intros l1 y s2 Hy. apply Hs. by right.
Qed.

Section advance.
Context (rules : llama_grammar_rules) (Hwf : grammar_wf rules).
Abbreviation accepts := (accepts rules).
Abbreviation accepted := (accepted rules).
Abbreviation derives := (derives rules).

(** [out] is [acc] with stacks that represent the language [L]. *)
Record extends (acc : llama_grammar_stacks) (L : list letter -> Prop) (out : llama_grammar_stacks) : Prop :=
  mk_extends {
    ex_lang : forall w, accepted out w <-> accepted acc w \/ L w;
    ex_incl : acc ⊆ out;
    ex_ok   : forall s, s ∈ out -> s ∈ acc \/ stack_ok rules s;
    ex_nodup : NoDup acc -> NoDup out;
    ex_some : out <> []
  }.

Lemma extends_lang acc L L' out :
  (forall w, L w <-> L' w) -> extends acc L out -> extends acc L' out.
Proof. intros E [H1 H2 H3 H4 H5]. split; [|done..]. intros w. by rewrite H1, E. Qed.

Lemma extends_trans acc L1 mid L2 out :
  extends acc L1 mid -> extends mid L2 out -> extends acc (fun w => L1 w \/ L2 w) out.
Proof.
  intros [A1 A2 A3 A4 A5] [B1 B2 B3 B4 B5]. split; [|by etrans| |auto|done].
  - intros w. rewrite B1, A1. tauto.
  - intros s Hs. destruct (B3 s Hs) as [Hs'|?]; auto.
Qed.

Lemma add_stack_extends acc s : stack_ok rules s -> extends acc (accepts s) (add_stack s acc).
Proof.
  intros Hs. unfold add_stack. case_decide as Hin; split; try done.
  - intros w. split; [by left|]. intros [H|H]; [done|by exists s].
  - by left.
  - by intros ->; apply elem_of_nil in Hin.
  - intros w. unfold accepted. split.
    + intros (t & [Ht|Ht]%elem_of_app & Hw); [left; by exists t|].
      apply list_elem_of_singleton in Ht as ->. by right.
    + intros [(t & Ht & Hw)|Hw]; [exists t|exists s]; (split; [|done]); set_solver.
  - set_solver.
  - intros t [Ht|Ht]%elem_of_app; [by left|]. apply list_elem_of_singleton in Ht as ->. by right.
  - intros Hnd. apply list_relations.list.NoDup_app. split_and!; [done| |apply NoDup_singleton].
    intros t Ht Ht'. by apply list_elem_of_singleton in Ht' as ->.
  - by destruct acc.
Qed.

(** What a stack derives through one alternative [o] of the rule [r] that its top, just
    before [p], refers to. *)
Definition via (r : nat) (p : elem_ptr) (rest : llama_grammar_stack) (o : nat) (w : list letter) : Prop :=
  exists w1 w2 w3, w = w1 ++ w2 ++ w3 /\ derives (r, o) w1 /\ derives p w2 /\ accepts rest w3.

Lemma accepts_ref p e rest w :
  elem_at rules p = Ok e -> ge_type e = LLAMA_GRETYPE_RULE_REF ->
  accepts (p :: rest) w <->
  exists o, alternate rules (Z.to_nat (ge_value e)) o /\ via (Z.to_nat (ge_value e)) (next p) rest o w.
Proof.
  intros He Ht. rewrite accepts_cons_inv. split.
  - intros (w1 & w2 & -> & Hd & Ha).
    inversion Hd as [p' e' He' Ht'|p' e' c w' He' Ht'|p' e' t w' He' Ht'|p' e' o u1 u2 He' Ht' Hal H1 H2]; subst;
      assert (e' = e) as -> by congruence.
    + by rewrite Ht in Ht'.
    + by rewrite Ht in Ht'.
    + unfold token_accepts in Ht'. by rewrite Ht in Ht'.
    + exists o. split; [done|]. exists u1, u2, w2. by rewrite app_assoc.
  - intros (o & Hal & w1 & w2 & w3 & -> & H1 & H2 & H3).
    exists (w1 ++ w2), w3. rewrite app_assoc. split_and!; [done| |done].
    by eapply derives_ref.
Qed.

Lemma alternate_ptr r o : (r < length rules)%nat -> alternate rules r o -> ptr_ok rules (r, o).
Proof.
  intros Hr [|o' e He Ht]; [by apply ptr_start|].
  apply (ptr_next rules Hwf (r, o') e); auto.
Qed.

(** The body of the loop over the alternatives. *)
Lemma alternative_stack r p rest o :
  ptr_ok rules (r, o) -> ptr_ok rules p -> Forall (pending rules) rest ->
  exists s, (s1 ← push_unless_end rules p rest; push_unless_end rules (r, o) s1) = Ok s /\
    Forall (pending rules) s /\ forall w, accepts s w <-> via r p rest o w.
Proof.
  intros Ho Hp Hrest.
  destruct (push_unless_end_ok rules p rest Hp) as (s1 & E1 & F1 & _ & L1).
  destruct (push_unless_end_ok rules (r, o) s1 Ho) as (s2 & E2 & F2 & _ & L2).
  exists s2. rewrite E1, bind_ok. split_and!; [done|auto|].
  intros w. rewrite L2. unfold via. split.
  - intros (w1 & w' & -> & H1 & (w2 & w3 & -> & H2 & H3)%L1). by exists w1, w2, w3.
  - intros (w1 & w2 & w3 & -> & H1 & H2 & H3). exists w1, (w2 ++ w3).
    split_and!; [done..|]. apply L1. eauto.
Qed.

Lemma pending_cases p :
  pending rules p -> exists e, elem_at rules p = Ok e /\
    (ge_type e = LLAMA_GRETYPE_RULE_REF \/ char_start (ge_type e) = true \/ token_type (ge_type e) = true).
Proof.
  intros (e & He & [H1 H2] & Ht). exists e. split; [done|].
  destruct (ge_type e); try done; auto.
Qed.

Lemma advance_stack_ok fuel stack acc :
  Forall (pending rules) stack ->
  limited (advance_stack fuel rules stack acc) (extends acc (accepts stack)).
Proof.
  revert stack acc. induction fuel as [|fuel IH]; intros stack acc Hst; [done|].
  destruct stack as [|p rest]; [by apply add_stack_extends|].
  pose proof (Forall_inv Hst) as Hp. pose proof (Forall_inv_tail Hst) as Hrest. destruct (pending_cases p Hp) as (e & He & Hcase).
  cbn [advance_stack]. rewrite He, bind_ok.
  destruct (decide (ge_type e = LLAMA_GRETYPE_RULE_REF)) as [Ht|Hnt].
  - rewrite Ht. set (r := Z.to_nat (ge_value e)).
    assert (Hr : (r < length rules)%nat) by (eapply elem_ref; eauto).
    assert (Hnext : ptr_ok rules (next p)) by (eapply ptr_next; eauto).
    destruct (ptr_start rules Hwf r Hr) as (e0 & He0 & _).
    set (body := fun (_ : llama_grammar_stacks) (_ : elem_ptr) => _).
    rewrite (for_alternates_ok rules Hwf body _ _ e0); [|done|].
    2: { pose proof (elems_from_length rules (r, 0%nat)). simpl in *. lia. }
    assert (Hbody : forall acc o, alternate rules r o ->
      limited (body acc (r, o)) (extends acc (via r (next p) rest o))).
    { intros acc' o Ho.
      destruct (alternative_stack r (next p) rest o) as (s & Es & Fs & Ls);
        [by apply alternate_ptr|done|done|].
      unfold body.
      destruct (push_unless_end rules (next p) rest) as [s1| |] eqn:E1; [|discriminate Es..].
      rewrite !bind_ok in *. rewrite Es, bind_ok.
      eapply limited_mono; [by apply IH|]. intros out. by apply extends_lang. }
    apply limited_bind. eapply limited_mono; [apply Hbody; constructor|]. intros acc1 H1.
    eapply limited_mono.
    { apply (limited_foldM (fun l out => extends acc (fun w => via r (next p) rest 0 w \/
          exists o, o ∈ l /\ via r (next p) rest o w) out) _ []).
      - eapply extends_lang; [|exact H1]. intros w. split; [by left|].
        intros [?|(o & Ho & _)]; [done|by apply elem_of_nil in Ho].
      - intros l1 o out Ho Hout. eapply limited_mono.
        + apply Hbody. eapply (next_alts_alternate rules r 0); [by exists 0%nat|exact Ho].
        + intros out' Hout'. eapply extends_lang; [|by eapply extends_trans].
          intros w. simpl. setoid_rewrite elem_of_app. setoid_rewrite list_elem_of_singleton.
          naive_solver. }
    intros out. apply extends_lang. intros w. rewrite (accepts_ref p e rest w He Ht). simpl. split.
    + intros [H|(o & Ho & H)]; [exists 0%nat; split; [constructor|done]|].
      exists o. split; [|done]. eapply (next_alts_alternate rules r 0); [by exists 0%nat|exact Ho].
    + intros (o & Ho & H). destruct (alternate_next_alts rules Hwf r o Ho) as [->|Hin]; [by left|].
      right. by exists o.
  - assert (Hok : stack_ok rules (p :: rest)).
    { split; [done|]. exists e. split; [done|]. destruct Hcase as [?|?]; [done|auto]. }
    destruct (ge_type e); try done; try (by apply add_stack_extends);
      by destruct Hcase as [?|[?|?]].
Qed.
End advance.

(** ** Accepting a character *)

Section accept.
Context (rules : llama_grammar_rules) (Hwf : grammar_wf rules).
Abbreviation accepts := (accepts rules).
Abbreviation accepted := (accepted rules).

(** As [extends], when there may be nothing to add. *)
Record grows (acc : llama_grammar_stacks) (L : list letter -> Prop) (out : llama_grammar_stacks) : Prop :=
  mk_grows {
    gr_lang : forall w, accepted out w <-> accepted acc w \/ L w;
    gr_ok   : forall s, s ∈ out -> s ∈ acc \/ stack_ok rules s;
    gr_nodup : NoDup acc -> NoDup out
  }.

Lemma extends_grows acc L out : extends rules acc L out -> grows acc L out.
Proof. by intros []. Qed.

Lemma grows_lang acc L L' out : (forall w, L w <-> L' w) -> grows acc L out -> grows acc L' out.
Proof. intros E [H1 H2 H3]. split; [|done..]. intros w. by rewrite H1, E. Qed.

Lemma grows_trans acc L1 mid L2 out :
  grows acc L1 mid -> grows mid L2 out -> grows acc (fun w => L1 w \/ L2 w) out.
Proof.
  intros [A1 A2 A3] [B1 B2 B3]. split; [| |auto].
  - intros w. rewrite B1, A1. tauto.
  - intros s Hs. destruct (B2 s Hs) as [Hs'|?]; auto.
Qed.

Lemma grows_none acc (L : list letter -> Prop) : (forall w, ~ L w) -> grows acc L acc.
Proof. intros H. split; [|by left|done]. intros w. specialize (H w). tauto. Qed.

(** A loop that grows the stacks by one language per element. *)
Lemma grows_foldM {B} (f : llama_grammar_stacks -> B -> res llama_grammar_stacks)
    (L : B -> list letter -> Prop) l acc :
  (forall acc x, x ∈ l -> limited (f acc x) (grows acc (L x))) ->
  limited (foldM f acc l) (grows acc (fun w => exists x, x ∈ l /\ L x w)).
Proof.
  intros H. apply (limited_foldM (fun l1 => grows acc (fun w => exists x, x ∈ l1 /\ L x w)) f []).
  - apply grows_none. intros w (x & Hx & _). by apply elem_of_nil in Hx.
  - intros l1 x s Hx Hs. eapply limited_mono; [by apply H|]. intros out Hout.
    eapply grows_lang; [|by eapply grows_trans]. intros w. simpl.
    setoid_rewrite elem_of_app. setoid_rewrite list_elem_of_singleton. naive_solver.
Qed.

(** The first letter of a stack with a terminal on top. *)
Lemma accepts_chr p e rest c w :
  elem_at rules p = Ok e -> char_start (ge_type e) = true ->
  accepts (p :: rest) (Chr c :: w) <->
  class_accepts rules p c = true /\
  exists w1 w2, w = w1 ++ w2 /\ derives rules (class_end rules p) w1 /\ accepts rest w2.
Proof.
  intros He Ht. rewrite accepts_cons_inv. split.
  - intros (w1 & w2 & E & Hd & Ha).
    inversion Hd as [p' e' He' Ht'|p' e' c' w' He' Ht' Hc Hd'|p' e' t w' He' Ht'|p' e' o u1 u2 He' Ht']; subst;
      assert (e' = e) as -> by congruence.
    + by destruct (ge_type e).
    + injection E as -> ->. split; [done|eauto].
    + done.
    + by rewrite Ht' in Ht.
  - intros (Hc & w1 & w2 & -> & H1 & H2). exists (Chr c :: w1), w2.
    split_and!; [done| |done]. by eapply derives_char.
Qed.

Lemma accepts_tok p e rest t w :
  elem_at rules p = Ok e -> token_type (ge_type e) = true ->
  accepts (p :: rest) (Tok t :: w) <->
  token_accepts e t = true /\
  exists w1 w2, w = w1 ++ w2 /\ derives rules (next p) w1 /\ accepts rest w2.
Proof.
  intros He Ht. rewrite accepts_cons_inv. split.
  - intros (w1 & w2 & E & Hd & Ha).
    inversion Hd as [p' e' He' Ht'|p' e' c' w' He' Ht' Hc Hd'|p' e' t' w' He' Ht'|p' e' o u1 u2 He' Ht']; subst;
      assert (e' = e) as -> by congruence.
    + by destruct (ge_type e).
    + done.
    + injection E as -> ->. split; [done|eauto].
    + by rewrite Ht' in Ht.
  - intros (Hc & w1 & w2 & -> & H1 & H2). exists (Tok t :: w1), w2.
    split_and!; [done| |done]. by eapply derives_token.
Qed.

(** A terminal on top accepts only letters of its kind. *)
Lemma accepts_chr_token p e rest c w :
  elem_at rules p = Ok e -> token_type (ge_type e) = true -> ~ accepts (p :: rest) (Chr c :: w).
Proof.
  intros He Ht (w1 & w2 & E & Hd & Ha)%accepts_cons_inv.
  inversion Hd as [p' e' He' Ht'|p' e' c' w' He' Ht' Hc Hd'|p' e' t' w' He' Ht'|p' e' o u1 u2 He' Ht']; subst;
    assert (e' = e) as -> by congruence; try done.
  - by destruct (ge_type e).
  - by destruct (ge_type e).
  - by rewrite Ht' in Ht.
Qed.

Lemma accepts_tok_char p e rest t w :
  elem_at rules p = Ok e -> char_start (ge_type e) = true -> ~ accepts (p :: rest) (Tok t :: w).
Proof.
  intros He Ht (w1 & w2 & E & Hd & Ha)%accepts_cons_inv.
  inversion Hd as [p' e' He' Ht'|p' e' c' w' He' Ht' Hc Hd'|p' e' t' w' He' Ht'|p' e' o u1 u2 He' Ht']; subst;
    assert (e' = e) as -> by congruence; try done.
  - by destruct (ge_type e).
  - unfold token_accepts in Ht'. by destruct (ge_type e).
  - by rewrite Ht' in Ht.
Qed.

Lemma char_not_token t : char_start t = true -> token_type t = false.
Proof. by destruct t. Qed.

(** Advancing the stack left after a terminal. *)
Lemma advance_after fuel q rest acc :
  ptr_ok rules q -> Forall (pending rules) rest ->
  limited (s ← push_unless_end rules q rest; advance_stack fuel rules s acc)
    (extends rules acc (fun w => exists w1 w2, w = w1 ++ w2 /\ derives rules q w1 /\ accepts rest w2)).
Proof.
  intros Hq Hrest. destruct (push_unless_end_ok rules q rest Hq) as (s & E & F & _ & L).
  rewrite E, bind_ok. eapply limited_mono; [apply (advance_stack_ok rules Hwf); auto|].
  intros out. by apply extends_lang.
Qed.

Lemma accept_chr_ok fuel stack c acc :
  stack_ok rules stack ->
  limited (accept_chr fuel rules stack c acc) (grows acc (fun w => accepts stack (Chr c :: w))).
Proof.
  intros [Hp Ht]. unfold accept_chr. destruct stack as [|p rest].
  { apply grows_none. intros w H. by inversion H. }
  destruct Ht as (e & He & Hc). rewrite He, bind_ok. destruct (token_type (ge_type e)) eqn:Et.
  { apply grows_none. intros w. by eapply accepts_chr_token. }
  destruct Hc as [Hc|?]; [|done].
  rewrite (match_char_ok rules Hwf p e c He Hc), bind_ok. cbn [fst snd].
  pose proof (fun w => accepts_chr p e rest c w He Hc) as Hacc.
  destruct (class_accepts rules p c).
  - eapply limited_mono.
    + apply advance_after; [eapply class_end_ok; eauto; by left|by apply Forall_inv_tail in Hp].
    + intros out Hout. eapply grows_lang; [|by apply extends_grows]. intros w. rewrite Hacc. tauto.
  - apply grows_none. intros w H%Hacc. by destruct H.
Qed.

(** Accepting a character takes the derivative of the language of the stacks. *)
Lemma accept_stacks_ok fuel stacks c :
  Forall (stack_ok rules) stacks ->
  limited (accept_stacks fuel rules stacks c) (fun out =>
    (forall w, accepted out w <-> accepted stacks (Chr c :: w)) /\
    Forall (stack_ok rules) out /\ NoDup out).
Proof.
  intros Hst. unfold accept_stacks. eapply limited_mono.
  { apply (grows_foldM _ (fun s w => accepts s (Chr c :: w))). intros acc s Hs.
    apply accept_chr_ok. rewrite Forall_forall in Hst. by apply Hst, list_elem_of_In. }
  intros out [H1 H2 H3]. split_and!.
  - intros w. rewrite H1. split; [|by right].
    intros [(s & Hs & _)|H]; [by apply elem_of_nil in Hs|exact H].
  - apply Forall_forall. intros s Hs%list_elem_of_In. destruct (H2 s Hs) as [Hin|?]; [|done].
    by apply elem_of_nil in Hin.
  - apply H3. constructor.
Qed.
End accept.

(** ** Accepting the characters of a piece, tokens, and starting a rule *)

(** The characters of a piece in front of a word. *)
Definition feed (chrs : list Z) (w : list letter) : list letter := map Chr chrs ++ w.

Section words.
Context (rules : llama_grammar_rules) (Hwf : grammar_wf rules).
Abbreviation accepts := (accepts rules).
Abbreviation accepted := (accepted rules).

(** The stacks represent the language [L]. *)
Definition stacks_for (L : list letter -> Prop) (stacks : llama_grammar_stacks) : Prop :=
  (forall w, accepted stacks w <-> L w) /\ Forall (stack_ok rules) stacks /\ NoDup stacks.

Lemma accepted_nil w : ~ accepted [] w.
Proof. intros (s & Hs & _). by apply elem_of_nil in Hs. Qed.

Lemma accept_points_ok fuel stack chrs :
  stack_ok rules stack ->
  limited (accept_points fuel rules stack chrs) (stacks_for (fun w => accepts stack (feed chrs w))).
Proof.
  intros Hs. unfold accept_points.
  enough (G : forall chrs L stacks, stacks_for L stacks ->
    limited (foldB (fun current_stacks chr =>
         next_stacks ← accept_stacks fuel rules current_stacks chr;
         match next_stacks with [] => Ok (inr next_stacks) | _ => Ok (inl next_stacks) end) stacks chrs)
      (fun r => stacks_for (fun w => L (feed chrs w)) (match r with inl s => s | inr s => s end))).
  { apply limited_bind. eapply limited_mono.
    - apply (G chrs (accepts stack)). split_and!; [|by constructor|apply NoDup_singleton].
      intros w. split; [|by exists stack; split; [left|]].
      intros (s & Hin & H). apply list_elem_of_singleton in Hin as ->. done.
    - intros [s|s] H; exact H. }
  clear stack chrs Hs. induction chrs as [|c chrs IH]; intros L stacks (H1 & H2 & H3); [done|].
  cbn [foldB]. apply limited_bind, limited_bind.
  eapply limited_mono; [by apply (accept_stacks_ok rules Hwf)|].
  intros out (O1 & O2 & O3). destruct out as [|s out].
  - split; [|done]. intros w. simpl. split; [by intros ?%accepted_nil|].
    intros H. apply H1 in H.
    assert (Hf : forall chrs w, ~ accepted stacks (feed (c :: chrs) w)).
    { intros cs v Hv. by apply O1, accepted_nil in Hv. }
    by apply Hf in H.
  - apply limited_ok. eapply limited_mono; [apply (IH (fun w => L (Chr c :: w)))|].
    + split; [|done]. intros w. by rewrite O1, H1.
    + intros r H. exact H.
Qed.

Lemma match_token_ok p e t :
  elem_at rules p = Ok e -> token_type (ge_type e) = true ->
  match_token rules p t = Ok (token_accepts e t).
Proof.
  intros He Ht. unfold match_token, token_accepts. rewrite He, bind_ok, Ht.
  change (assert_ true) with (Ok tt). rewrite bind_ok. by destruct (ge_type e).
Qed.

Lemma add_stacks_grows l acc :
  Forall (stack_ok rules) l -> grows rules acc (accepted l) (foldl (fun l s => add_stack s l) acc l).
Proof.
  revert acc. induction l as [|s l IH]; intros acc Hl; simpl.
  { apply grows_none. apply accepted_nil. }
  eapply grows_lang; [|eapply grows_trans; [apply extends_grows, add_stack_extends; by apply Forall_inv in Hl|
                                            apply IH; by apply Forall_inv_tail in Hl]].
  intros w. simpl. unfold GrammarLang.accepted. setoid_rewrite elem_of_cons. naive_solver.
Qed.

(** What a token lets a stack do: as a whole, or by its characters; a piece without a
    complete character keeps the words that go on with a character. *)
Definition by_chars (chrs : list Z) (L : list letter -> Prop) (w : list letter) : Prop :=
  L (feed chrs w) /\ (chrs = [] -> exists c w', w = Chr c :: w').
Definition after_token (t : Z) (chrs : list Z) (L : list letter -> Prop) (w : list letter) : Prop :=
  L (Tok t :: w) \/ by_chars chrs L w.

(** The first letter of what is fed. *)
Lemma by_chars_head chrs L w : by_chars chrs L w -> exists c w', feed chrs w = Chr c :: w'.
Proof. destruct chrs as [|c chrs]; intros [_ H]; [by apply H|by exists c, (feed chrs w)]. Qed.

Lemma accepts_head_chr p e rest w :
  elem_at rules p = Ok e -> char_start (ge_type e) = true -> accepts (p :: rest) w ->
  exists c w', w = Chr c :: w'.
Proof.
  intros He Ht (w1 & w2 & -> & Hd & _)%accepts_cons_inv.
  inversion Hd as [p' e' He' Ht'|p' e' c w He' Ht'|p' e' t w He' Ht'|p' e' o u1 u2 He' Ht']; subst;
    try (assert (e' = e) as -> by congruence).
  - by destruct (ge_type e).
  - by exists c, (w ++ w2).
  - unfold token_accepts in Ht'. by destruct (ge_type e).
  - by rewrite Ht' in Ht.
Qed.

Lemma accept_token_stack_ok fuel t chrs acc stack :
  stack_ok rules stack ->
  limited (accept_token_stack fuel rules t chrs acc stack)
    (grows rules acc (after_token t chrs (accepts stack))).
Proof.
  intros Hs. unfold accept_token_stack. destruct stack as [|p rest].
  { apply grows_none. intros w [H|H]; [by inversion H|]. pose proof (by_chars_head _ _ _ H) as (c & w' & E).
    destruct H as [H _]. rewrite E in H. by inversion H. }
  pose proof Hs as [Hp (e & He & Hc)]. rewrite He, bind_ok.
  destruct (token_type (ge_type e)) eqn:Et.
  - rewrite (match_token_ok p e t He Et), bind_ok.
    assert (Hiff : forall w, after_token t chrs (accepts (p :: rest)) w <->
      token_accepts e t = true /\ exists w1 w2, w = w1 ++ w2 /\ derives rules (next p) w1 /\ accepts rest w2).
    { intros w. rewrite <- (accepts_tok rules p e rest t w He Et). unfold after_token. split; [|by left].
      intros [H|H]; [done|]. pose proof (by_chars_head _ _ _ H) as (c & w' & E). destruct H as [H _].
      rewrite E in H. by apply (accepts_chr_token rules p e rest c w' He Et) in H. }
    destruct (token_accepts e t).
    + eapply limited_mono.
      * apply advance_after; [done|eapply ptr_next; eauto|by apply Forall_inv_tail in Hp].
      * intros out Hout. eapply grows_lang; [|by apply extends_grows]. intros w. rewrite Hiff. tauto.
    + apply grows_none. intros w H%Hiff. by destruct H.
  - destruct Hc as [Hc|?]; [|done]. apply limited_bind.
    eapply limited_mono; [by apply (accept_points_ok fuel _ chrs)|].
    intros cur (H1 & H2 & H3). apply limited_ok.
    eapply grows_lang; [|by apply add_stacks_grows]. intros w. rewrite H1. unfold after_token, by_chars. split.
    + intros H. right. split; [done|]. intros ->. by apply (accepts_head_chr p e rest).
    + intros [H|[H _]]; [|done]. by apply (accepts_tok_char rules p e rest t w He Hc) in H.
Qed.

Lemma accept_token_stacks_ok fuel t chrs stacks L :
  stacks_for L stacks ->
  limited (foldM (accept_token_stack fuel rules t chrs) [] stacks) (stacks_for (after_token t chrs L)).
Proof.
  intros (H1 & H2 & H3). eapply limited_mono.
  { apply (grows_foldM rules _ (fun s => after_token t chrs (accepts s))). intros acc s Hs.
    apply accept_token_stack_ok. rewrite Forall_forall in H2. by apply H2, list_elem_of_In. }
  intros out [G1 G2 G3]. split_and!.
  - intros w. rewrite G1. unfold after_token, by_chars. rewrite <- !H1. unfold GrammarLang.accepted. split.
    + intros [(s & Hs & _)|(s & Hs & [H|[H H']])]; [by apply elem_of_nil in Hs|left|right; split]; eauto.
    + intros [(s & Hs & H)|[(s & Hs & H) H']]; right; exists s; auto.
  - apply Forall_forall. intros s Hs%list_elem_of_In. destruct (G2 s Hs) as [Hin|?]; [|done].
    by apply elem_of_nil in Hin.
  - apply G3. constructor.
Qed.

(** The stacks at the start of a rule represent the rule. *)
Lemma initial_stacks_ok fuel r :
  (r < length rules)%nat ->
  limited (initial_stacks fuel rules r) (stacks_for (rule_derives rules r)).
Proof.
  intros Hr. unfold initial_stacks. destruct (lookup_lt_is_Some_2 rules r Hr) as [rule Hrule].
  unfold rd at 1. rewrite Hrule, bind_ok.
  destruct (ptr_start rules Hwf r Hr) as (e0 & He0 & _).
  set (body := fun (_ : llama_grammar_stacks) (_ : elem_ptr) => _).
  rewrite (for_alternates_ok rules Hwf body _ _ e0); [|done|].
  2: { pose proof (elems_from_length rules (r, 0%nat)). simpl in *. lia. }
  assert (Hbody : forall acc o, alternate rules r o ->
    limited (body acc (r, o)) (grows rules acc (derives rules (r, o)))).
  { intros acc o Ho. unfold body. eapply limited_mono.
    - apply advance_after; [done|by apply alternate_ptr|constructor].
    - intros out Hout. eapply grows_lang; [|by apply extends_grows]. intros w. split.
      + intros (w1 & w2 & -> & H & ->%accepts_nil_inv). by rewrite app_nil_r.
      + intros H. exists w, []. rewrite app_nil_r. split_and!; [done..|constructor]. }
  apply limited_bind. eapply limited_mono; [apply Hbody; constructor|]. intros out0 H0.
  eapply limited_mono.
  { apply (grows_foldM rules _ (fun o => derives rules (r, o))). intros acc o Ho. apply Hbody.
    eapply (next_alts_alternate rules r 0); [by exists 0%nat|exact Ho]. }
  intros out Hout. pose proof (grows_trans rules _ _ _ _ _ H0 Hout) as [G1 G2 G3]. split_and!.
  - intros w. rewrite G1. unfold rule_derives. split.
    + intros [H|[H|(o & Ho & H)]]; [by apply accepted_nil in H|exists 0%nat; split; [constructor|done]|].
      exists o. split; [|done]. eapply (next_alts_alternate rules r 0); [by exists 0%nat|exact Ho].
    + intros (o & Ho & H). right. destruct (alternate_next_alts rules Hwf r o Ho) as [->|Hin]; [by left|].
      right. by exists o.
  - apply Forall_forall. intros s Hs%list_elem_of_In. destruct (G2 s Hs) as [Hin|?]; [|done].
    by apply elem_of_nil in Hin.
  - apply G3. constructor.
Qed.

(** The end of generation is allowed exactly when the empty word is. *)
Lemma accepted_nil_iff stacks :
  Forall (stack_ok rules) stacks -> accepted stacks [] <-> [] ∈ stacks.
Proof.
  intros Hst. split; [|intros H; exists []; split; [done|constructor]].
  intros (s & Hs & H). destruct s as [|p rest]; [done|].
  rewrite Forall_forall in Hst. destruct (Hst _ (proj1 (list_elem_of_In _ _) Hs)) as [_ (e & He & Hc)].
  apply accepts_cons_inv in H as (w1 & w2 & E & Hd & _).
  symmetry in E. apply app_eq_nil in E as [-> _].
  inversion Hd as [p' e' He' Ht'| | |p' e' o u1 u2 He' Ht']; subst;
    assert (e' = e) as -> by congruence.
  - by destruct (ge_type e), Hc.
  - rewrite Ht' in Hc. by destruct Hc.
Qed.
End words.
