(* ===== verification/GrammarTerm.v ===== *)
(** Termination of the advance of the stacks: when no rule is left recursive (through
    rules that derive the empty word), every stack is advanced with some amount of fuel;
    and a grammar on which the recursion does not end although the left-recursion check
    of the program accepts it. *)

From S2P Require Import Prelude StateExn GrammarParser GrammarParserOk Grammar GrammarOk GrammarLang.
Local Open Scope Z_scope.

(** ** More fuel does not change a result *)

Section fuel.
Context (rules : llama_grammar_rules).

Lemma foldM_Ok_mono {S B} (f g : S -> B -> res S) l s s' :
  (forall s x s', f s x = Ok s' -> g s x = Ok s') -> foldM f s l = Ok s' -> foldM g s l = Ok s'.
Proof.
  intros H. revert s. induction l as [|x l IH]; intros s; simpl; [done|].
  destruct (f s x) as [s1| |] eqn:E; [|done..]. rewrite (H _ _ _ E). apply IH.
Qed.

Lemma for_alternates_mono {S} (f g : S -> elem_ptr -> res S) n p s s' :
  (forall s x s', f s x = Ok s' -> g s x = Ok s') ->
  for_alternates n rules f s p = Ok s' -> for_alternates n rules g s p = Ok s'.
Proof.
  intros H. revert p s. induction n as [|n IH]; intros p s; cbn [for_alternates]; [done|].
  destruct (f s p) as [s1| |] eqn:E; [|done..]. rewrite (H _ _ _ E), !bind_ok.
  destruct (scan_to_end _ _ _) as [q| |]; [|done..]. rewrite !bind_ok.
  destruct (elem_at _ _) as [e| |]; [|done..]. rewrite !bind_ok. case_match; [apply IH|done].
Qed.

Lemma advance_stack_mono n k stack acc out :
  (n <= k)%nat -> advance_stack n rules stack acc = Ok out -> advance_stack k rules stack acc = Ok out.
Proof.
  revert k stack acc out. induction n as [|n IH]; intros k stack acc out Hle; [done|].
  destruct k as [|k]; [lia|]. cbn [advance_stack]. destruct stack as [|p rest]; [done|].
  destruct (elem_at rules p) as [e| |]; [|done..]. rewrite !bind_ok.
  destruct (ge_type e); try done. apply for_alternates_mono. intros s x s'.
  destruct (push_unless_end rules (next p) rest) as [s1| |]; [|done..]. rewrite !bind_ok.
  destruct (push_unless_end rules x s1) as [s2| |]; [|done..]. rewrite !bind_ok.
  apply IH. lia.
Qed.
End fuel.

(** ** No left recursion, no infinite advance *)

Section termination.
Context (rules : llama_grammar_rules) (Hwf : grammar_wf rules).

(** [left_ref p r]: from [p], the rule [r] is reached before any character. *)
Inductive left_ref : elem_ptr -> nat -> Prop :=
  | left_here p e :
      elem_at rules p = Ok e -> ge_type e = LLAMA_GRETYPE_RULE_REF -> left_ref p (Z.to_nat (ge_value e))
  | left_next p e r :
      elem_at rules p = Ok e -> ge_type e = LLAMA_GRETYPE_RULE_REF ->
      rule_derives rules (Z.to_nat (ge_value e)) [] -> left_ref (next p) r -> left_ref p r.

Definition left_calls (r' r : nat) : Prop := exists o, alternate rules r o /\ left_ref (r, o) r'.

Definition no_left_recursion : Prop := well_founded left_calls.

(** One call of the recursion of [advance_stack], as a step on stacks. *)
Definition expands (s' s : llama_grammar_stack) : Prop :=
  match s with
  | [] => False
  | p :: rest => exists e o, elem_at rules p = Ok e /\ ge_type e = LLAMA_GRETYPE_RULE_REF /\
      alternate rules (Z.to_nat (ge_value e)) o /\
      (s1 ← push_unless_end rules (next p) rest;
       push_unless_end rules (Z.to_nat (ge_value e), o) s1) = Ok s'
  end.

Definition tame (p : elem_ptr) : Prop :=
  forall rest s, (derives rules p [] -> Acc expands rest) ->
    push_unless_end rules p rest = Ok s -> Acc expands s.

Lemma terminal_acc p e rest :
  elem_at rules p = Ok e -> ge_type e <> LLAMA_GRETYPE_RULE_REF -> Acc expands (p :: rest).
Proof.
  intros He Ht. constructor. intros s' (e' & o & He' & Ht' & _). congruence.
Qed.

Lemma tame_seq n p e :
  elem_at rules p = Ok e -> (length (elems_from rules p) <= n)%nat ->
  (forall r o, left_ref p r -> alternate rules r o -> tame (r, o)) -> tame p.
Proof.
  revert p e. induction n as [|n IH]; intros p e He Hn Hl rest s Hrest Hs.
  { rewrite (elems_from_cons rules p e He) in Hn. simpl in Hn. lia. }
  unfold push_unless_end in Hs. rewrite (is_end_ok rules p e He), bind_ok in Hs.
  destruct (end_type (ge_type e)) eqn:Et; injection Hs as <-.
  { apply Hrest. by eapply derives_end. }
  destruct (decide (ge_type e = LLAMA_GRETYPE_RULE_REF)) as [Hr|Hr]; [|by eapply terminal_acc].
  constructor. intros s' (e' & o & He' & _ & Ho & Hs'). assert (e' = e) as -> by congruence.
  destruct (ptr_next rules Hwf p e He) as (e1 & He1 & _); [auto|].
  destruct (push_unless_end rules (next p) rest) as [s1| |] eqn:E1; [|discriminate Hs'..].
  rewrite bind_ok in Hs'.
  apply (Hl (Z.to_nat (ge_value e)) o (left_here p e He Hr) Ho s1 s'); [|exact Hs'].
  intros Hnull. apply (IH (next p) e1) with (rest := rest).
  - done.
  - rewrite (elems_from_cons rules p e He) in Hn. simpl in Hn. lia.
  - intros r o' Hr'. apply Hl. eapply left_next; eauto. by exists o.
  - intros H2. apply Hrest. by apply (derives_ref rules p e o [] []).
  - exact E1.
Qed.

Lemma tame_all : no_left_recursion -> forall r o, (r < length rules)%nat -> alternate rules r o -> tame (r, o).
Proof.
  intros Hn r. induction (Hn r) as [r _ IH]. intros o Hr Ho.
  destruct (alternate_ptr rules Hwf r o Hr Ho) as (e & He & _).
  apply (tame_seq (length (elems_from rules (r, o))) _ e); [done|done|].
  intros r' o' Hl Ho'. apply IH; [by exists o| |done].
  clear -Hl Hwf. induction Hl; [by eapply elem_ref|done].
Qed.

Lemma stack_acc stack : no_left_recursion -> Forall (pending rules) stack -> Acc expands stack.
Proof.
  intros Hn. induction stack as [|p rest IH]; intros Hst; [by constructor; intros s []|].
  pose proof (Forall_inv Hst) as (e & He & Hs & Ht).
  assert (Hp : tame p).
  { apply (tame_seq (length (elems_from rules p)) p e); [done|done|].
    intros r o Hl Ho. apply tame_all; [done| |done].
    clear -Hl Hwf. induction Hl; [by eapply elem_ref|done]. }
  apply (Hp rest); [intros _; apply IH; by apply Forall_inv_tail in Hst|].
  unfold push_unless_end. by rewrite (is_end_ok rules p e He), bind_ok, Ht.
Qed.

(** Finitely many stacks have a common amount of fuel. *)
Lemma common_fuel {A} (P : A -> nat -> Prop) (l : list A) :
  (forall x n k, P x n -> (n <= k)%nat -> P x k) -> (forall x, x ∈ l -> exists n, P x n) ->
  exists n, forall x, x ∈ l -> P x n.
Proof.
  intros Hm. induction l as [|x l IH]; intros H; [by exists 0%nat; intros x ?%elem_of_nil|].
  destruct (H x) as [n1 H1]; [by left|]. destruct IH as [n2 H2]; [intros; apply H; by right|].
  exists (n1 + n2)%nat. intros y [->|Hy]%elem_of_cons; eapply Hm; eauto; lia.
Qed.

Lemma foldM_total {S B} (f : S -> B -> res S) l s :
  (forall s x, x ∈ l -> exists s', f s x = Ok s') -> exists s', foldM f s l = Ok s'.
Proof.
  revert s. induction l as [|x l IH]; intros s H; simpl; [eauto|].
  destruct (H s x) as [s1 E]; [by left|]. rewrite E, bind_ok. apply IH. intros. apply H. by right.
Qed.

Definition enough (stack : llama_grammar_stack) (n : nat) : Prop :=
  forall acc, exists out, advance_stack n rules stack acc = Ok out.

Lemma enough_mono stack n k : enough stack n -> (n <= k)%nat -> enough stack k.
Proof.
  intros H Hle acc. destruct (H acc) as [out E]. exists out. by eapply advance_stack_mono.
Qed.

Lemma acc_enough stack : Acc expands stack -> Forall (pending rules) stack -> exists n, enough stack n.
Proof.
  intros Hacc. induction Hacc as [stack _ IH]. intros Hst.
  destruct stack as [|p rest]; [exists 1%nat; intros acc; by eexists|].
  destruct (Forall_inv Hst) as (e & He & Hss & Ht).
  destruct (decide (ge_type e = LLAMA_GRETYPE_RULE_REF)) as [Hr|Hr].
  2: { exists 1%nat. intros acc. cbn [advance_stack]. rewrite He, bind_ok.
       destruct Hss. destruct (ge_type e); try done; by eexists. }
  set (r := Z.to_nat (ge_value e)).
  assert (Hlt : (r < length rules)%nat) by (eapply elem_ref; eauto).
  assert (Hnext : ptr_ok rules (next p)) by (eapply ptr_next; eauto).
  set (alts := 0%nat :: next_alts (elems_from rules (r, 0%nat)) 0).
  assert (Halts : forall o, o ∈ alts -> alternate rules r o).
  { intros o [->|Ho]%elem_of_cons; [constructor|].
    eapply (next_alts_alternate rules r 0); [by exists 0%nat|exact Ho]. }
  destruct (common_fuel (fun o n => forall acc, exists out,
    (s1 ← push_unless_end rules (next p) rest; s2 ← push_unless_end rules (r, o) s1;
     advance_stack n rules s2 acc) = Ok out) alts) as [n Hn].
  { intros o n k H Hle acc. destruct (H acc) as [out E]. exists out.
    destruct (push_unless_end rules (next p) rest) as [s1| |]; [|done..]. rewrite !bind_ok in *.
    destruct (push_unless_end rules (r, o) s1) as [s2| |]; [|done..]. rewrite !bind_ok in *.
    by eapply advance_stack_mono. }
  { intros o Ho.
    destruct (alternative_stack rules r (next p) rest o) as (s & Es & Fs & _);
      [by apply alternate_ptr; auto|done|by apply Forall_inv_tail in Hst|].
    destruct (IH s) as [n Hn]; [by exists e, o; auto|done|].
    exists n. intros acc. destruct (push_unless_end rules (next p) rest) as [s1| |]; [|done..].
    rewrite !bind_ok in *. rewrite Es, bind_ok. apply Hn. }
  exists (S n). intros acc. cbn [advance_stack]. rewrite He, bind_ok, Hr.
  destruct (ptr_start rules Hwf r Hlt) as (e0 & He0 & _).
  set (body := fun (_ : llama_grammar_stacks) (_ : elem_ptr) => _).
  rewrite (for_alternates_ok rules Hwf body _ _ e0); [|done|].
  2: { pose proof (elems_from_length rules (r, 0%nat)). unfold r in *. simpl in *. lia. }
  destruct (Hn 0%nat ltac:(by left) acc) as [out0 E0]. assert (Eb : body acc (r, 0%nat) = Ok out0) by exact E0.
  fold r. rewrite Eb, bind_ok.
  apply foldM_total. intros s o Ho. apply (Hn o); by right.
Qed.

Lemma advance_total stack :
  no_left_recursion -> Forall (pending rules) stack -> exists n, enough stack n.
Proof. intros Hn Hst. apply acc_enough; [by apply stack_acc|done]. Qed.
End termination.

(** ** Accepting tokens ends *)

(** A computation with fuel that ends: with enough fuel the result is always the same. *)
Definition settled {A} (f : nat -> res A) : Prop := exists n a, forall k, (n <= k)%nat -> f k = Ok a.

Lemma settled_ok {A} (a : A) : settled (fun _ => Ok a).
Proof. by exists 0%nat, a. Qed.

Lemma settled_bind {A B} (m : nat -> res A) (h : nat -> A -> res B) (Q : A -> Prop) :
  settled m -> (forall k, limited (m k) Q) -> (forall a, Q a -> settled (fun k => h k a)) ->
  settled (fun k => m k ≫= h k).
Proof.
  intros (n & a & Hm) HQ Hh. pose proof (HQ n) as Qa. rewrite (Hm n) in Qa by lia. simpl in Qa.
  destruct (Hh a Qa) as (n' & b & Hb). exists (Nat.max n n'), b. intros k Hk.
  rewrite Hm, bind_ok by lia. apply Hb. lia.
Qed.

Lemma settled_foldM {S B} (f : nat -> S -> B -> res S) l : forall s,
  (forall s x, x ∈ l -> settled (fun k => f k s x)) -> settled (fun k => foldM (f k) s l).
Proof.
  induction l as [|x l IH]; intros s H; simpl; [apply settled_ok|].
  destruct (H s x) as (n & a & Ha); [by left|].
  destruct (IH a) as (n' & b & Hb); [intros s' y Hy; apply H; by right|].
  exists (Nat.max n n'), b. intros k Hk. rewrite Ha, bind_ok by lia. apply Hb. lia.
Qed.

Section accepting.
Context (rules : llama_grammar_rules) (Hwf : grammar_wf rules) (Hlr : no_left_recursion rules).

Lemma advance_settled stack acc : Forall (pending rules) stack -> settled (fun k => advance_stack k rules stack acc).
Proof.
  intros Hs. destruct (advance_total rules Hwf stack Hlr Hs) as (n & Hn). destruct (Hn acc) as (out & Ho).
  exists n, out. intros k Hk. by apply (advance_stack_mono rules n).
Qed.

Lemma push_advance_settled q rest acc :
  ptr_ok rules q -> Forall (pending rules) rest ->
  settled (fun k => s ← push_unless_end rules q rest; advance_stack k rules s acc).
Proof.
  intros Hq Hr. destruct (push_unless_end_ok rules q rest Hq) as (s & E & Hs & _).
  rewrite E. apply advance_settled. by apply Hs.
Qed.

Lemma accept_chr_settled stack c acc : stack_ok rules stack -> settled (fun k => accept_chr k rules stack c acc).
Proof.
  intros [Hp Ht]. destruct stack as [|p rest]; [apply settled_ok|]. destruct Ht as (e & He & Hc).
  unfold accept_chr. rewrite He. destruct (token_type (ge_type e)) eqn:Et.
  { exists 0%nat, acc. intros k _. by rewrite bind_ok, Et. }
  destruct Hc as [Hc|]; [|done].
  destruct (class_accepts rules p c) eqn:Ea.
  2:{ exists 0%nat, acc. intros k _. rewrite bind_ok, Et, (match_char_ok rules Hwf p e c He Hc), bind_ok. simpl. by rewrite Ea. }
  destruct (push_advance_settled (class_end rules p) rest acc) as (n & out & Ho).
  { apply (class_end_ok rules Hwf p e He). by left. }
  { by apply Forall_inv_tail in Hp. }
  exists n, out. intros k Hk. rewrite bind_ok, Et, (match_char_ok rules Hwf p e c He Hc), bind_ok. simpl. rewrite Ea. by apply Ho.
Qed.

Lemma accept_stacks_settled stacks c :
  Forall (stack_ok rules) stacks -> settled (fun k => accept_stacks k rules stacks c).
Proof.
  intros Hs. apply settled_foldM. intros acc s Hin. apply accept_chr_settled.
  rewrite Forall_forall in Hs. by apply Hs, list_elem_of_In.
Qed.

Lemma accept_points_settled stack chrs : stack_ok rules stack -> settled (fun k => accept_points k rules stack chrs).
Proof.
  intros Hs. unfold accept_points.
  enough (G : forall chrs stacks, Forall (stack_ok rules) stacks ->
    settled (fun k => foldB (fun current_stacks chr =>
       next_stacks ← accept_stacks k rules current_stacks chr;
       match next_stacks with [] => Ok (inr next_stacks) | _ => Ok (inl next_stacks) end) stacks chrs)).
  { destruct (G chrs [stack]) as (n & r & Hr); [by constructor|].
    exists n, (match r with inl s => s | inr s => s end). intros k Hk. rewrite Hr, bind_ok by done. by destruct r. }
  clear chrs stack Hs. induction chrs as [|c chrs IH]; intros stacks Hst; simpl; [apply settled_ok|].
  destruct (accept_stacks_settled stacks c Hst) as (n & out & Ho).
  pose proof (accept_stacks_ok rules Hwf n stacks c Hst) as Hl. rewrite (Ho n) in Hl by lia. destruct Hl as (_ & Hok & _).
  destruct out as [|s out].
  - exists n, (inr []). intros k Hk. by rewrite Ho by done.
  - destruct (IH (s :: out) Hok) as (n' & r & Hr). exists (Nat.max n n'), r. intros k Hk.
    rewrite Ho by lia. simpl. apply Hr. lia.
Qed.

Lemma accept_token_stack_settled t chrs acc stack :
  stack_ok rules stack -> settled (fun k => accept_token_stack k rules t chrs acc stack).
Proof.
  intros Hs. pose proof Hs as [Hp Ht]. unfold accept_token_stack.
  destruct stack as [|p rest]; [apply settled_ok|]. destruct Ht as (e & He & Hc). rewrite He.
  destruct (token_type (ge_type e)) eqn:Et.
  - destruct (token_accepts e t) eqn:Ea.
    + destruct (push_advance_settled (next p) rest acc) as (n & out & Ho).
      { eapply ptr_next; eauto. }
      { by apply Forall_inv_tail in Hp. }
      exists n, out. intros k Hk. rewrite bind_ok, Et, (match_token_ok rules p e t He Et), bind_ok, Ea. by apply Ho.
    + exists 0%nat, acc. intros k _. by rewrite bind_ok, Et, (match_token_ok rules p e t He Et), bind_ok, Ea.
  - destruct (accept_points_settled (p :: rest) chrs Hs) as (n & cur & Hcur).
    eexists n, _. intros k Hk. rewrite bind_ok, Et, Hcur, bind_ok by done. reflexivity.
Qed.

Lemma accept_token_settled g t pc :
  g_rules g = rules -> Forall (stack_ok rules) (g_stacks g) ->
  exists n r, r.1 <> Fault OutOfFuel /\ forall k, (n <= k)%nat -> accept_token k t pc g = r.
Proof.
  intros Hr Hs. unfold accept_token, st_bind, st_get, lift, st_put. rewrite Hr.
  destruct (decode_utf8_total pc (g_partial_utf8 g)) as (cps & p & ->).
  destruct (settled_foldM (fun k => accept_token_stack k rules t (body_points (cps ++ [0]))) (g_stacks g) []) as (n & out & Ho).
  { intros acc s Hin. apply accept_token_stack_settled. rewrite Forall_forall in Hs. by apply Hs, list_elem_of_In. }
  eexists n, _. split; [|intros k Hk; cbn [fst snd]; rewrite Ho by done; reflexivity]. by destruct out.
Qed.

Lemma initial_settled r : (r < length rules)%nat -> settled (fun k => initial_stacks k rules r).
Proof.
  intros Hr. unfold initial_stacks. destruct (lookup_lt_is_Some_2 rules r Hr) as [rule Hrule].
  destruct (ptr_start rules Hwf r Hr) as (e0 & He0 & _).
  set (body := fun k (stacks : llama_grammar_stacks) pos =>
    stack ← push_unless_end rules pos []; advance_stack k rules stack stacks).
  assert (Hb : forall acc o, alternate rules r o -> settled (fun k => body k acc (r, o))).
  { intros acc o Ho. apply push_advance_settled; [by apply alternate_ptr|constructor]. }
  assert (E : forall k, (_ ← rd rules r; for_alternates (S (rule_len rules r)) rules (body k) [] (r, 0%nat)) =
    (s ← body k [] (r, 0%nat); foldM (fun s o => body k s (r, o)) s (next_alts (elems_from rules (r, 0%nat)) 0))).
  { intros k. unfold rd. rewrite Hrule, bind_ok. apply (for_alternates_ok rules Hwf (body k) _ (r, 0%nat) e0); [done|].
    pose proof (elems_from_length rules (r, 0%nat)). simpl in *. lia. }
  destruct (Hb [] 0%nat) as (n & out & Ho); [constructor|].
  destruct (settled_foldM (fun k s o => body k s (r, o)) (next_alts (elems_from rules (r, 0%nat)) 0) out) as (n' & b & Hb').
  { intros s o Hin. apply Hb. eapply (next_alts_alternate rules r 0); [by exists 0%nat|exact Hin]. }
  exists (Nat.max n n'), b. intros k Hk. fold (body k). rewrite E, Ho, bind_ok by lia. apply Hb'. lia.
Qed.
End accepting.

(** ** A left recursion that the check does not see *)

(** [root ::= a root "x"], [a ::= b], [b ::= ""]: the rule [a] derives the empty word, but
    only through [b], which [llama_grammar_detect_left_recursion] does not notice. *)
Definition hidden_left_recursion : llama_grammar_rules :=
  [ [mk_elem LLAMA_GRETYPE_RULE_REF 1; mk_elem LLAMA_GRETYPE_RULE_REF 0;
     mk_elem LLAMA_GRETYPE_CHAR 120; mk_elem LLAMA_GRETYPE_END 0];
    [mk_elem LLAMA_GRETYPE_RULE_REF 2; mk_elem LLAMA_GRETYPE_END 0];
    [mk_elem LLAMA_GRETYPE_END 0] ].

Lemma hidden_step n rest acc (p : elem_ptr) stack' :
  (p = (0, 1)%nat /\ stack' = (0, 0)%nat :: (0, 2)%nat :: rest) \/
  (p = (0, 0)%nat /\ stack' = (1, 0)%nat :: (0, 1)%nat :: rest) \/
  (p = (1, 0)%nat /\ stack' = rest) ->
  advance_stack n hidden_left_recursion stack' acc = Fault OutOfFuel ->
  advance_stack (S n) hidden_left_recursion (p :: rest) acc = Fault OutOfFuel.
Proof.
  intros Hc H. destruct Hc as [[-> ->]|[[-> ->]|[-> ->]]]; cbn [advance_stack];
    remember (advance_stack n hidden_left_recursion) as adv eqn:E; clear E; lazy;
    rewrite H; reflexivity.
Qed.

Lemma hidden_advance n rest acc :
  advance_stack n hidden_left_recursion ((0, 1)%nat :: rest) acc = Fault OutOfFuel.
Proof.
  revert rest. induction (lt_wf n) as [n _ IH]. intros rest.
  destruct n as [|n]; [done|]. eapply hidden_step; [left; eauto|].
  destruct n as [|n]; [done|]. eapply hidden_step; [right; left; eauto|].
  destruct n as [|n]; [done|]. eapply hidden_step; [right; right; eauto|].
  apply IH. lia.
Qed.
