(* ===== verification/GrammarLeftRec.v ===== *)
(** The left-recursion check of src/llama/llama.cpp/src/llama-grammar.cpp
    ([llama_grammar_detect_left_recursion]): it always ends, what it rejects is left
    recursive, and what it accepts is not, provided that every rule that derives the empty
    word does so by an empty alternative, the only kind the check looks for. *)
From S2P Require Import Prelude StateExn GrammarParser GrammarParserOk Grammar GrammarOk GrammarLang GrammarTerm.
Local Open Scope Z_scope.

(** The last step of a path. *)
Lemma tc_last {A} (R : A -> A -> Prop) a b : tc R a b -> exists y, R y b /\ rtc R a y.
Proof.
  induction 1 as [a b H|a c b H _ (y & Hy & Hr)]; [by exists a|]. exists y. split; [done|by eapply rtc_l].
Qed.

Section check.
Context (rules : llama_grammar_rules) (Hwf : grammar_wf rules).

(** ** The graph that the check explores *)

Definition empty_rule (r : nat) : bool :=
  match rules !! r with Some rule => directly_empty rule | None => false end.

Definition is_ref (e : llama_grammar_element) : bool := is_type (ge_type e) LLAMA_GRETYPE_RULE_REF.
Definition ref_of (e : llama_grammar_element) : nat := Z.to_nat (ge_value e).

(** The rules into which the second loop recurses, over the elements [l]. *)
Fixpoint scanned (recurse : bool) (l : llama_grammar_rule) : list nat :=
  match l with
  | [] => []
  | e :: l =>
      if is_ref e && recurse then ref_of e :: scanned (empty_rule (ref_of e)) l
      else scanned (end_type (ge_type e)) l
  end.
Definition calls (r : nat) : list nat := match rules !! r with Some rule => scanned true rule | None => [] end.
Definition call (r r' : nat) : Prop := r' ∈ calls r.

(** No infinite chain of calls from a rule. *)
Abbreviation grounded := (Acc (fun r' r => call r r')).

(** ** One run of the check *)

Record lr_inv (s : left_rec_state) : Prop := {
  li_len : length (lr_visited s) = length rules /\ length (lr_in_progress s) = length rules /\
           length (lr_may_be_empty s) = length rules;
  li_empty : forall i, lr_may_be_empty s !! i = Some true -> empty_rule i = true;
  li_visited : forall i, lr_visited s !! i = Some true -> grounded i
}.

(** The entries of [may_be_empty] that are right stay right. *)
Definition keeps_empty (s s' : left_rec_state) : Prop :=
  forall i, lr_may_be_empty s !! i = Some (empty_rule i) -> lr_may_be_empty s' !! i = Some (empty_rule i).

(** From [r] a rule in progress is called again, or some rule calls itself. *)
Definition loops (prog : list bool) (r : nat) : Prop :=
  exists x, rtc call r x /\ (prog !! x = Some true \/ tc call x x).

Definition lr_post (s : left_rec_state) (r : nat) (res : bool * left_rec_state) : Prop :=
  if res.1 then loops (lr_in_progress s) r
  else lr_inv res.2 /\ lr_in_progress res.2 = lr_in_progress s /\ keeps_empty s res.2 /\
       lr_may_be_empty res.2 !! r = Some (empty_rule r) /\ grounded r.

(** What the second loop does over [l], when the recursive calls are right. *)
Definition scan_post (s : left_rec_state) (recurse : bool) (l : llama_grammar_rule)
    (r : left_rec_state * bool + left_rec_state) : Prop :=
  match r with
  | inl (s', _) => lr_inv s' /\ lr_in_progress s' = lr_in_progress s /\ keeps_empty s s' /\
      forall y, y ∈ scanned recurse l -> grounded y
  | inr _ => exists y, y ∈ scanned recurse l /\ loops (lr_in_progress s) y
  end.

Lemma keeps_empty_trans s1 s2 s3 : keeps_empty s1 s2 -> keeps_empty s2 s3 -> keeps_empty s1 s3.
Proof. unfold keeps_empty. auto. Qed.

Lemma scan_ok detect l : forall s recurse,
  (forall s' r, lr_inv s' -> lr_in_progress s' = lr_in_progress s -> (r < length rules)%nat ->
     runs (detect s' r) (lr_post s' r)) ->
  refs_below (length rules) l -> lr_inv s ->
  runs (foldB (left_rec_elem detect) (s, recurse) l) (scan_post s recurse l).
Proof.
  induction l as [|e l IH]; intros s recurse Hd Hl I; simpl.
  { split; [done|]. split; [done|]. split; [by intros i|]. intros y Hy. by apply elem_of_nil in Hy. }
  apply Forall_cons_iff in Hl as [He Hl]. apply runs_bind. unfold scan_post.
  change (scanned recurse (e :: l)) with
    (if is_ref e && recurse then ref_of e :: scanned (empty_rule (ref_of e)) l
     else scanned (end_type (ge_type e)) l). unfold is_ref.
  destruct (is_type (ge_type e) LLAMA_GRETYPE_RULE_REF && recurse) eqn:Eb.
  - apply andb_true_iff in Eb as [Er ->]. apply is_type_spec in Er. fold (ref_of e) in *.
    pose proof (Hd s (ref_of e) I eq_refl (He Er)) as Hr. apply runs_bind. eapply runs_mono; [exact Hr|].
    intros [found s1] P. unfold lr_post in P. simpl in P. destruct found; simpl.
    { exists (ref_of e). split; [by left|done]. }
    destruct P as (I1 & P1 & K1 & E1 & G1). unfold rd. rewrite E1. simpl.
    eapply runs_mono; [apply IH; [|done|done]|].
    { intros s' r I' P'. rewrite P1 in P'. by apply Hd. }
    intros [[s2 b]|s2]; simpl; rewrite ?P1.
    + intros (I2 & P2 & K2 & G2). split; [done|]. split; [done|].
      split; [by eapply keeps_empty_trans|].
      intros y [->|Hy]%elem_of_cons; [done|by apply G2].
    + intros (y & Hy & L). exists y. split; [by right|done].
  - destruct (end_type (ge_type e)); simpl; by apply IH.
Qed.

(** The number of rules that are not in progress bounds the depth of the recursion. *)
Lemma detect_ok fuel : forall s r,
  lr_inv s -> (r < length rules)%nat -> (countb negb (lr_in_progress s) < fuel)%nat ->
  runs (detect_left_recursion fuel rules s r) (lr_post s r).
Proof.
  induction fuel as [|fuel IH]; intros s r I Hr Hf; [lia|]. simpl. destruct (li_len s I) as (L1 & L2 & L3).
  destruct (lookup_lt_is_Some_2 (lr_in_progress s) r) as [b Eb]; [lia|]. apply (runs_rd _ _ b); [done|].
  destruct b. { exists r. split; [apply rtc_refl|by left]. }
  apply runs_wr; [lia|]. destruct (lookup_lt_is_Some_2 rules r Hr) as [rule Er]. apply (runs_rd _ _ rule); [done|].
  set (prog := <[r := true]> (lr_in_progress s)).
  set (empty := if directly_empty rule then <[r := true]> (lr_may_be_empty s) else lr_may_be_empty s).
  assert (Ee : (if directly_empty rule then wr (lr_may_be_empty s) r true else Ok (lr_may_be_empty s)) = Ok empty).
  { unfold empty. destruct (directly_empty rule); [|done]. apply wr_ok. lia. }
  rewrite Ee, bind_ok. clear Ee.
  assert (Er' : empty_rule r = directly_empty rule) by (unfold empty_rule; by rewrite Er).
  assert (Hemp : empty !! r = Some (empty_rule r)).
  { unfold empty. rewrite Er'. destruct (directly_empty rule) eqn:Ed; [apply list_lookup_insert_eq; lia|].
    destruct (lookup_lt_is_Some_2 (lr_may_be_empty s) r) as [b Hb]; [lia|]. destruct b; [|done].
    apply (li_empty s I) in Hb. rewrite Er' in Hb. by rewrite Hb in Ed. }
  assert (I0 : lr_inv (mk_lr (lr_visited s) prog empty)).
  { split; simpl; [|intros i Hi|apply (li_visited s I)].
    - unfold prog, empty. destruct (directly_empty rule); rewrite ?length_insert; done.
    - destruct (decide (i = r)) as [->|Hn]; [rewrite Hemp in Hi; by injection Hi|].
      apply (li_empty s I). unfold empty in Hi. destruct (directly_empty rule); [|done].
      by rewrite list_lookup_insert_ne in Hi by done. }
  assert (K0 : keeps_empty s (mk_lr (lr_visited s) prog empty)).
  { intros i Hi. simpl. destruct (decide (i = r)) as [->|Hn]; [done|]. unfold empty.
    destruct (directly_empty rule); [|done]. by rewrite list_lookup_insert_ne. }
  assert (Hc : (countb negb prog < countb negb (lr_in_progress s))%nat).
  { pose proof (countb_insert negb (lr_in_progress s) r false true Eb) as H. unfold prog. simpl in H. lia. }
  apply runs_bind. eapply runs_mono; [apply (scan_ok (detect_left_recursion fuel rules) rule); [|by apply (wf_rule rules Hwf r)|exact I0]|].
  { intros s' r' I' P' Hr'. apply IH; [done..|]. rewrite P'. simpl. lia. }
  assert (Ecalls : calls r = scanned true rule) by (unfold calls; by rewrite Er).
  intros [[s1 b]|s1]; simpl.
  - intros (I1 & P1 & K1 & G1). destruct (li_len s1 I1) as (M1 & M2 & M3).
    apply runs_wr; [lia|]. apply runs_wr; [lia|]. unfold lr_post. simpl.
    assert (G : grounded r). { constructor. intros y Hy. unfold call in Hy. rewrite Ecalls in Hy. by apply G1. }
    split_and!; [split; simpl|..].
    + rewrite !length_insert. done.
    + apply (li_empty s1 I1).
    + intros i Hi. destruct (decide (i = r)) as [->|Hn]; [done|].
      rewrite list_lookup_insert_ne in Hi by done. by apply (li_visited s1 I1).
    + rewrite P1. unfold prog. rewrite list_insert_insert_eq. by apply list_insert_id.
    + intros i Hi. apply K1. by apply K0.
    + by apply K1.
    + done.
  - intros (y & Hy & x & Hx & Hp). unfold lr_post, loops. simpl.
    assert (Hry : call r y) by (unfold call; by rewrite Ecalls).
    destruct Hp as [Hp|Hp]; [|exists x; split; [by eapply rtc_l|by right]].
    destruct (decide (x = r)) as [->|Hn].
    + exists r. split; [apply rtc_refl|]. right. eapply tc_rtc_r; [by apply tc_once|done].
    + unfold prog in Hp. rewrite list_lookup_insert_ne in Hp by done. exists x. split; [by eapply rtc_l|by left].
Qed.

(** ** All the rules *)

Lemma countb_le_length {A} (P : A -> bool) l : (countb P l <= length l)%nat.
Proof. unfold countb. induction l as [|x l IH]; simpl; [lia|]. destruct (P x); simpl; lia. Qed.

Lemma replicate_false_lookup n i : replicate n false !! i <> Some true.
Proof. intros [H _]%lookup_replicate. done. Qed.

Lemma find_ok :
  runs (find_left_recursion rules) (fun r =>
    match r with
    | inl _ => forall i, (i < length rules)%nat -> grounded i
    | inr i => exists x, rtc call i x /\ tc call x x
    end).
Proof.
  unfold find_left_recursion. set (n := length rules).
  eapply runs_mono.
  { apply (runs_foldB (fun l s => lr_inv s /\ lr_in_progress s = replicate n false /\ forall i, i ∈ l -> grounded i)
      (fun i => exists x, rtc call i x /\ tc call x x)).
    - split; [|split; [done|intros i Hi; by apply elem_of_nil in Hi]].
      split; simpl; [by rewrite !length_replicate| |]; intros i Hi; by apply replicate_false_lookup in Hi.
    - intros l1 i l2 s El (I & Hp & Hg).
      assert (Hi : (i < n)%nat). { assert (i ∈ seq 0 n) as [_ ?]%elem_of_seq by (rewrite El; apply elem_of_app; right; by left). lia. }
      destruct (li_len s I) as (L1 & L2 & L3).
      destruct (lookup_lt_is_Some_2 (lr_visited s) i) as [v Ev]; [lia|]. apply (runs_rd _ _ v); [done|]. destruct v.
      { apply runs_ok. split; [done|]. split; [done|]. intros j [Hj| ->%list_elem_of_singleton]%elem_of_app; [by apply Hg|].
        by apply (li_visited s I). }
      apply runs_bind. eapply runs_mono; [apply (detect_ok (S n) s i I Hi)|].
      { pose proof (countb_le_length negb (lr_in_progress s)). lia. }
      intros [found s1] P. unfold lr_post in P. simpl in P. destruct found; apply runs_ok.
      + destruct P as (x & Hx & [Hq|Hq]); [|by exists x]. rewrite Hp in Hq. by apply replicate_false_lookup in Hq.
      + destruct P as (I1 & P1 & _ & _ & G1). split; [done|]. split; [by rewrite P1|].
        intros j [Hj| ->%list_elem_of_singleton]%elem_of_app; [by apply Hg|done]. }
  intros [s|i]; [|done]. intros (_ & _ & H) i Hi. apply H, elem_of_seq. lia.
Qed.

(** ** The calls and the left references of the grammar *)

(** [directly_empty] looks for an alternative without elements. *)
Fixpoint dempty (start : bool) (l : llama_grammar_rule) : bool :=
  match l with
  | [] => false
  | e :: l => if end_type (ge_type e) then start || dempty true l else dempty false l
  end.

Lemma directly_empty_dempty rule : directly_empty rule = dempty true rule.
Proof.
  unfold directly_empty. set (f := fun (at_rule_start : bool) e => _).
  enough (G : forall start, match foldB f start rule with Ok (inr _) => true | _ => false end = dempty start rule) by apply G.
  induction rule as [|e l IH]; intros start; [done|]. simpl.
  assert (Ef : f start e = if end_type (ge_type e) then if start then Ok (inr tt) else Ok (inl true) else Ok (inl false)) by done.
  rewrite Ef. destruct (end_type (ge_type e)); [destruct start; simpl; [done|apply IH]|apply IH].
Qed.

Lemma drop_elem r i rule e l :
  rules !! r = Some rule -> drop i rule = e :: l -> elem_at rules (r, i) = Ok e /\ drop (S i) rule = l.
Proof.
  intros Hr Hd. split.
  - apply elem_at_ok. exists rule. split; [done|]. simpl. by rewrite <- (Nat.add_0_r i), <- lookup_drop, Hd.
  - replace (S i) with (i + 1)%nat by lia. by rewrite <- drop_drop, Hd.
Qed.

Lemma elem_drop r i rule e :
  rules !! r = Some rule -> elem_at rules (r, i) = Ok e -> drop i rule = e :: drop (S i) rule.
Proof.
  intros Hr (rule' & Hr' & He)%elem_at_ok. simpl in *. assert (rule' = rule) as -> by congruence. by apply drop_S.
Qed.

(** Only [ALT] has something behind it among the ends. *)
Lemma end_alt r i rule e l :
  rules !! r = Some rule -> drop i rule = e :: l -> end_type (ge_type e) = true -> l <> [] ->
  ge_type e = LLAMA_GRETYPE_ALT.
Proof.
  intros Hr Hd Ht Hl. destruct (drop_elem r i rule e l Hr Hd) as [(rule' & Hr' & Hi)%elem_at_ok El]. simpl in *.
  assert (rule' = rule) as -> by congruence. destruct (wf_rule rules Hwf r rule Hr) as [Hok _].
  destruct (rule_ok_lookup rule i e Hok Hi) as [[_ Hlast]|[_ Hf]].
  - exfalso. apply Hl. rewrite <- El. by apply drop_ge; lia.
  - destruct (ge_type e); try done.
Qed.

Lemma dempty_sound r rule l : forall i start,
  rules !! r = Some rule -> drop i rule = l -> dempty start l = true -> (start = true -> alternate rules r i) ->
  exists o e, alternate rules r o /\ elem_at rules (r, o) = Ok e /\ end_type (ge_type e) = true.
Proof.
  induction l as [|e l IH]; intros i start Hr Hd He Hs; simpl in He; [done|].
  destruct (drop_elem r i rule e l Hr Hd) as [Hi Hl].
  destruct (end_type (ge_type e)) eqn:Et; [|by apply (IH (S i) false)].
  destruct start; [exists i, e; by split_and!; [apply Hs|..]|]. simpl in He.
  apply (IH (S i) true); try done. intros _. apply (alt_later rules r i e Hi).
  eapply end_alt; try done. by destruct l.
Qed.

(** A rule with an empty alternative derives the empty word. *)
Lemma empty_rule_derives r : empty_rule r = true -> rule_derives rules r [].
Proof.
  unfold empty_rule. destruct (rules !! r) as [rule|] eqn:Hr; [|done]. rewrite directly_empty_dempty. intros H.
  destruct (dempty_sound r rule rule 0 true Hr (drop_0 rule) H) as (o & e & Ho & He & Ht); [constructor|].
  exists o. split; [done|]. by eapply derives_end.
Qed.

(** What the second loop visits from offset [i] is reached from the alternative around it. *)
Lemma scanned_left r rule l : forall i recurse y,
  rules !! r = Some rule -> drop i rule = l -> y ∈ scanned recurse l ->
  (recurse = true -> exists o, alternate rules r o /\ forall z, left_ref rules (r, i) z -> left_ref rules (r, o) z) ->
  left_calls rules y r.
Proof.
  induction l as [|e l IH]; intros i recurse y Hr Hd Hy Hrec; simpl in Hy; [by apply elem_of_nil in Hy|].
  destruct (drop_elem r i rule e l Hr Hd) as [Hi Hl]. destruct (is_ref e && recurse) eqn:Eb.
  - apply andb_true_iff in Eb as [Er ->]. apply is_type_spec in Er. destruct (Hrec eq_refl) as (o & Ho & Hz).
    apply elem_of_cons in Hy as [->|Hy].
    + exists o. split; [done|]. apply Hz. by apply left_here.
    + apply (IH (S i) _ y Hr Hl Hy). intros Hemp. exists o. split; [done|]. intros z Hz'. apply Hz.
      eapply left_next; try done. by apply empty_rule_derives.
  - apply (IH (S i) _ y Hr Hl Hy). intros Ht. exists (S i). split; [|done]. apply (alt_later rules r i e Hi).
    eapply end_alt; try done. intros ->. by apply elem_of_nil in Hy.
Qed.

Lemma call_left_calls r y : call r y -> left_calls rules y r.
Proof.
  unfold call, calls. destruct (rules !! r) as [rule|] eqn:Hr; [|by intros ?%elem_of_nil].
  intros Hy. apply (scanned_left r rule rule 0 true y Hr (drop_0 rule) Hy). intros _. exists 0%nat. split; [constructor|done].
Qed.

(** The other direction needs that the empty word is always derived directly. *)
Section direct.
Context (Hdirect : forall r, rule_derives rules r [] -> empty_rule r = true).

Lemma left_scanned p y : left_ref rules p y -> forall r i rule, p = (r, i) -> rules !! r = Some rule ->
  y ∈ scanned true (drop i rule).
Proof.
  induction 1 as [p e He Ht|p e z He Ht Hd Hz IH]; intros r i rule -> Hr;
    rewrite (elem_drop r i rule e Hr He); simpl;
    unfold is_ref; rewrite (proj2 (is_type_spec _ _) Ht); simpl; fold (ref_of e).
  - by left.
  - right. rewrite Hdirect by done. by apply (IH r (S i) rule).
Qed.

(** The loop starts afresh behind every [ALT]. *)
Lemma scanned_restart l : forall k f e,
  l !! k = Some e -> end_type (ge_type e) = true ->
  forall y, y ∈ scanned true (drop (S k) l) -> y ∈ scanned f l.
Proof.
  induction l as [|x l IH]; intros [|k] f e Hk Ht y Hy; simpl in *; try done.
  - injection Hk as ->. destruct (is_ref e && f) eqn:Eb; [|by rewrite Ht].
    apply andb_true_iff in Eb as [Er _]. apply is_type_spec in Er. by rewrite Er in Ht.
  - destruct (is_ref x && f); [right|]; eapply IH; eauto.
Qed.

Lemma left_calls_call r y : left_calls rules y r -> call r y.
Proof.
  intros (o & Ho & Hl). unfold call, calls.
  destruct (rules !! r) as [rule|] eqn:Hr.
  2:{ exfalso. inversion Hl as [p e He|p e z He]; subst; apply elem_at_ok in He as (rule & Hr' & _); simpl in *; congruence. }
  pose proof (left_scanned (r, o) y Hl r o rule eq_refl Hr) as Hy.
  destruct Ho as [|o e He Ht]; [by rewrite drop_0 in Hy|].
  apply elem_at_ok in He as (rule' & Hr' & He). simpl in *. assert (rule' = rule) as -> by congruence.
  apply (scanned_restart rule o true e); [done|by rewrite Ht|done].
Qed.

Lemma find_accepts s : find_left_recursion rules = Ok (inl s) -> no_left_recursion rules.
Proof.
  intros Hf. pose proof find_ok as H. rewrite Hf in H. simpl in H.
  assert (G : forall r, grounded r).
  { intros r. destruct (decide (r < length rules)%nat) as [Hr|Hr]; [by apply H|].
    constructor. intros y Hy. unfold call, calls in Hy. rewrite lookup_ge_None_2 in Hy by lia. by apply elem_of_nil in Hy. }
  intros r. induction (G r) as [r _ IH]. constructor. intros y Hy. by apply IH, left_calls_call.
Qed.
End direct.

Lemma find_rejects i : find_left_recursion rules = Ok (inr i) -> ~ no_left_recursion rules.
Proof.
  intros Hf. pose proof find_ok as H. rewrite Hf in H. destruct H as (x & _ & Hx). intros W.
  assert (T : forall a b, tc call a b -> tc (left_calls rules) b a).
  { induction 1 as [a b H|a b c H _ IH]; [apply tc_once; by apply call_left_calls|].
    eapply tc_r; [exact IH|]. by apply call_left_calls. }
  apply T in Hx. clear -W Hx. induction (W x) as [x _ IH].
  destruct (tc_last _ _ _ Hx) as (y & Hy & Hr). apply (IH y Hy). eapply tc_rtc_r; [by apply tc_once|done].
Qed.
End check.
