(* ===== verification/GrammarReject.v ===== *)
(** The candidates that a grammar rejects during sampling are those that none of its
    stacks can follow, and, for grammars without token elements, a complete candidate is
    kept exactly when accepting it leaves some stack. *)

From S2P Require Import Prelude StateExn GrammarParser GrammarParserOk Grammar GrammarOk GrammarLang GrammarTerm.
Local Open Scope Z_scope.

(** ** The stacks that an advance produces *)

Section settle.
Context (rules : llama_grammar_rules) (Hwf : grammar_wf rules).

(** [s] is reached from [stack] by expanding rule references until a terminal is on top. *)
Definition settles (stack s : llama_grammar_stack) : Prop :=
  rtc (fun x y => expands rules y x) stack s /\ terminal_top rules s.

Lemma settles_terminal stack s : terminal_top rules stack -> settles stack s <-> s = stack.
Proof.
  intros Ht. split; [|intros ->; split; [constructor|done]].
  intros [Hr _]. destruct Hr as [|x y z Hxy _]; [done|].
  destruct x as [|p rest]; [done|]. destruct Hxy as (e & o & He & Hr & _), Ht as (e' & He' & Hc).
  assert (e' = e) as -> by congruence. rewrite Hr in Hc. by destruct Hc.
Qed.

Lemma settles_ref p e rest s :
  elem_at rules p = Ok e -> ge_type e = LLAMA_GRETYPE_RULE_REF ->
  settles (p :: rest) s <->
  exists o s2, alternate rules (Z.to_nat (ge_value e)) o /\
    (s1 ← push_unless_end rules (next p) rest;
     push_unless_end rules (Z.to_nat (ge_value e), o) s1) = Ok s2 /\ settles s2 s.
Proof.
  intros He Hr. split.
  - intros [Hs Ht]. inversion Hs as [|x y z Hxy Hyz]; subst.
    + destruct Ht as (e' & He' & Hc). assert (e' = e) as -> by congruence.
      rewrite Hr in Hc. by destruct Hc.
    + destruct Hxy as (e' & o & He' & _ & Ho & Hp). assert (e' = e) as -> by congruence.
      exists o, y. split_and!; [done..|]. by split.
  - intros (o & s2 & Ho & Hp & [Hs Ht]). split; [|done]. econstructor; [|exact Hs].
    by exists e, o.
Qed.

(** The outcome of an advance as a set of stacks. *)
Definition adds (acc : llama_grammar_stacks) (S : llama_grammar_stack -> Prop) (out : llama_grammar_stacks) : Prop :=
  forall s, s ∈ out <-> s ∈ acc \/ S s.

Lemma add_stack_adds acc stack : adds acc (fun s => s = stack) (add_stack stack acc).
Proof.
  intros s. unfold add_stack. case_decide.
  - split; [by left|]. by intros [?| ->].
  - rewrite elem_of_app, list_elem_of_singleton. done.
Qed.

Lemma advance_stack_adds fuel stack acc :
  Forall (pending rules) stack ->
  limited (advance_stack fuel rules stack acc) (adds acc (settles stack)).
Proof.
  revert stack acc. induction fuel as [|fuel IH]; intros stack acc Hst; [done|].
  destruct stack as [|p rest].
  { apply limited_ok. intros s. rewrite (settles_terminal [] s) by done. apply add_stack_adds. }
  destruct (pending_cases rules p (Forall_inv Hst)) as (e & He & Hcase).
  pose proof (Forall_inv_tail Hst) as Hrest.
  cbn [advance_stack]. rewrite He, bind_ok.
  destruct (decide (ge_type e = LLAMA_GRETYPE_RULE_REF)) as [Ht|Hnt].
  - rewrite Ht. set (r := Z.to_nat (ge_value e)).
    assert (Hr : (r < length rules)%nat) by (eapply elem_ref; eauto).
    assert (Hnext : ptr_ok rules (next p)) by (eapply ptr_next; eauto).
    destruct (ptr_start rules Hwf r Hr) as (e0 & He0 & _).
    set (body := fun (_ : llama_grammar_stacks) (_ : elem_ptr) => _).
    rewrite (for_alternates_ok rules Hwf body _ _ e0); [|done|].
    2: { pose proof (elems_from_length rules (r, 0%nat)). unfold r in *. simpl in *. lia. }
    set (via_o := fun o s => exists s2, (s1 ← push_unless_end rules (next p) rest;
      push_unless_end rules (r, o) s1) = Ok s2 /\ settles s2 s).
    assert (Hbody : forall acc o, alternate rules r o -> limited (body acc (r, o)) (adds acc (via_o o))).
    { intros acc' o Ho.
      destruct (alternative_stack rules r (next p) rest o) as (s & Es & Fs & _);
        [by apply alternate_ptr|done|done|].
      unfold body, via_o.
      destruct (push_unless_end rules (next p) rest) as [s1| |] eqn:E1; [|discriminate Es..].
      rewrite !bind_ok in *. rewrite Es, bind_ok.
      eapply limited_mono; [by apply IH|]. intros out Hout s'. rewrite (Hout s').
      split; intros [?|H]; [by left|right; eauto|by left|right].
      destruct H as (s2 & E & H). by injection E as <-. }
    apply limited_bind. eapply limited_mono; [apply Hbody; constructor|]. intros acc1 H1.
    eapply limited_mono.
    { apply (limited_foldM (fun l => adds acc (fun s => via_o 0%nat s \/ exists o, o ∈ l /\ via_o o s)) _ []).
      - intros s. rewrite (H1 s). split; [tauto|].
        intros [?|[?|(o & Ho & _)]]; [tauto|tauto|by apply elem_of_nil in Ho].
      - intros l1 o out Ho Hout. eapply limited_mono.
        + apply Hbody. eapply (next_alts_alternate rules r 0); [by exists 0%nat|exact Ho].
        + intros out' Hout' s. rewrite (Hout' s), (Hout s).
          setoid_rewrite elem_of_app. setoid_rewrite list_elem_of_singleton. naive_solver. }
    intros out Hout s. rewrite (Hout s), (settles_ref p e rest s He Ht). simpl.
    apply or_iff_compat_l. split.
    + intros [(s2 & E & H)|(o & Ho & s2 & E & H)]; [exists 0%nat, s2; split; [constructor|done]|].
      exists o, s2. split; [|done]. eapply (next_alts_alternate rules r 0); [by exists 0%nat|exact Ho].
    + intros (o & s2 & Ho & E & H).
      destruct (alternate_next_alts rules Hwf r o Ho) as [->|Hin]; [left; by exists s2|].
      right. exists o. split; [done|]. by exists s2.
  - assert (Hok : terminal_top rules (p :: rest)).
    { exists e. split; [done|]. destruct Hcase as [?|?]; [done|auto]. }
    assert (Hadd : limited (Ok (add_stack (p :: rest) acc)) (adds acc (settles (p :: rest)))).
    { apply limited_ok. intros s. rewrite (settles_terminal (p :: rest) s Hok). apply add_stack_adds. }
    destruct (ge_type e); try done; by destruct Hcase as [?|[?|?]].
Qed.
End settle.

(** ** What a stack can do with a candidate *)

Section viable.
Context (rules : llama_grammar_rules) (Hwf : grammar_wf rules).

(** The code points [l] (up to their terminating 0), then the incomplete sequence
    [partial], can be matched from the stack; a token element accepts or not at once. *)
Fixpoint viable (partial : llama_partial_utf8) (id : Z) (l : list Z) (stack : llama_grammar_stack) : Prop :=
  match l with
  | [] => False
  | c :: l' =>
      match stack with
      | [] => c = 0 /\ pu_n_remain partial = 0
      | p :: rest =>
          exists e, elem_at rules p = Ok e /\
            if token_type (ge_type e) then
              if c =? 0 then pu_n_remain partial = 0 else token_accepts e id = true
            else if c =? 0 then
              pu_n_remain partial = 0 \/ match_partial_char rules p partial = Ok true
            else
              class_accepts rules p c = true /\
              exists s1 s, push_unless_end rules (class_end rules p) rest = Ok s1 /\
                settles rules s1 s /\ viable partial id l' s
      end
  end.

Definition cand_rest (tok : llama_grammar_candidate) : list Z := drop (cd_at tok) (cd_code_points tok).
Definition cand_viable (tok : llama_grammar_candidate) (stack : llama_grammar_stack) : Prop :=
  viable (cd_partial tok) (cd_id tok) (cand_rest tok) stack.

(** The terminating 0 is among the next [depth] code points. *)
Definition ends_within (depth : nat) (tok : llama_grammar_candidate) : Prop :=
  0 ∈ take depth (cand_rest tok).

Lemma ends_within_cons depth tok :
  ends_within depth tok -> exists d c l, depth = S d /\ cand_rest tok = c :: l /\ cand_char tok = Ok c /\
    (c <> 0 -> cand_rest (cand_move (S (cd_at tok)) tok) = l /\ ends_within d (cand_move (S (cd_at tok)) tok)).
Proof.
  unfold ends_within. intros H. destruct depth as [|d]; [by apply elem_of_nil in H|].
  destruct (cand_rest tok) as [|c l] eqn:E; [by apply elem_of_nil in H|].
  assert (Hc : cd_code_points tok !! cd_at tok = Some c).
  { unfold cand_rest in E. by rewrite <- (Nat.add_0_r (cd_at tok)), <- lookup_drop, E. }
  assert (El : cand_rest (cand_move (S (cd_at tok)) tok) = l).
  { unfold cand_rest in *. simpl. rewrite (drop_S _ _ _ Hc) in E. by injection E. }
  exists d, c, l. split_and!; [done..| |].
  - unfold cand_char. by apply rd_ok.
  - intros Hne. split; [done|]. rewrite El. simpl in H. apply elem_of_cons in H as [?|?]; [congruence|done].
Qed.

Lemma cand_move_back tok : cand_move (cd_at (cand_move (S (cd_at tok)) tok) - 1) (cand_move (S (cd_at tok)) tok) = tok.
Proof. destruct tok. unfold cand_move. simpl. by rewrite Nat.sub_0_r. Qed.

(** A loop that keeps some of the candidates. *)
Lemma foldM_keep (f : llama_grammar_candidates -> llama_grammar_candidate -> res llama_grammar_candidates)
    (b : llama_grammar_candidate -> bool) l acc :
  (forall acc t, t ∈ l -> f acc t = Ok (keep_if (b t) t acc)) ->
  foldM f acc l = Ok (acc ++ List.filter b l).
Proof.
  revert acc. induction l as [|t l IH]; intros acc H; simpl; [by rewrite app_nil_r|].
  rewrite H by (by left). rewrite bind_ok, IH by (intros; apply H; by right).
  unfold keep_if. destruct (b t); [|done]. by rewrite <- app_assoc.
Qed.

Lemma elem_of_filterb {A} (b : A -> bool) l x : x ∈ List.filter b l <-> x ∈ l /\ b x = true.
Proof. by rewrite !list_elem_of_In, filter_In. Qed.

(** The rejects of a loop, as a set. *)
Definition keeps_out (R : llama_grammar_candidate -> Prop) (cands out : llama_grammar_candidates) : Prop :=
  forall t, t ∈ out <-> t ∈ cands /\ R t.

Lemma reject_nil_ok depth cands :
  Forall (ends_within depth) cands ->
  limited (foldM reject_at_end [] cands) (keeps_out (fun t => ~ cand_viable t []) cands).
Proof.
  intros Hc. rewrite (foldM_keep _ (fun t =>
    match cand_rest t with c :: _ => negb (c =? 0) || incomplete t | [] => true end)).
  - apply limited_ok. intros t. simpl. rewrite elem_of_filterb. apply and_iff_compat_l.
    unfold cand_viable. destruct (cand_rest t) as [|c l]; simpl; [tauto|].
    unfold incomplete. rewrite orb_true_iff, !negb_true_iff, !Z.eqb_neq. lia.
  - intros acc t Ht. rewrite Forall_forall in Hc.
    destruct (ends_within_cons depth t (Hc t (proj1 (list_elem_of_In _ _) Ht))) as (d & c & l & -> & El & Ec & _).
    unfold reject_at_end. by rewrite Ec, bind_ok, El.
Qed.

Lemma reject_token_ok depth p rest e cands :
  elem_at rules p = Ok e -> token_type (ge_type e) = true -> Forall (ends_within depth) cands ->
  limited (foldM (reject_at_token rules p) [] cands)
    (keeps_out (fun t => ~ cand_viable t (p :: rest)) cands).
Proof.
  intros He Ht Hc. rewrite (foldM_keep _ (fun t =>
    match cand_rest t with
    | c :: _ => if c =? 0 then incomplete t else negb (token_accepts e (cd_id t))
    | [] => true
    end)).
  - apply limited_ok. intros t. simpl. rewrite elem_of_filterb. apply and_iff_compat_l.
    unfold cand_viable. destruct (cand_rest t) as [|c l]; simpl; [tauto|].
    assert (Hex : forall P : llama_grammar_element -> Prop, (exists e', elem_at rules p = Ok e' /\ P e') <-> P e).
    { intros P. split; [intros (e' & E & H)|eauto]. by replace e with e' by congruence. }
    rewrite Hex, Ht. unfold incomplete. destruct (c =? 0).
    + rewrite negb_true_iff, Z.eqb_neq. done.
    + destruct (token_accepts e (cd_id t)); naive_solver.
  - intros acc t Htk. rewrite Forall_forall in Hc.
    destruct (ends_within_cons depth t (Hc t (proj1 (list_elem_of_In _ _) Htk))) as (d & c & l & -> & El & Ec & _).
    unfold reject_at_token. rewrite Ec, bind_ok, El. destruct (c =? 0); [done|].
    by rewrite (match_token_ok rules p e _ He Ht), bind_ok.
Qed.

Definition partial_answer (p : elem_ptr) (t : llama_grammar_candidate) : bool :=
  match match_partial_char rules p (cd_partial t) with Ok b => b | _ => false end.

Definition char_rejects (p : elem_ptr) (t : llama_grammar_candidate) : bool :=
  match cand_rest t with
  | c :: _ => if c =? 0 then incomplete t && negb (partial_answer p t) else negb (class_accepts rules p c)
  | [] => true
  end.
Definition char_passes (p : elem_ptr) (t : llama_grammar_candidate) : bool :=
  match cand_rest t with c :: _ => negb (c =? 0) && class_accepts rules p c | [] => false end.

Lemma reject_char_loop p e depth cands a b :
  elem_at rules p = Ok e -> char_start (ge_type e) = true -> Forall (ends_within depth) cands ->
  foldM (reject_at_char rules p) (a, b) cands =
    Ok (a ++ List.filter (char_rejects p) cands,
        b ++ map (fun t => cand_move (S (cd_at t)) t) (List.filter (char_passes p) cands)).
Proof.
  intros He Ht. revert a b. induction cands as [|t cands IH]; intros a b Hc; simpl.
  { by rewrite !app_nil_r. }
  destruct (ends_within_cons depth t (Forall_inv Hc)) as (d & c & l & -> & El & Ec & _).
  specialize (fun a b => IH a b (Forall_inv_tail Hc)).
  assert (R : char_rejects p t = if c =? 0 then incomplete t && negb (partial_answer p t)
                                 else negb (class_accepts rules p c)).
  { unfold char_rejects. by rewrite El. }
  assert (P : char_passes p t = negb (c =? 0) && class_accepts rules p c).
  { unfold char_passes. by rewrite El. }
  rewrite R, P. clear R P. unfold reject_at_char at 1. rewrite Ec, bind_ok.
  destruct (c =? 0); cbn [negb andb].
  - unfold partial_answer. rewrite (match_partial_char_ok rules Hwf p e _ He Ht).
    destruct (incomplete t); cbn [andb]; rewrite ?bind_ok, IH; [|done].
    unfold keep_if. destruct (negb _); [|done]. by rewrite <- app_assoc.
  - rewrite (match_char_ok rules Hwf p e c He Ht), bind_ok. cbn [fst].
    destruct (class_accepts rules p c); cbn [negb]; rewrite bind_ok, IH; cbn [map];
      by rewrite <- app_assoc.
Qed.
End viable.

(** ** The rejected candidates *)

Section reject.
Context (rules : llama_grammar_rules) (Hwf : grammar_wf rules).
Abbreviation cand_viable := (cand_viable rules).

(** No stack can follow the candidate. *)
Definition stuck (stacks : llama_grammar_stacks) (t : llama_grammar_candidate) : Prop :=
  forall s, s ∈ stacks -> ~ cand_viable t s.

Lemma keeps_out_sub R cands out depth :
  keeps_out R cands out -> Forall (ends_within depth) cands -> Forall (ends_within depth) out.
Proof.
  rewrite !Forall_forall. intros H Hc t Ht%list_elem_of_In. apply Hc, list_elem_of_In. by apply H in Ht as [? _].
Qed.

Lemma reject_with_ok depth (for_stack : llama_grammar_stack -> llama_grammar_candidates -> res llama_grammar_candidates) stacks cands :
  stacks <> [] -> Forall (ends_within depth) cands ->
  (forall s cands, s ∈ stacks -> Forall (ends_within depth) cands ->
     limited (for_stack s cands) (keeps_out (fun t => ~ cand_viable t s) cands)) ->
  limited (reject_candidates_with for_stack stacks cands) (keeps_out (stuck stacks) cands).
Proof.
  intros Hne Hc H. destruct stacks as [|s0 stacks]; [done|]. unfold reject_candidates_with.
  destruct cands as [|c0 cands]; [by apply limited_ok; intros t; split; [intros ?%elem_of_nil|intros [?%elem_of_nil _]]|].
  set (cs := c0 :: cands) in *. apply limited_bind. eapply limited_mono; [by apply H; [left|]|].
  intros r0 H0. eapply limited_mono.
  { apply (limited_foldM (fun l r => keeps_out (stuck (s0 :: l)) cs r) _ []).
    - intros t. rewrite (H0 t). apply and_iff_compat_l. split; [|intros Hs; apply Hs; by left].
      intros Hn s Hs. by apply list_elem_of_singleton in Hs as ->.
    - intros l1 s r Hs Hr. eapply limited_mono.
      + apply H; [by right|]. by eapply keeps_out_sub.
      + intros out Hout t. rewrite (Hout t), (Hr t). unfold stuck.
        setoid_rewrite elem_of_cons. setoid_rewrite elem_of_app.
        setoid_rewrite list_elem_of_singleton. naive_solver. }
  intros r Hr. exact Hr.
Qed.

Lemma viable_char p e rest t c l :
  elem_at rules p = Ok e -> char_start (ge_type e) = true -> cand_rest t = c :: l -> c <> 0 ->
  cand_rest (cand_move (S (cd_at t)) t) = l ->
  cand_viable t (p :: rest) <->
  class_accepts rules p c = true /\
  exists s1 s, push_unless_end rules (class_end rules p) rest = Ok s1 /\ settles rules s1 s /\
    cand_viable (cand_move (S (cd_at t)) t) s.
Proof.
  intros He Ht El Hc El'. unfold GrammarReject.cand_viable. rewrite El, El'. simpl.
  rewrite (proj2 (Z.eqb_neq c 0) Hc).
  assert (Htk : token_type (ge_type e) = false) by (by apply char_not_token). split.
  - intros (e' & He' & H). assert (e' = e) as -> by congruence. by rewrite Htk in H.
  - intros H. exists e. split; [done|]. by rewrite Htk.
Qed.

Lemma viable_char_end p e rest t l :
  elem_at rules p = Ok e -> char_start (ge_type e) = true -> cand_rest t = 0 :: l ->
  cand_viable t (p :: rest) <-> incomplete t = false \/ partial_answer rules p t = true.
Proof.
  intros He Ht El. unfold GrammarReject.cand_viable, incomplete, partial_answer. rewrite El. simpl.
  rewrite negb_false_iff, Z.eqb_eq.
  assert (Htk : token_type (ge_type e) = false) by (by apply char_not_token).
  assert (Hp : match_partial_char rules p (cd_partial t) = Ok true <->
    match match_partial_char rules p (cd_partial t) with Ok b => b | _ => false end = true).
  { destruct (match_partial_char _ _ _) as [[]| |]; split; congruence. }
  rewrite <- Hp. split.
  - intros (e' & He' & H). assert (e' = e) as -> by congruence. by rewrite Htk in H.
  - intros H. exists e. split; [done|]. by rewrite Htk.
Qed.

(** Every candidate of [cands] that cannot follow a stack with a character on top is
    rejected at once or after the character. *)
Lemma reject_char_stack depth p e rest s1 next_stacks cands next_rejects :
  elem_at rules p = Ok e -> char_start (ge_type e) = true ->
  push_unless_end rules (class_end rules p) rest = Ok s1 ->
  adds [] (settles rules s1) next_stacks ->
  Forall (ends_within (S depth)) cands ->
  keeps_out (stuck next_stacks)
    (map (fun t => cand_move (S (cd_at t)) t) (List.filter (char_passes rules p) cands)) next_rejects ->
  keeps_out (fun t => ~ cand_viable t (p :: rest)) cands
    (List.filter (char_rejects rules p) cands ++ map (fun t => cand_move (cd_at t - 1) t) next_rejects).
Proof.
  intros He Ht Es Hnext Hc Hrej t. rewrite elem_of_app, elem_of_filterb.
  set (mv := fun t => cand_move (S (cd_at t)) t).
  assert (Hback : t ∈ map (fun t => cand_move (cd_at t - 1) t) next_rejects <->
    t ∈ cands /\ char_passes rules p t = true /\ stuck next_stacks (mv t)).
  { rewrite list_elem_of_In, in_map_iff. split.
    - intros (t' & <- & Hin%list_elem_of_In). apply Hrej in Hin as [Hin Hst].
      apply list_elem_of_In, in_map_iff in Hin as (t0 & <- & H0%list_elem_of_In).
      apply elem_of_filterb in H0 as [H1 H2].
      rewrite cand_move_back. done.
    - intros (H1 & H2 & H3). exists (mv t). split; [apply cand_move_back|].
      apply list_elem_of_In, Hrej. split; [|done]. apply list_elem_of_In, in_map_iff.
      exists t. split; [done|]. by apply list_elem_of_In, elem_of_filterb. }
  rewrite Hback. clear Hback Hrej.
  enough (G : t ∈ cands -> ~ cand_viable t (p :: rest) <->
    char_rejects rules p t = true \/ (char_passes rules p t = true /\ stuck next_stacks (mv t))) by tauto.
  intros Hin. rewrite Forall_forall in Hc.
  destruct (ends_within_cons _ t (Hc t (proj1 (list_elem_of_In _ _) Hin))) as (d & c & l & _ & El & Ec & Hmv).
  unfold char_rejects, char_passes. rewrite El. destruct (Z.eqb_spec c 0) as [->|Hne].
  - rewrite (viable_char_end p e rest t l He Ht El). simpl.
    destruct (incomplete t), (partial_answer rules p t); simpl; naive_solver.
  - destruct (Hmv Hne) as [El' _]. rewrite (viable_char p e rest t c l He Ht El Hne El'). simpl.
    destruct (class_accepts rules p c); simpl; [|naive_solver].
    unfold stuck, mv. split.
    + intros Hn. right. split; [done|]. intros s Hs Hv. apply Hn. split; [done|].
      exists s1, s. split_and!; [done| |done]. apply Hnext in Hs as [Hs|Hs]; [by apply elem_of_nil in Hs|done].
    + intros [?|[_ Hs]] [_ (s1' & s & E & Hset & Hv)]; [done|].
      assert (s1' = s1) as -> by congruence. apply (Hs s); [|done]. apply Hnext. by right.
Qed.

Lemma reject_for_stack_ok depth fuel stack cands :
  stack_ok rules stack -> Forall (ends_within depth) cands ->
  limited (reject_candidates_for_stack depth fuel rules stack cands)
    (keeps_out (fun t => ~ cand_viable t stack) cands).
Proof.
  revert stack cands. induction depth as [|depth IH]; intros stack cands Hs Hc; [done|].
  destruct stack as [|p rest]; [by apply reject_nil_ok with (S depth)|].
  pose proof Hs as [Hp (e & He & Hcase)]. cbn [reject_candidates_for_stack]. rewrite He, bind_ok.
  destruct (token_type (ge_type e)) eqn:Et; [by eapply reject_token_ok|].
  destruct Hcase as [Ht|?]; [|done].
  rewrite (reject_char_loop rules Hwf p e (S depth) cands [] [] He Ht Hc), bind_ok.
  cbn [app]. rewrite (match_char_ok rules Hwf p e 0 He Ht), bind_ok. cbn [snd].
  pose proof (Forall_inv_tail Hp) as Hrest.
  assert (Hend : ptr_ok rules (class_end rules p)) by (eapply class_end_ok; eauto; by left).
  destruct (push_unless_end_ok rules _ rest Hend) as (s1 & E1 & F1 & _ & _).
  rewrite E1, bind_ok. apply limited_bind.
  assert (Hadv : limited (advance_stack fuel rules s1 []) (fun out =>
    adds [] (settles rules s1) out /\ extends rules [] (accepts rules s1) out)).
  { pose proof (advance_stack_adds rules Hwf fuel s1 [] (F1 Hrest)) as A.
    pose proof (advance_stack_ok rules Hwf fuel s1 [] (F1 Hrest)) as B.
    by destruct (advance_stack fuel rules s1 []) as [out|msg|[]]. }
  eapply limited_mono; [exact Hadv|]. intros next_stacks [Hadds Hext]. apply limited_bind.
  eapply limited_mono.
  { apply (reject_with_ok depth); [by apply (ex_some _ _ _ _ Hext)| |].
    - apply Forall_forall. intros t' (t & <- & Hin)%in_map_iff.
      apply list_elem_of_In, elem_of_filterb in Hin as [Hin Hpass].
      rewrite Forall_forall in Hc.
      destruct (ends_within_cons _ t (Hc t (proj1 (list_elem_of_In _ _) Hin))) as (d & c & l & [= <-] & El & Ec & Hmv).
      apply Hmv. intros ->. unfold char_passes in Hpass. by rewrite El in Hpass.
    - intros s cs Hsin Hcs. apply IH; [|done].
      destruct (ex_ok _ _ _ _ Hext s Hsin) as [H|H]; [by apply elem_of_nil in H|done]. }
  intros next_rejects Hrej. apply limited_ok. by eapply reject_char_stack.
Qed.
End reject.

(** ** Rejecting and accepting agree *)

Section agree.
Context (rules : llama_grammar_rules) (Hwf : grammar_wf rules).

(** [s] is one of the stacks after the character [c]. *)
Definition chr_step (c : Z) (stack s : llama_grammar_stack) : Prop :=
  match stack with
  | [] => False
  | p :: rest => exists e, elem_at rules p = Ok e /\ char_start (ge_type e) = true /\
      class_accepts rules p c = true /\
      exists s1, push_unless_end rules (class_end rules p) rest = Ok s1 /\ settles rules s1 s
  end.

Fixpoint chr_steps (cs : list Z) (stack s : llama_grammar_stack) : Prop :=
  match cs with
  | [] => s = stack
  | c :: cs => exists s', chr_step c stack s' /\ chr_steps cs s' s
  end.

Lemma adds_none acc : adds acc (fun _ => False) acc.
Proof. intros s. tauto. Qed.

Lemma adds_iff acc S S' out : (forall s, S s <-> S' s) -> adds acc S out -> adds acc S' out.
Proof. intros E H s. by rewrite (H s), E. Qed.

Lemma chr_step_ok c stack s : stack_ok rules stack -> chr_step c stack s -> stack_ok rules s.
Proof.
  intros [Hp _] Hc. destruct stack as [|p rest]; [done|].
  destruct Hc as (e & He & Ht & _ & s1 & E1 & Hset).
  assert (Hend : ptr_ok rules (class_end rules p)) by (eapply class_end_ok; eauto; by left).
  destruct (push_unless_end_ok rules _ rest Hend) as (s1' & E1' & F1 & _ & _).
  assert (s1' = s1) as -> by congruence. specialize (F1 (Forall_inv_tail Hp)).
  destruct Hset as [Hr Ht']. split; [|done]. clear -Hr F1 Hwf.
  induction Hr as [s|x y z Hxy _ IH]; [done|]. apply IH. clear IH.
  destruct x as [|q rest]; [done|]. destruct Hxy as (e & o & He & Hr & Ho & Hp).
  destruct (alternative_stack rules (Z.to_nat (ge_value e)) (next q) rest o) as (s & Es & Fs & _).
  - apply alternate_ptr; [done|by eapply elem_ref|done].
  - eapply ptr_next; eauto.
  - by apply Forall_inv_tail in F1.
  - assert (s = y) as -> by congruence. done.
Qed.

Lemma accept_chr_adds fuel stack c acc :
  stack_ok rules stack -> limited (accept_chr fuel rules stack c acc) (adds acc (chr_step c stack)).
Proof.
  intros [Hp Ht]. unfold accept_chr. destruct stack as [|p rest]; [apply limited_ok, adds_none|].
  destruct Ht as (e & He & Hc). rewrite He, bind_ok.
  assert (Hex : forall s, chr_step c (p :: rest) s <-> char_start (ge_type e) = true /\
      class_accepts rules p c = true /\
      exists s1, push_unless_end rules (class_end rules p) rest = Ok s1 /\ settles rules s1 s).
  { intros s. split; [|intros H; by exists e].
    intros (e' & He' & H). by replace e with e' by congruence. }
  destruct (token_type (ge_type e)) eqn:Et.
  { apply limited_ok. eapply adds_iff; [|apply adds_none]. intros s. rewrite Hex.
    split; [done|]. intros (H & _). by rewrite (char_not_token _ H) in Et. }
  destruct Hc as [Hc|?]; [|done].
  rewrite (match_char_ok rules Hwf p e c He Hc), bind_ok. cbn [fst snd].
  destruct (class_accepts rules p c).
  - assert (Hend : ptr_ok rules (class_end rules p)) by (eapply class_end_ok; eauto; by left).
    destruct (push_unless_end_ok rules _ rest Hend) as (s1 & E1 & F1 & _ & _).
    rewrite E1, bind_ok. eapply limited_mono; [apply (advance_stack_adds rules Hwf), F1; by apply Forall_inv_tail in Hp|].
    intros out. apply adds_iff. intros s. rewrite Hex, E1. split.
    + intros H. split_and!; [done..|]. by exists s1.
    + intros (_ & _ & s1' & [= <-] & H). done.
  - apply limited_ok. eapply adds_iff; [|apply adds_none]. intros s. rewrite Hex. split; [done|].
    by intros (_ & ? & _).
Qed.

Lemma adds_foldM {B} (f : llama_grammar_stacks -> B -> res llama_grammar_stacks)
    (S : B -> llama_grammar_stack -> Prop) l acc :
  (forall acc x, x ∈ l -> limited (f acc x) (adds acc (S x))) ->
  limited (foldM f acc l) (adds acc (fun s => exists x, x ∈ l /\ S x s)).
Proof.
  intros H. apply (limited_foldM (fun l1 => adds acc (fun s => exists x, x ∈ l1 /\ S x s)) f []).
  - intros s. split; [by left|]. intros [?|(x & Hx & _)]; [done|by apply elem_of_nil in Hx].
  - intros l1 x s Hx Hs. eapply limited_mono; [by apply H|]. intros out Hout s'.
    rewrite (Hout s'), (Hs s'). setoid_rewrite elem_of_app. setoid_rewrite list_elem_of_singleton.
    naive_solver.
Qed.

Lemma accept_stacks_adds fuel stacks c :
  Forall (stack_ok rules) stacks ->
  limited (accept_stacks fuel rules stacks c) (fun out =>
    (forall s, s ∈ out <-> exists st, st ∈ stacks /\ chr_step c st s) /\ Forall (stack_ok rules) out).
Proof.
  intros Hst. unfold accept_stacks. rewrite Forall_forall in Hst. eapply limited_mono.
  { apply (adds_foldM _ (fun st => chr_step c st)). intros acc s Hs.
    by apply accept_chr_adds, Hst, list_elem_of_In. }
  intros out H. assert (Hiff : forall s, s ∈ out <-> exists st, st ∈ stacks /\ chr_step c st s).
  { intros s. rewrite (H s). split; [|by right]. by intros [?%elem_of_nil|?]. }
  split; [done|]. apply Forall_forall. intros s Hs%list_elem_of_In.
  apply Hiff in Hs as (st & Hin & Hc). eapply chr_step_ok; [|done]. by apply Hst, list_elem_of_In.
Qed.

Lemma accept_points_adds fuel stack cs :
  stack_ok rules stack ->
  limited (accept_points fuel rules stack cs) (fun out => forall s, s ∈ out <-> chr_steps cs stack s).
Proof.
  intros Hs. unfold accept_points.
  enough (G : forall cs stacks, Forall (stack_ok rules) stacks ->
    limited (foldB (fun current_stacks chr =>
         next_stacks ← accept_stacks fuel rules current_stacks chr;
         match next_stacks with [] => Ok (inr next_stacks) | _ => Ok (inl next_stacks) end) stacks cs)
      (fun r => forall s, s ∈ (match r with inl s => s | inr s => s end) <->
         exists st, st ∈ stacks /\ chr_steps cs st s)).
  { apply limited_bind. eapply limited_mono; [apply (G cs [stack]); by constructor|].
    intros r H. assert (H' : forall s, s ∈ (match r with inl s => s | inr s => s end) <-> chr_steps cs stack s).
    { intros s. etrans; [apply H|]. setoid_rewrite list_elem_of_singleton. naive_solver. }
    by destruct r. }
  clear stack cs Hs. induction cs as [|c cs IH]; intros stacks Hst.
  { apply limited_ok. intros s. simpl. naive_solver. }
  cbn [foldB]. apply limited_bind, limited_bind.
  eapply limited_mono; [by apply accept_stacks_adds|]. intros out [Hout Hok].
  assert (Hcons : forall s, (exists st, st ∈ stacks /\ chr_steps (c :: cs) st s) <->
    exists st, st ∈ out /\ chr_steps cs st s).
  { intros s. simpl. setoid_rewrite Hout. naive_solver. }
  destruct out as [|s0 out]; apply limited_ok.
  - apply limited_ok. intros s. etrans; [|symmetry; apply Hcons]. split; [by intros ?%elem_of_nil|].
    by intros (st & ?%elem_of_nil & _).
  - eapply limited_mono; [by apply (IH (s0 :: out))|]. intros r H s.
    etrans; [apply H|symmetry; apply Hcons].
Qed.

(** Without token elements, a complete candidate can follow a stack exactly when its
    characters lead to some stack. *)
Lemma viable_steps partial id cs tl stack :
  (forall p e, elem_at rules p = Ok e -> token_type (ge_type e) = false) ->
  pu_n_remain partial = 0 -> Forall (fun c => c <> 0) cs -> stack_ok rules stack ->
  viable rules partial id (cs ++ 0 :: tl) stack <-> exists s, chr_steps cs stack s.
Proof.
  intros Hnt Hpart. revert stack. induction cs as [|c cs IH]; intros stack Hnz Hs; simpl.
  - split; [by exists stack|]. intros _. destruct stack as [|p rest]; [done|].
    destruct Hs as [_ (e & He & _)]. exists e. rewrite (Hnt p e He). auto.
  - destruct stack as [|p rest].
    { split; [intros [-> _]; by apply Forall_inv in Hnz|]. by intros (s & s' & ? & _). }
    pose proof Hs as [Hp (e & He & Hc)]. specialize (Hnt p e He) as Htk. rewrite Htk in Hc.
    destruct Hc as [Hc|?]; [|done].
    rewrite (proj2 (Z.eqb_neq c 0) (Forall_inv Hnz)). split.
    + intros (e' & He' & H). assert (e' = e) as -> by congruence. rewrite Htk in H.
      destruct H as (Ha & s1 & s & E1 & Hset & Hv).
      assert (Hstep : chr_step c (p :: rest) s) by (exists e; eauto 10).
      apply IH in Hv as [s' Hv]; [|by apply Forall_inv_tail in Hnz|by eapply chr_step_ok].
      by exists s', s.
    + intros (s' & s & Hstep & Hrest). pose proof Hstep as (e' & He' & _ & Ha & s1 & E1 & Hset).
      exists e. split; [done|]. rewrite Htk. split; [done|]. exists s1, s. split_and!; [done..|].
      apply IH; [by apply Forall_inv_tail in Hnz|by eapply chr_step_ok|by exists s'].
Qed.
End agree.
