(* ===== verification/GrammarState.v ===== *)
(** The grammar object: construction from a text, the acceptance of tokens and strings,
    the end of generation and the buffering of lazy grammars, each related to the
    language of the grammar. *)

From stdpp Require Import pretty.
From S2P Require Import Prelude StateExn GrammarParser GrammarParserOk Grammar GrammarOk GrammarLang GrammarTerm.
Local Open Scope Z_scope.
Local Open Scope st_scope.

(** ** Construction *)

Lemma copy_rule_id rule : rule_ok rule -> copy_rule rule = Ok rule.
Proof.
  intros (body & -> & Hb). unfold copy_rule.
  enough (E : forall prev, body_ok prev body = true ->
    copy_rule_loop (body ++ [mk_elem LLAMA_GRETYPE_END 0]) = Ok body) by (by rewrite (E None Hb)).
  clear Hb. induction body as [|e body IH]; intros prev Hb; [done|].
  simpl in Hb. apply andb_true_iff in Hb as [H1 H2]. specialize (IH _ H2). simpl.
  destruct (is_type (ge_type e) LLAMA_GRETYPE_END) eqn:Et.
  - apply is_type_spec in Et. rewrite Et in H1. by destruct prev.
  - by rewrite IH.
Qed.

Lemma copy_rules_id rules : grammar_wf rules -> copy_rules rules = Ok rules.
Proof.
  intros Hwf. unfold copy_rules.
  enough (E : forall acc l, Forall rule_ok l ->
    (foldM (fun l rule => r ← copy_rule rule; Ok (l ++ [r])) acc l)%stdpp = Ok (acc ++ l)).
  { apply (E [] rules). eapply list_relations.list.Forall_impl; [exact Hwf|]. by intros r [? _]. }
  intros acc l. revert acc. induction l as [|r l IH]; intros acc Hl; simpl; [by rewrite app_nil_r|].
  rewrite (copy_rule_id r (Forall_inv Hl)), !bind_ok, (IH _ (Forall_inv_tail Hl)).
  by rewrite <- app_assoc.
Qed.

(** A grammar whose stacks represent the language [L]. *)
Definition grammar_for (L : list letter -> Prop) (g : llama_grammar) : Prop :=
  grammar_wf (g_rules g) /\ stacks_for (g_rules g) L (g_stacks g).

(** A successful construction: the rules are those of the parser, and the stacks represent
    the rule of the root symbol. *)
Lemma grammar_init_str_ok fuel vocab tokenize regex o_vocab text root lazy patterns tokens g :
  grammar_init_str fuel vocab tokenize regex o_vocab text root lazy patterns tokens = Ok (Some g) ->
  exists p id, grammar_parse tokenize text llama_grammar_parser_new = (Ok true, p) /\
    gp_symbol_ids p !! root = Some id /\ g_rules g = gp_rules p /\
    grammar_for (rule_derives (g_rules g) (Z.to_nat id)) g /\
    g_awaiting_trigger g = lazy /\ g_partial_utf8 g = mk_partial 0 0.
Proof.
  intros H. unfold grammar_init_str in H.
  pose proof (grammar_parse_ok tokenize text) as Hp.
  destruct (grammar_parse tokenize text llama_grammar_parser_new) as [[[]|msg|f] p]; try done.
  destruct Hp as [_ Hwf]. cbn [negb orb] in H.
  case_bool_decide; [done|]. case_bool_decide; [done|].
  destruct (gp_symbol_ids p !! root) as [id|] eqn:Eid; [|done].
  rewrite (copy_rules_id _ Hwf), bind_ok in H.
  destruct (find_left_recursion (gp_rules p)) as [[lr|i]| |]; [|done..]. rewrite bind_ok in H.
  pose proof (fun Hlt => initial_stacks_ok (gp_rules p) Hwf fuel (Z.to_nat id) Hlt) as Hst.
  assert (Hlt : forall st, initial_stacks fuel (gp_rules p) (Z.to_nat id) = Ok st -> (Z.to_nat id < length (gp_rules p))%nat).
  { intros st E. unfold initial_stacks, rd in E.
    destruct (gp_rules p !! Z.to_nat id) eqn:El; [by eapply lookup_lt_Some|done]. }
  destruct (initial_stacks fuel (gp_rules p) (Z.to_nat id)) as [st| |] eqn:Est; [|done..].
  specialize (Hst (Hlt _ eq_refl)). rewrite bind_ok in H.
  destruct (foldM _ [] patterns) as [pats| |]; [|done..]. rewrite bind_ok in H. injection H as <-.
  exists p, id. by split_and!.
Qed.

(** ** Accepting a token *)

Lemma accept_token_ok fuel token piece g L code_points partial :
  grammar_for L g -> decode_utf8 piece (g_partial_utf8 g) = Ok (code_points, partial) ->
  match accept_token fuel token piece g with
  | (Ok _, g') => g_rules g' = g_rules g /\ g_partial_utf8 g' = partial /\ g_stacks g' <> [] /\
                  grammar_for (after_token token (body_points code_points) L) g'
  | (Throw _, _) => forall w, ~ after_token token (body_points code_points) L w
  | (Fault f, _) => f = OutOfFuel
  end.
Proof.
  intros [Hwf Hst] Hd. unfold accept_token, st_bind, st_get, lift, st_put. rewrite Hd. cbn [fst snd].
  pose proof (accept_token_stacks_ok (g_rules g) Hwf fuel token (body_points code_points) (g_stacks g) L Hst) as H.
  destruct (foldM _ [] (g_stacks g)) as [stacks|msg|f]; [|done|by destruct f].
  simpl in H. destruct stacks as [|s stacks]; simpl.
  - intros w Hw. apply (proj1 H) in Hw. by apply accepted_nil in Hw.
  - by split_and!.
Qed.

(** ** Accepting a string *)

Lemma accept_one_ok fuel c g L :
  grammar_for L g ->
  match llama_grammar_accept fuel c g with
  | (Ok _, g') => (exists stacks, g' = with_stacks stacks g) /\ grammar_for (fun w => L (Chr c :: w)) g'
  | (Throw _, _) => False
  | (Fault f, _) => f = OutOfFuel
  end.
Proof.
  intros [Hwf (H1 & H2 & H3)]. unfold llama_grammar_accept, st_bind, st_get, lift, st_put.
  pose proof (accept_stacks_ok (g_rules g) Hwf fuel (g_stacks g) c H2) as H.
  destruct (accept_stacks fuel (g_rules g) (g_stacks g) c) as [stacks|msg|f]; [|done|by destruct f].
  destruct H as (O1 & O2 & O3). split; [by exists stacks|]. split; [done|]. split_and!; [|done..].
  intros w. cbn [g_stacks with_stacks g_rules]. by rewrite O1, H1.
Qed.

Definition accept_chars (fuel : nat) : list Z -> ST llama_grammar (list Z + list Z) := fun chrs =>
  match chrs with
  | [] => st_ret (inr [])
  | chr :: chrs => llama_grammar_accept fuel chr ;;; st_ret (inl chrs)
  end.

Lemma accept_chars_ok fuel chrs n g L :
  (length chrs < n)%nat -> grammar_for L g ->
  match st_loop n (accept_chars fuel) chrs g with
  | (Ok _, g') => (exists stacks, g' = with_stacks stacks g) /\ grammar_for (fun w => L (feed chrs w)) g'
  | (Throw _, _) => False
  | (Fault f, _) => f = OutOfFuel
  end.
Proof.
  revert n g L. induction chrs as [|c chrs IH]; intros n g L Hn Hg.
  - destruct n as [|n]; [simpl in Hn; lia|]. simpl. split; [|done].
    exists (g_stacks g). by destruct g.
  - destruct n as [|n]; [simpl in Hn; lia|]. simpl in Hn. cbn [st_loop accept_chars].
    pose proof (accept_one_ok fuel c g L Hg) as H1. unfold st_bind at 1 2.
    destruct (llama_grammar_accept fuel c g) as [[u|msg|f] g1]; [|done..].
    destruct H1 as [[stacks1 ->] H1]. unfold st_ret.
    specialize (IH n _ _ ltac:(lia) H1).
    destruct (st_loop n (accept_chars fuel) chrs _) as [[r|msg|f] g2]; [|done..].
    destruct IH as [[stacks2 ->] H2]. split; [by exists stacks2|exact H2].
Qed.

Lemma accept_str_ok fuel piece g L code_points partial :
  grammar_for L g -> decode_utf8 piece (g_partial_utf8 g) = Ok (code_points, partial) ->
  match accept_str fuel piece g with
  | (Ok _, g') => g_rules g' = g_rules g /\ g_partial_utf8 g' = partial /\ g_stacks g' <> [] /\
                  grammar_for (fun w => L (feed (body_points code_points) w)) g'
  | (Throw _, _) => forall w, ~ L (feed (body_points code_points) w)
  | (Fault f, _) => f = OutOfFuel
  end.
Proof.
  intros Hg Hd. unfold accept_str. fold (accept_chars fuel).
  unfold st_bind at 1, st_get at 1. unfold st_bind at 1, lift at 1. rewrite Hd. cbn [fst snd].
  unfold st_bind at 1.
  pose proof (accept_chars_ok fuel (body_points code_points) (S (length code_points)) g L) as H.
  assert (Hlen : (length (body_points code_points) < S (length code_points))%nat).
  { unfold body_points. clear. induction code_points as [|c [|c' l] IH]; simpl in *; lia. }
  specialize (H Hlen Hg).
  destruct (st_loop _ (accept_chars fuel) _ g) as [[r|msg|f] g1]; [|done..].
  destruct H as [[stacks ->] [Hwf Hst]]. unfold st_bind, st_get, st_put, st_throw, st_ret. simpl.
  destruct stacks as [|s stacks]; simpl.
  - intros w Hw. apply (proj1 Hst) in Hw. by apply accepted_nil in Hw.
  - by split_and!.
Qed.
