(* ===== verification/GrammarSpec.v ===== *)
(** What the grammar component promises: the parser, the decoder, the matcher and the
    grammar object of src/llama/llama.cpp/src/llama-grammar.cpp as a whole.  A run of
    [llama_grammar_accept_impl] over tokens follows the language of the grammar text. *)
From stdpp Require Import pretty.
From S2P Require Import Prelude StateExn GrammarParser GrammarParserOk Utf8 Grammar GrammarOk GrammarLang.
From S2P Require Import GrammarTerm GrammarLeftRec GrammarReject GrammarState.
Local Open Scope Z_scope.
Local Open Scope st_scope.

(** ** Text in chunks *)

(** Decoding the pieces of a text one after the other; the terminating 0 of each is dropped. *)
Fixpoint decode_chunks (chunks : list string) (p : llama_partial_utf8) : res (list Z * llama_partial_utf8) :=
  (match chunks with
   | [] => Ok ([], p)
   | s :: chunks =>
       r ← decode_utf8 s p;
       r' ← decode_chunks chunks r.2;
       Ok (body_points r.1 ++ r'.1, r'.2)
   end)%stdpp.

Lemma body_points_snoc l : body_points (l ++ [0]) = l.
Proof. apply removelast_last. Qed.

Lemma waiting_end p l pc : waiting p l pc -> l = [] -> pc = [] /\ pu_n_remain p = 0.
Proof. intros [v|v l' Hl _] E; [done|by subst]. Qed.

Lemma decode_chunks_stream chunks : forall p l pc cs,
  waiting p l pc -> Forall code_point cs -> l ++ utf8_encode cs = concat chunks ->
  exists p', decode_chunks (map str_of chunks) p = Ok (pc ++ cs, p') /\ pu_n_remain p' = 0.
Proof.
  induction chunks as [|s chunks IH]; intros p l pc cs Hw Hcs E; simpl in *.
  - apply app_nil in E as [-> E]. destruct (waiting_end _ _ _ Hw eq_refl) as [-> Hp].
    exists p. split; [|done]. destruct cs as [|c cs]; [done|]. exfalso.
    apply Forall_inv in Hcs. destruct (utf8_bytes_encoded c Hcs) as (b & l & Eb & _).
    unfold utf8_encode in E. simpl in E. by rewrite Eb in E.
  - destruct (decode_utf8_stream p l pc cs s (concat chunks) Hw Hcs E) as (out & p1 & l1 & pc1 & cs1 & E1 & Hw1 & E2 & Hcs1 & E3).
    rewrite E1, bind_ok. destruct (IH p1 l1 pc1 cs1 Hw1 Hcs1 (eq_sym E2)) as (p' & E4 & Hp').
    cbn [fst snd]. rewrite E4, bind_ok, body_points_snoc. exists p'. split; [|done]. cbn [fst snd]. by rewrite <- E3.
Qed.

(** ** Runs over tokens *)

(** The sampler accepts the chosen tokens one by one. *)
Fixpoint accept_all (fuel : nat) (tokens : list Z) : ST llama_grammar unit :=
  match tokens with
  | [] => st_ret tt
  | t :: tokens => accept_impl fuel t ;;; accept_all fuel tokens
  end.

Section spelled.
Context (piece : Z -> string).

(** [spelled p tokens rest w]: the tokens, decoded from the state [p], spell a word in front
    of [rest]; the whole is [w].  A token stands for itself or for the characters of its
    piece, and a piece without a complete character is followed by a character. *)
Inductive spelled : llama_partial_utf8 -> list Z -> list letter -> list letter -> Prop :=
  | spelled_nil p rest : spelled p [] rest rest
  | spelled_tok p t ts rest w code_points p' :
      decode_utf8 (piece t) p = Ok (code_points, p') -> spelled p' ts rest w ->
      spelled p (t :: ts) rest (Tok t :: w)
  | spelled_chrs p t ts rest w code_points p' :
      decode_utf8 (piece t) p = Ok (code_points, p') -> spelled p' ts rest w ->
      (body_points code_points = [] -> exists c w', w = Chr c :: w') ->
      spelled p (t :: ts) rest (feed (body_points code_points) w).

(** What is left of a language after the tokens. *)
Definition residual (L : list letter -> Prop) p tokens (rest : list letter) : Prop :=
  exists w, spelled p tokens rest w /\ L w.

Lemma residual_nil L p rest : residual L p [] rest <-> L rest.
Proof. split; [|by exists rest; split; [constructor|]]. intros (w & H & HL). by inversion H; subst. Qed.

Lemma residual_cons L p t ts rest code_points p' :
  decode_utf8 (piece t) p = Ok (code_points, p') ->
  residual L p (t :: ts) rest <-> residual (after_token t (body_points code_points) L) p' ts rest.
Proof.
  intros Hd. split.
  - intros (w & H & HL). inversion H as [|? ? ? ? w' ? ? Hd' H'|? ? ? ? w' ? ? Hd' H' Hh]; subst;
      rewrite Hd in Hd'; injection Hd' as <- <-; exists w'; (split; [done|]); [by left|by right].
  - intros (w & H & [HL|[HL Hh]]); eexists; (split; [|exact HL]).
    + by eapply spelled_tok.
    + by eapply spelled_chrs.
Qed.
End spelled.

Lemma accept_impl_plain fuel t g pc :
  g_awaiting_trigger g = false -> token_to_piece g t = Ok pc -> is_eog g t = Ok false ->
  accept_impl fuel t g = accept_token fuel t pc g.
Proof. intros H1 H2 H3. unfold accept_impl, st_bind, st_get, lift. by rewrite H2, H1, H3. Qed.

(** The vocabulary is not changed by accepting a token. *)
Lemma accept_token_frame fuel t pc g r g' :
  accept_token fuel t pc g = (Ok r, g') -> exists s p, g' = with_partial p (with_stacks s g).
Proof.
  unfold accept_token, st_bind, st_get, lift, st_put. intros H.
  destruct (decode_utf8 pc _) as [[cps p]|?|?]; [|done..].
  destruct (foldM _ _ _) as [s|?|?]; [|done..]. cbn [fst snd] in H.
  destruct s as [|x s]; [done|]. injection H as <- <-. eauto.
Qed.

Section run.
Context (piece : Z -> string) (fuel : nat).

(** Accepting tokens that are not end-of-generation takes the residual language. *)
Lemma accept_all_ok tokens : forall g L,
  grammar_for L g -> g_awaiting_trigger g = false ->
  Forall (fun t => token_to_piece g t = Ok (piece t) /\ is_eog g t = Ok false) tokens ->
  match accept_all fuel tokens g with
  | (Ok _, g') => g_rules g' = g_rules g /\ g_awaiting_trigger g' = false /\
      (forall t, is_eog g' t = is_eog g t) /\ (forall t, token_to_piece g' t = token_to_piece g t) /\
      grammar_for (residual piece L (g_partial_utf8 g) tokens) g'
  | (Throw _, _) => forall rest, ~ residual piece L (g_partial_utf8 g) tokens rest
  | (Fault f, _) => f = OutOfFuel
  end.
Proof.
  induction tokens as [|t ts IH]; intros g L Hg Ha Ht; simpl.
  - split_and!; try done. destruct Hg as [Hwf (H1 & H2 & H3)]. split; [done|]. split_and!; try done.
    intros w. rewrite H1. by rewrite residual_nil.
  - apply Forall_cons_iff in Ht as [[Hp He] Ht]. unfold st_bind.
    rewrite (accept_impl_plain fuel t g (piece t) Ha Hp He).
    destruct (decode_utf8_total (piece t) (g_partial_utf8 g)) as (cps & p' & Hd).
    pose proof (accept_token_ok fuel t (piece t) g L _ p' Hg Hd) as H.
    destruct (accept_token fuel t (piece t) g) as [[r|msg|f] g1] eqn:E; [|..|done].
    2:{ intros rest HR. apply (residual_cons piece L _ t ts rest _ p' Hd) in HR as (w & Hw & HL). by apply (H w). }
    destruct H as (R1 & R2 & R3 & Hg1). destruct (accept_token_frame _ _ _ _ _ _ E) as (s & q & Eg).
    assert (F : forall x, is_eog g1 x = is_eog g x /\ token_to_piece g1 x = token_to_piece g x) by (subst g1; done).
    specialize (IH g1 _ Hg1).
    assert (Ha1 : g_awaiting_trigger g1 = false) by (subst g1; done).
    assert (Ht1 : Forall (fun t => token_to_piece g1 t = Ok (piece t) /\ is_eog g1 t = Ok false) ts).
    { eapply list_relations.list.Forall_impl; [exact Ht|]. intros x [X1 X2]. by rewrite (proj1 (F x)), (proj2 (F x)). }
    specialize (IH Ha1 Ht1). rewrite R2 in IH.
    destruct (accept_all fuel ts g1) as [[r'|msg|f] g2]; [|..|done].
    + destruct IH as (I1 & I3 & I4 & I5 & [I6 (I7 & I8 & I9)]). split_and!; try done; try congruence.
      * intros x. rewrite I4. apply F.
      * intros x. rewrite I5. apply F.
      * split; [done|]. split_and!; try done. intros w. rewrite I7. symmetry. by apply residual_cons.
    + intros rest HR. apply (IH rest). by apply (residual_cons piece L _ t ts rest _ p' Hd).
Qed.

End run.

(** The end of generation. *)
Lemma accept_eog_ok fuel g L e :
  grammar_for L g -> g_awaiting_trigger g = false -> is_eog g e = Ok true ->
  (exists pc, token_to_piece g e = Ok pc) ->
  (L [] -> accept_impl fuel e g = (Ok tt, g)) /\ (~ L [] -> accept_impl fuel e g = (Fault AbortCalled, g)).
Proof.
  intros [Hwf (H1 & H2 & H3)] Ha He (pc & Hp).
  assert (Hacc : accept_impl fuel e g = if decide ([] ∈ g_stacks g) then (Ok tt, g) else (Fault AbortCalled, g)).
  { unfold accept_impl, st_bind, st_get, lift. rewrite Hp, Ha, He. by destruct (decide _). }
  rewrite Hacc. pose proof (accepted_nil_iff (g_rules g) (g_stacks g) H2) as Hn. rewrite H1 in Hn.
  destruct (decide _) as [Hd|Hd]; split; intros HL; try done; tauto.
Qed.

(** A run from the start of a grammar text. *)
Lemma generation_run piece fuel vocab tokenize regex o_vocab text root patterns trig g tokens :
  grammar_init_str fuel vocab tokenize regex o_vocab text root false patterns trig = Ok (Some g) ->
  Forall (fun t => token_to_piece g t = Ok (piece t) /\ is_eog g t = Ok false) tokens ->
  exists p id, grammar_parse tokenize text llama_grammar_parser_new = (Ok true, p) /\
    gp_symbol_ids p !! root = Some id /\
    let L := residual piece (rule_derives (gp_rules p) (Z.to_nat id)) (mk_partial 0 0) tokens in
    match accept_all fuel tokens g with
    | (Ok _, g') => grammar_for L g' /\ g_rules g' = gp_rules p /\ g_awaiting_trigger g' = false /\
        (forall t, is_eog g' t = is_eog g t) /\ (forall t, token_to_piece g' t = token_to_piece g t)
    | (Throw _, _) => forall rest, ~ L rest
    | (Fault f, _) => f = OutOfFuel
    end.
Proof.
  intros Hi Ht. destruct (grammar_init_str_ok _ _ _ _ _ _ _ _ _ _ _ Hi) as (p & id & H1 & H2 & H3 & H4 & H5 & H6).
  exists p, id. split; [done|]. split; [done|]. intros L.
  pose proof (accept_all_ok piece fuel tokens g _ H4 H5 Ht) as H. rewrite H6, H3 in H. fold L in H.
  destruct (accept_all fuel tokens g) as [[r|msg|f] g']; [|done..].
  destruct H as (R1 & R2 & R3 & R4 & R5). by split_and!.
Qed.

(** ** Termination *)

(** Every rule that derives the empty word has an alternative without elements. *)
Definition empty_directly (rules : llama_grammar_rules) : Prop :=
  forall r, rule_derives rules r [] -> empty_rule rules r = true.

Lemma foldM_not_fuel {S A} (f : S -> A -> res S) l : forall s,
  (forall s x, f s x <> Fault OutOfFuel) -> foldM f s l <> Fault OutOfFuel.
Proof.
  induction l as [|x l IH]; intros s H; simpl; [done|]. specialize (H s x) as Hx.
  destruct (f s x); simpl; [by apply IH|done|congruence].
Qed.

Lemma init_settled vocab tokenize regex o_vocab text root lazy patterns trig :
  (forall s, regex s <> Fault OutOfFuel) ->
  (forall p, grammar_parse tokenize text llama_grammar_parser_new = (Ok true, p) -> empty_directly (gp_rules p)) ->
  exists n r, r <> Fault OutOfFuel /\
    (forall k, (n <= k)%nat -> grammar_init_str k vocab tokenize regex o_vocab text root lazy patterns trig = r) /\
    forall g, r = Ok (Some g) -> no_left_recursion (g_rules g).
Proof.
  intros Hre Hd. pose proof (grammar_parse_ok tokenize text) as Hp. unfold grammar_init_str.
  destruct (grammar_parse tokenize text llama_grammar_parser_new) as [[[]|msg|f] p]; try done.
  2:{ by exists 0%nat, (Ok None). }
  2:{ exists 0%nat, (Fault f). split; [by destruct Hp as [-> _]|done]. }
  destruct Hp as [_ Hwf]. cbn [negb orb].
  case_bool_decide; [by exists 0%nat, (Ok None)|]. case_bool_decide; [by exists 0%nat, (Ok None)|].
  destruct (gp_symbol_ids p !! root) as [id|]; [|by exists 0%nat, (Throw "map::at")].
  pose proof (find_ok (gp_rules p) Hwf) as Hf. pose proof (find_accepts (gp_rules p) Hwf (Hd p eq_refl)) as Hn.
  destruct (find_left_recursion (gp_rules p)) as [[lr|i]| |] eqn:El; [|exists 0%nat, (Ok None)|done..].
  2:{ split; [done|]. split; [|done]. intros k _. by rewrite (copy_rules_id _ Hwf), bind_ok, El, bind_ok. }
  specialize (Hn lr eq_refl).
  destruct (decide (Z.to_nat id < length (gp_rules p))%nat) as [Hlt|Hlt].
  2:{ exists 0%nat, (Fault OutOfRange). split; [done|]. split; [|done]. intros k _.
      rewrite (copy_rules_id _ Hwf), bind_ok, El, bind_ok. unfold initial_stacks, rd.
      rewrite lookup_ge_None_2 by lia. done. }
  destruct (initial_settled (gp_rules p) Hwf Hn (Z.to_nat id) Hlt) as (n & st & Hst).
  assert (Hpat : foldM (fun l p => r ← regex p; Ok (l ++ [mk_trigger p r]))%stdpp [] patterns <> Fault OutOfFuel).
  { apply foldM_not_fuel. intros l q. destruct (regex q) eqn:Eq; [done..|]. intros [= ->]. by apply (Hre q). }
  set (built pats := Some (mk_grammar vocab o_vocab (gp_rules p) st (mk_partial 0 0) lazy lazy EmptyString [] trig pats)).
  assert (E : forall k, (n <= k)%nat ->
    (vec_rules ← copy_rules (gp_rules p); lr ← find_left_recursion vec_rules;
     match lr with
     | inr _ => Ok None
     | inl _ =>
         stacks ← initial_stacks k vec_rules (Z.to_nat id);
         patterns ← foldM (fun l p => r ← regex p; Ok (l ++ [mk_trigger p r])) [] patterns;
         Ok (Some (mk_grammar vocab o_vocab vec_rules stacks (mk_partial 0 0) lazy lazy EmptyString [] trig patterns))
     end)%stdpp = (pats ← foldM (fun l p => r ← regex p; Ok (l ++ [mk_trigger p r])) [] patterns; Ok (built pats))%stdpp).
  { intros k Hk. rewrite (copy_rules_id _ Hwf), bind_ok, El, bind_ok, (Hst k Hk), bind_ok. reflexivity. }
  eexists n, _. split; [|split; [exact E|]].
  - destruct (foldM _ [] patterns) as [pats|msg|f]; simpl; [done|done|congruence].
  - intros g. destruct (foldM _ [] patterns) as [pats|msg|f]; simpl; [|done|done]. intros [= <-]. exact Hn.
Qed.

(** A run over tokens ends too, whatever the tokens. *)
Lemma accept_impl_settled g L t :
  grammar_for L g -> no_left_recursion (g_rules g) -> g_awaiting_trigger g = false ->
  token_to_piece g t <> Fault OutOfFuel -> is_eog g t <> Fault OutOfFuel ->
  exists n r, r.1 <> Fault OutOfFuel /\ forall k, (n <= k)%nat -> accept_impl k t g = r.
Proof.
  intros [Hwf (_ & Hs & _)] Hlr Ha Hp He. unfold accept_impl, st_bind, st_get, lift.
  destruct (token_to_piece g t) as [pc|msg|f]; [|by exists 0%nat, (Throw msg, g)|exists 0%nat, (Fault f, g); split; [simpl; congruence|done]].
  rewrite Ha. destruct (is_eog g t) as [b|msg|f];
    [|by exists 0%nat, (Throw msg, g)|exists 0%nat, (Fault f, g); split; [simpl; congruence|done]].
  destruct b.
  { destruct (decide _); [by exists 0%nat, (Ok tt, g)|by exists 0%nat, (Fault AbortCalled, g)]. }
  by apply (accept_token_settled (g_rules g)).
Qed.

Lemma accept_all_settled piece tokens : forall g L,
  grammar_for L g -> no_left_recursion (g_rules g) -> g_awaiting_trigger g = false ->
  Forall (fun t => token_to_piece g t = Ok (piece t) /\ is_eog g t = Ok false) tokens ->
  exists n r, r.1 <> Fault OutOfFuel /\ forall k, (n <= k)%nat -> accept_all k tokens g = r.
Proof.
  induction tokens as [|t ts IH]; intros g L Hg Hlr Ha Ht; simpl; [by exists 0%nat, (Ok tt, g)|].
  apply Forall_cons_iff in Ht as [[Hp He] Ht].
  destruct (accept_impl_settled g L t Hg Hlr Ha) as (n & r & Hr & Hn); [congruence..|].
  pose proof (accept_all_ok piece n [t] g L Hg Ha) as H1. rewrite Forall_singleton in H1.
  specialize (H1 (conj Hp He)). simpl in H1. unfold st_bind in *. rewrite (Hn n) in H1 by lia.
  destruct r as [[u|msg|f] g1].
  - destruct H1 as (R1 & R2 & R3 & R4 & R5). rewrite <- R1 in Hlr.
    destruct (IH g1 _ R5 Hlr R2) as (n' & r' & Hr' & Hn').
    { eapply list_relations.list.Forall_impl; [exact Ht|]. intros x [X1 X2]. by rewrite R3, R4. }
    exists (Nat.max n n'), r'. split; [done|]. intros k Hk. rewrite Hn by lia. apply Hn'. lia.
  - exists n, (Throw msg, g1). split; [done|]. intros k Hk. by rewrite Hn.
  - exists n, (Fault f, g1). split; [done|]. intros k Hk. by rewrite Hn.
Qed.

(** A grammar text and a vocabulary for the examples. *)
Definition toy_text : string := "root ::= [a-c] root | [^x] |".
Definition toy_vocab : ollama_vocab :=
  mk_ollama_vocab (<[0 := "</s>"%string]> (<[1 := "ab"%string]> (<[2 := "d"%string]> ∅))) {[ 0 ]}.
Definition toy_init : res (option llama_grammar) :=
  grammar_init_str 8 None None (fun _ => Throw "regex") (Some toy_vocab) toy_text "root" false [] [].
Definition toy_grammar : llama_grammar :=
  match toy_init with Ok (Some g) => g | _ => mk_grammar None None [] [] (mk_partial 0 0) false false EmptyString [] [] [] end.
Definition toy_piece (t : Z) : string := if t =? 1 then "ab" else if t =? 2 then "d" else "</s>".

Lemma toy_grammar_init_ok : toy_init = Ok (Some toy_grammar).
Proof. vm_compute. reflexivity. Qed.

Lemma toy_tokens : Forall (fun t => token_to_piece toy_grammar t = Ok (toy_piece t) /\ is_eog toy_grammar t = Ok false) [1; 2].
Proof. repeat constructor. Qed.

Lemma toy_wf : grammar_wf (g_rules toy_grammar).
Proof. destruct (grammar_init_str_ok _ _ _ _ _ _ _ _ _ _ _ toy_grammar_init_ok) as (p & id & _ & _ & _ & [H _] & _). exact H. Qed.

(** The only rule has an empty alternative. *)
Lemma toy_empty p :
  grammar_parse None toy_text llama_grammar_parser_new = (Ok true, p) -> empty_directly (gp_rules p).
Proof.
  intros Hp r (o & Ho & Hd). assert (E : gp_rules p = g_rules toy_grammar).
  { transitivity (gp_rules (grammar_parse None toy_text llama_grammar_parser_new).2); [by rewrite Hp|].
    vm_compute. reflexivity. }
  rewrite E in *. destruct r as [|r]; [vm_compute; reflexivity|]. exfalso.
  inversion Hd as [q e He|q e c w He|q e t w He|q e o' w1 w2 He]; subst;
    apply elem_at_ok in He as (rule & Hr & _); by vm_compute in Hr.
Qed.

(** ** Properties *)

(** C32: parsing answers on every text and with every tokenizer: true with rules that are well
    formed (each a body with its only END at the end, ranges and class members in their
    places, references to existing rules) and, below 2^32 symbols, a symbol table that
    numbers the names from 0 without repetition; or false without rules.  No exception
    leaves it, no assertion fails, and no index leaves its bounds before the symbols number
    2^32, where the number of a rule plus one wraps around. *)
Theorem parse_total vocab src :
  match grammar_parse vocab src llama_grammar_parser_new with
  | (Ok true, p) => grammar_wf (gp_rules p) /\
      (Z.of_nat (size (gp_symbol_ids p)) < 4294967296 -> numbering (gp_symbol_ids p))
  | (Ok false, p) => gp_rules p = []
  | (Throw _, _) => False
  | (Fault f, p) => f = OutOfRange /\ 4294967296 <= Z.of_nat (size (gp_symbol_ids p))
  end.
Proof.
  pose proof (grammar_parse_ok vocab src) as H. destruct (grammar_parse _ _ _) as [[[]|?|?] p]; try done.
  destruct H as [H1 H2]. split; [done|apply (pi_numbering p H1)].
Qed.

(** Both answers occur. *)
Lemma parse_total_witness : exists p p',
  grammar_parse None toy_text llama_grammar_parser_new = (Ok true, p) /\ grammar_wf (gp_rules p) /\ numbering (gp_symbol_ids p) /\
  grammar_parse None "root ::= other" llama_grammar_parser_new = (Ok false, p') /\ gp_rules p' = [].
Proof.
  pose proof (parse_total None toy_text) as H. remember (grammar_parse None toy_text llama_grammar_parser_new) as r eqn:E.
  assert (Er : r.1 = Ok true) by (rewrite E; vm_compute; reflexivity).
  assert (Es : size (gp_symbol_ids r.2) = 1%nat) by (rewrite E; vm_compute; reflexivity).
  destruct r as [r p]. cbn [fst snd] in *. subst r. exists p. destruct H as [H1 H2].
  pose proof (parse_total None "root ::= other") as H'. remember (grammar_parse None "root ::= other" llama_grammar_parser_new) as r' eqn:E'.
  assert (Er' : r'.1 = Ok false) by (rewrite E'; vm_compute; reflexivity).
  destruct r' as [r' p']. cbn [fst snd] in *. subst r'. exists p'.
  split; [reflexivity|]. split; [exact H1|]. split; [apply H2; rewrite Es; reflexivity|]. by split.
Defined.

(** C35: the streaming decoder reads back the UTF-8 encoding: a text cut anywhere, also inside
    a character, and decoded chunk by chunk gives exactly its code points, and nothing is
    left pending at the end. *)
Theorem utf8_chunks_roundtrip chunks cs :
  Forall code_point cs -> concat chunks = utf8_encode cs ->
  exists p', decode_chunks (map str_of chunks) (mk_partial 0 0) = Ok (cs, p') /\ pu_n_remain p' = 0.
Proof.
  intros Hcs E. apply (decode_chunks_stream chunks (mk_partial 0 0) [] [] cs); [constructor|done|by symmetry].
Qed.

Lemma utf8_chunks_roundtrip_witness :
  exists p', decode_chunks (map str_of [[97; 226; 130]; [172; 240; 159]; [152; 128]]) (mk_partial 0 0) =
    Ok ([97; 8364; 128512], p').
Proof.
  destruct (utf8_chunks_roundtrip [[97; 226; 130]; [172; 240; 159]; [152; 128]] [97; 8364; 128512]) as (p' & H & _).
  - repeat constructor.
  - reflexivity.
  - by exists p'.
Defined.

(** A character matches an element exactly when it belongs to the class written there
    (its single characters, ranges and the any-character, complemented after [^]), and
    matching leaves the pointer behind the class. *)
Theorem match_char_class rules p e c :
  grammar_wf rules -> elem_at rules p = Ok e -> char_start (ge_type e) = true ->
  match_char rules p c = Ok (class_accepts rules p c, class_end rules p).
Proof. intros Hwf. by apply match_char_ok. Qed.

Lemma match_char_class_witness :
  match_char (g_rules toy_grammar) (0%nat, 0%nat) 98 = Ok (true, (0%nat, 2%nat)).
Proof.
  apply (match_char_class (g_rules toy_grammar) (0%nat, 0%nat) (mk_elem LLAMA_GRETYPE_CHAR 97) 98).
  - exact toy_wf.
  - reflexivity.
  - reflexivity.
Defined.

(** C5: a grammar built from a text starts in the language of its root rule, and accepting
    tokens follows that language: after the tokens, the stacks accept exactly the words
    that, behind what the tokens spell (each as itself or by the characters of its piece,
    decoded across token boundaries), are derived from the root; the exception of an
    accepted token means that no derived word continues. *)
Theorem generation_language piece fuel vocab tokenize regex o_vocab text root patterns trig g tokens :
  grammar_init_str fuel vocab tokenize regex o_vocab text root false patterns trig = Ok (Some g) ->
  Forall (fun t => token_to_piece g t = Ok (piece t) /\ is_eog g t = Ok false) tokens ->
  exists p id, grammar_parse tokenize text llama_grammar_parser_new = (Ok true, p) /\
    gp_symbol_ids p !! root = Some id /\
    let L rest := exists w, spelled piece (mk_partial 0 0) tokens rest w /\ rule_derives (gp_rules p) (Z.to_nat id) w in
    match accept_all fuel tokens g with
    | (Ok _, g') => forall rest, accepted (gp_rules p) (g_stacks g') rest <-> L rest
    | (Throw _, _) => forall rest, ~ L rest
    | (Fault f, _) => f = OutOfFuel
    end.
Proof.
  intros Hi Ht. destruct (generation_run piece _ _ _ _ _ _ _ _ _ _ tokens Hi Ht) as (p & id & H1 & H2 & H3).
  exists p, id. split; [done|]. split; [done|]. simpl in *.
  destruct (accept_all fuel tokens g) as [[r|msg|f] g']; [|done..].
  destruct H3 as ([_ (H4 & _)] & H5 & _). rewrite H5 in H4. exact H4.
Qed.

Lemma generation_language_witness :
  exists p id, grammar_parse None toy_text llama_grammar_parser_new = (Ok true, p) /\
    gp_symbol_ids p !! "root"%string = Some id /\
    forall rest, accepted (gp_rules p) (g_stacks (accept_all 8 [1; 2] toy_grammar).2) rest <->
      exists w, spelled toy_piece (mk_partial 0 0) [1; 2] rest w /\ rule_derives (gp_rules p) (Z.to_nat id) w.
Proof.
  destruct (generation_language toy_piece 8 None None (fun _ => Throw "regex") (Some toy_vocab) toy_text "root" [] []
    toy_grammar [1; 2] toy_grammar_init_ok toy_tokens) as (p & id & H1 & H2 & H3).
  exists p, id. split; [exact H1|]. split; [exact H2|].
  assert (E : (accept_all 8 [1; 2] toy_grammar).1 = Ok tt) by (vm_compute; reflexivity).
  destruct (accept_all 8 [1; 2] toy_grammar) as [r g']. simpl in E. subst r. exact H3.
Defined.

(** An end-of-generation token is accepted, without any change, exactly when what the
    tokens spell is itself a word of the root rule; otherwise the program aborts. *)
Theorem end_of_generation piece fuel vocab tokenize regex o_vocab text root patterns trig g tokens g' e pc :
  grammar_init_str fuel vocab tokenize regex o_vocab text root false patterns trig = Ok (Some g) ->
  Forall (fun t => token_to_piece g t = Ok (piece t) /\ is_eog g t = Ok false) tokens ->
  accept_all fuel tokens g = (Ok tt, g') -> is_eog g e = Ok true -> token_to_piece g e = Ok pc ->
  exists p id, grammar_parse tokenize text llama_grammar_parser_new = (Ok true, p) /\
    gp_symbol_ids p !! root = Some id /\
    let word := exists w, spelled piece (mk_partial 0 0) tokens [] w /\ rule_derives (gp_rules p) (Z.to_nat id) w in
    (word -> accept_impl fuel e g' = (Ok tt, g')) /\ (~ word -> accept_impl fuel e g' = (Fault AbortCalled, g')).
Proof.
  intros Hi Ht Ha He Hp. destruct (generation_run piece _ _ _ _ _ _ _ _ _ _ tokens Hi Ht) as (p & id & H1 & H2 & H3).
  rewrite Ha in H3. destruct H3 as (H4 & _ & H5 & H6 & H7). exists p, id. split; [done|]. split; [done|].
  apply (accept_eog_ok fuel g' _ e H4 H5); [by rewrite H6|]. exists pc. by rewrite H7.
Qed.

Lemma end_of_generation_witness :
  exists g', accept_all 8 [1; 2] toy_grammar = (Ok tt, g') /\ exists p id,
    grammar_parse None toy_text llama_grammar_parser_new = (Ok true, p) /\ gp_symbol_ids p !! "root"%string = Some id /\
    ((exists w, spelled toy_piece (mk_partial 0 0) [1; 2] [] w /\ rule_derives (gp_rules p) (Z.to_nat id) w) ->
     accept_impl 8 0 g' = (Ok tt, g')).
Proof.
  assert (E : (accept_all 8 [1; 2] toy_grammar).1 = Ok tt) by (vm_compute; reflexivity).
  destruct (accept_all 8 [1; 2] toy_grammar) as [r g'] eqn:Ea. simpl in E. subst r. exists g'. split; [reflexivity|].
  destruct (end_of_generation toy_piece 8 None None (fun _ => Throw "regex") (Some toy_vocab) toy_text "root" [] []
    toy_grammar [1; 2] g' 0 "</s>" toy_grammar_init_ok toy_tokens Ea) as (p & id & H1 & H2 & H3 & _); [reflexivity|reflexivity|].
  exists p, id. split; [exact H1|]. split; [exact H2|exact H3].
Defined.

(** Every symbol of the rules derives some word. *)
Definition productive (rules : llama_grammar_rules) : Prop := forall p, pending rules p -> exists w, derives rules p w.

Lemma productive_stack rules s : productive rules -> Forall (pending rules) s -> exists w, accepts rules s w.
Proof.
  intros Hp. induction 1 as [|p s H _ [w Hw]]; [exists []; constructor|]. destruct (Hp p H) as [w1 Hw1].
  exists (w1 ++ w). by constructor.
Qed.

(** C36: accepting a string takes the derivative of the language by the characters that the
    string completes and keeps an incomplete sequence for the next call.  When it throws, no
    word of the language continues; when it returns, a stack is left, and if every symbol of
    the rules derives some word then a word of the language continues, so that it throws
    exactly when none does.  (With a symbol that derives nothing, as in root ::= "a" root, a
    stack can be left that no word continues.) *)
Theorem accept_str_derivative fuel piece g L :
  grammar_for L g ->
  exists code_points partial, decode_utf8 piece (g_partial_utf8 g) = Ok (code_points, partial) /\
  match accept_str fuel piece g with
  | (Ok _, g') => g_partial_utf8 g' = partial /\ g_stacks g' <> [] /\
                  grammar_for (fun w => L (feed (body_points code_points) w)) g' /\
                  (productive (g_rules g) -> exists w, L (feed (body_points code_points) w))
  | (Throw _, _) => forall w, ~ L (feed (body_points code_points) w)
  | (Fault f, _) => f = OutOfFuel
  end.
Proof.
  intros Hg. destruct (decode_utf8_total piece (g_partial_utf8 g)) as (cps & p & Hd).
  exists (cps ++ [0]), p. split; [done|]. pose proof (accept_str_ok fuel piece g L _ _ Hg Hd) as H.
  destruct (accept_str fuel piece g) as [[r|msg|f] g']; [|done..]. destruct H as (Er & H1 & H2 & H3). split_and!; [done..|].
  intros Hp. destruct H3 as [_ (Hl & Hs & _)]. destruct (g_stacks g') as [|s stacks] eqn:E; [done|].
  destruct (productive_stack (g_rules g) s Hp) as [w Hw].
  { rewrite Er in Hs. by destruct (Forall_inv Hs). }
  exists w. apply Hl. exists s. rewrite Er. split; [by left|done].
Qed.

Lemma accept_str_derivative_witness :
  (accept_str 8 "abz" toy_grammar).1 = Ok tt /\ exists L, grammar_for L toy_grammar /\
    grammar_for (fun w => L (feed [97; 98; 122] w)) (accept_str 8 "abz" toy_grammar).2.
Proof.
  destruct (grammar_init_str_ok _ _ _ _ _ _ _ _ _ _ _ toy_grammar_init_ok) as (p & id & _ & _ & _ & H4 & _).
  destruct (accept_str_derivative 8 "abz" toy_grammar _ H4) as (cps & q & Hd & H).
  assert (E : (accept_str 8 "abz" toy_grammar).1 = Ok tt) by (vm_compute; reflexivity).
  split; [exact E|]. eexists. split; [exact H4|].
  destruct (accept_str 8 "abz" toy_grammar) as [r g']. simpl in E. subst r. destruct H as (_ & _ & H & _).
  assert (Ec : cps = [97; 98; 122; 0]) by (vm_compute in Hd; congruence).
  rewrite Ec in H. exact H.
Defined.

(** C34: the left-recursion check ends on every well-formed grammar and never fails: what it
    rejects is left recursive, and what it accepts is not, provided that every rule that
    derives the empty word has an empty alternative. *)
Theorem left_recursion_check rules :
  grammar_wf rules ->
  runs (find_left_recursion rules) (fun r =>
    match r with
    | inl _ => (forall r, rule_derives rules r [] -> empty_rule rules r = true) -> no_left_recursion rules
    | inr _ => ~ no_left_recursion rules
    end).
Proof.
  intros Hwf. pose proof (find_ok rules Hwf) as H.
  destruct (find_left_recursion rules) as [[s|i]|msg|f] eqn:E; [|..|done|done]; simpl.
  - intros Hd. by apply (find_accepts rules Hwf Hd s).
  - by apply (find_rejects rules Hwf i).
Qed.

Lemma left_recursion_check_witness :
  ~ no_left_recursion [[mk_elem LLAMA_GRETYPE_RULE_REF 0; mk_elem LLAMA_GRETYPE_CHAR 97; mk_elem LLAMA_GRETYPE_END 0]].
Proof.
  refine (left_recursion_check [[mk_elem LLAMA_GRETYPE_RULE_REF 0; mk_elem LLAMA_GRETYPE_CHAR 97; mk_elem LLAMA_GRETYPE_END 0]] _).
  constructor; [|constructor]. split.
  - exists [mk_elem LLAMA_GRETYPE_RULE_REF 0; mk_elem LLAMA_GRETYPE_CHAR 97]. split; reflexivity.
  - constructor; [intros _; simpl; lia|]. constructor; [discriminate|]. constructor; [discriminate|]. constructor.
Defined.

(** C33: no text makes the construction of a grammar run forever, and no sequence of tokens
    a run over one, as long as every rule of the text that derives the empty word has an
    empty alternative: with enough fuel for the recursion of [llama_grammar_advance_stack]
    the result is always the same. *)
Theorem generation_terminates piece vocab tokenize regex o_vocab text root patterns trig tokens :
  (forall s, regex s <> Fault OutOfFuel) ->
  (forall p, grammar_parse tokenize text llama_grammar_parser_new = (Ok true, p) ->
     forall r, rule_derives (gp_rules p) r [] -> empty_rule (gp_rules p) r = true) ->
  exists n r, r <> Fault OutOfFuel /\
    (forall k, (n <= k)%nat -> grammar_init_str k vocab tokenize regex o_vocab text root false patterns trig = r) /\
    forall g, r = Ok (Some g) ->
      Forall (fun t => token_to_piece g t = Ok (piece t) /\ is_eog g t = Ok false) tokens ->
      exists n' r', r'.1 <> Fault OutOfFuel /\ forall k, (n' <= k)%nat -> accept_all k tokens g = r'.
Proof.
  intros Hre Hd.
  destruct (init_settled vocab tokenize regex o_vocab text root false patterns trig Hre Hd) as (n & r & H1 & H2 & H3).
  exists n, r. split; [done|]. split; [done|]. intros g -> Ht.
  destruct (grammar_init_str_ok _ _ _ _ _ _ _ _ _ _ _ (H2 n (le_n n))) as (p & id & _ & _ & _ & Hg & Ha & _).
  by apply (accept_all_settled piece tokens g _ Hg (H3 g eq_refl) Ha).
Qed.

Lemma generation_terminates_witness :
  exists n r, (forall k, (n <= k)%nat ->
    grammar_init_str k None None (fun _ => Throw "regex") (Some toy_vocab) toy_text "root" false [] [] = r) /\ r <> Fault OutOfFuel.
Proof.
  destruct (generation_terminates toy_piece None None (fun _ => Throw "regex") (Some toy_vocab) toy_text "root" [] [] [1; 2])
    as (n & r & H1 & H2 & _).
  - discriminate.
  - exact toy_empty.
  - exists n, r. split; [exact H2|exact H1].
Defined.
