(* ===== verification/GrammarApply.v ===== *)
(** Sampling under a grammar: what [llama_grammar_apply_impl] of
    src/llama/llama.cpp/src/llama-grammar.cpp does to the logits of the candidates, that it
    ends, and that it agrees with the acceptance of the token that is chosen. *)
From stdpp Require Import pretty.
From S2P Require Import Prelude StateExn GrammarParser GrammarParserOk Grammar GrammarOk GrammarPartial GrammarLang.
From S2P Require Import GrammarTerm GrammarLeftRec GrammarReject GrammarState GrammarSpec.
Local Open Scope Z_scope.

(** ** The rejection of candidates ends *)

Lemma settled_foldM_inv {S B} (J : S -> Prop) (f : nat -> S -> B -> res S) l : forall s,
  J s -> (forall s x, x ∈ l -> J s -> settled (fun k => f k s x) /\ forall k, limited (f k s x) J) ->
  settled (fun k => foldM (f k) s l).
Proof.
  induction l as [|x l IH]; intros s Hs H; simpl; [apply settled_ok|].
  destruct (H s x) as [Hf HJ]; [by left|done|].
  apply (settled_bind _ (fun k a => foldM (f k) a l) J); [done|done|].
  intros a Ha. apply IH; [done|]. intros s' y Hy. apply H. by right.
Qed.

Section settle.
Context (rules : llama_grammar_rules) (Hwf : grammar_wf rules) (Hlr : no_left_recursion rules).

(** A computation without fuel that is limited ends. *)
Lemma settled_limited {A} (m : res A) Q : limited m Q -> m <> Fault OutOfFuel -> settled (fun _ => m).
Proof. destruct m as [a|msg|[]]; simpl; intros; try done. apply settled_ok. Qed.

Lemma reject_at_end_total cands : forall acc depth, Forall (ends_within depth) cands ->
  exists out, foldM reject_at_end acc cands = Ok out.
Proof.
  induction cands as [|t cands IH]; intros acc depth H; simpl; [by eexists|].
  apply Forall_cons_iff in H as [Ht H]. destruct (ends_within_cons _ t Ht) as (d & c & l & _ & _ & Ec & _).
  assert (E : exists acc', reject_at_end acc t = Ok acc') by (unfold reject_at_end; rewrite Ec; by eexists).
  destruct E as (acc' & ->). simpl. by apply (IH _ depth).
Qed.

Lemma reject_at_token_total p e cands : forall acc depth,
  elem_at rules p = Ok e -> token_type (ge_type e) = true -> Forall (ends_within depth) cands ->
  exists out, foldM (reject_at_token rules p) acc cands = Ok out.
Proof.
  induction cands as [|t cands IH]; intros acc depth He Et H; simpl; [by eexists|].
  apply Forall_cons_iff in H as [Ht H]. destruct (ends_within_cons _ t Ht) as (d & c & l & _ & _ & Ec & _).
  assert (E : exists acc', reject_at_token rules p acc t = Ok acc').
  { unfold reject_at_token. rewrite Ec. simpl. destruct (c =? 0); [by eexists|].
    rewrite (match_token_ok rules p e _ He Et). by eexists. }
  destruct E as (acc' & ->). simpl. by eapply IH.
Qed.

Lemma reject_with_settled depth stacks cands :
  (forall stack cands, stack_ok rules stack -> (0 < depth)%nat -> Forall (ends_within depth) cands ->
     settled (fun k => reject_candidates_for_stack depth k rules stack cands)) ->
  stacks <> [] -> Forall (stack_ok rules) stacks -> Forall (ends_within depth) cands ->
  settled (fun k => reject_candidates_with (reject_candidates_for_stack depth k rules) stacks cands).
Proof.
  intros H Hne Hs Hc. destruct stacks as [|s0 stacks]; [done|]. unfold reject_candidates_with.
  destruct cands as [|c0 cands]; [apply settled_ok|].
  assert (Hd : (0 < depth)%nat).
  { apply Forall_inv in Hc. destruct depth; [|lia]. by apply elem_of_nil in Hc. }
  apply Forall_cons_iff in Hs as [Hs0 Hs].
  assert (Hlim : forall k s cs, stack_ok rules s -> Forall (ends_within depth) cs ->
    limited (reject_candidates_for_stack depth k rules s cs) (Forall (ends_within depth))).
  { intros k s cs Hso Hcs. eapply limited_mono; [by apply (reject_for_stack_ok rules Hwf depth k s cs Hso Hcs)|].
    intros out Hout. by eapply keeps_out_sub. }
  apply (settled_bind _ (fun k rejects => foldM (fun rejects stack => reject_candidates_for_stack depth k rules stack rejects) rejects stacks)
    (Forall (ends_within depth))); [by apply H|intros k; by apply Hlim|].
  intros r Hr. apply (settled_foldM_inv (Forall (ends_within depth))
    (fun k rejects stack => reject_candidates_for_stack depth k rules stack rejects)); [done|].
  intros rs s Hin Hrs. rewrite Forall_forall in Hs. specialize (Hs s (proj1 (list_elem_of_In _ _) Hin)).
  split; [by apply H|]. intros k. by apply Hlim.
Qed.

Lemma reject_settled depth : forall stack cands,
  stack_ok rules stack -> (0 < depth)%nat -> Forall (ends_within depth) cands ->
  settled (fun k => reject_candidates_for_stack depth k rules stack cands).
Proof.
  induction depth as [|depth IH]; intros stack cands Hs Hd Hc; [lia|].
  destruct stack as [|p rest].
  { destruct (reject_at_end_total cands [] _ Hc) as (out & Ho). exists 0%nat, out. by intros k _. }
  pose proof Hs as [Hp (e & He & Hcase)]. cbn [reject_candidates_for_stack].
  destruct (token_type (ge_type e)) eqn:Et.
  { destruct (reject_at_token_total p e cands [] _ He Et Hc) as (out & Ho). exists 0%nat, out.
    intros k _. by rewrite He, bind_ok, Et. }
  destruct Hcase as [Ht|?]; [|done].
  pose proof (Forall_inv_tail Hp) as Hrest.
  assert (Hend : ptr_ok rules (class_end rules p)) by (eapply class_end_ok; eauto; by left).
  destruct (push_unless_end_ok rules _ rest Hend) as (s1 & E1 & F1 & _ & _).
  set (next := map (fun t => cand_move (S (cd_at t)) t) (List.filter (char_passes rules p) cands)).
  assert (Hnext : Forall (ends_within depth) next).
  { apply Forall_forall. intros t' (t & <- & Hin)%in_map_iff.
    apply list_elem_of_In, elem_of_filterb in Hin as [Hin Hpass]. rewrite Forall_forall in Hc.
    destruct (ends_within_cons _ t (Hc t (proj1 (list_elem_of_In _ _) Hin))) as (d & c & l & [= <-] & El & Ec & Hmv).
    apply Hmv. intros ->. unfold char_passes in Hpass. by rewrite El in Hpass. }
  assert (S1 : settled (fun k => next_stacks ← advance_stack k rules s1 [];
    reject_candidates_with (reject_candidates_for_stack depth k rules) next_stacks next)).
  { apply (settled_bind _ (fun k a => reject_candidates_with (reject_candidates_for_stack depth k rules) a next)
      (extends rules [] (accepts rules s1))).
    - apply (advance_settled rules Hwf Hlr). by apply F1.
    - intros k. apply (advance_stack_ok rules Hwf). by apply F1.
    - intros out Hout. apply reject_with_settled; [done|by apply (ex_some _ _ _ _ Hout)| |done].
      apply Forall_forall. intros s Hin%list_elem_of_In.
      destruct (ex_ok _ _ _ _ Hout s Hin) as [H|H]; [by apply elem_of_nil in H|done]. }
  destruct S1 as (n & out & Ho).
  exists n, (List.filter (char_rejects rules p) cands ++ ((fun tok => cand_move (cd_at tok - 1) tok) <$> out)). intros k Hk. specialize (Ho k Hk).
  rewrite He, bind_ok, Et, (reject_char_loop rules Hwf p e (S depth) cands [] [] He Ht Hc), bind_ok.
  cbn [app]. rewrite (match_char_ok rules Hwf p e 0 He Ht), bind_ok. cbn [snd]. rewrite E1, bind_ok.
  fold next. destruct (advance_stack k rules s1 []) as [ns|?|?]; [|done..]. rewrite bind_ok in *. rewrite Ho, bind_ok. reflexivity.
Qed.

Lemma reject_candidates_settled depth stacks cands :
  stacks <> [] -> Forall (stack_ok rules) stacks -> Forall (ends_within depth) cands ->
  settled (fun k => reject_candidates depth k rules stacks cands).
Proof. intros. apply reject_with_settled; [|done..]. intros. by apply reject_settled. Qed.

Lemma reject_candidates_ok depth fuel stacks cands :
  stacks <> [] -> Forall (stack_ok rules) stacks -> Forall (ends_within depth) cands ->
  limited (reject_candidates depth fuel rules stacks cands) (keeps_out (stuck rules stacks) cands).
Proof using Hwf.
  intros Hne Hs Hc. apply (reject_with_ok rules depth); [done|done|].
  intros s cs Hin Hcs. apply reject_for_stack_ok; [done| |done].
  rewrite Forall_forall in Hs. by apply Hs, list_elem_of_In.
Qed.
End settle.

(** ** The logits *)

Section apply.
Context {logit : Type} (neg_infinity : logit).
Abbreviation data := (list (@llama_token_data logit)).

Definition masked (d : @llama_token_data logit) : llama_token_data := mk_token_data (td_id d) neg_infinity.

Lemma mask_logit_eq i (l : data) d : l !! i = Some d -> mask_logit neg_infinity i l !! i = Some (masked d).
Proof. intros H. unfold mask_logit. by rewrite list_lookup_alter_eq, H. Qed.

Lemma mask_logit_ne i j (l : data) : i <> j -> mask_logit neg_infinity i l !! j = l !! j.
Proof. intros H. unfold mask_logit. by rewrite list_lookup_alter_ne. Qed.

(** The final loop masks the entries of the rejected candidates. *)
Lemma mask_rejects rejects : forall (l : data) j d,
  l !! j = Some d -> exists d',
    foldl (fun l tok => mask_logit neg_infinity (cd_index tok) l) l rejects !! j = Some d' /\
    ((exists t, t ∈ rejects /\ cd_index t = j) -> d' = masked d) /\
    ((forall t, t ∈ rejects -> cd_index t <> j) -> d' = d).
Proof.
  induction rejects as [|t rejects IH]; intros l j d Hj; simpl.
  { exists d. split; [done|]. split; [by intros (? & ?%elem_of_nil & _)|done]. }
  destruct (decide (cd_index t = j)) as [<-|Hn].
  - destruct (IH _ _ _ (mask_logit_eq _ l d Hj)) as (d' & H1 & H2 & H3). exists d'. split; [done|].
    assert (Hd : d' = masked d).
    { destruct (decide (Exists (fun t' => cd_index t' = cd_index t) rejects)) as [He|He].
      - apply Exists_exists in He as (t' & Hin%list_elem_of_In & Et). by apply H2; exists t'.
      - apply H3. intros t' Hin Et. apply He, Exists_exists. exists t'. by rewrite <- list_elem_of_In. }
    split; [done|]. intros H. exfalso. apply (H t); [by left|done].
  - rewrite <- (mask_logit_ne _ _ l Hn) in Hj. destruct (IH _ _ _ Hj) as (d' & H1 & H2 & H3). exists d'.
    split; [done|]. split.
    + intros (t' & [->|Hin]%elem_of_cons & Et); [done|]. by apply H2; exists t'.
    + intros H. apply H3. intros t' Hin. apply H. by right.
Qed.

Context (g : llama_grammar) (piece : Z -> string) (eog : Z -> bool).

(** The code points of a token, continuing the pending bytes of the grammar. *)
Definition points (id : Z) : list Z * llama_partial_utf8 :=
  match decode_utf8 (piece id) (g_partial_utf8 g) with Ok r => r | _ => ([], mk_partial 0 0) end.
Definition cand_of (i : nat) (d : @llama_token_data logit) : llama_grammar_candidate :=
  mk_cand i (points (td_id d)).1 0 (points (td_id d)).2 (td_id d).
Definition plain (d : @llama_token_data logit) : bool := negb (eog (td_id d)) && negb (at_end (piece (td_id d))).
Definition barred (d : @llama_token_data logit) : bool :=
  if eog (td_id d) then bool_decide ([] ∉ g_stacks g) else at_end (piece (td_id d)).

(** The tokens that the grammar excludes: the end of generation unless some stack is empty,
    pieces without text, and those that no stack can follow. *)
Definition excluded (d : @llama_token_data logit) : Prop :=
  if eog (td_id d) then [] ∉ g_stacks g
  else at_end (piece (td_id d)) = true \/ stuck (g_rules g) (g_stacks g) (cand_of 0 d).

Section loop.
Context (l : data).
Context (Hl : Forall (fun d => token_to_piece g (td_id d) = Ok (piece (td_id d)) /\
                               is_eog g (td_id d) = Ok (eog (td_id d))) l).

Definition marked (k : nat) (st : data * llama_grammar_candidates) : Prop :=
  (forall j d, l !! j = Some d -> st.1 !! j = Some (if decide (j < k)%nat then (if barred d then masked d else d) else d)) /\
  forall t, t ∈ st.2 <-> exists j d, (j < k)%nat /\ l !! j = Some d /\ plain d = true /\ t = cand_of j d.

Lemma apply_candidate_ok i st :
  (i < length l)%nat -> marked i st ->
  runs (apply_candidate neg_infinity g (bool_decide ([] ∈ g_stacks g)) st i) (marked (S i)).
Proof.
  intros Hi [H1 H2]. destruct st as [st cands]. simpl in H1, H2.
  destruct (lookup_lt_is_Some_2 l i Hi) as [d Hd]. unfold apply_candidate.
  pose proof (H1 i d Hd) as Hid. rewrite decide_False in Hid by lia.
  rewrite Forall_lookup in Hl. destruct (Hl i d Hd) as [Hp He].
  apply (runs_rd _ _ d); [done|]. rewrite Hp, bind_ok, He, bind_ok.
  assert (Hstep : forall st' cands',
    (forall j, j <> i -> st' !! j = st !! j) -> st' !! i = Some (if barred d then masked d else d) ->
    cands' = cands ++ (if plain d then [cand_of i d] else []) -> marked (S i) (st', cands')).
  { intros st' cands' S1 S2 ->. split; simpl.
    - intros j d' Hj. destruct (decide (j = i)) as [->|Hn].
      + rewrite decide_True by lia. rewrite Hd in Hj. by injection Hj as <-.
      + rewrite S1, (H1 j d' Hj) by done. do 2 destruct (decide _); done || lia.
    - intros t. rewrite elem_of_app, H2. split.
      + intros [(j & d' & Hj & R)|Ht]; [exists j, d'; split; [lia|done]|].
        destruct (plain d) eqn:Epl; [|by apply elem_of_nil in Ht]. apply list_elem_of_singleton in Ht as ->.
        exists i, d. by split_and!; [lia|..].
      + intros (j & d' & Hj & Hd' & Hpl & ->). destruct (decide (j = i)) as [->|Hn].
        * right. rewrite Hd in Hd'. injection Hd' as <-. rewrite Hpl. by left.
        * left. exists j, d'. by split_and!; [lia|..]. }
  assert (Hlen : forall j d0, st !! j = Some d0 -> True) by done.
  destruct (eog (td_id d)) eqn:Ee.
  - apply runs_ok. unfold barred, plain in Hstep. rewrite Ee in Hstep. simpl in Hstep.
    destruct (decide ([] ∈ g_stacks g)) as [Hin|Hin].
    + rewrite (bool_decide_true ([] ∈ g_stacks g)) by done.
      rewrite (bool_decide_false ([] ∉ g_stacks g)) in Hstep by tauto. by apply Hstep; rewrite ?app_nil_r.
    + rewrite (bool_decide_false ([] ∈ g_stacks g)) by done.
      rewrite (bool_decide_true ([] ∉ g_stacks g)) in Hstep by done.
      apply Hstep; rewrite ?app_nil_r; [|by apply mask_logit_eq|done]. intros j Hn. by apply mask_logit_ne.
  - unfold barred, plain in Hstep. rewrite Ee in Hstep. simpl in Hstep.
    destruct (at_end (piece (td_id d))) eqn:Ea; simpl in Hstep.
    + apply runs_ok, Hstep; rewrite ?app_nil_r; [|by apply mask_logit_eq|done].
      intros j Hn. by apply mask_logit_ne.
    + destruct (decode_utf8_total (piece (td_id d)) (g_partial_utf8 g)) as (cps & p & Hdec).
      rewrite Hdec, bind_ok. apply runs_ok, Hstep; [done|done|].
      unfold cand_of, points. by rewrite Hdec.
Qed.

Lemma apply_candidates_ok :
  runs (foldM (apply_candidate neg_infinity g (bool_decide ([] ∈ g_stacks g))) (l, []) (seq 0 (length l)))
    (marked (length l)).
Proof.
  apply (runs_for marked); [|intros i st Hi Hm; rewrite Nat.add_1_r; by apply apply_candidate_ok]. split; simpl.
  - intros j d Hj. exact Hj.
  - intros t. split; [by intros ?%elem_of_nil|]. intros (j & d & H & _). lia.
Qed.
End loop.

Lemma stuck_index i d : stuck (g_rules g) (g_stacks g) (cand_of i d) <-> stuck (g_rules g) (g_stacks g) (cand_of 0 d).
Proof. done. Qed.

(** With enough fuel the logits of the excluded tokens, and no others, become -INFINITY. *)
Lemma apply_impl_ok L depth (l : data) :
  grammar_for L g -> g_stacks g <> [] -> no_left_recursion (g_rules g) -> g_awaiting_trigger g = false ->
  Forall (fun d => token_to_piece g (td_id d) = Ok (piece (td_id d)) /\ is_eog g (td_id d) = Ok (eog (td_id d)) /\
                   (length (points (td_id d)).1 <= depth)%nat) l ->
  exists n out, (forall k, (n <= k)%nat -> apply_impl neg_infinity depth k g l = Ok out) /\
    forall i d, l !! i = Some d -> exists d', out !! i = Some d' /\
      (excluded d -> d' = masked d) /\ (~ excluded d -> d' = d).
Proof.
  intros [Hwf (_ & Hs & _)] Hne Hlr Ha Hl. unfold apply_impl. rewrite Ha.
  destruct (runs_inv _ _ (apply_candidates_ok l ltac:(eapply list_relations.list.Forall_impl; [exact Hl|by intros x (? & ? & _)])))
    as ([st cands] & E & [M1 M2]). simpl in M1, M2.
  assert (Hends : Forall (ends_within depth) cands).
  { apply Forall_forall. intros t (j & d & _ & Hj & _ & ->)%list_elem_of_In%M2. rewrite Forall_lookup in Hl.
    destruct (Hl j d Hj) as (_ & _ & Hlen). unfold ends_within, cand_rest, cand_of. simpl. rewrite drop_0.
    unfold points in *. destruct (decode_utf8_total (piece (td_id d)) (g_partial_utf8 g)) as (cps & p & Hdec).
    rewrite Hdec in *. simpl in *. rewrite take_ge by done. apply elem_of_app. right. by left. }
  destruct (reject_candidates_settled (g_rules g) Hwf Hlr depth (g_stacks g) cands Hne Hs Hends) as (n & rejects & Hr).
  pose proof (reject_candidates_ok (g_rules g) Hwf depth n (g_stacks g) cands Hne Hs Hends) as Hk.
  rewrite (Hr n) in Hk by lia. simpl in Hk.
  eexists n, _. split.
  { intros k Hkn. rewrite E, bind_ok, (Hr k Hkn), bind_ok. reflexivity. }
  intros i d Hd. pose proof (M1 i d Hd) as Hst. rewrite decide_True in Hst by (by apply lookup_lt_Some in Hd).
  destruct (mask_rejects rejects st i _ Hst) as (d' & D1 & D2 & D3). exists d'. split; [done|].
  assert (Hrej : (exists t, t ∈ rejects /\ cd_index t = i) <-> plain d = true /\ stuck (g_rules g) (g_stacks g) (cand_of 0 d)).
  { split.
    - intros (t & [Ht Hst']%Hk & Hi). apply M2 in Ht as (j & d0 & _ & Hj & Hpl & ->). simpl in Hi. subst j.
      assert (d0 = d) as -> by congruence. split; [done|]. by apply (stuck_index i).
    - intros [Hpl Hst']. exists (cand_of i d). split; [|done]. apply Hk. split; [|by apply stuck_index].
      apply M2. exists i, d. by split_and!; [apply lookup_lt_Some in Hd|..]. }
  assert (Hno : ~ (plain d = true /\ stuck (g_rules g) (g_stacks g) (cand_of 0 d)) -> d' = if barred d then masked d else d).
  { intros Hn. apply D3. intros t Ht Hi. apply Hn, Hrej. by exists t. }
  assert (Hyes : plain d = true -> stuck (g_rules g) (g_stacks g) (cand_of 0 d) -> d' = masked d).
  { intros Hpl Hst'. rewrite D2 by (by apply Hrej). by destruct (barred d). }
  clear D1 D2 D3 Hrej. unfold excluded, barred, plain in *.
  destruct (eog (td_id d)); simpl in *.
  - rewrite Hno by naive_solver. case_bool_decide; split; intros; done || tauto.
  - destruct (at_end (piece (td_id d))); simpl in *.
    + rewrite Hno by naive_solver. split; [done|]. intros H. exfalso. apply H. by left.
    + split; [intros [?|H]; [done|by apply Hyes]|]. intros H. apply Hno. intros [_ H']. apply H. by right.
Qed.
End apply.

(** ** What can follow a stack *)

Section follow.
Context (rules : llama_grammar_rules) (Hwf : grammar_wf rules).


Context (Ho : Forall (fun r => ordered_ranges r = true) rules).

End follow.



(** ** Sampling and acceptance agree *)

(** No rule refers to whole tokens. *)
Definition token_free (rules : llama_grammar_rules) : Prop :=
  forall p e, elem_at rules p = Ok e -> token_type (ge_type e) = false.

Section agree.
Context (g : llama_grammar) (Hwf : grammar_wf (g_rules g)) (Hs : Forall (stack_ok (g_rules g)) (g_stacks g)).
Context (Htf : token_free (g_rules g)).

(** Some stack can take the characters. *)
Definition steps_exist (cs : list Z) : Prop := exists st s, st ∈ g_stacks g /\ chr_steps (g_rules g) cs st s.

Lemma add_stacks_adds l : forall acc s, s ∈ foldl (fun l s => add_stack s l) acc l <-> s ∈ acc \/ s ∈ l.
Proof.
  induction l as [|x l IH]; intros acc s; simpl; [by split; [left|intros [?|?%elem_of_nil]]|].
  rewrite IH, (add_stack_adds acc x s), elem_of_cons. tauto.
Qed.

Lemma accept_token_stack_adds fuel t c cs acc stack :
  stack_ok (g_rules g) stack ->
  limited (accept_token_stack fuel (g_rules g) t (c :: cs) acc stack)
    (fun out => forall s, s ∈ out <-> s ∈ acc \/ chr_steps (g_rules g) (c :: cs) stack s).
Proof.
  intros Hst. unfold accept_token_stack. destruct stack as [|p rest].
  { apply limited_ok. intros s. split; [by left|]. by intros [?|(? & [] & _)]. }
  pose proof Hst as [_ (e & He & _)]. rewrite He, bind_ok, (Htf p e He).
  apply limited_bind. eapply limited_mono; [by apply accept_points_adds|].
  intros cur Hcur. cbv beta in Hcur. apply limited_ok. intros s. by rewrite add_stacks_adds, (Hcur s).
Qed.

Lemma accept_token_steps fuel t pc c cs p :
  decode_utf8 pc (g_partial_utf8 g) = Ok ((c :: cs) ++ [0], p) ->
  match (accept_token fuel t pc g).1 with
  | Ok _ => steps_exist (c :: cs)
  | Throw _ => ~ steps_exist (c :: cs)
  | Fault f => f = OutOfFuel
  end.
Proof.
  intros Hd. unfold accept_token, st_bind, st_get, lift, st_put. rewrite Hd. cbn [fst snd].
  rewrite body_points_snoc.
  assert (H : limited (foldM (accept_token_stack fuel (g_rules g) t (c :: cs)) [] (g_stacks g)) (fun out =>
    forall s, s ∈ out <-> s ∈ [] \/ exists st, st ∈ g_stacks g /\ chr_steps (g_rules g) (c :: cs) st s)).
  { apply (adds_foldM _ (fun st s => chr_steps (g_rules g) (c :: cs) st s) (g_stacks g) []).
    intros acc st Hin. apply accept_token_stack_adds. rewrite Forall_forall in Hs. by apply Hs, list_elem_of_In. }
  destruct (foldM _ [] (g_stacks g)) as [out|msg|f]; [|done|by destruct f]. simpl in H.
  destruct out as [|s out]; simpl.
  - intros (st & s & Hin & Hst). eapply elem_of_nil, H. right. by exists st.
  - destruct (proj1 (H s) ltac:(by left)) as [Hn|(st & Hin & Hst)]; [by apply elem_of_nil in Hn|]. by exists st, s.
Qed.

Lemma stuck_steps i cs p id :
  pu_n_remain p = 0 -> Forall (fun c => c <> 0) cs ->
  stuck (g_rules g) (g_stacks g) (mk_cand i (cs ++ [0]) 0 p id) <-> ~ steps_exist cs.
Proof.
  intros Hp Hcs. unfold stuck, cand_viable, cand_rest, steps_exist. simpl. rewrite drop_0.
  rewrite Forall_forall in Hs. split.
  - intros H (st & s & Hin & Hst). apply (H st Hin). apply viable_steps; [done|done|done|done|..].
    + by apply Hs, list_elem_of_In.
    + by exists s.
  - intros H st Hin Hv. apply H. apply viable_steps in Hv as [s Hst]; try done; [by exists st, s|].
    by apply Hs, list_elem_of_In.
Qed.
End agree.

(** ** Properties *)


Lemma toy_no_left_recursion : no_left_recursion (g_rules toy_grammar).
Proof.
  destruct (init_settled None None (fun _ => Throw "regex") (Some toy_vocab) toy_text "root" false [] [] ltac:(discriminate) toy_empty)
    as (n & r & _ & H2 & H3). apply H3. rewrite <- (H2 (n + 8)%nat ltac:(lia)).
  destruct n as [|n]; [exact toy_grammar_init_ok|]. clear H2 H3.
  assert (M : forall k, (8 <= k)%nat ->
    grammar_init_str k None None (fun _ => Throw "regex") (Some toy_vocab) toy_text "root" false [] [] = Ok (Some toy_grammar)).
  { intros k Hk. do 8 (destruct k as [|k]; [lia|]). vm_compute. reflexivity. }
  apply M. lia.
Qed.

Definition toy_data : list (@llama_token_data Z) := [mk_token_data 0 5; mk_token_data 1 6; mk_token_data 2 7].


(** C27: in a grammar without left recursion (which its construction refuses) and without
    token elements, what the sampler keeps is what the grammar
    then accepts: a token with text that ends on a character boundary keeps its logit if
    accepting it succeeds, and gets -INFINITY if accepting it throws. *)
Theorem sampling_agrees_with_acceptance {logit} (neg_infinity : logit) g piece eog L depth (l : list llama_token_data) :
  grammar_for L g -> g_stacks g <> [] -> no_left_recursion (g_rules g) -> g_awaiting_trigger g = false ->
  token_free (g_rules g) ->
  Forall (fun d => token_to_piece g (td_id d) = Ok (piece (td_id d)) /\ is_eog g (td_id d) = Ok (eog (td_id d)) /\
                   (length (points g piece (td_id d)).1 <= depth)%nat) l ->
  exists n out, (forall k, (n <= k)%nat -> apply_impl neg_infinity depth k g l = Ok out) /\
    forall i d c cs p, l !! i = Some d -> eog (td_id d) = false -> at_end (piece (td_id d)) = false ->
      decode_utf8 (piece (td_id d)) (g_partial_utf8 g) = Ok ((c :: cs) ++ [0], p) ->
      pu_n_remain p = 0 -> Forall (fun x => x <> 0) (c :: cs) ->
      exists d', out !! i = Some d' /\ forall k,
        match (accept_token k (td_id d) (piece (td_id d)) g).1 with
        | Ok _ => d' = d
        | Throw _ => d' = masked neg_infinity d
        | Fault f => f = OutOfFuel
        end.
Proof.
  intros Hg Hne Hlr Ha Htf Hl.
  destruct (apply_impl_ok neg_infinity g piece eog L depth l Hg Hne Hlr Ha Hl) as (n & out & H1 & H2).
  exists n, out. split; [done|]. intros i d c cs p Hd Heog Hend Hdec Hp Hcs.
  destruct (H2 i d Hd) as (d' & Hd' & Hex & Hin). exists d'. split; [done|]. intros k.
  destruct Hg as [Hwf (_ & Hs & _)].
  pose proof (accept_token_steps g Hwf Hs Htf k (td_id d) (piece (td_id d)) c cs p Hdec) as Hacc.
  pose proof (stuck_steps g Hwf Hs Htf 0 (c :: cs) p (td_id d) Hp Hcs) as Hst.
  assert (E : excluded g piece eog d <-> ~ steps_exist g (c :: cs)).
  { rewrite <- Hst. unfold excluded, cand_of, points. rewrite Heog, Hend, Hdec. simpl. split; [by intros [?|?]|by right]. }
  destruct (accept_token k _ _ g).1 as [u|msg|f]; [apply Hin; tauto|apply Hex; tauto|done].
Qed.

Lemma sampling_agrees_with_acceptance_witness :
  exists n out, (forall k, (n <= k)%nat -> apply_impl (-1000) 8 k toy_grammar toy_data = Ok out) /\
    out !! 1%nat = Some (mk_token_data 1 6).
Proof.
  destruct (grammar_init_str_ok _ _ _ _ _ _ _ _ _ _ _ toy_grammar_init_ok) as (p & id & _ & _ & _ & Hg & _).
  destruct (sampling_agrees_with_acceptance (-1000) toy_grammar toy_piece (fun t => t =? 0) _ 8 toy_data Hg)
    as (n & out & H & Hd).
  - vm_compute. discriminate.
  - exact toy_no_left_recursion.
  - reflexivity.
  - intros [[|r] o] e (rule & Hr & He)%elem_at_ok; [|discriminate Hr].
    assert (E : g_rules toy_grammar !! 0%nat = Some rule) by exact Hr. vm_compute in E. injection E as <-.
    do 7 (destruct o as [|o]; [vm_compute in He; injection He as <-; reflexivity|]). by vm_compute in He.
  - constructor; [|constructor; [|constructor; [|constructor]]]; (split; [reflexivity|split; [reflexivity|]]); vm_compute; lia.
  - exists n, out. split; [exact H|].
    destruct (Hd 1%nat (mk_token_data 1 6) 97 [98] (mk_partial 98 0)) as (d' & Ho & Hk); try reflexivity.
    { repeat constructor; discriminate. }
    specialize (Hk 8%nat). assert (E : (accept_token 8 1 "ab" toy_grammar).1 = Ok tt) by (vm_compute; reflexivity).
    change (match (accept_token 8 1 "ab" toy_grammar).1 with
            | Ok _ => d' = mk_token_data 1 6 | Throw _ => d' = masked (-1000) (mk_token_data 1 6) | Fault f => f = OutOfFuel end) in Hk.
    rewrite E in Hk. by rewrite Ho, Hk.
Defined.
