(* ===== verification/RingBuffer.v ===== *)
(** The ring buffer of the samplers, src/llama/llama.cpp/src/llama-sampling.cpp: a queue of a
    fixed capacity that forgets its oldest elements. *)

From S2P Require Import Prelude.

(** ** The class *)

Record ring_buffer (T : Type) := mk_ring { rb_capacity : nat; rb_sz : nat; rb_first : nat; rb_pos : nat; rb_data : list T }.
Arguments mk_ring {T} _ _ _ _ _.
Arguments rb_capacity {T} _.
Arguments rb_sz {T} _.
Arguments rb_first {T} _.
Arguments rb_pos {T} _.
Arguments rb_data {T} _.

Section ring.
Context {T : Type}.
Implicit Types rb : ring_buffer T.

(** The constructor; [d] is the value of [T()]. *)
Definition ring_new (d : T) (cap : nat) : ring_buffer T := mk_ring cap 0 0 0 (replicate cap d).

Definition ring_front rb : res T :=
  if (rb_sz rb =? 0)%nat then Throw "ring buffer is empty" else rd (rb_data rb) (rb_first rb).
Definition ring_back rb : res T :=
  if (rb_sz rb =? 0)%nat then Throw "ring buffer is empty" else rd (rb_data rb) (rb_pos rb).

Definition ring_push_back rb (value : T) : res (ring_buffer T) :=
  if (rb_capacity rb =? 0)%nat then Throw "ring buffer: capacity is zero"
  else
    let full := (rb_sz rb =? rb_capacity rb)%nat in
    let first := if full then ((rb_first rb + 1) `mod` rb_capacity rb)%nat else rb_first rb in
    let sz := if full then rb_sz rb else (rb_sz rb + 1)%nat in
    data ← wr (rb_data rb) (rb_pos rb) value;
    Ok (mk_ring (rb_capacity rb) sz first ((rb_pos rb + 1) `mod` rb_capacity rb)%nat data).

Definition ring_pop_front rb : res (T * ring_buffer T) :=
  if (rb_sz rb =? 0)%nat then Throw "ring buffer is empty"
  else
    value ← rd (rb_data rb) (rb_first rb);
    Ok (value, mk_ring (rb_capacity rb) (rb_sz rb - 1) ((rb_first rb + 1) `mod` rb_capacity rb)%nat (rb_pos rb) (rb_data rb)).

(** [rat]: from the back. *)
Definition ring_rat rb (i : nat) : res T :=
  if (rb_sz rb <=? i)%nat then Throw "ring buffer: index out of bounds"
  else rd (rb_data rb) ((rb_first rb + rb_sz rb - i - 1) `mod` rb_capacity rb)%nat.

Definition ring_to_vector rb : res (list T) :=
  foldM (fun result i => x ← rd (rb_data rb) ((rb_first rb + i) `mod` rb_capacity rb)%nat; Ok (result ++ [x])) [] (seq 0 (rb_sz rb)).

Definition ring_clear rb : ring_buffer T := mk_ring (rb_capacity rb) 0 0 0 (rb_data rb).
Definition ring_empty rb : bool := (rb_sz rb =? 0)%nat.
Definition ring_size rb : nat := rb_sz rb.

(** ** The buffer as a list *)

(** The elements [l], oldest first, lie on the circle from [first] on, and [pos] is behind them. *)
Record ring_ok rb (l : list T) : Prop := {
  ro_length : length (rb_data rb) = rb_capacity rb;
  ro_sz : rb_sz rb = length l;
  ro_fits : (length l <= rb_capacity rb)%nat;
  ro_first : (0 < rb_capacity rb -> rb_first rb < rb_capacity rb)%nat;
  ro_pos : (0 < rb_capacity rb)%nat -> rb_pos rb = ((rb_first rb + length l) `mod` rb_capacity rb)%nat;
  ro_at i x : l !! i = Some x -> rb_data rb !! ((rb_first rb + i) `mod` rb_capacity rb)%nat = Some x
}.

(** The last [n] elements. *)
Definition last_n (n : nat) (l : list T) : list T := drop (length l - n) l.

Lemma mod_cases a n : (0 < n)%nat -> (a < 2 * n)%nat -> (a `mod` n = if decide (a < n) then a else a - n)%nat.
Proof.
  intros Hn Ha. destruct (decide (a < n)%nat); [by apply Nat.mod_small|].
  replace a with ((a - n) + 1 * n)%nat at 1 by lia. rewrite Nat.Div0.mod_add. apply Nat.mod_small. lia.
Qed.

Lemma ring_new_ok d cap : ring_ok (ring_new d cap) [].
Proof. constructor; cbn; try done; try lia; [apply length_replicate|]. intros H. by rewrite Nat.Div0.mod_0_l. Qed.

Lemma ring_clear_ok rb l : ring_ok rb l -> ring_ok (ring_clear rb) [].
Proof. intros []. constructor; cbn; try done; try lia. intros H. by rewrite Nat.Div0.mod_0_l. Qed.

Lemma ring_push_ok rb l x : ring_ok rb l -> (0 < rb_capacity rb)%nat ->
  exists rb', ring_push_back rb x = Ok rb' /\ rb_capacity rb' = rb_capacity rb /\ ring_ok rb' (last_n (rb_capacity rb) (l ++ [x])).
Proof.
  intros [HL HS HF H1 HP HA] Hc. specialize (H1 Hc). specialize (HP Hc). unfold ring_push_back. rewrite (proj2 (Nat.eqb_neq _ _)) by lia. cbn zeta.
  assert (Hpos : (rb_pos rb < rb_capacity rb)%nat) by (rewrite HP; apply Nat.mod_upper_bound; lia).
  rewrite wr_ok, bind_ok by lia. eexists. split; [done|]. split; [done|]. unfold last_n. rewrite length_app. cbn [length].
  destruct (Nat.eqb_spec (rb_sz rb) (rb_capacity rb)) as [Hfull|Hfull].
  - assert (Hl : length l = rb_capacity rb) by lia. replace (length l + 1 - rb_capacity rb)%nat with 1%nat by lia.
    destruct l as [|y l]; [cbn in *; lia|]. cbn [app length] in *. rewrite skipn_cons, drop_0.
    assert (Hn : length (l ++ [x]) = rb_capacity rb) by (rewrite length_app; cbn; lia).
    constructor; cbn [rb_capacity rb_sz rb_first rb_pos rb_data]; rewrite ?length_insert; try lia.
    + intros _. apply Nat.mod_upper_bound. lia.
    + intros _. rewrite HP, Hn, Hl, !Nat.Div0.add_mod_idemp_l. f_equal. lia.
    + intros i z Hi. rewrite Nat.Div0.add_mod_idemp_l. pose proof (lookup_lt_Some _ _ _ Hi) as Hlt.
      replace (rb_first rb + 1 + i)%nat with (rb_first rb + S i)%nat by lia. rewrite length_app in Hlt. cbn in Hlt.
      destruct (decide (i = length l)) as [->|Hne].
      * rewrite lookup_app_r, Nat.sub_diag in Hi by lia. injection Hi as <-. rewrite HP. apply list_lookup_insert_eq. rewrite HL. apply Nat.mod_upper_bound. lia.
      * rewrite lookup_app_l in Hi by lia. rewrite list_lookup_insert_ne; [by apply (HA (S i))|]. rewrite HP, Hl.
        rewrite !mod_cases by lia. repeat destruct (decide _); lia.
  - rewrite (proj2 (Nat.sub_0_le (length l + 1) (rb_capacity rb))) by lia. rewrite drop_0.
    constructor; cbn [rb_capacity rb_sz rb_first rb_pos rb_data]; rewrite ?length_insert, ?length_app; cbn [length]; try lia.
    + intros _. rewrite HP, Nat.Div0.add_mod_idemp_l. f_equal. lia.
    + intros i z Hi. pose proof (lookup_lt_Some _ _ _ Hi) as Hlt. rewrite length_app in Hlt. cbn in Hlt. destruct (decide (i = length l)) as [->|Hne].
      * rewrite lookup_app_r, Nat.sub_diag in Hi by lia. injection Hi as <-. rewrite HP. apply list_lookup_insert_eq. rewrite HL. apply Nat.mod_upper_bound. lia.
      * rewrite lookup_app_l in Hi by lia. rewrite list_lookup_insert_ne; [by apply HA|]. rewrite HP, !mod_cases by lia. repeat destruct (decide _); lia.
Qed.

Lemma ring_front_ok rb x l : ring_ok rb (x :: l) -> ring_front rb = Ok x.
Proof.
  intros [HL HS HF H1 HP HA]. unfold ring_front. cbn in *. rewrite (proj2 (Nat.eqb_neq _ _)) by lia. apply rd_ok.
  specialize (HA 0%nat x eq_refl). by rewrite Nat.add_0_r, Nat.mod_small in HA by lia.
Qed.

Lemma ring_pop_ok rb x l : ring_ok rb (x :: l) -> exists rb', ring_pop_front rb = Ok (x, rb') /\ ring_ok rb' l.
Proof.
  intros Hrb. pose proof (ring_front_ok _ _ _ Hrb) as Hf. destruct Hrb as [HL HS HF H1 HP HA]. unfold ring_front in Hf. unfold ring_pop_front. cbn in HS, HF.
  rewrite (proj2 (Nat.eqb_neq _ _)) in * by lia. rewrite Hf, bind_ok. eexists. split; [done|].
  constructor; cbn [rb_capacity rb_sz rb_first rb_pos rb_data]; try done; try lia.
  - intros _. apply Nat.mod_upper_bound. lia.
  - intros Hc. rewrite Nat.Div0.add_mod_idemp_l, HP by done. f_equal. cbn. lia.
  - intros i z Hi. rewrite Nat.Div0.add_mod_idemp_l. replace (rb_first rb + 1 + i)%nat with (rb_first rb + S i)%nat by lia. by apply (HA (S i)).
Qed.

(** The element at [i] from the back. *)
Lemma ring_rat_ok rb l i x : ring_ok rb l -> reverse l !! i = Some x -> ring_rat rb i = Ok x.
Proof.
  intros [HL HS HF H1 HP HA] Hi. pose proof (lookup_lt_Some _ _ _ Hi) as Hlt. rewrite length_reverse in Hlt. unfold ring_rat.
  rewrite (proj2 (Nat.leb_gt _ _)) by lia. apply rd_ok. rewrite reverse_lookup in Hi by lia.
  rewrite HS. replace (rb_first rb + length l - i - 1)%nat with (rb_first rb + (length l - S i))%nat by lia. by apply HA.
Qed.
Lemma ring_rat_out rb l i : ring_ok rb l -> (length l <= i)%nat -> ring_rat rb i = Throw "ring buffer: index out of bounds".
Proof. intros [HL HS HF H1 HP HA] Hi. unfold ring_rat. by rewrite (proj2 (Nat.leb_le _ _)) by lia. Qed.

Lemma ring_to_vector_ok rb l : ring_ok rb l -> ring_to_vector rb = Ok l.
Proof.
  intros [HL HS HF H1 HP HA]. unfold ring_to_vector. rewrite HS.
  enough (forall n, (n <= length l)%nat -> foldM (fun result i => x ← rd (rb_data rb) ((rb_first rb + i) `mod` rb_capacity rb)%nat; Ok (result ++ [x])) []
    (seq 0 n) = Ok (take n l)) as E by (rewrite E, firstn_all; done).
  intros n Hn. apply runs_inv_eq. pose proof (runs_foldM (fun d r => r = take (length d) l)
    (fun result i => x ← rd (rb_data rb) ((rb_first rb + i) `mod` rb_capacity rb)%nat; Ok (result ++ [x])) (seq 0 n) []) as R.
  cbn beta in R. rewrite length_seq in R. apply R; [done|]. intros l1 i l2 s Es ->. apply seq_split_at in Es as [-> Hlt].
  destruct (lookup_lt_is_Some_2 l (length l1) ltac:(lia)) as [x Hx]. rewrite (rd_ok _ _ _ (HA _ _ Hx)), bind_ok. cbn.
  by rewrite length_app, Nat.add_1_r, (take_S_r _ _ _ Hx).
Qed.
End ring.
