(* ===== verification/Sampling.v ===== *)
(** The candidates of a sampling step and the stateless samplers of
    src/llama/llama.cpp/src/llama-sampling.cpp: sorting by buckets, softmax, temperature, and
    the samplers that cut the candidates or change their logits.

    [F] is float, [D] is double; their operations are those of [FloatArith], the conversions
    those of [FloatConv]. *)

From stdpp Require Import sorting.
From S2P Require Import Prelude Vocab VocabMerge RingBuffer.
Local Open Scope Z_scope.

(** ** Floats, sorting and random numbers *)

Class FloatArith (T : Type) := {
  a_lt : T -> T -> bool;
  a_le : T -> T -> bool;
  a_eq : T -> T -> bool;
  a_add : T -> T -> T;
  a_sub : T -> T -> T;
  a_mul : T -> T -> T;
  a_div : T -> T -> T;
  a_pow : T -> T -> T;
  a_neg : T -> T;
  a_exp : T -> T;
  a_log : T -> T;
  a_log2 : T -> T;
  a_sqrt : T -> T;
  a_abs : T -> T;
  a_inf : T;                  (* INFINITY *)
  a_max : T;                  (* FLT_MAX *)
  a_of_Z : Z -> T;
  a_lit : Z -> Z -> T;        (* the literal [m * 10^e] *)
  a_trunc : T -> option Z     (* the conversion to int, [None] when the value is not in its range *)
}.
Class FloatConv (F D : Type) := { to_double : F -> D; to_float : D -> F }.

(** [std::sort] and [std::partial_sort] with what the standard says of them. *)
Class StdSort := {
  std_sort {A} : (A -> A -> bool) -> list A -> list A;
  std_partial_sort {A} : (A -> A -> bool) -> nat -> list A -> list A;
  std_sort_ok {A} (comp : A -> A -> bool) l : strict_weak comp ->
    std_sort comp l ≡ₚ l /\ StronglySorted (fun a b => comp b a = false) (std_sort comp l);
  std_partial_sort_ok {A} (comp : A -> A -> bool) middle l : strict_weak comp -> (middle <= length l)%nat ->
    std_partial_sort comp middle l ≡ₚ l /\
    StronglySorted (fun a b => comp b a = false) (take middle (std_partial_sort comp middle l)) /\
    forall a b, a ∈ take middle (std_partial_sort comp middle l) -> b ∈ drop middle (std_partial_sort comp middle l) -> comp b a = false
}.

(** [std::mt19937] and the distributions over it. *)
Class StdRandom (F D G : Type) := {
  rng_seed : Z -> G;
  rng_float : G -> F * G;                    (* uniform in [0, 1) *)
  rng_double : G -> D * G;
  rng_discrete : list F -> G -> nat * G;     (* an index, by weight *)
  rng_discrete_lt l g : l <> [] -> ((rng_discrete l g).1 < length l)%nat
}.

(** ** The candidates *)

Record llama_token_data (F : Type) := mk_td { tk_id : Z; tk_logit : F; tk_p : F }.
Arguments mk_td {F} _ _ _.
Arguments tk_id {F} _.
Arguments tk_logit {F} _.
Arguments tk_p {F} _.

(** [data] is the memory from the pointer on, of which the first [size] entries count. *)
Record llama_token_data_array (F : Type) := mk_arr { ar_data : list (llama_token_data F); ar_size : nat; ar_selected : Z; ar_sorted : bool }.
Arguments mk_arr {F} _ _ _ _.
Arguments ar_data {F} _.
Arguments ar_size {F} _.
Arguments ar_selected {F} _.
Arguments ar_sorted {F} _.

Section arrays.
Context {F : Type}.
Implicit Types cur : llama_token_data_array F.
Definition set_p (p : F) (d : llama_token_data F) := mk_td (tk_id d) (tk_logit d) p.
Definition set_logit (x : F) (d : llama_token_data F) := mk_td (tk_id d) x (tk_p d).
Definition with_data (data : list (llama_token_data F)) cur := mk_arr data (ar_size cur) (ar_selected cur) (ar_sorted cur).
Definition with_size (n : nat) cur := mk_arr (ar_data cur) n (ar_selected cur) (ar_sorted cur).
Definition with_selected (i : Z) cur := mk_arr (ar_data cur) (ar_size cur) i (ar_sorted cur).
Definition with_sorted (b : bool) cur := mk_arr (ar_data cur) (ar_size cur) (ar_selected cur) b.

(** [for (i = 0; i < size; ++i) data[i] = f(data[i]);] *)
Definition update_all (f : llama_token_data F -> llama_token_data F) cur : res (llama_token_data_array F) :=
  data ← foldM (fun data i => d ← rd data i; wr data i (f d)) (ar_data cur) (seq 0 (ar_size cur));
  Ok (with_data data cur).
(** A loop that reads the entries from [from] on. *)
Definition fold_from {S} (from : nat) (f : S -> llama_token_data F -> S) (s : S) cur : res S :=
  foldM (fun s i => d ← rd (ar_data cur) i; Ok (f s d)) s (seq from (ar_size cur - from)).

(** [std::copy(src, src + n, dst)] and an algorithm on a range. *)
Definition copy_front {A} (src : list A) (n : nat) (dst : list A) : res (list A) :=
  if (n <=? length src)%nat && (n <=? length dst)%nat then Ok (take n src ++ drop n dst) else Fault OutOfRange.
Definition on_range {A} (f : list A -> list A) (offs n : nat) (l : list A) : res (list A) :=
  if (offs + n <=? length l)%nat then Ok (take offs l ++ f (take n (drop offs l)) ++ drop (offs + n) l) else Fault OutOfRange.
End arrays.

Section samplers.
Context {F : Type} `{FloatArith F} `{StdSort}.
Implicit Types cur : llama_token_data_array F.

Definition zero : F := a_of_Z 0.
Definition one : F := a_of_Z 1.
Definition a_gt (x y : F) : bool := a_lt y x.
Definition a_ge (x y : F) : bool := a_le y x.
(** [std::max] of floats. *)
Definition max_f (x y : F) : F := if a_lt x y then y else x.
Definition neg_inf : F := a_neg a_inf.

(** The order of the sorts: greater logits first. *)
Definition comp_logit (a b : llama_token_data F) : bool := a_gt (tk_logit a) (tk_logit b).

(** ** Sorting by buckets *)

Definition nbuckets : nat := 128.
Definition bucket_low : F := a_lit (-100) (-1).
Definition bucket_high : F := a_lit 100 (-1).
Definition bucket_scale : F := a_div (a_of_Z 128) (a_sub bucket_high bucket_low).
Definition bucket_inter : F := a_mul (a_neg bucket_low) bucket_scale.
Definition bucket_of (val : F) : res nat :=
  ib ← match a_trunc (a_add (a_mul bucket_scale val) bucket_inter) with Some ib => Ok ib | None => Fault Overflow end;
  Ok (Z.to_nat (Z.max 0 (Z.min (Z.of_nat nbuckets - 1) ib))).

Definition count_bucket cur (st : list nat * list nat) (i : nat) : res (list nat * list nat) :=
  let '(bucket_idx, histo) := st in
  d ← rd (ar_data cur) i;
  ib ← bucket_of (tk_logit d);
  n ← rd histo ib;
  histo ← wr histo ib (S n);
  Ok (bucket_idx ++ [ib], histo).

(** The buckets from the top until they hold [npartial] candidates. *)
Definition take_bucket (histo : list nat) (npartial : nat) (nhave : nat) (ib : nat) : res (nat + nat * nat) :=
  n ← rd histo ib;
  let nhave := (nhave + n)%nat in
  Ok (if (npartial <=? nhave)%nat then inr (nhave, ib) else inl nhave).

(** A candidate goes to the next place of its bucket. *)
Definition place_candidate cur (bucket_idx : list nat) (ib : nat) (st : list (llama_token_data F) * list nat) (i : nat) :
    res (list (llama_token_data F) * list nat) :=
  let '(res_, bucket_ptrs) := st in
  j ← rd bucket_idx i;
  if (ib <=? j)%nat then
    ptr ← rd bucket_ptrs (nbuckets - 1 - j);
    d ← rd (ar_data cur) i;
    res_ ← wr res_ ptr d;
    bucket_ptrs ← wr bucket_ptrs (nbuckets - 1 - j)%nat (S ptr);
    Ok (res_, bucket_ptrs)
  else Ok st.

(** [llama_token_data_array_partial_sort]; [res_] is the buffer with what it held before. *)
Definition partial_sort cur (npartial : nat) (res_ : list (llama_token_data F)) : res (list (llama_token_data F)) :=
  c ← foldM (count_bucket cur) ([], replicate nbuckets 0%nat) (seq 0 (ar_size cur));
  let '(bucket_idx, histo) := (c : list nat * list nat) in
  r ← foldB (take_bucket histo npartial) 0%nat (rev (seq 0 nbuckets));
  match r with
  | inl _ => Fault OutOfRange     (* ib = -1: histo[-1] *)
  | inr (nhave, ib) =>
      let buckets := rev (seq ib (nbuckets - ib)) in
      p ← foldM (fun st j => n ← rd histo j; Ok (st.1 ++ [st.2], (st.2 + n)%nat)) ([], 0%nat) buckets;
      w ← foldM (place_candidate cur bucket_idx ib) (vresize (mk_td 0 zero zero) nhave res_, p.1) (seq 0 (ar_size cur));
      s ← foldM (fun st j => n ← rd histo j; l ← on_range (std_sort comp_logit) st.2 n st.1; Ok (l, (st.2 + n)%nat))
            (w.1, 0%nat) (removelast buckets);
      n ← rd histo ib;
      on_range (std_partial_sort comp_logit (npartial - s.2)) s.2 n s.1
  end.

Definition partial_sort_inplace cur (npartial : nat) : res (llama_token_data_array F) :=
  if (npartial <=? 128)%nat then
    assert_ (npartial <=? ar_size cur)%nat ;;
    data ← on_range (std_partial_sort comp_logit npartial) 0 (ar_size cur) (ar_data cur);
    Ok (mk_arr data npartial (ar_selected cur) true)
  else
    tmp ← partial_sort cur npartial [];
    data ← copy_front tmp npartial (ar_data cur);
    Ok (mk_arr data npartial (ar_selected cur) true).

(** ** The common steps *)

(** The greatest logit: of the first candidate when they are sorted. *)
Definition max_logit cur : res F :=
  d ← rd (ar_data cur) 0;
  if ar_sorted cur then Ok (tk_logit d) else fold_from 1 (fun m d => max_f m (tk_logit d)) (tk_logit d) cur.

Definition softmax_impl (do_sort : bool) cur : res (llama_token_data_array F) :=
  assert_ (0 <? ar_size cur)%nat ;;
  cur ← (if do_sort && negb (ar_sorted cur) then partial_sort_inplace cur (ar_size cur) else Ok cur);
  max_l ← max_logit cur;
  cur ← update_all (fun d => set_p (a_exp (a_sub (tk_logit d) max_l)) d) cur;
  cum_sum ← fold_from 0 (fun s d => a_add s (tk_p d)) zero cur;
  update_all (fun d => set_p (a_div (tk_p d) cum_sum) d) cur.

(** One round of the search for the greatest logit: all others become [-INFINITY]. *)
Definition temp_zero_step (st : list (llama_token_data F) * nat * F) (i : nat) : res (list (llama_token_data F) * nat * F) :=
  let '(data, max_i, max_l) := st in
  d ← rd data i;
  if a_gt (tk_logit d) max_l then
    m ← rd data max_i;
    data ← wr data max_i (set_logit neg_inf m);
    Ok (data, i, tk_logit d)
  else
    data ← wr data i (set_logit neg_inf d);
    Ok (data, max_i, max_l).
Definition temp_impl (temp : F) cur : res (llama_token_data_array F) :=
  if a_le temp zero then
    d ← rd (ar_data cur) 0;
    r ← foldM temp_zero_step (ar_data cur, 0%nat, tk_logit d) (seq 1 (ar_size cur - 1));
    Ok (with_data r.1.1 cur)
  else update_all (fun d => set_logit (a_div (tk_logit d) temp) d) cur.

Definition top_k_impl (k : Z) cur : res (llama_token_data_array F) :=
  if k <=? 0 then Ok cur
  else
    let k := Nat.min (Z.to_nat k) (ar_size cur) in
    cur ← (if negb (ar_sorted cur) then partial_sort_inplace cur k else Ok cur);
    Ok (with_size k cur).

(** ** Samplers without state *)

Definition greedy_apply cur : res (llama_token_data_array F) :=
  sel ← foldM (fun sel i => d ← rd (ar_data cur) i; s ← rd (ar_data cur) sel; Ok (if a_gt (tk_logit d) (tk_logit s) then i else sel))
          0%nat (seq 1 (ar_size cur - 1));
  Ok (with_selected (Z.of_nat sel) cur).

Definition min_p_apply (p : F) (min_keep : nat) cur : res (llama_token_data_array F) :=
  if a_le p zero || (ar_size cur =? 0)%nat then Ok cur
  else
    u ← (if negb (ar_sorted cur) then
           max_logit ← fold_from 0 (fun m d => max_f m (tk_logit d)) (a_neg a_max) cur;
           let min_logit := a_add max_logit (a_log p) in
           filtered_tokens ← fold_from 0 (fun l d => if a_ge (tk_logit d) min_logit then l ++ [d] else l) [] cur;
           if (0 <? length filtered_tokens)%nat && (min_keep <=? length filtered_tokens)%nat then
             data ← copy_front filtered_tokens (length filtered_tokens) (ar_data cur);
             Ok (Some (with_size (length filtered_tokens) (with_data data cur)))
           else Ok None
         else Ok None);
    match u with
    | Some cur => Ok cur
    | None =>
        cur ← (if negb (ar_sorted cur) then partial_sort_inplace cur (ar_size cur) else Ok cur);
        d ← rd (ar_data cur) 0;
        let min_logit := a_add (tk_logit d) (a_log p) in
        r ← foldB (fun _ i => d ← rd (ar_data cur) i;
                     Ok (if a_lt (tk_logit d) min_logit && (min_keep <=? i)%nat then inr i else inl tt)) tt (seq 1 (ar_size cur - 1));
        Ok (with_size (match r with inr i => i | inl _ => Nat.max 1 (ar_size cur) end) cur)
    end.

(** The cumulative probabilities of the candidates in the order of [indices]; [inr] is the
    number of those that are kept. *)
Definition typical_step (p : F) (min_keep : nat) cur (st : F) (e : nat * nat) : res (F + nat) :=
  let '(i, index) := e in
  d ← rd (ar_data cur) index;
  let cum_sum := a_add st (tk_p d) in
  Ok (if a_gt cum_sum p && ((min_keep =? 0)%nat || (min_keep - 1 <=? i)%nat) then inr (i + 1)%nat else inl cum_sum).
Definition typical_apply (p : F) (min_keep : nat) cur : res (llama_token_data_array F) :=
  if a_ge p one then Ok cur
  else
    cur ← softmax_impl true cur;
    entropy ← fold_from 0 (fun e d => a_add e (a_mul (a_neg (tk_p d)) (a_log (tk_p d)))) zero cur;
    shifted_scores ← fold_from 0 (fun l d => l ++ [a_abs (a_sub (a_neg (a_log (tk_p d))) entropy)]) [] cur;
    let score i := default zero (shifted_scores !! i) in
    let indices := std_sort (fun a b => a_lt (score a) (score b)) (seq 0 (ar_size cur)) in
    r ← foldB (typical_step p min_keep cur) zero (zip (seq 0 (length indices)) indices);
    let last_idx := match r with inr n => n | inl _ => length indices end in
    cur_p_new ← foldM (fun l i => index ← rd indices i; d ← rd (ar_data cur) index; Ok (l ++ [d])) [] (seq 0 last_idx);
    data ← copy_front cur_p_new (length cur_p_new) (ar_data cur);
    Ok (with_sorted false (with_size (length cur_p_new) (with_data data cur))).

(** [buf_sort] stays from call to call. *)
Definition top_p_step (p : F) (min_keep : nat) cur (i : nat) (st : F * nat * option (list (llama_token_data F))) :
    res (F * nat * option (list (llama_token_data F)) + (nat * option (list (llama_token_data F)))) :=
  let '(cum_sum, k, buf) := st in
  d ← rd (match buf with Some b => b | None => ar_data cur end) i;
  let cum_sum := a_add cum_sum (tk_p d) in
  if a_ge cum_sum p && (min_keep <=? i + 1)%nat then Ok (inr ((i + 1)%nat, buf))
  else if negb (ar_sorted cur) && (i + 1 =? k)%nat then
    buf' ← partial_sort cur (ar_size cur) (default [] buf);
    Ok (inl (cum_sum, ar_size cur, Some buf'))
  else Ok (inl (cum_sum, k, buf)).
Definition top_p_apply (p : F) (min_keep : nat) (buf_sort : list (llama_token_data F)) cur :
    res (list (llama_token_data F) * llama_token_data_array F) :=
  if a_ge p one then Ok (buf_sort, cur)
  else
    cur ← softmax_impl false cur;
    s ← (if negb (ar_sorted cur) && (1024 <? ar_size cur)%nat then
           let k := Nat.min 256 (ar_size cur) in
           b ← partial_sort cur k buf_sort; Ok (cur, k, Some b)
         else if negb (ar_sorted cur) then
           cur ← partial_sort_inplace cur (ar_size cur); Ok (cur, ar_size cur, None)
         else Ok (cur, ar_size cur, None));
    let '(cur, k, buf) := s in
    r ← foldB (fun st i => top_p_step p min_keep cur i st) (zero, k, buf) (seq 0 (ar_size cur));
    let '(last_idx, buf) := match r with inr b => b | inl (_, _, buf) => (ar_size cur, buf) end in
    let buf_sort := default buf_sort buf in
    cur ← (if negb (ar_sorted cur) then data ← copy_front buf_sort last_idx (ar_data cur); Ok (with_sorted true (with_data data cur)) else Ok cur);
    Ok (buf_sort, with_size last_idx cur).
End samplers.
