(* ===== verification/SamplingOk.v ===== *)
(** Sorting the candidates: the bucket sort and [std::partial_sort] both leave the best
    candidates in front, in order. *)

From stdpp Require Import sorting.
From S2P Require Import Prelude Vocab VocabMerge RingBuffer Sampling.

(** Floats without NaN: a strict order with its comparisons, and the operations of the bucket
    sort respect it. *)
Class FloatArithLaws (T : Type) `{FloatArith T} := {
  a_lt_irrefl x : a_lt x x = false;
  a_lt_trans x y z : a_lt x y = true -> a_lt y z = true -> a_lt x z = true;
  a_lt_negtrans x y z : a_lt x y = false -> a_lt y z = false -> a_lt x z = false;
  a_le_spec x y : a_le x y = negb (a_lt y x);
  a_add_mono x y c : a_lt y x = false -> a_lt (a_add y c) (a_add x c) = false;
  a_scale_mono x y : a_lt y x = false -> a_lt (a_mul bucket_scale y) (a_mul bucket_scale x) = false;
  a_trunc_mono x y i j : a_lt y x = false -> a_trunc x = Some i -> a_trunc y = Some j -> (i <= j)%Z
}.

(** ** Concatenated blocks *)

Lemma insert_concat {A} (bs : list (list A)) m b k x : bs !! m = Some b -> (k < length b)%nat ->
  <[(length (concat (take m bs)) + k)%nat := x]> (concat bs) = concat (<[m := <[k := x]> b]> bs).
Proof.
  revert m. induction bs as [|b' bs IH]; intros [|m] Hb Hk; try done; cbn in *.
  - injection Hb as <-. by rewrite insert_app_l.
  - rewrite length_app, <- Nat.add_assoc, insert_app_r. f_equal. by apply IH.
Qed.

Lemma on_range_app {A} (f : list A -> list A) (l1 l2 l3 : list A) :
  on_range f (length l1) (length l2) (l1 ++ l2 ++ l3) = Ok (l1 ++ f l2 ++ l3).
Proof.
  unfold on_range. rewrite !length_app, (proj2 (Nat.leb_le _ _)) by lia. do 2 f_equal.
  - apply take_app_length.
  - rewrite drop_app_length, take_app_length. f_equal. by rewrite app_assoc, drop_app_length' by (rewrite length_app; lia).
Qed.

Lemma copy_front_ok {A} (src : list A) n dst : (n <= length src)%nat -> (n <= length dst)%nat -> copy_front src n dst = Ok (take n src ++ drop n dst).
Proof. intros H1 H2. unfold copy_front. by rewrite !(proj2 (Nat.leb_le _ _)). Qed.

(** ** The order of the candidates *)

Section order.
Context {F : Type} `{FloatArithLaws F}.
Implicit Types a b : llama_token_data F.

(** [b] does not come before [a]. *)
Definition not_better (a b : llama_token_data F) : Prop := comp_logit b a = false.
Lemma comp_strict_weak : strict_weak (comp_logit (F := F)).
Proof.
  unfold comp_logit, a_gt. split; [intros a; apply a_lt_irrefl|]. split; [intros a b c E1 E2; by eapply a_lt_trans|].
  intros a b c E1 E2 E3 E4. split; by eapply a_lt_negtrans.
Qed.
Lemma not_better_trans a b c : not_better a b -> not_better b c -> not_better a c.
Proof. unfold not_better, comp_logit, a_gt. intros E1 E2. by eapply a_lt_negtrans. Qed.

(** The candidates of an array, and what it means that [n] of them are the best in order. *)
Definition cands (cur : llama_token_data_array F) : list (llama_token_data F) := take (ar_size cur) (ar_data cur).
Definition best_first (l best rest : list (llama_token_data F)) : Prop :=
  best ++ rest ≡ₚ l /\ StronglySorted not_better best /\ forall a b, a ∈ best -> b ∈ rest -> not_better a b.

End order.

(** ** The bucket sort *)

Lemma rev_seq a n : rev (seq a n) = (fun m => a + n - 1 - m) <$> seq 0 n.
Proof.
  induction n as [|n IH]; [done|]. rewrite seq_S, rev_unit, IH. change (seq 0 (S n)) with (0 :: seq 1 n). rewrite fmap_cons.
  f_equal; [lia|]. rewrite <- fmap_S_seq, <- list_fmap_compose. apply list_fmap_ext. intros i m Hm. apply lookup_seq in Hm as [-> Hi]. cbn. lia.
Qed.

(** A list cut into blocks of given lengths. *)
Lemma split_blocks {A} (lens : list nat) (l : list A) : length l = sum_list lens ->
  exists bs, concat bs = l /\ length <$> bs = lens.
Proof.
  revert l. induction lens as [|n lens IH]; intros l Hl; cbn in Hl.
  - exists []. split; [by destruct l|done].
  - destruct (IH (drop n l)) as (bs & E & El); [rewrite length_drop; lia|]. exists (take n l :: bs). cbn. rewrite E, El, take_drop. split; [done|].
    f_equal. rewrite length_take. lia.
Qed.
Lemma length_concat_fmap {A} (bs : list (list A)) : length (concat bs) = sum_list (length <$> bs).
Proof. induction bs as [|b bs IH]; [done|]. cbn. by rewrite length_app, IH. Qed.

Section buckets.
Context {F : Type} `{FloatArithLaws F} `{StdSort}.
Implicit Types d : llama_token_data F.

Definition bkt d : nat := match bucket_of (tk_logit d) with Ok b => b | _ => 0 end.
Lemma bucket_bound x b : bucket_of (F := F) x = Ok b -> b < nbuckets.
Proof. unfold bucket_of, nbuckets. destruct (a_trunc _) as [i|]; [|done]. rewrite bind_ok. intros [= <-]. lia. Qed.
Lemma bkt_bound d : bkt d < nbuckets.
Proof. unfold bkt. destruct (bucket_of (tk_logit d)) eqn:E; [by eapply bucket_bound|unfold nbuckets; lia..]. Qed.

(** Lower buckets hold no better candidates. *)
Lemma bkt_mono d d' : bucket_of (tk_logit d) = Ok (bkt d) -> bucket_of (tk_logit d') = Ok (bkt d') -> bkt d' < bkt d -> not_better d d'.
Proof.
  unfold not_better, comp_logit, a_gt. intros E E' Hlt. destruct (a_lt (tk_logit d) (tk_logit d')) eqn:El; [|done]. exfalso.
  assert (Hle : a_lt (tk_logit d') (tk_logit d) = false).
  { destruct (a_lt (tk_logit d') (tk_logit d)) eqn:El'; [|done]. pose proof (a_lt_trans _ _ _ El El') as Hi. by rewrite a_lt_irrefl in Hi. }
  unfold bucket_of in E, E'. destruct (a_trunc (a_add (a_mul bucket_scale (tk_logit d)) bucket_inter)) as [i|] eqn:Ei; [|done].
  destruct (a_trunc (a_add (a_mul bucket_scale (tk_logit d')) bucket_inter)) as [i'|] eqn:Ei'; [|done]. rewrite bind_ok in E, E'.
  injection E as E. injection E' as E'. pose proof (a_trunc_mono _ _ _ _ (a_add_mono _ _ bucket_inter (a_scale_mono _ _ Hle)) Ei Ei'). lia.
Qed.

Context (cur : llama_token_data_array F) (Hsize : ar_size cur <= length (ar_data cur)).
Hypothesis Hb : forall d, d ∈ (cands cur) -> bucket_of (tk_logit d) = Ok (bkt d).

Lemma length_cands : length (cands cur) = ar_size cur.
Proof. unfold cands. rewrite length_take. lia. Qed.
Lemma cands_lookup i : i < ar_size cur -> exists d, ar_data cur !! i = Some d /\ (cands cur) !! i = Some d.
Proof.
  intros Hi. destruct (lookup_lt_is_Some_2 (ar_data cur) i) as [d Hd]; [lia|]. exists d. split; [done|]. unfold cands. by rewrite lookup_take_lt.
Qed.

(** The [m]th bucket from the top. *)
Definition blk (m : nat) (l : list (llama_token_data F)) : list (llama_token_data F) := filter (fun d => bkt d = nbuckets - 1 - m) l.
Definition blks (k : nat) : list (list (llama_token_data F)) := (fun m => blk m (cands cur)) <$> seq 0 k.

Definition counted (i : nat) (st : list nat * list nat) : Prop :=
  st.1 = bkt <$> take i (cands cur) /\ length st.2 = nbuckets /\
  forall j, j < nbuckets -> st.2 !! j = Some (length (filter (fun d => bkt d = j) (take i (cands cur)))).

Lemma filter_none (P : llama_token_data F -> Prop) `{!forall d, Decision (P d)} (l : list (llama_token_data F)) : (forall d, ~ P d) -> filter P l = [].
Proof. intros HP. induction l as [|d l IH]; [done|]. by rewrite list.filter_cons_False. Qed.
Lemma filter_all (P : llama_token_data F -> Prop) `{!forall d, Decision (P d)} (l : list (llama_token_data F)) : (forall d, P d) -> filter P l = l.
Proof. intros HP. induction l as [|d l IH]; [done|]. by rewrite list.filter_cons_True, IH. Qed.
Lemma take_S_filter (P : llama_token_data F -> Prop) `{!forall d, Decision (P d)} (l : list (llama_token_data F)) i d : l !! i = Some d ->
  filter P (take (S i) l) = filter P (take i l) ++ (if decide (P d) then [d] else []).
Proof. intros Hd. rewrite (take_S_r _ _ _ Hd), list.filter_app. by rewrite list.filter_singleton. Qed.

Lemma count_loop : runs (foldM (count_bucket cur) ([], replicate nbuckets 0) (seq 0 (ar_size cur))) (counted (ar_size cur)).
Proof.
  pose proof (runs_foldM (fun done_ => counted (length done_)) (count_bucket cur) (seq 0 (ar_size cur)) ([], replicate nbuckets 0)) as R.
  cbn beta in R. rewrite length_seq in R. apply R.
  - split; [done|]. split; [done|]. intros j Hj. cbn [snd]. by rewrite lookup_replicate_2.
  - intros l1 i l2 [bi histo] Es (E1 & E2 & E3). apply seq_split_at in Es as [-> Hi]. cbn [fst snd] in *. set (i := length l1) in *.
    destruct (cands_lookup i Hi) as (d & Hd & Hd'). unfold count_bucket. rewrite (rd_ok _ _ _ Hd), bind_ok, Hb, bind_ok by (by eapply list_elem_of_lookup_2).
    pose proof (bkt_bound d) as Hbd. rewrite (rd_ok _ _ _ (E3 _ Hbd)), bind_ok, wr_ok, bind_ok by lia. cbn [runs].
    rewrite length_app, Nat.add_1_r. fold i. unfold counted. cbn [fst snd]. rewrite length_insert. split_and!; [|done|].
    + rewrite E1, (take_S_r _ _ _ Hd'), fmap_app. done.
    + intros j Hj. rewrite (take_S_filter _ _ _ _ Hd'). destruct (decide (bkt d = j)) as [<-|Hne].
      * rewrite list_lookup_insert_eq by lia. by rewrite length_app, Nat.add_1_r.
      * rewrite list_lookup_insert_ne, app_nil_r by done. by apply E3.
Qed.

Context (histo : list nat) (Hh : forall j, j < nbuckets -> histo !! j = Some (length (filter (fun d => bkt d = j) (cands cur)))).

Lemma blks_S k : blks (S k) = blks k ++ [blk k (cands cur)].
Proof. unfold blks. by rewrite seq_S, fmap_app. Qed.
Lemma drop_blks k : drop k (blks (S k)) = [blk k (cands cur)].
Proof. rewrite blks_S, drop_app_length'; [done|]. unfold blks. by rewrite length_fmap, length_seq. Qed.
Lemma histo_blk m : m < nbuckets -> rd histo (nbuckets - 1 - m) = Ok (length (blk m (cands cur))).
Proof. intros Hm. apply rd_ok, Hh. lia. Qed.

Lemma take_step npartial nhave m : m < nbuckets -> take_bucket histo npartial nhave (nbuckets - 1 - m) =
  Ok (if npartial <=? nhave + length (blk m (cands cur)) then inr (nhave + length (blk m (cands cur)), nbuckets - 1 - m) else inl (nhave + length (blk m (cands cur)))).
Proof. intros Hm. unfold take_bucket. by rewrite (histo_blk m) by done. Qed.

(** All buckets together hold all candidates. *)
Lemma filter_or (P Q : llama_token_data F -> Prop) `{!forall d, Decision (P d), !forall d, Decision (Q d), !forall d, Decision (P d \/ Q d)} (l : list (llama_token_data F)) :
  (forall d, d ∈ l -> P d -> Q d -> False) -> filter (fun d => P d \/ Q d) l ≡ₚ filter P l ++ filter Q l.
Proof.
  intros Hd. induction l as [|d l IH]; [done|]. rewrite !list.filter_cons. assert (IH' := IH ltac:(intros d' Hd'; apply Hd; by right)).
  specialize (Hd d ltac:(by left)). destruct (decide (P d)) as [HP|HP], (decide (Q d)) as [HQ|HQ].
  - by destruct Hd.
  - rewrite decide_True by (by left). cbn. by rewrite IH'.
  - rewrite decide_True by (by right). rewrite IH'. apply Permutation_middle.
  - by rewrite decide_False by (by intros [?|?]).
Qed.
Lemma blks_filter k : k <= nbuckets -> concat (blks k) ≡ₚ filter (fun d => nbuckets - k <= bkt d) (cands cur).
Proof.
  induction k as [|k IH]; intros Hk.
  - rewrite filter_none; [done|]. intros d. pose proof (bkt_bound d). lia.
  - rewrite blks_S, concat_app. cbn. rewrite app_nil_r, IH by lia. unfold blk. rewrite <- filter_or by (intros d; lia).
    rewrite (list_filter_iff (fun d => nbuckets - k <= bkt d \/ bkt d = nbuckets - 1 - k) (fun d => nbuckets - S k <= bkt d)); [done|].
    intros d. pose proof (bkt_bound d). lia.
Qed.
Lemma blks_all : concat (blks nbuckets) ≡ₚ (cands cur).
Proof. rewrite blks_filter by done. rewrite filter_all; [done|]. intros d. lia. Qed.

Lemma take_loop npartial k len nhave : k + len = nbuckets -> nhave = length (concat (blks k)) -> (nhave < npartial \/ k = 0) -> npartial <= length (cands cur) ->
  exists k', k' < nbuckets /\ foldB (take_bucket histo npartial) nhave ((fun m => nbuckets - 1 - m) <$> seq k len) = Ok (inr (length (concat (blks (S k'))), nbuckets - 1 - k')) /\
    length (concat (blks k')) <= npartial <= length (concat (blks (S k'))).
Proof.
  revert k nhave. induction len as [|len IH]; intros k nhave Hk -> Hn Hp.
  - exfalso. replace k with nbuckets in * by lia. rewrite blks_all in Hn. unfold nbuckets in *. lia.
  - change (seq k (S len)) with (k :: seq (S k) len). rewrite fmap_cons. cbn [foldB].
    rewrite (take_step npartial _ k), bind_ok by lia. assert (E : length (concat (blks k)) + length (blk k (cands cur)) = length (concat (blks (S k)))).
    { rewrite blks_S, concat_app, length_app. cbn. by rewrite app_nil_r. }
    rewrite E. destruct (Nat.leb_spec npartial (length (concat (blks (S k))))) as [Hle|Hlt].
    + exists k. split; [lia|]. split; [done|]. split; [|done]. destruct Hn as [Hn| ->]; [lia|cbn; lia].
    + apply IH; [lia|done|by left|done].
Qed.

(** The first places of the buckets. *)
Definition offs (m : nat) : nat := length (concat (blks m)).
Lemma offs_S m : offs (S m) = offs m + length (blk m (cands cur)).
Proof. unfold offs. rewrite blks_S, concat_app, length_app. cbn. by rewrite app_nil_r. Qed.
Lemma ptrs_loop k len : k + len <= nbuckets ->
  foldM (fun st j => n ← rd histo j; Ok (st.1 ++ [st.2], st.2 + n)) (offs <$> seq 0 k, offs k) ((fun m => nbuckets - 1 - m) <$> seq k len) =
  Ok (offs <$> seq 0 (k + len), offs (k + len)).
Proof.
  revert k. induction len as [|len IH]; intros k Hk; [by rewrite Nat.add_0_r|].
  change (seq k (S len)) with (k :: seq (S k) len). rewrite fmap_cons. cbn [foldM fst snd].
  rewrite (histo_blk k), !bind_ok, <- offs_S by lia. replace (k + S len) with (S k + len) by lia. rewrite <- IH by lia. by rewrite seq_S, fmap_app.
Qed.
Lemma take_blks m k : m <= k -> take m (blks k) = blks m.
Proof. intros Hm. unfold blks. by rewrite <- fmap_take, take_seq, Nat.min_l. Qed.
Lemma blks_lookup m k : m < k -> blks k !! m = Some (blk m (cands cur)).
Proof. intros Hm. unfold blks. by rewrite list_lookup_fmap, (proj2 (lookup_seq 0 k m m)) by lia. Qed.

Section place.
Context (k' : nat) (Hk' : k' < nbuckets).

Definition placed (i : nat) (st : list (llama_token_data F) * list nat) : Prop :=
  exists bs, st.1 = concat bs /\ length <$> bs = length <$> blks (S k') /\ length st.2 = S k' /\
    forall m, m <= k' -> exists b, bs !! m = Some b /\ take (length (blk m (take i (cands cur)))) b = blk m (take i (cands cur)) /\
      st.2 !! m = Some (offs m + length (blk m (take i (cands cur)))).

Lemma block_length (bs : list (list (llama_token_data F))) m b : length <$> bs = length <$> blks (S k') -> m <= k' -> bs !! m = Some b -> length b = length (blk m (cands cur)).
Proof.
  intros El Hm Hb'. apply (f_equal (fun l => l !! m)) in El. rewrite !list_lookup_fmap, Hb', blks_lookup in El by lia. by injection El.
Qed.
Lemma blocks_before (bs : list (list (llama_token_data F))) m : length <$> bs = length <$> blks (S k') -> m <= S k' -> length (concat (take m bs)) = offs m.
Proof. intros El Hm. unfold offs. rewrite !length_concat_fmap, fmap_take, El, <- fmap_take, take_blks by done. done. Qed.
Lemma blk_prefix m i : length (blk m (take i (cands cur))) <= length (blk m (cands cur)).
Proof. rewrite <- (take_drop i (cands cur)) at 2. unfold blk. rewrite list.filter_app, length_app. lia. Qed.

Lemma place_step i d st : cands cur !! i = Some d -> ar_data cur !! i = Some d -> placed i st ->
  runs (place_candidate cur (bkt <$> cands cur) (nbuckets - 1 - k') st i) (placed (S i)).
Proof.
  intros Hd Hd' (bs & E1 & El & E2 & Hp). destruct st as [out ptrs]. cbn [fst snd] in *. unfold place_candidate.
  assert (Hj : (bkt <$> cands cur) !! i = Some (bkt d)) by (by rewrite list_lookup_fmap, Hd). rewrite (rd_ok _ _ _ Hj), bind_ok.
  pose proof (bkt_bound d) as Hbd. destruct (Nat.leb_spec (nbuckets - 1 - k') (bkt d)) as [Hle|Hlt].
  - set (m := nbuckets - 1 - bkt d). assert (Hm : m <= k') by lia. assert (Em : bkt d = nbuckets - 1 - m) by lia. clearbody m. destruct (Hp m Hm) as (b & Hbm & Ht & Hptr).
    assert (Hblk : blk m (take (S i) (cands cur)) = blk m (take i (cands cur)) ++ [d]).
    { unfold blk. rewrite (take_S_filter _ _ _ _ Hd), decide_True by lia. done. }
    pose proof (block_length _ _ _ El Hm Hbm) as Hlb. pose proof (blk_prefix m (S i)) as Hpre. rewrite Hblk, length_app in Hpre. cbn [length] in Hpre.
    rewrite (rd_ok _ _ _ Hptr), bind_ok, (rd_ok _ _ _ Hd'), bind_ok, <- (blocks_before bs m El), E1 by lia.
    assert (Hlen : length (concat (take m bs)) + length (blk m (take i (cands cur))) < length (concat bs)).
    { rewrite <- (take_drop m bs) at 2. rewrite concat_app, length_app, (drop_S _ _ _ Hbm). cbn [concat]. rewrite length_app. lia. }
    rewrite wr_ok, wr_ok, !bind_ok by lia. cbn [runs]. rewrite (insert_concat _ _ b) by (done || lia).
    exists (<[m := <[length (blk m (take i (cands cur))) := d]> b]> bs). cbn [fst snd]. split; [done|]. split_and!.
    + rewrite list_fmap_insert, length_insert. rewrite list_insert_id; [done|]. by rewrite list_lookup_fmap, Hbm.
    + by rewrite length_insert.
    + intros m' Hm'. destruct (decide (m' = m)) as [->|Hne].
      * eexists. rewrite list_lookup_insert_eq by (by eapply lookup_lt_Some). split; [done|]. rewrite Hblk, length_app, Nat.add_1_r. split.
        -- rewrite (take_S_r _ _ d), take_insert_ge by (done || (apply list_lookup_insert_eq; lia)). by rewrite Ht.
        -- rewrite list_lookup_insert_eq by lia. rewrite (blocks_before bs m El) by lia. f_equal. lia.
      * destruct (Hp m' Hm') as (b' & H1' & H2' & H3'). exists b'. rewrite !list_lookup_insert_ne by done.
        assert (Hblk' : blk m' (take (S i) (cands cur)) = blk m' (take i (cands cur))).
        { unfold blk. rewrite (take_S_filter _ _ _ _ Hd), decide_False, app_nil_r by lia. done. }
        by rewrite Hblk'.
  - cbn [runs]. exists bs. cbn [fst snd]. split_and!; try done. intros m Hm.
    assert (Hblk : blk m (take (S i) (cands cur)) = blk m (take i (cands cur))).
    { unfold blk. rewrite (take_S_filter _ _ _ _ Hd), decide_False, app_nil_r by lia. done. }
    rewrite Hblk. by apply Hp.
Qed.

Lemma place_loop out : length out = offs (S k') ->
  runs (foldM (place_candidate cur (bkt <$> cands cur) (nbuckets - 1 - k')) (out, offs <$> seq 0 (S k')) (seq 0 (ar_size cur)))
    (fun st => st.1 = concat (blks (S k'))).
Proof.
  intros Hout. eapply runs_mono.
  { apply (runs_foldM (fun done_ => placed (length done_))).
    - destruct (split_blocks (length <$> blks (S k')) out) as (bs & E & El); [by rewrite <- length_concat_fmap|].
      exists bs. cbn [length fst snd]. split; [done|]. split; [done|]. split; [by rewrite length_fmap, length_seq|]. intros m Hm.
      assert (Hlt : m < length bs). { apply (f_equal length) in El. rewrite !length_fmap in El. unfold blks in El. rewrite length_fmap, length_seq in El. lia. }
      destruct (lookup_lt_is_Some_2 bs m Hlt) as [b Hbm]. exists b. split; [done|]. split; [done|].
      rewrite list_lookup_fmap, (proj2 (lookup_seq 0 (S k') m m)) by lia. cbn. by rewrite Nat.add_0_r.
    - intros l1 i l2 st Es Hst. apply seq_split_at in Es as [-> Hi]. destruct (cands_lookup (length l1) Hi) as (d & Hd & Hd').
      rewrite length_app, Nat.add_1_r. by apply (place_step _ d). }
  intros [out' ptrs] (bs & E1 & El & E2 & Hp). cbn [fst snd] in *. rewrite E1. f_equal. apply list_eq. intros m. destruct (decide (m <= k')) as [Hm|Hm].
  - destruct (Hp m Hm) as (b & Hbm & Ht & _). rewrite Hbm, blks_lookup by lia. f_equal. rewrite length_seq in Ht.
    assert (Efull : take (ar_size cur) (cands cur) = cands cur) by (apply take_ge; by rewrite length_cands). rewrite Efull in Ht.
    rewrite <- (block_length _ _ _ El Hm Hbm), firstn_all in Ht. done.
  - assert (Hl : length bs = S k'). { apply (f_equal length) in El. rewrite !length_fmap in El. unfold blks in El. by rewrite length_fmap, length_seq in El. }
    rewrite !lookup_ge_None_2; [done| |lia]. unfold blks. rewrite length_fmap, length_seq. lia.
Qed.
End place.

(** The sorted buckets in front. *)
Definition sorted_blks (k : nat) : list (llama_token_data F) := concat (std_sort comp_logit <$> blks k).
Lemma length_sort (l : list (llama_token_data F)) : length (std_sort comp_logit l) = length l.
Proof. apply Permutation_length, std_sort_ok, comp_strict_weak. Qed.
Lemma sorted_blks_S k : sorted_blks (S k) = sorted_blks k ++ std_sort comp_logit (blk k (cands cur)).
Proof. unfold sorted_blks. rewrite blks_S, fmap_app, concat_app. cbn. by rewrite app_nil_r. Qed.
Lemma sorted_blks_perm k : sorted_blks k ≡ₚ concat (blks k).
Proof.
  induction k as [|k IH]; [done|]. rewrite sorted_blks_S, blks_S, concat_app, IH. cbn. rewrite app_nil_r. f_equiv. apply std_sort_ok, comp_strict_weak.
Qed.
Lemma length_sorted_blks k : length (sorted_blks k) = offs k.
Proof. apply Permutation_length, sorted_blks_perm. Qed.

Lemma sort_loop K k len : k + len <= K <= nbuckets ->
  foldM (fun st j => n ← rd histo j; l ← on_range (std_sort comp_logit) st.2 n st.1; Ok (l, st.2 + n))
    (sorted_blks k ++ concat (drop k (blks K)), offs k) ((fun m => nbuckets - 1 - m) <$> seq k len) =
  Ok (sorted_blks (k + len) ++ concat (drop (k + len) (blks K)), offs (k + len)).
Proof.
  revert k. induction len as [|len IH]; intros k Hk; [by rewrite Nat.add_0_r|].
  change (seq k (S len)) with (k :: seq (S k) len). rewrite fmap_cons. cbn [foldM fst snd].
  rewrite (histo_blk k), bind_ok, (drop_S _ (blk k (cands cur)) k) by (lia || (apply blks_lookup; lia)). cbn [concat].
  rewrite <- (length_sorted_blks k), on_range_app, !bind_ok. replace (k + S len) with (S k + len) by lia. rewrite <- IH by lia.
  by rewrite sorted_blks_S, offs_S, <- length_sorted_blks, <- app_assoc.
Qed.

Lemma bucket_candidate d : d ∈ cands cur -> bucket_of (tk_logit d) = Ok (bkt d).
Proof. apply Hb. Qed.
Lemma blk_better k a b : a ∈ concat (blks k) -> b ∈ cands cur -> k <= nbuckets -> bkt b < nbuckets - k -> not_better a b.
Proof.
  intros Ha Hbc Hk Hlt. rewrite (blks_filter k Hk), list_elem_of_filter in Ha. destruct Ha as [Hge Ha].
  apply bkt_mono; [by apply bucket_candidate|by apply bucket_candidate|lia].
Qed.
Lemma sorted_blks_sorted k : k <= nbuckets -> StronglySorted not_better (sorted_blks k).
Proof.
  induction k as [|k IH]; intros Hk; [constructor|]. rewrite sorted_blks_S. apply StronglySorted_app_2; [|apply IH; lia|apply std_sort_ok, comp_strict_weak].
  intros a b Ha Hb'. rewrite sorted_blks_perm in Ha.
  assert (Hb2 : b ∈ blk k (cands cur)) by (by rewrite <- (proj1 (std_sort_ok comp_logit (blk k (cands cur)) comp_strict_weak))).
  apply list_elem_of_filter in Hb2 as [E Hb2]. apply (blk_better k); [done|done|lia|lia].
Qed.

(** What is left of a list sorted in part, with the buckets below. *)
Lemma partial_best npartial k' : k' < nbuckets -> offs k' <= npartial <= offs (S k') ->
  let middle := npartial - offs k' in
  let part := std_partial_sort comp_logit middle (blk k' (cands cur)) in
  best_first (cands cur) (take npartial (sorted_blks k' ++ part)) (drop middle part ++ filter (fun d => bkt d < nbuckets - 1 - k') (cands cur)).
Proof.
  intros Hk Hn middle part. rewrite offs_S in Hn. destruct (std_partial_sort_ok comp_logit middle (blk k' (cands cur)) comp_strict_weak ltac:(lia)) as (HP & HS & HB).
  fold part in HP, HS, HB. pose proof (Permutation_length HP) as Hlen. assert (Etake : take npartial (sorted_blks k' ++ part) = sorted_blks k' ++ take middle part).
  { rewrite take_app_ge by (rewrite length_sorted_blks; lia). by rewrite length_sorted_blks. }
  assert (Hpart : forall d, d ∈ part -> d ∈ cands cur /\ bkt d = nbuckets - 1 - k') by (intros d Hd; rewrite HP in Hd; apply list_elem_of_filter in Hd as [? ?]; done).
  assert (Hin : forall d, d ∈ take middle part \/ d ∈ drop middle part -> d ∈ part) by (intros d Hd; rewrite <- (take_drop middle part); by apply elem_of_app).
  rewrite Etake. split; [|split].
  - rewrite <- app_assoc, (app_assoc (take middle part)), take_drop, HP, sorted_blks_perm, app_assoc.
    assert (E : concat (blks k') ++ blk k' (cands cur) = concat (blks (S k'))) by (rewrite blks_S, concat_app; cbn; by rewrite app_nil_r).
    rewrite E, blks_filter by lia. rewrite <- (filter_or (fun d => nbuckets - S k' <= bkt d) (fun d => bkt d < nbuckets - 1 - k')) by (intros d; lia).
    rewrite (filter_all (fun d => nbuckets - S k' <= bkt d \/ bkt d < nbuckets - 1 - k')); [done|]. intros d. lia.
  - apply StronglySorted_app_2; [|apply sorted_blks_sorted; lia|done]. intros a b Ha Hb'. rewrite sorted_blks_perm in Ha.
    destruct (Hpart b) as [Hb1 Hb2]; [apply Hin; by left|]. apply (blk_better k'); [done|done|lia|lia].
  - intros a b Ha Hb'. apply elem_of_app in Ha as [Ha|Ha]; apply elem_of_app in Hb' as [Hb'|Hb'].
    + rewrite sorted_blks_perm in Ha. destruct (Hpart b) as [Hb1 Hb2]; [apply Hin; by right|]. apply (blk_better k'); [done|done|lia|lia].
    + rewrite sorted_blks_perm in Ha. apply list_elem_of_filter in Hb' as [Hlt Hb']. apply (blk_better k'); [done|done|lia|lia].
    + by apply HB.
    + destruct (Hpart a) as [Ha1 Ha2]; [apply Hin; by left|]. apply list_elem_of_filter in Hb' as [Hlt Hb'].
      apply bkt_mono; [by apply bucket_candidate|by apply bucket_candidate|lia].
Qed.
End buckets.

(** The bucket sort leaves the best candidates in front, whatever the buffer held. *)
Lemma partial_sort_best {F : Type} `{FloatArithLaws F} `{StdSort} (cur : llama_token_data_array F) npartial res_ :
  ar_size cur <= length (ar_data cur) -> npartial <= ar_size cur -> (forall d, d ∈ cands cur -> exists b, bucket_of (tk_logit d) = Ok b) ->
  exists out rest, partial_sort cur npartial res_ = Ok out /\ npartial <= length out /\ best_first (cands cur) (take npartial out) rest.
Proof.
  intros Hsize Hn Hb0. assert (Hb : forall d, d ∈ cands cur -> bucket_of (tk_logit d) = Ok (bkt d)) by (intros d Hd; unfold bkt; destruct (Hb0 d Hd) as [b ->]; done).
  unfold partial_sort. destruct (runs_inv _ _ (count_loop cur Hsize Hb)) as ([bi histo] & E & E1 & E2 & Hh). rewrite E, bind_ok. cbn [fst snd] in *.
  assert (Efull : take (ar_size cur) (cands cur) = cands cur) by (apply take_ge; by rewrite (length_cands cur Hsize)). rewrite Efull in *.
  rewrite (rev_seq 0). cbn [Nat.add].
  destruct (take_loop cur Hsize histo Hh npartial 0 nbuckets 0 eq_refl eq_refl ltac:(by right) ltac:(by rewrite (length_cands cur Hsize))) as (k' & Hk & Etake & Hoffs).
  rewrite Etake, bind_ok. change (length (concat (blks cur (S k')))) with (offs cur (S k')) in *. change (length (concat (blks cur k'))) with (offs cur k') in *.
  rewrite rev_seq. replace (nbuckets - (nbuckets - 1 - k')) with (S k') by lia.
  assert (Eb : (fun m => nbuckets - 1 - k' + S k' - 1 - m) <$> seq 0 (S k') = (fun m => nbuckets - 1 - m) <$> seq 0 (S k')).
  { apply list_fmap_ext. intros i m _. lia. }
  rewrite Eb. pose proof (ptrs_loop cur Hsize histo Hh 0 (S k') ltac:(lia)) as Ep. cbn [Nat.add] in Ep. change (offs cur <$> seq 0 0) with (@nil nat) in Ep.
  change (offs cur 0) with 0 in Ep. rewrite Ep, bind_ok. cbn [fst snd]. rewrite E1.
  destruct (runs_inv _ _ (place_loop cur Hsize k' Hk (vresize (mk_td 0 zero zero) (offs cur (S k')) res_) ltac:(unfold vresize; rewrite length_app, length_take, length_replicate; lia)))
    as ([out ptrs] & Ew & Eout). rewrite Ew, bind_ok. cbn [fst] in *. rewrite seq_S, fmap_app. cbn [fmap list_fmap]. rewrite removelast_last.
  pose proof (sort_loop cur Hsize histo Hh (S k') 0 k' ltac:(lia)) as Es. cbn [Nat.add] in Es. rewrite drop_0 in Es. change (sorted_blks cur 0) with (@nil (llama_token_data F)) in Es.
  cbn [app] in Es. change (offs cur 0) with 0 in Es. rewrite Eout, Es, bind_ok. cbn [fst snd]. rewrite (histo_blk cur Hsize histo Hh k' Hk), bind_ok.
  rewrite (drop_blks cur k'). cbn [concat]. rewrite app_nil_r, <- (length_sorted_blks cur k').
  pose proof (on_range_app (std_partial_sort comp_logit (npartial - length (sorted_blks cur k'))) (sorted_blks cur k') (blk k' (cands cur)) []) as Eo.
  rewrite !app_nil_r in Eo. rewrite Eo. eexists _, _. split; [done|].
  pose proof (partial_best cur Hsize Hb npartial k' Hk Hoffs) as Hbest. cbv zeta in Hbest. rewrite (length_sorted_blks cur k'). split; [|exact Hbest].
  rewrite length_app, (length_sorted_blks cur k'). rewrite (offs_S cur k') in Hoffs.
  rewrite (Permutation_length (proj1 (std_partial_sort_ok comp_logit (npartial - offs cur k') (blk k' (cands cur)) comp_strict_weak ltac:(lia)))). lia.
Qed.

(** ** Sorting in place and top-k *)

Section inplace.
Context {F : Type} `{FloatArithLaws F} `{StdSort}.
Implicit Types cur : llama_token_data_array F.

(** The candidates lie in the memory. *)
Definition fits cur : Prop := ar_size cur <= length (ar_data cur).
(** Every logit has a bucket: none is infinite or out of the range of int. *)
Definition finite cur : Prop := forall d, d ∈ cands cur -> exists b, bucket_of (tk_logit d) = Ok b.
(** The flag is true of the candidates. *)
Definition flag_ok cur : Prop := ar_sorted cur = true -> StronglySorted not_better (cands cur).

Lemma length_cands' cur : fits cur -> length (cands cur) = ar_size cur.
Proof. apply length_cands. Qed.

Lemma foldM_each_step {S A} (f : S -> A -> res S) l s s' : foldM f s l = Ok s' -> forall x, x ∈ l -> exists s1 s2, f s1 x = Ok s2.
Proof.
  revert s. induction l as [|y l IH]; intros s E x Hx; [by apply not_elem_of_nil in Hx|]. cbn in E. destruct (f s y) as [s1| |] eqn:Ey; try done.
  apply elem_of_cons in Hx as [->|Hx]; [by exists s, s1|by eapply IH].
Qed.
Lemma partial_sort_finite cur npartial res_ out : fits cur -> partial_sort cur npartial res_ = Ok out -> finite cur.
Proof.
  intros Hf E d Hd. unfold partial_sort in E. destruct (foldM (count_bucket cur) _ _) as [st| |] eqn:Ec; try done.
  apply list_elem_of_lookup in Hd as [i Hi]. pose proof (lookup_lt_Some _ _ _ Hi) as Hlt. rewrite length_cands' in Hlt by done.
  destruct (foldM_each_step _ _ _ _ Ec i) as ([bi histo] & s2 & Es); [apply elem_of_seq; lia|]. unfold count_bucket in Es.
  destruct (cands_lookup cur Hf i Hlt) as (d' & Hd' & E'). rewrite Hi in E'. injection E' as <-. rewrite (rd_ok _ _ _ Hd'), bind_ok in Es.
  destruct (bucket_of (tk_logit d)) as [b| |]; [by exists b|done..].
Qed.

(** The first candidates in the memory and the others behind them. *)
Lemma cands_split cur : ar_data cur = cands cur ++ drop (ar_size cur) (ar_data cur).
Proof. unfold cands. by rewrite take_drop. Qed.

Lemma inplace_small cur npartial : fits cur -> npartial <= ar_size cur -> npartial <= 128 ->
  exists cur' rest, partial_sort_inplace cur npartial = Ok cur' /\ cur' = mk_arr (ar_data cur') npartial (ar_selected cur) true /\
    length (ar_data cur') = length (ar_data cur) /\ best_first (cands cur) (cands cur') rest.
Proof.
  intros Hf Hn Hs. unfold partial_sort_inplace, assert_. rewrite !(proj2 (Nat.leb_le _ _)) by done. cbn [mbind res_bind].
  set (part := std_partial_sort comp_logit npartial (cands cur)).
  assert (Eo : on_range (std_partial_sort comp_logit npartial) 0 (ar_size cur) (ar_data cur) = Ok (part ++ drop (ar_size cur) (ar_data cur))).
  { pose proof (on_range_app (std_partial_sort comp_logit npartial) [] (cands cur) (drop (ar_size cur) (ar_data cur))) as E. rewrite length_cands' in E by done.
    cbn [app length] in E. rewrite <- cands_split in E. exact E. }
  rewrite Eo, bind_ok. destruct (std_partial_sort_ok comp_logit npartial (cands cur) comp_strict_weak) as (HP & HS & HB); [by rewrite length_cands'|].
  fold part in HP, HS, HB. pose proof (Permutation_length HP) as Hl. rewrite length_cands' in Hl by done.
  eexists _, (drop npartial part). split; [done|]. split; [done|]. cbn [ar_data]. split; [rewrite length_app, length_drop; unfold fits in Hf; lia|].
  unfold cands at 2. cbn [ar_size ar_data]. rewrite take_app_le by lia. split; [by rewrite take_drop|]. done.
Qed.
Lemma inplace_large cur npartial : fits cur -> npartial <= ar_size cur -> 128 < npartial -> finite cur ->
  exists cur' rest, partial_sort_inplace cur npartial = Ok cur' /\ cur' = mk_arr (ar_data cur') npartial (ar_selected cur) true /\
    length (ar_data cur') = length (ar_data cur) /\ best_first (cands cur) (cands cur') rest.
Proof.
  intros Hf Hn Hl Hfin. unfold partial_sort_inplace. rewrite (proj2 (Nat.leb_gt _ _)) by lia.
  destruct (partial_sort_best cur npartial [] Hf Hn Hfin) as (out & rest & -> & Hout & Hbest). unfold fits in Hf.
  rewrite bind_ok, copy_front_ok, bind_ok by lia. eexists _, rest. split; [done|]. split; [done|]. cbn [ar_data].
  split; [rewrite length_app, length_take, length_drop; lia|]. unfold cands at 2. cbn [ar_size ar_data].
  by rewrite take_app_le, take_take, Nat.min_id by (rewrite length_take; lia).
Qed.
Lemma inplace_best cur npartial : fits cur -> npartial <= ar_size cur -> (128 < npartial -> finite cur) ->
  exists cur' rest, partial_sort_inplace cur npartial = Ok cur' /\ cur' = mk_arr (ar_data cur') npartial (ar_selected cur) true /\
    length (ar_data cur') = length (ar_data cur) /\ best_first (cands cur) (cands cur') rest.
Proof. intros Hf Hn Hfin. destruct (decide (npartial <= 128)); [by apply inplace_small|apply inplace_large; [done..|lia|apply Hfin; lia]]. Qed.

(** Sorted candidates: the first ones are the best. *)
Lemma sorted_best l k : StronglySorted not_better l -> best_first (F := F) l (take k l) (drop k l).
Proof.
  intros Hs. split; [by rewrite take_drop|]. rewrite <- (take_drop k l) in Hs. apply StronglySorted_app in Hs as (Hb & Hl & _).
  split; [done|]. exact Hb.
Qed.

(** The top-k sampler keeps the [k] best candidates, best first, by whichever way it
    sorts (in place up to 128 candidates, by buckets above, not at all when the candidates are
    marked as sorted): the kept candidates are sorted by falling logit, those dropped are none
    better, and together they are the candidates that were there. No index is out of range; the
    only condition on the logits is that those sorted by buckets have one. *)
Theorem top_k_best cur k : fits cur -> flag_ok cur -> (0 < k)%Z -> ((128 < k)%Z -> finite cur) ->
  exists cur' rest, top_k_impl k cur = Ok cur' /\ ar_size cur' = Nat.min (Z.to_nat k) (ar_size cur) /\ ar_sorted cur' = true /\
    fits cur' /\ best_first (cands cur) (cands cur') rest.
Proof.
  intros Hf Hflag Hk Hfin. unfold top_k_impl. rewrite (proj2 (Z.leb_gt _ _)) by lia. cbn zeta. remember (Nat.min (Z.to_nat k) (ar_size cur)) as n eqn:En.
  destruct (ar_sorted cur) eqn:Es; cbn [negb].
  - rewrite bind_ok. exists (with_size n cur), (drop n (cands cur)). split; [done|]. split; [done|]. split; [done|]. unfold fits in *. cbn [ar_size ar_data with_size].
    split; [lia|]. assert (Ec : cands (with_size n cur) = take n (cands cur)) by (unfold cands; cbn; by rewrite take_take, Nat.min_l by lia).
    rewrite Ec. by apply sorted_best, Hflag.
  - destruct (inplace_best cur n Hf) as (cur' & rest & -> & E & El & Hb); [lia|intros; apply Hfin; lia|]. rewrite bind_ok. exists (with_size n cur'), rest.
    assert (Ew : with_size n cur' = cur') by (rewrite E; done). rewrite Ew. split; [done|]. rewrite E. cbn [ar_size ar_sorted]. split; [done|]. split; [done|].
    rewrite <- E. split; [|done]. unfold fits in *. rewrite El, E. cbn [ar_size]. lia.
Qed.
End inplace.

(** ** Integers as floats, and a sort *)

#[export] Instance z_arith : FloatArith Z := {
  a_lt := Z.ltb; a_le := Z.leb; a_eq := Z.eqb; a_add := Z.add; a_sub := Z.sub; a_mul := Z.mul; a_div := Z.div; a_pow := Z.pow;
  a_neg := Z.opp; a_exp := (fun z => Z.max 1 (100 + z)); a_log := Z.log2; a_log2 := Z.log2; a_sqrt := Z.sqrt; a_abs := Z.abs; a_inf := 1000000000;
  a_max := 100000000; a_of_Z := id; a_lit := (fun m e => if (e <? 0)%Z then m / 10 ^ (- e) else m * 10 ^ e)%Z;
  a_trunc := (fun z => if in_i32 z then Some z else None)
}.
#[export] Instance z_arith_laws : FloatArithLaws Z.
Proof.
  constructor; cbn; intros; try lia.
  - match goal with |- (?s * _ <? _)%Z = false => change s with 6%Z end. lia.
  - destruct (in_i32 x), (in_i32 y); try done. simplify_eq. lia.
Qed.
#[export] Instance z_conv : FloatConv Z Z := { to_double := id; to_float := id }.

(** The elements of [l] from the greatest on. *)
Section sort.
Context {A : Type} (comp : A -> A -> bool) (Hcomp : strict_weak comp).
Definition goes_before (a b : A) : Prop := comp b a = false.
#[local] Instance goes_before_dec : RelDecision goes_before := fun a b => decide (comp b a = false).
#[local] Instance goes_before_trans : Transitive goes_before.
Proof.
  destruct Hcomp as (Hi & Ht & Hn). intros a b c H1 H2. unfold goes_before in *. destruct (comp c a) eqn:E; [|done]. exfalso.
  destruct (comp a b) eqn:E1; [by rewrite (Ht _ _ _ E E1) in H2|]. destruct (comp b c) eqn:E2; [by rewrite (Ht _ _ _ E2 E) in H1|].
  destruct (Hn a b c E1 H1 E2 H2) as [_ E3]. by rewrite E in E3.
Qed.
#[local] Instance goes_before_total : Total goes_before.
Proof.
  destruct Hcomp as (Hi & Ht & Hn). intros a b. unfold goes_before. destruct (comp b a) eqn:E; [|by left]. right. destruct (comp a b) eqn:E'; [|done].
  pose proof (Ht _ _ _ E E') as E3. by rewrite Hi in E3.
Qed.
Definition sort_by (l : list A) : list A := merge_sort goes_before l.
Lemma sort_by_ok l : sort_by l ≡ₚ l /\ StronglySorted (fun a b => comp b a = false) (sort_by l).
Proof. split; [apply merge_sort_Permutation|apply (StronglySorted_merge_sort goes_before l)]. Qed.
End sort.
#[export] Instance merge_std_sort : StdSort.
Proof.
  refine {| std_sort := @sort_by; std_partial_sort := fun A comp _ l => @sort_by A comp l |}.
  - intros A comp l Hc. by apply sort_by_ok.
  - intros A comp n l Hc Hn. destruct (sort_by_ok comp Hc l) as [HP HS]. split; [done|]. rewrite <- (take_drop n (sort_by comp l)) in HS.
    apply StronglySorted_app in HS as (Hb & Hl & _). by split.
Defined.

(** ** A concrete input *)

Definition toy_cands (n : nat) : llama_token_data_array Z :=
  mk_arr ((fun i => mk_td (Z.of_nat i) (Z.of_nat ((i * 37) `mod` 41) - 20)%Z 0%Z) <$> seq 0 n) n (-1) false.
Lemma toy_finite n : finite (toy_cands n).
Proof.
  intros d Hd. unfold cands, toy_cands in Hd. cbn [ar_size ar_data] in Hd. apply elem_of_take in Hd as (i & Hi & _).
  rewrite list_lookup_fmap in Hi. destruct (seq 0 n !! i) as [j|]; [|done]. injection Hi as <-. cbn [tk_logit].
  pose proof (Nat.mod_upper_bound (j * 37) 41 ltac:(lia)) as Hb. unfold bucket_of. set (z := (Z.of_nat ((j * 37) `mod` 41) - 20)%Z).
  assert (Hz : (-20 <= z <= 20)%Z) by lia. cbn [a_trunc z_arith]. change (@bucket_scale Z z_arith) with 6%Z. change (@bucket_inter Z z_arith) with 60%Z.
  unfold in_i32, INT32_MIN, INT32_MAX. cbn [a_add a_mul z_arith]. rewrite !(proj2 (Z.leb_le _ _)) by lia. cbn. by eexists.
Qed.
Lemma top_k_best_witness :
  (tk_id <$> match top_k_impl 140 (toy_cands 160) with Ok c => take 6 (cands c) | _ => [] end) = [154; 31; 72; 113; 21; 62]%Z /\
  exists cur' rest, top_k_impl 140 (toy_cands 160) = Ok cur' /\ ar_size cur' = Nat.min (Z.to_nat 140) (ar_size (toy_cands 160)) /\ ar_sorted cur' = true /\
    fits cur' /\ best_first (cands (toy_cands 160)) (cands cur') rest.
Proof.
  split; [vm_compute; reflexivity|]. apply (top_k_best (toy_cands 160) 140).
  - unfold fits. vm_compute. lia.
  - intros E. discriminate E.
  - lia.
  - intros _. apply toy_finite.
Defined.
