(* ===== verification/SamplingState.v ===== *)
(** The samplers of src/llama/llama.cpp/src/llama-sampling.cpp that draw random numbers or
    keep a state: dist, temp-ext, XTC, mirostat, penalties, top-n-sigma, logit bias, infill
    and DRY. *)

From S2P Require Import Prelude Vocab VocabMerge VocabText RingBuffer Sampling.
Local Open Scope Z_scope.

(** [LLAMA_DEFAULT_SEED] asks for a random seed, the argument [random]. *)
Definition LLAMA_DEFAULT_SEED : Z := 4294967295.
Definition get_rng_seed (random seed : Z) : Z := if seed =? LLAMA_DEFAULT_SEED then random else seed.

Section samplers.
Context {F D G : Type} `{FloatArith F} `{FloatArith D} `{FloatConv F D} `{StdSort} `{StdRandom F D G}.
Implicit Types cur : llama_token_data_array F.

(** ** Random choice *)

Definition llama_sample_dist cur (rng : G) : res (nat * G) :=
  ps ← fold_from 0 (fun l d => l ++ [tk_p d]) [] cur;
  Ok (rng_discrete ps rng).

(** The choice, with the probabilities normalized on the way. *)
Definition dist_step (sum_tgt sum_cum : D) (st : list (llama_token_data F) * D * option nat) (i : nat) :
    res (list (llama_token_data F) * D * option nat) :=
  let '(data, sum_run, selected) := st in
  d ← rd data i;
  let '(sum_run, selected) :=
    match selected with
    | None => let sum_run := a_add sum_run (to_double (tk_p d)) in (sum_run, if a_le sum_tgt sum_run then Some i else None)
    | Some _ => (sum_run, selected)
    end in
  data ← wr data i (set_p (to_float (a_div (to_double (tk_p d)) sum_cum)) d);
  Ok (data, sum_run, selected).
Definition dist_apply (rng : G) cur : res (G * llama_token_data_array F) :=
  if (ar_size cur =? 0)%nat then Ok (rng, with_selected (-1) cur)
  else
    let cur := with_selected 0 cur in
    if (ar_size cur =? 1)%nat then
      d ← rd (ar_data cur) 0;
      data ← wr (ar_data cur) 0 (set_p one d);
      Ok (rng, with_data data cur)
    else
      max_l ← max_logit cur;
      cur ← update_all (fun d => set_p (a_exp (a_sub (tk_logit d) max_l)) d) cur;
      sum_cum ← fold_from 0 (fun s d => a_add s (to_double (tk_p d))) (a_of_Z 0 : D) cur;
      let '(rnd, rng) := rng_double rng in
      let sum_tgt := a_mul sum_cum rnd in
      r ← foldM (dist_step sum_tgt sum_cum) (ar_data cur, a_of_Z 0, None) (seq 0 (ar_size cur));
      let '(data, _, selected) := (r : list (llama_token_data F) * D * option nat) in
      match selected with
      | Some i => Ok (rng, with_selected (Z.of_nat i) (with_data data cur))
      | None => Fault AssertFailed
      end.

Definition temp_ext_apply (temp delta exponent : F) cur : res (llama_token_data_array F) :=
  if a_gt delta zero then
    let min_temp := max_f zero (a_sub temp delta) in
    let max_temp := a_add temp delta in
    if (ar_size cur <=? 1)%nat then Ok cur
    else
      let max_entropy := a_neg (a_log (a_div one (a_of_Z (Z.of_nat (ar_size cur))))) in
      cur ← softmax_impl true cur;
      entropy ← fold_from 0 (fun e d => if a_gt (tk_p d) zero then a_sub e (a_mul (tk_p d) (a_log (tk_p d))) else e) zero cur;
      let normalized_entropy := a_div entropy max_entropy in
      let dyn_temp := a_add min_temp (a_mul (a_sub max_temp min_temp) (a_pow normalized_entropy exponent)) in
      cur ← temp_impl dyn_temp cur;
      d ← rd (ar_data cur) 0;
      let max_l_double := to_double (tk_logit d) in
      let p (d : llama_token_data F) : D := a_exp (a_sub (to_double (tk_logit d)) max_l_double) in
      cum_sum_double ← fold_from 0 (fun s d => a_add s (p d)) (a_of_Z 0 : D) cur;
      cur ← update_all (fun d => set_p (to_float (p d)) d) cur;
      update_all (fun d => set_p (to_float (a_div (to_double (tk_p d)) cum_sum_double)) d) cur
  else temp_impl temp cur.

(** The last of the leading candidates whose probability reaches the threshold. *)
Definition xtc_step (threshold : F) cur (pos_last : nat) (i : nat) : res (nat + nat) :=
  d ← rd (ar_data cur) i;
  Ok (if a_ge (tk_p d) threshold then inl i else inr pos_last).
Definition xtc_apply (probability threshold : F) (min_keep : nat) (rng : G) cur : res (G * llama_token_data_array F) :=
  if a_le probability zero || a_gt threshold (a_lit 5 (-1)) || (ar_size cur <? 2)%nat then Ok (rng, cur)
  else
    let '(chance, rng) := rng_float rng in
    if a_gt chance probability then Ok (rng, cur)
    else
      cur ← softmax_impl true cur;
      r ← foldB (xtc_step threshold cur) 0%nat (seq 0 (ar_size cur));
      let pos_last := match r with inl n => n | inr n => n end in
      Ok (rng, if (min_keep <=? ar_size cur - pos_last)%nat && (0 <? pos_last)%nat
               then mk_arr (drop pos_last (ar_data cur)) (ar_size cur - pos_last) (ar_selected cur) (ar_sorted cur) else cur).

(** ** Mirostat *)

Record llama_sampler_mirostat := mk_mirostat {
  mi_n_vocab : Z; mi_seed : Z; mi_seed_cur : Z; mi_tau : F; mi_eta : F; mi_m : Z; mi_mu : F; mi_rng : G }.
Definition mi_with (mu : F) (rng : G) (c : llama_sampler_mirostat) : llama_sampler_mirostat :=
  mk_mirostat (mi_n_vocab c) (mi_seed c) (mi_seed_cur c) (mi_tau c) (mi_eta c) (mi_m c) mu rng.

Definition mirostat_term cur (st : F * F) (i : nat) : res (F * F) :=
  let t_i := a_log (a_div (a_of_Z (Z.of_nat i + 2)) (a_of_Z (Z.of_nat i + 1))) in
  d ← rd (ar_data cur) i;
  d' ← rd (ar_data cur) (i + 1);
  let b_i := a_log (a_div (tk_p d) (tk_p d')) in
  Ok (a_add st.1 (a_mul t_i b_i), a_add st.2 (a_mul t_i t_i)).

(** The choice among the candidates and the new [mu]. *)
Definition mirostat_choose (tau eta mu : F) (rng : G) cur : res (F * G * llama_token_data_array F) :=
  cur ← softmax_impl true cur;
  r ← llama_sample_dist cur rng;
  let '(idx, rng) := (r : nat * G) in
  d ← rd (ar_data cur) idx;
  let e := a_sub (a_neg (a_log2 (tk_p d))) tau in
  Ok (a_sub mu (a_mul eta e), rng, with_selected (Z.of_nat idx) cur).

Definition mirostat_apply (c : llama_sampler_mirostat) cur : res (llama_sampler_mirostat * llama_token_data_array F) :=
  cur ← softmax_impl true cur;
  m1 ← i32 (mi_m c - 1);
  let n := Nat.min (if m1 <? 0 then ar_size cur else Z.to_nat m1) (ar_size cur - 1) in
  s ← foldM (mirostat_term cur) (zero, zero) (seq 0 n);
  let s_hat := a_div s.1 s.2 in
  let epsilon_hat := a_sub s_hat one in
  let k := a_pow (a_div (a_mul epsilon_hat (a_pow (a_of_Z 2) (mi_mu c)))
                        (a_sub one (a_pow (a_of_Z (mi_n_vocab c)) (a_neg epsilon_hat)))) (a_div one s_hat) in
  k ← match a_trunc k with Some k => Ok k | None => Fault Overflow end;
  cur ← top_k_impl (Z.max k 1) cur;
  r ← mirostat_choose (mi_tau c) (mi_eta c) (mi_mu c) (mi_rng c) cur;
  let '(mu, rng, cur) := (r : F * G * llama_token_data_array F) in
  Ok (mi_with mu rng c, cur).

Definition init_mirostat (random n_vocab seed : Z) (tau eta : F) (m : Z) : llama_sampler_mirostat :=
  let seed_cur := get_rng_seed random seed in
  mk_mirostat n_vocab seed seed_cur tau eta m (a_mul (a_of_Z 2) tau) (rng_seed seed_cur).
Definition mirostat_reset (random : Z) (c : llama_sampler_mirostat) : llama_sampler_mirostat :=
  let seed_cur := get_rng_seed random (mi_seed c) in
  mk_mirostat (mi_n_vocab c) (mi_seed c) seed_cur (mi_tau c) (mi_eta c) (mi_m c) (a_mul (a_of_Z 2) (mi_tau c)) (rng_seed seed_cur).
(** The state is copied from the sampler to itself, not to the result. *)
Definition mirostat_clone (random : Z) (c : llama_sampler_mirostat) : llama_sampler_mirostat :=
  init_mirostat random (mi_n_vocab c) (mi_seed c) (mi_tau c) (mi_eta c) (mi_m c).

Record llama_sampler_mirostat_v2 := mk_mirostat_v2 {
  m2_seed : Z; m2_seed_cur : Z; m2_tau : F; m2_eta : F; m2_mu : F; m2_rng : G }.
Definition mirostat_v2_apply (c : llama_sampler_mirostat_v2) cur : res (llama_sampler_mirostat_v2 * llama_token_data_array F) :=
  cur ← softmax_impl true cur;
  r ← foldB (fun _ i => d ← rd (ar_data cur) i; Ok (if a_gt (a_neg (a_log2 (tk_p d))) (m2_mu c) then inr i else inl tt)) tt (seq 0 (ar_size cur));
  let n := match r with inr i => i | inl _ => ar_size cur end in
  let cur := with_size (if (n =? 0)%nat then 1 else n) cur in
  r ← mirostat_choose (m2_tau c) (m2_eta c) (m2_mu c) (m2_rng c) cur;
  let '(mu, rng, cur) := (r : F * G * llama_token_data_array F) in
  Ok (mk_mirostat_v2 (m2_seed c) (m2_seed_cur c) (m2_tau c) (m2_eta c) mu rng, cur).
Definition init_mirostat_v2 (random seed : Z) (tau eta : F) : llama_sampler_mirostat_v2 :=
  let seed_cur := get_rng_seed random seed in
  mk_mirostat_v2 seed seed_cur tau eta (a_mul (a_of_Z 2) tau) (rng_seed seed_cur).
Definition mirostat_v2_reset (random : Z) (c : llama_sampler_mirostat_v2) : llama_sampler_mirostat_v2 :=
  let seed_cur := get_rng_seed random (m2_seed c) in
  mk_mirostat_v2 (m2_seed c) seed_cur (m2_tau c) (m2_eta c) (a_mul (a_of_Z 2) (m2_tau c)) (rng_seed seed_cur).
Definition mirostat_v2_clone (random : Z) (c : llama_sampler_mirostat_v2) : llama_sampler_mirostat_v2 :=
  let r := init_mirostat_v2 random (m2_seed c) (m2_tau c) (m2_eta c) in
  mk_mirostat_v2 (m2_seed r) (m2_seed_cur r) (m2_tau r) (m2_eta r) (m2_mu c) (m2_rng c).

(** ** Penalties *)

Record llama_sampler_penalties := mk_pen {
  pn_last_n : Z; pn_repeat : F; pn_freq : F; pn_present : F; pn_prev : ring_buffer Z; pn_token_count : gmap Z Z }.
Definition pn_with (prev : ring_buffer Z) (m : gmap Z Z) (c : llama_sampler_penalties) : llama_sampler_penalties :=
  mk_pen (pn_last_n c) (pn_repeat c) (pn_freq c) (pn_present c) prev m.

(** [token_count[old]--], and no entry when it is zero then. *)
Definition uncount (m : gmap Z Z) (old : Z) : gmap Z Z :=
  let n := default 0 (m !! old) - 1 in
  if n =? 0 then delete old m else <[old := n]> m.
Definition penalties_accept (c : llama_sampler_penalties) (token : Z) : res llama_sampler_penalties :=
  if pn_last_n c =? 0 then Ok c
  else
    let m := <[token := default 0 (pn_token_count c !! token) + 1]> (pn_token_count c) in
    m ← (if u64 (pn_last_n c) <=? Z.of_nat (ring_size (pn_prev c)) then old ← ring_front (pn_prev c); Ok (uncount m old) else Ok m);
    prev ← ring_push_back (pn_prev c) token;
    Ok (pn_with prev m c).

Definition penalized (c : llama_sampler_penalties) (count : Z) (d : llama_token_data F) : llama_token_data F :=
  let logit := if a_le (tk_logit d) zero then a_mul (tk_logit d) (pn_repeat c) else a_div (tk_logit d) (pn_repeat c) in
  set_logit (a_sub logit (a_add (a_mul (a_of_Z count) (pn_freq c)) (a_mul (a_of_Z (if 0 <? count then 1 else 0)) (pn_present c)))) d.
Definition penalties_step (c : llama_sampler_penalties) (data : list (llama_token_data F)) (i : nat) : res (list (llama_token_data F)) :=
  d ← rd data i;
  match pn_token_count c !! tk_id d with
  | None => Ok data
  | Some count => assert_ ((0 <? count) && (count <=? pn_last_n c)) ;; wr data i (penalized c count d)
  end.
Definition penalties_apply (c : llama_sampler_penalties) cur : res (llama_token_data_array F) :=
  if (pn_last_n c =? 0) || (a_eq (pn_repeat c) one && a_eq (pn_freq c) zero && a_eq (pn_present c) zero) then Ok cur
  else
    data ← foldM (penalties_step c) (ar_data cur) (seq 0 (ar_size cur));
    Ok (with_sorted false (with_data data cur)).
Definition penalties_reset (c : llama_sampler_penalties) : llama_sampler_penalties := pn_with (ring_clear (pn_prev c)) ∅ c.
Definition init_penalties (penalty_last_n : Z) (penalty_repeat penalty_freq penalty_present : F) : llama_sampler_penalties :=
  let n := Z.max penalty_last_n 0 in
  mk_pen n penalty_repeat penalty_freq penalty_present (ring_new 0 (Z.to_nat n)) ∅.
(** The counts of the tokens are not copied. *)
Definition penalties_clone (c : llama_sampler_penalties) : llama_sampler_penalties :=
  pn_with (pn_prev c) ∅ (init_penalties (pn_last_n c) (pn_repeat c) (pn_freq c) (pn_present c)).

(** ** Top-n-sigma and logit bias *)

Definition top_n_sigma_apply (n : F) cur : res (llama_token_data_array F) :=
  if a_le n zero || (ar_size cur <=? 1)%nat then Ok cur
  else
    d ← rd (ar_data cur) 0;
    s ← fold_from 0 (fun '(max, logits_sum, valid_count) d =>
          if negb (a_eq (tk_logit d) neg_inf) then
            (if a_gt (tk_logit d) max then tk_logit d else max, a_add logits_sum (tk_logit d), valid_count + 1)
          else (max, logits_sum, valid_count)) (tk_logit d, zero, 0) cur;
    let '(max, logits_sum, valid_count) := s in
    let mean := if 0 <? valid_count then a_div logits_sum (a_of_Z valid_count) else zero in
    acc ← fold_from 0 (fun acc d =>
            if negb (a_eq (tk_logit d) neg_inf) then
              to_float (a_add (to_double acc) (a_pow (to_double (a_sub (tk_logit d) mean)) (a_of_Z 2)))
            else acc) zero cur;
    let std := if 0 <? valid_count then a_sqrt (a_div acc (a_of_Z valid_count)) else zero in
    cur ← update_all (fun d => if a_lt (tk_logit d) (a_sub max (a_mul n std)) then set_logit neg_inf d else d) cur;
    softmax_impl true cur.

Definition add_bias (b : F) (d : llama_token_data F) : llama_token_data F := set_logit (a_add (tk_logit d) b) d.
(** A bias whose token is at its place, or one to search for. *)
Definition bias_in_place (n : nat) (st : list (llama_token_data F) * list (Z * F)) (lb : Z * F) :
    res (list (llama_token_data F) * list (Z * F)) :=
  let '(data, to_search) := st in
  if (0 <=? lb.1) && (lb.1 <? Z.of_nat n) then
    d ← idx data lb.1;
    if tk_id d =? lb.1 then data ← set_idx data lb.1 (add_bias lb.2 d); Ok (data, to_search) else Ok (data, to_search ++ [lb])
  else Ok (data, to_search ++ [lb]).
Definition bias_search (to_search : list (Z * F)) (d : llama_token_data F) : llama_token_data F :=
  match find (fun lb => tk_id d =? lb.1) to_search with Some lb => add_bias lb.2 d | None => d end.
Definition logit_bias_apply (logit_bias : list (Z * F)) cur : res (llama_token_data_array F) :=
  if (length logit_bias =? 0)%nat then Ok cur
  else
    r ← foldM (bias_in_place (ar_size cur)) (ar_data cur, []) logit_bias;
    let '(data, to_search) := (r : list (llama_token_data F) * list (Z * F)) in
    let cur := with_data data cur in
    if (length to_search =? 0)%nat then Ok cur else update_all (bias_search to_search) cur.

(** ** Infill *)

(** The parts of the vocabulary that the sampler asks for; [eot] falls back to [eos]. *)
Record infill_vocab := mk_infill { iv_is_eog : Z -> bool; iv_token_eot : Z; iv_token_eos : Z; iv_piece : Z -> res (Z * list Z) }.

(** A piece into a buffer of 512 bytes; a longer one resizes the buffer to a negative length. *)
Definition infill_piece (v : infill_vocab) (id : Z) : res (Z * list Z) :=
  r ← iv_piece v id;
  if r.1 <? 0 then Throw "vector::_M_default_append" else Ok r.
(** The candidates that are kept, moved to the front, and the sum of their probabilities. *)
Definition keep_step (keep : llama_token_data F -> bool) (st : list (llama_token_data F) * nat * F) (i : nat) :
    res (list (llama_token_data F) * nat * F) :=
  let '(data, n, p_sum) := st in
  d ← rd data i;
  if keep d then data ← wr data n d; Ok (data, S n, a_add p_sum (tk_p d)) else Ok st.
Definition keep_candidates (keep : llama_token_data F -> bool) cur : res (llama_token_data_array F * F) :=
  r ← foldM (keep_step keep) (ar_data cur, 0%nat, zero) (seq 0 (ar_size cur));
  let '(data, n, p_sum) := (r : list (llama_token_data F) * nat * F) in
  Ok (with_size n (with_data data cur), p_sum).
Definition normalize_by (p_sum : F) cur : res (llama_token_data_array F) :=
  update_all (fun d => set_p (a_div (tk_p d) p_sum) d) cur.

(** The pair [i0], [i1]: when the first is a prefix of the second, the likelier one takes both
    probabilities. *)
Definition combine_step (v : infill_vocab) (i0 : nat) (data : list (llama_token_data F)) (i1 : nat) :
    res (list (llama_token_data F) + list (llama_token_data F)) :=
  d0 ← rd data i0;
  if a_eq (tk_logit d0) neg_inf then Ok (inr data)
  else
    d1 ← rd data i1;
    if (i0 =? i1)%nat || a_eq (tk_logit d1) neg_inf then Ok (inl data)
    else
      r0 ← infill_piece v (tk_id d0);
      r1 ← infill_piece v (tk_id d1);
      let '(len0, b0) := (r0 : Z * list Z) in
      let '(len1, b1) := (r1 : Z * list Z) in
      if (0 <? len0) && (len0 <=? len1) && bool_decide (take (Z.to_nat len0) b0 = take (Z.to_nat len0) b1) then
        let '(dst, src) := if a_gt (tk_p d1) (tk_p d0) then (i1, i0) else (i0, i1) in
        d ← rd data dst;
        s ← rd data src;
        data ← wr data dst (set_p (a_add (tk_p d) (tk_p s)) d);
        data ← wr data src (set_p zero (set_logit neg_inf s));
        Ok (inl data)
      else Ok (inl data).
Definition combine_all (v : infill_vocab) cur : res (llama_token_data_array F) :=
  data ← foldM (fun data i0 => r ← foldB (combine_step v i0) data (seq 0 (ar_size cur)); Ok (match r with inl d => d | inr d => d end))
           (ar_data cur) (seq 0 (ar_size cur));
  Ok (with_data data cur).

Definition infill_apply (v : infill_vocab) cur : res (llama_token_data_array F) :=
  cur ← softmax_impl true cur;
  let eog (d : llama_token_data F) := iv_is_eog v (tk_id d) in
  sums ← fold_from 0 (fun '(p_txt_sum, p_eog_sum) d =>
           if eog d then (p_txt_sum, a_add p_eog_sum (tk_p d)) else (a_add p_txt_sum (tk_p d), p_eog_sum)) (zero, zero) cur;
  let '(p_txt_sum, p_eog_sum) := (sums : F * F) in
  if a_gt (a_mul (a_mul (a_of_Z 3) p_eog_sum) (a_of_Z (Z.of_nat (ar_size cur)))) p_txt_sum then
    k ← keep_candidates eog cur;
    normalize_by k.2 k.1
  else
    cur ← combine_all v cur;
    k ← keep_candidates (fun d => negb (a_lt (tk_p d) (a_lit 2 (-1)) && negb (eog d))) cur;
    n_non_eog ← fold_from 0 (fun n d => if eog d then n else n + 1) 0 k.1;
    if n_non_eog =? 0 then
      let id := if iv_token_eot v =? LLAMA_TOKEN_NULL then iv_token_eos v else iv_token_eot v in
      d ← rd (ar_data k.1) 0;
      data ← wr (ar_data k.1) 0 (mk_td id one (tk_p d));
      assert_ (negb (id =? LLAMA_TOKEN_NULL)) ;;
      Ok (with_size 1 (with_data data k.1))
    else
      cur ← normalize_by k.2 k.1;
      let thold : F := to_float (a_div (a_of_Z 1) (a_of_Z (n_non_eog + 1)) : D) in
      k ← keep_candidates (fun d => negb (a_lt (tk_p d) thold && negb (eog d))) cur;
      normalize_by k.2 k.1.
End samplers.
