(* ===== verification/SamplingStateOk.v ===== *)
(** The penalties sampler counts the tokens of its window, and its candidates are penalized by
    these counts. *)

From S2P Require Import Prelude Vocab VocabMerge RingBuffer Sampling SamplingOk SamplingState.
Local Open Scope Z_scope.

(** ** Loops over the candidates *)

(** A loop whose step changes the entry at its index only. *)
Lemma each_loop {A} (step : list A -> nat -> res (list A)) (f : A -> A) (good : A -> Prop) data n : (n <= length data)%nat ->
  (forall data i d, data !! i = Some d -> good d -> step data i = Ok (<[i := f d]> data)) ->
  (forall d, d ∈ take n data -> good d) ->
  foldM step data (seq 0 n) = Ok ((f <$> take n data) ++ drop n data).
Proof.
  intros Hn Hstep Hgood. apply runs_inv_eq. pose proof (runs_foldM (fun done_ data' => data' = (f <$> take (length done_) data) ++ drop (length done_) data) step (seq 0 n) data) as R.
  cbn beta in R. rewrite length_seq in R. apply R; [done|]. intros l1 i l2 data' Es ->. apply seq_split_at in Es as [-> Hi].
  destruct (lookup_lt_is_Some_2 data (length l1) ltac:(lia)) as [d Hd].
  assert (Hat : ((f <$> take (length l1) data) ++ drop (length l1) data) !! length l1 = Some d).
  { assert (El : length (f <$> take (length l1) data) = length l1) by (rewrite length_fmap, length_take; lia).
    rewrite lookup_app_r, El, Nat.sub_diag by lia. by rewrite lookup_drop, Nat.add_0_r. }
  rewrite (Hstep _ _ d Hat) by (apply Hgood, (list_elem_of_lookup_2 _ (length l1)); by rewrite lookup_take_lt). cbn [runs].
  rewrite length_app, Nat.add_1_r, (take_S_r _ _ _ Hd), fmap_app, <- app_assoc. rewrite (drop_S _ _ _ Hd).
  replace (length l1) with (length (f <$> take (length l1) data) + 0)%nat at 1 by (rewrite length_fmap, length_take; lia). by rewrite insert_app_r.
Qed.

Section loops.
Context {F : Type}.
Implicit Types cur : llama_token_data_array F.
Lemma cands_app_drop cur (l : list (llama_token_data F)) : fits cur -> length l = ar_size cur ->
  cands (with_data (l ++ drop (ar_size cur) (ar_data cur)) cur) = l.
Proof. intros Hf Hl. unfold cands. cbn. rewrite take_app_le, take_ge by lia. done. Qed.
Lemma update_cands_ok (f : llama_token_data F -> llama_token_data F) cur : fits cur ->
  update_all f cur = Ok (with_data ((f <$> cands cur) ++ drop (ar_size cur) (ar_data cur)) cur).
Proof.
  intros Hf. unfold update_all. rewrite (each_loop _ f (fun _ => True)); [done|done| |done].
  intros data i d Hd _. rewrite (rd_ok _ _ _ Hd), bind_ok. apply wr_ok. by eapply lookup_lt_Some.
Qed.
End loops.

(** ** Penalties *)

Definition occurrences (t : Z) (l : list Z) : Z := Z.of_nat (length (filter (fun x => x = t) l)).
Lemma occurrences_app t l1 l2 : occurrences t (l1 ++ l2) = occurrences t l1 + occurrences t l2.
Proof. unfold occurrences. rewrite list.filter_app, length_app. lia. Qed.
Lemma occurrences_one t x : occurrences t [x] = if decide (x = t) then 1 else 0.
Proof.
  unfold occurrences. rewrite (list.filter_singleton (fun x => x = t)); [by destruct (decide (x = t))|exact []].
Qed.
Lemma occurrences_nonneg t l : 0 <= occurrences t l.
Proof. unfold occurrences. lia. Qed.
Lemma occurrences_le t l : occurrences t l <= Z.of_nat (length l).
Proof. unfold occurrences. pose proof (list.length_filter (fun x => x = t) l). lia. Qed.

Section penalties.
Context {F : Type} `{FloatArith F}.

(** The map holds the tokens of [l] with their numbers of occurrences. *)
Definition counts (m : gmap Z Z) (l : list Z) : Prop :=
  forall t, m !! t = if 0 <? occurrences t l then Some (occurrences t l) else None.
Lemma counts_default m l t : counts m l -> default 0 (m !! t) = occurrences t l.
Proof. intros Hc. rewrite Hc. pose proof (occurrences_nonneg t l). destruct (Z.ltb_spec 0 (occurrences t l)); cbn; lia. Qed.
Lemma counts_insert m l t : counts m l -> counts (<[t := default 0 (m !! t) + 1]> m) (l ++ [t]).
Proof.
  intros Hc x. rewrite occurrences_app, occurrences_one, (counts_default m l) by done. pose proof (occurrences_nonneg t l). destruct (decide (t = x)) as [->|Hne].
  - rewrite lookup_insert_eq. by rewrite (proj2 (Z.ltb_lt _ _)) by lia.
  - rewrite lookup_insert_ne, Hc by done. by rewrite Z.add_0_r.
Qed.
Lemma counts_uncount m l x : counts m (x :: l) -> counts (uncount m x) l.
Proof.
  intros Hc y. change (x :: l) with ([x] ++ l) in Hc. unfold uncount. rewrite (counts_default _ _ _ Hc), occurrences_app, occurrences_one, decide_True by done.
  pose proof (Hc y) as Hy. rewrite occurrences_app, occurrences_one in Hy. pose proof (occurrences_nonneg x l) as H0. replace (1 + occurrences x l - 1) with (occurrences x l) by lia.
  destruct (Z.eqb_spec (occurrences x l) 0) as [E|E]; (destruct (decide (x = y)) as [<-|Hne];
    [rewrite ?lookup_delete_eq, ?lookup_insert_eq; destruct (Z.ltb_spec 0 (occurrences x l)); (done || lia)|rewrite ?lookup_delete_ne, ?lookup_insert_ne by done; by rewrite Hy, Z.add_0_l]).
Qed.

(** The sampler with the window [l]. *)
Record window_ok (n : nat) (c : llama_sampler_penalties (F := F)) (l : list Z) : Prop := {
  wo_last_n : pn_last_n c = Z.of_nat n;
  wo_capacity : rb_capacity (pn_prev c) = n;
  wo_ring : ring_ok (pn_prev c) l;
  wo_counts : counts (pn_token_count c) l
}.
Lemma init_window n r f p : 0 <= n -> window_ok (Z.to_nat n) (init_penalties n r f p) [].
Proof.
  intros Hn. unfold init_penalties. rewrite Z.max_l by lia. constructor; cbn; [lia|done|apply ring_new_ok|]. intros t. by rewrite lookup_empty.
Qed.
Lemma accept_window n c l t : (0 < n)%nat -> Z.of_nat n < 2147483648 -> window_ok n c l ->
  exists c', penalties_accept c t = Ok c' /\ window_ok n c' (last_n n (l ++ [t])) /\
    pn_repeat c' = pn_repeat c /\ pn_freq c' = pn_freq c /\ pn_present c' = pn_present c.
Proof.
  intros Hn Hmax [W1 W2 W3 W4]. unfold penalties_accept. rewrite W1, (proj2 (Z.eqb_neq _ _)) by lia. cbn zeta.
  destruct (ring_push_ok _ _ t W3 ltac:(lia)) as (prev' & Ep & Ecap & Hring). rewrite W2 in *.
  pose proof (counts_insert _ _ t W4) as Hc. pose proof W3 as [_ Hsz Hfit _ _ _].
  assert (Eu : u64 (Z.of_nat n) = Z.of_nat n) by (unfold u64; apply Z.mod_small; lia). rewrite Eu. unfold ring_size. rewrite Hsz.
  destruct (Z.leb_spec (Z.of_nat n) (Z.of_nat (length l))) as [Hfull|Hfull].
  - destruct l as [|x l]; [cbn in *; lia|]. rewrite (ring_front_ok _ _ _ W3), !bind_ok, Ep, bind_ok. eexists. split; [done|]. split; [|done].
    constructor; cbn; [done|done|done|]. unfold last_n in *. rewrite length_app. cbn [length] in *. replace (S (length l + 1) - n)%nat with 1%nat by lia.
    rewrite skipn_cons, drop_0. by apply counts_uncount.
  - rewrite !bind_ok, Ep, bind_ok. eexists. split; [done|]. split; [|done]. constructor; cbn; [done|done|done|].
    unfold last_n. rewrite length_app. cbn [length]. replace (length l + 1 - n)%nat with 0%nat by lia. by rewrite drop_0.
Qed.

Lemma last_n_snoc n (l : list Z) (t : Z) : (0 < n)%nat -> last_n n (last_n n l ++ [t]) = last_n n (l ++ [t]).
Proof.
  intros Hn. unfold last_n. rewrite !length_app, !length_drop. cbn [length]. destruct (decide (length l <= n)%nat).
  - replace (length l - n)%nat with 0%nat by lia. by rewrite drop_0, Nat.sub_0_r.
  - rewrite !drop_app_le by (rewrite ?length_drop; lia). rewrite drop_drop. do 2 f_equal. lia.
Qed.
Lemma accept_all n c l ts : (0 < n)%nat -> Z.of_nat n < 2147483648 -> window_ok n c (last_n n l) ->
  exists c', foldM penalties_accept c ts = Ok c' /\ window_ok n c' (last_n n (l ++ ts)) /\
    pn_repeat c' = pn_repeat c /\ pn_freq c' = pn_freq c /\ pn_present c' = pn_present c.
Proof.
  intros Hn Hmax. revert c l. induction ts as [|t ts IH]; intros c l Hw; [exists c; by rewrite app_nil_r|]. cbn [foldM].
  destruct (accept_window n c _ t Hn Hmax Hw) as (c1 & -> & Hw1 & E1 & E2 & E3). rewrite bind_ok. rewrite last_n_snoc in Hw1 by done.
  destruct (IH c1 (l ++ [t]) Hw1) as (c2 & E & Hw2 & E1' & E2' & E3'). exists c2. rewrite <- app_assoc in Hw2. split_and!; congruence || done.
Qed.

(** A candidate after the penalties for the window [l]. *)
Definition penalize (c : llama_sampler_penalties (F := F)) (l : list Z) (d : llama_token_data F) : llama_token_data F :=
  if 0 <? occurrences (tk_id d) l then penalized c (occurrences (tk_id d) l) d else d.
Definition neutral (c : llama_sampler_penalties (F := F)) : bool :=
  a_eq (pn_repeat c) one && a_eq (pn_freq c) zero && a_eq (pn_present c) zero.

Lemma apply_window n c l cur : (0 < n)%nat -> window_ok n c l -> (length l <= n)%nat -> fits cur -> neutral c = false ->
  exists cur', penalties_apply c cur = Ok cur' /\ cands cur' = penalize c l <$> cands cur /\ ar_sorted cur' = false /\ ar_size cur' = ar_size cur.
Proof.
  intros Hn [W1 W2 W3 W4] Hl Hf Hneu. unfold penalties_apply. fold (neutral c). rewrite W1, (proj2 (Z.eqb_neq _ _)), Hneu by lia. cbn [orb].
  rewrite (each_loop (penalties_step c) (penalize c l) (fun _ => True)); [|done| |done].
  - rewrite bind_ok. eexists. split; [done|]. split; [|done]. apply (cands_app_drop cur); [done|]. by rewrite length_fmap, length_cands'.
  - intros data i d Hd _. unfold penalties_step, penalize. rewrite (rd_ok _ _ _ Hd), bind_ok, W4. pose proof (occurrences_le (tk_id d) l) as Hle.
    destruct (Z.ltb_spec 0 (occurrences (tk_id d) l)) as [Hp|Hp].
    + rewrite W1. unfold assert_. rewrite (proj2 (Z.ltb_lt _ _) Hp), (proj2 (Z.leb_le _ _)) by lia. cbn [andb mbind res_bind]. apply wr_ok. by eapply lookup_lt_Some.
    + by rewrite list_insert_id.
Qed.
End penalties.

(** The penalties sampler penalizes exactly the tokens of its window: after any accepted
    tokens the map of counts holds the last [penalty_last_n] of them with their numbers of
    occurrences, nothing else, so the assertion on the counts never fails; and applying the
    sampler changes the logit of exactly the candidates that occur there, by their number of
    occurrences (unless all penalties are neutral). *)
Theorem penalties_window {F : Type} `{FloatArith F} (n : Z) (rep freq present : F) (ts : list Z) :
  0 < n <= INT32_MAX ->
  exists c, foldM penalties_accept (init_penalties n rep freq present) ts = Ok c /\ counts (pn_token_count c) (last_n (Z.to_nat n) ts) /\
    forall cur, fits cur -> exists cur', penalties_apply c cur = Ok cur' /\
      cands cur' = (if neutral c then cands cur else penalize c (last_n (Z.to_nat n) ts) <$> cands cur).
Proof.
  intros Hn. unfold INT32_MAX in Hn. destruct (accept_all (Z.to_nat n) (init_penalties n rep freq present) [] ts) as (c & E & Hw & _); [lia|lia|apply init_window; lia|].
  cbn [app] in Hw. exists c. split; [done|]. split; [apply Hw|]. intros cur Hf. destruct (neutral c) eqn:Hneu.
  - exists cur. unfold penalties_apply. fold (neutral c). by rewrite Hneu, orb_true_r.
  - destruct (apply_window (Z.to_nat n) c (last_n (Z.to_nat n) ts) cur) as (cur' & E' & Ec & _); [lia|done| |done|done|by exists cur'].
    unfold last_n. rewrite length_drop. lia.
Qed.

Definition pen_arr : llama_token_data_array Z := mk_arr [mk_td 5 100 0; mk_td 6 (-100) 0; mk_td 7 40 0] 3 (-1) true.
Lemma penalties_window_witness :
  (tk_logit <$> match foldM penalties_accept (init_penalties 3 2 10 1) [5; 7; 6; 6] ≫= (fun c => penalties_apply c pen_arr) with Ok c => cands c | _ => [] end) = [100; -221; 9] /\
  exists c, foldM penalties_accept (init_penalties 3 2 10 1) [5; 7; 6; 6] = Ok c /\ counts (pn_token_count c) (last_n (Z.to_nat 3) [5; 7; 6; 6]) /\
    forall cur, fits cur -> exists cur', penalties_apply c cur = Ok cur' /\
      cands cur' = (if neutral c then cands cur else penalize c (last_n (Z.to_nat 3) [5; 7; 6; 6]) <$> cands cur).
Proof.
  split; [vm_compute; reflexivity|]. apply (penalties_window 3 2 10 1 [5; 7; 6; 6]). unfold INT32_MAX. lia.
Defined.

(** A clone starts without counts but with the window: the next token that leaves the window
    gets the count -1, and applying the sampler runs into its assertion. *)
Lemma penalties_clone_asserts :
  exists c c', penalties_accept (init_penalties 1 2 0 (0 : Z)) 5 = Ok c /\ penalties_accept (penalties_clone c) 6 = Ok c' /\
    pn_token_count c' !! 5 = Some (-1) /\ penalties_apply c' pen_arr = Fault AssertFailed.
Proof. eexists _, _. split; [reflexivity|]. split; [reflexivity|]. split; vm_compute; reflexivity. Qed.
