(* ===== verification/SamplingDry.v ===== *)
(** The DRY sampler of src/llama/llama.cpp/src/llama-sampling.cpp: it lowers the logits of
    tokens that would continue a repetition of the context, with sequences of tokens that break
    repetitions. *)

From S2P Require Import Prelude Vocab VocabMerge VocabText RingBuffer Sampling.
Local Open Scope Z_scope.

(** The multimap of breakers: a head token and the tokens behind it. *)
Definition breakers : Type := list (Z * list Z).

(** ** Breakers *)

Section breakers.
(** The vocabulary: its tokens as text, and a text as tokens. *)
Context (n_tokens : nat) (detokenize_one : Z -> res (list Z)) (tokenize_text : list Z -> res (list Z)).

(** How far [str] matches [word] at [pos]: [inl i] for the place it stops at the end of one of
    them, [inr] for a mismatch. *)
Fixpoint match_from (str word : list Z) (i : nat) : nat + unit :=
  match str, word with
  | s :: str, w :: word => if w =? s then match_from str word (S i) else inr tt
  | _, _ => inl i
  end.

Definition breaker_at (str word : list Z) (max_tail_len : Z) (token_id : Z) (seqs : breakers) (pos : nat) : res breakers :=
  if bool_decide (head (drop pos word) = head str) then
    match match_from (tail str) (drop (S pos) word) 1 with
    | inr _ => Ok seqs
    | inl i =>
        tokenization ← tokenize_text (drop i str);
        let tokenization := if (0 <=? max_tail_len) && (max_tail_len <? Z.of_nat (length tokenization))
                            then take (Z.to_nat max_tail_len) tokenization else tokenization in
        Ok (if bool_decide ((token_id, tokenization) ∈ seqs) then seqs else seqs ++ [(token_id, tokenization)])
    end
  else Ok seqs.
Definition overlapping_token (str : list Z) (max_tail_len : Z) (seqs : breakers) (token_id : nat) : res breakers :=
  word ← detokenize_one (Z.of_nat token_id);
  match str_find word str 0 with
  | Some _ => Ok (seqs ++ [(Z.of_nat token_id, [])])
  | None => foldM (breaker_at str word max_tail_len (Z.of_nat token_id)) seqs (seq 0 (length word))
  end.
Definition get_overlapping_token_sequences (str : list Z) (seqs : breakers) (max_tail_len : Z) : res breakers :=
  foldM (overlapping_token str max_tail_len) seqs (seq 0 n_tokens).

(** The breakers given as texts: at most 40 characters and tails of at most 20 tokens. *)
Definition process_breakers (seq_breakers : list (list Z)) : res breakers :=
  foldM (fun processed_breakers sequence_break =>
    if (length sequence_break =? 0)%nat then Ok processed_breakers
    else get_overlapping_token_sequences (take 40 sequence_break) processed_breakers 20) [] seq_breakers.
End breakers.

(** ** The sampler *)

Section dry.
Context {F D : Type} `{FloatArith F} `{FloatArith D} `{FloatConv F D}.
Implicit Types cur : llama_token_data_array F.

Record llama_sampler_dry := mk_dry {
  dr_total_context_size : Z;
  dr_multiplier : F;
  dr_base : F;
  dr_allowed_length : Z;
  dr_penalty_last_n : Z;
  dr_processed_breakers : breakers;
  dr_repeat_count : list Z;
  dr_max_token_repeat : gmap Z Z;
  dr_last_tokens : ring_buffer Z
}.
Definition dr_with (counts : list Z) (repeats : gmap Z Z) (last : ring_buffer Z) (c : llama_sampler_dry) : llama_sampler_dry :=
  mk_dry (dr_total_context_size c) (dr_multiplier c) (dr_base c) (dr_allowed_length c) (dr_penalty_last_n c) (dr_processed_breakers c)
    counts repeats last.

Definition dry_disabled (dry_multiplier dry_base : F) (dry_penalty_last_n : Z) : bool :=
  a_eq dry_multiplier zero || a_lt dry_base one || (dry_penalty_last_n =? 0).

(** The constructor's test, which differs from the negation of that one for a base that is not a
    number. *)
Definition dry_enabled (dry_multiplier dry_base : F) (dry_penalty_last_n : Z) : bool :=
  negb (a_eq dry_multiplier zero) && a_ge dry_base one && negb (dry_penalty_last_n =? 0).

Definition dry_accept (c : llama_sampler_dry) (token : Z) : res llama_sampler_dry :=
  if dry_disabled (dr_multiplier c) (dr_base c) (dr_penalty_last_n c) then Ok c
  else last ← ring_push_back (dr_last_tokens c) token; Ok (dr_with (dr_repeat_count c) (dr_max_token_repeat c) last c).

Definition effective_last_n (dry_penalty_last_n total_context_size : Z) : Z :=
  if dry_penalty_last_n =? -1 then total_context_size else Z.max dry_penalty_last_n 0.

(** Step 1: the breaker whose head lies [i] tokens from the end, if any: the length of its
    longest tail that fits. *)
Definition tail_matches (last_tokens : ring_buffer Z) (tail_ : list Z) (i : nat) : res bool :=
  r ← foldB (fun _ offset => t ← rd tail_ offset; x ← ring_rat last_tokens (i - offset - 1);
               Ok (if t =? x then inl tt else inr tt)) tt (seq 0 (length tail_));
  Ok (match r with inl _ => true | inr _ => false end).
Definition longest_breaker (last_tokens : ring_buffer Z) (i : nat) (longest_match : Z) (tail_ : list Z) : res Z :=
  let seq_len := Z.of_nat (length tail_) in
  if (longest_match <? seq_len) && (seq_len <=? Z.of_nat i) then
    m ← tail_matches last_tokens tail_ i; Ok (if (m : bool) then seq_len else longest_match)
  else Ok longest_match.
Definition restart_step (processed : breakers) (last_tokens : ring_buffer Z) (u : unit) (i : nat) : res (unit + Z) :=
  token ← ring_rat last_tokens i;
  let tails := (filter (fun b => b.1 = token) processed).*2 in
  longest_match ← foldM (longest_breaker last_tokens i) (-1) tails;
  Ok (if 0 <=? longest_match then inr (Z.of_nat i - longest_match) else inl tt).
Definition find_rep_limit (processed : breakers) (last_tokens : ring_buffer Z) (last_n_repeat : nat) : res Z :=
  r ← foldB (restart_step processed last_tokens) tt (seq 0 last_n_repeat);
  Ok (match r with inl _ => Z.of_nat last_n_repeat | inr l => l end).

(** Step 2: the Z-algorithm on the tokens from the end backwards. [extend i k] goes on as long as
    the tokens at [i] and [i - k] agree. *)
Definition extend_body (last_tokens : ring_buffer Z) (n k : nat) (i : nat) : res (nat + nat) :=
  if (i <? n)%nat then
    a ← ring_rat last_tokens i;
    b ← ring_rat last_tokens (i - k);
    Ok (if a =? b then inl (S i) else inr i)
  else Ok (inr i).
Definition extend (last_tokens : ring_buffer Z) (n k i : nat) : res nat := loop (S (n - i)) (extend_body last_tokens n k) i.

Definition z_step (last_tokens : ring_buffer Z) (last_n_repeat : nat) (rep_limit : Z) (st : list Z * nat * nat) (k : nat) : res (list Z * nat * nat) :=
  let '(counts, lt, rt) := st in
  let last := (last_n_repeat - 1)%nat in
  if (rt <? k)%nat then
    e ← extend last_tokens last_n_repeat k k;
    let n := (e - k)%nat in
    counts ← wr counts (last - k) (Z.min (Z.of_nat n) rep_limit);
    Ok (if (0 <? n)%nat then (counts, k, (k + n - 1)%nat) else (counts, lt, rt))
  else
    let p := (k - lt)%nat in
    let right_part_len := Z.of_nat (rt - k + 1) in
    c ← rd counts (last - p);
    if c <? right_part_len then
      counts ← wr counts (last - k) (Z.min c rep_limit);
      Ok (counts, lt, rt)
    else
      i ← extend last_tokens last_n_repeat k (rt + 1);
      counts ← wr counts (last - k) (Z.min (Z.of_nat (i - k)) rep_limit);
      Ok (counts, k, (i - 1)%nat).
Definition repeat_counts (last_tokens : ring_buffer Z) (last_n_repeat : nat) (rep_limit : Z) (counts : list Z) : res (list Z) :=
  r ← foldM (z_step last_tokens last_n_repeat rep_limit) (counts, 0%nat, 0%nat) (seq 1 (last_n_repeat - 1));
  Ok r.1.1.

(** Step 3: the longest repetition that each token would continue. *)
Definition max_repeat_step (last_tokens : ring_buffer Z) (last_n_repeat : nat) (allowed : Z) (counts : list Z) (m : gmap Z Z) (i : nat) : res (gmap Z Z) :=
  repeat_len ← rd counts i;
  if allowed <=? repeat_len then
    token ← ring_rat last_tokens (last_n_repeat - 2 - i);
    Ok (match m !! token with
        | Some n => if n <? repeat_len then <[token := repeat_len]> m else m
        | None => <[token := repeat_len]> m
        end)
  else Ok m.
Definition max_repeats (last_tokens : ring_buffer Z) (last_n_repeat : nat) (allowed : Z) (counts : list Z) : res (gmap Z Z) :=
  foldM (max_repeat_step last_tokens last_n_repeat allowed counts) ∅ (seq 0 (last_n_repeat - 1)).

(** Step 4: the penalties. *)
Definition FLOAT_MAX_LOG : F := a_lit 887228391 (-7).
Definition max_exponent_of (base : F) : res Z :=
  if a_gt base (a_lit 1000001 (-6)) then
    match a_trunc (a_div FLOAT_MAX_LOG (a_log base)) with Some e => Ok e | None => Fault Overflow end
  else Ok 0.
Definition single_token_breaker (processed : breakers) (id : Z) : bool :=
  existsb (fun b => (b.1 =? id) && (length b.2 =? 0)%nat) processed.
Definition dry_penalty (c : llama_sampler_dry) (max_exponent repeat_exp : Z) : F :=
  let repeat_exp := if (0 <? max_exponent) && (max_exponent <? repeat_exp) then max_exponent else repeat_exp in
  to_float (a_mul (to_double (dr_multiplier c)) (a_pow (to_double (dr_base c)) (a_of_Z repeat_exp))).
Definition dry_step (c : llama_sampler_dry) (repeats : gmap Z Z) (max_exponent : Z) (data : list (llama_token_data F)) (i : nat) : res (list (llama_token_data F)) :=
  d ← rd data i;
  match repeats !! tk_id d with
  | Some n =>
      if single_token_breaker (dr_processed_breakers c) (tk_id d) then Ok data
      else
        repeat_exp ← i32 (n - dr_allowed_length c);
        wr data i (set_logit (a_sub (tk_logit d) (dry_penalty c max_exponent repeat_exp)) d)
  | None => Ok data
  end.

Definition dry_apply (c : llama_sampler_dry) cur : res (llama_sampler_dry * llama_token_data_array F) :=
  if dry_disabled (dr_multiplier c) (dr_base c) (dr_penalty_last_n c) then Ok (c, cur)
  else
    let last_n := Z.min (Z.min (Z.of_nat (ring_size (dr_last_tokens c))) (effective_last_n (dr_penalty_last_n c) (dr_total_context_size c)))
                        (dr_total_context_size c) in
    if last_n <=? dr_allowed_length c then Ok (c, cur)
    else if last_n <? 0 then Throw "cannot create std::vector larger than max_size()"
    else
      let last_n_repeat := Z.to_nat last_n in
      let counts := replicate last_n_repeat 0 in
      rep_limit ← find_rep_limit (dr_processed_breakers c) (dr_last_tokens c) last_n_repeat;
      if rep_limit <? dr_allowed_length c then Ok (dr_with counts ∅ (dr_last_tokens c) c, cur)
      else
        counts ← repeat_counts (dr_last_tokens c) last_n_repeat rep_limit counts;
        repeats ← max_repeats (dr_last_tokens c) last_n_repeat (dr_allowed_length c) counts;
        max_exponent ← max_exponent_of (dr_base c);
        data ← foldM (dry_step c repeats max_exponent) (ar_data cur) (seq 0 (ar_size cur));
        Ok (dr_with counts repeats (dr_last_tokens c) c, with_sorted false (with_data data cur)).

Definition dry_reset (c : llama_sampler_dry) : llama_sampler_dry := dr_with [] ∅ (ring_clear (dr_last_tokens c)) c.

Definition init_dry (processed_breakers : breakers) (n_ctx_train : Z) (dry_multiplier dry_base : F) (dry_allowed_length dry_penalty_last_n : Z) : res llama_sampler_dry :=
  let n := effective_last_n dry_penalty_last_n n_ctx_train in
  let on := dry_enabled dry_multiplier dry_base dry_penalty_last_n in
  if on && (n <? 0) then Throw "cannot create std::vector larger than max_size()"
  else
    Ok (mk_dry n_ctx_train dry_multiplier dry_base dry_allowed_length dry_penalty_last_n processed_breakers
          (if on then replicate (Z.to_nat n) 0 else []) ∅ (ring_new 0 (if on then Z.to_nat n else 0%nat))).
(** With breakers given as texts, of which a disabled sampler reads none. *)
Definition init_dry_text (n_tokens : nat) (detokenize_one : Z -> res (list Z)) (tokenize_text : list Z -> res (list Z)) (seq_breakers : list (list Z))
    (n_ctx_train : Z) (dry_multiplier dry_base : F) (dry_allowed_length dry_penalty_last_n : Z) : res llama_sampler_dry :=
  processed ← (if dry_enabled dry_multiplier dry_base dry_penalty_last_n then process_breakers n_tokens detokenize_one tokenize_text seq_breakers
               else Ok []);
  init_dry processed n_ctx_train dry_multiplier dry_base dry_allowed_length dry_penalty_last_n.
Definition dry_clone (c : llama_sampler_dry) : res llama_sampler_dry :=
  r ← init_dry [] (dr_total_context_size c) (dr_multiplier c) (dr_base c) (dr_allowed_length c) (dr_penalty_last_n c);
  Ok (mk_dry (dr_total_context_size r) (dr_multiplier r) (dr_base r) (dr_allowed_length r) (dr_penalty_last_n r) (dr_processed_breakers c)
        (dr_repeat_count c) (dr_max_token_repeat c) (dr_last_tokens c)).
(** The breakers given as tokens, for tests. *)
Definition init_dry_testing (context_size : Z) (dry_multiplier dry_base : F) (dry_allowed_length dry_penalty_last_n : Z) (seq_breakers : list (list Z)) : res llama_sampler_dry :=
  r ← init_dry [] context_size dry_multiplier dry_base dry_allowed_length dry_penalty_last_n;
  let processed := omap (fun b => match b with h :: t => Some (h, t) | [] => None end) seq_breakers in
  Ok (mk_dry (dr_total_context_size r) (dr_multiplier r) (dr_base r) (dr_allowed_length r) (dr_penalty_last_n r) processed
        (dr_repeat_count r) (dr_max_token_repeat r) (dr_last_tokens r)).
End dry.
