(* ===== verification/SamplingDryOk.v ===== *)
(** The DRY sampler finds the repetitions of the context: its backwards Z-algorithm with
    clipped lengths gives the longest common suffixes, and the map of repetitions gives, for
    every token, the longest repetition that it would continue. *)

From S2P Require Import Prelude Vocab VocabMerge VocabText RingBuffer Sampling SamplingOk SamplingState SamplingStateOk SamplingDry.
Local Open Scope Z_scope.

(** ** Common prefixes *)

Fixpoint common_prefix (a b : list Z) : nat :=
  match a, b with
  | x :: a, y :: b => if x =? y then S (common_prefix a b) else O
  | _, _ => O
  end.

Section context.
(** The tokens of the context that count, the last one first. *)
Context (r : list Z).

(** The length of the repetition that ends [k] tokens before the end. *)
Definition repeat_at (k : nat) : nat := common_prefix r (drop k r).

Lemma common_prefix_le a b : (common_prefix a b <= length a)%nat /\ (common_prefix a b <= length b)%nat.
Proof. revert b. induction a as [|x a IH]; intros [|y b]; cbn; try lia. destruct (x =? y); [|lia]. destruct (IH b). lia. Qed.
Lemma common_prefix_eq a b i : (i < common_prefix a b)%nat -> a !! i = b !! i /\ is_Some (a !! i).
Proof.
  revert b i. induction a as [|x a IH]; intros [|y b] i Hi; cbn in Hi; try lia. destruct (Z.eqb_spec x y) as [->|]; [|lia].
  destruct i as [|i]; cbn; [by eauto|]. apply IH. lia.
Qed.
Lemma common_prefix_stop a b : (common_prefix a b < length a)%nat -> (common_prefix a b < length b)%nat -> a !! common_prefix a b <> b !! common_prefix a b.
Proof.
  revert b. induction a as [|x a IH]; intros [|y b]; cbn; try lia. destruct (Z.eqb_spec x y) as [->|Hxy]; cbn; [|congruence].
  intros H1 H2. apply IH; lia.
Qed.
(** What pins the length down. *)
Lemma common_prefix_unique a b m : (m <= length a)%nat -> (m <= length b)%nat -> (forall i, (i < m)%nat -> a !! i = b !! i) ->
  (m = length a \/ m = length b \/ a !! m <> b !! m) -> common_prefix a b = m.
Proof.
  intros Ha Hb Heq Hstop. destruct (common_prefix_le a b) as [H1 H2]. destruct (lt_eq_lt_dec (common_prefix a b) m) as [[Hlt|]|Hgt]; [|done|].
  - exfalso. apply (common_prefix_stop a b); [lia|lia|]. apply Heq. done.
  - exfalso. destruct (common_prefix_eq a b m Hgt) as [E _]. destruct Hstop as [->|[->|Hne]]; [lia|lia|done].
Qed.

Lemma repeat_le k : (repeat_at k <= length r - k)%nat.
Proof. unfold repeat_at. destruct (common_prefix_le r (drop k r)) as [_ H]. by rewrite length_drop in H. Qed.
Lemma repeat_eq k i : (i < repeat_at k)%nat -> r !! i = r !! (k + i)%nat.
Proof. intros Hi. unfold repeat_at in Hi. apply common_prefix_eq in Hi as [E _]. by rewrite lookup_drop in E. Qed.
Lemma repeat_stop k : (k + repeat_at k < length r)%nat -> r !! repeat_at k <> r !! (k + repeat_at k)%nat.
Proof.
  intros Hk. pose proof (common_prefix_stop r (drop k r)) as H. rewrite lookup_drop, length_drop in H. unfold repeat_at in *. apply H; lia.
Qed.
Lemma repeat_unique k m : (k + m <= length r)%nat -> (forall i, (i < m)%nat -> r !! i = r !! (k + i)%nat) ->
  (k + m = length r \/ r !! m <> r !! (k + m)%nat)%nat -> repeat_at k = m.
Proof.
  intros Hm Heq Hstop. apply common_prefix_unique; rewrite ?length_drop; try lia.
  - intros i Hi. rewrite lookup_drop. by apply Heq.
  - rewrite lookup_drop. destruct Hstop as [Hs|Hs]; [right; left; lia|by right; right].
Qed.

(** ** The loop *)

Context (rb : ring_buffer Z) (Hrat : forall i x, r !! i = Some x -> ring_rat rb i = Ok x).

(** [extend] goes to the end of the repetition. *)
Lemma extend_step k i : (1 <= k <= i)%nat -> (i < length r)%nat ->
  extend_body rb (length r) k i = Ok (if bool_decide (r !! i = r !! (i - k)%nat) then inl (S i) else inr i).
Proof.
  intros Hk Hi. destruct (lookup_lt_is_Some_2 r i Hi) as [x Hx]. destruct (lookup_lt_is_Some_2 r (i - k) ltac:(lia)) as [y Hy].
  unfold extend_body. rewrite (proj2 (Nat.ltb_lt _ _) Hi), (Hrat _ _ Hx), bind_ok, (Hrat _ _ Hy), bind_ok, Hx, Hy.
  destruct (Z.eqb_spec x y) as [->|Hne]; [by rewrite bool_decide_true|]. rewrite bool_decide_false; [done|]. congruence.
Qed.
Lemma extend_ok k i : (1 <= k <= i)%nat -> (i <= length r)%nat -> (forall j, (k <= j < i)%nat -> r !! j = r !! (j - k)%nat) ->
  extend rb (length r) k i = Ok (k + repeat_at k)%nat.
Proof.
  unfold extend. remember (S (length r - i)) as fuel eqn:Ef. assert (Hf : (length r - i < fuel)%nat) by lia. clear Ef. revert i Hf.
  induction fuel as [|fuel IH]; intros i Hf Hk Hi Heq; [lia|]. cbn [loop].
  assert (Hrep : forall j, (j < i - k)%nat -> r !! j = r !! (k + j)%nat).
  { intros j Hj. rewrite (Heq (k + j)%nat) by lia. f_equal. lia. }
  destruct (decide (i = length r)) as [->|Hne].
  - unfold extend_body. rewrite Nat.ltb_irrefl, bind_ok. f_equal. rewrite (repeat_unique k (length r - k)); [lia|lia|done|]. left. lia.
  - rewrite extend_step, bind_ok by lia. case_bool_decide as E.
    + apply IH; [lia|lia|lia|]. intros j Hj. destruct (decide (j = i)) as [->|]; [done|]. apply Heq. lia.
    + f_equal. rewrite (repeat_unique k (i - k)); [lia|lia|done|]. right. replace (k + (i - k))%nat with i by lia. congruence.
Qed.

Context (rep_limit : Z).
Definition clipped (k : nat) : Z := Z.min (Z.of_nat (repeat_at k)) rep_limit.

(** Before the round [k]: the counts so far, and a box [lt..rt] that repeats the front. *)
Definition z_inv (k : nat) (st : list Z * nat * nat) : Prop :=
  let '(counts, lt, rt) := st in
  length counts = length r /\ (forall k', (1 <= k' < k)%nat -> counts !! (length r - 1 - k')%nat = Some (clipped k')) /\
  (rt < length r)%nat /\ ((k <= rt)%nat -> (1 <= lt < k)%nat /\ (forall i, (lt <= i <= rt)%nat -> r !! i = r !! (i - lt)%nat) /\ (rt + 1 = lt + repeat_at lt)%nat).

Lemma z_inv_store k counts lt rt lt' rt' c : (1 <= k < length r)%nat -> z_inv k (counts, lt, rt) -> c = clipped k -> (rt' < length r)%nat ->
  ((S k <= rt')%nat -> (1 <= lt' < S k)%nat /\ (forall i, (lt' <= i <= rt')%nat -> r !! i = r !! (i - lt')%nat) /\ (rt' + 1 = lt' + repeat_at lt')%nat) ->
  wr counts (length r - 1 - k) c = Ok (<[(length r - 1 - k)%nat := c]> counts) /\ z_inv (S k) (<[(length r - 1 - k)%nat := c]> counts, lt', rt').
Proof.
  intros Hk (H1 & H2 & H3 & H4) -> Hr Hbox. split; [apply wr_ok; lia|]. split; [by rewrite length_insert|]. split; [|done].
  intros k' Hk'. destruct (decide (k' = k)) as [->|Hne]; [apply list_lookup_insert_eq; lia|]. rewrite list_lookup_insert_ne by lia. apply H2. lia.
Qed.

(** The box of the round [k] itself. *)
Lemma own_box k : (1 <= k < length r)%nat -> (0 < repeat_at k)%nat ->
  (k <= k + repeat_at k - 1 < length r)%nat /\ (forall i, (k <= i <= k + repeat_at k - 1)%nat -> r !! i = r !! (i - k)%nat) /\ (k + repeat_at k - 1 + 1 = k + repeat_at k)%nat.
Proof.
  intros Hk Hp. pose proof (repeat_le k). split; [lia|]. split; [|lia]. intros i Hi. rewrite (repeat_eq k (i - k)) by lia. f_equal. lia.
Qed.

(** Inside the box the repetition is known from the one at [k - lt] up to the end of the box. *)
Lemma box_repeat k lt rt : (1 <= lt < k)%nat -> (k <= rt < length r)%nat -> (forall i, (lt <= i <= rt)%nat -> r !! i = r !! (i - lt)%nat) ->
  forall i, (i < repeat_at (k - lt))%nat -> (k + i <= rt)%nat -> r !! i = r !! (k + i)%nat.
Proof. intros Hlt Hk Hbox i Hi Hr. rewrite (Hbox (k + i)%nat) by lia. rewrite (repeat_eq (k - lt) i Hi). f_equal. lia. Qed.
Lemma box_short k lt rt : (1 <= lt < k)%nat -> (k <= rt < length r)%nat -> (forall i, (lt <= i <= rt)%nat -> r !! i = r !! (i - lt)%nat) ->
  (repeat_at (k - lt) < rt - k + 1)%nat -> repeat_at k = repeat_at (k - lt).
Proof.
  intros Hlt Hk Hbox Hs. apply repeat_unique; [lia| |right].
  - intros i Hi. apply (box_repeat k lt rt); [done|done|done|done|lia].
  - rewrite (Hbox (k + repeat_at (k - lt))%nat) by lia. replace (k + repeat_at (k - lt) - lt)%nat with (k - lt + repeat_at (k - lt))%nat by lia.
    apply repeat_stop. lia.
Qed.
Lemma box_long k lt rt : (1 <= lt < k)%nat -> (k <= rt < length r)%nat -> (forall i, (lt <= i <= rt)%nat -> r !! i = r !! (i - lt)%nat) ->
  (rt - k + 1 <= repeat_at (k - lt))%nat -> (rt - k + 1 <= repeat_at k)%nat.
Proof.
  intros Hlt Hk Hbox Hl. destruct (decide (rt - k + 1 <= repeat_at k)%nat) as [|Hne]; [done|]. exfalso.
  apply (repeat_stop k); [lia|]. rewrite (box_repeat k lt rt); [done|done|done|done|lia|lia].
Qed.

Lemma z_round k st : (1 <= k < length r)%nat -> z_inv k st -> runs (z_step rb (length r) rep_limit st k) (z_inv (S k)).
Proof.
  intros Hk Hinv. destruct st as [[counts lt] rt]. pose proof Hinv as (H1 & H2 & H3 & H4). unfold z_step. destruct (Nat.ltb_spec rt k) as [Hout|Hin].
  - rewrite extend_ok, bind_ok by (lia || (intros j Hj; lia)). replace (k + repeat_at k - k)%nat with (repeat_at k) by lia.
    destruct (Nat.ltb_spec 0 (repeat_at k)) as [Hp|Hp].
    + destruct (own_box k Hk Hp) as (B1 & B2 & B3). destruct (z_inv_store k counts lt rt k (k + repeat_at k - 1) (clipped k) Hk Hinv) as [Ew Hi]; [done|lia| |].
      { intros _. split; [lia|]. by split. }
      change (Z.min (Z.of_nat (repeat_at k)) rep_limit) with (clipped k). rewrite Ew, bind_ok. exact Hi.
    + destruct (z_inv_store k counts lt rt lt rt (clipped k) Hk Hinv) as [Ew Hi]; [done|lia|intros ?; lia|].
      change (Z.min (Z.of_nat (repeat_at k)) rep_limit) with (clipped k). rewrite Ew, bind_ok. exact Hi.
  - destruct (H4 Hin) as (B1 & B2 & B3). rewrite (rd_ok _ _ _ (H2 (k - lt)%nat ltac:(lia))), bind_ok.
    destruct (Z.ltb_spec (clipped (k - lt)) (Z.of_nat (rt - k + 1))) as [Hs|Hl].
    + assert (Ec : Z.min (clipped (k - lt)) rep_limit = clipped k).
      { unfold clipped in *. destruct (decide (repeat_at (k - lt) < rt - k + 1)%nat) as [Hlt|Hge].
        - rewrite (box_short k lt rt) by (done || lia). lia.
        - pose proof (box_long k lt rt B1 ltac:(lia) B2 ltac:(lia)). lia. }
      rewrite Ec. destruct (z_inv_store k counts lt rt lt rt (clipped k) Hk Hinv) as [Ew Hi]; [done|done| |].
      { intros _. split; [lia|]. by split. }
      rewrite Ew, bind_ok. exact Hi.
    + assert (Hlong : (rt - k + 1 <= repeat_at (k - lt))%nat) by (unfold clipped in Hl; lia).
      pose proof (box_long k lt rt B1 ltac:(lia) B2 Hlong) as Hk2. destruct (own_box k Hk ltac:(lia)) as (C1 & C2 & C3).
      rewrite extend_ok, bind_ok by (lia || (intros j Hj; apply C2; lia)). replace (k + repeat_at k - k)%nat with (repeat_at k) by lia.
      destruct (z_inv_store k counts lt rt k (k + repeat_at k - 1) (clipped k) Hk Hinv) as [Ew Hi]; [done|lia| |].
      { intros _. split; [lia|]. by split. }
      change (Z.min (Z.of_nat (repeat_at k)) rep_limit) with (clipped k). rewrite Ew, bind_ok. exact Hi.
Qed.

(** The counts hold the clipped repetitions from the end backwards; the last place stays 0. *)
Lemma repeat_counts_ok : (0 < length r)%nat -> exists counts, repeat_counts rb (length r) rep_limit (replicate (length r) 0) = Ok counts /\ length counts = length r /\
  forall k, (1 <= k < length r)%nat -> counts !! (length r - 1 - k)%nat = Some (clipped k).
Proof.
  intros Hn. unfold repeat_counts.
  assert (R : runs (foldM (z_step rb (length r) rep_limit) (replicate (length r) 0, 0%nat, 0%nat) (seq 1 (length r - 1))) (z_inv (S (length (seq 1 (length r - 1)))))).
  { apply (runs_foldM (fun done_ => z_inv (S (length done_)))).
    - split; [apply length_replicate|]. split; [cbn; lia|]. split; [done|]. cbn. lia.
    - intros l1 k l2 st Es Hst. assert (Hl : seq 1 (length r - 1) !! length l1 = Some k) by by rewrite Es, list_lookup_middle.
      apply lookup_seq in Hl as [-> Hlt]. rewrite length_app, Nat.add_1_r. apply z_round; [lia|done]. }
  rewrite length_seq in R. destruct (runs_inv _ _ R) as ([[counts lt] rt] & E & E1 & E2 & _).
  rewrite E, bind_ok. exists counts. split; [done|]. split; [done|]. intros k Hk. apply E2. lia.
Qed.

(** ** The map of repetitions *)

(** A token with a repetition of [c] tokens, when the map has no longer one for it. *)
Definition keep_longest (m : gmap Z Z) (t c : Z) : gmap Z Z :=
  match m !! t with Some x => if x <? c then <[t := c]> m else m | None => <[t := c]> m end.
Lemma keep_longest_same m t c : exists v, keep_longest m t c !! t = Some v /\ c <= v /\ (v = c \/ m !! t = Some v) /\ forall x, m !! t = Some x -> x <= v.
Proof.
  unfold keep_longest. destruct (m !! t) as [x|] eqn:Ex; [destruct (Z.ltb_spec x c)|].
  - exists c. rewrite lookup_insert_eq. split_and!; [done|lia|by left|]. intros y [= <-]. lia.
  - exists x. split_and!; [done|lia|by right|]. intros y [= <-]. lia.
  - exists c. rewrite lookup_insert_eq. split_and!; [done|lia|by left|done].
Qed.
Lemma keep_longest_other m t c t' : t' <> t -> keep_longest m t c !! t' = m !! t'.
Proof. intros Hne. unfold keep_longest. destruct (m !! t) as [x|]; [destruct (x <? c)|]; by rewrite ?lookup_insert_ne. Qed.

(** The map holds, for the tokens behind the repetitions of at least [allowed], the longest. *)
Definition longest_repeats (allowed : Z) (m : gmap Z Z) : Prop :=
  (forall t v, m !! t = Some v -> exists k, (1 <= k < length r)%nat /\ r !! (k - 1)%nat = Some t /\ clipped k = v /\ allowed <= v) /\
  (forall t k, (1 <= k < length r)%nat -> r !! (k - 1)%nat = Some t -> allowed <= clipped k -> exists v, m !! t = Some v /\ clipped k <= v).

Lemma max_repeats_ok allowed counts : (0 < length r)%nat -> length counts = length r -> (forall k, (1 <= k < length r)%nat -> counts !! (length r - 1 - k)%nat = Some (clipped k)) ->
  exists m, max_repeats rb (length r) allowed counts = Ok m /\ longest_repeats allowed m.
Proof.
  intros Hn Hl Hc.
  assert (R : runs (max_repeats rb (length r) allowed counts) (fun m =>
    (forall t v, m !! t = Some v -> exists k, (length r - 1 - length (seq 0 (length r - 1)) <= k - 1 < length r - 1)%nat /\ (1 <= k)%nat /\ r !! (k - 1)%nat = Some t /\ clipped k = v /\ allowed <= v) /\
    (forall t k, (length r - 1 - length (seq 0 (length r - 1)) < k < length r)%nat -> r !! (k - 1)%nat = Some t -> allowed <= clipped k -> exists v, m !! t = Some v /\ clipped k <= v))).
  { unfold max_repeats. apply (runs_foldM (fun done_ m =>
      (forall t v, m !! t = Some v -> exists k, (length r - 1 - length done_ <= k - 1 < length r - 1)%nat /\ (1 <= k)%nat /\ r !! (k - 1)%nat = Some t /\ clipped k = v /\ allowed <= v) /\
      (forall t k, (length r - 1 - length done_ < k < length r)%nat -> r !! (k - 1)%nat = Some t -> allowed <= clipped k -> exists v, m !! t = Some v /\ clipped k <= v))).
    - split; [intros t v; by rewrite lookup_empty|]. cbn. intros t k Hk. lia.
    - intros l1 i l2 m Es [M1 M2]. apply seq_split_at in Es as [-> Hi]. unfold max_repeat_step. set (k := (length r - 1 - length l1)%nat).
      assert (Hk : (1 <= k < length r)%nat) by lia. replace (length l1) with (length r - 1 - k)%nat at 1 by lia.
      rewrite (rd_ok _ _ _ (Hc k Hk)), bind_ok, length_app. cbn [length]. destruct (lookup_lt_is_Some_2 r (k - 1) ltac:(lia)) as [t Ht].
      replace (length r - 2 - length l1)%nat with (k - 1)%nat by lia. rewrite (Hrat _ _ Ht).
      assert (Hk1 : (length r - 1 - (length l1 + 1) = k - 1)%nat) by lia. rewrite Hk1.
      assert (M1' : forall t v, m !! t = Some v -> exists k', (k - 1 <= k' - 1 < length r - 1)%nat /\ (1 <= k')%nat /\ r !! (k' - 1)%nat = Some t /\ clipped k' = v /\ allowed <= v).
      { intros t' v Hv. destruct (M1 t' v Hv) as (k' & B & C). exists k'. split; [lia|done]. }
      assert (M2' : forall t' k', (k - 1 < k' < length r)%nat -> k' <> k -> r !! (k' - 1)%nat = Some t' -> allowed <= clipped k' -> exists v, m !! t' = Some v /\ clipped k' <= v).
      { intros t' k' B Hne. apply M2. lia. }
      destruct (Z.leb_spec allowed (clipped k)) as [Hle|Hlt].
      + rewrite bind_ok. fold (keep_longest m t (clipped k)). destruct (keep_longest_same m t (clipped k)) as (v & Hv & Hge & Hor & Hmax). cbn [runs]. split.
        * intros t' v' Hv'. destruct (decide (t' = t)) as [->|Hne]; [|rewrite keep_longest_other in Hv' by done; by apply M1'].
          rewrite Hv in Hv'. injection Hv' as <-. destruct Hor as [->|Hm]; [|by apply M1']. exists k. split_and!; [lia|lia|lia|done|done|done].
        * intros t' k' B Ht' Hc'. destruct (decide (t' = t)) as [->|Hne].
          -- exists v. split; [done|]. destruct (decide (k' = k)) as [->|Hne]; [done|]. destruct (M2' t k' B Hne Ht' Hc') as (v' & Hm & Hle').
             apply Hmax in Hm. lia.
          -- rewrite keep_longest_other by done. apply (M2' t' k'); [done| |done|done]. intros ->. rewrite Ht in Ht'. by simplify_eq.
      + cbn [runs]. split; [done|]. intros t' k' B Ht' Hc'. apply (M2' t' k'); [done| |done|done]. intros ->. lia. }
  destruct (runs_inv _ _ R) as (m & E & M1 & M2). rewrite length_seq in M1, M2. exists m. split; [done|]. split.
  - intros t v Hv. destruct (M1 t v Hv) as (k & B & B1 & C). exists k. split; [lia|done].
  - intros t k Hk. apply M2. lia.
Qed.

(** ** Breakers *)

Context (processed : breakers).

(** The breaker with the tail [tail_] begins [i] tokens before the end. *)
Definition tail_fits (tail_ : list Z) (i : nat) : Prop :=
  (length tail_ <= i)%nat /\ forall o, (o < length tail_)%nat -> tail_ !! o = r !! (i - o - 1)%nat.
Definition breaks (i len : nat) : Prop :=
  exists t tail_, r !! i = Some t /\ (t, tail_) ∈ processed /\ len = length tail_ /\ tail_fits tail_ i.

Lemma tail_scan tail_ i a len : (i < length r)%nat -> (a + len = length tail_)%nat -> (length tail_ <= i)%nat ->
  exists s, foldB (fun _ offset => t ← rd tail_ offset; x ← ring_rat rb (i - offset - 1); Ok (if t =? x then inl tt else inr tt)) tt (seq a len) = Ok s /\
    (s = inl tt <-> forall o, (a <= o < length tail_)%nat -> tail_ !! o = r !! (i - o - 1)%nat).
Proof.
  intros Hi. revert a. induction len as [|len IH]; intros a Ha Hl; [exists (inl tt); split; [done|]; split; [intros _ o Ho; lia|done]|].
  cbn [seq foldB]. destruct (lookup_lt_is_Some_2 tail_ a ltac:(lia)) as [t Ht]. destruct (lookup_lt_is_Some_2 r (i - a - 1) ltac:(lia)) as [x Hx].
  rewrite (rd_ok _ _ _ Ht), bind_ok, (Hrat _ _ Hx), !bind_ok. destruct (Z.eqb_spec t x) as [->|Hne].
  - destruct (IH (S a) ltac:(lia) Hl) as (s & E & Hs). exists s. split; [exact E|]. rewrite Hs. split; intros Ho o Hb; [|apply Ho; lia].
    destruct (decide (o = a)) as [->|]; [by rewrite Ht, Hx|apply Ho; lia].
  - exists (inr tt). split; [done|]. split; [done|]. intros Ho. specialize (Ho a ltac:(lia)). congruence.
Qed.
Lemma tail_matches_ok tail_ i : (i < length r)%nat -> (length tail_ <= i)%nat -> exists b, tail_matches rb tail_ i = Ok b /\ (b = true <-> tail_fits tail_ i).
Proof.
  intros Hi Hl. destruct (tail_scan tail_ i 0 (length tail_) Hi eq_refl Hl) as (s & E & Hs). unfold tail_matches. rewrite E, bind_ok.
  assert (Hfit : tail_fits tail_ i <-> s = inl tt) by (rewrite Hs; unfold tail_fits; split; [intros [_ H] o Ho; apply H; lia|intros H; split; [done|intros o Ho; apply H; lia]]).
  destruct s as [[]|]; eexists; (split; [done|]); rewrite Hfit; split; done.
Qed.

(** The longest tail among [tails] that fits at [i], or -1. *)
Definition longest_fit (tails : list (list Z)) (i : nat) (l : Z) : Prop :=
  (l = -1 \/ exists tail_, tail_ ∈ tails /\ tail_fits tail_ i /\ l = Z.of_nat (length tail_)) /\
  forall tail_, tail_ ∈ tails -> tail_fits tail_ i -> Z.of_nat (length tail_) <= l.
Lemma longest_fit_step tails tail_ i l l' : longest_fit tails i l -> l <= l' -> (l' = l \/ (tail_fits tail_ i /\ l' = Z.of_nat (length tail_))) ->
  (tail_fits tail_ i -> Z.of_nat (length tail_) <= l') -> longest_fit (tails ++ [tail_]) i l'.
Proof.
  intros [H1 H2] Hle Hor Hfit. split.
  - destruct Hor as [->|[Hf ->]]; [|right; exists tail_; split; [apply elem_of_app; right; by left|done]].
    destruct H1 as [->|(x & Hx & Hf & ->)]; [by left|]. right. exists x. split; [apply elem_of_app; by left|done].
  - intros x Hx Hf. apply elem_of_app in Hx as [Hx|Hx]; [specialize (H2 x Hx Hf); lia|]. apply list_elem_of_singleton in Hx as ->. by apply Hfit.
Qed.
Lemma longest_breaker_step tails tail_ i l : (i < length r)%nat -> longest_fit tails i l -> runs (longest_breaker rb i l tail_) (longest_fit (tails ++ [tail_]) i).
Proof.
  intros Hi Hl. unfold longest_breaker. cbn zeta.
  destruct (Z.ltb_spec l (Z.of_nat (length tail_))) as [Hlt|Hge]; cbn [andb]; [|by apply (longest_fit_step tails tail_ i l); [|lia|by left|]].
  destruct (Z.leb_spec (Z.of_nat (length tail_)) (Z.of_nat i)) as [Hle|Hgt];
    [|apply (longest_fit_step tails tail_ i l); [done|lia|by left|intros [Hf _]; lia]].
  destruct (tail_matches_ok tail_ i Hi ltac:(lia)) as (b & -> & Hb). rewrite bind_ok. cbn [runs]. destruct b.
  - apply (longest_fit_step tails tail_ i l); [done|lia|right; split; [by apply Hb|done]|lia].
  - apply (longest_fit_step tails tail_ i l); [done|lia|by left|]. intros Hf. by apply Hb in Hf.
Qed.
Lemma longest_breaker_loop tails i : (i < length r)%nat -> runs (foldM (longest_breaker rb i) (-1) tails) (longest_fit tails i).
Proof.
  intros Hi. apply (runs_foldM (fun done_ => longest_fit done_ i)).
  - split; [by left|]. intros x Hx. by apply not_elem_of_nil in Hx.
  - intros l1 x l2 l _ Hl. by apply longest_breaker_step.
Qed.

Lemma restart_step_ok i : (i < length r)%nat -> exists s, restart_step processed rb tt i = Ok s /\
  match s with
  | inl _ => forall len, ~ breaks i len
  | inr l => exists len, breaks i len /\ l = Z.of_nat (i - len) /\ forall len', breaks i len' -> (len' <= len)%nat
  end.
Proof.
  intros Hi. destruct (lookup_lt_is_Some_2 r i Hi) as [t Ht]. unfold restart_step. rewrite (Hrat _ _ Ht), bind_ok. cbn zeta.
  set (tails := (filter (fun b => b.1 = t) processed).*2).
  assert (Hin : forall tail_, tail_ ∈ tails <-> (t, tail_) ∈ processed).
  { intros tail_. unfold tails. rewrite list_elem_of_fmap. split.
    - intros ([t' x] & -> & H). apply list_elem_of_filter in H as [E H]. cbn in *. by subst.
    - intros H. exists (t, tail_). split; [done|]. by apply list_elem_of_filter. }
  destruct (runs_inv _ _ (longest_breaker_loop tails i Hi)) as (l & -> & Hex & Hmax). rewrite bind_ok.
  assert (Hbr : forall len, breaks i len -> Z.of_nat len <= l).
  { intros len (t' & tail_ & Ht' & Hp & -> & Hf). rewrite Ht in Ht'. injection Ht' as <-. apply Hmax; [by apply Hin|done]. }
  destruct (Z.leb_spec 0 l) as [Hl|Hl]; eexists; (split; [done|]).
  - destruct Hex as [->|(tail_ & Htl & Hf & ->)]; [lia|]. exists (length tail_). split; [exists t, tail_; split; [done|split; [by apply Hin|by split]]|].
    split; [destruct Hf; lia|]. intros len' Hb. apply Hbr in Hb. lia.
  - intros len Hb. apply Hbr in Hb. lia.
Qed.

(** Where repetitions stop: at the last breaker that begins in the context, behind its longest tail. *)
Definition limit_of (l : Z) : Prop :=
  (l = Z.of_nat (length r) /\ forall i len, ~ breaks i len) \/
  exists i len, breaks i len /\ l = Z.of_nat (i - len) /\ (forall len', breaks i len' -> (len' <= len)%nat) /\ forall i' len', (i' < i)%nat -> ~ breaks i' len'.
Lemma restart_scan a len : (a + len = length r)%nat -> (forall i l, (i < a)%nat -> ~ breaks i l) ->
  exists s, foldB (restart_step processed rb) tt (seq a len) = Ok s /\ limit_of (match s with inl _ => Z.of_nat (length r) | inr l => l end).
Proof.
  revert a. induction len as [|len IH]; intros a Ha Hno.
  - exists (inl tt). split; [done|]. left. split; [done|]. intros i l Hb. destruct Hb as (t & tail_ & Ht & Hrest). pose proof (lookup_lt_Some _ _ _ Ht).
    apply (Hno i l); [lia|by exists t, tail_].
  - cbn [seq foldB]. destruct (restart_step_ok a ltac:(lia)) as (s & -> & Hs). rewrite bind_ok. destruct s as [[]|l].
    + apply IH; [lia|]. intros i l Hi. destruct (decide (i = a)) as [->|]; [apply Hs|apply Hno; lia].
    + exists (inr l). split; [done|]. right. destruct Hs as (len' & Hb & -> & Hmax). exists a, len'. split_and!; try done.
Qed.
Lemma find_rep_limit_ok : exists l, find_rep_limit processed rb (length r) = Ok l /\ limit_of l.
Proof.
  destruct (restart_scan 0 (length r) eq_refl) as (s & E & Hs); [intros i l Hi; lia|]. unfold find_rep_limit. rewrite E, bind_ok. by eexists.
Qed.
End context.

(** ** The sampler *)

Section sampler.
(** The tokens that count, the last one first, and where repetitions stop. *)
Context (r : list Z) (limit allowed : Z).

(** The token [t] would continue a repetition of [v] tokens: it follows the tokens [k] places
    before the end, which agree with the last ones, and [v] is at least [allowed]. *)
Definition repetition (t v : Z) : Prop :=
  exists k, (1 <= k < length r)%nat /\ r !! (k - 1)%nat = Some t /\ v = Z.min (Z.of_nat (common_prefix r (drop k r))) limit /\ allowed <= v.
Definition longest_repetition (t : Z) (o : option Z) : Prop :=
  match o with Some v => repetition t v /\ forall v', repetition t v' -> v' <= v | None => forall v, ~ repetition t v end.

Lemma longest_repeats_lookup m t : longest_repeats r limit allowed m -> longest_repetition t (m !! t).
Proof.
  intros [M1 M2]. assert (Hr : forall v, repetition t v -> exists w, m !! t = Some w /\ v <= w).
  { intros v (k & Hk & Ht & -> & Ha). by apply (M2 t k). }
  destruct (m !! t) as [v|] eqn:E; cbn.
  - split; [|intros v' (w & [= <-] & Hw)%Hr; done]. destruct (M1 t v E) as (k & Hk & Ht & Hv & Ha). by exists k.
  - by intros v (w & [=] & _)%Hr.
Qed.
Lemma no_repetition t : limit < allowed \/ Z.of_nat (length r) <= allowed -> longest_repetition t None.
Proof.
  intros Hl v (k & Hk & _ & -> & Ha). pose proof (repeat_le r k) as Hle. unfold repeat_at in Hle. lia.
Qed.
Lemma repetition_bound t v : repetition t v -> v <= Z.of_nat (length r).
Proof. intros (k & Hk & _ & -> & _). pose proof (repeat_le r k) as Hle. unfold repeat_at in Hle. lia. Qed.
End sampler.

Section dry.
Context {F D : Type} `{FloatArith F} `{FloatArith D} `{FloatConv F D}.
Implicit Types cur : llama_token_data_array F.
Implicit Types c : llama_sampler_dry (F := F).

(** A candidate that would continue a repetition of [o] tokens: it keeps its logit when it ends
    the repetition by itself. *)
Definition lowered (processed : breakers) (mult base : F) (allowed max_exponent : Z) (o : option Z) (d : llama_token_data F) : llama_token_data F :=
  match o with
  | Some n =>
      if bool_decide ((tk_id d, []) ∈ processed) then d
      else
        let e := if 0 <? max_exponent then Z.min (n - allowed) max_exponent else n - allowed in
        mk_td (tk_id d) (a_sub (tk_logit d) (to_float (a_mul (to_double mult) (a_pow (to_double base) (a_of_Z e))))) (tk_p d)
  | None => d
  end.

Lemma single_token_breaker_ok processed id : single_token_breaker processed id = bool_decide ((id, []) ∈ processed).
Proof.
  apply eq_bool_prop_intro. rewrite bool_decide_spec. unfold single_token_breaker. rewrite Is_true_true, existsb_exists. split.
  - intros ([h t] & Hin & [Hh%Z.eqb_eq Ht%Nat.eqb_eq]%andb_true_iff). cbn in *. destruct t; [|done]. subst. by apply list_elem_of_In.
  - intros Hin. exists (id, []). rewrite <- list_elem_of_In, Z.eqb_refl. by split.
Qed.

Lemma dry_step_ok c repeats e data i d : 0 <= dr_allowed_length c ->
  (forall n, repeats !! tk_id d = Some n -> dr_allowed_length c <= n <= INT32_MAX) -> data !! i = Some d ->
  dry_step c repeats e data i = Ok (<[i := lowered (dr_processed_breakers c) (dr_multiplier c) (dr_base c) (dr_allowed_length c) e (repeats !! tk_id d) d]> data).
Proof.
  intros Ha Hn Hd. unfold dry_step, lowered. rewrite (rd_ok _ _ _ Hd), bind_ok. destruct (repeats !! tk_id d) as [n|]; [|by rewrite list_insert_id].
  specialize (Hn n eq_refl). rewrite single_token_breaker_ok. case_bool_decide; [by rewrite list_insert_id|].
  rewrite i32_ok by (unfold INT32_MIN, INT32_MAX in *; lia). rewrite bind_ok, wr_ok by (by eapply lookup_lt_Some). unfold set_logit, dry_penalty. do 4 f_equal.
  destruct (Z.ltb_spec 0 e); [|done]. cbn [andb]. destruct (Z.ltb_spec e (n - dr_allowed_length c)); do 5 f_equal; lia.
Qed.

(** The window of the sampler: the tokens that count, the last one first. *)
Definition dry_window (dry_penalty_last_n n_ctx_train : Z) (ts : list Z) : list Z :=
  reverse (last_n (Z.to_nat (Z.min (if dry_penalty_last_n =? -1 then n_ctx_train else dry_penalty_last_n) n_ctx_train)) ts).
Definition dry_ready (processed : breakers) (n_ctx : Z) (mult base : F) (allowed last : Z) (l : list Z) c : Prop :=
  dr_total_context_size c = n_ctx /\ dr_multiplier c = mult /\ dr_base c = base /\ dr_allowed_length c = allowed /\ dr_penalty_last_n c = last /\
  dr_processed_breakers c = processed /\ ring_ok (dr_last_tokens c) l /\ Z.of_nat (rb_capacity (dr_last_tokens c)) = if last =? -1 then n_ctx else last.

Section window.
Context (processed : breakers) (n_ctx : Z) (mult base : F) (allowed last : Z).
Context (Hen : dry_enabled mult base last = true) (Hon : dry_disabled mult base last = false) (Hlast : -1 <= last <= INT32_MAX) (Hctx : 0 < n_ctx <= INT32_MAX) (Hall : 0 <= allowed).

Lemma last_nonzero : last <> 0.
Proof. intros ->. unfold dry_disabled in Hon. by rewrite orb_true_r in Hon. Qed.
Lemma init_dry_ok : exists c, init_dry processed n_ctx mult base allowed last = Ok c /\ dry_ready processed n_ctx mult base allowed last [] c.
Proof.
  pose proof last_nonzero as Hz. unfold init_dry, effective_last_n. rewrite Hen. cbn zeta. cbn [andb].
  rewrite (proj2 (Z.ltb_ge _ _)) by (destruct (Z.eqb_spec last (-1)); lia). eexists. split; [done|]. unfold dry_ready. cbn. split_and!; try done; [apply ring_new_ok|].
  destruct (Z.eqb_spec last (-1)); lia.
Qed.
Lemma dry_accept_ok c l t : dry_ready processed n_ctx mult base allowed last l c ->
  exists c', dry_accept c t = Ok c' /\ dry_ready processed n_ctx mult base allowed last (last_n (rb_capacity (dr_last_tokens c)) (l ++ [t])) c' /\
    rb_capacity (dr_last_tokens c') = rb_capacity (dr_last_tokens c).
Proof.
  pose proof last_nonzero as Hz. intros (E1 & E2 & E3 & E4 & E5 & E6 & R & Ec). unfold dry_accept. rewrite E2, E3, E5, Hon.
  destruct (ring_push_ok _ _ t R) as (rb' & -> & Ecap & R'); [destruct (Z.eqb_spec last (-1)); lia|]. rewrite bind_ok.
  eexists. split; [done|]. unfold dry_ready. cbn. by rewrite Ecap.
Qed.
Lemma dry_accept_all c l ts : dry_ready processed n_ctx mult base allowed last (last_n (rb_capacity (dr_last_tokens c)) l) c ->
  exists c', foldM dry_accept c ts = Ok c' /\ dry_ready processed n_ctx mult base allowed last (last_n (rb_capacity (dr_last_tokens c)) (l ++ ts)) c'.
Proof.
  pose proof last_nonzero as Hz. revert c l. induction ts as [|t ts IH]; intros c l R; [exists c; by rewrite app_nil_r|]. cbn [foldM].
  assert (Hcap : (0 < rb_capacity (dr_last_tokens c))%nat).
  { destruct R as (_ & _ & _ & _ & _ & _ & _ & Ec). destruct (Z.eqb_spec last (-1)); lia. }
  destruct (dry_accept_ok c _ t R) as (c1 & -> & R1 & Ec). rewrite bind_ok. rewrite last_n_snoc, <- Ec in R1 by done.
  destruct (IH c1 (l ++ [t]) R1) as (c2 & E & R2). exists c2. rewrite <- app_assoc, Ec in R2. by split.
Qed.

(** The run over the candidates. *)
Lemma dry_apply_ok c l cur e : dry_ready processed n_ctx mult base allowed last l c -> Z.of_nat (length l) <= INT32_MAX -> fits cur -> max_exponent_of base = Ok e ->
  let r := reverse (last_n (Z.to_nat (Z.min (if last =? -1 then n_ctx else last) n_ctx)) l) in
  exists c' cur' limit, dry_apply c cur = Ok (c', cur') /\ dr_last_tokens c' = dr_last_tokens c /\ limit_of r processed limit /\
    Forall2 (fun d d' => exists o, longest_repetition r limit allowed (tk_id d) o /\ d' = lowered processed mult base allowed e o d) (cands cur) (cands cur').
Proof.
  pose proof last_nonzero as Hz. intros (E1 & E2 & E3 & E4 & E5 & E6 & R & Ec) Hmax Hf He r.
  pose proof R as [_ Esz Hfits _ _ _].
  assert (Elen : Z.of_nat (length r) = Z.min (Z.min (Z.of_nat (length l)) (if last =? -1 then n_ctx else last)) n_ctx).
  { unfold r, last_n. rewrite length_reverse, length_drop. destruct (Z.eqb_spec last (-1)); lia. }
  assert (Hrat : forall i x, r !! i = Some x -> ring_rat (dr_last_tokens c) i = Ok x).
  { intros i x Hi. apply (ring_rat_ok _ l); [done|]. unfold r, last_n in Hi. pose proof (lookup_lt_Some _ _ _ Hi) as Hlt.
    rewrite length_reverse, length_drop in Hlt. rewrite reverse_lookup in Hi by (rewrite length_drop; lia).
    rewrite reverse_lookup by lia. rewrite lookup_drop, length_drop in Hi. rewrite <- Hi. f_equal. lia. }
  destruct (find_rep_limit_ok r (dr_last_tokens c) Hrat processed) as (limit & El & Hlim).
  assert (Hsame : limit < allowed \/ Z.of_nat (length r) <= allowed -> forall cur' : llama_token_data_array F, cands cur' = cands cur ->
    Forall2 (fun d d' => exists o, longest_repetition r limit allowed (tk_id d) o /\ d' = lowered processed mult base allowed e o d) (cands cur) (cands cur')).
  { intros Hno cur' ->. apply Forall_Forall2_diag, list.Forall_forall. intros d _. exists None. split; [by apply no_repetition|done]. }
  unfold dry_apply. rewrite E1, E2, E3, E4, E5, E6, Hon. unfold ring_size. rewrite Esz. cbn zeta.
  replace (Z.min (Z.min (Z.of_nat (length l)) (effective_last_n last n_ctx)) n_ctx) with (Z.of_nat (length r))
    by (rewrite Elen; unfold effective_last_n; destruct (Z.eqb_spec last (-1)); lia).
  destruct (Z.leb_spec (Z.of_nat (length r)) allowed) as [Hs|Hl]; [exists c, cur, limit; split_and!; try done; by apply Hsame; [right|]|].
  rewrite (proj2 (Z.ltb_ge _ _)), Nat2Z.id, El, bind_ok by lia.
  destruct (Z.ltb_spec limit allowed) as [Hs|Hlm]; [eexists _, cur, limit; split_and!; try done; by apply Hsame; [left|]|].
  destruct (repeat_counts_ok r (dr_last_tokens c) Hrat limit) as (counts & -> & Hcl & Hc); [lia|]. rewrite bind_ok.
  destruct (max_repeats_ok r (dr_last_tokens c) Hrat limit allowed counts) as (m & -> & Hm); [lia|done..|]. rewrite bind_ok, He, bind_ok.
  rewrite (each_loop _ (fun d => lowered processed mult base allowed e (m !! tk_id d) d) (fun _ => True)); [|done| |done].
  - rewrite bind_ok. eexists _, _, limit. split; [done|]. split; [done|]. split; [done|].
    change (cands (with_sorted false ?x)) with (cands x). rewrite (cands_app_drop cur) by (done || by rewrite length_fmap; apply length_cands').
    change (take (ar_size cur) (ar_data cur)) with (cands cur).
    apply Forall2_fmap_r, Forall_Forall2_diag, list.Forall_forall. intros d _. exists (m !! tk_id d). split; [by apply longest_repeats_lookup|done].
  - intros data i d Hd _. rewrite (dry_step_ok c m e data i d); [by rewrite E2, E3, E4, E6|by rewrite E4| |done].
    intros n Hn. pose proof (longest_repeats_lookup r limit allowed m (tk_id d) Hm) as Hlr. rewrite Hn in Hlr. destruct Hlr as [Hrep _].
    pose proof (repetition_bound _ _ _ _ _ Hrep). destruct Hrep as (k & _ & _ & _ & Ha). rewrite E4. lia.
Qed.
End window.
End dry.

(** ** The theorem *)

Lemma last_n_last_n {A} (n m : nat) (l : list A) : (n <= m)%nat -> last_n n (last_n m l) = last_n n l.
Proof. intros Hnm. unfold last_n. rewrite length_drop, drop_drop. f_equal. lia. Qed.

(** C40: The DRY sampler penalizes exactly the tokens that would continue a repetition: a
    sampler that is set up, accepts the tokens [ts] and is applied to candidates runs without a
    fault, and with [r] the tokens of its window, the last one first, and [limit] the place
    where a sequence breaker stops repetitions (all of the window when it holds no breaker; the
    last breaker that begins in the window otherwise, behind the longest of its tails), the
    logit of a candidate falls by [multiplier * base ^ (v - allowed_length)], the exponent
    capped, where [v] is the length of the longest repetition that the candidate would continue
    - the longest run, cut at [limit], of tokens in front of an earlier occurrence of it that
    are the last tokens of the window - and stays the same when there is none of at least
    [allowed_length] or the candidate breaks repetitions by itself. The Z-algorithm, its boxes
    and clipped counts, the map of repetitions and the early returns are thus only a fast way
    to find the longest repetition. The conditions: the sampler is on (its constructor
    and its operations test this each in their way, and agree unless the base is not a number),
    its sizes are 32-bit and not negative (-1 for the whole context), and the conversion of the cap of the
    exponent to an [int] is defined. *)
Theorem dry_finds_repetitions {F D : Type} `{FloatArith F} `{FloatArith D} `{FloatConv F D} (processed : breakers) (n_ctx : Z) (mult base : F) (allowed last e : Z)
    (ts : list Z) (cur : llama_token_data_array F) :
  dry_enabled mult base last = true -> dry_disabled mult base last = false -> -1 <= last <= INT32_MAX -> 0 < n_ctx <= INT32_MAX -> 0 <= allowed -> max_exponent_of base = Ok e -> fits cur ->
  let r := dry_window last n_ctx ts in
  exists c0 c c' cur' limit, init_dry processed n_ctx mult base allowed last = Ok c0 /\ foldM dry_accept c0 ts = Ok c /\ dry_apply c cur = Ok (c', cur') /\
    limit_of r processed limit /\ dr_last_tokens c' = dr_last_tokens c /\
    Forall2 (fun d d' => exists o, longest_repetition r limit allowed (tk_id d) o /\ d' = lowered processed mult base allowed e o d) (cands cur) (cands cur').
Proof.
  intros Hen Hon Hlast Hctx Hall He Hf r.
  destruct (init_dry_ok processed n_ctx mult base allowed last Hen Hon Hlast Hctx) as (c0 & E0 & R0).
  pose proof (dry_accept_all processed n_ctx mult base allowed last Hen Hon Hlast Hctx c0 [] ts) as Hacc.
  destruct Hacc as (c & E & R); [unfold last_n; by rewrite drop_nil|]. cbn [app] in R. destruct R0 as (_ & _ & _ & _ & _ & _ & _ & Ecap).
  assert (Hc : Z.of_nat (length (last_n (rb_capacity (dr_last_tokens c0)) ts)) <= INT32_MAX /\
    dry_window last n_ctx (last_n (rb_capacity (dr_last_tokens c0)) ts) = dry_window last n_ctx ts).
  { split; [unfold last_n; rewrite length_drop; destruct (Z.eqb_spec last (-1)); lia|]. unfold dry_window. rewrite last_n_last_n; [done|].
    destruct (Z.eqb_spec last (-1)); lia. }
  destruct Hc as [Hlen Hw]. destruct (dry_apply_ok processed n_ctx mult base allowed last Hen Hon Hlast Hctx Hall c _ cur e R Hlen Hf He) as (c' & cur' & limit & A & B & C & G).
  fold (dry_window last n_ctx (last_n (rb_capacity (dr_last_tokens c0)) ts)) in C, G. rewrite Hw in C, G. by exists c0, c, c', cur', limit.
Qed.

Definition dry_arr : llama_token_data_array Z := mk_arr [mk_td 3 1000 0; mk_td 4 1000 0; mk_td 7 1000 0; mk_td 9 1000 0] 4 (-1) true.
(** After 1 2 3 came 4, and after 2 3 came 7; as breakers 1 cuts the repetitions and 7 is never
    penalized. *)
Definition dry_tokens : list Z := [1; 2; 3; 4; 9; 2; 3; 7; 1; 2; 3].
Definition dry_logits (processed : breakers) : res (list Z) :=
  c0 ← init_dry processed 100 10 2 1 (-1);
  c ← foldM dry_accept c0 dry_tokens;
  r ← dry_apply (D := Z) c dry_arr;
  Ok (tk_logit <$> cands r.2).
Lemma dry_finds_repetitions_witness :
  dry_logits [] = Ok [1000; 960; 980; 1000] /\ dry_logits [(1, []); (7, [])] = Ok [1000; 980; 1000; 1000] /\
  exists c0 c c' cur' limit, init_dry [(1, []); (7, [])] 100 10 2 1 (-1) = Ok c0 /\ foldM dry_accept c0 dry_tokens = Ok c /\ dry_apply (D := Z) c dry_arr = Ok (c', cur') /\
    limit_of (dry_window (-1) 100 dry_tokens) [(1, []); (7, [])] limit /\ dr_last_tokens c' = dr_last_tokens c /\
    Forall2 (fun d d' => exists o, longest_repetition (dry_window (-1) 100 dry_tokens) limit 1 (tk_id d) o /\ d' = lowered (D := Z) [(1, []); (7, [])] 10 2 1 88 o d) (cands dry_arr) (cands cur').
Proof.
  split; [vm_compute; reflexivity|]. split; [vm_compute; reflexivity|].
  apply (dry_finds_repetitions [(1, []); (7, [])] 100 10 2 1 (-1) 88 dry_tokens dry_arr); [reflexivity|reflexivity|unfold INT32_MAX; lia|unfold INT32_MAX; lia|lia|reflexivity|].
  unfold fits. cbn. lia.
Defined.
