(* ===== verification/SamplingChain.v ===== *)
(** The samplers as objects, the chain and [llama_sampler_sample], of
    src/llama/llama.cpp/src/llama-sampling.cpp. *)

From S2P Require Import Prelude StateExn GrammarParser Grammar Vocab VocabMerge VocabText RingBuffer Sampling SamplingState SamplingDry.
Local Open Scope Z_scope.

Section chain.
Context {F D G : Type} `{FloatArith F} `{FloatArith D} `{FloatConv F D} `{StdSort} `{StdRandom F D G}.
Implicit Types cur : llama_token_data_array F.

(** ** The grammar sampler *)

Record llama_sampler_grammar := mk_sgrammar {
  sg_vocab : option vocab_ops;
  sg_grammar_str : string;
  sg_grammar_root : string;
  sg_grammar : option llama_grammar
}.

(** What a grammar needs beyond its text: fuel for the stacks and the rejections, the tokenizer
    of the vocabulary and the library of regular expressions. *)
Record grammar_env := mk_genv {
  ge_depth : nat; ge_fuel : nat; ge_tokenize : option (string -> list Z); ge_regex : string -> res regex_fn }.
Context (env : grammar_env).

Definition sgrammar_accept (c : llama_sampler_grammar) (token : Z) : res llama_sampler_grammar :=
  match sg_grammar c with
  | None => Ok c
  | Some g =>
      match accept_impl (ge_fuel env) token g with
      | (Ok _, g') => Ok (mk_sgrammar (sg_vocab c) (sg_grammar_str c) (sg_grammar_root c) (Some g'))
      | (Throw msg, _) => Throw msg
      | (Fault f, _) => Fault f
      end
  end.
(** The grammar works on the identifiers and the logits of the candidates. *)
Definition to_grammar (d : llama_token_data F) : Grammar.llama_token_data := Grammar.mk_token_data (tk_id d) (tk_logit d).
Definition sgrammar_apply (c : llama_sampler_grammar) cur : res (llama_token_data_array F) :=
  match sg_grammar c with
  | None => Ok cur
  | Some g =>
      assert_ (ar_size cur <=? length (ar_data cur))%nat ;;
      l ← apply_impl neg_inf (ge_depth env) (ge_fuel env) g (to_grammar <$> take (ar_size cur) (ar_data cur));
      Ok (with_data (zip_with (fun d x => set_logit (td_logit x) d) (take (ar_size cur) (ar_data cur)) l ++ drop (ar_size cur) (ar_data cur)) cur)
  end.

(** The pattern of the trigger words: their special characters escaped, as alternatives. *)
Definition special_char (c : Ascii.ascii) : bool := existsb (Ascii.eqb c) (String.list_ascii_of_string ".^$|()*+?[]{}\").
Definition escape_word (w : string) : string :=
  String.string_of_list_ascii (concat ((fun c => if special_char c then [Ascii.ascii_of_nat 92; c] else [c]) <$> String.list_ascii_of_string w)).
Definition trigger_pattern_of (words : list string) : string :=
  ("[\s\S]*?(" +:+ String.concat "|" (escape_word <$> words) +:+ ")[\s\S]*")%string.

Definition init_sgrammar (vocab : option vocab_ops) (grammar_str : option string) (grammar_root : string) (lazy : bool)
    (trigger_words : list string) (trigger_tokens : list Z) (trigger_patterns : list string) : res (option llama_sampler_grammar) :=
  match grammar_str with
  | Some (String _ _ as s) =>
      patterns ← (if bool_decide (trigger_words <> []) then assert_ (bool_decide (trigger_patterns = [])) ;; Ok [trigger_pattern_of trigger_words]
                  else Ok trigger_patterns);
      g ← grammar_init_str (ge_fuel env) vocab (ge_tokenize env) (ge_regex env) None s grammar_root lazy patterns trigger_tokens;
      Ok (match g with Some g => Some (mk_sgrammar vocab s grammar_root (Some g)) | None => None end)
  | _ => Ok (Some (mk_sgrammar vocab EmptyString EmptyString None))
  end.
Definition sgrammar_reset (c : llama_sampler_grammar) : res llama_sampler_grammar :=
  match sg_grammar c with
  | None => Ok c
  | Some g =>
      g' ← grammar_init_str (ge_fuel env) (g_vocab g) (ge_tokenize env) (ge_regex env) None (sg_grammar_str c) (sg_grammar_root c)
             (g_lazy g) (tp_pattern <$> g_trigger_patterns g) (g_trigger_tokens g);
      Ok (mk_sgrammar (sg_vocab c) (sg_grammar_str c) (sg_grammar_root c) g')
  end.
Definition sgrammar_clone (c : llama_sampler_grammar) : llama_sampler_grammar :=
  match sg_grammar c with
  | Some g => mk_sgrammar (sg_vocab c) (sg_grammar_str c) (sg_grammar_root c) (Some (grammar_clone g).1)
  | None => mk_sgrammar (sg_vocab c) EmptyString EmptyString None
  end.

(** ** Samplers *)

Record seeded := mk_seeded { se_seed : Z; se_seed_cur : Z; se_rng : G }.
Definition new_seeded (random seed : Z) : seeded := let cur := get_rng_seed random seed in mk_seeded seed cur (rng_seed cur).
(** A clone is built from the seed and takes over the state of the generator. *)
Definition clone_seeded (random : Z) (s : seeded) : seeded := let n := new_seeded random (se_seed s) in mk_seeded (se_seed n) (se_seed_cur n) (se_rng s).

#[warnings="-register-all"]
Inductive llama_sampler :=
  | SAMPLER_chain (samplers : list llama_sampler) (n_sample : Z)
  | SAMPLER_greedy
  | SAMPLER_dist (s : seeded)
  | SAMPLER_top_k (k : Z)
  | SAMPLER_top_p (p : F) (min_keep : nat) (buf_sort : list (llama_token_data F))
  | SAMPLER_min_p (p : F) (min_keep : nat)
  | SAMPLER_typical (p : F) (min_keep : nat)
  | SAMPLER_temp (temp : F)
  | SAMPLER_temp_ext (temp delta exponent : F)
  | SAMPLER_xtc (probability threshold : F) (min_keep : nat) (s : seeded)
  | SAMPLER_mirostat (c : llama_sampler_mirostat (F := F) (G := G))
  | SAMPLER_mirostat_v2 (c : llama_sampler_mirostat_v2 (F := F) (G := G))
  | SAMPLER_grammar (c : llama_sampler_grammar)
  | SAMPLER_penalties (c : llama_sampler_penalties (F := F))
  | SAMPLER_top_n_sigma (n : F)
  | SAMPLER_dry (c : llama_sampler_dry (F := F))
  | SAMPLER_logit_bias (n_vocab : Z) (logit_bias : list (Z * F))
  | SAMPLER_infill (v : infill_vocab).

(** [llama_sampler_accept]; samplers without an [accept] ignore the token. *)
Fixpoint sampler_accept (token : Z) (smpl : llama_sampler) : res llama_sampler :=
  match smpl with
  | SAMPLER_chain samplers n_sample =>
      samplers ← (fix go l := match l with [] => Ok [] | s :: l => s ← sampler_accept token s; l ← go l; Ok (s :: l) end) samplers;
      n ← i32 (n_sample + 1);
      Ok (SAMPLER_chain samplers n)
  | SAMPLER_grammar c => c ← sgrammar_accept c token; Ok (SAMPLER_grammar c)
  | SAMPLER_penalties c => c ← penalties_accept c token; Ok (SAMPLER_penalties c)
  | SAMPLER_dry c => c ← dry_accept c token; Ok (SAMPLER_dry c)
  | _ => Ok smpl
  end.

(** [llama_sampler_apply]: the sampler and the candidates afterwards. *)
Fixpoint sampler_apply (smpl : llama_sampler) cur : res (llama_sampler * llama_token_data_array F) :=
  match smpl with
  | SAMPLER_chain samplers n_sample =>
      r ← (fix go l cur := match l with
             | [] => Ok ([], cur)
             | s :: l => r ← sampler_apply s cur; r' ← go l r.2; Ok (r.1 :: r'.1, r'.2)
             end) samplers cur;
      Ok (SAMPLER_chain r.1 n_sample, r.2)
  | SAMPLER_greedy => cur ← greedy_apply cur; Ok (smpl, cur)
  | SAMPLER_dist s => r ← dist_apply (se_rng s) cur; Ok (SAMPLER_dist (mk_seeded (se_seed s) (se_seed_cur s) r.1), r.2)
  | SAMPLER_top_k k => cur ← top_k_impl k cur; Ok (smpl, cur)
  | SAMPLER_top_p p min_keep buf_sort => r ← top_p_apply p min_keep buf_sort cur; Ok (SAMPLER_top_p p min_keep r.1, r.2)
  | SAMPLER_min_p p min_keep => cur ← min_p_apply p min_keep cur; Ok (smpl, cur)
  | SAMPLER_typical p min_keep => cur ← typical_apply p min_keep cur; Ok (smpl, cur)
  | SAMPLER_temp temp => cur ← temp_impl temp cur; Ok (smpl, cur)
  | SAMPLER_temp_ext temp delta exponent => cur ← temp_ext_apply temp delta exponent cur; Ok (smpl, cur)
  | SAMPLER_xtc probability threshold min_keep s =>
      r ← xtc_apply probability threshold min_keep (se_rng s) cur;
      Ok (SAMPLER_xtc probability threshold min_keep (mk_seeded (se_seed s) (se_seed_cur s) r.1), r.2)
  | SAMPLER_mirostat c => r ← mirostat_apply c cur; Ok (SAMPLER_mirostat r.1, r.2)
  | SAMPLER_mirostat_v2 c => r ← mirostat_v2_apply c cur; Ok (SAMPLER_mirostat_v2 r.1, r.2)
  | SAMPLER_grammar c => cur ← sgrammar_apply c cur; Ok (smpl, cur)
  | SAMPLER_penalties c => cur ← penalties_apply c cur; Ok (smpl, cur)
  | SAMPLER_top_n_sigma n => cur ← top_n_sigma_apply n cur; Ok (smpl, cur)
  | SAMPLER_dry c => r ← dry_apply c cur; Ok (SAMPLER_dry r.1, r.2)
  | SAMPLER_logit_bias _ logit_bias => cur ← logit_bias_apply logit_bias cur; Ok (smpl, cur)
  | SAMPLER_infill v => cur ← infill_apply v cur; Ok (smpl, cur)
  end.

(** [llama_sampler_reset]; [random] is what a generator without a seed is seeded with. *)
Fixpoint sampler_reset (random : Z) (smpl : llama_sampler) : res llama_sampler :=
  match smpl with
  | SAMPLER_chain samplers n_sample =>
      samplers ← (fix go l := match l with [] => Ok [] | s :: l => s ← sampler_reset random s; l ← go l; Ok (s :: l) end) samplers;
      Ok (SAMPLER_chain samplers n_sample)
  | SAMPLER_dist s => Ok (SAMPLER_dist (new_seeded random (se_seed s)))
  | SAMPLER_xtc probability threshold min_keep s => Ok (SAMPLER_xtc probability threshold min_keep (new_seeded random (se_seed s)))
  | SAMPLER_mirostat c => Ok (SAMPLER_mirostat (mirostat_reset random c))
  | SAMPLER_mirostat_v2 c => Ok (SAMPLER_mirostat_v2 (mirostat_v2_reset random c))
  | SAMPLER_grammar c => c ← sgrammar_reset c; Ok (SAMPLER_grammar c)
  | SAMPLER_penalties c => Ok (SAMPLER_penalties (penalties_reset c))
  | SAMPLER_dry c => Ok (SAMPLER_dry (dry_reset c))
  | _ => Ok smpl
  end.

(** [llama_sampler_clone]. *)
Fixpoint sampler_clone (random : Z) (smpl : llama_sampler) : res llama_sampler :=
  match smpl with
  | SAMPLER_chain samplers n_sample =>
      samplers ← (fix go l := match l with [] => Ok [] | s :: l => s ← sampler_clone random s; l ← go l; Ok (s :: l) end) samplers;
      Ok (SAMPLER_chain samplers 0)
  | SAMPLER_dist s => Ok (SAMPLER_dist (clone_seeded random s))
  | SAMPLER_top_p p min_keep _ => Ok (SAMPLER_top_p p min_keep [])
  | SAMPLER_xtc probability threshold min_keep s => Ok (SAMPLER_xtc probability threshold min_keep (clone_seeded random s))
  | SAMPLER_mirostat c => Ok (SAMPLER_mirostat (mirostat_clone random c))
  | SAMPLER_mirostat_v2 c => Ok (SAMPLER_mirostat_v2 (mirostat_v2_clone random c))
  | SAMPLER_grammar c => Ok (SAMPLER_grammar (sgrammar_clone c))
  | SAMPLER_penalties c => Ok (SAMPLER_penalties (penalties_clone c))
  | SAMPLER_dry c => c ← dry_clone c; Ok (SAMPLER_dry c)
  | _ => Ok smpl
  end.

(** [llama_sampler_get_seed]: of a chain the last sampler that has one. *)
Fixpoint sampler_get_seed (smpl : llama_sampler) : Z :=
  match smpl with
  | SAMPLER_dist s => se_seed_cur s
  | SAMPLER_mirostat c => mi_seed_cur c
  | SAMPLER_mirostat_v2 c => m2_seed_cur c
  | SAMPLER_chain samplers _ =>
      (fix go l := match l with
         | [] => LLAMA_DEFAULT_SEED
         | s :: l => let r := go l in if r =? LLAMA_DEFAULT_SEED then sampler_get_seed s else r
         end) samplers
  | _ => LLAMA_DEFAULT_SEED
  end.

(** ** The chain as a container *)

Definition chain_init : llama_sampler := SAMPLER_chain [] 0.
Definition chain_add (chain smpl : llama_sampler) : res llama_sampler :=
  match chain with SAMPLER_chain l n => Ok (SAMPLER_chain (l ++ [smpl]) n) | _ => Fault OutOfRange end.
Definition chain_get (chain : llama_sampler) (i : Z) : res (option llama_sampler) :=
  match chain with
  | SAMPLER_chain l _ => Ok (if (i <? 0) || (Z.of_nat (length l) <=? i) then None else l !! Z.to_nat i)
  | _ => Fault OutOfRange
  end.
Definition chain_remove (chain : llama_sampler) (i : Z) : res (option llama_sampler * llama_sampler) :=
  match chain with
  | SAMPLER_chain l n =>
      Ok (if (i <? 0) || (Z.of_nat (length l) <=? i) then (None, chain) else (l !! Z.to_nat i, SAMPLER_chain (delete (Z.to_nat i) l) n))
  | _ => Fault OutOfRange
  end.
Definition chain_n (chain : llama_sampler) : res Z :=
  match chain with SAMPLER_chain l _ => Ok (Z.of_nat (length l)) | _ => Fault OutOfRange end.
Definition perf_sampler_n (chain : llama_sampler) : res Z :=
  match chain with SAMPLER_chain _ n => Ok (Z.max 0 n) | _ => Fault AbortCalled end.
Definition perf_sampler_reset (chain : llama_sampler) : res llama_sampler :=
  match chain with SAMPLER_chain l _ => Ok (SAMPLER_chain l 0) | _ => Fault AbortCalled end.

(** ** Sampling *)

(** The candidates: the logits of all tokens. *)
Definition candidates_of (logits : list F) (n_vocab : nat) : res (llama_token_data_array F) :=
  data ← foldM (fun data i => x ← rd logits i; Ok (data ++ [mk_td (Z.of_nat i) x zero])) [] (seq 0 n_vocab);
  Ok (mk_arr data n_vocab (-1) false).
Definition sampler_sample (smpl : llama_sampler) (logits : list F) (n_vocab : nat) : res (Z * llama_sampler) :=
  cur ← candidates_of logits n_vocab;
  r ← sampler_apply smpl cur;
  let '(smpl, cur) := (r : llama_sampler * llama_token_data_array F) in
  assert_ ((0 <=? ar_selected cur) && (ar_selected cur <? Z.of_nat (ar_size cur))) ;;
  d ← idx (ar_data cur) (ar_selected cur);
  smpl ← sampler_accept (tk_id d) smpl;
  Ok (tk_id d, smpl).
End chain.

(** The vocabulary of the infill sampler and the texts of the DRY breakers are those of
    [llama_vocab]: [token_to_piece] into 512 bytes, [detokenize] and [tokenize]. *)
Definition infill_of {S} (v : llama_vocab S) (is_eog : Z -> bool) (token_eot : Z) : infill_vocab :=
  mk_infill is_eog token_eot (v_special_eos_id v) (fun id => token_to_piece v id 512 0 false).
Definition init_dry_vocab {F S} `{FloatArith F} `{FloatOps S} `{PriorityQueue} (v : llama_vocab S) (ud : Unicode.unicode_data)
    (en : UnicodeRegex.regex_engine) (rounds capacity : nat) (tokenizer : option (llm_tokenizer (F := S))) (seq_breakers : list (list Z))
    (n_ctx_train : Z) (dry_multiplier dry_base : F) (dry_allowed_length dry_penalty_last_n : Z) : res llama_sampler_dry :=
  init_dry_text (length (v_id_to_token v))
    (fun id => detokenize_string v capacity (bool_decide (is_Some tokenizer)) [id] true)
    (fun text => tokenize v ud en rounds tokenizer text false false) seq_breakers n_ctx_train dry_multiplier dry_base dry_allowed_length dry_penalty_last_n.
